(* ===== verification/_CoqProject ===== *)
-Q . S2P
Prelude.v
Binary.v
SeqSet.v
SeqSetProofs.v
SeqSetSpec.v
SeqSetCodec.v
HashWheel.v
HashWheelProofs.v
HashWheelSpec.v
Bytes.v
Scheduler.v
SchedulerProofs.v
SchedulerSpec.v
IPQueue.v
IPQueueSpec.v
Subject.v
SubjectSpec.v
Trie.v
TrieSpec.v
Gsl.v
GslSpec.v
Sublist.v
SublistProofs.v
SublistCache.v
SublistSpec.v
SubjectTree.v
SubjectTreeStore.v
SubjectTreeProofs.v
SubjectTreeSpec.v
SubjectTreeMatch.v
SubjectTreeMatchProofs.v
SubjectTreeFilter.v
SubjectTreeMatchSpec.v
MemStore.v
MemStoreQuery.v
MemStoreAdmin.v
MemStoreProofs.v
MemStoreOps.v
MemStoreQueryProofs.v
MemStoreFilter.v
MemStoreLast.v
MemStoreAdminProofs.v
MemStoreWheel.v
MemStoreInst.v
MemStoreSpec.v
ConsumerStore.v
ConsumerStoreSpec.v
StreamCodec.v
GoStrings.v
SubjectTransform.v
SubjectTransformSpec.v
LinearClient.v
LinearClientSpec.v
MsgHeader.v
MsgHeaderSpec.v
MsgArgs.v
MsgArgsSpec.v
Parser.v
ParserSpec.v
ProtocolSpec.v
Delivery.v
DeliverySpec.v
RecordUpdate.v
RaftCodec.v
RaftCodecSpec.v
Raft.v
RaftFrame.v
RaftLog.v
RaftAppend.v
RaftRun.v
RaftElection.v
RaftVoting.v
RaftMemory.v
RaftSystem.v
RaftBallot.v
RaftCommit.v
RaftReport.v
RaftAcks.v
RaftEntries.v
RaftUnique.v
