(* ===== verification/Prelude.v ===== *)
(** * UbiQ / NATS server: verification library

    A model of the data structures, the in-memory message store, the protocol parser and the Raft
    nodes of the server under [src/server], and of the event client under [src/clients/go], with
    the theorems that make them correct.  Go functions are Rocq functions of
    the same name; Go's state is passed explicitly, its panics are [None], its errors values of an
    inductive type, and its fixed-width integers are [Z] with the wrap-around written out.

    ** The program and the files

    A subject is a string of tokens separated by dots; a subscription has a pattern of tokens in
    which [*] stands for one token and a final [>] for one or more.  The server finds the
    subscriptions of a message in a trie ([Sublist]), streams keep messages in a store, and the
    store is built from the small structures below.  Servers of a cluster keep their state equal
    with the entries of Raft groups.

    - [Prelude]: integers, tactics, hints and list lemmas; [Binary]: the byte encodings of Go's
      [encoding/binary]; [Bytes]: strings as bytes.
    - [SeqSet], [SeqSetProofs], [SeqSetSpec], [SeqSetCodec]: [avl/seqset.go], a set of sequence
      numbers as an AVL tree of 2048-bit nodes ([Module Avl]).
    - [HashWheel], [HashWheelProofs], [HashWheelSpec]: [thw/thw.go], the timer wheel
      ([Module Thw]).
    - [Scheduler], [SchedulerProofs], [SchedulerSpec]: [scheduler.go], scheduled messages
      ([Module Sched]), over the interface [TimerWheel] that the wheel implements.
    - [IPQueue], [IPQueueSpec]: [ipqueue.go], the queue between goroutines.
    - [Subject], [SubjectSpec]: the subject functions of [sublist.go] ([Module Subj]).
    - [Trie], [TrieSpec]: the levels and nodes that both sublists have; [Gsl], [GslSpec]:
      [gsl/gsl.go]; [Sublist], [SublistProofs], [SublistCache], [SublistSpec]: [sublist.go], with
      queue groups, the cache of results and interest notifications.
    - [SubjectTree], [SubjectTreeStore], [SubjectTreeProofs], [SubjectTreeSpec]: [stree/], an
      adaptive radix tree from subjects to values ([Module Stree]); [SubjectTreeMatch],
      [SubjectTreeMatchProofs], [SubjectTreeFilter], [SubjectTreeMatchSpec]: its matching by
      filter and the intersections with other trees and with a sublist.
    - [MemStore], [MemStoreQuery], [MemStoreAdmin]: [memstore.go] and [sdm.go], the message store
      ([Modules Mem, MemQuery, MemAdmin]), over the interfaces [SubjectMap], [SeqSetI],
      [TimerWheel] and [Headers]; [MemStoreProofs], [MemStoreOps], [MemStoreQueryProofs],
      [MemStoreFilter], [MemStoreLast], [MemStoreAdminProofs], [MemStoreWheel]: its invariant and
      operations, proved against the laws of the interfaces; [MemStoreInst]: the subject tree,
      the sequence set and the wheel satisfy these laws; [MemStoreSpec]: the store.
    - [ConsumerStore], [ConsumerStoreSpec]: the consumer state of [memstore.go], deliveries and
      acknowledgements, with its snapshot ([store.go], [filestore.go]); [StreamCodec]: the
      snapshot of a stream's state.
    - [MsgHeader], [MsgHeaderSpec]: the header block of messages, in [client.go] and
      [stream.go] ([Module Hdr]).
    - [MsgArgs], [MsgArgsSpec]: the protocol lines that announce messages, in [client.go],
      [route.go] and [leafnode.go] ([Module Proto]); [Parser], [ParserSpec]: [parser.go]
      ([Module Parse]), over the interface [Handlers] of the operations that lines start;
      [ProtocolSpec]: writer, parser and readers together.
    - [Delivery], [DeliverySpec]: [client.go], the delivery of a message to the subscriptions that
      a match found ([Module Deliver]), over the interface [Sender].
    - [SubjectTransform], [SubjectTransformSpec]: [subject_transform.go], the mapping of subjects
      to others ([Module Xform]).
    - [RaftCodec], [RaftCodecSpec]: the messages and files of [raft.go] as bytes; [Raft],
      [RaftLog], [RaftAppend], [RaftRun]: a Raft node of [raft.go], its terms, votes and members,
      its log and commits, append entries and catchup, and its loops, calls and start (Modules of
      these names), in a state monad over the interfaces [WAL] and [Files]; [RecordUpdate]: the
      update of fields.  [RaftFrame]: what handlers keep; [RaftElection], [RaftVoting]: terms and
      votes through every handler; [RaftSystem]: a group of nodes with a network and crashes;
      [RaftBallot]: the answers to vote requests; [RaftCommit]: commits; [RaftAcks], [RaftReport]: what leaders count and followers report;
      [RaftEntries], [RaftUnique]: the entries that leaders send; [RaftMemory]: storage in memory, to run groups with.
    - [GoStrings]: what the code uses of Go's [strings], [strconv] and [regexp].
    - [LinearClient], [LinearClientSpec]: [clients/go/linear.go], messages that are read once and
      the outbox ([Module Linear]), over the messages of the NATS library ([NatsMsg]).

    ** What the theorems show

    - Refinement: the sequence set is a finite set, the subject tree a finite map, the sublists
      sets of subscriptions, the queue a FIFO with limits, and the message store a log: each
      operation on a state that the operations can reach returns, and its effect and result are
      those of the abstract one ([seqset_refines_set], [stree_refines_map], [gsl_refines_set],
      [sl_refines_set], [ipq_fifo], [mem_refines_log]).
    - Matching: the tries, the tree and the subject functions all agree with the meaning of a
      pattern as a set of token sequences ([Subj.tok_match]).  Two departures of the code are part
      of the statements: the subset test and the transforms take a longer token that begins with
      a star for a star ([as_read], [starred]), and a cached result of the sublist may have a
      weighted remote queue subscription once ([sl_match_exact]).  The filters of the tree and of
      the store have wildcards as whole tokens only ([good_filter]).  A subject transform does
      what its texts say ([transform_match_exact]), and [transform_reverse] says when its reverse
      undoes it.
    - Time: the wheel expires exactly the due tasks, the scheduler returns exactly the messages
      that are due and keeps a timer armed, the store expires what is too old.
    - Snapshots: decoding an encoded set, wheel, schedule, consumer or stream state gives it
      back, up to what the formats round.
    - Protocol: the parser is the same function of the bytes in whatever pieces they are read
      ([parse_pieces]), unless a CR is inside a control line or the announcement of a message is
      one that the connection should not send, on which the pieces matter; a message written to another server is parsed and handed on there as it
      was sent ([message_line_roundtrip], [message_delivered]); header operations are operations
      on header lines ([header_lookup], [header_edit]).
    - Delivery: who gets a message, exactly ([fanout_exact]), and how far a linear message goes to
      one subscriber only ([linear_delivery]).
    - Raft: at most one leader in a term ([election_safety]), by an invariant over all events of a
      group: whoever voted has the vote on its disk.  The term and index of an entry name it: no two
      entries that leaders send have both in common ([entries_once]).  The quorum behind a commit: its size
      ([leader_commits]), that every acknowledgement was a message of this term
      ([acks_are_reports]), and what such a message says of the log of its sender
      ([success_is_stored]).  What a commit hands to the upper layer ([commits_in_order]), the format of
      append entries ([append_entry_roundtrip]), the answer to a vote request, which does not depend
      on whether the vote could be written ([vote_request_exact]), and when a node panics ([deliver_panics],
      [peer_state_panics]).
    - Events: a linear message is read at most once ([linear_access_once]); an event of the
      outbox is in it or was accepted ([outbox_exactly_once]); pending messages of a consumer are
      those delivered and neither acknowledged nor given up ([consumer_sound]).
    - Divergences: [sched_timer_stuck] and closed examples, among them [votes_lost] with two leaders
      in a term, for what the code does against its comments.

    ** Parameters, fuel and bounds

    Go ranges over a map in any order: the order is a parameter ([MapRange], [msg_range]) of which
    only that it is a permutation is assumed.  Message headers and the wall clock are parameters
    ([Headers], arguments [now]); [Headers] has no laws.  Callbacks thread a state.  A loop that is
    not structural has fuel: the depth of a tree, the number of sequences between two bounds, the
    number of messages; the theorems are that it does not run out.  [seq_limit] is 2^64 - 2048,
    where the sequence set stops being exact (see its divergences); a store theorem asks that
    sequences stay below and that the bytes fit in 64 bits.

    The log and the directory of a Raft node are parameters; [DurableVotes], [LogLaws] and
    [CountedLog] are what theorems assume of them, and [mem_dir] and [mem_log] satisfy it.  In a group a handler runs to
    its end (it holds the lock), a crash is between handlers and loses all but the disk, and the
    log after it may be any.  [election_safety] asks for one membership: [steady] says that every
    node counts the same members.  [entries_once] asks also that only leaders send snapshots, which
    the code leaves to the caller of [SendSnapshot], and that the group has more than one member:
    one that is alone can lose its role in the event in which it gets it.  A server does not get its own messages: the send queue
    suppresses them.

    ** What is not modelled

    Locks (a definition is a critical section), the file store, JetStream and its clustering, the
    connections themselves, accounts, configuration, certificates and monitoring: they are I/O,
    goroutines around the structures above, or calls of libraries.  In the modelled files: the
    reverse match and the statistics of [sublist.go], the schedule expressions of
    [scheduler.go], [stree/dump.go], the timers, the registry and the choice of account of
    [raft.go], the connection and the cryptography of [linear.go], tracing
    in [parser.go], and the sharing of memory between slices, except in the outbox, whose slice
    is compacted while it is ranged over. *)

From stdpp Require Export base tactics list numbers strings gmap sets fin_maps sorting.
From Stdlib Require Export ZArith Lia.

#[global] Open Scope Z_scope.

(** ** Machine integers

    Go's [uint8 .. uint64] and [int64] are modelled by [Z] with the wrap-around
    written out at each operation that can overflow. *)

Definition u8 (x : Z) : Z := x mod 2 ^ 8.
Definition u16 (x : Z) : Z := x mod 2 ^ 16.
Definition u32 (x : Z) : Z := x mod 2 ^ 32.
Definition u64 (x : Z) : Z := x mod 2 ^ 64.
Definition i64 (x : Z) : Z := (x + 2 ^ 63) mod 2 ^ 64 - 2 ^ 63.

Definition max_int64 : Z := 2 ^ 63 - 1.
Definition max_uint64 : Z := 2 ^ 64 - 1.

Definition is_u64 (x : Z) : Prop := 0 <= x < 2 ^ 64.
Definition is_i64 (x : Z) : Prop := - 2 ^ 63 <= x < 2 ^ 63.
Definition is_byte (x : Z) : Prop := 0 <= x < 256.

Create HintDb gohints.

Lemma u64_small x : is_u64 x -> u64 x = x.
Proof. intros H. apply Z.mod_small. exact H. Qed.

Lemma u64_range x : is_u64 (u64 x).
Proof. apply Z.mod_pos_bound. lia. Qed.

Lemma i64_small x : is_i64 x -> i64 x = x.
Proof. unfold is_i64, i64. intros H. rewrite Z.mod_small by lia. lia. Qed.

Lemma i64_range x : is_i64 (i64 x).
Proof.
  unfold is_i64, i64. pose proof (Z.mod_pos_bound (x + 2 ^ 63) (2 ^ 64)). lia.
Qed.

#[export] Hint Resolve u64_range i64_range : gohints.
#[export] Hint Rewrite u64_small i64_small using (unfold is_u64, is_i64 in *; lia) : gohints.

(** ** Tactics *)

(** Case analysis on the scrutinee of a [match] or [if] of the goal. *)
Ltac go_case :=
  match goal with
  | |- context [match ?e with _ => _ end] =>
      lazymatch e with
      | context [match _ with _ => _ end] => fail
      | _ => destruct e eqn:?
      end
  end.

(** Boolean comparisons of the code turned into arithmetic facts. *)
Ltac go_bool :=
  repeat match goal with
  | H : (_ <? _) = true |- _ => apply Z.ltb_lt in H
  | H : (_ <? _) = false |- _ => apply Z.ltb_ge in H
  | H : (_ <=? _) = true |- _ => apply Z.leb_le in H
  | H : (_ <=? _) = false |- _ => apply Z.leb_gt in H
  | H : (_ =? _) = true |- _ => apply Z.eqb_eq in H
  | H : (_ =? _) = false |- _ => apply Z.eqb_neq in H
  | H : (_ && _)%bool = true |- _ => apply andb_prop in H as [? ?]
  | H : (_ || _)%bool = false |- _ => apply orb_false_elim in H as [? ?]
  | H : negb _ = true |- _ => apply negb_true_iff in H
  | H : negb _ = false |- _ => apply negb_false_iff in H
  | H : bool_decide _ = true |- _ => apply bool_decide_eq_true in H
  | H : bool_decide _ = false |- _ => apply bool_decide_eq_false in H
  end.

(** ** Booleans *)

Lemma bool_decide_true_eq (b : bool) : bool_decide (b = true) = b.
Proof. by destruct b. Qed.

(** ** Bits *)

Lemma testbit_one k : Z.testbit 1 k = (k =? 0).
Proof.
  destruct (Z.eqb_spec k 0) as [->|Hne]; [done|].
  destruct (decide (k < 0)); [by rewrite Z.testbit_neg_r|].
  apply Z.bits_above_log2; simpl; lia.
Qed.

Lemma testbit_mask k i : 0 <= k -> 0 <= i -> Z.testbit (Z.shiftl 1 k) i = (i =? k).
Proof.
  intros Hk Hi. rewrite Z.shiftl_spec, testbit_one by lia.
  destruct (Z.eqb_spec (i - k) 0), (Z.eqb_spec i k); lia || done.
Qed.

(** The test [w&mask == 0] for a one-bit mask. *)
Lemma land_mask_eqb w k : 0 <= k -> (Z.land w (Z.shiftl 1 k) =? 0) = negb (Z.testbit w k).
Proof.
  intros Hk. destruct (Z.testbit w k) eqn:E; simpl.
  - apply Z.eqb_neq. intros H0.
    assert (Z.testbit (Z.land w (Z.shiftl 1 k)) k = true) as Ht.
    { rewrite Z.land_spec, E, testbit_mask, Z.eqb_refl by lia. done. }
    rewrite H0, Z.testbit_0_l in Ht. discriminate.
  - apply Z.eqb_eq. apply Z.bits_inj'. intros i Hi.
    rewrite Z.land_spec, testbit_mask, Z.testbit_0_l by lia.
    destruct (Z.eqb_spec i k) as [->|]; [by rewrite E|apply andb_false_r].
Qed.

Lemma u64_testbit_high w i : is_u64 w -> 64 <= i -> Z.testbit w i = false.
Proof.
  intros [? ?] Hi. destruct (decide (w = 0)) as [->|]; [apply Z.testbit_0_l|].
  apply Z.bits_above_log2; [lia|]. apply Z.log2_lt_pow2; [lia|].
  apply Z.lt_le_trans with (2 ^ 64); [lia|]. apply Z.pow_le_mono_r; lia.
Qed.

Lemma u64_of_testbit w : 0 <= w -> (forall i, 64 <= i -> Z.testbit w i = false) -> is_u64 w.
Proof.
  intros H0 Hb. split; [done|]. destruct (decide (w = 0)) as [->|]; [lia|].
  apply Z.log2_lt_pow2; [lia|].
  destruct (decide (Z.log2 w < 64)); [done|].
  pose proof (Z.bit_log2 w). rewrite Hb in H; [|lia]. exfalso. assert (false = true) by (apply H; lia). done.
Qed.

Lemma u64_zero_of_bits w : is_u64 w -> (forall i, 0 <= i < 64 -> Z.testbit w i = false) -> w = 0.
Proof.
  intros Hw Hb. apply Z.bits_inj'. intros i Hi. rewrite Z.testbit_0_l.
  destruct (decide (i < 64)); [apply Hb; lia|]. apply u64_testbit_high; [done|lia].
Qed.

(** ** Lists *)

#[export] Instance list_filter_perm {A} (f : A -> bool) : Proper ((≡ₚ) ==> (≡ₚ)) (List.filter f).
Proof.
  induction 1 as [|x l l' _ IH|x y l|l l' l'' _ IH1 _ IH2]; cbn; repeat case_match; eauto using Permutation.
Qed.

Lemma list_filter_all {A} (f : A -> bool) (l : list A) :
  (forall x, x ∈ l -> f x = true) -> List.filter f l = l.
Proof.
  induction l as [|x l IH]; intros H; [done|]. cbn. rewrite H by left. f_equal. apply IH.
  intros y Hy. apply H. by right.
Qed.

Lemma list_filter_none {A} (f : A -> bool) (l : list A) :
  (forall x, x ∈ l -> f x = false) -> List.filter f l = [].
Proof.
  induction l as [|x l IH]; intros H; [done|]. cbn. rewrite H by left. apply IH.
  intros y Hy. apply H. by right.
Qed.

Lemma omap_ext_in {A B} (f g : A -> option B) (l : list A) :
  (forall x, x ∈ l -> f x = g x) -> omap f l = omap g l.
Proof.
  induction l as [|x l IH]; intros H; [done|]. cbn. rewrite (H x) by left.
  rewrite IH; [done|]. intros y Hy. apply H. by right.
Qed.

Lemma list_filter_ext_in {A} (f g : A -> bool) (l : list A) :
  (forall x, x ∈ l -> f x = g x) -> List.filter f l = List.filter g l.
Proof. intros H. apply List.filter_ext_in. intros x Hx. by apply H, list_elem_of_In. Qed.

Lemma and_iff_compat_l_dep (P Q R : Prop) : (P -> Q <-> R) -> (P /\ Q <-> P /\ R).
Proof. tauto. Qed.

Lemma list_omap_cons {A B} (f : A -> option B) (x : A) (l : list A) :
  omap f (x :: l) = match f x with Some y => y :: omap f l | None => omap f l end.
Proof. done. Qed.

Lemma NoDup_bind {A B} (f : A -> list B) (l : list A) :
  NoDup l -> (forall x, x ∈ l -> NoDup (f x)) ->
  (forall x y z, x ∈ l -> y ∈ l -> z ∈ f x -> z ∈ f y -> x = y) -> NoDup (l ≫= f).
Proof.
  induction l as [|x l IH]; intros Hnd Hf Hd; [by apply NoDup_nil|]. apply NoDup_cons in Hnd as [Hn Hnd].
  rewrite bind_cons. apply NoDup_app. split_and!; [apply Hf; by left| |apply IH; [done|..]].
  - intros z Hz (y&Hzy&Hy)%list_elem_of_bind. apply Hn.
    assert (x = y) as ->; [|done]. by apply (Hd x y z); [left|right|..].
  - intros y Hy. apply Hf. by right.
  - intros y1 y2 z H1 H2. apply Hd; by right.
Qed.

Lemma list_fmap_of_bind {A B C} (g : B -> C) (f : A -> list B) (l : list A) :
  g <$> (l ≫= f) = l ≫= fun x => g <$> f x.
Proof. induction l as [|x l IH]; [done|]. by rewrite !bind_cons, fmap_app, IH. Qed.
