(* ===== verification/Binary.v ===== *)
(** * Byte encodings of Go's [encoding/binary]

    The parts of the Go standard library the repository encodes snapshots with: fixed-width
    little- and big-endian integers, and (zig-zag) varints.  A byte is a [Z] in [[0, 256)),
    a slice of bytes a list. *)

From S2P Require Import Prelude.

(** ** Fixed width *)

(** [binary.LittleEndian.PutUint16/32/64] of [n] bytes. *)
Fixpoint le_put (n : nat) (v : Z) : list Z :=
  match n with
  | O => []
  | S n => v mod 256 :: le_put n (v / 256)
  end.

(** [binary.LittleEndian.Uint16/32/64]: the first [n] bytes; the callers check the length. *)
Fixpoint le_get (n : nat) (b : list Z) : Z :=
  match n, b with
  | S n, x :: b => x + 256 * le_get n b
  | _, _ => 0
  end.

(** [binary.BigEndian.Uint16]. *)
Definition be_get16 (hi lo : Z) : Z := hi * 256 + lo.

Lemma length_le_put n v : length (le_put n v) = n.
Proof. revert v. induction n as [|n IH]; intros v; [done|]. simpl. by rewrite IH. Qed.

Lemma le_get_put n v b : 0 <= v < 256 ^ Z.of_nat n -> le_get n (le_put n v ++ b) = v.
Proof.
  revert v. induction n as [|n IH]; intros v Hv; [simpl in *; lia|].
  rewrite Nat2Z.inj_succ, Z.pow_succ_r in Hv by lia. cbn [le_put le_get app].
  rewrite IH.
  - pose proof (Z.div_mod v 256 ltac:(lia)). lia.
  - split; [apply Z.div_pos; lia|apply Z.div_lt_upper_bound; lia].
Qed.

Lemma le_put_bytes n v : Forall is_byte (le_put n v).
Proof.
  revert v. induction n as [|n IH]; intros v; constructor; [|apply IH].
  apply Z.mod_pos_bound. lia.
Qed.

(** ** Varints *)

(** [binary.MaxVarintLen64]. *)
Definition max_varint_len : nat := 10.

(** [binary.AppendUvarint]: the bytes appended.  A [uint64] takes at most ten groups of
    seven bits. *)
Fixpoint put_uvarint_loop (fuel : nat) (v : Z) : list Z :=
  match fuel with
  | O => []
  | S fuel =>
      if v <? 128 then [v]
      else Z.lor (v mod 256) 128 :: put_uvarint_loop fuel (Z.shiftr v 7)
  end.

Definition put_uvarint (v : Z) : list Z := put_uvarint_loop max_varint_len v.

(** [binary.Uvarint]: the value and the number of bytes read; 0 bytes when the buffer is too
    small and a negative number on overflow. *)
Fixpoint uvarint_loop (b : list Z) (i : nat) (x s : Z) : Z * Z :=
  match b with
  | [] => (0, 0)
  | c :: b =>
      if Nat.eqb i max_varint_len then (0, - (Z.of_nat i + 1))
      else if c <? 128 then
        if Nat.eqb i (max_varint_len - 1) && (1 <? c) then (0, - (Z.of_nat i + 1))
        else (Z.lor x (u64 (Z.shiftl c s)), Z.of_nat i + 1)
      else uvarint_loop b (S i) (Z.lor x (u64 (Z.shiftl (Z.land c 127) s))) (s + 7)
  end.

Definition uvarint (b : list Z) : Z * Z := uvarint_loop b 0 0 0.

(** [binary.AppendVarint] and [binary.Varint]: zig-zag on top of the unsigned forms. *)
Definition put_varint (x : Z) : list Z :=
  let ux := u64 (Z.shiftl x 1) in
  put_uvarint (if x <? 0 then u64 (Z.lnot ux) else ux).

Definition varint (b : list Z) : Z * Z :=
  let '(ux, n) := uvarint b in
  let x := Z.shiftr ux 1 in
  ((if negb (Z.land ux 1 =? 0) then Z.lnot x else x), n).

Lemma lor_shiftl x y s : 0 <= s -> 0 <= x < 2 ^ s -> Z.lor x (Z.shiftl y s) = x + y * 2 ^ s.
Proof.
  intros Hs Hx. pose proof (Z.add_lor_land x (Z.shiftl y s)) as H.
  assert (Z.land x (Z.shiftl y s) = 0) as H0.
  { apply Z.bits_inj'. intros i Hi. rewrite Z.land_spec, Z.testbit_0_l, Z.shiftl_spec by lia.
    destruct (decide (i < s)); [rewrite (Z.testbit_neg_r _ (i - s)) by lia; apply andb_false_r|].
    rewrite <- (Z.mod_small x (2 ^ s)), Z.mod_pow2_bits_high by lia. done. }
  rewrite Z.shiftl_mul_pow2 in * by lia. lia.
Qed.

Lemma varint_group v : 128 <= v -> Z.lor (v mod 256) 128 = 128 + v mod 128.
Proof.
  intros Hv. pose proof (Z.mod_pos_bound v 128 ltac:(lia)).
  assert (v mod 256 = v mod 128 \/ v mod 256 = v mod 128 + 128) as [->| ->].
  { pose proof (Z.div_mod v 128 ltac:(lia)). pose proof (Z.div_mod v 256 ltac:(lia)).
    pose proof (Z.mod_pos_bound v 256 ltac:(lia)). lia. }
  - change 128 with (Z.shiftl 1 7) at 2. rewrite lor_shiftl by lia. lia.
  - pose proof (lor_shiftl (v mod 128) 1 7 ltac:(lia) ltac:(lia)) as H1.
    change (Z.shiftl 1 7) with 128 in H1. change (1 * 2 ^ 7) with 128 in H1.
    rewrite <- H1, <- Z.lor_assoc, Z.lor_diag, H1. lia.
Qed.

Lemma land127 v : Z.land v 127 = v mod 128.
Proof. change 127 with (Z.ones 7). by rewrite Z.land_ones by lia. Qed.

Lemma land1 v : Z.land v 1 = v mod 2.
Proof. change 1 with (Z.ones 1). by rewrite Z.land_ones by lia. Qed.

Lemma uvarint_loop_put fuel i v x b :
  (i + fuel = 10)%nat -> 0 < Z.of_nat fuel ->
  0 <= x < 2 ^ (7 * Z.of_nat i) -> 0 <= v -> v < 2 ^ (64 - 7 * Z.of_nat i) ->
  uvarint_loop (put_uvarint_loop fuel v ++ b) i x (7 * Z.of_nat i) =
    (x + v * 2 ^ (7 * Z.of_nat i), Z.of_nat (i + length (put_uvarint_loop fuel v))).
Proof.
  revert i v x. induction fuel as [|fuel IH]; intros i v x Hi Hf Hx Hv0 Hv; [lia|].
  assert (i < 10)%nat as Hi' by lia.
  assert (2 ^ 64 = 2 ^ (64 - 7 * Z.of_nat i) * 2 ^ (7 * Z.of_nat i)) as Hpow
    by (rewrite <- Z.pow_add_r by lia; f_equal; lia).
  assert (0 < 2 ^ (7 * Z.of_nat i)) by (apply Z.pow_pos_nonneg; lia).
  cbn [put_uvarint_loop]. destruct (Z.ltb_spec v 128) as [Hlt|Hge].
  - cbn [app uvarint_loop]. rewrite (proj2 (Nat.eqb_neq i max_varint_len)) by (unfold max_varint_len; lia).
    rewrite (proj2 (Z.ltb_lt v 128)) by done.
    assert ((Nat.eqb i (max_varint_len - 1) && (1 <? v))%bool = false) as ->.
    { apply andb_false_iff. destruct (decide (i = 9%nat)) as [->|]; [right|left].
      - apply Z.ltb_ge. change (2 ^ (64 - 7 * Z.of_nat 9)) with 2 in Hv. lia.
      - apply Nat.eqb_neq. unfold max_varint_len. lia. }
    rewrite u64_small, lor_shiftl by (try rewrite Z.shiftl_mul_pow2 by lia; unfold is_u64; try nia; lia).
    f_equal. cbn [length]. lia.
  - assert (fuel <> 0%nat) as Hfu.
    { intros ->. replace i with 9%nat in Hv by lia. change (2 ^ (64 - 7 * Z.of_nat 9)) with 2 in Hv. lia. }
    cbn [app uvarint_loop]. rewrite (proj2 (Nat.eqb_neq i max_varint_len)) by (unfold max_varint_len; lia).
    rewrite varint_group by done. pose proof (Z.mod_pos_bound v 128 ltac:(lia)).
    rewrite (proj2 (Z.ltb_ge _ 128)) by lia.
    rewrite land127, <- (Z.mul_1_l 128) at 1.
    replace (1 * 128 + v mod 128) with (v mod 128 + 1 * 128) by lia.
    rewrite Z.mod_add, Z.mod_mod by lia.
    assert (v mod 128 * 2 ^ (7 * Z.of_nat i) < 2 ^ 64).
    { apply Z.le_lt_trans with (v * 2 ^ (7 * Z.of_nat i)); [|nia].
      apply Z.mul_le_mono_nonneg_r; [lia|]. apply Z.mod_le; lia. }
    rewrite u64_small, lor_shiftl by (try rewrite Z.shiftl_mul_pow2 by lia; unfold is_u64; try nia; lia).
    replace (7 * Z.of_nat i + 7) with (7 * Z.of_nat (S i)) by lia.
    rewrite Z.shiftr_div_pow2 by lia. change (2 ^ 7) with 128.
    assert (2 ^ (7 * Z.of_nat (S i)) = 128 * 2 ^ (7 * Z.of_nat i)) as Hp1.
    { change 128 with (2 ^ 7). rewrite <- Z.pow_add_r by lia. f_equal. lia. }
    pose proof (Z.div_mod v 128 ltac:(lia)) as Hdm.
    rewrite IH; [|lia|lia| |apply Z.div_pos; lia|].
    + rewrite Hp1. f_equal; [nia|]. cbn [length]. lia.
    + rewrite Hp1. nia.
    + apply Z.div_lt_upper_bound; [lia|]. replace 128 with (2 ^ 7) by done.
      rewrite <- Z.pow_add_r by lia. eapply Z.lt_le_trans; [exact Hv|]. apply Z.pow_le_mono_r; lia.
Qed.

(** Decoding an encoded [uint64] gives it back, and consumes exactly its bytes. *)
Lemma uvarint_put v b : is_u64 v -> uvarint (put_uvarint v ++ b) = (v, Z.of_nat (length (put_uvarint v))).
Proof.
  intros [H0 H1]. unfold uvarint, put_uvarint.
  pose proof (uvarint_loop_put max_varint_len 0 v 0 b) as H.
  change (7 * Z.of_nat 0) with 0 in H. rewrite H; [|done|done|done|done|done].
  f_equal. lia.
Qed.

Lemma put_uvarint_length v : (0 < length (put_uvarint v))%nat.
Proof. unfold put_uvarint. cbn. destruct (v <? 128); cbn; lia. Qed.

Lemma varint_put x b : is_i64 x -> varint (put_varint x ++ b) = (x, Z.of_nat (length (put_varint x))).
Proof.
  unfold is_i64. intros Hx. unfold put_varint, varint. rewrite Z.shiftl_mul_pow2 by lia. change (2 ^ 1) with 2.
  destruct (Z.ltb_spec x 0) as [Hn|Hp].
  - assert (u64 (x * 2) = x * 2 + 2 ^ 64) as ->.
    { unfold u64. symmetry. apply (Z.mod_unique_pos _ _ (-1)); lia. }
    assert (u64 (Z.lnot (x * 2 + 2 ^ 64)) = - x * 2 - 1) as ->.
    { unfold u64, Z.lnot. symmetry. apply (Z.mod_unique_pos _ _ (-1)); lia. }
    rewrite uvarint_put by (unfold is_u64; lia).
    rewrite land1, Z.shiftr_div_pow2 by lia. change (2 ^ 1) with 2.
    replace (- x * 2 - 1) with (1 + (- x - 1) * 2) by lia.
    rewrite Z.mod_add, Z.div_add by lia. change (1 mod 2) with 1. change (1 / 2) with 0. cbn [Z.eqb negb].
    f_equal. unfold Z.lnot. lia.
  - assert (u64 (x * 2) = x * 2) as -> by (apply u64_small; unfold is_u64; lia).
    rewrite uvarint_put by (unfold is_u64; lia).
    rewrite land1, Z.shiftr_div_pow2 by lia. change (2 ^ 1) with 2.
    rewrite Z.mod_mul, Z.div_mul by lia. done.
Qed.

#[export] Hint Rewrite length_le_put : gohints.
