(* ===== verification/SeqSet.v ===== *)
(** * Sequence sets (src/server/avl/seqset.go)

    [SequenceSet] is an AVL tree whose nodes hold 2048-bit bitmaps.  This file
    has the tree, its operations and the state of the set; [SeqSetProofs] shows
    that they implement a finite set of sequence numbers.

    Node pointers of the source are values of [node] ([Nil] is the nil pointer):
    the tree is never shared, every function that changes a node returns it.
    The out-parameters [inserted *bool], [deleted *bool] and [nodes *int] are
    passed and returned.  The repeated re-balancing block of [insert], [delete]
    and [insertNodePrev] is [rebalance]. *)

From S2P Require Import Prelude.

Module Avl.

Definition bitsPerBucket : Z := 64.
Definition numBuckets : Z := 32.
Definition numEntries : Z := numBuckets * bitsPerBucket.

Inductive node : Type :=
| Nil
| Node (base : Z) (bits : list Z) (l r : node) (h : Z).

(** The zero value of [[numBuckets]uint64]. *)
Definition zero_bits : list Z := replicate (Z.to_nat numBuckets) 0.

(** [n.bits[i]]; the index is in range at every use ([seq_index_in_range]). *)
Definition bits_at (bits : list Z) (i : nat) : Z := default 0 (bits !! i).

Definition seq_index (base seq : Z) : nat := Z.to_nat (u64 (seq - base) / bitsPerBucket).
Definition seq_mask (base seq : Z) : Z := Z.shiftl 1 (u64 (seq - base) mod bitsPerBucket).

(** [(n *node) set]. *)
Definition node_set (base : Z) (bits : list Z) (seq : Z) (inserted : bool) : list Z * bool :=
  let i := seq_index base seq in
  let mask := seq_mask base seq in
  if Z.land (bits_at bits i) mask =? 0
  then (<[i := Z.lor (bits_at bits i) mask]> bits, true)
  else (bits, inserted).

(** [(n *node) clear]: the bitmap, whether the node is now empty, [deleted]. *)
Definition node_clear (base : Z) (bits : list Z) (seq : Z) (deleted : bool)
  : list Z * bool * bool :=
  let i := seq_index base seq in
  let mask := seq_mask base seq in
  let '(bits, deleted) :=
    if negb (Z.land (bits_at bits i) mask =? 0)
    then (<[i := Z.ldiff (bits_at bits i) mask]> bits, true)
    else (bits, deleted) in
  (bits, forallb (fun b => b =? 0) bits, deleted).

(** [(n *node) exists]. *)
Definition node_exists (base : Z) (bits : list Z) (seq : Z) : bool :=
  negb (Z.land (bits_at bits (seq_index base seq)) (seq_mask base seq) =? 0).

Definition height (n : node) : Z :=
  match n with Nil => 0 | Node _ _ _ _ h => h end.

Definition balanceF (n : node) : Z :=
  match n with Nil => 0 | Node _ _ l r _ => height l - height r end.

Definition maxH (n : node) : Z :=
  match n with
  | Nil => 0
  | Node _ _ l r _ => if height r <? height l then height l else height r
  end.

(** [n.h = maxH(n) + 1]. *)
Definition set_h (n : node) : node :=
  match n with
  | Nil => Nil
  | Node base bits l r h => Node base bits l r (maxH n + 1)
  end.

Definition rotateL (n : node) : node :=
  match n with
  | Node base bits l (Node rbase rbits rl rr rh) h =>
      set_h (Node rbase rbits (set_h (Node base bits l rl h)) rr rh)
  | _ => Nil
  end.

Definition rotateR (n : node) : node :=
  match n with
  | Node base bits (Node lbase lbits ll lr lh) r h =>
      set_h (Node lbase lbits ll (set_h (Node base bits lr r h)) lh)
  | _ => Nil
  end.

Definition rebalance (n : node) : node :=
  match n with
  | Nil => Nil
  | Node base bits l r h =>
      if 1 <? balanceF n then
        rotateR (Node base bits (if balanceF l <? 0 then rotateL l else l) r h)
      else if balanceF n <? -1 then
        rotateL (Node base bits l (if 0 <? balanceF r then rotateR r else r) h)
      else n
  end.

Fixpoint insert (n : node) (seq : Z) (inserted : bool) (nodes : Z) : node * bool * Z :=
  match n with
  | Nil =>
      let base := (seq / numEntries) * numEntries in
      let '(bits, inserted) := node_set base zero_bits seq inserted in
      (Node base bits Nil Nil 1, inserted, nodes + 1)
  | Node base bits l r h =>
      let '(n, inserted, nodes) :=
        if seq <? base then
          let '(l, inserted, nodes) := insert l seq inserted nodes in
          (Node base bits l r h, inserted, nodes)
        else if u64 (base + numEntries) <=? seq then
          let '(r, inserted, nodes) := insert r seq inserted nodes in
          (Node base bits l r h, inserted, nodes)
        else
          let '(bits, inserted) := node_set base bits seq inserted in
          (Node base bits l r h, inserted, nodes) in
      (rebalance (set_h n), inserted, nodes)
  end.

Fixpoint insertNodePrev (n nn : node) : node :=
  match n with
  | Nil => Nil
  | Node base bits l r h =>
      let l := match l with Nil => nn | Node _ _ _ _ _ => insertNodePrev l nn end in
      rebalance (set_h (Node base bits l r h))
  end.

(** The unlinking of a node that became empty. *)
Definition unlink (l r : node) : node :=
  match l, r with
  | Nil, _ => r
  | _, Nil => l
  | _, _ => insertNodePrev r l
  end.

Fixpoint delete (n : node) (seq : Z) (deleted : bool) (nodes : Z) : node * bool * Z :=
  match n with
  | Nil => (Nil, deleted, nodes)
  | Node base bits l r h =>
      let '(n, deleted, nodes) :=
        if seq <? base then
          let '(l, deleted, nodes) := delete l seq deleted nodes in
          (Node base bits l r h, deleted, nodes)
        else if u64 (base + numEntries) <=? seq then
          let '(r, deleted, nodes) := delete r seq deleted nodes in
          (Node base bits l r h, deleted, nodes)
        else
          let '(bits, empty, deleted) := node_clear base bits seq deleted in
          if empty then (unlink l r, deleted, nodes - 1)
          else (Node base bits l r h, deleted, nodes) in
      (rebalance (set_h n), deleted, nodes)
  end.

(** [bits.TrailingZeros64] and [bits.LeadingZeros64]. *)
Fixpoint pos_trailing_zeros (p : positive) : Z :=
  match p with
  | xO q => 1 + pos_trailing_zeros q
  | _ => 0
  end.

Definition trailingZeros64 (x : Z) : Z :=
  match x with Zpos p => pos_trailing_zeros p | _ => 64 end.

Definition leadingZeros64 (x : Z) : Z :=
  if x =? 0 then 64 else 63 - Z.log2 x.

(** [(n *node) min]: the first non-zero bucket, from bucket [i] on. *)
Fixpoint node_min (base : Z) (i : Z) (bits : list Z) : Z :=
  match bits with
  | [] => 0
  | b :: bits =>
      if negb (b =? 0) then u64 (base + i * bitsPerBucket + trailingZeros64 b)
      else node_min base (i + 1) bits
  end.

(** [(n *node) max]: the last non-zero bucket, from bucket [i - 1] down. *)
Fixpoint node_max (base : Z) (bits : list Z) (i : nat) : Z :=
  match i with
  | O => 0
  | S i =>
      let b := bits_at bits i in
      if negb (b =? 0)
      then u64 (base + Z.of_nat i * bitsPerBucket
                + (bitsPerBucket - leadingZeros64 (Z.shiftr b 1)))
      else node_max base bits i
  end.

(** [nodeIter]: the nodes in tree (pre-) order, the callback in state-passing style. *)
Fixpoint nodeIter {S : Type} (n : node) (f : node -> S -> S) (s : S) : S :=
  match n with
  | Nil => s
  | Node base bits l r h => nodeIter r f (nodeIter l f (f n s))
  end.

(** The loop over one node's range, [fuel] numbers from [num] on. *)
Fixpoint iter_bits {S : Type} (base : Z) (bits : list Z) (f : Z -> S -> S * bool)
    (fuel : nat) (num : Z) (s : S) : S * bool :=
  match fuel with
  | O => (s, true)
  | Datatypes.S fuel =>
      if node_exists base bits num then
        let '(s, ok) := f num s in
        if ok then iter_bits base bits f fuel (num + 1) s else (s, false)
      else iter_bits base bits f fuel (num + 1) s
  end.

(** [iter]; the bound [n.base+numEntries] wraps around for the last node of the range. *)
Fixpoint iter {S : Type} (n : node) (f : Z -> S -> S * bool) (s : S) : S * bool :=
  match n with
  | Nil => (s, true)
  | Node base bits l r _ =>
      let '(s, ok) := iter l f s in
      if negb ok then (s, false) else
      let '(s, ok) := iter_bits base bits f (Z.to_nat (u64 (base + numEntries) - base)) base s in
      if negb ok then (s, false) else
      iter r f s
  end.

(** ** The set *)

Record SequenceSet : Type := mkSequenceSet {
  root : node;
  ss_size : Z;
  ss_nodes : Z;
  changed : bool;
}.

(** The zero value, [var ss SequenceSet]. *)
Definition new_set : SequenceSet := mkSequenceSet Nil 0 0 false.

Definition Insert (ss : SequenceSet) (seq : Z) : SequenceSet :=
  let '(root, changed, nodes) := insert (root ss) seq (changed ss) (ss_nodes ss) in
  if changed then mkSequenceSet root (ss_size ss + 1) nodes false
  else mkSequenceSet root (ss_size ss) nodes changed.

Fixpoint exists_from (n : node) (seq : Z) : bool :=
  match n with
  | Nil => false
  | Node base bits l r _ =>
      if seq <? base then exists_from l seq
      else if u64 (base + numEntries) <=? seq then exists_from r seq
      else node_exists base bits seq
  end.

Definition Exists_ (ss : SequenceSet) (seq : Z) : bool := exists_from (root ss) seq.

Definition IsEmpty (ss : SequenceSet) : bool :=
  match root ss with Nil => true | _ => false end.

Definition Empty (ss : SequenceSet) : SequenceSet := mkSequenceSet Nil 0 0 (changed ss).

(** [None] is [ErrSetNotEmpty]. *)
Definition SetInitialMin (ss : SequenceSet) (min : Z) : option SequenceSet :=
  if negb (IsEmpty ss) then None
  else Some (mkSequenceSet (Node min zero_bits Nil Nil 1) (ss_size ss) 1 (changed ss)).

Definition Delete (ss : SequenceSet) (seq : Z) : SequenceSet * bool :=
  if IsEmpty ss then (ss, false) else
  let '(root, changed, nodes) := delete (root ss) seq (changed ss) (ss_nodes ss) in
  if changed then
    let ss := mkSequenceSet root (ss_size ss - 1) nodes false in
    (if ss_size ss =? 0 then Empty ss else ss, true)
  else (mkSequenceSet root (ss_size ss) nodes changed, false).

Definition Size (ss : SequenceSet) : Z := ss_size ss.
Definition Nodes (ss : SequenceSet) : Z := ss_nodes ss.

Definition Range {S : Type} (ss : SequenceSet) (f : Z -> S -> S * bool) (s : S) : S :=
  fst (iter (root ss) f s).

Definition Heights (ss : SequenceSet) : Z * Z :=
  match root ss with
  | Nil => (0, 0)
  | Node _ _ l r _ => (height l, height r)
  end.

(** The two loops of [MinMax]: walk to the left-most and to the right-most node. *)
Fixpoint leftmost_min (n : node) (min : Z) : Z :=
  match n with
  | Nil => min
  | Node base bits Nil _ _ => node_min base 0 bits
  | Node _ _ l _ _ => leftmost_min l min
  end.

Fixpoint rightmost_max (n : node) (max : Z) : Z :=
  match n with
  | Nil => max
  | Node base bits _ Nil _ => node_max base bits (Z.to_nat numBuckets)
  | Node _ _ _ r _ => rightmost_max r max
  end.

Definition MinMax (ss : SequenceSet) : Z * Z :=
  match root ss with
  | Nil => (0, 0)
  | _ => (leftmost_min (root ss) 0, rightmost_max (root ss) 0)
  end.

Definition State (ss : SequenceSet) : Z * Z * Z :=
  match root ss with
  | Nil => (0, 0, 0)
  | _ => (MinMax ss, u64 (Size ss))
  end.

Fixpoint clone (src : node) : node :=
  match src with
  | Nil => Nil
  | Node base bits l r h => Node base bits (clone l) (clone r) h
  end.

Definition Clone (ss : SequenceSet) : SequenceSet :=
  mkSequenceSet (clone (root ss)) (ss_size ss) (ss_nodes ss) false.

(** The loop [for pos := 0; b != 0; pos++ { if b&1 == 1 {...}; b >>= 1 }] shared by the
    method [Union] and [decodev1]: insert [start + pos] for the set bits of [b].  A 64-bit
    word is zero after 64 shifts, so [fuel] 64 never runs out ([insert_word_fuel]). *)
Fixpoint insert_word (fuel : nat) (start pos b : Z) (ss : SequenceSet) : SequenceSet :=
  match fuel with
  | O => ss
  | Datatypes.S fuel =>
      if b =? 0 then ss else
      insert_word fuel start (pos + 1) (Z.shiftr b 1)
        (if Z.land b 1 =? 1 then Insert ss (u64 (start + pos)) else ss)
  end.

Fixpoint insert_words (base nb : Z) (bits : list Z) (ss : SequenceSet) : SequenceSet :=
  match bits with
  | [] => ss
  | b :: bits =>
      insert_words base (nb + 1) bits
        (insert_word 64 (u64 (base + nb * bitsPerBucket)) 0 b ss)
  end.

(** [(ss *SequenceSet) Union]. *)
Definition Union_into (ss : SequenceSet) (ssa : list SequenceSet) : SequenceSet :=
  fold_left (fun ss sa =>
    nodeIter (root sa) (fun n ss =>
      match n with
      | Nil => ss
      | Node base bits _ _ _ => insert_words base 0 bits ss
      end) ss) ssa ss.

(** The package function [Union].  [slices.SortFunc] by descending size is not stable: any
    sorted permutation of the argument may come first, so the sorted slice is the
    argument [sorted]. *)
Definition Union_sorted (sorted : list SequenceSet) : option SequenceSet :=
  match sorted with
  | [] => None
  | sa :: rest =>
      Some (fold_left (fun ss sa => Range sa (fun n ss => (Insert ss n, true)) ss)
                      rest (Clone sa))
  end.

End Avl.
