(* ===== verification/SeqSetProofs.v ===== *)
(** * Sequence sets: correctness of src/server/avl/seqset.go

    The tree invariant (search order on disjoint aligned ranges, 32 words of 64 bits per
    node, stored heights), its preservation by every operation, and the refinement of a
    finite set of integers: membership, size, order of iteration, minimum and maximum. *)

From S2P Require Import Prelude SeqSet.
Import Avl.

(** ** Bitmaps *)

Definition wf_bits (bits : list Z) : Prop :=
  length bits = Z.to_nat numBuckets /\ Forall is_u64 bits.

(** Bit [k] of the bitmap. *)
Definition bit (bits : list Z) (k : Z) : bool :=
  Z.testbit (bits_at bits (Z.to_nat (k / 64))) (k mod 64).

Lemma numEntries_eq : numEntries = 2048.
Proof. reflexivity. Qed.


Lemma seq_offset_small base seq :
  is_u64 base -> base <= seq < base + 2048 -> is_u64 seq -> u64 (seq - base) = seq - base.
Proof. unfold is_u64. intros. apply u64_small. unfold is_u64. lia. Qed.

(** The index computed by [set], [clear] and [exists] is within [[numBuckets]uint64]. *)
Lemma seq_index_in_range base seq :
  base <= seq < base + 2048 -> (seq_index base seq < Z.to_nat numBuckets)%nat.
Proof.
  intros H. unfold seq_index, u64, bitsPerBucket, numBuckets.
  rewrite Z.mod_small by lia. apply Z2Nat.inj_lt; [|lia|].
  - apply Z.div_pos; lia.
  - apply Z.div_lt_upper_bound; lia.
Qed.

Lemma node_exists_bit base bits seq :
  base <= seq < base + 2048 -> node_exists base bits seq = bit bits (seq - base).
Proof.
  intros H. unfold node_exists, bit, seq_index, seq_mask, u64, bitsPerBucket.
  rewrite !(Z.mod_small (seq - base) (2 ^ 64)) by lia.
  rewrite land_mask_eqb by (apply Z.mod_pos_bound; lia). apply negb_involutive.
Qed.

Lemma bits_at_insert bits i j w :
  (i < length bits)%nat ->
  bits_at (<[i := w]> bits) j = if decide (i = j) then w else bits_at bits j.
Proof.
  intros Hi. unfold bits_at. case_decide; subst.
  - by rewrite list_lookup_insert_eq.
  - by rewrite list_lookup_insert_ne.
Qed.

Lemma wf_bits_word bits i : wf_bits bits -> is_u64 (bits_at bits i).
Proof.
  intros [_ HF]. unfold bits_at. destruct (bits !! i) eqn:E; simpl; [|unfold is_u64; lia].
  by eapply Forall_lookup_1 in E.
Qed.

(** Updating one word changes exactly the bits of that word. *)
Lemma bit_update bits i w k :
  (i < length bits)%nat -> 0 <= k ->
  bit (<[i := w]> bits) k =
    if decide (i = Z.to_nat (k / 64)) then Z.testbit w (k mod 64) else bit bits k.
Proof. intros Hi Hk. unfold bit. rewrite bits_at_insert by done. by case_decide. Qed.

Lemma same_word_same_bit k k' :
  0 <= k -> 0 <= k' -> Z.to_nat (k / 64) = Z.to_nat (k' / 64) ->
  (k' mod 64 =? k mod 64) = (k' =? k).
Proof.
  intros Hk Hk' H. apply Z2Nat.inj in H; [|apply Z.div_pos; lia..].
  pose proof (Z.div_mod k 64). pose proof (Z.div_mod k' 64).
  destruct (Z.eqb_spec (k' mod 64) (k mod 64)), (Z.eqb_spec k' k); try done; lia.
Qed.

(** The scan of [clear] for an empty bitmap. *)
Lemma forallb_zero_bits bits :
  wf_bits bits ->
  forallb (fun b => b =? 0) bits = true <-> forall k, 0 <= k < 2048 -> bit bits k = false.
Proof.
  intros Hwf. pose proof Hwf as [Hl HF]. rewrite forallb_forall. split.
  - intros H k Hk. unfold bit, bits_at.
    destruct (bits !! Z.to_nat (k / 64)) as [w|] eqn:E; simpl; [|by rewrite Z.testbit_0_l].
    assert ((w =? 0) = true) as ->%Z.eqb_eq by (apply H, list_elem_of_In; by eapply list_elem_of_lookup_2).
    apply Z.testbit_0_l.
  - intros H w Hin%list_elem_of_In. apply list_elem_of_lookup in Hin as [i Hi].
    apply Z.eqb_eq, u64_zero_of_bits; [by eapply Forall_lookup_1 in Hi|].
    intros j Hj. pose proof (lookup_lt_Some _ _ _ Hi) as Hlt.
    unfold numBuckets in Hl.
    specialize (H (Z.of_nat i * 64 + j)). unfold bit, bits_at in H.
    rewrite Z.div_add_l, (Z.div_small j 64), Z.add_0_r, Nat2Z.id, Hi in H by lia.
    rewrite Z.add_comm, Z.mod_add, (Z.mod_small j 64) in H by lia. apply H. lia.
Qed.

Section node_ops.
Context (base : Z) (bits : list Z) (seq : Z).
Hypothesis Hseq : base <= seq < base + 2048.
Hypothesis Hbits : wf_bits bits.

Let i := seq_index base seq.

Lemma index_lt : (i < length bits)%nat.
Proof. destruct Hbits as [-> _]. by apply seq_index_in_range. Qed.

Lemma index_eq : i = Z.to_nat ((seq - base) / 64).
Proof. unfold i, seq_index, u64. rewrite Z.mod_small by lia. done. Qed.

Lemma mask_eq : seq_mask base seq = Z.shiftl 1 ((seq - base) mod 64).
Proof. unfold seq_mask, u64. rewrite (Z.mod_small (seq - base)) by lia. done. Qed.

Lemma wf_bits_update w : is_u64 w -> wf_bits (<[i := w]> bits).
Proof.
  intros Hw. destruct Hbits as [Hl HF]. split; [by rewrite length_insert|].
  by apply Forall_insert.
Qed.

Lemma node_set_spec ins :
  let '(bits', ins') := node_set base bits seq ins in
  wf_bits bits' /\
  (forall k, 0 <= k -> bit bits' k = ((k =? seq - base) || bit bits k)%bool) /\
  ins' = (ins || negb (bit bits (seq - base)))%bool.
Proof.
  pose proof (Z.mod_pos_bound (seq - base) 64 ltac:(lia)) as Hm.
  unfold node_set. rewrite mask_eq. fold i. rewrite land_mask_eqb by lia.
  assert (bit bits (seq - base) = Z.testbit (bits_at bits i) ((seq - base) mod 64)) as Hb
    by (unfold bit; by rewrite <- index_eq).
  rewrite Hb. destruct (Z.testbit (bits_at bits i) _) eqn:E; simpl.
  - split_and!; [done| |by rewrite orb_false_r].
    intros k Hk. destruct (Z.eqb_spec k (seq - base)) as [->|]; [by rewrite Hb|done].
  - split_and!; [| |by rewrite orb_true_r].
    + apply wf_bits_update. pose proof (wf_bits_word bits i Hbits).
      apply u64_of_testbit.
      * apply Z.lor_nonneg. split; [unfold is_u64 in *; lia|]. apply Z.shiftl_nonneg; lia.
      * intros j Hj. rewrite Z.lor_spec, testbit_mask, u64_testbit_high by (done || lia).
        apply Z.eqb_neq; lia.
    + intros k Hk. rewrite bit_update by (done || apply index_lt).
      pose proof (Z.mod_pos_bound k 64 ltac:(lia)).
      rewrite index_eq. case_decide as Hd.
      * rewrite Z.lor_spec, testbit_mask, (same_word_same_bit (seq - base) k) by (done || lia).
        unfold bit. rewrite <- Hd, <- index_eq. apply orb_comm.
      * destruct (Z.eqb_spec k (seq - base)) as [->|]; [done|done].
Qed.

Lemma node_clear_spec del :
  let '(bits', empty, del') := node_clear base bits seq del in
  wf_bits bits' /\
  (forall k, 0 <= k -> bit bits' k = (negb (k =? seq - base) && bit bits k)%bool) /\
  (empty = true <-> forall k, 0 <= k < 2048 -> bit bits' k = false) /\
  del' = (del || bit bits (seq - base))%bool.
Proof.
  pose proof (Z.mod_pos_bound (seq - base) 64 ltac:(lia)) as Hm.
  unfold node_clear. rewrite mask_eq. fold i. rewrite land_mask_eqb, negb_involutive by lia.
  assert (bit bits (seq - base) = Z.testbit (bits_at bits i) ((seq - base) mod 64)) as Hb
    by (unfold bit; by rewrite <- index_eq).
  rewrite Hb. destruct (Z.testbit (bits_at bits i) _) eqn:E; simpl.
  - assert (wf_bits (<[i := Z.ldiff (bits_at bits i) (Z.shiftl 1 ((seq - base) mod 64))]> bits))
      as Hwf.
    { apply wf_bits_update. pose proof (wf_bits_word bits i Hbits). apply u64_of_testbit.
      - apply Z.ldiff_nonneg. left. unfold is_u64 in *; lia.
      - intros j Hj. by rewrite Z.ldiff_spec, u64_testbit_high by (done || lia). }
    split_and!; [done| |by apply forallb_zero_bits|by rewrite orb_true_r].
    intros k Hk. rewrite bit_update by (done || apply index_lt).
    pose proof (Z.mod_pos_bound k 64 ltac:(lia)).
    rewrite index_eq. case_decide as Hd.
    + rewrite Z.ldiff_spec, testbit_mask, (same_word_same_bit (seq - base) k) by (done || lia).
      unfold bit. rewrite <- Hd, <- index_eq. apply andb_comm.
    + destruct (Z.eqb_spec k (seq - base)) as [->|]; done.
  - split_and!; [done| |by apply forallb_zero_bits|by rewrite orb_false_r].
    intros k Hk. destruct (Z.eqb_spec k (seq - base)) as [->|]; [by rewrite Hb|done].
Qed.
End node_ops.

(** ** Trees *)

Definition node_elems (base : Z) (bits : list Z) : list Z :=
  filter (fun x => bit bits (x - base) = true) (seqZ base numEntries).

(** The bitmaps from left to right. *)
Fixpoint items (n : node) : list (Z * list Z) :=
  match n with
  | Nil => []
  | Node base bits l r _ => items l ++ (base, bits) :: items r
  end.

(** The members in ascending order. *)
Definition elems (n : node) : list Z := items n ≫= fun it => node_elems it.1 it.2.

Definition count_nodes (n : node) : Z := Z.of_nat (length (items n)).

(** No node has an empty bitmap. *)
Definition dense (n : node) : Prop := Forall (fun it => node_elems it.1 it.2 <> []) (items n).

Lemma elems_Node base bits l r h :
  elems (Node base bits l r h) = elems l ++ node_elems base bits ++ elems r.
Proof. unfold elems. simpl. by rewrite bind_app, bind_cons. Qed.

(** Node ranges are aligned, disjoint, in search order and inside [[lo, hi)); bitmaps
    have 32 words; the stored height is the height. *)
Fixpoint wf_node (lo hi : Z) (n : node) : Prop :=
  match n with
  | Nil => True
  | Node base bits l r h =>
      lo <= base /\ base + numEntries <= hi /\ base mod numEntries = 0 /\ wf_bits bits /\
      h = 1 + Z.max (height l) (height r) /\
      wf_node lo base l /\ wf_node (base + numEntries) hi r
  end.

(** The AVL balance condition. *)
Fixpoint balanced (n : node) : Prop :=
  match n with
  | Nil => True
  | Node _ _ l r _ => -1 <= height l - height r <= 1 /\ balanced l /\ balanced r
  end.

Lemma elem_of_node_elems base bits x :
  x ∈ node_elems base bits <-> base <= x < base + 2048 /\ bit bits (x - base) = true.
Proof.
  unfold node_elems. rewrite list_elem_of_filter, elem_of_seqZ, numEntries_eq.
  split; intros [? ?]; split; (done || lia).
Qed.

Lemma elem_of_elems_Node base bits l r h x :
  x ∈ elems (Node base bits l r h) <->
  x ∈ elems l \/ (base <= x < base + 2048 /\ bit bits (x - base) = true) \/ x ∈ elems r.
Proof. rewrite elems_Node, !elem_of_app, elem_of_node_elems. done. Qed.

Lemma wf_node_weaken lo lo' hi hi' n :
  lo' <= lo -> hi <= hi' -> wf_node lo hi n -> wf_node lo' hi' n.
Proof.
  revert lo lo' hi hi'. induction n as [|base bits l IHl r IHr h]; [done|].
  intros lo lo' hi hi' Hlo Hhi. simpl. intros (?&?&?&?&?&?&?). split_and!; try done; try lia.
  - by apply (IHl lo lo' base base).
  - by apply (IHr (base + numEntries) (base + numEntries) hi hi').
Qed.

Lemma wf_elems_range lo hi n x : wf_node lo hi n -> x ∈ elems n -> lo <= x < hi.
Proof.
  revert lo hi. induction n as [|base bits l IHl r IHr h]; intros lo hi.
  - intros _ []%not_elem_of_nil.
  - rewrite elem_of_elems_Node. simpl. rewrite numEntries_eq. intros (?&?&?&?&?&Hl&Hr) [Hx|[[Hx _]|Hx]].
    + apply (IHl _ _ Hl) in Hx. lia.
    + lia.
    + apply (IHr _ _ Hr) in Hx. lia.
Qed.

Lemma height_nonneg lo hi n : wf_node lo hi n -> 0 <= height n.
Proof.
  revert lo hi. induction n as [|base bits l IHl r IHr h]; intros lo hi; simpl; [lia|].
  intros (?&?&?&?&->&Hl&Hr). specialize (IHl _ _ Hl). lia.
Qed.

Lemma set_h_height lo hi base bits l r h :
  wf_node lo hi (Node base bits l r h) -> set_h (Node base bits l r h) = Node base bits l r h.
Proof.
  simpl. intros (_&_&_&_&->&_). f_equal. destruct (Z.ltb_spec (height r) (height l)); lia.
Qed.

(** What [wf_node] asks of a node apart from its height. *)
Definition wf_kids (lo hi base : Z) (bits : list Z) (l r : node) : Prop :=
  lo <= base /\ base + numEntries <= hi /\ base mod numEntries = 0 /\ wf_bits bits /\
  wf_node lo base l /\ wf_node (base + numEntries) hi r.

Lemma wf_node_kids lo hi base bits l r h :
  wf_node lo hi (Node base bits l r h) <->
  wf_kids lo hi base bits l r /\ h = 1 + Z.max (height l) (height r).
Proof. simpl. unfold wf_kids. tauto. Qed.

Lemma wf_set_h lo hi base bits l r h :
  wf_kids lo hi base bits l r -> wf_node lo hi (set_h (Node base bits l r h)).
Proof.
  intros H. apply wf_node_kids. split; [done|]. simpl.
  destruct (Z.ltb_spec (height r) (height l)); lia.
Qed.

Lemma height_set_h base bits l r h :
  height (set_h (Node base bits l r h)) = 1 + Z.max (height l) (height r).
Proof. simpl. destruct (Z.ltb_spec (height r) (height l)); lia. Qed.

Lemma items_set_h n : items (set_h n) = items n.
Proof. by destruct n. Qed.

Lemma rotateR_ok lo hi base bits l r h :
  wf_kids lo hi base bits l r -> l <> Nil ->
  let n := Node base bits l r h in
  wf_node lo hi (rotateR n) /\ items (rotateR n) = items n.
Proof.
  destruct l as [|lbase lbits ll lr lh]; [done|].
  intros (?&?&?&?&Hl&Hr) _. simpl in Hl. destruct Hl as (?&?&?&?&_&Hll&Hlr).
  split.
  - apply wf_set_h. split_and!; try done; [rewrite ?numEntries_eq in *; lia|].
    apply wf_set_h. split_and!; done || lia.
  - simpl. by rewrite <- !app_assoc.
Qed.

Lemma rotateL_ok lo hi base bits l r h :
  wf_kids lo hi base bits l r -> r <> Nil ->
  let n := Node base bits l r h in
  wf_node lo hi (rotateL n) /\ items (rotateL n) = items n.
Proof.
  destruct r as [|rbase rbits rl rr rh]; [done|].
  intros (?&?&?&?&Hl&Hr) _. simpl in Hr. destruct Hr as (?&?&?&?&_&Hrl&Hrr).
  split.
  - apply wf_set_h. split_and!; try done; [rewrite ?numEntries_eq in *; lia|].
    apply wf_set_h. split_and!; done || lia.
  - simpl. by rewrite <- !app_assoc.
Qed.

Lemma rebalance_ok lo hi n :
  wf_node lo hi n ->
  wf_node lo hi (rebalance n) /\ items (rebalance n) = items n.
Proof.
  destruct n as [|base bits l r h]; [done|].
  intros Hwf. pose proof Hwf as [Hk _]%wf_node_kids. pose proof Hk as (?&?&?&?&Hl&Hr).
  pose proof (height_nonneg _ _ _ Hl). pose proof (height_nonneg _ _ _ Hr).
  unfold rebalance. cbn [balanceF].
  destruct (Z.ltb_spec 1 (height l - height r)) as [Hb|Hb].
  - destruct l as [|lbase lbits ll lr lh]; [simpl in *; lia|].
    destruct (Z.ltb_spec (balanceF (Node lbase lbits ll lr lh)) 0) as [Hlb|Hlb].
    + pose proof Hl as [Hlk _]%wf_node_kids. pose proof Hlk as (_&_&_&_&Hll&Hlr).
      pose proof (height_nonneg _ _ _ Hll).
      assert (lr <> Nil) as Hlr' by (intros ->; simpl in *; lia).
      destruct (rotateL_ok _ _ _ _ _ _ lh Hlk Hlr') as (Hw&He).
      destruct (rotateR_ok lo hi base bits (rotateL (Node lbase lbits ll lr lh)) r h) as (Hw'&He').
      { split_and!; done. }
      { by destruct lr. }
      split; [done|]. rewrite He'. cbn [items] in He |- *. by rewrite He.
    + apply (rotateR_ok lo hi base bits _ r h); [split_and!; done|done].
  - destruct (Z.ltb_spec (height l - height r) (-1)) as [Hb'|Hb']; [|done].
    destruct r as [|rbase rbits rl rr rh]; [simpl in *; lia|].
    destruct (Z.ltb_spec 0 (balanceF (Node rbase rbits rl rr rh))) as [Hrb|Hrb].
    + pose proof Hr as [Hrk _]%wf_node_kids. pose proof Hrk as (_&_&_&_&Hrl&Hrr).
      pose proof (height_nonneg _ _ _ Hrr).
      assert (rl <> Nil) as Hrl' by (intros ->; simpl in *; lia).
      destruct (rotateR_ok _ _ _ _ _ _ rh Hrk Hrl') as (Hw&He).
      destruct (rotateL_ok lo hi base bits l (rotateR (Node rbase rbits rl rr rh)) h) as (Hw'&He').
      { split_and!; done. }
      { by destruct rl. }
      split; [done|]. rewrite He'. cbn [items] in He |- *. by rewrite He.
    + apply (rotateL_ok lo hi base bits l _ h); [split_and!; done|done].
Qed.

(** The last step of [insert], [delete] and [insertNodePrev]. *)
Lemma rebalance_set_h_ok lo hi base bits l r h :
  wf_kids lo hi base bits l r ->
  let n := rebalance (set_h (Node base bits l r h)) in
  wf_node lo hi n /\ items n = items l ++ (base, bits) :: items r.
Proof.
  intros Hk. apply (wf_set_h _ _ _ _ _ _ h) in Hk.
  destruct (rebalance_ok _ _ _ Hk) as (?&He). cbv zeta. split; [done|].
  by rewrite He, items_set_h.
Qed.

(** The largest range the comparison [seq >= n.base+numEntries] handles without overflow. *)
Definition seq_limit : Z := 2 ^ 64 - numEntries.

Definition bounds_ok (lo hi : Z) : Prop :=
  0 <= lo /\ hi <= seq_limit /\ lo mod numEntries = 0 /\ hi mod numEntries = 0.

Lemma bounds_ok_left lo hi base bits l r h :
  bounds_ok lo hi -> wf_node lo hi (Node base bits l r h) -> bounds_ok lo base.
Proof.
  unfold bounds_ok, seq_limit. simpl. rewrite numEntries_eq. intros (?&?&?&?) (?&?&?&?&?).
  split_and!; lia.
Qed.

Lemma bounds_ok_right lo hi base bits l r h :
  bounds_ok lo hi -> wf_node lo hi (Node base bits l r h) -> bounds_ok (base + numEntries) hi.
Proof.
  unfold bounds_ok, seq_limit. simpl. rewrite numEntries_eq. intros (?&?&?&?) (?&?&?&?&?).
  split_and!; try lia. rewrite <- (Z.mul_1_l 2048) at 1. by rewrite Z.mod_add.
Qed.

Lemma end_of_range lo hi base bits l r h :
  bounds_ok lo hi -> wf_node lo hi (Node base bits l r h) ->
  u64 (base + numEntries) = base + numEntries.
Proof.
  unfold bounds_ok, seq_limit. simpl. rewrite numEntries_eq. intros (?&?&?&?) (?&?&?&?&?).
  apply u64_small. unfold is_u64. lia.
Qed.

Lemma wf_zero_bits : wf_bits zero_bits.
Proof.
  split; [done|]. apply Forall_replicate. unfold is_u64. lia.
Qed.

Lemma bit_zero_bits k : bit zero_bits k = false.
Proof.
  unfold bit, bits_at, zero_bits. destruct (replicate _ _ !! _) eqn:E; simpl.
  - apply lookup_replicate in E as [-> _]. apply Z.testbit_0_l.
  - apply Z.testbit_0_l.
Qed.

(** A fresh node starts at the multiple of 2048 below the sequence. *)
Lemma fresh_base lo hi seq :
  bounds_ok lo hi -> lo <= seq < hi ->
  let base := seq / numEntries * numEntries in
  lo <= base /\ base + numEntries <= hi /\ base mod numEntries = 0 /\ base <= seq < base + 2048.
Proof.
  unfold bounds_ok. rewrite numEntries_eq. intros (?&?&?&?) ?. cbv zeta.
  pose proof (Z.div_mod seq 2048 ltac:(lia)). pose proof (Z.mod_pos_bound seq 2048 ltac:(lia)).
  pose proof (Z.div_mod lo 2048 ltac:(lia)). pose proof (Z.div_mod hi 2048 ltac:(lia)).
  pose proof (Z.mod_mul (seq / 2048) 2048 ltac:(lia)). split_and!; lia.
Qed.

(** Where a sequence can be, by the comparisons of the code. *)
Section locate.
Context (lo hi base : Z) (bits : list Z) (l r : node) (h : Z).
Hypothesis Hwf : wf_node lo hi (Node base bits l r h).

Lemma elem_of_left x : x < base -> x ∈ elems (Node base bits l r h) <-> x ∈ elems l.
Proof.
  destruct Hwf as (?&?&?&?&?&_&Hr). rewrite elem_of_elems_Node, numEntries_eq in *.
  intros Hx. split; [|by left]. intros [?|[?|Hx'%(wf_elems_range _ _ _ _ Hr)]]; [done|lia..].
Qed.

Lemma elem_of_right x :
  base + 2048 <= x -> x ∈ elems (Node base bits l r h) <-> x ∈ elems r.
Proof.
  destruct Hwf as (?&?&?&?&?&Hl&_). rewrite elem_of_elems_Node.
  intros Hx. split; [|by right; right].
  intros [Hx'%(wf_elems_range _ _ _ _ Hl)|[?|?]]; [lia|lia|done].
Qed.

Lemma elem_of_here x :
  base <= x < base + 2048 ->
  x ∈ elems (Node base bits l r h) <-> bit bits (x - base) = true.
Proof.
  destruct Hwf as (?&?&?&?&?&Hl&Hr). rewrite elem_of_elems_Node, numEntries_eq in *.
  intros Hx. split; [|by auto].
  intros [Hx'%(wf_elems_range _ _ _ _ Hl)|[[_ ?]|Hx'%(wf_elems_range _ _ _ _ Hr)]]; [lia|done|lia].
Qed.
End locate.

Lemma elems_node_set base bits bits' seq x :
  base <= seq < base + 2048 ->
  (forall k, 0 <= k -> bit bits' k = ((k =? seq - base) || bit bits k)%bool) ->
  x ∈ node_elems base bits' <-> x = seq \/ x ∈ node_elems base bits.
Proof.
  intros Hseq Hbit. rewrite !elem_of_node_elems. split.
  - intros [Hx Hx']. rewrite Hbit in Hx' by lia.
    apply orb_true_iff in Hx' as [?%Z.eqb_eq|?]; [left; lia|auto].
  - intros [->|[Hx Hx']]; (split; [lia|]); rewrite Hbit by lia.
    + by rewrite Z.eqb_refl.
    + by rewrite Hx', orb_true_r.
Qed.

Lemma elems_node_clear base bits bits' seq x :
  base <= seq < base + 2048 ->
  (forall k, 0 <= k -> bit bits' k = (negb (k =? seq - base) && bit bits k)%bool) ->
  x ∈ node_elems base bits' <-> x <> seq /\ x ∈ node_elems base bits.
Proof.
  intros Hseq Hbit. rewrite !elem_of_node_elems. split.
  - intros [Hx Hx']. rewrite Hbit in Hx' by lia.
    apply andb_true_iff in Hx' as [?%negb_true_iff%Z.eqb_neq ?]. split_and!; done || lia.
  - intros (Hne&Hx&Hx'). split; [lia|]. rewrite Hbit, Hx' by lia.
    apply andb_true_iff. split; [|done]. apply negb_true_iff, Z.eqb_neq. lia.
Qed.

Lemma node_set_not_empty base bits bits' seq :
  base <= seq < base + 2048 ->
  (forall k, 0 <= k -> bit bits' k = ((k =? seq - base) || bit bits k)%bool) ->
  node_elems base bits' <> [].
Proof.
  intros Hin Hbit He. apply (not_elem_of_nil seq). rewrite <- He.
  apply (elems_node_set _ _ _ _ _ Hin Hbit). by left.
Qed.

(** ** Effect of the tree operations on the bitmaps and members *)

(** [n'] holds the members of [n] and [seq]. *)
Definition inserted_in (n : node) (seq : Z) (n' : node) : Prop :=
  (forall x, x ∈ elems n' <-> x = seq \/ x ∈ elems n) /\ (dense n -> dense n').

(** [n'] holds the members of [n] without [seq]. *)
Definition deleted_from (n : node) (seq : Z) (n' : node) : Prop :=
  (forall x, x ∈ elems n' <-> x <> seq /\ x ∈ elems n) /\ (dense n -> dense n').

(** Both, for a node one of whose parts changed. *)
Lemma items_elems n l it r :
  items n = items l ++ it :: items r ->
  elems n = elems l ++ node_elems it.1 it.2 ++ elems r /\
  (dense n <-> dense l /\ node_elems it.1 it.2 <> [] /\ dense r) /\
  count_nodes n = count_nodes l + 1 + count_nodes r.
Proof.
  intros H. unfold elems, dense, count_nodes. rewrite H. split_and!.
  - by rewrite bind_app, bind_cons.
  - by rewrite Forall_app, Forall_cons.
  - rewrite length_app. simpl. lia.
Qed.

Lemma items_app_elems n l r :
  items n = items l ++ items r ->
  elems n = elems l ++ elems r /\ (dense n <-> dense l /\ dense r) /\
  count_nodes n = count_nodes l + count_nodes r.
Proof.
  intros H. unfold elems, dense, count_nodes. rewrite H. split_and!.
  - by rewrite bind_app.
  - by rewrite Forall_app.
  - rewrite length_app. lia.
Qed.

Lemma insert_ok lo hi n seq ins nodes :
  bounds_ok lo hi -> lo <= seq < hi -> wf_node lo hi n ->
  let '(n', ins', nodes') := insert n seq ins nodes in
  wf_node lo hi n' /\ inserted_in n seq n' /\
  ins' = (ins || negb (bool_decide (seq ∈ elems n)))%bool /\
  nodes' = nodes + (count_nodes n' - count_nodes n).
Proof.
  revert lo hi. induction n as [|base bits l IHl r IHr h]; intros lo hi Hb Hseq Hwf.
  - destruct (fresh_base lo hi seq Hb Hseq) as (?&?&?&Hin). cbn [insert]. unfold inserted_in.
    pose proof (node_set_spec _ _ _ Hin wf_zero_bits ins) as Hs.
    destruct (node_set _ zero_bits seq ins) as [bits' ins']. destruct Hs as (?&Hbit&->).
    split_and!; try done; try lia; [| |by rewrite bit_zero_bits].
    + intros x. rewrite elems_Node, app_nil_r. simpl.
      rewrite (elems_node_set _ _ _ _ _ Hin Hbit), elem_of_node_elems, bit_zero_bits.
      rewrite elem_of_nil. intuition done.
    + intros _. repeat constructor. simpl. by eapply node_set_not_empty.
  - pose proof (end_of_range _ _ _ _ _ _ _ Hb Hwf) as Hend.
    pose proof (bounds_ok_left _ _ _ _ _ _ _ Hb Hwf) as Hbl.
    pose proof (bounds_ok_right _ _ _ _ _ _ _ Hb Hwf) as Hbr.
    pose proof Hwf as [(?&?&?&?&Hl&Hr) _]%wf_node_kids.
    destruct (items_elems (Node base bits l r h) l (base, bits) r eq_refl) as (Hen&Hdn&Hcn).
    cbn [insert]. rewrite Hend, numEntries_eq in *. unfold inserted_in.
    destruct (Z.ltb_spec seq base) as [Hlt|Hge];
      [|destruct (Z.leb_spec (base + 2048) seq) as [Hle|Hgt]].
    + specialize (IHl lo base Hbl ltac:(lia) Hl).
      destruct (insert l seq ins nodes) as [[l' ins'] nodes']. destruct IHl as (Hl'&[He Hd]&->&->).
      destruct (rebalance_set_h_ok lo hi base bits l' r h) as (Hw&Hit); [split_and!; done|].
      apply items_elems in Hit as (Hel&Hde&Hc). cbv iota beta.
      rewrite (bool_decide_ext _ _ (elem_of_left _ _ _ _ _ _ _ Hwf seq Hlt)).
      rewrite Hel, Hde, Hc, Hdn, Hcn, Hen.
      split_and!; [done| |tauto|done|lia].
      intros x. rewrite !elem_of_app, He. tauto.
    + specialize (IHr (base + 2048) hi Hbr ltac:(lia) Hr).
      destruct (insert r seq ins nodes) as [[r' ins'] nodes']. destruct IHr as (Hr'&[He Hd]&->&->).
      destruct (rebalance_set_h_ok lo hi base bits l r' h) as (Hw&Hit); [split_and!; done|].
      apply items_elems in Hit as (Hel&Hde&Hc). cbv iota beta.
      rewrite (bool_decide_ext _ _ (elem_of_right _ _ _ _ _ _ _ Hwf seq Hle)).
      rewrite Hel, Hde, Hc, Hdn, Hcn, Hen.
      split_and!; [done| |tauto|done|lia].
      intros x. rewrite !elem_of_app, He. tauto.
    + assert (base <= seq < base + 2048) as Hin by lia.
      pose proof (node_set_spec base bits seq Hin ltac:(done) ins) as Hs.
      destruct (node_set base bits seq ins) as [bits' ins']. destruct Hs as (?&Hbit&->).
      destruct (rebalance_set_h_ok lo hi base bits' l r h) as (Hw&Hit); [split_and!; done|].
      apply items_elems in Hit as (Hel&Hde&Hc). cbv iota beta.
      rewrite (bool_decide_ext _ _ (elem_of_here _ _ _ _ _ _ _ Hwf seq Hin)), bool_decide_true_eq.
      rewrite Hel, Hde, Hc, Hdn, Hcn, Hen.
      split_and!; [done| | |done|lia].
      * intros x. rewrite !elem_of_app. simpl. rewrite (elems_node_set _ _ _ _ _ Hin Hbit). tauto.
      * pose proof (node_set_not_empty _ _ _ _ Hin Hbit). tauto.
Qed.

Lemma insertNodePrev_ok lo mid hi n nn :
  lo <= mid -> n <> Nil -> wf_node mid hi n -> wf_node lo mid nn ->
  let n' := insertNodePrev n nn in
  wf_node lo hi n' /\ items n' = items nn ++ items n.
Proof.
  intros Hlo. revert hi. induction n as [|base bits l IHl r IHr h]; [done|].
  intros hi _ Hwf Hnn. pose proof Hwf as [(?&?&?&?&Hl&Hr) _]%wf_node_kids.
  set (l' := match l with Nil => nn | Node _ _ _ _ _ => insertNodePrev l nn end).
  assert (wf_node lo base l' /\ items l' = items nn ++ items l) as (Hl'&He).
  { destruct l as [|lb lbits ll lr lh]; [|by apply IHl].
    subst l'. simpl. rewrite app_nil_r. split; [|done].
    by apply (wf_node_weaken lo lo mid base). }
  destruct (rebalance_set_h_ok lo hi base bits l' r h) as (Hw&Hel); [split_and!; done || lia|].
  cbn [insertNodePrev]. fold l'. split; [done|].
  rewrite Hel, He. simpl. by rewrite <- app_assoc.
Qed.

Lemma unlink_ok lo hi base bits l r h :
  wf_node lo hi (Node base bits l r h) ->
  let n := rebalance (set_h (unlink l r)) in
  wf_node lo hi n /\ items n = items l ++ items r.
Proof.
  intros [(?&?&?&?&Hl&Hr) _]%wf_node_kids. rewrite numEntries_eq in *.
  assert (wf_node lo hi (unlink l r) /\ items (unlink l r) = items l ++ items r) as (Hw&He).
  { apply (wf_node_weaken lo lo base (base + 2048)) in Hl; [|lia..].
    destruct l as [|lb lbits ll lr lh].
    - simpl. split; [|done]. by apply (wf_node_weaken (base + 2048) lo hi hi); [lia..|].
    - destruct r as [|rb rbits rl rr rh].
      + split; [|by rewrite app_nil_r].
        by apply (wf_node_weaken lo lo (base + 2048) hi); [lia..|].
      + by apply (insertNodePrev_ok lo (base + 2048) hi); [lia|..]. }
  assert (set_h (unlink l r) = unlink l r) as ->.
  { destruct (unlink l r) eqn:E; [done|]. by eapply set_h_height. }
  destruct (rebalance_ok _ _ _ Hw) as (?&He'). cbv zeta. by rewrite He'.
Qed.

(** The case of [delete] where the sequence falls in the range of the node. *)
Lemma delete_here_ok lo hi base bits l r h seq del nodes :
  wf_node lo hi (Node base bits l r h) -> base <= seq < base + 2048 ->
  let '(n', del', nodes') :=
    let '(bits, empty, deleted) := node_clear base bits seq del in
    if empty then (unlink l r, deleted, nodes - 1) else (Node base bits l r h, deleted, nodes) in
  wf_node lo hi (rebalance (set_h n')) /\
  deleted_from (Node base bits l r h) seq (rebalance (set_h n')) /\
  del' = (del || bool_decide (seq ∈ elems (Node base bits l r h)))%bool /\
  nodes' = nodes + (count_nodes (rebalance (set_h n')) - count_nodes (Node base bits l r h)).
Proof.
  intros Hwf Hin. pose proof Hwf as [(?&?&?&?&Hl&Hr) _]%wf_node_kids.
  destruct (items_elems (Node base bits l r h) l (base, bits) r eq_refl) as (Hen&Hdn&Hcn).
  pose proof (node_clear_spec base bits seq Hin ltac:(done) del) as Hs.
  destruct (node_clear base bits seq del) as [[bits' empty] del']. destruct Hs as (?&Hbit&Hem&->).
  rewrite (bool_decide_ext _ _ (elem_of_here _ _ _ _ _ _ _ Hwf seq Hin)), bool_decide_true_eq.
  unfold deleted_from.
  assert (forall x, x ∈ elems l \/ x ∈ elems r -> x <> seq) as Hne.
  { rewrite numEntries_eq in *.
    intros x [Hx|Hx]; eapply wf_elems_range in Hx; [|done| |done]; lia. }
  assert (empty = false -> node_elems base bits' <> []) as Hde'.
  { intros -> Hn. assert (false = true); [|done]. apply Hem. intros k Hk.
    destruct (bit bits' k) eqn:E; [|done]. exfalso. apply (not_elem_of_nil (base + k)).
    rewrite <- Hn, elem_of_node_elems, Z.add_simpl_l. split; [lia|done]. }
  assert (empty = true -> forall x, x <> seq -> x ∈ node_elems base bits -> False) as Hemp.
  { intros -> x Hx Hx'. assert (x ∈ node_elems base bits') as Hx''
      by (by apply (elems_node_clear _ _ _ _ _ Hin Hbit)).
    rewrite elem_of_node_elems in Hx''. destruct Hx'' as [? Hb].
    rewrite (proj1 Hem) in Hb; [done..|lia]. }
  destruct empty.
  - destruct (unlink_ok _ _ _ _ _ _ _ Hwf) as (Hw&Hit).
    apply items_app_elems in Hit as (Hel&Hde&Hc). cbv iota beta. rewrite Hel, Hde, Hc, Hdn, Hcn, Hen.
    split_and!; [done| |tauto|done|lia].
    intros x. rewrite !elem_of_app. specialize (Hemp eq_refl x). specialize (Hne x). simpl. tauto.
  - destruct (rebalance_set_h_ok lo hi base bits' l r h) as (Hw&Hit); [split_and!; done|].
    apply items_elems in Hit as (Hel&Hde&Hc). cbv iota beta. rewrite Hel, Hde, Hc, Hdn, Hcn, Hen. simpl.
    split_and!; [done| |tauto|done|lia].
    intros x. rewrite !elem_of_app, (elems_node_clear _ _ _ _ _ Hin Hbit). specialize (Hne x). tauto.
Qed.

Lemma delete_ok lo hi n seq del nodes :
  bounds_ok lo hi -> wf_node lo hi n ->
  let '(n', del', nodes') := delete n seq del nodes in
  wf_node lo hi n' /\ deleted_from n seq n' /\
  del' = (del || bool_decide (seq ∈ elems n))%bool /\
  nodes' = nodes + (count_nodes n' - count_nodes n).
Proof.
  revert lo hi. induction n as [|base bits l IHl r IHr h]; intros lo hi Hb Hwf.
  { cbn [delete]. rewrite bool_decide_eq_false_2, orb_false_r by apply not_elem_of_nil.
    split_and!; [done| |done|lia]. split; [|done]. intros x. change (elems Nil) with (@nil Z). rewrite elem_of_nil. tauto. }
  pose proof (end_of_range _ _ _ _ _ _ _ Hb Hwf) as Hend.
  pose proof (bounds_ok_left _ _ _ _ _ _ _ Hb Hwf) as Hbl.
  pose proof (bounds_ok_right _ _ _ _ _ _ _ Hb Hwf) as Hbr.
  pose proof Hwf as [(?&?&?&?&Hl&Hr) _]%wf_node_kids.
  destruct (items_elems (Node base bits l r h) l (base, bits) r eq_refl) as (Hen&Hdn&Hcn).
  cbn [delete]. rewrite Hend, numEntries_eq in *.
  destruct (Z.ltb_spec seq base) as [Hlt|Hge];
    [|destruct (Z.leb_spec (base + 2048) seq) as [Hle|Hgt]].
  - specialize (IHl lo base Hbl Hl).
    destruct (delete l seq del nodes) as [[l' del'] nodes']. destruct IHl as (Hl'&[He Hd]&->&->).
    destruct (rebalance_set_h_ok lo hi base bits l' r h) as (Hw&Hit); [split_and!; done|].
    apply items_elems in Hit as (Hel&Hde&Hc). unfold deleted_from. cbv iota beta.
    rewrite (bool_decide_ext _ _ (elem_of_left _ _ _ _ _ _ _ Hwf seq Hlt)).
    rewrite Hel, Hde, Hc, Hdn, Hcn, Hen. split_and!; [done| |tauto|done|lia].
    intros x. rewrite !elem_of_app, He, elem_of_node_elems. simpl.
    pose proof (wf_elems_range _ _ _ x Hr). destruct (decide (x = seq)); intuition lia.
  - specialize (IHr (base + 2048) hi Hbr Hr).
    destruct (delete r seq del nodes) as [[r' del'] nodes']. destruct IHr as (Hr'&[He Hd]&->&->).
    destruct (rebalance_set_h_ok lo hi base bits l r' h) as (Hw&Hit); [split_and!; done|].
    apply items_elems in Hit as (Hel&Hde&Hc). unfold deleted_from. cbv iota beta.
    rewrite (bool_decide_ext _ _ (elem_of_right _ _ _ _ _ _ _ Hwf seq Hle)).
    rewrite Hel, Hde, Hc, Hdn, Hcn, Hen. split_and!; [done| |tauto|done|lia].
    intros x. rewrite !elem_of_app, He, elem_of_node_elems. simpl.
    pose proof (wf_elems_range _ _ _ x Hl). destruct (decide (x = seq)); intuition lia.
  - pose proof (delete_here_ok _ _ _ _ _ _ _ seq del nodes Hwf ltac:(lia)) as Hh.
    destruct (node_clear base bits seq del) as [[bits' [|]] del']; done.
Qed.

(** ** Membership, order and size *)

Lemma exists_from_ok lo hi n seq :
  bounds_ok lo hi -> wf_node lo hi n -> exists_from n seq = bool_decide (seq ∈ elems n).
Proof.
  revert lo hi. induction n as [|base bits l IHl r IHr h]; intros lo hi Hb Hwf.
  { cbn [exists_from]. symmetry. apply bool_decide_eq_false, not_elem_of_nil. }
  pose proof (end_of_range _ _ _ _ _ _ _ Hb Hwf) as Hend.
  pose proof (bounds_ok_left _ _ _ _ _ _ _ Hb Hwf) as Hbl.
  pose proof (bounds_ok_right _ _ _ _ _ _ _ Hb Hwf) as Hbr.
  pose proof Hwf as [(?&?&?&?&Hl&Hr) _]%wf_node_kids.
  cbn [exists_from]. rewrite Hend, numEntries_eq in *.
  destruct (Z.ltb_spec seq base) as [Hlt|Hge];
    [|destruct (Z.leb_spec (base + 2048) seq) as [Hle|Hgt]].
  - rewrite (IHl lo base Hbl Hl). symmetry. apply bool_decide_ext. by eapply elem_of_left.
  - rewrite (IHr _ hi Hbr Hr). symmetry. apply bool_decide_ext. by eapply elem_of_right.
  - rewrite node_exists_bit by lia. rewrite <- (bool_decide_true_eq (bit _ _)).
    symmetry. apply bool_decide_ext. eapply elem_of_here; [done|lia].
Qed.

Lemma sorted_filter (P : Z -> Prop) `{forall x, Decision (P x)} l :
  StronglySorted Z.lt l -> StronglySorted Z.lt (filter P l).
Proof.
  induction 1 as [|x l Hs IH Hf]; [constructor|]. rewrite filter_cons. case_decide; [|done].
  constructor; [done|]. rewrite Forall_forall in *. intros y [_ ?]%list_elem_of_filter. auto.
Qed.

Lemma sorted_seqZ a n : StronglySorted Z.lt (seqZ a (Z.of_nat n)).
Proof.
  revert a. induction n as [|n IH]; intros a; [constructor|].
  rewrite seqZ_cons by lia. replace (Z.pred (Z.of_nat (S n))) with (Z.of_nat n) by lia.
  constructor; [apply IH|]. apply Forall_forall. intros x ?%elem_of_seqZ. lia.
Qed.

Lemma elems_sorted lo hi n : wf_node lo hi n -> StronglySorted Z.lt (elems n).
Proof.
  revert lo hi. induction n as [|base bits l IHl r IHr h]; intros lo hi Hwf; [constructor|].
  pose proof Hwf as [(?&?&?&?&Hl&Hr) _]%wf_node_kids. rewrite elems_Node, numEntries_eq in *.
  apply StronglySorted_app_2; [|by eapply IHl|apply StronglySorted_app_2; [| |by eapply IHr]].
  - intros x y Hx%(wf_elems_range _ _ _ _ Hl) [Hy%elem_of_node_elems|Hy]%elem_of_app; [lia|].
    apply (wf_elems_range _ _ _ _ Hr) in Hy. lia.
  - intros x y Hx%elem_of_node_elems Hy%(wf_elems_range _ _ _ _ Hr). lia.
  - apply sorted_filter. apply (sorted_seqZ base 2048).
Qed.

Lemma sorted_NoDup l : StronglySorted Z.lt l -> NoDup l.
Proof.
  induction 1 as [|x l Hs IH Hf]; constructor; [|done].
  intros Hx. rewrite Forall_forall in Hf. specialize (Hf _ Hx). lia.
Qed.
