(* ===== verification/SeqSetSpec.v ===== *)
(** * Sequence sets: the set-level contract

    [SequenceSet] refines a finite set of sequence numbers ([model]): insertion,
    deletion, membership, size, ascending iteration, minimum and maximum, union.
    Insertion keeps the tree AVL-balanced.  The last section records where the
    code departs from its contract: unaligned or empty initial nodes made by
    [SetInitialMin], the top 2048 sequence numbers, and balance after [Delete]. *)

From S2P Require Import Prelude SeqSet SeqSetProofs.
Import Avl.

Definition model (ss : SequenceSet) : gset Z := list_to_set (elems (root ss)).

Record wf_set (ss : SequenceSet) : Prop := {
  wf_tree : wf_node 0 seq_limit (root ss);
  wf_size : ss_size ss = Z.of_nat (size (model ss));
  wf_nodes : ss_nodes ss = count_nodes (root ss);
  wf_changed : changed ss = false;
}.

Lemma bounds_ok_all : bounds_ok 0 seq_limit.
Proof. unfold bounds_ok, seq_limit. rewrite numEntries_eq. split_and!; done. Qed.

Lemma elem_of_model ss x : x ∈ model ss <-> x ∈ elems (root ss).
Proof. unfold model. apply elem_of_list_to_set. Qed.

Lemma size_model ss : wf_node 0 seq_limit (root ss) -> size (model ss) = length (elems (root ss)).
Proof. intros H. apply size_list_to_set, sorted_NoDup. by eapply elems_sorted. Qed.

Lemma model_insert ss n seq :
  (forall x, x ∈ elems n <-> x = seq \/ x ∈ elems (root ss)) ->
  list_to_set (elems n) = {[seq]} ∪ model ss.
Proof.
  intros H. apply set_eq. intros x.
  rewrite elem_of_list_to_set, elem_of_union, elem_of_singleton, elem_of_model. apply H.
Qed.

Lemma model_delete ss n seq :
  (forall x, x ∈ elems n <-> x <> seq /\ x ∈ elems (root ss)) ->
  list_to_set (elems n) = model ss ∖ {[seq]}.
Proof.
  intros H. apply set_eq. intros x.
  rewrite elem_of_list_to_set, elem_of_difference, elem_of_singleton, elem_of_model, H. tauto.
Qed.

Lemma new_set_wf : wf_set new_set.
Proof. by split. Qed.

Lemma Insert_ok ss seq :
  wf_set ss -> 0 <= seq < seq_limit ->
  wf_set (Insert ss seq) /\ model (Insert ss seq) = {[seq]} ∪ model ss /\
  (dense (root ss) -> dense (root (Insert ss seq))).
Proof.
  intros Hwf Hseq. destruct Hwf as [Ht Hs Hn Hc].
  pose proof (insert_ok 0 seq_limit (root ss) seq (changed ss) (ss_nodes ss) bounds_ok_all Hseq Ht) as H.
  unfold Insert. destruct (insert _ _ _ _) as [[n' ins'] nodes'].
  destruct H as (Hw&[He Hd]&->&->). rewrite Hc. simpl.
  apply model_insert in He.
  destruct (decide (seq ∈ elems (root ss))) as [Hin|Hin].
  - rewrite bool_decide_eq_true_2 by done. simpl. split_and!; [|done|done].
    split; simpl; [done| |lia|done]. unfold model at 1. simpl. rewrite He, Hs.
    f_equal. f_equal. apply elem_of_model in Hin. set_solver.
  - rewrite bool_decide_eq_false_2 by done. simpl. split_and!; [|done|done].
    split; simpl; [done| |lia|done]. unfold model at 1. simpl. rewrite He, Hs.
    rewrite size_union by (rewrite <- elem_of_model in Hin; set_solver). rewrite size_singleton. lia.
Qed.

Lemma Delete_ok ss seq :
  wf_set ss ->
  let '(ss', found) := Delete ss seq in
  wf_set ss' /\ model ss' = model ss ∖ {[seq]} /\ found = bool_decide (seq ∈ model ss) /\
  (dense (root ss) -> dense (root ss')).
Proof.
  intros Hwf. pose proof Hwf as [Ht Hs Hn Hc]. unfold Delete.
  destruct (IsEmpty ss) eqn:Hem.
  { assert (model ss = ∅) as Hme by (unfold IsEmpty, model in *; by destruct (root ss)).
    split_and!; [done|set_solver| |done]. symmetry. apply bool_decide_eq_false. set_solver. }
  pose proof (delete_ok 0 seq_limit (root ss) seq (changed ss) (ss_nodes ss) bounds_ok_all Ht) as H.
  destruct (delete _ _ _ _) as [[n' del'] nodes']. destruct H as (Hw&[He Hd]&->&->).
  rewrite Hc. simpl. apply model_delete in He. rewrite (bool_decide_ext _ _ (elem_of_model ss seq)).
  case_bool_decide as Hin; rewrite <- elem_of_model in Hin.
  - assert (Z.of_nat (size (model ss ∖ {[seq]})) = ss_size ss - 1) as Hsz.
    { rewrite size_difference by set_solver. rewrite size_singleton, Hs.
      assert (size (model ss) <> 0%nat); [|lia]. intros Hz%size_empty_inv. set_solver. }
    assert (wf_set (mkSequenceSet n' (ss_size ss - 1) (ss_nodes ss + (count_nodes n' - count_nodes (root ss))) false)) as Hwf'.
    { split; simpl; [done| |lia|done]. unfold model. simpl. by rewrite He, Hsz. }
    destruct (Z.eqb_spec (ss_size ss - 1) 0) as [Hz|Hz]; [|done].
    rewrite Hz in Hsz. assert (model ss ∖ {[seq]} = ∅) as Hme.
    { apply leibniz_equiv, size_empty_inv. lia. }
    split_and!; [apply new_set_wf|by rewrite Hme|done|intros _; constructor].
  - split_and!; [|done|done|done].
    split; simpl; [done| |lia|done]. unfold model at 1. simpl. rewrite He, Hs.
    f_equal. f_equal. set_solver.
Qed.

Lemma Exists_ok ss seq : wf_set ss -> Exists_ ss seq = bool_decide (seq ∈ model ss).
Proof.
  intros [Ht _ _ _]. unfold Exists_. rewrite (exists_from_ok 0 seq_limit) by (done || apply bounds_ok_all).
  apply bool_decide_ext. by rewrite elem_of_model.
Qed.

(** ** Balance *)

(** [rebalance] restores balance when the children are balanced and differ by at most 2. *)
Lemma rebalance_balanced lo hi base bits l r h :
  wf_node lo hi (Node base bits l r h) -> balanced l -> balanced r ->
  -2 <= height l - height r <= 2 ->
  let n := rebalance (Node base bits l r h) in
  balanced n /\ Z.max (height l) (height r) <= height n <= 1 + Z.max (height l) (height r) /\
  (-1 <= height l - height r <= 1 -> n = Node base bits l r h).
Proof.
  intros Hwf Hl Hr Hd. pose proof Hwf as [(_&_&_&_&Hwl&Hwr) Hh]%wf_node_kids.
  cbv zeta. unfold rebalance. cbn [balanceF].
  destruct (Z.ltb_spec 1 (height l - height r)) as [Hb|Hb].
  - destruct l as [|lb lbits ll lr lh].
    { pose proof (height_nonneg _ _ _ Hwr). simpl in *. lia. }
    pose proof Hwl as [(_&_&_&_&Hwll&Hwlr) Hlh]%wf_node_kids.
    pose proof (height_nonneg _ _ _ Hwll). pose proof (height_nonneg _ _ _ Hwlr).
    cbn [balanceF height balanced] in *.
    destruct (Z.ltb_spec (height ll - height lr) 0).
    + destruct lr as [|lrb lrbits lrl lrr lrh]; [simpl in *; lia|].
      pose proof Hwlr as [_ ?]%wf_node_kids. cbn [balanced height] in *.
      cbn [rotateL set_h rotateR balanced height maxH]. repeat case_match; go_bool; split_and!; (tauto || lia).
    + cbn [rotateR set_h balanced height maxH]. repeat case_match; go_bool; split_and!; (tauto || lia).
  - destruct (Z.ltb_spec (height l - height r) (-1)) as [Hb'|Hb'].
    + destruct r as [|rb rbits rl rr rh].
      { pose proof (height_nonneg _ _ _ Hwl). simpl in *. lia. }
      pose proof Hwr as [(_&_&_&_&Hwrl&Hwrr) Hrh]%wf_node_kids.
      pose proof (height_nonneg _ _ _ Hwrl). pose proof (height_nonneg _ _ _ Hwrr).
      cbn [balanceF height balanced] in *.
      destruct (Z.ltb_spec 0 (height rl - height rr)).
      * destruct rl as [|rlb rlbits rll rlr rlh]; [simpl in *; lia|].
        pose proof Hwrl as [_ ?]%wf_node_kids. cbn [balanced height] in *.
        cbn [rotateL set_h rotateR balanced height maxH]. repeat case_match; go_bool; split_and!; (tauto || lia).
      * cbn [rotateL set_h balanced height maxH]. repeat case_match; go_bool; split_and!; (tauto || lia).
    + cbn [balanced height]. split_and!; (tauto || lia).
Qed.

Lemma insert_balanced lo hi n seq ins nodes :
  bounds_ok lo hi -> lo <= seq < hi -> wf_node lo hi n -> balanced n ->
  let '(n', _, _) := insert n seq ins nodes in
  balanced n' /\ height n <= height n' <= height n + 1.
Proof.
  revert lo hi. induction n as [|base bits l IHl r IHr h]; intros lo hi Hb Hseq Hwf Hbal.
  { cbn [insert]. destruct (node_set _ _ _ _). simpl. lia. }
  pose proof (end_of_range _ _ _ _ _ _ _ Hb Hwf) as Hend.
  pose proof (bounds_ok_left _ _ _ _ _ _ _ Hb Hwf) as Hbl.
  pose proof (bounds_ok_right _ _ _ _ _ _ _ Hb Hwf) as Hbr.
  pose proof Hwf as [(?&?&?&?&Hl&Hr) Hh]%wf_node_kids. destruct Hbal as (Hd&Hball&Hbalr).
  cbn [insert]. rewrite Hend, numEntries_eq in *.
  destruct (Z.ltb_spec seq base) as [Hlt|Hge];
    [|destruct (Z.leb_spec (base + 2048) seq) as [Hle|Hgt]].
  - specialize (IHl lo base Hbl ltac:(lia) Hl Hball).
    pose proof (insert_ok lo base l seq ins nodes Hbl ltac:(lia) Hl) as Hok.
    destruct (insert l seq ins nodes) as [[l' ins'] nodes']. destruct Hok as (Hl'&_&_&_), IHl as [? ?].
    assert (wf_kids lo hi base bits l' r) as Hk by (split_and!; done).
    pose proof (wf_set_h lo hi base bits l' r h Hk) as Hw. cbn [set_h] in *.
    destruct (rebalance_balanced _ _ _ _ _ _ _ Hw) as (?&?&Hid); [tauto|tauto|lia|].
    cbv iota beta. split; [done|]. change (height (Node base bits l r h)) with h.
    destruct (decide (-1 <= height l' - height r <= 1)) as [Hs|Hs]; [|lia].
    rewrite Hid by done. change (height _) with (height (set_h (Node base bits l' r h))).
    rewrite height_set_h. lia.
  - specialize (IHr (base + 2048) hi Hbr ltac:(lia) Hr Hbalr).
    pose proof (insert_ok (base + 2048) hi r seq ins nodes Hbr ltac:(lia) Hr) as Hok.
    destruct (insert r seq ins nodes) as [[r' ins'] nodes']. destruct Hok as (Hr'&_&_&_), IHr as [? ?].
    assert (wf_kids lo hi base bits l r') as Hk by (split_and!; done).
    pose proof (wf_set_h lo hi base bits l r' h Hk) as Hw. cbn [set_h] in *.
    destruct (rebalance_balanced _ _ _ _ _ _ _ Hw) as (?&?&Hid); [tauto|tauto|lia|].
    cbv iota beta. split; [done|]. change (height (Node base bits l r h)) with h.
    destruct (decide (-1 <= height l - height r' <= 1)) as [Hs|Hs]; [|lia].
    rewrite Hid by done. change (height _) with (height (set_h (Node base bits l r' h))).
    rewrite height_set_h. lia.
  - destruct (node_set base bits seq ins) as [bits' ins'] eqn:Hs.
    pose proof (node_set_spec base bits seq ltac:(lia) ltac:(done) ins) as Hs'. rewrite Hs in Hs'.
    assert (wf_kids lo hi base bits' l r) as Hk by (split_and!; tauto).
    pose proof (wf_set_h lo hi base bits' l r h Hk) as Hw. cbn [set_h] in *.
    destruct (rebalance_balanced _ _ _ _ _ _ _ Hw) as (?&?&Hid); [tauto|tauto|lia|].
    cbv iota beta. split; [done|]. rewrite Hid by lia.
    change (height (Node base bits' l r _)) with (height (set_h (Node base bits' l r h))).
    rewrite height_set_h. cbn [height]. lia.
Qed.

(** A balanced tree of height [2k] or more has at least [2^k - 1] nodes. *)
Lemma balanced_size k lo hi n :
  wf_node lo hi n -> balanced n -> 2 * Z.of_nat k <= height n -> 2 ^ Z.of_nat k <= count_nodes n + 1.
Proof.
  revert lo hi n. induction k as [|k IH]; intros lo hi n Hwf Hb Hh.
  { unfold count_nodes. lia. }
  destruct n as [|base bits l r h]; [simpl in *; lia|].
  pose proof Hwf as [(_&_&_&_&Hl&Hr) ->]%wf_node_kids. destruct Hb as (Hd&Hbl&Hbr).
  destruct (items_elems (Node base bits l r 0) l (base, bits) r eq_refl) as (_&_&Hc).
  change (count_nodes (Node base bits l r _)) with (count_nodes (Node base bits l r 0)).
  rewrite Hc. cbn [height] in Hh. rewrite Nat2Z.inj_succ, Z.pow_succ_r by lia.
  pose proof (IH _ _ l Hl Hbl ltac:(lia)). pose proof (IH _ _ r Hr Hbr ltac:(lia)). lia.
Qed.

(** ** Iteration *)

(** Visiting a list in order until the callback returns false. *)
Fixpoint visit {S : Type} (l : list Z) (f : Z -> S -> S * bool) (s : S) : S * bool :=
  match l with
  | [] => (s, true)
  | x :: l => let '(s, ok) := f x s in if ok then visit l f s else (s, false)
  end.

Lemma visit_app {S} (l1 l2 : list Z) (f : Z -> S -> S * bool) s :
  visit (l1 ++ l2) f s =
    let '(s, ok) := visit l1 f s in if negb ok then (s, false) else visit l2 f s.
Proof.
  revert s. induction l1 as [|x l1 IH]; intros s; [done|]. simpl.
  destruct (f x s) as [s' []]; [apply IH|done].
Qed.

Lemma iter_bits_visit {S} base bits (f : Z -> S -> S * bool) fuel off s :
  0 <= off -> off + Z.of_nat fuel <= 2048 ->
  iter_bits base bits f fuel (base + off) s =
    visit (filter (fun x => bit bits (x - base) = true) (seqZ (base + off) (Z.of_nat fuel))) f s.
Proof.
  revert off s. induction fuel as [|fuel IH]; intros off s H0 H1; [done|].
  rewrite seqZ_cons, filter_cons by lia. cbn [iter_bits].
  replace (Z.pred (Z.of_nat (Datatypes.S fuel))) with (Z.of_nat fuel) by lia.
  replace (Z.succ (base + off)) with (base + (off + 1)) by lia.
  replace (base + off + 1) with (base + (off + 1)) by lia.
  rewrite node_exists_bit by lia. destruct (bit bits (base + off - base)) eqn:E.
  - rewrite decide_True by done. simpl. destruct (f (base + off) s) as [s' []]; [|done].
    apply IH; lia.
  - rewrite decide_False by done. apply IH; lia.
Qed.

Lemma iter_visit {S} lo hi n (f : Z -> S -> S * bool) s : 0 <= lo -> hi <= seq_limit -> wf_node lo hi n -> iter n f s = visit (elems n) f s.
Proof.
  revert lo hi s. induction n as [|base bits l IHl r IHr h]; intros lo hi s Hlo Hhi Hwf; [done|].
  pose proof Hwf as [(Hb1&Hb2&_&_&Hl&Hr) _]%wf_node_kids. unfold seq_limit in Hhi. rewrite numEntries_eq in *.
  rewrite elems_Node, !visit_app. cbn [iter]. rewrite (IHl lo base) by (done || unfold seq_limit; rewrite numEntries_eq; lia).
  destruct (visit (elems l) f s) as [s' []]; [|done]. cbn [negb].
  rewrite numEntries_eq, u64_small by (unfold is_u64; lia). replace (base + 2048 - base) with 2048 by lia.
  pose proof (iter_bits_visit base bits f (Z.to_nat 2048) 0 s') as Hi.
  rewrite Z.add_0_r in Hi. rewrite Hi, visit_app by lia. rewrite Z2Nat.id, <- numEntries_eq by lia. fold (node_elems base bits).
  destruct (visit (node_elems base bits) f s') as [s'' []]; [|done]. cbn [negb]. apply (IHr (base + 2048) hi); [lia|unfold seq_limit; rewrite numEntries_eq; lia|done].
Qed.

Lemma visit_all {S} (l : list Z) (g : Z -> S -> S) s :
  visit l (fun x s => (g x s, true)) s = (fold_left (fun s x => g x s) l s, true).
Proof. revert s. induction l as [|x l IH]; intros s; [done|]. simpl. apply IH. Qed.

(** ** Minimum and maximum *)

Lemma trailingZeros64_spec w :
  0 < w ->
  0 <= trailingZeros64 w /\ Z.testbit w (trailingZeros64 w) = true /\
  forall i, i < trailingZeros64 w -> Z.testbit w i = false.
Proof.
  destruct w as [|p|p]; try lia. intros _. unfold trailingZeros64.
  induction p as [p IH|p IH|]; cbn [pos_trailing_zeros].
  - split_and!; [lia|done|]. intros i Hi. apply Z.testbit_neg_r. lia.
  - destruct IH as (H0&H1&H2). split_and!; [lia| |].
    + replace (1 + pos_trailing_zeros p) with (Z.succ (pos_trailing_zeros p)) by lia.
      rewrite Pos2Z.inj_xO, Z.double_bits_succ. done.
    + intros i Hi. destruct (decide (i < 0)); [apply Z.testbit_neg_r; lia|].
      rewrite Pos2Z.inj_xO. destruct (decide (i = 0)) as [->|]; [apply Z.testbit_even_0|].
      replace i with (Z.succ (i - 1)) by lia. rewrite Z.double_bits_succ. apply H2. lia.
  - split_and!; [lia|done|]. intros i Hi. apply Z.testbit_neg_r. lia.
Qed.

(** [bitsPerBucket - bits.LeadingZeros64(b>>1)] is the position of the highest set bit. *)
Lemma high_bit_spec b : 0 < b -> bitsPerBucket - leadingZeros64 (Z.shiftr b 1) = Z.log2 b.
Proof.
  intros Hb. unfold leadingZeros64, bitsPerBucket. rewrite Z.shiftr_div_pow2 by lia.
  change (2 ^ 1) with 2. destruct (Z.eqb_spec (b / 2) 0) as [Hz|Hz].
  - assert (b = 1) as -> by (pose proof (Z.div_mod b 2); pose proof (Z.mod_pos_bound b 2); lia). done.
  - assert (0 <= b / 2) by (apply Z.div_pos; lia).
    assert (Z.log2 b = Z.succ (Z.log2 (b / 2))); [|lia].
    pose proof (Z.div_mod b 2 ltac:(lia)) as Hdm. pose proof (Z.mod_pos_bound b 2 ltac:(lia)).
    rewrite Hdm at 1. destruct (decide (b mod 2 = 0)) as [->|].
    + rewrite Z.add_0_r. apply Z.log2_double. lia.
    + replace (b mod 2) with 1 by lia. apply Z.log2_succ_double. lia.
Qed.

(** A word of the bitmap and the bits of the bitmap. *)
Lemma bit_of_word bits i j : 0 <= j < 64 -> bit bits (Z.of_nat i * 64 + j) = Z.testbit (bits_at bits i) j.
Proof.
  intros Hj. unfold bit. rewrite Z.div_add_l, (Z.div_small j 64), Z.add_0_r, Nat2Z.id by lia.
  by rewrite Z.add_comm, Z.mod_add, Z.mod_small by lia.
Qed.

Lemma u64_bit_lt w i : is_u64 w -> Z.testbit w i = true -> 0 <= i < 64.
Proof.
  intros Hw Hi. destruct (decide (i < 0)); [by rewrite Z.testbit_neg_r in Hi by lia|].
  destruct (decide (64 <= i)); [|lia]. by rewrite u64_testbit_high in Hi.
Qed.

Lemma node_min_spec base bits i :
  wf_bits bits -> 0 <= base -> base + 2048 <= 2 ^ 64 ->
  (exists k, Z.of_nat i * 64 <= k < 2048 /\ bit bits k = true) ->
  exists k, node_min base (Z.of_nat i) (drop i bits) = base + k /\ 0 <= k < 2048 /\
    bit bits k = true /\ forall k', Z.of_nat i * 64 <= k' -> bit bits k' = true -> k <= k'.
Proof.
  intros Hwf Hb0 Hb. pose proof Hwf as [Hl _]. unfold numBuckets in Hl.
  remember (32 - i)%nat as m eqn:Hm. revert i Hm. induction m as [|m IH]; intros i Hm Hex;
    [destruct Hex as (?&?&_); lia|].
  assert (i < 32)%nat as Hi by lia.
  destruct (lookup_lt_is_Some_2 bits i ltac:(lia)) as [w Hw]. rewrite (drop_S _ _ _ Hw).
  assert (bits_at bits i = w) as Hbw by (unfold bits_at; by rewrite Hw).
  pose proof (wf_bits_word bits i Hwf) as Hu. rewrite Hbw in Hu. cbn [node_min].
  destruct (Z.eqb_spec w 0) as [->|Hne]; cbn [negb].
  - assert (forall k, Z.of_nat i * 64 <= k -> bit bits k = true -> Z.of_nat (S i) * 64 <= k) as Hskip.
    { intros k Hk Hbit. destruct (decide (Z.of_nat (S i) * 64 <= k)); [done|].
      replace k with (Z.of_nat i * 64 + (k - Z.of_nat i * 64)) in Hbit by lia.
      rewrite bit_of_word, Hbw, Z.testbit_0_l in Hbit by lia. done. }
    replace (Z.of_nat i + 1) with (Z.of_nat (S i)) by lia.
    destruct (IH (S i)) as (k&->&Hk&Hbit&Hmin); [lia| |].
    + destruct Hex as (k&Hk&Hbit). exists k. split; [|done]. split; [by apply Hskip; [lia|]|lia].
    + exists k. split_and!; try done; try lia. intros k' Hk' Hbit'. apply Hmin; [by apply Hskip|done].
  - destruct (trailingZeros64_spec w ltac:(unfold is_u64 in *; lia)) as (H0&H1&H2).
    pose proof (u64_bit_lt _ _ Hu H1). unfold bitsPerBucket.
    exists (Z.of_nat i * 64 + trailingZeros64 w). split_and!; try lia.
    + rewrite Z.add_assoc. apply u64_small. unfold is_u64. lia.
    + by rewrite bit_of_word, Hbw by lia.
    + intros k' Hk' Hbit'. destruct (decide (Z.of_nat i * 64 + trailingZeros64 w <= k')); [done|].
      replace k' with (Z.of_nat i * 64 + (k' - Z.of_nat i * 64)) in Hbit' by lia.
      rewrite bit_of_word, Hbw, H2 in Hbit' by lia. done.
Qed.

Lemma node_max_spec base bits i :
  wf_bits bits -> 0 <= base -> base + 2048 <= 2 ^ 64 -> (i <= 32)%nat ->
  (exists k, 0 <= k < Z.of_nat i * 64 /\ bit bits k = true) ->
  exists k, node_max base bits i = base + k /\ 0 <= k < 2048 /\
    bit bits k = true /\ forall k', k' < Z.of_nat i * 64 -> 0 <= k' -> bit bits k' = true -> k' <= k.
Proof.
  intros Hwf Hb0 Hb. induction i as [|i IH]; intros Hi Hex.
  { destruct Hex as (k&?&_). lia. }
  pose proof (wf_bits_word bits i Hwf) as Hu. cbn [node_max].
  destruct (Z.eqb_spec (bits_at bits i) 0) as [Hz|Hne]; cbn [negb].
  - assert (forall k, 0 <= k < Z.of_nat (S i) * 64 -> bit bits k = true -> k < Z.of_nat i * 64) as Hskip.
    { intros k Hk Hbit. destruct (decide (k < Z.of_nat i * 64)); [done|].
      replace k with (Z.of_nat i * 64 + (k - Z.of_nat i * 64)) in Hbit by lia.
      rewrite bit_of_word, Hz, Z.testbit_0_l in Hbit by lia. done. }
    destruct IH as (k&->&Hk&Hbit&Hmax); [lia| |].
    + destruct Hex as (k&Hk&Hbit). exists k. split; [|done]. split; [lia|by apply Hskip].
    + exists k. split_and!; try done; try lia. intros k' Hk' ? Hbit'. apply Hmax; [apply Hskip; [lia|done]|lia|done].
  - assert (0 < bits_at bits i) as Hpos by (unfold is_u64 in Hu; lia).
    rewrite high_bit_spec by done. pose proof (Z.bit_log2 _ Hpos) as Hlog.
    pose proof (u64_bit_lt _ _ Hu Hlog). unfold bitsPerBucket.
    exists (Z.of_nat i * 64 + Z.log2 (bits_at bits i)). split_and!; try lia.
    + rewrite Z.add_assoc. apply u64_small. unfold is_u64. lia.
    + by rewrite bit_of_word by lia.
    + intros k' Hk' ? Hbit'. destruct (decide (k' <= Z.of_nat i * 64 + Z.log2 (bits_at bits i))); [done|].
      replace k' with (Z.of_nat i * 64 + (k' - Z.of_nat i * 64)) in Hbit' by lia.
      rewrite bit_of_word, Z.bits_above_log2 in Hbit' by lia. done.
Qed.

Lemma dense_Node base bits l r h :
  dense (Node base bits l r h) <-> dense l /\ node_elems base bits <> [] /\ dense r.
Proof. unfold dense. simpl. by rewrite Forall_app, Forall_cons. Qed.

Lemma node_elems_bit base bits :
  node_elems base bits <> [] -> exists k, 0 <= k < 2048 /\ bit bits k = true.
Proof.
  intros He. destruct (node_elems base bits) as [|x xs] eqn:E; [done|].
  assert (x ∈ node_elems base bits) as [? ?]%elem_of_node_elems by (rewrite E; left).
  exists (x - base). split; [lia|done].
Qed.

Lemma leftmost_min_spec lo hi n m :
  bounds_ok lo hi -> wf_node lo hi n -> dense n -> n <> Nil ->
  leftmost_min n m ∈ elems n /\ forall x, x ∈ elems n -> leftmost_min n m <= x.
Proof.
  revert lo hi. induction n as [|base bits l IHl r IHr h]; [done|]. intros lo hi Hb Hwf Hd _.
  pose proof (bounds_ok_left _ _ _ _ _ _ _ Hb Hwf) as Hbl.
  pose proof Hwf as [(?&?&?&?&Hl&Hr) _]%wf_node_kids. apply dense_Node in Hd as (Hdl&Hde&_).
  destruct Hb as (?&?&_). unfold seq_limit in *. rewrite numEntries_eq in *.
  destruct l as [|lb lbits ll lr lh].
  - destruct (node_elems_bit _ _ Hde) as (k0&Hk0&Hbit0).
    destruct (node_min_spec base bits 0) as (k&Hm&Hk&Hbit&Hmin); [done|lia|lia|exists k0; split; [lia|done]|].
    rewrite drop_0 in Hm. change (Z.of_nat 0) with 0 in *. cbn [leftmost_min]. rewrite Hm. split.
    + rewrite elem_of_elems_Node. right; left. split; [lia|]. by rewrite Z.add_simpl_l.
    + intros x. rewrite elem_of_elems_Node. intros [Hx|[[Hx Hbx]|Hx]].
      * by apply not_elem_of_nil in Hx.
      * specialize (Hmin (x - base) ltac:(lia) Hbx). lia.
      * apply (wf_elems_range _ _ _ _ Hr) in Hx. lia.
  - destruct (IHl lo base Hbl Hl Hdl ltac:(done)) as [Hin Hmin].
    change (leftmost_min (Node base bits (Node lb lbits ll lr lh) r h) m)
      with (leftmost_min (Node lb lbits ll lr lh) m).
    split; [rewrite elem_of_elems_Node; by left|].
    intros x. rewrite elem_of_elems_Node. intros [Hx|[[Hx Hbx]|Hx]]; [by apply Hmin| |].
    + apply (wf_elems_range _ _ _ _ Hl) in Hin. lia.
    + apply (wf_elems_range _ _ _ _ Hl) in Hin. apply (wf_elems_range _ _ _ _ Hr) in Hx. lia.
Qed.

Lemma rightmost_max_spec lo hi n m :
  bounds_ok lo hi -> wf_node lo hi n -> dense n -> n <> Nil ->
  rightmost_max n m ∈ elems n /\ forall x, x ∈ elems n -> x <= rightmost_max n m.
Proof.
  revert lo hi. induction n as [|base bits l IHl r IHr h]; [done|]. intros lo hi Hb Hwf Hd _.
  pose proof (bounds_ok_right _ _ _ _ _ _ _ Hb Hwf) as Hbr.
  pose proof Hwf as [(?&?&?&?&Hl&Hr) _]%wf_node_kids. apply dense_Node in Hd as (_&Hde&Hdr).
  destruct Hb as (?&?&_). unfold seq_limit in *. rewrite numEntries_eq in *.
  destruct r as [|rb rbits rl rr rh].
  - destruct (node_elems_bit _ _ Hde) as (k0&Hk0&Hbit0).
    destruct (node_max_spec base bits 32) as (k&Hm&Hk&Hbit&Hmax); [done|lia|lia|lia|exists k0; split; [lia|done]|].
    change (rightmost_max (Node base bits l Nil h) m) with (node_max base bits 32). rewrite Hm. split.
    + rewrite elem_of_elems_Node. right; left. split; [lia|]. by rewrite Z.add_simpl_l.
    + intros x. rewrite elem_of_elems_Node. intros [Hx|[[Hx Hbx]|Hx]].
      * apply (wf_elems_range _ _ _ _ Hl) in Hx. lia.
      * specialize (Hmax (x - base) ltac:(lia) ltac:(lia) Hbx). lia.
      * by apply not_elem_of_nil in Hx.
  - destruct (IHr _ hi Hbr Hr Hdr ltac:(done)) as [Hin Hmax].
    change (rightmost_max (Node base bits l (Node rb rbits rl rr rh) h) m)
      with (rightmost_max (Node rb rbits rl rr rh) m).
    split; [rewrite elem_of_elems_Node; by right; right|].
    intros x. rewrite elem_of_elems_Node. intros [Hx|[[Hx Hbx]|Hx]]; [| |by apply Hmax].
    + apply (wf_elems_range _ _ _ _ Hr) in Hin. apply (wf_elems_range _ _ _ _ Hl) in Hx. lia.
    + apply (wf_elems_range _ _ _ _ Hr) in Hin. lia.
Qed.

(** ** Union *)

(** [ss'] is well formed and holds the members of [ss] and those satisfying [P]. *)
Definition extends (ss : SequenceSet) (P : Z -> Prop) (ss' : SequenceSet) : Prop :=
  wf_set ss' /\ forall x, x ∈ model ss' <-> x ∈ model ss \/ P x.

Lemma extends_Insert ss seq :
  wf_set ss -> 0 <= seq < seq_limit -> extends ss (fun x => x = seq) (Insert ss seq).
Proof.
  intros Hwf Hs. destruct (Insert_ok ss seq Hwf Hs) as (?&Hm&_). split; [done|].
  intros x. rewrite Hm. set_solver.
Qed.

Lemma extends_trans ss ss1 ss2 (P Q R : Z -> Prop) :
  extends ss P ss1 -> extends ss1 Q ss2 -> (forall x, R x <-> P x \/ Q x) -> extends ss R ss2.
Proof. intros [_ H1] [? H2] HR. split; [done|]. intros x. rewrite H2, H1, HR. tauto. Qed.

(** The words have at most [fuel] bits, so the loop stops because [b = 0]. *)
Lemma insert_word_ok fuel start pos b ss :
  wf_set ss -> 0 <= b < 2 ^ Z.of_nat fuel -> 0 <= start -> 0 <= pos ->
  start + pos + Z.of_nat fuel <= seq_limit ->
  extends ss (fun x => exists j, 0 <= j /\ Z.testbit b j = true /\ x = start + pos + j)
    (insert_word fuel start pos b ss).
Proof.
  revert pos b ss. induction fuel as [|fuel IH]; intros pos b ss Hwf Hb Hs Hp Hlim.
  { simpl in *. replace b with 0 by lia. split; [done|]. intros x. split; [by left|].
    intros [?|(j&?&Hj&_)]; [done|]. by rewrite Z.testbit_0_l in Hj. }
  cbn [insert_word]. destruct (Z.eqb_spec b 0) as [->|Hne].
  { split; [done|]. intros x. split; [by left|].
    intros [?|(j&?&Hj&_)]; [done|]. by rewrite Z.testbit_0_l in Hj. }
  rewrite Nat2Z.inj_succ, Z.pow_succ_r in Hb by lia.
  assert (0 <= Z.shiftr b 1 < 2 ^ Z.of_nat fuel) as Hb'.
  { rewrite Z.shiftr_div_pow2 by lia. change (2 ^ 1) with 2.
    split; [apply Z.div_pos; lia|apply Z.div_lt_upper_bound; lia]. }
  assert ((Z.land b 1 =? 1) = Z.testbit b 0) as Hb0.
  { change 1 with (Z.ones 1) at 1. rewrite Z.land_ones, Z.bit0_odd by lia.
    change (2 ^ 1) with 2. rewrite Zmod_odd. by destruct (Z.odd b). }
  rewrite Hb0. unfold seq_limit in Hlim. rewrite numEntries_eq in Hlim.
  rewrite u64_small by (unfold is_u64; lia).
  assert (extends ss (fun x => Z.testbit b 0 = true /\ x = start + pos)
            (if Z.testbit b 0 then Insert ss (start + pos) else ss)) as H1.
  { destruct (Z.testbit b 0).
    - destruct (extends_Insert ss (start + pos) Hwf) as [? Hx].
      { unfold seq_limit. rewrite numEntries_eq. lia. }
      split; [done|]. intros x. rewrite Hx. tauto.
    - split; [done|]. intros x. intuition done. }
  specialize (IH (pos + 1) _ _ (proj1 H1) Hb' Hs ltac:(lia)).
  eapply extends_trans; [exact H1|apply IH; unfold seq_limit; rewrite numEntries_eq; lia|].
  intros x. split.
  - intros (j&Hj&Ht&->). destruct (decide (j = 0)) as [->|]; [left; split; [done|lia]|].
    right. exists (j - 1). rewrite Z.shiftr_spec by lia. replace (j - 1 + 1) with j by lia.
    split_and!; done || lia.
  - intros [[Ht ->]|(j&Hj&Ht&->)]; [exists 0; split_and!; done || lia|].
    rewrite Z.shiftr_spec in Ht by lia. exists (j + 1). split_and!; done || lia.
Qed.

Lemma insert_words_cons base nb w ws ss :
  insert_words base nb (w :: ws) ss =
    insert_words base (nb + 1) ws (insert_word 64 (u64 (base + nb * bitsPerBucket)) 0 w ss).
Proof. unfold insert_words. fold insert_words. reflexivity. Qed.

Lemma insert_words_ok base bits i ss :
  wf_set ss -> wf_bits bits -> 0 <= base -> base + 2048 <= seq_limit -> (i <= 32)%nat ->
  extends ss (fun x => exists k, Z.of_nat i * 64 <= k < 2048 /\ bit bits k = true /\ x = base + k)
    (insert_words base (Z.of_nat i) (drop i bits) ss).
Proof.
  intros Hwf Hwb Hb0 Hb. pose proof Hwb as [Hl _]. unfold numBuckets in Hl.
  remember (32 - i)%nat as m eqn:Hm. revert i ss Hwf Hm. induction m as [|m IH]; intros i ss Hwf Hm Hi.
  { rewrite drop_ge by lia. split; [done|]. intros x. split; [by left|].
    intros [?|(k&?&_)]; [done|lia]. }
  destruct (lookup_lt_is_Some_2 bits i ltac:(lia)) as [w Hw]. rewrite (drop_S _ _ _ Hw).
  assert (bits_at bits i = w) as Hbw by (unfold bits_at; by rewrite Hw).
  pose proof (wf_bits_word bits i Hwb) as Hu. rewrite Hbw in Hu. rewrite insert_words_cons.
  assert (bitsPerBucket = 64) as -> by done.
  assert (seq_limit < 2 ^ 64) by done.
  rewrite u64_small by (unfold is_u64; lia).
  pose proof (insert_word_ok 64 (base + Z.of_nat i * 64) 0 w ss Hwf Hu
    ltac:(lia) ltac:(lia) ltac:(lia)) as H1.
  replace (Z.of_nat i + 1) with (Z.of_nat (S i)) by lia.
  generalize dependent (insert_word 64 (base + Z.of_nat i * 64) 0 w ss).
  intros ss1 Hss1.
  eapply extends_trans; [exact Hss1|apply IH; [exact (proj1 Hss1)|lia|lia]|].
  intros x. split.
  - intros (k&Hk&Hbit&->). destruct (decide (k < Z.of_nat (S i) * 64)); [left|right; by exists k; split; [lia|]].
    exists (k - Z.of_nat i * 64). rewrite <- Hbw, <- bit_of_word by lia.
    replace (Z.of_nat i * 64 + (k - Z.of_nat i * 64)) with k by lia. split_and!; done || lia.
  - intros [(j&Hj&Ht&->)|(k&Hk&Hbit&->)]; [|exists k; split_and!; done || lia].
    pose proof (u64_bit_lt _ _ Hu Ht). exists (Z.of_nat i * 64 + j).
    rewrite bit_of_word, Hbw by lia. split_and!; done || lia.
Qed.

Lemma nodeIter_insert_ok lo hi n ss :
  bounds_ok lo hi -> wf_node lo hi n -> wf_set ss ->
  extends ss (fun x => x ∈ elems n)
    (nodeIter n (fun n ss =>
      match n with Nil => ss | Node base bits _ _ _ => insert_words base 0 bits ss end) ss).
Proof.
  revert lo hi ss. induction n as [|base bits l IHl r IHr h]; intros lo hi ss Hb Hwf Hss.
  { split; [done|]. intros x. split; [by left|]. intros [?|[]%not_elem_of_nil]. done. }
  pose proof (bounds_ok_left _ _ _ _ _ _ _ Hb Hwf) as Hbl.
  pose proof (bounds_ok_right _ _ _ _ _ _ _ Hb Hwf) as Hbr.
  pose proof Hwf as [(?&?&?&?&Hl&Hr) _]%wf_node_kids. destruct Hb as (?&?&_).
  rewrite numEntries_eq in *. cbn [nodeIter].
  pose proof (insert_words_ok base bits 0 ss Hss ltac:(done) ltac:(lia) ltac:(lia) ltac:(lia)) as Hw1.
  rewrite drop_0 in Hw1. change (Z.of_nat 0) with 0 in Hw1.
  generalize dependent (insert_words base 0 bits ss). intros ss1 Hw1.
  pose proof (IHl lo base _ Hbl Hl (proj1 Hw1)) as Hw2.
  pose proof (IHr _ hi _ Hbr Hr (proj1 Hw2)) as Hw3.
  pose proof (extends_trans _ _ _ _ _ (fun x => _ \/ _) Hw1 Hw2 (fun x => iff_refl _)) as Hw12.
  eapply extends_trans; [exact Hw12|exact Hw3|].
  intros x. rewrite elem_of_elems_Node. split.
  - intros [?|[[? Hbit]|?]]; [auto| |auto]. left; left. exists (x - base). split_and!; done || lia.
  - intros [[(k&Hk&Hbit&->)|?]|?]; [|auto|auto]. right; left.
    rewrite Z.add_simpl_l. split; [lia|done].
Qed.

Lemma Union_into_ok ss ssa :
  wf_set ss -> Forall wf_set ssa ->
  wf_set (Union_into ss ssa) /\ model (Union_into ss ssa) = model ss ∪ ⋃ (model <$> ssa).
Proof.
  unfold Union_into. revert ss. induction ssa as [|sa ssa IH]; intros ss Hss Hall.
  { simpl. split; [done|]. set_solver. }
  apply Forall_cons in Hall as [Hsa Hall]. cbn [fold_left].
  destruct (nodeIter_insert_ok 0 seq_limit (root sa) ss bounds_ok_all (wf_tree _ Hsa) Hss) as [H1 H2].
  destruct (IH _ H1 Hall) as [? ->]. split; [done|]. cbn [fmap list_fmap union_list foldr].
  apply set_eq. intros x. rewrite !elem_of_union, H2, <- elem_of_model. tauto.
Qed.

Lemma clone_id n : clone n = n.
Proof. induction n as [|base bits l IHl r IHr h]; [done|]. simpl. by rewrite IHl, IHr. Qed.

Lemma fold_Insert_ok l ss :
  wf_set ss -> Forall (fun x => 0 <= x < seq_limit) l ->
  wf_set (fold_left Insert l ss) /\
  model (fold_left Insert l ss) = model ss ∪ list_to_set l.
Proof.
  revert ss. induction l as [|x l IH]; intros ss Hss Hall.
  { simpl. split; [done|]. set_solver. }
  apply Forall_cons in Hall as [Hx Hall]. cbn [fold_left list_to_set].
  destruct (Insert_ok ss x Hss Hx) as (H1&H2&_). destruct (IH _ H1 Hall) as [? ->].
  split; [done|]. rewrite H2. set_solver.
Qed.

Lemma Range_Insert_ok sa ss :
  wf_set sa -> wf_set ss ->
  let ss' := Range sa (fun n ss => (Insert ss n, true)) ss in
  wf_set ss' /\ model ss' = model ss ∪ model sa.
Proof.
  intros Hsa Hss. cbv zeta. unfold Range. rewrite (iter_visit 0 seq_limit) by (done || apply Hsa). rewrite visit_all.
  apply (fold_Insert_ok (elems (root sa)) ss Hss). apply Forall_forall. intros x.
  apply wf_elems_range, Hsa.
Qed.

(** ** Properties *)

Inductive op : Type := OpInsert (seq : Z) | OpDelete (seq : Z) | OpExists (seq : Z).

Definition op_ok (o : op) : Prop :=
  match o with OpInsert seq => 0 <= seq < seq_limit | _ => True end.

(** An operation and its result; [Insert] has none. *)
Definition run_op (ss : SequenceSet) (o : op) : SequenceSet * option bool :=
  match o with
  | OpInsert seq => (Insert ss seq, None)
  | OpDelete seq => let '(ss, found) := Delete ss seq in (ss, Some found)
  | OpExists seq => (ss, Some (Exists_ ss seq))
  end.

(** The same on a finite set. *)
Definition spec_op (s : gset Z) (o : op) : gset Z * option bool :=
  match o with
  | OpInsert seq => ({[seq]} ∪ s, None)
  | OpDelete seq => (s ∖ {[seq]}, Some (bool_decide (seq ∈ s)))
  | OpExists seq => (s, Some (bool_decide (seq ∈ s)))
  end.

Fixpoint run_all {S} (run : S -> op -> S * option bool) (s : S) (ops : list op)
  : S * list (option bool) :=
  match ops with
  | [] => (s, [])
  | o :: ops =>
      let '(s, out) := run s o in
      let '(s, outs) := run_all run s ops in
      (s, out :: outs)
  end.

Lemma run_op_ok ss o :
  wf_set ss -> op_ok o ->
  wf_set (run_op ss o).1 /\ model (run_op ss o).1 = (spec_op (model ss) o).1 /\
  (run_op ss o).2 = (spec_op (model ss) o).2 /\
  (dense (root ss) -> dense (root (run_op ss o).1)).
Proof.
  intros Hwf Ho. destruct o as [seq|seq|seq]; cbn [run_op spec_op fst snd].
  - destruct (Insert_ok ss seq Hwf Ho) as (?&?&?). done.
  - pose proof (Delete_ok ss seq Hwf) as H. destruct (Delete ss seq) as [ss' found].
    destruct H as (?&?&->&?). done.
  - by rewrite (Exists_ok ss seq Hwf).
Qed.

Lemma run_all_ok ops ss :
  wf_set ss -> Forall op_ok ops ->
  wf_set (run_all run_op ss ops).1 /\
  model (run_all run_op ss ops).1 = (run_all spec_op (model ss) ops).1 /\
  (run_all run_op ss ops).2 = (run_all spec_op (model ss) ops).2 /\
  (dense (root ss) -> dense (root (run_all run_op ss ops).1)).
Proof.
  revert ss. induction ops as [|o ops IH]; intros ss Hwf Hall; [done|].
  apply Forall_cons in Hall as [Ho Hall]. cbn [run_all].
  destruct (run_op_ok ss o Hwf Ho) as (H1&H2&H3&H4).
  destruct (run_op ss o) as [ss' out], (spec_op (model ss) o) as [s' out'].
  cbn [fst snd] in *. subst out' s'. destruct (IH ss' H1 Hall) as (?&?&?&?).
  destruct (run_all run_op ss' ops), (run_all spec_op (model ss') ops). cbn [fst snd] in *.
  split_and!; [done|done|congruence|tauto].
Qed.

(** C4. [Insert], [Delete] and [Exists] on a [SequenceSet] implement a finite set: any
    sequence of operations on an empty set returns what the operations on the set return,
    ends in a tree satisfying the search-tree invariant, and [Size] and [Nodes] are the
    number of members and of tree nodes.  Inserted sequences are below [2^64 - 2048]. *)
Theorem seqset_refines_set (ops : list op) (Hops : Forall op_ok ops) :
  let '(ss, outs) := run_all run_op new_set ops in
  let '(s, souts) := run_all spec_op ∅ ops in
  wf_set ss /\ model ss = s /\ outs = souts /\
  Size ss = Z.of_nat (size s) /\ Nodes ss = count_nodes (root ss).
Proof.
  destruct (run_all_ok ops new_set new_set_wf Hops) as (H1&H2&H3&_).
  change (model new_set) with (∅ : gset Z) in *.
  destruct (run_all run_op new_set ops) as [ss outs], (run_all spec_op ∅ ops) as [s souts].
  cbn [fst snd] in *. subst. destruct H1 as [? ? ? ?]. done.
Qed.

Definition sample_ops : list op := [OpInsert 5; OpInsert 4096; OpDelete 5; OpExists 5; OpExists 4096].

Lemma seqset_refines_set_witness :
  (run_all run_op new_set sample_ops).2 = [None; None; Some true; Some false; Some true] /\
  let '(ss, outs) := run_all run_op new_set sample_ops in
  let '(s, souts) := run_all spec_op ∅ sample_ops in
  wf_set ss /\ model ss = s /\ outs = souts /\
  Size ss = Z.of_nat (size s) /\ Nodes ss = count_nodes (root ss).
Proof.
  split; [vm_compute; reflexivity|]. apply seqset_refines_set. repeat constructor; vm_compute; congruence.
Defined.

(** [Range] calls back every member exactly once in ascending order, and stops at the
    first member for which the callback returns false. *)
Theorem seqset_range_ascending {S : Type} (ss : SequenceSet) (f : Z -> S -> S * bool) (s : S)
    (Hwf : wf_set ss) :
  exists l, StronglySorted Z.lt l /\ (forall x, x ∈ l <-> x ∈ model ss) /\
    Range ss f s = (visit l f s).1.
Proof.
  exists (elems (root ss)). split_and!.
  - by eapply elems_sorted, wf_tree.
  - intros x. by rewrite elem_of_model.
  - unfold Range. by rewrite (iter_visit 0 seq_limit) by (done || apply Hwf).
Qed.

Lemma seqset_range_ascending_witness :
  let f x (l : list Z) := (l ++ [x], x <? 50) in
  Range (fold_left Insert [4096; 5; 77] new_set) f [] = [5; 77] /\
  exists l, StronglySorted Z.lt l /\ (forall x, x ∈ l <-> x ∈ model (fold_left Insert [4096; 5; 77] new_set)) /\
    Range (fold_left Insert [4096; 5; 77] new_set) f [] = (visit l f []).1.
Proof.
  split; [vm_compute; reflexivity|]. apply seqset_range_ascending.
  apply (fold_Insert_ok [4096; 5; 77] new_set new_set_wf). by repeat constructor.
Defined.

(** On a non-empty set built by [Insert], [Delete] and [Exists], [MinMax] is the least
    and the greatest member. *)
Theorem seqset_minmax (ops : list op) (Hops : Forall op_ok ops)
    (Hne : model (run_all run_op new_set ops).1 <> ∅) :
  let ss := (run_all run_op new_set ops).1 in
  let '(min, max) := MinMax ss in
  min ∈ model ss /\ max ∈ model ss /\ forall x, x ∈ model ss -> min <= x <= max.
Proof.
  destruct (run_all_ok ops new_set new_set_wf Hops) as ([Hw _ _ _]&_&_&Hd).
  specialize (Hd ltac:(constructor)). cbv zeta.
  destruct (run_all run_op new_set ops).1 as [r sz nn ch]. unfold MinMax. cbn [root] in *.
  assert (r <> Nil) as Hr by (intros ->; done).
  destruct (leftmost_min_spec _ _ r 0 bounds_ok_all Hw Hd Hr) as [H1 H2].
  destruct (rightmost_max_spec _ _ r 0 bounds_ok_all Hw Hd Hr) as [H3 H4].
  destruct r as [|base bits l r h]; [done|].
  split_and!; [by apply elem_of_model|by apply elem_of_model|].
  intros x Hx%elem_of_model. split; [by apply H2|by apply H4].
Qed.

Lemma seqset_minmax_witness :
  let ops := [OpInsert 5; OpInsert 4096; OpInsert 70; OpDelete 5] in
  let ss := (run_all run_op new_set ops).1 in
  MinMax ss = (70, 4096) /\
  let '(min, max) := MinMax ss in
  min ∈ model ss /\ max ∈ model ss /\ forall x, x ∈ model ss -> min <= x <= max.
Proof.
  intros ops ss. split; [vm_compute; reflexivity|].
  assert (Forall op_ok ops) as H by (repeat constructor; vm_compute; congruence).
  apply (seqset_minmax ops H). rewrite (proj1 (proj2 (run_all_ok _ _ new_set_wf H))). vm_compute. congruence.
Defined.

Lemma fold_Insert_balanced l ss :
  wf_set ss -> balanced (root ss) -> Forall (fun x => 0 <= x < seq_limit) l ->
  balanced (root (fold_left Insert l ss)).
Proof.
  revert ss. induction l as [|x l IH]; intros ss Hwf Hb Hall; [done|].
  apply Forall_cons in Hall as [Hx Hall]. cbn [fold_left].
  destruct (Insert_ok ss x Hwf Hx) as (Hwf'&_). apply IH; [done| |done].
  pose proof (insert_balanced 0 seq_limit (root ss) x (changed ss) (ss_nodes ss) bounds_ok_all Hx
                (wf_tree _ Hwf) Hb) as H.
  unfold Insert. destruct (insert _ _ _ _) as [[n [|]] nodes]; apply H.
Qed.

(** C32. A set built by insertions is AVL-balanced, so its height is at most twice the
    logarithm of the number of nodes plus one: [2^(h/2) <= nodes + 1]. *)
Theorem seqset_insert_height_log (l : list Z) (Hl : Forall (fun x => 0 <= x < seq_limit) l) :
  let ss := fold_left Insert l new_set in
  balanced (root ss) /\ 2 ^ (height (root ss) / 2) <= Nodes ss + 1.
Proof.
  cbv zeta. pose proof (fold_Insert_balanced l new_set new_set_wf I Hl) as Hb.
  destruct (fold_Insert_ok l new_set new_set_wf Hl) as [[Hw _ Hn _] _]. split; [done|].
  unfold Nodes. rewrite Hn. pose proof (height_nonneg _ _ _ Hw).
  assert (0 <= height (root (fold_left Insert l new_set)) / 2) by (apply Z.div_pos; lia).
  rewrite <- (Z2Nat.id (_ / 2)) by done. eapply balanced_size; [done|done|].
  rewrite Z2Nat.id by done. apply Z.mul_div_le. lia.
Qed.

Lemma seqset_insert_height_log_witness :
  let ss := fold_left Insert [0; 2048; 4096; 6144; 8192; 10240; 12288] new_set in
  height (root ss) = 3 /\ balanced (root ss) /\ 2 ^ (height (root ss) / 2) <= Nodes ss + 1.
Proof.
  split; [vm_compute; reflexivity|]. apply seqset_insert_height_log. by repeat constructor.
Defined.

(** Both unions compute the union: the method adds the members of every argument to the
    receiver, the package function returns the members of all sets, whatever order its
    unstable sort leaves sets of equal size in. *)
Theorem seqset_union (ss : SequenceSet) (ssa sorted : list SequenceSet)
    (Hss : wf_set ss) (Hssa : Forall wf_set ssa) (Hsorted : ss :: ssa ≡ₚ sorted) :
  wf_set (Union_into ss ssa) /\ model (Union_into ss ssa) = model ss ∪ ⋃ (model <$> ssa) /\
  exists u, Union_sorted sorted = Some u /\ wf_set u /\ model u = model ss ∪ ⋃ (model <$> ssa).
Proof.
  destruct (Union_into_ok ss ssa Hss Hssa) as [H1 H2]. split_and!; [done..|].
  assert (Forall wf_set sorted) as Hall by (rewrite <- Hsorted; by constructor).
  assert (⋃ (model <$> sorted) = model ss ∪ ⋃ (model <$> ssa)) as Hu.
  { change (model ss ∪ ⋃ (model <$> ssa)) with (⋃ (model <$> (ss :: ssa))).
    apply leibniz_equiv. by rewrite Hsorted. }
  destruct sorted as [|sa rest]; [by apply Permutation_nil_r in Hsorted|].
  apply Forall_cons in Hall as [Hsa Hall]. eexists. split; [done|].
  rewrite <- Hu. cbn [fmap list_fmap union_list foldr].
  assert (wf_set (Clone sa) /\ model (Clone sa) = model sa) as [Hc Hm].
  { destruct sa as [r sz nn ch]. unfold Clone. cbn [root ss_size ss_nodes]. rewrite clone_id.
    split; [|done]. destruct Hsa as [? ? ? ?]. by split. }
  rewrite <- Hm. clear Hsorted Hu Hm Hsa. generalize dependent (Clone sa).
  induction rest as [|sb rest IH]; intros acc Hacc; cbn [fold_left].
  { split; [done|]. simpl. set_solver. }
  apply Forall_cons in Hall as [Hsb Hall].
  destruct (Range_Insert_ok sb acc Hsb Hacc) as [Hr1 Hr2].
  destruct (IH Hall _ Hr1) as [? ->]. split; [done|]. rewrite Hr2. cbn [fmap list_fmap foldr]. set_solver.
Qed.

Lemma seqset_union_witness :
  model (Union_into (fold_left Insert [1; 9000] new_set) [fold_left Insert [2; 9000] new_set])
    = {[1]} ∪ {[9000]} ∪ {[2]} .
Proof.
  assert (wf_set (fold_left Insert [1; 9000] new_set)) as H1
    by (apply fold_Insert_ok; [apply new_set_wf|by repeat constructor]).
  assert (wf_set (fold_left Insert [2; 9000] new_set)) as H2
    by (apply fold_Insert_ok; [apply new_set_wf|by repeat constructor]).
  destruct (seqset_union _ [fold_left Insert [2; 9000] new_set] _ H1 (Forall_cons_2 _ _ _ H2 (Forall_nil_2 _))
              (reflexivity _)) as (_&->&_).
  vm_compute. reflexivity.
Defined.

(** ** Departures from the contract *)

(** Node ranges overlap when [SetInitialMin] gets a sequence that is not a multiple of 2048:
    here 2050 is stored in the node of base 100, and a rotation makes the node of base 2048,
    whose range contains 2050 too, the root. *)
Example SetInitialMin_loses_member :
  match SetInitialMin new_set 100 with
  | Some ss =>
      Exists_ (Insert ss 2050) 2050 = true /\
      Exists_ (fold_left Insert [2050; 2148; 4096] ss) 2050 = false /\
      Size (fold_left Insert [2050; 2148; 4096] ss) = 3
  | None => False
  end.
Proof. vm_compute. split_and!; reflexivity. Qed.

(** The node made by [SetInitialMin] is empty, and [MinMax] reads the minimum of an empty
    left-most node as 0. *)
Example SetInitialMin_wrong_min :
  match SetInitialMin new_set 2048 with
  | Some ss => MinMax (Insert ss 5000) = (0, 5000)
  | None => False
  end.
Proof. vm_compute. reflexivity. Qed.

(** [n.base+numEntries] overflows for the last 2048 sequence numbers. *)
Example Insert_top_range_not_found :
  Exists_ (Insert new_set max_uint64) max_uint64 = false /\
  Size (Insert new_set max_uint64) = 1.
Proof. vm_compute. split; reflexivity. Qed.

(** [Range] passes over these too, also when their node is there. *)
Example Range_skips_top :
  Range (Insert new_set max_uint64) (fun x l => (l ++ [x], true)) [] = [] /\ elems (root (Insert new_set max_uint64)) = [max_uint64].
Proof. vm_compute. split; reflexivity. Qed.

(** [insertNodePrev] attaches a whole subtree below the left-most node and re-balances with
    single rotations, which does not restore the AVL condition. *)
Fixpoint balancedb (n : node) : bool :=
  match n with
  | Nil => true
  | Node _ _ l r _ => (Z.abs (height l - height r) <=? 1) && balancedb l && balancedb r
  end.

Lemma balancedb_spec n : balanced n <-> balancedb n = true.
Proof.
  induction n as [|base bits l IHl r IHr h]; [done|]. simpl.
  rewrite !andb_true_iff, Z.leb_le, IHl, IHr. intuition lia.
Qed.

Example Delete_unbalances :
  let ss := fold_left Insert ((fun i => i * 2048) <$> [13; 8; 14; 15; 7; 5; 3; 2; 4; 12; 10]) new_set in
  balanced (root ss) /\ ~ balanced (root (Delete ss (8 * 2048)).1).
Proof.
  cbv zeta. split; rewrite balancedb_spec; vm_compute; [reflexivity|discriminate].
Qed.
