(* ===== verification/SeqSetCodec.v ===== *)
(** * Sequence sets: binary snapshots (Encode/Decode of src/server/avl/seqset.go)

    The version-2 encoding writes the nodes in tree order, and decoding re-inserts them
    without re-balancing; the round trip gives back the same tree.  Version 1 snapshots
    (64 words per node) are decoded by inserting every member. *)

From S2P Require Import Prelude Binary SeqSet SeqSetProofs SeqSetSpec.
Import Avl.

Definition magic : Z := 22.
Definition version : Z := 2.
Definition hdrLen : Z := 2.
Definition minLen : Z := 2 + 8.

Definition EncodeLen (ss : SequenceSet) : Z := minLen + Nodes ss * ((numBuckets + 1) * 8 + 2).

(** The bytes written for one node by the callback of [Encode]. *)
Definition encode_node (n : node) : list Z :=
  match n with
  | Nil => []
  | Node base bits _ _ h => le_put 8 base ++ (bits ≫= le_put 8) ++ le_put 2 (u16 h)
  end.

Definition Encode (ss : SequenceSet) : list Z :=
  [magic; version] ++ le_put 4 (u32 (Nodes ss)) ++ le_put 4 (u32 (ss_size ss)) ++
  nodeIter (root ss) (fun n buf => buf ++ encode_node n) [].

Inductive decode_error : Type := ErrBadEncoding | ErrBadVersion.

Fixpoint insert_node (p : node) (base : Z) (bits : list Z) (h : Z) : node :=
  match p with
  | Nil => Node base bits Nil Nil h
  | Node pbase pbits l r ph =>
      if base <? pbase then Node pbase pbits (insert_node l base bits h) r ph
      else Node pbase pbits l (insert_node r base bits h) ph
  end.

(** [insertNode]. *)
Definition insertNode (ss : SequenceSet) (base : Z) (bits : list Z) (h : Z) : SequenceSet :=
  mkSequenceSet (insert_node (root ss) base bits h) (ss_size ss) (ss_nodes ss + 1) (changed ss).

(** [count] little-endian words from the front of [b]. *)
Fixpoint get_words (count : nat) (b : list Z) : list Z * list Z :=
  match count with
  | O => ([], b)
  | S count =>
      let w := le_get 8 b in
      let '(ws, b) := get_words count (drop 8 b) in
      (w :: ws, b)
  end.

(** The loop of [decodev2]; [b] is [buf[index:]]. *)
Fixpoint decode_nodes (nn : nat) (b : list Z) (ss : SequenceSet) : SequenceSet :=
  match nn with
  | O => ss
  | S nn =>
      let base := le_get 8 b in
      let '(bits, b) := get_words (Z.to_nat numBuckets) (drop 8 b) in
      let h := le_get 2 b in
      decode_nodes nn (drop 2 b) (insertNode ss base bits h)
  end.

Definition decodev2 (buf : list Z) : decode_error + SequenceSet * Z :=
  let nn := le_get 4 (drop 2 buf) in
  let sz := le_get 4 (drop 6 buf) in
  let expectedLen := minLen + nn * ((numBuckets + 1) * 8 + 2) in
  if Z.of_nat (length buf) <? expectedLen then inl ErrBadEncoding
  else inr (decode_nodes (Z.to_nat nn) (drop 10 buf) (mkSequenceSet Nil sz 0 false), expectedLen).

Definition v1NumBuckets : Z := 64.

(** The loop of [decodev1]. *)
Fixpoint decode_nodes_v1 (nn : nat) (b : list Z) (ss : SequenceSet) : SequenceSet :=
  match nn with
  | O => ss
  | S nn =>
      let base := le_get 8 b in
      let '(words, b) := get_words (Z.to_nat v1NumBuckets) (drop 8 b) in
      decode_nodes_v1 nn (drop 2 b) (insert_words base 0 words ss)
  end.

Definition decodev1 (buf : list Z) : decode_error + SequenceSet * Z :=
  let nn := le_get 4 (drop 2 buf) in
  let sz := le_get 4 (drop 6 buf) in
  let expectedLen := minLen + nn * ((v1NumBuckets + 1) * 8 + 2) in
  if Z.of_nat (length buf) <? expectedLen then inl ErrBadEncoding else
  let ss := decode_nodes_v1 (Z.to_nat nn) (drop 10 buf) new_set in
  if negb (Size ss =? sz) then inl ErrBadEncoding else inr (ss, expectedLen).

Definition Decode (buf : list Z) : decode_error + SequenceSet * Z :=
  if (Z.of_nat (length buf) <? minLen) || negb (default 0 (buf !! 0%nat) =? magic)
  then inl ErrBadEncoding else
  let v := default 0 (buf !! 1%nat) in
  if v =? 1 then decodev1 buf
  else if v =? 2 then decodev2 buf
  else inl ErrBadVersion.

(** ** Lemmas *)

Definition node_triple : Type := Z * list Z * Z.

(** The nodes in the order of [nodeIter]. *)
Fixpoint preorder (n : node) : list node_triple :=
  match n with
  | Nil => []
  | Node base bits l r h => (base, bits, h) :: preorder l ++ preorder r
  end.

Definition encode_triple (t : node_triple) : list Z :=
  let '(base, bits, h) := t in le_put 8 base ++ (bits ≫= le_put 8) ++ le_put 2 (u16 h).

Lemma nodeIter_encode n buf :
  nodeIter n (fun n buf => buf ++ encode_node n) buf = buf ++ (preorder n ≫= encode_triple).
Proof.
  revert buf. induction n as [|base bits l IHl r IHr h]; intros buf; cbn [nodeIter preorder].
  - by rewrite app_nil_r.
  - rewrite IHl, IHr, bind_cons, bind_app, <- !app_assoc. done.
Qed.

Definition triple_ok (t : node_triple) : Prop :=
  let '(base, bits, h) := t in is_u64 base /\ wf_bits bits /\ 0 <= h < 2 ^ 16.

Lemma get_words_put ws b :
  Forall is_u64 ws -> get_words (length ws) ((ws ≫= le_put 8) ++ b) = (ws, b).
Proof.
  induction 1 as [|w ws Hw _ IH]; [done|]. rewrite bind_cons, <- app_assoc. cbn [length get_words].
  rewrite le_get_put by (exact Hw).
  rewrite drop_app_length' by (by rewrite length_le_put). by rewrite IH.
Qed.

Lemma decode_nodes_encode ts b ss :
  Forall triple_ok ts ->
  decode_nodes (length ts) ((ts ≫= encode_triple) ++ b) ss =
    fold_left (fun ss '(base, bits, h) => insertNode ss base bits h) ts ss.
Proof.
  intros Hts. revert ss. induction Hts as [|[[base bits] h] ts (Hb&[Hl Hw]&Hh) _ IH]; intros ss; [done|].
  rewrite bind_cons. unfold encode_triple at 1. rewrite <- !app_assoc. cbn [length decode_nodes fold_left].
  rewrite le_get_put by exact Hb. rewrite drop_app_length' by (by rewrite length_le_put).
  rewrite <- Hl, get_words_put by done.
  assert (u16 h = h) as -> by (apply Z.mod_small; lia).
  rewrite le_get_put by lia. rewrite drop_app_length' by (by rewrite length_le_put).
  apply IH.
Qed.

Lemma length_words ws : length (ws ≫= le_put 8) = (8 * length ws)%nat.
Proof.
  induction ws as [|w ws IH]; [done|]. rewrite bind_cons, length_app, length_le_put, IH. simpl. lia.
Qed.

Lemma length_encode_triples ts :
  Forall triple_ok ts ->
  Z.of_nat (length (ts ≫= encode_triple)) = Z.of_nat (length ts) * ((numBuckets + 1) * 8 + 2).
Proof.
  induction 1 as [|[[base bits] h] ts (_&[Hl _]&_) _ IH]; [done|].
  rewrite bind_cons, length_app, Nat2Z.inj_add, IH. unfold encode_triple.
  rewrite !length_app, !length_le_put, length_words, Hl. unfold numBuckets. cbn [length]. lia.
Qed.

(** Re-inserting the nodes of a subtree below a node they are all smaller (greater) than. *)
Definition reinsert (n : node) (ts : list node_triple) : node :=
  fold_left (fun n '(base, bits, h) => insert_node n base bits h) ts n.

Lemma reinsert_app n ts ts' : reinsert n (ts ++ ts') = reinsert (reinsert n ts) ts'.
Proof. apply fold_left_app. Qed.

Lemma reinsert_left ts base bits l r h :
  Forall (fun t : node_triple => t.1.1 < base) ts ->
  reinsert (Node base bits l r h) ts = Node base bits (reinsert l ts) r h.
Proof.
  intros Hts. revert l. induction Hts as [|[[b bs] hh] ts Hb _ IH]; intros l; [done|].
  unfold reinsert in *. cbn [fold_left insert_node fst] in *.
  rewrite (proj2 (Z.ltb_lt b base)) by done. apply IH.
Qed.

Lemma reinsert_right ts base bits l r h :
  Forall (fun t : node_triple => base <= t.1.1) ts ->
  reinsert (Node base bits l r h) ts = Node base bits l (reinsert r ts) h.
Proof.
  intros Hts. revert r. induction Hts as [|[[b bs] hh] ts Hb _ IH]; intros r; [done|].
  unfold reinsert in *. cbn [fold_left insert_node fst] in *.
  rewrite (proj2 (Z.ltb_ge b base)) by done. apply IH.
Qed.

Lemma preorder_range lo hi n :
  wf_node lo hi n -> Forall (fun t : node_triple => lo <= t.1.1 < hi) (preorder n).
Proof.
  revert lo hi. induction n as [|base bits l IHl r IHr h]; intros lo hi; [constructor|].
  intros [(?&?&?&?&Hl&Hr) _]%wf_node_kids. rewrite numEntries_eq in *. cbn [preorder].
  apply Forall_cons. split; [simpl; lia|]. apply Forall_app. split.
  - eapply Forall_impl; [by apply IHl|]. simpl. intros; lia.
  - eapply Forall_impl; [by apply IHr|]. simpl. intros; lia.
Qed.

(** Re-inserting the nodes in tree order rebuilds the tree. *)
Lemma reinsert_preorder lo hi n : wf_node lo hi n -> reinsert Nil (preorder n) = n.
Proof.
  revert lo hi. induction n as [|base bits l IHl r IHr h]; intros lo hi; [done|].
  intros [(?&?&?&?&Hl&Hr) _]%wf_node_kids.
  pose proof (preorder_range _ _ _ Hl) as Hrl. pose proof (preorder_range _ _ _ Hr) as Hrr.
  change (reinsert Nil (preorder (Node base bits l r h)))
    with (reinsert (Node base bits Nil Nil h) (preorder l ++ preorder r)).
  rewrite reinsert_app, reinsert_left by (eapply Forall_impl; [exact Hrl|]; simpl; intros; lia).
  rewrite reinsert_right
    by (eapply Forall_impl; [exact Hrr|]; rewrite numEntries_eq; simpl; intros; lia).
  by rewrite (IHl _ _ Hl), (IHr _ _ Hr).
Qed.

Lemma fold_insertNode ts ss :
  fold_left (fun ss '(base, bits, h) => insertNode ss base bits h) ts ss =
    mkSequenceSet (reinsert (root ss) ts) (ss_size ss) (ss_nodes ss + Z.of_nat (length ts)) (changed ss).
Proof.
  revert ss. induction ts as [|[[b bs] h] ts IH]; intros ss.
  - destruct ss. unfold reinsert. simpl. f_equal. lia.
  - cbn [fold_left]. rewrite IH. unfold insertNode, reinsert. cbn [fold_left root ss_size ss_nodes changed length].
    f_equal. lia.
Qed.

Lemma length_preorder n : length (preorder n) = length (items n).
Proof.
  induction n as [|base bits l IHl r IHr h]; [done|]. simpl.
  rewrite !length_app, IHl, IHr. simpl. lia.
Qed.

Lemma preorder_ok lo hi n :
  bounds_ok lo hi -> wf_node lo hi n -> height n < 2 ^ 16 -> Forall triple_ok (preorder n).
Proof.
  revert lo hi. induction n as [|base bits l IHl r IHr h]; intros lo hi Hb Hwf Hh; [constructor|].
  pose proof (bounds_ok_left _ _ _ _ _ _ _ Hb Hwf) as Hbl.
  pose proof (bounds_ok_right _ _ _ _ _ _ _ Hb Hwf) as Hbr.
  pose proof Hwf as [(?&?&?&?&Hl&Hr) ?]%wf_node_kids.
  pose proof (height_nonneg _ _ _ Hl). pose proof (height_nonneg _ _ _ Hr).
  destruct Hb as (?&?&_). unfold seq_limit in *. rewrite numEntries_eq in *. cbn [height] in Hh.
  constructor; [split; [unfold is_u64; lia|]; split; [done|lia]|].
  apply Forall_app. split; [apply (IHl lo base)|apply (IHr (base + 2048) hi)]; (done || lia).
Qed.

(** The round trip. *)
Lemma encode_decode ss extra : wf_set ss -> Size ss < 2 ^ 32 -> Nodes ss < 2 ^ 32 -> height (root ss) < 2 ^ 16 ->
  Decode (Encode ss ++ extra) = inr (ss, EncodeLen ss) /\ Z.of_nat (length (Encode ss)) = EncodeLen ss.
Proof.
  intros [Hw Hs Hn Hc] Hsize Hnodes Hheight.
  pose proof (preorder_ok _ _ _ bounds_ok_all Hw Hheight) as Hok.
  assert (Nodes ss = Z.of_nat (length (preorder (root ss)))) as Hlen
    by (unfold Nodes; rewrite Hn, length_preorder; done).
  unfold Encode. rewrite nodeIter_encode, app_nil_l.
  assert (Z.of_nat (length ([magic; version] ++ le_put 4 (u32 (Nodes ss)) ++ le_put 4 (u32 (ss_size ss)) ++
    (preorder (root ss) ≫= encode_triple))) = EncodeLen ss) as HL.
  { rewrite !length_app, !length_le_put, !Nat2Z.inj_add, length_encode_triples by done.
    unfold EncodeLen, minLen. cbn [length]. lia. }
  split; [|done]. unfold Size in *.
  assert (u32 (Nodes ss) = Nodes ss) as Hu1 by (apply Z.mod_small; lia).
  assert (u32 (ss_size ss) = ss_size ss) as Hu2 by (apply Z.mod_small; lia).
  rewrite Hu1, Hu2 in *.
  set (body := preorder (root ss) ≫= encode_triple) in *.
  assert (0 <= Nodes ss) by lia. unfold Decode.
  assert (Z.of_nat (length (([magic; version] ++ le_put 4 (Nodes ss) ++ le_put 4 (ss_size ss) ++ body) ++ extra))
    <? minLen = false) as ->.
  { apply Z.ltb_ge. rewrite length_app, Nat2Z.inj_add, HL. unfold EncodeLen, minLen, numBuckets. lia. }
  cbn [orb]. change (default 0 (_ !! 0%nat)) with magic. change (default 0 (_ !! 1%nat)) with version.
  cbn [magic Z.eqb negb version Pos.eqb]. unfold decodev2.
  assert (forall k, drop (2 + k) (([magic; version] ++ le_put 4 (Nodes ss) ++ le_put 4 (ss_size ss) ++ body) ++ extra)
    = drop k (le_put 4 (Nodes ss) ++ le_put 4 (ss_size ss) ++ body ++ extra)) as Hdrop
    by (intros k; rewrite <- !app_assoc; done).
  pose proof (Hdrop 0%nat) as Hd0. pose proof (Hdrop 4%nat) as Hd4. pose proof (Hdrop 8%nat) as Hd8.
  assert (drop 8 (le_put 4 (Nodes ss) ++ le_put 4 (ss_size ss) ++ body ++ extra) = body ++ extra) as Hb8
    by (rewrite app_assoc; apply drop_app_length'; by rewrite length_app, !length_le_put).
  cbn [Nat.add] in Hd0, Hd4, Hd8. rewrite Hd0, Hd4, Hd8, Hb8, drop_0. clear Hd0 Hd4 Hd8 Hb8 Hdrop.
  rewrite le_get_put by (rewrite Hs in *; lia).
  rewrite (drop_app_length' (le_put 4 (Nodes ss)) _ 4) by (by rewrite length_le_put).
  rewrite le_get_put by (rewrite Hs in *; lia).
  rewrite length_app, Nat2Z.inj_add, HL. fold (EncodeLen ss).
  rewrite (proj2 (Z.ltb_ge _ _)) by lia.
  rewrite Hlen, Nat2Z.id. unfold body. rewrite decode_nodes_encode, fold_insertNode by done.
  cbn [root ss_size ss_nodes changed]. rewrite (reinsert_preorder _ _ _ Hw).
  do 2 f_equal. destruct ss as [r sz nn ch]. unfold Nodes in *. cbn [root ss_size ss_nodes changed] in *.
  f_equal; [rewrite Z.add_0_l; by symmetry|done].
Qed.

(** ** Properties *)

(** C31. Snapshots round-trip: decoding the encoding of a set, followed by any bytes, gives
    back the very same tree, size and node count, and the number of bytes of the encoding,
    which is [EncodeLen].  Sizes and node counts are stored in 32 bits and heights in 16. *)
Theorem seqset_encode_decode (ss : SequenceSet) (extra : list Z)
    (Hwf : wf_set ss) (Hsize : Size ss < 2 ^ 32) (Hnodes : Nodes ss < 2 ^ 32)
    (Hheight : height (root ss) < 2 ^ 16) :
  Decode (Encode ss ++ extra) = inr (ss, EncodeLen ss) /\
  Z.of_nat (length (Encode ss)) = EncodeLen ss.
Proof. by apply encode_decode. Qed.

Lemma seqset_encode_decode_witness :
  Decode (Encode (fold_left Insert [1; 5000; 9000] new_set) ++ [7]) =
    inr (fold_left Insert [1; 5000; 9000] new_set, 808).
Proof.
  assert (wf_set (fold_left Insert [1; 5000; 9000] new_set)) as H
    by (apply fold_Insert_ok; [apply new_set_wf|by repeat constructor]).
  destruct (seqset_encode_decode _ [7] H ltac:(vm_compute; reflexivity)
    ltac:(vm_compute; reflexivity) ltac:(vm_compute; reflexivity)) as [-> _].
  vm_compute. reflexivity.
Defined.
