(* ===== verification/HashWheel.v ===== *)
(** * Timer hash wheel (src/server/thw/thw.go)

    A wheel of 4096 one-second slots, each a map from sequence to expiration time, with a
    lower bound on the expirations of every slot and of the wheel.  Used for message TTLs,
    delayed schedules and delete markers.

    Go iterates over a map in an unspecified order: [map_range m] is the order of one such
    iteration, any permutation of the entries.  The expiration callback threads a state; it
    may remove the task it is called for from the wheel, as the scheduler's callback does. *)

From S2P Require Import Prelude Binary.

Module Thw.

Definition tickDuration : Z := 1000000000.
Definition wheelBits : Z := 12.
Definition wheelSize : Z := Z.shiftl 1 wheelBits.
Definition wheelMask : Z := wheelSize - 1.
Definition headerLen : Z := 17.

Record slot : Type := mkSlot {
  entries : gmap Z Z;
  slot_lowest : Z;
}.

Record HashWheel : Type := mkHashWheel {
  wheel : list (option slot);
  lowest : Z;
  count : Z;
}.

Definition NewHashWheel : HashWheel :=
  mkHashWheel (replicate (Z.to_nat wheelSize) None) max_int64 0.

Definition getPosition (expires : Z) : Z := Z.land (Z.quot expires tickDuration) wheelMask.

Definition newSlot : slot := mkSlot ∅ max_int64.

(** [hw.wheel[pos]]; the mask keeps the position in range. *)
Definition slot_at (hw : HashWheel) (pos : Z) : option slot :=
  default None (wheel hw !! Z.to_nat pos).

Definition Add (hw : HashWheel) (seq expires : Z) : HashWheel :=
  let pos := getPosition expires in
  let s := default newSlot (slot_at hw pos) in
  let count := match entries s !! seq with
               | None => u64 (count hw + 1)
               | Some _ => count hw
               end in
  let m := <[seq := expires]> (entries s) in
  let '(slow, low) :=
    if expires <? slot_lowest s
    then (expires, if expires <? lowest hw then expires else lowest hw)
    else (slot_lowest s, lowest hw) in
  mkHashWheel (<[Z.to_nat pos := Some (mkSlot m slow)]> (wheel hw)) low count.

(** [None] is [ErrTaskNotFound]. *)
Definition Remove (hw : HashWheel) (seq expires : Z) : option HashWheel :=
  let pos := getPosition expires in
  match slot_at hw pos with
  | None => None
  | Some s =>
      match entries s !! seq with
      | None => None
      | Some _ =>
          let m := delete seq (entries s) in
          let s' := if Nat.eqb (size m) 0 then None else Some (mkSlot m (slot_lowest s)) in
          Some (mkHashWheel (<[Z.to_nat pos := s']> (wheel hw)) (lowest hw) (u64 (count hw - 1)))
      end
  end.

Definition Update (hw : HashWheel) (seq oldExpires newExpires : Z) : option HashWheel :=
  match Remove hw seq oldExpires with
  | None => None
  | Some hw => Some (Add hw seq newExpires)
  end.

Definition GetNextExpiration (hw : HashWheel) (before : Z) : Z :=
  if lowest hw <? before then lowest hw else max_int64.

Definition Count (hw : HashWheel) : Z := count hw.

Section iteration.
Variable map_range : gmap Z Z -> list (Z * Z).

Section expire.
Context {C : Type}.
(** The callback on [seq] and [expires]: the new state, whether it removed this task from
    the wheel, and its result. *)
Variable callback : C -> Z -> Z -> C * bool * bool.
Variable ts : Z.

(** The loop over [s.entries]. *)
Fixpoint expire_entries (l : list (Z * Z)) (m : gmap Z Z) (count slotLowest : Z) (c : C)
  : gmap Z Z * Z * Z * C :=
  match l with
  | [] => (m, count, slotLowest, c)
  | (seq, expires) :: l =>
      let keep m count c :=
        expire_entries l m count (if expires <? slotLowest then expires else slotLowest) c in
      if expires <=? ts then
        let '(c, removed, ok) := callback c seq expires in
        let '(m, count) := if removed then (delete seq m, u64 (count - 1)) else (m, count) in
        if ok then
          match m !! seq with
          | Some _ => expire_entries l (delete seq m) (u64 (count - 1)) slotLowest c
          | None => expire_entries l m count slotLowest c
          end
        else keep m count c
      else keep m count c
  end.

(** The loop over [hw.wheel]. *)
Fixpoint expire_slots (slots : list (option slot)) (count globalLowest : Z) (c : C)
  : list (option slot) * Z * Z * C :=
  match slots with
  | [] => ([], count, globalLowest, c)
  | None :: slots =>
      let '(slots, count, globalLowest, c) := expire_slots slots count globalLowest c in
      (None :: slots, count, globalLowest, c)
  | Some s :: slots =>
      if ts <? slot_lowest s then
        let globalLowest := if slot_lowest s <? globalLowest then slot_lowest s else globalLowest in
        let '(slots, count, globalLowest, c) := expire_slots slots count globalLowest c in
        (Some s :: slots, count, globalLowest, c)
      else
        let '(m, count, slotLowest, c) :=
          expire_entries (map_range (entries s)) (entries s) count max_int64 c in
        if Nat.eqb (size m) 0 then
          let '(slots, count, globalLowest, c) := expire_slots slots count globalLowest c in
          (None :: slots, count, globalLowest, c)
        else
          let globalLowest := if slotLowest <? globalLowest then slotLowest else globalLowest in
          let '(slots, count, globalLowest, c) := expire_slots slots count globalLowest c in
          (Some (mkSlot m slotLowest) :: slots, count, globalLowest, c)
  end.

Definition expireTasks (hw : HashWheel) (c : C) : HashWheel * C :=
  if ts <? lowest hw then (hw, c) else
  let '(slots, count, globalLowest, c) := expire_slots (wheel hw) (count hw) max_int64 c in
  (mkHashWheel slots globalLowest count, c).
End expire.

Definition encode_slot (s : option slot) : list Z :=
  match s with
  | None => []
  | Some s => map_range (entries s) ≫= fun '(v, ts) => put_varint ts ++ put_uvarint v
  end.

Definition Encode (hw : HashWheel) (highSeq : Z) : list Z :=
  [1] ++ le_put 8 (count hw) ++ le_put 8 highSeq ++ (wheel hw ≫= encode_slot).
End iteration.

Inductive decode_error : Type := ErrShortBuffer | ErrInvalidVersion | ErrUnexpectedEOF.

(** The loop of [Decode], [n] entries left to read from [b]; [Varint] and [Uvarint] give a
    count of 0 on a buffer that is too short, which the code does not reject. *)
Fixpoint decode_entries (n : nat) (b : list Z) (hw : HashWheel) (stamp : Z)
  : HashWheel * (decode_error + Z) :=
  match n with
  | O => (hw, inr stamp)
  | S n =>
      let '(ts, tn) := varint b in
      if tn <? 0 then (hw, inl ErrUnexpectedEOF) else
      let '(v, vn) := uvarint (drop (Z.to_nat tn) b) in
      if vn <? 0 then (hw, inl ErrUnexpectedEOF) else
      decode_entries n (drop (Z.to_nat (tn + vn)) b) (Add hw v ts) stamp
  end.

Definition Decode (hw : HashWheel) (b : list Z) : HashWheel * (decode_error + Z) :=
  if Z.of_nat (length b) <? headerLen then (hw, inl ErrShortBuffer) else
  if negb (default 0 (b !! 0%nat) =? 1) then (hw, inl ErrInvalidVersion) else
  let hw := mkHashWheel (replicate (Z.to_nat wheelSize) None) max_int64 (count hw) in
  let n := le_get 8 (drop 1 b) in
  let stamp := le_get 8 (drop 9 b) in
  decode_entries (Z.to_nat n) (drop 17 b) hw stamp.

End Thw.
