(* ===== verification/HashWheelProofs.v ===== *)
(** * Timer hash wheel: correctness of src/server/thw/thw.go

    The wheel invariant (every task is in the slot of its expiration, recorded lower bounds
    hold, the count is the number of tasks), the functional behaviour of the operations,
    expiration of exactly the due tasks in any map order, and the snapshot round trip. *)

From S2P Require Import Prelude Binary HashWheel.
Import Thw.

Definition slot_tasks (so : option slot) : list (Z * Z) :=
  match so with None => [] | Some s => map_to_list (entries s) end.

(** The scheduled (sequence, expiration) pairs. *)
Definition tasks (hw : HashWheel) : list (Z * Z) := wheel hw ≫= slot_tasks.

(** The expiration of a sequence in the slot of position [pos]. *)
Definition lookup_task (hw : HashWheel) (pos seq : Z) : option Z :=
  slot_at hw pos ≫= fun s => entries s !! seq.

Definition entry_ok (pos seq expires : Z) : Prop :=
  is_u64 seq /\ is_i64 expires /\ getPosition expires = pos.

(** A slot of position [pos] in a wheel whose lower bound is [low]. *)
Definition slot_ok (low : Z) (pos : nat) (so : option slot) : Prop :=
  match so with
  | None => True
  | Some s =>
      entries s <> ∅ /\ low <= slot_lowest s /\
      forall seq expires, entries s !! seq = Some expires ->
        entry_ok (Z.of_nat pos) seq expires /\ slot_lowest s <= expires
  end.

Record hw_inv (hw : HashWheel) : Prop := {
  inv_len : length (wheel hw) = Z.to_nat wheelSize;
  inv_slots : forall pos so, wheel hw !! pos = Some so -> slot_ok (lowest hw) pos so;
  inv_low : lowest hw <= max_int64;
  inv_count : count hw = u64 (Z.of_nat (length (tasks hw)));
}.

(** ** Positions and slots *)

Lemma getPosition_range expires : 0 <= getPosition expires < wheelSize.
Proof.
  unfold getPosition. replace wheelMask with (Z.ones 12) by done.
  rewrite Z.land_ones by lia. by apply Z.mod_pos_bound.
Qed.

Lemma slot_at_lookup hw pos :
  hw_inv hw -> 0 <= pos < wheelSize -> wheel hw !! Z.to_nat pos = Some (slot_at hw pos).
Proof.
  intros [Hl _ _ _] Hp. unfold slot_at.
  destruct (lookup_lt_is_Some_2 (wheel hw) (Z.to_nat pos)) as [so Hso]; [lia|]. by rewrite Hso.
Qed.

Lemma bind_update {A B} (f : A -> list B) (l : list A) (i : nat) x :
  l !! i = Some x ->
  exists rest, l ≫= f ≡ₚ f x ++ rest /\ forall y, <[i := y]> l ≫= f ≡ₚ f y ++ rest.
Proof.
  intros Hx. exists ((take i l ≫= f) ++ (drop (S i) l ≫= f)). split.
  - rewrite <- (take_drop_middle l i x Hx) at 1. rewrite bind_app, bind_cons. solve_Permutation.
  - intros y. rewrite insert_take_drop by (by eapply lookup_lt_Some).
    rewrite bind_app, bind_cons. solve_Permutation.
Qed.

(** The slot an operation works on, and the tasks of the other slots. *)
Lemma slot_split hw pos :
  hw_inv hw -> 0 <= pos < wheelSize ->
  exists rest, tasks hw ≡ₚ slot_tasks (slot_at hw pos) ++ rest /\
    forall so low c, tasks (mkHashWheel (<[Z.to_nat pos := so]> (wheel hw)) low c) ≡ₚ slot_tasks so ++ rest.
Proof.
  intros Hinv Hp. pose proof (slot_at_lookup hw pos Hinv Hp) as Hs.
  destruct (bind_update slot_tasks _ _ _ Hs) as (rest&H1&H2). exists rest. split; [done|].
  intros so low c. apply H2.
Qed.

Lemma slot_ok_weaken low low' pos so : low' <= low -> slot_ok low pos so -> slot_ok low' pos so.
Proof. intros Hl. destruct so as [s|]; [|done]. intros (?&?&?). split_and!; done || lia. Qed.

(** Replacing one slot. *)
Lemma inv_set_slot hw pos so low c :
  hw_inv hw -> 0 <= pos < wheelSize -> low <= lowest hw -> slot_ok low (Z.to_nat pos) so ->
  c = u64 (Z.of_nat (length (tasks (mkHashWheel (<[Z.to_nat pos := so]> (wheel hw)) low c)))) ->
  hw_inv (mkHashWheel (<[Z.to_nat pos := so]> (wheel hw)) low c).
Proof.
  intros [Hl Hs Hlow _] Hp Hlow' Hso Hc. split; cbn [wheel lowest count].
  - by rewrite length_insert.
  - intros p so' Hp'. destruct (decide (p = Z.to_nat pos)) as [->|Hne].
    + rewrite list_lookup_insert_eq in Hp' by lia. by simplify_eq.
    + rewrite list_lookup_insert_ne in Hp' by done. eapply slot_ok_weaken; [done|by apply Hs].
  - lia.
  - done.
Qed.

Lemma slot_at_set hw pos pos' so low c :
  hw_inv hw -> 0 <= pos < wheelSize -> 0 <= pos' ->
  slot_at (mkHashWheel (<[Z.to_nat pos := so]> (wheel hw)) low c) pos' =
    if decide (pos = pos') then so else slot_at hw pos'.
Proof.
  intros [Hl _ _ _] Hp Hp'. unfold slot_at. cbn [wheel]. case_decide as Hd.
  - subst. by rewrite list_lookup_insert_eq by lia.
  - rewrite list_lookup_insert_ne; [done|]. intros ?%Z2Nat.inj; lia.
Qed.

Lemma slot_at_ok hw pos s :
  hw_inv hw -> 0 <= pos < wheelSize -> slot_at hw pos = Some s ->
  slot_ok (lowest hw) (Z.to_nat pos) (Some s).
Proof.
  intros Hinv Hp Hs. eapply inv_slots; [done|]. by rewrite slot_at_lookup, Hs by done.
Qed.

Lemma u64_add_u64 a b : u64 (u64 a + b) = u64 (a + b).
Proof. unfold u64. by rewrite Zplus_mod_idemp_l. Qed.

Lemma u64_sub_u64 a b : u64 (u64 a - b) = u64 (a - b).
Proof. unfold u64. by rewrite Zminus_mod_idemp_l. Qed.

(** ** New wheels, Add, Remove *)

Lemma tasks_replicate n : (replicate n None : list (option slot)) ≫= slot_tasks = [].
Proof. by induction n. Qed.

Lemma hw_new_inv : hw_inv NewHashWheel.
Proof.
  split.
  - apply length_replicate.
  - intros pos so [-> _]%lookup_replicate. done.
  - done.
  - unfold tasks, NewHashWheel. cbn [wheel]. by rewrite tasks_replicate.
Qed.

Definition old_entry (hw : HashWheel) (seq expires : Z) : list (Z * Z) :=
  match lookup_task hw (getPosition expires) seq with Some e => [(seq, e)] | None => [] end.

Definition slot_or_new (hw : HashWheel) (pos : Z) : slot := default newSlot (slot_at hw pos).

Lemma slot_tasks_or_new hw pos : slot_tasks (slot_at hw pos) = map_to_list (entries (slot_or_new hw pos)).
Proof. unfold slot_or_new. by destruct (slot_at hw pos). Qed.

Lemma lookup_task_or_new hw pos seq : lookup_task hw pos seq = entries (slot_or_new hw pos) !! seq.
Proof. unfold lookup_task, slot_or_new. by destruct (slot_at hw pos). Qed.

Lemma slot_or_new_ok hw pos :
  hw_inv hw -> 0 <= pos < wheelSize ->
  lowest hw <= slot_lowest (slot_or_new hw pos) /\
  forall seq expires, entries (slot_or_new hw pos) !! seq = Some expires ->
    entry_ok pos seq expires /\ slot_lowest (slot_or_new hw pos) <= expires.
Proof.
  intros Hinv Hp. unfold slot_or_new. destruct (slot_at hw pos) as [s|] eqn:E; cbn.
  - apply (slot_at_ok hw pos _ Hinv Hp) in E as (_&Hl&Hs). rewrite Z2Nat.id in Hs by lia. done.
  - split; [apply Hinv|]. intros seq e He. by rewrite lookup_empty in He.
Qed.

(** Writing one entry into a map of entries. *)
Lemma map_to_list_write (m : gmap Z Z) (seq expires : Z) :
  exists rest, map_to_list m ≡ₚ (match m !! seq with Some e => [(seq, e)] | None => [] end) ++ rest /\
    map_to_list (<[seq := expires]> m) ≡ₚ (seq, expires) :: rest.
Proof.
  destruct (m !! seq) as [e|] eqn:E.
  - exists (map_to_list (delete seq m)). split; [by rewrite <- (map_to_list_delete _ _ _ E)|].
    rewrite <- (insert_delete_eq m). by rewrite map_to_list_insert by apply lookup_delete_eq.
  - exists (map_to_list m). split; [done|]. by rewrite map_to_list_insert.
Qed.

Lemma add_lowest (e slow low : Z) : low <= slow ->
  exists slow' low', (if e <? slow then (e, if e <? low then e else low) else (slow, low)) = (slow', low') /\
    low' <= low /\ low' <= slow' /\ slow' <= e /\ slow' <= slow.
Proof. intros H. repeat case_match; go_bool; do 2 eexists; split_and!; try done; lia. Qed.

Lemma hw_add_ok hw seq expires :
  hw_inv hw -> is_u64 seq -> is_i64 expires ->
  hw_inv (Add hw seq expires) /\
  (exists rest, tasks hw ≡ₚ old_entry hw seq expires ++ rest /\
                tasks (Add hw seq expires) ≡ₚ (seq, expires) :: rest) /\
  (forall pos' seq', 0 <= pos' -> lookup_task (Add hw seq expires) pos' seq' =
    if decide (pos' = getPosition expires /\ seq' = seq) then Some expires
    else lookup_task hw pos' seq').
Proof.
  intros Hinv Hseq Hexp. pose proof (getPosition_range expires) as Hp.
  unfold old_entry, Add. set (pos := getPosition expires) in *. fold (slot_or_new hw pos).
  destruct (slot_split hw pos Hinv Hp) as (rest&Ht&Ht').
  rewrite slot_tasks_or_new in Ht. rewrite lookup_task_or_new.
  destruct (slot_or_new_ok hw pos Hinv Hp) as [Hl Hs].
  set (s := slot_or_new hw pos) in *.
  destruct (add_lowest expires _ _ Hl) as (slow&low&->&Hlow&Hls&Hse&Hss).
  destruct (map_to_list_write (entries s) seq expires) as (rest'&Hold&Hnew). rewrite Hold in Ht.
  cbn zeta. split_and!.
  - apply inv_set_slot; [done..| |].
    + cbn [slot_ok entries slot_lowest]. split_and!; [apply insert_non_empty|done|].
      intros seq' e. rewrite lookup_insert, Z2Nat.id by lia. case_decide as Hd.
      * intros [= <-]. subst seq'. by split_and!.
      * intros He%Hs. split; [tauto|lia].
    + rewrite (Permutation_length (Ht' _ _ _)). cbn [slot_tasks entries].
      rewrite (Permutation_length (Permutation_app_tail rest Hnew)), (inv_count _ Hinv),
        (Permutation_length Ht), !length_app.
      destruct (entries s !! seq); rewrite ?u64_add_u64; f_equal; cbn [length]; lia.
  - exists (rest' ++ rest). split; [by rewrite Ht, app_assoc|].
    rewrite Ht'. cbn [slot_tasks entries]. by rewrite Hnew.
  - intros pos' seq' Hp'. unfold lookup_task at 1. rewrite slot_at_set by done.
    case_decide as Hd; [subst pos'|].
    + cbn [mbind option_bind entries]. rewrite lookup_insert.
      destruct (decide (seq = seq')) as [->|]; [by rewrite decide_True|].
      rewrite decide_False by naive_solver. by rewrite lookup_task_or_new.
    + by rewrite decide_False by naive_solver.
Qed.

Lemma hw_remove_ok hw seq expires :
  hw_inv hw ->
  match Remove hw seq expires with
  | None => lookup_task hw (getPosition expires) seq = None
  | Some hw' =>
      exists e, lookup_task hw (getPosition expires) seq = Some e /\ hw_inv hw' /\
        tasks hw ≡ₚ (seq, e) :: tasks hw' /\
        (forall pos' seq', 0 <= pos' -> lookup_task hw' pos' seq' =
          if decide (pos' = getPosition expires /\ seq' = seq) then None
          else lookup_task hw pos' seq')
  end.
Proof.
  intros Hinv. unfold Remove. pose proof (getPosition_range expires) as Hp.
  set (pos := getPosition expires) in *. destruct (slot_split hw pos Hinv Hp) as (rest&Ht&Ht').
  destruct (slot_at hw pos) as [s|] eqn:Es; [|unfold lookup_task; by rewrite Es].
  pose proof (slot_at_ok hw pos s Hinv Hp Es) as (_&Hlow&Hs).
  assert (lookup_task hw pos seq = entries s !! seq) as -> by (unfold lookup_task; by rewrite Es).
  destruct (entries s !! seq) as [e|] eqn:E; [|done]. exists e.
  cbn [slot_tasks] in Ht. rewrite <- (map_to_list_delete _ _ _ E) in Ht.
  set (m := delete seq (entries s)) in *.
  set (s' := if Nat.eqb (size m) 0 then None else Some (mkSlot m (slot_lowest s))).
  assert (slot_tasks s' = map_to_list m) as Hs'.
  { subst s'. destruct (Nat.eqb_spec (size m) 0) as [Hz|]; [|done].
    apply map_size_empty_inv in Hz. by rewrite Hz, map_to_list_empty. }
  assert (forall low c, tasks hw ≡ₚ (seq, e) :: tasks (mkHashWheel (<[Z.to_nat pos:=s']> (wheel hw)) low c))
    as Hperm by (intros; by rewrite Ht', Ht, Hs').
  split_and!; [done| |done|].
  - apply inv_set_slot; [done..| |].
    + subst s'. destruct (Nat.eqb_spec (size m) 0) as [|Hz]; [done|]. split_and!; [|done|].
      * cbn. intros He. rewrite He, map_size_empty in Hz. done.
      * cbn. intros seq' e' [_ He]%lookup_delete_Some. by apply Hs.
    + pose proof (Permutation_length (Hperm (lowest hw) (u64 (count hw - 1)))) as Hlen.
      rewrite (inv_count _ Hinv) at 1. rewrite u64_sub_u64. f_equal. cbn [length] in Hlen. lia.
  - intros pos' seq' Hp'. unfold lookup_task. rewrite slot_at_set by done.
    destruct (decide (pos = pos')) as [<-|]; [|by rewrite decide_False by naive_solver].
    rewrite Es. cbn [mbind option_bind]. subst s'.
    destruct (Nat.eqb_spec (size m) 0) as [Hz|]; cbn [mbind option_bind entries].
    + apply map_size_empty_inv in Hz. case_decide; [done|].
      assert (m !! seq' = None) as Hn by (rewrite Hz; apply lookup_empty).
      unfold m in Hn. by rewrite lookup_delete_ne in Hn by naive_solver.
    + unfold m. rewrite lookup_delete. repeat case_decide; naive_solver.
Qed.

(** ** Expiration

    For any iteration order of Go's maps and any callback. *)

Section expire.
Context (map_range : gmap Z Z -> list (Z * Z)).
Context (map_range_perm : forall m, map_range m ≡ₚ map_to_list m).
Context {C : Type} (callback : C -> Z -> Z -> C * bool * bool) (ts : Z).

(** One slot: the entries left are entries of the slot, the count drops by those that
    went, and the new lower bound holds for those that stay. *)
Lemma expire_entries_inv l : forall m count low c,
  NoDup l.*1 -> (forall seq e, (seq, e) ∈ l -> m !! seq = Some e) -> is_u64 count ->
  let '(m', count', low', c') := expire_entries callback ts l m count low c in
  m' ⊆ m /\ count' = u64 (count - (Z.of_nat (size m) - Z.of_nat (size m'))) /\ low' <= low /\
  (forall seq e, (seq, e) ∈ l -> m' !! seq = Some e -> low' <= e).
Proof.
  induction l as [|[seq e] l IH]; intros m count low c Hnd Hin Hc; cbn [expire_entries].
  { split_and!; [done| |done|by intros ?? ?%elem_of_nil]. rewrite Z.sub_diag, Z.sub_0_r. by rewrite u64_small. }
  rewrite fmap_cons, NoDup_cons in Hnd. cbn [fst] in Hnd. destruct Hnd as [Hnl Hnd].
  assert (m !! seq = Some e) as Hm by (apply Hin; left).
  assert (forall m2 : gmap Z Z, m2 = m \/ m2 = delete seq m -> forall s e', (s, e') ∈ l -> m2 !! s = Some e') as Hin2.
  { intros m2 [-> | ->] s e' Hl; [by apply Hin; right|].
    rewrite lookup_delete_ne; [by apply Hin; right|]. intros <-. apply Hnl.
    apply list_elem_of_fmap. by exists (seq, e'). }
  assert (forall c0, is_u64 c0 -> forall k, u64 (u64 (c0 - 1) - k) = u64 (c0 - (1 + k))) as Hu
    by (intros; rewrite u64_sub_u64; f_equal; lia).
  assert (Z.of_nat (size m) = 1 + Z.of_nat (size (delete seq m))) as Hsz.
  { rewrite map_size_delete_Some by done. assert (size m <> 0%nat); [|lia].
    intros ->%map_size_empty_inv. by rewrite lookup_empty in Hm. }
  assert (forall m2 c2 low2 cc, (m2 = m /\ c2 = count) \/ (m2 = delete seq m /\ c2 = u64 (count - 1)) ->
    low2 <= low -> (m2 !! seq = Some e -> low2 <= e) ->
    let '(m', count', low', c') := expire_entries callback ts l m2 c2 low2 cc in
    m' ⊆ m /\ count' = u64 (count - (Z.of_nat (size m) - Z.of_nat (size m'))) /\ low' <= low /\
    (forall s e', (s, e') ∈ (seq, e) :: l -> m' !! s = Some e' -> low' <= e')) as Hrec.
  { intros m2 c2 low2 cc Hm2 Hl Hle.
    specialize (IH m2 c2 low2 cc Hnd). destruct (expire_entries callback ts l m2 c2 low2 cc) as [[[m' c'] l'] ?].
    destruct IH as (Hsub&Hcnt&Hlow&Hall);
      [apply Hin2; naive_solver|destruct Hm2 as [[_ ->]|[_ ->]]; [done|apply u64_range]|].
    assert (m2 ⊆ m) by (destruct Hm2 as [[-> _]|[-> _]]; [done|apply delete_subseteq]).
    split_and!; [by etrans| |lia|].
    - destruct Hm2 as [[-> ->]|[-> ->]]; [done|]. rewrite Hcnt, Hu by done. f_equal. lia.
    - intros s e' [[= -> ->]|Hl']%elem_of_cons Hs; [|by eapply Hall].
      assert (low2 <= e); [|lia]. apply Hle. by eapply lookup_weaken. }
  assert ((if e <? low then e else low) <= low /\ (if e <? low then e else low) <= e) as [Hle1 Hle2]
    by (case_match; go_bool; lia).
  destruct (e <=? ts); [|apply Hrec; naive_solver].
  destruct (callback c seq e) as [[c2 removed] ok].
  destruct removed, ok; rewrite ?Hm, ?lookup_delete_eq; apply Hrec; rewrite ?lookup_delete_eq; naive_solver.
Qed.

Definition slots_ok (low : Z) (p : nat) (slots : list (option slot)) : Prop :=
  forall i so, slots !! i = Some so -> slot_ok low (p + i) so.

Lemma slots_ok_cons low p so slots :
  slots_ok low p (so :: slots) <-> slot_ok low p so /\ slots_ok low (S p) slots.
Proof.
  unfold slots_ok. split.
  - intros H. split; [rewrite <- (Nat.add_0_r p); by apply (H 0%nat)|].
    intros i so' Hi. replace (S p + i)%nat with (p + S i)%nat by lia. by apply (H (S i)).
  - intros [H1 H2] [|i] so' Hi; cbn in Hi.
    + simplify_eq. by rewrite Nat.add_0_r.
    + replace (p + S i)%nat with (S p + i)%nat by lia. by apply H2.
Qed.

Lemma map_range_keys m : NoDup (map_range m).*1.
Proof. rewrite map_range_perm. apply NoDup_fst_map_to_list. Qed.

Lemma map_range_elem m seq e : (seq, e) ∈ map_range m <-> m !! seq = Some e.
Proof. rewrite map_range_perm. apply elem_of_map_to_list. Qed.

Definition slots_len (slots : list (option slot)) : Z := Z.of_nat (length (slots ≫= slot_tasks)).

Lemma slots_len_cons so slots : slots_len (so :: slots) = Z.of_nat (length (slot_tasks so)) + slots_len slots.
Proof. unfold slots_len. rewrite bind_cons, length_app. lia. Qed.

(** One slot of [expire_slots]. *)
Lemma expire_slot_inv s p low count c : slot_ok low p (Some s) -> is_u64 count ->
  let '(m', count', low', c') :=
    expire_entries callback ts (map_range (entries s)) (entries s) count max_int64 c in
  is_u64 count' /\ count' = u64 (count - (Z.of_nat (length (slot_tasks (Some s))) - Z.of_nat (size m'))) /\
  (forall gl, gl <= low' -> m' <> ∅ -> slot_ok gl p (Some (mkSlot m' low'))).
Proof.
  intros (_&_&Hs) Hc. pose proof (expire_entries_inv (map_range (entries s)) (entries s) count max_int64 c) as H.
  destruct (expire_entries _ _ _ _ _ _ _) as [[[m' count'] low'] c'].
  destruct H as (Hsub&Hcnt&Hlow&Hall); [apply map_range_keys|intros; by apply map_range_elem|done|].
  split_and!.
  - rewrite Hcnt. apply u64_range.
  - cbn [slot_tasks]. by rewrite length_map_to_list.
  - intros gl Hgl Hne. cbn. split_and!; [done|done|]. intros seq e He.
    assert (entries s !! seq = Some e) as Hes by (by eapply lookup_weaken).
    split; [by apply Hs|]. eapply Hall; [by apply map_range_elem|done].
Qed.

Lemma expire_slots_inv slots : forall p low count gl c,
  slots_ok low p slots -> is_u64 count -> gl <= max_int64 ->
  let '(slots', count', gl', c') := expire_slots map_range callback ts slots count gl c in
  length slots' = length slots /\ slots_ok gl' p slots' /\ gl' <= gl /\
  count' = u64 (count - (slots_len slots - slots_len slots')).
Proof.
  induction slots as [|so slots IH]; intros p low count gl c Hok Hc Hgl; cbn [expire_slots].
  { split_and!; [done|by intros ? ?|lia|]. rewrite Z.sub_diag, Z.sub_0_r. by rewrite u64_small. }
  apply slots_ok_cons in Hok as [Hso Hok].
  assert (forall so' c2 gl2 cc, is_u64 c2 -> gl2 <= gl ->
    c2 = u64 (count - (Z.of_nat (length (slot_tasks so)) - Z.of_nat (length (slot_tasks so')))) ->
    (forall g, g <= gl2 -> slot_ok g p so') ->
    let '(slots', count', gl', c') :=
      (let '(slots', count', gl', c') := expire_slots map_range callback ts slots c2 gl2 cc in
       (so' :: slots', count', gl', c')) in
    length slots' = length (so :: slots) /\ slots_ok gl' p slots' /\ gl' <= gl /\
    count' = u64 (count - (slots_len (so :: slots) - slots_len slots'))) as Hrec.
  { intros so' c2 gl2 cc Hc2 Hgl2 Heq Hso'. specialize (IH (S p) low c2 gl2 cc Hok Hc2 ltac:(lia)).
    destruct (expire_slots _ _ _ _ _ _ _) as [[[slots' c'] gl'] cc']. destruct IH as (Hlen&Hok'&Hg&Hcnt).
    split_and!; [cbn; lia|apply slots_ok_cons; split; [by apply Hso'|done]|lia|].
    rewrite !slots_len_cons, Hcnt, Heq, u64_sub_u64. f_equal. lia. }
  assert (forall k, u64 (count - (k - k)) = count) as Hz
    by (intros; rewrite Z.sub_diag, Z.sub_0_r; by apply u64_small).
  destruct so as [s|]; [|by apply Hrec].
  destruct (ts <? slot_lowest s).
  { apply Hrec; [done|case_match; lia|by rewrite Hz|]. intros g Hg.
    destruct Hso as (?&?&?). split_and!; [done| |done]. case_match; go_bool; lia. }
  pose proof (expire_slot_inv s p low count c Hso Hc) as H.
  destruct (expire_entries _ _ _ _ _ _ _) as [[[m' c2] low'] cc]. destruct H as (Hc2&Heq&Hok2).
  destruct (Nat.eqb_spec (size m') 0) as [Hm|Hm].
  - apply Hrec; [done|lia| |done]. rewrite Heq, Hm. done.
  - apply Hrec; [done|case_match; go_bool; lia| |].
    + rewrite Heq. cbn [slot_tasks entries]. by rewrite !length_map_to_list.
    + intros g Hg. apply Hok2; [case_match; go_bool; lia|]. intros ->. by rewrite map_size_empty in Hm.
Qed.

Lemma expireTasks_inv hw c : hw_inv hw -> hw_inv (expireTasks map_range callback ts hw c).1.
Proof.
  intros Hinv. unfold expireTasks. destruct (ts <? lowest hw); [done|].
  pose proof (expire_slots_inv (wheel hw) 0 (lowest hw) (count hw) max_int64 c) as H.
  destruct (expire_slots _ _ _ _ _ _ _) as [[[slots' c'] gl'] cc]. cbn [fst].
  destruct H as (Hlen&Hok&Hgl&Hcnt).
  - intros i so Hi. by apply inv_slots.
  - rewrite (inv_count _ Hinv). apply u64_range.
  - done.
  - split; cbn [wheel lowest count]; [by rewrite Hlen, (inv_len _ Hinv)|apply Hok|done|].
    rewrite Hcnt, (inv_count _ Hinv), u64_sub_u64. unfold slots_len, tasks. cbn [wheel]. f_equal. lia.
Qed.
End expire.

(** ** What is expired

    The callback is run, one task after another, on the due tasks in some order; a task goes
    when the callback removes it from the wheel or returns true. *)

Definition due (ts : Z) (p : Z * Z) : bool := p.2 <=? ts.

(** The state after the calls on [l], and the tasks of [l] that go. *)
Fixpoint run_cb {C} (callback : C -> Z -> Z -> C * bool * bool) (l : list (Z * Z)) (c : C)
  : C * list (Z * Z) :=
  match l with
  | [] => (c, [])
  | (seq, e) :: l =>
      let '(c, removed, ok) := callback c seq e in
      let '(c, gone) := run_cb callback l c in
      (c, if removed || ok then (seq, e) :: gone else gone)
  end.

Lemma run_cb_app {C} (callback : C -> Z -> Z -> C * bool * bool) l1 l2 c :
  run_cb callback (l1 ++ l2) c =
    let '(c1, g1) := run_cb callback l1 c in
    let '(c2, g2) := run_cb callback l2 c1 in (c2, g1 ++ g2).
Proof.
  revert c. induction l1 as [|[seq e] l1 IH]; intros c; cbn [app run_cb].
  { by destruct (run_cb callback l2 c). }
  destruct (callback c seq e) as [[c1 removed] ok]. rewrite IH.
  destruct (run_cb callback l1 c1) as [c2 g1], (run_cb callback l2 c2) as [c3 g2].
  by destruct (removed || ok).
Qed.

Section expire_run.
Context (map_range : gmap Z Z -> list (Z * Z)).
Context (map_range_perm : forall m, map_range m ≡ₚ map_to_list m).
Context {C : Type} (callback : C -> Z -> Z -> C * bool * bool) (ts : Z).

Notation run := (run_cb callback).

Lemma expire_entries_run l : forall m count low c,
  NoDup l.*1 -> (forall seq e, (seq, e) ∈ l -> m !! seq = Some e) ->
  let '(m', _, _, c') := expire_entries callback ts l m count low c in
  let '(c2, gone) := run (List.filter (due ts) l) c in
  c' = c2 /\ map_to_list m ≡ₚ gone ++ map_to_list m'.
Proof.
  induction l as [|[seq e] l IH]; intros m count low c Hnd Hin; cbn [expire_entries]; [done|].
  rewrite fmap_cons, NoDup_cons in Hnd. cbn [fst] in Hnd. destruct Hnd as [Hnl Hnd].
  assert (m !! seq = Some e) as Hm by (apply Hin; left).
  assert (forall s e', (s, e') ∈ l -> m !! s = Some e') as Hin1 by (intros; apply Hin; by right).
  assert (forall s e', (s, e') ∈ l -> delete seq m !! s = Some e') as Hin2.
  { intros s e' Hl. rewrite lookup_delete_ne; [by apply Hin1|]. intros <-. apply Hnl.
    apply list_elem_of_fmap. by exists (seq, e'). }
  cbn [List.filter]. unfold due at 1. cbn [snd]. destruct (e <=? ts); [|by apply IH].
  cbn [run_cb]. destruct (callback c seq e) as [[c1 removed] ok].
  assert (forall cnt lw,
    let '(m', _, _, c') := expire_entries callback ts l (delete seq m) cnt lw c1 in
    let '(c2, gone) :=
      (let '(c, gone) := run (List.filter (due ts) l) c1 in (c, (seq, e) :: gone)) in
    c' = c2 /\ map_to_list m ≡ₚ gone ++ map_to_list m') as Hgone.
  { intros cnt lw. specialize (IH (delete seq m) cnt lw c1 Hnd Hin2).
    destruct (expire_entries _ _ _ _ _ _ _) as [[[m' c'] l'] log], (run _ c1) as [c2 gone].
    destruct IH as [-> IH]. split; [done|]. by rewrite <- (map_to_list_delete _ _ _ Hm), IH. }
  destruct removed, ok; rewrite ?Hm, ?lookup_delete_eq; cbn [orb]; [apply Hgone..|].
  specialize (IH m count (if e <? low then e else low) c1 Hnd Hin1). by destruct (run _ c1).
Qed.

(** A slot whose lower bound is after [ts] has no due task. *)
Lemma not_due l : (forall p, p ∈ l -> ts < p.2) -> List.filter (due ts) l = [].
Proof. intros H. apply list_filter_none. intros p Hp%H. unfold due. apply Z.leb_gt. lia. Qed.

Lemma expire_slots_run slots : forall p low count gl c, slots_ok low p slots ->
  let '(slots', _, _, c') := expire_slots map_range callback ts slots count gl c in
  exists order, order ≡ₚ List.filter (due ts) (slots ≫= slot_tasks) /\ c' = (run order c).1 /\
    slots ≫= slot_tasks ≡ₚ (run order c).2 ++ (slots' ≫= slot_tasks).
Proof.
  induction slots as [|so slots IH]; intros p low count gl c Hok; cbn [expire_slots]; [by exists []|].
  apply slots_ok_cons in Hok as [Hso Hok].
  assert (forall so' c2 gl2 cc ord, ord ≡ₚ List.filter (due ts) (slot_tasks so) -> cc = (run ord c).1 ->
    slot_tasks so ≡ₚ (run ord c).2 ++ slot_tasks so' ->
    let '(slots', _, _, c') :=
      (let '(slots', count', gl', c') := expire_slots map_range callback ts slots c2 gl2 cc in
       (so' :: slots', count', gl', c')) in
    exists order, order ≡ₚ List.filter (due ts) ((so :: slots) ≫= slot_tasks) /\ c' = (run order c).1 /\
      (so :: slots) ≫= slot_tasks ≡ₚ (run order c).2 ++ (slots' ≫= slot_tasks)) as Hrec.
  { intros so' c2 gl2 cc ord Hord Hcc Hso'. specialize (IH (S p) low c2 gl2 cc Hok).
    destruct (expire_slots _ _ _ _ _ _ _) as [[[slots' c'] gl'] cc']. destruct IH as (ord'&H1&H2&H3).
    exists (ord ++ ord'). rewrite !bind_cons, List.filter_app, run_cb_app. split; [by rewrite Hord, H1|].
    destruct (run ord c) as [c1 g1]. cbn [fst snd] in *. subst cc. destruct (run ord' c1) as [c3 g2].
    cbn [fst snd] in *. split; [done|]. rewrite Hso', H3. solve_Permutation. }
  destruct so as [s|]; [|by apply (Hrec None _ _ c [])].
  destruct (Z.ltb_spec ts (slot_lowest s)) as [Hlt|_].
  { destruct Hso as (_&_&Hs). apply (Hrec (Some s) _ _ c []); [|done|done].
    rewrite not_due; [done|]. intros [seq e] Hin%elem_of_map_to_list. apply Hs in Hin. cbn. lia. }
  pose proof (expire_entries_run (map_range (entries s)) (entries s) count max_int64 c) as H.
  destruct (expire_entries _ _ _ _ _ _ _) as [[[m' c2] low'] cc], (run _ c) as [c3 gone] eqn:Er.
  destruct H as [-> H]; [by apply map_range_keys|intros; by apply (map_range_elem map_range map_range_perm)|].
  destruct (Nat.eqb_spec (size m') 0) as [Hm|Hm];
    apply (Hrec _ _ _ _ (List.filter (due ts) (map_range (entries s))));
    rewrite ?Er; cbn [slot_tasks fst snd entries]; rewrite ?map_range_perm; try done.
  by rewrite H, (map_size_empty_inv _ Hm), map_to_list_empty.
Qed.

Lemma expireTasks_run hw c : hw_inv hw ->
  exists order, order ≡ₚ List.filter (due ts) (tasks hw) /\
    (expireTasks map_range callback ts hw c).2 = (run order c).1 /\
    tasks hw ≡ₚ (run order c).2 ++ tasks (expireTasks map_range callback ts hw c).1.
Proof.
  intros Hinv. unfold expireTasks. destruct (Z.ltb_spec ts (lowest hw)) as [Hlt|_].
  - exists []. split_and!; [|done|done]. rewrite not_due; [done|].
    intros [seq e] (so&Hin&[pos Hpos]%list_elem_of_lookup)%list_elem_of_bind.
    apply (inv_slots _ Hinv) in Hpos. destruct so as [s|]; [|by apply elem_of_nil in Hin].
    apply elem_of_map_to_list in Hin. destruct Hpos as (_&?&Hs). apply Hs in Hin. cbn. lia.
  - pose proof (expire_slots_run (wheel hw) 0 (lowest hw) (count hw) max_int64 c) as H.
    destruct (expire_slots _ _ _ _ _ _ _) as [[[slots' c'] gl'] log]. apply H.
    intros i so Hi. by apply inv_slots.
Qed.

End expire_run.
