(* ===== verification/HashWheelSpec.v ===== *)
(** * Timer hash wheel: properties

    Wheels built by the operations of src/server/thw/thw.go ([hw_reach]), what each operation
    does to the set of scheduled tasks, expiration, and the snapshot of [Encode] and [Decode]. *)

From S2P Require Import Prelude Binary HashWheel HashWheelProofs.
Import Thw.

(** Wheels the operations build, whatever the order in which Go ranges over a map and whatever
    the expiration callback does. *)
Inductive hw_reach : HashWheel -> Prop :=
| reach_new : hw_reach NewHashWheel
| reach_add hw seq expires :
    hw_reach hw -> is_u64 seq -> is_i64 expires -> hw_reach (Add hw seq expires)
| reach_remove hw seq expires hw' :
    hw_reach hw -> Remove hw seq expires = Some hw' -> hw_reach hw'
| reach_update hw seq old new hw' :
    hw_reach hw -> is_u64 seq -> is_i64 new -> Update hw seq old new = Some hw' -> hw_reach hw'
| reach_expire hw map_range (C : Type) (callback : C -> Z -> Z -> C * bool * bool) ts c :
    hw_reach hw -> (forall m, map_range m ≡ₚ map_to_list m) ->
    hw_reach (expireTasks map_range callback ts hw c).1.

Lemma hw_update_ok hw seq old new :
  hw_inv hw -> is_u64 seq -> is_i64 new ->
  match Update hw seq old new with
  | None => lookup_task hw (getPosition old) seq = None
  | Some hw' =>
      hw_inv hw' /\ is_Some (lookup_task hw (getPosition old) seq) /\
      (forall pos' seq', 0 <= pos' -> lookup_task hw' pos' seq' =
        if decide (pos' = getPosition new /\ seq' = seq) then Some new
        else if decide (pos' = getPosition old /\ seq' = seq) then None
        else lookup_task hw pos' seq')
  end.
Proof.
  intros Hinv Hs Hn. unfold Update. pose proof (hw_remove_ok hw seq old Hinv) as Hr.
  destruct (Remove hw seq old) as [hw1|]; [|done]. destruct Hr as (e&He&Hinv1&_&Hl1).
  destruct (hw_add_ok hw1 seq new Hinv1 Hs Hn) as (Hinv2&_&Hl2).
  split_and!; [done|by eexists|]. intros pos' seq' Hp. rewrite Hl2 by done. case_decide; [done|]. by apply Hl1.
Qed.

Lemma hw_reach_inv hw : hw_reach hw -> hw_inv hw.
Proof.
  induction 1 as [|hw seq e _ IH|hw seq e hw' _ IH Hr|hw seq o n hw' _ IH ? ? Hr|].
  - apply hw_new_inv.
  - by apply hw_add_ok.
  - pose proof (hw_remove_ok hw seq e IH) as H. rewrite Hr in H. naive_solver.
  - pose proof (hw_update_ok hw seq o n IH) as H'. rewrite Hr in H'. naive_solver.
  - by apply expireTasks_inv.
Qed.

(** ** Tasks and lookups *)

Lemma elem_of_tasks hw seq e :
  hw_inv hw -> (seq, e) ∈ tasks hw <-> lookup_task hw (getPosition e) seq = Some e.
Proof.
  intros Hinv. pose proof (getPosition_range e) as Hp. unfold tasks. rewrite list_elem_of_bind. split.
  - intros (so&Hin&[pos Hpos]%list_elem_of_lookup).
    pose proof (inv_slots _ Hinv _ _ Hpos) as Hok. destruct so as [s|]; [|by apply elem_of_nil in Hin].
    apply elem_of_map_to_list in Hin. destruct Hok as (_&_&Hs). destruct (Hs _ _ Hin) as ((_&_&Hpe)&_).
    unfold lookup_task, slot_at. by rewrite Hpe, Nat2Z.id, Hpos.
  - unfold lookup_task. intros (s&Hs&He)%bind_Some. exists (Some s). split; [by apply elem_of_map_to_list|].
    pose proof (slot_at_lookup hw _ Hinv Hp) as Hl. rewrite Hs in Hl. by eapply list_elem_of_lookup_2.
Qed.

Lemma tasks_ok hw seq e : hw_inv hw -> (seq, e) ∈ tasks hw -> is_u64 seq /\ is_i64 e /\ lowest hw <= e.
Proof.
  intros Hinv Hin. apply elem_of_tasks in Hin; [|done]. pose proof (getPosition_range e) as Hp.
  unfold lookup_task in Hin. apply bind_Some in Hin as (s&Hs&He).
  destruct (slot_at_ok hw _ s Hinv Hp Hs) as (_&?&H). destruct (H _ _ He) as ((?&?&?)&?). split_and!; done || lia.
Qed.

Lemma lookup_position hw expires seq e :
  hw_inv hw -> lookup_task hw (getPosition expires) seq = Some e -> getPosition e = getPosition expires.
Proof.
  intros Hinv (s&Hsl&Hes)%bind_Some. pose proof (getPosition_range expires) as Hp.
  destruct (slot_at_ok hw _ s Hinv Hp Hsl) as (_&_&Hok). destruct (Hok _ _ Hes) as ((_&_&Hpe)&_). lia.
Qed.

(** The key of a task: its slot and sequence. *)
Definition task_key (p : Z * Z) : Z * Z := (getPosition p.2, p.1).

Lemma slots_keys slots : forall low p, slots_ok low p slots ->
  NoDup (task_key <$> (slots ≫= slot_tasks)) /\
  forall t, t ∈ slots ≫= slot_tasks -> Z.of_nat p <= getPosition t.2.
Proof.
  induction slots as [|so slots IH]; intros low p Hok.
  { split; [by apply NoDup_nil|by intros ? ?%elem_of_nil]. }
  apply slots_ok_cons in Hok as [Hso Hok]. destruct (IH low (S p) Hok) as [Hnd Hge].
  assert (forall t, t ∈ slot_tasks so -> getPosition t.2 = Z.of_nat p) as Hpos.
  { destruct so as [s|]; [|by intros ? ?%elem_of_nil]. intros [seq e] Hin%elem_of_map_to_list.
    destruct Hso as (_&_&Hs). by apply Hs in Hin as ((_&_&?)&_). }
  rewrite bind_cons. split.
  - rewrite fmap_app. apply NoDup_app. split_and!; [| |done].
    + destruct so as [s|]; [|by apply NoDup_nil]. apply (NoDup_fmap_1 snd).
      rewrite <- list_fmap_compose. apply NoDup_fst_map_to_list.
    + intros k (t&->&Ht)%list_elem_of_fmap (t'&Heq&Ht')%list_elem_of_fmap.
      apply Hpos in Ht. apply Hge in Ht'. unfold task_key in Heq. injection Heq as Heq _. lia.
  - intros t [Ht|Ht]%elem_of_app; [apply Hpos in Ht|apply Hge in Ht]; lia.
Qed.

Lemma tasks_keys hw : hw_inv hw -> NoDup (task_key <$> tasks hw).
Proof. intros Hinv. eapply (slots_keys (wheel hw) (lowest hw) 0). intros i so Hi. by apply inv_slots. Qed.

(** Adding tasks one after another. *)
Lemma fold_add l : forall hw, hw_inv hw -> NoDup (task_key <$> l) ->
  (forall seq e, (seq, e) ∈ l -> is_u64 seq /\ is_i64 e /\ lookup_task hw (getPosition e) seq = None) ->
  let hw' := fold_left (fun hw p => Add hw p.1 p.2) l hw in
  hw_inv hw' /\ tasks hw' ≡ₚ l ++ tasks hw.
Proof.
  induction l as [|[seq e] l IH]; intros hw Hinv Hnd Hl; [done|].
  rewrite fmap_cons, NoDup_cons in Hnd. destruct Hnd as [Hnot Hnd].
  destruct (Hl seq e) as (Hs&He&Hn); [left|].
  destruct (hw_add_ok hw seq e Hinv Hs He) as (Hinv'&(rest&Hr1&Hr2)&Hlk).
  unfold old_entry in Hr1. rewrite Hn in Hr1. cbn [app] in Hr1. cbn [fold_left fst snd].
  destruct (IH (Add hw seq e) Hinv' Hnd) as [H1 H2].
  - intros seq' e' Hin. destruct (Hl seq' e') as (?&?&Hn'); [by right|]. split_and!; [done..|].
    rewrite Hlk by apply getPosition_range. rewrite decide_False; [done|]. intros [Hp ->].
    apply Hnot. apply list_elem_of_fmap. exists (seq, e'). unfold task_key. cbn. by rewrite Hp.
  - split; [done|]. rewrite H2, Hr2, Hr1. cbn. solve_Permutation.
Qed.

(** ** Snapshots *)

Definition encode_entry (p : Z * Z) : list Z := put_varint p.2 ++ put_uvarint p.1.

Lemma decode_entries_ok l : forall hw stamp,
  (forall seq e, (seq, e) ∈ l -> is_u64 seq /\ is_i64 e) ->
  decode_entries (length l) (l ≫= encode_entry) hw stamp =
    (fold_left (fun hw p => Add hw p.1 p.2) l hw, inr stamp).
Proof.
  induction l as [|[seq e] l IH]; intros hw stamp Hl; [done|].
  destruct (Hl seq e) as [Hs He]; [left|]. rewrite bind_cons. unfold encode_entry at 1. cbn [fst snd].
  rewrite <- app_assoc. cbn [length decode_entries fold_left fst snd]. rewrite varint_put by done.
  rewrite (proj2 (Z.ltb_ge _ _)), Nat2Z.id, drop_app_length by lia. rewrite uvarint_put by done.
  rewrite (proj2 (Z.ltb_ge _ _)) by lia.
  rewrite Z2Nat.inj_add, !Nat2Z.id, <- drop_drop, !drop_app_length by lia.
  apply IH. intros s' e' Hin. apply Hl. by right.
Qed.

Section snapshot.
Context (map_range : gmap Z Z -> list (Z * Z)).
Context (map_range_perm : forall m, map_range m ≡ₚ map_to_list m).

Definition slot_range (so : option slot) : list (Z * Z) :=
  match so with None => [] | Some s => map_range (entries s) end.

Lemma slot_range_perm slots : slots ≫= slot_range ≡ₚ slots ≫= slot_tasks.
Proof.
  induction slots as [|so slots IH]; [done|]. rewrite !bind_cons, IH. apply Permutation_app_tail.
  by destruct so as [s|]; [apply map_range_perm|].
Qed.

Lemma encode_slots_entries slots : slots ≫= encode_slot map_range = (slots ≫= slot_range) ≫= encode_entry.
Proof.
  induction slots as [|so slots IH]; [done|]. rewrite !bind_cons, bind_app, IH. f_equal.
  destruct so as [s|]; [|done]. cbn. induction (map_range (entries s)) as [|[v t] l IHl]; [done|].
  rewrite !bind_cons, IHl. done.
Qed.

Lemma encode_decode_ok hw stamp :
  hw_inv hw -> Z.of_nat (length (tasks hw)) < 2 ^ 64 -> is_u64 stamp ->
  exists hw', Decode NewHashWheel (Encode map_range hw stamp) = (hw', inr stamp) /\
    hw_inv hw' /\ tasks hw' ≡ₚ tasks hw.
Proof.
  intros Hinv Hlen Hst. set (l := wheel hw ≫= slot_range).
  assert (l ≡ₚ tasks hw) as Hl by apply slot_range_perm.
  destruct (fold_add l NewHashWheel) as [Hinv' Ht]; [apply hw_new_inv|rewrite Hl; by apply tasks_keys| |].
  { intros seq e Hin. rewrite Hl in Hin. destruct (tasks_ok _ _ _ Hinv Hin) as (?&?&_). split_and!; [done..|].
    unfold lookup_task. pose proof (getPosition_range e).
    pose proof (slot_at_lookup _ _ hw_new_inv H1) as [Hs _]%lookup_replicate. by rewrite Hs. }
  exists (fold_left (fun hw p => Add hw p.1 p.2) l NewHashWheel). split_and!; [|done|].
  - unfold Encode, Decode. rewrite encode_slots_entries. fold l. cbn [app].
    rewrite length_cons, !length_app, !length_le_put. rewrite (proj2 (Z.ltb_ge _ _)) by (unfold headerLen; lia).
    change (default 0 ((1 :: _) !! 0%nat)) with 1. cbn [Z.eqb Pos.eqb negb].
    change (drop 1 (1 :: ?a)) with a. change (drop 9 (1 :: ?a)) with (drop 8 a).
    change (drop 17 (1 :: ?a)) with (drop (8 + 8) a).
    rewrite <- drop_drop, !drop_app_length' by (by rewrite length_le_put).
    assert (count hw = Z.of_nat (length l)) as Hc.
    { rewrite (inv_count _ Hinv), Hl. apply u64_small. split; lia. }
    rewrite Hc, !le_get_put by (unfold is_u64 in Hst; rewrite ?Hl; lia). rewrite Nat2Z.id.
    apply decode_entries_ok. intros seq e Hin. rewrite Hl in Hin.
    by destruct (tasks_ok _ _ _ Hinv Hin) as (?&?&_).
  - rewrite Ht. unfold tasks at 1. cbn [wheel NewHashWheel]. by rewrite tasks_replicate, app_nil_r.
Qed.
End snapshot.

(** ** Properties *)

(** C8. [ExpireTasks] on a wheel built by the operations, for every iteration order of Go's
    maps and every stateful callback: the callback runs exactly once for each task due at
    [ts], in some order, and for no other task; exactly the tasks it removes or accepts leave
    the wheel; the count is the number of tasks left. *)
Theorem hw_expire_exact (hw : HashWheel) (map_range : gmap Z Z -> list (Z * Z)) (C : Type)
    (callback : C -> Z -> Z -> C * bool * bool) (ts : Z) (c : C)
    (Hr : hw_reach hw) (Hperm : forall m, map_range m ≡ₚ map_to_list m) :
  let '(hw', c') := expireTasks map_range callback ts hw c in
  (exists order, order ≡ₚ List.filter (due ts) (tasks hw) /\
     exists gone, run_cb callback order c = (c', gone) /\ tasks hw ≡ₚ gone ++ tasks hw') /\
  Count hw' = u64 (Z.of_nat (length (tasks hw'))).
Proof.
  apply hw_reach_inv in Hr.
  destruct (expireTasks_run map_range Hperm callback ts hw c Hr) as (order&H1&H2&H3).
  pose proof (expireTasks_inv map_range Hperm callback ts hw c Hr) as Hi.
  destruct (expireTasks _ _ _ _ _) as [hw' c']. cbn [fst snd] in *.
  split; [|apply Hi]. exists order. split; [done|]. exists (run_cb callback order c).2.
  split; [|done]. rewrite H2. by destruct (run_cb _ _ _).
Qed.

Definition sample_wheel : HashWheel :=
  Add (Add (Add NewHashWheel 1 5000000000) 2 9000000000) 3 7000000000.

Lemma sample_wheel_reach : hw_reach sample_wheel.
Proof. repeat (apply reach_add; [|done|done]). apply reach_new. Qed.

(** A callback that logs its calls and accepts sequence 1 only. *)
Definition sample_cb (log : list Z) (seq expires : Z) : list Z * bool * bool :=
  (log ++ [seq], false, seq =? 1).

Lemma hw_expire_exact_witness :
  (expireTasks map_to_list sample_cb 7000000000 sample_wheel []).2 = [1; 3] /\
  let '(hw', c') := expireTasks map_to_list sample_cb 7000000000 sample_wheel [] in
  (exists order, order ≡ₚ List.filter (due 7000000000) (tasks sample_wheel) /\
     exists gone, run_cb sample_cb order [] = (c', gone) /\ tasks sample_wheel ≡ₚ gone ++ tasks hw') /\
  Count hw' = u64 (Z.of_nat (length (tasks hw'))).
Proof. split; [by vm_compute|]. apply hw_expire_exact; [apply sample_wheel_reach|done]. Defined.

(** C27. On every wheel built by the operations: [Count] is the number of scheduled tasks, no
    two tasks share a slot and a sequence, and [GetNextExpiration] is never later than a task
    that expires before the time asked for, so no wake-up is missed. *)
Theorem hw_reach_sound (hw : HashWheel) (Hr : hw_reach hw) :
  Count hw = u64 (Z.of_nat (length (tasks hw))) /\
  NoDup (task_key <$> tasks hw) /\
  (forall seq expires before, (seq, expires) ∈ tasks hw -> expires < before ->
     GetNextExpiration hw before <= expires).
Proof.
  apply hw_reach_inv in Hr. split_and!; [apply Hr|by apply tasks_keys|].
  intros seq e before Hin Hb. destruct (tasks_ok _ _ _ Hr Hin) as (_&_&Hl). unfold GetNextExpiration.
  destruct (Z.ltb_spec (lowest hw) before); lia.
Qed.

Lemma hw_reach_sound_witness :
  hw_reach sample_wheel /\ Count sample_wheel = 3 /\
  GetNextExpiration sample_wheel 10000000000 <= 7000000000.
Proof.
  split; [apply sample_wheel_reach|]. split; [by vm_compute|].
  refine (proj2 (proj2 (hw_reach_sound sample_wheel sample_wheel_reach)) 3 7000000000 10000000000 _ _);
    [|lia]. apply elem_of_tasks; [apply hw_reach_inv, sample_wheel_reach|by vm_compute].
Defined.

(** [Add], [Remove] and [Update] on every branch.  [Add] sets the entry of the task's slot
    and sequence; [Remove] answers [ErrTaskNotFound] exactly when there is none and otherwise
    takes one task out; [Update] moves it.  All other entries are unchanged. *)
Theorem hw_operations (hw : HashWheel) (seq expires new : Z)
    (Hr : hw_reach hw) (Hs : is_u64 seq) (He : is_i64 expires) (Hn : is_i64 new) :
  (forall pos seq', 0 <= pos -> lookup_task (Add hw seq expires) pos seq' =
     if decide (pos = getPosition expires /\ seq' = seq) then Some expires else lookup_task hw pos seq') /\
  match Remove hw seq expires with
  | None => lookup_task hw (getPosition expires) seq = None /\ Update hw seq expires new = None
  | Some hw1 =>
      (exists e, tasks hw ≡ₚ (seq, e) :: tasks hw1 /\ getPosition e = getPosition expires) /\
      (forall pos seq', 0 <= pos -> lookup_task hw1 pos seq' =
         if decide (pos = getPosition expires /\ seq' = seq) then None else lookup_task hw pos seq') /\
      exists hw2, Update hw seq expires new = Some hw2 /\
        tasks hw2 ≡ₚ (seq, new) :: List.filter (fun p => negb (bool_decide (task_key p = (getPosition new, seq)))) (tasks hw1)
  end.
Proof.
  apply hw_reach_inv in Hr. split; [by apply hw_add_ok|].
  pose proof (hw_remove_ok hw seq expires Hr) as H. unfold Update.
  destruct (Remove hw seq expires) as [hw1|] eqn:E; [|done].
  destruct H as (e&Hl&Hi1&Ht&Hlk). split_and!; [|done|].
  - exists e. split; [done|]. by apply (lookup_position hw _ seq).
  - exists (Add hw1 seq new). split; [done|].
    destruct (hw_add_ok hw1 seq new Hi1 Hs Hn) as (_&(rest&H1&H2)&_). rewrite H2. constructor.
    pose proof (tasks_keys hw1 Hi1) as Hnd. rewrite H1 in Hnd |- *. rewrite List.filter_app.
    rewrite fmap_app in Hnd. apply NoDup_app in Hnd as (_&Hdis&Hnd). unfold old_entry in *.
    destruct (lookup_task hw1 (getPosition new) seq) as [e'|] eqn:El; cbn [fmap list_fmap app List.filter] in *.
    + pose proof (lookup_position hw1 _ _ _ Hi1 El) as Hpe.
      rewrite bool_decide_true by (unfold task_key; cbn; congruence). cbn [negb app].
      rewrite list_filter_all; [done|]. intros p Hp. rewrite bool_decide_false; [done|]. intros Hk.
      apply (Hdis (getPosition new, seq)); [rewrite <- Hpe; left|].
      rewrite <- Hk. by apply list_elem_of_fmap_2.
    + rewrite list_filter_all; [done|]. intros [s' e'] Hp. rewrite bool_decide_false; [done|].
      intros [= Hk ->]. assert ((seq, e') ∈ tasks hw1) as Hin by (by rewrite H1).
      apply elem_of_tasks in Hin; [|done]. congruence.
Qed.

Lemma hw_operations_witness :
  hw_reach sample_wheel /\
  (exists hw2, Update sample_wheel 2 9000000000 1000000000 = Some hw2 /\ lookup_task hw2 1 2 = Some 1000000000) /\
  Remove sample_wheel 2 9500000000 <> None.
Proof.
  split; [apply sample_wheel_reach|].
  pose proof (hw_operations sample_wheel 2 9000000000 1000000000 sample_wheel_reach ltac:(done) ltac:(done) ltac:(done)) as [_ H].
  split; [|by vm_compute]. destruct (Remove sample_wheel 2 9000000000) eqn:E; [|vm_compute in E; discriminate].
  destruct H as (_&_&hw2&Hu&_). exists hw2. split; [done|]. vm_compute in Hu. simplify_eq. by vm_compute.
Defined.

(** [Decode] of an [Encode]d wheel gives back its tasks and the stamp, for every iteration
    order of Go's maps. *)
Theorem hw_encode_decode (hw : HashWheel) (map_range : gmap Z Z -> list (Z * Z)) (stamp : Z)
    (Hr : hw_reach hw) (Hperm : forall m, map_range m ≡ₚ map_to_list m)
    (Hlen : Z.of_nat (length (tasks hw)) < 2 ^ 64) (Hst : is_u64 stamp) :
  exists hw', Decode NewHashWheel (Encode map_range hw stamp) = (hw', inr stamp) /\
    Count hw' = Count hw /\ tasks hw' ≡ₚ tasks hw /\
    (forall seq expires, (seq, expires) ∈ tasks hw -> GetNextExpiration hw' max_int64 <= expires).
Proof.
  apply hw_reach_inv in Hr. destruct (encode_decode_ok map_range Hperm hw stamp Hr Hlen Hst) as (hw'&Hd&Hi&Ht).
  exists hw'. split_and!; [done| |done|].
  - unfold Count. by rewrite (inv_count _ Hi), (inv_count _ Hr), Ht.
  - intros seq e Hin. rewrite <- Ht in Hin. destruct (tasks_ok _ _ _ Hi Hin) as (_&He&Hl). unfold GetNextExpiration.
    unfold is_i64, max_int64 in *. destruct (Z.ltb_spec (lowest hw') (2 ^ 63 - 1)); lia.
Qed.

Lemma hw_encode_decode_witness :
  exists hw', Decode NewHashWheel (Encode map_to_list sample_wheel 77) = (hw', inr 77) /\
    Count hw' = Count sample_wheel /\ tasks hw' ≡ₚ tasks sample_wheel /\
    (forall seq expires, (seq, expires) ∈ tasks sample_wheel -> GetNextExpiration hw' max_int64 <= expires).
Proof. apply hw_encode_decode; [apply sample_wheel_reach|done|by vm_compute|done]. Defined.

(** ** Divergences *)

(** A snapshot cut after its header is accepted: [Varint] and [Uvarint] report a short buffer
    by a count of 0, which [Decode] does not reject, and a task (0, 0) is scheduled. *)
Lemma Decode_truncated_accepted :
  (Decode NewHashWheel ([1] ++ le_put 8 1 ++ le_put 8 42)).2 = inr 42 /\
  lookup_task (Decode NewHashWheel ([1] ++ le_put 8 1 ++ le_put 8 42)).1 0 0 = Some 0.
Proof. by vm_compute. Qed.

(** [Decode] resets the slots and not the count. *)
Lemma Decode_keeps_count :
  let hw := (Decode (Add NewHashWheel 1 5000000000) (Encode map_to_list NewHashWheel 0)).1 in
  tasks hw = [] /\ Count hw = 1.
Proof. by vm_compute. Qed.
