(* ===== verification/Bytes.v ===== *)
(** * Strings as byte sequences

    Go strings and byte slices: [bytes_of] and [string_of] convert between a [string] and the
    list of its bytes. *)

From S2P Require Import Prelude.
From Stdlib Require Import Ascii.

Definition byte_of_ascii (a : ascii) : Z := Z.of_N (N_of_ascii a).
Definition ascii_of_byte (b : Z) : ascii := ascii_of_N (Z.to_N b).

Fixpoint bytes_of (s : string) : list Z :=
  match s with
  | EmptyString => []
  | String a s => byte_of_ascii a :: bytes_of s
  end.

Fixpoint string_of (l : list Z) : string :=
  match l with
  | [] => EmptyString
  | b :: l => String (ascii_of_byte b) (string_of l)
  end.

Lemma byte_of_ascii_range a : is_byte (byte_of_ascii a).
Proof. unfold is_byte, byte_of_ascii. pose proof (N_ascii_bounded a). lia. Qed.

Lemma ascii_of_byte_of_ascii a : ascii_of_byte (byte_of_ascii a) = a.
Proof. unfold ascii_of_byte, byte_of_ascii. rewrite N2Z.id. apply ascii_N_embedding. Qed.

Lemma string_of_bytes_of s : string_of (bytes_of s) = s.
Proof. induction s as [|a s IH]; [done|]. cbn. by rewrite ascii_of_byte_of_ascii, IH. Qed.

Lemma bytes_of_range s : Forall is_byte (bytes_of s).
Proof. induction s; constructor; [apply byte_of_ascii_range|done]. Qed.

Lemma bytes_of_inj s1 s2 : bytes_of s1 = bytes_of s2 -> s1 = s2.
Proof. intros H. by rewrite <- (string_of_bytes_of s1), H, string_of_bytes_of. Qed.
