(* ===== verification/Scheduler.v ===== *)
(** * Message scheduling (src/server/scheduler.go)

    [MsgScheduling] keeps one schedule per subject, an index from sequence to subject, the
    subjects whose scheduled message is in flight and a timer wheel.  The wheel is used through
    the interface [TimerWheel]; what the scheduler relies on is [TimerWheelLaws], and
    [HashWheel] implements it for every order in which Go may range over a map.

    [runMsgScheduling] is the part of src/server/memstore.go that drives the scheduler. *)

From S2P Require Import Prelude Binary Bytes.

(** ** The interface of the wheel *)

Class TimerWheel (W : Type) : Type := {
  tw_New : W;
  tw_Add : W -> Z -> Z -> W;
  tw_Remove : W -> Z -> Z -> option W;
  tw_GetNextExpiration : W -> Z -> Z;
  (** The callback returns its state, whether it removed the task it is called for from the
      wheel, and its result. *)
  tw_ExpireTasks : forall {C : Type}, (C -> Z -> Z -> C * bool * bool) -> Z -> W -> C -> W * C;
}.

Module Sched.

Record MsgSchedule : Type := mkSchedule { sched_seq : Z; sched_ts : Z }.

(** [timer] is the delay the timer was last armed with, [None] when it is nil. *)
Record MsgScheduling (W : Type) : Type := mkScheduling {
  ttls : W;
  timer : option Z;
  running : bool;
  deadline : Z;
  schedules : gmap string MsgSchedule;
  seqToSubj : gmap Z string;
  inflight : gset string;
}.
Arguments mkScheduling {W}.
Arguments ttls {W}.
Arguments timer {W}.
Arguments running {W}.
Arguments deadline {W}.
Arguments schedules {W}.
Arguments seqToSubj {W}.
Arguments inflight {W}.

Section ops.
Context {W : Type} `{TimerWheel W}.
Notation MS := (MsgScheduling W).

Definition newMsgScheduling : MS := mkScheduling tw_New None false 0 ∅ ∅ ∅.

Definition with_ttls (ms : MS) (w : W) : MS :=
  mkScheduling w (timer ms) (running ms) (deadline ms) (schedules ms) (seqToSubj ms) (inflight ms).

(** [ms.ttls.Remove], whose error the scheduler ignores. *)
Definition ttls_remove (w : W) (seq ts : Z) : W := default w (tw_Remove w seq ts).

Definition init (ms : MS) (seq : Z) (subj : string) (ts : Z) : MS :=
  let '(w, idx) :=
    match schedules ms !! subj with
    | Some sched =>
        (tw_Add (ttls_remove (ttls ms) (sched_seq sched) (sched_ts sched)) seq ts,
         delete (sched_seq sched) (seqToSubj ms))
    | None => (tw_Add (ttls ms) seq ts, seqToSubj ms)
    end in
  mkScheduling w (timer ms) (running ms) (deadline ms)
    (<[subj := mkSchedule seq ts]> (schedules ms)) (<[seq := subj]> idx) (inflight ms ∖ {[subj]}).

Definition minFireIn : Z := 250000000.

(** [time.Until(time.Unix(0, next))]: durations saturate. *)
Definition time_until (next now : Z) : Z := Z.max (- 2 ^ 63) (Z.min max_int64 (next - now)).

(** [now1] and [now2] are the two readings of the clock. *)
Definition resetTimer (ms : MS) (now1 now2 : Z) : MS :=
  if running ms then ms else
  let next := tw_GetNextExpiration (ttls ms) max_int64 in
  if next =? max_int64
  then mkScheduling (ttls ms) None (running ms) (deadline ms) (schedules ms) (seqToSubj ms) (inflight ms)
  else
    let fireIn := time_until next now1 in
    let fireIn := if fireIn <? minFireIn then minFireIn else fireIn in
    let dl := i64 (now2 + fireIn) in
    if (0 <? deadline ms) && (deadline ms <? dl) then ms else
    mkScheduling (ttls ms) (Some fireIn) (running ms) dl (schedules ms) (seqToSubj ms) (inflight ms).

Definition add (ms : MS) (seq : Z) (subj : string) (ts now1 now2 : Z) : MS :=
  resetTimer (init ms seq subj ts) now1 now2.

Definition update (ms : MS) (subj : string) (ts now1 now2 : Z) : MS :=
  match schedules ms !! subj with
  | None => ms
  | Some sched =>
      let w := tw_Add (ttls_remove (ttls ms) (sched_seq sched) (sched_ts sched)) (sched_seq sched) ts in
      resetTimer
        (mkScheduling w (timer ms) (running ms) (deadline ms)
           (<[subj := mkSchedule (sched_seq sched) ts]> (schedules ms)) (seqToSubj ms)
           (inflight ms ∖ {[subj]})) now1 now2
  end.

Definition markInflight (ms : MS) (subj : string) : MS :=
  match schedules ms !! subj with
  | None => ms
  | Some _ =>
      mkScheduling (ttls ms) (timer ms) (running ms) (deadline ms) (schedules ms) (seqToSubj ms)
        (inflight ms ∪ {[subj]})
  end.

Definition isInflight (ms : MS) (subj : string) : bool := bool_decide (subj ∈ inflight ms).

Definition removeSubject (ms : MS) (subj : string) : MS :=
  match schedules ms !! subj with
  | None => ms
  | Some sched =>
      mkScheduling (ttls_remove (ttls ms) (sched_seq sched) (sched_ts sched)) (timer ms) (running ms)
        (deadline ms) (delete subj (schedules ms)) (delete (sched_seq sched) (seqToSubj ms))
        (inflight ms ∖ {[subj]})
  end.

Definition remove (ms : MS) (seq : Z) : MS :=
  match seqToSubj ms !! seq with
  | None => ms
  | Some subj => removeSubject ms subj
  end.

Definition clearInflight (ms : MS) : MS :=
  mkScheduling (ttls ms) (timer ms) (running ms) (deadline ms) (schedules ms) (seqToSubj ms) ∅.

(** ** Scheduled messages *)

Section expire.
Context {StoreMsg InMsg : Type}.
Variable sm_subj : StoreMsg -> string.
Variable loadMsg : Z -> option StoreMsg.
(** The scheduled message built from the stored one and its expiration time; [None] when its
    pattern, time zone, TTL or target is not valid. *)
Variable prepare : StoreMsg -> Z -> option InMsg.

(** The callback of [ExpireTasks] without the wheel: the state the scheduler's maps are in and
    the messages collected. *)
Definition expire_cb (c : MS * list (Z * InMsg)) (seq ts : Z) : (MS * list (Z * InMsg)) * bool * bool :=
  let '(ms, msgs) := c in
  let drop :=
    let removed :=
      match seqToSubj ms !! seq with
      | Some subj => match schedules ms !! subj with Some _ => true | None => false end
      | None => false
      end in
    ((with_ttls (remove ms seq) (ttls ms), msgs), removed, true) in
  match loadMsg seq with
  | None => drop
  | Some sm =>
      let subj := sm_subj sm in
      if isInflight ms subj then (c, false, false) else
      match prepare sm ts with
      | None => drop
      | Some m => ((markInflight ms subj, msgs ++ [(seq, m)]), false, false)
      end
  end.

Definition seq_le (a b : Z * InMsg) : Prop := a.1 <= b.1.

#[global] Instance seq_le_dec a b : Decision (seq_le a b).
Proof. unfold seq_le. apply _. Defined.

Definition getScheduledMessages (ms : MS) (now : Z) : MS * list (Z * InMsg) :=
  let '(w, (ms, msgs)) := tw_ExpireTasks expire_cb now (ttls ms) (ms, []) in
  (with_ttls ms w, merge_sort seq_le msgs).

(** [memStore.runMsgScheduling]; [handler] says whether [ms.pmsgcb] is set.  The messages are
    returned; what runs while the lock is released is not part of this step. *)
Definition runMsgScheduling (ms : MS) (handler : bool) (now now1 now2 : Z) : MS * list (Z * InMsg) :=
  if negb handler then (resetTimer ms now1 now2, []) else
  let ms := mkScheduling (ttls ms) (timer ms) true (deadline ms) (schedules ms) (seqToSubj ms) (inflight ms) in
  let '(ms, msgs) := getScheduledMessages ms now in
  (resetTimer (mkScheduling (ttls ms) (timer ms) false 0 (schedules ms) (seqToSubj ms) (inflight ms)) now1 now2,
   msgs).
End expire.

(** ** Snapshots *)

Definition encode_schedule (p : string * MsgSchedule) : list Z :=
  let '(subj, sched) := p in
  let slen := Z.min (Z.of_nat (length (bytes_of subj))) 65535 in
  le_put 2 slen ++ take (Z.to_nat slen) (bytes_of subj) ++
  put_varint (sched_ts sched) ++ put_uvarint (sched_seq sched).

(** [map_range] is the order in which Go ranges over [ms.schedules]. *)
Definition encode (map_range : gmap string MsgSchedule -> list (string * MsgSchedule))
    (ms : MS) (highSeq : Z) : list Z :=
  [1] ++ le_put 8 (Z.of_nat (size (schedules ms))) ++ le_put 8 highSeq ++
  (map_range (schedules ms) ≫= encode_schedule).

(** [PanicIndex] is Go's run-time panic on an out-of-range slice. *)
Inductive sched_error : Type :=
| SErrShortBuffer | ErrMsgScheduleInvalidVersion | SErrUnexpectedEOF | PanicIndex.

Fixpoint decode_schedules (n : nat) (b : list Z) (ms : MS) (stamp : Z) : MS * (sched_error + Z) :=
  match n with
  | O => (ms, inr stamp)
  | S n =>
      if (length b <? 2)%nat then (ms, inl PanicIndex) else
      let sl := Z.to_nat (le_get 2 b) in
      let b := drop 2 b in
      if (length b <? sl)%nat then (ms, inl SErrUnexpectedEOF) else
      let subj := string_of (take sl b) in
      let b := drop sl b in
      let '(ts, tn) := varint b in
      if tn <? 0 then (ms, inl SErrUnexpectedEOF) else
      let '(seq, vn) := uvarint (drop (Z.to_nat tn) b) in
      if vn <? 0 then (ms, inl SErrUnexpectedEOF) else
      decode_schedules n (drop (Z.to_nat (tn + vn)) b) (init ms seq subj ts) stamp
  end.

Definition decode (ms : MS) (b : list Z) : MS * (sched_error + Z) :=
  if Z.of_nat (length b) <? 17 then (ms, inl SErrShortBuffer) else
  if negb (default 0 (b !! 0%nat) =? 1) then (ms, inl ErrMsgScheduleInvalidVersion) else
  decode_schedules (Z.to_nat (le_get 8 (drop 1 b))) (drop 17 b) ms (le_get 8 (drop 9 b)).

End ops.
End Sched.
