(* ===== verification/SchedulerProofs.v ===== *)
(** * Message scheduling: invariant and operations

    The laws of the wheel interface, the scheduler's invariant and the effect of every
    operation on the schedules, proved against the laws only. *)

From S2P Require Import Prelude Binary Bytes HashWheelProofs Scheduler.

(** ** What the scheduler relies on

    [tw_tasks] is the set of (sequence, expiration) pairs of a wheel. *)
Class TimerWheelLaws (W : Type) `{TimerWheel W} : Type := {
  tw_ok : W -> Prop;
  tw_tasks : W -> gset (Z * Z);
  tw_new_law : tw_ok tw_New /\ tw_tasks tw_New = ∅;
  tw_add_law w seq ts : tw_ok w -> is_u64 seq -> is_i64 ts ->
    (forall ts', (seq, ts') ∉ tw_tasks w) ->
    tw_ok (tw_Add w seq ts) /\ tw_tasks (tw_Add w seq ts) = {[(seq, ts)]} ∪ tw_tasks w;
  tw_add_ok_law w seq ts : tw_ok w -> is_u64 seq -> is_i64 ts -> tw_ok (tw_Add w seq ts);
  tw_remove_law w seq ts : tw_ok w -> (seq, ts) ∈ tw_tasks w ->
    exists w', tw_Remove w seq ts = Some w' /\ tw_ok w' /\ tw_tasks w' = tw_tasks w ∖ {[(seq, ts)]};
  (** Removal at any time leaves the tasks of the other sequences. *)
  tw_remove_other_law w seq ts w' : tw_ok w -> tw_Remove w seq ts = Some w' ->
    tw_ok w' /\ exists ts', tw_tasks w' = tw_tasks w ∖ {[(seq, ts')]};
  tw_next_law w seq ts : tw_ok w -> (seq, ts) ∈ tw_tasks w ->
    tw_GetNextExpiration w max_int64 <= ts;
  tw_next_task_law w : tw_ok w -> tw_GetNextExpiration w max_int64 <= max_int64;
  tw_expire_law {C : Type} (cb : C -> Z -> Z -> C * bool * bool) now w c : tw_ok w ->
    exists order, NoDup order /\ (forall p, p ∈ order <-> p ∈ tw_tasks w /\ p.2 <= now) /\
      let '(w', c') := tw_ExpireTasks cb now w c in
      exists gone, run_cb cb order c = (c', gone) /\ tw_ok w' /\
        tw_tasks w' = tw_tasks w ∖ list_to_set gone;
}.

Import Sched.

Section inv.
Context {W : Type} `{HW : TimerWheel W} `{HL : !TimerWheelLaws W}.
Notation MS := (MsgScheduling W).

(** The wheel holds exactly the schedules, the index is the inverse of the schedules'
    sequences, and only scheduled subjects are in flight. *)
Record maps_inv (ms : MS) : Prop := {
  inv_index : forall seq subj, seqToSubj ms !! seq = Some subj <->
    exists sched, schedules ms !! subj = Some sched /\ sched_seq sched = seq;
  inv_inflight : forall subj, subj ∈ inflight ms -> is_Some (schedules ms !! subj);
  inv_range : forall subj sched, schedules ms !! subj = Some sched ->
    is_u64 (sched_seq sched) /\ is_i64 (sched_ts sched);
}.

Definition sched_task (ms : MS) (p : Z * Z) : Prop :=
  exists subj, schedules ms !! subj = Some (mkSchedule p.1 p.2).

Record sched_inv (ms : MS) : Prop := {
  inv_maps : maps_inv ms;
  inv_wheel : tw_ok (ttls ms);
  inv_tasks : forall p, p ∈ tw_tasks (ttls ms) <-> sched_task ms p;
}.

Lemma schedule_seq_inj (ms : MS) subj1 subj2 s1 s2 :
  maps_inv ms -> schedules ms !! subj1 = Some s1 -> schedules ms !! subj2 = Some s2 ->
  sched_seq s1 = sched_seq s2 -> subj1 = subj2.
Proof.
  intros Hi H1 H2 Heq. assert (seqToSubj ms !! sched_seq s1 = Some subj1) as E1 by (apply Hi; eauto).
  assert (seqToSubj ms !! sched_seq s2 = Some subj2) as E2 by (apply Hi; eauto). congruence.
Qed.

(** Removing the task of a schedule from the wheel. *)
Lemma ttls_remove_ok (ms : MS) subj sched :
  sched_inv ms -> schedules ms !! subj = Some sched ->
  let w := ttls_remove (ttls ms) (sched_seq sched) (sched_ts sched) in
  tw_ok w /\
  forall p, p ∈ tw_tasks w <-> exists subj', subj' <> subj /\ schedules ms !! subj' = Some (mkSchedule p.1 p.2).
Proof.
  intros [Hm Hok Ht] Hs. destruct sched as [seq ts]. cbn [sched_seq sched_ts].
  destruct (tw_remove_law (ttls ms) seq ts Hok) as (w'&Hr&Hok'&Htk); [apply Ht; by exists subj|].
  unfold ttls_remove. rewrite Hr. cbn. split; [done|]. intros [s e]. rewrite Htk.
  rewrite elem_of_difference, elem_of_singleton, Ht. unfold sched_task. cbn [fst snd]. split.
  - intros [[subj' Hs'] Hne]. exists subj'. split; [|done]. intros ->. apply Hne. congruence.
  - intros (subj'&Hne&Hs'). split; [by exists subj'|]. intros [= -> ->]. apply Hne.
    by eapply (schedule_seq_inj ms).
Qed.

Lemma no_schedule (ms : MS) subj seq :
  maps_inv ms -> (forall subj', seqToSubj ms !! seq = Some subj' -> subj' = subj) ->
  forall subj' sched, subj' <> subj -> schedules ms !! subj' = Some sched -> sched_seq sched <> seq.
Proof. intros Hm Hf subj' sched Hne Hs <-. apply Hne, Hf. apply Hm. eauto. Qed.

(** Scheduling [seq] for [subj] on a wheel that holds the other subjects' tasks. *)
Lemma tw_add_other (ms : MS) subj seq ts w :
  maps_inv ms -> is_u64 seq -> is_i64 ts ->
  (forall subj', seqToSubj ms !! seq = Some subj' -> subj' = subj) -> tw_ok w ->
  (forall p, p ∈ tw_tasks w <->
     exists subj', subj' <> subj /\ schedules ms !! subj' = Some (mkSchedule p.1 p.2)) ->
  tw_ok (tw_Add w seq ts) /\
  forall p, p ∈ tw_tasks (tw_Add w seq ts) <->
    exists subj', <[subj := mkSchedule seq ts]> (schedules ms) !! subj' = Some (mkSchedule p.1 p.2).
Proof.
  intros Hm Hs Hts Hf Hok Ht. destruct (tw_add_law w seq ts Hok Hs Hts) as [Hok' Htk].
  { intros ts' (subj'&Hne&Hsub)%Ht. by eapply (no_schedule ms subj seq) in Hsub. }
  split; [done|]. intros [s e]. rewrite Htk, elem_of_union, elem_of_singleton, Ht. cbn [fst snd]. split.
  - intros [[= -> ->]|(subj'&Hne&Hsub)]; [exists subj; apply lookup_insert_eq|].
    exists subj'. by rewrite lookup_insert_ne.
  - intros [subj' Hsub]. apply lookup_insert_Some in Hsub as [[<- [= <- <-]]|[Hne Hsub]]; [by left|].
    right. by exists subj'.
Qed.

(** The index after [subj] gets the schedule [seq]. *)
Lemma maps_inv_set (ms : MS) subj seq ts w tm rn dl idx :
  maps_inv ms -> is_u64 seq -> is_i64 ts ->
  (forall subj', seqToSubj ms !! seq = Some subj' -> subj' = subj) ->
  idx = match schedules ms !! subj with
        | Some sched => delete (sched_seq sched) (seqToSubj ms)
        | None => seqToSubj ms
        end ->
  maps_inv (mkScheduling w tm rn dl (<[subj := mkSchedule seq ts]> (schedules ms)) (<[seq := subj]> idx)
              (inflight ms ∖ {[subj]})).
Proof.
  intros Hm Hs Hts Hf Hidx. split; cbn.
  - intros seq' subj'. rewrite lookup_insert. case_decide as Hd.
    + subst seq'. split.
      * intros [= <-]. exists (mkSchedule seq ts). by rewrite lookup_insert_eq.
      * intros (sched&Hsc&Heq). destruct (decide (subj = subj')) as [->|Hne]; [done|].
        rewrite lookup_insert_ne in Hsc by done. by eapply (no_schedule ms subj seq) in Hsc.
    + assert (idx !! seq' = Some subj' <->
        exists sched, subj <> subj' /\ schedules ms !! subj' = Some sched /\ sched_seq sched = seq') as ->.
      { rewrite Hidx. destruct (schedules ms !! subj) as [sc|] eqn:E.
        - rewrite lookup_delete_Some, (inv_index _ Hm). split.
          + intros [Hne (sched&Hsc&Heq)]. exists sched. split_and!; [|done|done]. intros ->. congruence.
          + intros (sched&Hne&Hsc&Heq). split; [|by exists sched]. intros Heq'. apply Hne.
            eapply (schedule_seq_inj ms); [done..|congruence].
        - rewrite (inv_index _ Hm). split; [|naive_solver]. intros (sched&Hsc&Heq). exists sched.
          split_and!; [|done|done]. intros ->. congruence. }
      split; intros (sched&H').
      * exists sched. destruct H' as (?&?&?). by rewrite lookup_insert_ne.
      * exists sched. destruct H' as [Hsc Heq]. apply lookup_insert_Some in Hsc as [[-> <-]|[? ?]]; [|done].
        by cbn in Heq.
  - intros subj' [Hin _]%elem_of_difference. apply (inv_inflight _ Hm) in Hin.
    rewrite lookup_insert_is_Some. tauto || (destruct (decide (subj = subj')); tauto).
  - intros subj' sched Hsc. apply lookup_insert_Some in Hsc as [[_ <-]|[_ Hsc]]; [done|].
    by eapply (inv_range _ Hm).
Qed.

(** ** Operations *)

Lemma new_sched_inv : sched_inv newMsgScheduling.
Proof.
  destruct tw_new_law as [Hok Ht]. split; [split; cbn| |].
  - intros seq subj. rewrite lookup_empty. split; [done|]. intros (?&Hs&_). by rewrite lookup_empty in Hs.
  - set_solver.
  - intros subj sched Hs. by rewrite lookup_empty in Hs.
  - done.
  - intros p. cbn. rewrite Ht. split; [set_solver|]. intros [subj Hs]. cbn in Hs. by rewrite lookup_empty in Hs.
Qed.

Lemma init_ok (ms : MS) seq subj ts :
  sched_inv ms -> is_u64 seq -> is_i64 ts ->
  (forall subj', seqToSubj ms !! seq = Some subj' -> subj' = subj) ->
  sched_inv (init ms seq subj ts) /\
  schedules (init ms seq subj ts) = <[subj := mkSchedule seq ts]> (schedules ms) /\
  inflight (init ms seq subj ts) = inflight ms ∖ {[subj]}.
Proof.
  intros Hinv Hs Hts Hf. pose proof (inv_maps _ Hinv) as Hm. unfold init.
  destruct (schedules ms !! subj) as [sched|] eqn:E; (split; [|done]).
  - destruct (ttls_remove_ok ms subj sched Hinv E) as [Hok Ht].
    destruct (tw_add_other ms subj seq ts _ Hm Hs Hts Hf Hok Ht) as [Hok' Ht'].
    split; [|done|exact Ht']. apply maps_inv_set; [done..|]. by rewrite E.
  - destruct (tw_add_other ms subj seq ts (ttls ms) Hm Hs Hts Hf (inv_wheel _ Hinv)) as [Hok' Ht'].
    { intros [s e]. rewrite (inv_tasks _ Hinv). unfold sched_task. cbn. split; [|naive_solver].
      intros [subj' Hs']. exists subj'. split; [|done]. intros ->. congruence. }
    split; [|done|exact Ht']. apply maps_inv_set; [done..|]. by rewrite E.
Qed.

Lemma not_inflight (ms : MS) subj :
  maps_inv ms -> schedules ms !! subj = None -> inflight ms = inflight ms ∖ {[subj]}.
Proof.
  intros Hm E. apply leibniz_equiv. assert (subj ∉ inflight ms); [|set_solver].
  intros Hin. apply (inv_inflight _ Hm) in Hin. rewrite E in Hin. by destruct Hin.
Qed.

Lemma removeSubject_maps (ms : MS) subj :
  maps_inv ms ->
  maps_inv (removeSubject ms subj) /\
  schedules (removeSubject ms subj) = delete subj (schedules ms) /\
  inflight (removeSubject ms subj) = inflight ms ∖ {[subj]}.
Proof.
  intros Hm. unfold removeSubject. destruct (schedules ms !! subj) as [sched|] eqn:E.
  - split; [|done]. split; cbn.
    + intros seq subj'. rewrite lookup_delete_Some, (inv_index _ Hm). split.
      * intros [Hne (sc&Hsc&Heq)]. exists sc. split; [|done]. rewrite lookup_delete_ne; [done|]. congruence.
      * intros (sc&Hsc&Heq). apply lookup_delete_Some in Hsc as [Hne Hsc]. split; [|by exists sc].
        intros Heq'. apply Hne. eapply (schedule_seq_inj ms); [done..|congruence].
    + intros subj' [Hin Hne]%elem_of_difference. rewrite lookup_delete_is_Some.
      split; [set_solver|by apply (inv_inflight _ Hm)].
    + intros subj' sc [_ Hsc]%lookup_delete_Some. by eapply (inv_range _ Hm).
  - split_and!; [done|by rewrite delete_id|by apply not_inflight].
Qed.

Lemma removeSubject_ok (ms : MS) subj :
  sched_inv ms ->
  sched_inv (removeSubject ms subj) /\
  schedules (removeSubject ms subj) = delete subj (schedules ms) /\
  inflight (removeSubject ms subj) = inflight ms ∖ {[subj]}.
Proof.
  intros Hinv. destruct (removeSubject_maps ms subj (inv_maps _ Hinv)) as (Hm&Hs&Hf).
  split; [|done]. unfold removeSubject in *. destruct (schedules ms !! subj) as [sched|] eqn:E; [|done].
  destruct (ttls_remove_ok ms subj sched Hinv E) as [Hok Ht]. split; [done|done|].
  intros [s e]. cbn [ttls]. rewrite Ht. unfold sched_task. cbn. apply exist_proper. intros subj'.
  rewrite lookup_delete_Some. naive_solver.
Qed.

Lemma sched_inv_timer (ms : MS) tm rn dl :
  sched_inv ms -> sched_inv (mkScheduling (ttls ms) tm rn dl (schedules ms) (seqToSubj ms) (inflight ms)).
Proof. intros [[H1 H2 H3] H4 H5]. split; [by split|exact H4|exact H5]. Qed.

Lemma resetTimer_ok (ms : MS) now1 now2 :
  sched_inv ms ->
  sched_inv (resetTimer ms now1 now2) /\ schedules (resetTimer ms now1 now2) = schedules ms /\
  inflight (resetTimer ms now1 now2) = inflight ms.
Proof.
  intros Hinv. unfold resetTimer.
  repeat first [by split_and! | by (split; [by apply sched_inv_timer|]) | case_match].
Qed.

Lemma update_ok (ms : MS) subj ts now1 now2 :
  sched_inv ms -> is_i64 ts ->
  let ms' := update ms subj ts now1 now2 in
  sched_inv ms' /\
  schedules ms' = (match schedules ms !! subj with
                   | Some sched => <[subj := mkSchedule (sched_seq sched) ts]> (schedules ms)
                   | None => schedules ms
                   end) /\
  inflight ms' = inflight ms ∖ {[subj]}.
Proof.
  intros Hinv Hts. pose proof (inv_maps _ Hinv) as Hm. cbn zeta. unfold update.
  destruct (schedules ms !! subj) as [sched|] eqn:E.
  - destruct (ttls_remove_ok ms subj sched Hinv E) as [Hok Ht].
    assert (seqToSubj ms !! sched_seq sched = Some subj) as Hidx by (apply Hm; eauto).
    assert (is_u64 (sched_seq sched)) as Hr by (by eapply (inv_range _ Hm)).
    assert (forall subj', seqToSubj ms !! sched_seq sched = Some subj' -> subj' = subj) as Hf by congruence.
    destruct (tw_add_other ms subj (sched_seq sched) ts _ Hm Hr Hts Hf Hok Ht) as [Hok' Ht'].
    destruct (resetTimer_ok (mkScheduling
      (tw_Add (ttls_remove (ttls ms) (sched_seq sched) (sched_ts sched)) (sched_seq sched) ts)
      (timer ms) (running ms) (deadline ms) (<[subj:=mkSchedule (sched_seq sched) ts]> (schedules ms))
      (seqToSubj ms) (inflight ms ∖ {[subj]})) now1 now2) as (Hi&->&->); [|done].
    split; [|done|exact Ht'].
    pose proof (maps_inv_set ms subj (sched_seq sched) ts
      (tw_Add (ttls_remove (ttls ms) (sched_seq sched) (sched_ts sched)) (sched_seq sched) ts)
      (timer ms) (running ms) (deadline ms) (delete (sched_seq sched) (seqToSubj ms)) Hm) as Hset.
    rewrite E, insert_delete_eq, (insert_id (seqToSubj ms)) in Hset by done.
    by apply Hset.
  - split_and!; [done..|by apply not_inflight].
Qed.

Lemma markInflight_ok (ms : MS) subj :
  maps_inv ms -> maps_inv (markInflight ms subj) /\ schedules (markInflight ms subj) = schedules ms /\
    ttls (markInflight ms subj) = ttls ms /\
    forall s, s ∈ inflight (markInflight ms subj) <->
      s ∈ inflight ms \/ s = subj /\ is_Some (schedules ms !! subj).
Proof.
  intros [H1 H2 H3]. unfold markInflight. destruct (schedules ms !! subj) eqn:E.
  - split_and!; [split; cbn; [done| |done]|done|done|cbn; set_solver].
    intros s [Hs|Hs]%elem_of_union; [by apply H2|]. apply elem_of_singleton in Hs as ->. by rewrite E.
  - split_and!; [done..|]. intros s. split; [by left|]. intros [?|[_ [? ?]]]; [done|]. done.
Qed.

Lemma remove_ok (ms : MS) seq subj ts :
  sched_inv ms -> schedules ms !! subj = Some (mkSchedule seq ts) -> remove ms seq = removeSubject ms subj.
Proof.
  intros Hinv Hs. unfold remove.
  assert (seqToSubj ms !! seq = Some subj) as -> by (apply (inv_maps _ Hinv); eauto). done.
Qed.

(** ** Scheduled messages *)

Section scheduled.
Context {StoreMsg InMsg : Type}.
Context (sm_subj : StoreMsg -> string) (loadMsg : Z -> option StoreMsg)
  (prepare : StoreMsg -> Z -> option InMsg).

Inductive fate_of : Type := Emit (m : InMsg) | Keep | Drop.

(** What becomes of a due task of subject [subj]. *)
Definition fate (ms : MS) (subj : string) (p : Z * Z) : fate_of :=
  match loadMsg p.1 with
  | None => Drop
  | Some sm =>
      if bool_decide (subj ∈ inflight ms) then Keep else
      match prepare sm p.2 with Some m => Emit m | None => Drop end
  end.

(** A stored message is found under the subject of its schedule. *)
Definition load_ok (ms : MS) : Prop :=
  forall subj sched sm, schedules ms !! subj = Some sched ->
    loadMsg (sched_seq sched) = Some sm -> sm_subj sm = subj.

(** One call of the callback on a task of subject [subj]. *)
Lemma expire_cb_step (ms : MS) msgs subj p :
  maps_inv ms -> load_ok ms -> schedules ms !! subj = Some (mkSchedule p.1 p.2) ->
  exists ms1 b, expire_cb sm_subj loadMsg prepare (ms, msgs) p.1 p.2 =
      ((ms1, msgs ++ match fate ms subj p with Emit m => [(p.1, m)] | _ => [] end), b,
       match fate ms subj p with Drop => true | _ => false end) /\
    (b = true -> fate ms subj p = Drop) /\
    maps_inv ms1 /\ ttls ms1 = ttls ms /\
    schedules ms1 = (match fate ms subj p with Drop => delete subj (schedules ms) | _ => schedules ms end) /\
    inflight ms1 = (match fate ms subj p with
                    | Drop => inflight ms ∖ {[subj]}
                    | Emit _ => inflight ms ∪ {[subj]}
                    | Keep => inflight ms
                    end).
Proof.
  intros Hm Hl Hs. unfold expire_cb, fate.
  assert (seqToSubj ms !! p.1 = Some subj) as Hidx by (apply Hm; eauto).
  assert (with_ttls (remove ms p.1) (ttls ms) = with_ttls (removeSubject ms subj) (ttls ms)) as Hrm
    by (unfold remove; by rewrite Hidx).
  destruct (removeSubject_maps ms subj Hm) as ([? ? ?]&Hs1&Hf1).
  assert (maps_inv (with_ttls (removeSubject ms subj) (ttls ms))) as Hm1 by (by split).
  destruct (loadMsg p.1) as [sm|] eqn:El.
  - assert (sm_subj sm = subj) as -> by (by eapply (Hl subj (mkSchedule p.1 p.2))).
    unfold isInflight. case_bool_decide; [do 2 eexists; by rewrite app_nil_r|].
    destruct (prepare sm p.2) as [m|].
    + exists (markInflight ms subj), false. destruct (markInflight_ok ms subj Hm) as (?&?&?&?).
      split_and!; try done. unfold markInflight. by rewrite Hs.
    + exists (with_ttls (removeSubject ms subj) (ttls ms)). eexists. rewrite Hrm, app_nil_r.
      split; [done|]. by split_and!.
  - exists (with_ttls (removeSubject ms subj) (ttls ms)). eexists. rewrite Hrm, app_nil_r.
    split; [done|]. by split_and!.
Qed.

Definition emitted (ms : MS) (subj : string) (p : Z * Z) : option (Z * InMsg) :=
  match fate ms subj p with Emit m => Some (p.1, m) | _ => None end.

Definition dropped (ms : MS) (subj : string) (p : Z * Z) : bool :=
  match fate ms subj p with Drop => true | _ => false end.

(** The calls on the due tasks [l]; [sj] gives the subjects of their sequences. *)
Lemma run_expire (sj : Z -> string) l : forall (ms : MS) msgs,
  maps_inv ms -> load_ok ms -> NoDup ((fun p : Z * Z => sj p.1) <$> l) ->
  (forall p, p ∈ l -> schedules ms !! sj p.1 = Some (mkSchedule p.1 p.2)) ->
  exists ms', run_cb (expire_cb sm_subj loadMsg prepare) l (ms, msgs) =
      ((ms', msgs ++ omap (fun p => emitted ms (sj p.1) p) l),
       List.filter (fun p => dropped ms (sj p.1) p) l) /\
    maps_inv ms' /\ ttls ms' = ttls ms /\
    (forall subj sched, schedules ms' !! subj = Some sched <->
       schedules ms !! subj = Some sched /\ forall p, p ∈ l -> sj p.1 = subj -> dropped ms subj p = false) /\
    (forall subj, subj ∈ inflight ms' <-> is_Some (schedules ms' !! subj) /\
       (subj ∈ inflight ms \/ exists p, p ∈ l /\ sj p.1 = subj /\ is_Some (emitted ms subj p))).
Proof.
  induction l as [|[seq ts] l IH]; intros ms msgs Hm Hl Hnd Hin.
  { exists ms. split_and!; [by rewrite app_nil_r|done|done| |].
    - intros subj sched. split; [|naive_solver]. intros Hs. split; [done|]. by intros ? ?%elem_of_nil.
    - intros subj. split; [intros Hf; split; [by apply Hm|by left]|].
      intros [_ [?|(?&Hp&_)]]; [done|by apply elem_of_nil in Hp]. }
  rewrite fmap_cons, NoDup_cons in Hnd. destruct Hnd as [Hnl Hnd]. cbn [fst] in Hnl.
  assert (schedules ms !! sj seq = Some (mkSchedule seq ts)) as Hs by (apply (Hin (seq, ts)); left).
  assert (forall p, p ∈ l -> sj p.1 <> sj seq) as Hne.
  { intros p Hp Heq. apply Hnl. rewrite <- Heq. by apply (list_elem_of_fmap_2 (fun p : Z * Z => sj p.1)). }
  destruct (expire_cb_step ms msgs (sj seq) (seq, ts) Hm Hl Hs) as (ms1&b&Hcb&Hb&Hm1&Ht1&Hs1&Hf1).
  cbn [fst snd] in Hcb. cbn [run_cb]. rewrite Hcb.
  assert (forall subj, subj <> sj seq -> schedules ms1 !! subj = schedules ms !! subj) as Hso
    by (intros subj ?; rewrite Hs1; destruct (fate ms (sj seq) (seq, ts)); by rewrite ?lookup_delete_ne by done).
  assert (forall subj, subj <> sj seq -> subj ∈ inflight ms1 <-> subj ∈ inflight ms) as Hfo
    by (intros subj ?; rewrite Hf1; destruct (fate ms (sj seq) (seq, ts)); set_solver).
  assert (forall subj p, subj <> sj seq -> fate ms1 subj p = fate ms subj p) as Hfate.
  { intros subj p Hn. unfold fate. destruct (loadMsg p.1); [|done]. by rewrite (bool_decide_ext _ _ (Hfo subj Hn)). }
  assert (load_ok ms1) as Hl1.
  { intros subj sched sm Hsub. apply Hl. rewrite Hs1 in Hsub.
    destruct (fate ms (sj seq) (seq, ts)); [done|done|].
    by apply lookup_delete_Some in Hsub as [_ ?]. }
  destruct (IH ms1 (msgs ++ match fate ms (sj seq) (seq, ts) with Emit m => [(seq, m)] | _ => [] end)
              Hm1 Hl1 Hnd) as (ms'&Hrun&Hm'&Ht'&Hs'&Hf').
  { intros p Hp. rewrite Hso by (by apply Hne). apply Hin. by right. }
  exists ms'. rewrite Hrun.
  rewrite (omap_ext_in _ (fun p => emitted ms (sj p.1) p)) by (intros p Hp; unfold emitted; by rewrite Hfate by (by apply Hne)).
  rewrite (list_filter_ext_in _ (fun p => dropped ms (sj p.1) p)) by (intros p Hp; unfold dropped; by rewrite Hfate by (by apply Hne)).
  split_and!; [|done|congruence| |].
  - cbn [omap list_omap List.filter fst snd].
    assert (emitted ms (sj seq) (seq, ts) =
      match fate ms (sj seq) (seq, ts) with Emit m => Some (seq, m) | _ => None end) as -> by done.
    assert (dropped ms (sj seq) (seq, ts) =
      match fate ms (sj seq) (seq, ts) with Drop => true | _ => false end) as -> by done.
    destruct (fate ms (sj seq) (seq, ts)) eqn:Ef, b; cbn [orb]; rewrite <- ?app_assoc; try done.
    all: by specialize (Hb eq_refl).
  - intros subj sched. rewrite Hs'. destruct (decide (subj = sj seq)) as [->|Hn].
    + rewrite Hs1. unfold dropped at 2. split.
      * intros [Hd _]. destruct (fate ms (sj seq) (seq, ts)) eqn:Ef; [| |by rewrite lookup_delete_eq in Hd].
        all: split; [done|]; intros p [->|Hp]%elem_of_cons Heq; [by rewrite Ef|by apply Hne in Hp].
      * intros [Hd Hall]. specialize (Hall (seq, ts) ltac:(left) eq_refl).
        destruct (fate ms (sj seq) (seq, ts)); try done; (split; [done|]); intros p Hp Heq; by apply Hne in Hp.
    + rewrite Hso by done. apply and_iff_compat_l. unfold dropped. split; intros H' p Hp Heq.
      * apply elem_of_cons in Hp as [->|Hp]; [done|]. rewrite <- Hfate by done. by apply H'.
      * rewrite Hfate by done. apply H'; [by right|done].
  - intros subj. rewrite Hf'.
    assert (is_Some (schedules ms' !! subj) ->
      (subj ∈ inflight ms1 \/ (exists p, p ∈ l /\ sj p.1 = subj /\ is_Some (emitted ms1 subj p))) <->
      (subj ∈ inflight ms \/ exists p, p ∈ (seq, ts) :: l /\ sj p.1 = subj /\ is_Some (emitted ms subj p)));
      [|tauto]. intros [sched [Hsc _]%Hs']. unfold emitted.
    destruct (decide (subj = sj seq)) as [->|Hn].
    + rewrite Hf1. rewrite Hs1 in Hsc. destruct (fate ms (sj seq) (seq, ts)) eqn:Ef;
        [|split; (intros [?|(p&Hp&Heq&Hem)]; [by left|])|by rewrite lookup_delete_eq in Hsc].
      * split; [|set_solver]. intros _. right. exists (seq, ts). split_and!; [left|done|]. by rewrite Ef.
      * by apply Hne in Hp.
      * apply elem_of_cons in Hp as [->|Hp]; [rewrite Ef in Hem; by destruct Hem|by apply Hne in Hp].
    + rewrite Hfo by done. apply or_iff_compat_l. split; intros (p&Hp&Heq&Hem); exists p.
      * rewrite Hfate in Hem by done. split_and!; [by right|done|done].
      * rewrite Hfate by done. apply elem_of_cons in Hp as [->|Hp]; [done|by split_and!].
Qed.
End scheduled.
End inv.
