(* ===== verification/SchedulerSpec.v ===== *)
(** * Message scheduling: properties

    The hash wheel as a [TimerWheel], the states the operations of src/server/scheduler.go
    build, the scheduled messages, snapshots and the timer. *)

From S2P Require Import Prelude Binary Bytes HashWheel HashWheelProofs HashWheelSpec Scheduler SchedulerProofs.

(** ** The hash wheel implements the interface *)

(** One iteration order for Go's maps. *)
Class MapRange : Type := {
  map_range : gmap Z Z -> list (Z * Z);
  map_range_perm : forall m, map_range m ≡ₚ map_to_list m;
}.

#[export] Instance hash_wheel `{MapRange} : TimerWheel Thw.HashWheel := {
  tw_New := Thw.NewHashWheel;
  tw_Add := Thw.Add;
  tw_Remove := Thw.Remove;
  tw_GetNextExpiration := Thw.GetNextExpiration;
  tw_ExpireTasks C cb now w c := Thw.expireTasks map_range cb now w c;
}.

Definition task_set (w : Thw.HashWheel) : gset (Z * Z) := list_to_set (tasks w).

Lemma elem_of_task_set w p : p ∈ task_set w <-> p ∈ tasks w.
Proof. apply elem_of_list_to_set. Qed.

Lemma tasks_NoDup w : hw_inv w -> NoDup (tasks w).
Proof. intros Hw. eapply NoDup_fmap_1, tasks_keys, Hw. Qed.

Lemma task_set_cons w w' p : NoDup (tasks w) -> tasks w ≡ₚ p :: tasks w' -> task_set w' = task_set w ∖ {[p]}.
Proof.
  intros Hnd Ht. rewrite Ht in Hnd. apply NoDup_cons in Hnd as [Hn _]. apply leibniz_equiv. intros q.
  rewrite elem_of_difference, elem_of_singleton, !elem_of_task_set, Ht, elem_of_cons. split; [|tauto].
  intros Hq. split; [by right|]. intros ->. done.
Qed.

Lemma task_set_app w w' gone : NoDup (tasks w) -> tasks w ≡ₚ gone ++ tasks w' ->
  task_set w' = task_set w ∖ list_to_set gone.
Proof.
  intros Hnd Ht. rewrite Ht in Hnd. apply NoDup_app in Hnd as (_&Hd&_). apply leibniz_equiv. intros q.
  rewrite elem_of_difference, !elem_of_task_set, elem_of_list_to_set, Ht, elem_of_app. split; [|tauto].
  intros Hq. split; [by right|]. intros Hg. by apply (Hd q).
Qed.

#[export] Program Instance hash_wheel_laws `{MapRange} : TimerWheelLaws Thw.HashWheel := {
  tw_ok := hw_inv;
  tw_tasks := task_set;
}.
Next Obligation.
  intros ?. split; [apply hw_new_inv|]. unfold task_set, tasks. cbn. by rewrite tasks_replicate.
Qed.
Next Obligation.
  intros ? w seq ts Hw Hs Ht Hn. cbn. destruct (hw_add_ok w seq ts Hw Hs Ht) as (Hi&(rest&H1&H2)&_).
  split; [done|]. unfold old_entry in H1.
  destruct (lookup_task w (Thw.getPosition ts) seq) as [e|] eqn:E; cbn in H1.
  - destruct (Hn e). apply elem_of_task_set. rewrite H1. left.
  - apply leibniz_equiv. intros q.
    by rewrite elem_of_union, elem_of_singleton, !elem_of_task_set, H2, H1, elem_of_cons.
Qed.
Next Obligation. intros ? w seq ts Hw Hs Ht. by apply hw_add_ok. Qed.
Next Obligation.
  intros ? w seq ts Hw Hin%elem_of_task_set. cbn. pose proof (hw_remove_ok w seq ts Hw) as Hr.
  apply elem_of_tasks in Hin; [|done]. destruct (Thw.Remove w seq ts) as [w'|]; [|congruence].
  destruct Hr as (e&He&Hi&Ht&_). assert (e = ts) as -> by congruence.
  exists w'. split_and!; [done|done|]. apply task_set_cons; [by apply tasks_NoDup|done].
Qed.
Next Obligation.
  intros ? w seq ts w' Hw E. cbn in E. pose proof (hw_remove_ok w seq ts Hw) as Hr. rewrite E in Hr.
  destruct Hr as (e&_&Hi&Ht&_). split; [done|]. exists e. apply task_set_cons; [by apply tasks_NoDup|done].
Qed.
Next Obligation.
  intros ? w seq ts Hw Hin%elem_of_task_set. cbn. destruct (tasks_ok w seq ts Hw Hin) as (_&Hts&Hl).
  unfold Thw.GetNextExpiration, is_i64, max_int64 in *. destruct (Z.ltb_spec (Thw.lowest w) (2 ^ 63 - 1)); lia.
Qed.
Next Obligation.
  intros ? w Hw. cbn. unfold Thw.GetNextExpiration. destruct (Z.ltb_spec (Thw.lowest w) max_int64); lia.
Qed.
Next Obligation.
  intros ? C cb now w c Hw. cbn.
  destruct (expireTasks_run map_range map_range_perm cb now w c Hw) as (order&H1&H2&H3).
  pose proof (expireTasks_inv map_range map_range_perm cb now w c Hw) as Hi.
  destruct (Thw.expireTasks map_range cb now w c) as [w' c'] eqn:E. cbn [fst snd] in *.
  exists order. split_and!.
  - rewrite H1. apply NoDup_ListNoDup, List.NoDup_filter, NoDup_ListNoDup. by apply tasks_NoDup.
  - intros p. rewrite H1, list_elem_of_In, filter_In, <- list_elem_of_In, elem_of_task_set.
    unfold due. by rewrite Z.leb_le.
  - exists (run_cb cb order c).2. split_and!; [|done|].
    + rewrite H2. by destruct (run_cb cb order c).
    + apply task_set_app; [by apply tasks_NoDup|done].
Qed.

Import Sched.

Section sched.
Context {W : Type} `{HW : TimerWheel W} `{HL : !TimerWheelLaws W}.
Notation MS := (MsgScheduling W).

Section scheduled.
Context {StoreMsg InMsg : Type}.
Context (sm_subj : StoreMsg -> string) (loadMsg : Z -> option StoreMsg)
  (prepare : StoreMsg -> Z -> option InMsg).

Notation fate := (fate loadMsg prepare).
Notation load_ok := (load_ok sm_subj loadMsg).

(** The subject of a sequence. *)
Definition subject_of (ms : MS) (seq : Z) : string := default ""%string (seqToSubj ms !! seq).

Lemma subject_of_task (ms : MS) seq ts subj :
  maps_inv ms -> schedules ms !! subj = Some (mkSchedule seq ts) -> subject_of ms seq = subj.
Proof.
  intros Hm Hs. unfold subject_of. assert (seqToSubj ms !! seq = Some subj) as -> by (apply Hm; eauto). done.
Qed.

#[local] Instance seq_le_trans : Transitive (seq_le (InMsg := InMsg)).
Proof. intros x y z. unfold seq_le. lia. Qed.

#[local] Instance seq_le_total : Total (seq_le (InMsg := InMsg)).
Proof. intros x y. unfold seq_le. lia. Qed.

(** Sorting the collected messages, whose sequences are distinct. *)
Lemma sort_messages (msgs : list (Z * InMsg)) :
  NoDup msgs.*1 -> StronglySorted (fun a b => a.1 < b.1) (merge_sort (seq_le (InMsg := InMsg)) msgs) /\
    merge_sort seq_le msgs ≡ₚ msgs.
Proof.
  intros Hnd. assert (merge_sort (seq_le (InMsg := InMsg)) msgs ≡ₚ msgs) as Hp by apply merge_sort_Permutation.
  split; [|done]. rewrite <- Hp in Hnd.
  assert (StronglySorted seq_le (merge_sort (seq_le (InMsg := InMsg)) msgs)) as Hs.
  { apply (StronglySorted_merge_sort _). }
  clear Hp. induction Hs as [|a l Hs IH Hall]; [constructor|].
  rewrite fmap_cons, NoDup_cons in Hnd. destruct Hnd as [Hn Hnd]. constructor; [by apply IH|].
  rewrite List.Forall_forall in Hall |- *. intros b Hb. specialize (Hall b Hb). unfold seq_le in Hall.
  assert (a.1 <> b.1); [|lia]. intros Heq. apply Hn. rewrite Heq. apply list_elem_of_fmap_2, list_elem_of_In, Hb.
Qed.

Notation emitted := (emitted loadMsg prepare).
Notation dropped := (dropped loadMsg prepare).

Lemma emitted_seqs (ms : MS) sj (l : list (Z * Z)) :
  NoDup l.*1 -> NoDup (omap (fun p => emitted ms (sj p.1) p) l).*1.
Proof.
  induction l as [|p l IH]; intros Hnd; [by apply NoDup_nil|].
  rewrite fmap_cons, NoDup_cons in Hnd. destruct Hnd as [Hn Hnd]. cbn.
  unfold emitted at 1. destruct (fate ms (sj p.1) p) as [m| |]; [|by apply IH..].
  cbn. apply NoDup_cons. split; [|by apply IH]. intros ([s m']&Hs&Hin)%list_elem_of_fmap. cbn in Hs. subst s.
  apply list_elem_of_omap in Hin as (q&Hq&He). apply Hn. unfold emitted in He.
  destruct (fate ms (sj q.1) q); [|done..]. injection He as Heq _. rewrite <- Heq. by apply list_elem_of_fmap_2.
Qed.

Lemma elem_of_emitted (ms : MS) sj (l : list (Z * Z)) seq m :
  (seq, m) ∈ omap (fun p => emitted ms (sj p.1) p) l <->
  exists ts, (seq, ts) ∈ l /\ fate ms (sj seq) (seq, ts) = Emit m.
Proof.
  rewrite list_elem_of_omap. unfold emitted. split.
  - intros ([s ts]&Hin&He). cbn [fst] in He. destruct (fate ms (sj s) (s, ts)) eqn:Ef; [|done..].
    injection He as -> ->. by exists ts.
  - intros (ts&Hin&He). exists (seq, ts). cbn [fst]. by rewrite He.
Qed.

Lemma getScheduledMessages_ok (ms : MS) now :
  sched_inv ms -> load_ok ms ->
  let '(ms', msgs) := getScheduledMessages sm_subj loadMsg prepare ms now in
  sched_inv ms' /\ StronglySorted (fun a b => a.1 < b.1) msgs /\
  (forall seq m, (seq, m) ∈ msgs <-> exists subj ts,
     schedules ms !! subj = Some (mkSchedule seq ts) /\ ts <= now /\ fate ms subj (seq, ts) = Emit m) /\
  (forall subj sched, schedules ms' !! subj = Some sched <-> schedules ms !! subj = Some sched /\
     ~ (sched_ts sched <= now /\ fate ms subj (sched_seq sched, sched_ts sched) = Drop)) /\
  (forall subj, subj ∈ inflight ms' <-> is_Some (schedules ms' !! subj) /\
     (subj ∈ inflight ms \/ exists seq m ts, (seq, m) ∈ msgs /\ schedules ms !! subj = Some (mkSchedule seq ts))).
Proof.
  intros Hinv Hl. unfold getScheduledMessages. pose proof (inv_maps _ Hinv) as Hm.
  destruct (tw_expire_law (expire_cb sm_subj loadMsg prepare) now (ttls ms) (ms, []) (inv_wheel _ Hinv))
    as (order&Hnd&Hord&Hex).
  destruct (tw_ExpireTasks _ now (ttls ms) (ms, [])) as [w [ms' msgs]]. destruct Hex as (gone&Hrun&Hok&Htk).
  assert (forall p, p ∈ order <-> sched_task ms p /\ p.2 <= now) as Hord' by (intros p; by rewrite Hord, (inv_tasks _ Hinv)).
  assert (forall p, p ∈ order -> schedules ms !! subject_of ms p.1 = Some (mkSchedule p.1 p.2)) as Hin.
  { intros p [[subj Hs] _]%Hord'. by rewrite (subject_of_task ms p.1 p.2 subj). }
  destruct (run_expire sm_subj loadMsg prepare (subject_of ms) order ms [] Hm Hl) as (ms2&Hrun2&Hm2&Ht2&Hs2&Hf2).
  { apply NoDup_fmap_2_strong; [|done]. intros [s1 t1] [s2 t2] H1%Hin H2%Hin Heq. cbn [fst snd] in *. congruence. }
  { done. }
  rewrite Hrun in Hrun2. injection Hrun2 as -> Hmsgs Hgone. cbn [app] in Hmsgs.
  destruct (sort_messages msgs) as [Hsort Hperm].
  { rewrite Hmsgs. apply emitted_seqs, NoDup_fmap_2_strong; [|done].
    intros [s1 t1] [s2 t2] H1%Hin H2%Hin Heq. cbn [fst snd] in *. congruence. }
  assert (forall seq m, (seq, m) ∈ msgs <-> exists subj ts,
    schedules ms !! subj = Some (mkSchedule seq ts) /\ ts <= now /\ fate ms subj (seq, ts) = Emit m) as Hem.
  { intros seq m. rewrite Hmsgs, elem_of_emitted. split.
    - intros (ts&Ho&Hf). exists (subject_of ms seq), ts. split_and!; [by apply (Hin (seq, ts))|by apply Hord' in Ho as [_ ?]|done].
    - intros (subj&ts&Hs&Hts&Hf). exists ts. rewrite (subject_of_task ms seq ts subj) by done.
      split; [|done]. apply Hord'. split; [by exists subj|done]. }
  assert (forall subj sched, schedules ms2 !! subj = Some sched <-> schedules ms !! subj = Some sched /\
    ~ (sched_ts sched <= now /\ fate ms subj (sched_seq sched, sched_ts sched) = Drop)) as Hsch.
  { intros subj [seq ts]. rewrite Hs2. cbn [sched_seq sched_ts]. apply and_iff_compat_l_dep. intros Hs. split.
    - intros Hall [Hts Hd]. specialize (Hall (seq, ts)). unfold dropped in Hall. rewrite Hd in Hall.
      discriminate Hall; [apply Hord'; split; [by exists subj|done]|by apply (subject_of_task ms seq ts)].
    - intros Hn [s t] Ho Heq. pose proof (Hin _ Ho) as Hs'. cbn [fst snd] in *. rewrite Heq in Hs'.
      unfold dropped. destruct (fate ms subj (s, t)) eqn:Ef; [done..|]. destruct Hn.
      apply Hord' in Ho as [_ Ho]. cbn in Ho. assert (s = seq /\ t = ts) as [-> ->] by (split; congruence). done. }
  split_and!; cbn [schedules inflight with_ttls]; [|done|intros; rewrite Hperm; apply Hem|done|].
  - split; [destruct Hm2 as [? ? ?]; by split|done|]. intros [seq ts]. cbn [ttls with_ttls].
    rewrite Htk, elem_of_difference, elem_of_list_to_set, Hgone, list_elem_of_In, filter_In, <- list_elem_of_In,
      (inv_tasks _ Hinv), Hord'. unfold sched_task. cbn [fst snd schedules with_ttls]. split.
    + intros [[subj Hs] Hn]. exists subj. rewrite Hsch. split; [done|]. cbn. intros [Hts Hd]. apply Hn.
      split; [split; [by exists subj|done]|].
      pose proof (subject_of_task ms seq ts subj Hm Hs) as Hsub.  unfold dropped. by rewrite Hsub, Hd.
    + intros [subj [Hs Hn]%Hsch]. split; [by exists subj|]. intros [[_ Hts] Hd]. apply Hn. cbn. split; [done|].
      pose proof (subject_of_task ms seq ts subj Hm Hs) as Hsub.  unfold dropped in Hd.
      rewrite Hsub in Hd. by destruct (fate ms subj (seq, ts)).
  - intros subj. rewrite Hf2. apply and_iff_compat_l_dep. intros _. apply or_iff_compat_l. split.
    + intros ([seq ts]&Ho&Heq&[[s m] He]). exists seq, m, ts. rewrite <- Heq, Hperm. split; [|by apply (Hin (seq, ts))].
      rewrite Hmsgs, elem_of_emitted. exists ts. split; [done|]. cbn [fst] in Heq. rewrite Heq. unfold emitted in He.
      destruct (fate ms subj (seq, ts)); by simplify_eq.
    + intros (seq&m&ts&Hmsg&Hs). rewrite Hperm, Hmsgs, elem_of_emitted in Hmsg. destruct Hmsg as (ts'&Ho&Hf).
      pose proof (subject_of_task ms seq ts subj Hm Hs) as Hsub.  rewrite Hsub in Hf.
      exists (seq, ts'). split_and!; [done|done|]. unfold emitted. by rewrite Hf.
Qed.
End scheduled.

(** ** Snapshots *)

Lemma fold_init (l : list (string * MsgSchedule)) : forall ms : MS, sched_inv ms ->
  NoDup l.*1 -> NoDup (sched_seq <$> l.*2) ->
  (forall subj sched, (subj, sched) ∈ l -> is_u64 (sched_seq sched) /\ is_i64 (sched_ts sched) /\
     schedules ms !! subj = None /\ seqToSubj ms !! sched_seq sched = None) ->
  let ms' := fold_left (fun ms p => init ms (sched_seq p.2) p.1 (sched_ts p.2)) l ms in
  sched_inv ms' /\ schedules ms' = list_to_map l ∪ schedules ms.
Proof.
  induction l as [|[subj [seq ts]] l IH]; intros ms Hinv Hnd Hnd2 Hl; cbn [fold_left fst snd sched_seq sched_ts].
  { split; [done|]. cbn. by rewrite (left_id_L ∅ (∪)). }
  rewrite fmap_cons, NoDup_cons in Hnd. rewrite !fmap_cons, NoDup_cons in Hnd2.
  destruct Hnd as [Hn Hnd], Hnd2 as [Hn2 Hnd2]. cbn [fst snd sched_seq] in *.
  destruct (Hl subj (mkSchedule seq ts)) as (Hs&Hts&Hno&Hidx); [left|]. cbn in Hs, Hts, Hidx.
  destruct (init_ok ms seq subj ts Hinv Hs Hts) as (Hi&Hsch&_); [congruence|].
  destruct (IH (init ms seq subj ts) Hi Hnd Hnd2) as [Hi' Hs'].
  - intros subj' sched Hin. destruct (Hl subj' sched) as (?&?&Hno'&Hidx'); [by right|].
    assert (subj' <> subj) as Hne by (intros ->; apply Hn; by apply (list_elem_of_fmap_2 fst _ (subj, sched))).
    assert (sched_seq sched <> seq) as Hne2.
    { intros <-. apply Hn2. apply list_elem_of_fmap_2. by apply (list_elem_of_fmap_2 snd _ (subj', sched)). }
    split_and!; [done|done|by rewrite Hsch, lookup_insert_ne|].
    destruct (seqToSubj (init ms seq subj ts) !! sched_seq sched) as [subj2|] eqn:E; [|done].
    apply (inv_index _ (inv_maps _ Hi)) in E as (sc&Hsc&Heq). rewrite Hsch in Hsc.
    apply lookup_insert_Some in Hsc as [[_ <-]|[_ Hsc]]; [by cbn in Heq|].
    assert (seqToSubj ms !! sched_seq sched = Some subj2); [|congruence].
    apply (inv_maps _ Hinv). eauto.
  - split; [done|]. rewrite Hs', Hsch. cbn [list_to_map foldr fst snd].
    rewrite <- insert_union_r by (by apply not_elem_of_list_to_map_1).
    by rewrite insert_union_l.
Qed.

Lemma decode_schedules_ok (l : list (string * MsgSchedule)) : forall (ms : MS) stamp,
  (forall subj sched, (subj, sched) ∈ l -> is_u64 (sched_seq sched) /\ is_i64 (sched_ts sched) /\
     Z.of_nat (length (bytes_of subj)) <= 65535) ->
  decode_schedules (length l) (l ≫= encode_schedule) ms stamp =
    (fold_left (fun ms p => init ms (sched_seq p.2) p.1 (sched_ts p.2)) l ms, inr stamp).
Proof.
  induction l as [|[subj sched] l IH]; intros ms stamp Hl; [done|].
  destruct (Hl subj sched) as (Hs&Hts&Hlen); [left|]. rewrite bind_cons. unfold encode_schedule at 1.
  rewrite Z.min_l, Nat2Z.id, firstn_all by lia. rewrite <- !app_assoc.
  cbn [length decode_schedules fold_left fst snd].
  rewrite (proj2 (Nat.ltb_ge _ _)) by (rewrite length_app, length_le_put; lia).
  rewrite le_get_put, Nat2Z.id, drop_app_length' by (rewrite ?length_le_put; lia).
  rewrite (proj2 (Nat.ltb_ge _ _)) by (rewrite length_app; lia).
  rewrite take_app_length, drop_app_length, string_of_bytes_of, varint_put by done.
  rewrite (proj2 (Z.ltb_ge _ _)), Nat2Z.id, drop_app_length, uvarint_put by (done || lia).
  rewrite (proj2 (Z.ltb_ge _ _)), Z2Nat.inj_add, !Nat2Z.id, <- drop_drop, !drop_app_length by lia.
  apply IH. intros subj' sched' Hin. apply Hl. by right.
Qed.

Lemma sched_encode_decode_ok (rng : gmap string MsgSchedule -> list (string * MsgSchedule)) (ms : MS) stamp :
  (forall m, rng m ≡ₚ map_to_list m) -> sched_inv ms -> Z.of_nat (size (schedules ms)) < 2 ^ 64 ->
  (forall subj, is_Some (schedules ms !! subj) -> Z.of_nat (length (bytes_of subj)) <= 65535) -> is_u64 stamp ->
  exists ms', decode newMsgScheduling (encode rng ms stamp) = (ms', inr stamp) /\ sched_inv ms' /\
    schedules ms' = schedules ms.
Proof.
  intros Hrng Hinv Hsz Hlen Hst. set (l := rng (schedules ms)).
  assert (l ≡ₚ map_to_list (schedules ms)) as Hl by apply Hrng.
  assert (forall subj sched, (subj, sched) ∈ l <-> schedules ms !! subj = Some sched) as Hin
    by (intros; rewrite Hl; apply elem_of_map_to_list).
  assert (NoDup l.*1) as Hnd by (rewrite Hl; apply NoDup_fst_map_to_list).
  destruct (fold_init l newMsgScheduling new_sched_inv Hnd) as [Hi Hs].
  - rewrite <- list_fmap_compose. apply NoDup_fmap_2_strong; [|by eapply NoDup_fmap_1].
    intros [s1 [q1 t1]] [s2 [q2 t2]] H1%Hin H2%Hin Heq. cbn in Heq. subst q2.
    assert (s1 = s2) as -> by (by eapply (schedule_seq_inj ms); [apply Hinv|..]). congruence.
  - intros subj sched Hs%Hin. destruct (inv_range _ (inv_maps _ Hinv) _ _ Hs) as [? ?]. by split_and!.
  - exists (fold_left (fun ms p => init ms (sched_seq p.2) p.1 (sched_ts p.2)) l newMsgScheduling).
    split_and!; [|done|].
    + unfold encode, decode. fold l. cbn [app].
      rewrite length_cons, !length_app, !length_le_put. rewrite (proj2 (Z.ltb_ge _ _)) by lia.
      change (default 0 ((1 :: _) !! 0%nat)) with 1. cbn [Z.eqb Pos.eqb negb].
      change (drop 1 (1 :: ?a)) with a. change (drop 9 (1 :: ?a)) with (drop 8 a).
      change (drop 17 (1 :: ?a)) with (drop (8 + 8) a).
      rewrite <- drop_drop, !drop_app_length' by (by rewrite length_le_put).
      rewrite !le_get_put by (unfold is_u64 in Hst; lia).
      assert (size (schedules ms) = length l) as -> by (by rewrite Hl, length_map_to_list).
      rewrite Nat2Z.id. apply decode_schedules_ok. intros subj sched Hs'%Hin.
      destruct (inv_range _ (inv_maps _ Hinv) _ _ Hs') as [? ?]. split_and!; [done..|]. apply Hlen. by eexists.
    + rewrite Hs. cbn. rewrite (right_id_L ∅ (∪)). rewrite <- (list_to_map_to_list (schedules ms)).
      by apply list_to_map_proper.
Qed.

(** ** Reachable states *)

(** The sequence is not scheduled for another subject. *)
Definition fresh_for (ms : MS) (seq : Z) (subj : string) : Prop :=
  forall subj', seqToSubj ms !! seq = Some subj' -> subj' = subj.

Inductive sched_reach : MS -> Prop :=
| sr_new : sched_reach newMsgScheduling
| sr_add ms seq subj ts now1 now2 :
    sched_reach ms -> is_u64 seq -> is_i64 ts -> fresh_for ms seq subj ->
    sched_reach (add ms seq subj ts now1 now2)
| sr_update ms subj ts now1 now2 :
    sched_reach ms -> is_i64 ts -> sched_reach (update ms subj ts now1 now2)
| sr_remove ms seq : sched_reach ms -> sched_reach (remove ms seq)
| sr_removeSubject ms subj : sched_reach ms -> sched_reach (removeSubject ms subj)
| sr_clear ms : sched_reach ms -> sched_reach (clearInflight ms)
| sr_run ms (StoreMsg InMsg : Type) sm_subj (loadMsg : Z -> option StoreMsg)
    (prepare : StoreMsg -> Z -> option InMsg) handler now now1 now2 :
    sched_reach ms -> load_ok sm_subj loadMsg ms ->
    sched_reach (runMsgScheduling sm_subj loadMsg prepare ms handler now now1 now2).1.

Lemma sched_reach_inv ms : sched_reach ms -> sched_inv ms.
Proof.
  induction 1 as [|ms seq subj ts n1 n2 _ IH|ms subj ts n1 n2 _ IH|ms seq _ IH|ms subj _ IH|ms _ IH
                 |ms SM IM sms ld prep [|] now n1 n2 _ IH Hl].
  - apply new_sched_inv.
  - by apply resetTimer_ok, init_ok.
  - by apply update_ok.
  - unfold remove. case_match; [by apply removeSubject_ok|done].
  - by apply removeSubject_ok.
  - destruct IH as [[H1 H2 H3] H4 H5]. split; [split; [exact H1|cbn; set_solver|exact H3]|exact H4|exact H5].
  - unfold runMsgScheduling. cbn [negb].
    pose proof (getScheduledMessages_ok sms ld prep (mkScheduling (ttls ms) (timer ms) true (deadline ms)
      (schedules ms) (seqToSubj ms) (inflight ms)) now (sched_inv_timer _ _ _ _ IH) Hl) as Hg.
    destruct (getScheduledMessages _ _ _ _ _) as [ms' msgs]. destruct Hg as [Hi _].
    cbn [fst]. by apply resetTimer_ok, sched_inv_timer.
  - unfold runMsgScheduling. cbn [negb fst]. by apply resetTimer_ok.
Qed.

(** ** The timer *)

(** A deadline in the past keeps [resetTimer] from doing anything. *)
Lemma resetTimer_stuck (ms : MS) now1 now2 :
  running ms = false -> 0 < deadline ms <= now2 -> 0 <= now1 <= now2 -> now2 < 2 ^ 62 ->
  tw_GetNextExpiration (ttls ms) max_int64 < 2 ^ 62 -> resetTimer ms now1 now2 = ms.
Proof.
  intros Hr Hd Hn Hn2 Hnext. unfold resetTimer. rewrite Hr.
  destruct (Z.eqb_spec (tw_GetNextExpiration (ttls ms) max_int64) max_int64); [unfold max_int64 in *; lia|].
  set (d := if time_until _ now1 <? minFireIn then minFireIn else _).
  assert (250000000 <= d /\ d <= 2 ^ 62) as [? ?].
  { subst d. unfold time_until, minFireIn, max_int64 in *. destruct (Z.ltb_spec (Z.max (-2 ^ 63)
      (Z.min (2 ^ 63 - 1) (tw_GetNextExpiration (ttls ms) (2 ^ 63 - 1) - now1))) 250000000); lia. }
  rewrite i64_small by (unfold is_i64; lia).
  by rewrite (proj2 (Z.ltb_lt 0 _)), (proj2 (Z.ltb_lt (deadline ms) _)) by lia.
Qed.

Lemma next_of_schedule (ms : MS) subj sched :
  sched_inv ms -> schedules ms !! subj = Some sched ->
  tw_GetNextExpiration (ttls ms) max_int64 <= sched_ts sched.
Proof.
  intros Hm Hs. destruct sched as [seq ts]. apply (tw_next_law _ seq ts (inv_wheel _ Hm)).
  apply (inv_tasks _ Hm). by exists subj.
Qed.

Lemma init_timer (ms : MS) seq subj ts :
  running (init ms seq subj ts) = running ms /\ deadline (init ms seq subj ts) = deadline ms /\
  timer (init ms seq subj ts) = timer ms.
Proof. unfold init. by destruct (schedules ms !! subj). Qed.
End sched.

(** ** Properties

    Stated for the scheduler over the hash wheel. *)

Section properties.
Context `{MapRange}.
Notation MS := (MsgScheduling Thw.HashWheel).

(** C9. In every state the operations reach, the wheel holds one task per schedule and no
    other, the index maps exactly the sequences of the schedules to their subjects, only
    scheduled subjects are in flight, and the next expiration of the wheel is not later than
    any schedule. *)
Theorem sched_reach_sound (ms : MS) (Hr : sched_reach ms) :
  (forall seq ts, (seq, ts) ∈ tasks (ttls ms) <-> exists subj, schedules ms !! subj = Some (mkSchedule seq ts)) /\
  (forall seq subj, seqToSubj ms !! seq = Some subj <->
     exists ts, schedules ms !! subj = Some (mkSchedule seq ts)) /\
  (forall subj, subj ∈ inflight ms -> is_Some (schedules ms !! subj)) /\
  (forall subj sched, schedules ms !! subj = Some sched ->
     Thw.GetNextExpiration (ttls ms) max_int64 <= sched_ts sched).
Proof.
  apply sched_reach_inv in Hr. pose proof Hr as [[H1 H2 H3] H4 H5]. split_and!.
  - intros seq ts. rewrite <- elem_of_task_set. apply (H5 (seq, ts)).
  - intros seq subj. rewrite H1. split; [intros ([s t]&Hs&<-); by exists t|intros [ts Hs]; eauto].
  - done.
  - intros subj sched Hs. exact (next_of_schedule ms subj sched Hr Hs).
Qed.

(** C28. One run of [getScheduledMessages]: the messages come out in strictly ascending
    sequence order; a message is emitted exactly for the due schedules that are not in flight
    and whose stored message is valid; the schedules dropped are exactly the due ones whose
    message is gone or, not being in flight, invalid; the subjects in flight afterwards are
    those that were and those just emitted. *)
Theorem sched_messages_exact (ms : MS) (StoreMsg InMsg : Type) (sm_subj : StoreMsg -> string)
    (loadMsg : Z -> option StoreMsg) (prepare : StoreMsg -> Z -> option InMsg) (now : Z)
    (Hr : sched_reach ms) (Hl : load_ok sm_subj loadMsg ms) :
  let '(ms', msgs) := getScheduledMessages sm_subj loadMsg prepare ms now in
  StronglySorted (fun a b => a.1 < b.1) msgs /\
  (forall seq m, (seq, m) ∈ msgs <-> exists subj ts sm,
     schedules ms !! subj = Some (mkSchedule seq ts) /\ ts <= now /\ loadMsg seq = Some sm /\
     subj ∉ inflight ms /\ prepare sm ts = Some m) /\
  (forall subj seq ts, schedules ms' !! subj = Some (mkSchedule seq ts) <->
     schedules ms !! subj = Some (mkSchedule seq ts) /\
     ~ (ts <= now /\ (loadMsg seq = None \/
          exists sm, loadMsg seq = Some sm /\ subj ∉ inflight ms /\ prepare sm ts = None))) /\
  (forall subj, subj ∈ inflight ms' <-> is_Some (schedules ms' !! subj) /\
     (subj ∈ inflight ms \/ exists seq m ts, (seq, m) ∈ msgs /\ schedules ms !! subj = Some (mkSchedule seq ts))).
Proof.
  apply sched_reach_inv in Hr. pose proof (getScheduledMessages_ok sm_subj loadMsg prepare ms now Hr Hl) as Hg.
  destruct (getScheduledMessages _ _ _ _ _) as [ms' msgs]. destruct Hg as (_&H1&H2&H3&H4).
  split_and!; [done| | |done].
  - intros seq m. rewrite H2. unfold fate. cbn [fst snd]. split.
    + intros (subj&ts&Hs&Hts&Hf). exists subj, ts. destruct (loadMsg seq) as [sm|]; [|done]. exists sm.
      case_bool_decide; [done|]. by destruct (prepare sm ts); simplify_eq.
    + intros (subj&ts&sm&Hs&Hts&Hld&Hn&Hp). exists subj, ts. rewrite Hld, bool_decide_false, Hp by done. done.
  - intros subj seq ts. rewrite H3. cbn [sched_seq sched_ts]. apply and_iff_compat_l. apply not_iff_compat.
    apply and_iff_compat_l. unfold fate. cbn [fst snd]. destruct (loadMsg seq) as [sm|]; [|by intuition].
    case_bool_decide; [split; [done|by intros [?|(?&?&?&?)]]|].
    destruct (prepare sm ts) as [m|] eqn:Ep; (split; [try done|]).
    + intros [?|(sm'&[= <-]&_&?)]; congruence.
    + intros _. right. by exists sm.
    + done.
Qed.

(** Decoding the snapshot of a reachable scheduler into a new one restores the schedules
    and the stamp, in every iteration order of the maps, for subjects of at most 65535 bytes. *)
Theorem sched_encode_decode (rng : gmap string MsgSchedule -> list (string * MsgSchedule)) (ms : MS) (stamp : Z)
    (Hr : sched_reach ms) (Hrng : forall m, rng m ≡ₚ map_to_list m)
    (Hsz : Z.of_nat (size (schedules ms)) < 2 ^ 64)
    (Hlen : forall subj, is_Some (schedules ms !! subj) -> Z.of_nat (length (bytes_of subj)) <= 65535)
    (Hst : is_u64 stamp) :
  exists ms' : MS, decode newMsgScheduling (encode rng ms stamp) = (ms', inr stamp) /\
    schedules ms' = schedules ms /\ seqToSubj ms' = seqToSubj ms /\
    (forall p, p ∈ tasks (ttls ms') <-> p ∈ tasks (ttls ms)).
Proof.
  apply sched_reach_inv in Hr.
  destruct (sched_encode_decode_ok rng ms stamp Hrng Hr Hsz Hlen Hst) as (ms'&Hd&Hi&Hs).
  exists ms'. split_and!; [done|done| |].
  - apply map_eq. intros seq. apply option_eq. intros subj.
    by rewrite (inv_index _ (inv_maps _ Hi)), (inv_index _ (inv_maps _ Hr)), Hs.
  - intros p. rewrite <- !elem_of_task_set. rewrite (inv_tasks _ Hi), (inv_tasks _ Hr).
    unfold sched_task. by rewrite Hs.
Qed.

(** [add] on a scheduler that is not running and has no deadline arms the timer: not
    sooner than 250ms, and not later than the new schedule is due or 250ms, whichever is later. *)
Theorem sched_add_arms (ms : MS) (seq : Z) (subj : string) (ts now1 now2 : Z)
    (Hr : sched_reach ms) (Hrun : running ms = false) (Hdl : deadline ms = 0)
    (Hs : is_u64 seq) (Hts : is_i64 ts) (Hmax : ts < max_int64) (Hf : fresh_for ms seq subj)
    (Hnow : 0 <= now1) :
  let ms' := add ms seq subj ts now1 now2 in
  exists d, timer ms' = Some d /\ minFireIn <= d <= Z.max minFireIn (ts - now1) /\
    deadline ms' = i64 (now2 + d).
Proof.
  apply sched_reach_inv in Hr. destruct (init_ok ms seq subj ts Hr Hs Hts Hf) as (Hi&Hsch&_).
  assert (tw_GetNextExpiration (ttls (init ms seq subj ts)) max_int64 <= ts) as Hnext.
  { apply (next_of_schedule _ subj (mkSchedule seq ts) Hi). by rewrite Hsch, lookup_insert_eq. }
  cbn zeta. unfold add, resetTimer. destruct (init_timer ms seq subj ts) as (->&->&_). rewrite Hrun, Hdl.
  set (next := tw_GetNextExpiration _ _) in *. destruct (Z.eqb_spec next max_int64); [lia|]. cbn [Z.ltb Z.compare andb timer deadline].
  eexists. split; [done|]. split; [|done]. unfold time_until, minFireIn, is_i64, max_int64 in *.
  destruct (Z.ltb_spec (Z.max (-2 ^ 63) (Z.min (2 ^ 63 - 1) (next - now1))) 250000000); lia.
Qed.

(** What happens to a scheduler after its deadline [d] while no handler is registered: runs of the
    timer, each with a schedule to look at, and changes of the schedules, with the messages that
    the runs hand over.  The clock is read after [d]; times are below 2^62 nanoseconds, in the
    year 2116. *)
Definition past (d now1 now2 : Z) : Prop := 0 <= now1 <= now2 /\ d <= now2 < 2 ^ 62.

Inductive unattended {StoreMsg InMsg : Type} (sm_subj : StoreMsg -> string) (d : Z) : MS -> list (Z * InMsg) -> MS -> Prop :=
| un_done ms : unattended sm_subj d ms [] ms
| un_run ms out msgs ms1 ms2 (loadMsg : Z -> option StoreMsg) (prepare : StoreMsg -> Z -> option InMsg) subj0 sched0 now now1 now2 :
    past d now1 now2 -> schedules ms !! subj0 = Some sched0 -> sched_ts sched0 < 2 ^ 62 ->
    runMsgScheduling sm_subj loadMsg prepare ms false now now1 now2 = (ms1, msgs) ->
    unattended sm_subj d ms1 out ms2 -> unattended sm_subj d ms (msgs ++ out) ms2
| un_add ms out ms2 seq subj ts now1 now2 :
    past d now1 now2 -> is_u64 seq -> is_i64 ts -> ts < 2 ^ 62 -> fresh_for ms seq subj ->
    unattended sm_subj d (add ms seq subj ts now1 now2) out ms2 -> unattended sm_subj d ms out ms2
| un_update ms out ms2 subj ts now1 now2 :
    past d now1 now2 -> is_i64 ts -> ts < 2 ^ 62 ->
    unattended sm_subj d (update ms subj ts now1 now2) out ms2 -> unattended sm_subj d ms out ms2
| un_remove ms out ms2 seq : unattended sm_subj d (remove ms seq) out ms2 -> unattended sm_subj d ms out ms2
| un_removeSubject ms out ms2 subj : unattended sm_subj d (removeSubject ms subj) out ms2 -> unattended sm_subj d ms out ms2
| un_clear ms out ms2 : unattended sm_subj d (clearInflight ms) out ms2 -> unattended sm_subj d ms out ms2.

(** A state whose timer is not armed again. *)
Definition stuck (d : Z) (tm : option Z) (ms : MS) : Prop :=
  sched_inv ms /\ running ms = false /\ deadline ms = d /\ timer ms = tm.

Lemma stuck_reset d tm (ms : MS) subj sched now1 now2 :
  stuck d tm ms -> 0 < d -> schedules ms !! subj = Some sched -> sched_ts sched < 2 ^ 62 -> past d now1 now2 -> resetTimer ms now1 now2 = ms.
Proof.
  intros (Hi & Hr & Hd & _) H0 Hs Ht [? ?]. pose proof (next_of_schedule ms subj sched Hi Hs). apply resetTimer_stuck; [done|lia..].
Qed.

Lemma stuck_add d tm (ms : MS) seq subj ts now1 now2 :
  stuck d tm ms -> 0 < d -> past d now1 now2 -> is_u64 seq -> is_i64 ts -> ts < 2 ^ 62 -> fresh_for ms seq subj -> stuck d tm (add ms seq subj ts now1 now2).
Proof.
  intros (Hi & Hr & Hd & Ht) H0 Hp Hs Hts Hlt Hf. destruct (init_ok ms seq subj ts Hi Hs Hts Hf) as (Hi' & Hsch & _).
  destruct (init_timer ms seq subj ts) as (E1 & E2 & E3). assert (stuck d tm (init ms seq subj ts)) as Hst by (split_and!; congruence || done).
  unfold add. by rewrite (stuck_reset d tm _ subj (mkSchedule seq ts)) by (done || by rewrite Hsch, lookup_insert_eq).
Qed.

Lemma resetTimer_back (ms : MS) now1 now2 : sched_inv (resetTimer ms now1 now2) -> sched_inv ms.
Proof. unfold resetTimer. repeat case_match; try done; intros [[? ? ?] ? ?]; (split; [split|..]; done). Qed.

Lemma stuck_update d tm (ms : MS) subj ts now1 now2 :
  stuck d tm ms -> 0 < d -> past d now1 now2 -> is_i64 ts -> ts < 2 ^ 62 -> stuck d tm (update ms subj ts now1 now2).
Proof.
  intros (Hi & Hr & Hd & Ht) H0 Hp Hts Hlt.
  destruct (update_ok ms subj ts now1 now2 Hi Hts) as (Hu & _). revert Hu. unfold update. destruct (schedules ms !! subj) as [sc|] eqn:E; [|by intros _; split_and!].
  set (m := mkScheduling _ _ _ _ _ _ _). intros Hu%resetTimer_back. assert (stuck d tm m) as Hst by (by split_and!).
  by rewrite (stuck_reset d tm m subj (mkSchedule (sched_seq sc) ts)) by (done || apply lookup_insert_eq).
Qed.

Lemma stuck_removeSubject d tm (ms : MS) subj : stuck d tm ms -> stuck d tm (removeSubject ms subj).
Proof. intros (Hi & Hr & Hd & Ht). split; [by apply removeSubject_ok|]. unfold removeSubject. by case_match. Qed.

(** C33. When the timer fires before a handler is registered, the schedules are stuck: as long as
    there is none, whatever runs, additions, updates and removals follow, at any times after the
    deadline, no run hands a message over, and nothing arms the timer again, because the deadline
    is left in the past and every new one is later.  The comment in [runMsgScheduling] says it
    will try again later. *)
Theorem sched_timer_stuck (ms ms' : MS) (StoreMsg InMsg : Type) (sm_subj : StoreMsg -> string) (out : list (Z * InMsg))
    (Hr : sched_reach ms) (Hrun : running ms = false) (Hdl : 0 < deadline ms) (Hu : unattended sm_subj (deadline ms) ms out ms') :
  out = [] /\ deadline ms' = deadline ms /\ timer ms' = timer ms.
Proof.
  assert (stuck (deadline ms) (timer ms) ms) as Hst by (split; [by apply sched_reach_inv|done]).
  assert (forall d tm, 0 < d -> stuck d tm ms -> unattended sm_subj d ms out ms' -> out = [] /\ deadline ms' = d /\ timer ms' = tm) as Hall; [|by eapply Hall].
  clear. intros d tm H0 Hst Hu. induction Hu as [ms|ms out msgs ms1 ms2 ld pr s0 sc0 now n1 n2 Hp Hs0 Hlt Hrun _ IH|ms out ms2 seq subj ts n1 n2 Hp Hs Hts Hlt Hf _ IH
    |ms out ms2 subj ts n1 n2 Hp Hts Hlt _ IH|ms out ms2 seq _ IH|ms out ms2 subj _ IH|ms out ms2 _ IH].
  - by destruct Hst as (_ & _ & ? & ?).
  - unfold runMsgScheduling in Hrun. cbn [negb] in Hrun. rewrite (stuck_reset d tm ms s0 sc0) in Hrun by done. injection Hrun as <- <-. by apply IH.
  - apply IH. by apply stuck_add.
  - apply IH. by apply stuck_update.
  - apply IH. unfold remove. case_match; [by apply stuck_removeSubject|done].
  - apply IH. by apply stuck_removeSubject.
  - apply IH. destruct Hst as (Hi & ? & ? & ?). split_and!; [|done..]. destruct Hi as [[? ? ?] ? ?]. split; [split; [done|cbn; set_solver|done]|done|done].
Qed.
End properties.

(** ** Witnesses *)

#[export] Instance go_map_range : MapRange := {| map_range := map_to_list; map_range_perm m := Permutation_refl _ |}.

Definition sample_sched : MsgScheduling Thw.HashWheel :=
  add (add newMsgScheduling 1 "a" 5000000000 0 0) 2 "b" 9000000000 0 0.

Lemma sample_sched_reach : sched_reach sample_sched.
Proof.
  unfold sample_sched. apply sr_add; [apply sr_add; [apply sr_new|done|done|by intros ? ?]|done|done|].
  intros subj' Hs. vm_compute in Hs. discriminate.
Qed.

Lemma sched_reach_sound_witness :
  sched_reach sample_sched /\ Thw.GetNextExpiration (ttls sample_sched) max_int64 <= 9000000000.
Proof.
  split; [apply sample_sched_reach|].
  apply (proj2 (proj2 (proj2 (sched_reach_sound sample_sched sample_sched_reach))) "b"%string (mkSchedule 2 9000000000)).
  vm_compute. reflexivity.
Defined.

Lemma sample_schedules :
  schedules sample_sched = <["b"%string := mkSchedule 2 9000000000]> {["a"%string := mkSchedule 1 5000000000]}.
Proof. vm_compute. reflexivity. Qed.

Definition sample_load (seq : Z) : option string :=
  if seq =? 1 then Some "a"%string else if seq =? 2 then Some "b"%string else None.

Lemma sample_load_ok : load_ok id sample_load sample_sched.
Proof.
  intros subj sched sm. rewrite sample_schedules. intros Hs. unfold id.
  apply lookup_insert_Some in Hs as [[<- <-]|[_ Hs]]; [by intros [= <-]|].
  apply lookup_singleton_Some in Hs as [<- <-]. by intros [= <-].
Qed.

Lemma sched_messages_exact_witness :
  let run := getScheduledMessages id sample_load (fun _ ts => Some ts) sample_sched 6000000000 in
  run.2 = [(1, 5000000000)] /\
  forall seq m, (seq, m) ∈ run.2 <-> exists subj ts sm,
     schedules sample_sched !! subj = Some (mkSchedule seq ts) /\ ts <= 6000000000 /\ sample_load seq = Some sm /\
     subj ∉ inflight sample_sched /\ Some ts = Some m.
Proof.
  pose proof (sched_messages_exact sample_sched string Z id sample_load (fun _ ts => Some ts) 6000000000
    sample_sched_reach sample_load_ok) as Hw.
  cbv zeta. split; [vm_compute; reflexivity|].
  destruct (getScheduledMessages _ _ _ _ _) as [ms' msgs]. exact (proj1 (proj2 Hw)).
Defined.

Lemma sched_encode_decode_witness :
  exists ms' : MsgScheduling Thw.HashWheel,
    decode newMsgScheduling (encode map_to_list sample_sched 9) = (ms', inr 9) /\
    schedules ms' = schedules sample_sched /\ seqToSubj ms' = seqToSubj sample_sched /\
    (forall p, p ∈ tasks (ttls ms') <-> p ∈ tasks (ttls sample_sched)).
Proof.
  apply sched_encode_decode; [apply sample_sched_reach|done|rewrite sample_schedules; vm_compute; reflexivity| |done].
  intros subj. rewrite sample_schedules. intros [sched Hs].
  apply lookup_insert_Some in Hs as [[<- _]|[_ Hs]]; [vm_compute; congruence|].
  apply lookup_singleton_Some in Hs as [<- _]. vm_compute. congruence.
Defined.

Lemma sched_add_arms_witness :
  exists d, timer (add (newMsgScheduling (W := Thw.HashWheel)) 1 "a" 5000000000 1000 2000) = Some d /\
    minFireIn <= d <= Z.max minFireIn (5000000000 - 1000).
Proof.
  destruct (sched_add_arms newMsgScheduling 1 "a" 5000000000 1000 2000 sr_new eq_refl eq_refl
    ltac:(done) ltac:(done) ltac:(done) ltac:(by intros ? ?) ltac:(done)) as (d&Hd&Hr&_).
  exists d. by split.
Defined.

(** A run of the timer, then a new schedule, an update and another run. *)
Lemma sched_timer_stuck_witness :
  exists ms1 msgs1 ms3 msgs3,
    runMsgScheduling id sample_load (fun _ ts => Some ts) sample_sched false 6000000000 6000000000 6000000000 = (ms1, msgs1) /\
    runMsgScheduling id sample_load (fun _ ts => Some ts) (update (add ms1 3 "c" 8000000000 7000000000 7000000000) "a" 7500000000 7100000000 7100000000)
      false 9500000000 9500000000 9500000000 = (ms3, msgs3) /\
    timer sample_sched = Some 5000000000 /\ msgs1 ++ msgs3 ++ [] = [] /\ deadline ms3 = 5000000000 /\ timer ms3 = timer sample_sched.
Proof.
  assert (is_u64 3 /\ is_i64 8000000000 /\ is_i64 7500000000) as (U3 & I8 & I7) by done.
  assert (5000000000 < 2 ^ 62 /\ 8000000000 < 2 ^ 62 /\ 7500000000 < 2 ^ 62) as (L5 & L8 & L7) by done.
  assert (past 5000000000 6000000000 6000000000 /\ past 5000000000 7000000000 7000000000 /\ past 5000000000 7100000000 7100000000 /\
    past 5000000000 9500000000 9500000000) as (P1 & P2 & P3 & P4) by (unfold past; lia).
  destruct (runMsgScheduling id sample_load (fun _ ts => Some ts) sample_sched false 6000000000 6000000000 6000000000) as [ms1 msgs1] eqn:E1.
  destruct (runMsgScheduling id sample_load (fun _ ts => Some ts)
    (update (add ms1 3 "c" 8000000000 7000000000 7000000000) "a" 7500000000 7100000000 7100000000) false 9500000000 9500000000 9500000000) as [ms3 msgs3] eqn:E3.
  exists ms1, msgs1, ms3, msgs3. split; [done|]. split; [done|].
  split; [vm_compute; reflexivity|]. assert (deadline sample_sched = 5000000000) as Hd by (vm_compute; reflexivity). rewrite <- Hd.
  apply (sched_timer_stuck sample_sched ms3 string Z id); [apply sample_sched_reach|reflexivity|rewrite Hd; lia|]. rewrite Hd.
  eapply un_run with (subj0 := "a"%string) (sched0 := mkSchedule 1 5000000000) (now := 6000000000) (now1 := 6000000000) (now2 := 6000000000); [exact P1|rewrite sample_schedules; reflexivity|exact L5|exact E1|].
  eapply un_add with (seq := 3) (subj := "c"%string) (ts := 8000000000) (now1 := 7000000000) (now2 := 7000000000); [exact P2|exact U3|exact I8|exact L8| |].
  { intros subj' Hs. vm_compute in E1. injection E1 as <- <-. vm_compute in Hs. discriminate. }
  eapply un_update with (subj := "a"%string) (ts := 7500000000) (now1 := 7100000000) (now2 := 7100000000); [exact P3|exact I7|exact L7|].
  eapply un_run with (subj0 := "a"%string) (sched0 := mkSchedule 1 7500000000) (now := 9500000000) (now1 := 9500000000) (now2 := 9500000000); [exact P4| |exact L7|exact E3|apply un_done].
  vm_compute in E1. injection E1 as <- <-. vm_compute. reflexivity.
Defined.

(** ** Divergences *)

(** A snapshot cut inside an entry makes [decode] index past the end of the buffer. *)
Lemma decode_truncated_panics :
  (decode (newMsgScheduling (W := Thw.HashWheel)) ([1] ++ le_put 8 1 ++ le_put 8 0)).2 = inl PanicIndex.
Proof. by vm_compute. Qed.
