(* ===== verification/IPQueue.v ===== *)
(** * Intra-process queue (src/server/ipqueue.go)

    A FIFO shared by producers and one consumer: a slice with a read position, a calculated
    size, limits, and a one-slot channel that tells the consumer there is something to pop.
    Slices are values here; the capacity of the backing array, which decides only whether a
    slice is kept for reuse, is the argument [fits] of [popOne] and [recycle]. *)

From S2P Require Import Prelude.

Module Ipq.

Section queue.
Context {T : Type}.

Record ipQueueOpts : Type := mkOpts {
  calc : option (T -> Z);
  msz : Z;
  mlen : Z;
}.

(** [elts] is [None] when the slice is nil; [ch] says whether the channel holds a signal; the
    pool keeps recycled slices. *)
Record ipQueue : Type := mkQueue {
  inprogress : Z;
  ch : bool;
  elts : option (list T);
  pos : nat;
  pool : list (list T);
  sz : Z;
  opts : ipQueueOpts;
}.

Inductive ipq_error : Type := errIPQLenLimitReached | errIPQSizeLimitReached.

Definition newIPQueue (o : ipQueueOpts) : ipQueue := mkQueue 0 false None 0 [] 0 o.

Definition elems (q : ipQueue) : list T := default [] (elts q).

Definition len (q : ipQueue) : Z := Z.of_nat (length (elems q)) - Z.of_nat (pos q).

(** [q.pool.Get()]: a slice of the pool, the one [pick] selects, or a new one. *)
Definition pool_get (pick : option nat) (p : list (list T)) : list T * list (list T) :=
  match pick with
  | None => ([], p)
  | Some i => match p !! i with Some s => (s, take i p ++ drop (S i) p) | None => ([], p) end
  end.

(** The part of [push] under the lock: the result, and whether a signal is to be sent after
    the lock is released. *)
Definition push_locked (q : ipQueue) (e : T) (pick : option nat) : ipQueue * (Z * option ipq_error) * bool :=
  let l := len q in
  if (0 <? mlen (opts q)) && (l =? mlen (opts q)) then (q, (l, Some errIPQLenLimitReached), false) else
  let '(limit, sz') :=
    match calc (opts q) with
    | None => (false, sz q)
    | Some f =>
        let s := f e in
        if (0 <? msz (opts q)) && (msz (opts q) <? u64 (sz q + s)) then (true, sz q)
        else (false, u64 (sz q + s))
    end in
  if limit then (q, (l, Some errIPQSizeLimitReached), false) else
  let '(base, pool') := match elts q with Some s => (s, pool q) | None => pool_get pick (pool q) end in
  (mkQueue (inprogress q) (ch q) (Some (base ++ [e])) (pos q) pool' sz' (opts q), (l + 1, None), l =? 0).

(** [select { case q.ch <- struct{}{}: default: }] *)
Definition signal (q : ipQueue) : ipQueue :=
  mkQueue (inprogress q) true (elts q) (pos q) (pool q) (sz q) (opts q).

Definition push (q : ipQueue) (e : T) (pick : option nat) : ipQueue * (Z * option ipq_error) :=
  let '(q, r, s) := push_locked q e pick in (if s then signal q else q, r).

Definition pop (q : ipQueue) : ipQueue * option (list T) :=
  if len q =? 0 then (q, None) else
  let res := if Nat.eqb (pos q) 0 then elems q else drop (pos q) (elems q) in
  (mkQueue (i64 (inprogress q + Z.of_nat (length res))) (ch q) None 0 (pool q) 0 (opts q), Some res).

(** [fits] is [cap(q.elts) <= q.mrs]. *)
Definition popOne (q : ipQueue) (fits : bool) : ipQueue * option T :=
  let l := len q in
  if l =? 0 then (q, None) else
  match elems q !! pos q with
  | None => (q, None) (* out of range: does not happen when [pos] is at most the length *)
  | Some e =>
      if 0 <? l - 1 then
        let sz' := match calc (opts q) with Some f => u64 (sz q - f e) | None => sz q end in
        (signal (mkQueue (inprogress q) (ch q) (elts q) (S (pos q)) (pool q) sz' (opts q)), Some e)
      else
        (mkQueue (inprogress q) (ch q) (if fits then Some [] else None) 0 (pool q) 0 (opts q), Some e)
  end.

(** [s] is the slice returned by [pop], [None] for nil. *)
Definition recycle (q : ipQueue) (s : option (list T)) (fits : bool) : ipQueue :=
  match s with
  | None => q
  | Some l =>
      let n := if 0 <? Z.of_nat (length l) then i64 (inprogress q - Z.of_nat (length l)) else inprogress q in
      let p := if fits then [] :: pool q else pool q in
      mkQueue n (ch q) (elts q) (pos q) p (sz q) (opts q)
  end.

Definition size (q : ipQueue) : Z := sz q.

Definition drain (q : ipQueue) : ipQueue * Z :=
  (mkQueue (inprogress q) false None 0 (pool q) 0 (opts q), len q).

Definition inProgress (q : ipQueue) : Z := inprogress q.

(** The consumer's receive from [q.ch]. *)
Definition recv (q : ipQueue) : ipQueue :=
  mkQueue (inprogress q) false (elts q) (pos q) (pool q) (sz q) (opts q).

End queue.
Arguments ipQueueOpts : clear implicits.
Arguments ipQueue : clear implicits.
End Ipq.
