(* ===== verification/IPQueueSpec.v ===== *)
(** * Intra-process queue: properties

    The queue is a FIFO with limits, its calculated size is the sum over its elements, and no
    wake-up is lost whatever the interleaving of producers and the consumer. *)

From S2P Require Import Prelude IPQueue.
Import Ipq.

Section spec.
Context {T : Type}.
Notation Q := (ipQueue T).

(** The elements in the queue. *)
Definition contents (q : Q) : list T := drop (pos q) (elems q).

Fixpoint total (f : T -> Z) (l : list T) : Z := match l with [] => 0 | e :: l => f e + total f l end.

Lemma total_app f l1 l2 : total f (l1 ++ l2) = total f l1 + total f l2.
Proof. induction l1 as [|x l1 IH]; cbn; lia. Qed.

(** Calculated sizes are [uint64]. *)
Definition opts_ok (o : ipQueueOpts T) : Prop :=
  match calc o with Some f => forall e, is_u64 (f e) | None => True end.

Record q_inv (q : Q) : Prop := {
  inv_pos : (pos q <= length (elems q))%nat;
  inv_pos_end : pos q = length (elems q) -> pos q = 0%nat;
  inv_pool : Forall (fun s => s = []) (pool q);
  inv_opts : opts_ok (opts q);
  inv_sz : sz q = match calc (opts q) with Some f => u64 (total f (contents q)) | None => 0 end;
  inv_mlen : 0 < mlen (opts q) -> len q <= mlen (opts q);
}.

Lemma len_contents q : q_inv q -> len q = Z.of_nat (length (contents q)).
Proof. intros [H _ _ _ _ _]. unfold len, contents. rewrite length_drop. lia. Qed.

Lemma new_q_inv o : opts_ok o -> q_inv (newIPQueue o).
Proof. intros Ho. split; unfold len; cbn; [lia|done|done|done|by destruct (calc o)|lia]. Qed.

Lemma pool_get_empty pick (p : list (list T)) :
  Forall (fun s => s = []) p -> (pool_get pick p).1 = [] /\ Forall (fun s => s = []) (pool_get pick p).2.
Proof.
  intros Hp. destruct pick as [i|]; [|done]. cbn. destruct (p !! i) as [s|] eqn:E; [|done]. cbn.
  split; [exact (Forall_lookup_1 _ _ _ _ Hp E)|]. apply Forall_app. split; [by apply Forall_take|by apply Forall_drop].
Qed.

(** What [push] answers, as a function of the contents. *)
Definition push_result (o : ipQueueOpts T) (l : list T) (e : T) : option ipq_error :=
  if (0 <? mlen o) && (Z.of_nat (length l) =? mlen o) then Some errIPQLenLimitReached else
  match calc o with
  | Some f => if (0 <? msz o) && (msz o <? u64 (total f l + f e)) then Some errIPQSizeLimitReached else None
  | None => None
  end.

Lemma push_locked_ok q e pick :
  q_inv q ->
  let '(q', (n, err), s) := push_locked q e pick in
  q_inv q' /\ opts q' = opts q /\ ch q' = ch q /\ inprogress q' = inprogress q /\
  err = push_result (opts q) (contents q) e /\
  contents q' = (if err then contents q else contents q ++ [e]) /\
  n = Z.of_nat (length (contents q')) /\ s = (bool_decide (contents q = []) && negb (bool_decide (is_Some err))).
Proof.
  intros Hq. pose proof (len_contents q Hq) as Hlen. pose proof Hq as [H1 H2 H3 H4 H5 H6].
  unfold push_locked, push_result. rewrite Hlen.
  destruct (_ && (_ =? mlen (opts q))) eqn:Elen; [split_and!; try done; by rewrite andb_false_r|].
  assert (forall s', s' = match calc (opts q) with Some f => u64 (sz q + f e) | None => sz q end ->
    s' = match calc (opts q) with Some f => u64 (total f (contents q ++ [e])) | None => 0 end) as Hsz.
  { intros s' ->. rewrite H5. destruct (calc (opts q)) as [f|]; [|done].
    rewrite total_app. cbn. unfold u64. rewrite Zplus_mod_idemp_l. f_equal. lia. }
  assert (forall s', s' = match calc (opts q) with Some f => u64 (sz q + f e) | None => sz q end ->
    let '(q', (n, err), s) :=
      (let '(base, pool') := match elts q with Some s => (s, pool q) | None => pool_get pick (pool q) end in
       (mkQueue (inprogress q) (ch q) (Some (base ++ [e])) (pos q) pool' s' (opts q),
        (Z.of_nat (length (contents q)) + 1, @None ipq_error), Z.of_nat (length (contents q)) =? 0)) in
    q_inv q' /\ opts q' = opts q /\ ch q' = ch q /\ inprogress q' = inprogress q /\
    err = None /\ contents q' = (if err then contents q else contents q ++ [e]) /\
    n = Z.of_nat (length (contents q')) /\ s = (bool_decide (contents q = []) && negb (bool_decide (is_Some err)))) as Hpush.
  { intros s' Hs'%Hsz.
    assert (exists base pool', match elts q with Some s => (s, pool q) | None => pool_get pick (pool q) end = (base, pool')
      /\ base = elems q /\ Forall (fun s => s = []) pool') as (base&pool'&->&->&Hp).
    { unfold elems. destruct (elts q); [by do 2 eexists|]. destruct (pool_get_empty pick (pool q) H3) as [E1 E2].
      exists (pool_get pick (pool q)).1, (pool_get pick (pool q)).2. split_and!; [by destruct (pool_get pick (pool q))|done|done]. }
    assert (drop (pos q) (elems q ++ [e]) = contents q ++ [e]) as Hc by (by rewrite drop_app_le).
    set (q' := mkQueue _ _ _ _ _ _ _). assert (contents q' = contents q ++ [e]) as Hc' by done.
    split_and!; try done; [|by rewrite Hc', length_app; cbn; lia|].
    - split; [..|change (sz q') with s'; rewrite Hs'; change (opts q') with (opts q); by rewrite Hc'|];
        unfold len, elems in *; cbn; rewrite ?length_app; cbn; [lia|lia|done|done|].
      intros Hm. specialize (H6 Hm). rewrite <- Hlen in Elen. unfold len in Elen. go_bool.
      apply andb_false_iff in Elen as [?|?]; go_bool; lia.
    - cbn. rewrite andb_true_r. destruct (contents q); [done|]. cbn [length]. rewrite bool_decide_false by done.
      apply Z.eqb_neq. lia. }
  destruct (calc (opts q)) as [f|] eqn:Ec.
  - replace (u64 (total f (contents q) + f e)) with (u64 (sz q + f e))
      by (rewrite H5; unfold u64; by rewrite Zplus_mod_idemp_l).
    destruct (_ && (msz (opts q) <? _)) eqn:Esz; cbn beta iota; [split_and!; try done; by rewrite andb_false_r|by apply Hpush].
  - by apply Hpush.
Qed.

Lemma empty_inv q pl n c :
  q_inv q -> Forall (fun s => s = []) pl -> forall e, e = None \/ e = Some [] ->
  q_inv (mkQueue n c e 0 pl 0 (opts q)) /\ contents (mkQueue n c e 0 pl 0 (opts q)) = [].
Proof.
  intros [_ _ _ Ho _ _] Hp e He. assert (default [] e = []) as Hd by (by destruct He as [-> | ->]).
  split; [|unfold contents, elems; cbn; by rewrite Hd].
  split; unfold len, contents, elems; cbn; rewrite ?Hd; cbn; [lia|done|done|done|by destruct (calc (opts q))|lia].
Qed.

Lemma pop_ok q :
  q_inv q ->
  let '(q', r) := pop q in
  q_inv q' /\ opts q' = opts q /\ ch q' = ch q /\ contents q' = [] /\
  r = (match contents q with [] => None | l => Some l end) /\
  inprogress q' = (match r with Some l => i64 (inprogress q + Z.of_nat (length l)) | None => inprogress q end).
Proof.
  intros Hq. unfold pop. pose proof (len_contents q Hq) as Hl. destruct (Z.eqb_spec (len q) 0) as [He|He].
  - assert (contents q = []) as -> by (apply length_zero_iff_nil; lia). by split_and!.
  - assert ((if Nat.eqb (pos q) 0 then elems q else drop (pos q) (elems q)) = contents q) as ->
      by (unfold contents; destruct (Nat.eqb_spec (pos q) 0) as [->|]; done).
    destruct (empty_inv q (pool q) (i64 (inprogress q + Z.of_nat (length (contents q)))) (ch q) Hq (inv_pool _ Hq) None)
      as [Hi Hc]; [by left|].
    destruct (contents q) as [|x l]; [cbn in Hl; lia|]. by split_and!.
Qed.

Lemma popOne_ok q fits :
  q_inv q ->
  let '(q', r) := popOne q fits in
  q_inv q' /\ opts q' = opts q /\ inprogress q' = inprogress q /\
  r = head (contents q) /\ contents q' = tail (contents q) /\
  ch q' = (if contents q' then ch q else true).
Proof.
  intros Hq. unfold popOne. pose proof (len_contents q Hq) as Hl. pose proof Hq as [H1 H2 H3 H4 H5 H6].
  destruct (Z.eqb_spec (len q) 0) as [He|He].
  { assert (contents q = []) as E by (apply length_zero_iff_nil; lia). rewrite !E. by split_and!. }
  assert (exists e l, contents q = e :: l) as (e&l&Hc).
  { destruct (contents q) as [|e l]; [cbn in Hl; lia|by do 2 eexists]. }
  assert (elems q !! pos q = Some e) as ->.
  { rewrite <- (Nat.add_0_r (pos q)), <- lookup_drop. fold (contents q). by rewrite Hc. }
  assert (drop (S (pos q)) (elems q) = l) as Hdrop.
  { rewrite <- Nat.add_1_r, <- drop_drop. fold (contents q). by rewrite Hc. }
  rewrite Hc in Hl |- *. cbn [length] in Hl. cbn [head tail].
  assert (Z.of_nat (length (drop (S (pos q)) (elems q))) = Z.of_nat (length l)) as Hlen by (by rewrite Hdrop).
  rewrite length_drop in Hlen. unfold len in Hl.
  destruct (Z.ltb_spec 0 (len q - 1)) as [Hlt|Hge]; unfold len in *.
  - set (q2 := signal _). assert (contents q2 = l) as Hc2 by exact Hdrop.
    split_and!; try done; [|rewrite Hc2; by destruct l; cbn in *; [lia|]].
    split; try done; unfold len; change (elems q2) with (elems q); change (pos q2) with (S (pos q));
      change (opts q2) with (opts q); [lia|lia| |lia].
    rewrite Hc2. change (sz q2) with
      (match calc (opts q) with Some f => u64 (sz q - f e) | None => sz q end).
    rewrite H5, Hc. destruct (calc (opts q)) as [f|]; [|done].
    unfold u64. rewrite Zminus_mod_idemp_l. cbn [total]. f_equal. lia.
  - assert (l = []) as -> by (apply length_zero_iff_nil; lia).
    destruct (empty_inv q (pool q) (inprogress q) (ch q) Hq H3 (if fits then Some [] else None)) as [Hi Hc'];
      [destruct fits; auto|]. split_and!; try done. by rewrite Hc'.
Qed.

Lemma recycle_ok q s fits :
  q_inv q -> q_inv (recycle q s fits) /\ contents (recycle q s fits) = contents q /\
    opts (recycle q s fits) = opts q /\ ch (recycle q s fits) = ch q.
Proof.
  intros Hq. destruct s as [l|]; [|done]. pose proof Hq as [H1 H2 H3 H4 H5 H6].
  split_and!; try done. split; try done. cbn. destruct fits; [by constructor|done].
Qed.

Lemma drain_ok q :
  q_inv q -> q_inv (drain q).1 /\ contents (drain q).1 = [] /\ opts (drain q).1 = opts q /\
    (drain q).2 = Z.of_nat (length (contents q)).
Proof.
  intros Hq. destruct (empty_inv q (pool q) (inprogress q) false Hq (inv_pool _ Hq) None) as [Hi Hc]; [by left|].
  unfold drain. cbn [fst snd]. split_and!; [done|done|done|by apply len_contents].
Qed.

Lemma signal_ok q : q_inv q -> q_inv (signal q) /\ contents (signal q) = contents q /\ q_inv (recv q).
Proof. intros [H1 H2 H3 H4 H5 H6]. split_and!; [by split|done|by split]. Qed.

(** ** FIFO *)

Inductive ipq_op : Type :=
| OPush (e : T) (pick : option nat) | OPop | OPopOne (fits : bool) | ODrain
| ORecycle (s : option (list T)) (fits : bool).

Inductive ipq_res : Type :=
| RPush (n : Z) (err : option ipq_error) | RPop (l : option (list T)) | ROne (e : option T) | RDrain (n : Z) | RNone.

Definition run_op (q : Q) (o : ipq_op) : Q * ipq_res :=
  match o with
  | OPush e pick => let '(q, (n, err)) := push q e pick in (q, RPush n err)
  | OPop => let '(q, r) := pop q in (q, RPop r)
  | OPopOne fits => let '(q, r) := popOne q fits in (q, ROne r)
  | ODrain => let '(q, n) := drain q in (q, RDrain n)
  | ORecycle s fits => (recycle q s fits, RNone)
  end.

(** The same operations on a list. *)
Definition fifo_op (o : ipQueueOpts T) (l : list T) (op : ipq_op) : list T * ipq_res :=
  match op with
  | OPush e _ =>
      match push_result o l e with
      | None => (l ++ [e], RPush (Z.of_nat (length l) + 1) None)
      | Some err => (l, RPush (Z.of_nat (length l)) (Some err))
      end
  | OPop => ([], RPop (match l with [] => None | l => Some l end))
  | OPopOne _ => (tail l, ROne (head l))
  | ODrain => ([], RDrain (Z.of_nat (length l)))
  | ORecycle _ _ => (l, RNone)
  end.

Fixpoint run_ops {S} (f : S -> ipq_op -> S * ipq_res) (s : S) (ops : list ipq_op) : S * list ipq_res :=
  match ops with
  | [] => (s, [])
  | o :: ops => let '(s, r) := f s o in let '(s, rs) := run_ops f s ops in (s, r :: rs)
  end.

Lemma run_op_fifo q o :
  q_inv q ->
  let '(q', r) := run_op q o in
  q_inv q' /\ opts q' = opts q /\ fifo_op (opts q) (contents q) o = (contents q', r).
Proof.
  intros Hq. destruct o as [e pick| |fits| |s fits]; cbn [run_op fifo_op].
  - unfold push. pose proof (push_locked_ok q e pick Hq) as H.
    destruct (push_locked q e pick) as [[q1 [n err]] s]. destruct H as (Hi&Ho&_&_&He&Hc&Hn&_).
    destruct (signal_ok q1 Hi) as (Hs1&Hs2&_).
    assert (fifo_op (opts q) (contents q) (OPush e pick) = (contents q1, RPush n err)) as Hf.
    { cbn. rewrite <- He, Hn, Hc. destruct err; [done|]. rewrite length_app. cbn. do 2 f_equal. lia. }
    cbn [fifo_op] in Hf. rewrite Hf. by destruct s.
  - pose proof (pop_ok q Hq) as H. destruct (pop q) as [q' r]. destruct H as (?&?&_&Hc&Hr&_). rewrite Hc, Hr. split_and!; [done|done|]. by destruct (contents q).
  - pose proof (popOne_ok q fits Hq) as H. destruct (popOne q fits) as [q' r]. destruct H as (?&?&_&Hr&Hc&_). by rewrite Hc, Hr.
  - destruct (drain_ok q Hq) as (?&Hc&?&Hn). destruct (drain q) as [q' n]. cbn in *. by rewrite Hc, Hn.
  - destruct (recycle_ok q s fits Hq) as (?&Hc&?&?). by rewrite Hc.
Qed.

Lemma run_ops_fifo ops : forall q, q_inv q ->
  let '(q', rs) := run_ops run_op q ops in
  q_inv q' /\ opts q' = opts q /\ run_ops (fifo_op (opts q)) (contents q) ops = (contents q', rs).
Proof.
  induction ops as [|o ops IH]; intros q Hq; cbn [run_ops]; [done|].
  pose proof (run_op_fifo q o Hq) as H. destruct (run_op q o) as [q1 r]. destruct H as (Hq1&Ho&->).
  specialize (IH q1 Hq1). destruct (run_ops run_op q1 ops) as [q2 rs]. destruct IH as (Hq2&Ho2&Hr).
  rewrite Ho in Hr. rewrite Hr. split_and!; [done|congruence|done].
Qed.

(** ** Producers and one consumer

    A producer appends under the lock and, when it found the queue empty, signals after
    releasing it; [pending] producers are in between.  The consumer waits on the channel and,
    once notified, calls [pop] or [popOne].  [drain] and [recycle] may come from anywhere. *)

Inductive consumer_state : Type := Waiting | Notified.

Record sys : Type := mkSys { queue : Q; pending : nat; consumer : consumer_state }.

Inductive sys_step : sys -> sys -> Prop :=
| step_push q n c e pick q' r s :
    push_locked q e pick = (q', r, s) -> sys_step (mkSys q n c) (mkSys q' (if s : bool then S n else n) c)
| step_send q n c : sys_step (mkSys q (S n) c) (mkSys (signal q) n c)
| step_recv q n : ch q = true -> sys_step (mkSys q n Waiting) (mkSys (recv q) n Notified)
| step_pop q n : sys_step (mkSys q n Notified) (mkSys (pop q).1 n Waiting)
| step_popOne q n fits : sys_step (mkSys q n Notified) (mkSys (popOne q fits).1 n Waiting)
| step_drain q n c : sys_step (mkSys q n c) (mkSys (drain q).1 n c)
| step_recycle q n c s fits : sys_step (mkSys q n c) (mkSys (recycle q s fits) n c).

Inductive sys_reach (o : ipQueueOpts T) : sys -> Prop :=
| sys_init : sys_reach o (mkSys (newIPQueue o) 0 Waiting)
| sys_next s s' : sys_reach o s -> sys_step s s' -> sys_reach o s'.

(** A non-empty queue has a wake-up on its way. *)
Definition awake (s : sys) : Prop :=
  contents (queue s) <> [] -> ch (queue s) = true \/ (0 < pending s)%nat \/ consumer s = Notified.

Lemma sys_step_inv s s' : q_inv (queue s) -> awake s -> sys_step s s' -> q_inv (queue s') /\ awake s'.
Proof.
  intros Hq Ha Hstep. destruct Hstep as [q n c e pick q' r s Hp|q n c|q n Hch|q n|q n fits|q n c|q n c s fits];
    unfold awake in *; cbn [queue pending consumer] in *.
  - pose proof (push_locked_ok q e pick Hq) as H. rewrite Hp in H. destruct r as [k err].
    destruct H as (Hi&_&Hch&_&_&Hc&_&Hs). split; [done|]. rewrite Hch, Hc, Hs.
    destruct err; [by rewrite andb_false_r|]. rewrite andb_true_r. intros _. case_bool_decide; [right; left; lia|auto].
  - destruct (signal_ok q Hq) as (?&?&_). split; [done|]. by left.
  - destruct (signal_ok q Hq) as (_&_&?). split; [done|]. by auto.
  - pose proof (pop_ok q Hq) as H. destruct (pop q) as [q' r]. cbn. destruct H as (?&_&_&Hc&_). by rewrite Hc.
  - pose proof (popOne_ok q fits Hq) as H. destruct (popOne q fits) as [q' r]. cbn.
    destruct H as (?&_&_&_&_&Hch). split; [done|]. intros Hne. left. rewrite Hch. by destruct (contents q').
  - destruct (drain_ok q Hq) as (?&Hc&_). by rewrite Hc.
  - destruct (recycle_ok q s fits Hq) as (?&Hc&_&Hch). by rewrite Hc, Hch.
Qed.

Lemma sys_reach_inv o s : opts_ok o -> sys_reach o s -> q_inv (queue s) /\ awake s.
Proof.
  intros Ho. induction 1 as [|s s' _ [IH1 IH2] Hstep]; [|by eapply sys_step_inv].
  split; [by apply new_q_inv|by intros ?].
Qed.
End spec.
Arguments ipq_op : clear implicits.
Arguments sys : clear implicits.

(** ** Properties *)

(** C11. The queue is a bounded FIFO: any sequence of [push], [pop], [popOne], [drain] and
    [recycle] answers what the operations on a list answer, errors included; the queue ends
    with the list's elements, [len] is their number, [size] their calculated size modulo 2^64,
    and the length limit holds. *)
Theorem ipq_fifo {T : Type} (o : ipQueueOpts T) (ops : list (ipq_op T)) (Ho : opts_ok o) :
  let '(q, rs) := run_ops run_op (newIPQueue o) ops in
  let '(l, rs') := run_ops (fifo_op o) [] ops in
  rs = rs' /\ contents q = l /\ len q = Z.of_nat (length l) /\
  size q = (match calc o with Some f => u64 (total f l) | None => 0 end) /\
  (0 < mlen o -> Z.of_nat (length l) <= mlen o).
Proof.
  pose proof (run_ops_fifo ops (newIPQueue o) (new_q_inv o Ho)) as H.
  destruct (run_ops run_op (newIPQueue o) ops) as [q rs]. destruct H as (Hq&Hopt&Hr).
  change (contents (newIPQueue o)) with (@nil T) in Hr. cbn [opts newIPQueue] in Hr, Hopt. rewrite Hr.
  pose proof (len_contents q Hq) as Hl. split_and!; [done|done|done| |].
  - unfold size. by rewrite (inv_sz _ Hq), Hopt.
  - intros Hm. pose proof (inv_mlen _ Hq) as Hle. rewrite Hopt in Hle. lia.
Qed.

Lemma ipq_fifo_witness :
  let o := mkOpts None 0 2 in
  let ops := [OPush 4 None; OPush 7 None; OPush 5 None; OPush 1 None; OPopOne true; OPop; OPopOne false] in
  opts_ok (T := Z) o /\
  (run_ops run_op (newIPQueue o) ops).2 =
    [RPush 1 None; RPush 2 None; RPush 2 (Some errIPQLenLimitReached); RPush 2 (Some errIPQLenLimitReached);
     ROne (Some 4); RPop (Some [7]); ROne None] /\
  len (run_ops run_op (newIPQueue o) ops).1 = 0.
Proof.
  intros o ops. split; [done|]. pose proof (ipq_fifo o ops I) as H.
  assert (run_ops (fifo_op o) [] ops =
    ([], [RPush 1 None; RPush 2 None; RPush 2 (Some errIPQLenLimitReached); RPush 2 (Some errIPQLenLimitReached);
     ROne (Some 4); RPop (Some [7]); ROne None])) as E by (vm_compute; reflexivity).
  rewrite E in H. destruct (run_ops run_op _ ops) as [q rs]. destruct H as (->&_&Hl&_). cbn [fst snd]. by rewrite Hl.
Defined.

(** A notified consumer, or one that the channel holds a signal for, is a receive away from the
    elements. *)
Lemma notified_pops {T : Type} (q : ipQueue T) : q_inv q -> contents q <> [] -> (pop q).2 = Some (contents q).
Proof.
  intros Hq Hne. pose proof (pop_ok q Hq) as H. destruct (pop q) as [q' r]. destruct H as (_&_&_&_&->&_). by destruct (contents q).
Qed.

(** C30. No lost wake-up: in every reachable interleaving of producers, the consumer, [drain]
    and [recycle], when the queue is not empty then its consumer was notified and has only to
    call [pop], or it waits and at most one pending signal and one receive notify it; its [pop]
    then returns all the elements of the queue. *)
Theorem ipq_no_lost_wakeup {T : Type} (o : ipQueueOpts T) (s : sys T)
    (Ho : opts_ok o) (Hr : sys_reach o s) (Hne : contents (queue s) <> []) :
  exists s1 s2, (s1 = s \/ sys_step s s1) /\ (if consumer s then sys_step s1 s2 else s1 = s /\ s2 = s) /\
    consumer s2 = Notified /\ contents (queue s2) = contents (queue s) /\ (pop (queue s2)).2 = Some (contents (queue s)).
Proof.
  destruct (sys_reach_inv o s Ho Hr) as [Hq Ha]. destruct s as [q n [|]]; cbn in *.
  2: { exists (mkSys q n Notified), (mkSys q n Notified). split_and!; [by left|done..|by apply notified_pops]. }
  assert (exists s1, (s1 = mkSys q n Waiting \/ sys_step (mkSys q n Waiting) s1) /\ ch (queue s1) = true /\
    contents (queue s1) = contents q /\ consumer s1 = Waiting /\ q_inv (queue s1)) as (s1&Hs1&Hch&Hc&Hw&Hq1).
  { destruct (ch q) eqn:Ech; [exists (mkSys q n Waiting); split_and!; [by left|done..]|].
    unfold awake in Ha. cbn in Ha. rewrite Ech in Ha.
    destruct (Ha Hne) as [?|[Hn|?]]; [done| |done]. destruct n as [|n]; [lia|].
    exists (mkSys (signal q) n Waiting). destruct (signal_ok q Hq) as (?&?&_). split_and!; [right; apply step_send|done..]. }
  destruct s1 as [q1 n1 c1]. cbn in *. subst c1. destruct (signal_ok q1 Hq1) as (_&_&Hq2).
  exists (mkSys q1 n1 Waiting), (mkSys (recv q1) n1 Notified).
  split_and!; [done|by apply step_recv|done|done|]. cbn [queue]. rewrite <- Hc. apply (notified_pops (recv q1)); [done|by rewrite <- Hc in Hne].
Qed.

Lemma ipq_no_lost_wakeup_witness :
  exists (s : sys Z) s1 s2, sys_reach (mkOpts None 0 0) s /\ (s1 = s \/ sys_step s s1) /\ sys_step s1 s2 /\
    consumer s2 = Notified /\ (pop (queue s2)).2 = Some [42].
Proof.
  set (o := mkOpts (@None (Z -> Z)) 0 0).
  assert (sys_reach o (mkSys (push_locked (newIPQueue o) 42 None).1.1 1 Waiting)) as Hr.
  { eapply sys_next; [apply sys_init|]. exact (step_push (newIPQueue o) 0 Waiting 42 None _ _ _ eq_refl). }
  destruct (ipq_no_lost_wakeup o _ I Hr ltac:(done)) as (s1&s2&H1&H2&H3&_&H5).
  eexists _, s1, s2. by split_and!.
Defined.
