(* ===== verification/Subject.v ===== *)
(** * Subjects (src/server/sublist.go)

    Subjects are strings of tokens separated by dots; [*] stands for one token and a final [>]
    for one or more.  This file has the tokenisers, the validity checks, literal and subset
    matching, and collision of the server, and the meaning of a pattern: the token sequences
    it matches. *)

From S2P Require Import Prelude.
From Stdlib Require Import Ascii.

Module Subj.

Definition pwc : ascii := "*"%char.
Definition fwc : ascii := ">"%char.
Definition btsep : ascii := "."%char.
Definition pwcs : string := "*".
Definition fwcs : string := ">".

(** ** Tokens *)

(** The loop of [tokenizeSubjectIntoSlice]; [cur] is [subject[start:i]]. *)
Fixpoint tokenize_loop (tts : list string) (cur : string) (s : string) : list string :=
  match s with
  | EmptyString => tts ++ [cur]
  | String c s =>
      if Ascii.eqb c btsep then tokenize_loop (tts ++ [cur]) "" s
      else tokenize_loop tts (cur +:+ String c "") s
  end.

Definition tokenizeSubjectIntoSlice (tts : list string) (subject : string) : list string :=
  tokenize_loop tts "" subject.

(** [strings.SplitSeq(subject, ".")]. *)
Definition split (subject : string) : list string := tokenizeSubjectIntoSlice [] subject.

(** The tokens of a published subject in [match] and [hasInterest]: [None] when one is empty. *)
Fixpoint match_tokens_loop (tokens : list string) (cur : string) (s : string) : option (list string) :=
  match s with
  | EmptyString => if String.eqb cur "" then None else Some (tokens ++ [cur])
  | String c s =>
      if Ascii.eqb c btsep then
        if String.eqb cur "" then None else match_tokens_loop (tokens ++ [cur]) "" s
      else match_tokens_loop tokens (cur +:+ String c "") s
  end.

Definition match_tokens (subject : string) : option (list string) := match_tokens_loop [] "" subject.

Fixpoint count_sep (s : string) : nat :=
  match s with
  | EmptyString => 0
  | String c s => if Ascii.eqb c btsep then S (count_sep s) else count_sep s
  end.

Definition numTokens (subject : string) : nat :=
  match subject with EmptyString => 0 | _ => S (count_sep subject) end.

(** [ti] is a [uint8]. *)
Fixpoint tokenAt_loop (index ti : Z) (cur : string) (s : string) : string :=
  match s with
  | EmptyString => if ti =? index then cur else ""
  | String c s =>
      if Ascii.eqb c btsep then
        if ti =? index then cur else tokenAt_loop index (u8 (ti + 1)) "" s
      else tokenAt_loop index ti (cur +:+ String c "") s
  end.

Definition tokenAt (subject : string) (index : Z) : string := tokenAt_loop index 1 "" subject.

(** ** Wildcards and validity *)

Definition is_wc (c : ascii) : bool := Ascii.eqb c pwc || Ascii.eqb c fwc.

(** The loop of [subjectHasWildcard]; [prev] is the previous byte, [None] at the start. *)
Fixpoint has_wc_loop (prev : option ascii) (s : string) : bool :=
  match s with
  | EmptyString => false
  | String c s =>
      if is_wc c &&
         (match prev with None => true | Some p => Ascii.eqb p btsep end) &&
         (match s with EmptyString => true | String d _ => Ascii.eqb d btsep end)
      then true
      else has_wc_loop (Some c) s
  end.

Definition subjectHasWildcard (subject : string) : bool := has_wc_loop None subject.
Definition subjectIsLiteral (subject : string) : bool := negb (has_wc_loop None subject).

Definition is_space (c : ascii) : bool :=
  existsb (Ascii.eqb c) ["009"; "010"; "012"; "013"; " "]%char.

Fixpoint contains_space (s : string) : bool :=
  match s with EmptyString => false | String c s => is_space c || contains_space s end.

(** The token loop of [isValidSubject]. *)
Fixpoint valid_tokens (sfwc : bool) (toks : list string) : bool :=
  match toks with
  | [] => true
  | t :: toks =>
      match t with
      | EmptyString => false
      | String c EmptyString =>
          if sfwc then false else
          if Ascii.eqb c fwc then valid_tokens true toks
          else if is_space c then false else valid_tokens sfwc toks
      | _ => if sfwc then false else if contains_space t then false else valid_tokens sfwc toks
      end
  end.

(** [isValidSubject(subject, false)]. *)
Definition IsValidSubject (subject : string) : bool :=
  if String.eqb subject "" then false else valid_tokens false (split subject).

Definition IsValidPublishSubject (subject : string) : bool :=
  IsValidSubject subject && subjectIsLiteral subject.

Fixpoint isValidLiteralSubject (toks : list string) : bool :=
  match toks with
  | [] => true
  | EmptyString :: _ => false
  | String c EmptyString :: toks => if is_wc c then false else isValidLiteralSubject toks
  | _ :: toks => isValidLiteralSubject toks
  end.

Definition IsValidLiteralSubject (subject : string) : bool := isValidLiteralSubject (split subject).

(** ** Subset matching and collision *)

Definition analyzeTokens (toks : list string) : bool * bool :=
  fold_left (fun '(hasPWC, hasFWC) t =>
    match t with
    | String c EmptyString =>
        if Ascii.eqb c pwc then (true, hasFWC) else if Ascii.eqb c fwc then (hasPWC, true) else (hasPWC, hasFWC)
    | _ => (hasPWC, hasFWC)
    end) toks (false, false).

Definition tokensCanMatch (t1 t2 : string) : bool :=
  match t1, t2 with
  | String c1 _, String c2 _ => if is_wc c1 || is_wc c2 then true else String.eqb t1 t2
  | _, _ => false
  end.

(** The loop of [isSubsetMatchTokenized], both slices from index [i] on.  The inner test
    [i >= len(test)] never holds inside the loop. *)
Fixpoint isSubsetMatchTokenized (tokens test : list string) : bool :=
  match test with
  | [] => match tokens with [] => true | _ => false end
  | t2 :: test =>
      match tokens with
      | [] => false
      | t1 :: tokens =>
          match t2 with
          | EmptyString => false
          | String c2 r2 =>
              if Ascii.eqb c2 fwc && String.eqb r2 "" then true else
              match t1 with
              | EmptyString => false
              | String c1 r1 =>
                  if Ascii.eqb c1 fwc && String.eqb r1 "" then false else
                  if Ascii.eqb c1 pwc && String.eqb r1 "" then
                    if Ascii.eqb c2 pwc && String.eqb r2 "" then isSubsetMatchTokenized tokens test else false
                  else if negb (Ascii.eqb c2 pwc) && negb (String.eqb t1 t2) then false
                  else isSubsetMatchTokenized tokens test
              end
          end
      end
  end.

Definition isSubsetMatch (tokens : list string) (test : string) : bool :=
  isSubsetMatchTokenized tokens (tokenizeSubjectIntoSlice [] test).

Definition subjectIsSubsetMatch (subject test : string) : bool :=
  isSubsetMatch (tokenizeSubjectIntoSlice [] subject) test.

Definition SubjectMatchesFilter (subject filter : string) : bool := subjectIsSubsetMatch subject filter.

(** The loop [for i := 0; i < stop; i++]. *)
Fixpoint all_can_match (toks1 toks2 : list string) : bool :=
  match toks1, toks2 with
  | t1 :: toks1, t2 :: toks2 => if tokensCanMatch t1 t2 then all_can_match toks1 toks2 else false
  | _, _ => true
  end.

Definition SubjectsCollide (subj1 subj2 : string) : bool :=
  if String.eqb subj1 subj2 then true else
  let toks1 := tokenizeSubjectIntoSlice [] subj1 in
  let toks2 := tokenizeSubjectIntoSlice [] subj2 in
  let '(pwc1, fwc1) := analyzeTokens toks1 in
  let '(pwc2, fwc2) := analyzeTokens toks2 in
  let l1 := negb (pwc1 || fwc1) in
  let l2 := negb (pwc2 || fwc2) in
  if l1 && l2 then String.eqb subj1 subj2 else
  if l1 && negb l2 then isSubsetMatchTokenized toks1 toks2 else
  if l2 && negb l1 then isSubsetMatchTokenized toks2 toks1 else
  let lt1 := length toks1 in
  let lt2 := length toks2 in
  if negb fwc1 && negb fwc2 && negb (Nat.eqb lt1 lt2) then false else
  if negb (Nat.eqb lt1 lt2) && ((Nat.ltb lt1 lt2 && negb fwc1) || (Nat.ltb lt2 lt1 && negb fwc2)) then false else
  all_can_match toks1 toks2.

(** ** Literal matching *)

(** The rest of a string after its current token: at the end or at a separator. *)
Fixpoint skip_token (s : string) : string :=
  match s with
  | EmptyString => EmptyString
  | String c r => if Ascii.eqb c btsep then s else skip_token r
  end.

(** [matchLiteral] from positions [li] of the literal and [i] of the subject on; [prev] is
    [subject[i-1]]. *)
Fixpoint matchLiteral_loop (prev : option ascii) (literal subject : string) : bool :=
  match subject with
  | EmptyString => match literal with EmptyString => true | _ => false end
  | String c rest =>
      match literal with
      | EmptyString => false
      | String d lrest =>
          let at_start := match prev with None => true | Some p => Ascii.eqb p btsep end in
          if Ascii.eqb c pwc && at_start then
            match rest with
            | EmptyString => match skip_token literal with EmptyString => true | _ => false end
            | String e rest2 =>
                if Ascii.eqb e btsep then
                  match skip_token literal with
                  | EmptyString => false
                  | String _ lrest2 => matchLiteral_loop (Some e) lrest2 rest2
                  end
                else if Ascii.eqb c d then matchLiteral_loop (Some c) lrest rest else false
            end
          else if Ascii.eqb c fwc && at_start && (match rest with EmptyString => true | _ => false end) then true
          else if Ascii.eqb c d then matchLiteral_loop (Some c) lrest rest else false
      end
  end.

Definition matchLiteral (literal subject : string) : bool := matchLiteral_loop None literal subject.

(** ** The meaning of patterns *)

(** Whether the token sequence [lit] is matched by the pattern [pat]. *)
Fixpoint tok_match (pat lit : list string) : bool :=
  match pat, lit with
  | [], [] => true
  | p :: ps, l :: ls =>
      if String.eqb p fwcs then (match ps with [] => true | _ => false end)
      else (String.eqb p pwcs || String.eqb p l) && tok_match ps ls
  | _, _ => false
  end.

End Subj.
