(* ===== verification/SubjectSpec.v ===== *)
(** * Subjects: properties

    The tokenisers agree, the character-level literal match is token matching, subset matching
    decides inclusion of the matched subjects and collision decides a common match. *)

From S2P Require Import Prelude Subject.
From Stdlib Require Import Ascii.
Import Subj.

(** ** Tokenisation *)

Definition cons_head (c : ascii) (l : list string) : list string :=
  match l with [] => [] | t :: ts => String c t :: ts end.

Definition prefix_head (cur : string) (l : list string) : list string :=
  match l with [] => [] | t :: ts => (cur +:+ t) :: ts end.

Lemma app_string_cons c (a b : string) : String c a +:+ b = String c (a +:+ b).
Proof. reflexivity. Qed.

Lemma app_string_nil_l (s : string) : "" +:+ s = s.
Proof. reflexivity. Qed.

Lemma app_string_nil (s : string) : s +:+ "" = s.
Proof. induction s as [|c s IH]; [done|]. by rewrite app_string_cons, IH. Qed.

Lemma app_string_assoc (a b c : string) : a +:+ (b +:+ c) = (a +:+ b) +:+ c.
Proof. induction a as [|x a IH]; [done|]. by rewrite !app_string_cons, IH. Qed.

Lemma app_string_snoc (a : string) c b : (a +:+ String c "") +:+ b = a +:+ String c b.
Proof. by rewrite <- app_string_assoc, app_string_cons, app_string_nil_l. Qed.

Lemma tokenize_loop_acc s : forall tts cur, tokenize_loop tts cur s = tts ++ prefix_head cur (split s).
Proof.
  unfold split, tokenizeSubjectIntoSlice. induction s as [|c s IH]; intros tts cur; cbn [tokenize_loop].
  { cbn. by rewrite app_string_nil. }
  destruct (Ascii.eqb c btsep).
  - rewrite (IH (tts ++ [cur]) ""), (IH ([] ++ [""%string]) ""). cbn [app prefix_head].
    destruct (tokenize_loop [] "" s) as [|t ts]; cbn; rewrite ?app_string_nil, <- ?app_assoc; done.
  - rewrite (IH tts (cur +:+ String c "")), (IH [] ("" +:+ String c "")). f_equal. cbn [app].
    destruct (tokenize_loop [] "" s) as [|t ts]; [done|]. cbn. by rewrite app_string_nil_l, app_string_snoc, app_string_cons.
Qed.

Lemma split_cons c s :
  split (String c s) = if Ascii.eqb c btsep then ""%string :: split s else cons_head c (split s).
Proof.
  unfold split at 1, tokenizeSubjectIntoSlice. cbn [tokenize_loop].
  destruct (Ascii.eqb c btsep); rewrite tokenize_loop_acc; cbn [app]; destruct (split s) as [|t ts] eqn:E; try done.
Qed.

Lemma split_nil : split "" = [""%string].
Proof. done. Qed.

Lemma split_not_nil s : split s <> [].
Proof.
  induction s as [|c s IH]; [done|]. rewrite split_cons. destruct (Ascii.eqb c btsep); [done|].
  by destruct (split s).
Qed.

Definition empty_tok (t : string) : bool := String.eqb t "".

Lemma match_tokens_loop_ok s : forall tokens cur,
  match_tokens_loop tokens cur s =
    if existsb empty_tok (prefix_head cur (split s)) then None else Some (tokens ++ prefix_head cur (split s)).
Proof.
  induction s as [|c s IH]; intros tokens cur; cbn [match_tokens_loop].
  { cbn. rewrite app_string_nil, orb_false_r. unfold empty_tok. by destruct (String.eqb cur ""). }
  rewrite split_cons. destruct (Ascii.eqb c btsep).
  - cbn [prefix_head]. rewrite app_string_nil. cbn [existsb]. unfold empty_tok at 1.
    destruct (String.eqb cur ""); [done|]. rewrite IH. cbn [orb].
    pose proof (split_not_nil s). destruct (split s) as [|t ts]; [done|]. cbn [prefix_head].
    by rewrite app_string_nil_l, <- app_assoc.
  - rewrite IH. pose proof (split_not_nil s). destruct (split s) as [|t ts]; [done|].
    cbn [prefix_head cons_head]. by rewrite app_string_snoc.
Qed.

Lemma match_tokens_ok s :
  match_tokens s = if existsb empty_tok (split s) then None else Some (split s).
Proof.
  unfold match_tokens. rewrite match_tokens_loop_ok. cbn [app].
  pose proof (split_not_nil s). by destruct (split s).
Qed.

Lemma numTokens_ok s : s <> ""%string -> numTokens s = length (split s).
Proof.
  intros Hs. assert (forall s, S (count_sep s) = length (split s)) as H.
  { clear. induction s as [|c s IH]; [done|]. rewrite split_cons. cbn [count_sep].
    destruct (Ascii.eqb c btsep); [cbn; by rewrite IH|]. rewrite IH.
    pose proof (split_not_nil s). by destruct (split s). }
  destruct s as [|c s]; [done|]. unfold numTokens. apply H.
Qed.

Lemma tokenAt_loop_ok s : forall index ti cur,
  1 <= ti <= index -> index <= 255 -> ti + Z.of_nat (length (split s)) <= 256 ->
  tokenAt_loop index ti cur s = nth (Z.to_nat (index - ti)) (prefix_head cur (split s)) ""%string.
Proof.
  induction s as [|c s IH]; intros index ti cur Hti Hidx Hlen; cbn [tokenAt_loop].
  { cbn [split tokenizeSubjectIntoSlice prefix_head]. rewrite split_nil. cbn [prefix_head]. rewrite app_string_nil.
    destruct (Z.eqb_spec ti index) as [->|Hne]; [by rewrite Z.sub_diag|].
    destruct (Z.to_nat (index - ti)) as [|n] eqn:E; [lia|]. by destruct n. }
  rewrite split_cons in *. destruct (Ascii.eqb c btsep).
  - cbn [prefix_head]. rewrite app_string_nil. cbn [length] in Hlen.
    destruct (Z.eqb_spec ti index) as [->|Hne]; [by rewrite Z.sub_diag|].
    assert (u8 (ti + 1) = ti + 1) as -> by (apply Z.mod_small; lia).
    rewrite IH by lia. destruct (Z.to_nat (index - ti)) as [|n] eqn:E; [lia|]. cbn [nth].
    replace (Z.to_nat (index - (ti + 1))) with n by lia.
    pose proof (split_not_nil s). by destruct (split s).
  - rewrite IH; [|done|done|by destruct (split s)]. pose proof (split_not_nil s).
    destruct (split s) as [|t ts]; [done|]. cbn [prefix_head cons_head]. by rewrite app_string_snoc.
Qed.

Lemma tokenAt_ok s index :
  1 <= index <= 255 -> Z.of_nat (length (split s)) <= 255 ->
  tokenAt s index = nth (Z.to_nat (index - 1)) (split s) ""%string.
Proof.
  intros Hi Hl. unfold tokenAt. rewrite tokenAt_loop_ok by lia.
  pose proof (split_not_nil s). by destruct (split s).
Qed.

(** ** Wildcards *)

Definition wild_tok (t : string) : bool := String.eqb t pwcs || String.eqb t fwcs.

(** The rest of the current token and the tokens after it. *)
Lemma has_wc_loop_ok s : forall prev,
  has_wc_loop prev s =
    match split s with
    | [] => false
    | t :: ts =>
        ((match prev with None => true | Some p => Ascii.eqb p btsep end) && wild_tok t) || existsb wild_tok ts
    end.
Proof.
  induction s as [|c s IH]; intros prev; cbn [has_wc_loop].
  { rewrite split_nil. cbn. by rewrite andb_false_r. }
  rewrite split_cons. set (at_start := match prev with None => true | Some p => Ascii.eqb p btsep end).
  rewrite IH. pose proof (split_not_nil s) as Hne. destruct (Ascii.eqb_spec c btsep) as [->|Hc].
  - cbn. rewrite andb_false_r. cbn. by destruct (split s).
  - destruct s as [|d s].
    + rewrite split_nil. cbn [cons_head existsb orb andb]. rewrite !orb_false_r, !andb_true_r.
      unfold wild_tok, is_wc. cbn. unfold pwc, fwc.
      destruct (Ascii.eqb c "*"), (Ascii.eqb c ">"), at_start; done.
    + rewrite split_cons. destruct (Ascii.eqb d btsep) eqn:Ed.
      * cbn [cons_head andb orb existsb]. rewrite andb_true_r. unfold wild_tok at 2, is_wc. cbn.
        unfold pwc, fwc. destruct (Ascii.eqb c "*"), (Ascii.eqb c ">"), at_start; cbn; done.
      * rewrite andb_false_r. pose proof (split_not_nil s). destruct (split s) as [|t ts]; [done|].
        cbn [cons_head andb orb]. unfold wild_tok at 2. cbn.
        by destruct (c =? "*")%char, (c =? ">")%char, at_start.
Qed.

Lemma subjectHasWildcard_ok s : subjectHasWildcard s = existsb wild_tok (split s).
Proof. unfold subjectHasWildcard. rewrite has_wc_loop_ok. by destruct (split s). Qed.

(** ** Literal matching *)

(** [>] is the last token only. *)
Fixpoint fwc_last (toks : list string) : Prop :=
  match toks with
  | [] => True
  | t :: ts => (t = fwcs -> ts = []) /\ fwc_last ts
  end.

Definition no_empty (toks : list string) : Prop := Forall (fun t => t <> ""%string) toks.

Lemma no_empty_spec p : existsb empty_tok p = false <-> no_empty p.
Proof.
  unfold no_empty. induction p as [|t p IH]; [split; [by intros; apply Forall_nil|done]|].
  cbn [existsb]. rewrite orb_false_iff, IH, Forall_cons. unfold empty_tok. by rewrite String.eqb_neq.
Qed.

Lemma skip_token_ok s :
  match split s with
  | [] => False
  | t :: [] => skip_token s = ""%string
  | t :: ts => exists r, skip_token s = String btsep r /\ split r = ts
  end.
Proof.
  induction s as [|c s IH]; [done|]. rewrite split_cons. cbn [skip_token].
  destruct (Ascii.eqb_spec c btsep) as [->|Hc].
  - pose proof (split_not_nil s). destruct (split s) as [|t ts] eqn:E; [done|]. by exists s.
  - destruct (split s) as [|t ts]; [done|]. done.
Qed.

(** Matching the rest of a token and the tokens after it. *)
Definition mid_match (pat lit : list string) : bool :=
  match pat, lit with
  | p :: ps, l :: ls => String.eqb p l && tok_match ps ls
  | _, _ => false
  end.

Lemma mid_match_cons c d ps ls :
  ps <> [] -> ls <> [] ->
  mid_match (cons_head c ps) (cons_head d ls) = if Ascii.eqb c d then mid_match ps ls else false.
Proof.
  intros H1 H2. destruct ps as [|p ps], ls as [|l ls]; try done. cbn.
  by destruct (Ascii.eqb c d).
Qed.

Definition start_match (prev : option ascii) : bool :=
  match prev with None => true | Some p => Ascii.eqb p btsep end.

(** A token that is no wildcard is compared literally. *)
Lemma tok_match_literal pat lit :
  match pat with t :: _ => wild_tok t = false | [] => False end -> tok_match pat lit = mid_match pat lit.
Proof.
  destruct pat as [|p ps]; [done|]. unfold wild_tok. intros [H1 H2]%orb_false_iff.
  destruct lit as [|l ls]; [done|]. cbn [tok_match mid_match]. by rewrite H1, H2.
Qed.

Lemma wild_tok_cons c d t : wild_tok (String c (String d t)) = false.
Proof. unfold wild_tok. cbn. by destruct (c =? "*")%char, (c =? ">")%char. Qed.

Lemma fwc_last_tail t ts : fwc_last (t :: ts) -> fwc_last ts.
Proof. by intros [_ ?]. Qed.

Lemma split_tail c s : Ascii.eqb c btsep = false -> tail (split (String c s)) = tail (split s).
Proof. intros Hc. rewrite split_cons, Hc. by destruct (split s). Qed.

Lemma split_single s : split s = [""%string] <-> s = ""%string.
Proof.
  split; [|by intros ->]. destruct s as [|c s]; [done|]. rewrite split_cons.
  pose proof (split_not_nil s). destruct (Ascii.eqb c btsep), (split s); try done; by intros [= ].
Qed.

(** The common test of the loop. *)
Lemma matchLiteral_step prev c d rest lrest :
  (start_match prev = false \/ wild_tok (String c (default ""%string (head (split rest)))) = false) ->
  matchLiteral_loop prev (String d lrest) (String c rest) =
    if Ascii.eqb c d then matchLiteral_loop (Some c) lrest rest else false.
Proof.
  cbn [matchLiteral_loop]. fold (start_match prev). intros [->|Hw]; [by rewrite !andb_false_r|].
  destruct rest as [|e rest].
  - cbn in Hw. unfold wild_tok in Hw. cbn in Hw. unfold pwc, fwc.
    destruct (c =? "*")%char, (c =? ">")%char; try done.
  - rewrite split_cons in Hw. destruct (Ascii.eqb e btsep) eqn:Ee.
    + cbn in Hw. unfold wild_tok in Hw. cbn in Hw. unfold pwc, fwc.
      destruct (c =? "*")%char, (c =? ">")%char; try done; by rewrite ?andb_false_r.
    + rewrite andb_false_r. by destruct (Ascii.eqb c pwc && start_match prev).
Qed.

(** In the middle of a token. *)
Definition mid_ok (sub : string) : Prop := forall c lit, Ascii.eqb c btsep = false ->
  no_empty (tail (split lit)) -> fwc_last (tail (split sub)) ->
  matchLiteral_loop (Some c) lit sub = mid_match (split sub) (split lit).

(** At the start of a token. *)
Definition start_ok (sub : string) : Prop := forall prev lit, start_match prev = true ->
  no_empty (split lit) -> fwc_last (split sub) ->
  matchLiteral_loop prev lit sub = tok_match (split sub) (split lit).

Lemma mid_step sub : (forall c rest, sub = String c rest -> start_ok rest /\ mid_ok rest) -> mid_ok sub.
Proof.
  intros IH p lit Hp Hne Hf. destruct sub as [|c rest].
  { cbn [matchLiteral_loop]. rewrite split_nil. destruct lit as [|d lrest]; [done|]. rewrite split_cons.
    pose proof (split_not_nil lrest). destruct (Ascii.eqb d btsep); cbn; by destruct (split lrest). }
  destruct (IH c rest eq_refl) as [IHs IHm]. rewrite split_cons.
  destruct lit as [|d lrest].
  { cbn. pose proof (split_not_nil rest). destruct (Ascii.eqb c btsep); cbn; by destruct (split rest). }
  rewrite matchLiteral_step by (by left). rewrite split_cons in Hf |- *. rewrite split_cons in Hne.
  pose proof (split_not_nil rest). pose proof (split_not_nil lrest).
  destruct (Ascii.eqb_spec c btsep) as [->|Hc], (Ascii.eqb_spec d btsep) as [->|Hd]; cbn [tail] in Hne, Hf.
  - rewrite Ascii.eqb_refl. by apply IHs.
  - assert (Ascii.eqb btsep d = false) as -> by (apply Ascii.eqb_neq; congruence). by destruct (split lrest).
  - assert (Ascii.eqb c btsep = false) as -> by (by apply Ascii.eqb_neq). by destruct (split rest).
  - rewrite mid_match_cons by done. destruct (Ascii.eqb_spec c d) as [->|]; [|done].
    apply IHm; [by apply Ascii.eqb_neq|by destruct (split lrest)|by destruct (split rest)].
Qed.

Lemma start_step sub :
  (forall c rest, sub = String c rest -> mid_ok rest /\
     forall e rest2, rest = String e rest2 -> start_ok rest2) -> start_ok sub.
Proof.
  intros IH prev lit Hst Hne Hf. destruct lit as [|d lrest]; [by apply Forall_cons in Hne as [? _]|].
  assert (Ascii.eqb d btsep = false) as Hd.
  { rewrite split_cons in Hne. destruct (Ascii.eqb d btsep); [by apply Forall_cons in Hne as [? _]|done]. }
  destruct sub as [|c rest].
  { cbn [matchLiteral_loop]. rewrite split_nil, split_cons, Hd. by destruct (split lrest). }
  destruct (IH c rest eq_refl) as [IHm IHs]. pose proof (split_not_nil rest) as Hr.
  destruct (wild_tok (String c (default ""%string (head (split rest))))) eqn:Hw.
  - destruct (split rest) as [|t ts] eqn:Er; [done|]. cbn [head default from_option id] in Hw. cbn in Hw.
    assert (t = ""%string /\ (c = pwc \/ c = fwc)) as [-> Hc].
    { unfold wild_tok in Hw. cbn in Hw. unfold pwc, fwc. destruct t; [split; [done|]|].
      - destruct (Ascii.eqb_spec c "*"), (Ascii.eqb_spec c ">"); try done; auto.
      - by destruct (c =? "*")%char, (c =? ">")%char. }
    assert (split (String c rest) = String c "" :: ts) as Hsp
      by (rewrite split_cons, Er; by destruct Hc as [-> | ->]).
    rewrite Hsp in Hf |- *.
    pose proof (skip_token_ok (String d lrest)) as Hskip.
    destruct (split (String d lrest)) as [|l ls] eqn:El; [done|].
    destruct Hc as [-> | ->].
    + cbn [matchLiteral_loop]. fold (start_match prev). rewrite Hst. cbn [tok_match].
      set (sk := skip_token (String d lrest)) in *. clearbody sk.
      destruct rest as [|e rest].
      * rewrite split_nil in Er. injection Er as <-. cbn. destruct ls; [by rewrite Hskip|].
        destruct Hskip as (r&->&_). done.
      * rewrite split_cons in Er. destruct (Ascii.eqb e btsep) eqn:Ee; [|by destruct (split rest)].
        injection Er as Er. cbn. destruct ls as [|l2 ls].
        -- rewrite Hskip. pose proof (split_not_nil rest). rewrite <- Er. by destruct (split rest).
        -- destruct Hskip as (r&->&Hsr). rewrite <- Er, <- Hsr. apply (IHs e rest eq_refl); [done| |].
           ++ rewrite Hsr. by apply Forall_cons in Hne as [_ ?].
           ++ rewrite Er. by destruct Hf.
    + destruct Hf as [Hf _]. assert (ts = []) as -> by (by apply Hf).
      apply split_single in Er as ->. cbn. fold (start_match prev). by rewrite Hst.
  - rewrite matchLiteral_step by (by right).
    rewrite tok_match_literal.
    2:{ rewrite split_cons. destruct (Ascii.eqb c btsep); [done|]. destruct (split rest); [done|]. exact Hw. }
    rewrite !split_cons, Hd in *. pose proof (split_not_nil lrest).
    destruct (Ascii.eqb_spec c btsep) as [->|Hc].
    + assert (Ascii.eqb btsep d = false) as -> by (apply Ascii.eqb_neq; intros <-; done). by destruct (split lrest).
    + rewrite mid_match_cons by done. destruct (Ascii.eqb_spec c d) as [->|]; [|done].
      apply IHm; [by apply Ascii.eqb_neq| |].
      * destruct (split lrest); [done|]. by apply Forall_cons in Hne as [_ ?].
      * destruct (split rest); [done|]. by destruct Hf.
Qed.

Lemma matchLiteral_ok lit sub :
  no_empty (split lit) -> fwc_last (split sub) -> matchLiteral lit sub = tok_match (split sub) (split lit).
Proof.
  intros Hne Hf. unfold matchLiteral.
  assert (forall n sub, (String.length sub <= n)%nat -> start_ok sub /\ mid_ok sub) as H.
  { clear. induction n as [|n IH]; intros sub Hn.
    - destruct sub; [|cbn in Hn; lia]. split; [by apply start_step|by apply mid_step].
    - split; [apply start_step|apply mid_step]; intros c rest ->; cbn in Hn.
      + split; [apply IH; lia|]. intros e rest2 ->. cbn in Hn. apply IH. lia.
      + apply IH. lia. }
  by apply (H (String.length sub) sub (le_n _)).
Qed.

(** ** Patterns and the subjects they match *)

Definition lit_tok (t : string) : Prop := t <> ""%string /\ t <> pwcs /\ t <> fwcs.
Definition literal (l : list string) : Prop := Forall lit_tok l.

(** A token that is a wildcard or does not begin like one. *)
Definition clean_tok (t : string) : Prop :=
  t = pwcs \/ t = fwcs \/ match t with String c _ => is_wc c = false | EmptyString => False end.

Definition good_pat (p : list string) : Prop := Forall clean_tok p /\ fwc_last p.

Lemma good_pat_cons t p : good_pat (t :: p) -> clean_tok t /\ (t = fwcs -> p = []) /\ good_pat p.
Proof. intros [[? ?]%Forall_cons [? ?]]. by split_and!. Qed.

Lemma clean_lit t : clean_tok t -> t <> pwcs -> t <> fwcs -> lit_tok t.
Proof. intros [?|[?|H]] ? ?; [done|done|]. split_and!; [|done|done]. by intros ->. Qed.

Lemma clean_cases t : clean_tok t -> t = pwcs \/ t = fwcs \/ (lit_tok t /\ exists c r, t = String c r /\ is_wc c = false).
Proof.
  intros [->|[->|Ht]]; [by left|by right; left|]. right. right. destruct t as [|c r]; [done|].
  split; [|by exists c, r]. split_and!; [done| |]; intros [= -> ->]; done.
Qed.

Lemma fresh_tok (l : list string) : exists f, lit_tok f /\ f ∉ l.
Proof.
  set (s := list_to_set l ∪ {[""%string; pwcs; fwcs]} : gset string).
  pose proof (is_fresh s) as Hf. exists (fresh s). unfold lit_tok. revert Hf. generalize (fresh s). intros f Hf.
  subst s. split_and!; set_solver.
Qed.

(** The subject of a pattern whose wildcards are replaced by [f]. *)
Definition inst (f : string) (p : list string) : list string := (fun t => if wild_tok t then f else t) <$> p.

(** What the subjects of messages and subscriptions have: no empty token, and [>] only at the end. *)
Definition legal_pat (p : list string) : Prop := Forall (fun t => t <> ""%string) p /\ fwc_last p.

Lemma legal_pat_cons t p : legal_pat (t :: p) -> t <> ""%string /\ (t = fwcs -> p = []) /\ legal_pat p.
Proof. intros [[? ?]%Forall_cons [? ?]]. by split_and!. Qed.

Lemma good_legal p : good_pat p -> legal_pat p.
Proof. intros [Hc ?]. split; [|done]. eapply Forall_impl; [exact Hc|]. intros t Ht ->. by destruct Ht as [|[|]]. Qed.

Lemma valid_cases t : t <> ""%string -> t = pwcs \/ t = fwcs \/ lit_tok t.
Proof. intros Ht. destruct (decide (t = pwcs)); [by left|]. destruct (decide (t = fwcs)); [by right; left|by right; right]. Qed.

Lemma inst_ok f p : legal_pat p -> lit_tok f -> literal (inst f p) /\ tok_match p (inst f p) = true.
Proof.
  intros Hp Hf. induction p as [|t p IH]; [split; [constructor|done]|].
  apply legal_pat_cons in Hp as (Ht&Hl&Hp). destruct (IH Hp) as [IH1 IH2]. cbn [inst fmap list_fmap].
  fold (inst f p). destruct (valid_cases t Ht) as [->|[->|Hlt]].
  - split; [by constructor|]. cbn. by rewrite IH2.
  - rewrite (Hl eq_refl). split; [by apply Forall_singleton|done].
  - assert (wild_tok t = false) as ->.
    { unfold wild_tok. destruct Hlt as (_&?&?). apply orb_false_iff. by rewrite !String.eqb_neq. }
    split; [by constructor|]. cbn. destruct Hlt as (_&?&?).
    rewrite (proj2 (String.eqb_neq t fwcs)), String.eqb_refl, orb_true_r by done. done.
Qed.

(** A longer token that begins with a star, which the test takes for a star when it is in the
    second pattern, unless the first has a star there. *)
Definition starred (t : string) : bool :=
  match t with String c (String _ _) => Ascii.eqb c pwc | _ => false end.
Definition as_read (t : string) : string := if starred t then pwcs else t.

Lemma as_read_clean t : clean_tok t -> as_read t = t.
Proof.
  intros [->|[->|Ht]]; [done|done|]. unfold as_read, starred. destruct t as [|c [|d r]]; [done|done|]. unfold is_wc in Ht.
  by apply orb_false_iff in Ht as [-> _].
Qed.

Lemma as_read_good p : good_pat p -> as_read <$> p = p.
Proof. intros [Hp _]. induction Hp as [|t p Ht _ IH]; [done|]. cbn [fmap list_fmap]. by rewrite as_read_clean, IH. Qed.

Lemma as_read_fwc t : String.eqb (as_read t) fwcs = String.eqb t fwcs.
Proof. unfold as_read, starred. destruct t as [|c [|d r]]; [done|done|]. destruct (Ascii.eqb c pwc) eqn:E; [|done]. apply Ascii.eqb_eq in E as ->. done. Qed.

(** No star of the first pattern meets such a token. *)
Definition no_starred (tokens test : list string) : Prop :=
  forall i t, tokens !! i = Some pwcs -> test !! i = Some t -> starred t = false.

Lemma no_starred_cons t1 t2 tokens test :
  no_starred (t1 :: tokens) (t2 :: test) <-> (t1 = pwcs -> starred t2 = false) /\ no_starred tokens test.
Proof.
  split.
  - intros H. split; [intros ->; by apply (H 0%nat)|]. intros i. apply (H (S i)).
  - intros [H1 H2] [|i] t; cbn; [|apply H2]. intros [= ->] [= <-]. by apply H1.
Qed.

(** A round of [isSubsetMatchTokenized]. *)
Lemma subset_round t1 t2 tokens test :
  t1 <> ""%string -> t2 <> ""%string ->
  isSubsetMatchTokenized (t1 :: tokens) (t2 :: test) =
    if String.eqb t2 fwcs then true else
    if String.eqb t1 fwcs then false else
    if (String.eqb (as_read t2) pwcs && negb (String.eqb t1 pwcs && starred t2)) || (String.eqb t1 t2 && negb (String.eqb t1 pwcs))
    then isSubsetMatchTokenized tokens test else false.
Proof.
  intros H1 H2. cbn [isSubsetMatchTokenized]. unfold as_read, starred, fwcs, pwcs.
  destruct t2 as [|c2 [|d2 r2]], t1 as [|c1 [|d1 r1]]; try done; cbn [String.eqb]; unfold fwc, pwc;
    destruct (Ascii.eqb_spec c2 ">"); subst; cbn; try done;
    destruct (Ascii.eqb_spec c1 ">"); subst; cbn; try done;
    try (destruct (Ascii.eqb_spec c1 "*"); subst; cbn; try done);
    try (destruct (Ascii.eqb_spec c2 "*"); subst; cbn); rewrite ?andb_true_r, ?andb_false_r; cbn; try done;
    repeat (case_match; cbn in *; try done); go_bool; try done; congruence.
Qed.

(** [isSubsetMatchTokenized] on clean tokens. *)
Lemma subset_step t1 t2 tokens test :
  clean_tok t1 -> clean_tok t2 ->
  isSubsetMatchTokenized (t1 :: tokens) (t2 :: test) =
    if String.eqb t2 fwcs then true else
    if String.eqb t1 fwcs then false else
    if String.eqb t2 pwcs || (String.eqb t1 t2 && negb (String.eqb t1 pwcs))
    then isSubsetMatchTokenized tokens test else false.
Proof.
  intros H1 H2. rewrite subset_round by (intros ->; by destruct H1 as [|[|]], H2 as [|[|]]). rewrite as_read_clean by done.
  assert (starred t2 = false) as ->; [|by rewrite andb_false_r, andb_true_r].
  pose proof (as_read_clean t2 H2) as E. unfold as_read in E. destruct (starred t2) eqn:Es; [|done]. by subst t2.
Qed.

Lemma subset_sound_read tokens : forall test lit, legal_pat tokens -> legal_pat test ->
  isSubsetMatchTokenized tokens test = true -> tok_match tokens lit = true -> tok_match (as_read <$> test) lit = true.
Proof.
  induction tokens as [|t1 tokens IH]; intros test lit Hp1 Hp2 Hs Hm.
  { destruct test as [|t2 test]; [done|]. cbn in Hs. done. }
  apply legal_pat_cons in Hp1 as (Ht1&Hl1&Hp1). destruct test as [|t2 test]; [done|].
  apply legal_pat_cons in Hp2 as (Ht2&Hl2&Hp2). rewrite subset_round in Hs by done.
  destruct lit as [|l lit]; [done|]. cbn [tok_match fmap list_fmap] in *. rewrite as_read_fwc.
  destruct (String.eqb_spec t2 fwcs) as [->|]; [by rewrite (Hl2 eq_refl)|].
  destruct (String.eqb_spec t1 fwcs) as [->|]; [done|].
  destruct (_ || (String.eqb t1 t2 && _)) eqn:E; [|done]. apply andb_true_iff in Hm as [Hm1 Hm2].
  rewrite (IH test lit) by done. rewrite andb_true_r.
  apply orb_true_iff in E as [[-> _]%andb_true_iff|[E1 E2]%andb_true_iff]; [done|]. apply String.eqb_eq in E1 as ->.
  unfold as_read. case_match; [done|]. done.
Qed.

Lemma subset_no_starred tokens : forall test, legal_pat tokens -> legal_pat test ->
  isSubsetMatchTokenized tokens test = true -> no_starred tokens test.
Proof.
  induction tokens as [|t1 tokens IH]; intros test Hp1 Hp2 Hs; [done|]. destruct test as [|t2 test]; [by intros i t _|].
  apply legal_pat_cons in Hp1 as (Ht1&Hl1&Hp1). apply legal_pat_cons in Hp2 as (Ht2&Hl2&Hp2). rewrite subset_round in Hs by done.
  apply no_starred_cons. destruct (String.eqb_spec t2 fwcs) as [->|]; [by rewrite (Hl2 eq_refl); split; [|by intros i t _]|].
  destruct (String.eqb_spec t1 fwcs) as [->|]; [done|]. destruct (_ || (String.eqb t1 t2 && _)) eqn:E; [|done]. split; [|by apply IH].
  intros ->. cbn in E. rewrite andb_false_r, orb_false_r in E. by apply andb_true_iff in E as [_ ->%negb_true_iff].
Qed.

Lemma subset_complete_read tokens : forall test f, legal_pat tokens -> legal_pat test -> lit_tok f -> f ∉ test -> no_starred tokens test ->
  isSubsetMatchTokenized tokens test = false ->
  exists lit, literal lit /\ tok_match tokens lit = true /\ tok_match (as_read <$> test) lit = false.
Proof.
  induction tokens as [|t1 tokens IH]; intros test f Hp1 Hp2 Hf Hnf Hst Hs.
  { exists []. destruct test; [done|]. split_and!; [by apply Forall_nil|done|done]. }
  destruct (inst_ok f (t1 :: tokens) Hp1 Hf) as [Hi1 Hi2].
  destruct test as [|t2 test].
  { by exists (inst f (t1 :: tokens)). }
  apply legal_pat_cons in Hp1 as (Ht1&Hl1&Hp1). apply legal_pat_cons in Hp2 as (Ht2&Hl2&Hp2).
  apply not_elem_of_cons in Hnf as [Hnf1 Hnf2]. apply no_starred_cons in Hst as [Hst1 Hst]. rewrite subset_round in Hs by done.
  cbn [fmap list_fmap]. pose proof (as_read_fwc t2) as Hr. destruct (String.eqb_spec t2 fwcs) as [->|Hn2]; [done|].
  destruct (String.eqb_spec t1 fwcs) as [->|Hn1].
  { rewrite (Hl1 eq_refl). destruct test as [|t3 test].
    - exists [f; f]. split_and!; [apply Forall_cons; split; [done|by apply Forall_singleton]|done|]. cbn. by rewrite Hr, andb_false_r.
    - exists [f]. split_and!; [by apply Forall_singleton|done|]. cbn. by rewrite Hr, andb_false_r. }
  destruct (_ || (String.eqb t1 t2 && _)) eqn:E.
  - destruct (IH test f Hp1 Hp2 Hf Hnf2 Hst Hs) as (lit&Hlit&H1&H2).
    exists ((if wild_tok t1 then f else t1) :: lit).
    cbn [tok_match] in Hi2 |- *. fold (inst f tokens) in *. cbn [inst fmap list_fmap] in Hi1, Hi2.
    rewrite (proj2 (String.eqb_neq t1 fwcs)), Hr in * by done.
    apply andb_true_iff in Hi2 as [Hi2 _]. apply Forall_cons in Hi1 as [Hi1 _].
    split_and!; [by constructor|by rewrite Hi2, H1|by rewrite H2, andb_false_r].
  - exists (inst f (t1 :: tokens)). split_and!; [done|done|]. cbn [inst fmap list_fmap tok_match]. rewrite Hr.
    apply orb_false_iff in E as [E1 E2]. assert (String.eqb (as_read t2) pwcs = false) as Hw.
    { destruct (String.eqb_spec t1 pwcs) as [->|]; [rewrite Hst1 in E1 by done|]; by rewrite andb_true_r in E1. }
    rewrite Hw. cbn [orb]. assert (as_read t2 = t2) as -> by (unfold as_read in *; by destruct (starred t2)).
    destruct (valid_cases t1 Ht1) as [->|[->|Hlt]]; [|done|].
    + cbn. by rewrite (proj2 (String.eqb_neq t2 f)) by done.
    + destruct Hlt as (_&Hp&_). assert (wild_tok t1 = false) as ->
        by (unfold wild_tok; apply orb_false_iff; by rewrite !String.eqb_neq).
      rewrite (proj2 (String.eqb_neq t1 pwcs)) in E2 by done. rewrite andb_true_r in E2.
      by rewrite String.eqb_sym, E2.
Qed.

Lemma subset_sound tokens test lit : good_pat tokens -> good_pat test ->
  isSubsetMatchTokenized tokens test = true -> tok_match tokens lit = true -> tok_match test lit = true.
Proof. intros H1 H2 Hs Hm. rewrite <- (as_read_good test) by done. apply (subset_sound_read tokens); [by apply good_legal|by apply good_legal|done|done]. Qed.

Lemma good_no_starred tokens test : good_pat test -> no_starred tokens test.
Proof.
  intros [Hc _] i t _ Ht. pose proof (Forall_lookup_1 _ _ _ _ Hc Ht) as H. pose proof (as_read_clean t H) as E.
  unfold as_read in E. destruct (starred t) eqn:Es; [|done]. by subst t.
Qed.

Lemma subset_complete tokens test f : good_pat tokens -> good_pat test -> lit_tok f -> f ∉ test ->
  isSubsetMatchTokenized tokens test = false ->
  exists lit, literal lit /\ tok_match tokens lit = true /\ tok_match test lit = false.
Proof.
  intros H1 H2 Hf Hn Hs. destruct (subset_complete_read tokens test f) as (lit & Hl & M1 & M2); [by apply good_legal|by apply good_legal|done|done|by apply good_no_starred|done|].
  exists lit. by rewrite as_read_good in M2.
Qed.

(** ** Collision *)

Fixpoint can_collide (p1 p2 : list string) : bool :=
  match p1, p2 with
  | [], [] => true
  | t1 :: r1, t2 :: r2 =>
      if String.eqb t1 fwcs || String.eqb t2 fwcs then true
      else (String.eqb t1 pwcs || String.eqb t2 pwcs || String.eqb t1 t2) && can_collide r1 r2
  | _, _ => false
  end.

Lemma can_collide_sound p1 : forall p2 f, good_pat p1 -> good_pat p2 -> lit_tok f ->
  can_collide p1 p2 = true ->
  exists lit, literal lit /\ tok_match p1 lit = true /\ tok_match p2 lit = true.
Proof.
  induction p1 as [|t1 r1 IH]; intros [|t2 r2] f Hp1 Hp2 Hf Hc; try done.
  { exists []. split_and!; [by apply Forall_nil|done|done]. }
  destruct (inst_ok f _ (good_legal _ Hp1) Hf) as [Hi1 Hm1], (inst_ok f _ (good_legal _ Hp2) Hf) as [Hi2 Hm2].
  apply good_pat_cons in Hp1 as (Ht1&Hl1&Hp1). apply good_pat_cons in Hp2 as (Ht2&Hl2&Hp2). cbn [can_collide] in Hc.
  destruct (String.eqb_spec t1 fwcs) as [->|Hn1].
  { exists (inst f (t2 :: r2)). split_and!; [done| |done]. rewrite (Hl1 eq_refl). done. }
  destruct (String.eqb_spec t2 fwcs) as [->|Hn2].
  { exists (inst f (t1 :: r1)). split_and!; [done|done|]. rewrite (Hl2 eq_refl). done. }
  cbn [orb] in Hc. apply andb_true_iff in Hc as [Hh Hc].
  destruct (IH r2 f Hp1 Hp2 Hf Hc) as (lit&Hlit&H1&H2).
  assert (exists l, lit_tok l /\ (String.eqb t1 pwcs || String.eqb t1 l) = true /\
    (String.eqb t2 pwcs || String.eqb t2 l) = true) as (l&Hl&E1&E2).
  { destruct (String.eqb_spec t1 pwcs) as [->|Hq1], (String.eqb_spec t2 pwcs) as [->|Hq2]; cbn [orb] in Hh.
    - by exists f.
    - exists t2. rewrite String.eqb_refl. split_and!; [by apply clean_lit|done|done].
    - exists t1. rewrite String.eqb_refl. split_and!; [by apply clean_lit|done|done].
    - exists t1. apply String.eqb_eq in Hh as ->. rewrite String.eqb_refl. split_and!; [by apply clean_lit|done|done]. }
  exists (l :: lit). cbn [tok_match]. rewrite !(proj2 (String.eqb_neq _ fwcs)) by done.
  rewrite E1, E2, H1, H2. split_and!; [by apply Forall_cons|done|done].
Qed.

Lemma can_collide_complete lit : forall p1 p2, good_pat p1 -> good_pat p2 ->
  tok_match p1 lit = true -> tok_match p2 lit = true -> can_collide p1 p2 = true.
Proof.
  induction lit as [|l lit IH]; intros [|t1 r1] [|t2 r2] Hp1 Hp2 H1 H2; try done.
  apply good_pat_cons in Hp1 as (Ht1&Hl1&Hp1). apply good_pat_cons in Hp2 as (Ht2&Hl2&Hp2).
  cbn [tok_match can_collide] in *. destruct (String.eqb t1 fwcs); [done|]. destruct (String.eqb t2 fwcs); [by rewrite orb_true_r|].
  cbn [orb]. apply andb_true_iff in H1 as [E1 H1], H2 as [E2 H2]. rewrite (IH r1 r2) by done. rewrite andb_true_r.
  destruct (String.eqb t1 pwcs); [done|]. destruct (String.eqb t2 pwcs); [done|]. cbn [orb] in *.
  apply String.eqb_eq in E1 as ->. by rewrite String.eqb_sym.
Qed.

Lemma literal_good l : literal l -> Forall clean_tok l -> good_pat l.
Proof.
  intros Hl Hc. split; [done|]. clear Hc. induction Hl as [|t l [_ [_ Ht]] _ IH]; [done|]. by split.
Qed.

Lemma subset_literal l : forall p, literal l -> Forall clean_tok l -> good_pat p ->
  isSubsetMatchTokenized l p = can_collide l p /\ can_collide p l = can_collide l p.
Proof.
  induction l as [|t1 l IH]; intros [|t2 p] Hl Hc Hp; try done.
  apply Forall_cons in Hl as [(_&Hn1&Hn2) Hl], Hc as [Hc1 Hc]. apply good_pat_cons in Hp as (Ht2&Hl2&Hp).
  rewrite subset_step by done. cbn [can_collide]. destruct (IH p Hl Hc Hp) as [-> ->].
  rewrite (proj2 (String.eqb_neq t1 fwcs)), (proj2 (String.eqb_neq t1 pwcs)) by done. cbn [orb negb]. rewrite andb_true_r.
  split; [|by rewrite !orb_false_r, (String.eqb_sym t1 t2)].
  destruct (String.eqb t2 fwcs); [done|]. by destruct (_ || String.eqb t1 t2).
Qed.

Lemma tokensCanMatch_ok t1 t2 : clean_tok t1 -> clean_tok t2 ->
  tokensCanMatch t1 t2 = wild_tok t1 || wild_tok t2 || String.eqb t1 t2.
Proof.
  assert (forall c r, is_wc c = false -> wild_tok (String c r) = false) as Hw.
  { intros c r [H1 H2]%orb_false_iff. unfold wild_tok, pwc, fwc in *. cbn.
    by destruct (Ascii.eqb_spec c "*"), (Ascii.eqb_spec c ">"). }
  intros H1 H2. destruct (clean_cases t1 H1) as [->|[->|[_ (c1&r1&->&Hc1)]]],
    (clean_cases t2 H2) as [->|[->|[_ (c2&r2&->&Hc2)]]]; try done; cbn -[is_wc wild_tok String.eqb];
    rewrite ?Hc1, ?Hc2, ?Hw by done; done.
Qed.

Definition has (w : string) (p : list string) : bool := existsb (String.eqb w) p.

Lemma collide_lengths p1 : forall p2, good_pat p1 -> good_pat p2 ->
  (if negb (has fwcs p1) && negb (has fwcs p2) && negb (Nat.eqb (length p1) (length p2)) then false else
   if negb (Nat.eqb (length p1) (length p2)) &&
      ((Nat.ltb (length p1) (length p2) && negb (has fwcs p1)) ||
       (Nat.ltb (length p2) (length p1) && negb (has fwcs p2))) then false
   else all_can_match p1 p2) = can_collide p1 p2.
Proof.
  induction p1 as [|t1 r1 IH]; intros [|t2 r2] Hp1 Hp2; [done|..].
  - cbn [length Nat.eqb Nat.ltb Nat.leb can_collide negb andb orb]. by destruct (_ && _).
  - cbn [length Nat.eqb Nat.ltb Nat.leb can_collide negb andb orb]. change (has fwcs []) with false.
    rewrite !andb_true_r. by destruct (has fwcs (t1 :: r1)).
  - apply good_pat_cons in Hp1 as (Ht1&Hl1&Hp1). apply good_pat_cons in Hp2 as (Ht2&Hl2&Hp2).
    cbn [has existsb can_collide all_can_match]. fold (has fwcs r1) (has fwcs r2).
    rewrite tokensCanMatch_ok by done. unfold wild_tok.
    rewrite (String.eqb_sym fwcs t1), (String.eqb_sym fwcs t2).
    destruct (String.eqb_spec t1 fwcs) as [->|Hn1].
    { rewrite (Hl1 eq_refl). cbn. by destruct r2. }
    destruct (String.eqb_spec t2 fwcs) as [->|Hn2].
    { rewrite (Hl2 eq_refl). cbn. rewrite !andb_false_r, !orb_true_r. by destruct r1. }
    cbn [orb length Nat.eqb]. rewrite !orb_false_r.
    change (Nat.ltb (S (length r1)) (S (length r2))) with (Nat.ltb (length r1) (length r2)).
    change (Nat.ltb (S (length r2)) (S (length r1))) with (Nat.ltb (length r2) (length r1)).
    rewrite <- (IH r2 Hp1 Hp2). destruct (_ || String.eqb t1 t2); cbn [andb]; [done|]. by repeat case_match.
Qed.

Lemma split_inj s1 : forall s2, split s1 = split s2 -> s1 = s2.
Proof.
  induction s1 as [|c1 s1 IH]; intros [|c2 s2] H; [done|..].
  - symmetry in H. by apply split_single in H.
  - by apply split_single in H.
  - rewrite !split_cons in H. pose proof (split_not_nil s1). pose proof (split_not_nil s2).
    destruct (Ascii.eqb_spec c1 btsep) as [->|], (Ascii.eqb_spec c2 btsep) as [->|].
    + injection H as H. by rewrite (IH s2 H).
    + by destruct (split s2).
    + by destruct (split s1).
    + destruct (split s1) as [|a l1] eqn:E1, (split s2) as [|b l2] eqn:E2; try done.
      cbn in H. injection H as -> -> ->. f_equal. by apply IH.
Qed.

Lemma analyzeTokens_ok p : analyzeTokens p = (has pwcs p, has fwcs p).
Proof.
  unfold analyzeTokens. set (f := fun '(hasPWC, hasFWC) t => _).
  assert (forall p a b, fold_left f p (a, b) = (a || has pwcs p, b || has fwcs p)) as H; [|apply H].
  clear p. induction p as [|t p IH]; intros a b; [cbn; by rewrite !orb_false_r|].
  cbn [fold_left has existsb]. fold (has pwcs p) (has fwcs p).
  assert (f (a, b) t = (a || String.eqb pwcs t, b || String.eqb fwcs t)) as ->.
  { unfold f. destruct t as [|c [|d t]]; [by rewrite !orb_false_r| |].
    - rewrite (String.eqb_sym pwcs), (String.eqb_sym fwcs). cbn. unfold pwc, fwc.
      destruct (Ascii.eqb_spec c "*") as [->|]; [by rewrite orb_true_r, orb_false_r|].
      destruct (Ascii.eqb_spec c ">") as [->|]; [by rewrite orb_true_r, orb_false_r|by rewrite !orb_false_r].
    - rewrite (String.eqb_sym pwcs), (String.eqb_sym fwcs).
      pose proof (wild_tok_cons c d t) as [-> ->]%orb_false_iff. by rewrite !orb_false_r. }
  rewrite IH. by rewrite !orb_assoc.
Qed.

Lemma has_none_literal p : good_pat p -> has pwcs p || has fwcs p = false <-> literal p.
Proof.
  intros [Hc _]. induction Hc as [|t p Ht _ IH]; [split; [by intros; apply Forall_nil|done]|].
  unfold literal. rewrite Forall_cons. fold (literal p). rewrite <- IH.
  cbn [has existsb]. fold (has pwcs p) (has fwcs p).
  rewrite !orb_false_iff, !String.eqb_neq. split; [|intros [(?&?&?) [? ?]]; by split_and!; try congruence].
  intros [[? ?] [? ?]]. split; [|done]. by apply clean_lit.
Qed.

Lemma SubjectsCollide_ok s1 s2 :
  good_pat (split s1) -> good_pat (split s2) ->
  SubjectsCollide s1 s2 = can_collide (split s1) (split s2).
Proof.
  intros H1 H2. unfold SubjectsCollide. change (tokenizeSubjectIntoSlice [] ?s) with (split s).
  rewrite !analyzeTokens_ok. cbn zeta.
  destruct (String.eqb_spec s1 s2) as [<-|Hne].
  { destruct (fresh_tok []) as (f&Hf&_). destruct (inst_ok f _ (good_legal _ H1) Hf) as [_ Hm].
    symmetry. by apply (can_collide_complete (inst f (split s1))). }
  pose proof (has_none_literal _ H1) as L1. pose proof (has_none_literal _ H2) as L2.
  destruct (has pwcs (split s1) || has fwcs (split s1)) eqn:E1, (has pwcs (split s2) || has fwcs (split s2)) eqn:E2;
    cbn [negb andb].
  - by rewrite collide_lengths.
  - rewrite (proj1 (subset_literal _ _ (proj1 L2 eq_refl) (proj1 H2) H1)).
    by rewrite (proj2 (subset_literal _ _ (proj1 L2 eq_refl) (proj1 H2) H1)).
  - apply (subset_literal _ _ (proj1 L1 eq_refl) (proj1 H1) H2).
  - symmetry. apply not_true_iff_false. intros Hc.
    destruct (fresh_tok []) as (f&Hf&_).
    destruct (can_collide_sound _ _ f H1 H2 Hf Hc) as (lit&_&M1&M2).
    assert (forall p l, literal p -> tok_match p l = true -> p = l) as Heq.
    { clear. intros p l Hp. revert l. induction Hp as [|t p (_&Ht1&Ht2) _ IH]; intros [|x l] Hm; try done.
      cbn in Hm. rewrite (proj2 (String.eqb_neq t fwcs)), (proj2 (String.eqb_neq t pwcs)) in Hm by done. cbn in Hm.
      apply andb_true_iff in Hm as [Hx%String.eqb_eq Hm]. f_equal; [done|by apply IH]. }
    apply Hne, split_inj. rewrite (Heq _ lit (proj1 L1 eq_refl) M1). symmetry. by apply Heq; [apply L2|].
Qed.

(** ** Properties *)

(** The character-level [matchLiteral] of the cache is token matching: for every literal
    without empty tokens and every pattern whose [>] is last, it holds exactly when the tokens
    of the pattern match the tokens of the literal. *)
Theorem subj_matchLiteral_tokens (lit sub : string)
    (Hl : no_empty (split lit)) (Hs : fwc_last (split sub)) :
  matchLiteral lit sub = tok_match (split sub) (split lit).
Proof. by apply matchLiteral_ok. Qed.

Lemma subj_matchLiteral_tokens_witness :
  matchLiteral "foo.bar.baz" "foo.*.>" = tok_match ["foo"; "*"; ">"]%string ["foo"; "bar"; "baz"]%string.
Proof.
  apply (subj_matchLiteral_tokens "foo.bar.baz" "foo.*.>").
  - repeat (apply Forall_cons; split; [done|]). by apply Forall_nil.
  - by repeat split.
Defined.

(** C29. [isSubsetMatchTokenized] decides inclusion of patterns without empty tokens in which [>]
    is only the last one: it answers true exactly when every literal subject that the first
    pattern matches is matched by the second, in which a longer token that begins with a star
    counts as a star, and no star of the first pattern meets such a token.  So for a second
    pattern in which a star is always a whole token, it is inclusion. *)
Theorem subj_subset_inclusion (tokens test : list string)
    (H1 : legal_pat tokens) (H2 : legal_pat test) :
  isSubsetMatchTokenized tokens test = true <->
  (forall lit, literal lit -> tok_match tokens lit = true -> tok_match (as_read <$> test) lit = true) /\ no_starred tokens test.
Proof.
  split; [intros Hs; split; [intros lit _; by apply subset_sound_read|by apply subset_no_starred]|]. intros [Hall Hst].
  destruct (isSubsetMatchTokenized tokens test) eqn:E; [done|].
  destruct (fresh_tok test) as (f&Hf&Hn).
  destruct (subset_complete_read tokens test f H1 H2 Hf Hn Hst E) as (lit&Hlit&M1&M2).
  rewrite (Hall lit Hlit M1) in M2. done.
Qed.

(** Closed patterns are clean. *)
Ltac solve_good :=
  split; [repeat (apply Forall_cons; split; [first [by left | by right; left | by right; right]|]);
          by apply Forall_nil | by repeat split].

(** A subject below [foo.>], and one that the odd token [*foo] lets through. *)
Lemma subj_subset_inclusion_witness :
  tok_match ["foo"; ">"]%string ["foo"; "x"; "y"]%string = true /\ isSubsetMatchTokenized ["x"]%string ["*foo"]%string = true.
Proof.
  split.
  - destruct (proj1 (subj_subset_inclusion ["foo"; "*"; "y"]%string ["foo"; ">"]%string
      ltac:(apply good_legal; solve_good) ltac:(apply good_legal; solve_good)) eq_refl) as [H _].
    apply (H ["foo"; "x"; "y"]%string); [|reflexivity]. repeat (apply Forall_cons; split; [done|]). by apply Forall_nil.
  - apply subj_subset_inclusion; [by apply good_legal; solve_good|by repeat constructor|]. split; [by intros [|? [|? ?]] _; cbn; rewrite ?andb_false_r|]. by intros [|?].
Defined.

(** [SubjectsCollide] decides whether two patterns have a common literal subject. *)
Theorem subj_collide_common (s1 s2 : string)
    (H1 : good_pat (split s1)) (H2 : good_pat (split s2)) :
  SubjectsCollide s1 s2 = true <->
  exists lit, literal lit /\ tok_match (split s1) lit = true /\ tok_match (split s2) lit = true.
Proof.
  rewrite SubjectsCollide_ok by done. split.
  - destruct (fresh_tok []) as (f&Hf&_). by apply (can_collide_sound _ _ f).
  - intros (lit&_&M1&M2). by apply (can_collide_complete lit).
Qed.

Lemma subj_collide_common_witness :
  exists lit, literal lit /\ tok_match (split "foo.*.baz") lit = true /\ tok_match (split "*.bar.>") lit = true.
Proof.
  apply (proj1 (subj_collide_common "foo.*.baz" "*.bar.>" ltac:(solve_good) ltac:(solve_good))).
  reflexivity.
Defined.

(** The tokenisers agree with each other: published subjects are rejected exactly when a
    token is empty, [numTokens] and [tokenAt] count and index the tokens (up to 255, the range
    of the [uint8] counter), the wildcard scan finds exactly the tokens [*] and [>], and
    tokenisation is injective. *)
Theorem subj_tokens_agree (s : string) :
  match_tokens s = (if existsb empty_tok (split s) then None else Some (split s)) /\
  (s <> ""%string -> numTokens s = length (split s)) /\
  (forall index, 1 <= index <= 255 -> Z.of_nat (length (split s)) <= 255 ->
     tokenAt s index = nth (Z.to_nat (index - 1)) (split s) ""%string) /\
  subjectHasWildcard s = existsb wild_tok (split s) /\
  (forall s', split s = split s' -> s = s').
Proof.
  split_and!; [apply match_tokens_ok|apply numTokens_ok| |apply subjectHasWildcard_ok|apply split_inj].
  intros index. apply tokenAt_ok.
Qed.

(** ** Divergences *)

(** Tokens that only begin with a wildcard are taken for wildcards by [tokensCanMatch] and by
    [isSubsetMatchTokenized], and not by the trie and [matchLiteral]. *)
Example collide_prefix_wildcard :
  SubjectsCollide "*foo.*" "bar.*" = true /\ SubjectMatchesFilter "foo" "*bar" = true /\
  matchLiteral "foo" "*bar" = false.
Proof. by vm_compute. Qed.
