(* ===== verification/Trie.v ===== *)
(** * The subject trie

    The trie of src/server/sublist.go and src/server/gsl/gsl.go, which the two files implement
    with the same loops: a level maps a token to a node and has separate nodes for [*] and
    [>]; a node has a payload (its subscriptions) and a next level.  The loops over the tokens
    of a subject are structural recursions on the token list. *)

From S2P Require Import Prelude Subject.
Import Subj.

Module Trie.

Inductive node (P : Type) : Type := Node (payload : P) (next : option (level P))
with level (P : Type) : Type := Level (nodes : gmap string (node P)) (lpwc lfwc : option (node P)).
Arguments Node {P}.
Arguments Level {P}.

Section trie.
Context {P : Type}.

Definition payload (n : node P) : P := match n with Node p _ => p end.
Definition next (n : node P) : option (level P) := match n with Node _ l => l end.
Definition nodes (l : level P) : gmap string (node P) := match l with Level m _ _ => m end.
Definition lpwc (l : level P) : option (node P) := match l with Level _ p _ => p end.
Definition lfwc (l : level P) : option (node P) := match l with Level _ _ f => f end.

Definition newLevel : level P := Level ∅ None None.

(** The node a subscription token selects: the switch on [t[0]] for tokens of length 1. *)
Definition node_of (l : level P) (t : string) : option (node P) :=
  if String.eqb t pwcs then lpwc l else if String.eqb t fwcs then lfwc l else nodes l !! t.

Definition set_node (l : level P) (t : string) (n : node P) : level P :=
  if String.eqb t pwcs then Level (nodes l) (Some n) (lfwc l)
  else if String.eqb t fwcs then Level (nodes l) (lpwc l) (Some n)
  else Level (<[t := n]> (nodes l)) (lpwc l) (lfwc l).

Definition pruneNode (l : level P) (t : string) : level P :=
  if String.eqb t fwcs then Level (nodes l) (lpwc l) None
  else if String.eqb t pwcs then Level (nodes l) None (lfwc l)
  else Level (delete t (nodes l)) (lpwc l) (lfwc l).

Definition numNodes (l : level P) : nat :=
  (size (nodes l) + (if lpwc l then 1 else 0) + (if lfwc l then 1 else 0))%nat.

(** ** Insert *)

Section insert.
Context {X : Type}.
(** The payload of a new node, and the change [Insert] makes to the last node with what it
    reports about it. *)
Variable newPayload : P.
Variable upd : P -> P * X.

(** The loop over the tokens of the subject; [None] is [ErrInvalidSubject], with the nodes
    created so far left in place. *)
Fixpoint insert_loop (toks : list string) (sfwc : bool) (l : level P) : level P * option X :=
  match toks with
  | [] => (l, None)
  | t :: rest =>
      if String.eqb t "" || sfwc then (l, None) else
      let n := default (Node newPayload None) (node_of l t) in
      let l' := default newLevel (next n) in
      match rest with
      | [] =>
          let '(p, x) := upd (payload n) in
          (set_node l t (Node p (Some l')), Some x)
      | _ =>
          let '(l', r) := insert_loop rest (sfwc || String.eqb t fwcs) l' in
          (set_node l t (Node (payload n) (Some l')), r)
      end
  end.
End insert.

(** ** Match *)

Section matching.
Context {R : Type}.
(** What is done with a matching node. *)
Variable add : P -> R -> R.

Definition add_node (n : option (node P)) (r : R) : R :=
  match n with Some n => add (payload n) r | None => r end.

Fixpoint matchLevel (l : option (level P)) (toks : list string) (r : R) : R :=
  match toks, l with
  | t :: rest, Some l =>
      let r := add_node (lfwc l) r in
      let r := match lpwc l with Some p => matchLevel (next p) rest r | None => r end in
      let n := nodes l !! t in
      match rest with
      | [] => add_node (lpwc l) (add_node n r)
      | _ => match n with Some n => matchLevel (next n) rest r | None => r end
      end
  | _, _ => r
  end.
End matching.

Section any.
Context {C : Type}.
(** The counting of a node's subscriptions, and whether a node has any. *)
Variable cnt : P -> C -> C.
Variable has_subs : P -> bool.

Definition check_node (n : option (node P)) (c : C) : bool * C :=
  match n with Some n => (has_subs (payload n), cnt (payload n) c) | None => (false, c) end.

Fixpoint matchLevelForAny (l : option (level P)) (toks : list string) (c : C) : bool * C :=
  match toks, l with
  | t :: rest, Some l =>
      match lfwc l with
      | Some f => (true, cnt (payload f) c)
      | None =>
          let '(m, c) := match lpwc l with Some p => matchLevelForAny (next p) rest c | None => (false, c) end in
          if m then (true, c) else
          let n := nodes l !! t in
          match rest with
          | [] =>
              let '(m, c) := check_node n c in
              if m then (true, c) else check_node (lpwc l) c
          | _ => match n with Some n => matchLevelForAny (next n) rest c | None => (false, c) end
          end
      end
  | _, _ => (false, c)
  end.
End any.

(** ** Remove *)

Inductive trie_error : Type := ErrInvalidSubject | ErrNotFound.

Section remove.
Context {X : Type}.
(** Whether a payload has no subscription, and the removal from a node with what it reports:
    [None] when the subscription is not found. *)
Variable no_subs : P -> bool.
Variable removeFromNode : P -> option (P * X).

Definition isEmpty (n : node P) : bool :=
  no_subs (payload n) && match next n with None => true | Some l => Nat.eqb (numNodes l) 0 end.

(** One step of the pruning loop: [n] replaces the node of [t], or the node is pruned. *)
Definition prune_step (l : level P) (t : string) (n : node P) : level P :=
  if isEmpty n then pruneNode l t else set_node l t n.

(** The loop down the tokens and, on the way back, the pruning loop over [levels]. *)
Fixpoint remove_loop (toks : list string) (sfwc : bool) (l : option (level P)) : trie_error + level P * X :=
  match toks with
  | [] => inl ErrNotFound
  | t :: rest =>
      if String.eqb t "" || sfwc then inl ErrInvalidSubject else
      match l with
      | None => inl ErrNotFound
      | Some l =>
          let sfwc := sfwc || String.eqb t fwcs in
          match node_of l t, rest with
          | None, [] => inl ErrNotFound
          | None, _ => remove_loop rest sfwc None
          | Some n, [] =>
              match removeFromNode (payload n) with
              | None => inl ErrNotFound
              | Some (p, x) => inr (prune_step l t (Node p (next n)), x)
              end
          | Some n, _ =>
              match remove_loop rest sfwc (next n) with
              | inl e => inl e
              | inr (l', x) => inr (prune_step l t (Node (payload n) (Some l')), x)
              end
          end
      end
  end.
End remove.

(** [hasInterestStartingIn] of gsl.go. *)
Fixpoint hasInterestStartingIn (l : option (level P)) (tokens : list string) : bool :=
  match l with
  | None => false
  | Some l =>
      match tokens with
      | [] => true
      | token :: rest =>
          if lfwc l then true else
          let found := match lpwc l with Some p => hasInterestStartingIn (next p) rest | None => false end in
          match nodes l !! token with
          | Some n => found || hasInterestStartingIn (next n) rest
          | None => found
          end
      end
  end.

End trie.
End Trie.
