(* ===== verification/TrieSpec.v ===== *)
(** * The subject trie: correctness

    The trie is a map from patterns (token lists) to payloads: [insert_loop] and [remove_loop]
    change one entry, [matchLevel] visits exactly the entries whose pattern matches, each
    once, and [matchLevelForAny] tells whether there is one. *)

From S2P Require Import Prelude Subject SubjectSpec Trie.
Import Subj Trie.

Section spec.
Context {P : Type}.
Notation node := (node P).
Notation level := (level P).

(** The payload stored at a pattern. *)
Fixpoint payload_at (l : level) (path : list string) : option P :=
  match path with
  | [] => None
  | t :: rest =>
      match node_of l t with
      | None => None
      | Some n =>
          match rest with
          | [] => Some (payload n)
          | _ => match next n with None => None | Some l' => payload_at l' rest end
          end
      end
  end.

(** Tokens of a pattern: not empty, [>] last. *)
Definition valid_pat (p : list string) : Prop := p <> [] /\ no_empty p /\ fwc_last p.

Lemma valid_pat_cons t p : valid_pat (t :: p) ->
  t <> ""%string /\ (p = [] \/ (t <> fwcs /\ valid_pat p)).
Proof.
  intros (_&[Ht Hp]%Forall_cons&[Hf Hl]). split; [done|]. destruct p as [|t2 p]; [by left|]. right.
  split; [intros ->; by discriminate (Hf eq_refl)|]. by split_and!.
Qed.

(** ** Nodes of a level *)

Definition key_ok (l : level) : Prop := nodes l !! pwcs = None /\ nodes l !! fwcs = None.

Lemma node_of_set (l : level) t (n : node) t' :
  node_of (set_node l t n) t' = if decide (t = t') then Some n else node_of l t'.
Proof.
  unfold node_of, set_node. case_decide as Hd; [subst t'|].
  - destruct (String.eqb_spec t pwcs) as [->|]; [done|]. destruct (String.eqb_spec t fwcs) as [->|]; [done|].
    cbn. by rewrite lookup_insert_eq.
  - destruct (String.eqb_spec t pwcs), (String.eqb_spec t' pwcs), (String.eqb_spec t fwcs), (String.eqb_spec t' fwcs);
      try congruence; try done. cbn. by rewrite lookup_insert_ne.
Qed.

Lemma node_of_prune (l : level) t t' :
  node_of (pruneNode l t) t' = if decide (t = t') then None else node_of l t'.
Proof.
  unfold node_of, pruneNode. case_decide as Hd; [subst t'|].
  - destruct (String.eqb_spec t pwcs) as [->|]; [done|]. destruct (String.eqb_spec t fwcs) as [->|]; [done|].
    cbn. by rewrite lookup_delete_eq.
  - destruct (String.eqb_spec t pwcs), (String.eqb_spec t' pwcs), (String.eqb_spec t fwcs), (String.eqb_spec t' fwcs);
      try congruence; try done. cbn. by rewrite lookup_delete_ne.
Qed.

Lemma key_ok_set (l : level) t (n : node) : key_ok l -> key_ok (set_node l t n).
Proof.
  intros [H1 H2]. unfold set_node. destruct (String.eqb_spec t pwcs); [done|]. destruct (String.eqb_spec t fwcs); [done|].
  split; cbn; by rewrite lookup_insert_ne.
Qed.

Lemma key_ok_prune (l : level) t : key_ok l -> key_ok (pruneNode l t).
Proof.
  intros [H1 H2]. unfold pruneNode. repeat case_match; [done|done|].
  split; cbn; rewrite lookup_delete_None; by right.
Qed.

Lemma node_of_key (l : level) t : key_ok l -> wild_tok t = false -> nodes l !! t = node_of l t.
Proof. intros _ [H1 H2]%orb_false_iff. unfold node_of. by rewrite H1, H2. Qed.

Lemma nodes_lookup (l : level) t (n : node) : key_ok l -> nodes l !! t = Some n -> node_of l t = Some n /\ t <> pwcs /\ t <> fwcs.
Proof.
  intros [H1 H2] Hn. unfold node_of.
  destruct (String.eqb_spec t pwcs) as [->|]; [congruence|]. destruct (String.eqb_spec t fwcs) as [->|]; [congruence|done].
Qed.

Lemma numNodes_zero (l : level) : key_ok l -> numNodes l = 0%nat <-> forall t, node_of l t = None.
Proof.
  intros Hk. unfold numNodes. split.
  - intros H t. assert (nodes l = ∅) as Hn by (apply map_size_empty_inv; lia).
    unfold node_of. rewrite Hn. destruct (lpwc l), (lfwc l); try lia. by repeat case_match.
  - intros H. pose proof (H pwcs) as Hp. pose proof (H fwcs) as Hf. unfold node_of in Hp, Hf. cbn in Hp, Hf.
    rewrite Hp, Hf. assert (nodes l = ∅) as ->; [|done]. apply map_empty. intros t.
    destruct (nodes l !! t) as [n|] eqn:E; [|done]. destruct (nodes_lookup l t n Hk E) as [E' _]. congruence.
Qed.

Lemma numNodes_pos (l : level) : key_ok l -> numNodes l <> 0%nat -> exists t n, node_of l t = Some n.
Proof.
  intros Hk. unfold numNodes. destruct (lpwc l) as [n|] eqn:Ep; [by exists pwcs, n|].
  destruct (lfwc l) as [n|] eqn:Ef; [by exists fwcs, n|]. intros Hz.
  destruct (map_choose (nodes l)) as (t&n&Hn); [intros He; by rewrite He in Hz|].
  exists t, n. by apply nodes_lookup.
Qed.

(** ** The invariant

    [pok] are the payloads the operations build, [no_subs] the empty ones; the only empty
    payload is that of a new node.  Every node has a subscription or a node below it, and
    nothing is below [>]. *)

Section inv.
Context (p0 : P) (pok : P -> Prop) (no_subs : P -> bool).
Context (p0_ok : pok p0) (no_subs_p0 : no_subs p0 = true)
  (no_subs_eq : forall p, pok p -> no_subs p = true -> p = p0).

Inductive level_ok : level -> Prop :=
| level_ok_intro l :
    key_ok l -> (forall t n, node_of l t = Some n -> node_ok t n) -> level_ok l
with node_ok : string -> node -> Prop :=
| node_ok_intro t n :
    t <> ""%string -> pok (payload n) -> isEmpty no_subs n = false -> is_Some (next n) ->
    (forall l', next n = Some l' -> level_ok l') ->
    (forall l', next n = Some l' -> t = fwcs -> numNodes l' = 0%nat) ->
    node_ok t n.

Scheme level_ok_ind2 := Minimality for level_ok Sort Prop
with node_ok_ind2 := Minimality for node_ok Sort Prop.

Lemma level_ok_inv l : level_ok l -> key_ok l /\ forall t n, node_of l t = Some n -> node_ok t n.
Proof. by intros []. Qed.

Lemma node_ok_inv t n : node_ok t n ->
  t <> ""%string /\ pok (payload n) /\ (isEmpty no_subs n = false /\ is_Some (next n)) /\
  (forall l', next n = Some l' -> level_ok l' /\ (t = fwcs -> numNodes l' = 0%nat)).
Proof. intros []. split_and!; [done..|]. intros l' Hl'. split; [auto|intros; by eauto]. Qed.

Lemma node_ok_mk t n :
  t <> ""%string -> pok (payload n) -> isEmpty no_subs n = false -> is_Some (next n) ->
  (forall l', next n = Some l' -> level_ok l' /\ (t = fwcs -> numNodes l' = 0%nat)) -> node_ok t n.
Proof. intros ???? H. constructor; [done..| |]; intros l' Hl'; by apply H. Qed.

Lemma newLevel_ok : level_ok newLevel.
Proof.
  constructor; [done|]. intros t n. unfold node_of. cbn. by repeat case_match.
Qed.

Lemma set_node_ok l t n : level_ok l -> node_ok t n -> level_ok (set_node l t n).
Proof.
  intros [Hk Hn]%level_ok_inv Ht. constructor; [by apply key_ok_set|]. intros t' n'. rewrite node_of_set.
  case_decide; [intros [= <-]; by subst|apply Hn].
Qed.

Lemma prune_step_ok l t n :
  level_ok l -> t <> ""%string -> pok (payload n) -> is_Some (next n) ->
  (forall l', next n = Some l' -> level_ok l' /\ (t = fwcs -> numNodes l' = 0%nat)) ->
  level_ok (prune_step no_subs l t n).
Proof.
  intros Hl Ht Hp Hsn Hn. unfold prune_step. destruct (isEmpty no_subs n) eqn:E; [|by apply set_node_ok, node_ok_mk].
  apply level_ok_inv in Hl as [Hk Hl]. constructor; [by apply key_ok_prune|]. intros t' n'. rewrite node_of_prune.
  case_decide; [done|]. apply Hl.
Qed.

(** The effective payload of a pattern. *)
Definition get (l : level) (path : list string) : P := default p0 (payload_at l path).

Lemma get_payload l p : payload_at l p = None \/ payload_at l p = Some (get l p).
Proof. unfold get. destruct (payload_at l p); [by right|by left]. Qed.

Lemma payload_at_cons l t rest :
  payload_at l (t :: rest) =
    n ← node_of l t; match rest with [] => Some (payload n) | _ => l' ← next n; payload_at l' rest end.
Proof. cbn. destruct (node_of l t); [|done]. cbn. destruct rest; [done|]. by destruct (next _). Qed.

Lemma payload_at_ok path : forall l p, level_ok l -> payload_at l path = Some p -> pok p.
Proof.
  induction path as [|t rest IH]; intros l p Hl Hp; [done|]. rewrite payload_at_cons in Hp.
  apply level_ok_inv in Hl as [_ Hl]. destruct (node_of l t) as [n|] eqn:E; [|done]. cbn in Hp.
  apply Hl, node_ok_inv in E as (_&Hpk&_&Hn). destruct rest as [|t2 rest]; [by simplify_eq|].
  destruct (next n) as [l'|]; [|done]. cbn in Hp. eapply IH; [|done]. by apply Hn.
Qed.

Lemma get_ok l path : level_ok l -> pok (get l path).
Proof.
  intros Hl. unfold get. destruct (payload_at l path) as [p|] eqn:E; [|done]. by eapply payload_at_ok.
Qed.

(** Patterns of an empty level, and of a node's effective next level. *)
Lemma payload_at_empty l path : numNodes l = 0%nat -> key_ok l -> payload_at l path = None.
Proof. intros Hz Hk. destruct path as [|t rest]; [done|]. cbn. by rewrite (proj1 (numNodes_zero l Hk)). Qed.

Definition get_node (n : node) (rest : list string) : P :=
  match rest with [] => payload n | _ => get (default newLevel (next n)) rest end.

Lemma get_cons l t rest : get l (t :: rest) = get_node (default (Node p0 None) (node_of l t)) rest.
Proof.
  unfold get, get_node. rewrite payload_at_cons. destruct (node_of l t) as [n|]; cbn [mbind option_bind default from_option id].
  - destruct rest; [done|]. destruct (next n) as [l'|]; [done|]. cbn [mbind option_bind default from_option id].
    unfold get. by rewrite (payload_at_empty newLevel).
  - destruct rest; [done|]. unfold get. by rewrite (payload_at_empty newLevel).
Qed.

Lemma get_set l t n t' rest :
  get (set_node l t n) (t' :: rest) = if decide (t = t') then get_node n rest else get l (t' :: rest).
Proof. rewrite !get_cons, node_of_set. by case_decide. Qed.

Lemma get_prune_step l t n t' rest :
  pok (payload n) -> (forall l', next n = Some l' -> key_ok l') ->
  get (prune_step no_subs l t n) (t' :: rest) = if decide (t = t') then get_node n rest else get l (t' :: rest).
Proof.
  intros Hp Hk. unfold prune_step. destruct (isEmpty no_subs n) eqn:E; [|apply get_set].
  rewrite !get_cons, node_of_prune. case_decide; [|done]. cbn [default from_option].
  unfold isEmpty in E. apply andb_true_iff in E as [Hs%no_subs_eq Hz]; [|done]. unfold get_node.
  destruct rest as [|t2 rest]; [done|]. unfold get. cbn [next]. rewrite (payload_at_empty newLevel) by done.
  destruct (next n) as [l'|]; [|by rewrite (payload_at_empty newLevel)]. apply Nat.eqb_eq in Hz.
  cbn [default from_option id]. by rewrite payload_at_empty by (done || by apply Hk).
Qed.

(** The effective node of a token. *)
Lemma default_node_ok l t :
  level_ok l -> t <> ""%string ->
  let n := default (Node p0 None) (node_of l t) in
  pok (payload n) /\ level_ok (default newLevel (next n)) /\ (t = fwcs -> numNodes (default newLevel (next n)) = 0%nat).
Proof.
  intros [_ Hl]%level_ok_inv Ht. destruct (node_of l t) as [n|] eqn:E; cbn [default from_option id].
  - apply Hl, node_ok_inv in E as (_&Hp&_&Hn). split; [done|]. destruct (next n) as [l'|]; [by apply Hn|].
    split; [apply newLevel_ok|done].
  - split_and!; [done|apply newLevel_ok|done].
Qed.

Lemma set_node_nonzero l t n : key_ok l -> numNodes (set_node l t n) <> 0%nat.
Proof.
  intros Hk Hz. pose proof (proj1 (numNodes_zero _ (key_ok_set l t n Hk)) Hz t) as H.
  rewrite node_of_set, decide_True in H by done. done.
Qed.

(** ** Insert *)

Lemma insert_loop_ok {X} (upd : P -> P * X) toks : forall l,
  level_ok l -> valid_pat toks ->
  pok (upd (get l toks)).1 -> no_subs (upd (get l toks)).1 = false ->
  let '(l', r) := insert_loop p0 upd toks false l in
  r = Some (upd (get l toks)).2 /\ level_ok l' /\ numNodes l' <> 0%nat /\
  forall q, get l' q = if decide (q = toks) then (upd (get l toks)).1 else get l q.
Proof.
  induction toks as [|t rest IH]; intros l Hl Hv Hup Hus; [by destruct Hv|].
  apply valid_pat_cons in Hv as [Ht Hrest]. cbn [insert_loop].
  rewrite (proj2 (String.eqb_neq t "")) by done. cbn [orb].
  destruct (default_node_ok l t Hl Ht) as (Hp&Hnl&Hz). pose proof (level_ok_inv l Hl) as [Hk _].
  rewrite get_cons in Hup, Hus |- *.
  set (n := default (Node p0 None) (node_of l t)) in *.
  destruct rest as [|t2 rest].
  - cbn [get_node] in *. destruct (upd (payload n)) as [p x]. cbn [fst snd] in *.
    split_and!; [done| |by apply set_node_nonzero|].
    + apply set_node_ok; [done|]. apply node_ok_mk; [done|done|unfold isEmpty; cbn; by rewrite Hus|done|].
      cbn. by intros l' [= <-].
    + intros [|t' q]; [by rewrite decide_False|]. rewrite get_set. destruct (decide (t = t')) as [<-|Hne].
      * unfold get_node. cbn [payload next default from_option id]. destruct q as [|t3 q].
        -- by rewrite decide_True by done.
        -- rewrite decide_False by done. by rewrite (get_cons l t).
      * by rewrite decide_False by congruence.
  - destruct Hrest as [?|[Hf Hv]]; [done|]. rewrite (proj2 (String.eqb_neq t fwcs)) by done.
    cbn [get_node] in *.
    specialize (IH (default newLevel (next n)) Hnl Hv Hup Hus).
    destruct (insert_loop p0 upd (t2 :: rest) false _) as [l2 r]. destruct IH as (->&Hl2&Hz2&Hg).
    split_and!; [done| |by apply set_node_nonzero|].
    + apply set_node_ok; [done|]. apply node_ok_mk; [done|done| |done|cbn; by intros l' [= <-]].
      unfold isEmpty. cbn. apply andb_false_iff. right. by apply Nat.eqb_neq.
    + intros [|t' q]; [by rewrite decide_False|]. rewrite get_set. destruct (decide (t = t')) as [<-|Hne].
      * unfold get_node. cbn [payload next default from_option id]. destruct q as [|t3 q].
        -- rewrite decide_False by done. by rewrite get_cons.
        -- rewrite Hg, (get_cons l t). unfold get_node. fold n. repeat case_decide; congruence.
      * by rewrite decide_False by congruence.
Qed.

(** ** Remove *)

Lemma remove_loop_ok {X} (rm : P -> option (P * X)) toks : forall l,
  (forall p p' x, pok p -> rm p = Some (p', x) -> pok p') -> rm p0 = None ->
  level_ok l -> valid_pat toks ->
  match remove_loop no_subs rm toks false (Some l) with
  | inl e => e = ErrNotFound /\ rm (get l toks) = None
  | inr (l', x) => exists p', rm (get l toks) = Some (p', x) /\ level_ok l' /\
      forall q, get l' q = if decide (q = toks) then p' else get l q
  end.
Proof.
  induction toks as [|t rest IH]; intros l Hrm Hrm0 Hl Hv; [by destruct Hv|].
  apply valid_pat_cons in Hv as [Ht Hrest]. cbn [remove_loop].
  rewrite (proj2 (String.eqb_neq t "")) by done. cbn [orb]. rewrite get_cons.
  pose proof (level_ok_inv l Hl) as [Hk Hln].
  destruct (node_of l t) as [n|] eqn:En; cbn [default from_option id].
  - pose proof (node_ok_inv t n (Hln _ _ En)) as (_&Hp&[_ Hsn]&Hn). destruct rest as [|t2 rest].
    + cbn [get_node]. destruct (rm (payload n)) as [[p' x]|] eqn:Er; [|done]. exists p'. split; [done|].
      split; [apply prune_step_ok; [done|done|by eapply Hrm|done|done]|].
      intros [|t' q]; [by rewrite decide_False|].
      rewrite get_prune_step; [|by eapply Hrm|intros l' Hn'; by apply (level_ok_inv l'), Hn].
      destruct (decide (t = t')) as [<-|]; [|by rewrite decide_False by congruence].
      rewrite get_cons, En. unfold get_node. cbn [payload next default from_option id].
      destruct q; [by rewrite decide_True|by rewrite decide_False].
    + destruct Hrest as [?|[Hf Hv]]; [done|]. rewrite (proj2 (String.eqb_neq t fwcs)) by done.
      destruct (next n) as [l1|] eqn:Enx.
      * destruct (Hn l1 eq_refl) as [Hl1 Hz1]. specialize (IH l1 Hrm Hrm0 Hl1 Hv).
        unfold get_node. rewrite Enx. cbn [default from_option id].
        destruct (remove_loop no_subs rm (t2 :: rest) false (Some l1)) as [e|[l2 x]]; [done|].
        destruct IH as (p'&Hr&Hl2&Hg). exists p'. split; [done|].
        split; [apply prune_step_ok; [done|done|done|done|]; by intros l' [= <-]|].
        intros [|t' q]; [by rewrite decide_False|].
        rewrite get_prune_step; [|done|intros l' [= <-]; by apply (level_ok_inv l2)].
        destruct (decide (t = t')) as [<-|]; [|by rewrite decide_False by congruence].
        rewrite get_cons, En. unfold get_node. cbn [payload next default from_option id]. rewrite Enx.
        destruct q as [|t3 q]; [by rewrite decide_False|]. cbn [default from_option id]. rewrite Hg.
        repeat case_decide; congruence.
      * assert (remove_loop no_subs rm (t2 :: rest) false None = inl ErrNotFound) as ->.
        { destruct Hv as (_&[Ht2 _]%Forall_cons&_). cbn. by rewrite (proj2 (String.eqb_neq t2 "")) by done. }
        split; [done|]. unfold get_node. rewrite Enx. unfold get. by rewrite payload_at_empty.
  - assert (rm (get_node (Node p0 None) rest) = None) as Hnone.
    { destruct rest; [done|]. unfold get_node, get. cbn [next default from_option id].
      by rewrite (payload_at_empty newLevel). }
    destruct rest as [|t2 rest]; [done|]. destruct Hrest as [?|[Hf Hv]]; [done|].
    rewrite (proj2 (String.eqb_neq t fwcs)) by done.
    assert (remove_loop no_subs rm (t2 :: rest) false None = inl ErrNotFound) as ->; [|done].
    destruct Hv as (_&[Ht2 _]%Forall_cons&_). cbn. by rewrite (proj2 (String.eqb_neq t2 "")) by done.
Qed.

(** ** Match *)

(** The nodes [matchLevel] visits, in order, with their patterns. *)
Fixpoint collect (l : option level) (toks : list string) : list (list string * P) :=
  match toks, l with
  | t :: rest, Some l =>
      (match lfwc l with Some f => [([fwcs], payload f)] | None => [] end) ++
      (match lpwc l with
       | Some p => prod_map (cons pwcs) id <$> collect (next p) rest
       | None => []
       end) ++
      (match rest with
       | [] =>
           (match nodes l !! t with Some n => [([t], payload n)] | None => [] end) ++
           (match lpwc l with Some p => [([pwcs], payload p)] | None => [] end)
       | _ => match nodes l !! t with Some n => prod_map (cons t) id <$> collect (next n) rest | None => [] end
       end)
  | _, _ => []
  end.

Lemma fold_left_paths {R} (add : P -> R -> R) (k : string) (c : list (list string * P)) r :
  fold_left (fun r (px : list string * P) => add px.2 r) (prod_map (cons k) id <$> c) r =
  fold_left (fun r (px : list string * P) => add px.2 r) c r.
Proof. revert r. induction c as [|[p x] c IH]; intros r; [done|]. cbn. by rewrite IH. Qed.

Lemma matchLevel_collect {R} (add : P -> R -> R) toks : forall l r,
  matchLevel add l toks r = fold_left (fun r (px : list string * P) => add px.2 r) (collect l toks) r.
Proof.
  induction toks as [|t rest IH]; intros l r; [by destruct l|]. destruct l as [l|]; [|done].
  cbn [matchLevel collect]. rewrite !fold_left_app.
  assert (add_node add (lfwc l) r = fold_left (fun r (px : list string * P) => add px.2 r)
    (match lfwc l with Some f => [([fwcs], payload f)] | None => [] end) r) as -> by (by destruct (lfwc l)).
  set (r1 := fold_left _ _ r).
  assert (match lpwc l with Some p => matchLevel add (next p) rest r1 | None => r1 end =
    fold_left (fun r (px : list string * P) => add px.2 r)
    (match lpwc l with Some p => prod_map (cons pwcs) id <$> collect (next p) rest | None => [] end) r1) as ->.
  { destruct (lpwc l) as [n|]; [|done]. by rewrite fold_left_paths, IH. }
  set (r2 := fold_left _ _ r1). destruct rest as [|t2 rest].
  - rewrite fold_left_app. by destruct (nodes l !! t), (lpwc l).
  - destruct (nodes l !! t) as [n|]; [|done]. by rewrite fold_left_paths, IH.
Qed.

Lemma collect_nonempty toks : forall l p x, (p, x) ∈ collect l toks -> p <> [].
Proof.
  destruct toks as [|t rest]; intros [l|] p x; cbn [collect]; rewrite ?elem_of_nil; try done.
  rewrite !elem_of_app. intros [H|[H|H]].
  - destruct (lfwc l); [|by apply elem_of_nil in H]. apply list_elem_of_singleton in H as [= -> _]. done.
  - destruct (lpwc l); [|by apply elem_of_nil in H]. apply list_elem_of_fmap in H as ([q y]&[= -> _]&_). done.
  - destruct rest as [|t2 rest].
    + apply elem_of_app in H as [H|H].
      * destruct (nodes l !! t); [|by apply elem_of_nil in H]. apply list_elem_of_singleton in H as [= -> _]. done.
      * destruct (lpwc l); [|by apply elem_of_nil in H]. apply list_elem_of_singleton in H as [= -> _]. done.
    + destruct (nodes l !! t); [|by apply elem_of_nil in H]. apply list_elem_of_fmap in H as ([q y]&[= -> _]&_). done.
Qed.

(** Patterns below a token. *)
Lemma elem_of_paths (k : string) (c : list (list string * P)) p x :
  (p, x) ∈ (prod_map (cons k) id <$> c) <-> exists q, p = k :: q /\ (q, x) ∈ c.
Proof.
  rewrite list_elem_of_fmap. split.
  - intros ([q y]&[= -> ->]&Hq). by exists q.
  - intros (q&->&Hq). by exists (q, x).
Qed.

Definition opt_payload_at (l : option level) (p : list string) : option P := l' ← l; payload_at l' p.

Lemma payload_at_child l t n q : node_of l t = Some n -> q <> [] ->
  payload_at l (t :: q) = opt_payload_at (next n) q.
Proof. intros Hn Hq. rewrite payload_at_cons, Hn. by destruct q. Qed.

Lemma tok_match_nil_r p : tok_match p [] = true -> p = [].
Proof. by destruct p. Qed.

Lemma collect_spec toks : forall l, (forall l', l = Some l' -> level_ok l') ->
  forall p x, (p, x) ∈ collect l toks <-> opt_payload_at l p = Some x /\ tok_match p toks = true.
Proof.
  induction toks as [|t rest IH]; intros l Hl p x.
  { cbn [collect]. split; [by intros ?%elem_of_nil|]. intros [Hp ->%tok_match_nil_r]. by destruct l. }
  destruct l as [l|]; [|split; [by intros ?%elem_of_nil|by intros [? _]]].
  pose proof (level_ok_inv l (Hl l eq_refl)) as [Hk Hn]. cbn [collect opt_payload_at mbind option_bind].
  assert (forall n k, node_of l k = Some n -> forall l', next n = Some l' -> level_ok l') as Hnx
    by (intros n k Hnk l' Hl'; by apply Hn, node_ok_inv in Hnk as (_&_&_&Hnk); apply Hnk).
  rewrite !elem_of_app. split.
  - intros [H|[H|H]].
    + destruct (lfwc l) as [f|] eqn:Ef; [|by apply elem_of_nil in H]. apply list_elem_of_singleton in H as [= -> ->].
      cbn. by rewrite Ef.
    + destruct (lpwc l) as [n|] eqn:Ep; [|by apply elem_of_nil in H].
      assert (node_of l pwcs = Some n) as Hpn by done.
      apply elem_of_paths in H as (q&->&Hq). pose proof (collect_nonempty _ _ _ _ Hq) as Hne.
      apply IH in Hq as [Hq Hm]; [|by eapply Hnx]. by rewrite (payload_at_child l pwcs n).
    + destruct rest as [|t2 rest]; [apply elem_of_app in H as [H|H]|].
      * destruct (nodes l !! t) as [n|] eqn:En; [|by apply elem_of_nil in H].
        apply list_elem_of_singleton in H as [= -> ->]. apply nodes_lookup in En as (En&H1&H2); [|done].
        rewrite payload_at_cons, En. cbn [tok_match]. rewrite (proj2 (String.eqb_neq t fwcs)) by done.
        by rewrite String.eqb_refl, orb_true_r.
      * destruct (lpwc l) as [n|] eqn:Ep; [|by apply elem_of_nil in H].
        apply list_elem_of_singleton in H as [= -> ->]. cbn. by rewrite Ep.
      * destruct (nodes l !! t) as [n|] eqn:En; [|by apply elem_of_nil in H].
        apply nodes_lookup in En as (En&H1&H2); [|done]. apply elem_of_paths in H as (q&->&Hq).
        pose proof (collect_nonempty _ _ _ _ Hq) as Hne. apply IH in Hq as [Hq Hm]; [|by eapply Hnx].
        rewrite (payload_at_child l t n) by done. split; [done|]. cbn [tok_match] in Hm |- *.
        rewrite (proj2 (String.eqb_neq t fwcs)), String.eqb_refl, orb_true_r by done. exact Hm.
  - intros [Hp Hm]. destruct p as [|t0 q]; [done|]. cbn [tok_match] in Hm.
    destruct (node_of l t0) as [n|] eqn:En; [|by rewrite payload_at_cons, En in Hp].
    destruct (String.eqb_spec t0 fwcs) as [->|Hf].
    { destruct q; [|done]. left. unfold node_of in En. cbn in En. rewrite En. rewrite payload_at_cons in Hp.
      unfold node_of in Hp. cbn in Hp. rewrite En in Hp. cbn in Hp. simplify_eq. by left. }
    right. apply andb_true_iff in Hm as [Hh Hm]. destruct (String.eqb_spec t0 pwcs) as [->|Hpw].
    + assert (lpwc l = Some n) as Ep by done. rewrite Ep. destruct q as [|t3 q].
      * destruct rest; [|done]. right. apply elem_of_app. right. rewrite payload_at_cons, En in Hp.
        cbn in Hp. simplify_eq. by apply list_elem_of_singleton.
      * left. apply elem_of_paths. exists (t3 :: q). split; [done|]. rewrite (payload_at_child l pwcs n) in Hp by done.
        apply IH; [by eapply Hnx|done].
    + cbn [orb] in Hh. apply String.eqb_eq in Hh as ->. right.
      assert (nodes l !! t = Some n) as Ent
        by (rewrite node_of_key; [done|done|unfold wild_tok; apply orb_false_iff; by rewrite !String.eqb_neq]).
      rewrite Ent. destruct q as [|t3 q].
      * destruct rest; [|done]. apply elem_of_app. left. rewrite payload_at_cons, En in Hp. cbn in Hp. simplify_eq.
        by apply list_elem_of_singleton.
      * destruct rest as [|t2 rest]; [done|]. apply elem_of_paths. exists (t3 :: q). split; [done|].
        rewrite (payload_at_child l t n) in Hp by done. apply IH; [by eapply Hnx|done].
Qed.

Lemma collect_NoDup toks : forall l, (forall l', l = Some l' -> level_ok l') -> NoDup (collect l toks).*1.
Proof.
  assert (forall k (c : list (list string * P)), NoDup c.*1 -> NoDup (prod_map (cons k) id <$> c).*1) as Hmap.
  { intros k c Hc. rewrite <- list_fmap_compose.
    replace ((fst ∘ prod_map (cons k) id) <$> c) with (cons k <$> c.*1) by (by rewrite <- list_fmap_compose).
    apply NoDup_fmap_2; [|done]. by intros ? ? [= ->]. }
  assert (forall k (c : list (list string * P)) p, p ∈ (prod_map (cons k) id <$> c).*1 -> exists q, p = k :: q /\ q ∈ c.*1) as Hin.
  { intros k c p ([p' x]&->&H)%list_elem_of_fmap. apply elem_of_paths in H as (q&->&Hq).
    exists q. split; [done|]. by apply (list_elem_of_fmap_2 fst _ (q, x)). }
  induction toks as [|t rest IH]; intros l Hl; [by apply NoDup_nil|]. destruct l as [l|]; [|by apply NoDup_nil].
  pose proof (level_ok_inv l (Hl l eq_refl)) as [Hk Hn]. cbn [collect].
  assert (forall n k, node_of l k = Some n -> NoDup (collect (next n) rest).*1) as Hnx.
  { intros n k Hnk. apply IH. intros l' Hl'. apply Hn, node_ok_inv in Hnk as (_&_&_&Hnk). by apply Hnk. }
  assert (forall n, nodes l !! t = Some n -> node_of l t = Some n /\ t <> pwcs /\ t <> fwcs) as Ht
    by (intros; by apply nodes_lookup).
  rewrite !fmap_app, !NoDup_app. split_and!.
  - destruct (lfwc l); [apply NoDup_singleton|apply NoDup_nil]; done.
  - intros p Hp. assert (p = [fwcs]) as -> by (destruct (lfwc l); [by apply list_elem_of_singleton in Hp|by apply elem_of_nil in Hp]).
    rewrite not_elem_of_app. split.
    + destruct (lpwc l); [|apply not_elem_of_nil]. intros (q&[=]&_)%Hin.
    + destruct rest as [|t2 rest]; [rewrite fmap_app, not_elem_of_app; split|].
      * destruct (nodes l !! t) as [n|] eqn:E; [|apply not_elem_of_nil]. destruct (Ht n eq_refl) as (_&_&?).
        intros [= ?]%list_elem_of_singleton. congruence.
      * destruct (lpwc l); [|apply not_elem_of_nil]. by intros [=]%list_elem_of_singleton.
      * destruct (nodes l !! t) as [n|] eqn:E; [|apply not_elem_of_nil]. destruct (Ht n eq_refl) as (_&_&?).
        intros (q&[= ? _]&_)%Hin. congruence.
  - destruct (lpwc l) as [n|] eqn:Ep; [|apply NoDup_nil; done]. apply Hmap. by apply (Hnx n pwcs).
  - intros p Hp. destruct (lpwc l) as [n|] eqn:Ep; [|by apply elem_of_nil in Hp]. apply Hin in Hp as (q&->&Hq).
    destruct rest as [|t2 rest]; [by destruct (next n); apply elem_of_nil in Hq|].
    destruct (nodes l !! t) as [n2|] eqn:E; [|apply not_elem_of_nil]. destruct (Ht n2 eq_refl) as (_&?&_).
    intros (q'&[= ? _]&_)%Hin. congruence.
  - destruct rest as [|t2 rest].
    + destruct (nodes l !! t) as [n|] eqn:E, (lpwc l); cbn; try apply NoDup_singleton; try (by apply NoDup_nil).
      destruct (Ht n eq_refl) as (_&?&_). apply NoDup_cons. split; [|apply NoDup_singleton].
      intros [= ?]%list_elem_of_singleton. congruence.
    + destruct (nodes l !! t) as [n|] eqn:E; [|by apply NoDup_nil]. apply Hmap. destruct (Ht n eq_refl) as (Hnt&_).
      by apply (Hnx n t).
Qed.

(** ** Interest *)

Lemma fwc_has_subs l f : level_ok l -> lfwc l = Some f -> no_subs (payload f) = false.
Proof.
  intros [_ Hn]%level_ok_inv Hf. assert (node_of l fwcs = Some f) as E by done.
  apply Hn, node_ok_inv in E as (_&_&[He [l' Hl']]&Hnx). destruct (Hnx l' Hl') as [_ Hz].
  unfold isEmpty in He. rewrite Hl', Hz in He by done. by rewrite andb_true_r in He.
Qed.

Lemma matchLevelForAny_ok {C} (cnt : P -> C -> C) (has_subs : P -> bool)
    (Hhas : forall p, pok p -> has_subs p = negb (no_subs p)) toks : forall l c, (forall l', l = Some l' -> level_ok l') ->
  (matchLevelForAny cnt has_subs l toks c).1 = existsb (fun px : list string * P => has_subs px.2) (collect l toks).
Proof.
  assert (forall k (c : list (list string * P)), existsb (fun px : list string * P => has_subs px.2) (prod_map (cons k) id <$> c) =
    existsb (fun px : list string * P => has_subs px.2) c) as Hmap.
  { intros k c. induction c as [|[p x] c IH]; [done|]. cbn. by rewrite IH. }
  induction toks as [|t rest IH]; intros l c Hl; [by destruct l|]. destruct l as [l|]; [|done].
  specialize (Hl l eq_refl). pose proof (level_ok_inv l Hl) as [Hk Hn]. cbn [matchLevelForAny collect].
  assert (forall n k c, node_of l k = Some n -> (matchLevelForAny cnt has_subs (next n) rest c).1 =
    existsb (fun px : list string * P => has_subs px.2) (collect (next n) rest)) as Hnx.
  { intros n k c' Hnk. apply IH. intros l' Hl'. apply Hn, node_ok_inv in Hnk as (_&_&_&Hnk). by apply Hnk. }
  rewrite !existsb_app. destruct (lfwc l) as [f|] eqn:Ef.
  { cbn. rewrite Hhas, (fwc_has_subs l f) by (done || by apply (node_ok_inv fwcs), Hn). done. }
  cbn [existsb orb].
  assert (forall m c1 n, nodes l !! t = n ->
    (let '(b, c2) := (m : bool, c1 : C) in
     if b then (true, c2) else
     match rest with
     | [] => let '(m, c) := check_node cnt has_subs n c2 in if m then (true, c) else check_node cnt has_subs (lpwc l) c
     | _ :: _ => match n with Some n => matchLevelForAny cnt has_subs (next n) rest c2 | None => (false, c2) end
     end).1 = m || existsb (fun px : list string * P => has_subs px.2)
       (match rest with
        | [] => (match n with Some n => [([t], payload n)] | None => [] end) ++
                (match lpwc l with Some p => [([pwcs], payload p)] | None => [] end)
        | _ => match n with Some n => prod_map (cons t) id <$> collect (next n) rest | None => [] end
        end)) as Hend.
  { intros [|] c1 n E; [done|]. cbn [orb]. destruct rest as [|t2 rest].
    - rewrite existsb_app. destruct n as [n|]; cbn; [|by destruct (lpwc l); cbn; rewrite ?orb_false_r].
      destruct (has_subs (payload n)); [done|]. by destruct (lpwc l); cbn; rewrite ?orb_false_r.
    - destruct n as [n|]; [|done]. rewrite Hmap. apply nodes_lookup in E as (E&_); [|done]. by apply (Hnx n t). }
  destruct (lpwc l) as [n|] eqn:Ep.
  - rewrite Hmap. pose proof (Hnx n pwcs c Ep) as Hp. destruct (matchLevelForAny cnt has_subs (next n) rest c) as [m c1].
    cbn [fst] in Hp. rewrite <- Hp. by apply Hend.
  - cbn [existsb orb]. by apply (Hend false c).
Qed.

(** A non-empty level has a pattern with subscriptions. *)
Lemma level_has_subs l : level_ok l -> numNodes l <> 0%nat ->
  exists p x, payload_at l p = Some x /\ no_subs x = false.
Proof.
  intros Hl. apply (level_ok_ind2
    (fun l => numNodes l <> 0%nat -> exists p x, payload_at l p = Some x /\ no_subs x = false)
    (fun t n => no_subs (payload n) = false \/
       exists l' p x, next n = Some l' /\ payload_at l' p = Some x /\ no_subs x = false)); [| |done].
  - clear l Hl. intros l Hk _ IH Hz. destruct (numNodes_pos l Hk Hz) as (t&n&Hn).
    destruct (IH t n Hn) as [Hs|(l'&p&x&Hl'&Hp&Hs)].
    + exists [t], (payload n). by rewrite payload_at_cons, Hn.
    + exists (t :: p), x. destruct p as [|t2 p]; [done|]. rewrite payload_at_cons, Hn. cbn [mbind option_bind].
      by rewrite Hl'.
  - intros t n _ _ He [l' Hl'] _ IH _. destruct (no_subs (payload n)) eqn:E; [|by left]. right.
    unfold isEmpty in He. rewrite E, Hl' in He. cbn in He. apply Nat.eqb_neq in He.
    destruct (IH l' Hl' He) as (p&x&?&?). by exists l', p, x.
Qed.

(** Whether a pattern can match a subject that begins with the tokens. *)
Fixpoint start_tok_match (pat toks : list string) {struct toks} : bool :=
  match toks, pat with
  | [], _ => true
  | t :: ts, p :: ps =>
      if String.eqb p fwcs then (match ps with [] => true | _ => false end)
      else (String.eqb p pwcs || String.eqb p t) && start_tok_match ps ts
  | _, _ => false
  end.

(** A node has a pattern with subscriptions, its own or one below it. *)
Lemma node_has_subs l t n : level_ok l -> node_of l t = Some n ->
  exists q x, payload_at l (t :: q) = Some x /\ no_subs x = false.
Proof.
  intros Hl Hn. pose proof (level_ok_inv l Hl) as [_ Hnn].
  pose proof (node_ok_inv t n (Hnn t n Hn)) as (_&_&[He [l' Hl']]&Hnx). destruct (Hnx l' Hl') as [Hlo _].
  destruct (no_subs (payload n)) eqn:E.
  - unfold isEmpty in He. rewrite E, Hl' in He. cbn in He. apply Nat.eqb_neq in He.
    destruct (level_has_subs l' Hlo He) as (p&x&Hp&Hx). exists p, x.
    destruct p as [|t2 p]; [done|]. rewrite payload_at_cons, Hn. cbn [mbind option_bind]. by rewrite Hl'.
  - exists [], (payload n). by rewrite payload_at_cons, Hn.
Qed.

Lemma hasInterestStartingIn_ok toks : forall l, level_ok l -> toks <> [] ->
  hasInterestStartingIn (Some l) toks = true <->
  exists p x, payload_at l p = Some x /\ no_subs x = false /\ start_tok_match p toks = true.
Proof.
  induction toks as [|t rest IH]; intros l Hl Hne; [done|]. pose proof (level_ok_inv l Hl) as [Hk Hn].
  assert (forall k n, node_of l k = Some n -> k <> fwcs ->
    hasInterestStartingIn (next n) rest = true <->
    exists q x, payload_at l (k :: q) = Some x /\ no_subs x = false /\ start_tok_match q rest = true) as Hchild.
  { intros k n Hkn Hkf. pose proof (node_ok_inv k n (Hn k n Hkn)) as (_&_&[_ [l' Hl']]&Hnx).
    destruct (Hnx l' Hl') as [Hlo _]. rewrite Hl'. destruct rest as [|t2 rest].
    - split; [|done]. intros _. destruct (node_has_subs l k n Hl Hkn) as (q&x&?&?). by exists q, x.
    - rewrite IH by done. split.
      + intros (p&x&Hp&Hx&Hm). exists p, x. split_and!; [|done|done]. destruct p as [|t3 p]; [done|].
        rewrite payload_at_cons, Hkn. cbn [mbind option_bind]. by rewrite Hl'.
      + intros (q&x&Hp&Hx&Hm). exists q, x. split_and!; [|done|done]. destruct q as [|t3 q]; [done|].
        rewrite payload_at_cons, Hkn in Hp. cbn [mbind option_bind] in Hp. by rewrite Hl' in Hp. }
  cbn [hasInterestStartingIn]. destruct (lfwc l) as [f|] eqn:Ef.
  { split; [|done]. intros _. exists [fwcs], (payload f). split_and!; [by cbn; rewrite Ef|by eapply fwc_has_subs|done]. }
  assert (match lpwc l with Some p => hasInterestStartingIn (next p) rest | None => false end = true <->
    exists q x, payload_at l (pwcs :: q) = Some x /\ no_subs x = false /\ start_tok_match q rest = true) as Hpwc.
  { destruct (lpwc l) as [n|] eqn:Ep; [by apply Hchild|]. split; [done|]. intros (q&x&Hq&_). cbn in Hq. by rewrite Ep in Hq. }
  transitivity ((match lpwc l with Some p => hasInterestStartingIn (next p) rest | None => false end = true) \/
    (match nodes l !! t with Some n => hasInterestStartingIn (next n) rest | None => false end = true)).
  { destruct (nodes l !! t); [by rewrite orb_true_iff|]. naive_solver. }
  rewrite Hpwc. split.
  - intros [(q&x&?&?&?)|Hnode]; [by exists (pwcs :: q), x|]. destruct (nodes l !! t) as [n|] eqn:Et; [|done].
    apply nodes_lookup in Et as (Et&H1&H2); [|done]. apply (Hchild t n Et H2) in Hnode as (q&x&?&?&?).
    exists (t :: q), x. split_and!; [done|done|]. cbn [start_tok_match].
    by rewrite (proj2 (String.eqb_neq t fwcs)), String.eqb_refl, orb_true_r by done.
  - intros (p&x&Hp&Hx&Hm). destruct p as [|k q]; [done|]. cbn [start_tok_match] in Hm.
    destruct (String.eqb_spec k fwcs) as [->|Hkf]; [by cbn in Hp; rewrite Ef in Hp|].
    apply andb_true_iff in Hm as [Hh Hm]. destruct (String.eqb_spec k pwcs) as [->|Hkp]; [left; by exists q, x|].
    right. cbn [orb] in Hh. apply String.eqb_eq in Hh as ->.
    assert (exists n, node_of l t = Some n) as [n Hnt].
    { rewrite payload_at_cons in Hp. destruct (node_of l t) as [n|]; [by exists n|done]. }
    assert (nodes l !! t = Some n) as ->
      by (rewrite node_of_key; [done|done|unfold wild_tok; apply orb_false_iff; by rewrite !String.eqb_neq]).
    apply (Hchild t n Hnt Hkf). by exists q, x.
Qed.
End inv.
End spec.

(** Subjects a subscription can have. *)
Definition valid_subject (s : string) : Prop := valid_pat (split s).
