(* ===== verification/Gsl.v ===== *)
(** * Generic sublist (src/server/gsl/gsl.go)

    A trie of values by subject pattern.  [rng] is the order in which Go ranges over the map
    of values of a node; callbacks thread a state. *)

From S2P Require Import Prelude Subject Trie.
Import Subj.

Module Gsl.

Section gsl.
Context {T : Type} `{Countable T}.

(** [node.subs]: value to subject. *)
Notation subs := (gmap T string).

Record GenericSublist : Type := mkSublist {
  root : Trie.level subs;
  count : Z;
}.

Definition NewSublist : GenericSublist := mkSublist Trie.newLevel 0.

(** [Some] is [ErrInvalidSubject]. *)
Definition Insert (s : GenericSublist) (subject : string) (value : T)
  : GenericSublist * option Trie.trie_error :=
  let '(l, ok) := Trie.insert_loop ∅ (fun n => (<[value := subject]> n, tt)) (split subject) false (root s) in
  match ok with
  | Some _ => (mkSublist l (u32 (count s + 1)), None)
  | None => (mkSublist l (count s), Some Trie.ErrInvalidSubject)
  end.

Section matching.
Variable rng : subs -> list (T * string).
Context {C : Type}.
Variable cb : C -> T -> C.

Definition callbacksForResults (n : subs) (c : C) : C := fold_left (fun c p => cb c p.1) (rng n) c.

Definition matchLevel (l : option (Trie.level subs)) (toks : list string) (c : C) : C :=
  Trie.matchLevel callbacksForResults l toks c.

Definition Match (s : GenericSublist) (subject : string) (c : C) : C :=
  match match_tokens subject with
  | None => c
  | Some tokens => matchLevel (Some (root s)) tokens c
  end.
End matching.

Definition matchLevelForAny (l : option (Trie.level subs)) (toks : list string) (np : Z) : bool * Z :=
  Trie.matchLevelForAny (fun n np => np + Z.of_nat (size n)) (fun n => Nat.ltb 0 (size n)) l toks np.

Definition hasInterest (s : GenericSublist) (subject : string) (np : Z) : bool * Z :=
  match match_tokens subject with
  | None => (false, np)
  | Some tokens => matchLevelForAny (Some (root s)) tokens np
  end.

Definition HasInterest (s : GenericSublist) (subject : string) : bool := (hasInterest s subject 0).1.
Definition NumInterest (s : GenericSublist) (subject : string) : Z := (hasInterest s subject 0).2.

Definition MatchesFullWildcard (s : GenericSublist) : bool :=
  match Trie.lfwc (root s) with Some _ => true | None => false end.

Definition removeFromNode (value : T) (n : subs) : option (subs * unit) :=
  match n !! value with Some _ => Some (delete value n, tt) | None => None end.

Definition no_subs (n : subs) : bool := Nat.eqb (size n) 0.

Definition Remove (s : GenericSublist) (subject : string) (value : T)
  : GenericSublist * option Trie.trie_error :=
  match Trie.remove_loop no_subs (removeFromNode value) (split subject) false (Some (root s)) with
  | inl e => (s, Some e)
  | inr (l, _) => (mkSublist l (u32 (count s - 1)), None)
  end.

Definition HasInterestStartingIn (s : GenericSublist) (subj : string) : bool :=
  Trie.hasInterestStartingIn (Some (root s)) (tokenizeSubjectIntoSlice [] subj).

Definition Count (s : GenericSublist) : Z := count s.

End gsl.
Arguments GenericSublist : clear implicits.
Arguments GenericSublist T {_ _}.
End Gsl.
