(* ===== verification/GslSpec.v ===== *)
(** * Generic sublist: properties

    The sublist is a set of (subject, value) pairs; [Match] calls back exactly the values whose
    subject matches, and [HasInterest] tells whether there is one. *)

From S2P Require Import Prelude Subject SubjectSpec Trie TrieSpec Gsl.
Import Subj Gsl.

Section spec.
Context {T : Type} `{Countable T}.
Notation subs := (gmap T string).
Notation GS := (GenericSublist T).

Definition any_payload (n : subs) : Prop := True.

Lemma no_subs_eq (n : subs) : any_payload n -> no_subs n = true -> n = ∅.
Proof. intros _ Hn. by apply map_size_empty_inv, Nat.eqb_eq. Qed.

Notation level_ok := (level_ok any_payload no_subs).
Notation get := (get (∅ : subs)).

(** The sublist [s] stores the pairs [S]. *)
Record stores (s : GS) (S : gset (string * T)) : Prop := {
  st_ok : level_ok (root s);
  st_at : forall p v subj, get (root s) p !! v = Some subj -> p = split subj;
  st_mem : forall subj v, (subj, v) ∈ S <-> is_Some (get (root s) (split subj) !! v);
}.

Lemma new_stores : stores NewSublist ∅.
Proof.
  split.
  - apply newLevel_ok.
  - intros p v subj. unfold get. by rewrite payload_at_empty.
  - intros subj v. unfold get. rewrite payload_at_empty by done. cbn. rewrite lookup_empty. split; [set_solver|by intros [? ?]].
Qed.

Lemma gsl_Insert_ok s S subject value :
  stores s S -> valid_subject subject ->
  let '(s', err) := Insert s subject value in
  err = None /\ stores s' (S ∪ {[(subject, value)]}) /\ count s' = u32 (count s + 1).
Proof.
  intros [Hok Hat Hmem] Hv. unfold Insert.
  pose proof (insert_loop_ok ∅ any_payload no_subs I (fun n => (<[value := subject]> n, tt)) (split subject) (root s)) as Hi.
  destruct (Trie.insert_loop _ _ _ _ _) as [l ok]. destruct Hi as (->&Hl&_&Hg); [done|done|done| |cbn [fst] in Hg].
  { apply Nat.eqb_neq. intros He%map_size_empty_inv.
    exact (insert_non_empty _ _ _ He). }
  split_and!; [done| |done]. split; cbn [root]; [done| |].
  - intros p v subj. rewrite Hg. case_decide as Hd; [|apply Hat]. subst p.
    rewrite lookup_insert. case_decide; [by intros [= ->]|apply Hat].
  - intros subj v. rewrite elem_of_union, elem_of_singleton, Hmem, Hg. case_decide as Hd.
    + apply split_inj in Hd as ->. rewrite lookup_insert. case_decide as Hv'; [subst; naive_solver|].
      split; [intros [?|[= ->]]; done|by left].
    + split; [intros [?|[= -> ->]]; done|by left].
Qed.

Lemma Remove_ok s S subject value :
  stores s S -> valid_subject subject ->
  let '(s', err) := Remove s subject value in
  if decide ((subject, value) ∈ S)
  then err = None /\ stores s' (S ∖ {[(subject, value)]}) /\ count s' = u32 (count s - 1)
  else err = Some Trie.ErrNotFound /\ s' = s.
Proof.
  intros [Hok Hat Hmem] Hv. unfold Remove.
  pose proof (remove_loop_ok ∅ any_payload no_subs no_subs_eq (removeFromNode value) (split subject) (root s)) as Hr.
  destruct (Trie.remove_loop _ _ _ _ _) as [e|[l x]].
  - destruct Hr as [-> Hr]; [done|done|done|done|]. rewrite decide_False; [done|]. rewrite Hmem.
    unfold removeFromNode in Hr. destruct (get (root s) (split subject) !! value); [done|]. by intros [? ?].
  - destruct Hr as (p'&Hr&Hl&Hg); [done|done|done|done|]. unfold removeFromNode in Hr.
    destruct (get (root s) (split subject) !! value) as [subj0|] eqn:E; [|done]. injection Hr as <- _.
    rewrite decide_True by (rewrite Hmem, E; done). split_and!; [done| |done]. split; cbn [root]; [done| |].
    + intros p v subj. rewrite Hg. case_decide as Hd; [|apply Hat]. subst p.
      intros [_ ?]%lookup_delete_Some. by apply Hat in H0.
    + intros subj v. rewrite elem_of_difference, elem_of_singleton, Hmem, Hg. case_decide as Hd.
      * apply split_inj in Hd as ->. rewrite lookup_delete_is_Some.
        split; [intros [? Hne]; split; [congruence|done]|intros [Hne ?]; split; [done|congruence]].
      * split; [by intros [? _]|]. intros ?. split; [done|]. intros [= -> ->]. done.
Qed.

(** ** Match *)

Section matching.
Context (rng : subs -> list (T * string)) (rng_perm : forall m, rng m ≡ₚ map_to_list m).

(** The pairs a match visits, in order. *)
Definition visited (l : option (Trie.level subs)) (toks : list string) : list (string * T) :=
  collect l toks ≫= fun pm => (fun vs => (vs.2, vs.1)) <$> rng pm.2.

Lemma fold_visited {C} (cb : C -> T -> C) (c : C) (ps : list (list string * subs)) :
  fold_left (fun c (px : list string * subs) => callbacksForResults rng cb px.2 c) ps c =
  fold_left cb (ps ≫= fun pm => (fun vs => (vs.2, vs.1)) <$> rng pm.2).*2 c.
Proof.
  revert c. induction ps as [|[p m] ps IH]; intros c; [done|]. rewrite bind_cons, fmap_app, fold_left_app.
  cbn [fold_left fst snd]. rewrite IH. f_equal. unfold callbacksForResults.
  generalize c. induction (rng m) as [|[v x] l IHl]; intros c0; [done|]. cbn. apply IHl.
Qed.

Lemma elem_of_visited s S toks subj v :
  stores s S -> (subj, v) ∈ visited (Some (root s)) toks <->
    (subj, v) ∈ S /\ tok_match (split subj) toks = true.
Proof.
  intros [Hok Hat Hmem]. unfold visited. rewrite list_elem_of_bind. split.
  - intros ([p m]&Hin&Hc). apply (collect_spec any_payload no_subs) in Hc as [Hp Hm]; [|by intros ? [= <-]].
    cbn in Hp, Hin. apply list_elem_of_fmap in Hin as ([v' s']&[= -> ->]&Hin). rewrite rng_perm in Hin.
    apply elem_of_map_to_list in Hin. cbn in Hin.
    assert (get (root s) p !! v' = Some s') as Hg by (unfold get; by rewrite Hp).
    pose proof (Hat _ _ _ Hg) as ->. split; [|done]. rewrite Hmem. by eexists.
  - intros [Hin Hm]. apply Hmem in Hin as [s' Hs']. pose proof (Hat _ _ _ Hs') as E. apply split_inj in E as <-.
    destruct (get_payload ∅ (root s) (split subj)) as [Hn|Hp]; [unfold get in Hs'; by rewrite Hn in Hs'|].
    exists (split subj, get (root s) (split subj)). split.
    + cbn. apply list_elem_of_fmap. exists (v, subj). split; [done|]. rewrite rng_perm. by apply elem_of_map_to_list.
    + apply (collect_spec any_payload no_subs); [by intros ? [= <-]|done].
Qed.

Lemma visited_NoDup s S toks : stores s S -> NoDup (visited (Some (root s)) toks).
Proof.
  intros [Hok Hat Hmem]. assert (forall l', Some (root s) = Some l' -> level_ok l') as Hl by (by intros ? [= <-]).
  unfold visited. apply NoDup_bind.
  - eapply NoDup_fmap_1, (collect_NoDup any_payload no_subs), Hl.
  - intros [p m] Hin. cbn. apply NoDup_fmap_2_strong.
    + intros [v1 s1] [v2 s2] _ _ [= -> ->]. done.
    + rewrite rng_perm. apply NoDup_map_to_list.
  - intros [p1 m1] [p2 m2] [subj v] H1 H2 Hz1 Hz2.
    apply (collect_spec any_payload no_subs) in H1 as [H1 _]; [|done].
    apply (collect_spec any_payload no_subs) in H2 as [H2 _]; [|done]. cbn in H1, H2.
    apply list_elem_of_fmap in Hz1 as ([v1 s1]&[= -> ->]&Hz1), Hz2 as ([v2 s2]&[= -> ->]&Hz2).
    cbn in Hz1, Hz2. rewrite rng_perm in Hz1, Hz2. apply elem_of_map_to_list in Hz1, Hz2.
    assert (p1 = split s2) as -> by (eapply (Hat p1 v2); unfold get; by rewrite H1).
    assert (p2 = split s2) as -> by (eapply (Hat p2 v2); unfold get; by rewrite H2). congruence.
Qed.
End matching.

Lemma has_subs_ok (n : subs) : Nat.ltb 0 (size n) = negb (no_subs n).
Proof. unfold no_subs. destruct (size n); done. Qed.

Lemma HasInterest_ok s S toks np :
  stores s S ->
  (matchLevelForAny (Some (root s)) toks np).1 = true <->
  exists subj v, (subj, v) ∈ S /\ tok_match (split subj) toks = true.
Proof.
  intros Hst. pose proof Hst as [Hok Hat Hmem]. unfold matchLevelForAny.
  rewrite (matchLevelForAny_ok any_payload no_subs); [|intros p _; apply has_subs_ok|by intros ? [= <-]].
  rewrite existsb_exists. split.
  - intros ([p m]&Hin&Hs). apply list_elem_of_In in Hin.
    apply (collect_spec any_payload no_subs) in Hin as [Hp Hm]; [|by intros ? [= <-]]. cbn in Hp. cbn [snd] in Hs.
    rewrite has_subs_ok in Hs. destruct (map_choose m) as (v&subj&Hv); [intros ->; done|].
    assert (get (root s) p !! v = Some subj) as Hg by (unfold get; by rewrite Hp).
    pose proof (Hat _ _ _ Hg) as ->. exists subj, v. split; [|done]. apply Hmem. by eexists.
  - intros (subj&v&Hin&Hm). apply Hmem in Hin as [s' Hs'].
    destruct (get_payload ∅ (root s) (split subj)) as [Hn|Hp]; [unfold get in Hs'; by rewrite Hn in Hs'|].
    exists (split subj, get (root s) (split subj)). split.
    + apply list_elem_of_In, (collect_spec any_payload no_subs); [by intros ? [= <-]|done].
    + cbn [snd]. rewrite has_subs_ok. apply negb_true_iff. unfold no_subs. apply Nat.eqb_neq. intros He%map_size_empty_inv.
      rewrite He in Hs'. done.
Qed.

Lemma get_fwc (s : GS) :
  get (root s) (split ">") = match Trie.lfwc (root s) with Some f => Trie.payload f | None => ∅ end.
Proof.
  change (split ">") with [fwcs]. unfold get. rewrite payload_at_cons.
  change (Trie.node_of (root s) fwcs) with (Trie.lfwc (root s)). by destruct (Trie.lfwc (root s)).
Qed.

Lemma full_wildcard_ok s S : stores s S -> MatchesFullWildcard s = true <-> exists v, (">"%string, v) ∈ S.
Proof.
  intros [Hok Hat Hmem]. unfold MatchesFullWildcard. split.
  - destruct (Trie.lfwc (root s)) as [f|] eqn:Ef; [|done]. intros _.
    pose proof (fwc_has_subs any_payload no_subs _ _ Hok Ef) as Hf.
    destruct (map_choose (Trie.payload f)) as (v&subj&Hv); [intros He; by rewrite He in Hf|]. exists v. apply Hmem.
    rewrite get_fwc, Ef. by eexists.
  - intros [v Hv]. apply Hmem in Hv as [x Hx]. rewrite get_fwc in Hx. by destruct (Trie.lfwc (root s)).
Qed.

Lemma starting_in_ok s S subj : stores s S ->
  HasInterestStartingIn s subj = true <->
  exists sub v, (sub, v) ∈ S /\ start_tok_match (split sub) (split subj) = true.
Proof.
  intros [Hok Hat Hmem]. unfold HasInterestStartingIn. change (tokenizeSubjectIntoSlice [] subj) with (split subj).
  rewrite (hasInterestStartingIn_ok any_payload no_subs) by (done || apply split_not_nil). split.
  - intros (p&m&Hp&Hs&Hm). destruct (map_choose m) as (v&sub&Hv); [intros ->; done|].
    assert (get (root s) p !! v = Some sub) as Hg by (unfold get; by rewrite Hp).
    pose proof (Hat _ _ _ Hg) as ->. exists sub, v. split; [|done]. apply Hmem. by eexists.
  - intros (sub&v&Hin&Hm). apply Hmem in Hin as [s' Hs'].
    destruct (get_payload ∅ (root s) (split sub)) as [Hn|Hp]; [unfold get in Hs'; by rewrite Hn in Hs'|].
    exists (split sub), (get (root s) (split sub)). split_and!; [done| |done]. unfold no_subs. apply Nat.eqb_neq.
    intros He%map_size_empty_inv. by rewrite He in Hs'.
Qed.

(** ** Operation sequences *)

Inductive gsl_op : Type := GInsert (subj : string) (v : T) | GRemove (subj : string) (v : T).

Definition op_subject (o : gsl_op) : string := match o with GInsert s _ => s | GRemove s _ => s end.

Definition run_op (s : GS) (o : gsl_op) : GS * option Trie.trie_error :=
  match o with GInsert subj v => Insert s subj v | GRemove subj v => Remove s subj v end.

(** The operations on a set of pairs, and the number of insertions of a pair that was there. *)
Definition set_op (st : gset (string * T) * Z) (o : gsl_op)
  : (gset (string * T) * Z) * option Trie.trie_error :=
  let '(A, again) := st in
  match o with
  | GInsert subj v => ((A ∪ {[(subj, v)]}, if decide ((subj, v) ∈ A) then again + 1 else again), None)
  | GRemove subj v =>
      if decide ((subj, v) ∈ A) then ((A ∖ {[(subj, v)]}, again), None) else ((A, again), Some Trie.ErrNotFound)
  end.

Fixpoint run_ops {St} (f : St -> gsl_op -> St * option Trie.trie_error) (st : St) (ops : list gsl_op)
  : St * list (option Trie.trie_error) :=
  match ops with
  | [] => (st, [])
  | o :: ops => let '(st, e) := f st o in let '(st, es) := run_ops f st ops in (st, e :: es)
  end.

Lemma gsl_run_op_ok s A again o :
  stores s A -> valid_subject (op_subject o) -> count s = u32 (Z.of_nat (size A) + again) ->
  let '(s', e) := run_op s o in
  let '((A', again'), e') := set_op (A, again) o in
  e = e' /\ stores s' A' /\ count s' = u32 (Z.of_nat (size A') + again').
Proof.
  intros Hst Hv Hc. destruct o as [subj v|subj v]; cbn in *.
  - pose proof (gsl_Insert_ok s A subj v Hst Hv) as Hi. destruct (Insert s subj v) as [s' e].
    destruct Hi as (->&Hs&Hcnt). split_and!; [done|done|]. rewrite Hcnt, Hc. unfold u32. rewrite Zplus_mod_idemp_l. f_equal.
    case_decide as Hd; [by replace (A ∪ {[(subj, v)]}) with A by set_solver; lia|].
    rewrite size_union by set_solver. rewrite size_singleton. lia.
  - pose proof (Remove_ok s A subj v Hst Hv) as Hr. destruct (Remove s subj v) as [s' e].
    destruct (decide ((subj, v) ∈ A)) as [Hin|Hn].
    + destruct Hr as (->&Hs&Hcnt). split_and!; [done|done|]. rewrite Hcnt, Hc.
      assert (size A <> 0%nat). { intros Hz%size_empty_inv. set_solver. }
      rewrite size_difference by set_solver. rewrite size_singleton.
      unfold u32. rewrite Zminus_mod_idemp_l. f_equal. lia.
    + by destruct Hr as [-> ->].
Qed.

Lemma run_ops_ok ops : forall s A again,
  stores s A -> Forall (fun o => valid_subject (op_subject o)) ops ->
  count s = u32 (Z.of_nat (size A) + again) ->
  let '(s', es) := run_ops run_op s ops in
  let '((A', again'), es') := run_ops set_op (A, again) ops in
  es = es' /\ stores s' A' /\ count s' = u32 (Z.of_nat (size A') + again').
Proof.
  induction ops as [|o ops IH]; intros s A again Hst Hv Hc; [done|]. apply Forall_cons in Hv as [Ho Hv].
  pose proof (gsl_run_op_ok s A again o Hst Ho Hc) as Hr. cbn [run_ops].
  destruct (run_op s o) as [s1 e], (set_op (A, again) o) as [[S1 again1] e']. destruct Hr as (->&Hst1&Hc1).
  specialize (IH s1 S1 again1 Hst1 Hv Hc1).
  destruct (run_ops run_op s1 ops) as [s2 es], (run_ops set_op (S1, again1) ops) as [[S2 again2] es'].
  destruct IH as (->&?&?). done.
Qed.
End spec.
Arguments gsl_op : clear implicits.

(** ** Properties *)

(** C10. On valid subjects the sublist is a set of (subject, value) pairs: any sequence of
    [Insert] and [Remove] answers as the set does, [ErrNotFound] exactly for absent pairs.
    [Count], modulo 2^32, is the number of pairs plus the number of insertions of a pair that
    was already there, which the set does not grow by and the counter does. *)
Theorem gsl_refines_set {T : Type} `{Countable T} (ops : list (gsl_op T))
    (Hv : Forall (fun o => valid_subject (op_subject o)) ops) :
  let '(s, es) := run_ops run_op NewSublist ops in
  let '((A, again), es') := run_ops set_op (∅, 0) ops in
  es = es' /\ stores s A /\ Count s = u32 (Z.of_nat (size A) + again).
Proof. by apply run_ops_ok; [apply new_stores|..]. Qed.

Definition sample_gsl_ops : list (gsl_op Z) :=
  [GInsert "foo.*" 1; GInsert "foo.bar" 2; GInsert ">" 3; GInsert ">" 3; GRemove "foo.bar" 2; GRemove "foo.bar" 7].

Lemma sample_gsl_valid : Forall (fun o => valid_subject (op_subject o)) sample_gsl_ops.
Proof.
  repeat (apply Forall_cons; split;
    [split_and!; [done|repeat (apply Forall_cons; split; [done|]); by apply Forall_nil|by repeat split]|]).
  by apply Forall_nil.
Qed.

Lemma gsl_refines_set_witness :
  (run_ops run_op NewSublist sample_gsl_ops).2 = [None; None; None; None; None; Some Trie.ErrNotFound] /\
  (run_ops set_op (∅, 0) sample_gsl_ops).1.2 = 1 /\
  let '(s, es) := run_ops run_op NewSublist sample_gsl_ops in
  let '((A, again), es') := run_ops set_op (∅, 0) sample_gsl_ops in
  es = es' /\ stores s A /\ Count s = u32 (Z.of_nat (size A) + again).
Proof. split; [vm_compute; reflexivity|]. split; [vm_compute; reflexivity|]. apply gsl_refines_set, sample_gsl_valid. Defined.

(** [Match] calls back exactly the values whose subject matches, once per stored pair, for
    every order in which Go ranges over a node's values and every stateful callback; a subject
    with an empty token matches nothing. *)
Theorem gsl_match_exact {T : Type} `{Countable T} (s : GenericSublist T) (A : gset (string * T))
    (rng : gmap T string -> list (T * string)) (C : Type) (cb : C -> T -> C) (subject : string) (c : C)
    (Hs : stores s A) (Hrng : forall m, rng m ≡ₚ map_to_list m) :
  exists calls : list (string * T), NoDup calls /\
    (forall subj v, (subj, v) ∈ calls <->
       (subj, v) ∈ A /\ tok_match (split subj) (split subject) = true /\ no_empty (split subject)) /\
    Match rng cb s subject c = fold_left cb calls.*2 c.
Proof.
  unfold Match. rewrite match_tokens_ok. destruct (existsb empty_tok (split subject)) eqn:E.
  - exists []. split_and!; [by apply NoDup_nil| |done]. intros subj v. split; [by intros ?%elem_of_nil|].
    intros (_&_&Hne%no_empty_spec). congruence.
  - exists (visited rng (Some (root s)) (split subject)). split_and!; [by eapply visited_NoDup| |].
    + intros subj v. rewrite (elem_of_visited rng Hrng s A) by done. apply no_empty_spec in E. naive_solver.
    + unfold matchLevel. by rewrite matchLevel_collect, fold_visited.
Qed.

Lemma gsl_match_exact_witness :
  exists calls : list (string * Z), NoDup calls /\
    (forall subj v, (subj, v) ∈ calls <->
       (subj, v) ∈ ({[("foo.*"%string, 1)]} : gset (string * Z)) /\ tok_match (split subj) (split "foo.bar") = true /\
       no_empty (split "foo.bar")) /\
    Match map_to_list (fun c v => c ++ [v]) (Insert NewSublist "foo.*" 1).1 "foo.bar" [] = fold_left (fun c v => c ++ [v]) calls.*2 [].
Proof.
  apply gsl_match_exact; [|done].
  pose proof (gsl_Insert_ok NewSublist ∅ "foo.*" 1 new_stores) as Hi.
  destruct (Insert NewSublist "foo.*" 1) as [s e]. cbn [fst].
  assert (stores s (∅ ∪ {[("foo.*"%string, 1)]})) as Hst
    by (apply Hi; split_and!; [done|repeat (apply Forall_cons; split; [done|]); by apply Forall_nil|by repeat split]).
  by rewrite (left_id_L ∅ (∪)) in Hst.
Defined.

(** [HasInterest] holds exactly when a stored subject matches; [HasInterestStartingIn]
    exactly when one can match a subject that begins with the given tokens; and
    [MatchesFullWildcard] exactly when [>] is stored. *)
Theorem gsl_interest_exact {T : Type} `{Countable T} (s : GenericSublist T) (A : gset (string * T)) (subject : string)
    (Hs : stores s A) :
  (HasInterest s subject = true <-> no_empty (split subject) /\
     exists subj v, (subj, v) ∈ A /\ tok_match (split subj) (split subject) = true) /\
  (HasInterestStartingIn s subject = true <->
     exists sub v, (sub, v) ∈ A /\ start_tok_match (split sub) (split subject) = true) /\
  (MatchesFullWildcard s = true <-> exists v, (">"%string, v) ∈ A).
Proof.
  split_and!; [|by apply starting_in_ok|by apply full_wildcard_ok].
  unfold HasInterest, hasInterest. rewrite match_tokens_ok. destruct (existsb empty_tok (split subject)) eqn:E.
  - split; [done|]. intros [Hne%no_empty_spec _]. congruence.
  - rewrite (HasInterest_ok s A) by done. apply no_empty_spec in E. naive_solver.
Qed.

Lemma gsl_interest_exact_witness :
  HasInterest (NewSublist (T := Z)) "foo" = true <-> no_empty (split "foo") /\
     exists subj v, (subj, v) ∈ (∅ : gset (string * Z)) /\ tok_match (split subj) (split "foo") = true.
Proof. exact (proj1 (gsl_interest_exact NewSublist ∅ "foo" new_stores)). Defined.

(** ** Divergences *)

(** A rejected [Insert] leaves empty nodes behind, and a [>] node counts as interest without
    looking at its subscriptions. *)
Example invalid_insert_leaves_interest :
  let '(s, err) := Insert (NewSublist (T := Z)) "foo.>.bar" 1 in
  err = Some Trie.ErrInvalidSubject /\ Count s = 0 /\ HasInterest s "foo.baz" = true /\ NumInterest s "foo.baz" = 0.
Proof. by vm_compute. Qed.

(** Inserting a stored pair again counts it twice. *)
Example duplicate_insert_counts :
  Count (Remove (Insert (Insert (NewSublist (T := Z)) "foo" 1).1 "foo" 1).1 "foo" 1).1 = 1.
Proof. by vm_compute. Qed.

(** [NumInterest] stops at the first match. *)
Example num_interest_stops :
  NumInterest (Insert (Insert (NewSublist (T := Z)) ">" 1).1 "foo" 2).1 "foo" = 1.
Proof. by vm_compute. Qed.
