(* ===== verification/Sublist.v ===== *)
(** * Sublist

    src/server/sublist.go: the subject trie with plain and queue subscriptions, the cache of
    match results, and the notifications on a change of interest.

    A [*subscription] is a record with an identity.  The weight of a remote queue subscription
    is updated in place by its owner, so the weights are an argument [qw] of the match.  The
    orders in which Go ranges over its maps are the class [SubOrder].  A step that can index an
    empty queue group, which panics, returns an option. *)

From S2P Require Import Prelude Subject Trie.
Import Subj.

(** The kinds of connections of client.go. *)
Inductive client_kind : Type := CLIENT | ROUTER | GATEWAY | SYSTEM | LEAF | JETSTREAM | ACCOUNT.
#[export] Instance client_kind_eq_dec : EqDecision client_kind := ltac:(solve_decision).
#[export] Instance client_kind_countable : Countable client_kind.
Proof.
  refine (inj_countable'
    (fun k => match k with CLIENT => 0 | ROUTER => 1 | GATEWAY => 2 | SYSTEM => 3 | LEAF => 4 | JETSTREAM => 5 | ACCOUNT => 6 end)
    (fun n => match n with 0 => CLIENT | 1 => ROUTER | 2 => GATEWAY | 3 => SYSTEM | 4 => LEAF | 5 => JETSTREAM | _ => ACCOUNT end) _).
  by intros [].
Defined.

(** The fields of a subscription the sublist reads; [sub_client] is the kind of the client and
    the [isSpoke] of its leaf data, if it has any. *)
Record subscription : Type := mkSub {
  sub_id : Z;
  sub_client : option (client_kind * option bool);
  sub_subject : string;
  sub_queue : option string;
}.
#[export] Instance subscription_eq_dec : EqDecision subscription := ltac:(solve_decision).
#[export] Instance subscription_countable : Countable subscription.
Proof.
  refine (inj_countable' (fun s => (sub_id s, sub_client s, sub_subject s, sub_queue s))
    (fun '(i, c, s, q) => mkSub i c s q) _). by intros [].
Defined.

Notation subset := (gset subscription).

(** The iteration orders of a node's [map[*subscription]struct{}] and of its [qsubs]. *)
Class SubOrder : Type := {
  rng_subs : subset -> list subscription;
  rng_queues : gmap string subset -> list (string * subset);
}.

Class SubOrderLaws `{SubOrder} : Prop := {
  rng_subs_perm : forall X, rng_subs X ≡ₚ elements X;
  rng_queues_perm : forall m, rng_queues m ≡ₚ map_to_list m;
}.

Module Sl.

Definition slCacheMax : nat := 1024.
Definition slCacheSweep : nat := 256.
Definition plistMin : nat := 256.

Record SublistResult : Type := mkResult { psubs : list subscription; qsubs : list (list subscription) }.

Definition emptyResult : SublistResult := mkResult [] [].

(** The fields of a node other than [next]. *)
Record node_subs : Type := mkNode {
  npsubs : subset;
  nqsubs : gmap string subset;
  nplist : option (list subscription);
}.

Definition newNode : node_subs := mkNode ∅ ∅ None.

(** Channels are numbered. *)
Record notifyMaps : Type := mkNotify { ninsert : gmap string (list Z); nremove : gmap string (list Z) }.

Record Sublist : Type := mkSublist {
  genid : Z;
  matches : Z;
  cacheHits : Z;
  inserts : Z;
  removes : Z;
  root : Trie.level node_subs;
  cache : option (gmap string SublistResult);
  ccSweep : bool;
  notify : option notifyMaps;
  count : Z;
}.

Definition NewSublist (enableCache : bool) : Sublist :=
  mkSublist 0 0 0 0 0 Trie.newLevel (if enableCache then Some ∅ else None) false None 0.

Definition NewSublistWithCache : Sublist := NewSublist true.
Definition NewSublistNoCache : Sublist := NewSublist false.

Definition CacheEnabled (s : Sublist) : bool := match cache s with Some _ => true | None => false end.

Definition with_cache (s : Sublist) (c : option (gmap string SublistResult)) : Sublist :=
  mkSublist (genid s) (matches s) (cacheHits s) (inserts s) (removes s) (root s) c (ccSweep s) (notify s) (count s).
Definition with_sweep (s : Sublist) (b : bool) : Sublist :=
  mkSublist (genid s) (matches s) (cacheHits s) (inserts s) (removes s) (root s) (cache s) b (notify s) (count s).
Definition with_notify (s : Sublist) (n : option notifyMaps) : Sublist :=
  mkSublist (genid s) (matches s) (cacheHits s) (inserts s) (removes s) (root s) (cache s) (ccSweep s) n (count s).
Definition add_genid (s : Sublist) : Sublist :=
  mkSublist (u64 (genid s + 1)) (matches s) (cacheHits s) (inserts s) (removes s) (root s) (cache s) (ccSweep s) (notify s) (count s).
Definition add_matches (s : Sublist) : Sublist :=
  mkSublist (genid s) (u64 (matches s + 1)) (cacheHits s) (inserts s) (removes s) (root s) (cache s) (ccSweep s) (notify s) (count s).
Definition add_cacheHits (s : Sublist) : Sublist :=
  mkSublist (genid s) (matches s) (u64 (cacheHits s + 1)) (inserts s) (removes s) (root s) (cache s) (ccSweep s) (notify s) (count s).
Definition inserted (s : Sublist) (l : Trie.level node_subs) : Sublist :=
  mkSublist (genid s) (matches s) (cacheHits s) (u64 (inserts s + 1)) (removes s) l (cache s) (ccSweep s) (notify s) (u32 (count s + 1)).
Definition removed (s : Sublist) (l : Trie.level node_subs) : Sublist :=
  mkSublist (genid s) (matches s) (cacheHits s) (inserts s) (u64 (removes s + 1)) l (cache s) (ccSweep s) (notify s) (u32 (count s - 1)).
Definition with_root (s : Sublist) (l : Trie.level node_subs) : Sublist :=
  mkSublist (genid s) (matches s) (cacheHits s) (inserts s) (removes s) l (cache s) (ccSweep s) (notify s) (count s).

(** ** Results *)

(** [bytes.Equal] takes nil and the empty slice for equal. *)
Definition queue_is (q : string) (sub : subscription) : bool := String.eqb q (default ""%string (sub_queue sub)).

Fixpoint findQSlot_loop (q : string) (i : nat) (qsl : list (list subscription)) : option nat :=
  match qsl with
  | [] => None
  | (s :: _) :: rest => if queue_is q s then Some i else findQSlot_loop q (S i) rest
  | [] :: rest => findQSlot_loop q (S i) rest
  end.

Definition findQSlot (queue : option string) (qsl : list (list subscription)) : option nat :=
  match queue with None => None | Some q => findQSlot_loop q 0 qsl end.

Definition isRemoteQSub (sub : subscription) : bool :=
  match sub_queue sub, sub_client sub with
  | Some _, Some (ROUTER, _) | Some _, Some (LEAF, _) => true
  | _, _ => false
  end.

(** [append] to the group in slot [i]. *)
Definition append_slot (i : nat) (subs : list subscription) (qsl : list (list subscription)) : list (list subscription) :=
  alter (fun g => g ++ subs) i qsl.

Definition copyResult (r : SublistResult) : SublistResult := mkResult (psubs r) (qsubs r).

Definition addSubToResult (r : SublistResult) (sub : subscription) : SublistResult :=
  let nr := copyResult r in
  match sub_queue sub with
  | None => mkResult (psubs nr ++ [sub]) (qsubs nr)
  | Some q =>
      match findQSlot (Some q) (qsubs nr) with
      | Some i => mkResult (psubs nr) (append_slot i [sub] (qsubs nr))
      | None => mkResult (psubs nr) (qsubs nr ++ [[sub]])
      end
  end.

(** ** Cache updates *)

Definition addToCache (s : Sublist) (subject : string) (sub : subscription) : Sublist :=
  match cache s with
  | None => s
  | Some c =>
      if subjectIsLiteral subject then
        match c !! subject with
        | Some r => with_cache s (Some (<[subject := addSubToResult r sub]> c))
        | None => s
        end
      else
        with_cache s (Some (map_imap (fun key r =>
          Some (if matchLiteral key subject then addSubToResult r sub else r)) c))
  end.

Definition removeFromCache (s : Sublist) (subject : string) : Sublist :=
  match cache s with
  | None => s
  | Some c =>
      if subjectIsLiteral subject then with_cache s (Some (delete subject c))
      else with_cache s (Some (filter (fun kr => matchLiteral kr.1 subject = false) c))
  end.

(** The sweep, for the order [keys] in which the cache is ranged over. *)
Fixpoint sweep_loop (keys : list string) (c : gmap string SublistResult) : gmap string SublistResult :=
  match keys with
  | [] => c
  | key :: keys =>
      let c := delete key c in
      if Nat.leb (size c) slCacheSweep then c else sweep_loop keys c
  end.

Definition reduceCacheCount (s : Sublist) (keys : list string) : Sublist :=
  match cache s with
  | None => with_sweep s false
  | Some c => with_sweep (with_cache s (Some (sweep_loop keys c))) false
  end.

(** The weight of the subscription has been changed by the caller. *)
Definition UpdateRemoteQSub (s : Sublist) (sub : subscription) : Sublist :=
  add_genid (removeFromCache s (sub_subject sub)).

(** ** Match *)

Section ops.
Context `{SubOrder}.
Variable qw : subscription -> Z.

Definition expand (sub : subscription) : list subscription :=
  if isRemoteQSub sub then replicate (Z.to_nat (qw sub)) sub else [sub].

Definition add_group (qsl : list (list subscription)) (qr : string * subset) : list (list subscription) :=
  if Nat.eqb (size qr.2) 0 then qsl else
  let '(i, qsl) :=
    match findQSlot (Some qr.1) qsl with
    | Some i => (i, qsl)
    | None => (length qsl, qsl ++ [[]])
    end in
  fold_left (fun qsl sub => append_slot i (expand sub) qsl) (rng_subs qr.2) qsl.

Definition addNodeToResults (n : node_subs) (results : SublistResult) : SublistResult :=
  mkResult
    (psubs results ++ match nplist n with Some l => l | None => rng_subs (npsubs n) end)
    (fold_left add_group (rng_queues (nqsubs n)) (qsubs results)).

Definition matchLevel (l : option (Trie.level node_subs)) (toks : list string) (results : SublistResult) : SublistResult :=
  Trie.matchLevel addNodeToResults l toks results.

Definition match_ (s : Sublist) (subject : string) : Sublist * SublistResult :=
  let s := add_matches s in
  match c ← cache s; c !! subject with
  | Some r => (add_cacheHits s, r)
  | None =>
      match match_tokens subject with
      | None => (s, emptyResult)
      | Some tokens =>
          let result := matchLevel (Some (root s)) tokens emptyResult in
          match cache s with
          | None => (s, result)
          | Some c =>
              let c := <[subject := result]> c in
              let s := with_cache s (Some c) in
              (if Nat.ltb slCacheMax (size c) && negb (ccSweep s) then with_sweep s true else s, result)
          end
      end
  end.

Definition Match (s : Sublist) (subject : string) : Sublist * SublistResult := match_ s subject.

(** ** Interest *)

Definition qsubs_len (m : gmap string subset) : Z :=
  foldr Z.add 0 ((fun qr => Z.of_nat (size (qr.2))) <$> rng_queues m).

Definition count_node (n : node_subs) (c : Z * Z) : Z * Z :=
  (c.1 + Z.of_nat (size (npsubs n)), c.2 + qsubs_len (nqsubs n)).

Definition has_subs (n : node_subs) : bool :=
  match nplist n with Some (_ :: _) => true | _ => false end || Nat.ltb 0 (size (npsubs n)) || Nat.ltb 0 (size (nqsubs n)).

Definition matchLevelForAny (l : option (Trie.level node_subs)) (toks : list string) (c : Z * Z) : bool * (Z * Z) :=
  Trie.matchLevelForAny count_node has_subs l toks c.

Definition hasInterest (s : Sublist) (subject : string) : Sublist * (bool * (Z * Z)) :=
  let '(matched, c) :=
    match c ← cache s; c !! subject with
    | Some r =>
        (Nat.ltb 0 (length (psubs r) + length (qsubs r)),
         (Z.of_nat (length (psubs r)), foldr Z.add 0 ((fun g => Z.of_nat (length g)) <$> qsubs r)))
    | None => (false, (0, 0))
    end in
  if matched then (add_cacheHits s, (true, c)) else
  match match_tokens subject with
  | None => (s, (false, c))
  | Some tokens => (s, matchLevelForAny (Some (root s)) tokens c)
  end.

Definition HasInterest (s : Sublist) (subject : string) : Sublist * bool :=
  let '(s, (b, _)) := hasInterest s subject in (s, b).
Definition NumInterest (s : Sublist) (subject : string) : Sublist * (Z * Z) :=
  let '(s, (_, c)) := hasInterest s subject in (s, c).

(** ** Notifications *)

(** Non-blocking sends on channels, in order. *)
Notation sends := (list (Z * bool)).

Definition keyFromSubjectAndQueue (subject queue : string) : string :=
  if String.eqb queue "" then subject else subject +:+ " " +:+ queue.

Definition send_all (chs : list Z) (hasInterest : bool) : sends := (fun ch => (ch, hasInterest)) <$> chs.

Definition chkForInsertNotification (n : notifyMaps) (subject queue : string) : notifyMaps * sends :=
  let key := keyFromSubjectAndQueue subject queue in
  match default [] (ninsert n !! key) with
  | [] => (n, [])
  | chs =>
      (mkNotify (delete key (ninsert n)) (<[key := default [] (nremove n !! key) ++ chs]> (nremove n)),
       send_all chs true)
  end.

(** The search of a result for the exact subject and queue; only the first subscription of a
    queue group is looked at. *)
Fixpoint queue_scan (subject queue : string) (qsl : list (list subscription)) : option bool :=
  match qsl with
  | [] => Some false
  | [] :: _ => None
  | (qs :: _) :: rest =>
      if String.eqb (sub_subject qs) subject && queue_is queue qs then Some true else queue_scan subject queue rest
  end.

Definition exact_interest (r : SublistResult) (subject queue : string) : option bool :=
  if String.eqb queue "" then Some (existsb (fun sub => String.eqb (sub_subject sub) subject) (psubs r))
  else queue_scan subject queue (qsubs r).

Definition chkForRemoveNotification (s : Sublist) (n : notifyMaps) (subject queue : string) : option (Sublist * sends) :=
  let key := keyFromSubjectAndQueue subject queue in
  match default [] (nremove n !! key) with
  | [] => Some (s, [])
  | chs =>
      let '(s, r) := match_ s subject in
      hasInterest ← exact_interest r subject queue;
      if (hasInterest : bool) then Some (s, []) else
      Some (with_notify s (Some (mkNotify (<[key := default [] (ninsert n !! key) ++ chs]> (ninsert n)) (delete key (nremove n)))),
            send_all chs false)
  end.

(** ** Insert *)

(** The change to the last node, and [isnew]. *)
Definition insert_node (sub : subscription) (n : node_subs) : node_subs * bool :=
  match sub_queue sub with
  | None =>
      let ps := {[sub]} ∪ npsubs n in
      (mkNode ps (nqsubs n)
         match nplist n with
         | Some l => Some (l ++ [sub])
         | None => if Nat.ltb plistMin (size ps) then Some (rng_subs ps) else None
         end,
       Nat.eqb (size ps) 1)
  | Some q =>
      match nqsubs n !! q with
      | Some subs => (mkNode (npsubs n) (<[q := {[sub]} ∪ subs]> (nqsubs n)) (nplist n), false)
      | None => (mkNode (npsubs n) (<[q := {[sub]}]> (nqsubs n)) (nplist n), true)
      end
  end.

(** [haswc]: a token is [*] or [>]. *)
Definition haswc (subject : string) : bool :=
  existsb (fun t => String.eqb t pwcs || String.eqb t fwcs) (split subject).

Definition Insert (s : Sublist) (sub : subscription) : Sublist * sends * option Trie.trie_error :=
  let subject := sub_subject sub in
  let '(l, r) := Trie.insert_loop newNode (insert_node sub) (split subject) false (root s) in
  match r with
  | None => (with_root s l, [], Some Trie.ErrInvalidSubject)
  | Some isnew =>
      let s := add_genid (addToCache (inserted s l) subject sub) in
      match notify s with
      | Some n =>
          if isnew && negb (haswc subject) && Nat.ltb 0 (size (ninsert n)) then
            let '(n, out) := chkForInsertNotification n subject (default ""%string (sub_queue sub)) in
            (with_notify s (Some n), out, None)
          else (s, [], None)
      | None => (s, [], None)
      end
  end.

(** ** Remove *)

Definition no_subs (n : node_subs) : bool := Nat.eqb (size (npsubs n)) 0 && Nat.eqb (size (nqsubs n)) 0.

(** [None] when not found (a queue group is never stored empty, so nothing changes); the flag
    is [last]. *)
Definition removeFromNode (sub : subscription) (n : node_subs) : option (node_subs * bool) :=
  match sub_queue sub with
  | None =>
      if decide (sub ∈ npsubs n) then
        let ps := npsubs n ∖ {[sub]} in
        Some (mkNode ps (nqsubs n) None, Nat.eqb (size ps) 0)
      else None
  | Some q =>
      match nqsubs n !! q with
      | Some qsub =>
          if decide (sub ∈ qsub) then
            let qsub := qsub ∖ {[sub]} in
            if Nat.eqb (size qsub) 0 then Some (mkNode (npsubs n) (delete q (nqsubs n)) (nplist n), true)
            else Some (mkNode (npsubs n) (<[q := qsub]> (nqsubs n)) (nplist n), false)
          else None
      | None => None
      end
  end.

Definition remove (s : Sublist) (sub : subscription) (doCacheUpdates : bool)
  : option (Sublist * sends * option Trie.trie_error) :=
  let subject := sub_subject sub in
  match Trie.remove_loop no_subs (removeFromNode sub) (split subject) false (Some (root s)) with
  | inl e => Some (s, [], Some e)
  | inr (l, last) =>
      let s := removed s l in
      let s := if doCacheUpdates then add_genid (removeFromCache s subject) else s in
      match notify s with
      | Some n =>
          if last && negb (haswc subject) && Nat.ltb 0 (size (nremove n)) then
            '(s, out) ← chkForRemoveNotification s n subject (default ""%string (sub_queue sub));
            Some (s, out, None)
          else Some (s, [], None)
      | None => Some (s, [], None)
      end
  end.

Definition Remove (s : Sublist) (sub : subscription) : option (Sublist * sends * option Trie.trie_error) :=
  remove s sub true.

Fixpoint remove_batch_loop (s : Sublist) (out : sends) (err : option Trie.trie_error) (subs : list subscription)
  : option (Sublist * sends * option Trie.trie_error) :=
  match subs with
  | [] => Some (s, out, err)
  | sub :: subs =>
      '(s, out', lerr) ← remove s sub false;
      remove_batch_loop s (out ++ out') (match err with Some _ => err | None => lerr end) subs
  end.

Definition RemoveBatch (s : Sublist) (subs : list subscription)
  : option (Sublist * sends * option Trie.trie_error) :=
  match subs with
  | [] => Some (s, [], None)
  | _ =>
      let wasEnabled := CacheEnabled s in
      '(s, out, err) ← remove_batch_loop (with_cache s None) [] None subs;
      let s := add_genid s in
      Some (if wasEnabled then with_cache s (Some ∅) else s, out, err)
  end.

(** ** Registration of notifications *)

Inductive notify_error : Type := ErrNotifySubject | ErrNilChan | ErrAlreadyRegistered.

Definition addNotify (m : gmap string (list Z)) (key : string) (ch : Z) : notify_error + gmap string (list Z) :=
  let chs := default [] (m !! key) in
  if existsb (Z.eqb ch) chs then inl ErrAlreadyRegistered else inr (<[key := chs ++ [ch]]> m).

Definition registerNotification (s : Sublist) (subject queue : string) (ch : option Z)
  : option (Sublist * sends * option notify_error) :=
  if subjectHasWildcard subject then Some (s, [], Some ErrNotifySubject) else
  match ch with
  | None => Some (s, [], Some ErrNilChan)
  | Some ch =>
      let '(s, r) := Match s subject in
      hasInterest ← exact_interest r subject queue;
      let key := keyFromSubjectAndQueue subject queue in
      let n := default (mkNotify ∅ ∅) (notify s) in
      match (if hasInterest : bool then addNotify (nremove n) key ch else addNotify (ninsert n) key ch) with
      | inl e => Some (with_notify s (Some n), [], Some e)
      | inr m =>
          Some (with_notify s (Some (if hasInterest then mkNotify (ninsert n) m else mkNotify m (nremove n))),
                [(ch, hasInterest)], None)
      end
  end.

Fixpoint index_of (ch : Z) (i : nat) (chs : list Z) : option nat :=
  match chs with [] => None | c :: chs => if Z.eqb c ch then Some i else index_of ch (S i) chs end.

(** [chs[i]] is overwritten in the array the map holds; the shortened slice is not stored. *)
Definition chkAndRemove (key : string) (ch : Z) (ms : gmap string (list Z)) : bool * gmap string (list Z) :=
  let chs := default [] (ms !! key) in
  match index_of ch 0 chs with
  | None => (false, ms)
  | Some i =>
      (true, if Nat.eqb (length chs - 1) 0 then delete key ms
             else <[key := <[i := List.last chs 0]> chs]> ms)
  end.

Definition clearNotification (s : Sublist) (subject queue : string) (ch : Z) : Sublist * bool :=
  match notify s with
  | None => (s, false)
  | Some n =>
      let key := keyFromSubjectAndQueue subject queue in
      let '(did, rm) := chkAndRemove key ch (nremove n) in
      let '(did, ins) := if did : bool then (true, ninsert n) else chkAndRemove key ch (ninsert n) in
      (with_notify s (if Nat.eqb (size rm + size ins) 0 then None else Some (mkNotify ins rm)), did)
  end.
End ops.

Definition Count (s : Sublist) : Z := count s.

Definition CacheCount (s : Sublist) : nat := match cache s with Some c => size c | None => 0 end.

End Sl.
