(* ===== verification/SublistProofs.v ===== *)
(** * Sublist: nodes, results and matching

    The invariant of a node, the contents of the trie, and the results of a match as multisets:
    the plain subscriptions, and one group for each queue name. *)

From S2P Require Import Prelude Subject SubjectSpec Trie TrieSpec Sublist.
Import Subj Sl.

Section nodes.
Context `{SubOrder} `{!SubOrderLaws}.

(** ** Nodes *)

(** The fast list is a copy of the plain subscriptions, and queue groups are not empty. *)
Definition pok (n : node_subs) : Prop :=
  (forall l, nplist n = Some l -> l ≡ₚ elements (npsubs n) /\ npsubs n <> ∅) /\
  (forall x, x ∈ npsubs n -> sub_queue x = None) /\
  (forall q g, nqsubs n !! q = Some g -> g <> ∅ /\ forall x, x ∈ g -> sub_queue x = Some q).

(** The subscriptions of a node with queue [q]. *)
Definition node_set (q : option string) (n : node_subs) : gset subscription :=
  match q with None => npsubs n | Some q => default ∅ (nqsubs n !! q) end.

Definition holds (n : node_subs) (x : subscription) : Prop := x ∈ node_set (sub_queue x) n.

Lemma node_set_holds n q x : pok n -> x ∈ node_set q n <-> holds n x /\ sub_queue x = q.
Proof.
  intros (_&Hp&Hq). unfold holds. split.
  - intros Hx. assert (sub_queue x = q) as ->; [|done]. destruct q as [q|]; cbn in Hx; [|by apply Hp].
    destruct (nqsubs n !! q) eqn:E; cbn in Hx; [|set_solver]. by eapply Hq.
  - by intros [Hx <-].
Qed.

Lemma newNode_ok : pok newNode.
Proof. split_and!; cbn; [done|set_solver|]. intros q g. by rewrite lookup_empty. Qed.

Lemma no_subs_newNode (n : node_subs) : pok n -> no_subs n = true -> n = newNode.
Proof.
  intros (Hl&_&_) [Hp Hq]%andb_true_iff. destruct n as [ps qs l]. cbn in *.
  apply Nat.eqb_eq in Hp, Hq. apply size_empty_inv in Hp. apply leibniz_equiv in Hp. apply map_size_empty_inv in Hq.
  subst. destruct l as [l|]; [|done]. by destruct (Hl l eq_refl).
Qed.

Lemma no_subs_holds n : pok n -> no_subs n = false <-> exists x, holds n x.
Proof.
  intros Hn. pose proof Hn as (_&Hp&Hq). unfold no_subs. rewrite andb_false_iff, !Nat.eqb_neq. split.
  - intros [Hs|Hs].
    + destruct (set_choose_L (npsubs n)) as [x Hx]; [intros He; by rewrite He in Hs|]. exists x.
      unfold holds. by rewrite Hp.
    + destruct (map_choose (nqsubs n)) as (q&g&Hg); [intros He; by rewrite He in Hs|].
      destruct (Hq q g Hg) as [Hne Hgq]. destruct (set_choose_L g Hne) as [x Hx]. exists x.
      unfold holds. rewrite (Hgq x Hx). cbn. by rewrite Hg.
  - intros [x Hx]. unfold holds in Hx. destruct (sub_queue x) as [q|]; cbn in Hx.
    + right. intros He%map_size_empty_inv. rewrite He in Hx. set_solver.
    + left. intros He%size_empty_inv. set_solver.
Qed.

Lemma has_subs_no_subs n : pok n -> has_subs n = negb (no_subs n).
Proof.
  intros (Hl&_&_). unfold has_subs, no_subs. destruct (nplist n) as [[|x l]|] eqn:E.
  - by destruct (size (npsubs n)), (size (nqsubs n)).
  - destruct (Hl _ eq_refl) as [_ Hne]. destruct (size (npsubs n)) eqn:Es; [|done].
    apply size_empty_inv in Es. set_solver.
  - by destruct (size (npsubs n)), (size (nqsubs n)).
Qed.

(** [isnew]: no subscription with the same queue was there. *)
Lemma insert_node_ok sub n : pok n -> ~ holds n sub ->
  let '(n', isnew) := insert_node sub n in
  pok n' /\ (forall x, holds n' x <-> holds n x \/ x = sub) /\
  (isnew = true <-> node_set (sub_queue sub) n = ∅).
Proof.
  intros (Hl&Hp&Hq) Hn. unfold insert_node. unfold holds in Hn. destruct (sub_queue sub) as [q|] eqn:Eq; cbn in Hn |- *.
  - assert (forall g, (g = ∅ \/ nqsubs n !! q = Some g) -> default ∅ (nqsubs n !! q) = g ->
      pok (mkNode (npsubs n) (<[q := {[sub]} ∪ g]> (nqsubs n)) (nplist n)) /\
      forall x, holds (mkNode (npsubs n) (<[q := {[sub]} ∪ g]> (nqsubs n)) (nplist n)) x <-> holds n x \/ x = sub) as Hg.
    { intros g Hg Hd. split.
      - split_and!; cbn; [done|done|]. intros q' g' Hq'. destruct (decide (q = q')) as [<-|Hne].
        + rewrite lookup_insert_eq in Hq'. injection Hq' as <-. split; [set_solver|]. intros x.
          destruct Hg as [->|Hg]; [set_solver|]. intros [->%elem_of_singleton|Hx]%elem_of_union; [done|]. by eapply Hq.
        + rewrite lookup_insert_ne in Hq' by done. by eapply Hq.
      - intros x. unfold holds. destruct (decide (sub_queue x = Some q)) as [E|Hne].
        + rewrite E. cbn. rewrite lookup_insert_eq, Hd. cbn. set_solver.
        + destruct (sub_queue x) as [q'|] eqn:Ex; cbn.
          * rewrite lookup_insert_ne by congruence. split; [by left|]. intros [?| ->]; [done|congruence].
          * split; [by left|]. intros [?| ->]; [done|congruence]. }
    destruct (nqsubs n !! q) as [g|] eqn:E.
    + destruct (Hg g (or_intror eq_refl) eq_refl) as [H1 H2]. split_and!; [done|done|]. cbn.
      split; [done|]. intros ->. by destruct (Hq q ∅ E).
    + destruct (Hg ∅ (or_introl eq_refl) eq_refl) as [H1 H2]. rewrite (right_id_L ∅ (∪)) in H1, H2. by split_and!.
  - assert (size ({[sub]} ∪ npsubs n) = S (size (npsubs n))) as Hsz.
    { rewrite size_union by set_solver. by rewrite size_singleton. }
    split_and!.
    + split_and!; cbn; [|set_solver|done]. intros l. destruct (nplist n) as [l0|] eqn:E.
      * intros [= <-]. split; [|set_solver]. rewrite (proj1 (Hl l0 eq_refl)).
        rewrite elements_union_singleton by done. by rewrite Permutation_app_comm.
      * case_match; [|done]. intros [= <-]. split; [apply rng_subs_perm|set_solver].
    + intros x. unfold holds. destruct (sub_queue x) as [q'|] eqn:Ex; cbn; [|set_solver].
      split; [by left|]. intros [?| ->]; [done|congruence].
    + rewrite Hsz, Nat.eqb_eq. split; [intros [= Hz]; by apply leibniz_equiv, size_empty_inv|]. intros ->. done.
Qed.

(** [last]: no subscription with the same queue remains. *)
Lemma removeFromNode_ok sub n : pok n ->
  match removeFromNode sub n with
  | None => ~ holds n sub
  | Some (n', last) => holds n sub /\ pok n' /\ (forall x, holds n' x <-> holds n x /\ x <> sub) /\
      (last = true <-> node_set (sub_queue sub) n' = ∅)
  end.
Proof.
  intros (Hl&Hp&Hq). unfold removeFromNode, holds. destruct (sub_queue sub) as [q|] eqn:Eq; cbn.
  - destruct (nqsubs n !! q) as [g|] eqn:E; cbn; [|set_solver]. destruct (decide (sub ∈ g)) as [Hin|]; [|done].
    destruct (Nat.eqb_spec (size (g ∖ {[sub]})) 0) as [Hz|Hz].
    + apply size_empty_inv, leibniz_equiv in Hz. split_and!; [done| |..].
      * split_and!; cbn; [done|done|]. intros q' g'. rewrite lookup_delete_Some. intros [_ ?]. by eapply Hq.
      * intros x. destruct (sub_queue x) as [q'|] eqn:Ex; cbn.
        -- destruct (decide (q = q')) as [<-|Hne].
           ++ rewrite lookup_delete_eq, E. cbn. set_solver.
           ++ rewrite lookup_delete_ne by done. split; [|by intros [? _]]. intros ?. split; [done|]. congruence.
        -- split; [|by intros [? _]]. intros ?. split; [done|]. congruence.
      * cbn. by rewrite lookup_delete_eq.
    + split_and!; [done| |..].
      * split_and!; cbn; [done|done|]. intros q' g'. destruct (decide (q = q')) as [<-|Hne].
        -- rewrite lookup_insert_eq. intros [= <-]. split; [intros He; by rewrite He in Hz|]. intros x Hx. apply (Hq _ _ E). set_solver.
        -- rewrite lookup_insert_ne by done. apply Hq.
      * intros x. destruct (sub_queue x) as [q'|] eqn:Ex; cbn.
        -- destruct (decide (q = q')) as [<-|Hne].
           ++ rewrite lookup_insert_eq, E. cbn. set_solver.
           ++ rewrite lookup_insert_ne by done. split; [|by intros [? _]]. intros ?. split; [done|]. congruence.
        -- split; [|by intros [? _]]. intros ?. split; [done|]. congruence.
      * cbn. rewrite lookup_insert_eq. cbn. split; [done|]. intros He. by rewrite He in Hz.
  - destruct (decide (sub ∈ npsubs n)) as [Hin|]; [|done]. split_and!; [done| |..].
    + split_and!; cbn; [done|set_solver|done].
    + intros x. destruct (sub_queue x) as [q'|] eqn:Ex; cbn; [|set_solver].
      split; [|by intros [? _]]. intros ?. split; [done|]. congruence.
    + cbn. rewrite Nat.eqb_eq. split; [intros ?; by apply leibniz_equiv, size_empty_inv|]. by intros ->.
Qed.
End nodes.

(** ** Results as multisets *)

Definition group_queue (g : list subscription) : option string :=
  match g with s :: _ => sub_queue s | [] => None end.

(** The members of the groups of queue [q]. *)
Definition q_members (q : string) (qsl : list (list subscription)) : list subscription :=
  qsl ≫= fun g => if decide (group_queue g = Some q) then g else [].

(** Every group has one queue, and no two groups have the same. *)
Definition qsl_ok (qsl : list (list subscription)) : Prop :=
  (forall g x, g ∈ qsl -> x ∈ g -> is_Some (group_queue g) /\ sub_queue x = group_queue g) /\
  NoDup (omap group_queue qsl).

Lemma qsl_ok_nil : qsl_ok [].
Proof. split; [set_solver|by apply NoDup_nil]. Qed.

Lemma q_members_app q a b : q_members q (a ++ b) = q_members q a ++ q_members q b.
Proof. apply bind_app. Qed.

Lemma q_members_cons q g b : q_members q (g :: b) = (if decide (group_queue g = Some q) then g else []) ++ q_members q b.
Proof. done. Qed.

Lemma findQSlot_loop_ok q qsl : forall i, qsl_ok qsl ->
  match findQSlot_loop q i qsl with
  | Some j => exists k x g, (j = i + k)%nat /\ qsl !! k = Some (x :: g) /\ sub_queue x = Some q
  | None => forall g, g ∈ qsl -> group_queue g <> Some q
  end.
Proof.
  induction qsl as [|g qsl IH]; intros i Hok; [set_solver|].
  assert (qsl_ok qsl) as Hok'.
  { destruct Hok as [H1 H2]. split; [intros g' x Hg; apply H1; set_solver|]. cbn in H2.
    destruct (group_queue g); [|done]. by apply NoDup_cons in H2 as [_ ?]. }
  destruct Hok as [Hg _]. specialize (IH (S i) Hok'). cbn [findQSlot_loop].
  assert (forall r, match r with
    | Some j => exists k x g, (j = S i + k)%nat /\ qsl !! k = Some (x :: g) /\ sub_queue x = Some q
    | None => forall g, g ∈ qsl -> group_queue g <> Some q end -> group_queue g <> Some q -> match r with
    | Some j => exists k x g', (j = i + k)%nat /\ (g :: qsl) !! k = Some (x :: g') /\ sub_queue x = Some q
    | None => forall g', g' ∈ g :: qsl -> group_queue g' <> Some q end) as Hstep.
  { intros [j|] Hr Hne; [|set_solver]. destruct Hr as (k&x&g'&->&?&?). exists (S k), x, g'. split_and!; [lia|done|done]. }
  destruct g as [|x g]; [by apply Hstep|]. unfold queue_is.
  destruct (Hg (x :: g) x ltac:(set_solver) ltac:(set_solver)) as [[q' Hq'] _]. cbn in Hq'. rewrite Hq'. cbn.
  destruct (String.eqb_spec q q') as [->|Hne].
  - exists 0%nat, x, g. split_and!; [lia|done|done].
  - apply Hstep; [done|]. cbn. congruence.
Qed.

(** Adding subscriptions of queue [q] to their group, or as a new one. *)
Definition add_to (q : string) (xs : list subscription) (qsl : list (list subscription)) : list (list subscription) :=
  match findQSlot (Some q) qsl with
  | Some i => append_slot i xs qsl
  | None => qsl ++ [xs]
  end.

Lemma omap_group_alter (xs : list subscription) (k : nat) : forall (qsl : list (list subscription)) x g, qsl !! k = Some (x :: g) ->
  omap group_queue (alter (fun g => g ++ xs) k qsl) = omap group_queue qsl.
Proof.
  induction k as [|k IH]; intros [|g' qsl] x g Hk; try done; cbn in Hk.
  - injection Hk as ->. done.
  - change (alter (fun g => g ++ xs) (S k) (g' :: qsl)) with (g' :: alter (fun g => g ++ xs) k qsl).
    by rewrite !list_omap_cons, (IH qsl x g Hk).
Qed.

Lemma q_members_alter q (xs : list subscription) (k : nat) : forall (qsl : list (list subscription)) x g, qsl !! k = Some (x :: g) ->
  q_members q (alter (fun g => g ++ xs) k qsl) ≡ₚ
  q_members q qsl ++ (if decide (sub_queue x = Some q) then xs else []).
Proof.
  induction k as [|k IH]; intros [|g' qsl] x g Hk; try done; cbn in Hk; cbn [alter list_alter]; rewrite !q_members_cons.
  - injection Hk as ->. cbn [group_queue app]. case_decide; [|by rewrite app_nil_r].
    rewrite (app_comm_cons g xs x), <- !(assoc_L (++)). apply Permutation_app_head, Permutation_app_comm.
  - rewrite <- (assoc_L (++)). apply Permutation_app_head. by apply (IH qsl x g).
Qed.

Lemma add_to_ok q xs qsl : qsl_ok qsl -> (forall x, x ∈ xs -> sub_queue x = Some q) ->
  qsl_ok (add_to q xs qsl) /\
  forall q', q_members q' (add_to q xs qsl) ≡ₚ q_members q' qsl ++ (if decide (q = q') then xs else []).
Proof.
  intros Hok Hxs. unfold add_to, findQSlot. pose proof (findQSlot_loop_ok q qsl 0 Hok) as Hf.
  destruct (findQSlot_loop q 0 qsl) as [i|].
  - destruct Hf as (k&x&g&->&Hk&Hx). cbn [Nat.add]. unfold append_slot. destruct Hok as [H1 H2]. split.
    + split; [|by rewrite (omap_group_alter xs k qsl x g)]. intros g' y (j&Hj)%list_elem_of_lookup Hy.
      rewrite list_lookup_alter in Hj. case_decide as Hjk; [subst j; rewrite Hk in Hj; injection Hj as <-|].
      * cbn. split; [by rewrite Hx|]. cbn in Hy. rewrite app_comm_cons in Hy. apply elem_of_app in Hy as [Hy|Hy].
        -- destruct (H1 (x :: g) y) as [_ Hyq]; [by eapply list_elem_of_lookup_2|done|]. done.
        -- by rewrite Hx, (Hxs y).
      * apply H1; [by eapply list_elem_of_lookup_2|done].
    + intros q'. rewrite (q_members_alter q' xs k qsl x g) by done. rewrite Hx. repeat case_decide; congruence || done.
  - destruct Hok as [H1 H2]. split.
    + split.
      * intros g y [Hg| ->%list_elem_of_singleton]%elem_of_app Hy; [by apply H1|].
        destruct xs as [|x xs]; [set_solver|]. cbn. rewrite (Hxs x), (Hxs y) by set_solver. done.
      * rewrite omap_app. destruct xs as [|x xs]; cbn; [by rewrite app_nil_r|]. rewrite (Hxs x) by set_solver.
        apply NoDup_app. split_and!; [done| |apply NoDup_singleton].
        intros q' (g&Hg&Hq')%list_elem_of_omap ->%list_elem_of_singleton. by eapply Hf.
    + intros q'. rewrite q_members_app, q_members_cons. change (q_members q' []) with ([] : list subscription).
      rewrite app_nil_r. destruct xs as [|x xs]; cbn [group_queue].
      * by repeat case_decide.
      * rewrite (Hxs x) by set_solver. repeat case_decide; congruence || done.
Qed.

Lemma append_slot_nonempty i xs qsl : [] ∉ qsl -> [] ∉ append_slot i xs qsl.
Proof.
  intros Hn [j Hj]%list_elem_of_lookup. unfold append_slot in Hj. rewrite list_lookup_alter in Hj.
  case_decide; [|by apply Hn, (list_elem_of_lookup_2 _ j)]. destruct (qsl !! i) as [g|] eqn:E; [|done].
  cbn in Hj. injection Hj as Hj. apply app_eq_nil in Hj as [-> _]. by apply Hn, (list_elem_of_lookup_2 _ i).
Qed.

Lemma add_to_nonempty q xs qsl : xs <> [] -> [] ∉ qsl -> [] ∉ add_to q xs qsl.
Proof.
  intros Hx Hn. unfold add_to. case_match; [by apply append_slot_nonempty|].
  intros [?|He%list_elem_of_singleton]%elem_of_app; done.
Qed.

Section results.
Context `{SubOrder} `{!SubOrderLaws} (qw : subscription -> Z).
Notation expand := (expand qw).

Lemma elem_of_expand x y : y ∈ expand x -> y = x.
Proof. unfold Sl.expand. case_match; [by intros [? _]%elem_of_replicate|by intros ->%list_elem_of_singleton]. Qed.

Lemma append_fold i xs : forall qsl,
  fold_left (fun qsl sub => append_slot i (expand sub) qsl) xs qsl = append_slot i (xs ≫= expand) qsl.
Proof.
  induction xs as [|x xs IH]; intros qsl; cbn [fold_left]; [|rewrite IH, bind_cons];
    apply list_eq; intros j; unfold append_slot; rewrite !list_lookup_alter; case_decide; try done; subst j; rewrite ?decide_True by done.
  - destruct (qsl !! i) as [g|]; [|done]. apply (f_equal Some). symmetry. apply app_nil_r.
  - destruct (qsl !! i) as [g|]; [|done]. apply (f_equal Some). symmetry. apply (assoc_L (++)).
Qed.

Lemma add_group_add_to qsl q g : g <> ∅ -> add_group qw qsl (q, g) = add_to q (rng_subs g ≫= expand) qsl.
Proof.
  intros Hg. unfold add_group, add_to. cbn [fst snd].
  destruct (Nat.eqb_spec (size g) 0) as [Hz|_]; [by apply size_empty_inv, leibniz_equiv in Hz|].
  destruct (findQSlot (Some q) qsl) as [i|]; rewrite append_fold; [done|]. unfold append_slot.
  rewrite alter_app_r_alt by done. by rewrite Nat.sub_diag.
Qed.

Lemma add_groups_ok gs : forall qsl, qsl_ok qsl ->
  (forall q g, (q, g) ∈ gs -> g <> ∅ /\ forall x, x ∈ g -> sub_queue x = Some q) ->
  qsl_ok (fold_left (add_group qw) gs qsl) /\
  forall q, q_members q (fold_left (add_group qw) gs qsl) ≡ₚ
    q_members q qsl ++ (gs ≫= fun qg => if decide (qg.1 = q) then elements qg.2 ≫= expand else []).
Proof.
  induction gs as [|[q0 g] gs IH]; intros qsl Hok Hgs; [split; [done|]; intros q; by rewrite app_nil_r|].
  destruct (Hgs q0 g ltac:(set_solver)) as [Hne Hq]. cbn [fold_left]. rewrite add_group_add_to by done.
  destruct (add_to_ok q0 (rng_subs g ≫= expand) qsl Hok) as [Hok' Hm].
  { intros x (y&Hx&Hy)%list_elem_of_bind. apply elem_of_expand in Hx as ->. rewrite rng_subs_perm in Hy.
    by apply Hq, elem_of_elements. }
  destruct (IH _ Hok') as [Hok2 Hm2]; [intros q g' Hin; apply Hgs; set_solver|]. split; [done|].
  intros q. rewrite Hm2, Hm, <- (assoc_L (++)). apply Permutation_app_head. rewrite bind_cons. apply Permutation_app_tail.
  cbn [fst snd]. case_decide; [|done]. by rewrite rng_subs_perm.
Qed.

Lemma add_groups_nonempty gs : forall qsl, [] ∉ qsl ->
  (forall q g x, (q, g) ∈ gs -> x ∈ g -> expand x <> []) -> [] ∉ fold_left (add_group qw) gs qsl.
Proof.
  induction gs as [|[q g] gs IH]; intros qsl Hn Hgs; [done|]. cbn [fold_left].
  apply IH; [|intros q' g' x Hin; apply (Hgs q' g'); set_solver].
  destruct (decide (g = ∅)) as [->|Hne]; [done|]. rewrite add_group_add_to by done. apply add_to_nonempty; [|done].
  destruct (set_choose_L g Hne) as [x Hx]. pose proof (Hgs q g x ltac:(set_solver) Hx) as He.
  intros Hz. destruct (expand x) as [|y ys] eqn:Ex; [done|].
  assert (y ∈ rng_subs g ≫= expand) as Hy; [|rewrite Hz in Hy; set_solver].
  apply list_elem_of_bind. exists x. rewrite Ex, rng_subs_perm, elem_of_elements. set_solver.
Qed.

Lemma bind_map_lookup {A} (m : gmap string A) (f : A -> list subscription) q :
  (map_to_list m ≫= fun qg => if decide (qg.1 = q) then f qg.2 else []) ≡ₚ
  match m !! q with Some g => f g | None => [] end.
Proof.
  induction m as [|k g m Hk IH] using map_ind; [by rewrite map_to_list_empty, lookup_empty|].
  rewrite map_to_list_insert by done. rewrite bind_cons. cbn [fst snd]. rewrite IH. destruct (decide (k = q)) as [->|Hne].
  - rewrite lookup_insert_eq, Hk. by rewrite app_nil_r.
  - by rewrite lookup_insert_ne.
Qed.

Lemma addNodeToResults_ok n r : pok n -> qsl_ok (qsubs r) ->
  let r' := addNodeToResults qw n r in
  psubs r' ≡ₚ psubs r ++ elements (node_set None n) /\ qsl_ok (qsubs r') /\
  forall q, q_members q (qsubs r') ≡ₚ q_members q (qsubs r) ++ (elements (node_set (Some q) n) ≫= expand).
Proof.
  intros (Hl&Hp&Hq) Hok. cbn zeta. unfold addNodeToResults. cbn [psubs qsubs].
  destruct (add_groups_ok (rng_queues (nqsubs n)) (qsubs r) Hok) as [Hok' Hm].
  { intros q g. rewrite rng_queues_perm. intros Hin%elem_of_map_to_list. by apply Hq. }
  split_and!; [|done|].
  - apply Permutation_app_head. destruct (nplist n) as [l|]; [by apply Hl|apply rng_subs_perm].
  - intros q. rewrite Hm. apply Permutation_app_head. rewrite rng_queues_perm.
    rewrite (bind_map_lookup (nqsubs n) (fun g => elements g ≫= expand) q). cbn. by destruct (nqsubs n !! q).
Qed.

Lemma addNodes_ok (ps : list (list string * node_subs)) : forall r, (forall px, px ∈ ps -> pok px.2) -> qsl_ok (qsubs r) ->
  let r' := fold_left (fun r (px : list string * node_subs) => addNodeToResults qw px.2 r) ps r in
  psubs r' ≡ₚ psubs r ++ (ps ≫= fun px => elements (node_set None px.2)) /\ qsl_ok (qsubs r') /\
  forall q, q_members q (qsubs r') ≡ₚ
    q_members q (qsubs r) ++ ((ps ≫= fun px => elements (node_set (Some q) px.2)) ≫= expand).
Proof.
  induction ps as [|px ps IH]; intros r Hps Hok; cbn zeta; cbn [fold_left].
  { split_and!; [by rewrite app_nil_r|done|]. intros q. by rewrite app_nil_r. }
  destruct (addNodeToResults_ok px.2 r) as (H1&H2&H3); [apply Hps; set_solver|done|].
  destruct (IH (addNodeToResults qw px.2 r)) as (I1&I2&I3); [intros; apply Hps; set_solver|done|].
  split_and!; [|done|].
  - rewrite I1, H1, bind_cons. by rewrite (assoc_L (++)).
  - intros q. rewrite I3, H3, bind_cons, bind_app. by rewrite (assoc_L (++)).
Qed.

Lemma addNodes_nonempty (ps : list (list string * node_subs)) : forall r, [] ∉ qsubs r ->
  (forall px x, px ∈ ps -> pok px.2 /\ (holds px.2 x -> expand x <> [])) ->
  [] ∉ qsubs (fold_left (fun r (px : list string * node_subs) => addNodeToResults qw px.2 r) ps r).
Proof.
  induction ps as [|px ps IH]; intros r Hn Hps; [done|]. cbn [fold_left].
  apply IH; [|intros px' x Hin; apply Hps; set_solver]. cbn. apply add_groups_nonempty; [done|].
  intros q g x Hin Hx. rewrite rng_queues_perm in Hin. apply elem_of_map_to_list in Hin.
  destruct (Hps px x ltac:(set_solver)) as [Hp Hh]. apply Hh. destruct Hp as (_&_&Hq).
  unfold holds. rewrite (proj2 (Hq _ _ Hin) x Hx). cbn. by rewrite Hin.
Qed.
End results.
