(* ===== verification/SublistCache.v ===== *)
(** * Sublist: the stored subscriptions and the cache

    [stores s A] says that the trie holds the subscriptions [A]; [res_spec A toks r] that [r] is
    the result of matching [toks] against [A].  Every entry of the cache is the result of its
    key, up to how often a weighted remote queue subscription occurs, and the operations keep it
    so. *)

From S2P Require Import Prelude Subject SubjectSpec Trie TrieSpec Sublist SublistProofs.
Import Subj Sl.

Section cache.
Context `{SubOrder} `{!SubOrderLaws}.

Notation level_ok := (level_ok pok no_subs).
Notation get := (get newNode).

Record stores (l : Trie.level node_subs) (A : gset subscription) : Prop := {
  st_ok : level_ok l;
  st_at : forall p x, holds (get l p) x -> p = split (sub_subject x);
  st_mem : forall x, x ∈ A <-> holds (get l (split (sub_subject x))) x;
}.

Lemma holds_newNode x : ~ holds newNode x.
Proof. unfold holds, newNode. destruct (sub_queue x); cbn; [rewrite lookup_empty|]; set_solver. Qed.

Lemma sl_new_stores : stores Trie.newLevel ∅.
Proof.
  split; [apply newLevel_ok|..]; intros *; unfold get; rewrite payload_at_empty by done; cbn [default from_option id].
  - by intros ?%holds_newNode.
  - split; [set_solver|by intros ?%holds_newNode].
Qed.

Lemma insert_stores l A sub :
  stores l A -> valid_subject (sub_subject sub) -> sub ∉ A ->
  let '(l', r) := Trie.insert_loop newNode (insert_node sub) (split (sub_subject sub)) false l in
  stores l' (A ∪ {[sub]}) /\
  exists isnew, r = Some isnew /\
    (isnew = true <-> forall x, x ∈ A -> sub_subject x = sub_subject sub -> sub_queue x <> sub_queue sub).
Proof.
  intros [Hok Hat Hmem] Hv Hn. set (path := split (sub_subject sub)) in *.
  pose proof (get_ok newNode pok no_subs newNode_ok l path Hok) as Hp.
  pose proof (insert_node_ok sub (get l path) Hp) as Hi.
  destruct (insert_node sub (get l path)) as [n' isnew] eqn:Ei. destruct Hi as (Hp'&Hh&Hnew); [intros Hx; by apply Hn, Hmem|].
  pose proof (insert_loop_ok newNode pok no_subs newNode_ok (insert_node sub) path l Hok Hv) as Hl.
  rewrite Ei in Hl. cbn [fst snd] in Hl. specialize (Hl Hp').
  destruct (Trie.insert_loop _ _ _ _ _) as [l' r]. destruct Hl as (->&Hok'&_&Hg).
  { apply no_subs_holds; [done|]. exists sub. apply Hh. by right. }
  split; [split; [done|..]|exists isnew; split; [done|]].
  - intros p x. rewrite Hg. case_decide as Hd; [|apply Hat]. subst p. intros [Hx| ->]%Hh; [by apply Hat|done].
  - intros x. rewrite elem_of_union, elem_of_singleton, Hmem, Hg. case_decide as Hd.
    + rewrite Hd, Hh. done.
    + split; [intros [?| ->]; done|by left].
  - rewrite Hnew. split.
    + intros He x Hx Hs Hq. apply Hmem in Hx. unfold holds in Hx. rewrite Hq, Hs in Hx. fold path in Hx. set_solver.
    + intros Hall. apply elem_of_equiv_empty_L. intros x [Hx Hq]%node_set_holds; [|done].
      pose proof (Hat _ _ Hx) as E. apply split_inj in E. apply (Hall x); [apply Hmem; by rewrite <- E|done|done].
Qed.

Lemma remove_stores l A sub :
  stores l A -> valid_subject (sub_subject sub) ->
  match Trie.remove_loop no_subs (removeFromNode sub) (split (sub_subject sub)) false (Some l) with
  | inl e => e = Trie.ErrNotFound /\ sub ∉ A
  | inr (l', last) => sub ∈ A /\ stores l' (A ∖ {[sub]}) /\
      (last = true <-> forall x, x ∈ A ∖ {[sub]} -> sub_subject x = sub_subject sub -> sub_queue x <> sub_queue sub)
  end.
Proof.
  intros [Hok Hat Hmem] Hv. set (path := split (sub_subject sub)) in *.
  pose proof (get_ok newNode pok no_subs newNode_ok l path Hok) as Hp.
  pose proof (remove_loop_ok newNode pok no_subs no_subs_newNode (removeFromNode sub) path l) as Hr.
  pose proof (removeFromNode_ok sub (get l path) Hp) as Hrm.
  destruct (Trie.remove_loop _ _ _ _ _) as [e|[l' last]].
  - destruct Hr as [-> Hr]; [|..|done|done|].
    + intros p p' x Hpk E. pose proof (removeFromNode_ok sub p Hpk) as Hx. rewrite E in Hx. by destruct Hx as (_&?&_).
    + pose proof (removeFromNode_ok sub newNode newNode_ok) as Hx. destruct (removeFromNode sub newNode) as [[]|]; [|done].
      by destruct Hx as [?%holds_newNode _].
    + rewrite Hr in Hrm. split; [done|]. by rewrite Hmem.
  - destruct Hr as (n'&Hr&Hok'&Hg); [|..|done|done|].
    + intros p p' x Hpk E. pose proof (removeFromNode_ok sub p Hpk) as Hx. rewrite E in Hx. by destruct Hx as (_&?&_).
    + pose proof (removeFromNode_ok sub newNode newNode_ok) as Hx. destruct (removeFromNode sub newNode) as [[]|]; [|done].
      by destruct Hx as [?%holds_newNode _].
    + rewrite Hr in Hrm. destruct Hrm as (Hin&Hp'&Hh&Hlast).
      assert (forall x, x ∈ A ∖ {[sub]} <-> holds (get l' (split (sub_subject x))) x) as Hmem'.
      { intros x. rewrite elem_of_difference, elem_of_singleton, Hmem, Hg. case_decide as Hd.
        - rewrite Hd, Hh. done.
        - split; [by intros [? _]|]. intros ?. split; [done|]. by intros ->. }
      split_and!; [by apply Hmem|split; [done| |done]|].
      * intros p x. rewrite Hg. case_decide as Hd; [|apply Hat]. subst p. intros [Hx _]%Hh. by apply Hat.
      * rewrite Hlast. split.
        -- intros He x Hx Hs Hq. apply Hmem' in Hx. rewrite Hs, Hg, decide_True in Hx by done.
           unfold holds in Hx. rewrite Hq in Hx. set_solver.
        -- intros Hall. apply elem_of_equiv_empty_L. intros x [Hx Hq]%node_set_holds; [|done].
           pose proof Hx as [Hx0 _]%Hh. pose proof (Hat _ _ Hx0) as E. apply split_inj in E.
           apply (Hall x); [apply Hmem'; rewrite <- E, Hg; by rewrite decide_True|done|done].
Qed.

(** ** Matching *)

(** The stored subscriptions with queue [q] that match. *)
Definition matching (A : gset subscription) (q : option string) (toks : list string) : gset subscription :=
  filter (fun x => sub_queue x = q /\ tok_match (split (sub_subject x)) toks = true) A.

Definition res_spec (qw : subscription -> Z) (A : gset subscription) (toks : list string) (r : SublistResult) : Prop :=
  psubs r ≡ₚ elements (matching A None toks) /\ (qsl_ok (qsubs r) /\ [] ∉ qsubs r) /\
  forall q, q_members q (qsubs r) ≡ₚ elements (matching A (Some q) toks) ≫= expand qw.

Lemma collect_matching l A q toks : stores l A ->
  (collect (Some l) toks ≫= fun px => elements (node_set q px.2)) ≡ₚ elements (matching A q toks).
Proof.
  intros [Hok Hat Hmem]. assert (forall l', Some l = Some l' -> level_ok l') as Hl by (by intros ? [= <-]).
  assert (forall p n x, (p, n) ∈ collect (Some l) toks -> x ∈ elements (node_set q n) ->
    p = split (sub_subject x) /\ tok_match p toks = true /\ holds (get l p) x /\ sub_queue x = q) as Hx.
  { intros p n x Hin Hx. apply (collect_spec pok no_subs) in Hin as [Hp Hm]; [|done]. cbn in Hp.
    assert (get l p = n) as Hg by (unfold get; by rewrite Hp).
    apply elem_of_elements, node_set_holds in Hx as [Hx Hq]; [|rewrite <- Hg; exact (get_ok newNode pok no_subs newNode_ok l p Hok)].
    rewrite <- Hg in Hx. by pose proof (Hat _ _ Hx). }
  apply NoDup_Permutation.
  - apply NoDup_bind; [eapply NoDup_fmap_1, (collect_NoDup pok no_subs), Hl|intros; apply NoDup_elements|].
    intros [p1 n1] [p2 n2] x H1 H2 Hx1 Hx2. destruct (Hx p1 n1 x H1 Hx1) as [-> _], (Hx p2 n2 x H2 Hx2) as [-> _].
    apply (collect_spec pok no_subs) in H1 as [H1 _]; [|done]. apply (collect_spec pok no_subs) in H2 as [H2 _]; [|done]. congruence.
  - apply NoDup_elements.
  - intros x. rewrite list_elem_of_bind, elem_of_elements. unfold matching. rewrite elem_of_filter. split.
    + intros ([p n]&Hxn&Hin). destruct (Hx p n x Hin Hxn) as (->&Hm&Hh&Hq). rewrite Hmem. done.
    + intros [[Hq Hm] Hin]. apply Hmem in Hin.
      destruct (get_payload newNode l (split (sub_subject x))) as [Hn|Hp].
      { unfold get in Hin. rewrite Hn in Hin. by apply holds_newNode in Hin. }
      exists (split (sub_subject x), get l (split (sub_subject x))). split.
      * apply elem_of_elements, node_set_holds; [exact (get_ok newNode pok no_subs newNode_ok l _ Hok)|done].
      * by apply (collect_spec pok no_subs).
Qed.

(** The remote queue subscriptions have a positive weight. *)
Definition weighted (qw : subscription -> Z) (A : gset subscription) : Prop := forall x, x ∈ A -> expand qw x <> [].

Lemma matchLevel_ok qw l A toks : stores l A -> weighted qw A -> res_spec qw A toks (matchLevel qw (Some l) toks emptyResult).
Proof.
  intros Hst Hw. unfold matchLevel. rewrite matchLevel_collect.
  assert (forall p n, (p, n) ∈ collect (Some l) toks -> payload_at l p = Some n /\ pok n) as Hc.
  { intros p n Hin. apply (collect_spec pok no_subs) in Hin as [Hp _]; [|intros ? [= <-]; apply Hst].
    split; [done|]. eapply (payload_at_ok pok no_subs); [|done]. apply Hst. }
  destruct (addNodes_ok qw (collect (Some l) toks) emptyResult) as (H1&H2&H3).
  - intros [p n] Hin. by eapply Hc.
  - apply qsl_ok_nil.
  - split_and!; [|done| |].
    + rewrite H1. by apply collect_matching.
    + apply addNodes_nonempty; [set_solver|]. intros [p n] x Hin. destruct (Hc p n Hin) as [Hp Hn]. split; [done|].
      cbn [snd]. intros Hx. apply Hw, (st_mem _ _ Hst). assert (get l p = n) as <- by (unfold get; by rewrite Hp).
      by rewrite <- (st_at _ _ Hst p x Hx).
    + intros q. rewrite H3. by rewrite (collect_matching l A (Some q) toks Hst).
Qed.

(** ** The cache *)

Lemma matching_add A sub q toks :
  matching (A ∪ {[sub]}) q toks =
  if decide (sub_queue sub = q /\ tok_match (split (sub_subject sub)) toks = true)
  then {[sub]} ∪ matching A q toks else matching A q toks.
Proof. unfold matching. apply set_eq. intros x. case_decide; set_solver. Qed.

Lemma matching_remove A sub q toks : tok_match (split (sub_subject sub)) toks = false ->
  matching (A ∖ {[sub]}) q toks = matching A q toks.
Proof.
  intros Hm. unfold matching. apply set_eq. intros x. rewrite !elem_of_filter, elem_of_difference, elem_of_singleton.
  split; [by intros [? [? _]]|]. intros [[? ?] ?]. split_and!; [done|done|done|]. intros ->. congruence.
Qed.

Lemma addSubToResult_ok qw A toks r sub :
  res_spec qw A toks r -> sub ∉ A -> expand qw sub = [sub] -> tok_match (split (sub_subject sub)) toks = true ->
  res_spec qw (A ∪ {[sub]}) toks (addSubToResult r sub).
Proof.
  intros (H1&[H2 H4]&H3) Hn He Hm. unfold addSubToResult. cbn [copyResult psubs qsubs].
  assert (forall q, sub ∉ matching A q toks) as Hnm by (intros q; unfold matching; set_solver).
  destruct (sub_queue sub) as [q|] eqn:Eq.
  - destruct (add_to_ok q [sub] (qsubs r) H2) as [I1 I2]; [by intros x ->%list_elem_of_singleton|].
    unfold add_to in I1, I2. set (s1 := mkResult (psubs r) (match findQSlot (Some q) (qsubs r) with
      | Some i => append_slot i [sub] (qsubs r) | None => qsubs r ++ [[sub]] end)).
    assert (match findQSlot (Some q) (qsubs r) with Some i => mkResult (psubs r) (append_slot i [sub] (qsubs r))
      | None => mkResult (psubs r) (qsubs r ++ [[sub]]) end = s1) as -> by (unfold s1; by destruct (findQSlot _ _)).
    split_and!; [|exact I1|exact (add_to_nonempty q [sub] (qsubs r) ltac:(done) H4)|].
    + rewrite matching_add, decide_False by (rewrite Eq; naive_solver). exact H1.
    + intros q'. etransitivity; [exact (I2 q')|]. rewrite H3, matching_add, Eq. destruct (decide (q = q')) as [<-|Hne].
      * rewrite decide_True, elements_union_singleton by done. rewrite bind_cons, He. apply Permutation_app_comm.
      * rewrite decide_False by naive_solver. by rewrite app_nil_r.
  - split_and!; cbn [psubs qsubs]; [|done|done|].
    + rewrite H1, matching_add, decide_True, elements_union_singleton by done. apply Permutation_app_comm.
    + intros q. by rewrite H3, matching_add, decide_False by (rewrite Eq; naive_solver).
Qed.

Lemma res_spec_unmatched qw A toks r sub :
  res_spec qw A toks r -> tok_match (split (sub_subject sub)) toks = false ->
  res_spec qw (A ∪ {[sub]}) toks r /\ res_spec qw (A ∖ {[sub]}) toks r.
Proof.
  intros (H1&[H2 H4]&H3) Hm.
  assert (forall q, matching (A ∪ {[sub]}) q toks = matching A q toks) as Ha.
  { intros q. rewrite matching_add, decide_False; [done|]. rewrite Hm. by intros [_ ?]. }
  split; (split_and!; [|done|done|intros q]).
  - by rewrite Ha.
  - by rewrite Ha.
  - by rewrite matching_remove.
  - by rewrite matching_remove.
Qed.

Lemma res_spec_ext w w' A toks r :
  res_spec w A toks r -> (forall x, x ∈ A -> tok_match (split (sub_subject x)) toks = true -> expand w x = expand w' x) -> res_spec w' A toks r.
Proof.
  intros (H1&[H2 H4]&H3) Hw. split_and!; [done|done|done|]. intros q. rewrite H3.
  assert (forall x, x ∈ elements (matching A (Some q) toks) -> expand w x = expand w' x) as He.
  { intros x Hx. apply elem_of_elements in Hx. unfold matching in Hx. apply elem_of_filter in Hx as [[_ Hx] ?]. by apply Hw. }
  revert He. generalize (elements (matching A (Some q) toks)). intros l. induction l as [|x l IH]; intros He; [done|].
  rewrite !bind_cons, (He x) by set_solver. apply Permutation_app_head, IH. set_solver.
Qed.

(** The weights [w] that a cached result was made with: those of the subscriptions, except that
    one of [D] may count once.  [D] has the subscriptions that came with another weight than 1
    and were not updated since. *)
Definition seen (qw : subscription -> Z) (D : gset subscription) (w : subscription -> Z) : Prop :=
  forall x, expand w x = expand qw x \/ (x ∈ D /\ expand w x = [x]).

Definition set_weight (w : subscription -> Z) (sub : subscription) (n : Z) : subscription -> Z :=
  fun x => if decide (x = sub) then n else w x.

Lemma expand_set_ne w sub n x : x <> sub -> expand (set_weight w sub n) x = expand w x.
Proof. intros Hx. unfold expand, set_weight. by rewrite decide_False. Qed.

Lemma expand_set_one w sub : expand (set_weight w sub 1) sub = [sub].
Proof. unfold expand, set_weight. rewrite decide_True by done. by destruct (isRemoteQSub sub). Qed.

Lemma expand_set_same w qw sub : expand (set_weight w sub (qw sub)) sub = expand qw sub.
Proof. unfold expand, set_weight. by rewrite decide_True. Qed.

Lemma seen_refl qw D : seen qw D qw.
Proof. by left. Qed.

(** [D] after [sub] is stored. *)
Definition stale_add (qw : subscription -> Z) (D : gset subscription) (sub : subscription) : gset subscription :=
  if decide (expand qw sub = [sub]) then D else D ∪ {[sub]}.

Lemma seen_add qw D w sub : seen qw D w -> seen qw (stale_add qw D sub) (set_weight w sub 1).
Proof.
  intros Hw x. unfold stale_add. destruct (decide (x = sub)) as [->|Hne].
  - rewrite expand_set_one. case_decide; [by left|]. right. set_solver.
  - rewrite expand_set_ne by done. destruct (Hw x) as [?|[? ?]]; [by left|]. right. case_decide; set_solver.
Qed.

Lemma seen_drop qw D w sub : seen qw D w -> seen qw (D ∖ {[sub]}) (set_weight w sub (qw sub)).
Proof.
  intros Hw x. destruct (decide (x = sub)) as [->|Hne]; [left; apply expand_set_same|].
  rewrite expand_set_ne by done. destruct (Hw x) as [?|[? ?]]; [by left|]. right. set_solver.
Qed.

Lemma tok_match_exact p l : existsb wild_tok p = false -> tok_match p l = true <-> p = l.
Proof.
  revert l. induction p as [|t p IH]; intros [|x l] Hw; try done. cbn [existsb] in Hw.
  apply orb_false_iff in Hw as [Ht Hw]. rewrite tok_match_literal by done. cbn [mid_match].
  rewrite andb_true_iff, String.eqb_eq, IH by done. split; [by intros [-> ->]|by intros [= -> ->]].
Qed.

Lemma literal_match subj key : subjectIsLiteral subj = true -> tok_match (split subj) (split key) = true <-> key = subj.
Proof.
  intros Hl%negb_true_iff. change (has_wc_loop None subj) with (subjectHasWildcard subj) in Hl.
  rewrite subjectHasWildcard_ok in Hl. rewrite tok_match_exact by done.
  split; [intros E; by apply split_inj in E|by intros ->].
Qed.

Definition cache_ok (qw : subscription -> Z) (D A : gset subscription) (c : gmap string SublistResult) : Prop :=
  forall key r, c !! key = Some r -> no_empty (split key) /\ exists w, seen qw D w /\ res_spec w A (split key) r.

Definition coherent (qw : subscription -> Z) (D A : gset subscription) (s : Sublist) : Prop :=
  forall c, cache s = Some c -> cache_ok qw D A c.

Lemma addToCache_coherent qw D A s sub :
  coherent qw D A s -> sub ∉ A -> valid_subject (sub_subject sub) ->
  coherent qw (stale_add qw D sub) (A ∪ {[sub]}) (addToCache s (sub_subject sub) sub).
Proof.
  intros Hc Hn (_&_&Hf) c'. unfold addToCache. destruct (cache s) as [c|] eqn:Ec; [|by rewrite Ec].
  assert (forall key r, c !! key = Some r -> no_empty (split key) /\ exists w, seen qw (stale_add qw D sub) w /\ expand w sub = [sub] /\ res_spec w A (split key) r) as Hw.
  { intros key r Hr. destruct (Hc c Ec key r Hr) as (?&w&Hw&Hs). split; [done|]. exists (set_weight w sub 1).
    split_and!; [by apply seen_add|apply expand_set_one|]. eapply res_spec_ext; [done|]. intros x Hx _. rewrite expand_set_ne; [done|]. by intros ->. }
  destruct (subjectIsLiteral (sub_subject sub)) eqn:El.
  - assert (forall key r, key <> sub_subject sub -> c !! key = Some r ->
      no_empty (split key) /\ exists w, seen qw (stale_add qw D sub) w /\ res_spec w (A ∪ {[sub]}) (split key) r) as Hother.
    { intros key r Hk Hr. destruct (Hw key r Hr) as (?&w&?&_&Hs). split; [done|]. exists w. split; [done|].
      apply (res_spec_unmatched _ _ _ _ sub) in Hs; [by apply Hs|]. apply not_true_iff_false. by rewrite literal_match. }
    destruct (c !! sub_subject sub) as [r0|] eqn:Er.
    + cbn. intros [= <-] key r Hr. destruct (decide (sub_subject sub = key)) as [<-|Hk].
      * rewrite lookup_insert_eq in Hr. injection Hr as <-. destruct (Hw _ _ Er) as (?&w&?&?&Hs). split; [done|].
        exists w. split; [done|]. apply addSubToResult_ok; [done|done|done|]. by apply literal_match.
      * rewrite lookup_insert_ne in Hr by done. by apply Hother.
    + rewrite Ec. intros [= <-] key r Hr. apply Hother; [by intros ->; congruence|done].
  - cbn. intros [= <-] key r. rewrite map_lookup_imap. destruct (c !! key) as [r0|] eqn:Er; [|done]. cbn.
    intros [= <-]. destruct (Hw _ _ Er) as (Hne&w&?&?&Hs). split; [done|]. exists w. split; [done|]. rewrite matchLiteral_ok by done.
    destruct (tok_match _ _) eqn:Em; [by apply addSubToResult_ok|]. by apply res_spec_unmatched.
Qed.

(** The entries left do not match [subject]. *)
Lemma removeFromCache_left s subject c' key r :
  fwc_last (split subject) -> (forall c, cache s = Some c -> forall k r, c !! k = Some r -> no_empty (split k)) ->
  cache (removeFromCache s subject) = Some c' -> c' !! key = Some r ->
  exists c, cache s = Some c /\ c !! key = Some r /\ tok_match (split subject) (split key) = false.
Proof.
  intros Hf Hne. unfold removeFromCache. destruct (cache s) as [c|] eqn:Ec; [|by rewrite Ec].
  specialize (Hne c eq_refl). destruct (subjectIsLiteral subject) eqn:El; cbn; intros [= <-] Hr; exists c.
  - apply lookup_delete_Some in Hr as [Hk Hr]. split_and!; [done|done|].
    apply not_true_iff_false. rewrite literal_match by done. congruence.
  - apply map_lookup_filter_Some in Hr as [Hr Hm]. split_and!; [done|done|]. cbn in Hm.
    by rewrite <- matchLiteral_ok by (done || by eapply Hne).
Qed.

Lemma coherent_no_empty qw D A s : coherent qw D A s ->
  forall c, cache s = Some c -> forall k r, c !! k = Some r -> no_empty (split k).
Proof. intros Hc c Ec k r Hr. by destruct (Hc c Ec k r Hr). Qed.

Lemma removeFromCache_coherent qw D A s sub :
  coherent qw D A s -> valid_subject (sub_subject sub) ->
  coherent qw (D ∖ {[sub]}) (A ∖ {[sub]}) (removeFromCache s (sub_subject sub)).
Proof.
  intros Hc (_&_&Hf) c' Ec' key r Hr.
  destruct (removeFromCache_left s _ c' key r Hf (coherent_no_empty qw D A s Hc) Ec' Hr) as (c&Ec&Hr0&Hm).
  destruct (Hc c Ec key r Hr0) as (?&w&Hw&Hs). split; [done|]. exists (set_weight w sub (qw sub)). split; [by apply seen_drop|].
  apply (res_spec_ext w); [by apply (res_spec_unmatched w A (split key) r sub)|]. intros x Hx _. rewrite expand_set_ne; [done|set_solver].
Qed.

Lemma removeFromCache_weight qw D A s sub n :
  coherent qw D A s -> valid_subject (sub_subject sub) ->
  coherent (set_weight qw sub n) (D ∖ {[sub]}) A (removeFromCache s (sub_subject sub)).
Proof.
  intros Hc (_&_&Hf) c' Ec' key r Hr.
  destruct (removeFromCache_left s _ c' key r Hf (coherent_no_empty qw D A s Hc) Ec' Hr) as (c&Ec&Hr0&Hm).
  destruct (Hc c Ec key r Hr0) as (?&w&Hw&Hs). split; [done|]. exists (set_weight w sub n). split.
  - intros x. destruct (decide (x = sub)) as [->|Hne]; [left; unfold expand, set_weight; by rewrite !decide_True by done|].
    rewrite !expand_set_ne by done. destruct (Hw x) as [?|[? ?]]; [by left|]. right. set_solver.
  - eapply res_spec_ext; [done|]. intros x _ Hx. rewrite expand_set_ne; [done|]. intros ->. congruence.
Qed.

Lemma sweep_loop_sub keys : forall c key r, sweep_loop keys c !! key = Some r -> c !! key = Some r.
Proof.
  induction keys as [|k keys IH]; intros c key r; [done|]. cbn [sweep_loop]. destruct (Nat.leb _ _).
  - by intros [_ ?]%lookup_delete_Some.
  - intros [_ ?]%IH%lookup_delete_Some. done.
Qed.

(** The result for a subject; one with an empty token has none. *)
Definition match_spec (qw : subscription -> Z) (D A : gset subscription) (subject : string) (r : SublistResult) : Prop :=
  if existsb empty_tok (split subject) then r = emptyResult else exists w, seen qw D w /\ res_spec w A (split subject) r.

(** A result that is not in the cache has the current weights. *)
Definition stale (D : gset subscription) (s : Sublist) (subject : string) : gset subscription :=
  match cache s ≫= lookup subject with Some _ => D | None => ∅ end.

Lemma match_ok qw D A s subject :
  stores (root s) A -> weighted qw A -> coherent qw D A s ->
  let '(s', r) := match_ qw s subject in
  match_spec qw (stale D s subject) A subject r /\ coherent qw D A s' /\
  root s' = root s /\ notify s' = notify s /\ count s' = count s /\ CacheEnabled s' = CacheEnabled s.
Proof.
  intros Hst Hw Hc. unfold match_, match_spec, stale. cbn [add_matches cache root].
  pose proof (matchLevel_ok qw (root s) A (split subject) Hst Hw) as Hm.
  destruct (cache s) as [c|] eqn:Ec; cbn [mbind option_bind].
  - specialize (Hc c Ec). destruct (c !! subject) as [r|] eqn:Er.
    + destruct (Hc _ _ Er) as (Hne&Hr). apply no_empty_spec in Hne. rewrite Hne. split_and!; [done| |done..].
      intros c' Ec'. cbn in Ec'. rewrite Ec in Ec'. by injection Ec' as <-.
    + rewrite match_tokens_ok. destruct (existsb empty_tok (split subject)) eqn:Ee.
      { split_and!; [done| |done..]. intros c' Ec'. cbn in Ec'. rewrite Ec in Ec'. by injection Ec' as <-. }
      split_and!; [exists qw; by split; [apply seen_refl|]| |by case_match..|case_match; unfold CacheEnabled; cbn; by rewrite Ec].
      intros c' Ec'. assert (c' = <[subject := matchLevel qw (Some (root s)) (split subject) emptyResult]> c) as ->
        by (revert Ec'; case_match; cbn; congruence).
      intros key r Hr. destruct (decide (subject = key)) as [<-|Hk].
      * rewrite lookup_insert_eq in Hr. injection Hr as <-. split; [by apply no_empty_spec|]. exists qw. by split; [apply seen_refl|].
      * rewrite lookup_insert_ne in Hr by done. by apply Hc.
  - rewrite match_tokens_ok. destruct (existsb empty_tok (split subject)) eqn:Ee.
    + split_and!; [done| |done..]. intros c' Ec'. cbn in Ec'. congruence.
    + split_and!; [exists qw; by split; [apply seen_refl|]| |done..]. intros c' Ec'. cbn in Ec'. congruence.
Qed.
End cache.
