(* ===== verification/SublistSpec.v ===== *)
(** * Sublist: properties

    The sublist implements a set of subscriptions: in every state its operations reach, [Match]
    returns the matching subscriptions whether the result was cached or not, up to the weights of
    remote queue subscriptions in cached results, the errors and the
    count are those of the set, and the channels registered for a subject are told about the
    first interest and the loss of the last. *)

From Stdlib Require Import Ascii.
From stdpp Require Import pretty.
From S2P Require Import Prelude Subject SubjectSpec Trie TrieSpec Sublist SublistProofs SublistCache.
Import Subj Sl.

(** ** Notifications *)

(** Interest in exactly this subject, without a queue. *)
Definition interest (A : gset subscription) (subj : string) : Prop :=
  exists x, x ∈ A /\ sub_queue x = None /\ sub_subject x = subj.

#[export] Instance interest_dec A subj : Decision (interest A subj).
Proof. exact (decide (set_Exists (fun x => sub_queue x = None /\ sub_subject x = subj) A)). Defined.

(** A literal subject without white space: the key of such a subject is no other pair's key. *)
Definition plain_key (subj : string) : Prop := contains_space subj = false /\ subjectHasWildcard subj = false.

Lemma contains_space_app a b : contains_space (a +:+ String " "%char b) = true.
Proof.
  induction a as [|c a IH]; [rewrite app_string_nil_l; done|]. rewrite app_string_cons. cbn [contains_space].
  by rewrite IH, orb_true_r.
Qed.

Lemma plain_key_inv subj subject queue :
  plain_key subj -> keyFromSubjectAndQueue subject queue = subj -> queue = ""%string /\ subject = subj.
Proof.
  intros [Hs _]. unfold keyFromSubjectAndQueue. destruct (String.eqb_spec queue "") as [->|Hq]; [done|].
  intros <-. rewrite app_string_cons, app_string_nil_l, contains_space_app in Hs. done.
Qed.

Notation chans m k := (default [] (m !! k)).

Definition notify_ok (A : gset subscription) (n : notifyMaps) : Prop :=
  forall subj, plain_key subj ->
    (chans (ninsert n) subj <> [] -> ~ interest A subj) /\ (chans (nremove n) subj <> [] -> interest A subj).

Lemma interest_add A sub subj :
  interest (A ∪ {[sub]}) subj <-> interest A subj \/ (sub_queue sub = None /\ sub_subject sub = subj).
Proof. unfold interest. set_solver. Qed.

Lemma notify_add A n sub : notify_ok A n ->
  (sub_queue sub = None -> plain_key (sub_subject sub) -> chans (ninsert n) (sub_subject sub) = []) ->
  notify_ok (A ∪ {[sub]}) n.
Proof.
  intros Hn Hs subj Hk. destruct (Hn subj Hk) as [H1 H2]. rewrite interest_add. split; [|by left; auto].
  intros Hc [Hi|[Hq <-]]; [by apply H1|]. by apply Hc, Hs.
Qed.

Lemma interest_remove A sub subj : sub_queue sub <> None \/ sub_subject sub <> subj ->
  interest (A ∖ {[sub]}) subj <-> interest A subj.
Proof. unfold interest. intros Hs. set_solver. Qed.

Lemma notify_remove A n sub : notify_ok A n ->
  (sub_queue sub = None -> plain_key (sub_subject sub) ->
   chans (nremove n) (sub_subject sub) = [] \/ interest (A ∖ {[sub]}) (sub_subject sub)) ->
  notify_ok (A ∖ {[sub]}) n.
Proof.
  intros Hn Hs subj Hk. destruct (Hn subj Hk) as [H1 H2]. split.
  - intros Hc (x&Hx&?&?). apply H1; [done|]. exists x. set_solver.
  - intros Hc. destruct (decide (sub_queue sub = None)) as [Hq|Hq]; [|apply interest_remove; auto].
    destruct (decide (sub_subject sub = subj)) as [<-|Hne]; [|apply interest_remove; auto].
    by destruct (Hs Hq Hk).
Qed.

Lemma chkForInsert_ok A n sub : notify_ok A n -> sub_queue sub <> Some ""%string ->
  let '(n', out) := chkForInsertNotification n (sub_subject sub) (default ""%string (sub_queue sub)) in
  notify_ok (A ∪ {[sub]}) n' /\
  (sub_queue sub = None -> out = send_all (chans (ninsert n) (sub_subject sub)) true).
Proof.
  intros Hn Hq. unfold chkForInsertNotification. set (key := keyFromSubjectAndQueue _ _).
  assert (sub_queue sub = None -> key = sub_subject sub) as Hkey by (unfold key; by intros ->).
  destruct (chans (ninsert n) key) as [|ch chs] eqn:Ec.
  - split; [|intros Hz; by rewrite <- (Hkey Hz), Ec]. apply notify_add; [done|]. intros Hz _. by rewrite <- (Hkey Hz), Ec.
  - split; [|intros Hz; by rewrite <- (Hkey Hz), Ec]. intros subj Hk. destruct (Hn subj Hk) as [H1 H2]. cbn [ninsert nremove].
    rewrite interest_add. destruct (decide (key = subj)) as [E|Hne].
    + rewrite E, lookup_delete_eq. split; [done|]. intros _. right. unfold key in E.
      apply plain_key_inv in E as [E <-]; [|done]. split; [|done]. destruct (sub_queue sub); [|done]. cbn in E. by subst.
    + rewrite lookup_delete_ne, lookup_insert_ne by done. split; [|by left; auto].
      intros Hc [Hi|[Hz He]]; [by apply H1|]. apply Hne. by rewrite Hkey.
Qed.

(** ** The invariant *)

Section spec.
Context `{SubOrder} `{!SubOrderLaws}.

Record sl_inv (qw : subscription -> Z) (D A : gset subscription) (s : Sublist) : Prop := {
  inv_stores : stores (root s) A;
  inv_coherent : coherent qw D A s;
  inv_stale : D ⊆ A;
  inv_weighted : weighted qw A;
  inv_subs : forall x, x ∈ A -> valid_subject (sub_subject x) /\ sub_queue x <> Some ""%string;
  inv_count : count s = u32 (Z.of_nat (size A));
  inv_notify : forall n, notify s = Some n -> notify_ok A n;
}.

Lemma new_inv qw b : sl_inv qw ∅ ∅ (NewSublist b).
Proof.
  split; [apply sl_new_stores| |done|intros x; set_solver|intros x; set_solver|done|done].
  intros c. unfold NewSublist. cbn. destruct b; [|done]. intros [= <-] key r. by rewrite lookup_empty.
Qed.

Lemma coherent_cache qw D A s s' : cache s' = cache s -> coherent qw D A s -> coherent qw D A s'.
Proof. unfold coherent. by intros ->. Qed.

Lemma addToCache_fields s subject sub : let s' := addToCache s subject sub in
  root s' = root s /\ notify s' = notify s /\ count s' = count s /\ CacheEnabled s' = CacheEnabled s.
Proof. unfold addToCache, CacheEnabled. cbn zeta. destruct (cache s) eqn:E; [|by rewrite E]. repeat case_match; cbn; by rewrite ?E. Qed.

Lemma removeFromCache_fields s subject : let s' := removeFromCache s subject in
  root s' = root s /\ notify s' = notify s /\ count s' = count s /\ CacheEnabled s' = CacheEnabled s.
Proof. unfold removeFromCache, CacheEnabled. cbn zeta. destruct (cache s) eqn:E; [|by rewrite E]. repeat case_match; cbn; by rewrite ?E. Qed.

Lemma haswc_ok subject : haswc subject = subjectHasWildcard subject.
Proof. by rewrite subjectHasWildcard_ok. Qed.

(** Channels told by the insertion of [sub]. *)
Definition insert_sends (s : Sublist) (sub : subscription) : list (Z * bool) :=
  match notify s with Some n => send_all (chans (ninsert n) (sub_subject sub)) true | None => [] end.

Lemma insert_inv qw D A s sub :
  sl_inv qw D A s -> valid_subject (sub_subject sub) -> sub ∉ A -> sub_queue sub <> Some ""%string -> expand qw sub <> [] ->
  let '(s', out, e) := Insert s sub in
  e = None /\ sl_inv qw (stale_add qw D sub) (A ∪ {[sub]}) s' /\
  (sub_queue sub = None -> plain_key (sub_subject sub) -> out = insert_sends s sub).
Proof.
  intros [Hst Hco HD Hw Hsubs Hcnt Hno] Hv Hn Hq He. unfold Insert.
  pose proof (insert_stores (root s) A sub Hst Hv Hn) as Hi. destruct (Trie.insert_loop _ _ _ _ _) as [l r].
  destruct Hi as (Hst'&isnew&->&Hnew). set (s1 := addToCache (inserted s l) (sub_subject sub) sub).
  destruct (addToCache_fields (inserted s l) (sub_subject sub) sub) as (Hr&Hnt&Hct&_). fold s1 in Hr, Hnt, Hct.
  cbn in Hr, Hnt, Hct.
  assert (forall s2, root s2 = root s1 -> cache s2 = cache s1 -> count s2 = count s1 ->
    (forall n, notify s2 = Some n -> notify_ok (A ∪ {[sub]}) n) -> sl_inv qw (stale_add qw D sub) (A ∪ {[sub]}) s2) as Hmk.
  { intros s2 E1 E2 E3 E4. split; [by rewrite E1, Hr| |unfold stale_add; case_decide; set_solver| | |rewrite E3, Hct, Hcnt|done].
    - apply (coherent_cache _ _ _ s1); [done|]. by apply addToCache_coherent.
    - intros x [Hx| ->%elem_of_singleton]%elem_of_union; [by apply Hw|done].
    - intros x [Hx| ->%elem_of_singleton]%elem_of_union; [by apply Hsubs|done].
    - rewrite size_union by set_solver. rewrite size_singleton. unfold u32. rewrite Zplus_mod_idemp_l. f_equal. lia. }
  unfold insert_sends. cbn [add_genid notify]. rewrite Hnt. destruct (notify s) as [n|] eqn:En.
  2: { split_and!; [done|apply Hmk; [done..|]|done]. cbn. rewrite Hnt. done. }
  specialize (Hno n eq_refl). destruct (isnew && negb (haswc (sub_subject sub)) && Nat.ltb 0 (size (ninsert n))) eqn:Eb.
  - pose proof (chkForInsert_ok A n sub Hno Hq) as Hc. destruct (chkForInsertNotification _ _ _) as [n' out].
    destruct Hc as [Hc Hout]. split_and!; [done|apply Hmk; [done..|]|by intros Hz _; apply Hout]. by intros ? [= <-].
  - assert (sub_queue sub = None -> plain_key (sub_subject sub) -> chans (ninsert n) (sub_subject sub) = []) as Hz.
    { intros Hqn Hk. destruct (chans (ninsert n) (sub_subject sub)) eqn:Ec; [done|]. exfalso.
      destruct (Hno _ Hk) as [H1 _]. rewrite haswc_ok in Eb. rewrite (proj2 Hk) in Eb.
      assert (isnew = true) as ->.
      { apply Hnew. intros x Hx Hs Hxq. apply H1; [by rewrite Ec|]. exists x. by rewrite Hxq. }
      cbn [andb negb] in Eb. apply Nat.ltb_ge in Eb. assert (ninsert n = ∅) as E0 by (apply map_size_empty_inv; lia).
      rewrite E0, lookup_empty in Ec. done. }
    split_and!; [done|apply Hmk; [done..|]|].
    + cbn. rewrite Hnt. intros ? [= <-]. by apply notify_add.
    + intros Hqn Hk. by rewrite Hz.
Qed.

(** ** Exact interest *)

Lemma match_inv qw D A s subject : sl_inv qw D A s ->
  let '(s', r) := match_ qw s subject in
  match_spec qw (stale D s subject) A subject r /\ sl_inv qw D A s' /\ notify s' = notify s /\ CacheEnabled s' = CacheEnabled s.
Proof.
  intros [Hst Hco HD Hw Hsubs Hcnt Hno]. pose proof (match_ok qw D A s subject Hst Hw Hco) as Hm.
  destruct (match_ qw s subject) as [s' r]. destruct Hm as (?&?&Hr&Hn&Hc&?). split_and!; [done| |done|done].
  split; [by rewrite Hr|done|done|done|done|by rewrite Hc|by rewrite Hn].
Qed.

Lemma queue_scan_total subject queue qsl : [] ∉ qsl -> is_Some (queue_scan subject queue qsl).
Proof.
  induction qsl as [|[|x g] qsl IH]; intros Hn; cbn [queue_scan]; [done|set_solver|].
  case_match; [done|]. apply IH. set_solver.
Qed.

Lemma exact_interest_ok qw D A subject queue r :
  match_spec qw D A subject r -> (forall x, x ∈ A -> valid_subject (sub_subject x)) ->
  exists b, exact_interest r subject queue = Some b /\
    (queue = ""%string -> subjectHasWildcard subject = false -> b = true <-> interest A subject).
Proof.
  unfold match_spec, exact_interest. intros Hm Hv. destruct (String.eqb_spec queue "") as [->|Hq].
  2: { destruct (queue_scan_total subject queue (qsubs r)) as [b Hb]; [|by exists b].
       destruct (existsb empty_tok (split subject)); [subst r; set_solver|by destruct Hm as (?&_&_&[_ ?]&_)]. }
  eexists. split; [done|]. intros _ Hlit. rewrite existsb_exists. unfold interest.
  destruct (existsb empty_tok (split subject)) eqn:Ee.
  - subst r. split; [by intros (?&[]&_)|]. intros (x&Hx&_&<-). apply Hv in Hx as (_&Hx%no_empty_spec&_). congruence.
  - destruct Hm as (w&_&Hp&_&_). setoid_rewrite <- list_elem_of_In. setoid_rewrite String.eqb_eq.
    setoid_rewrite Hp. setoid_rewrite elem_of_elements. unfold matching. setoid_rewrite elem_of_filter.
    rewrite subjectHasWildcard_ok in Hlit. split.
    + intros (x&[[? ?] ?]&?). by exists x.
    + intros (x&?&?&E). exists x. split_and!; [done| |done|done]. rewrite E. by apply tok_match_exact.
Qed.

(** ** Remove *)

Lemma chkForRemove_ok qw D A s n sub :
  sl_inv qw (D ∖ {[sub]}) (A ∖ {[sub]}) (with_notify s None) -> notify s = Some n -> notify_ok A n ->
  sub_queue sub <> Some ""%string -> (sub_queue sub = None -> subjectHasWildcard (sub_subject sub) = false) ->
  exists s' out, chkForRemoveNotification qw s n (sub_subject sub) (default ""%string (sub_queue sub)) = Some (s', out) /\
    sl_inv qw (D ∖ {[sub]}) (A ∖ {[sub]}) s' /\ CacheEnabled s' = CacheEnabled s /\
    (sub_queue sub = None -> (interest (A ∖ {[sub]}) (sub_subject sub) -> out = []) /\
       (~ interest (A ∖ {[sub]}) (sub_subject sub) -> out = send_all (chans (nremove n) (sub_subject sub)) false)).
Proof.
  intros [Hst Hco HD Hw Hsubs Hcnt _] Hns Hno Hq Hlit. unfold chkForRemoveNotification. set (key := keyFromSubjectAndQueue _ _).
  assert (sub_queue sub = None -> key = sub_subject sub) as Hkey by (unfold key; by intros ->).
  destruct (chans (nremove n) key) as [|ch chs] eqn:Ec.
  { eexists s, []. split_and!; [done| |done|].
    - split; [done..|]. rewrite Hns. intros ? [= <-]. apply notify_remove; [done|]. intros Hz _. left. rewrite <- (Hkey Hz). exact Ec.
    - intros Hz. rewrite <- (Hkey Hz), Ec. done. }
  pose proof (match_ok qw _ _ s (sub_subject sub) Hst Hw Hco) as Hm. destruct (match_ qw s (sub_subject sub)) as [s1 r].
  destruct Hm as (Hm&Hco'&Hr&Hn1&Hc1&Hce).
  destruct (exact_interest_ok qw _ _ _ (default ""%string (sub_queue sub)) r Hm) as (b&Hb&Hbi); [by intros x [? _]%Hsubs|].
  rewrite Hb. cbn [mbind option_bind].
  assert (sub_queue sub = None -> b = true <-> interest (A ∖ {[sub]}) (sub_subject sub)) as Hbi'.
  { intros Hz. apply Hbi; [by rewrite Hz|auto]. }
  destruct b.
  - exists s1, []. split_and!; [done| |done|].
    + split; [by rewrite Hr|done|done|done|done|by rewrite Hc1|]. rewrite Hn1, Hns. intros ? [= <-]. apply notify_remove; [done|].
      intros Hz _. right. by apply Hbi'.
    + intros Hz. split; [done|]. intros Hni. by destruct Hni; apply Hbi'.
  - eexists _, _. split_and!; [done| |done|].
    + split; cbn; [by rewrite Hr|done|done|done|done|by rewrite Hc1|]. intros ? [= <-] subj Hk. cbn [ninsert nremove].
      destruct (notify_remove A (mkNotify (ninsert n) (delete key (nremove n))) sub) with (subj := subj) as [H1 H2]; [..|done|].
      * intros subj' Hk'. destruct (Hno subj' Hk') as [I1 I2]. split; [done|]. cbn. destruct (decide (key = subj')) as [<-|?].
        -- by rewrite lookup_delete_eq.
        -- by rewrite lookup_delete_ne.
      * intros Hz _. left. cbn. by rewrite <- (Hkey Hz), lookup_delete_eq.
      * cbn in H1, H2. split; [|done]. destruct (decide (key = subj)) as [E|Hne].
        -- intros _ Hi. unfold key in E. apply plain_key_inv in E as [E E']; [|done]. subst subj.
           assert (sub_queue sub = None) as Hz by (destruct (sub_queue sub); [cbn in E; by subst|done]).
           apply Hbi' in Hi; done.
        -- by rewrite lookup_insert_ne.
    + intros Hz. rewrite <- (Hkey Hz), Ec. split; [|done]. rewrite (Hkey Hz). intros Hi. apply Hbi' in Hi; done.
Qed.

(** Channels told by the removal of [sub], which leaves [A]. *)
Definition remove_sends (s : Sublist) (A : gset subscription) (sub : subscription) (out : list (Z * bool)) : Prop :=
  match notify s with
  | Some n => (interest A (sub_subject sub) -> out = []) /\
              (~ interest A (sub_subject sub) -> out = send_all (chans (nremove n) (sub_subject sub)) false)
  | None => out = []
  end.

Lemma remove_inv qw D A s sub upd :
  sl_inv qw D A s -> valid_subject (sub_subject sub) -> (upd = true \/ cache s = None) ->
  exists s' out e, remove qw s sub upd = Some (s', out, e) /\ CacheEnabled s' = CacheEnabled s /\
    (sub ∉ A -> e = Some Trie.ErrNotFound /\ s' = s /\ out = []) /\
    (sub ∈ A -> e = None /\ sl_inv qw (D ∖ {[sub]}) (A ∖ {[sub]}) s' /\
       (sub_queue sub = None -> plain_key (sub_subject sub) -> remove_sends s (A ∖ {[sub]}) sub out)).
Proof.
  intros [Hst Hco HD Hw Hsubs Hcnt Hno] Hv Hu. unfold remove.
  pose proof (remove_stores (root s) A sub Hst Hv) as Hr. destruct (Trie.remove_loop _ _ _ _ _) as [e|[l last]].
  { destruct Hr as [-> Hn]. eexists s, [], _. split_and!; [done|done|done|done]. }
  destruct Hr as (Hin&Hst'&Hlast).
  set (s1 := if upd then add_genid (removeFromCache (removed s l) (sub_subject sub)) else removed s l).
  destruct (removeFromCache_fields (removed s l) (sub_subject sub)) as (Hr&Hnt&Hct&Hce). cbn in Hr, Hnt, Hct.
  assert (root s1 = l /\ notify s1 = notify s /\ count s1 = u32 (count s - 1) /\ CacheEnabled s1 = CacheEnabled s) as (E1&E2&E3&E4)
    by (unfold s1; destruct upd; split_and!; done).
  assert (coherent qw (D ∖ {[sub]}) (A ∖ {[sub]}) s1) as Hco'.
  { unfold s1. destruct upd; [|by destruct Hu as [?|Hu]; [done|]; intros c; cbn; rewrite Hu].
    by apply (coherent_cache _ _ _ (removeFromCache (removed s l) (sub_subject sub))); [done|]; apply removeFromCache_coherent. }
  assert (forall m, (forall n, m = Some n -> notify_ok (A ∖ {[sub]}) n) -> sl_inv qw (D ∖ {[sub]}) (A ∖ {[sub]}) (with_notify s1 m)) as Hmk.
  { intros m Hm. split; [by cbn; rewrite E1|done|set_solver|intros x Hx; apply Hw; set_solver|intros x Hx; apply Hsubs; set_solver| |done].
    cbn. rewrite E3, Hcnt. assert (size A <> 0%nat) by (intros Hz%size_empty_inv; set_solver).
    rewrite size_difference by set_solver. rewrite size_singleton. unfold u32. rewrite Zminus_mod_idemp_l. f_equal. lia. }
  assert (s1 = with_notify s1 (notify s1)) as Es by (by destruct s1).
  destruct (Hsubs sub Hin) as [_ Hq]. unfold remove_sends. rewrite E2. destruct (notify s) as [n|] eqn:En.
  2: { exists s1, [], None. split_and!; [done|done|done|]. intros _. split_and!; [done| |done]. rewrite Es, E2. by apply Hmk. }
  specialize (Hno n eq_refl). destruct (last && negb (haswc (sub_subject sub)) && Nat.ltb 0 (size (nremove n))) eqn:Eb.
  - apply andb_true_iff in Eb as [[_ Hl%negb_true_iff]%andb_true_iff _]. rewrite haswc_ok in Hl.
    destruct (chkForRemove_ok qw D A s1 n sub (Hmk None ltac:(done)) E2 Hno Hq (fun _ => Hl)) as (s2&out&Hc&Hi&Hce2&Hout).
    rewrite Hc. cbn. eexists s2, out, None. split_and!; [done|congruence|done|]. intros _. split_and!; [done|done|]. auto.
  - assert (sub_queue sub = None -> plain_key (sub_subject sub) ->
      chans (nremove n) (sub_subject sub) = [] \/ interest (A ∖ {[sub]}) (sub_subject sub)) as Hz.
    { intros Hqn Hk. rewrite haswc_ok, (proj2 Hk), andb_true_r in Eb. apply andb_false_iff in Eb as [Eb|Eb].
      - right. destruct (decide (interest (A ∖ {[sub]}) (sub_subject sub))) as [?|Hni]; [done|]. exfalso.
        assert (last = true) as ->; [|done]. apply Hlast. intros x Hx Hs Hxq. apply Hni. exists x. by rewrite Hxq.
      - left. apply Nat.ltb_ge in Eb. assert (nremove n = ∅) as -> by (apply map_size_empty_inv; lia). by rewrite lookup_empty. }
    exists s1, [], None. split_and!; [done|done|done|]. intros _. split_and!; [done| |].
    + rewrite Es, E2. apply Hmk. intros ? [= <-]. by apply notify_remove.
    + intros Hqn Hk. split; [done|]. intros Hni. destruct (Hz Hqn Hk) as [->|?]; done.
Qed.

(** The first error of a batch. *)
Fixpoint batch_err (A : gset subscription) (subs : list subscription) : option Trie.trie_error :=
  match subs with
  | [] => None
  | x :: subs => if decide (x ∈ A) then batch_err (A ∖ {[x]}) subs else Some Trie.ErrNotFound
  end.

Lemma batch_loop_inv qw subs : forall D A s out err,
  sl_inv qw D A s -> cache s = None -> Forall (fun x => valid_subject (sub_subject x)) subs ->
  exists s' out', remove_batch_loop qw s out err subs =
      Some (s', out', match err with Some _ => err | None => batch_err A subs end) /\
    sl_inv qw (D ∖ list_to_set subs) (A ∖ list_to_set subs) s' /\ cache s' = None.
Proof.
  induction subs as [|x subs IH]; intros D A s out err Hs Hc Hv.
  { exists s, out. cbn. split_and!; [by destruct err| |done]. by rewrite !difference_empty_L. }
  apply Forall_cons in Hv as [Hx Hv]. cbn [remove_batch_loop batch_err list_to_set].
  destruct (remove_inv qw D A s x false Hs Hx (or_intror Hc)) as (s1&out1&e&Hr&Hce&Hno&Hyes). rewrite Hr. cbn [mbind option_bind].
  assert (cache s1 = None) as Hc1 by (unfold CacheEnabled in Hce; rewrite Hc in Hce; by destruct (cache s1)).
  destruct (decide (x ∈ A)) as [Hin|Hn].
  - destruct (Hyes Hin) as (->&Hs1&_).
    destruct (IH (D ∖ {[x]}) (A ∖ {[x]}) s1 (out ++ out1) (match err with Some _ => err | None => None end) Hs1 Hc1 Hv) as (s2&out2&Hl&Hs2&Hc2).
    exists s2, out2. rewrite Hl. split_and!; [by destruct err| |done].
    by rewrite <- !difference_difference_l_L.
  - destruct (Hno Hn) as (->&->&->).
    destruct (IH D A s (out ++ []) (match err with Some _ => err | None => Some Trie.ErrNotFound end) Hs Hc1 Hv) as (s2&out2&Hl&Hs2&Hc2).
    exists s2, out2. rewrite Hl. split_and!; [by destruct err| |done].
    pose proof (inv_stale _ _ _ _ Hs). replace (D ∖ ({[x]} ∪ list_to_set subs)) with (D ∖ list_to_set subs) by set_solver.
    by replace (A ∖ ({[x]} ∪ list_to_set subs)) with (A ∖ list_to_set subs) by set_solver.
Qed.

Lemma inv_fields qw D A s s' : root s' = root s -> count s' = count s -> notify s' = notify s ->
  coherent qw D A s' -> sl_inv qw D A s -> sl_inv qw D A s'.
Proof. intros E1 E2 E3 Hc [? ? ? ? ? ? ?]. split; [by rewrite E1|done|done|done|done|by rewrite E2|by rewrite E3]. Qed.

Lemma batch_inv qw D A s subs : sl_inv qw D A s -> Forall (fun x => valid_subject (sub_subject x)) subs ->
  exists s' out, RemoveBatch qw s subs = Some (s', out, batch_err A subs) /\ sl_inv qw (D ∖ list_to_set subs) (A ∖ list_to_set subs) s'.
Proof.
  intros Hs Hv. unfold RemoveBatch. destruct subs as [|x subs].
  { exists s, []. cbn. by rewrite !difference_empty_L. }
  destruct (batch_loop_inv qw (x :: subs) D A (with_cache s None) [] None) as (s1&out&Hl&Hs1&Hc1); [|done|done|].
  { apply (inv_fields qw D A s); try done. }
  rewrite Hl. cbn [mbind option_bind]. eexists _, out. split; [done|].
  apply (inv_fields qw _ _ s1); [by case_match..| |done].
  intros c. case_match; cbn; [|by rewrite Hc1]. intros [= <-] key r. by rewrite lookup_empty.
Qed.

(** ** Registration *)

Lemma addNotify_chans m key ch m' k : addNotify m key ch = inr m' -> k <> key -> chans m' k = chans m k.
Proof. unfold addNotify. case_match; [done|]. intros [= <-] Hk. by rewrite lookup_insert_ne. Qed.

Lemma register_inv qw D A s subject queue ch : sl_inv qw D A s ->
  exists s' out e, registerNotification qw s subject queue ch = Some (s', out, e) /\ sl_inv qw D A s' /\
    (queue = ""%string -> e = None -> exists c, ch = Some c /\ out = [(c, bool_decide (interest A subject))]).
Proof.
  intros Hs. unfold registerNotification. destruct (subjectHasWildcard subject) eqn:El; [by eexists s, [], _|].
  destruct ch as [ch|]; [|by eexists s, [], _]. unfold Match.
  pose proof (match_inv qw D A s subject Hs) as Hm. destruct (match_ qw s subject) as [s1 r]. destruct Hm as (Hm&Hs1&_&_).
  destruct (exact_interest_ok qw _ A subject queue r Hm) as (b&Hb&Hbi); [intros x Hx; by destruct (inv_subs _ _ _ _ Hs x Hx)|].
  rewrite Hb. cbn [mbind option_bind]. set (n := default (mkNotify ∅ ∅) (notify s1)).
  assert (notify_ok A n) as Hn.
  { unfold n. destruct (notify s1) eqn:E; [by apply (inv_notify _ _ _ _ Hs1)|].
    intros subj _. cbn. rewrite lookup_empty. done. }
  assert (forall n', notify_ok A n' -> sl_inv qw D A (with_notify s1 (Some n'))) as Hmk.
  { intros n' Hn'. destruct Hs1. split; [done..|]. by intros ? [= <-]. }
  set (key := keyFromSubjectAndQueue subject queue).
  assert (forall subj, plain_key subj -> subj = key -> queue = ""%string /\ subject = subj) as Hkey.
  { intros subj Hk ->. by apply plain_key_inv. }
  destruct (if b then _ else _) as [e|m] eqn:Ea.
  { eexists _, _, _. split; [done|]. split; [by apply Hmk|done]. }
  eexists _, _, _. split; [done|]. split; [apply Hmk|].
  - intros subj Hk. destruct (Hn subj Hk) as [H1 H2]. destruct b; cbn [ninsert nremove].
    + split; [done|]. intros Hc. destruct (decide (subj = key)) as [->|Hne].
      * destruct (Hkey key Hk eq_refl) as [-> <-]. by apply Hbi.
      * apply H2. by rewrite <- (addNotify_chans _ _ _ _ _ Ea Hne).
    + split; [|done]. intros Hc. destruct (decide (subj = key)) as [->|Hne].
      * destruct (Hkey key Hk eq_refl) as [-> <-]. intros Hi. apply Hbi in Hi; done.
      * apply H1. by rewrite <- (addNotify_chans _ _ _ _ _ Ea Hne).
  - intros Hq _. exists ch. split; [done|]. do 2 f_equal. specialize (Hbi Hq El).
    destruct b; symmetry; [apply bool_decide_eq_true|apply bool_decide_eq_false]; naive_solver.
Qed.

Lemma chkAndRemove_chans key ch ms k : chans (chkAndRemove key ch ms).2 k <> [] -> chans ms k <> [].
Proof.
  unfold chkAndRemove. destruct (index_of ch 0 (chans ms key)) as [i|] eqn:Ei; [|done]. cbn [snd].
  destruct (decide (key = k)) as [<-|Hne].
  - intros _ E. by rewrite E in Ei.
  - case_match; [by rewrite lookup_delete_ne|by rewrite lookup_insert_ne].
Qed.

Lemma clear_inv qw D A s subject queue ch : sl_inv qw D A s -> sl_inv qw D A (clearNotification s subject queue ch).1.
Proof.
  intros Hs. unfold clearNotification. destruct (notify s) as [n|] eqn:En; [|done].
  set (key := keyFromSubjectAndQueue subject queue).
  pose proof (chkAndRemove_chans key ch (nremove n)) as H1. pose proof (chkAndRemove_chans key ch (ninsert n)) as H2.
  destruct (chkAndRemove key ch (nremove n)) as [did rm].
  assert (forall k, chans (if did then (true, ninsert n) else chkAndRemove key ch (ninsert n)).2 k <> [] -> chans (ninsert n) k <> []) as H3.
  { intros k. destruct did; [done|apply H2]. }
  destruct (if did then _ else _) as [did' ins]. cbn [fst snd] in *.
  pose proof (inv_notify _ _ _ _ Hs n En) as Hn. destruct Hs. split; [done..|]. cbn. case_match; [done|].
  intros ? [= <-] subj Hk. destruct (Hn subj Hk) as [I1 I2]. cbn. split; [intros ?%H3; by apply I1|intros ?%H1; by apply I2].
Qed.

(** ** Weights, sweeps, interest *)

Lemma weight_inv qw D A s sub n : sl_inv qw D A s -> valid_subject (sub_subject sub) -> 0 < n ->
  sl_inv (set_weight qw sub n) (D ∖ {[sub]}) A (UpdateRemoteQSub s sub).
Proof.
  intros [Hst Hco HD Hw Hsubs Hcnt Hno] Hv Hp. unfold UpdateRemoteQSub.
  destruct (removeFromCache_fields s (sub_subject sub)) as (E1&E2&E3&_).
  split; [by cbn; rewrite E1| |set_solver| |done|by cbn; rewrite E3|by cbn; rewrite E2].
  - apply (coherent_cache _ _ _ (removeFromCache s (sub_subject sub))); [done|]. by apply removeFromCache_weight.
  - intros x Hx. specialize (Hw x Hx). unfold expand, set_weight in *. destruct (isRemoteQSub x); [|done].
    case_decide; [|done]. destruct (Z.to_nat n) eqn:E; [lia|done].
Qed.

Lemma sweep_inv qw D A s keys : sl_inv qw D A s -> sl_inv qw D A (reduceCacheCount s keys).
Proof.
  intros Hs. apply (inv_fields qw D A s); [unfold reduceCacheCount; by destruct (cache s)..| |done].
  intros c'. unfold reduceCacheCount. destruct (cache s) as [c|] eqn:Ec; cbn; [|by rewrite Ec].
  intros [= <-] key r Hr%sweep_loop_sub. by apply (inv_coherent _ _ _ _ Hs c Ec).
Qed.

Lemma sweep_size keys : forall c : gmap string SublistResult, (forall k, is_Some (c !! k) -> k ∈ keys) ->
  (slCacheSweep < size c -> size (sweep_loop keys c) = slCacheSweep)%nat.
Proof.
  induction keys as [|k keys IH]; intros c Hk Hs.
  { destruct (decide (c = ∅)) as [->|Hne]; [rewrite map_size_empty in Hs; unfold slCacheSweep in Hs; lia|].
    destruct (map_choose c Hne) as (k&r&Hr). assert (k ∈ []) by (apply Hk; by eexists). set_solver. }
  cbn [sweep_loop].
  assert (size (delete k c) = size c - (if c !! k then 1 else 0))%nat as Hd.
  { rewrite map_size_delete. destruct (c !! k); unfold id; lia. }
  destruct (Nat.leb_spec (size (delete k c)) slCacheSweep) as [Hle|Hgt]; [revert Hd; destruct (c !! k); lia|].
  apply IH; [|done]. intros k' [r [Hne Hr]%lookup_delete_Some].
  assert (k' ∈ k :: keys) as [->|?]%elem_of_cons by (apply Hk; by eexists); done.
Qed.

Lemma interest_trie qw D A s toks c : sl_inv qw D A s ->
  (matchLevelForAny (Some (root s)) toks c).1 = true <->
  exists x, x ∈ A /\ tok_match (split (sub_subject x)) toks = true.
Proof.
  intros [[Hok Hat Hmem] _ _ _ _ _ _]. unfold matchLevelForAny.
  assert (forall l', Some (root s) = Some l' -> level_ok pok no_subs l') as Hl by (by intros ? [= <-]).
  rewrite (matchLevelForAny_ok pok no_subs); [|apply has_subs_no_subs|done]. rewrite existsb_exists. split.
  - intros ([p n]&Hin&Hs). apply list_elem_of_In in Hin.
    apply (collect_spec pok no_subs) in Hin as [Hp Hm]; [|done]. cbn in Hp. cbn [snd] in Hs.
    assert (get newNode (root s) p = n) as Hg by (unfold get; by rewrite Hp).
    assert (pok n) as Hn by (rewrite <- Hg; exact (get_ok newNode pok no_subs newNode_ok _ p Hok)).
    rewrite has_subs_no_subs in Hs by done. apply negb_true_iff, no_subs_holds in Hs as [x Hx]; [|done].
    rewrite <- Hg in Hx. pose proof (Hat _ _ Hx) as ->. exists x. split; [by apply Hmem|done].
  - intros (x&Hin&Hm). apply Hmem in Hin.
    destruct (get_payload newNode (root s) (split (sub_subject x))) as [Hn|Hp].
    { unfold get in Hin. rewrite Hn in Hin. by apply holds_newNode in Hin. }
    eexists (_, _). split; [apply list_elem_of_In, (collect_spec pok no_subs); [done|by split]|]. cbn [snd].
    pose proof (get_ok newNode pok no_subs newNode_ok _ (split (sub_subject x)) Hok) as Hk.
    rewrite has_subs_no_subs by done. apply negb_true_iff, no_subs_holds; [done|]. by exists x.
Qed.

Lemma res_interest qw A toks r : res_spec qw A toks r -> (0 < length (psubs r) + length (qsubs r))%nat ->
  exists x, x ∈ A /\ tok_match (split (sub_subject x)) toks = true.
Proof.
  intros (H1&[[H2 _] H3]&H4) Hl.
  assert (forall q x, x ∈ matching A q toks -> exists x, x ∈ A /\ tok_match (split (sub_subject x)) toks = true) as Hm.
  { intros q x. unfold matching. rewrite elem_of_filter. intros [[_ ?] ?]. by exists x. }
  destruct (psubs r) as [|x ps] eqn:Ep.
  - destruct (qsubs r) as [|[|x g] qs] eqn:Eq; [cbn in Hl; lia|set_solver|].
    destruct (H2 (x :: g) x ltac:(set_solver) ltac:(set_solver)) as [[q Hq] _].
    assert (x ∈ q_members q ((x :: g) :: qs)) as Hx by (rewrite q_members_cons, decide_True by done; set_solver).
    rewrite H4 in Hx. apply list_elem_of_bind in Hx as (y&_&Hy%elem_of_elements). by eapply Hm.
  - apply (Hm None x), elem_of_elements. rewrite <- H1. set_solver.
Qed.

Lemma HasInterest_inv qw D A s subject : sl_inv qw D A s ->
  let '(s', b) := HasInterest s subject in
  sl_inv qw D A s' /\
  (b = true <-> no_empty (split subject) /\ exists x, x ∈ A /\ tok_match (split (sub_subject x)) (split subject) = true).
Proof.
  intros Hs. unfold HasInterest, hasInterest.
  set (hit := match c ← cache s; c !! subject with Some _ => _ | None => _ end).
  assert (hit.1 = true -> no_empty (split subject) /\
    exists x, x ∈ A /\ tok_match (split (sub_subject x)) (split subject) = true) as Hhit.
  { unfold hit. destruct (cache s) as [c|] eqn:Ec; [|done]. cbn [mbind option_bind].
    destruct (c !! subject) as [r|] eqn:Er; [|done]. destruct (inv_coherent _ _ _ _ Hs c Ec subject r Er) as (Hne&w&_&Hr).
    cbn [fst]. intros Hl%Nat.ltb_lt. split; [done|]. by apply (res_interest w A _ r). }
  destruct hit as [matched c]. cbn [fst] in Hhit. destruct matched.
  - split; [|by split; [intros _; apply Hhit|done]]. apply (inv_fields qw D A s); [done..| |done]. apply Hs.
  - rewrite match_tokens_ok. destruct (existsb empty_tok (split subject)) eqn:Ee.
    + split; [done|]. split; [done|]. intros [Hne%no_empty_spec _]. congruence.
    + pose proof (interest_trie qw D A s (split subject) c Hs) as Ht. apply no_empty_spec in Ee.
      destruct (matchLevelForAny (Some (root s)) (split subject) c) as [b c']. cbn [fst] in Ht.
      split; [done|]. rewrite Ht. naive_solver.
Qed.

(** ** Reachable states *)

(** The states the operations reach, with the weights, the stored subscriptions [A] and those of
    them, [D], that came with another weight than 1 and were not updated since.  A subscription
    is inserted once; a remote queue subscription has a positive weight, which changes by
    [UpdateRemoteQSub]. *)
Inductive sl_reach : (subscription -> Z) -> gset subscription -> gset subscription -> Sublist -> Prop :=
| reach_new qw b : sl_reach qw ∅ ∅ (NewSublist b)
| reach_insert qw D A s sub s' out e :
    sl_reach qw D A s -> valid_subject (sub_subject sub) -> sub_queue sub <> Some ""%string ->
    sub ∉ A -> expand qw sub <> [] -> Insert s sub = (s', out, e) -> sl_reach qw (stale_add qw D sub) (A ∪ {[sub]}) s'
| reach_remove qw D A s sub s' out e :
    sl_reach qw D A s -> valid_subject (sub_subject sub) -> Remove qw s sub = Some (s', out, e) ->
    sl_reach qw (D ∖ {[sub]}) (A ∖ {[sub]}) s'
| reach_batch qw D A s subs s' out e :
    sl_reach qw D A s -> Forall (fun x => valid_subject (sub_subject x)) subs ->
    RemoveBatch qw s subs = Some (s', out, e) -> sl_reach qw (D ∖ list_to_set subs) (A ∖ list_to_set subs) s'
| reach_match qw D A s subject s' r : sl_reach qw D A s -> Match qw s subject = (s', r) -> sl_reach qw D A s'
| reach_interest qw D A s subject s' b : sl_reach qw D A s -> HasInterest s subject = (s', b) -> sl_reach qw D A s'
| reach_weight qw D A s sub w : sl_reach qw D A s -> valid_subject (sub_subject sub) -> 0 < w ->
    sl_reach (set_weight qw sub w) (D ∖ {[sub]}) A (UpdateRemoteQSub s sub)
| reach_sweep qw D A s keys : sl_reach qw D A s -> sl_reach qw D A (reduceCacheCount s keys)
| reach_register qw D A s subject queue ch s' out e :
    sl_reach qw D A s -> registerNotification qw s subject queue ch = Some (s', out, e) -> sl_reach qw D A s'
| reach_clear qw D A s subject queue ch s' b :
    sl_reach qw D A s -> clearNotification s subject queue ch = (s', b) -> sl_reach qw D A s'.

Lemma reach_inv qw D A s : sl_reach qw D A s -> sl_inv qw D A s.
Proof.
  induction 1 as [qw b|qw D A s sub s' out e _ IH Hv Hq Hn He Ho|qw D A s sub s' out e _ IH Hv Ho|qw D A s subs s' out e _ IH Hv Ho
    |qw D A s subject s' r _ IH Ho|qw D A s subject s' b _ IH Ho|qw D A s sub w _ IH Hv Hw|qw D A s keys _ IH
    |qw D A s subject queue ch s' out e _ IH Ho|qw D A s subject queue ch s' b _ IH Ho].
  - apply new_inv.
  - pose proof (insert_inv qw D A s sub IH Hv Hn Hq He) as Hi. rewrite Ho in Hi. apply Hi.
  - destruct (remove_inv qw D A s sub true IH Hv (or_introl eq_refl)) as (s1&o1&e1&Hr&_&Hno&Hyes).
    unfold Remove in Ho. rewrite Ho in Hr. injection Hr as <- <- <-. destruct (decide (sub ∈ A)) as [Hin|Hnin]; [by apply Hyes|].
    destruct (Hno Hnin) as (_&->&_). pose proof (inv_stale _ _ _ _ IH).
    by replace (A ∖ {[sub]}) with A by set_solver; replace (D ∖ {[sub]}) with D by set_solver.
  - destruct (batch_inv qw D A s subs IH Hv) as (s1&o1&Hr&?). congruence.
  - pose proof (match_inv qw D A s subject IH) as Hm. unfold Match in Ho. rewrite Ho in Hm. apply Hm.
  - pose proof (HasInterest_inv qw D A s subject IH) as Hm. rewrite Ho in Hm. apply Hm.
  - by apply weight_inv.
  - by apply sweep_inv.
  - destruct (register_inv qw D A s subject queue ch IH) as (s1&o1&e1&Hr&?&_). congruence.
  - pose proof (clear_inv qw D A s subject queue ch IH) as Hc. by rewrite Ho in Hc.
Qed.
End spec.

(** ** Properties *)

(** C7. [Match] is exact: in every reachable state, and for every order in which Go ranges over
    the maps of the nodes, the result of a subject has exactly the plain subscriptions whose
    subject matches, once each, and one non-empty group for every queue with a matching
    subscription, in which a subscription occurs as often as its current weight.  The one
    exception are results from the cache: there a remote queue subscription that came with
    another weight than 1, and whose weight was not updated since, may occur once.  A subject
    with an empty token has the empty result. *)
Theorem sl_match_exact `{SubOrder} `{!SubOrderLaws} (qw : subscription -> Z) (D A : gset subscription) (s : Sublist)
    (subject : string) (Hr : sl_reach qw D A s) :
  let r := (Match qw s subject).2 in
  if existsb empty_tok (split subject) then r = emptyResult else
    psubs r ≡ₚ elements (matching A None (split subject)) /\ (qsl_ok (qsubs r) /\ [] ∉ qsubs r) /\
    exists w, (forall x, expand w x = expand qw x \/ (is_Some (cache s ≫= lookup subject) /\ x ∈ D /\ expand w x = [x])) /\
      forall q, q_members q (qsubs r) ≡ₚ elements (matching A (Some q) (split subject)) ≫= expand w.
Proof.
  pose proof (match_inv qw D A s subject (reach_inv qw D A s Hr)) as Hm. unfold Match.
  destruct (match_ qw s subject) as [s' r]. destruct Hm as [Hm _]. unfold match_spec in Hm. cbn [snd]. destruct (existsb _ _); [done|].
  destruct Hm as (w & Hw & H1 & H2 & H3). split_and!; [done|apply H2..|]. exists w. split; [|done]. intros x. specialize (Hw x).
  unfold stale in Hw. destruct (cache s ≫= lookup subject); [naive_solver|]. left. set_solver.
Qed.

#[export] Instance sorted_order : SubOrder := { rng_subs := elements; rng_queues := map_to_list }.
#[export] Instance sorted_order_laws : SubOrderLaws.
Proof. by split. Qed.

Definition sub_foo : subscription := mkSub 1 (Some (CLIENT, None)) "foo.*" None.
Definition sub_bar : subscription := mkSub 2 (Some (ROUTER, None)) "foo.bar" (Some "workers"%string).

(** One subscription, a cached match, a second subscription that matches the cached subject. *)
Definition sample_sublist : Sublist :=
  let s := (Insert (NewSublist true) sub_foo).1.1 in
  let s := (Match (fun _ => 1) s "foo.bar").1 in
  (Insert s sub_bar).1.1.

Ltac solve_subject :=
  split_and!; [done|repeat (apply Forall_cons; split; [done|]); by apply Forall_nil|by repeat split].

Lemma triple_eta {A B C} (p : A * B * C) : p = (p.1.1, p.1.2, p.2).
Proof. by destruct p as [[? ?] ?]. Qed.

Lemma sample_reach : sl_reach (fun _ => 1) ∅ (∅ ∪ {[sub_foo]} ∪ {[sub_bar]}) sample_sublist.
Proof.
  unfold sample_sublist. change ∅ with (stale_add (fun _ => 1) ∅ sub_bar) at 1. eapply reach_insert; [|solve_subject|done|set_solver|done|].
  - eapply reach_match; [|apply surjective_pairing]. change ∅ with (stale_add (fun _ => 1) ∅ sub_foo) at 1.
    eapply reach_insert; [apply (reach_new _ true)|solve_subject|done|set_solver|done|].
    apply triple_eta.
  - apply triple_eta.
Qed.

(** A subscription of weight 3 that comes when the result of its subject is in the cache. *)
Definition weighted_sublist : Sublist := (Insert (Match (fun _ => 3) (NewSublist true) "foo.bar").1 sub_bar).1.1.

Lemma weighted_reach : sl_reach (fun _ => 3) (∅ ∪ {[sub_bar]}) (∅ ∪ {[sub_bar]}) weighted_sublist.
Proof.
  assert (stale_add (fun _ => 3) ∅ sub_bar = ∅ ∪ {[sub_bar]}) as E by (unfold stale_add; by rewrite decide_False).
  rewrite <- E at 1. unfold weighted_sublist.
  eapply reach_insert; [|solve_subject|done|set_solver|done|apply triple_eta].
  eapply reach_match; [apply (reach_new _ true)|apply surjective_pairing].
Qed.

Lemma sl_match_exact_witness :
  (let r := (Match (fun _ => 1) sample_sublist "foo.bar").2 in
   qsubs r = [[sub_bar]] /\ psubs r ≡ₚ elements (matching (∅ ∪ {[sub_foo]} ∪ {[sub_bar]}) None (split "foo.bar"))) /\
  (let r := (Match (fun _ => 3) weighted_sublist "foo.bar").2 in
   qsubs r = [[sub_bar]] /\ psubs r ≡ₚ elements (matching (∅ ∪ {[sub_bar]}) None (split "foo.bar"))).
Proof.
  split; (split; [vm_compute; reflexivity|]).
  - exact (proj1 (sl_match_exact (fun _ => 1) _ _ sample_sublist "foo.bar" sample_reach)).
  - exact (proj1 (sl_match_exact (fun _ => 3) _ _ weighted_sublist "foo.bar" weighted_reach)).
Defined.

(** C23. The sublist is a set of subscriptions: in every reachable state [Count] is their number
    (modulo 2^32), a [Remove] fails, with [ErrNotFound] and no effect, exactly for a
    subscription that is not stored, [RemoveBatch] removes all it finds and returns the first
    error; none of them panics. *)
Theorem sl_refines_set `{SubOrder} `{!SubOrderLaws} (qw : subscription -> Z) (D A : gset subscription) (s : Sublist)
    (Hr : sl_reach qw D A s) :
  Count s = u32 (Z.of_nat (size A)) /\
  (forall sub, valid_subject (sub_subject sub) -> exists s' out e, Remove qw s sub = Some (s', out, e) /\
     if decide (sub ∈ A) then e = None /\ sl_reach qw (D ∖ {[sub]}) (A ∖ {[sub]}) s' else e = Some Trie.ErrNotFound /\ s' = s) /\
  (forall subs, Forall (fun x => valid_subject (sub_subject x)) subs -> exists s' out,
     RemoveBatch qw s subs = Some (s', out, batch_err A subs) /\ sl_reach qw (D ∖ list_to_set subs) (A ∖ list_to_set subs) s').
Proof.
  pose proof (reach_inv qw D A s Hr) as Hs. split_and!.
  - apply Hs.
  - intros sub Hv. destruct (remove_inv qw D A s sub true Hs Hv (or_introl eq_refl)) as (s1&o1&e1&E&_&Hno&Hyes).
    exists s1, o1, e1. split; [done|]. case_decide as Hd; [|by destruct (Hno Hd) as (->&->&_)].
    destruct (Hyes Hd) as [-> _]. split; [done|]. by eapply reach_remove.
  - intros subs Hv. destruct (batch_inv qw D A s subs Hs Hv) as (s1&o1&E&_). exists s1, o1. split; [done|]. by eapply reach_batch.
Qed.

Lemma sl_refines_set_witness :
  Count sample_sublist = 2 /\ Count sample_sublist = u32 (Z.of_nat (size (∅ ∪ {[sub_foo]} ∪ {[sub_bar]} : gset subscription))).
Proof. split; [vm_compute; reflexivity|]. exact (proj1 (sl_refines_set _ _ _ _ sample_reach)). Defined.

(** Notifications of interest in a literal subject: registering a channel tells it whether
    there is interest now; an [Insert] tells [true] to exactly the channels waiting for
    interest; a [Remove] tells [false] to exactly the channels waiting for its loss when it
    removes the last interest, and nothing otherwise.  A channel never waits for interest that
    is already there, nor for the loss of interest that is not. *)
Theorem sl_notifications `{SubOrder} `{!SubOrderLaws} (qw : subscription -> Z) (D A : gset subscription) (s : Sublist)
    (sub : subscription) (Hr : sl_reach qw D A s) (Hv : valid_subject (sub_subject sub))
    (Hp : sub_queue sub = None) (Hk : plain_key (sub_subject sub)) :
  (forall n, notify s = Some n ->
     (chans (ninsert n) (sub_subject sub) <> [] -> ~ interest A (sub_subject sub)) /\
     (chans (nremove n) (sub_subject sub) <> [] -> interest A (sub_subject sub))) /\
  (forall ch, exists s' out e, registerNotification qw s (sub_subject sub) "" (Some ch) = Some (s', out, e) /\
     (e = None -> out = [(ch, bool_decide (interest A (sub_subject sub)))])) /\
  (sub ∉ A -> (Insert s sub).1.2 = insert_sends s sub) /\
  (sub ∈ A -> exists s' out, Remove qw s sub = Some (s', out, None) /\ remove_sends s (A ∖ {[sub]}) sub out).
Proof.
  pose proof (reach_inv qw D A s Hr) as Hs. split_and!.
  - intros n En. by apply (inv_notify _ _ _ _ Hs n En).
  - intros ch. destruct (register_inv qw D A s (sub_subject sub) "" (Some ch) Hs) as (s'&out&e&E&_&Ho).
    exists s', out, e. split; [done|]. intros ->. by destruct (Ho eq_refl eq_refl) as (c&[= <-]&->).
  - intros Hn. pose proof (insert_inv qw D A s sub Hs Hv Hn) as Hi. destruct (Insert s sub) as [[s' out] e].
    apply Hi; [by rewrite Hp|unfold expand, isRemoteQSub; by rewrite Hp|done|done].
  - intros Hin. destruct (remove_inv qw D A s sub true Hs Hv (or_introl eq_refl)) as (s1&o1&e1&E&_&_&Hyes).
    destruct (Hyes Hin) as (->&_&Ho). exists s1, o1. split; [done|]. by apply Ho.
Qed.

Definition sub_baz : subscription := mkSub 3 (Some (CLIENT, None)) "baz" None.

Lemma baz_reach : exists s out, registerNotification (fun _ => 1) (NewSublist true) "baz" "" (Some 7) = Some (s, out, None) /\
  sl_reach (fun _ => 1) ∅ ∅ s.
Proof.
  assert (match registerNotification (fun _ => 1) (NewSublist true) "baz" "" (Some 7) with
          | Some (_, _, None) => true | _ => false end = true) as Hb by (vm_compute; reflexivity).
  destruct (registerNotification _ _ _ _ _) as [[[s out] [e|]]|] eqn:E; [discriminate Hb| |discriminate Hb].
  exists s, out. split; [done|]. eapply reach_register; [apply (reach_new _ true)|exact E].
Qed.

Lemma sl_notifications_witness :
  exists s, sl_reach (fun _ => 1) ∅ ∅ s /\ (Insert s sub_baz).1.2 = insert_sends s sub_baz.
Proof.
  destruct baz_reach as (s&out&_&Hr). exists s. split; [exact Hr|].
  refine (proj1 (proj2 (proj2 (sl_notifications (fun _ => 1) ∅ ∅ s sub_baz Hr _ eq_refl _))) _).
  - solve_subject.
  - by split.
  - set_solver.
Defined.

(** [HasInterest] holds exactly when a stored subscription, plain or queue, matches the
    subject, whether the answer comes from the cache or from the trie. *)
Theorem sl_interest_exact `{SubOrder} `{!SubOrderLaws} (qw : subscription -> Z) (D A : gset subscription) (s : Sublist)
    (subject : string) (Hr : sl_reach qw D A s) :
  (HasInterest s subject).2 = true <->
  no_empty (split subject) /\ exists x, x ∈ A /\ tok_match (split (sub_subject x)) (split subject) = true.
Proof.
  pose proof (HasInterest_inv qw D A s subject (reach_inv qw D A s Hr)) as Hm.
  destruct (HasInterest s subject) as [s' b]. apply Hm.
Qed.

Lemma sl_interest_exact_witness :
  exists x, x ∈ (∅ ∪ {[sub_foo]} ∪ {[sub_bar]} : gset subscription) /\ tok_match (split (sub_subject x)) (split "foo.bar") = true.
Proof.
  refine (proj2 (proj1 (sl_interest_exact (fun _ => 1) _ _ sample_sublist "foo.bar" sample_reach) _)).
  vm_compute. reflexivity.
Defined.

(** The sweeper keeps the cache small: run on a cache above its target size, with the keys
    in any order, it leaves exactly [slCacheSweep] entries, all of them entries it had. *)
Theorem sl_sweep_bound (s : Sublist) (c : gmap string SublistResult) (keys : list string)
    (Hc : cache s = Some c) (Hk : forall k, is_Some (c !! k) -> k ∈ keys) (Hs : (slCacheSweep < CacheCount s)%nat) :
  CacheCount (reduceCacheCount s keys) = slCacheSweep /\ ccSweep (reduceCacheCount s keys) = false /\
  forall c', cache (reduceCacheCount s keys) = Some c' -> c' ⊆ c.
Proof.
  unfold CacheCount, reduceCacheCount in *. rewrite Hc in *. cbn. split_and!; [by apply sweep_size|done|].
  intros c' [= <-]. apply map_subseteq_spec. apply sweep_loop_sub.
Qed.

Definition full_cache : gmap string SublistResult :=
  list_to_map ((fun n => (pretty n, emptyResult)) <$> seq 0 300).

Lemma sl_sweep_bound_witness :
  CacheCount (reduceCacheCount (with_cache (NewSublist true) (Some full_cache)) (map_to_list full_cache).*1) = slCacheSweep.
Proof.
  refine (proj1 (sl_sweep_bound (with_cache (NewSublist true) (Some full_cache)) full_cache (map_to_list full_cache).*1 eq_refl _ _)).
  - intros k [r Hr]. apply list_elem_of_fmap. exists (k, r). split; [done|]. by apply elem_of_map_to_list.
  - apply Nat.ltb_lt. vm_compute. reflexivity.
Defined.

(** ** Divergences *)

(** A remote queue subscription that arrives with a weight above 1 is added to the cached
    results once, and as often as its weight to a fresh result. *)
Example weighted_insert_cached :
  let s := (Match (fun _ => 3) (NewSublist true) "foo.bar").1 in
  qsubs (Match (fun _ => 3) (Insert s sub_bar).1.1 "foo.bar").2 = [[sub_bar]] /\
  qsubs (Match (fun _ => 3) (Insert (NewSublist true) sub_bar).1.1 "foo.bar").2 = [[sub_bar; sub_bar; sub_bar]].
Proof. by vm_compute. Qed.

(** [ClearNotification] of one of two channels leaves the other registered twice. *)
Example clear_keeps_length :
  chkAndRemove "foo" 1 {["foo"%string := [1; 2]]} = (true, {["foo"%string := [2; 2]]}).
Proof. by vm_compute. Qed.

(** Only the first subscription of a queue group is compared: with a wildcard subscription in
    the same group, a channel is told that there is no interest in a subject that has some. *)
Example queue_registration_misses :
  let s := (Insert (NewSublist false) (mkSub 1 None "foo.>" (Some "q"%string))).1.1 in
  let s := (Insert s (mkSub 2 None "foo.bar" (Some "q"%string))).1.1 in
  match registerNotification (fun _ => 1) s "foo.bar" "q" (Some 9) with
  | Some (_, out, e) => out = [(9, false)] /\ e = None
  | None => False
  end.
Proof. by vm_compute. Qed.
