(* ===== verification/SubjectTree.v ===== *)
(** * Subject tree

    src/server/stree: an adaptive radix tree from literal subjects to values.  A node has a
    compressed prefix and children keyed by their next byte, kept in one of five containers
    (node4, node10, node16, node48, node256) that grow and shrink; a leaf has the rest of its
    subject.  A subject is a list of bytes, and where the code has [subject] and an index [si]
    the model has [subject[si:]].  [None] and the result [DPanic] are Go panics. *)

From Stdlib Require Import Ascii.
From S2P Require Import Prelude.

Module Stree.

Notation bytes := (list ascii).

Definition noPivot : ascii := ascii_of_nat 127.
Definition tsep : ascii := "."%char.
Definition pwc : ascii := "*"%char.
Definition fwc : ascii := ">"%char.

Definition pivot (subject : bytes) : ascii := match subject with [] => noPivot | c :: _ => c end.

Fixpoint commonPrefixLen (s1 s2 : bytes) : nat :=
  match s1, s2 with
  | a :: s1, b :: s2 => if Ascii.eqb a b then S (commonPrefixLen s1 s2) else 0
  | _, _ => 0
  end.

(** ** The containers of children *)

(** The arrays of node4, node10 and node16 are their first [size] entries; node48 has an array
    of 1-based positions indexed by the byte, and its first [size] children. *)
Inductive store (A : Type) : Type :=
| node4 (kids : list (ascii * A))
| node10 (kids : list (ascii * A))
| node16 (kids : list (ascii * A))
| node48 (key : list nat) (child : list A)
| node256 (child : list (option A)) (size : nat).
Arguments node4 {A}.
Arguments node10 {A}.
Arguments node16 {A}.
Arguments node48 {A}.
Arguments node256 {A}.

Section stores.
Context {A : Type}.

Definition newNode4 : store A := node4 [].
Definition newNode10 : store A := node10 [].
Definition newNode16 : store A := node16 [].
Definition newNode48 : store A := node48 (replicate 256 0%nat) [].
Definition newNode256 : store A := node256 (replicate 256 None) 0.

Definition numChildren (st : store A) : nat :=
  match st with
  | node4 kids | node10 kids | node16 kids => length kids
  | node48 _ child => length child
  | node256 _ size => size
  end.

Definition node4_addChild (kids : list (ascii * A)) (c : ascii) (n : A) : option (list (ascii * A)) :=
  if Nat.leb 4 (length kids) then None else Some (kids ++ [(c, n)]).
Definition node10_addChild (kids : list (ascii * A)) (c : ascii) (n : A) : option (list (ascii * A)) :=
  if Nat.leb 10 (length kids) then None else Some (kids ++ [(c, n)]).
Definition node16_addChild (kids : list (ascii * A)) (c : ascii) (n : A) : option (list (ascii * A)) :=
  if Nat.leb 16 (length kids) then None else Some (kids ++ [(c, n)]).
Definition node48_addChild (key : list nat) (child : list A) (c : ascii) (n : A) : option (list nat * list A) :=
  if Nat.leb 48 (length child) then None
  else Some (<[nat_of_ascii c := S (length child)]> key, child ++ [n]).
Definition node256_addChild (child : list (option A)) (size : nat) (c : ascii) (n : A) : list (option A) * nat :=
  (<[nat_of_ascii c := Some n]> child, S size).

Definition addChild (st : store A) (c : ascii) (n : A) : option (store A) :=
  match st with
  | node4 kids => node4 <$> node4_addChild kids c n
  | node10 kids => node10 <$> node10_addChild kids c n
  | node16 kids => node16 <$> node16_addChild kids c n
  | node48 key child => (fun kc => node48 kc.1 kc.2) <$> node48_addChild key child c n
  | node256 child size => let '(child, size) := node256_addChild child size c n in Some (node256 child size)
  end.

Definition isFull (st : store A) : bool :=
  match st with
  | node4 kids => Nat.leb 4 (length kids)
  | node10 kids => Nat.leb 10 (length kids)
  | node16 kids => Nat.leb 16 (length kids)
  | node48 _ child => Nat.leb 48 (length child)
  | node256 _ _ => false
  end.

(** [addChild] in a loop. *)
Fixpoint add_all (st : store A) (kids : list (ascii * A)) : option (store A) :=
  match kids with
  | [] => Some st
  | (c, n) :: kids => st ← addChild st c n; add_all st kids
  end.

(** The loop over the bytes of node48 and of node256. *)
Definition node48_kids (key : list nat) (child : list A) : list (ascii * A) :=
  omap (fun c => match key !! c with
                 | Some (S i) => n ← child !! i; Some (ascii_of_nat c, n)
                 | _ => None
                 end) (seq 0 256).
Definition node256_kids (child : list (option A)) : list (ascii * A) :=
  omap (fun c => n ← child !! c; n ← n; Some (ascii_of_nat c, n)) (seq 0 256).

Definition node4_grow (kids : list (ascii * A)) : option (store A) := add_all newNode10 kids.
Definition node10_grow (kids : list (ascii * A)) : option (store A) := add_all newNode16 kids.
Definition node16_grow (kids : list (ascii * A)) : option (store A) := add_all newNode48 kids.
Definition node48_grow (key : list nat) (child : list A) : option (store A) := add_all newNode256 (node48_kids key child).

Definition grow (st : store A) : option (store A) :=
  match st with
  | node4 kids => node4_grow kids
  | node10 kids => node10_grow kids
  | node16 kids => node16_grow kids
  | node48 key child => node48_grow key child
  | node256 _ _ => None
  end.

Fixpoint kid_index (c : ascii) (i : nat) (kids : list (ascii * A)) : option nat :=
  match kids with
  | [] => None
  | (k, _) :: kids => if Ascii.eqb k c then Some i else kid_index c (S i) kids
  end.

(** The deletion of node4, node10 and node16: the last entry takes the place of the deleted. *)
Definition node4_deleteChild (kids : list (ascii * A)) (c : ascii) : list (ascii * A) :=
  match kid_index c 0 kids, last kids with
  | Some i, Some l =>
      let n := (length kids - 1)%nat in
      if Nat.ltb i n then take n (<[i := l]> kids) else take n kids
  | _, _ => kids
  end.
Definition node10_deleteChild := node4_deleteChild.
Definition node16_deleteChild := node4_deleteChild.

(** The first entry of [key] that is [x] becomes [y]. *)
Fixpoint replace_key (x y : nat) (key : list nat) : list nat :=
  match key with
  | [] => []
  | k :: key => if Nat.eqb k x then y :: key else k :: replace_key x y key
  end.

Definition node48_deleteChild (key : list nat) (child : list A) (c : ascii) : list nat * list A :=
  match key !! nat_of_ascii c, last child with
  | Some (S i), Some l =>
      let n := (length child - 1)%nat in
      let '(key, child) := if Nat.ltb i n then (replace_key (S n) (S i) key, <[i := l]> child) else (key, child) in
      (<[nat_of_ascii c := 0%nat]> key, take n child)
  | _, _ => (key, child)
  end.

Definition node256_deleteChild (child : list (option A)) (size : nat) (c : ascii) : list (option A) * nat :=
  match child !! nat_of_ascii c with
  | Some (Some _) => (<[nat_of_ascii c := None]> child, (size - 1)%nat)
  | _ => (child, size)
  end.

Definition deleteChild (st : store A) (c : ascii) : store A :=
  match st with
  | node4 kids => node4 (node4_deleteChild kids c)
  | node10 kids => node10 (node10_deleteChild kids c)
  | node16 kids => node16 (node16_deleteChild kids c)
  | node48 key child => let '(key, child) := node48_deleteChild key child c in node48 key child
  | node256 child size => let '(child, size) := node256_deleteChild child size c in node256 child size
  end.

(** Writing through the pointer that [findChild] returns. *)
Fixpoint set_kid (c : ascii) (n : A) (kids : list (ascii * A)) : list (ascii * A) :=
  match kids with
  | [] => []
  | (k, x) :: kids => if Ascii.eqb k c then (k, n) :: kids else (k, x) :: set_kid c n kids
  end.

Definition set_child (st : store A) (c : ascii) (n : A) : store A :=
  match st with
  | node4 kids => node4 (set_kid c n kids)
  | node10 kids => node10 (set_kid c n kids)
  | node16 kids => node16 (set_kid c n kids)
  | node48 key child =>
      match key !! nat_of_ascii c with Some (S i) => node48 key (<[i := n]> child) | _ => st end
  | node256 child size => node256 (<[nat_of_ascii c := Some n]> child) size
  end.
End stores.
Arguments node48_kids : simpl never.
Arguments node256_kids : simpl never.
Arguments newNode48 : simpl never.
Arguments newNode256 : simpl never.
#[global] Strategy 1000 [List.seq replicate].

(** [findChild], with what is done with the child found. *)
Section find.
Context {A B : Type} (f : A -> B).

Fixpoint find_kid (c : ascii) (kids : list (ascii * A)) : option B :=
  match kids with
  | [] => None
  | (k, x) :: kids => if Ascii.eqb k c then Some (f x) else find_kid c kids
  end.
Fixpoint find_nth (i : nat) (child : list A) {struct child} : option B :=
  match child with
  | [] => None
  | x :: child => match i with O => Some (f x) | S i => find_nth i child end
  end.
Fixpoint find_opt (i : nat) (child : list (option A)) {struct child} : option B :=
  match child with
  | [] => None
  | x :: child =>
      match i with
      | O => match x with Some x => Some (f x) | None => None end
      | S i => find_opt i child
      end
  end.

Definition node4_findChild (kids : list (ascii * A)) (c : ascii) : option B := find_kid c kids.
Definition node10_findChild (kids : list (ascii * A)) (c : ascii) : option B := find_kid c kids.
Definition node16_findChild (kids : list (ascii * A)) (c : ascii) : option B := find_kid c kids.
Definition node48_findChild (key : list nat) (child : list A) (c : ascii) : option B :=
  match key !! nat_of_ascii c with Some (S i) => find_nth i child | _ => None end.
Definition node256_findChild (child : list (option A)) (c : ascii) : option B := find_opt (nat_of_ascii c) child.

Definition findChild (st : store A) (c : ascii) : option B :=
  match st with
  | node4 kids => node4_findChild kids c
  | node10 kids => node10_findChild kids c
  | node16 kids => node16_findChild kids c
  | node48 key child => node48_findChild key child c
  | node256 child _ => node256_findChild child c
  end.

(** [children], with what is done with each child that is not nil. *)
Definition children (st : store A) : list B :=
  match st with
  | node4 kids | node10 kids | node16 kids => map (fun kx => f kx.2) kids
  | node48 _ child => map f child
  | node256 child _ => flat_map (fun x => match x with Some x => [f x] | None => [] end) child
  end.
End find.

(** ** The tree *)

Inductive node (V : Type) : Type :=
| leaf (suffix : bytes) (value : V)
| inner (prefix : bytes) (st : store (node V)).
Arguments leaf {V}.
Arguments inner {V}.

Section tree.
Context {V : Type}.

Record SubjectTree : Type := mkTree { root : option (node V); tsize : Z }.

Definition NewSubjectTree : SubjectTree := mkTree None 0.

Definition Size (t : SubjectTree) : Z := tsize t.

Definition path (n : node V) : bytes := match n with leaf s _ => s | inner p _ => p end.

Definition bytes_eqb (a b : bytes) : bool := bool_decide (a = b).

(** The insertion of [sub] where there is a leaf; the recursive call is the code's, for a common
    pivot after the common prefix. *)
Fixpoint insert_leaf (fuel : nat) (suffix : bytes) (old : V) (sub : bytes) (value : V) : option (node V * option V) :=
  match fuel with
  | O => None
  | S fuel =>
      if bytes_eqb sub suffix then Some (leaf suffix value, Some old) else
      let cpi := commonPrefixLen suffix sub in
      let prefix := take cpi sub in
      let suffix := drop cpi suffix in
      let sub := drop cpi sub in
      let p := pivot suffix in
      if Nat.ltb 0 cpi && match sub with c :: _ => Ascii.eqb p c | [] => false end then
        '(n, _) ← insert_leaf fuel suffix old sub value;
        st ← addChild newNode4 p n;
        Some (inner prefix st, None)
      else
        st ← addChild newNode4 (pivot sub) (leaf sub value);
        st ← addChild st (pivot suffix) (leaf suffix old);
        Some (inner prefix st, None)
  end.

(** A new leaf under a node that has no child for it. *)
Definition add_leaf (prefix : bytes) (st : store (node V)) (sub : bytes) (value : V) : option (node V * option V) :=
  st ← (if isFull st then grow st else Some st);
  st ← addChild st (pivot sub) (leaf sub value);
  Some (inner prefix st, None).

Fixpoint insert_node (n : node V) (sub : bytes) (value : V) : option (node V * option V) :=
  match n with
  | leaf suffix old => insert_leaf (S (length sub)) suffix old sub value
  | inner prefix st =>
      let cpi := commonPrefixLen prefix sub in
      if Nat.leb (length prefix) cpi then
        let sub := drop (length prefix) sub in
        match findChild (fun c => insert_node c sub value) st (pivot sub) with
        | Some r => '(c, old) ← r; Some (inner prefix (set_child st (pivot sub) c), old)
        | None => add_leaf prefix st sub value
        end
      else
        let prefix' := drop cpi prefix in
        st' ← addChild newNode4 (pivot prefix') (inner prefix' st);
        st' ← addChild st' (pivot (drop cpi sub)) (leaf (drop cpi sub) value);
        Some (inner (take cpi sub) st', None)
  end.

(** [bytes.IndexByte(subject, noPivot) >= 0]: refused, reported as not updated. *)
Definition Insert (t : SubjectTree) (subject : bytes) (value : V) : option (SubjectTree * option V) :=
  if existsb (Ascii.eqb noPivot) subject then Some (t, None) else
  match root t with
  | None => Some (mkTree (Some (leaf subject value)) (tsize t + 1), None)
  | Some n =>
      '(n, old) ← insert_node n subject value;
      Some (mkTree (Some n) (match old with None => tsize t + 1 | Some _ => tsize t end), old)
  end.

Fixpoint find (n : node V) (sub : bytes) : option V :=
  match n with
  | leaf suffix v => if bytes_eqb sub suffix then Some v else None
  | inner prefix st =>
      if bytes_eqb (take (length prefix) sub) prefix then
        let sub := drop (length prefix) sub in
        match findChild (fun c => find c sub) st (pivot sub) with Some r => r | None => None end
      else None
  end.

Definition Find (t : SubjectTree) (subject : bytes) : option V :=
  match root t with Some n => find n subject | None => None end.

(** [shrink] of a container: nothing, the only child, or a smaller container. *)
Inductive shrunk : Type :=
| SPanic
| SKeep
| SChild (n : node V)
| SStore (st : store (node V)).

Definition to_store (o : option (store (node V))) : shrunk := match o with None => SPanic | Some st => SStore st end.

Definition node4_shrink (kids : list (ascii * node V)) : shrunk :=
  match kids with [(_, n)] => SChild n | _ => SKeep end.
Definition node10_shrink (kids : list (ascii * node V)) : shrunk :=
  if Nat.ltb 4 (length kids) then SKeep else to_store (add_all newNode4 kids).
Definition node16_shrink (kids : list (ascii * node V)) : shrunk :=
  if Nat.ltb 10 (length kids) then SKeep else to_store (add_all newNode10 kids).
Definition node48_shrink (key : list nat) (child : list (node V)) : shrunk :=
  if Nat.ltb 16 (length child) then SKeep else to_store (add_all newNode16 (node48_kids key child)).
Definition node256_shrink (child : list (option (node V))) (size : nat) : shrunk :=
  if Nat.ltb 48 size then SKeep else to_store (add_all newNode48 (node256_kids child)).

Definition shrink (st : store (node V)) : shrunk :=
  match st with
  | node4 kids => node4_shrink kids
  | node10 kids => node10_shrink kids
  | node16 kids => node16_shrink kids
  | node48 key child => node48_shrink key child
  | node256 child size => node256_shrink child size
  end.

Inductive del_result : Type :=
| DPanic
| DNone
| DDel (np : option (node V)) (v : V).

(** The prefix of a node that has been replaced by its only child or by a smaller node. *)
Definition prepend (pre : bytes) (n : node V) : node V :=
  match n with leaf s v => leaf (pre ++ s) v | inner p st => inner (pre ++ p) st end.

(** After the leaf with value [v] under byte [p] is deleted. *)
Definition delete_leaf (prefix : bytes) (st : store (node V)) (p : ascii) (v : V) : del_result :=
  let st := deleteChild st p in
  match shrink st with
  | SPanic => DPanic
  | SKeep => DDel (Some (inner prefix st)) v
  | SChild n => DDel (Some (prepend prefix n)) v
  | SStore st => DDel (Some (prepend prefix (inner [] st))) v
  end.

(** A node below a node never disappears, so the last case does not occur. *)
Definition delete_below (prefix : bytes) (st : store (node V)) (p : ascii) (r : del_result) : del_result :=
  match r with
  | DDel (Some c) v => DDel (Some (inner prefix (set_child st p c))) v
  | DDel None _ => DPanic
  | r => r
  end.

Fixpoint delete_node (n : node V) (sub : bytes) : del_result :=
  match n with
  | leaf suffix v => if bytes_eqb sub suffix then DDel None v else DNone
  | inner prefix st =>
      if Nat.ltb (length sub) (length prefix) then DNone
      else if negb (bytes_eqb (take (length prefix) sub) prefix) then DNone
      else
        let sub := drop (length prefix) sub in
        let p := pivot sub in
        match findChild (fun c =>
          match c with
          | leaf s v => if bytes_eqb sub s then delete_leaf prefix st p v else DNone
          | inner _ _ => delete_below prefix st p (delete_node c sub)
          end) st p with
        | Some r => r
        | None => DNone
        end
  end.

Definition Delete (t : SubjectTree) (subject : bytes) : option (SubjectTree * option V) :=
  match root t, subject with
  | None, _ => Some (t, None)
  | _, [] => Some (t, None)
  | Some n, _ =>
      match delete_node n subject with
      | DPanic => None
      | DNone => Some (t, None)
      | DDel np v => Some (mkTree np (tsize t - 1), Some v)
      end
  end.

Definition Empty (t : SubjectTree) : SubjectTree := mkTree None 0.

(** ** Iteration *)

(** [bytes.Compare(a, b) <= 0]. *)
Fixpoint bytes_leb (a b : bytes) : bool :=
  match a, b with
  | [], _ => true
  | _ :: _, [] => false
  | x :: a, y :: b =>
      if Nat.ltb (nat_of_ascii x) (nat_of_ascii y) then true
      else if Nat.ltb (nat_of_ascii y) (nat_of_ascii x) then false else bytes_leb a b
  end.

Section iter.
Context {C : Type}.
(** The callback, with its state; [false] ends the walk. *)
Variable cb : C -> bytes -> V -> C * bool.

(** The walks of the children, one after the other. *)
Fixpoint run_all (fs : list (C -> C * bool)) (c : C) : C * bool :=
  match fs with
  | [] => (c, true)
  | f :: fs => let '(c, ok) := f c in if ok : bool then run_all fs c else (c, false)
  end.

Definition path_le (a b : bytes * (C -> C * bool)) : Prop := bytes_leb a.1 b.1 = true.
#[global] Instance path_le_dec : RelDecision path_le := fun a b => decide (bytes_leb a.1 b.1 = true).

Fixpoint iter (ordered : bool) (n : node V) (pre : bytes) (c : C) : C * bool :=
  match n with
  | leaf s v => cb c (pre ++ s) v
  | inner p st =>
      let pre := pre ++ p in
      let walks := children (fun ch => (path ch, fun c => iter ordered ch pre c)) st in
      run_all (if ordered then merge_sort path_le walks else walks).*2 c
  end.

Definition IterOrdered (t : SubjectTree) (c : C) : C :=
  match root t with Some n => (iter true n [] c).1 | None => c end.
Definition IterFast (t : SubjectTree) (c : C) : C :=
  match root t with Some n => (iter false n [] c).1 | None => c end.
End iter.
End tree.
Arguments node : clear implicits.
Arguments SubjectTree : clear implicits.
Arguments shrunk : clear implicits.
Arguments del_result : clear implicits.

(** [LazyIntersect]: the smaller tree is walked and the other one searched. *)
Definition LazyIntersect {L R C : Type} (cb : C -> bytes -> L -> R -> C) (tl : SubjectTree L) (tr : SubjectTree R) (c : C) : C :=
  match root tl, root tr with
  | Some _, Some _ =>
      if Size tl <=? Size tr then
        IterFast (fun c key v1 => (match Find tr key with Some v2 => cb c key v1 v2 | None => c end, true)) tl c
      else
        IterFast (fun c key v2 => (match Find tl key with Some v1 => cb c key v1 v2 | None => c end, true)) tr c
  | _, _ => c
  end.

End Stree.
