(* ===== verification/SubjectTreeStore.v ===== *)
(** * Subject tree: the containers of children

    Every container is a finite map from bytes to children: what [findChild], [addChild],
    [deleteChild], [grow] and [shrink] do to it, for all five representations. *)

From Stdlib Require Import Ascii.
From S2P Require Import Prelude SubjectTree.
Import Stree.

#[export] Instance ascii_countable : Countable ascii.
Proof. refine (inj_countable' nat_of_ascii ascii_of_nat _). apply ascii_nat_embedding. Defined.

Lemma nat_of_ascii_inj a b : nat_of_ascii a = nat_of_ascii b -> a = b.
Proof. intros E. rewrite <- (ascii_nat_embedding a), <- (ascii_nat_embedding b). by rewrite E. Qed.

Lemma nat_of_ascii_lt a : (nat_of_ascii a < 256)%nat.
Proof. apply nat_ascii_bounded. Qed.

Section stores.
Context {A : Type}.
Implicit Types (st : store A) (kids : list (ascii * A)).

(** ** The map of a container *)

(** The children with their bytes. *)
Definition kids_of st : list (ascii * A) :=
  match st with
  | node4 kids | node10 kids | node16 kids => kids
  | node48 key child => node48_kids key child
  | node256 child _ => node256_kids child
  end.

Definition kmap st : gmap ascii A := list_to_map (kids_of st).

(** A table indexed by bytes, as a list of pairs. *)
Definition table (g : nat -> option A) : list (ascii * A) :=
  omap (fun c => n ← g c; Some (ascii_of_nat c, n)) (seq 0 256).

Arguments table : simpl never.

Lemma elem_of_table g a x : (a, x) ∈ table g <-> g (nat_of_ascii a) = Some x.
Proof.
  unfold table. rewrite list_elem_of_omap. split.
  - intros (c&Hc%elem_of_seq&Hg). destruct (g c) as [y|] eqn:E; [|done]. cbn in Hg. injection Hg as <- <-.
    by rewrite nat_ascii_embedding by lia.
  - intros Hg. exists (nat_of_ascii a). split; [apply elem_of_seq; pose proof (nat_of_ascii_lt a); lia|].
    rewrite Hg. cbn. by rewrite ascii_nat_embedding.
Qed.

Lemma table_NoDup g : NoDup (table g).*1.
Proof.
  unfold table. assert (forall l, NoDup l -> (forall c, c ∈ l -> (c < 256)%nat) ->
    NoDup (omap (fun c => n ← g c; Some (ascii_of_nat c, n)) l).*1) as H.
  { induction l as [|c l IH]; intros Hnd Hl; [by apply NoDup_nil|]. apply NoDup_cons in Hnd as [Hc Hnd].
    rewrite list_omap_cons. specialize (IH Hnd ltac:(intros; apply Hl; set_solver)).
    destruct (g c) as [x|]; [|done]. cbn. apply NoDup_cons. split; [|done].
    intros ([a y]&Ha&(c'&Hc'&Hg)%list_elem_of_omap)%list_elem_of_fmap. destruct (g c'); [|done]. cbn in Ha, Hg.
    injection Hg as <- <-. apply (f_equal nat_of_ascii) in Ha.
    rewrite !nat_ascii_embedding in Ha by (apply Hl; set_solver). by subst. }
  apply H; [apply NoDup_seq|]. intros c Hc%elem_of_seq. lia.
Qed.

Lemma lookup_table g a : (list_to_map (table g) : gmap ascii A) !! a = g (nat_of_ascii a).
Proof.
  destruct (g (nat_of_ascii a)) as [x|] eqn:E.
  - apply elem_of_list_to_map_1; [apply table_NoDup|]. by apply elem_of_table.
  - apply not_elem_of_list_to_map_1. intros ([b y]&->&Hb%elem_of_table)%list_elem_of_fmap. cbn in E. congruence.
Qed.

Lemma omap_seq_ext (f g : nat -> option (ascii * A)) (l : list nat) : (forall c, f c = g c) -> omap f l = omap g l.
Proof. intros H. induction l as [|c l IH]; [done|]. by rewrite !list_omap_cons, IH, H. Qed.

Definition get48 (key : list nat) (child : list A) (c : nat) : option A :=
  match key !! c with Some (S i) => child !! i | _ => None end.
Definition get256 (child : list (option A)) (c : nat) : option A := n ← child !! c; n.

Lemma node48_kids_table key child : node48_kids key child = table (get48 key child).
Proof. apply omap_seq_ext. intros c. unfold get48. by destruct (key !! c) as [[|i]|]. Qed.

Lemma node256_kids_table child : node256_kids child = table (get256 child).
Proof. apply omap_seq_ext. intros c. unfold get256. by destruct (child !! c) as [[]|]. Qed.

Lemma lookup48 key child a : kmap (node48 key child) !! a = get48 key child (nat_of_ascii a).
Proof. unfold kmap. cbn [kids_of]. by rewrite node48_kids_table, lookup_table. Qed.

Lemma lookup256 child n a : kmap (node256 child n) !! a = get256 child (nat_of_ascii a).
Proof. unfold kmap. cbn [kids_of]. by rewrite node256_kids_table, lookup_table. Qed.

Definition cap st : option nat :=
  match st with node4 _ => Some 4%nat | node10 _ => Some 10%nat | node16 _ => Some 16%nat | node48 _ _ => Some 48%nat | node256 _ _ => None end.

(** There is room for [n] children. *)
Definition room st (n : nat) : Prop := match cap st with Some k => (n <= k)%nat | None => True end.

(** The number of children below which a container would have been shrunk. *)
Definition min_children st : nat :=
  match st with node4 _ => 2 | node10 _ => 5 | node16 _ => 11 | node48 _ _ => 17 | node256 _ _ => 49 end.

Lemma min_children_cap st st' : cap st = cap st' -> min_children st = min_children st'.
Proof. by destruct st, st'. Qed.

(** The positions of node48 are a bijection of the bytes that have a child and the children. *)
Definition key48_ok (key : list nat) (n : nat) : Prop :=
  length key = 256%nat /\
  (forall c k, key !! c = Some k -> k <= n)%nat /\
  (forall c c' k, key !! c = Some (S k) -> key !! c' = Some (S k) -> c = c') /\
  (forall i, i < n -> exists c, key !! c = Some (S i))%nat.

Definition store_ok st : Prop :=
  size (kmap st) = numChildren st /\ room st (numChildren st) /\
  match st with
  | node4 kids | node10 kids | node16 kids => NoDup kids.*1
  | node48 key child => key48_ok key (length child)
  | node256 child _ => length child = 256%nat
  end.

Lemma kids_NoDup st : store_ok st -> NoDup (kids_of st).*1.
Proof.
  intros (_&_&H). destruct st; cbn; [done..| |].
  - rewrite node48_kids_table. apply table_NoDup.
  - rewrite node256_kids_table. apply table_NoDup.
Qed.

Lemma arr_size kids : NoDup kids.*1 -> size (list_to_map kids : gmap ascii A) = length kids.
Proof. intros H. rewrite map_size_list_to_map by done. done. Qed.

Lemma kids_length st : store_ok st -> length (kids_of st) = numChildren st.
Proof. intros H. pose proof (kids_NoDup st H) as Hn. destruct H as [<- _]. unfold kmap. by rewrite arr_size. Qed.

(** ** Lookup *)

Lemma find_kid_lookup {B} (f : A -> B) c kids : find_kid f c kids = f <$> (list_to_map kids : gmap ascii A) !! c.
Proof.
  induction kids as [|[k x] kids IH]; [by rewrite list_to_map_nil, lookup_empty|].
  rewrite list_to_map_cons. cbn [find_kid]. rewrite lookup_insert. destruct (Ascii.eqb_spec k c) as [->|Hne]; [by rewrite decide_True|by rewrite decide_False].
Qed.

Lemma find_nth_lookup {B} (f : A -> B) (l : list A) : forall i, find_nth f i l = f <$> l !! i.
Proof. induction l as [|x l IH]; intros [|i]; try done. cbn. apply IH. Qed.

Lemma find_opt_lookup {B} (f : A -> B) (l : list (option A)) : forall i, find_opt f i l = f <$> (n ← l !! i; n).
Proof. induction l as [|[x|] l IH]; intros [|i]; try done; cbn; apply IH. Qed.

Lemma findChild_ok {B} (f : A -> B) st c : findChild f st c = f <$> kmap st !! c.
Proof.
  destruct st; [apply find_kid_lookup..| |].
  - rewrite lookup48. cbn. unfold node48_findChild, get48. destruct (key !! nat_of_ascii c) as [[|i]|]; [done| |done].
    apply find_nth_lookup.
  - rewrite lookup256. apply find_opt_lookup.
Qed.

(** ** Adding a child *)

Lemma isFull_room st : isFull st = false <-> room st (S (numChildren st)).
Proof. destruct st; unfold room; cbn [isFull numChildren cap]; rewrite ?Nat.leb_gt; split; (done || lia). Qed.

Lemma addChild_ok st c x : store_ok st -> room st (S (numChildren st)) -> kmap st !! c = None ->
  exists st', addChild st c x = Some st' /\ store_ok st' /\ kmap st' = <[c := x]> (kmap st) /\
    numChildren st' = S (numChildren st) /\ cap st' = cap st.
Proof.
  intros (Hs&_&Hk) Hr Hn.
  assert (forall st', kmap st' = <[c := x]> (kmap st) -> numChildren st' = S (numChildren st) ->
    size (kmap st') = numChildren st') as Hsize.
  { intros st' -> ->. by rewrite map_size_insert_None, Hs. }
  assert (forall kids, NoDup kids.*1 -> (list_to_map kids : gmap ascii A) !! c = None ->
    list_to_map (kids ++ [(c, x)]) = <[c := x]> (list_to_map kids : gmap ascii A) /\ NoDup (kids ++ [(c, x)]).*1) as Harr.
  { intros kids Hnd Hc. apply not_elem_of_list_to_map_2 in Hc. split; [by apply list_to_map_snoc|].
    rewrite fmap_app. apply NoDup_app. split_and!; [done|set_solver|apply NoDup_singleton]. }
  destruct st as [kids|kids|kids|key child|child n]; cbn in Hr; unfold room in Hr; cbn in Hr.
  1-3: destruct (Harr kids Hk Hn) as [H1 H2]; eexists; (split; [cbn; unfold node4_addChild, node10_addChild, node16_addChild;
    rewrite (proj2 (Nat.leb_gt _ _)) by lia; reflexivity|]);
    split_and!; [split_and!; [apply Hsize; [done|cbn; rewrite length_app; cbn; lia]|unfold room; cbn; rewrite length_app; cbn; lia|done]
      |done|cbn; rewrite length_app; cbn; lia|done].
  - cbn in Hk. destruct Hk as (Hl&Hb&Hi&Hj). pose proof (nat_of_ascii_lt c) as Hc.
    eexists. split; [cbn; unfold node48_addChild; rewrite (proj2 (Nat.leb_gt _ _)) by lia; reflexivity|]. cbn [fst snd].
    assert (kmap (node48 (<[nat_of_ascii c := S (length child)]> key) (child ++ [x])) = <[c := x]> (kmap (node48 key child))) as Hm.
    { apply map_eq. intros a. rewrite lookup48, lookup_insert. unfold get48. case_decide as Ha; [subst a|].
      - rewrite list_lookup_insert_eq by lia. rewrite lookup_app_r, Nat.sub_diag by lia. done.
      - rewrite list_lookup_insert_ne by (intros E; by apply Ha, nat_of_ascii_inj). rewrite lookup48. unfold get48.
        destruct (key !! nat_of_ascii a) as [[|i]|] eqn:E; [done| |done]. apply Hb in E. by rewrite lookup_app_l by lia. }
    assert (length (child ++ [x]) = S (length child)) as Hlen by (rewrite length_app; cbn; lia).
    split_and!; [split_and!|done|done|done].
    + by apply Hsize.
    + unfold room. cbn. lia.
    + rewrite Hlen. assert (forall k, key !! nat_of_ascii c = Some k -> k = 0%nat) as Hz.
      { intros k E. rewrite lookup48 in Hn. unfold get48 in Hn. rewrite E in Hn. destruct k as [|k]; [done|].
        apply lookup_ge_None_1 in Hn. apply Hb in E. lia. }
      split_and!; [by rewrite length_insert|..].
      * intros c' k. rewrite list_lookup_insert. case_decide; [intros [= <-]; lia|]. intros E%Hb. lia.
      * intros c1 c2 k. destruct (decide (nat_of_ascii c = c1)) as [<-|H1], (decide (nat_of_ascii c = c2)) as [<-|H2];
          rewrite ?list_lookup_insert_eq, ?list_lookup_insert_ne by (done || lia);
          [done|intros [= <-] E%Hb; lia|intros E%Hb [= <-]; lia|apply Hi].
      * intros i Hi'. destruct (decide (i = length child)) as [->|Hne].
        -- exists (nat_of_ascii c). by rewrite list_lookup_insert_eq by lia.
        -- destruct (Hj i ltac:(lia)) as [c' Hc']. exists c'. rewrite list_lookup_insert_ne; [done|].
           intros <-. by apply Hz in Hc'.
  - cbn in Hk. pose proof (nat_of_ascii_lt c) as Hc. eexists. split; [reflexivity|].
    assert (kmap (node256 (<[nat_of_ascii c := Some x]> child) (S n)) = <[c := x]> (kmap (node256 child n))) as Hm.
    { apply map_eq. intros a. rewrite lookup256, lookup_insert. unfold get256. case_decide as Ha; [subst a|].
      - by rewrite list_lookup_insert_eq by lia.
      - rewrite list_lookup_insert_ne by (intros E; by apply Ha, nat_of_ascii_inj). by rewrite lookup256. }
    split_and!; [split_and!; [by apply Hsize|done|by rewrite length_insert]|done|done|done].
Qed.

(** ** Replacing a child *)

Lemma set_kid_ok c x kids : is_Some ((list_to_map kids : gmap ascii A) !! c) ->
  (list_to_map (set_kid c x kids) : gmap ascii A) = <[c := x]> (list_to_map kids) /\ (set_kid c x kids).*1 = kids.*1.
Proof.
  induction kids as [|[k y] kids IH]; [by rewrite list_to_map_nil, lookup_empty; intros []|].
  rewrite list_to_map_cons. cbn [set_kid]. destruct (Ascii.eqb_spec k c) as [->|Hne].
  - intros _. rewrite list_to_map_cons. by rewrite insert_insert_eq.
  - rewrite lookup_insert_ne by done. intros H%IH. destruct H as [H1 H2]. rewrite list_to_map_cons, H1. cbn. rewrite H2.
    by rewrite insert_insert_ne.
Qed.

Lemma set_child_ok st c x : store_ok st -> is_Some (kmap st !! c) ->
  store_ok (set_child st c x) /\ kmap (set_child st c x) = <[c := x]> (kmap st) /\
  (min_children (set_child st c x) <= numChildren (set_child st c x) <-> min_children st <= numChildren st)%nat.
Proof.
  intros (Hs&Hr&Hk) Hc.
  assert (forall st', kmap st' = <[c := x]> (kmap st) -> numChildren st' = numChildren st ->
    size (kmap st') = numChildren st') as Hsize.
  { intros st' -> ->. by rewrite map_size_insert_Some. }
  destruct st as [kids|kids|kids|key child|child n].
  1-3: destruct (set_kid_ok c x kids Hc) as [H1 H2]; assert (length (set_kid c x kids) = length kids) as Hl
    by (apply (f_equal length) in H2; by rewrite !length_fmap in H2);
    (split_and!; [split_and!; [by apply Hsize|unfold room in Hr |- *; cbn [cap numChildren set_child] in Hr |- *; lia|cbn; by rewrite H2]
      |done|cbn [set_child min_children numChildren]; by rewrite Hl]).
  - rewrite lookup48 in Hc. unfold get48 in Hc. cbn [set_child].
    destruct (key !! nat_of_ascii c) as [[|i]|] eqn:E; [by destruct Hc| |by destruct Hc].
    cbn in Hk. destruct Hk as (Hl&Hb&Hi&Hj).
    assert (kmap (node48 key (<[i := x]> child)) = <[c := x]> (kmap (node48 key child))) as Hm.
    { apply map_eq. intros a. rewrite lookup48, lookup_insert, lookup48. unfold get48. case_decide as Ha; [subst a|].
      - rewrite E. apply list_lookup_insert_eq. apply Hb in E. lia.
      - destruct (key !! nat_of_ascii a) as [[|j]|] eqn:Ea; [done| |done]. rewrite list_lookup_insert_ne; [done|].
        intros ->. apply Ha, nat_of_ascii_inj. by eapply Hi. }
    split_and!; [split_and!|done|cbn [min_children numChildren]; by rewrite length_insert].
    + apply Hsize; [done|]. cbn. by rewrite length_insert.
    + unfold room in *. cbn in *. by rewrite length_insert.
    + rewrite length_insert. by split_and!.
  - cbn in Hk. pose proof (nat_of_ascii_lt c) as Hlt. cbn [set_child].
    assert (kmap (node256 (<[nat_of_ascii c := Some x]> child) n) = <[c := x]> (kmap (node256 child n))) as Hm.
    { apply map_eq. intros a. rewrite lookup256, lookup_insert, lookup256. unfold get256. case_decide as Ha; [subst a|].
      - by rewrite list_lookup_insert_eq by lia.
      - by rewrite list_lookup_insert_ne by (intros E; by apply Ha, nat_of_ascii_inj). }
    split_and!; [split_and!; [by apply Hsize|done|by rewrite length_insert]|done|done].
Qed.

(** ** Deleting a child *)

Lemma kid_index_ok c kids : forall i j, kid_index c i kids = Some j ->
  exists k x l1 l2, j = (i + k)%nat /\ k = length l1 /\ kids = l1 ++ (c, x) :: l2.
Proof.
  induction kids as [|[k x] kids IH]; intros i j; cbn [kid_index]; [done|].
  destruct (Ascii.eqb_spec k c) as [->|Hne].
  - intros [= <-]. exists 0%nat, x, [], kids. split_and!; [lia|done|done].
  - intros (m&y&l1&l2&->&->&->)%IH. exists (S (length l1)), y, ((k, x) :: l1), l2. split_and!; [lia|done|done].
Qed.

Lemma kid_index_None c kids : forall i, kid_index c i kids = None -> c ∉ kids.*1.
Proof.
  induction kids as [|[k x] kids IH]; intros i; cbn [kid_index]; [set_solver|].
  destruct (Ascii.eqb_spec k c) as [->|Hne]; [done|]. intros H%IH. set_solver.
Qed.

Lemma delete_kid_perm c kids : c ∈ kids.*1 ->
  exists x, kids ≡ₚ (c, x) :: node4_deleteChild kids c.
Proof.
  intros Hc. unfold node4_deleteChild. destruct (kid_index c 0 kids) as [i|] eqn:Ei; [|by apply kid_index_None in Ei].
  apply kid_index_ok in Ei as (k&x&l1&l2&->&->&->). exists x. cbn [Nat.add].
  destruct l2 as [|y l2 _] using rev_ind.
  - rewrite last_snoc. rewrite length_app. cbn [length].
    replace (length l1 + 1 - 1)%nat with (length l1) by lia. rewrite Nat.ltb_irrefl, take_app_length.
    by rewrite Permutation_app_comm.
  - assert (last (l1 ++ (c, x) :: l2 ++ [y]) = Some y) as ->.
    { rewrite app_comm_cons, (assoc_L (++)). apply last_snoc. }
    assert (length (l1 ++ (c, x) :: l2 ++ [y]) - 1 = length (l1 ++ y :: l2))%nat as ->.
    { repeat (rewrite length_app; cbn [length]). lia. }
    assert (<[length l1 := y]> (l1 ++ (c, x) :: l2 ++ [y]) = (l1 ++ y :: l2) ++ [y]) as ->.
    { rewrite insert_app_r_alt, Nat.sub_diag by done. by rewrite <- (assoc_L (++)). }
    rewrite (proj2 (Nat.ltb_lt _ _)) by (rewrite length_app; cbn [length]; lia).
    rewrite take_app_length. solve_Permutation.
Qed.

Lemma delete_kid_ok c kids : NoDup kids.*1 -> is_Some ((list_to_map kids : gmap ascii A) !! c) ->
  (list_to_map (node4_deleteChild kids c) : gmap ascii A) = delete c (list_to_map kids) /\
  NoDup (node4_deleteChild kids c).*1 /\ length kids = S (length (node4_deleteChild kids c)).
Proof.
  intros Hnd [y Hy]. destruct (delete_kid_perm c kids) as [x Hp].
  { apply list_elem_of_fmap. exists (c, y). split; [done|]. by apply elem_of_list_to_map_2. }
  pose proof Hnd as Hnd'. rewrite Hp in Hnd'. cbn in Hnd'. apply NoDup_cons in Hnd' as [Hc Hnd'].
  split_and!; [|done|exact (Permutation_length Hp)].
  rewrite (list_to_map_proper kids _ Hnd Hp), list_to_map_cons, delete_insert_id; [done|].
  by apply not_elem_of_list_to_map_1.
Qed.

Lemma replace_key_lookup x y key : (forall c c', key !! c = Some x -> key !! c' = Some x -> c = c') ->
  forall c, replace_key x y key !! c = (fun k => if Nat.eqb k x then y else k) <$> key !! c.
Proof.
  induction key as [|k key IH]; intros Hu c; [done|]. cbn [replace_key].
  destruct (Nat.eqb_spec k x) as [->|Hne].
  - destruct c as [|c]; cbn; [by rewrite Nat.eqb_refl|]. destruct (key !! c) as [k|] eqn:E; [|done]. cbn.
    destruct (Nat.eqb_spec k x) as [->|]; [|done]. by specialize (Hu 0%nat (S c) eq_refl E).
  - destruct c as [|c]; cbn; [by rewrite (proj2 (Nat.eqb_neq _ _))|]. apply IH. intros c1 c2 H1 H2.
    specialize (Hu (S c1) (S c2) H1 H2). lia.
Qed.

Lemma length_replace_key x y key : length (replace_key x y key) = length key.
Proof. induction key as [|k key IH]; [done|]. cbn. case_match; cbn; lia. Qed.

(** The positions after the last child has taken the place of child [i]. *)
Lemma delete48_ok key child c i : key48_ok key (length child) -> key !! nat_of_ascii c = Some (S i) ->
  let '(key', child') := node48_deleteChild key child c in
  length child = S (length child') /\ key48_ok key' (length child') /\
  forall a, get48 key' child' (nat_of_ascii a) = if decide (a = c) then None else get48 key child (nat_of_ascii a).
Proof.
  intros (Hl&Hb&Hi&Hj) Hc. unfold node48_deleteChild. rewrite Hc. pose proof (Hb _ _ Hc) as Hin.
  destruct child as [|l child _] using rev_ind; [cbn in Hin; lia|]. rewrite last_snoc, length_app in *. cbn [length] in *.
  replace (length child + 1 - 1)%nat with (length child) by lia. rewrite Nat.add_1_r in *.
  set (n := length child) in *. pose proof (nat_of_ascii_lt c) as Hlt.
  assert (exists key1 child1, (if Nat.ltb i n then (replace_key (S n) (S i) key, <[i := l]> (child ++ [l])) else (key, child ++ [l])) = (key1, child1)
    /\ length key1 = 256%nat /\ (n <= length child1)%nat /\ (forall j, j < n -> child1 !! j = if decide (j = i) then Some l else child !! j)%nat /\
    (forall d, d <> nat_of_ascii c -> key1 !! d = (fun k => if Nat.eqb k (S n) then S i else k) <$> key !! d)) as (key1&child1&->&Hl1&Hlc&Hch&Hk).
  { destruct (Nat.ltb_spec i n) as [Hlt'|Hge].
    - eexists _, _. split; [done|]. split_and!; [by rewrite length_replace_key|rewrite length_insert, length_app; lia| |].
      + intros j Hjn. destruct (decide (j = i)) as [->|Hd].
        * apply list_lookup_insert_eq. rewrite length_app. lia.
        * rewrite list_lookup_insert_ne by done. by rewrite lookup_app_l.
      + intros d _. apply replace_key_lookup. intros c1 c2. apply Hi.
    - assert (i = n) as -> by lia. eexists _, _. split; [done|]. split_and!; [done|rewrite length_app; lia| |].
      + intros j Hjn. rewrite decide_False by lia. by rewrite lookup_app_l.
      + intros d Hd. destruct (key !! d) as [k|] eqn:E; [|done]. cbn. destruct (Nat.eqb_spec k (S n)) as [->|]; [|done].
        by destruct Hd; eapply Hi. }
  assert (length (take n child1) = n) as Hlt1 by (rewrite length_take; lia). rewrite Hlt1.
  assert (forall d k, key !! d = Some k -> d <> nat_of_ascii c -> k <> S i) as Hne by (intros d k E Hd ->; by apply Hd; eapply Hi).
  split_and!; [done|split_and!; [by rewrite length_insert|..]|].
  - intros d k. destruct (decide (nat_of_ascii c = d)) as [<-|Hd].
    + rewrite list_lookup_insert_eq by lia. intros [= <-]. lia.
    + rewrite list_lookup_insert_ne, Hk by done. destruct (key !! d) as [k0|] eqn:E; [|done]. intros [= <-].
      pose proof (Hb _ _ E). case_match eqn:En; [apply Nat.eqb_eq in En; subst|apply Nat.eqb_neq in En; lia].
      assert (S i <> S n) by (intros [= ->]; by apply Hd; eapply Hi). lia.
  - intros d1 d2 k. destruct (decide (nat_of_ascii c = d1)) as [<-|H1]; [by rewrite list_lookup_insert_eq by lia|].
    destruct (decide (nat_of_ascii c = d2)) as [<-|H2]; [by rewrite (list_lookup_insert_eq key1) by lia|].
    rewrite !list_lookup_insert_ne, !Hk by done.
    destruct (key !! d1) as [k1|] eqn:E1, (key !! d2) as [k2|] eqn:E2; try done. cbn. intros [= F1] [= F2].
    pose proof (Hne _ _ E1 (not_eq_sym H1)). pose proof (Hne _ _ E2 (not_eq_sym H2)).
    destruct (Nat.eqb_spec k1 (S n)) as [->|], (Nat.eqb_spec k2 (S n)) as [->|]; subst; try congruence;
      by eapply Hi.
  - intros j Hjn. destruct (decide (j = i)) as [->|Hji].
    + destruct (Hj n ltac:(lia)) as [d Hd]. exists d. assert (d <> nat_of_ascii c) by (intros ->; rewrite Hc in Hd; injection Hd; lia).
      rewrite list_lookup_insert_ne, Hk, Hd by done. cbn. by rewrite Nat.eqb_refl.
    + destruct (Hj j ltac:(lia)) as [d Hd]. exists d. assert (d <> nat_of_ascii c) by (intros ->; rewrite Hc in Hd; injection Hd; lia).
      rewrite list_lookup_insert_ne, Hk, Hd by done. cbn. by rewrite (proj2 (Nat.eqb_neq _ _)) by lia.
  - intros a. unfold get48. case_decide as Ha; [subst a; by rewrite list_lookup_insert_eq by lia|].
    assert (nat_of_ascii a <> nat_of_ascii c) as Hac by (intros E; by apply Ha, nat_of_ascii_inj).
    rewrite list_lookup_insert_ne, Hk by done. destruct (key !! nat_of_ascii a) as [[|j]|] eqn:E; [done| |done].
    pose proof (Hb _ _ E) as Hjb. pose proof (Hne _ _ E Hac) as Hjne. cbn [fmap option_fmap option_map].
    destruct (Nat.eqb_spec (S j) (S n)) as [[= ->]|Hjn].
    + assert (i <> n) by (intros ->; done). rewrite lookup_take_lt, Hch, decide_True by lia. by rewrite lookup_app_r, Nat.sub_diag.
    + rewrite lookup_take_lt, Hch, decide_False by lia. by rewrite lookup_app_l by lia.
Qed.

Lemma delete256_ok child n c : length child = 256%nat -> is_Some (kmap (node256 child n) !! c) ->
  node256_deleteChild child n c = (<[nat_of_ascii c := None]> child, (n - 1)%nat) /\
  kmap (node256 (<[nat_of_ascii c := None]> child) (n - 1)) = delete c (kmap (node256 child n)).
Proof.
  intros Hk Hc. rewrite lookup256 in Hc. unfold get256 in Hc. unfold node256_deleteChild.
  destruct (child !! nat_of_ascii c) as [[x|]|] eqn:E; [|by destruct Hc|by destruct Hc]. split; [done|].
  pose proof (nat_of_ascii_lt c) as Hlt. apply map_eq. intros a. rewrite lookup256. unfold get256. destruct (decide (c = a)) as [<-|Ha].
  - by rewrite lookup_delete_eq, list_lookup_insert_eq by lia.
  - rewrite lookup_delete_ne, list_lookup_insert_ne by (done || by intros ?%nat_of_ascii_inj). by rewrite lookup256.
Qed.

Lemma deleteChild_ok st c : store_ok st -> is_Some (kmap st !! c) ->
  store_ok (deleteChild st c) /\ kmap (deleteChild st c) = delete c (kmap st) /\
  numChildren st = S (numChildren (deleteChild st c)).
Proof.
  intros (Hs&Hr&Hk) Hc.
  assert (forall st', kmap st' = delete c (kmap st) -> numChildren st = S (numChildren st') ->
    size (kmap st') = numChildren st') as Hsize.
  { intros st' -> Hn. destruct Hc as [x Hx]. rewrite map_size_delete, Hx, Hs, Hn. done. }
  destruct st as [kids|kids|kids|key child|child n].
  1-3: destruct (delete_kid_ok c kids Hk Hc) as (H1&H2&H3);
    (split_and!; [split_and!; [by apply Hsize|unfold room in Hr |- *; cbn [cap numChildren deleteChild] in Hr |- *; unfold node10_deleteChild, node16_deleteChild; lia|done]|done|done]).
  - rewrite lookup48 in Hc. unfold get48 in Hc.
    destruct (key !! nat_of_ascii c) as [[|i]|] eqn:E; [by destruct Hc| |by destruct Hc].
    pose proof (delete48_ok key child c i Hk E) as Hd. cbn [deleteChild].
    destruct (node48_deleteChild key child c) as [key' child']. destruct Hd as (Hl&Hk'&Hg).
    assert (kmap (node48 key' child') = delete c (kmap (node48 key child))) as Hm.
    { apply map_eq. intros a. rewrite lookup48, Hg. case_decide as Ha; [subst; by rewrite lookup_delete_eq|].
      rewrite lookup_delete_ne by congruence. by rewrite lookup48. }
    split_and!; [split_and!; [by apply Hsize|unfold room in Hr |- *; cbn [cap numChildren] in Hr |- *; lia|done]|done|done].
  - cbn [deleteChild]. destruct (delete256_ok child n c Hk Hc) as [-> Hm].
    assert (n <> 0)%nat as Hn0.
    { destruct Hc as [x Hx]. intros ->. cbn [numChildren] in Hs. apply map_size_empty_inv in Hs. by rewrite Hs, lookup_empty in Hx. }
    split_and!; [split_and!; [apply Hsize; [exact Hm|cbn [numChildren]; lia]|done|rewrite length_insert; exact Hk]|exact Hm|cbn [numChildren]; lia].
Qed.

(** ** Moving all children to a new container *)

Lemma add_all_ok kids : forall st, store_ok st -> NoDup kids.*1 -> (forall c, c ∈ kids.*1 -> kmap st !! c = None) ->
  room st (numChildren st + length kids) ->
  exists st', add_all st kids = Some st' /\ store_ok st' /\ kmap st' = list_to_map kids ∪ kmap st /\
    numChildren st' = (numChildren st + length kids)%nat /\ cap st' = cap st.
Proof.
  induction kids as [|[c x] kids IH]; intros st Hst Hnd Hk Hr.
  { exists st. split_and!; [done|done|by rewrite list_to_map_nil, (left_id_L ∅ (∪))|cbn; lia|done]. }
  cbn in Hnd. apply NoDup_cons in Hnd as [Hc Hnd]. cbn [add_all length] in *.
  destruct (addChild_ok st c x Hst) as (st1&E&Hst1&Hm1&Hn1&Hc1).
  { unfold room in *. destruct (cap st); [lia|done]. }
  { apply Hk. set_solver. }
  destruct (IH st1 Hst1 Hnd) as (st2&E2&Hst2&Hm2&Hn2&Hc2).
  { intros a Ha. rewrite Hm1, lookup_insert_ne by set_solver. apply Hk. set_solver. }
  { unfold room in *. rewrite Hc1, Hn1. destruct (cap st); [lia|done]. }
  exists st2. rewrite E. cbn [mbind option_bind]. split_and!; [done|done| |lia|congruence].
  rewrite Hm2, Hm1, list_to_map_cons. rewrite <- insert_union_r; [by rewrite insert_union_l|].
  by apply not_elem_of_list_to_map_1.
Qed.

Lemma new_store_ok : store_ok (newNode4 (A := A)) /\ store_ok (newNode10 (A := A)) /\ store_ok (newNode16 (A := A)) /\
  store_ok (newNode48 (A := A)) /\ store_ok (newNode256 (A := A)).
Proof.
  assert (forall st : store A, (forall a, kmap st !! a = None) -> size (kmap st) = 0%nat) as Hz.
  { intros st H. apply map_size_empty_iff, map_empty, H. }
  split_and!; try (split_and!; [done|unfold room; cbn; lia|by apply NoDup_nil]).
  - unfold newNode48. split_and!; [|unfold room; cbn; lia|].
    + apply Hz. intros a. rewrite lookup48. unfold get48. rewrite lookup_replicate_2 by apply nat_of_ascii_lt. done.
    + split_and!; [apply length_replicate|..].
      * intros c k [-> _]%lookup_replicate. done.
      * intros c c' k [? _]%lookup_replicate. done.
      * cbn. lia.
  - unfold newNode256. split_and!; [|done|apply length_replicate].
    apply Hz. intros a. rewrite lookup256. unfold get256. rewrite lookup_replicate_2 by apply nat_of_ascii_lt. done.
Qed.

(** Into a new container of capacity [k]. *)
Lemma refill_ok st new : store_ok st -> store_ok new -> numChildren new = 0%nat -> room new (numChildren st) ->
  exists st', add_all new (kids_of st) = Some st' /\ store_ok st' /\ kmap st' = kmap st /\
    numChildren st' = numChildren st /\ cap st' = cap new.
Proof.
  intros Hst Hnew H0 Hr. pose proof Hnew as [Hs _]. rewrite H0 in Hs. apply map_size_empty_inv in Hs.
  destruct (add_all_ok (kids_of st) new) as (st'&E&Hst'&Hm&Hn&Hc).
  - done.
  - by apply kids_NoDup.
  - intros c _. by rewrite Hs, lookup_empty.
  - by rewrite H0, kids_length.
  - exists st'. split_and!; [done|done|by rewrite Hm, Hs, (right_id_L ∅ (∪))|rewrite Hn, H0, kids_length; done|done].
Qed.

Lemma grow_ok st : store_ok st -> isFull st = true ->
  exists st', grow st = Some st' /\ store_ok st' /\ kmap st' = kmap st /\ room st' (S (numChildren st')) /\
    min_children st' = S (numChildren st').
Proof.
  intros Hst Hf. destruct new_store_ok as (_&H10&H16&H48&H256). pose proof Hst as (_&Hr&_).
  assert (forall new, store_ok new -> numChildren new = 0%nat -> min_children new = S (numChildren st) ->
    room new (S (numChildren st)) -> grow st = add_all new (kids_of st) ->
    exists st', grow st = Some st' /\ store_ok st' /\ kmap st' = kmap st /\ room st' (S (numChildren st')) /\
      min_children st' = S (numChildren st')) as H.
  { intros new Hnew H0 Hk Hlt ->. destruct (refill_ok st new Hst Hnew H0) as (st'&E&?&?&Hn&Hc).
    - unfold room in *. destruct (cap new); [lia|done].
    - exists st'. split_and!; [done|done|done| |].
      + unfold room. by rewrite Hc, Hn.
      + rewrite Hn, <- Hk. by apply min_children_cap. }
  unfold room in Hr. destruct st as [kids|kids|kids|key child|child n]; cbn [cap numChildren isFull] in Hr, Hf;
    [apply Nat.leb_le in Hf; cbn [numChildren] in H..|done].
  - apply (H newNode10); [done|done|cbn; lia|unfold room; cbn; lia|done].
  - apply (H newNode16); [done|done|cbn; lia|unfold room; cbn; lia|done].
  - apply (H newNode48); [done|done|change (17 = S (length kids))%nat; lia|change (S (length kids) <= 48)%nat; lia|done].
  - apply (H newNode256); [exact H256|reflexivity|change (49 = S (length child))%nat; lia|exact I|unfold grow, node48_grow, kids_of; reflexivity].
Qed.

(** ** The children *)

Lemma omap_seq_snoc {X Y} (f : option X -> nat -> option Y) (l : list X) (x : X) :
  omap (fun i => f ((l ++ [x]) !! i) i) (seq 0 (length (l ++ [x]))) =
  omap (fun i => f (l !! i) i) (seq 0 (length l)) ++ match f (Some x) (length l) with Some y => [y] | None => [] end.
Proof.
  rewrite length_app, seq_app, omap_app. f_equal.
  - apply omap_ext_in. intros i Hi%elem_of_seq. by rewrite lookup_app_l by lia.
  - cbn [seq length]. rewrite list_omap_cons, lookup_app_r by lia. replace (0 + length l - length l)%nat with 0%nat by lia.
    cbn [lookup list_lookup]. by rewrite Nat.add_0_l.
Qed.

Lemma omap_lookup_seq (l : list A) : omap (fun i => l !! i) (seq 0 (length l)) = l.
Proof.
  induction l as [|x l IH] using rev_ind; [done|]. rewrite (omap_seq_snoc (fun o _ => o)). by rewrite IH.
Qed.

Lemma child48_perm key (child : list A) : key48_ok key (length child) -> (node48_kids key child).*2 ≡ₚ child.
Proof.
  intros (Hl&Hb&Hi&Hj).
  set (idx := omap (fun c => match key !! c with Some (S i) => Some i | _ => None end) (seq 0 256)).
  assert (idx ≡ₚ seq 0 (length child)) as Hp.
  { apply NoDup_Permutation; [|apply NoDup_seq|].
    - unfold idx. assert (forall l : list nat, NoDup l -> NoDup (omap (fun c => match key !! c with Some (S i) => Some i | _ => None end) l)) as H.
      { induction l as [|c l IH]; intros Hnd; [by apply NoDup_nil|]. apply NoDup_cons in Hnd as [Hc Hnd]. rewrite list_omap_cons.
        destruct (key !! c) as [[|i]|] eqn:E; [by apply IH| |by apply IH]. apply NoDup_cons. split; [|by apply IH].
        intros (c'&Hc'&E')%list_elem_of_omap. destruct (key !! c') as [[|i']|] eqn:E2; [done| |done].
        injection E' as ->. assert (c = c') as -> by (by eapply Hi). done. }
      apply H, NoDup_seq.
    - intros i. unfold idx. rewrite list_elem_of_omap, elem_of_seq. split.
      + intros (c&_&E). destruct (key !! c) as [[|i']|] eqn:E2; [done| |done]. injection E as ->. apply Hb in E2. lia.
      + intros Hi'. destruct (Hj i ltac:(lia)) as [c Hc]. exists c. rewrite Hc. split; [|done].
        apply elem_of_seq. apply lookup_lt_Some in Hc. lia. }
  etransitivity; [|rewrite <- (omap_lookup_seq child) at 1; by rewrite <- Hp].
  unfold idx, node48_kids. generalize (seq 0 256). intros l. apply reflexive_eq.
  induction l as [|c l IH]; [done|]. rewrite !list_omap_cons. destruct (key !! c) as [[|i]|] eqn:E; [done| |done].
  rewrite list_omap_cons. assert (is_Some (child !! i)) as [x Hx] by (apply lookup_lt_is_Some; by apply Hb in E).
  rewrite Hx. cbn. by f_equal.
Qed.

Lemma children_perm {B} (f : A -> B) st : store_ok st -> children f st ≡ₚ f <$> (kids_of st).*2.
Proof.
  intros (_&_&Hk). destruct st as [kids|kids|kids|key child|child n]; cbn [children kids_of].
  1-3: by rewrite <- list_fmap_compose.
  - rewrite (child48_perm key child Hk). done.
  - cbn in Hk. unfold node256_kids. rewrite <- Hk. apply reflexive_eq. clear Hk.
    induction child as [|x child IH] using rev_ind; [done|]. rewrite flat_map_app, IH.
    rewrite (omap_seq_snoc (fun o c => n ← o; n ← n; Some (ascii_of_nat c, n))), !fmap_app. f_equal. by destruct x.
Qed.
End stores.
