(* ===== verification/SubjectTreeProofs.v ===== *)
(** * Subject tree: insertion, search and deletion

    The invariant of the tree and what the operations do to the subjects that can be found. *)

From Stdlib Require Import Ascii.
From S2P Require Import Prelude SubjectTree SubjectTreeStore.
Import Stree.

#[local] Opaque kmap addChild deleteChild set_child grow isFull numChildren findChild children kids_of.

Section proofs.
Context {V : Type}.
Implicit Types (n ch : node V) (st : store (node V)) (s sub : bytes) (v : V).

(** ** The invariant *)

(** Subjects do not contain the byte that stands for the end of a subject. *)
Definition no_del (s : bytes) : Prop := noPivot ∉ s.

(** [ch] can be the child for byte [c]: its path begins with it, and a node below a node has a
    prefix. *)
Definition child_at (c : ascii) ch : Prop :=
  pivot (path ch) = c /\ match ch with inner p _ => p <> [] | leaf _ _ => True end.

Inductive node_ok : node V -> Prop :=
| leaf_ok s v : no_del s -> node_ok (leaf s v)
| inner_ok p st :
    no_del p -> store_ok st -> (min_children st <= numChildren st)%nat ->
    (forall c ch, kmap st !! c = Some ch -> node_ok ch) ->
    (forall c ch, kmap st !! c = Some ch -> child_at c ch) ->
    node_ok (inner p st).

Lemma no_del_app a b : no_del (a ++ b) <-> no_del a /\ no_del b.
Proof. unfold no_del. set_solver. Qed.

Lemma pivot_noPivot s : no_del s -> pivot s = noPivot <-> s = [].
Proof. intros Hs. destruct s as [|c s]; [done|]. cbn. split; [|done]. intros ->. unfold no_del in Hs. set_solver. Qed.

Lemma bytes_eqb_true a b : bytes_eqb a b = true <-> a = b.
Proof. apply bool_decide_eq_true. Qed.
Lemma bytes_eqb_false a b : bytes_eqb a b = false <-> a <> b.
Proof. apply bool_decide_eq_false. Qed.

(** ** Search *)

Lemma find_leaf s0 v s : find (leaf s0 v) s = if decide (s = s0) then Some v else None.
Proof. cbn [find]. case_decide as E; [by rewrite (proj2 (bytes_eqb_true s s0) E)|by rewrite (proj2 (bytes_eqb_false s s0) E)]. Qed.

Lemma find_inner p st s : find (inner p st) (p ++ s) = ch ← kmap st !! pivot s; find ch s.
Proof.
  cbn [find]. rewrite take_app_length, drop_app_length. rewrite (proj2 (bytes_eqb_true _ _) eq_refl), findChild_ok.
  by destruct (kmap st !! pivot s).
Qed.

Lemma find_inner_None p st s : (forall s', s <> p ++ s') -> find (inner p st) s = None.
Proof.
  intros H. cbn [find]. destruct (bytes_eqb _ _) eqn:E; [|done]. apply bytes_eqb_true in E.
  destruct (H (drop (length p) s)). by rewrite <- E at 1; rewrite take_drop.
Qed.

Lemma app_dec (p s : bytes) : {s' | s = p ++ s'} + {forall s', s <> p ++ s'}.
Proof.
  destruct (decide (p `prefix_of` s)) as [H|H].
  - left. exists (drop (length p) s). destruct H as [k ->]. by rewrite drop_app_length.
  - right. intros s' ->. apply H. by exists s'.
Qed.

Lemma find_pivot c ch s : child_at c ch -> is_Some (find ch s) -> pivot s = c.
Proof.
  intros [Hp Hn] [v Hv]. destruct ch as [s0 v0|p st].
  - rewrite find_leaf in Hv. case_decide; [by subst|done].
  - destruct (app_dec p s) as [[s' ->]|Hno]; [|by rewrite find_inner_None in Hv].
    cbn in Hp. by destruct p.
Qed.

Lemma find_prepend p n s : find (prepend p n) (p ++ s) = find n s.
Proof.
  destruct n as [s0 v|p0 st]; cbn [prepend].
  - rewrite !find_leaf. repeat case_decide; try done; [|by subst].
    by apply (inj (p ++.)) in H.
  - destruct (app_dec p0 s) as [[s' ->]|Hno].
    + by rewrite (assoc_L (++)), !find_inner.
    + rewrite !find_inner_None; [done|done|]. intros s'. rewrite <- (assoc_L (++)). intros E. apply (inj (p ++.)) in E. by eapply Hno.
Qed.

Lemma find_prepend_None p n s : (forall s', s <> p ++ s') -> find (prepend p n) s = None.
Proof.
  intros H. destruct n as [s0 v|p0 st]; cbn [prepend].
  - rewrite find_leaf, decide_False; [done|]. apply H.
  - apply find_inner_None. intros s'. rewrite <- (assoc_L (++)). apply H.
Qed.

(** Nothing is found that contains the reserved byte. *)
Lemma find_no_del n : node_ok n -> forall s, is_Some (find n s) -> no_del s.
Proof.
  induction 1 as [s0 v Hs|p st Hp Hst Hm _ IH Hat]; intros s Hf.
  - rewrite find_leaf in Hf. case_decide; [by subst|by destruct Hf].
  - destruct (app_dec p s) as [[s' ->]|Hno]; [|rewrite find_inner_None in Hf by done; by destruct Hf].
    rewrite find_inner in Hf. destruct (kmap st !! pivot s') as [ch|] eqn:E; [|by destruct Hf].
    apply no_del_app. split; [done|]. by eapply IH.
Qed.

(** ** Common prefixes *)

Lemma commonPrefixLen_spec a : forall b, exists p a' b', a = p ++ a' /\ b = p ++ b' /\ commonPrefixLen a b = length p /\
  match a', b' with x :: _, y :: _ => x <> y | _, _ => True end.
Proof.
  induction a as [|x a IH]; intros b; [by exists [], [], b|]. destruct b as [|y b]; [by exists [], (x :: a), []|].
  cbn [commonPrefixLen]. destruct (Ascii.eqb_spec x y) as [->|Hne].
  - destruct (IH b) as (p&a'&b'&->&->&->&Hd). by exists (y :: p), a', b'.
  - by exists [], (x :: a), (y :: b).
Qed.

Lemma pivots_differ a b : no_del a -> no_del b -> a <> b ->
  match a, b with x :: _, y :: _ => x <> y | _, _ => True end -> pivot a <> pivot b.
Proof.
  intros Ha Hb Hne Hd. destruct a as [|x a], b as [|y b]; cbn; [done| | |done]; unfold no_del in *; set_solver.
Qed.

(** ** Two children in a new node4 *)

Lemma pair_store (c1 c2 : ascii) n1 n2 : c1 <> c2 ->
  exists st1 st2, addChild newNode4 c1 n1 = Some st1 /\ addChild st1 c2 n2 = Some st2 /\ store_ok st2 /\
    kmap st2 = <[c2 := n2]> {[c1 := n1]} /\ (min_children st2 <= numChildren st2)%nat.
Proof.
  intros Hne. destruct (@new_store_ok (node V)) as (H4&_). pose proof H4 as [Hs _]. change (numChildren newNode4) with 0%nat in Hs.
  apply map_size_empty_inv in Hs.
  destruct (addChild_ok newNode4 c1 n1 H4) as (st1&E1&H1&Hm1&Hn1&Hc1); [unfold room; cbn; change (numChildren newNode4) with 0%nat; lia|by rewrite Hs, lookup_empty|].
  change (numChildren newNode4) with 0%nat in Hn1.
  destruct (addChild_ok st1 c2 n2 H1) as (st2&E2&H2&Hm2&Hn2&Hc2).
  { unfold room. rewrite Hc1, Hn1. cbn. lia. }
  { rewrite Hm1, Hs. rewrite lookup_insert_ne, lookup_empty by done. done. }
  exists st1, st2. split_and!; [done|done|done| |].
  - by rewrite Hm2, Hm1, Hs.
  - rewrite Hn2, Hn1. assert (cap st2 = Some 4%nat) as Hc by (by rewrite Hc2, Hc1). destruct st2; try done; cbn; lia.
Qed.

Lemma find_pair p c1 c2 n1 n2 st : c1 <> c2 -> child_at c1 n1 -> child_at c2 n2 ->
  kmap st = <[c2 := n2]> {[c1 := n1]} ->
  forall s, find (inner p st) (p ++ s) = match find n2 s with Some v => Some v | None => find n1 s end.
Proof.
  intros Hne H1 H2 Hm s. rewrite find_inner, Hm.
  assert (forall c n, child_at c n -> pivot s <> c -> find n s = None) as Hno.
  { intros c n Hc Hp. destruct (find n s) eqn:E; [|done]. destruct Hp. by eapply find_pivot. }
  destruct (decide (c2 = pivot s)) as [Hs2|Hs2].
  - rewrite <- Hs2, lookup_insert_eq. cbn. destruct (find n2 s) eqn:E; [done|]. symmetry. by apply (Hno c1); [|congruence].
  - rewrite lookup_insert_ne by done. rewrite (Hno c2 n2) by (done || congruence). destruct (decide (c1 = pivot s)) as [Hs1|Hs1].
    + by rewrite <- Hs1, lookup_singleton_eq.
    + rewrite lookup_singleton_ne by done. symmetry. by apply (Hno c1); [|congruence].
Qed.

Lemma pair_ok p c1 c2 n1 n2 st : c1 <> c2 -> child_at c1 n1 -> child_at c2 n2 -> node_ok n1 -> node_ok n2 -> no_del p ->
  store_ok st -> kmap st = <[c2 := n2]> {[c1 := n1]} -> (min_children st <= numChildren st)%nat -> node_ok (inner p st).
Proof.
  intros Hne H1 H2 Hn1 Hn2 Hp Hst Hm Hmin. constructor; [done|done|done|..]; intros c ch; rewrite Hm;
    (intros [[<- <-]|[_ [<- <-]%lookup_singleton_Some]]%lookup_insert_Some; done).
Qed.

Lemma child_at_leaf s v : child_at (pivot s) (leaf s v).
Proof. done. Qed.

Lemma child_at_inner p st : p <> [] -> child_at (pivot p) (inner p st).
Proof. done. Qed.

(** ** Insertion *)

(** [n'] is [n] with [sub] set to [v], and fits where [n] was. *)
Definition inserted n sub v n' : Prop :=
  node_ok n' /\ (forall s, find n' s = if decide (s = sub) then Some v else find n s) /\
  (forall c, child_at c n -> pivot sub = c -> child_at c n').

(** A node replaced by a node4 with the common prefix, itself and a new leaf. *)
Lemma split_ok n p a b v st : node_ok (prepend p n) -> node_ok n -> no_del (p ++ b) -> child_at (pivot a) n ->
  path n = a -> pivot a <> pivot b ->
  store_ok st -> (min_children st <= numChildren st)%nat ->
  (kmap st = <[pivot a := n]> {[pivot b := leaf b v]} \/ kmap st = <[pivot b := leaf b v]> {[pivot a := n]}) ->
  inserted (prepend p n) (p ++ b) v (inner p st) /\ find (prepend p n) (p ++ b) = None.
Proof.
  intros Hpn Hn [Hp Hb]%no_del_app Hat Hpath Hne Hst Hmin Hm.
  assert (find n b = None) as Hnb.
  { destruct (find n b) eqn:E; [|done]. destruct Hne. symmetry. by eapply find_pivot. }
  split; [split_and!|by rewrite find_prepend].
  - destruct Hm as [Hm|Hm]; eapply pair_ok; try exact Hm; done || (by constructor).
  - intros s. destruct (app_dec p s) as [[s' ->]|Hno].
    + rewrite find_prepend. assert (find (inner p st) (p ++ s') =
        match find (leaf b v) s' with Some v => Some v | None => find n s' end) as ->.
      { destruct Hm as [Hm|Hm].
        - rewrite (find_pair p _ _ _ _ st (not_eq_sym Hne) (child_at_leaf b v) Hat Hm).
          destruct (find n s') eqn:E1, (find (leaf b v) s') eqn:E2; try done. exfalso. apply Hne.
          rewrite <- (find_pivot _ _ _ Hat (mk_is_Some _ _ E1)). by rewrite <- (find_pivot _ _ _ (child_at_leaf b v) (mk_is_Some _ _ E2)).
        - by rewrite (find_pair p _ _ _ _ st Hne Hat (child_at_leaf b v) Hm). }
      rewrite find_leaf. destruct (decide (s' = b)) as [->|Hsb]; [by rewrite decide_True|].
      rewrite decide_False; [done|]. intros E. by apply (inj (p ++.)) in E.
    + rewrite find_inner_None by done. rewrite decide_False by apply Hno. by rewrite find_prepend_None.
  - intros c [Hc Hn0] Hpb. assert (p <> []) as Hpe.
    { intros ->. cbn in Hpb. apply Hne. rewrite Hpb, <- Hc, <- Hpath. by destruct n. }
    split; [|done]. cbn. rewrite <- Hpb. by destruct p.
Qed.

Lemma insert_leaf_ok fuel s0 old sub v : no_del s0 -> no_del sub ->
  exists n', insert_leaf (S fuel) s0 old sub v = Some (n', find (leaf s0 old) sub) /\ inserted (leaf s0 old) sub v n'.
Proof.
  intros H0 Hs. cbn [insert_leaf]. destruct (bytes_eqb sub s0) eqn:E.
  - apply bytes_eqb_true in E as ->. exists (leaf s0 v). rewrite find_leaf, decide_True by done. split; [done|].
    split_and!; [by constructor| |done]. intros s. rewrite !find_leaf. by case_decide.
  - apply bytes_eqb_false in E. rewrite find_leaf, decide_False by done.
    destruct (commonPrefixLen_spec s0 sub) as (p&a&b&->&->&->&Hd). rewrite take_app_length, !drop_app_length.
    apply no_del_app in H0 as [Hp Ha]. pose proof Hs as [_ Hb]%no_del_app.
    assert (pivot a <> pivot b) as Hne by (apply pivots_differ; [done|done|congruence|done]).
    assert (match b with c :: _ => Ascii.eqb (pivot a) c | [] => false end = false) as ->.
    { destruct b as [|c b]; [done|]. by apply Ascii.eqb_neq. }
    rewrite andb_false_r.
    destruct (pair_store (pivot b) (pivot a) (leaf b v) (leaf a old) (not_eq_sym Hne)) as (st1&st2&E1&E2&Hst&Hm&Hmin).
    rewrite E1. cbn [mbind option_bind]. rewrite E2. exists (inner p st2). split; [done|].
    destruct (split_ok (leaf a old) p a b v st2) as [Hins _]; try done; [|by constructor|by left].
    constructor. by apply no_del_app.
Qed.

(** Changing the child for the byte of [sub]. *)
Lemma child_changed p st st' sub v ch' : node_ok (inner p st) -> no_del sub ->
  store_ok st' -> kmap st' = <[pivot sub := ch']> (kmap st) -> (min_children st' <= numChildren st')%nat ->
  node_ok ch' -> child_at (pivot sub) ch' ->
  (forall s, pivot s = pivot sub -> find ch' s = if decide (s = sub) then Some v else (ch ← kmap st !! pivot sub; find ch s)) ->
  inserted (inner p st) (p ++ sub) v (inner p st').
Proof.
  intros Hn Hs Hst Hm Hmin Hch Hat Hf. inversion_clear Hn as [|? ? Hp _ _ Hok Hats]. split_and!.
  - constructor; [done|done|done|..]; intros c ch; rewrite Hm; intros [[<- <-]|[_ ?]]%lookup_insert_Some; eauto.
  - intros s. destruct (app_dec p s) as [[s' ->]|Hno].
    + rewrite !find_inner, Hm, lookup_insert. case_decide as Hd.
      * cbn. rewrite Hf, Hd by done. repeat case_decide; congruence || done || by (exfalso; apply (inj (p ++.)) in H0).
      * rewrite decide_False; [done|]. intros E. by apply (inj (p ++.)) in E; subst.
    + rewrite !find_inner_None by done. by rewrite decide_False by apply Hno.
  - intros c [Hc Hpe] _. by split.
Qed.

Lemma add_leaf_ok p st sub v : store_ok st -> (min_children st <= numChildren st)%nat -> kmap st !! pivot sub = None ->
  exists st', add_leaf p st sub v = Some (inner p st', None) /\ store_ok st' /\
    kmap st' = <[pivot sub := leaf sub v]> (kmap st) /\ (min_children st' <= numChildren st')%nat.
Proof.
  intros Hst Hmin Hn. unfold add_leaf.
  assert (exists st1, (if isFull st then grow st else Some st) = Some st1 /\ store_ok st1 /\ kmap st1 = kmap st /\
    room st1 (S (numChildren st1)) /\ (min_children st1 <= S (numChildren st1))%nat) as (st1&E1&Hst1&Hm1&Hr1&Hmin1).
  { destruct (isFull st) eqn:Ef.
    - destruct (grow_ok st Hst Ef) as (st1&?&?&?&?&?). exists st1. split_and!; [done..|lia].
    - exists st. split_and!; [done|done|done|by apply isFull_room|lia]. }
  rewrite E1. cbn [mbind option_bind]. rewrite <- Hm1 in Hn.
  destruct (addChild_ok st1 (pivot sub) (leaf sub v) Hst1 Hr1 Hn) as (st2&E2&Hst2&Hm2&Hn2&Hc2).
  rewrite E2. exists st2. split_and!; [done|done|by rewrite Hm2, Hm1|]. by rewrite Hn2, (min_children_cap st2 st1).
Qed.

Lemma st_insert_node_ok n : node_ok n -> forall sub v, no_del sub ->
  exists n', insert_node n sub v = Some (n', find n sub) /\ inserted n sub v n'.
Proof.
  induction 1 as [s0 v0 H0|p st Hp Hst Hmin Hok IH Hat]; intros sub v Hs; [by apply insert_leaf_ok|].
  assert (node_ok (inner p st)) as Hn by (by constructor). cbn [insert_node].
  destruct (commonPrefixLen_spec p sub) as (q&a&b&->&->&->&Hd). pose proof Hs as [Hq Hb]%no_del_app.
  destruct (Nat.leb_spec (length (q ++ a)) (length q)) as [Hle|Hgt].
  - rewrite length_app in Hle. assert (a = []) as -> by (destruct a; [done|cbn in Hle; lia]).
    rewrite app_nil_r in *. rewrite drop_app_length, findChild_ok, find_inner.
    destruct (kmap st !! pivot b) as [ch|] eqn:Ech; cbn [fmap option_fmap option_map mbind option_bind].
    + destruct (IH _ _ Ech b v Hb) as (ch'&E&Hch'&Hf&Hc'). rewrite E. cbn [mbind option_bind].
      destruct (set_child_ok st (pivot b) ch' Hst (mk_is_Some _ _ Ech)) as (Hst'&Hm'&Hmin').
      eexists. split; [done|]. apply (child_changed q st _ b v ch'); try done.
      * by apply Hmin'.
      * apply Hc'; [by eapply Hat|done].
      * intros s Hsp. rewrite Hf, Ech. done.
    + destruct (add_leaf_ok q st b v Hst Hmin Ech) as (st'&E&Hst'&Hm'&Hmin').
      exists (inner q st'). split; [done|]. apply (child_changed q st st' b v (leaf b v)); try done; [by constructor|].
      intros s Hsp. rewrite find_leaf, Ech. by case_decide.
  - rewrite length_app in Hgt. assert (a <> []) as Hane by (intros ->; cbn in Hgt; lia).
    rewrite drop_app_length, drop_app_length, take_app_length. apply no_del_app in Hp as [_ Ha].
    assert (pivot a <> pivot b) as Hne by (apply pivots_differ; [done|done|destruct a, b; congruence|done]).
    destruct (pair_store (pivot a) (pivot b) (inner a st) (leaf b v) Hne) as (st1&st2&E1&E2&Hst2&Hm&Hmin2).
    rewrite E1. cbn [mbind option_bind]. rewrite E2. cbn [mbind option_bind].
    destruct (split_ok (inner a st) q a b v st2) as [Hins Hnone]; try done; [by constructor|by right|].
    cbn [prepend] in Hins, Hnone. exists (inner q st2). by rewrite Hnone.
Qed.

(** ** Deletion *)

#[local] Transparent kmap numChildren kids_of.

Lemma shrink_ok st : store_ok st -> (min_children st <= S (numChildren st))%nat ->
  match shrink st with
  | SPanic => False
  | SKeep => (min_children st <= numChildren st)%nat
  | SChild n => exists c, kmap st = {[c := n]}
  | SStore st' => store_ok st' /\ kmap st' = kmap st /\ (min_children st' <= numChildren st')%nat
  end.
Proof.
  intros Hst Hmin. destruct (@new_store_ok (node V)) as (H4&H10&H16&H48&_).
  assert (forall new, store_ok new -> numChildren new = 0%nat -> room new (numChildren st) -> (min_children new <= numChildren st)%nat ->
    match to_store (add_all new (kids_of st)) with
    | SPanic => False
    | SKeep => (min_children st <= numChildren st)%nat
    | SChild n => exists c, kmap st = {[c := n]}
    | SStore st' => store_ok st' /\ kmap st' = kmap st /\ (min_children st' <= numChildren st')%nat
    end) as H.
  { intros new Hnew H0 Hr Hk. destruct (refill_ok st new Hst Hnew H0 Hr) as (st'&->&?&?&Hn&Hc). cbn [to_store].
    split_and!; [done|done|]. by rewrite Hn, (min_children_cap st' new). }
  destruct st as [kids|kids|kids|key child|child n]; cbn [min_children numChildren shrink] in *; unfold node4_shrink, node10_shrink, node16_shrink, node48_shrink, node256_shrink.
  - destruct kids as [|[c n] [|kx kids]]; cbn [length] in *; [lia|by exists c|lia].
  - destruct (Nat.ltb_spec 4 (length kids)); [lia|]. apply (H newNode4); [done|done|unfold room; cbn; lia|cbn; lia].
  - destruct (Nat.ltb_spec 10 (length kids)); [lia|]. apply (H newNode10); [done|done|unfold room; cbn; lia|cbn; lia].
  - destruct (Nat.ltb_spec 16 (length child)); [lia|]. unfold kids_of in H. apply (H newNode16); [done|done|unfold room; cbn; lia|cbn; lia].
  - destruct (Nat.ltb_spec 48 n); [lia|]. unfold kids_of in H. apply (H newNode48); [done|done|change (n <= 48)%nat; lia|change (17 <= n)%nat; lia].
Qed.

#[local] Opaque kmap numChildren kids_of.

(** [n'] is [n] without [sub], and fits where [n] was. *)
Definition deleted n sub n' : Prop :=
  node_ok n' /\ (forall s, find n' s = if decide (s = sub) then None else find n s) /\
  (forall c, child_at c n -> child_at c n').

(** A node with an empty prefix and a single child is the child. *)
Lemma find_single p st c ch s : kmap st = {[c := ch]} -> child_at c ch -> find (inner p st) (p ++ s) = find ch s.
Proof.
  intros Hm Hat. rewrite find_inner, Hm. destruct (decide (c = pivot s)) as [E|Hne].
  - by rewrite E, lookup_singleton_eq.
  - rewrite lookup_singleton_ne by done. cbn. destruct (find ch s) eqn:E; [|done]. destruct Hne. symmetry. by eapply find_pivot.
Qed.

Lemma prepend_ok p n : no_del p -> node_ok n -> node_ok (prepend p n).
Proof. intros Hp Hn. destruct Hn; constructor; try done; by apply no_del_app. Qed.

Lemma child_at_prepend c p st n : child_at c (inner p st) -> child_at c (prepend p n).
Proof.
  intros [Hc Hp]. cbn in Hc. destruct p as [|x p]; [done|]. destruct n as [s v|p0 st0]; cbn [prepend]; split; done.
Qed.

(** The node without the child for the byte of [sub], which was [leaf sub v]. *)
Lemma find_without p st st' sub v : kmap st !! pivot sub = Some (leaf sub v) -> kmap st' = delete (pivot sub) (kmap st) ->
  forall s, find (inner p st') s = if decide (s = p ++ sub) then None else find (inner p st) s.
Proof.
  intros Hl Hm s. destruct (app_dec p s) as [[s' ->]|Hno].
  - rewrite !find_inner, Hm. destruct (decide (pivot sub = pivot s')) as [E|Hne].
    + rewrite <- E, lookup_delete_eq, Hl. cbn [mbind option_bind]. rewrite find_leaf. repeat case_decide; congruence || done.
    + rewrite lookup_delete_ne by done. rewrite decide_False; [done|]. intros E. apply (inj (p ++.)) in E. by subst.
  - rewrite !find_inner_None by done. by case_decide.
Qed.

Lemma delete_leaf_ok p st sub v : node_ok (inner p st) -> kmap st !! pivot sub = Some (leaf sub v) ->
  exists n', delete_leaf p st (pivot sub) v = DDel (Some n') v /\ deleted (inner p st) (p ++ sub) n'.
Proof.
  intros Hn Hl. inversion_clear Hn as [|? ? Hp Hst Hmin Hok Hat].
  destruct (deleteChild_ok st (pivot sub) Hst (mk_is_Some _ _ Hl)) as (Hst'&Hm'&Hn').
  pose proof (find_without p st _ sub v Hl Hm') as Hfind. unfold delete_leaf.
  set (st' := deleteChild st (pivot sub)) in *.
  assert (forall c ch, kmap st' !! c = Some ch -> node_ok ch /\ child_at c ch) as Hch.
  { intros c ch. rewrite Hm'. intros [_ E]%lookup_delete_Some. eauto. }
  assert (min_children st' = min_children st) as Hmm.
  { apply min_children_cap. clear. Transparent deleteChild. destruct st; cbn; try done.
    - by destruct (node48_deleteChild key child (pivot sub)).
    - by destruct (node256_deleteChild child size (pivot sub)). Opaque deleteChild. }
  pose proof (shrink_ok st' Hst') as Hsh. destruct (shrink st') as [| |n|st2].
  - destruct Hsh. lia.
  - eexists. split; [done|]. split_and!; [|done|].
    + constructor; [done|done|apply Hsh; lia|..]; intros c ch E; by apply Hch in E as [? ?].
    + by intros c [? ?].
  - destruct Hsh as [c Hc]; [lia|]. destruct (Hch c n) as [Hnok Hnat]; [rewrite Hc; apply lookup_singleton_eq|].
    eexists. split; [done|]. split_and!; [by apply prepend_ok| |intros; by eapply child_at_prepend].
    intros s. rewrite <- Hfind. destruct (app_dec p s) as [[s' ->]|Hno].
    + by rewrite find_prepend, (find_single p st' c n).
    + by rewrite find_prepend_None, find_inner_None.
  - destruct Hsh as (Hst2&Hm2&Hmin2); [lia|]. eexists. split; [done|]. cbn [prepend]. rewrite app_nil_r. split_and!; [| |done].
    + constructor; [done|done|done|..]; intros c ch; rewrite Hm2; intros E; by apply Hch in E as [? ?].
    + intros s. rewrite <- Hfind. destruct (app_dec p s) as [[s' ->]|Hno]; [by rewrite !find_inner, Hm2|by rewrite !find_inner_None].
Qed.

Lemma delete_node_ok n : node_ok n -> forall sub,
  match delete_node n sub with
  | DPanic => False
  | DNone => find n sub = None
  | DDel np v => find n sub = Some v /\
      match np with None => n = leaf sub v | Some n' => deleted n sub n' end
  end.
Proof.
  induction 1 as [s0 v0 H0|p st Hp Hst Hmin Hok IH Hat]; intros sub.
  { cbn [delete_node]. rewrite find_leaf. destruct (bytes_eqb sub s0) eqn:E.
    - apply bytes_eqb_true in E as ->. by rewrite decide_True.
    - apply bytes_eqb_false in E. by rewrite decide_False. }
  assert (node_ok (inner p st)) as Hn by (by constructor). cbn [delete_node].
  destruct (app_dec p sub) as [[s ->]|Hno].
  - rewrite length_app, (proj2 (Nat.ltb_ge _ _)) by lia. rewrite take_app_length, (proj2 (bytes_eqb_true p p) eq_refl).
    cbn [negb]. rewrite drop_app_length, findChild_ok, find_inner.
    destruct (kmap st !! pivot s) as [ch|] eqn:Ech; [|done]. cbn [fmap option_fmap option_map mbind option_bind].
    destruct ch as [s1 v1|p1 st1].
    + rewrite find_leaf. destruct (bytes_eqb s s1) eqn:E.
      * apply bytes_eqb_true in E as <-. destruct (delete_leaf_ok p st s v1 Hn Ech) as (n'&->&Hd). by rewrite decide_True.
      * apply bytes_eqb_false in E. by rewrite decide_False.
    + specialize (IH _ _ Ech s). destruct (delete_node (inner p1 st1) s) as [| |[c'|] v]; [done|done| |by destruct IH].
      cbn [delete_below]. destruct IH as (Hf&Hc'&Hfc&Hcat). split; [done|].
      destruct (set_child_ok st (pivot s) c' Hst (mk_is_Some _ _ Ech)) as (Hst'&Hm'&Hmin'). split_and!.
      * constructor; [done|done|by apply Hmin'|..]; intros c ch; rewrite Hm'; intros [[<- <-]|[_ ?]]%lookup_insert_Some; eauto.
      * intros s'. destruct (app_dec p s') as [[s2 ->]|Hno]; [|rewrite !find_inner_None by done; by case_decide].
        rewrite !find_inner, Hm', lookup_insert. case_decide as Hd.
        -- rewrite <- Hd, Ech. cbn [mbind option_bind]. rewrite Hfc. repeat case_decide; congruence || done || by (exfalso; apply (inj (p ++.)) in H0).
        -- rewrite decide_False; [done|]. intros E. by apply (inj (p ++.)) in E; subst.
      * by intros c [? ?].
  - assert (bytes_eqb (take (length p) sub) p = false) as ->.
    { apply bytes_eqb_false. intros E. apply (Hno (drop (length p) sub)). rewrite <- E at 1. by rewrite take_drop. }
    rewrite find_inner_None by done. by destruct (Nat.ltb _ _).
Qed.
End proofs.
