(* ===== verification/SubjectTreeSpec.v ===== *)
(** * Subject tree: properties

    The tree is a finite map from subjects to values, its walks visit every entry once, and the
    ordered walk in ascending order of the bytes. *)

From Stdlib Require Import Ascii.
From S2P Require Import Prelude SubjectTree SubjectTreeStore SubjectTreeProofs.
Import Stree.

#[local] Opaque kmap addChild deleteChild set_child grow isFull numChildren findChild kids_of.

Section spec.
Context {V : Type}.
Implicit Types (n ch : node V) (st : store (node V)) (s sub : bytes) (v : V).

(** ** The entries of a tree *)

Fixpoint entries n : list (bytes * V) :=
  match n with
  | leaf s v => [(s, v)]
  | inner p st => prod_map (p ++.) id <$> concat (children entries st)
  end.

Lemma kids_kmap st c ch : store_ok st -> (c, ch) ∈ kids_of st <-> kmap st !! c = Some ch.
Proof. Transparent kmap. intros H. unfold kmap. apply elem_of_list_to_map, kids_NoDup, H. Opaque kmap. Qed.

Lemma children_map {A B} (f : A -> B) (st : store A) : children f st = f <$> children id st.
Proof.
  destruct st as [kids|kids|kids|key child|child k]; cbn [children].
  1-3: induction kids as [|[c x] kids IH]; cbn; [done|by rewrite IH].
  - induction child as [|x child IH]; cbn; [done|by rewrite IH].
  - induction child as [|[x|] child IH]; cbn; [done|by rewrite IH|done].
Qed.

Lemma elem_of_children st ch : store_ok st -> ch ∈ children id st <-> exists c, kmap st !! c = Some ch.
Proof.
  intros H. rewrite (children_perm id st H), list_fmap_id, list_elem_of_fmap. split.
  - intros ([c x]&->&Hx). exists c. by apply kids_kmap.
  - intros [c Hc]. exists (c, ch). split; [done|]. by apply kids_kmap.
Qed.

Lemma entries_perm p st : store_ok st ->
  entries (inner p st) ≡ₚ kids_of st ≫= fun kx => prod_map (p ++.) id <$> entries kx.2.
Proof.
  intros H. cbn [entries]. rewrite (children_perm entries st H). induction (kids_of st) as [|[c x] kids IH]; [done|].
  cbn [fmap list_fmap fst snd concat]. rewrite fmap_app, bind_cons. by rewrite IH.
Qed.

Lemma elem_of_entries n : node_ok n -> forall s v, (s, v) ∈ entries n <-> find n s = Some v.
Proof.
  induction 1 as [s0 v0 H0|p st Hp Hst Hm Hok IH Hat]; intros s v.
  - rewrite find_leaf. cbn. rewrite list_elem_of_singleton. case_decide; split; congruence.
  - rewrite (entries_perm p st Hst), list_elem_of_bind. split.
    + intros ([c ch]&Hin&Hc%kids_kmap); [|done]. apply list_elem_of_fmap in Hin as ([s' v']&[= -> ->]&Hin). cbn in Hin.
      apply (IH c ch Hc) in Hin. rewrite find_inner, (find_pivot c ch s'); [by rewrite Hc|by apply Hat|by eexists].
    + intros Hf. destruct (app_dec p s) as [[s' ->]|Hno]; [|by rewrite find_inner_None in Hf].
      rewrite find_inner in Hf. destruct (kmap st !! pivot s') as [ch|] eqn:E; [|done]. cbn in Hf.
      exists (pivot s', ch). split; [|by apply kids_kmap]. apply list_elem_of_fmap. exists (s', v). split; [done|].
      cbn. by apply (IH _ _ E).
Qed.

Lemma entries_NoDup n : node_ok n -> NoDup (entries n).*1.
Proof.
  induction 1 as [s0 v0 H0|p st Hp Hst Hm Hok IH Hat]; [apply NoDup_singleton|].
  rewrite (entries_perm p st Hst). rewrite list_fmap_of_bind. apply NoDup_bind.
  - eapply NoDup_fmap_1. by apply kids_NoDup.
  - intros [c ch] Hc%kids_kmap; [|done]. cbn. rewrite <- list_fmap_compose.
    replace (fst ∘ prod_map (p ++.) id <$> entries ch) with ((p ++.) <$> (entries ch).*1) by (by rewrite <- list_fmap_compose).
    apply NoDup_fmap; [apply _|]. by eapply IH.
  - intros [c1 ch1] [c2 ch2] z H1 H2 Hz1 Hz2. pose proof H1 as Hk1%kids_kmap; [|done]. pose proof H2 as Hk2%kids_kmap; [|done].
    assert (forall c ch, kmap st !! c = Some ch -> z ∈ (prod_map (p ++.) id <$> entries ch).*1 -> exists s, z = p ++ s /\ pivot s = c) as Hz.
    { intros c ch Hc ([s1 v1]&->&([s v]&[= -> ->]&Hs)%list_elem_of_fmap)%list_elem_of_fmap. exists s. split; [done|].
      eapply find_pivot; [by apply Hat|]. eexists. eapply (elem_of_entries ch); [by eapply Hok|done]. }
    destruct (Hz _ _ Hk1 Hz1) as (s1&->&<-), (Hz _ _ Hk2 Hz2) as (s2&E&<-). apply (inj (p ++.)) in E as ->. congruence.
Qed.

(** ** Walks *)

Section walk.
Context {C : Type} (cb : C -> bytes -> V -> C * bool).

(** The callback on a list of entries, until it returns [false]. *)
Fixpoint visit (l : list (bytes * V)) (c : C) : C * bool :=
  match l with
  | [] => (c, true)
  | (s, v) :: l => let '(c, ok) := cb c s v in if ok : bool then visit l c else (c, false)
  end.

Lemma st_visit_app l1 l2 c : visit (l1 ++ l2) c = let '(c, ok) := visit l1 c in if ok : bool then visit l2 c else (c, false).
Proof. revert c. induction l1 as [|[s v] l1 IH]; intros c; [done|]. cbn. destruct (cb c s v) as [c' []]; [apply IH|done]. Qed.

Lemma run_all_visit pre ordered l ess :
  Forall2 (fun ch es => forall c, iter cb ordered ch pre c = visit (prod_map (pre ++.) id <$> es) c) l ess ->
  forall c, run_all ((fun ch => (path ch, fun c => iter cb ordered ch pre c)) <$> l).*2 c =
    visit (prod_map (pre ++.) id <$> concat ess) c.
Proof.
  induction 1 as [|ch es l ess Hch _ IH]; intros c; [done|]. cbn [concat]. rewrite fmap_app, st_visit_app.
  cbn [fmap list_fmap run_all snd]. rewrite Hch. destruct (visit _ c) as [c' []]; [|done]. apply IH.
Qed.

Lemma prod_map_app (pre p : bytes) (l : list (bytes * V)) :
  prod_map (pre ++.) id <$> (prod_map (p ++.) id <$> l) = prod_map ((pre ++ p) ++.) id <$> l.
Proof.
  rewrite <- list_fmap_compose. apply list_fmap_ext. intros _ [s v] _. cbn. by rewrite (assoc_L (++)).
Qed.

Lemma iter_fast n : node_ok n -> forall pre c, iter cb false n pre c = visit (prod_map (pre ++.) id <$> entries n) c.
Proof.
  induction 1 as [s0 v0 H0|p st Hp Hst Hm Hok IH Hat]; intros pre c.
  - cbn. by destruct (cb c (pre ++ s0) v0) as [c' []].
  - cbn [iter entries]. rewrite children_map, (children_map entries), prod_map_app. apply run_all_visit.
    apply Forall2_fmap_r, Forall_Forall2_diag, Forall_forall. intros ch [x Hx]%elem_of_children; [|done]. intros c'. by eapply IH.
Qed.
End walk.

(** ** Byte order *)

Definition bytes_le (a b : bytes) : Prop := bytes_leb a b = true.

Lemma bytes_leb_app p a b : bytes_leb (p ++ a) (p ++ b) = bytes_leb a b.
Proof. induction p as [|x p IH]; [done|]. cbn [bytes_leb app]. by rewrite Nat.ltb_irrefl. Qed.

#[local] Instance bytes_le_trans : Transitive bytes_le.
Proof.
  intros a. unfold bytes_le. induction a as [|x a IH]; intros [|y b] [|z c] H1 H2; try done. cbn [bytes_leb] in *.
  destruct (Nat.ltb_spec (nat_of_ascii x) (nat_of_ascii y)), (Nat.ltb_spec (nat_of_ascii y) (nat_of_ascii z)),
    (Nat.ltb_spec (nat_of_ascii x) (nat_of_ascii z)), (Nat.ltb_spec (nat_of_ascii y) (nat_of_ascii x)),
    (Nat.ltb_spec (nat_of_ascii z) (nat_of_ascii y)), (Nat.ltb_spec (nat_of_ascii z) (nat_of_ascii x)); try done; try lia.
  by eapply IH.
Qed.

#[local] Instance bytes_le_total : Total bytes_le.
Proof.
  intros a. unfold bytes_le. induction a as [|x a IH]; intros [|y b]; [by left|by left|by right|]. cbn [bytes_leb].
  destruct (Nat.ltb_spec (nat_of_ascii x) (nat_of_ascii y)), (Nat.ltb_spec (nat_of_ascii y) (nat_of_ascii x)); auto.
Qed.

(** Subjects below different children compare like the paths of the children. *)
Lemma bytes_le_cross a b s1 s2 : no_del a -> no_del b -> no_del s1 -> no_del s2 ->
  pivot s1 = pivot a -> pivot s2 = pivot b -> pivot a <> pivot b -> bytes_le a b -> bytes_le s1 s2.
Proof.
  intros Ha Hb H1 H2 E1 E2 Hne Hle. unfold bytes_le in *. destruct a as [|x a].
  - apply pivot_noPivot in E1 as ->; done.
  - destruct b as [|y b]; [done|]. cbn in E1, E2, Hne.
    destruct s1 as [|x1 s1]; [done|]. cbn in E1. subst x1.
    destruct s2 as [|y1 s2]; [cbn in E2; subst y|cbn in E2; subst y1].
    + unfold no_del in Hb. set_solver.
    + cbn [bytes_leb] in *. assert (nat_of_ascii x <> nat_of_ascii y) by (by intros ?%nat_of_ascii_inj).
      destruct (Nat.ltb_spec (nat_of_ascii x) (nat_of_ascii y)); [done|].
      destruct (Nat.ltb_spec (nat_of_ascii y) (nat_of_ascii x)); [done|lia].
Qed.

Lemma sorted_concat l ess :
  StronglySorted (fun a b => bytes_le (path a) (path b)) l -> NoDup ((fun ch => pivot (path ch)) <$> l) ->
  Forall (fun ch => no_del (path ch)) l ->
  Forall2 (fun ch (es : list (bytes * V)) => StronglySorted bytes_le es.*1 /\
    forall s, s ∈ es.*1 -> no_del s /\ pivot s = pivot (path ch)) l ess ->
  StronglySorted bytes_le (concat ess).*1.
Proof.
  intros Hl Hnd Hdel Hes. revert Hl Hnd Hdel. induction Hes as [|ch es l ess [Hs Hp] Hes IH]; intros Hl Hnd Hdel; [constructor|].
  apply StronglySorted_inv in Hl as [Hl Hle]. cbn in Hnd. apply NoDup_cons in Hnd as [Hn Hnd].
  apply Forall_cons in Hdel as [Hd Hdel]. cbn [concat]. rewrite fmap_app. apply StronglySorted_app. split_and!; [|done|by apply IH].
  intros s1 s2 H1 H2. destruct (Hp s1 H1) as [Hd1 Hp1].
  apply list_elem_of_fmap in H2 as ([s v]&->&H2). apply list_elem_of_In, in_concat in H2 as (es2&H2&Hin2). cbn [fst].
  apply list_elem_of_In in H2, Hin2. apply list_elem_of_lookup in H2 as [i Hi]. destruct (Forall2_lookup_r _ _ _ _ _ Hes Hi) as (ch2&Hc2&_&Hp2).
  destruct (Hp2 s) as [Hd2 Hpv2]; [apply list_elem_of_fmap; by exists (s, v)|].
  assert (ch2 ∈ l) as Hin by (by eapply list_elem_of_lookup_2). rewrite Forall_forall in Hle, Hdel.
  apply (bytes_le_cross (path ch) (path ch2)); try done; [by apply Hdel| |by apply Hle].
  intros E. apply Hn. apply list_elem_of_fmap. by exists ch2.
Qed.

Lemma children_pivots st : node_ok (inner [] st) -> NoDup ((fun ch => pivot (path ch)) <$> children id st).
Proof.
  intros Hn. inversion_clear Hn as [|? ? _ Hst _ Hok Hat]. rewrite (children_perm id st Hst), list_fmap_id.
  replace ((fun ch => pivot (path ch)) <$> (kids_of st).*2) with (kids_of st).*1; [by apply kids_NoDup|].
  rewrite <- list_fmap_compose. apply list_fmap_ext. intros i [c ch] Hi%list_elem_of_lookup_2%kids_kmap; [|done].
  cbn. symmetry. by apply Hat.
Qed.

Lemma iter_ordered {C} (cb : C -> bytes -> V -> C * bool) n : node_ok n -> forall pre, exists es,
  es ≡ₚ entries n /\ StronglySorted bytes_le es.*1 /\
  forall c, iter cb true n pre c = visit cb (prod_map (pre ++.) id <$> es) c.
Proof.
  induction 1 as [s0 v0 H0|p st Hp Hst Hm Hok IH Hat]; intros pre.
  { exists [(s0, v0)]. split_and!; [done|repeat constructor|]. intros c. cbn. by destruct (cb c (pre ++ s0) v0) as [c' []]. }
  set (f := fun ch => (path ch, fun c => iter cb true ch (pre ++ p) c)).
  pose proof (merge_sort_Permutation path_le (f <$> children id st)) as Hperm.
  assert (Sorted path_le (merge_sort path_le (f <$> children id st))) as Hsort by (apply Sorted_merge_sort; intros a b; apply bytes_le_total).
  apply Permutation_map_inv in Hperm as (l&El&Hl). rewrite El in Hsort.
  assert (forall ch, ch ∈ l -> exists c, kmap st !! c = Some ch) as Hch.
  { intros ch Hin. apply elem_of_children; [done|]. by rewrite Hl. }
  assert (exists ess, Forall2 (fun ch es => es ≡ₚ entries ch /\ (StronglySorted bytes_le es.*1 /\
      forall s, s ∈ es.*1 -> no_del s /\ pivot s = pivot (path ch)) /\
    forall c, iter cb true ch (pre ++ p) c = visit cb (prod_map ((pre ++ p) ++.) id <$> es) c) l ess) as [ess Hess].
  { clear -Hch IH Hok Hat. induction l as [|ch l IHl]; [by exists []|]. destruct (Hch ch) as [c Hc]; [set_solver|].
    destruct (IH c ch Hc (pre ++ p)) as (es&He1&He2&He3). destruct IHl as [ess Hess]; [set_solver|]. exists (es :: ess).
    constructor; [|done]. split_and!; [done|done| |done]. intros s ([s1 v1]&->&Hs)%list_elem_of_fmap. cbn.
    rewrite He1, elem_of_entries in Hs by (by eapply Hok). destruct (Hat c ch Hc) as [Hpv Hne].
    split; [eapply find_no_del; [by eapply Hok|by eexists]|]. rewrite Hpv. eapply find_pivot; [by split|by eexists]. }
  exists (prod_map (p ++.) id <$> concat ess). split_and!.
  - cbn [entries]. rewrite (children_map entries), Hl. f_equiv. clear -Hess.
    induction Hess as [|ch es l ess (?&_) _ IHl]; [done|]. cbn. by f_equiv.
  - rewrite <- list_fmap_compose. replace (fst ∘ prod_map (p ++.) id <$> concat ess) with ((p ++.) <$> (concat ess).*1)
      by (by rewrite <- list_fmap_compose).
    assert (StronglySorted bytes_le (concat ess).*1) as Hs.
    { apply (sorted_concat l).
      - apply Sorted_StronglySorted in Hsort; [|intros a b c; apply bytes_le_trans].
        clear -Hsort. induction l as [|ch l IHl]; [constructor|]. cbn in Hsort. apply StronglySorted_inv in Hsort as [H1 H2].
        constructor; [by apply IHl|]. exact (proj1 (Forall_fmap f _ l) H2).
      - rewrite <- Hl. apply children_pivots. constructor; [unfold no_del; set_solver|done..].
      - apply Forall_forall. intros ch [c Hc]%Hch. by pose proof (Hok c ch Hc) as [|].
      - eapply Forall2_impl; [exact Hess|]. by intros ch es (_&?&_). }
    clear -Hs. induction Hs as [|s l _ IHl Hall]; cbn; constructor; [done|]. apply Forall_fmap. eapply Forall_impl; [exact Hall|].
    intros b Hb. cbn. unfold bytes_le. by rewrite bytes_leb_app.
  - intros c. cbn [iter]. rewrite children_map. fold f. rewrite El, prod_map_app. apply run_all_visit.
    eapply Forall2_impl; [exact Hess|]. by intros ch es (_&_&?).
Qed.
End spec.

(** ** Refinement of a map *)

Definition tree_ok {V} (t : SubjectTree V) (M : gmap bytes V) : Prop :=
  match root t with
  | None => M = ∅
  | Some n => node_ok n /\ forall s, find n s = M !! s
  end /\ Size t = Z.of_nat (size M).

Inductive st_op (V : Type) : Type := SInsert (s : bytes) (v : V) | SDelete (s : bytes) | SFind (s : bytes) | SEmpty.
Arguments SInsert {V}.
Arguments SDelete {V}.
Arguments SFind {V}.
Arguments SEmpty {V}.

Section refine.
Context {V : Type}.
Implicit Types (t : SubjectTree V) (M : gmap bytes V).

Definition tree_op t (o : st_op V) : option (SubjectTree V * option V) :=
  match o with
  | SInsert s v => Insert t s v
  | SDelete s => Delete t s
  | SFind s => Some (t, Find t s)
  | SEmpty => Some (Empty t, None)
  end.

(** Subjects with the reserved byte are not stored, and the empty subject is never deleted. *)
Definition map_op M (o : st_op V) : gmap bytes V * option V :=
  match o with
  | SInsert s v => if decide (no_del s) then (<[s := v]> M, M !! s) else (M, None)
  | SDelete s => if decide (s = []) then (M, None) else (delete s M, M !! s)
  | SFind s => (M, M !! s)
  | SEmpty => (∅, None)
  end.

Lemma no_del_bool s : existsb (Ascii.eqb noPivot) s = negb (bool_decide (no_del s)).
Proof.
  unfold no_del. destruct (existsb (Ascii.eqb noPivot) s) eqn:E; symmetry.
  - apply negb_true_iff, bool_decide_eq_false. intros Hn. apply existsb_exists in E as (c&Hc&<-%Ascii.eqb_eq).
    by apply Hn, list_elem_of_In.
  - apply negb_false_iff, bool_decide_eq_true. intros Hin%list_elem_of_In. apply not_true_iff_false in E. destruct E.
    apply existsb_exists. exists noPivot. split; [done|]. apply Ascii.eqb_refl.
Qed.

Lemma insert_tree_ok t M s v : tree_ok t M ->
  exists t', Insert t s v = Some (t', (map_op M (SInsert s v)).2) /\ tree_ok t' (map_op M (SInsert s v)).1.
Proof.
  intros [Hr Hs]. unfold Insert. cbn [map_op]. rewrite no_del_bool. destruct (decide (no_del s)) as [Hd|Hd].
  2: { rewrite bool_decide_eq_false_2 by done. by exists t. }
  rewrite bool_decide_eq_true_2 by done. cbn [negb fst snd]. unfold Size in Hs. destruct (root t) as [n|].
  - destruct Hr as [Hn Hf]. destruct (st_insert_node_ok n Hn s v Hd) as (n'&E&Hn'&Hf'&_). rewrite E. cbn [mbind option_bind].
    rewrite Hf. eexists. split; [done|]. split; cbn [root Size tsize].
    + split; [done|]. intros s'. rewrite Hf', lookup_insert. repeat case_decide; congruence || done.
    + rewrite map_size_insert. destruct (M !! s); cbn; unfold Size; cbn; lia.
  - subst M. rewrite lookup_empty. eexists. split; [done|]. split; cbn [root].
    + split; [by constructor|]. intros s'. rewrite find_leaf. rewrite insert_empty.
      case_decide as E; [by rewrite E, lookup_singleton_eq|]. by rewrite lookup_singleton_ne by congruence.
    + unfold Size. cbn [tsize]. rewrite map_size_insert, lookup_empty, map_size_empty, Hs, map_size_empty. done.
Qed.

Lemma delete_tree_ok t M s : tree_ok t M ->
  exists t', Delete t s = Some (t', (map_op M (SDelete s)).2) /\ tree_ok t' (map_op M (SDelete s)).1.
Proof.
  intros Ht. pose proof Ht as [Hr Hs]. unfold Delete. cbn [map_op]. unfold Size in Hs. destruct (root t) as [n|] eqn:Er.
  - destruct (decide (s = [])) as [->|Hne]; [by exists t|]. cbn [fst snd].
    destruct Hr as [Hn Hf]. pose proof (delete_node_ok n Hn s) as Hd. rewrite Hf in Hd.
    replace (match s with [] => Some (t, None) | _ :: _ =>
      match delete_node n s with DPanic => None | DNone => Some (t, None) | DDel np v => Some (mkTree np (tsize t - 1), Some v) end end)
      with (match delete_node n s with DPanic => None | DNone => Some (t, None) | DDel np v => Some (mkTree np (tsize t - 1), Some v) end)
      by (by destruct s).
    destruct (delete_node n s) as [| |np v]; [done| |].
    + exists t. rewrite Hd. split; [done|]. by rewrite delete_id.
    + destruct Hd as [Hv Hnp]. eexists. rewrite Hv. split; [done|]. split; cbn [root].
      * destruct np as [n'|].
        -- destruct Hnp as (Hn'&Hf'&_). split; [done|]. intros s'. rewrite Hf', lookup_delete. repeat case_decide; congruence || done.
        -- subst n. apply map_eq. intros s'. rewrite lookup_delete, lookup_empty. case_decide as Hd; [done|].
           rewrite <- Hf, find_leaf. by rewrite decide_False by congruence.
      * unfold Size. cbn [tsize]. rewrite map_size_delete, Hv, Hs.
        assert (size M <> 0%nat) by (intros Hz%map_size_empty_inv; by subst). lia.
  - subst M. exists t. case_decide; cbn [fst snd]; rewrite ?lookup_empty, ?delete_empty; done.
Qed.

Lemma tree_op_ok t M o : tree_ok t M ->
  exists t', tree_op t o = Some (t', (map_op M o).2) /\ tree_ok t' (map_op M o).1.
Proof.
  intros Ht. destruct o as [s v|s|s|].
  - by apply insert_tree_ok.
  - by apply delete_tree_ok.
  - exists t. split; [|done]. cbn. do 2 f_equal. destruct Ht as [Hr _]. unfold Find.
    destruct (root t); [by destruct Hr|]. subst M. by rewrite lookup_empty.
  - by exists (Empty t).
Qed.

Fixpoint run_tree t (ops : list (st_op V)) : option (SubjectTree V * list (option V)) :=
  match ops with
  | [] => Some (t, [])
  | o :: ops => '(t, r) ← tree_op t o; '(t, rs) ← run_tree t ops; Some (t, r :: rs)
  end.

Fixpoint run_map M (ops : list (st_op V)) : gmap bytes V * list (option V) :=
  match ops with
  | [] => (M, [])
  | o :: ops => let '(M, r) := map_op M o in let '(M, rs) := run_map M ops in (M, r :: rs)
  end.

Lemma run_tree_ok ops : forall t M, tree_ok t M ->
  exists t', run_tree t ops = Some (t', (run_map M ops).2) /\ tree_ok t' (run_map M ops).1.
Proof.
  induction ops as [|o ops IH]; intros t M Ht; [by exists t|]. cbn [run_tree run_map].
  destruct (tree_op_ok t M o Ht) as (t1&E1&Ht1). rewrite E1. cbn [mbind option_bind].
  destruct (map_op M o) as [M1 r]. cbn [fst snd] in *. destruct (IH t1 M1 Ht1) as (t2&E2&Ht2). rewrite E2.
  destruct (run_map M1 ops) as [M2 rs]. by exists t2.
Qed.

Lemma new_tree_ok : tree_ok (NewSubjectTree (V := V)) ∅.
Proof. done. Qed.

Lemma tree_entries t M n : tree_ok t M -> root t = Some n -> entries n ≡ₚ map_to_list M.
Proof.
  intros [Hr _] E. rewrite E in Hr. destruct Hr as [Hn Hf].
  apply NoDup_Permutation; [eapply NoDup_fmap_1; by apply entries_NoDup|apply NoDup_map_to_list|].
  intros [s v]. by rewrite elem_of_entries, elem_of_map_to_list, Hf.
Qed.

Lemma visit_prod_nil {C} (cb : C -> bytes -> V -> C * bool) l c : visit cb (prod_map ([] ++.) id <$> l) c = visit cb l c.
Proof. f_equal. rewrite <- (list_fmap_id l) at 2. apply list_fmap_ext. by intros _ [s v] _. Qed.
End refine.

(** ** Properties *)

(** C5. The subject tree is a finite map from subjects to values: on every sequence of
    [Insert], [Delete], [Find] and [Empty] it answers what the map answers, does not panic in
    any container, and its [Size] is the size of the map; its nodes have distinct bytes, no
    single-child nodes and the smallest container that fits ([tree_ok], [node_ok]).  Subjects
    with the reserved byte 127 are not stored, and the empty subject is not deleted. *)
Theorem stree_refines_map {V : Type} (ops : list (st_op V)) :
  exists t, run_tree NewSubjectTree ops = Some (t, (run_map ∅ ops).2) /\ tree_ok t (run_map ∅ ops).1.
Proof. apply run_tree_ok, new_tree_ok. Qed.

(** The walks visit every entry exactly once, with its whole subject, until the callback
    stops them; the ordered walk in ascending order of the bytes of the subjects. *)
Theorem stree_walks {V C : Type} (t : SubjectTree V) (M : gmap bytes V) (cb : C -> bytes -> V -> C * bool) (c : C)
    (Ht : tree_ok t M) :
  (exists l, l ≡ₚ map_to_list M /\ IterFast cb t c = (visit cb l c).1) /\
  (exists l, l ≡ₚ map_to_list M /\ StronglySorted bytes_le l.*1 /\ IterOrdered cb t c = (visit cb l c).1).
Proof.
  unfold IterFast, IterOrdered. destruct (root t) as [n|] eqn:E.
  - pose proof (tree_entries t M n Ht E) as Hp. assert (node_ok n) as Hn by (destruct Ht as [Hr _]; rewrite E in Hr; apply Hr).
    split.
    + exists (entries n). split; [done|]. by rewrite iter_fast, visit_prod_nil.
    + destruct (iter_ordered cb n Hn []) as (es&He&Hs&Hi). exists es. split_and!; [by rewrite He|done|]. by rewrite Hi, visit_prod_nil.
  - assert (M = ∅) as -> by (destruct Ht as [Hr _]; by rewrite E in Hr). rewrite map_to_list_empty.
    split; exists []; [done|]. split_and!; [done|constructor|done].
Qed.

Definition sample_st_ops : list (st_op Z) :=
  [SInsert ["b"%char] 2; SInsert ["a"%char; "."%char; "x"%char] 1; SInsert ["a"%char] 3; SInsert [] 4; SDelete ["b"%char]].

Definition sample_tree : SubjectTree Z :=
  match run_tree NewSubjectTree sample_st_ops with Some (t, _) => t | None => NewSubjectTree end.

Lemma sample_tree_ok : tree_ok sample_tree (run_map ∅ sample_st_ops).1.
Proof.
  destruct (run_tree_ok sample_st_ops NewSubjectTree ∅ new_tree_ok) as (t&E&Ht). unfold sample_tree. by rewrite E.
Qed.

Lemma stree_walks_witness :
  IterOrdered (fun c s v => (c ++ [v], true)) sample_tree [] = [4; 3; 1] /\
  exists l, l ≡ₚ map_to_list (run_map ∅ sample_st_ops).1 /\ StronglySorted bytes_le l.*1 /\
    IterOrdered (fun c s v => (c ++ [v], true)) sample_tree [] = (visit (fun c s v => (c ++ [v], true)) l []).1.
Proof.
  split; [vm_compute; reflexivity|].
  exact (proj2 (stree_walks sample_tree (run_map ∅ sample_st_ops).1 (fun c s v => (c ++ [v], true)) [] sample_tree_ok)).
Defined.

Lemma visit_fold {V C} (f : C -> bytes -> V -> C) l : forall c,
  visit (fun c s v => (f c s v, true)) l c = (fold_left (fun c (sv : bytes * V) => f c sv.1 sv.2) l c, true).
Proof. induction l as [|[s v] l IH]; intros c; [done|]. apply IH. Qed.

(** The walk of [l] with a search in [M] is the fold over the common entries. *)
Lemma fold_omap {V W C : Type} (f : C -> bytes -> V -> W -> C) (M : gmap bytes W) (l : list (bytes * V)) : forall c,
  fold_left (fun c (sv : bytes * V) => match M !! sv.1 with Some w => f c sv.1 sv.2 w | None => c end) l c =
  fold_left (fun c (svw : bytes * V * W) => f c svw.1.1 svw.1.2 svw.2) (omap (fun sv => w ← M !! sv.1; Some (sv, w)) l) c.
Proof.
  induction l as [|[s v] l IH]; intros c; [done|]. rewrite list_omap_cons. cbn [fold_left fst snd].
  destruct (M !! s) as [w|]; cbn; apply IH.
Qed.

Lemma omap_common {V W : Type} (L : gmap bytes V) (R : gmap bytes W) l : l ≡ₚ map_to_list L ->
  NoDup (omap (fun sv => w ← R !! sv.1; Some (sv, w)) l) /\
  forall s v w, (s, v, w) ∈ omap (fun sv => w ← R !! sv.1; Some (sv, w)) l <-> L !! s = Some v /\ R !! s = Some w.
Proof.
  intros Hp. assert (forall s v, (s, v) ∈ l <-> L !! s = Some v) as Hl by (intros s v; by rewrite Hp, elem_of_map_to_list).
  split.
  - assert (NoDup l) as Hnd by (rewrite Hp; apply NoDup_map_to_list). clear Hp Hl. induction Hnd as [|[s v] l Hn _ IH]; [by apply NoDup_nil|].
    rewrite list_omap_cons. cbn. destruct (R !! s) as [w|]; [|done]. cbn. apply NoDup_cons. split; [|done].
    intros ([s' v']&Hin&Hw)%list_elem_of_omap. cbn in Hw. destruct (R !! s'); [|done]. by injection Hw as -> -> ->.
  - intros s v w. rewrite list_elem_of_omap. split.
    + intros ([s' v']&Hin%Hl&Hw). cbn in Hw. destruct (R !! s') as [w'|] eqn:E; [|done]. by injection Hw as -> -> ->.
    + intros [H1 H2]. exists (s, v). split; [by apply Hl|]. cbn. by rewrite H2.
Qed.

Lemma find_tree {V} (t : SubjectTree V) M s : tree_ok t M -> Find t s = M !! s.
Proof. intros [Hr _]. unfold Find. destruct (root t); [by destruct Hr|]. by rewrite Hr, lookup_empty. Qed.

(** [IterFast] with a search in another tree. *)
Lemma iter_search {V W C : Type} (f : C -> bytes -> V -> W -> C) (t : SubjectTree V) M (u : SubjectTree W) N c :
  tree_ok t M -> tree_ok u N ->
  exists l, NoDup l /\ (forall s v w, (s, v, w) ∈ l <-> M !! s = Some v /\ N !! s = Some w) /\
    IterFast (fun c s v => (match Find u s with Some w => f c s v w | None => c end, true)) t c =
    fold_left (fun c (svw : bytes * V * W) => f c svw.1.1 svw.1.2 svw.2) l c.
Proof.
  intros Ht Hu. unfold IterFast. destruct (root t) as [n|] eqn:E.
  - pose proof (tree_entries t M n Ht E) as Hp. assert (node_ok n) as Hn by (destruct Ht as [Hr _]; rewrite E in Hr; apply Hr).
    destruct (omap_common M N (entries n) Hp) as [H1 H2]. eexists. split_and!; [exact H1|exact H2|].
    rewrite <- fold_omap, iter_fast, visit_prod_nil by done.
    rewrite (visit_fold (fun c s v => match Find u s with Some w => f c s v w | None => c end)). cbn [fst].
    generalize (entries n) c. intros l. induction l as [|[s v] l IH]; intros c'; [done|]. cbn [fold_left fst snd].
    by rewrite IH, (find_tree u N s Hu).
  - assert (M = ∅) as -> by (destruct Ht as [Hr _]; by rewrite E in Hr). exists []. split_and!; [by apply NoDup_nil| |done].
    intros s v w. rewrite lookup_empty. split; [by intros ?%elem_of_nil|by intros []].
Qed.

(** [LazyIntersect] calls back exactly the subjects that are in both trees, once each and
    with both values, whichever tree it walks. *)
Theorem stree_lazy_intersect {L R C : Type} (tl : SubjectTree L) (tr : SubjectTree R) (ML : gmap bytes L) (MR : gmap bytes R)
    (cb : C -> bytes -> L -> R -> C) (c : C) (Hl : tree_ok tl ML) (Hr : tree_ok tr MR) :
  exists calls : list (bytes * L * R), NoDup calls /\
    (forall s a b, (s, a, b) ∈ calls <-> ML !! s = Some a /\ MR !! s = Some b) /\
    LazyIntersect cb tl tr c = fold_left (fun c sab => cb c sab.1.1 sab.1.2 sab.2) calls c.
Proof.
  assert ((ML = ∅ \/ MR = ∅) -> LazyIntersect cb tl tr c = c -> exists calls : list (bytes * L * R), NoDup calls /\
    (forall s a b, (s, a, b) ∈ calls <-> ML !! s = Some a /\ MR !! s = Some b) /\
    LazyIntersect cb tl tr c = fold_left (fun c sab => cb c sab.1.1 sab.1.2 sab.2) calls c) as Hempty.
  { intros He E. exists []. split_and!; [by apply NoDup_nil| |done]. intros s a b. split; [by intros ?%elem_of_nil|].
    destruct He as [-> | ->]; rewrite lookup_empty; by intros []. }
  unfold LazyIntersect in *. destruct (root tl) eqn:El.
  2: { apply Hempty; [|done]. left. destruct Hl as [H _]. by rewrite El in H. }
  destruct (root tr) eqn:Er.
  2: { apply Hempty; [|done]. right. destruct Hr as [H _]. by rewrite Er in H. }
  destruct (Size tl <=? Size tr); [by apply iter_search|].
  destruct (iter_search (fun c s b a => cb c s a b) tr MR tl ML c Hr Hl) as (l&Hnd&Hin&E).
  exists ((fun sba => (sba.1.1, sba.2, sba.1.2)) <$> l). split_and!.
  - apply NoDup_fmap_2; [|done]. by intros [[? ?] ?] [[? ?] ?] [= -> -> ->].
  - intros s a b. rewrite list_elem_of_fmap. split.
    + intros ([[s' b'] a']&[= -> -> ->]&[? ?]%Hin). done.
    + intros [? ?]. exists (s, b, a). split; [done|]. by apply Hin.
  - rewrite E. clear. generalize c. induction l as [|[[s b] a] l IH]; intros c'; [done|]. cbn. apply IH.
Qed.

Lemma stree_lazy_intersect_witness :
  LazyIntersect (fun c s a b => c ++ [(a, b)]) sample_tree sample_tree [] = [(3, 3); (1, 1); (4, 4)] /\
  exists calls : list (bytes * Z * Z), NoDup calls /\
    (forall s a b, (s, a, b) ∈ calls <-> (run_map ∅ sample_st_ops).1 !! s = Some a /\ (run_map ∅ sample_st_ops).1 !! s = Some b) /\
    LazyIntersect (fun c s a b => c ++ [(a, b)]) sample_tree sample_tree [] = fold_left (fun c sab => c ++ [(sab.1.2, sab.2)]) calls [].
Proof.
  split; [vm_compute; reflexivity|].
  exact (stree_lazy_intersect sample_tree sample_tree _ _ (fun c s a b => c ++ [(a, b)]) [] sample_tree_ok sample_tree_ok).
Defined.

(** ** Divergences *)

(** The empty subject can be stored and found, and not be deleted. *)
Example empty_subject_stays :
  Find sample_tree [] = Some 4 /\ Delete sample_tree [] = Some (sample_tree, None).
Proof. by vm_compute. Qed.
