(* ===== verification/SubjectTreeMatch.v ===== *)
(** * Subject tree: filters and intersections (src/server/stree/parts.go, stree.go)

    Matching the entries of a tree with a subject that can have wildcards, and with the interest
    of a sublist (src/server/gsl). *)

From Stdlib Require Import Ascii.
From S2P Require Import Prelude SubjectTree Trie Gsl.

Module StreeMatch.
Import Stree.

(** ** Parts of a filter *)

Section genParts.
Variable filter : bytes.
Definition byte_is (i : nat) (c : ascii) : bool := match filter !! i with Some d => Ascii.eqb d c | None => false end.
Definition slice (i j : nat) : bytes := take (j - i) (drop i filter).

(** The loop of [genParts]: the final [start] and the parts so far. *)
Fixpoint genParts_loop (fuel i start : nat) (parts : list bytes) : nat * list bytes :=
  match fuel with
  | O => (start, parts)
  | S fuel =>
      let e := (length filter - 1)%nat in
      if negb (Nat.ltb i (length filter)) then (start, parts)
      else if byte_is i tsep then
        if Nat.ltb i e && byte_is (i + 1) pwc && ((Nat.leb (i + 2) e && byte_is (i + 2) tsep) || Nat.eqb (i + 1) e) then
          let parts := parts ++ (if Nat.ltb start i then [slice start (i + 1)] else []) ++ [slice (i + 1) (i + 2)] in
          let i := (i + 1)%nat in
          let i := if Nat.leb (i + 2) e then (i + 1)%nat else i in
          genParts_loop fuel (i + 1) (i + 1) parts
        else if Nat.ltb i e && byte_is (i + 1) fwc && Nat.eqb (i + 1) e then
          let parts := parts ++ (if Nat.ltb start i then [slice start (i + 1)] else []) ++ [slice (i + 1) (i + 2)] in
          let i := (i + 1)%nat in
          genParts_loop fuel (i + 1) (i + 1) parts
        else genParts_loop fuel (i + 1) start parts
      else if byte_is i pwc || byte_is i fwc then
        if Nat.ltb 0 i && negb (byte_is (i - 1) tsep) then genParts_loop fuel (i + 1) start parts
        else if Nat.eqb (i + 1) e || (Nat.ltb (i + 1) e && negb (byte_is (i + 1) tsep)) then genParts_loop fuel (i + 1) start parts
        else if byte_is i fwc && Nat.ltb i e then (start, parts)
        else
          let parts := parts ++ [slice i (i + 1)] in
          let i := if Nat.leb (i + 1) e then (i + 1)%nat else i in
          genParts_loop fuel (i + 1) (i + 1) parts
      else genParts_loop fuel (i + 1) start parts
  end.

(** Every round moves [i] on. *)
Definition genParts : list bytes :=
  let '(start, parts) := genParts_loop (length filter) 0 0 [] in
  if Nat.ltb start (length filter) then
    let start := if byte_is start tsep then (start + 1)%nat else start in
    parts ++ [drop start filter]
  else parts.
End genParts.

(** [bytes.IndexByte]. *)
Fixpoint IndexByte (s : bytes) (c : ascii) : option nat :=
  match s with
  | [] => None
  | d :: s => if Ascii.eqb d c then Some O else S <$> IndexByte s c
  end.

Definition is_pwc (part : bytes) : bool := match part with [c] => Ascii.eqb c pwc | _ => false end.
Definition is_fwc (part : bytes) : bool := match part with [c] => Ascii.eqb c fwc | _ => false end.

(** The loop of [matchParts] from a part on, with the rest of the fragment; [None] is a mismatch.
    The copy that the code makes of [parts] before it shortens one goes behind the end of the
    slice, where no caller reads, so that it is a new list here. *)
Fixpoint matchParts_loop (parts : list bytes) (frag : bytes) : option (list bytes) :=
  match parts with
  | [] => None
  | part :: rest =>
      let lp := length part in
      if Nat.eqb (length frag) 0 then Some parts
      else if is_pwc part then
        match IndexByte frag tsep with
        | None => match rest with [] => Some [] | _ => Some parts end
        | Some index => matchParts_loop rest (drop (index + 1) frag)
        end
      else if is_fwc part then Some []
      else if negb (bytes_eqb (take (length frag) part) (take lp frag)) then None
      else if Nat.ltb lp (length frag) then matchParts_loop rest (drop lp frag)
      else if Nat.ltb (length frag) lp then Some (drop (length frag) part :: rest)
      else match rest with [] => Some [] | _ => matchParts_loop rest [] end
  end.

Definition matchParts (parts : list bytes) (frag : bytes) : option (list bytes) :=
  if Nat.eqb (length frag) 0 then Some parts else matchParts_loop parts frag.

(** ** Match *)

Definition terminal_fwc (parts : list bytes) : bool :=
  match last parts with Some (c :: _) => Ascii.eqb c fwc | _ => false end.
Definition terminal_pwc (parts : list bytes) : bool :=
  match last parts with Some p => is_pwc p | None => false end.
Definition last_part (parts : list bytes) : list bytes := match last parts with Some p => [p] | None => [] end.

Section match_.
Context {V C : Type} (cb : C -> bytes -> V -> C * bool).

(** What is done with a child of a node where all parts are matched and the last is no [>];
    [walk] is the recursive call. *)
Definition match_end_child (hasTermPWC : bool) (cn : node V) (pre : bytes) (walk : C -> C * bool) (c : C) : C * bool :=
  match cn with
  | leaf suffix v =>
      if Nat.eqb (length suffix) 0 then cb c (pre ++ suffix) v
      else if hasTermPWC && match IndexByte suffix tsep with None => true | _ => false end then cb c (pre ++ suffix) v
      else (c, true)
  | inner _ _ => if hasTermPWC then walk c else (c, true)
  end.

(** [hasFWC] is computed where [match] is called, the loop on [n] keeps it. *)
Fixpoint match_loop (n : node V) (hasFWC : bool) (parts : list bytes) (pre : bytes) (c : C) : C * bool :=
  match n with
  | leaf suffix v =>
      match matchParts parts suffix with
      | None => (c, true)
      | Some nparts =>
          if Nat.eqb (length nparts) 0 || (hasFWC && Nat.eqb (length nparts) 1) then cb c (pre ++ suffix) v else (c, true)
      end
  | inner prefix st =>
      match matchParts parts prefix with
      | None => (c, true)
      | Some nparts =>
          let pre := pre ++ prefix in
          if Nat.eqb (length nparts) 0 && negb hasFWC then
            let hasTermPWC := terminal_pwc parts in
            let nparts := if hasTermPWC then last_part parts else nparts in
            run_all (children (fun cn => match_end_child hasTermPWC cn pre (match_loop cn (terminal_fwc nparts) nparts pre)) st) c
          else
            let nparts := if hasFWC && Nat.eqb (length nparts) 0 then last_part parts else nparts in
            match nparts with
            | [] => (c, true) (* [nparts[0]] out of range; [hasFWC] is set only with a last part *)
            | fp :: _ =>
                if is_pwc fp || is_fwc fp then
                  run_all (children (fun cn => match_loop cn (terminal_fwc nparts) nparts pre) st) c
                else
                  match findChild (fun cn => match_loop cn hasFWC nparts pre c) st (pivot fp) with
                  | Some r => r
                  | None => (c, true)
                  end
            end
      end
  end.

Definition match_ (n : node V) (parts : list bytes) (pre : bytes) (c : C) : C * bool :=
  match_loop n (terminal_fwc parts) parts pre c.

Definition MatchUntil (t : SubjectTree V) (filter : bytes) (c : C) : C * bool :=
  match root t with
  | Some n => if Nat.eqb (length filter) 0 then (c, true) else match_ n (genParts filter) [] c
  | None => (c, true)
  end.
End match_.

Definition Match {V C : Type} (cb : C -> bytes -> V -> C) (t : SubjectTree V) (filter : bytes) (c : C) : C :=
  match root t with
  | Some n => if Nat.eqb (length filter) 0 then c else (match_ (fun c s v => (cb c s v, true)) n (genParts filter) [] c).1
  | None => c
  end.

(** ** Intersection with a sublist *)

Section gsl.
Context {V C T : Type} `{Countable T} (sl : Gsl.GenericSublist T) (cb : C -> bytes -> V -> C).

Definition bytesToString (b : bytes) : string := String.string_of_list_ascii b.

(** The loop of [hasInterestForTokens]: [done] is [subj[:i]]. *)
Fixpoint hasInterest_loop (done rest : bytes) : bool :=
  match rest with
  | [] => true
  | c :: rest =>
      if Ascii.eqb c tsep && negb (Gsl.HasInterestStartingIn sl (bytesToString done)) then false
      else hasInterest_loop (done ++ [c]) rest
  end.

Definition hasInterestForTokens (subj : bytes) (since : nat) : bool := hasInterest_loop (take since subj) (drop since subj).

Fixpoint intersectGSL (n : node V) (pre : bytes) (c : C) : C :=
  match n with
  | leaf suffix v =>
      let subj := pre ++ suffix in
      if Gsl.HasInterest sl (bytesToString subj) then cb c subj v else c
  | inner prefix st =>
      let pre := pre ++ prefix in
      fold_left (fun c f => f c)
        (children (fun cn c => if hasInterestForTokens (pre ++ path cn) (length pre) then intersectGSL cn pre c else c) st) c
  end.

Definition IntersectGSL (t : SubjectTree V) (c : C) : C :=
  match root t with Some n => intersectGSL n [] c | None => c end.
End gsl.
End StreeMatch.
