(* ===== verification/SubjectTreeMatchProofs.v ===== *)
(** * Subject tree: filters, what a list of parts matches

    The meaning of the parts of a filter, what [matchParts] and the walk of [match] do with them,
    and the parts that [genParts] makes of the tokens of a filter. *)

From Stdlib Require Import Ascii.
From S2P Require Import Prelude SubjectTree SubjectTreeStore SubjectTreeProofs SubjectTreeSpec SubjectTreeMatch.
Import Stree StreeMatch.

#[local] Opaque kmap addChild deleteChild set_child grow isFull numChildren findChild kids_of.

(** ** Parts *)

(** The subjects that a list of parts matches. *)
Fixpoint parts_match (parts : list bytes) (s : bytes) : bool :=
  match parts with
  | [] => bool_decide (s = [])
  | part :: rest =>
      if is_pwc part then
        match IndexByte s tsep with
        | None => bool_decide (s <> []) && bool_decide (rest = [])
        | Some k => bool_decide (rest <> []) && parts_match rest (drop (k + 1) s)
        end
      else if is_fwc part then true
      else bool_decide (part `prefix_of` s) && parts_match rest (drop (length part) s)
  end.

Definition no_wild (s : bytes) : Prop := pwc ∉ s /\ fwc ∉ s.

(** A part is a wildcard, [>] at the end only, or bytes without wildcards. *)
Definition part_ok (part : bytes) (rest : list bytes) : Prop :=
  part = [pwc] \/ (part = [fwc] /\ rest = []) \/ (part <> [] /\ no_wild part).

Fixpoint parts_ok (parts : list bytes) : Prop :=
  match parts with [] => True | part :: rest => part_ok part rest /\ parts_ok rest end.

Lemma no_wild_not_wc part : no_wild part -> is_pwc part = false /\ is_fwc part = false.
Proof.
  intros [H1 H2]. destruct part as [|c [|d part]]; [done| |done]. cbn.
  split; apply Ascii.eqb_neq; intros ->; set_solver.
Qed.

Lemma IndexByte_None s c : IndexByte s c = None <-> c ∉ s.
Proof.
  induction s as [|d s IH]; cbn; [set_solver|]. destruct (Ascii.eqb_spec d c) as [->|Hne]; [set_solver|].
  rewrite fmap_None, IH. set_solver.
Qed.
Lemma IndexByte_Some s c k : IndexByte s c = Some k <-> exists a b, s = a ++ c :: b /\ c ∉ a /\ length a = k.
Proof.
  revert k. induction s as [|d s IH]; intros k; cbn.
  - split; [done|]. by intros ([|? ?]&?&?&_).
  - destruct (Ascii.eqb_spec d c) as [->|Hne].
    + split; [intros [= <-]; exists [], s; set_solver|]. intros (a&b&E&Hn&<-). destruct a as [|x a]; [done|]. injection E as -> ->. set_solver.
    + rewrite fmap_Some. split.
      * intros (k'&(a&b&->&Hn&<-)%IH&->). exists (d :: a), b. set_solver.
      * intros (a&b&E&Hn&<-). destruct a as [|x a]; injection E as -> ->; [done|]. exists (length a). split; [|done]. apply IH. exists a, b. set_solver.
Qed.

Lemma IndexByte_app_None s t c : IndexByte s c = None -> IndexByte (s ++ t) c = (fun k => length s + k)%nat <$> IndexByte t c.
Proof.
  induction s as [|d s IH]; cbn; [by rewrite option_fmap_id|]. destruct (Ascii.eqb d c); [done|]. intros H%fmap_None.
  rewrite (IH H). by destruct (IndexByte t c).
Qed.
Lemma IndexByte_app_Some s t c k : IndexByte s c = Some k -> IndexByte (s ++ t) c = Some k /\ (k < length s)%nat.
Proof.
  intros (a&b&->&Hn&<-)%IndexByte_Some. split; [|rewrite length_app; cbn; lia].
  apply IndexByte_Some. exists a, (b ++ t). by rewrite <- (assoc_L (++)).
Qed.

(** What remains to be checked when all parts are used: no further token after a final [*],
    anything after a final [>], nothing after the bytes of a last part. *)
Definition end_match (part : bytes) (s : bytes) : bool :=
  if is_pwc part then bool_decide (tsep ∉ s) else is_fwc part || bool_decide (s = []).

Lemma last_cons_not_nil {A} (x : A) l : l <> [] -> last (x :: l) = last l.
Proof. by destruct l. Qed.

(** [matchParts] on a piece [frag] of the subject. *)
Definition matched (parts : list bytes) (frag : bytes) (r : option (list bytes)) : Prop :=
  match r with
  | None => forall s, parts_match parts (frag ++ s) = false
  | Some [] => exists p, last parts = Some p /\ forall s, parts_match parts (frag ++ s) = end_match p s
  | Some rest => parts_ok rest /\ terminal_fwc rest = terminal_fwc parts /\
      forall s, parts_match parts (frag ++ s) = parts_match rest s
  end.

Lemma matched_skip part rest frag frag' r : rest <> [] ->
  (forall s, parts_match (part :: rest) (frag ++ s) = parts_match rest (frag' ++ s)) -> matched rest frag' r -> matched (part :: rest) frag r.
Proof.
  intros Hr H. unfold matched. rewrite (last_cons_not_nil part rest Hr). destruct r as [[|p l]|].
  - intros (q&Hq&Hm). exists q. split; [done|]. intros s. by rewrite H.
  - intros (?&Hf&Hm). split_and!; [done| |intros s; by rewrite H].
    unfold terminal_fwc. by rewrite (last_cons_not_nil part rest Hr).
  - intros Hm s. by rewrite H.
Qed.

Lemma terminal_fwc_last part part' rest : rest <> [] \/ (no_wild part /\ no_wild part') ->
  terminal_fwc (part' :: rest) = terminal_fwc (part :: rest).
Proof.
  intros H. unfold terminal_fwc. destruct rest as [|q rest]; [|done]. destruct H as [H|[[_ H1] [_ H2]]]; [done|]. cbn.
  destruct part as [|c part], part' as [|d part']; try done; symmetry; rewrite ?(proj2 (Ascii.eqb_neq d fwc)), ?(proj2 (Ascii.eqb_neq c fwc)); set_solver.
Qed.

(** A part of bytes. *)
Lemma matched_bytes part rest frag : part <> [] -> no_wild part -> parts_ok rest -> frag <> [] ->
  (forall frag', frag' <> [] -> matched rest frag' (matchParts_loop rest frag')) ->
  matched (part :: rest) frag (matchParts_loop (part :: rest) frag).
Proof.
  intros Hp Hw Hrest Hf IH. destruct (no_wild_not_wc part Hw) as [E1 E2]. cbn [matchParts_loop]. rewrite E1, E2.
  destruct (Nat.eqb_spec (length frag) 0) as [E|_]; [by destruct frag|].
  destruct (bytes_eqb _ _) eqn:E; cbn [negb].
  2: { apply bytes_eqb_false in E. intros s. cbn [parts_match]. rewrite E1, E2. rewrite bool_decide_eq_false_2; [done|].
    intros [k Hk]. apply E. apply (f_equal (fun l => take (length frag `min` length part) l)) in Hk.
    rewrite <- !take_take, take_app_length, take_take, Nat.min_comm, <- take_take, take_app_length in Hk. done. }
  apply bytes_eqb_true in E. destruct (Nat.ltb_spec (length part) (length frag)) as [Hl|Hl].
  - rewrite take_ge in E by lia.
    assert (frag = part ++ drop (length part) frag) as Hfr by (rewrite E at 1; by rewrite take_drop).
    assert (drop (length part) frag <> []) as Hd by (intros Hd%(f_equal length); rewrite length_drop in Hd; cbn in Hd; lia).
    set (f' := drop (length part) frag) in *. clearbody f'. subst frag.
    assert (forall s, parts_match (part :: rest) ((part ++ f') ++ s) = parts_match rest (f' ++ s)) as Hm.
    { intros s. cbn [parts_match]. rewrite E1, E2, <- (assoc_L (++)), bool_decide_eq_true_2 by (by eexists). by rewrite drop_app_length. }
    destruct (decide (rest = [])) as [->|Hr]; [|apply (matched_skip part rest _ f'); [done|done|by apply IH]].
    intros s. rewrite Hm. by destruct f'.
  - destruct (Nat.ltb_spec (length frag) (length part)) as [Hl'|Hl'].
    + assert (part = frag ++ drop (length frag) part) as Hpt by (rewrite (take_ge frag) in E by lia; rewrite <- (take_drop (length frag) part) at 1; by rewrite E).
      assert (drop (length frag) part <> []) as Hd by (intros Hd%(f_equal length); rewrite length_drop in Hd; cbn in Hd; lia).
      set (p' := drop (length frag) part) in *. clearbody p'. subst part.
      assert (no_wild p') as Hw' by (destruct Hw; split; set_solver). destruct (no_wild_not_wc p' Hw') as [E3 E4].
      split_and!; [split; [by right; right|done]|apply terminal_fwc_last; by right|].
      intros s. cbn [parts_match]. rewrite E1, E2, E3, E4, length_app, <- drop_drop, drop_app_length. f_equal.
      apply bool_decide_ext. split; [apply prefix_app_inv|apply prefix_app].
    + assert (part = frag) as -> by (rewrite (take_ge part), (take_ge frag) in E by lia; done). assert (forall s, parts_match (frag :: rest) (frag ++ s) = parts_match rest s) as Hm.
      { intros s. cbn [parts_match]. rewrite E1, E2, bool_decide_eq_true_2 by (by eexists). by rewrite drop_app_length. }
      destruct rest as [|q rest]; [exists frag; split; [done|]; intros s; rewrite Hm; unfold end_match; by rewrite E1, E2|].
      cbn [matchParts_loop length Nat.eqb]. by split_and!.
Qed.

Lemma matchParts_loop_ok parts : parts_ok parts -> parts <> [] -> forall frag, frag <> [] ->
  matched parts frag (matchParts_loop parts frag).
Proof.
  induction parts as [|part rest IH]; [done|]. intros [Hp Hrest] _ frag Hf.
  assert (forall frag', frag' <> [] -> matched rest frag' (matchParts_loop rest frag')) as IH'.
  { intros frag' Hf'. destruct (decide (rest = [])) as [->|Hr]; [|by apply IH]. intros s. cbn. by destruct frag'. }
  destruct Hp as [->|[[-> ->]|[Hn Hw]]]; [| |by apply matched_bytes].
  - cbn [matchParts_loop is_pwc]. replace (Ascii.eqb pwc pwc) with true by done. destruct (Nat.eqb_spec (length frag) 0) as [E|_]; [by destruct frag|].
    destruct (IndexByte frag tsep) as [k|] eqn:E.
    + destruct (IndexByte_app_Some frag [] tsep k E) as [_ Hk].
      assert (forall s, parts_match ([pwc] :: rest) (frag ++ s) = bool_decide (rest <> []) && parts_match rest (drop (k + 1) frag ++ s)) as Hm.
      { intros s. cbn [parts_match is_pwc]. replace (Ascii.eqb pwc pwc) with true by done. destruct (IndexByte_app_Some frag s tsep k E) as [-> _].
        by rewrite drop_app_le by lia. }
      destruct (decide (rest = [])) as [->|Hr]; [by intros s; rewrite Hm|].
      apply (matched_skip _ _ _ (drop (k + 1) frag)); [done|intros s; rewrite Hm; by rewrite bool_decide_eq_true_2|].
      destruct (decide (drop (k + 1) frag = [])) as [->|Hd]; [|by apply IH'].
      destruct rest as [|q rest]; [done|]. cbn [matchParts_loop length Nat.eqb]. by split_and!.
    + assert (forall s, parts_match ([pwc] :: rest) (frag ++ s) = match IndexByte s tsep with None => bool_decide (rest = []) | Some k => bool_decide (rest <> []) && parts_match rest (drop (k + 1) s) end) as Hm.
      { intros s. cbn [parts_match is_pwc]. replace (Ascii.eqb pwc pwc) with true by done. rewrite (IndexByte_app_None _ _ _ E).
        destruct (IndexByte s tsep) as [k|]; cbn [fmap option_fmap option_map]; [by rewrite <- Nat.add_assoc, <- drop_drop, drop_app_length|].
        rewrite bool_decide_eq_true_2; [done|]. by destruct frag. }
      destruct rest as [|q rest].
      * exists [pwc]. split; [done|]. intros s. rewrite Hm. unfold end_match. cbn [is_pwc]. replace (Ascii.eqb pwc pwc) with true by done.
        destruct (IndexByte s tsep) eqn:Ei; symmetry; [|by apply bool_decide_eq_true_2, IndexByte_None].
        apply bool_decide_eq_false_2. rewrite <- IndexByte_None. congruence.
      * split_and!; [split; [by left|done]|done|]. intros s. rewrite Hm. cbn [parts_match is_pwc]. replace (Ascii.eqb pwc pwc) with true by done.
        destruct (IndexByte s tsep); [done|]. by rewrite andb_comm.
  - cbn [matchParts_loop]. destruct (Nat.eqb_spec (length frag) 0) as [E|_]; [by destruct frag|]. by exists [fwc].
Qed.

Lemma matchParts_ok parts frag : parts_ok parts -> parts <> [] -> matched parts frag (matchParts parts frag).
Proof.
  intros H Hn. unfold matchParts. destruct (Nat.eqb_spec (length frag) 0) as [E|E]; [|apply matchParts_loop_ok; [done|done|by intros ->]].
  destruct frag; [|done]. destruct parts; [done|]. by split_and!.
Qed.

(** ** The walk *)

Lemma parts_match_nil parts : parts_ok parts -> parts <> [] ->
  parts_match parts [] = terminal_fwc parts && Nat.eqb (length parts) 1.
Proof.
  destruct parts as [|part rest]; [done|]. intros [[->|[[-> ->]|[Hn Hw]]] _] _; [|done|].
  - cbn [parts_match is_pwc IndexByte]. replace (Ascii.eqb pwc pwc) with true by done. rewrite bool_decide_eq_false_2 by (by intros []).
    destruct rest as [|q rest]; [done|]. cbn [length Nat.eqb]. symmetry; apply andb_false_r.
  - destruct (no_wild_not_wc part Hw) as [E1 E2]. cbn [parts_match]. rewrite E1, E2, bool_decide_eq_false_2 by (intros ?%prefix_nil_inv; done).
    destruct rest as [|q rest]; [|symmetry; apply andb_false_r]. unfold terminal_fwc. cbn. destruct part as [|c part]; [done|].
    rewrite (proj2 (Ascii.eqb_neq c fwc)); [done|]. intros ->. destruct Hw. set_solver.
Qed.

Lemma end_match_nil p : end_match p [] = true.
Proof. unfold end_match. destruct (is_pwc p); [by apply bool_decide_eq_true_2, not_elem_of_nil|]. by rewrite bool_decide_eq_true_2, orb_true_r. Qed.

(** [filter] with a test on the subject. *)
Definition sel {V} (f : bytes -> bool) (l : list (bytes * V)) : list (bytes * V) := filter (fun e => f e.1 = true) l.

Lemma sel_ext {V} (f g : bytes -> bool) (l : list (bytes * V)) : (forall s v, (s, v) ∈ l -> f s = g s) -> sel f l = sel g l.
Proof.
  unfold sel. induction l as [|[s v] l IH]; intros H; [done|]. rewrite !filter_cons. cbn.
  rewrite (H s v) by set_solver. rewrite IH by (intros; eapply H, list_elem_of_further; eassumption). done.
Qed.
Lemma sel_prefix {V} f p (l : list (bytes * V)) : sel f (prod_map (p ++.) id <$> l) = prod_map (p ++.) id <$> sel (fun s => f (p ++ s)) l.
Proof.
  unfold sel. induction l as [|[s v] l IH]; [done|]. rewrite fmap_cons, !filter_cons. cbn [fst prod_map].
  case_decide; cbn; by rewrite IH.
Qed.
Lemma sel_concat {V} f (ll : list (list (bytes * V))) : sel f (concat ll) = concat (sel f <$> ll).
Proof. induction ll as [|l ll IH]; [done|]. cbn [concat fmap list_fmap]. rewrite <- IH. apply filter_app. Qed.
Lemma sel_all {V} f (l : list (bytes * V)) : (forall s v, (s, v) ∈ l -> f s = true) -> sel f l = l.
Proof.
  unfold sel. induction l as [|[s v] l IH]; intros H; [done|]. rewrite filter_cons_True by (eapply H, list_elem_of_here).
  by rewrite IH by (intros; eapply H, list_elem_of_further; eassumption).
Qed.
Lemma sel_none {V} f (l : list (bytes * V)) : (forall s v, (s, v) ∈ l -> f s = false) -> sel f l = [].
Proof.
  unfold sel. induction l as [|[s v] l IH]; intros H; [done|]. rewrite filter_cons_False.
  - apply IH. intros; eapply H, list_elem_of_further; eassumption.
  - cbn. rewrite (H s v) by set_solver. done.
Qed.

Lemma concat_one {A B} (f : A -> list B) (l l' : list A) x : l ≡ₚ x :: l' -> (forall y, y ∈ l' -> f y = []) -> concat (f <$> l) = f x.
Proof.
  intros Hp Hn. assert (x ∈ l) as (l1&l2&->)%list_elem_of_split by (rewrite Hp; set_solver).
  assert (l1 ++ l2 ≡ₚ l') as Hp' by (apply (Permutation_cons_inv (a := x)); rewrite <- Hp; by rewrite Permutation_middle).
  assert (forall k, k ⊆ l1 ++ l2 -> concat (f <$> k) = []) as Hk.
  { induction k as [|y k IH]; intros Hs; [done|]. cbn [fmap list_fmap concat]. rewrite IH by set_solver.
    rewrite (Hn y); [done|]. rewrite <- Hp'. set_solver. }
  rewrite fmap_app, concat_app, fmap_cons. cbn [concat]. rewrite (Hk l1), (Hk l2) by set_solver. by rewrite app_nil_r.
Qed.

Section walk.
Context {V C : Type} (cb : C -> bytes -> V -> C * bool).
Implicit Types (n ch : node V) (st : store (node V)).

Lemma run_all_children (g : node V -> C -> C * bool) (h : node V -> list (bytes * V)) st pre :
  (forall ch, ch ∈ children id st -> forall c, g ch c = visit cb (prod_map (pre ++.) id <$> h ch) c) ->
  forall c, run_all (children g st) c = visit cb (prod_map (pre ++.) id <$> concat (children h st)) c.
Proof.
  rewrite (children_map g), (children_map h). induction (children id st) as [|ch l IH]; intros H c; [done|].
  cbn [fmap list_fmap run_all concat]. rewrite H by set_solver. rewrite fmap_app, st_visit_app.
  destruct (visit _ _ c) as [c' []]; [|done]. apply IH. intros; apply H; set_solver.
Qed.

(** The entries below a node have subjects with its path as a prefix. *)
Lemma entries_path ch s v : (s, v) ∈ entries ch -> path ch `prefix_of` s.
Proof.
  destruct ch as [s0 v0|p st]; cbn.
  - intros [= -> ->]%list_elem_of_singleton. done.
  - intros ([s' v']&[= -> ->]&_)%list_elem_of_fmap. by exists s'.
Qed.

Lemma child_entry st c ch s v : kmap st !! c = Some ch -> child_at c ch -> (s, v) ∈ entries ch ->
  pivot s = c /\ (match ch with inner _ _ => s <> [] | leaf s' v' => s = s' /\ v = v' end).
Proof.
  intros _ [Hp Hn] He. pose proof (entries_path _ _ _ He) as [k ->]. destruct ch as [s0 v0|p st'].
  - cbn in *. apply list_elem_of_singleton in He as [= E ->]. by rewrite E.
  - cbn in *. destruct p; [done|]. done.
Qed.

Definition walks_ok n : Prop := forall parts pre c, parts_ok parts -> parts <> [] ->
  match_loop cb n (terminal_fwc parts) parts pre c = visit cb (prod_map (pre ++.) id <$> sel (parts_match parts) (entries n)) c.

Lemma visit_leaf (b : bool) pre s v c :
  visit cb (prod_map (pre ++.) id <$> sel (fun _ => b) [(s, v)]) c = if b then cb c (pre ++ s) v else (c, true).
Proof. unfold sel. destruct b; [|done]. rewrite filter_cons_True, filter_nil by done. cbn [fmap list_fmap visit prod_map id]. cbn [fst snd]. by destruct (cb c (pre ++ s) v) as [? []]. Qed.

Lemma leaf_walk s v : walks_ok (leaf s v).
Proof.
  intros parts pre c Hp Hn. cbn [match_loop entries].
  rewrite (sel_ext _ (fun _ => parts_match parts s)), visit_leaf by (by intros ? ? [= -> ->]%list_elem_of_singleton).
  pose proof (matchParts_ok parts s Hp Hn) as H. destruct (matchParts parts s) as [[|q rest]|]; cbn [matched] in H.
  - destruct H as (p&_&H). specialize (H []). rewrite app_nil_r, end_match_nil in H. by rewrite H.
  - destruct H as (Ho&Hf&H). specialize (H []). rewrite app_nil_r, parts_match_nil in H by done. rewrite Hf in H. rewrite H.
    cbn [length Nat.eqb orb]. done.
  - specialize (H []). rewrite app_nil_r in H. by rewrite H.
Qed.

(** The children of a node where the parts are used up. *)
Lemma end_walk st pre p c : store_ok st -> is_fwc p = false ->
  (forall c ch, kmap st !! c = Some ch -> walks_ok ch) -> (forall c ch, kmap st !! c = Some ch -> child_at c ch) ->
  run_all (children (fun cn => match_end_child cb (is_pwc p) cn pre (match_loop cb cn (terminal_fwc [p]) [p] pre)) st) c =
  visit cb (prod_map (pre ++.) id <$> concat (children (fun cn => sel (end_match p) (entries cn)) st)) c.
Proof.
  intros Hst Hf IH Hat. apply run_all_children. intros ch [x Hx]%elem_of_children c'; [|done]. unfold end_match. rewrite Hf. cbn [orb].
  destruct ch as [s v|p' st']; cbn [match_end_child].
  - cbn [entries]. rewrite (sel_ext _ (fun _ => if is_pwc p then bool_decide (tsep ∉ s) else bool_decide (s = []))), visit_leaf
      by (by intros ? ? [= -> ->]%list_elem_of_singleton).
    destruct (Nat.eqb_spec (length s) 0) as [E|E].
    + destruct s; [|done]. destruct (is_pwc p); [rewrite bool_decide_eq_true_2 by apply not_elem_of_nil|]; done.
    + destruct (is_pwc p); cbn [andb]; [|by rewrite bool_decide_eq_false_2 by (by intros ->)].
      destruct (IndexByte s tsep) eqn:Ei; [|by rewrite bool_decide_eq_true_2 by (by apply IndexByte_None)].
      rewrite bool_decide_eq_false_2; [done|]. rewrite <- IndexByte_None. congruence.
  - assert (forall s v, (s, v) ∈ entries (inner p' st') -> s <> []) as Hne.
    { intros s v Hs. by apply (child_entry st x _ s v Hx (Hat _ _ Hx)) in Hs as [_ ?]. }
    destruct (is_pwc p) eqn:Ep.
    + assert (p = [pwc]) as -> by (destruct p as [|d [|? ?]]; [done| |done]; cbn in Ep; by apply Ascii.eqb_eq in Ep as ->).
      rewrite (IH x _ Hx [[pwc]] pre c') by (done || (split; [by left|done])). do 2 f_equal. apply sel_ext. intros s v Hs. cbn [parts_match is_pwc].
      replace (Ascii.eqb pwc pwc) with true by done. destruct (IndexByte s tsep) eqn:Ei.
      * rewrite (bool_decide_eq_false_2 (tsep ∉ s)); [done|]. rewrite <- IndexByte_None. congruence.
      * rewrite (bool_decide_eq_true_2 (tsep ∉ s)), (bool_decide_eq_true_2 (s <> [])); [done|by eapply Hne|by apply IndexByte_None].
    + rewrite sel_none; [done|]. intros s v Hs. apply bool_decide_eq_false_2. by eapply Hne.
Qed.

Lemma sel_children f st : sel f (concat (children entries st)) = concat (children (fun cn : node V => sel f (entries cn)) st).
Proof. rewrite sel_concat, (children_map entries), (children_map (fun cn => sel f (entries cn))), <- list_fmap_compose. done. Qed.

(** The children of a node that all can have matching entries. *)
Lemma all_walk st pre parts c : store_ok st -> parts_ok parts -> parts <> [] -> (forall c ch, kmap st !! c = Some ch -> walks_ok ch) ->
  run_all (children (fun cn => match_loop cb cn (terminal_fwc parts) parts pre) st) c =
  visit cb (prod_map (pre ++.) id <$> sel (parts_match parts) (concat (children entries st))) c.
Proof.
  intros Hst Hp Hn IH. rewrite sel_children. apply run_all_children. intros ch [x Hx]%elem_of_children c'; [|done]. by apply (IH x).
Qed.

(** The child that can have entries that begin with the bytes of a part. *)
Lemma one_walk st pre fp rest c : store_ok st -> parts_ok (fp :: rest) -> is_pwc fp = false -> is_fwc fp = false ->
  (forall c ch, kmap st !! c = Some ch -> walks_ok ch) -> (forall c ch, kmap st !! c = Some ch -> child_at c ch) ->
  match findChild (fun cn => match_loop cb cn (terminal_fwc (fp :: rest)) (fp :: rest) pre c) st (pivot fp) with Some r => r | None => (c, true) end =
  visit cb (prod_map (pre ++.) id <$> sel (parts_match (fp :: rest)) (concat (children entries st))) c.
Proof.
  intros Hst Hp E1 E2 IH Hat. assert (fp <> []) as Hfp by (destruct Hp as [[->|[[-> _]|[? _]]] _]; done).
  assert (forall x ch s v, kmap st !! x = Some ch -> (s, v) ∈ entries ch -> x <> pivot fp -> parts_match (fp :: rest) s = false) as Hno.
  { intros x ch s v Hx Hs Hne. cbn [parts_match]. rewrite E1, E2, bool_decide_eq_false_2; [done|]. intros [k ->].
    apply (child_entry st x ch _ _ Hx (Hat _ _ Hx)) in Hs as [Hs _]. by destruct fp. }
  rewrite findChild_ok, sel_children, (children_map (fun cn => sel _ (entries cn))).
  assert (children id st ≡ₚ (kids_of st).*2) as Hk by (by rewrite (children_perm id st Hst), list_fmap_id).
  destruct (kmap st !! pivot fp) as [ch|] eqn:E; cbn [fmap option_fmap option_map].
  - pose proof E as Hin%(kids_kmap st _ _ Hst). apply elem_of_Permutation in Hin as [l Hl]. rewrite Hl in Hk.
    rewrite (concat_one _ _ _ _ Hk); [by apply (IH (pivot fp))|]. intros y ([x y']&->&Hy)%list_elem_of_fmap. cbn [snd].
    assert (kmap st !! x = Some y') as Hx by (apply (kids_kmap st x y' Hst); rewrite Hl; set_solver).
    apply sel_none. intros s v Hs. eapply Hno; [done|done|]. intros ->.
    assert (NoDup (kids_of st).*1) as Hnd by (by apply kids_NoDup). rewrite Hl in Hnd. apply NoDup_cons in Hnd as [Hnd _]. apply Hnd.
    apply list_elem_of_fmap. by exists (pivot fp, y').
  - assert (forall l, l ⊆ children id st -> concat ((fun cn => sel (parts_match (fp :: rest)) (entries cn)) <$> l) = []) as ->; [|done|done].
    induction l as [|ch l IHl]; intros Hl; [done|]. cbn [fmap list_fmap concat]. rewrite IHl by set_solver.
    assert (ch ∈ children id st) as [x Hx]%elem_of_children by set_solver; [|done]. rewrite sel_none; [done|]. intros s v Hs.
    eapply Hno; [done|done|congruence].
Qed.

Lemma last_fwc parts q : parts_ok parts -> last parts = Some q -> terminal_fwc parts = is_fwc q.
Proof.
  unfold terminal_fwc. intros Hp Hl. rewrite Hl. induction parts as [|part rest IH]; [done|]. destruct Hp as [Hp Hr].
  destruct rest as [|r rest]; [|by apply IH]. injection Hl as ->. destruct Hp as [->|[[-> _]|[Hn Hw]]]; [done|done|].
  destruct q as [|c [|d q]]; [done|done|]. cbn. apply Ascii.eqb_neq. intros ->. destruct Hw. set_solver.
Qed.

Lemma inner_walk p st : store_ok st -> (forall c ch, kmap st !! c = Some ch -> walks_ok ch) ->
  (forall c ch, kmap st !! c = Some ch -> child_at c ch) -> walks_ok (inner p st).
Proof.
  intros Hst IH Hat parts pre c Hp Hn. cbn [match_loop entries]. rewrite sel_prefix, prod_map_app.
  pose proof (matchParts_ok parts p Hp Hn) as H. destruct (matchParts parts p) as [[|fp rest]|]; cbn [matched] in H.
  - destruct H as (q&Hq&H). rewrite (sel_ext _ (end_match q)) by (intros; apply H). pose proof (last_fwc parts q Hp Hq) as Hf.
    unfold terminal_pwc, last_part. rewrite Hq, Hf. cbn [length Nat.eqb]. destruct (is_fwc q) eqn:Eq; cbn [negb andb].
    + assert (q = [fwc]) as -> by (destruct q as [|d [|? ?]]; [done| |done]; cbn in Eq; by apply Ascii.eqb_eq in Eq as ->).
      cbn [is_pwc is_fwc]. replace (Ascii.eqb fwc pwc || Ascii.eqb fwc fwc) with true by done.
      rewrite all_walk by (done || (split; [by right; left|done])). done.
    + rewrite sel_children, <- (end_walk st _ q) by done. rewrite !(children_map (fun cn => match_end_child _ _ _ _ _)). f_equal.
      apply list_fmap_ext. intros _ [s v|p' st'] _; cbn [match_end_child]; by destruct (is_pwc q).
  - destruct H as (Ho&Hf&H). rewrite (sel_ext _ (parts_match (fp :: rest))) by (intros; apply H). cbn [length Nat.eqb]. rewrite andb_false_r. cbn [andb].
    destruct (is_pwc fp) eqn:E1; [by apply all_walk|]. destruct (is_fwc fp) eqn:E2; [by apply all_walk|]. cbn [orb].
    rewrite <- Hf. by apply one_walk.
  - rewrite sel_none; [done|]. intros; apply H.
Qed.

Lemma match_walk n : node_ok n -> walks_ok n.
Proof. induction 1 as [s v _|p st _ Hst _ _ IH Hat]; [apply leaf_walk|by apply inner_walk]. Qed.
End walk.
