(* ===== verification/SubjectTreeFilter.v ===== *)
(** * Subject tree: from the tokens of a filter to its parts

    [genParts] on a filter that is a sequence of tokens, and what its parts match. *)

From Stdlib Require Import Ascii.
From S2P Require Import Prelude SubjectTree SubjectTreeProofs SubjectTreeMatch SubjectTreeMatchProofs.
Import Stree StreeMatch.

(** Tokens separated by dots. *)
Fixpoint join (toks : list bytes) : bytes :=
  match toks with [] => [] | [t] => t | t :: ts => t ++ tsep :: join ts end.

Lemma join_cons t ts : ts <> [] -> join (t :: ts) = t ++ tsep :: join ts.
Proof. by destruct ts. Qed.

Definition wild (t : bytes) : bool := is_pwc t || is_fwc t.

(** A token of a subject, and one of a filter: a wildcard, [>] at the end only, or without wildcards. *)
Definition plain (t : bytes) : Prop := t <> [] /\ tsep ∉ t.
Definition filter_tok (t : bytes) : Prop := t = [pwc] \/ t = [fwc] \/ (plain t /\ no_wild t).
Fixpoint filter_toks (toks : list bytes) : Prop :=
  match toks with [] => True | t :: ts => filter_tok t /\ (t = [fwc] -> ts = []) /\ filter_toks ts end.

(** The parts of a sequence of tokens, after the bytes [cur] of a part. *)
Fixpoint tok_parts (cur : option bytes) (toks : list bytes) : list bytes :=
  match toks with
  | [] => match cur with Some cur => [cur] | None => [] end
  | t :: ts =>
      match cur with
      | None => if wild t then t :: tok_parts None ts else tok_parts (Some t) ts
      | Some cur => if wild t then (cur ++ [tsep]) :: t :: tok_parts None ts else tok_parts (Some (cur ++ tsep :: t)) ts
      end
  end.

Lemma filter_tok_cases t : filter_tok t -> ((t = [pwc] \/ t = [fwc]) /\ wild t = true) \/ (plain t /\ no_wild t /\ wild t = false).
Proof.
  intros [->|[->|[Hp Hw]]]; [left; split; [by left|done]|left; split; [by right|done]|].
  right. split_and!; [done|done|]. unfold wild. by destruct (no_wild_not_wc t Hw) as [-> ->].
Qed.

Lemma filter_tok_not_nil t : filter_tok t -> t <> [].
Proof. by intros [->|[->|[[? _] _]]]. Qed.
Lemma join_not_nil toks : filter_toks toks -> toks <> [] -> join toks <> [].
Proof.
  destruct toks as [|t [|t' ts]]; [done| |]; intros [Ht _] _; [by apply filter_tok_not_nil|].
  cbn. by destruct t.
Qed.

(** ** genParts *)

Section gen.
Variable f : bytes.
Notation at_is := (byte_is f).

Lemma byte_is_app a c b i d : f = a ++ c :: b -> i = length a -> at_is i d = Ascii.eqb c d.
Proof. intros -> ->. unfold byte_is. by rewrite list_lookup_middle. Qed.

Lemma slice_app a b c i j : f = a ++ b ++ c -> i = length a -> j = (length a + length b)%nat -> slice f i j = b.
Proof. intros -> -> ->. unfold slice. rewrite drop_app_length, take_app_le by lia. apply take_ge. lia. Qed.

(** The loop passes over bytes that are neither separators nor wildcards. *)
Lemma scan b : forall fuel a c start parts, f = a ++ b ++ c -> tsep ∉ b -> no_wild b ->
  genParts_loop f (length b + fuel) (length a) start parts = genParts_loop f fuel (length a + length b) start parts.
Proof.
  induction b as [|x b IH]; intros fuel a c start parts Hf Ht [Hw1 Hw2]; [by rewrite Nat.add_0_r|].
  cbn [length Nat.add genParts_loop]. destruct (Nat.ltb_spec (length a) (length f)) as [_|Hl].
  2: { rewrite Hf, length_app in Hl. cbn in Hl. lia. }
  cbn [negb]. rewrite !(byte_is_app a x (b ++ c) (length a)) by done.
  rewrite !(proj2 (Ascii.eqb_neq x _)) by set_solver. cbn [orb].
  replace (length a + 1)%nat with (length (a ++ [x])) by (rewrite length_app; done).
  rewrite (IH fuel (a ++ [x]) c) by (set_solver || (split; set_solver) || (rewrite Hf; by rewrite <- (assoc_L (++)))).
  rewrite length_app. cbn [length]. f_equal. lia.
Qed.

(** The end of [genParts], after the loop. *)
Definition finish (r : nat * list bytes) : list bytes :=
  let '(start, parts) := r in
  if Nat.ltb start (length f) then parts ++ [drop (if at_is start tsep then (start + 1)%nat else start) f] else parts.

Lemma loop_end fuel i start parts : (length f <= i)%nat -> genParts_loop f fuel i start parts = (start, parts).
Proof. intros H. destruct fuel; [done|]. cbn [genParts_loop]. destruct (Nat.ltb_spec i (length f)); [lia|done]. Qed.

(** At the start of a token with no open part, and at the end of an open part. *)
Definition at_token (toks : list bytes) : Prop := forall a fuel parts,
  f = a ++ join toks -> (a = [] \/ last a = Some tsep) -> (length (join toks) <= fuel)%nat -> 
  finish (genParts_loop f fuel (length a) (length a) parts) = parts ++ tok_parts None toks.
Definition at_end (toks : list bytes) : Prop := forall a cur fuel parts,
  f = a ++ cur ++ (if decide (toks = []) then [] else tsep :: join toks) -> cur <> [] -> head cur <> Some tsep ->
  (length (if decide (toks = []) then [] else tsep :: join toks) <= fuel)%nat ->
  finish (genParts_loop f fuel (length a + length cur) (length a) parts) = parts ++ tok_parts (Some cur) toks.

Lemma prev_sep a c b : f = a ++ c :: b -> (a = [] \/ last a = Some tsep) -> Nat.ltb 0 (length a) && negb (at_is (length a - 1) tsep) = false.
Proof.
  intros Hf [->|Ha]; [done|]. apply last_Some in Ha as [a' ->]. rewrite length_app. cbn [length].
  rewrite !(byte_is_app a' tsep (c :: b)) by (try lia; rewrite Hf; by rewrite <- (assoc_L (++))). by rewrite Ascii.eqb_refl, andb_false_r.
Qed.

(** A wildcard at the start of a token. *)
Lemma token_wild_last a w fuel parts : f = a ++ [w] -> (a = [] \/ last a = Some tsep) -> w = pwc \/ w = fwc -> (1 <= fuel)%nat ->
  finish (genParts_loop f fuel (length a) (length a) parts) = parts ++ [[w]].
Proof.
  intros Hf Ha Hw Hfuel. destruct fuel as [|fuel]; [lia|]. assert (length f = length a + 1)%nat as Hl by (rewrite Hf, length_app; done).
  cbn [genParts_loop]. rewrite Hl. destruct (Nat.ltb_spec (length a) (length a + 1)) as [_|?]; [|lia]. cbn [negb].
  rewrite !(byte_is_app a w [] (length a)) by done. rewrite (prev_sep a w []) by done.
  replace (Ascii.eqb w tsep) with false by (by destruct Hw as [->| ->]).
  replace (Ascii.eqb w pwc || Ascii.eqb w fwc) with true by (by destruct Hw as [->| ->]).
  destruct (Nat.eqb_spec (length a + 1) (length a + 1 - 1)) as [?|_]; [lia|].
  destruct (Nat.ltb_spec (length a + 1) (length a + 1 - 1)) as [?|_]; [lia|]. cbn [orb andb].
  destruct (Nat.ltb_spec (length a) (length a + 1 - 1)) as [?|_]; [lia|]. rewrite andb_false_r.
  destruct (Nat.leb_spec (length a + 1) (length a + 1 - 1)) as [?|_]; [lia|].
  rewrite loop_end by lia. unfold finish. destruct (Nat.ltb_spec (length a + 1) (length f)) as [?|_]; [lia|].
  by rewrite (slice_app a [w] []) by done.
Qed.

Lemma token_pwc a b fuel parts : f = a ++ pwc :: tsep :: b -> b <> [] -> (a = [] \/ last a = Some tsep) ->
  genParts_loop f (S fuel) (length a) (length a) parts =
  genParts_loop f fuel (length (a ++ [pwc; tsep])) (length (a ++ [pwc; tsep])) (parts ++ [[pwc]]).
Proof.
  intros Hf Hb Ha. assert (length a + 3 <= length f)%nat as Hl by (rewrite Hf, length_app; destruct b; [done|]; cbn; lia).
  cbn [genParts_loop]. destruct (Nat.ltb_spec (length a) (length f)) as [_|?]; [|lia]. cbn [negb].
  rewrite !(byte_is_app a pwc (tsep :: b) (length a)) by done. rewrite (prev_sep a pwc (tsep :: b)) by done.
  rewrite !(byte_is_app (a ++ [pwc]) tsep b (length a + 1)) by (rewrite ?Hf, ?length_app, <- ?(assoc_L (++)); done).
  destruct (Nat.eqb_spec (length a + 1) (length f - 1)) as [?|_]; [lia|]. replace (Ascii.eqb tsep tsep) with true by done. cbn [negb]. rewrite !andb_false_r.
  replace (Ascii.eqb pwc tsep) with false by done. replace (Ascii.eqb pwc pwc) with true by done. replace (Ascii.eqb pwc fwc) with false by done. cbn [orb andb].
  destruct (Nat.leb_spec (length a + 1) (length f - 1)) as [_|?]; [|lia]. rewrite (slice_app a [pwc] (tsep :: b)) by done.
  rewrite length_app. cbn [length]. by replace (length a + 2)%nat with (length a + 1 + 1)%nat by lia.
Qed.

(** A separator before a wildcard, with an open part. *)
Lemma end_wild_last a cur w fuel parts : f = a ++ cur ++ [tsep; w] -> cur <> [] -> w = pwc \/ w = fwc -> (1 <= fuel)%nat ->
  finish (genParts_loop f fuel (length a + length cur) (length a) parts) = parts ++ [cur ++ [tsep]; [w]].
Proof.
  intros Hf Hc Hw Hfuel. destruct fuel as [|fuel]; [lia|]. set (i := (length a + length cur)%nat).
  assert (length f = i + 2)%nat as Hl by (rewrite Hf, !length_app; cbn; lia). assert (length cur <> 0)%nat as Hc' by (by destruct cur).
  cbn [genParts_loop]. rewrite Hl. destruct (Nat.ltb_spec i (i + 2)) as [_|?]; [|lia]. cbn [negb].
  rewrite !(byte_is_app (a ++ cur) tsep [w] i) by (rewrite ?Hf, ?length_app, <- ?(assoc_L (++)); done).
  rewrite !(byte_is_app (a ++ cur ++ [tsep]) w [] (i + 1)) by (rewrite ?Hf, ?length_app, <- ?(assoc_L (++)); cbn; done || lia).
  replace (Ascii.eqb tsep tsep) with true by done. destruct (Nat.ltb_spec i (i + 2 - 1)) as [_|?]; [|lia].
  destruct (Nat.eqb_spec (i + 1) (i + 2 - 1)) as [_|?]; [|lia]. rewrite orb_true_r. cbn [andb].
  destruct (Nat.leb_spec (i + 1 + 2) (i + 2 - 1)) as [?|_]; [lia|]. destruct (Nat.ltb_spec (length a) i) as [_|?]; [|lia].
  rewrite (slice_app a (cur ++ [tsep]) [w]) by (rewrite ?Hf, ?length_app, <- ?(assoc_L (++)); cbn; done || lia).
  rewrite (slice_app (a ++ cur ++ [tsep]) [w] []) by (rewrite ?Hf, ?length_app, <- ?(assoc_L (++)); cbn; done || lia).
  assert (finish (genParts_loop f fuel (i + 1 + 1) (i + 1 + 1) (parts ++ [cur ++ [tsep]] ++ [[w]])) = parts ++ [cur ++ [tsep]; [w]]) as H.
  { rewrite loop_end by lia. unfold finish. destruct (Nat.ltb_spec (i + 1 + 1) (length f)) as [?|_]; [lia|done]. }
  destruct Hw as [->| ->]; exact H.
Qed.

Lemma end_pwc a cur b fuel parts : f = a ++ cur ++ tsep :: pwc :: tsep :: b -> cur <> [] -> b <> [] ->
  genParts_loop f (S fuel) (length a + length cur) (length a) parts =
  genParts_loop f fuel (length (a ++ cur ++ [tsep; pwc; tsep])) (length (a ++ cur ++ [tsep; pwc; tsep])) (parts ++ [cur ++ [tsep]; [pwc]]).
Proof.
  intros Hf Hc Hb. set (i := (length a + length cur)%nat). assert (length cur <> 0)%nat as Hc' by (by destruct cur).
  assert (i + 4 <= length f)%nat as Hl by (rewrite Hf, !length_app; destruct b; [done|]; cbn; lia).
  cbn [genParts_loop]. destruct (Nat.ltb_spec i (length f)) as [_|?]; [|lia]. cbn [negb].
  rewrite !(byte_is_app (a ++ cur) tsep (pwc :: tsep :: b) i) by (rewrite ?Hf, ?length_app, <- ?(assoc_L (++)); done).
  rewrite !(byte_is_app (a ++ cur ++ [tsep]) pwc (tsep :: b) (i + 1)) by (rewrite ?Hf, ?length_app, <- ?(assoc_L (++)); cbn; done || lia).
  rewrite !(byte_is_app (a ++ cur ++ [tsep; pwc]) tsep b (i + 2)) by (rewrite ?Hf, ?length_app, <- ?(assoc_L (++)); cbn; done || lia).
  replace (Ascii.eqb tsep tsep) with true by done. replace (Ascii.eqb pwc pwc) with true by done.
  destruct (Nat.ltb_spec i (length f - 1)) as [_|?]; [|lia]. destruct (Nat.leb_spec (i + 2) (length f - 1)) as [_|?]; [|lia]. cbn [andb orb].
  destruct (Nat.leb_spec (i + 1 + 2) (length f - 1)) as [_|?]; [|lia]. destruct (Nat.ltb_spec (length a) i) as [_|?]; [|lia].
  rewrite (slice_app a (cur ++ [tsep]) (pwc :: tsep :: b)) by (rewrite ?Hf, ?length_app, <- ?(assoc_L (++)); cbn; done || lia).
  rewrite (slice_app (a ++ cur ++ [tsep]) [pwc] (tsep :: b)) by (rewrite ?Hf, ?length_app, <- ?(assoc_L (++)); cbn; done || lia).
  rewrite !length_app. cbn [length app]. by replace (length a + (length cur + 3))%nat with (i + 1 + 1 + 1)%nat by lia.
Qed.

(** A separator before a byte that is no wildcard. *)
Lemma end_plain a cur c b fuel parts : f = a ++ cur ++ tsep :: c :: b -> c <> pwc -> c <> fwc ->
  genParts_loop f (S fuel) (length a + length cur) (length a) parts = genParts_loop f fuel (length (a ++ cur ++ [tsep])) (length a) parts.
Proof.
  intros Hf H1 H2. set (i := (length a + length cur)%nat). assert (i + 2 <= length f)%nat as Hl by (rewrite Hf, !length_app; cbn; lia).
  cbn [genParts_loop]. destruct (Nat.ltb_spec i (length f)) as [_|?]; [|lia]. cbn [negb].
  rewrite !(byte_is_app (a ++ cur) tsep (c :: b) i) by (rewrite ?Hf, ?length_app, <- ?(assoc_L (++)); done).
  rewrite !(byte_is_app (a ++ cur ++ [tsep]) c b (i + 1)) by (rewrite ?Hf, ?length_app, <- ?(assoc_L (++)); cbn; done || lia).
  rewrite (proj2 (Ascii.eqb_neq c pwc) H1), (proj2 (Ascii.eqb_neq c fwc) H2), andb_false_r. replace (Ascii.eqb tsep tsep) with true by done. cbn [andb].
  rewrite !length_app. cbn [length]. by replace (length a + (length cur + 1))%nat with (i + 1)%nat by lia.
Qed.

Lemma wild_tok t ts : filter_toks (t :: ts) -> wild t = true -> ts <> [] -> t = [pwc].
Proof. intros ([->|[->|[_ Hw]]]&H&_) E Hts; [done|by destruct Hts; apply H|]. unfold wild in E. destruct (no_wild_not_wc t Hw) as [E1 E2]. by rewrite E1, E2 in E. Qed.

Lemma step_token t ts : filter_toks (t :: ts) -> at_token ts -> at_end ts -> at_token (t :: ts).
Proof.
  intros Hok IHt IHe a fuel parts Hf Ha Hfuel. pose proof Hok as (Ht&_&Hts). cbn [tok_parts].
  destruct (filter_tok_cases t Ht) as [[Hw ->]|([Hn Hs]&Hw&->)].
  - destruct (decide (ts = [])) as [->|Hne].
    + cbn [join] in *. destruct Hw as [->| ->]; apply token_wild_last; auto.
    + assert (t = [pwc]) as -> by (eapply wild_tok; [done| |done]; by destruct Hw as [->| ->]).
      rewrite join_cons in Hf, Hfuel by done. cbn [app length] in Hf, Hfuel. destruct fuel as [|fuel]; [lia|].
      rewrite (token_pwc a (join ts)) by (done || by apply join_not_nil). rewrite IHt.
      * by rewrite <- (assoc_L (++)).
      * rewrite Hf. by rewrite <- (assoc_L (++)).
      * right. by rewrite last_app.
      * lia.
  - assert (join (t :: ts) = t ++ (if decide (ts = []) then [] else tsep :: join ts)) as Ej.
    { case_decide; [subst; cbn; by rewrite app_nil_r|by apply join_cons]. }
    rewrite Ej in Hf, Hfuel. rewrite length_app in Hfuel. replace fuel with (length t + (fuel - length t))%nat by lia.
    rewrite (scan t _ a _ _ _ Hf Hs Hw). apply IHe; [done|done| |lia]. destruct t; [done|]. cbn. intros [= ->]. set_solver.
Qed.

Lemma step_end t ts : filter_toks (t :: ts) -> at_token ts -> at_end ts -> at_end (t :: ts).
Proof.
  intros Hok IHt IHe a cur fuel parts Hf Hc Hh Hfuel. pose proof Hok as (Ht&_&Hts). cbn [tok_parts].
  destruct (decide (t :: ts = [])) as [|_]; [done|]. destruct (filter_tok_cases t Ht) as [[Hw ->]|([Hn Hs]&Hw&->)].
  - destruct (decide (ts = [])) as [->|Hne].
    + cbn [join] in *. cbn [length] in Hfuel. destruct Hw as [->| ->]; apply end_wild_last; auto; lia.
    + assert (t = [pwc]) as -> by (eapply wild_tok; [done| |done]; by destruct Hw as [->| ->]).
      rewrite join_cons in Hf, Hfuel by done. cbn [app length] in Hf, Hfuel. destruct fuel as [|fuel]; [lia|].
      rewrite (end_pwc a cur (join ts)) by (done || by apply join_not_nil). rewrite IHt.
      * by rewrite <- (assoc_L (++)).
      * rewrite Hf. by rewrite <- !(assoc_L (++)).
      * right. by rewrite !last_app.
      * lia.
  - assert (join (t :: ts) = t ++ (if decide (ts = []) then [] else tsep :: join ts)) as Ej.
    { case_decide; [subst; cbn; by rewrite app_nil_r|by apply join_cons]. }
    rewrite Ej in Hf, Hfuel. cbn [length] in Hfuel. rewrite length_app in Hfuel. destruct fuel as [|fuel]; [lia|].
    destruct t as [|c t]; [done|]. cbn [app] in Hf.
    rewrite (end_plain a cur c _ fuel parts Hf) by (destruct Hw; intros ->; set_solver).
    replace fuel with (length (c :: t) + (fuel - length (c :: t)))%nat by lia.
    rewrite (scan (c :: t) _ (a ++ cur ++ [tsep]) (if decide (ts = []) then [] else tsep :: join ts)) by (try done; rewrite Hf; by rewrite <- !(assoc_L (++))).
    replace (length (a ++ cur ++ [tsep]) + length (c :: t))%nat with (length a + length (cur ++ tsep :: c :: t))%nat
      by (rewrite !length_app; cbn [length]; lia).
    apply IHe; [rewrite Hf; by rewrite <- !(assoc_L (++))|by destruct cur|by destruct cur|lia].
Qed.

Lemma loop_tokens toks : filter_toks toks -> at_token toks /\ at_end toks.
Proof.
  induction toks as [|t ts IH]; intros Hok.
  - split.
    + intros a fuel parts Hf Ha _. cbn [join] in Hf. rewrite app_nil_r in Hf. rewrite loop_end by (by subst). unfold finish. subst a.
      destruct (Nat.ltb_spec (length f) (length f)); [lia|]. by rewrite app_nil_r.
    + intros a cur fuel parts Hf Hc Hh _. cbn in Hf. rewrite app_nil_r in Hf. rewrite loop_end by (rewrite Hf, length_app; lia). unfold finish.
      destruct cur as [|c cur]; [done|]. destruct (Nat.ltb_spec (length a) (length f)) as [_|Hl]; [|rewrite Hf, length_app in Hl; cbn in Hl; lia].
      rewrite (byte_is_app a c cur) by done. rewrite (proj2 (Ascii.eqb_neq c tsep)) by (intros ->; done). by rewrite Hf, drop_app_length.
  - destruct IH as [IHt IHe]; [apply Hok|]. split; [by apply step_token|by apply step_end].
Qed.
End gen.

Lemma genParts_tokens toks : filter_toks toks -> genParts (join toks) = tok_parts None toks.
Proof.
  intros H. pose proof (proj1 (loop_tokens (join toks) toks H) [] (length (join toks)) [] eq_refl (or_introl eq_refl) (le_n _)) as E.
  cbn [app length] in E. rewrite <- E. unfold genParts, finish. by destruct (genParts_loop _ _ 0 0 []) as [start parts].
Qed.

Lemma tok_parts_ok toks : forall cur, filter_toks toks -> match cur with Some cur => cur <> [] /\ no_wild cur | None => True end ->
  parts_ok (tok_parts cur toks).
Proof.
  assert (no_wild [tsep]) as Hsep by (split; set_solver).
  induction toks as [|t ts IH]; intros cur Hok Hc; [destruct cur; [split; [by right; right|done]|done]|].
  pose proof Hok as (Ht&Hl&Hts). cbn [tok_parts]. destruct (filter_tok_cases t Ht) as [[Hw ->]|([Hn Hs]&Hw&->)].
  - assert (part_ok t (tok_parts None ts)) as Hpt.
    { destruct Hw as [->| ->]; [by left|]. right. left. split; [done|]. by rewrite Hl. }
    destruct cur as [cur|]; cbn [parts_ok]; [|by split; [done|apply IH]]. split_and!; [|done|by apply IH].
    right. right. destruct Hc as [Hc [? ?]]. split; [by destruct cur|]. split; set_solver.
  - destruct cur as [cur|]; (apply IH; [done|]); [|done]. destruct Hc as [Hc [? ?]], Hw. split; [by destruct cur|]. split; set_solver.
Qed.

Lemma tok_parts_not_nil toks cur : toks <> [] \/ cur <> None -> tok_parts cur toks <> [].
Proof.
  revert cur. induction toks as [|t ts IH]; intros cur H; [destruct cur; [done|by destruct H]|]. cbn [tok_parts].
  destruct cur, (wild t); try done; apply IH; by right.
Qed.

(** ** What the parts match *)

Fixpoint toks_match (pat lit : list bytes) : bool :=
  match pat, lit with
  | [], [] => true
  | p :: ps, l :: ls =>
      if is_fwc p then (match ps with [] => true | _ => false end)
      else (is_pwc p || bytes_eqb p l) && toks_match ps ls
  | _, _ => false
  end.

(** The tokens [ts] after the bytes of a part. *)
Definition rest_match (ts : list bytes) (r : bytes) : bool :=
  match ts with
  | [] => bool_decide (r = [])
  | _ => match r with c :: r => Ascii.eqb c tsep && parts_match (tok_parts None ts) r | [] => false end
  end.

Lemma prefix_split (p q s : bytes) : bool_decide (p ++ q `prefix_of` s) = bool_decide (p `prefix_of` s) && bool_decide (q `prefix_of` drop (length p) s).
Proof.
  destruct (decide (p `prefix_of` s)) as [[k ->]|Hn].
  - rewrite (bool_decide_eq_true_2 (p `prefix_of` p ++ k)) by (by exists k). rewrite drop_app_length. cbn [andb].
    apply bool_decide_ext. split; [apply prefix_app_inv|apply prefix_app].
  - rewrite !(bool_decide_eq_false_2 (p `prefix_of` s)) by done. apply bool_decide_eq_false_2. intros [k ->]. apply Hn.
    exists (q ++ k). by rewrite (assoc_L (++)).
Qed.

Lemma open_part ts : forall cur s, filter_toks ts -> cur <> [] -> no_wild cur ->
  parts_match (tok_parts (Some cur) ts) s = bool_decide (cur `prefix_of` s) && rest_match ts (drop (length cur) s).
Proof.
  assert (forall p rest s, p <> [] -> no_wild p -> parts_match (p :: rest) s = bool_decide (p `prefix_of` s) && parts_match rest (drop (length p) s)) as Hbytes.
  { intros p rest s Hp Hw. cbn [parts_match]. by destruct (no_wild_not_wc p Hw) as [-> ->]. }
  induction ts as [|t ts IH]; intros cur s Hok Hc Hw; [by apply Hbytes|]. pose proof Hok as (Ht&_&Hts). cbn [tok_parts rest_match].
  destruct (filter_tok_cases t Ht) as [[Hwt ->]|([Hn Hs]&Hwt&->)].
  - rewrite Hbytes; [|by destruct cur|destruct Hw; split; set_solver]. rewrite prefix_split, <- andb_assoc, length_app, <- drop_drop. f_equal.
    destruct (drop (length cur) s) as [|d r]; [by rewrite bool_decide_eq_false_2 by (by intros ?%prefix_nil_inv)|]. f_equal.
    destruct (Ascii.eqb_spec d tsep) as [->|Hne]; [apply bool_decide_eq_true_2; by exists r|]. apply bool_decide_eq_false_2.
    intros [k Hk]. cbn in Hk; congruence.
  - assert (no_wild (cur ++ tsep :: t)) as Hw' by (destruct Hw, Hwt; split; set_solver).
    rewrite IH by (done || by destruct cur). rewrite prefix_split, <- andb_assoc, length_app, <- drop_drop. f_equal.
    destruct (drop (length cur) s) as [|d r]; [by rewrite bool_decide_eq_false_2 by (by intros ?%prefix_nil_inv)|].
    rewrite IH by done. cbn [length drop]. rewrite andb_assoc. f_equal.
    destruct (Ascii.eqb_spec d tsep) as [->|Hne].
    + apply bool_decide_ext. split; [apply prefix_cons_inv_2|apply prefix_cons].
    + apply bool_decide_eq_false_2. intros [k Hk]. cbn in Hk. congruence.
Qed.

Lemma index_join l ls : tsep ∉ l -> IndexByte (join (l :: ls)) tsep = if decide (ls = []) then None else Some (length l).
Proof.
  intros Hl. case_decide as E; [subst; by apply IndexByte_None|]. rewrite join_cons by done. apply IndexByte_Some. by exists l, (join ls).
Qed.

Lemma join_plain_not_nil ls : Forall plain ls -> ls <> [] -> join ls <> [].
Proof. intros H Hn. destruct ls as [|l ls]; [done|]. apply Forall_cons in H as [[Hl _] _]. destruct ls; [done|]. cbn. by destruct l. Qed.

(** A token of bytes against the first token of the subject. *)
Lemma plain_step t ts l ls : plain t -> plain l ->
  bool_decide (t `prefix_of` join (l :: ls)) && rest_match ts (drop (length t) (join (l :: ls))) =
  bytes_eqb t l && match ts, ls with [], [] => true | [], _ | _, [] => false | _, _ => parts_match (tok_parts None ts) (join ls) end.
Proof.
  intros [Ht1 Ht2] [Hl1 Hl2]. assert (exists r, join (l :: ls) = l ++ r /\ r = match ls with [] => [] | _ => tsep :: join ls end) as (r&Ej&Er).
  { destruct ls; eexists; (split; [|done]); cbn; [by rewrite app_nil_r|done]. }
  rewrite Ej. destruct (bytes_eqb t l) eqn:E.
  - apply bytes_eqb_true in E as <-. rewrite bool_decide_eq_true_2 by (by exists r). rewrite drop_app_length. cbn [andb]. subst r.
    by destruct ts, ls.
  - apply bytes_eqb_false in E. cbn [andb]. destruct (decide (t `prefix_of` l ++ r)) as [[k Hk]|Hp]; [|by rewrite bool_decide_eq_false_2].
    rewrite Hk, drop_app_length, andb_comm. cut (rest_match ts k = false); [by intros ->|].
    apply app_eq_inv in Hk as [(m&->&->)|(m&->&->)].
    + destruct m as [|d m]; [by rewrite app_nil_r in E|]. destruct ts; [by apply bool_decide_eq_false_2|]. cbn [rest_match app].
      rewrite (proj2 (Ascii.eqb_neq d tsep)); [done|]. intros ->. set_solver.
    + destruct m as [|d m]; [by rewrite app_nil_r in E|]. destruct ls; [done|]. injection Er as -> _. set_solver.
Qed.

Lemma parts_tokens toks : filter_toks toks -> toks <> [] -> forall ls, Forall plain ls -> ls <> [] ->
  parts_match (tok_parts None toks) (join ls) = toks_match toks ls.
Proof.
  induction toks as [|t ts IH]; [done|]. intros Hok _ ls Hls Hn. pose proof Hok as (Ht&Hl&Hts). destruct ls as [|l ls]; [done|]. clear Hn.
  pose proof (join_plain_not_nil _ Hls) as Hjn. apply Forall_cons in Hls as [Hpl Hls].
  assert (match ts, ls with [], [] => true | [], _ | _, [] => false | _, _ => parts_match (tok_parts None ts) (join ls) end = toks_match ts ls) as Hrec.
  { destruct ts, ls; try done. by apply IH. }
  cbn [tok_parts toks_match]. destruct (filter_tok_cases t Ht) as [[Hw ->]|([Hnt Hs]&Hw&->)].
  - destruct Hw as [->| ->]; [|rewrite Hl by done; done]. cbn [parts_match is_pwc is_fwc]. replace (Ascii.eqb pwc pwc) with true by done.
    replace (Ascii.eqb pwc fwc) with false by done. cbn [orb andb]. rewrite <- Hrec, index_join by apply Hpl.
    destruct (decide (ls = [])) as [->|Hne].
    + rewrite (bool_decide_eq_true_2 (join [l] <> [])) by (by apply Hjn). destruct ts as [|t' ts]; [done|].
      cbn [andb]. apply bool_decide_eq_false_2. by apply tok_parts_not_nil; left.
    + rewrite join_cons by done. rewrite <- drop_drop, drop_app_length. cbn [drop].
      destruct ts as [|t' ts]; [by destruct ls|]. rewrite bool_decide_eq_true_2 by (by apply tok_parts_not_nil; left). by destruct ls.
  - destruct (no_wild_not_wc t Hw) as [-> ->]. cbn [orb]. rewrite open_part by done. rewrite plain_step by done. by rewrite Hrec.
Qed.
