(* ===== verification/SubjectTreeMatchSpec.v ===== *)
(** * Subject tree: filters and intersections, properties

    [Match] and [MatchUntil] agree with the literal matching of the server (src/server/sublist.go),
    and [IntersectGSL] with the interest of the sublist it is given. *)

From Stdlib Require Import Ascii.
From S2P Require Import Prelude Subject SubjectSpec Trie Gsl SubjectTree SubjectTreeStore SubjectTreeProofs SubjectTreeSpec SubjectTreeMatch SubjectTreeMatchProofs SubjectTreeFilter.
Import Stree StreeMatch.

#[local] Opaque kmap addChild deleteChild set_child grow isFull numChildren findChild kids_of.

(** ** Strings and bytes *)

Notation bytes_of := String.list_ascii_of_string.

Lemma bytes_of_to b : bytes_of (bytesToString b) = b.
Proof. apply String.list_ascii_of_string_of_list_ascii. Qed.
Lemma bytes_to_of s : bytesToString (bytes_of s) = s.
Proof. apply String.string_of_list_ascii_of_string. Qed.
#[local] Instance bytes_of_inj : Inj (=) (=) bytes_of.
Proof. intros a b H. rewrite <- (bytes_to_of a), <- (bytes_to_of b). by rewrite H. Qed.

Lemma join_split s : join (bytes_of <$> Subj.split s) = bytes_of s.
Proof.
  induction s as [|c s IH]; [done|]. rewrite split_cons. pose proof (split_not_nil s) as Hn.
  destruct (Ascii.eqb_spec c Subj.btsep) as [->|Hc].
  - rewrite fmap_cons, join_cons by (by destruct (Subj.split s)). cbn. by rewrite IH.
  - destruct (Subj.split s) as [|t ts]; [done|]. cbn [cons_head fmap list_fmap]. cbn [bytes_of]. rewrite <- IH. cbn [fmap list_fmap].
    by destruct (bytes_of <$> ts).
Qed.

Lemma split_no_sep s : Forall (fun t => tsep ∉ bytes_of t) (Subj.split s).
Proof.
  induction s as [|c s IH]; [repeat constructor; set_solver|]. rewrite split_cons. destruct (Ascii.eqb_spec c Subj.btsep) as [->|Hc].
  - constructor; [set_solver|done].
  - destruct (Subj.split s) as [|t ts]; [done|]. apply Forall_cons in IH as [Ht Hts]. constructor; [|done]. cbn.
    change tsep with Subj.btsep in *. set_solver.
Qed.

Lemma split_plain s : no_empty (Subj.split s) -> Forall plain (bytes_of <$> Subj.split s).
Proof.
  intros H. apply Forall_fmap, Forall_forall. intros t Ht. pose proof (split_no_sep s) as Hs. unfold no_empty in H.
  rewrite Forall_forall in H, Hs. split; [|by apply Hs]. specialize (H t Ht). by destruct t.
Qed.

Lemma is_wc_bytes t : is_fwc (bytes_of t) = String.eqb t Subj.fwcs /\ is_pwc (bytes_of t) = String.eqb t Subj.pwcs.
Proof. destruct t as [|c [|d t]]; cbn; [done| |]; (destruct (Ascii.eqb_spec c fwc), (Ascii.eqb_spec c pwc)); subst; try done; cbn;
  rewrite ?(proj2 (Ascii.eqb_neq _ _)) by done; try done. Qed.
Lemma tok_match_bytes ps : forall ls, Subj.tok_match ps ls = toks_match (bytes_of <$> ps) (bytes_of <$> ls).
Proof.
  induction ps as [|p ps IH]; intros [|l ls]; try done. cbn [fmap list_fmap Subj.tok_match toks_match].
  destruct (is_wc_bytes p) as [-> ->]. destruct (String.eqb p Subj.fwcs); [by destruct ps|]. rewrite IH. do 2 f_equal.
  destruct (String.eqb_spec p l) as [->|Hne]; symmetry; [by apply bytes_eqb_true|]. apply bytes_eqb_false. by intros ?%(inj _).
Qed.

(** ** Filters *)

(** A token of a filter: not empty, and a wildcard byte only as the whole token. *)
Definition good_token (t : string) : bool :=
  negb (String.eqb t "") && (String.eqb t Subj.pwcs || String.eqb t Subj.fwcs || forallb (fun c => negb (Subj.is_wc c)) (bytes_of t)).
Fixpoint good_tokens (toks : list string) : bool :=
  match toks with
  | [] => true
  | t :: ts => good_token t && (negb (String.eqb t Subj.fwcs) || match ts with [] => true | _ => false end) && good_tokens ts
  end.
Definition good_filter (filter : string) : bool := good_tokens (Subj.split filter).

Lemma good_tokens_ok toks : good_tokens toks = true -> Forall (fun t => tsep ∉ bytes_of t) toks ->
  filter_toks (bytes_of <$> toks) /\ fwc_last toks.
Proof.
  induction toks as [|t ts IH]; [done|]. cbn [good_tokens]. intros [[Ht Hl]%andb_true_iff Hts]%andb_true_iff [Hs Hss]%Forall_cons.
  destruct (IH Hts Hss) as [IH1 IH2]. assert (t = Subj.fwcs -> ts = []) as Hlast.
  { intros ->. by destruct ts. }
  cbn [fmap list_fmap filter_toks fwc_last]. split; [|by split]. split_and!; [|intros E; rewrite Hlast; [done|by apply (inj bytes_of)]|done].
  unfold good_token in Ht. apply andb_true_iff in Ht as [Hne [[->%String.eqb_eq| ->%String.eqb_eq]%orb_true_iff|Hw]%orb_true_iff]; [by left|by right; left|].
  right. right. split; [split; [by destruct t|done]|]. rewrite forallb_forall in Hw.
  split; intros Hin%list_elem_of_In%Hw; done.
Qed.

Lemma match_node {V C} (cb : C -> bytes -> V -> C * bool) n filter pre c : node_ok n -> good_filter filter = true ->
  (forall s v, (s, v) ∈ entries n -> no_empty (Subj.split (bytesToString s))) ->
  match_ cb n (genParts (bytes_of filter)) pre c =
  visit cb (prod_map (pre ++.) id <$> sel (fun s => Subj.matchLiteral (bytesToString s) filter) (entries n)) c.
Proof.
  intros Hn Hf Hs. destruct (good_tokens_ok _ Hf (split_no_sep filter)) as [Hft Hl]. unfold match_.
  assert (bytes_of <$> Subj.split filter <> []) as Hne by (intros ?%fmap_nil_inv; by apply (split_not_nil filter)).
  rewrite <- (join_split filter), (genParts_tokens _ Hft), (match_walk cb n Hn) by (by apply tok_parts_ok || by apply tok_parts_not_nil; left).
  do 2 f_equal. apply sel_ext. intros s v Hin. pose proof (Hs s v Hin) as He. rewrite matchLiteral_ok, tok_match_bytes by done.
  rewrite <- (bytes_of_to s) at 1. rewrite <- (join_split (bytesToString s)). apply parts_tokens; [done|done|by apply split_plain|].
  intros ?%fmap_nil_inv. by apply (split_not_nil (bytesToString s)).
Qed.

Lemma sel_entries {V} (t : SubjectTree V) M n (f : bytes -> bool) : tree_ok t M -> root t = Some n ->
  NoDup (sel f (entries n)) /\ forall s v, (s, v) ∈ sel f (entries n) <-> M !! s = Some v /\ f s = true.
Proof.
  intros Ht E. pose proof (tree_entries t M n Ht E) as Hp. split.
  - apply NoDup_filter. rewrite Hp. apply NoDup_map_to_list.
  - intros s v. unfold sel. rewrite list_elem_of_filter, Hp, elem_of_map_to_list. cbn. tauto.
Qed.

Lemma literal_no_empty s : Subj.IsValidLiteralSubject s = true -> no_empty (Subj.split s).
Proof.
  unfold Subj.IsValidLiteralSubject. induction (Subj.split s) as [|t ts IH]; intros H; [by constructor|]. cbn in H.
  destruct t as [|c [|d t]]; [done| |]; constructor; try done; apply IH; [by destruct (Subj.is_wc c)|done].
Qed.

(** ** Interest *)

Lemma split_sep a b : Subj.split (a +:+ String Subj.btsep b) = Subj.split a ++ Subj.split b.
Proof.
  induction a as [|c a IH]; [rewrite app_string_nil_l, split_cons; by rewrite Ascii.eqb_refl|].
  rewrite app_string_cons, !split_cons, IH. destruct (Ascii.eqb c Subj.btsep); [done|].
  pose proof (split_not_nil a). by destruct (Subj.split a).
Qed.

Lemma any_starting {P : Type} {C : Type} (cnt : P -> C -> C) has ts : forall l ts' c, ts' <> [] ->
  (Trie.matchLevelForAny cnt has l (ts ++ ts') c).1 = true -> Trie.hasInterestStartingIn l ts = true.
Proof.
  induction ts as [|t ts IH]; intros l ts' c Hn; [by destruct l, ts'|]. destruct l as [l|]; [|done]. cbn [app Trie.matchLevelForAny Trie.hasInterestStartingIn].
  destruct (Trie.lfwc l); [done|]. destruct (ts ++ ts') as [|x xs] eqn:E; [by apply app_nil in E as [_ ?]|]. rewrite <- E. clear x xs E.
  destruct (Trie.lpwc l) as [p|].
  - destruct (Trie.matchLevelForAny cnt has (Trie.next p) (ts ++ ts') c) as [m c'] eqn:Em. destruct m.
    + intros _. rewrite (IH _ ts' c) by (by rewrite ?Em). by destruct (Trie.nodes l !! t).
    + destruct (Trie.nodes l !! t) as [n|]; [|done]. intros H. rewrite (IH _ _ _ Hn H). apply orb_true_r.
  - destruct (Trie.nodes l !! t) as [n|]; [|done]. intros H. by rewrite (IH _ _ _ Hn H).
Qed.

Section gsl.
Context {V C T : Type} `{Countable T} (sl : Gsl.GenericSublist T).
Implicit Types (n : node V).

Definition interest (s : bytes) : bool := Gsl.HasInterest sl (bytesToString s).

Lemma interest_starting a b : interest (a ++ tsep :: b) = true -> Gsl.HasInterestStartingIn sl (bytesToString a) = true.
Proof.
  assert (bytesToString (a ++ tsep :: b) = bytesToString a +:+ String Subj.btsep (bytesToString b)) as E.
  { induction a as [|c a IH]; [done|]. change (String c (bytesToString (a ++ tsep :: b)) = String c (bytesToString a +:+ String Subj.btsep (bytesToString b))). by rewrite IH. }
  unfold interest. rewrite E. unfold Gsl.HasInterest, Gsl.hasInterest, Gsl.HasInterestStartingIn. rewrite match_tokens_ok, split_sep.
  destruct (existsb _ _); [done|]. apply any_starting, split_not_nil.
Qed.

(** A subject with interest is never cut off. *)
Lemma tokens_interest rest : forall pre s, rest `prefix_of` s -> interest (pre ++ s) = true -> hasInterest_loop sl pre rest = true.
Proof.
  induction rest as [|c rest IH]; intros pre s Hp Hi; [done|]. destruct Hp as [k ->]. cbn [hasInterest_loop].
  destruct (Ascii.eqb_spec c tsep) as [->|_]; cbn [andb].
  - rewrite (interest_starting pre (rest ++ k)) by done. cbn [negb].
    apply (IH _ (rest ++ k)); [by exists k|]. by rewrite <- (assoc_L (++)).
  - apply (IH _ (rest ++ k)); [by exists k|]. by rewrite <- (assoc_L (++)).
Qed.

Lemma fold_children (cb : C -> bytes -> V -> C) (g : node V -> C -> C) (h : node V -> list (bytes * V)) st :
  (forall ch, ch ∈ children id st -> forall c, g ch c = fold_left (fun c sv => cb c sv.1 sv.2) (h ch) c) ->
  forall c, fold_left (fun c f => f c) (children g st) c = fold_left (fun c sv => cb c sv.1 sv.2) (concat (children h st)) c.
Proof.
  rewrite (children_map g), (children_map h). induction (children id st) as [|ch l IH]; intros Hg c; [done|].
  cbn [fmap list_fmap fold_left concat]. rewrite Hg by set_solver. rewrite fold_left_app. apply IH. intros; apply Hg; set_solver.
Qed.

Lemma intersect_node (cb : C -> bytes -> V -> C) n : node_ok n -> forall pre c,
  intersectGSL sl cb n pre c =
  fold_left (fun c sv => cb c sv.1 sv.2) (prod_map (pre ++.) id <$> sel (fun s => interest (pre ++ s)) (entries n)) c.
Proof.
  induction 1 as [s v _|p st _ Hst _ _ IH Hat]; intros pre c.
  - cbn [intersectGSL entries]. fold (interest (pre ++ s)). unfold sel. destruct (interest (pre ++ s)) eqn:E.
    + by rewrite filter_cons_True.
    + rewrite filter_cons_False by (cbn; congruence). done.
  - cbn [intersectGSL entries]. rewrite sel_prefix, prod_map_app.
    rewrite (sel_ext _ (fun s => interest ((pre ++ p) ++ s))) by (intros; by rewrite (assoc_L (++))). rewrite sel_children.
    rewrite (children_map (fun cn => sel _ (entries cn))).
    replace (prod_map ((pre ++ p) ++.) id <$> concat ((fun cn => sel (fun s => interest ((pre ++ p) ++ s)) (entries cn)) <$> children id st))
      with (concat (children (fun cn => prod_map ((pre ++ p) ++.) id <$> sel (fun s => interest ((pre ++ p) ++ s)) (entries cn)) st)).
    2: { rewrite (children_map (fun cn => prod_map _ _ <$> _)). generalize (children id st). intros l.
      induction l as [|ch l IHl]; [done|]. cbn [fmap list_fmap concat]. by rewrite IHl, fmap_app. }
    apply fold_children. intros ch [x Hx]%elem_of_children c'; [|done]. rewrite <- (IH x ch Hx).
    destruct (hasInterestForTokens sl _ _) eqn:Eh; [done|]. rewrite (IH x ch Hx), sel_none; [done|]. intros s v Hs.
    destruct (interest ((pre ++ p) ++ s)) eqn:Ei; [|done]. exfalso. unfold hasInterestForTokens in Eh. rewrite take_app_length, drop_app_length in Eh.
    by rewrite (tokens_interest (path ch) (pre ++ p) s) in Eh by (done || by eapply entries_path).
Qed.
End gsl.

(** ** Properties *)

(** C19. [Match] and [MatchUntil] on a tree of subjects without empty or wildcard tokens, with a
    filter whose wildcard bytes are whole tokens: the callback gets exactly the entries whose
    subject the server's [matchLiteral] accepts for the filter, once each; [MatchUntil] stops at
    the first [false] and reports it. *)
Theorem stree_match_exact {V C : Type} (t : SubjectTree V) (M : gmap bytes V) (filter : string) (c : C)
    (Ht : tree_ok t M) (Hf : good_filter filter = true)
    (Hs : map_Forall (fun s _ => Subj.IsValidLiteralSubject (bytesToString s) = true) M) :
  exists calls, NoDup calls /\
    (forall s v, (s, v) ∈ calls <-> M !! s = Some v /\ Subj.matchLiteral (bytesToString s) filter = true) /\
    (forall cb, MatchUntil cb t (bytes_of filter) c = visit cb calls c) /\
    (forall cb, Match cb t (bytes_of filter) c = fold_left (fun c sv => cb c sv.1 sv.2) calls c).
Proof.
  assert (Nat.eqb (length (bytes_of filter)) 0 = false) as Hn.
  { destruct filter as [|x filter]; [|done]. by vm_compute in Hf. }
  unfold MatchUntil, Match. destruct (root t) as [n|] eqn:E.
  - rewrite Hn. destruct (sel_entries t M n (fun s => Subj.matchLiteral (bytesToString s) filter) Ht E) as [H1 H2].
    eexists. split_and!; [exact H1|exact H2|..].
    all: assert (node_ok n) as Hok by (destruct Ht as [Hr _]; rewrite E in Hr; apply Hr).
    all: assert (forall s v, (s, v) ∈ entries n -> no_empty (Subj.split (bytesToString s))) as He
           by (intros s v Hin; rewrite (tree_entries t M n Ht E), elem_of_map_to_list in Hin; by apply literal_no_empty, (Hs s v)).
    all: intros cb; rewrite match_node, visit_prod_nil by done.
    1: done. by rewrite (visit_fold cb).
  - assert (M = ∅) as -> by (destruct Ht as [Hr _]; by rewrite E in Hr). exists []. split_and!; [by apply NoDup_nil| |done|done].
    intros s v. rewrite lookup_empty. split; [by intros ?%elem_of_nil|by intros []].
Qed.

Definition sample_subjects : list (st_op Z) :=
  (fun sv => SInsert (bytes_of sv.1) sv.2) <$> [("foo.bar", 1); ("foo.baz.x", 2); ("foo", 3); ("fob.bar", 4)]%string.

Definition sample_st : SubjectTree Z :=
  match run_tree NewSubjectTree sample_subjects with Some (t, _) => t | None => NewSubjectTree end.

Lemma sample_st_ok : tree_ok sample_st (run_map ∅ sample_subjects).1.
Proof.
  destruct (run_tree_ok sample_subjects NewSubjectTree ∅ new_tree_ok) as (t&E&Ht). unfold sample_st. by rewrite E.
Qed.

Lemma sample_st_literal : map_Forall (fun s _ => Subj.IsValidLiteralSubject (bytesToString s) = true) (run_map ∅ sample_subjects).1.
Proof. apply map_Forall_to_list. vm_compute. repeat constructor. Qed.

Lemma stree_match_exact_witness :
  Match (fun c _ v => c ++ [v]) sample_st (bytes_of "*.bar") [] = [1; 4] /\
  exists calls, NoDup calls /\
    (forall s v, (s, v) ∈ calls <-> (run_map ∅ sample_subjects).1 !! s = Some v /\ Subj.matchLiteral (bytesToString s) "*.bar" = true) /\
    (forall cb, MatchUntil cb sample_st (bytes_of "*.bar") ([] : list Z) = visit cb calls []) /\
    (forall cb, Match cb sample_st (bytes_of "*.bar") ([] : list Z) = fold_left (fun c sv => cb c sv.1 sv.2) calls []).
Proof.
  split; [vm_compute; reflexivity|].
  exact (stree_match_exact sample_st (run_map ∅ sample_subjects).1 "*.bar" [] sample_st_ok eq_refl sample_st_literal).
Defined.

(** [IntersectGSL] calls back exactly the entries whose subject has interest in the sublist,
    once each: the branches it cuts off by whole tokens have none. *)
Theorem stree_intersect_gsl {V C T : Type} `{Countable T} (sl : Gsl.GenericSublist T) (t : SubjectTree V) (M : gmap bytes V)
    (cb : C -> bytes -> V -> C) (c : C) (Ht : tree_ok t M) :
  exists calls, NoDup calls /\
    (forall s v, (s, v) ∈ calls <-> M !! s = Some v /\ Gsl.HasInterest sl (bytesToString s) = true) /\
    IntersectGSL sl cb t c = fold_left (fun c sv => cb c sv.1 sv.2) calls c.
Proof.
  unfold IntersectGSL. destruct (root t) as [n|] eqn:E.
  - destruct (sel_entries t M n (interest sl) Ht E) as [H1 H2]. exists (sel (interest sl) (entries n)). split_and!; [done|done|].
    assert (node_ok n) as Hok by (destruct Ht as [Hr _]; rewrite E in Hr; apply Hr).
    rewrite (intersect_node sl cb n Hok). f_equal. rewrite <- (list_fmap_id (sel (interest sl) (entries n))).
    apply list_fmap_ext. by intros _ [s v] _.
  - assert (M = ∅) as -> by (destruct Ht as [Hr _]; by rewrite E in Hr). exists []. split_and!; [by apply NoDup_nil| |done].
    intros s v. rewrite lookup_empty. split; [by intros ?%elem_of_nil|by intros []].
Qed.

Definition sample_sl : Gsl.GenericSublist Z := (Gsl.Insert (Gsl.Insert Gsl.NewSublist "foo.>" 1).1 "fob" 2).1.

Lemma stree_intersect_gsl_witness :
  IntersectGSL sample_sl (fun c _ v => c ++ [v]) sample_st [] = [2; 1] /\
  exists calls, NoDup calls /\
    (forall s v, (s, v) ∈ calls <-> (run_map ∅ sample_subjects).1 !! s = Some v /\ Gsl.HasInterest sample_sl (bytesToString s) = true) /\
    IntersectGSL sample_sl (fun c _ v => c ++ [v]) sample_st [] = fold_left (fun c sv => c ++ [sv.2]) calls [].
Proof.
  split; [vm_compute; reflexivity|].
  exact (stree_intersect_gsl sample_sl sample_st (run_map ∅ sample_subjects).1 (fun c _ v => c ++ [v]) [] sample_st_ok).
Defined.

(** ** Divergences *)

(** A [*] inside a token is a literal byte for [matchLiteral]; [matchParts] takes it for the
    wildcard when a node boundary falls right before it. *)
Example embedded_star_matches :
  let t := match run_tree NewSubjectTree ((fun s => SInsert (bytes_of s) 1) <$> ["a.bc"; "a.bd"]%string) with Some (t, _) => t | None => NewSubjectTree end in
  Match (fun c s _ => c ++ [bytesToString s]) t (bytes_of "a.b*") [] = ["a.bd"; "a.bc"]%string /\
  Subj.matchLiteral "a.bc" "a.b*" = false.
Proof. by vm_compute. Qed.
