(* ===== verification/MemStore.v ===== *)
(** * Memory store: messages (src/server/memstore.go, src/server/sdm.go)

    The in-memory message store of a stream: the messages by sequence, the per-subject state in a
    subject tree, the deleted sequences in a sequence set, the TTL wheel, the message scheduler
    and the data on pending subject delete markers.

    The store is written against the interfaces of the components it calls: [SubjectMap] for the
    subject tree, [SeqSetI] for the sequence set and [TimerWheel] (Scheduler.v) for the wheel.
    What message headers mean is read through [Headers].  Locks and the calls back into the
    stream are not part of the state: [events] records the storage updates, removals and
    messages that the handlers are called with, in order. *)

From S2P Require Import Prelude Scheduler.
Import Sched.

(** ** Interfaces *)

(** The subject tree with values of type [V]; [None] is a panic.  A write through a pointer
    that [Find] or a walk has given out is an [sm_insert] at a subject that is present. *)
Class SubjectMap (F : Type) (V : Type) : Type := {
  sm_New : F;
  sm_Find : F -> string -> option V;
  sm_Insert : F -> string -> V -> option F;
  sm_Delete : F -> string -> option F;
  sm_Size : F -> Z;
  sm_MatchUntil : forall {C : Type}, (C -> string -> V -> C * bool) -> F -> string -> C -> C * bool;
  sm_IterFast : forall {C : Type}, (C -> string -> V -> C * bool) -> F -> C -> C;
}.

Class SeqSetI (D : Type) : Type := {
  ss_New : D;
  ss_Insert : D -> Z -> D;
  ss_Delete : D -> Z -> D;
  ss_Exists : D -> Z -> bool;
  ss_IsEmpty : D -> bool;
  ss_Empty : D -> D;
  ss_Range : forall {C : Type}, D -> (Z -> C -> C * bool) -> C -> C;
  ss_State : D -> Z * Z * Z;
}.

(** What the store reads from message headers: the TTL in seconds, the time of the next
    schedule, the subject of the scheduler, the time a repeating schedule triggers again, whether
    the message is a rollup or a subject delete marker. *)
Class Headers : Type := {
  getMessageTTL : string -> option Z;
  nextMessageSchedule : string -> Z -> option Z;
  getMessageScheduler : string -> string;
  scheduleNext : string -> option Z;
  isRollup : string -> bool;
  isSubjectDeleteMarker : string -> bool;
}.

Module Mem.

(** ** State *)

Record StoreMsg : Type := mkMsg { m_subj : string; m_hdr : string; m_msg : string; m_seq : Z; m_ts : Z }.

Record SimpleState : Type := mkSS { Msgs : Z; First : Z; Last : Z; firstNeedsUpdate : bool; lastNeedsUpdate : bool }.

(** The zero [time.Time] is [None]. *)
Record StreamState : Type := mkState {
  sMsgs : Z; sBytes : Z; FirstSeq : Z; FirstTime : option Z; LastSeq : Z; LastTime : option Z }.

Inductive DiscardPolicy : Type := DiscardOld | DiscardNew.

Record StreamConfig : Type := mkConfig {
  MaxMsgs : Z; MaxBytes : Z; MaxMsgsPer : Z; MaxAge : Z; Discard : DiscardPolicy; DiscardNewPer : bool;
  AllowMsgTTL : bool; AllowMsgSchedules : bool; cfgFirstSeq : Z; sdmTTL : Z; cfgSubjects : list string }.

(** [SDMMeta] of sdm.go. *)
Record SDMBySeq : Type := mkSdm { sdm_last : bool; sdm_ts : Z }.
Record SDMMeta : Type := mkMeta { totals : gmap string Z; pending : gmap Z SDMBySeq }.

Inductive store_error : Type :=
| ErrStoreClosed | ErrStoreMsgNotFound | ErrStoreEOF | ErrMaxMsgs | ErrMaxBytes | ErrMaxMsgsPerSubject
| ErrSequenceMismatch | ErrTooManyResults | ErrPartialPurge.

(** The calls of the handlers: [scb], [rmcb] and [pmsgcb]. *)
Inductive event : Type :=
| StorageUpdate (msgs bytes seq : Z) (subj : string)
| RemoveRequest (seq : Z)
| DeleteMarker (subj : string) (ttl : Z)
| Scheduled (seq : Z).

Record memStore (F D W : Type) : Type := mkStore {
  cfg : StreamConfig;
  state : StreamState;
  msgs : gmap Z StoreMsg;
  closed : bool; (* [ms.msgs == nil] *)
  fss : F;
  dmap : D;
  maxp : Z;
  scb : bool;
  rmcb : bool;
  pmsgcb : bool;
  ageChk : option Z; (* the delay the timer was last armed with *)
  ageChkRun : bool;
  ageChkTime : Z;
  consumers : Z;
  receivedAny : bool;
  ttls : option W;
  scheduling : option (MsgScheduling W);
  sdm : option SDMMeta;
  events : list event;
}.
Arguments mkStore {F D W}.
Arguments cfg {F D W}.
Arguments state {F D W}.
Arguments msgs {F D W}.
Arguments closed {F D W}.
Arguments fss {F D W}.
Arguments dmap {F D W}.
Arguments maxp {F D W}.
Arguments scb {F D W}.
Arguments rmcb {F D W}.
Arguments pmsgcb {F D W}.
Arguments ageChk {F D W}.
Arguments ageChkRun {F D W}.
Arguments ageChkTime {F D W}.
Arguments consumers {F D W}.
Arguments receivedAny {F D W}.
Arguments ttls {F D W}.
Arguments scheduling {F D W}.
Arguments sdm {F D W}.
Arguments events {F D W}.

(** ** Subject delete markers (sdm.go) *)

Definition newSDMMeta : SDMMeta := mkMeta ∅ ∅.

Definition sdm_empty (s : option SDMMeta) : option SDMMeta := match s with None => None | Some _ => Some newSDMMeta end.

Definition trackPending (s : SDMMeta) (seq : Z) (subj : string) (last : bool) (now : Z) : SDMMeta * bool :=
  match pending s !! seq with
  | Some p => (s, sdm_last p)
  | None => (mkMeta (<[subj := u64 (default 0 (totals s !! subj) + 1)]> (totals s)) (<[seq := mkSdm last now]> (pending s)), last)
  end.

Definition removeSeqAndSubject (s : option SDMMeta) (seq : Z) (subj : string) : option SDMMeta :=
  match s with
  | None => None
  | Some s =>
      match pending s !! seq with
      | None => Some s
      | Some _ =>
          let totals :=
            match totals s !! subj with
            | Some n => if n <=? 1 then delete subj (totals s) else <[subj := n - 1]> (totals s)
            | None => totals s
            end in
          Some (mkMeta totals (delete seq (pending s)))
      end
  end.

(** ** Message sizes *)

Definition memStoreMsgSizeRaw (slen hlen mlen : nat) : Z := u64 (Z.of_nat slen + Z.of_nat hlen + Z.of_nat mlen + 16).
Definition memStoreMsgSize (subj hdr msg : string) : Z :=
  memStoreMsgSizeRaw (String.length subj) (String.length hdr) (String.length msg).
Definition size_of (sm : StoreMsg) : Z := memStoreMsgSize (m_subj sm) (m_hdr sm) (m_msg sm).

(** ** Loops over sequences *)

(** [for seq := from; seq <= last; seq++], to the first sequence with [p]. *)
Fixpoint scan_up (p : Z -> bool) (fuel : nat) (from : Z) : option Z :=
  match fuel with O => None | S fuel => if p from then Some from else scan_up p fuel (from + 1) end.
Definition first_up (p : Z -> bool) (from last : Z) : option Z := scan_up p (Z.to_nat (last + 1 - from)) from.

(** [for seq := from; seq >= last; seq--]. *)
Fixpoint scan_down (p : Z -> bool) (fuel : nat) (from : Z) : option Z :=
  match fuel with O => None | S fuel => if p from then Some from else scan_down p fuel (from - 1) end.
Definition first_down (p : Z -> bool) (from last : Z) : option Z := scan_down p (Z.to_nat (from + 1 - last)) from.

Section ops.
Context {F D W : Type} `{SubjectMap F SimpleState} `{SeqSetI D} `{TimerWheel W} `{Headers}.
Notation MS := (memStore F D W).
Implicit Types (ms : MS).

Definition with_state ms (st : StreamState) : MS :=
  mkStore (cfg ms) st (msgs ms) (closed ms) (fss ms) (dmap ms) (maxp ms) (scb ms) (rmcb ms) (pmsgcb ms) (ageChk ms) (ageChkRun ms)
    (ageChkTime ms) (consumers ms) (receivedAny ms) (ttls ms) (scheduling ms) (sdm ms) (events ms).
Definition with_msgs ms (m : gmap Z StoreMsg) : MS :=
  mkStore (cfg ms) (state ms) m (closed ms) (fss ms) (dmap ms) (maxp ms) (scb ms) (rmcb ms) (pmsgcb ms) (ageChk ms) (ageChkRun ms)
    (ageChkTime ms) (consumers ms) (receivedAny ms) (ttls ms) (scheduling ms) (sdm ms) (events ms).
Definition with_fss ms (f : F) : MS :=
  mkStore (cfg ms) (state ms) (msgs ms) (closed ms) f (dmap ms) (maxp ms) (scb ms) (rmcb ms) (pmsgcb ms) (ageChk ms) (ageChkRun ms)
    (ageChkTime ms) (consumers ms) (receivedAny ms) (ttls ms) (scheduling ms) (sdm ms) (events ms).
Definition with_dmap ms (d : D) : MS :=
  mkStore (cfg ms) (state ms) (msgs ms) (closed ms) (fss ms) d (maxp ms) (scb ms) (rmcb ms) (pmsgcb ms) (ageChk ms) (ageChkRun ms)
    (ageChkTime ms) (consumers ms) (receivedAny ms) (ttls ms) (scheduling ms) (sdm ms) (events ms).
Definition with_sdm ms (s : option SDMMeta) : MS :=
  mkStore (cfg ms) (state ms) (msgs ms) (closed ms) (fss ms) (dmap ms) (maxp ms) (scb ms) (rmcb ms) (pmsgcb ms) (ageChk ms) (ageChkRun ms)
    (ageChkTime ms) (consumers ms) (receivedAny ms) (ttls ms) (scheduling ms) s (events ms).
Definition with_ttls ms (w : option W) : MS :=
  mkStore (cfg ms) (state ms) (msgs ms) (closed ms) (fss ms) (dmap ms) (maxp ms) (scb ms) (rmcb ms) (pmsgcb ms) (ageChk ms) (ageChkRun ms)
    (ageChkTime ms) (consumers ms) (receivedAny ms) w (scheduling ms) (sdm ms) (events ms).
Definition with_scheduling ms (s : option (MsgScheduling W)) : MS :=
  mkStore (cfg ms) (state ms) (msgs ms) (closed ms) (fss ms) (dmap ms) (maxp ms) (scb ms) (rmcb ms) (pmsgcb ms) (ageChk ms) (ageChkRun ms)
    (ageChkTime ms) (consumers ms) (receivedAny ms) (ttls ms) s (sdm ms) (events ms).
Definition with_age ms (chk : option Z) (run : bool) (t : Z) : MS :=
  mkStore (cfg ms) (state ms) (msgs ms) (closed ms) (fss ms) (dmap ms) (maxp ms) (scb ms) (rmcb ms) (pmsgcb ms) chk run
    t (consumers ms) (receivedAny ms) (ttls ms) (scheduling ms) (sdm ms) (events ms).
Definition with_received ms : MS :=
  mkStore (cfg ms) (state ms) (msgs ms) (closed ms) (fss ms) (dmap ms) (maxp ms) (scb ms) (rmcb ms) (pmsgcb ms) (ageChk ms) (ageChkRun ms)
    (ageChkTime ms) (consumers ms) true (ttls ms) (scheduling ms) (sdm ms) (events ms).
Definition with_closed ms (b : bool) : MS :=
  mkStore (cfg ms) (state ms) (msgs ms) b (fss ms) (dmap ms) (maxp ms) (scb ms) (rmcb ms) (pmsgcb ms) (ageChk ms) (ageChkRun ms)
    (ageChkTime ms) (consumers ms) (receivedAny ms) (ttls ms) (scheduling ms) (sdm ms) (events ms).
Definition emit ms (e : event) : MS :=
  mkStore (cfg ms) (state ms) (msgs ms) (closed ms) (fss ms) (dmap ms) (maxp ms) (scb ms) (rmcb ms) (pmsgcb ms) (ageChk ms) (ageChkRun ms)
    (ageChkTime ms) (consumers ms) (receivedAny ms) (ttls ms) (scheduling ms) (sdm ms) (events ms ++ [e]).

(** [if ms.scb != nil { ms.scb(...) }] *)
Definition notify ms (n bytes seq : Z) (subj : string) : MS := if scb ms then emit ms (StorageUpdate n bytes seq subj) else ms.

Definition has_msg ms (k : Z) : bool := match msgs ms !! k with Some _ => true | None => false end.
Definition has_subj ms (s : string) (k : Z) : bool :=
  match msgs ms !! k with Some sm => String.eqb (m_subj sm) s | None => false end.

(** [newMemStore] without the purge to the first sequence. *)
Definition empty_store (c : StreamConfig) : MS :=
  mkStore c (mkState 0 0 0 None 0 None) ∅ false sm_New ss_New (MaxMsgsPer c) false false false None false 0 0 false
    (if AllowMsgTTL c then Some tw_New else None) (if AllowMsgSchedules c then Some Sched.newMsgScheduling else None) None [].

(** ** Per-subject state *)

(** The second half of [recalculateForSubj]. *)
Definition recalculate_last ms (s : string) (ss : SimpleState) : SimpleState :=
  if lastNeedsUpdate ss then
    let tseq := u64 (Last ss - 1) in
    let tseq := if LastSeq (state ms) <? tseq then LastSeq (state ms) else tseq in
    match first_down (has_subj ms s) tseq (First ss) with
    | Some k => if Msgs ss =? 1 then mkSS (Msgs ss) k k false false else mkSS (Msgs ss) (First ss) k (firstNeedsUpdate ss) false
    | None => ss
    end
  else ss.

Definition recalculateForSubj ms (s : string) (ss : SimpleState) : SimpleState :=
  if firstNeedsUpdate ss then
    let tseq := u64 (First ss + 1) in
    let tseq := if tseq <? FirstSeq (state ms) then FirstSeq (state ms) else tseq in
    match first_up (has_subj ms s) tseq (Last ss) with
    | Some k =>
        if Msgs ss =? 1 then mkSS (Msgs ss) k k false false
        else recalculate_last ms s (mkSS (Msgs ss) k (Last ss) false (lastNeedsUpdate ss))
    | None => recalculate_last ms s ss
    end
  else recalculate_last ms s ss.

(** [if ss.firstNeedsUpdate || ss.lastNeedsUpdate { ms.recalculateForSubj(subj, ss) }], with the
    write through [ss]. *)
Definition refresh ms (s : string) (ss : SimpleState) : option (MS * SimpleState) :=
  if firstNeedsUpdate ss || lastNeedsUpdate ss then
    let ss := recalculateForSubj ms s ss in
    f ← sm_Insert (fss ms) s ss; Some (with_fss ms f, ss)
  else Some (ms, ss).

(** The per-subject state after one message less. *)
Definition ss_remove (ss : SimpleState) (seq : Z) : SimpleState :=
  let n := Msgs ss - 1 in
  if (n =? 1) && negb (lastNeedsUpdate ss) && negb (seq =? Last ss) then mkSS n (Last ss) (Last ss) false (lastNeedsUpdate ss)
  else if (n =? 1) && negb (firstNeedsUpdate ss) && negb (seq =? First ss) then mkSS n (First ss) (First ss) (firstNeedsUpdate ss) false
  else mkSS n (First ss) (Last ss) ((seq =? First ss) || firstNeedsUpdate ss) ((seq =? Last ss) || lastNeedsUpdate ss).

Definition removeSeqPerSubject ms (s : string) (seq : Z) : option MS :=
  match sm_Find (fss ms) s with
  | None => Some ms
  | Some ss =>
      let ms := with_sdm ms (removeSeqAndSubject (sdm ms) seq s) in
      if Msgs ss =? 1 then f ← sm_Delete (fss ms) s; Some (with_fss ms f)
      else f ← sm_Insert (fss ms) s (ss_remove ss seq); Some (with_fss ms f)
  end.

(** ** Removal *)

Definition set_first ms (fseq : Z) (ft : option Z) : MS :=
  let st := state ms in with_state ms (mkState (sMsgs st) (sBytes st) fseq ft (LastSeq st) (LastTime st)).

(** [for seq := from; seq < to; seq++ { ms.dmap.Delete(seq) }] *)
Definition dmap_delete (d : D) (from to : Z) : D := fold_left ss_Delete (seqZ from (to - from)) d.

Definition updateFirstSeq ms (seq : Z) : MS :=
  let st := state ms in
  if negb (seq =? FirstSeq st) then ms else
  let oldFirst := FirstSeq st in
  let ms :=
    match k ← first_up (has_msg ms) (FirstSeq st + 1) (LastSeq st); msgs ms !! k with
    | Some nsm => set_first ms (m_seq nsm) (Some (m_ts nsm))
    | None => set_first ms (u64 (LastSeq st + 1)) None
    end in
  let fseq := FirstSeq (state ms) in
  if oldFirst =? u64 (fseq - 1) then with_dmap ms (ss_Delete (dmap ms) oldFirst)
  else with_dmap ms (dmap_delete (dmap ms) oldFirst fseq).

(** [time.Duration(ts) + time.Second*time.Duration(ttl)] *)
Definition expires (ts ttl : Z) : Z := i64 (ts + i64 (1000000000 * ttl)).

Definition ttl_remove ms (sm : StoreMsg) (seq : Z) : MS :=
  match ttls ms with
  | None => ms
  | Some w =>
      match getMessageTTL (m_hdr sm) with
      | None => ms
      | Some ttl => with_ttls ms (Some (default w (tw_Remove w seq (expires (m_ts sm) ttl))))
      end
  end.

(** With [secure] the code also overwrites the header and the body of the removed message. *)
Definition removeMsg ms (seq : Z) : option (MS * bool) :=
  match msgs ms !! seq with
  | None => Some (ms, false)
  | Some sm =>
      let st := state ms in
      let size := if 0 <? sMsgs st then Z.min (size_of sm) (sBytes st) else size_of sm in
      let ms :=
        if 0 <? sMsgs st
        then with_state ms (mkState (sMsgs st - 1) (sBytes st - size) (FirstSeq st) (FirstTime st) (LastSeq st) (LastTime st))
        else ms in
      let ms := with_dmap ms (ss_Insert (dmap ms) seq) in
      let ms := updateFirstSeq ms seq in
      ms ← removeSeqPerSubject ms (m_subj sm) seq;
      let ms := ttl_remove ms sm seq in
      let ms := with_msgs ms (delete seq (msgs ms)) in
      Some (notify ms (-1) (- size) seq (m_subj sm), true)
  end.

Definition RemoveMsg ms (seq : Z) : option (MS * bool) := removeMsg ms seq.
Definition EraseMsg ms (seq : Z) : option (MS * bool) := removeMsg ms seq.

(** ** Limits *)

(** The loop of [enforcePerSubjectLimit]; [ss] is read again from the tree, where [removeMsg]
    has changed it. *)
Fixpoint enforce_subject (fuel : nat) ms (s : string) : option MS :=
  match fuel with
  | O => None
  | S fuel =>
      match sm_Find (fss ms) s with
      | None => Some ms
      | Some ss =>
          if maxp ms <? Msgs ss then
            '(ms, ss) ← refresh ms s ss;
            '(ms, ok) ← removeMsg ms (First ss);
            if ok : bool then enforce_subject fuel ms s else Some ms
          else Some ms
      end
  end.

Definition enforcePerSubjectLimit ms (s : string) (ss : SimpleState) : option MS :=
  if maxp ms <=? 0 then Some ms else enforce_subject (S (Z.to_nat (Msgs ss))) ms s.

Definition deleteFirstMsg ms : option (MS * bool) := removeMsg ms (FirstSeq (state ms)).

Definition deleteFirstMsgOrPanic ms : option MS :=
  '(ms, ok) ← deleteFirstMsg ms; if ok : bool then Some ms else None.

(** The loops of [enforceMsgLimit] and [enforceBytesLimit]. *)
Fixpoint enforce_loop (over : StreamState -> bool) (fuel : nat) ms : option MS :=
  if over (state ms) then
    match fuel with
    | O => None
    | S fuel => ms ← deleteFirstMsgOrPanic ms; enforce_loop over fuel ms
    end
  else Some ms.

Definition is_old ms : bool := match Discard (cfg ms) with DiscardOld => true | DiscardNew => false end.

Definition enforceMsgLimit ms : option MS :=
  if negb (is_old ms) then Some ms
  else if (MaxMsgs (cfg ms) <=? 0) || (sMsgs (state ms) <=? MaxMsgs (cfg ms)) then Some ms
  else enforce_loop (fun st => MaxMsgs (cfg ms) <? sMsgs st) (Z.to_nat (sMsgs (state ms))) ms.

Definition enforceBytesLimit ms : option MS :=
  if negb (is_old ms) then Some ms
  else if (MaxBytes (cfg ms) <=? 0) || (sBytes (state ms) <=? MaxBytes (cfg ms)) then Some ms
  else enforce_loop (fun st => MaxBytes (cfg ms) <? sBytes st) (Z.to_nat (sMsgs (state ms))) ms.

(** ** The age timer *)

Definition startAgeChk ms : MS :=
  match ageChk ms with
  | Some _ => ms
  | None =>
      if negb (MaxAge (cfg ms) =? 0) || match ttls ms with Some _ => true | None => false end
      then with_age ms (Some (MaxAge (cfg ms))) (ageChkRun ms) (ageChkTime ms) else ms
  end.

(** [now] is read by [time.Until], [ats] by [ats.AccessTime]. *)
Definition resetAgeChk ms (delta now ats : Z) : MS :=
  if ageChkRun ms then ms else
  let next := match ttls ms with Some w => tw_GetNextExpiration w max_int64 | None => max_int64 end in
  if (MaxAge (cfg ms) <=? 0) && (next =? max_int64) then with_age ms None (ageChkRun ms) (ageChkTime ms) else
  let fireIn := MaxAge (cfg ms) in
  let fireIn := if (delta =? 0) && (0 <? sMsgs (state ms)) && (2000000000 <? fireIn) then 2000000000 else fireIn in
  let fireIn :=
    if next <? max_int64 then
      let until := time_until next now in if (fireIn =? 0) || (until <? fireIn) then until else fireIn
    else fireIn in
  let fireIn := if (0 <? delta) && ((fireIn =? 0) || (delta <? fireIn)) then delta else fireIn in
  let fireIn := if fireIn <? 250000000 then 250000000 else fireIn in
  let exp := i64 (ats + fireIn) in
  if (0 <? ageChkTime ms) && (ageChkTime ms <? exp) then ms
  else with_age ms (Some fireIn) (ageChkRun ms) exp.

Definition cancelAgeChk ms : MS :=
  match ageChk ms with Some _ => with_age ms None (ageChkRun ms) 0 | None => ms end.

(** ** Storing *)

(** The checks of a stream that discards new messages; [ss] is the state of the subject. *)
Definition discard_new ms (s h m : string) (ss : option SimpleState) (asl : bool) : option (MS * option store_error) :=
  if asl && DiscardNewPer (cfg ms) && negb (isRollup h) then Some (ms, Some ErrMaxMsgsPerSubject)
  else if (0 <? MaxMsgs (cfg ms)) && (MaxMsgs (cfg ms) <=? sMsgs (state ms)) && negb asl then Some (ms, Some ErrMaxMsgs)
  else if (0 <? MaxBytes (cfg ms)) && (MaxBytes (cfg ms) <? u64 (sBytes (state ms) + memStoreMsgSize s h m)) then
    match ss with
    | Some ss =>
        if negb asl then Some (ms, Some ErrMaxBytes) else
        '(ms, ss) ← refresh ms s ss;
        match msgs ms !! First ss with
        | Some sm => if size_of sm <? memStoreMsgSize s h m then Some (ms, Some ErrMaxBytes) else Some (ms, None)
        | None => Some (ms, Some ErrMaxBytes)
        end
    | None => Some (ms, Some ErrMaxBytes)
    end
  else Some (ms, None).

Definition track_subject ms (s : string) (seq : Z) : option MS :=
  if String.eqb s "" then Some ms else
  match sm_Find (fss ms) s with
  | Some ss =>
      let ss := mkSS (u64 (Msgs ss + 1)) (First ss) seq (firstNeedsUpdate ss) false in
      f ← sm_Insert (fss ms) s ss;
      let ms := with_fss ms f in
      if (0 <? maxp ms) && (maxp ms <? Msgs ss) then enforcePerSubjectLimit ms s ss else Some ms
  | None => f ← sm_Insert (fss ms) s (mkSS 1 seq seq false false); Some (with_fss ms f)
  end.

(** The per-message TTL and the age timer. *)
Definition track_ttl ms (seq ts ttl now ats : Z) : MS :=
  match ttls ms with
  | Some w =>
      if 0 <? ttl then resetAgeChk (with_ttls ms (Some (tw_Add w seq (expires ts ttl)))) 0 now ats
      else startAgeChk ms
  | None => if 0 <? MaxAge (cfg ms) then startAgeChk ms else ms
  end.

Definition track_schedule ms (s h : string) (seq ts now now2 : Z) : MS :=
  match scheduling ms with
  | None => ms
  | Some sc =>
      let sc :=
        match nextMessageSchedule h ts with
        | Some t => Sched.add sc seq s t now now2
        | None => if String.eqb (getMessageScheduler h) "" then Sched.removeSubject sc s else sc
        end in
      let sc :=
        match scheduleNext h with
        | Some next => if String.eqb (getMessageScheduler h) "" then sc else Sched.update sc (getMessageScheduler h) next now now2
        | None => sc
        end in
      with_scheduling ms (Some sc)
  end.

(** The message goes to [ms.msgs] and the totals. *)
Definition put_msg ms (s h m : string) (seq ts : Z) : MS :=
  let st := state ms in
  let '(fseq, ft) := if sMsgs st =? 0 then (seq, Some ts) else (FirstSeq st, FirstTime st) in
  with_state (with_msgs ms (<[seq := mkMsg s h m seq ts]> (msgs ms)))
    (mkState (u64 (sMsgs st + 1)) (u64 (sBytes st + memStoreMsgSize s h m)) fseq ft seq (Some ts)).

(** [now] and [ats] are readings of the clock and of the access time. *)
Definition storeRawMsg ms (s h m : string) (seq ts ttl : Z) (discardNewCheck : bool) (now ats : Z) : option (MS * option store_error) :=
  if closed ms then Some (ms, Some ErrStoreClosed) else
  let ss := if String.eqb s "" then None else sm_Find (fss ms) s in
  let asl := match ss with Some ss => (0 <? maxp ms) && (maxp ms <=? Msgs ss) | None => false end in
  '(ms, err) ← (if discardNewCheck && negb (is_old ms) then discard_new ms s h m ss asl else Some (ms, None));
  match err with
  | Some e => Some (ms, Some e)
  | None =>
      let next := u64 (LastSeq (state ms) + 1) in
      if negb (seq =? next) && (0 <? seq) then Some (ms, Some ErrSequenceMismatch) else
      let ms := put_msg ms s h m next ts in
      ms ← track_subject ms s next;
      ms ← enforceMsgLimit ms;
      ms ← enforceBytesLimit ms;
      let ms := track_ttl ms next ts ttl now ats in
      Some (track_schedule ms s h next ts now ats, None)
  end.

Definition StoreRawMsg ms (s h m : string) (seq ts ttl : Z) (discardNewCheck : bool) (now ats : Z) : option (MS * option store_error) :=
  '(ms, err) ← storeRawMsg ms s h m seq ts ttl discardNewCheck now ats;
  let ms :=
    if negb (receivedAny ms) && negb (MaxAge (cfg ms) =? 0) && (0 <? ts)
    then resetAgeChk (with_received ms) 50000000 now ats else ms in
  match err with
  | None => Some (notify ms 1 (memStoreMsgSize s h m) seq s, None)
  | Some e => Some (ms, Some e)
  end.

(** The sequence and time stamp returned, or the error. *)
Definition StoreMsg_ ms (s h m : string) (ttl now ats : Z) : option (MS * (store_error + Z * Z)) :=
  let seq := u64 (LastSeq (state ms) + 1) in
  '(ms, err) ← storeRawMsg ms s h m seq now ttl true now ats;
  match err with
  | Some e => Some (ms, inl e)
  | None => Some (notify ms 1 (memStoreMsgSize s h m) seq s, inr (seq, now))
  end.

Definition set_last ms (lseq : Z) (lt : option Z) : MS :=
  let st := state ms in with_state ms (mkState (sMsgs st) (sBytes st) (FirstSeq st) (FirstTime st) lseq lt).

Definition SkipMsg ms (seq ats : Z) : MS * (store_error + Z) :=
  let next := u64 (LastSeq (state ms) + 1) in
  if negb (seq =? next) && (0 <? seq) then (ms, inl ErrSequenceMismatch) else
  let ms := set_last ms next (Some ats) in
  if sMsgs (state ms) =? 0 then (set_first ms (u64 (next + 1)) None, inr next)
  else (with_dmap ms (ss_Insert (dmap ms) next), inr next).

Definition SkipMsgs ms (seq num ats : Z) : MS * option store_error :=
  let next := u64 (LastSeq (state ms) + 1) in
  if negb (seq =? next) && (0 <? seq) then (ms, Some ErrSequenceMismatch) else
  let lseq := u64 (next + num - 1) in
  let ms := set_last ms lseq (Some ats) in
  if sMsgs (state ms) =? 0 then (set_first ms (u64 (lseq + 1)) None, None)
  else (with_dmap ms (fold_left ss_Insert (seqZ next (lseq + 1 - next)) (dmap ms)), None).

(** ** Purging *)

(** All messages, the per-subject state, the deleted sequences and the pending markers go. *)
Definition clear ms (st : StreamState) : MS :=
  mkStore (cfg ms) st ∅ (closed ms) sm_New (ss_Empty (dmap ms)) (maxp ms) (scb ms) (rmcb ms) (pmsgcb ms) (ageChk ms) (ageChkRun ms)
    (ageChkTime ms) (consumers ms) (receivedAny ms) (ttls ms) (scheduling ms) (sdm_empty (sdm ms)) (events ms).

Definition num_msgs ms : Z := Z.of_nat (size (msgs ms)).

Definition purge ms (fseq : Z) : MS * (store_error + Z) :=
  let st := state ms in
  let purged := num_msgs ms in
  if (0 <? fseq) && (fseq <? LastSeq st) then (ms, inl ErrPartialPurge) else
  let fseq := if fseq =? 0 then u64 (LastSeq st + 1) else fseq in
  let ms := clear ms (mkState 0 0 fseq None (u64 (fseq - 1)) (LastTime st)) in
  (notify ms (- purged) (- i64 (sBytes st)) 0 "", inr purged).

Definition Purge ms : MS * (store_error + Z) := purge ms 0.

(** [newMemStore] for a configuration with memory storage. *)
Definition newMemStore (c : StreamConfig) : store_error + MS :=
  if 0 <? cfgFirstSeq c then
    match purge (empty_store c) (cfgFirstSeq c) with (_, inl e) => inl e | (ms, inr _) => inr ms end
  else inr (empty_store c).

(** One step of the loops of [compact] and [Truncate]: the message at [seq] goes, or the deleted
    sequence. *)
Definition drop_seq (r : option (MS * Z * Z)) (seq : Z) : option (MS * Z * Z) :=
  '(ms, purged, bytes) ← r;
  match msgs ms !! seq with
  | Some sm =>
      ms ← removeSeqPerSubject ms (m_subj sm) seq;
      Some (with_msgs ms (delete seq (msgs ms)), purged + 1, u64 (bytes + size_of sm))
  | None => Some (if ss_IsEmpty (dmap ms) then ms else with_dmap ms (ss_Delete (dmap ms) seq), purged, bytes)
  end.

(** [ms.state.Msgs -= purged; ms.state.Bytes -= bytes], no more than there is. *)
Definition subtract ms (purged bytes : Z) : MS * Z * Z :=
  let st := state ms in
  let purged := Z.min purged (sMsgs st) in
  let bytes := Z.min bytes (sBytes st) in
  (with_state ms (mkState (sMsgs st - purged) (sBytes st - bytes) (FirstSeq st) (FirstTime st) (LastSeq st) (LastTime st)), purged, bytes).

(** [None] also stands for the loop [for seq := seq-1; seq >= fseq; seq--] that does not end when
    [fseq] is 0. *)
Definition compact ms (seq : Z) : option (MS * (store_error + Z)) :=
  if seq =? 0 then Some (Purge ms) else
  let st := state ms in
  if seq <? FirstSeq st then Some (ms, inr 0) else
  if seq <=? LastSeq st then
    let fseq := FirstSeq st in
    let next := first_up (has_msg ms) seq (LastSeq st) in
    let ms :=
      match k ← next; msgs ms !! k with
      | Some sm => set_first ms (default 0 next) (Some (m_ts sm))
      | None => ms
      end in
    let stop := default (LastSeq st + 1) next in
    if fseq =? 0 then None else
    '(ms, purged, bytes) ← fold_left drop_seq (rev (seqZ fseq (stop - fseq))) (Some (ms, 0, 0));
    let '(ms, purged, bytes) := subtract ms purged bytes in
    Some (notify ms (- purged) (- i64 bytes) 0 "", inr purged)
  else
    let purged := num_msgs ms in
    let ms := with_closed (clear ms (mkState 0 0 seq None (seq - 1) (LastTime st))) false in
    Some (notify ms (- purged) (- i64 (sBytes st)) 0 "", inr purged).

Definition Compact ms (seq : Z) : option (MS * (store_error + Z)) := compact ms seq.

(** The sizes are summed over [ms.msgs] in any order. *)
Definition reset ms (now : Z) : MS :=
  let purged := if scb ms then num_msgs ms else 0 in
  let bytes := if scb ms then u64 (foldr (fun kv acc => size_of kv.2 + acc) 0 (map_to_list (msgs ms))) else 0 in
  let ms := with_closed (clear ms (mkState 0 0 0 None 0 (Some now))) false in
  notify ms (- purged) (- i64 bytes) 0 "".

Definition Truncate ms (seq now : Z) : option MS :=
  if seq =? 0 then Some (reset ms now) else
  let lastTime := match msgs ms !! seq with Some lsm => Some (m_ts lsm) | None => LastTime (state ms) end in
  '(ms, purged, bytes) ← fold_left drop_seq (rev (seqZ (seq + 1) (LastSeq (state ms) - seq))) (Some (ms, 0, 0));
  let ms := set_last ms seq lastTime in
  let '(ms, purged, bytes) := subtract ms purged bytes in
  Some (notify ms (- purged) (- i64 bytes) 0 "").

(** [Stop] closes the store; the messages go with the purge. *)
Definition Stop ms : MS :=
  if closed ms then ms else
  let ms := match ageChk ms with Some _ => with_age ms None (ageChkRun ms) 0 | None => ms end in
  (Purge (with_closed (with_msgs ms ∅) true)).1.

Definition isClosed ms : bool := closed ms.
End ops.
End Mem.
