(* ===== verification/MemStoreQuery.v ===== *)
(** * Memory store: queries (src/server/memstore.go)

    Loading messages by sequence, subject and filter, the sequence for a time, the totals of a
    filter, and the purge of a filter. *)

From S2P Require Import Prelude Subject Scheduler MemStore.
Import Sched Mem.

Module MemQuery.

Definition string_le (a b : string) : Prop := String.leb a b = true.
#[global] Instance string_le_dec a b : Decision (string_le a b).
Proof. unfold string_le. apply _. Defined.

Section query.
Context {F D W : Type} `{SubjectMap F SimpleState} `{SeqSetI D} `{TimerWheel W} `{Headers}.
Notation MS := (memStore F D W).
Implicit Types (ms : MS).

(** ** Single messages *)

Definition SubjectForSeq ms (seq : Z) : store_error + string :=
  if seq <? FirstSeq (state ms) then inl ErrStoreMsgNotFound else
  match msgs ms !! seq with Some sm => inr (m_subj sm) | None => inl ErrStoreMsgNotFound end.

Definition loadMsgLocked ms (seq : Z) : store_error + StoreMsg :=
  match msgs ms !! seq with
  | Some sm => inr sm
  | None => inl (if seq <=? LastSeq (state ms) then ErrStoreMsgNotFound else ErrStoreEOF)
  end.

Definition LoadMsg ms (seq : Z) : store_error + StoreMsg := loadMsgLocked ms seq.

(** ** Next and previous *)

(** The result of a search: the message with its sequence, or the sequence to go on from. *)
Definition found : Type := StoreMsg * Z + Z.

Definition result_at ms (k : option Z) (skip : Z) : found :=
  match k with
  | Some k => match msgs ms !! k with Some sm => inl (sm, k) | None => inr skip end
  | None => inr skip
  end.

(** [eq(sm.subj, filter)] with [matchLiteral] or equality, or any subject. *)
Definition subj_matches (isAll wc : bool) (filter s : string) : bool :=
  isAll || (if wc then Subj.matchLiteral s filter else String.eqb s filter).
Definition msg_matches ms (p : string -> bool) (k : Z) : bool :=
  match msgs ms !! k with Some sm => p (m_subj sm) | None => false end.

(** The writes through the pointers of a walk, applied after it: a walk writes only the entry it
    visits. *)
Definition write_all (f : F) (l : list (string * SimpleState)) : option F :=
  fold_left (fun f sv => f ← f; sm_Insert f sv.1 sv.2) l (Some f).

(** The callback of [nextWildcardMatchLocked]: found, first, last and the writes. *)
Definition wildcard_cb ms (start : Z) (c : bool * Z * Z * list (string * SimpleState)) (s : string) (ss : SimpleState)
  : (bool * Z * Z * list (string * SimpleState)) * bool :=
  let '(fnd, first, last, w) := c in
  let ss := recalculateForSubj ms s ss in
  let w := w ++ [(s, ss)] in
  if Last ss <? start then ((fnd, first, last, w), true) else
  let first := if First ss <? first then First ss else first in
  let last := if last <? Last ss then Last ss else last in
  ((true, first, last, w), start <? first).

Definition nextWildcardMatchLocked ms (filter : string) (start : Z) : option (MS * option (Z * Z)) :=
  let '((fnd, first, last, w), _) := sm_MatchUntil (wildcard_cb ms start) (fss ms) filter (false, LastSeq (state ms), 0, []) in
  f ← write_all (fss ms) w;
  Some (with_fss ms f, if fnd : bool then Some (Z.max first start, last) else None).

Definition nextLiteralMatchLocked ms (filter : string) (start : Z) : option (MS * option (Z * Z)) :=
  match sm_Find (fss ms) filter with
  | None => Some (ms, None)
  | Some ss =>
      let ss := recalculateForSubj ms filter ss in
      f ← sm_Insert (fss ms) filter ss;
      Some (with_fss ms f, if Last ss <? start then None else Some (Z.max start (First ss), Last ss))
  end.

Definition shouldLinearScan ms (filter : string) (wc : bool) (start : Z) : bool :=
  String.eqb filter Subj.fwcs || (i64 (2 * i64 (u64 (LastSeq (state ms) - start))) <? sm_Size (fss ms)) || (wc && (256 <? sm_Size (fss ms))).

Definition loadNextMsgLocked ms (filter : string) (wc : bool) (start : Z) : option (MS * found) :=
  let start := if start <? FirstSeq (state ms) then FirstSeq (state ms) else start in
  let lseq := LastSeq (state ms) in
  if (lseq <? start) || (sMsgs (state ms) =? 0) then Some (ms, inr lseq) else
  let filter := if String.eqb filter "" then Subj.fwcs else filter in
  let isAll := String.eqb filter Subj.fwcs in
  '(ms, bounds) ← (if shouldLinearScan ms filter wc start then Some (ms, Some (start, lseq))
                   else if wc then nextWildcardMatchLocked ms filter start
                   else nextLiteralMatchLocked ms filter start);
  match bounds with
  | None => Some (ms, inr lseq)
  | Some (fseq, lseq') => Some (ms, result_at ms (first_up (msg_matches ms (subj_matches isAll wc filter)) fseq lseq') lseq)
  end.

Definition LoadNextMsg ms (filter : string) (wc : bool) (start : Z) : option (MS * found) := loadNextMsgLocked ms filter wc start.

(** [HasInterest] of the sublist is an argument. *)
Definition LoadNextMsgMulti ms (interest : string -> bool) (start : Z) : found :=
  let start := if start <? FirstSeq (state ms) then FirstSeq (state ms) else start in
  let lseq := LastSeq (state ms) in
  if (lseq <? start) || (sMsgs (state ms) =? 0) then inr lseq else
  result_at ms (first_up (msg_matches ms interest) start lseq) lseq.

Definition LoadPrevMsg ms (filter : string) (wc : bool) (start : Z) : store_error + found :=
  if closed ms then inl ErrStoreClosed else
  let fseq := FirstSeq (state ms) in
  if (sMsgs (state ms) =? 0) || (start <? fseq) then inr (inr fseq) else
  let start := if LastSeq (state ms) <? start then LastSeq (state ms) else start in
  let '(filter, wc) := if String.eqb filter "" then (Subj.fwcs, true) else (filter, wc) in
  let isAll := String.eqb filter Subj.fwcs in
  inr (result_at ms (first_down (msg_matches ms (subj_matches isAll wc filter)) start fseq) fseq).

Definition LoadPrevMsgMulti ms (interest : string -> bool) (start : Z) : found :=
  let start := if LastSeq (state ms) <? start then LastSeq (state ms) else start in
  let fseq := FirstSeq (state ms) in
  if (start <? fseq) || (sMsgs (state ms) =? 0) then inr fseq else
  result_at ms (first_down (msg_matches ms interest) start fseq) fseq.

(** ** Sequence for a time *)

(** The binary search of [GetSeqFromTime]; the inner loop over a gap is [first_up]. *)
Fixpoint time_search ms (fuel : nat) (ts fseq lseq seq : Z) : option Z :=
  match fuel with
  | O => None
  | S fuel =>
      if fseq <=? lseq then
        let mid := fseq + (lseq - fseq) / 2 in
        match k ← first_up (has_msg ms) mid lseq; sm ← msgs ms !! k; Some (k, sm) with
        | None => time_search ms fuel ts fseq (mid - 1) seq
        | Some (k, sm) =>
            if ts <=? m_ts sm then
              if mid =? fseq then Some (m_seq sm) else time_search ms fuel ts fseq (mid - 1) (m_seq sm)
            else time_search ms fuel ts (k + 1) lseq seq
        end
      else Some seq
  end.

(** [None] is the panic on a missing first message. *)
Definition GetSeqFromTime ms (t : Z) : option Z :=
  let st := state ms in
  let after := u64 (LastSeq st + 1) in
  if Nat.eqb (size (msgs ms)) 0 then Some after else
  fm ← msgs ms !! FirstSeq st;
  if t <=? m_ts fm then Some (FirstSeq st) else
  match k ← first_down (has_msg ms) (LastSeq st) (FirstSeq st + 1); msgs ms !! k with
  | None => Some after
  | Some lmsg =>
      if t =? m_ts lmsg then Some (m_seq lmsg)
      else if m_ts lmsg <? t then Some after
      else time_search ms (S (Z.to_nat (LastSeq st + 1 - FirstSeq st))) t (FirstSeq st) (LastSeq st) after
  end.

(** ** Totals of a filter *)

(** [isMatch] of [filteredStateLocked]. *)
Definition isMatch (filter s : string) : bool :=
  if String.eqb filter Subj.fwcs then true
  else if negb (Subj.subjectHasWildcard filter) then String.eqb s filter
  else Subj.isSubsetMatchTokenized (Subj.split s) (Subj.split filter).

Definition zero_ss : SimpleState := mkSS 0 0 0 false false.

(** [update] of the walk. *)
Definition ss_add (lastPer : bool) (ss f : SimpleState) : SimpleState :=
  let '(n, first, last) := if lastPer then (1, Last f, Last f) else (Msgs f, First f, Last f) in
  mkSS (u64 (Msgs ss + n)) (if (First ss =? 0) || (first <? First ss) then first else First ss)
    (if Last ss <? last then last else Last ss) false false.

(** The state of the walk: the totals, whether a subject is partly before [sseq], the messages of
    the subjects before [sseq], and the writes. *)
Record walk : Type := mkWalk { w_ss : SimpleState; w_partial : bool; w_skipped : Z; w_writes : list (string * SimpleState) }.

Definition filtered_cb ms (sseq : Z) (lastPer : bool) (c : walk) (s : string) (f : SimpleState) : walk * bool :=
  let '(f, w) :=
    if firstNeedsUpdate f || lastNeedsUpdate f
    then (recalculateForSubj ms s f, w_writes c ++ [(s, recalculateForSubj ms s f)]) else (f, w_writes c) in
  (if sseq <=? First f then mkWalk (ss_add lastPer (w_ss c) f) (w_partial c) (w_skipped c) w
   else if sseq <=? Last f then mkWalk (ss_add lastPer (w_ss c) f) true (w_skipped c) w
   else mkWalk (w_ss c) (w_partial c) (u64 (w_skipped c + Msgs f)) w, true).

(** Messages in sequence order, and in the order in which Go ranges over [ms.msgs]. *)
Definition msgs_between ms (first last : Z) : list StoreMsg := omap (fun k => msgs ms !! k) (seqZ first (last + 1 - first)).
Variable msg_range : gmap Z StoreMsg -> list StoreMsg.

(** The loop bodies over the messages, with the subjects seen when only the last message of each
    subject counts. *)
Section scan.
Variable ok : string -> bool.
Variable lastPer : bool.
Definition blocked (seen : gset string) (sm : StoreMsg) : bool :=
  (lastPer && bool_decide (m_subj sm ∈ seen)) || negb (ok (m_subj sm)).
Definition mark (seen : gset string) (sm : StoreMsg) : gset string := if lastPer then seen ∪ {[m_subj sm]} else seen.

Definition include_step (c : Z * Z * gset string) (sm : StoreMsg) : Z * Z * gset string :=
  let '(n, first, seen) := c in
  if blocked seen sm then c else (u64 (n + 1), if first =? 0 then m_seq sm else first, mark seen sm).

(** [adjust] is not counted for a subject with messages from [first] on. *)
Definition exclude_step ms (first : Z) (c : Z * gset string) (sm : StoreMsg) : Z * gset string :=
  let '(adjust, seen) := c in
  if blocked seen sm then c else
  let tss := if lastPer then sm_Find (fss ms) (m_subj sm) else None in
  (match tss with
   | None => u64 (adjust + 1)
   | Some tss => if Last tss <? first then u64 (adjust + 1) else adjust
   end, mark seen sm).

Definition tail_step (c : Z * gset string) (sm : StoreMsg) : Z * gset string :=
  let '(adjust, seen) := c in if blocked seen sm then c else (u64 (adjust + 1), mark seen sm).
End scan.

(** The scan of the messages that count. *)
Definition scan_include ms (ok : string -> bool) (lastPer : bool) (first last : Z) : Z * Z :=
  let l :=
    if num_msgs ms <? u64 (last - first)
    then List.filter (fun sm => (first <=? m_seq sm) && (m_seq sm <=? last)) (msg_range (msgs ms))
    else msgs_between ms first last in
  (fold_left (include_step ok lastPer) l (0, 0, ∅)).1.

(** The scan of the messages that do not count. *)
Definition scan_exclude ms (ok : string -> bool) (lastPer : bool) (first last : Z) : Z :=
  let st := state ms in
  let l :=
    if num_msgs ms <? u64 (first - FirstSeq st)
    then List.filter (fun sm => m_seq sm <? first) (msg_range (msgs ms))
    else msgs_between ms (FirstSeq st) (first - 1) in
  (fold_left (tail_step ok lastPer) (msgs_between ms (last + 1) (LastSeq st - 1))
     (fold_left (exclude_step ok lastPer ms first) l (0, ∅))).1.

(** [ss.First] when the walk gave a sequence before [sseq]. *)
Definition scan_first ms (ok : string -> bool) (first last : Z) : Z :=
  let lseq := LastSeq (state ms) in
  if u64 (100 * num_msgs ms) <? u64 (last - first) then
    let low := fold_left (fun low sm => if (first <=? m_seq sm) && (m_seq sm <? last) && ok (m_subj sm) && (m_seq sm <? low) then m_seq sm else low)
                 (msg_range (msgs ms)) lseq in
    if low <? lseq then low else first
  else default first (first_up (msg_matches ms ok) first (last - 1)).

(** The part after the walk, when a subject has messages before and after [sseq]. *)
Definition scan_partial ms (ok : string -> bool) (lastPer : bool) (sseq : Z) (w : walk) : SimpleState :=
  let st := state ms in
  let ss := w_ss w in
  let last := Last ss in
  let needScanFirst := First ss <? sseq in
  let first := if needScanFirst then sseq else First ss in
  if u64 (last - first) <? u64 (first - FirstSeq st + LastSeq st - Last ss) then
    let '(n, fst) := scan_include ms ok lastPer first last in
    mkSS n fst last false false
  else
    let adjust := scan_exclude ms ok lastPer first last in
    let n := u64 (Msgs ss + w_skipped w - adjust) in
    let fst := if needScanFirst then scan_first ms ok first last else first in
    mkSS n fst last false false.

Definition filteredStateLocked ms (sseq : Z) (filter : string) (lastPer : bool) : option (MS * SimpleState) :=
  let st := state ms in
  let sseq := if sseq <? FirstSeq st then FirstSeq st else sseq in
  if LastSeq st <? sseq then Some (ms, zero_ss) else
  let filter := if String.eqb filter "" then Subj.fwcs else filter in
  if String.eqb filter Subj.fwcs && (sseq <=? FirstSeq st) then
    Some (ms, mkSS (if lastPer then u64 (sm_Size (fss ms)) else sMsgs st) (FirstSeq st) (LastSeq st) false false)
  else
  let '(w, _) := sm_MatchUntil (filtered_cb ms sseq lastPer) (fss ms) filter (mkWalk zero_ss false 0 []) in
  f ← write_all (fss ms) (w_writes w);
  let ms := with_fss ms f in
  Some (ms, if w_partial w then scan_partial ms (isMatch filter) lastPer sseq w else w_ss w).

Definition FilteredState ms (sseq : Z) (filter : string) : option (MS * SimpleState) := filteredStateLocked ms sseq filter false.

(** The total and the sequence it is valid through. *)
Definition NumPending ms (sseq : Z) (filter : string) (lastPer : bool) : option (MS * (Z * Z)) :=
  '(ms, ss) ← filteredStateLocked ms sseq filter lastPer; Some (ms, (Msgs ss, LastSeq (state ms))).

(** [NumPendingMulti] for a sublist: its [HasInterest] and the walk [IntersectGSL] over the tree. *)
Definition NumPendingMulti ms (sseq : Z) (interest : string -> bool)
    (intersect : (walk -> string -> SimpleState -> walk) -> F -> walk -> walk) (lastPer : bool) : option (MS * (Z * Z)) :=
  let st := state ms in
  let sseq := if sseq <? FirstSeq st then FirstSeq st else sseq in
  if LastSeq st <? sseq then Some (ms, (0, LastSeq st)) else
  let w := intersect (fun c s f => (filtered_cb ms sseq lastPer c s f).1) (fss ms) (mkWalk zero_ss false 0 []) in
  f ← write_all (fss ms) (w_writes w);
  let ms := with_fss ms f in
  Some (ms, (Msgs (if w_partial w then scan_partial ms interest lastPer sseq w else w_ss w), LastSeq st)).

Definition loadLastLocked ms (subject : string) : option (MS * (store_error + StoreMsg)) :=
  let get ms (k : Z) := match msgs ms !! k with Some sm => inr sm | None => inl ErrStoreMsgNotFound end in
  if String.eqb subject "" || String.eqb subject Subj.fwcs then Some (ms, get ms (LastSeq (state ms)))
  else if Subj.subjectIsLiteral subject then
    match sm_Find (fss ms) subject with
    | Some ss =>
        if 0 <? Msgs ss then
          if lastNeedsUpdate ss then
            let ss := recalculateForSubj ms subject ss in
            f ← sm_Insert (fss ms) subject ss; Some (with_fss ms f, get ms (Last ss))
          else Some (ms, get ms (Last ss))
        else Some (ms, inl ErrStoreMsgNotFound)
    | None => Some (ms, inl ErrStoreMsgNotFound)
    end
  else
    '(ms, ss) ← filteredStateLocked ms 1 subject true;
    Some (ms, if 0 <? Msgs ss then get ms (Last ss) else inl ErrStoreMsgNotFound).

Definition LoadLastMsg ms (subject : string) : option (MS * (store_error + StoreMsg)) := loadLastLocked ms subject.

(** ** Purge of a filter *)

(** [compareFn] of src/server/filestore.go. *)
Definition compareFn (subject s : string) : bool :=
  if String.eqb subject "" || String.eqb subject Subj.fwcs then true
  else if Subj.subjectHasWildcard subject then Subj.subjectIsSubsetMatch s subject
  else String.eqb s subject.

Fixpoint purge_loop ms (seqs : list Z) (subject : string) (purged max : Z) : option (MS * Z) :=
  match seqs with
  | [] => Some (ms, purged)
  | k :: seqs =>
      match msgs ms !! k with
      | Some sm =>
          if compareFn subject (m_subj sm) then
            '(ms, ok) ← removeMsg ms (m_seq sm);
            if ok : bool then
              if max <=? purged + 1 then Some (ms, purged + 1) else purge_loop ms seqs subject (purged + 1) max
            else purge_loop ms seqs subject purged max
          else purge_loop ms seqs subject purged max
      | None => purge_loop ms seqs subject purged max
      end
  end.

Definition PurgeEx ms (subject : string) (sequence keep : Z) : option (MS * (store_error + Z)) :=
  if String.eqb subject "" || String.eqb subject Subj.fwcs then
    if (keep =? 0) && (sequence =? 0) then Some (purge ms 0)
    else if 1 <? sequence then compact ms sequence
    else if 0 <? keep then
      if sMsgs (state ms) <=? keep then Some (ms, inr 0) else compact ms (u64 (LastSeq (state ms) - keep + 1))
    else Some (ms, inr 0)
  else
    '(ms, ss) ← FilteredState ms 1 subject;
    if 0 <? Msgs ss then
      if (0 <? keep) && (Msgs ss <=? keep) then Some (ms, inr 0) else
      let max := if 0 <? keep then Msgs ss - keep else Msgs ss in
      let last := if 1 <? sequence then sequence - 1 else Last ss in
      '(ms, purged) ← purge_loop ms (seqZ (First ss) (last + 1 - First ss)) subject 0 max;
      Some (ms, inr purged)
    else Some (ms, inr 0).

(** ** Summaries *)

Definition SubjectsTotals ms (filter : string) : gmap string Z :=
  if sm_Size (fss ms) =? 0 then ∅ else
  let isAll := String.eqb filter "" || String.eqb filter Subj.fwcs in
  (sm_MatchUntil (fun fst s ss =>
     (if isAll || Subj.isSubsetMatchTokenized (Subj.split s) (Subj.split filter) then <[s := Msgs ss]> fst else fst, true))
     (fss ms) filter ∅).1.

Definition SubjectsState ms (subject : string) : option (MS * gmap string SimpleState) :=
  if sm_Size (fss ms) =? 0 then Some (ms, ∅) else
  let subject := if String.eqb subject "" then Subj.fwcs else subject in
  let '((fst, w), _) := sm_MatchUntil (fun '(fst, w) s ss =>
      let '(ss, w) :=
        if firstNeedsUpdate ss || lastNeedsUpdate ss
        then (recalculateForSubj ms s ss, w ++ [(s, recalculateForSubj ms s ss)]) else (ss, w) in
      let oss := default zero_ss (fst !! s) in
      ((if First oss =? 0 then <[s := ss]> fst
        else <[s := mkSS (u64 (Msgs oss + Msgs ss)) (First oss) (Last ss) (firstNeedsUpdate oss) (lastNeedsUpdate oss)]> fst, w), true))
    (fss ms) subject (∅, []) in
  f ← write_all (fss ms) w; Some (with_fss ms f, fst).

Definition allLastSeqsLocked ms : option (MS * list Z) :=
  if Nat.eqb (size (msgs ms)) 0 then Some (ms, []) else
  let '(seqs, w) := sm_IterFast (fun '(seqs, w) s ss =>
      if lastNeedsUpdate ss then let ss := recalculateForSubj ms s ss in ((seqs ++ [Last ss], w ++ [(s, ss)]), true)
      else ((seqs ++ [Last ss], w), true)) (fss ms) ([], []) in
  f ← write_all (fss ms) w; Some (with_fss ms f, merge_sort Z.le seqs).

(** [filterIsAll]; the code sorts both slices in place. *)
Definition sort_subjects (l : list string) : list string := merge_sort string_le l.
Definition filterIsAll ms (filters : list string) : bool :=
  Nat.eqb (length filters) (length (cfgSubjects (cfg ms))) &&
  forallb (fun sf => Subj.subjectIsSubsetMatch sf.1 sf.2) (zip (sort_subjects (cfgSubjects (cfg ms))) (sort_subjects filters)).

(** The callback of [MultiLastSeqs]: the sequences, those seen, and the writes. *)
Definition multi_cb ms (maxSeq : Z) (c : list Z * gset Z * list (string * SimpleState)) (s : string) (ss : SimpleState)
  : (list Z * gset Z * list (string * SimpleState)) * bool :=
  let '(seqs, seen, w) := c in
  let '(ss, w) := if lastNeedsUpdate ss then (recalculateForSubj ms s ss, w ++ [(s, recalculateForSubj ms s ss)]) else (ss, w) in
  let add (k : Z) := if bool_decide (k ∈ seen) then (seqs, seen, w) else (seqs ++ [k], {[k]} ∪ seen, w) in
  (if Last ss <=? maxSeq then add (Last ss)
   else if 1 <? Msgs ss then match first_down (has_subj ms s) maxSeq 1 with Some k => add k | None => (seqs, seen, w) end
   else (seqs, seen, w), true).

Fixpoint multi_loop ms (filters : list string) (maxSeq maxAllowed : Z) (seqs : list Z) (seen : gset Z) : option (MS * (store_error + list Z)) :=
  match filters with
  | [] => Some (ms, inr (merge_sort Z.le seqs))
  | filter :: filters =>
      let '((seqs, seen, w), _) := sm_MatchUntil (multi_cb ms maxSeq) (fss ms) filter (seqs, seen, []) in
      f ← write_all (fss ms) w;
      let ms := with_fss ms f in
      if (0 <? maxAllowed) && (maxAllowed <? Z.of_nat (length seqs)) then Some (ms, inl ErrTooManyResults)
      else multi_loop ms filters maxSeq maxAllowed seqs seen
  end.

Definition MultiLastSeqs ms (filters : list string) (maxSeq maxAllowed : Z) : option (MS * (store_error + list Z)) :=
  if Nat.eqb (size (msgs ms)) 0 then Some (ms, inr []) else
  if (maxSeq =? 0) && (maxAllowed <=? 0) && filterIsAll ms filters then '(ms, seqs) ← allLastSeqsLocked ms; Some (ms, inr seqs)
  else multi_loop ms filters (if maxSeq =? 0 then LastSeq (state ms) else maxSeq) maxAllowed [] ∅.

(** Msgs, Bytes, first and last sequence and time, and the number of deleted messages. *)
Definition FastState ms : StreamState * Z :=
  let st := state ms in
  (st, if FirstSeq st <? LastSeq st then Z.max 0 (i64 (u64 (LastSeq st - FirstSeq st + 1 - sMsgs st))) else 0).

(** [State]: with the deleted sequences; those outside of the range are dropped from the set. *)
Definition State ms : MS * (StreamState * list Z) :=
  let st := state ms in
  if 0 <? i64 (u64 (LastSeq st - FirstSeq st + 1 - sMsgs st)) then
    let '(drop, del) := ss_Range (dmap ms) (fun k '(drop, del) =>
      (if (k <? FirstSeq st) || (LastSeq st <? k) then (drop ++ [k], del) else (drop, del ++ [k]), true)) ([], []) in
    (with_dmap ms (fold_left ss_Delete drop (dmap ms)), (st, del))
  else (ms, (st, [])).
End query.
End MemQuery.
