(* ===== verification/MemStoreAdmin.v ===== *)
(** * Memory store: expiry, configuration and synchronisation (src/server/memstore.go)

    The run of the age timer with message TTLs and subject delete markers, [UpdateConfig] with the
    recovery of the TTL and scheduling state, the handlers, and [SyncDeleted] with the deleted
    blocks of src/server/store.go.

    A clock [nat -> Z] gives the readings of [time.Now] in the order in which a call makes them.
    The lock is released around the callbacks; what other calls do meanwhile is not part of the
    call. *)

From S2P Require Import Prelude Subject Scheduler MemStore MemStoreQuery.
Import Sched Mem MemQuery.

Module MemAdmin.

Section admin.
Context {F D W : Type} `{SubjectMap F SimpleState} `{SeqSetI D} `{TimerWheel W} `{Headers}.
Notation MS := (memStore F D W).
Implicit Types (ms : MS).

Definition with_cfg ms (c : StreamConfig) : MS :=
  mkStore c (state ms) (msgs ms) (closed ms) (fss ms) (dmap ms) (maxp ms) (scb ms) (rmcb ms) (pmsgcb ms) (ageChk ms) (ageChkRun ms)
    (ageChkTime ms) (consumers ms) (receivedAny ms) (ttls ms) (scheduling ms) (sdm ms) (events ms).
Definition with_maxp ms (n : Z) : MS :=
  mkStore (cfg ms) (state ms) (msgs ms) (closed ms) (fss ms) (dmap ms) n (scb ms) (rmcb ms) (pmsgcb ms) (ageChk ms) (ageChkRun ms)
    (ageChkTime ms) (consumers ms) (receivedAny ms) (ttls ms) (scheduling ms) (sdm ms) (events ms).
Definition with_handlers ms (s r p : bool) : MS :=
  mkStore (cfg ms) (state ms) (msgs ms) (closed ms) (fss ms) (dmap ms) (maxp ms) s r p (ageChk ms) (ageChkRun ms)
    (ageChkTime ms) (consumers ms) (receivedAny ms) (ttls ms) (scheduling ms) (sdm ms) (events ms).
Definition with_consumers ms (n : Z) : MS :=
  mkStore (cfg ms) (state ms) (msgs ms) (closed ms) (fss ms) (dmap ms) (maxp ms) (scb ms) (rmcb ms) (pmsgcb ms) (ageChk ms) (ageChkRun ms)
    (ageChkTime ms) n (receivedAny ms) (ttls ms) (scheduling ms) (sdm ms) (events ms).

(** ** Handlers and consumers *)

Definition RegisterStorageUpdates ms (cb : bool) : MS := with_handlers ms cb (rmcb ms) (pmsgcb ms).
Definition RegisterStorageRemoveMsg ms (cb : bool) : MS := with_handlers ms (scb ms) cb (pmsgcb ms).
Definition RegisterProcessJetStreamMsg ms (cb : bool) : MS := with_handlers ms (scb ms) (rmcb ms) cb.

Definition AddConsumer ms : MS := with_consumers ms (consumers ms + 1).
Definition RemoveConsumer ms : MS := if 0 <? consumers ms then with_consumers ms (consumers ms - 1) else ms.

Definition ResetState ms : MS :=
  match scheduling ms with Some sc => Mem.with_scheduling ms (Some (Sched.clearInflight sc)) | None => ms end.

(** ** Subject delete markers *)

(** [now1] is read by [time.Since], [now2] is the time of the proposal. *)
Definition shouldProcessSdmLocked ms (seq : Z) (subj : string) (now1 now2 : Z) : MS * (bool * bool) :=
  let s := default newSDMMeta (sdm ms) in
  let remaining := u64 (default 0 (SubjectsTotals ms subj !! subj) - default 0 (totals s !! subj)) in
  match pending s !! seq with
  | Some p =>
      if time_until now1 (sdm_ts p) <? 2000000000 then (with_sdm ms (Some s), (sdm_last p, false)) else
      let last := sdm_last p && negb (0 <? remaining) in
      (with_sdm ms (Some (mkMeta (totals s) (<[seq := mkSdm last now2]> (pending s)))), (last, true))
  | None =>
      if default 0 (SubjectsTotals ms subj !! subj) =? 0 then (with_sdm ms (Some s), (false, true))
      else let '(s, last) := trackPending s seq subj (remaining =? 1) now2 in (with_sdm ms (Some s), (last, true))
  end.

Definition handleRemovalOrSdm ms (seq : Z) (subj : string) (sdm : bool) (ttl : Z) : MS :=
  emit ms (if sdm then DeleteMarker subj ttl else RemoveRequest seq).

(** The proposal for an expired message. *)
Definition propose ms (seq : Z) (sm : StoreMsg) (now1 now2 : Z) : MS :=
  let '(ms, (last, ok)) := shouldProcessSdmLocked ms seq (m_subj sm) now1 now2 in
  if ok : bool then handleRemovalOrSdm ms seq (m_subj sm) (last && negb (isSubjectDeleteMarker (m_hdr sm))) (sdmTTL (cfg ms)) else ms.

(** ** Expiry *)

Definition never_expires (sm : StoreMsg) : bool :=
  negb (String.eqb (m_hdr sm) "") && match getMessageTTL (m_hdr sm) with Some ttl => ttl <? 0 | None => false end.

(** The loop for [MaxAge]: the message it stops at, the last [minAge] and the clock readings
    made. *)
Fixpoint age_loop (clock : nat -> Z) (fuel : nat) ms (start minAge : Z) (i : nat) : option (MS * option StoreMsg * Z * nat) :=
  match fuel with
  | O => None
  | S fuel =>
      '(ms, r) ← LoadNextMsg ms Subj.fwcs true start;
      match r with
      | inr _ => Some (ms, None, minAge, i)
      | inl (sm, seq) =>
          if negb (m_ts sm <=? minAge) then Some (ms, Some sm, minAge, i)
          else if never_expires sm then age_loop clock fuel ms (u64 (seq + 1)) (i64 (clock i - MaxAge (cfg ms))) (S i)
          else if 0 <? sdmTTL (cfg ms) then
            age_loop clock fuel (propose ms seq sm (clock i) (clock (S i))) (u64 (seq + 1)) (i64 (clock (S (S i)) - MaxAge (cfg ms))) (S (S (S i)))
          else
            '(ms, _) ← removeMsg ms seq;
            age_loop clock fuel ms (u64 (seq + 1)) (i64 (clock i - MaxAge (cfg ms))) (S i)
      end
  end.

(** The tasks of the wheel that are due, which all stay in it. *)
Definition due_tasks (w : W) (now : Z) : W * list (Z * Z) := tw_ExpireTasks (fun l seq ts => (l ++ [(seq, ts)], false, false)) now w [].

Fixpoint remove_all ms (l : list (Z * Z)) : option MS :=
  match l with [] => Some ms | (seq, _) :: l => '(ms, _) ← removeMsg ms seq; remove_all ms l end.

Definition entry_le (a b : Z * Z) : Prop := a.1 <= b.1.
#[global] Instance entry_le_dec a b : Decision (entry_le a b).
Proof. unfold entry_le. apply _. Defined.

(** The loop over the due tasks when delete markers are enabled. *)
Fixpoint propose_all (clock : nat -> Z) ms (sm : option StoreMsg) (i : nat) (l : list (Z * Z)) : MS * option StoreMsg * nat :=
  match l with
  | [] => (ms, sm, i)
  | (seq, expires) :: l =>
      match msgs ms !! seq with
      | None => propose_all clock (Mem.with_ttls ms ((fun w => default w (tw_Remove w seq expires)) <$> Mem.ttls ms)) None i l
      | Some sm => propose_all clock (propose ms seq sm (clock i) (clock (S i))) (Some sm) (S (S i)) l
      end
  end.

Definition expireMsgs ms (clock : nat -> Z) (ats : Z) : option MS :=
  let maxAge := MaxAge (cfg ms) in
  let minAge := i64 (clock 0%nat - maxAge) in
  if (0 <? sdmTTL (cfg ms)) && (negb (rmcb ms) || negb (pmsgcb ms)) then Some (resetAgeChk ms 0 (clock 1%nat) ats) else
  let ms := with_age ms (ageChk ms) true (ageChkTime ms) in
  '(ms, sm, minAge, i) ← (if 0 <? maxAge then age_loop clock (S (size (msgs ms))) ms 0 minAge 1 else Some (ms, None, minAge, 1%nat));
  let '(ms, nextTTL, rm, i) :=
    match Mem.ttls ms with
    | None => (ms, max_int64, [], i)
    | Some w =>
        let '(w, rm) := due_tasks w (clock i) in
        (Mem.with_ttls ms (Some w),
         if 0 <? maxAge then tw_GetNextExpiration w (i64 (clock (S i) + maxAge)) else tw_GetNextExpiration w max_int64, rm, S (S i))
    end in
  '(ms, sm, i) ← (if negb (0 <? sdmTTL (cfg ms)) then ms ← remove_all ms rm; Some (ms, sm, i)
                  else Some (propose_all clock ms sm i (merge_sort entry_le rm)));
  let ms := with_age ms (ageChk ms) false 0 in
  Some (if (sMsgs (state ms) =? 0) && (nextTTL =? max_int64) then cancelAgeChk ms
        else resetAgeChk ms (match sm with None => 0 | Some sm => i64 (m_ts sm - minAge) end) (clock i) ats).

(** ** Configuration *)

(** [for sm, seq, _ = ms.loadNextMsgLocked(fwcs, true, start, ...); sm != nil; ...] *)
Fixpoint each_msg {C : Type} (fuel : nat) ms (start : Z) (f : C -> StoreMsg -> Z -> C) (c : C) : option (MS * C) :=
  match fuel with
  | O => None
  | S fuel =>
      '(ms, r) ← loadNextMsgLocked ms Subj.fwcs true start;
      match r with
      | inr _ => Some (ms, c)
      | inl (sm, seq) => each_msg fuel ms (u64 (seq + 1)) f (f c sm seq)
      end
  end.

Definition ttl_entry (w : W) (sm : StoreMsg) (seq : Z) : W :=
  if String.eqb (m_hdr sm) "" then w else
  match getMessageTTL (m_hdr sm) with
  | Some ttl => if 0 <? ttl then tw_Add w seq (expires (m_ts sm) ttl) else w
  | None => w
  end.

Definition recoverTTLState ms (now ats : Z) : option MS :=
  if sMsgs (state ms) =? 0 then Some (Mem.with_ttls ms (Some tw_New)) else
  '(ms, w) ← each_msg (S (size (msgs ms))) ms 0 ttl_entry tw_New;
  Some (resetAgeChk (Mem.with_ttls ms (Some w)) 0 now ats).

Definition schedule_entry (sc : MsgScheduling W) (sm : StoreMsg) (seq : Z) : MsgScheduling W :=
  if String.eqb (m_hdr sm) "" then sc else
  match nextMessageSchedule (m_hdr sm) (m_ts sm) with Some t => Sched.init sc seq (m_subj sm) t | None => sc end.

Definition recoverMsgSchedulingState ms (now1 now2 : Z) : option MS :=
  if sMsgs (state ms) =? 0 then Some (Mem.with_scheduling ms (Some newMsgScheduling)) else
  '(ms, sc) ← each_msg (S (size (msgs ms))) ms 0 schedule_entry newMsgScheduling;
  Some (Mem.with_scheduling ms (Some (Sched.resetTimer sc now1 now2))).

(** The message of a schedule; the last message of its source subject is read through the
    store. *)
Variable prepare : MS -> StoreMsg -> Z -> option Z.

Definition runMsgScheduling ms (now now1 now2 : Z) : MS :=
  match scheduling ms with
  | None => ms
  | Some sc =>
      let '(sc, out) := Sched.runMsgScheduling m_subj (fun seq => msgs ms !! seq) (prepare ms) sc (pmsgcb ms) now now1 now2 in
      fold_left (fun ms o => emit ms (Scheduled o.1)) out (Mem.with_scheduling ms (Some sc))
  end.

(** The subjects over the limit; enforcing it for one subject changes neither the tree nor the
    other subjects. *)
Definition subjects_over ms (n : Z) : list (string * SimpleState) :=
  sm_IterFast (fun l s ss => (if n <? Msgs ss then l ++ [(s, ss)] else l, true)) (fss ms) [].

Fixpoint enforce_all ms (l : list (string * SimpleState)) : option MS :=
  match l with [] => Some ms | (s, ss) :: l => ms ← enforcePerSubjectLimit ms s ss; enforce_all ms l end.

Definition toggle_ttls ms (now ats : Z) : option MS :=
  match AllowMsgTTL (cfg ms), Mem.ttls ms with
  | true, None => recoverTTLState ms now ats
  | false, Some _ => Some (Mem.with_ttls ms None)
  | _, _ => Some ms
  end.
Definition toggle_scheduling ms (now1 now2 : Z) : option MS :=
  match AllowMsgSchedules (cfg ms), scheduling ms with
  | true, None => recoverMsgSchedulingState ms now1 now2
  | false, Some _ => Some (Mem.with_scheduling ms None)
  | _, _ => Some ms
  end.
Definition update_age ms : MS :=
  let ms := match ageChk ms with None => if MaxAge (cfg ms) =? 0 then ms else startAgeChk ms | Some _ => ms end in
  match ageChk ms with Some _ => if MaxAge (cfg ms) =? 0 then with_age ms None (ageChkRun ms) 0 else ms | None => ms end.

(** A configuration with memory storage; [MaxMsgsPer] below -1 is -1.  [late] are the readings of the
    clock after those of [expireMsgs]. *)
Definition UpdateConfig ms (c : StreamConfig) (clock late : nat -> Z) (ats : Z) : option MS :=
  ms ← toggle_ttls (with_cfg ms c) (clock 0%nat) ats;
  ms ← toggle_scheduling ms (clock 1%nat) (clock 2%nat);
  ms ← enforceMsgLimit ms;
  ms ← enforceBytesLimit ms;
  let ms := update_age ms in
  let old := maxp ms in
  let ms := with_maxp ms (Z.max (-1) (MaxMsgsPer c)) in
  ms ← (if (0 <? maxp ms) && ((old =? 0) || (maxp ms <? old)) then enforce_all ms (subjects_over ms (maxp ms)) else Some ms);
  ms ← (if negb (MaxAge c =? 0) || AllowMsgTTL c then expireMsgs ms (fun i => clock (3 + i)%nat) ats else Some ms);
  Some (if AllowMsgSchedules c then runMsgScheduling ms (late 0%nat) (late 1%nat) (late 2%nat) else ms).

(** ** Deleted blocks *)

Inductive DeleteBlock : Type := DBSet (d : D) | DeleteRange (first num : Z) | DeleteSlice (l : list Z).

Definition block_state (b : DeleteBlock) : Z * Z * Z :=
  match b with
  | DBSet d => ss_State d
  | DeleteRange first num => (first, u64 (first + if 0 <? num then num - 1 else num), num)
  | DeleteSlice [] => (0, 0, 0)
  | DeleteSlice (x :: l) => (x, List.last l x, Z.of_nat (length (x :: l)))
  end.

(** The loop bound [First+Num] of a range wraps around. *)
Definition block_seqs (b : DeleteBlock) : list Z :=
  match b with
  | DBSet d => ss_Range d (fun k l => (l ++ [k], true)) []
  | DeleteRange first num => seqZ first (u64 (first + num) - first)
  | DeleteSlice l => l
  end.

Definition NumDeleted (dbs : list DeleteBlock) : Z := fold_left (fun n b => u64 (n + (block_state b).2)) dbs 0.

Definition remove_seqs ms (l : list Z) : option MS := remove_all ms ((fun k => (k, 0)) <$> l).

Fixpoint sync_blocks ms (lseq : Z) (dbs : list DeleteBlock) : option MS :=
  match dbs with
  | [] => Some ms
  | b :: dbs =>
      if lseq <? (block_state b).1.1 then sync_blocks ms lseq dbs
      else ms ← remove_seqs ms (block_seqs b); sync_blocks ms lseq dbs
  end.

Definition SyncDeleted ms (dbs : list DeleteBlock) : option MS :=
  match dbs with
  | [] => Some ms
  | [b] => if bool_decide (block_state b = ss_State (dmap ms)) then Some ms else sync_blocks ms (LastSeq (state ms)) dbs
  | _ => sync_blocks ms (LastSeq (state ms)) dbs
  end.
End admin.
End MemAdmin.
