(* ===== verification/MemStoreProofs.v ===== *)
(** * Memory store: invariant of the messages

    The laws of the interfaces the store uses, the invariant that ties the totals, the
    per-subject state and the deleted sequences to the messages, and removal. *)

From Stdlib Require Import Ascii.
From S2P Require Import Prelude Subject Scheduler MemStore.
Import Sched Mem.

(** ** What the store relies on *)

(** The callback on a list of entries, until it returns [false]. *)
Fixpoint until {V C : Type} (cb : C -> string -> V -> C * bool) (l : list (string * V)) (c : C) : C * bool :=
  match l with
  | [] => (c, true)
  | (s, v) :: l => let '(c, ok) := cb c s v in if ok : bool then until cb l c else (c, false)
  end.

(** A subject the tree keeps: not empty and without the byte 127. *)
Definition trackable (s : string) : bool := negb (String.eqb s "") && negb (existsb (Ascii.eqb "127"%char) (String.list_ascii_of_string s)).

Class SubjectMapLaws (F V : Type) `{SubjectMap F V} : Type := {
  sm_rep : F -> gmap string V -> Prop;
  (** The filters that [Match] handles token by token. *)
  sm_filter : string -> Prop;
  sm_New_law : sm_rep sm_New ∅;
  sm_Find_law f M s : sm_rep f M -> sm_Find f s = M !! s;
  sm_Insert_law f M s v : sm_rep f M -> trackable s = true ->
    exists f', sm_Insert f s v = Some f' /\ sm_rep f' (<[s := v]> M);
  sm_Delete_law f M s : sm_rep f M -> trackable s = true -> exists f', sm_Delete f s = Some f' /\ sm_rep f' (delete s M);
  sm_Size_law f M : sm_rep f M -> sm_Size f = Z.of_nat (size M);
  sm_Match_law f M filter : sm_rep f M -> sm_filter filter ->
    map_Forall (fun s _ => Subj.IsValidLiteralSubject s = true) M ->
    exists calls, NoDup calls /\ (forall s v, (s, v) ∈ calls <-> M !! s = Some v /\ Subj.matchLiteral s filter = true) /\
      forall (C : Type) (cb : C -> string -> V -> C * bool) c, sm_MatchUntil cb f filter c = until cb calls c;
  sm_Iter_law f M : sm_rep f M -> exists calls, calls ≡ₚ map_to_list M /\
    forall (C : Type) (cb : C -> string -> V -> C * bool) c, sm_IterFast cb f c = (until cb calls c).1;
}.

(** Sequences below [seq_max] can be deleted ones. *)
Class SeqSetLaws (D : Type) `{SeqSetI D} : Type := {
  ss_rep : D -> gset Z -> Prop;
  seq_max : Z;
  ss_bound : 0 < seq_max < 2 ^ 64;
  ss_New_law : ss_rep ss_New ∅;
  ss_Insert_law d X k : ss_rep d X -> 0 <= k < seq_max -> ss_rep (ss_Insert d k) ({[k]} ∪ X);
  ss_Delete_law d X k : ss_rep d X -> ss_rep (ss_Delete d k) (X ∖ {[k]});
  ss_IsEmpty_law d X : ss_rep d X -> ss_IsEmpty d = bool_decide (X = ∅);
  ss_Empty_law d X : ss_rep d X -> ss_rep (ss_Empty d) ∅;
}.

(** ** Loops *)

Lemma scan_up_spec p n : forall from,
  match scan_up p n from with
  | Some k => from <= k < from + Z.of_nat n /\ p k = true /\ forall j, from <= j < k -> p j = false
  | None => forall j, from <= j < from + Z.of_nat n -> p j = false
  end.
Proof.
  induction n as [|n IH]; intros from; cbn [scan_up]; [intros; lia|].
  destruct (p from) eqn:E; [split_and!; [lia|lia|done|intros; lia]|]. specialize (IH (from + 1)). destruct (scan_up p n (from + 1)) as [k|].
  - destruct IH as (H1&H2&H3). split_and!; [lia|lia|done|]. intros j Hj. destruct (decide (j = from)) as [->|]; [done|apply H3; lia].
  - intros j Hj. destruct (decide (j = from)) as [->|]; [done|apply IH; lia].
Qed.

Lemma first_up_spec p from last :
  match first_up p from last with
  | Some k => from <= k <= last /\ p k = true /\ forall j, from <= j < k -> p j = false
  | None => forall j, from <= j <= last -> p j = false
  end.
Proof.
  unfold first_up. pose proof (scan_up_spec p (Z.to_nat (last + 1 - from)) from) as H. destruct (scan_up p _ from) as [k|].
  - destruct H as (H1&H2&H3). split_and!; [lia|lia|done|done].
  - intros j Hj. apply H. lia.
Qed.

Lemma scan_down_spec p n : forall from,
  match scan_down p n from with
  | Some k => from - Z.of_nat n < k <= from /\ p k = true /\ forall j, k < j <= from -> p j = false
  | None => forall j, from - Z.of_nat n < j <= from -> p j = false
  end.
Proof.
  induction n as [|n IH]; intros from; cbn [scan_down]; [intros; lia|].
  destruct (p from) eqn:E; [split_and!; [lia|lia|done|intros; lia]|]. specialize (IH (from - 1)). destruct (scan_down p n (from - 1)) as [k|].
  - destruct IH as (H1&H2&H3). split_and!; [lia|lia|done|]. intros j Hj. destruct (decide (j = from)) as [->|]; [done|apply H3; lia].
  - intros j Hj. destruct (decide (j = from)) as [->|]; [done|apply IH; lia].
Qed.

Lemma first_down_spec p from last :
  match first_down p from last with
  | Some k => last <= k <= from /\ p k = true /\ forall j, k < j <= from -> p j = false
  | None => forall j, last <= j <= from -> p j = false
  end.
Proof.
  unfold first_down. pose proof (scan_down_spec p (Z.to_nat (from + 1 - last)) from) as H. destruct (scan_down p _ from) as [k|].
  - destruct H as (H1&H2&H3). split_and!; [lia|lia|done|done].
  - intros j Hj. apply H. lia.
Qed.

(** ** Messages of a subject *)

Definition of_subj (s : string) (m : gmap Z StoreMsg) : gmap Z StoreMsg := filter (fun kv => m_subj kv.2 = s) m.

Definition total (m : gmap Z StoreMsg) : Z := map_fold (fun _ sm acc => size_of sm + acc) 0 m.

Lemma of_subj_lookup s m k sm : of_subj s m !! k = Some sm <-> m !! k = Some sm /\ m_subj sm = s.
Proof. unfold of_subj. rewrite map_lookup_filter_Some. done. Qed.

Lemma size_of_range sm : 0 <= size_of sm < 2 ^ 64.
Proof. apply u64_range. Qed.

Lemma total_insert m k sm : m !! k = None -> total (<[k := sm]> m) = size_of sm + total m.
Proof. intros Hk. unfold total. rewrite map_fold_insert_L; [done|intros; lia|done]. Qed.
Lemma total_delete m k sm : m !! k = Some sm -> total m = size_of sm + total (delete k m).
Proof. intros Hk. rewrite <- (insert_delete_id m k sm Hk) at 1. apply total_insert, lookup_delete_eq. Qed.
Lemma total_nonneg m : 0 <= total m.
Proof.
  induction m as [|k sm m Hk IH] using map_ind; [done|]. rewrite total_insert by done. pose proof (size_of_range sm). lia.
Qed.

Lemma of_subj_insert s m k sm : m !! k = None ->
  size (of_subj s (<[k := sm]> m)) = (if decide (m_subj sm = s) then S (size (of_subj s m)) else size (of_subj s m)).
Proof.
  intros Hk. unfold of_subj. case_decide.
  - rewrite map_filter_insert_True by done. rewrite map_size_insert_None; [done|]. apply map_lookup_filter_None. by left.
  - rewrite map_filter_insert_False by done. by rewrite delete_id.
Qed.
Lemma of_subj_delete s m k sm : m !! k = Some sm ->
  size (of_subj s m) = (if decide (m_subj sm = s) then S (size (of_subj s (delete k m))) else size (of_subj s (delete k m))).
Proof. intros Hk. rewrite <- (insert_delete_id m k sm Hk) at 1. apply of_subj_insert, lookup_delete_eq. Qed.

(** ** Per-subject state *)

Definition at_subj (m : gmap Z StoreMsg) (s : string) (k : Z) : Prop := exists sm, m !! k = Some sm /\ m_subj sm = s.

Record ss_ok (m : gmap Z StoreMsg) (s : string) (ss : SimpleState) : Prop := {
  so_count : Msgs ss = Z.of_nat (size (of_subj s m));
  so_pos : 0 < Msgs ss;
  so_lo : forall k, at_subj m s k -> First ss <= k /\ (firstNeedsUpdate ss = true -> First ss < k);
  so_hi : forall k, at_subj m s k -> k <= Last ss /\ (lastNeedsUpdate ss = true -> k < Last ss);
  so_first : firstNeedsUpdate ss = false -> at_subj m s (First ss);
  so_last : lastNeedsUpdate ss = false -> at_subj m s (Last ss);
  so_range : 0 < First ss /\ Last ss < 2 ^ 64;
}.

Lemma at_subj_count m s : (exists k, at_subj m s k) <-> (0 < size (of_subj s m))%nat.
Proof.
  split.
  - intros (k&sm&Hk&Hs). destruct (size (of_subj s m)) eqn:E; [|lia]. apply map_size_empty_inv in E.
    assert (of_subj s m !! k = Some sm) as Hl by (by apply of_subj_lookup). by rewrite E, lookup_empty in Hl.
  - intros Hz. destruct (map_choose (of_subj s m)) as (k&sm&Hk).
    { intros E. rewrite E, map_size_empty in Hz. lia. }
    apply of_subj_lookup in Hk as [? ?]. by exists k, sm.
Qed.

Lemma at_subj_single m s j k : size (of_subj s m) = 1%nat -> at_subj m s j -> at_subj m s k -> j = k.
Proof.
  intros Hz (sj&Hj&Hsj) (sk&Hk&Hsk). destruct (decide (j = k)) as [->|Hne]; [done|]. exfalso.
  rewrite (of_subj_delete s m j sj Hj), decide_True in Hz by done.
  assert (0 < size (of_subj s (delete j m)))%nat; [|lia]. apply at_subj_count. exists k, sk. by rewrite lookup_delete_ne.
Qed.

(** The keys of the messages are in the range of the store. *)
Definition in_range {F D W} (ms : memStore F D W) : Prop :=
  forall k, is_Some (msgs ms !! k) -> FirstSeq (state ms) <= k <= LastSeq (state ms).

Section proofs.
Context {F D W : Type} `{HF : SubjectMap F SimpleState} `{HFL : !SubjectMapLaws F SimpleState} `{HD : SeqSetI D} `{HDL : !SeqSetLaws D}
  `{HW : TimerWheel W} `{HH : Headers}.
Notation MS := (memStore F D W).
Implicit Types (ms : MS).

Lemma has_subj_true ms s k : has_subj ms s k = true <-> at_subj (msgs ms) s k.
Proof.
  unfold has_subj, at_subj. destruct (msgs ms !! k) as [sm|].
  - rewrite String.eqb_eq. split; [intros; by exists sm|]. by intros (?&[= <-]&?).
  - split; [done|]. by intros (?&?&_).
Qed.
Lemma has_subj_false ms s k : has_subj ms s k = false <-> ~ at_subj (msgs ms) s k.
Proof. rewrite <- has_subj_true. by destruct (has_subj ms s k). Qed.
Lemma has_msg_true ms k : has_msg ms k = true <-> is_Some (msgs ms !! k).
Proof. unfold has_msg. destruct (msgs ms !! k) as [x|]; [split; [intros _; by exists x|done]|]. split; [done|]. by intros [? ?]. Qed.
Lemma has_msg_false ms k : has_msg ms k = false <-> msgs ms !! k = None.
Proof. unfold has_msg. by destruct (msgs ms !! k). Qed.

Lemma ss_some ms s ss : ss_ok (msgs ms) s ss -> exists k, at_subj (msgs ms) s k.
Proof. intros []. apply at_subj_count. lia. Qed.

Lemma recalculate_last_ok ms s ss : ss_ok (msgs ms) s ss -> in_range ms -> firstNeedsUpdate ss = false ->
  let ss' := recalculate_last ms s ss in ss_ok (msgs ms) s ss' /\ firstNeedsUpdate ss' = false /\ lastNeedsUpdate ss' = false.
Proof.
  intros Hok Hr Hf. pose proof (ss_some ms s ss Hok) as [k0 H0]. pose proof Hok as [Hc Hp Hlo Hhi Hfi Hla Hrg]. unfold recalculate_last.
  destruct (lastNeedsUpdate ss) eqn:E; [|by split].
  rewrite u64_small by (unfold is_u64; pose proof (Hhi k0 H0); pose proof (Hlo k0 H0); lia).
  set (tseq := if LastSeq (state ms) <? Last ss - 1 then LastSeq (state ms) else Last ss - 1).
  assert (forall j, at_subj (msgs ms) s j -> j <= tseq) as Ht.
  { intros j Hj. pose proof (proj2 (Hhi j Hj) ltac:(done)). assert (is_Some (msgs ms !! j)) as Hs by (destruct Hj as (?&?&_); by eexists).
    apply Hr in Hs. unfold tseq. destruct (Z.ltb_spec (LastSeq (state ms)) (Last ss - 1)); lia. }
  assert (tseq <= Last ss) as Htl by (unfold tseq; destruct (Z.ltb_spec (LastSeq (state ms)) (Last ss - 1)); lia).
  pose proof (first_down_spec (has_subj ms s) tseq (First ss)) as H. destruct (first_down _ _ _) as [k|].
  - destruct H as (H1&H2%has_subj_true&H3). assert (forall j, at_subj (msgs ms) s j -> j <= k) as Hk.
    { intros j Hj. destruct (decide (j <= k)); [done|]. specialize (H3 j). rewrite has_subj_false in H3. destruct H3; [|done]. pose proof (Ht j Hj). lia. }
    destruct (Z.eqb_spec (Msgs ss) 1) as [E1|E1]; cbn [firstNeedsUpdate lastNeedsUpdate]; (split; [|by try rewrite Hf]).
    + split; cbn; try done; try lia; intros j Hj; (split; [|done]); rewrite (at_subj_single (msgs ms) s j k) by (done || lia); lia.
    + split; cbn; try done; try lia. intros j Hj. split; [by apply Hk|done].
  - specialize (H k0). rewrite has_subj_false in H. destruct H; [|done]. split; [by apply Hlo|by apply Ht].
Qed.

Lemma recalculate_ok ms s ss : ss_ok (msgs ms) s ss -> in_range ms ->
  let ss' := recalculateForSubj ms s ss in ss_ok (msgs ms) s ss' /\ firstNeedsUpdate ss' = false /\ lastNeedsUpdate ss' = false.
Proof.
  intros Hok Hr. pose proof (ss_some ms s ss Hok) as [k0 H0]. unfold recalculateForSubj. destruct (firstNeedsUpdate ss) eqn:E; [|by apply recalculate_last_ok].
  pose proof Hok as [Hc Hp Hlo Hhi Hfi Hla Hrg].
  rewrite u64_small by (unfold is_u64; pose proof (Hhi k0 H0); pose proof (proj2 (Hlo k0 H0) E); lia).
  set (tseq := if First ss + 1 <? FirstSeq (state ms) then FirstSeq (state ms) else First ss + 1).
  assert (forall j, at_subj (msgs ms) s j -> tseq <= j) as Ht.
  { intros j Hj. pose proof (proj2 (Hlo j Hj) E). assert (is_Some (msgs ms !! j)) as Hs by (destruct Hj as (?&?&_); by eexists).
    apply Hr in Hs. unfold tseq. destruct (Z.ltb_spec (First ss + 1) (FirstSeq (state ms))); lia. }
  assert (First ss < tseq) as Htl by (unfold tseq; destruct (Z.ltb_spec (First ss + 1) (FirstSeq (state ms))); lia).
  pose proof (first_up_spec (has_subj ms s) tseq (Last ss)) as H. destruct (first_up _ _ _) as [k|].
  - destruct H as (H1&H2%has_subj_true&H3). assert (forall j, at_subj (msgs ms) s j -> k <= j) as Hk.
    { intros j Hj. destruct (decide (k <= j)); [done|]. specialize (H3 j). rewrite has_subj_false in H3. destruct H3; [|done]. pose proof (Ht j Hj). lia. }
    destruct (Z.eqb_spec (Msgs ss) 1) as [E1|E1].
    + cbn. split; [|done]. split; cbn; try done; try lia; intros j Hj; (split; [|done]); rewrite (at_subj_single (msgs ms) s j k) by (done || lia); lia.
    + apply recalculate_last_ok; [|done|done]. split; cbn; try done; try lia. intros j Hj. split; [by apply Hk|done].
  - specialize (H k0). rewrite has_subj_false in H. destruct H; [|done]. split; [by apply Ht|by apply Hhi].
Qed.

(** One message of the subject less. *)
Lemma ss_remove_ok m s ss k sm : ss_ok m s ss -> m !! k = Some sm -> m_subj sm = s -> Msgs ss <> 1 -> ss_ok (delete k m) s (ss_remove ss k).
Proof.
  intros [Hc Hp Hlo Hhi Hfi Hla Hrg] Hk Hs Hn1.
  assert (forall j, at_subj (delete k m) s j <-> at_subj m s j /\ j <> k) as Hat.
  { intros j. unfold at_subj. setoid_rewrite lookup_delete_Some. naive_solver. }
  pose proof (of_subj_delete s m k sm Hk) as Hd. rewrite decide_True in Hd by done.
  assert (size (of_subj s (delete k m)) = Z.to_nat (Msgs ss - 1)) as Hsz by lia.
  assert (Msgs ss - 1 = 1 -> forall i j, at_subj (delete k m) s i -> at_subj (delete k m) s j -> i = j) as Hu.
  { intros E i j. apply at_subj_single. lia. }
  unfold ss_remove. destruct (_ && _) eqn:EA.
  { apply andb_true_iff in EA as [[E1%Z.eqb_eq E2%negb_true_iff]%andb_true_iff E3%negb_true_iff%Z.eqb_neq].
    assert (at_subj (delete k m) s (Last ss)) as Hl by (apply Hat; split; [by apply Hla|done]).
    pose proof (Hlo _ (Hla E2)). split; cbn; try done; try lia; intros j Hj; (split; [rewrite (Hu E1 j _ Hj Hl); lia|congruence]). }
  clear EA. destruct (_ && _) eqn:EB.
  { apply andb_true_iff in EB as [[E1%Z.eqb_eq E2%negb_true_iff]%andb_true_iff E3%negb_true_iff%Z.eqb_neq].
    assert (at_subj (delete k m) s (First ss)) as Hl by (apply Hat; split; [by apply Hfi|done]).
    pose proof (Hhi _ (Hfi E2)). split; cbn; try done; try lia; intros j Hj; (split; [rewrite (Hu E1 j _ Hj Hl); lia|congruence]). }
  clear EB. split; cbn; try lia.
  - intros j [Hj Hne]%Hat. destruct (Hlo j Hj) as [H1 H2]. split; [done|]. intros [->%Z.eqb_eq|Hx]%orb_true_iff; [lia|by apply H2].
  - intros j [Hj Hne]%Hat. destruct (Hhi j Hj) as [H1 H2]. split; [done|]. intros [->%Z.eqb_eq|Hx]%orb_true_iff; [lia|by apply H2].
  - intros [E1%Z.eqb_neq E2]%orb_false_iff. apply Hat. split; [by apply Hfi|done].
  - intros [E1%Z.eqb_neq E2]%orb_false_iff. apply Hat. split; [by apply Hla|done].
Qed.

(** ** The invariant *)

Definition fss_ok (m : gmap Z StoreMsg) (M : gmap string SimpleState) : Prop :=
  (forall s ss, M !! s = Some ss -> ss_ok m s ss) /\ (forall k sm, m !! k = Some sm -> is_Some (M !! m_subj sm)).

(** The deleted sequences are the missing ones between the first and the last, as long as there
    are messages. *)
Definition dmap_ok (st : StreamState) (m : gmap Z StoreMsg) (X : gset Z) : Prop :=
  forall k, k ∈ X <-> m <> ∅ /\ FirstSeq st <= k <= LastSeq st /\ m !! k = None.

Definition msg_ok (st : StreamState) (k : Z) (sm : StoreMsg) : Prop :=
  m_seq sm = k /\ FirstSeq st <= k <= LastSeq st /\ 0 < k /\ trackable (m_subj sm) = true.

Record core_ok (st : StreamState) (m : gmap Z StoreMsg) (f : F) (d : D) : Prop := {
  ok_fss : exists M, sm_rep f M /\ fss_ok m M;
  ok_dmap : exists X, ss_rep d X /\ dmap_ok st m X;
  ok_msgs : sMsgs st = Z.of_nat (size m);
  ok_bytes : sBytes st = total m;
  ok_keys : map_Forall (msg_ok st) m;
  ok_first : m <> ∅ -> is_Some (m !! FirstSeq st);
  ok_range : 0 <= LastSeq st < seq_max /\ 0 <= FirstSeq st <= seq_max /\ (FirstSeq st = 0 -> LastSeq st = 0);
  ok_total : total m < 2 ^ 64;
}.
Definition ms_ok ms : Prop := core_ok (state ms) (msgs ms) (fss ms) (dmap ms).

(** What no removal changes. *)
Definition frame ms ms' : Prop :=
  cfg ms' = cfg ms /\ maxp ms' = maxp ms /\ closed ms' = closed ms /\ scb ms' = scb ms /\ LastSeq (state ms') = LastSeq (state ms).

#[global] Instance frame_refl : Reflexive frame.
Proof. by intros ms. Qed.
#[global] Instance frame_trans : Transitive frame.
Proof. intros a b c (?&?&?&?&?) (?&?&?&?&?). unfold frame. split_and!; congruence. Qed.

Lemma ms_in_range ms : ms_ok ms -> in_range ms.
Proof. intros Hok k [sm Hk]. by apply (ok_keys _ _ _ _ Hok) in Hk as (_&?&_). Qed.

Lemma fss_remove m M k sm : fss_ok m M -> m !! k = Some sm ->
  exists ss, M !! m_subj sm = Some ss /\
    fss_ok (delete k m) (if Msgs ss =? 1 then delete (m_subj sm) M else <[m_subj sm := ss_remove ss k]> M).
Proof.
  intros [H1 H2] Hk. destruct (H2 k sm Hk) as [ss Hss]. exists ss. split; [done|]. pose proof (H1 _ _ Hss) as Hok.
  assert (forall s ss', s <> m_subj sm -> M !! s = Some ss' -> ss_ok (delete k m) s ss') as Hother.
  { intros s ss' Hne Hs. destruct (H1 s ss' Hs) as [Hc Hp Hlo Hhi Hfi Hla Hrg].
    assert (forall j, at_subj (delete k m) s j <-> at_subj m s j) as Hat.
    { intros j. unfold at_subj. setoid_rewrite lookup_delete_Some. split; [naive_solver|]. intros (x&Hx&Hsx).
      exists x. split_and!; [congruence|done|done]. }
    pose proof (of_subj_delete s m k sm Hk) as Hd. rewrite decide_False in Hd by done.
    split; cbn; try done; [by rewrite Hc, Hd|intros j; rewrite Hat; auto..|rewrite Hat; auto|rewrite Hat; auto]. }
  destruct (Z.eqb_spec (Msgs ss) 1) as [E|E].
  - assert (forall j x, delete k m !! j = Some x -> m_subj x <> m_subj sm) as Hnone.
    { intros j x [Hne Hj]%lookup_delete_Some Hs. apply Hne. apply (at_subj_single m (m_subj sm)); [destruct Hok; lia|by exists sm|by exists x]. }
    split.
    + intros s ss' [Hne Hs]%lookup_delete_Some. by apply Hother.
    + intros j x Hj. rewrite lookup_delete_ne by (intros Hx; by eapply Hnone). apply lookup_delete_Some in Hj as [_ Hj]. by eapply H2.
  - split.
    + intros s ss' [[<- <-]|[Hne Hs]]%lookup_insert_Some; [by eapply ss_remove_ok|by apply Hother].
    + intros j x [_ Hj]%lookup_delete_Some. destruct (H2 j x Hj) as [y Hy]. destruct (decide (m_subj sm = m_subj x)) as [->|Hne].
      * rewrite lookup_insert_eq. by eexists.
      * rewrite lookup_insert_ne by done. by eexists.
Qed.

Lemma removeSeqPerSubject_ok ms k sm M : sm_rep (fss ms) M -> fss_ok (msgs ms) M -> msgs ms !! k = Some sm -> trackable (m_subj sm) = true ->
  exists f s M', removeSeqPerSubject ms (m_subj sm) k = Some (with_fss (with_sdm ms s) f) /\ sm_rep f M' /\ fss_ok (delete k (msgs ms)) M'.
Proof.
  intros HM Hf Hk Ht. destruct (fss_remove _ M k sm Hf Hk) as (ss&Hss&Hok). unfold removeSeqPerSubject.
  rewrite (sm_Find_law _ _ _ HM), Hss. cbn [fss with_sdm]. destruct (Msgs ss =? 1).
  - destruct (sm_Delete_law _ _ _ HM Ht) as (f&->&Hr). by exists f, (removeSeqAndSubject (sdm ms) k (m_subj sm)), (delete (m_subj sm) M).
  - destruct (sm_Insert_law _ _ _ (ss_remove ss k) HM Ht) as (f&->&Hr).
    by exists f, (removeSeqAndSubject (sdm ms) k (m_subj sm)), (<[m_subj sm := ss_remove ss k]> M).
Qed.

Lemma fold_delete_ok l : forall d X, ss_rep d X -> ss_rep (fold_left ss_Delete l d) (X ∖ list_to_set l).
Proof.
  induction l as [|k l IH]; intros d X Hd; [cbn; by rewrite difference_empty_L|]. cbn [fold_left].
  replace (X ∖ list_to_set (k :: l)) with ((X ∖ {[k]}) ∖ list_to_set l) by set_solver. by apply IH, ss_Delete_law.
Qed.

Lemma updateFirstSeq_ok ms k X : ss_rep (dmap ms) X -> is_Some (msgs ms !! k) -> map_Forall (msg_ok (state ms)) (msgs ms) -> LastSeq (state ms) < seq_max ->
  exists fseq ft d X', updateFirstSeq ms k = with_dmap (set_first ms fseq ft) d /\ ss_rep d X' /\
    (forall x, x ∈ X' <-> x ∈ X /\ ~ (FirstSeq (state ms) <= x < fseq)) /\ FirstSeq (state ms) <= fseq <= LastSeq (state ms) + 1 /\
    (k <> FirstSeq (state ms) -> fseq = FirstSeq (state ms)) /\
    (k = FirstSeq (state ms) -> k < fseq /\ (forall j, k < j < fseq -> msgs ms !! j = None) /\
       (fseq <= LastSeq (state ms) -> is_Some (msgs ms !! fseq)) /\ (LastSeq (state ms) < fseq -> fseq = LastSeq (state ms) + 1)).
Proof.
  intros HX [sm Hk] Hkeys Hl. pose proof ss_bound as Hb. pose proof (Hkeys k sm Hk) as (_&Hr&Hpos&_).
  unfold updateFirstSeq. destruct (Z.eqb_spec k (FirstSeq (state ms))) as [E|E]; cbn [negb].
  2: { exists (FirstSeq (state ms)), (FirstTime (state ms)), (dmap ms), X. split_and!; try done; try lia; [by destruct ms as [? []]|].
       intros x. split; [intros; split; [done|lia]|by intros []]. }
  assert (forall ms1 fseq ft, ms1 = set_first ms fseq ft -> k < fseq <= LastSeq (state ms) + 1 -> (forall j, k < j < fseq -> msgs ms !! j = None) ->
    (fseq <= LastSeq (state ms) -> is_Some (msgs ms !! fseq)) ->
    exists d X', (if k =? u64 (FirstSeq (state ms1) - 1) then with_dmap ms1 (ss_Delete (dmap ms1) k) else with_dmap ms1 (dmap_delete (dmap ms1) k (FirstSeq (state ms1)))) =
      with_dmap (set_first ms fseq ft) d /\ ss_rep d X' /\ (forall x, x ∈ X' <-> x ∈ X /\ ~ (k <= x < fseq))) as Hd.
  { intros ms1 fseq ft -> Hf Hn Hs. cbn [state set_first with_state FirstSeq dmap]. rewrite u64_small by (unfold is_u64; lia).
    destruct (Z.eqb_spec k (fseq - 1)) as [->|Hne].
    - exists (ss_Delete (dmap ms) (fseq - 1)), (X ∖ {[fseq - 1]}). split_and!; [done|by apply ss_Delete_law|].
      intros x. rewrite elem_of_difference, elem_of_singleton. split; intros []; split; (done || lia).
    - exists (dmap_delete (dmap ms) k fseq), (X ∖ list_to_set (seqZ k (fseq - k))). split_and!; [done|by apply fold_delete_ok|].
      intros x. rewrite elem_of_difference, elem_of_list_to_set, elem_of_seqZ. split; intros []; split; (done || lia). }
  pose proof (first_up_spec (has_msg ms) (FirstSeq (state ms) + 1) (LastSeq (state ms))) as Hs. destruct (first_up _ _ _) as [j|].
  - destruct Hs as (Hj&[nsm Hn]%has_msg_true&Hgap). cbn [mbind option_bind]. rewrite Hn. pose proof (Hkeys j nsm Hn) as (Hseq&_). rewrite Hseq, <- E in *.
    assert (forall i, k < i < j -> msgs ms !! i = None) as Hnone by (intros i Hi; apply has_msg_false, Hgap; lia).
    destruct (Hd (set_first ms j (Some (m_ts nsm))) j (Some (m_ts nsm)) eq_refl) as (d&X'&H1&H2&H3); [lia|done|by intros; eexists|].
    exists j, (Some (m_ts nsm)), d, X'. split_and!; try done; try lia. intros _. split_and!; [lia|done|by intros; eexists|lia].
  - cbn [mbind option_bind]. rewrite <- E in *. assert (u64 (LastSeq (state ms) + 1) = LastSeq (state ms) + 1) as Hu by (apply u64_small; unfold is_u64; lia).
    assert (forall i, k < i < LastSeq (state ms) + 1 -> msgs ms !! i = None) as Hnone by (intros i Hi; apply has_msg_false, Hs; lia).
    destruct (Hd (set_first ms (u64 (LastSeq (state ms) + 1)) None) (LastSeq (state ms) + 1) None) as (d&X'&H1&H2&H3); [by rewrite Hu|lia|done|lia|].
    exists (LastSeq (state ms) + 1), None, d, X'. split_and!; try done; try lia. intros _. split_and!; [lia|done|lia|done].
Qed.

Definition with_first (st : StreamState) (n b fseq : Z) (ft : option Z) : StreamState := mkState n b fseq ft (LastSeq st) (LastTime st).

(** The invariant after the removal of message [k], when the first sequence moves to [fseq]. *)
Lemma core_remove st m f d k sm fseq ft f' d' M' X X' : core_ok st m f d -> m !! k = Some sm ->
  sm_rep f' M' -> fss_ok (delete k m) M' -> dmap_ok st m X -> ss_rep d' X' ->
  (forall x, x ∈ X' <-> x ∈ ({[k]} ∪ X) /\ ~ (FirstSeq st <= x < fseq)) -> FirstSeq st <= fseq <= LastSeq st + 1 ->
  (k <> FirstSeq st -> fseq = FirstSeq st) ->
  (k = FirstSeq st -> k < fseq /\ (forall j, k < j < fseq -> m !! j = None) /\ (fseq <= LastSeq st -> is_Some (m !! fseq))) ->
  core_ok (with_first st (sMsgs st - 1) (sBytes st - size_of sm) fseq ft) (delete k m) f' d'.
Proof.
  intros Hok Hk HM' Hf' HX HX' Hx Hr Hint Hfst. pose proof Hok as [_ _ Hn Hb Hkeys Hfirst Hrange Htot].
  pose proof (total_delete m k sm Hk) as Ht. pose proof (Hkeys k sm Hk) as (_&Hkr&_).
  assert (forall j, is_Some (delete k m !! j) -> fseq <= j <= LastSeq st) as Hj.
  { intros j [x [Hne Hjx]%lookup_delete_Some]. pose proof (Hkeys j x Hjx) as (_&?&_). destruct (decide (k = FirstSeq st)) as [E|E]; [|rewrite (Hint E); lia].
    destruct (Hfst E) as (_&Hno&_). destruct (decide (fseq <= j)); [lia|]. rewrite Hno in Hjx by lia. done. }
  assert (delete k m <> ∅ -> is_Some (delete k m !! fseq)) as Hfi.
  { intros Hne. destruct (decide (k = FirstSeq st)) as [E|E].
    - destruct (map_choose _ Hne) as (j&x&Hjx). destruct (Hfst E) as (Hlt&_&Hs). pose proof (Hj j ltac:(by eexists)).
      rewrite lookup_delete_ne by lia. apply Hs. lia.
    - rewrite (Hint E), lookup_delete_ne by done. apply Hfirst. intros ->. by rewrite lookup_empty in Hk. }
  split; cbn [with_first sMsgs sBytes FirstSeq LastSeq].
  - by exists M'.
  - exists X'. split; [done|]. intros x. rewrite Hx, elem_of_union, elem_of_singleton, (HX x). cbn [with_first FirstSeq LastSeq]. split.
    + intros [Hin Hnr]. destruct (decide (x = k)) as [->|Hxk].
      * assert (k <> FirstSeq st) as E by (intros E; destruct (Hfst E); lia). pose proof (Hint E). split_and!; [|lia|lia|apply lookup_delete_eq].
        destruct (Hfirst ltac:(intros ->; by rewrite lookup_empty in Hk)) as [y Hy]. intros Hem.
        assert (delete k m !! FirstSeq st = Some y) as Hd by (by rewrite lookup_delete_ne). by rewrite Hem, lookup_empty in Hd.
      * destruct Hin as [?|(Hne&Hxr&Hxn)]; [done|]. split_and!; [|lia|lia|by rewrite lookup_delete_ne]. intros Hem.
        destruct (decide (k = FirstSeq st)) as [E|E].
        -- destruct (Hfst E) as (Hlt&_&Hs). destruct (Hs ltac:(lia)) as [y Hy]. assert (delete k m !! fseq = Some y) as Hd by (rewrite lookup_delete_ne; [done|lia]).
           by rewrite Hem, lookup_empty in Hd.
        -- destruct (Hfirst Hne) as [y Hy]. assert (delete k m !! FirstSeq st = Some y) as Hd by (by rewrite lookup_delete_ne). by rewrite Hem, lookup_empty in Hd.
    + intros (Hne&Hxr&Hxn). split; [|lia]. destruct (decide (x = k)) as [->|Hxk]; [by left|right]. rewrite lookup_delete_ne in Hxn by done.
      split_and!; [|lia|lia|done]. intros ->. by rewrite lookup_empty in Hk.
  - rewrite Hn, map_size_delete_Some by (by eexists). assert (size m <> 0%nat); [|lia]. intros Hz%map_size_empty_inv. by rewrite Hz, lookup_empty in Hk.
  - lia.
  - intros j x Hjx. pose proof (Hj j ltac:(by eexists)). apply lookup_delete_Some in Hjx as [_ Hjx]. destruct (Hkeys j x Hjx) as (?&_&?&?).
    by split_and!; [|cbn; lia..| |].
  - done.
  - lia.
  - pose proof (size_of_range sm). lia.
Qed.

Lemma removeMsg_ok ms k sm : ms_ok ms -> msgs ms !! k = Some sm ->
  exists ms', removeMsg ms k = Some (ms', true) /\ ms_ok ms' /\ msgs ms' = delete k (msgs ms) /\ frame ms ms'.
Proof.
  intros Hok Hk. pose proof Hok as [(M&HM&Hf) (X&HX&Hd) Hn Hb Hkeys Hfirst Hrange Htot].
  pose proof (Hkeys k sm Hk) as (Hseq&Hkr&Hpos&Htr). pose proof (total_delete _ k sm Hk) as Ht. pose proof (total_nonneg (delete k (msgs ms))) as Hnn.
  unfold removeMsg. rewrite Hk. assert (0 <? sMsgs (state ms) = true) as ->.
  { apply Z.ltb_lt. rewrite Hn. assert (size (msgs ms) <> 0%nat); [|lia]. intros Hz%map_size_empty_inv. by rewrite Hz, lookup_empty in Hk. }
  rewrite Z.min_l by lia.
  set (ms1 := with_dmap (with_state ms _) _).
  destruct (updateFirstSeq_ok ms1 k ({[k]} ∪ X)) as (fseq&ft&d&X'&->&Hd'&HX'&Hfr&Hint&Hfst).
  { cbn. apply ss_Insert_law; [done|]. lia. }
  { cbn. by eexists. }
  { exact Hkeys. }
  { cbn. lia. }
  set (ms2 := with_dmap (set_first ms1 fseq ft) d).
  destruct (removeSeqPerSubject_ok ms2 k sm M HM Hf Hk Htr) as (f&sd&M'&->&HM'&Hf'). cbn [mbind option_bind].
  eexists. split; [done|].
  assert (forall ms3, ms3 = with_fss (with_sdm ms2 sd) f -> let ms4 := with_msgs (ttl_remove ms3 sm k) (delete k (msgs (ttl_remove ms3 sm k))) in
    let ms5 := notify ms4 (-1) (- size_of sm) k (m_subj sm) in
    state ms5 = state ms2 /\ msgs ms5 = delete k (msgs ms) /\ fss ms5 = f /\ dmap ms5 = d /\ frame ms ms5) as Hfield.
  { intros ms3 ->. unfold notify, ttl_remove. cbn [ttls with_fss with_sdm ms2 set_first with_dmap with_state ms1].
    destruct (ttls ms); [destruct (getMessageTTL (m_hdr sm))|]; cbn; destruct (scb ms) eqn:?; cbn; (split_and!; try done); done. }
  destruct (Hfield _ eq_refl) as (E1&E2&E3&E4&E5). split; [|done]. unfold ms_ok. rewrite E1, E2, E3, E4.
  apply (core_remove (state ms) (msgs ms) (fss ms) (dmap ms) k sm fseq ft f d M' X X'); try done.
  intros E. destruct (Hfst E) as (?&?&?&_). done.
Qed.

Lemma removeMsg_none ms k : msgs ms !! k = None -> removeMsg ms k = Some (ms, false).
Proof. intros E. unfold removeMsg. by rewrite E. Qed.
End proofs.
