(* ===== verification/MemStoreOps.v ===== *)
(** * Memory store: storing, limits, purge, compaction and truncation

    Every operation that changes the messages keeps the invariant, does not panic, and changes
    the messages as its specification says. *)

From S2P Require Import Prelude Subject Scheduler MemStore MemStoreProofs.
Import Sched Mem.

(** The messages with a sequence from [c] on, and those of a subject from [c] on with all others. *)
Definition from_seq (c : Z) (m : gmap Z StoreMsg) : gmap Z StoreMsg := filter (fun kv => c <= kv.1) m.
Definition trim_subj (s : string) (c : Z) (m : gmap Z StoreMsg) : gmap Z StoreMsg :=
  filter (fun kv => m_subj kv.2 = s -> c <= kv.1) m.

Lemma from_seq_lookup c m k sm : from_seq c m !! k = Some sm <-> m !! k = Some sm /\ c <= k.
Proof. unfold from_seq. by rewrite map_lookup_filter_Some. Qed.
Lemma trim_subj_lookup s c m k sm : trim_subj s c m !! k = Some sm <-> m !! k = Some sm /\ (m_subj sm = s -> c <= k).
Proof. unfold trim_subj. by rewrite map_lookup_filter_Some. Qed.

Lemma from_seq_delete c m k : (forall j, is_Some (m !! j) -> k <= j) -> from_seq c (delete k m) = from_seq (Z.max c (k + 1)) m.
Proof.
  intros Hmin. apply map_eq. intros j. apply option_eq. intros sm. rewrite !from_seq_lookup, lookup_delete_Some. split.
  - intros [[Hne Hj] Hc]. split; [done|]. pose proof (Hmin j ltac:(by eexists)). lia.
  - intros [Hj Hc]. split_and!; [lia|done|lia].
Qed.
Lemma trim_subj_delete s c m k : (forall j, at_subj m s j -> k <= j) -> at_subj m s k ->
  trim_subj s c (delete k m) = trim_subj s (Z.max c (k + 1)) m.
Proof.
  intros Hmin (sk&Hk&Hsk). apply map_eq. intros j. apply option_eq. intros sm. rewrite !trim_subj_lookup, lookup_delete_Some. split.
  - intros [[Hne Hj] Hc]. split; [done|]. intros Hs. specialize (Hc Hs). pose proof (Hmin j ltac:(by exists sm)). lia.
  - intros [Hj Hc]. split_and!; [|done|intros Hs; specialize (Hc Hs); lia]. intros ->. rewrite Hk in Hj. injection Hj as ->. specialize (Hc Hsk). lia.
Qed.
Lemma from_seq_all c m : (forall j, is_Some (m !! j) -> c <= j) -> from_seq c m = m.
Proof.
  intros H. apply map_eq. intros j. apply option_eq. intros sm. rewrite from_seq_lookup. split; [by intros []|]. intros Hj. split; [done|]. apply H. by eexists.
Qed.
Lemma trim_subj_all s c m : (forall j, at_subj m s j -> c <= j) -> trim_subj s c m = m.
Proof.
  intros H. apply map_eq. intros j. apply option_eq. intros sm. rewrite trim_subj_lookup. split; [by intros []|]. intros Hj. split; [done|]. intros Hs. apply H. by exists sm.
Qed.

Lemma from_seq_sub c m : from_seq c m ⊆ m.
Proof. apply map_filter_subseteq. Qed.
Lemma from_seq_from_seq a b m : from_seq a (from_seq b m) = from_seq (Z.max a b) m.
Proof. apply map_eq. intros j. apply option_eq. intros sm. rewrite !from_seq_lookup. split; [intros [[] ?]|intros []]; split_and!; (done || lia). Qed.
Lemma from_seq_mono a b m : a <= b -> from_seq b m ⊆ from_seq a m.
Proof. intros Hab. apply map_subseteq_spec. intros k sm. rewrite !from_seq_lookup. intros [? ?]. split; [done|lia]. Qed.

Definition subj_count (m : gmap Z StoreMsg) (s : string) : Z := Z.of_nat (size (of_subj s m)).

Lemma subj_count_mono m m' s : m' ⊆ m -> subj_count m' s <= subj_count m s.
Proof.
  intros Hs. unfold subj_count. apply inj_le. apply map_subseteq_size. apply map_subseteq_spec. intros k sm. rewrite !of_subj_lookup.
  intros [Hk ?]. split; [|done]. by eapply lookup_weaken.
Qed.

Lemma total_mono (m' : gmap Z StoreMsg) : forall m, m' ⊆ m -> total m' <= total m.
Proof.
  induction m' as [|k sm m' Hk IH] using map_ind; intros m Hs; [apply total_nonneg|]. rewrite total_insert by done.
  assert (m !! k = Some sm) as Hm by (eapply lookup_weaken; [apply lookup_insert_eq|done]). rewrite (total_delete m k sm Hm).
  assert (total m' <= total (delete k m)); [|lia]. apply IH. apply map_subseteq_spec. intros j x Hj.
  assert (j <> k) as Hne by (intros ->; congruence). rewrite lookup_delete_ne by done. eapply lookup_weaken; [|done]. by rewrite lookup_insert_ne.
Qed.

(** ** What the limits keep *)

(** The newest messages that are not over a limit together. *)
Definition newest (over : gmap Z StoreMsg -> bool) (m : gmap Z StoreMsg) : gmap Z StoreMsg :=
  filter (fun kv => over (from_seq kv.1 m) = false) m.
(** All messages but the older ones of subject [s], of which the newest [n] stay. *)
Definition newest_subj (s : string) (n : Z) (m : gmap Z StoreMsg) : gmap Z StoreMsg :=
  filter (fun kv => m_subj kv.2 = s -> subj_count (from_seq kv.1 m) s <= n) m.

Lemma newest_eq over m c : (forall a b, a ⊆ b -> over b = false -> over a = false) ->
  over (from_seq c m) = false -> (forall k, is_Some (m !! k) -> k < c -> over (from_seq k m) = true) -> from_seq c m = newest over m.
Proof.
  intros Hmono Hc Hk. apply map_eq. intros j. apply option_eq. intros sm. unfold newest. rewrite from_seq_lookup, map_lookup_filter_Some. cbn [fst].
  split; intros [Hj Hx]; (split; [done|]).
  - eapply Hmono; [|exact Hc]. by apply from_seq_mono.
  - destruct (decide (c <= j)); [done|]. rewrite (Hk j) in Hx; [done|by eexists|lia].
Qed.

Lemma newest_subj_eq s n m c : subj_count (trim_subj s c m) s <= n ->
  (forall k, at_subj m s k -> k < c -> n < subj_count (from_seq k m) s) -> trim_subj s c m = newest_subj s n m.
Proof.
  intros Hc Hk. apply map_eq. intros j. apply option_eq. intros sm. unfold newest_subj. rewrite trim_subj_lookup, map_lookup_filter_Some. cbn [fst snd].
  split; intros [Hj Hx]; (split; [done|]); intros Hs; specialize (Hx Hs).
  - etrans; [|exact Hc]. unfold subj_count. apply inj_le, map_subseteq_size, map_subseteq_spec. intros i x. rewrite !of_subj_lookup, from_seq_lookup, trim_subj_lookup.
    intros [[Hi Hle] Hsx]. split_and!; [done|lia|done].
  - destruct (decide (c <= j)); [done|]. pose proof (Hk j ltac:(by exists sm) ltac:(lia)). lia.
Qed.

Section ops.
Context {F D W : Type} `{HF : SubjectMap F SimpleState} `{HFL : !SubjectMapLaws F SimpleState} `{HD : SeqSetI D} `{HDL : !SeqSetLaws D}
  `{HW : TimerWheel W} `{HH : Headers}.
Notation MS := (memStore F D W).
Implicit Types (ms : MS).

Lemma size_keys (m : gmap Z StoreMsg) last : 0 <= last -> (forall k, is_Some (m !! k) -> 0 < k <= last) -> Z.of_nat (size m) <= last.
Proof.
  intros Hl Hk. rewrite <- size_dom. assert (dom m ⊆ (list_to_set (seqZ 1 last) : gset Z)) as Hs.
  { intros k Hin%elem_of_dom%Hk. apply elem_of_list_to_set, elem_of_seqZ. lia. }
  apply subseteq_size in Hs. rewrite size_list_to_set, length_seqZ in Hs by apply NoDup_seqZ. lia.
Qed.

Lemma ms_size ms : ms_ok ms -> Z.of_nat (size (msgs ms)) <= LastSeq (state ms).
Proof.
  intros []. apply size_keys; [lia|]. intros k [sm Hk]. apply ok_keys in Hk as (_&?&?&_). lia.
Qed.

(** Changes of the subject tree that keep what it says. *)
Lemma ms_ok_fss ms f M : ms_ok ms -> sm_rep f M -> fss_ok (msgs ms) M -> ms_ok (with_fss ms f).
Proof. intros [] HM Hf. split; cbn; try done. by exists M. Qed.

Lemma fss_ok_update m M s ss : fss_ok m M -> ss_ok m s ss -> fss_ok m (<[s := ss]> M).
Proof.
  intros [H1 H2] Hs. split.
  - intros s' ss' [[<- <-]|[_ ?]]%lookup_insert_Some; [done|by apply H1].
  - intros k sm Hk. destruct (decide (s = m_subj sm)) as [->|Hne]; [rewrite lookup_insert_eq; by eexists|].
    rewrite lookup_insert_ne by done. by eapply H2.
Qed.

Lemma subj_trackable ms s k : ms_ok ms -> at_subj (msgs ms) s k -> trackable s = true.
Proof. intros Hok (sm&Hk&<-). by apply (ok_keys _ _ _ _ Hok) in Hk as (_&_&_&?). Qed.

(** Writing the recalculated state of a subject. *)
Lemma write_recalculated ms M s ss : ms_ok ms -> sm_rep (fss ms) M -> fss_ok (msgs ms) M -> M !! s = Some ss ->
  let ss' := recalculateForSubj ms s ss in
  ss_ok (msgs ms) s ss' /\ firstNeedsUpdate ss' = false /\ lastNeedsUpdate ss' = false /\
  exists f, sm_Insert (fss ms) s ss' = Some f /\ sm_rep f (<[s := ss']> M) /\ fss_ok (msgs ms) (<[s := ss']> M).
Proof.
  intros Hok HM Hf Hs. pose proof (proj1 Hf s ss Hs) as Hss. destruct (recalculate_ok ms s ss Hss (ms_in_range ms Hok)) as (H1&H2&H3).
  split_and!; [done|done|done|]. destruct (ss_some ms s ss Hss) as [k Hk]. pose proof (subj_trackable ms s k Hok Hk) as Ht.
  destruct (sm_Insert_law _ _ _ (recalculateForSubj ms s ss) HM Ht) as (f&Hi&Hr). exists f. split_and!; [done|done|]. by apply fss_ok_update.
Qed.

Lemma refresh_ok ms M s ss : ms_ok ms -> sm_rep (fss ms) M -> fss_ok (msgs ms) M -> M !! s = Some ss ->
  exists ms' ss' M', refresh ms s ss = Some (ms', ss') /\ ms_ok ms' /\ msgs ms' = msgs ms /\ state ms' = state ms /\ frame ms ms' /\
    sm_rep (fss ms') M' /\ fss_ok (msgs ms) M' /\ M' !! s = Some ss' /\
    ss_ok (msgs ms) s ss' /\ firstNeedsUpdate ss' = false /\ lastNeedsUpdate ss' = false /\ Msgs ss' = Msgs ss.
Proof.
  intros Hok HM Hf Hs. unfold refresh. destruct (firstNeedsUpdate ss || lastNeedsUpdate ss) eqn:E.
  - destruct (write_recalculated ms M s ss Hok HM Hf Hs) as (H1&H2&H3&f&Hi&Hr&Hf'). rewrite Hi. cbn [mbind option_bind].
    exists (with_fss ms f), (recalculateForSubj ms s ss), (<[s := recalculateForSubj ms s ss]> M).
    split_and!; try done; [by eapply ms_ok_fss|by rewrite lookup_insert_eq|]. pose proof (proj1 Hf s ss Hs) as Hss. destruct H1, Hss. congruence.
  - apply orb_false_iff in E as [E1 E2]. exists ms, ss, M. split_and!; try done. by apply Hf.
Qed.

(** ** Limits *)

Lemma enforce_subject_ok s fuel : forall ms, ms_ok ms -> 0 < maxp ms -> (Z.to_nat (subj_count (msgs ms) s) < fuel)%nat ->
  exists ms' c, enforce_subject fuel ms s = Some ms' /\ ms_ok ms' /\ frame ms ms' /\ msgs ms' = trim_subj s c (msgs ms) /\
    subj_count (msgs ms') s <= maxp ms /\ (forall k, at_subj (msgs ms) s k -> k < c -> maxp ms < subj_count (from_seq k (msgs ms)) s).
Proof.
  induction fuel as [|fuel IH]; intros ms Hok Hp Hfuel; [lia|]. pose proof (ok_fss _ _ _ _ Hok) as (M&HM&Hf).
  assert (subj_count (msgs ms) s <= maxp ms -> exists ms' c, Some ms = Some ms' /\ ms_ok ms' /\ frame ms ms' /\ msgs ms' = trim_subj s c (msgs ms) /\
    subj_count (msgs ms') s <= maxp ms /\ (forall k, at_subj (msgs ms) s k -> k < c -> maxp ms < subj_count (from_seq k (msgs ms)) s)) as Hstop.
  { intros Hc. assert (forall j, at_subj (msgs ms) s j -> 0 < j) as Hpos by (intros j (sm&Hj&_); by apply (ok_keys _ _ _ _ Hok) in Hj as (_&_&?&_)).
    exists ms, 0. split_and!; try done; [|intros k Hk%Hpos; lia]. symmetry. apply trim_subj_all. intros j Hj%Hpos. lia. }
  cbn [enforce_subject]. rewrite (sm_Find_law _ _ _ HM). destruct (M !! s) as [ss|] eqn:Es.
  2: { apply Hstop. unfold subj_count. assert (size (of_subj s (msgs ms)) = 0%nat); [|lia].
       destruct (size (of_subj s (msgs ms))) eqn:En; [done|]. destruct (proj2 (at_subj_count (msgs ms) s)) as (k&sm&Hk&<-); [lia|].
       destruct (proj2 Hf k sm Hk) as [? ?]. congruence. }
  assert (Msgs ss = subj_count (msgs ms) s) as Hn by (by apply Hf in Es as []).
  destruct (Z.ltb_spec (maxp ms) (Msgs ss)) as [Hlt|Hle]; [|apply Hstop; lia].
  destruct (refresh_ok ms M s ss Hok HM Hf Es) as (ms1&ss1&M1&->&Hok1&Hm1&Hst1&Hfr1&_&_&_&Hss1&Hf1&_&_). cbn [mbind option_bind].
  pose proof (so_first _ _ _ Hss1 Hf1) as Hat. pose proof Hat as (sm&Hk&Hsub). rewrite <- Hm1 in Hk.
  destruct (removeMsg_ok ms1 (First ss1) sm Hok1 Hk) as (ms2&->&Hok2&Hm2&Hfr2). cbn [mbind option_bind].
  pose proof Hfr1 as (_&Hmp1&_). pose proof Hfr2 as (_&Hmp2&_). rewrite Hm1 in Hm2.
  pose proof (of_subj_delete s (msgs ms) (First ss1) sm ltac:(by rewrite <- Hm1)) as Hd. rewrite decide_True in Hd by done.
  destruct (IH ms2 Hok2 ltac:(lia)) as (ms'&c&E&Hok'&Hfr'&Hm'&Hc'&Hover).
  { rewrite Hm2. unfold subj_count in *. lia. }
  exists ms', (Z.max c (First ss1 + 1)). split_and!; [done|done|by rewrite Hfr1, Hfr2| |congruence|].
  { rewrite Hm', Hm2. apply trim_subj_delete; [|done]. intros j Hj. by apply (so_lo _ _ _ Hss1). }
  intros k Hatk Hkc. destruct (so_lo _ _ _ Hss1 k Hatk) as [Hfk _]. destruct (decide (k = First ss1)) as [->|Hne].
  - eapply Z.lt_le_trans; [exact Hlt|]. rewrite Hn. unfold subj_count. apply inj_le, map_subseteq_size, map_subseteq_spec. intros i x. rewrite !of_subj_lookup, from_seq_lookup.
    intros [Hi Hsx]. split_and!; [done| |done]. apply (so_lo _ _ _ Hss1). by exists x.
  - replace (from_seq k (msgs ms)) with (from_seq k (msgs ms2)).
    + rewrite <- Hmp1, <- Hmp2. apply Hover; [|lia]. destruct Hatk as (x&Hx&Hsx). exists x. rewrite Hm2, lookup_delete_ne by done. done.
    + rewrite Hm2. apply map_eq. intros i. apply option_eq. intros x. rewrite !from_seq_lookup, lookup_delete_Some. intuition lia.
Qed.

Lemma enforce_loop_ok over fuel : forall ms, ms_ok ms -> (forall st, sMsgs st = 0 -> sBytes st = 0 -> over st = false) -> (size (msgs ms) <= fuel)%nat ->
  exists ms' c, enforce_loop over fuel ms = Some ms' /\ ms_ok ms' /\ frame ms ms' /\ msgs ms' = from_seq c (msgs ms) /\ over (state ms') = false /\
    (forall k, is_Some (msgs ms !! k) -> k < c -> exists st, over st = true /\ sMsgs st = Z.of_nat (size (from_seq k (msgs ms))) /\ sBytes st = total (from_seq k (msgs ms))).
Proof.
  induction fuel as [|fuel IH]; intros ms Hok Ho Hfuel; cbn [enforce_loop].
  all: assert (forall j, is_Some (msgs ms !! j) -> 0 < j) as Hpos by (intros j [sm Hj]; by apply (ok_keys _ _ _ _ Hok) in Hj as (_&_&?&_)).
  all: destruct (over (state ms)) eqn:E;
    [|exists ms, 0; split_and!; try done; [symmetry; apply from_seq_all; intros j Hj%Hpos; lia|intros k Hk%Hpos; lia]].
  all: assert (msgs ms <> ∅) as Hne by (intros Hm; pose proof Hok as [_ _ H1 H2 _ _ _ _]; rewrite Hm in H1, H2; by rewrite Ho in E).
  - assert (size (msgs ms) = 0%nat) as Hz by lia. by apply map_size_empty_inv in Hz.
  - unfold deleteFirstMsgOrPanic, deleteFirstMsg. destruct (ok_first _ _ _ _ Hok Hne) as [sm Hk].
    destruct (removeMsg_ok ms _ sm Hok Hk) as (ms1&->&Hok1&Hm1&Hfr1). cbn [mbind option_bind].
    destruct (IH ms1 Hok1 Ho) as (ms'&c&->&Hok'&Hfr'&Hm'&Hov&Hover).
    { rewrite Hm1, map_size_delete_Some by (by eexists). lia. }
    assert (forall j, is_Some (msgs ms !! j) -> FirstSeq (state ms) <= j) as Hmin by (intros j Hj; by apply ms_in_range in Hj as [? _]).
    exists ms', (Z.max c (FirstSeq (state ms) + 1)). split_and!; [done|done|by rewrite Hfr1| |done|].
    { rewrite Hm', Hm1. by apply from_seq_delete. }
    intros k Hsk Hkc. destruct (decide (k = FirstSeq (state ms))) as [->|Hnk].
    + rewrite from_seq_all by done. exists (state ms). split; [done|]. by destruct Hok.
    + pose proof (Hmin k Hsk). replace (from_seq k (msgs ms)) with (from_seq k (msgs ms1)).
      * apply Hover; [|lia]. by rewrite Hm1, lookup_delete_ne.
      * rewrite Hm1. apply map_eq. intros i. apply option_eq. intros x. rewrite !from_seq_lookup, lookup_delete_Some. intuition lia.
Qed.

Definition over_msgs (n : Z) (m : gmap Z StoreMsg) : bool := (0 <? n) && (n <? Z.of_nat (size m)).
Definition over_bytes (n : Z) (m : gmap Z StoreMsg) : bool := (0 <? n) && (n <? total m).

Lemma over_msgs_mono n a b : a ⊆ b -> over_msgs n b = false -> over_msgs n a = false.
Proof. intros Hs%map_subseteq_size. unfold over_msgs. rewrite !andb_false_iff, !Z.ltb_ge. lia. Qed.
Lemma over_bytes_mono n a b : a ⊆ b -> over_bytes n b = false -> over_bytes n a = false.
Proof. intros Hs%total_mono. unfold over_bytes. rewrite !andb_false_iff, !Z.ltb_ge. lia. Qed.

Lemma newest_all over m : (forall a b, a ⊆ b -> over b = false -> over a = false) -> over m = false -> newest over m = m.
Proof.
  intros Hmono Ho. apply map_eq. intros j. apply option_eq. intros sm. unfold newest. rewrite map_lookup_filter_Some. split; [by intros []|].
  intros Hj. split; [done|]. eapply Hmono; [apply from_seq_sub|done].
Qed.

(** Both limits; [pick] is the total that the limit is on. *)
Lemma enforce_limit ms (limit : Z) (pick : StreamState -> Z) (over : gmap Z StoreMsg -> bool) (weigh : gmap Z StoreMsg -> Z) : ms_ok ms ->
  (forall a b, a ⊆ b -> over b = false -> over a = false) -> (forall m, over m = (0 <? limit) && (limit <? weigh m)) ->
  (forall ms, ms_ok ms -> pick (state ms) = weigh (msgs ms)) ->
  (forall st m, sMsgs st = Z.of_nat (size m) -> sBytes st = total m -> pick st = weigh m) -> weigh ∅ = 0 ->
  exists ms', (if (limit <=? 0) || (pick (state ms) <=? limit) then Some ms
               else enforce_loop (fun st => limit <? pick st) (Z.to_nat (sMsgs (state ms))) ms) = Some ms' /\
    ms_ok ms' /\ frame ms ms' /\ msgs ms' = newest over (msgs ms).
Proof.
  intros Hok Hmono Hover Hpick Hpick' H0. destruct (_ || _) eqn:E.
  - exists ms. split_and!; try done. symmetry. apply newest_all; [done|]. rewrite Hover, <- (Hpick ms Hok). apply andb_false_iff. rewrite !Z.ltb_ge.
    apply orb_true_iff in E as [?%Z.leb_le|?%Z.leb_le]; lia.
  - apply orb_false_iff in E as [E1%Z.leb_gt E2%Z.leb_gt].
    destruct (enforce_loop_ok (fun st => limit <? pick st) (Z.to_nat (sMsgs (state ms))) ms Hok) as (ms'&c&->&Hok'&Hfr&Hm&Hov&Hk).
    { intros st Hn Hb. rewrite (Hpick' st ∅), H0; [apply Z.ltb_ge; lia|by rewrite Hn|by rewrite Hb]. }
    { destruct Hok. lia. }
    exists ms'. split_and!; try done. rewrite Hm. apply newest_eq; [done| |].
    + rewrite Hover, <- Hm, <- (Hpick ms' Hok'), Hov. apply andb_false_r.
    + intros k Hsk Hkc. destruct (Hk k Hsk Hkc) as (st&Ho&Hn&Hb). rewrite Hover, <- (Hpick' st) by done. rewrite Ho. apply andb_true_iff. split; [by apply Z.ltb_lt|done].
Qed.

Lemma enforceMsgLimit_ok ms : ms_ok ms ->
  exists ms', enforceMsgLimit ms = Some ms' /\ ms_ok ms' /\ frame ms ms' /\
    msgs ms' = if is_old ms then newest (over_msgs (MaxMsgs (cfg ms))) (msgs ms) else msgs ms.
Proof.
  intros Hok. unfold enforceMsgLimit. destruct (is_old ms); cbn [negb]; [|by exists ms].
  apply (enforce_limit ms (MaxMsgs (cfg ms)) sMsgs _ (fun m => Z.of_nat (size m))); try done; [apply over_msgs_mono|by intros ? []].
Qed.

Lemma enforceBytesLimit_ok ms : ms_ok ms ->
  exists ms', enforceBytesLimit ms = Some ms' /\ ms_ok ms' /\ frame ms ms' /\
    msgs ms' = if is_old ms then newest (over_bytes (MaxBytes (cfg ms))) (msgs ms) else msgs ms.
Proof.
  intros Hok. unfold enforceBytesLimit. destruct (is_old ms); cbn [negb]; [|by exists ms].
  apply (enforce_limit ms (MaxBytes (cfg ms)) sBytes _ total); try done; [apply over_bytes_mono|by intros ? []].
Qed.

(** ** Storing *)

(** The parts of the store that the invariant is about are the same. *)
Definition same_core ms ms' : Prop :=
  state ms' = state ms /\ msgs ms' = msgs ms /\ fss ms' = fss ms /\ dmap ms' = dmap ms /\
  cfg ms' = cfg ms /\ maxp ms' = maxp ms /\ closed ms' = closed ms /\ scb ms' = scb ms.

#[global] Instance same_core_refl : Reflexive same_core.
Proof. by intros ms. Qed.
#[global] Instance same_core_trans : Transitive same_core.
Proof. intros a b c (?&?&?&?&?&?&?&?) (?&?&?&?&?&?&?&?). unfold same_core. split_and!; congruence. Qed.

Lemma same_core_ok ms ms' : same_core ms ms' -> ms_ok ms -> ms_ok ms'.
Proof. intros (E1&E2&E3&E4&_) H. unfold ms_ok. by rewrite E1, E2, E3, E4. Qed.
Lemma same_core_frame ms ms' : same_core ms ms' -> frame ms ms'.
Proof. intros (E1&_&_&_&?&?&?&?). unfold frame. rewrite E1. by split_and!. Qed.

Lemma notify_same ms n b k s : same_core ms (notify ms n b k s).
Proof. unfold notify. by destruct (scb ms) eqn:E. Qed.
Lemma startAgeChk_same ms : same_core ms (startAgeChk ms).
Proof. unfold startAgeChk. destruct (ageChk ms); [done|]. by destruct (_ || _). Qed.
Lemma resetAgeChk_same ms delta now ats : same_core ms (resetAgeChk ms delta now ats).
Proof.
  unfold resetAgeChk. destruct (ageChkRun ms); [done|]. destruct (_ && _); [done|]. cbv zeta. by destruct (_ && _).
Qed.
Lemma track_ttl_same ms k t ttl now ats : same_core ms (track_ttl ms k t ttl now ats).
Proof.
  unfold track_ttl. destruct (ttls ms) as [w|].
  - destruct (0 <? ttl); [|apply startAgeChk_same]. etrans; [|apply resetAgeChk_same]. done.
  - destruct (0 <? _); [apply startAgeChk_same|done].
Qed.
Lemma track_schedule_same ms s h k t now now2 : same_core ms (track_schedule ms s h k t now now2).
Proof. unfold track_schedule. by destruct (scheduling ms). Qed.

(** The state of a subject after one more message. *)
Lemma fss_insert m M k sm : fss_ok m M -> (forall j, is_Some (m !! j) -> 0 < j < k) -> k < 2 ^ 64 -> 0 < k ->
  fss_ok (<[k := sm]> m)
    (<[m_subj sm := match M !! m_subj sm with
                    | Some ss => mkSS (u64 (Msgs ss + 1)) (First ss) k (firstNeedsUpdate ss) false
                    | None => mkSS 1 k k false false end]> M).
Proof.
  intros [H1 H2] Hk Hk64 Hk0. assert (m !! k = None) as Hnone.
  { destruct (m !! k) eqn:E; [|done]. assert (0 < k < k); [apply Hk; by eexists|lia]. }
  assert (forall s j, at_subj (<[k := sm]> m) s j <-> (j = k /\ m_subj sm = s) \/ at_subj m s j) as Hat.
  { intros s j. unfold at_subj. setoid_rewrite lookup_insert_Some. split; [naive_solver|]. intros [[-> Hs]|(x&Hx&Hs)]; [naive_solver|].
    exists x. split; [|done]. right. split; [|done]. intros ->. congruence. }
  assert (forall s j, at_subj m s j -> 0 < j < k) as Hlt by (intros s j (x&Hx&_); apply Hk; by eexists).
  assert (Z.of_nat (size m) <= k - 1) as Hsize by (apply size_keys; [lia|]; intros j Hj; apply Hk in Hj; lia).
  split.
  - intros s ss' [[<- <-]|[Hne Hs]]%lookup_insert_Some.
    + pose proof (of_subj_insert (m_subj sm) m k sm Hnone) as Hc. rewrite decide_True in Hc by done.
      destruct (M !! m_subj sm) as [ss|] eqn:E.
      * destruct (H1 _ _ E) as [Hc0 Hp Hlo Hhi Hfi Hla Hrg]. assert (Z.of_nat (size (of_subj (m_subj sm) m)) <= Z.of_nat (size m)) as Hle.
        { apply inj_le, map_subseteq_size, map_filter_subseteq. }
        assert (exists j, at_subj m (m_subj sm) j) as [j0 Hj0] by (apply at_subj_count; lia).
        rewrite u64_small by (unfold is_u64; lia). split; cbn; try lia; try done.
        -- intros j [[-> _]|Hj]%Hat; [|by apply Hlo]. pose proof (Hlo _ Hj0). pose proof (Hlt _ _ Hj0). split; [lia|intros; lia].
        -- intros j [[-> _]|Hj]%Hat; [split; [lia|done]|]. pose proof (Hlt _ _ Hj). split; [lia|done].
        -- intros Hx. apply Hat. right. by apply Hfi.
        -- intros _. apply Hat. by left.
      * assert (size (of_subj (m_subj sm) m) = 0%nat) as Hz.
        { destruct (size (of_subj (m_subj sm) m)) eqn:En; [done|]. destruct (proj2 (at_subj_count m (m_subj sm))) as (j&x&Hj&Hs); [lia|].
          destruct (H2 j x Hj) as [y Hy]. rewrite Hs in Hy. congruence. }
        assert (forall j, ~ at_subj m (m_subj sm) j) as Hno by (intros j Hj; assert (0 < size (of_subj (m_subj sm) m))%nat; [apply at_subj_count; by exists j|lia]).
        split; cbn; try lia; try (intros j [[-> _]|Hj]%Hat; [split; [lia|done]|by destruct (Hno j)]); intros _; apply Hat; by left.
    + destruct (H1 s ss' Hs) as [Hc0 Hp Hlo Hhi Hfi Hla Hrg]. pose proof (of_subj_insert s m k sm Hnone) as Hc. rewrite decide_False in Hc by congruence.
      split; try done; [lia| | |intros Hx; apply Hat; auto|intros Hx; apply Hat; auto].
      all: intros j [[_ Hx]|Hj]%Hat; [congruence|auto].
  - intros j x [[<- <-]|[Hne Hj]]%lookup_insert_Some; [rewrite lookup_insert_eq; by eexists|].
    destruct (decide (m_subj sm = m_subj x)) as [->|Hs]; [rewrite lookup_insert_eq; by eexists|]. rewrite lookup_insert_ne by done. by eapply H2.
Qed.

(** There is room for one more message. *)
Definition fits ms (s h m : string) : Prop :=
  LastSeq (state ms) + 1 < seq_max /\ total (msgs ms) + memStoreMsgSize s h m < 2 ^ 64.

Lemma put_track_ok ms s h m t : ms_ok ms -> trackable s = true -> fits ms s h m ->
  let k := LastSeq (state ms) + 1 in
  let ms1 := put_msg ms s h m k t in
  exists ss f, track_subject ms1 s k = (if (0 <? maxp ms) && (maxp ms <? Msgs ss) then enforcePerSubjectLimit (with_fss ms1 f) s ss else Some (with_fss ms1 f)) /\
    ms_ok (with_fss ms1 f) /\ Msgs ss = subj_count (msgs ms1) s /\ msgs ms1 = <[k := mkMsg s h m k t]> (msgs ms).
Proof.
  intros Hok Ht [Hfit1 Hfit2] k ms1. pose proof ss_bound as Hsb. pose proof Hok as [(M&HM&Hf) (X&HX&Hd) Hn Hb Hkeys Hfirst Hrange Htot].
  set (sm := mkMsg s h m k t). assert (forall j, is_Some (msgs ms !! j) -> 0 < j < k) as Hk by (intros j [x Hj]; apply Hkeys in Hj as (_&?&?&_); unfold k; lia).
  assert (msgs ms !! k = None) as Hnone.
  { destruct (msgs ms !! k) eqn:E; [|done]. assert (0 < k < k); [apply Hk; by eexists|lia]. }
  pose proof (fss_insert (msgs ms) M k sm Hf Hk ltac:(unfold k; lia) ltac:(unfold k; lia)) as Hf'. cbn [m_subj sm] in Hf'.
  set (ss := match M !! s with Some ss => _ | None => _ end) in Hf'.
  destruct (sm_Insert_law _ _ _ ss HM Ht) as (f&Hi&Hr). exists ss, f.
  assert (msgs ms1 = <[k := sm]> (msgs ms)) as Hm1 by (unfold ms1, put_msg; by destruct (sMsgs (state ms) =? 0)).
  assert (fss ms1 = fss ms /\ dmap ms1 = dmap ms /\ maxp ms1 = maxp ms) as (Ef&Ed&Ep) by (unfold ms1, put_msg; by destruct (sMsgs (state ms) =? 0)).
  assert (Msgs ss = subj_count (msgs ms1) s) as Hc by (rewrite Hm1; apply Hf'; by rewrite lookup_insert_eq).
  split_and!; [| |done|done].
  - unfold track_subject. destruct (String.eqb_spec s "") as [->|_]; [done|]. rewrite Ef, (sm_Find_law _ _ _ HM). unfold ss in *.
    destruct (M !! s) as [ss0|]; rewrite Hi; cbn [mbind option_bind]; [by cbn [maxp with_fss]; rewrite Ep|].
    cbn [Msgs]. destruct (Z.ltb_spec 0 (maxp ms)), (Z.ltb_spec (maxp ms) 1); (done || lia).
  - assert (FirstSeq (state ms1) = (if decide (msgs ms = ∅) then k else FirstSeq (state ms)) /\ LastSeq (state ms1) = k /\
      sMsgs (state ms1) = sMsgs (state ms) + 1 /\ sBytes (state ms1) = sBytes (state ms) + memStoreMsgSize s h m) as (E1&E2&E3&E4).
    { pose proof (ms_size ms Hok). pose proof (size_of_range sm) as Hsr. change (size_of sm) with (memStoreMsgSize s h m) in Hsr. pose proof (total_nonneg (msgs ms)).
      unfold ms1, put_msg. destruct (Z.eqb_spec (sMsgs (state ms)) 0) as [E|E]; cbn; (split_and!; [|done|rewrite u64_small; [done|unfold is_u64; lia]..]).
      - rewrite decide_True; [done|]. apply map_size_empty_inv. lia.
      - rewrite decide_False; [done|]. intros Hem. rewrite Hem, map_size_empty in Hn. lia. }
    assert (msgs ms <> ∅ -> 0 < FirstSeq (state ms) < k) as Hfk by (intros Hne; by apply Hk, Hfirst).
    unfold ms_ok. cbn [state msgs fss dmap with_fss]. rewrite Hm1, Ed. split.
    + by exists (<[s := ss]> M).
    + exists X. split; [done|]. intros x. rewrite (Hd x), E1, E2. destruct (decide (msgs ms = ∅)) as [Hem|Hne].
      * rewrite Hem. split; [by intros []|]. intros (_&Hx&Hl). assert (x = k) as -> by lia. by rewrite lookup_insert_eq in Hl.
      * split.
        -- intros (_&Hx&Hl). split_and!; [apply insert_non_empty|lia|unfold k; lia|]. rewrite lookup_insert_ne; [done|unfold k; lia].
        -- intros (_&Hx&Hl). destruct (decide (x = k)) as [->|Hxk]; [by rewrite lookup_insert_eq in Hl|]. rewrite lookup_insert_ne in Hl by done.
           split_and!; [done|lia|unfold k in *; lia|done].
    + rewrite E3, Hn, map_size_insert_None by done. lia.
    + rewrite E4, Hb, total_insert by done. unfold size_of. cbn. lia.
    + intros j x Hj. unfold msg_ok. rewrite E1, E2. apply lookup_insert_Some in Hj as [[<- <-]|[Hne Hj]].
      * cbn. split_and!; try done; try (destruct (decide _) as [|Hne]; [|specialize (Hfk Hne)]); unfold k in *; lia.
      * destruct (Hkeys j x Hj) as (?&?&?&?). rewrite decide_False by (intros Hem; by rewrite Hem, lookup_empty in Hj). split_and!; (done || (unfold k; lia)).
    + intros _. rewrite E1. destruct (decide (msgs ms = ∅)) as [_|Hne]; [rewrite lookup_insert_eq; by eexists|].
      destruct (Hfirst Hne) as [x Hx]. rewrite lookup_insert_ne; [by eexists|]. specialize (Hfk Hne). lia.
    + rewrite E1, E2. destruct (decide (msgs ms = ∅)) as [|Hne]; [|specialize (Hfk Hne)]; unfold k in *; lia.
    + rewrite total_insert by done. unfold size_of. cbn. lia.
Qed.

(** What no operation changes but the configuration ones. *)
Definition frame0 ms ms' : Prop := cfg ms' = cfg ms /\ maxp ms' = maxp ms /\ closed ms' = closed ms /\ scb ms' = scb ms.
#[global] Instance frame0_refl : Reflexive frame0.
Proof. by intros ms. Qed.
#[global] Instance frame0_trans : Transitive frame0.
Proof. intros a b c (?&?&?&?) (?&?&?&?). unfold frame0. split_and!; congruence. Qed.
Lemma frame_frame0 ms ms' : frame ms ms' -> frame0 ms ms'.
Proof. by intros (?&?&?&?&?). Qed.
Lemma frame0_old ms ms' : frame0 ms ms' -> is_old ms' = is_old ms.
Proof. intros (E&_). unfold is_old. by rewrite E. Qed.

(** ** What a store does *)

(** The subject is at its limit. *)
Definition at_limit ms (s : string) : bool := (0 <? maxp ms) && (maxp ms <=? subj_count (msgs ms) s).

(** The oldest message. *)
Definition older (k : Z) (sm : StoreMsg) (o : option (Z * StoreMsg)) : option (Z * StoreMsg) :=
  match o with Some (j, _) => if j <? k then o else Some (k, sm) | None => Some (k, sm) end.
Definition oldest (m : gmap Z StoreMsg) : option (Z * StoreMsg) := map_fold older None m.

Lemma oldest_spec m : match oldest m with
  | Some (k, sm) => m !! k = Some sm /\ forall j, is_Some (m !! j) -> k <= j
  | None => m = ∅
  end.
Proof.
  unfold oldest. apply (map_fold_weak_ind (fun o m => match o with Some (k, sm) => m !! k = Some sm /\ forall j, is_Some (m !! j) -> k <= j | None => m = ∅ end)); [done|].
  intros k sm m' o Hk. unfold older. destruct o as [[j sj]|].
  - intros [Hj Hmin]. destruct (Z.ltb_spec j k).
    + rewrite lookup_insert_ne by lia. split; [done|]. intros i. rewrite lookup_insert_is_Some. intros [->|[_ Hi]]; [lia|by apply Hmin].
    + rewrite lookup_insert_eq. split; [done|]. intros i. rewrite lookup_insert_is_Some. intros [->|[_ Hi%Hmin]]; lia.
  - intros ->. rewrite lookup_insert_eq. split; [done|]. intros i. rewrite lookup_insert_is_Some, lookup_empty. intros [->|[_ [? ?]]]; [lia|done].
Qed.

(** The error of a stream that discards new messages. *)
Definition over_new ms (s h m : string) : option store_error :=
  if at_limit ms s && DiscardNewPer (cfg ms) && negb (isRollup h) then Some ErrMaxMsgsPerSubject
  else if (0 <? MaxMsgs (cfg ms)) && (MaxMsgs (cfg ms) <=? Z.of_nat (size (msgs ms))) && negb (at_limit ms s) then Some ErrMaxMsgs
  else if (0 <? MaxBytes (cfg ms)) && (MaxBytes (cfg ms) <? total (msgs ms) + memStoreMsgSize s h m) then
    if at_limit ms s then
      match oldest (of_subj s (msgs ms)) with
      | Some (_, sm) => if size_of sm <? memStoreMsgSize s h m then Some ErrMaxBytes else None
      | None => Some ErrMaxBytes
      end
    else Some ErrMaxBytes
  else None.

(** The error of a store with the sequence [k] given by the caller, or 0. *)
Definition refused ms (s h m : string) (k : Z) (discardNewCheck : bool) : option store_error :=
  if closed ms then Some ErrStoreClosed else
  match (if discardNewCheck && negb (is_old ms) then over_new ms s h m else None) with
  | Some e => Some e
  | None => if negb (k =? LastSeq (state ms) + 1) && (0 <? k) then Some ErrSequenceMismatch else None
  end.

(** What the limits leave of [m] after a message of subject [s] is added. *)
Definition kept_subj ms (s : string) (m : gmap Z StoreMsg) : gmap Z StoreMsg := if 0 <? maxp ms then newest_subj s (maxp ms) m else m.
Definition kept ms (s : string) (m : gmap Z StoreMsg) : gmap Z StoreMsg :=
  let m := kept_subj ms s m in
  if is_old ms then newest (over_bytes (MaxBytes (cfg ms))) (newest (over_msgs (MaxMsgs (cfg ms))) m) else m.

Lemma kept_frame0 ms ms' s m : frame0 ms ms' -> kept ms' s m = kept ms s m.
Proof. intros Hf. unfold kept, kept_subj. rewrite (frame0_old _ _ Hf). by destruct Hf as (->&->&_). Qed.

(** [asl] of the code. *)
Lemma at_limit_ok ms M s : fss_ok (msgs ms) M ->
  match M !! s with Some ss => (0 <? maxp ms) && (maxp ms <=? Msgs ss) | None => false end = at_limit ms s.
Proof.
  intros Hf. unfold at_limit. destruct (M !! s) as [ss|] eqn:E.
  - by rewrite (so_count _ _ _ (proj1 Hf s ss E)).
  - destruct (Z.ltb_spec 0 (maxp ms)); [|done]. symmetry. cbn [andb]. apply Z.leb_gt. unfold subj_count.
    destruct (size (of_subj s (msgs ms))) eqn:En; [lia|]. destruct (proj2 (at_subj_count (msgs ms) s)) as (k&sm&Hk&<-); [lia|].
    destruct (proj2 Hf k sm Hk) as [? ?]. congruence.
Qed.

Lemma oldest_first m s ss : ss_ok m s ss -> firstNeedsUpdate ss = false -> exists sm, oldest (of_subj s m) = Some (First ss, sm) /\ m !! First ss = Some sm.
Proof.
  intros Hss Hf. destruct (so_first _ _ _ Hss Hf) as (sm&Hk&Hs). assert (of_subj s m !! First ss = Some sm) as Hl by (by apply of_subj_lookup).
  exists sm. split; [|done]. pose proof (oldest_spec (of_subj s m)) as Ho. destruct (oldest _) as [[k x]|].
  - destruct Ho as [Hx Hmin]. pose proof (Hmin (First ss) ltac:(by eexists)). apply of_subj_lookup in Hx as Hx'.
    pose proof (proj1 (so_lo _ _ _ Hss k ltac:(exists x; naive_solver))). assert (k = First ss) as -> by lia. congruence.
  - by rewrite Ho, lookup_empty in Hl.
Qed.

Lemma discard_new_ok ms s h m M : ms_ok ms -> fits ms s h m -> sm_rep (fss ms) M -> fss_ok (msgs ms) M ->
  exists ms', discard_new ms s h m (M !! s) (at_limit ms s) = Some (ms', over_new ms s h m) /\ ms_ok ms' /\ msgs ms' = msgs ms /\ state ms' = state ms /\ frame0 ms ms'.
Proof.
  intros Hok Hfit HM Hf. unfold discard_new, over_new. pose proof Hok as [_ _ Hn Hb _ _ _ _]. rewrite Hn, Hb. pose proof (u64_range (Z.of_nat (String.length s) + Z.of_nat (String.length h) + Z.of_nat (String.length m) + 16)) as Hsz.
  fold (memStoreMsgSizeRaw (String.length s) (String.length h) (String.length m)) in Hsz. fold (memStoreMsgSize s h m) in Hsz. pose proof (total_nonneg (msgs ms)) as Ht0.
  rewrite u64_small by (destruct Hfit; unfold is_u64 in *; lia).
  destruct (at_limit ms s && _ && _); [by exists ms|]. destruct (_ && _ && _); [by exists ms|]. destruct (_ && _); [|by exists ms].
  pose proof (at_limit_ok ms M s Hf) as Ha. destruct (M !! s) as [ss|] eqn:E; [|rewrite <- Ha; by exists ms].
  destruct (at_limit ms s); cbn [negb]; [|by exists ms].
  destruct (refresh_ok ms M s ss Hok HM Hf E) as (ms1&ss1&M1&->&Hok1&Hm1&Hst1&Hfr1&_&_&_&Hss1&Hf1&_). cbn [mbind option_bind]. apply frame_frame0 in Hfr1.
  destruct (oldest_first _ _ _ Hss1 Hf1) as (sm&->&Hsm). rewrite Hm1, Hsm. exists ms1. by destruct (size_of sm <? _).
Qed.

Lemma track_subject_ok ms s h m t : ms_ok ms -> trackable s = true -> fits ms s h m ->
  let k := LastSeq (state ms) + 1 in
  exists ms', track_subject (put_msg ms s h m k t) s k = Some ms' /\ ms_ok ms' /\ frame0 ms ms' /\ LastSeq (state ms') = k /\
    msgs ms' = kept_subj ms s (<[k := mkMsg s h m k t]> (msgs ms)).
Proof.
  intros Hok Ht Hfit k. destruct (put_track_ok ms s h m t Hok Ht Hfit) as (ss&f&Etr&Hok1&Hc&Hm1). fold k in Etr, Hok1, Hc, Hm1. rewrite Etr.
  set (ms1 := with_fss (put_msg ms s h m k t) f) in *.
  assert (frame0 ms ms1 /\ LastSeq (state ms1) = k /\ msgs ms1 = msgs (put_msg ms s h m k t)) as (Hfr&Hl&Em) by (unfold ms1, put_msg; by destruct (sMsgs (state ms) =? 0)).
  rewrite <- Em in Hc, Hm1. pose proof Hfr as (_&Hp&_). unfold kept_subj. rewrite <- Hm1. destruct (Z.ltb_spec 0 (maxp ms)) as [Hpos|Hpos]; cbn [andb]; [|by exists ms1].
  assert (forall j, at_subj (msgs ms1) s j -> 0 <= j) as Hpos1 by (intros j (sm&Hj&_); apply (ok_keys _ _ _ _ Hok1) in Hj as (_&_&?&_); lia).
  destruct (Z.ltb_spec (maxp ms) (Msgs ss)) as [Hlt|Hle].
  - unfold enforcePerSubjectLimit. rewrite Hp. destruct (Z.leb_spec (maxp ms) 0); [lia|].
    destruct (enforce_subject_ok s (S (Z.to_nat (Msgs ss))) ms1 Hok1) as (ms'&c&->&Hok'&Hfr'&Hm'&Hc'&Hover); [lia|lia|].
    exists ms'. rewrite Hp in Hover, Hc'. split_and!; [done|done| | |].
    + etrans; [done|by apply frame_frame0].
    + destruct Hfr' as (_&_&_&_&->). done.
    + rewrite Hm' in *. by apply newest_subj_eq.
  - exists ms1. split_and!; try done. rewrite <- (trim_subj_all s 0 (msgs ms1)) at 1 by done. apply newest_subj_eq; [rewrite trim_subj_all by done; lia|].
    intros j Hj%Hpos1. lia.
Qed.

Lemma storeRawMsg_ok ms s h m k t ttl dn now ats : ms_ok ms -> trackable s = true -> fits ms s h m ->
  exists ms', storeRawMsg ms s h m k t ttl dn now ats = Some (ms', refused ms s h m k dn) /\ ms_ok ms' /\ frame0 ms ms' /\
    match refused ms s h m k dn with
    | Some _ => msgs ms' = msgs ms /\ state ms' = state ms
    | None => let k := LastSeq (state ms) + 1 in msgs ms' = kept ms s (<[k := mkMsg s h m k t]> (msgs ms)) /\ LastSeq (state ms') = k
    end.
Proof.
  intros Hok Ht Hfit. pose proof ss_bound as Hsb. unfold storeRawMsg, refused. destruct (closed ms) eqn:Hcl; [by exists ms|].
  pose proof (ok_fss _ _ _ _ Hok) as (M&HM&Hf). assert (String.eqb s "" = false) as -> by (by destruct s). rewrite (sm_Find_law _ _ _ HM), (at_limit_ok ms M s Hf).
  assert (exists ms1, (if dn && negb (is_old ms) then discard_new ms s h m (M !! s) (at_limit ms s) else Some (ms, None)) =
    Some (ms1, if dn && negb (is_old ms) then over_new ms s h m else None) /\ ms_ok ms1 /\ msgs ms1 = msgs ms /\ state ms1 = state ms /\ frame0 ms ms1) as (ms1&->&Hok1&Hm1&Hst1&Hfr1).
  { destruct (dn && _); [by apply discard_new_ok|by exists ms]. }
  cbn [mbind option_bind]. destruct (if dn && _ then _ else _) as [e|]; [by exists ms1|].
  assert (fits ms1 s h m) as Hfit1 by (unfold fits; rewrite Hst1, Hm1; done).
  rewrite u64_small by (destruct Hfit1, Hok1; unfold is_u64; lia). rewrite Hst1. destruct (negb _ && _); [by exists ms1|].
  destruct (track_subject_ok ms1 s h m t Hok1 Ht Hfit1) as (ms2&E2&Hok2&Hfr2&Hl2&Hm2). rewrite Hst1 in E2, Hl2, Hm2. rewrite E2. cbn [mbind option_bind].
  destruct (enforceMsgLimit_ok ms2 Hok2) as (ms3&->&Hok3&Hfr3&Hm3). cbn [mbind option_bind].
  destruct (enforceBytesLimit_ok ms3 Hok3) as (ms4&->&Hok4&Hfr4&Hm4). cbn [mbind option_bind].
  set (ms5 := track_schedule _ _ _ _ _ _ _).
  assert (same_core ms4 ms5) as Hsame by (etrans; [apply track_ttl_same|apply track_schedule_same]).
  pose proof (same_core_ok _ _ Hsame Hok4) as Hok5. exists ms5. split; [done|].
  pose proof Hfr3 as (Ecfg3&_&_&_&El3). pose proof Hfr4 as (_&_&_&_&El4). pose proof Hsame as (Est&Em&_).
  apply frame_frame0 in Hfr3, Hfr4. apply same_core_frame, frame_frame0 in Hsame as Hfr5. pose proof Hfr2 as (Ecfg2&_).
  split_and!; [done|by etrans; [|etrans; [|etrans; [|etrans]]]| |by rewrite Est, El4, El3, Hl2].
  assert (is_old ms2 = is_old ms1 /\ is_old ms3 = is_old ms1) as [Eo2 Eo3] by (split; [by apply frame0_old|by rewrite (frame0_old ms2), (frame0_old ms1)]).
  rewrite <- (kept_frame0 ms ms1) by done. unfold kept. rewrite Em, Hm4, Hm3, Hm2, Eo3, Eo2, Ecfg3, Ecfg2, Hm1. by destruct (is_old ms1).
Qed.

(** ** Purge, compaction, truncation *)

Definition state_ok (st : StreamState) : Prop :=
  0 <= LastSeq st < seq_max /\ 0 <= FirstSeq st <= seq_max /\ (FirstSeq st = 0 -> LastSeq st = 0).

Lemma clear_ok ms st : ms_ok ms -> sMsgs st = 0 -> sBytes st = 0 -> state_ok st -> ms_ok (clear ms st).
Proof.
  intros [_ (X&HX&_) _ _ _ _ _ _] Hn Hb Hr. split; cbn; try done.
  - exists ∅. split; [apply sm_New_law|]. by split.
  - exists ∅. split; [by eapply ss_Empty_law|]. intros k. set_solver.
Qed.

Lemma purge_ok ms fseq : ms_ok ms -> LastSeq (state ms) + 1 < seq_max -> 0 <= fseq < seq_max ->
  let '(ms', r) := purge ms fseq in ms_ok ms' /\ frame0 ms ms' /\
  match r with
  | inl _ => ms' = ms /\ 0 < fseq < LastSeq (state ms)
  | inr n => msgs ms' = ∅ /\ n = Z.of_nat (size (msgs ms)) /\
      LastSeq (state ms') = (if fseq =? 0 then LastSeq (state ms) else fseq - 1) /\ FirstSeq (state ms') = LastSeq (state ms') + 1
  end.
Proof.
  intros Hok Hl Hf. pose proof ss_bound. unfold purge. destruct (_ && _) eqn:E.
  { apply andb_true_iff in E as [?%Z.ltb_lt ?%Z.ltb_lt]. by split_and!. }
  set (f := if fseq =? 0 then u64 (LastSeq (state ms) + 1) else fseq).
  assert (f = if fseq =? 0 then LastSeq (state ms) + 1 else fseq) as Ef.
  { unfold f. destruct (fseq =? 0); [|done]. apply u64_small. destruct Hok. unfold is_u64. lia. }
  assert (0 < f < seq_max) as Hfr by (rewrite Ef; destruct Hok; destruct (Z.eqb_spec fseq 0); lia).
  set (ms1 := clear ms _). pose proof (notify_same ms1 (- num_msgs ms) (- i64 (sBytes (state ms))) 0 "") as Hs.
  set (ms2 := notify _ _ _ _ _) in *. clearbody ms2. pose proof Hs as (E1&E2&_).
  assert (u64 (f - 1) = f - 1) as Eu by (apply u64_small; unfold is_u64; lia).
  split_and!.
  - apply (same_core_ok ms1); [done|]. apply clear_ok; [done|done|done|]. unfold state_ok. cbn. lia.
  - pose proof Hs as (_&_&_&_&?&?&?&?). by split_and!.
  - by rewrite E2.
  - done.
  - rewrite E1. cbn. rewrite Eu, Ef. destruct (fseq =? 0); lia.
  - rewrite E1. cbn. rewrite Eu. lia.
Qed.

(** The messages whose sequence is not in a list. *)
Definition without (l : list Z) (m : gmap Z StoreMsg) : gmap Z StoreMsg := filter (fun kv => kv.1 ∉ l) m.
Lemma without_lookup l m k sm : without l m !! k = Some sm <-> m !! k = Some sm /\ k ∉ l.
Proof. unfold without. by rewrite map_lookup_filter_Some. Qed.
Lemma without_cons k l m : without (k :: l) m = without l (delete k m).
Proof.
  apply map_eq. intros j. apply option_eq. intros sm. rewrite !without_lookup, lookup_delete_Some, not_elem_of_cons. naive_solver.
Qed.
Lemma without_nil m : without [] m = m.
Proof. apply map_eq. intros j. apply option_eq. intros sm. rewrite without_lookup. split; [by intros []|]. intros; split; [done|apply not_elem_of_nil]. Qed.

Lemma drop_fold l : forall ms p b M X, sm_rep (fss ms) M -> fss_ok (msgs ms) M -> ss_rep (dmap ms) X ->
  (forall k, k ∈ X -> msgs ms !! k = None) -> (forall k sm, msgs ms !! k = Some sm -> trackable (m_subj sm) = true) -> 0 <= b -> b + total (msgs ms) < 2 ^ 64 ->
  exists ms' M', fold_left drop_seq l (Some (ms, p, b)) =
      Some (ms', p + (Z.of_nat (size (msgs ms)) - Z.of_nat (size (msgs ms'))), b + (total (msgs ms) - total (msgs ms'))) /\
    state ms' = state ms /\ msgs ms' = without l (msgs ms) /\ sm_rep (fss ms') M' /\ fss_ok (msgs ms') M' /\
    ss_rep (dmap ms') (X ∖ list_to_set l) /\ frame0 ms ms'.
Proof.
  induction l as [|k l IH]; intros ms p b M X HM Hf HX Hn Ht Hb Htot.
  { exists ms, M. cbn [fold_left list_to_set]. rewrite without_nil, difference_empty_L. split_and!; try done. do 2 f_equal; [f_equal|]; lia. }
  cbn [fold_left drop_seq mbind option_bind]. destruct (msgs ms !! k) as [sm|] eqn:E.
  - destruct (removeSeqPerSubject_ok ms k sm M HM Hf E (Ht k sm E)) as (f&sd&M1&->&HM1&Hf1). cbn [mbind option_bind].
    set (ms1 := with_msgs _ _). pose proof (total_delete _ k sm E) as Htd. pose proof (total_nonneg (delete k (msgs ms))) as Hnn. pose proof (size_of_range sm) as Hsz.
    rewrite u64_small by (unfold is_u64; lia).
    destruct (IH ms1 (p + 1) (b + size_of sm) M1 X HM1 Hf1 HX) as (ms'&M'&->&Hst&Hm&HM'&Hf'&HX'&Hfr).
    { intros x Hx. cbn. rewrite lookup_delete_None. right. by apply Hn. }
    { intros x y Hx. cbn in Hx. apply lookup_delete_Some in Hx as [_ Hx]. by eapply Ht. }
    { lia. }
    { cbn. lia. }
    assert (Z.of_nat (size (msgs ms1)) = Z.of_nat (size (msgs ms)) - 1) as Es.
    { cbn. rewrite map_size_delete_Some by (by eexists). assert (size (msgs ms) <> 0%nat); [|lia]. intros Hz%map_size_empty_inv. by rewrite Hz, lookup_empty in E. }
    exists ms', M'. split_and!; try done.
    + rewrite Es. cbn [ms1 msgs with_msgs with_fss with_sdm]. do 2 f_equal; [f_equal|]; lia.
    + by rewrite Hm, without_cons.
    + replace (X ∖ list_to_set (k :: l)) with (X ∖ list_to_set l); [done|]. apply set_eq. intros x. rewrite !elem_of_difference. cbn. rewrite elem_of_union, elem_of_singleton.
      split; [|tauto]. intros [H1 H2]. split; [done|]. intros [->|?]; [|done]. apply Hn in H1. congruence.
  - set (ms1 := if ss_IsEmpty (dmap ms) then ms else _).
    assert (msgs ms1 = msgs ms /\ state ms1 = state ms /\ fss ms1 = fss ms /\ frame0 ms ms1 /\ ss_rep (dmap ms1) (X ∖ {[k]})) as (E1&E2&E3&E4&E5).
    { unfold ms1. rewrite (ss_IsEmpty_law _ _ HX). case_bool_decide as Hem; (split_and!; try done); [|by apply ss_Delete_law].
      subst X. by rewrite (empty_difference_L {[k]}). }
    destruct (IH ms1 p b M (X ∖ {[k]})) as (ms'&M'&->&Hst&Hm&HM'&Hf'&HX'&Hfr); try (by rewrite ?E1, ?E3).
    { intros x [Hx _]%elem_of_difference. rewrite E1. by apply Hn. }
    exists ms', M'. split_and!; try done.
    + by rewrite E1.
    + congruence.
    + rewrite Hm, E1, without_cons. by rewrite delete_id.
    + replace (X ∖ list_to_set (k :: l)) with (X ∖ {[k]} ∖ list_to_set l) by set_solver. done.
    + by etrans.
Qed.

(** The end of [compact] and [Truncate]: the totals are adjusted. *)
Lemma finish_ok ms p b : sMsgs (state ms) = p + Z.of_nat (size (msgs ms)) -> sBytes (state ms) = b + total (msgs ms) -> 0 <= p -> 0 <= b ->
  core_ok (mkState (Z.of_nat (size (msgs ms))) (total (msgs ms)) (FirstSeq (state ms)) (FirstTime (state ms)) (LastSeq (state ms)) (LastTime (state ms)))
    (msgs ms) (fss ms) (dmap ms) ->
  exists ms', subtract ms p b = (ms', p, b) /\ ms_ok ms' /\ msgs ms' = msgs ms /\ frame ms ms'.
Proof.
  intros Hp Hb Hp0 Hb0 Hcore. unfold subtract. pose proof (total_nonneg (msgs ms)). rewrite !Z.min_l by lia. eexists. split; [done|]. split; [|done].
  unfold ms_ok. cbn [state msgs fss dmap with_state]. replace (sMsgs (state ms) - p) with (Z.of_nat (size (msgs ms))) by lia.
  by replace (sBytes (state ms) - b) with (total (msgs ms)) by lia.
Qed.

Lemma elem_of_rev_seqZ a b x : x ∈ rev (seqZ a (b - a)) <-> a <= x < b.
Proof. rewrite <- list_elem_of_In, <- in_rev, list_elem_of_In || rewrite list_elem_of_In, <- in_rev, <- list_elem_of_In. rewrite elem_of_seqZ. lia. Qed.

(** The invariant after the loops of [compact] and [Truncate], for the new first and last. *)
Lemma core_drop ms ms' M' l fseq ft lseq lt X : ms_ok ms -> ss_rep (dmap ms) X -> dmap_ok (state ms) (msgs ms) X ->
  msgs ms' = without l (msgs ms) -> sm_rep (fss ms') M' -> fss_ok (msgs ms') M' -> ss_rep (dmap ms') (X ∖ list_to_set l) ->
  state_ok (mkState 0 0 fseq ft lseq lt) -> (forall k, is_Some (msgs ms' !! k) -> fseq <= k <= lseq) -> (msgs ms' <> ∅ -> is_Some (msgs ms' !! fseq)) ->
  (msgs ms <> ∅ -> forall k, FirstSeq (state ms) <= k <= LastSeq (state ms) -> k ∉ l <-> msgs ms' <> ∅ /\ fseq <= k <= lseq) ->
  (msgs ms' <> ∅ -> FirstSeq (state ms) <= fseq /\ lseq <= LastSeq (state ms)) ->
  core_ok (mkState (Z.of_nat (size (msgs ms'))) (total (msgs ms')) fseq ft lseq lt) (msgs ms') (fss ms') (dmap ms').
Proof.
  intros Hok HX Hd Hm HM' Hf' HX' Hst Hr Hfirst Hl Hsub. pose proof Hok as [_ _ _ _ Hkeys _ _ Htot]. split; cbn; try done.
  - by exists M'.
  - exists (X ∖ list_to_set l). split; [done|]. intros x. cbn. rewrite elem_of_difference, elem_of_list_to_set, (Hd x). split.
    + intros ((Hne&Hx&Hxn)&Hxl). apply (Hl Hne x Hx) in Hxl as [H1 H2]. split_and!; try done; try lia. rewrite Hm. destruct (without l (msgs ms) !! x) eqn:E; [|done].
      apply without_lookup in E as [E _]. congruence.
    + intros (Hne&Hx&Hxn). destruct (Hsub Hne) as [Hs1 Hs2].
      assert (msgs ms <> ∅) as Hne0 by (intros Hem; apply Hne; rewrite Hm, Hem; apply map_filter_empty).
      assert (x ∉ l) as Hxl by (apply (Hl Hne0); [lia|done]). split; [|done]. split_and!; [done|lia|lia|].
      destruct (msgs ms !! x) as [y|] eqn:E; [|done]. assert (msgs ms' !! x = Some y) as Hy by (rewrite Hm; by apply without_lookup). congruence.
  - intros k sm Hk. pose proof (Hr k ltac:(by eexists)). rewrite Hm in Hk. apply without_lookup in Hk as [Hk _]. apply Hkeys in Hk as (?&_&?&?).
    by split_and!; [|cbn; lia..| |].
  - assert (total (msgs ms') <= total (msgs ms)); [|lia]. apply total_mono. rewrite Hm. apply map_filter_subseteq.
Qed.

(** Compaction past the last message. *)
Lemma compact_past_ok ms seq : ms_ok ms -> closed ms = false -> 0 < seq < seq_max -> FirstSeq (state ms) <= seq -> LastSeq (state ms) < seq ->
  let ms' := notify (with_closed (clear ms (mkState 0 0 seq None (seq - 1) (LastTime (state ms)))) false) (- num_msgs ms) (- i64 (sBytes (state ms))) 0 "" in
  exists ms'', Some (ms', inr (num_msgs ms) : store_error + Z) = Some (ms'', inr (Z.of_nat (size (msgs ms)) - Z.of_nat (size (msgs ms'')))) /\ ms_ok ms'' /\ frame0 ms ms'' /\
    msgs ms'' = from_seq seq (msgs ms) /\ LastSeq (state ms'') = Z.max (LastSeq (state ms)) (seq - 1).
Proof.
  intros Hok Hcl Hseq Hfs Hgt ms'. pose proof (ok_keys _ _ _ _ Hok) as Hkeys. subst ms'.
  set (ms1 := with_closed _ _). pose proof (notify_same ms1 (- num_msgs ms) (- i64 (sBytes (state ms))) 0 "") as Hs. set (ms2 := notify _ _ _ _ _) in *. clearbody ms2.
    pose proof Hs as (E1&E2&_&_&?&?&E7&?). exists ms2. rewrite E2. cbn. split_and!; try done.
    - unfold num_msgs. by rewrite map_size_empty, Z.sub_0_r.
    - apply (same_core_ok ms1); [done|]. change (ms_ok (clear ms (mkState 0 0 seq None (seq - 1) (LastTime (state ms))))). apply clear_ok; try done. unfold state_ok. cbn. lia.
    - split_and!; try done. by rewrite E7, Hcl.
    - symmetry. apply map_empty. intros k. destruct (from_seq seq (msgs ms) !! k) as [sm|] eqn:E; [|done]. apply from_seq_lookup in E as [E ?]. apply Hkeys in E as (_&?&_). lia.
    - rewrite E1. cbn. lia.
Qed.

Lemma compact_ok ms seq : ms_ok ms -> closed ms = false -> 0 < seq < seq_max ->
  exists ms', compact ms seq = Some (ms', inr (Z.of_nat (size (msgs ms)) - Z.of_nat (size (msgs ms')))) /\ ms_ok ms' /\ frame0 ms ms' /\
    msgs ms' = from_seq seq (msgs ms) /\ LastSeq (state ms') = (if seq <? FirstSeq (state ms) then LastSeq (state ms) else Z.max (LastSeq (state ms)) (seq - 1)).
Proof.
  intros Hok Hcl Hseq. pose proof ss_bound as Hsb. pose proof Hok as [(M&HM&Hf) (X&HX&Hd) Hn Hb Hkeys Hfirst Hrange Htot]. unfold compact.
  destruct (Z.eqb_spec seq 0); [lia|]. destruct (Z.ltb_spec seq (FirstSeq (state ms))) as [Hlt|Hge].
  { exists ms. split_and!; try done; [by rewrite Z.sub_diag|]. symmetry. apply from_seq_all. intros j [sm Hj]. apply Hkeys in Hj as (_&?&_). lia. }
  destruct (Z.leb_spec seq (LastSeq (state ms))) as [Hle|Hgt].
  2: { by apply compact_past_ok. }
  set (next := first_up (has_msg ms) seq (LastSeq (state ms))). set (ms1 := match _ with Some sm => set_first ms _ _ | None => ms end).
  pose proof (first_up_spec (has_msg ms) seq (LastSeq (state ms))) as Hnext. fold next in Hnext.
  set (stop := default (LastSeq (state ms) + 1) next). set (fseq := FirstSeq (state ms)) in *. destruct (Z.eqb_spec fseq 0); [unfold fseq in *; lia|].
  assert (seq <= stop <= LastSeq (state ms) + 1) as Hstop by (unfold stop; destruct next; cbn; [destruct Hnext|]; lia).
  assert (forall j, seq <= j < stop -> msgs ms !! j = None) as Hgap.
  { intros j Hj. apply has_msg_false. unfold stop in Hj. destruct next as [k|]; cbn in Hj; [apply Hnext; lia|apply Hnext; lia]. }
  assert (msgs ms1 = msgs ms /\ fss ms1 = fss ms /\ dmap ms1 = dmap ms /\ frame0 ms ms1 /\ sMsgs (state ms1) = sMsgs (state ms) /\ sBytes (state ms1) = sBytes (state ms) /\
    LastSeq (state ms1) = LastSeq (state ms) /\ FirstSeq (state ms1) = default fseq next) as (E1&E2&E3&E4&E5&E6&E7&E8).
  { unfold ms1, fseq. destruct next as [k|]; [|done]. cbn [mbind option_bind default].
    destruct Hnext as (_&[x Hx]%has_msg_true&_). rewrite Hx. done. }
  destruct (drop_fold (rev (seqZ fseq (stop - fseq))) ms1 0 0 M X) as (ms2&M2&->&Hst2&Hm2&HM2&Hf2&HX2&Hfr2); try (by rewrite ?E1, ?E2, ?E3); try lia.
  { intros k Hk. rewrite E1. by apply Hd in Hk as (_&_&?). }
  { intros k sm Hk. rewrite E1 in Hk. by apply Hkeys in Hk as (_&_&_&?). }
  cbn [mbind option_bind]. rewrite E1 in Hm2 |- *.
  assert (forall k sm, msgs ms2 !! k = Some sm <-> msgs ms !! k = Some sm /\ stop <= k) as Hlk.
  { intros k sm. rewrite Hm2, without_lookup, elem_of_rev_seqZ. split; intros [Hk Hx]; (split; [done|]); pose proof (Hkeys k sm Hk) as (_&?&_); unfold fseq in *; lia. }
  assert (msgs ms2 ⊆ msgs ms) as Hsub by (apply map_subseteq_spec; intros k sm Hk; by apply Hlk).
  pose proof (map_subseteq_size _ _ Hsub) as Hsz.
  assert (core_ok (mkState (Z.of_nat (size (msgs ms2))) (total (msgs ms2)) (default fseq next) (FirstTime (state ms1)) (LastSeq (state ms)) (LastTime (state ms1))) (msgs ms2) (fss ms2) (dmap ms2)) as Hcore.
  { apply (core_drop ms ms2 M2 (rev (seqZ fseq (stop - fseq))) _ _ _ _ X); try done.
    - unfold state_ok, fseq. cbn. destruct next as [k|]; cbn in *; lia.
    - intros k [x [Hx Hk]%Hlk]. pose proof (Hkeys k x Hx) as (_&?&_). unfold stop, fseq in *. destruct next; cbn in *; lia.
    - intros Hne. destruct (map_choose _ Hne) as (k&x&[Hx Hk]%Hlk). pose proof (Hkeys k x Hx) as (_&?&_). unfold stop in *. destruct next as [j|]; cbn in *; [|lia].
      destruct Hnext as (_&[y Hy]%has_msg_true&_). exists y. apply Hlk. by split; [|lia].
    - intros _ k Hk. rewrite elem_of_rev_seqZ. fold fseq in Hk. split.
      + intros Hx. assert (stop <= k) by lia. unfold stop in *. destruct next as [j|]; cbn in *; [|lia]. split; [|lia].
        destruct Hnext as (_&[y Hy]%has_msg_true&_). intros Hem. assert (msgs ms2 !! j = Some y) as Hj by (apply Hlk; by split; [|lia]). by rewrite Hem, lookup_empty in Hj.
      + intros [Hne Hx]. destruct (map_choose _ Hne) as (j&x&[Hj Hsj]%Hlk). pose proof (Hkeys j x Hj) as (_&?&_). unfold stop in *. destruct next as [i|]; cbn in *; lia.
    - intros _. fold fseq. split; [|lia]. destruct next; cbn in *; lia. }
  pose proof (total_mono _ _ Hsub) as Htle.
  destruct (finish_ok ms2 (0 + (Z.of_nat (size (msgs ms)) - Z.of_nat (size (msgs ms2)))) (0 + (total (msgs ms) - total (msgs ms2)))) as (ms3&->&Hok3&Hm3&Hfr3).
  1-4: rewrite ?Hst2, ?E5, ?E6; lia.
  { by rewrite Hst2, E7, E8. }
  match goal with |- context [notify ms3 ?a ?b ?c ?d] => pose proof (notify_same ms3 a b c d) as Hnot; set (ms4 := notify ms3 a b c d) in * end. exists ms4.
  pose proof Hnot as (F1&F2&_). split; [by rewrite F2, Hm3|]. pose proof Hfr3 as (_&_&_&_&E9). split_and!.
  - by apply (same_core_ok ms3).
  - etrans; [exact E4|]. etrans; [exact Hfr2|]. etrans; [by apply frame_frame0|by apply frame_frame0, same_core_frame].
  - rewrite F2, Hm3. apply map_eq. intros k. apply option_eq. intros x. rewrite Hlk, from_seq_lookup. split; intros [Hx Hk]; (split; [done|]); [lia|].
    destruct (decide (stop <= k)); [done|]. rewrite Hgap in Hx by lia. done.
  - rewrite F1, E9, Hst2, E7. lia.
Qed.

(** The messages up to a sequence. *)
Definition to_seq (c : Z) (m : gmap Z StoreMsg) : gmap Z StoreMsg := filter (fun kv => kv.1 <= c) m.
Lemma to_seq_lookup c m k sm : to_seq c m !! k = Some sm <-> m !! k = Some sm /\ k <= c.
Proof. unfold to_seq. by rewrite map_lookup_filter_Some. Qed.

Lemma Truncate_ok ms seq now : ms_ok ms -> 0 < seq <= LastSeq (state ms) ->
  exists ms', Truncate ms seq now = Some ms' /\ ms_ok ms' /\ frame0 ms ms' /\ msgs ms' = to_seq seq (msgs ms) /\ LastSeq (state ms') = seq.
Proof.
  intros Hok Hseq. pose proof Hok as [(M&HM&Hf) (X&HX&Hd) Hn Hb Hkeys Hfirst Hrange Htot]. unfold Truncate. destruct (Z.eqb_spec seq 0); [lia|].
  set (lt := match msgs ms !! seq with Some lsm => _ | None => _ end).
  assert (forall x, x ∈ rev (seqZ (seq + 1) (LastSeq (state ms) - seq)) <-> seq < x <= LastSeq (state ms)) as Hin.
  { intros x. replace (LastSeq (state ms) - seq) with (LastSeq (state ms) + 1 - (seq + 1)) by lia. rewrite elem_of_rev_seqZ. lia. }
  set (l := rev (seqZ (seq + 1) (LastSeq (state ms) - seq))) in *. clearbody l.
  destruct (drop_fold l ms 0 0 M X) as (ms2&M2&->&Hst2&Hm2&HM2&Hf2&HX2&Hfr2); try done; try lia.
  { intros k Hk. by apply Hd in Hk as (_&_&?). }
  { intros k sm Hk. by apply Hkeys in Hk as (_&_&_&?). }
  cbn [mbind option_bind].
  assert (forall k sm, msgs ms2 !! k = Some sm <-> msgs ms !! k = Some sm /\ k <= seq) as Hlk.
  { intros k sm. rewrite Hm2, without_lookup, Hin. split; intros [Hk Hx]; (split; [done|]); pose proof (Hkeys k sm Hk) as (_&?&_); lia. }
  assert (msgs ms2 ⊆ msgs ms) as Hsub by (apply map_subseteq_spec; intros k sm Hk; by apply Hlk).
  pose proof (map_subseteq_size _ _ Hsub) as Hsz. pose proof (total_mono _ _ Hsub) as Htle. pose proof (total_nonneg (msgs ms2)) as Hnn.
  assert (msgs ms2 <> ∅ -> FirstSeq (state ms) <= seq /\ is_Some (msgs ms2 !! FirstSeq (state ms))) as Hne2.
  { intros Hne. destruct (map_choose _ Hne) as (k&x&[Hx Hk]%Hlk). pose proof (Hkeys k x Hx) as (_&?&_). split; [lia|].
    destruct Hfirst as [y Hy]; [intros Hem; by rewrite Hem, lookup_empty in Hx|]. exists y. apply Hlk. split; [done|lia]. }
  assert (core_ok (mkState (Z.of_nat (size (msgs ms2))) (total (msgs ms2)) (FirstSeq (state ms)) (FirstTime (state ms)) seq lt) (msgs ms2) (fss ms2) (dmap ms2)) as Hcore.
  { apply (core_drop ms ms2 M2 l _ _ _ _ X); try done.
    - unfold state_ok. cbn. lia.
    - intros k [x [Hx Hk]%Hlk]. pose proof (Hkeys k x Hx) as (_&?&_). lia.
    - intros Hne. by apply Hne2.
    - intros Hne k Hk. rewrite Hin. split; [|lia]. intros Hx. split; [|lia]. destruct (Hfirst Hne) as [y Hy]. intros Hem.
      assert (msgs ms2 !! FirstSeq (state ms) = Some y) as Hj by (apply Hlk; split; [done|lia]). by rewrite Hem, lookup_empty in Hj.
    - intros _. split; lia. }
  destruct (finish_ok (set_last ms2 seq lt) (0 + (Z.of_nat (size (msgs ms)) - Z.of_nat (size (msgs ms2)))) (0 + (total (msgs ms) - total (msgs ms2)))) as (ms3&->&Hok3&Hm3&Hfr3).
  1-4: cbn; rewrite ?Hst2; lia.
  { cbn [set_last with_state state msgs fss dmap FirstSeq FirstTime LastSeq LastTime]. by rewrite Hst2. }
  match goal with |- context [notify ms3 ?a ?b ?c ?d] => pose proof (notify_same ms3 a b c d) as Hnot; set (ms4 := notify ms3 a b c d) in * end. exists ms4.
  pose proof Hnot as (F1&F2&_). split; [done|]. pose proof Hfr3 as (_&_&_&_&E9). split_and!.
  - by apply (same_core_ok ms3).
  - etrans; [exact Hfr2|]. etrans; [|by apply frame_frame0, same_core_frame]. by apply frame_frame0 in Hfr3.
  - rewrite F2, Hm3. apply map_eq. intros k. apply option_eq. intros x. change (msgs (set_last ms2 seq lt)) with (msgs ms2). by rewrite Hlk, to_seq_lookup.
  - by rewrite F1, E9.
Qed.

Lemma reset_ok ms now : ms_ok ms -> closed ms = false -> ms_ok (reset ms now) /\ frame0 ms (reset ms now) /\ msgs (reset ms now) = ∅ /\ LastSeq (state (reset ms now)) = 0.
Proof.
  intros Hok Hcl. pose proof ss_bound. unfold reset. set (ms1 := with_closed _ _).
  match goal with |- context [notify ms1 ?a ?b ?c ?d] => pose proof (notify_same ms1 a b c d) as Hnot; set (ms2 := notify ms1 a b c d) in * end.
  pose proof Hnot as (F1&F2&_&_&F5&F6&F7&F8). split_and!.
  - apply (same_core_ok ms1); [done|]. change (ms_ok (clear ms (mkState 0 0 0 None 0 (Some now)))). apply clear_ok; try done. unfold state_ok. cbn. lia.
  - split_and!; try done. by rewrite F7, Hcl.
  - by rewrite F2.
  - by rewrite F1.
Qed.

Lemma fold_insert_ok l : forall d X, ss_rep d X -> Forall (fun k => 0 <= k < seq_max) l -> ss_rep (fold_left ss_Insert l d) (list_to_set l ∪ X).
Proof.
  induction l as [|k l IH]; intros d X Hd Hl; [cbn; by rewrite union_empty_l_L|]. apply Forall_cons in Hl as [Hk Hl]. cbn [fold_left].
  replace (list_to_set (k :: l) ∪ X) with (list_to_set l ∪ ({[k]} ∪ X)) by set_solver. by apply IH; [apply ss_Insert_law|].
Qed.

Lemma SkipMsgs_ok ms seq num ats : ms_ok ms -> 0 <= num -> LastSeq (state ms) + num + 1 < seq_max ->
  let '(ms', r) := SkipMsgs ms seq num ats in ms_ok ms' /\ frame0 ms ms' /\ msgs ms' = msgs ms /\
  match r with None => LastSeq (state ms') = LastSeq (state ms) + num | Some _ => ms' = ms end.
Proof.
  intros Hok Hnum Hmax. pose proof ss_bound. pose proof Hok as [(M&HM&Hf) (X&HX&Hd) Hn Hb Hkeys Hfirst Hrange Htot]. unfold SkipMsgs. destruct (_ && _); [by split_and!|].
  rewrite (u64_small (LastSeq (state ms) + 1)) by (unfold is_u64; lia). set (lseq := u64 _).
  assert (lseq = LastSeq (state ms) + num) as El by (unfold lseq; rewrite u64_small; [lia|unfold is_u64; lia]). cbn [set_last with_state state sMsgs].
  destruct (Z.eqb_spec (sMsgs (state ms)) 0) as [E|E].
  - assert (msgs ms = ∅) as Hem by (apply map_size_empty_inv; lia). rewrite u64_small by (unfold is_u64; lia). split_and!; try done. split; cbn; try done.
    + by exists M.
    + exists X. split; [done|]. intros x. rewrite (Hd x). rewrite Hem. split; by intros [].
    + by rewrite Hem.
    + lia.
  - assert (msgs ms <> ∅) as Hne by (intros Hem; rewrite Hem, map_size_empty in Hn; lia). split_and!; try done. split; cbn; try done.
    + by exists M.
    + assert (Forall (fun k => 0 <= k < seq_max) (seqZ (LastSeq (state ms) + 1) (lseq + 1 - (LastSeq (state ms) + 1)))) as Hall.
      { apply Forall_forall. intros x Hx%elem_of_seqZ. lia. }
      pose proof (fold_insert_ok _ (dmap ms) X HX Hall) as HX'.
      eexists. split; [exact HX'|]. intros x. rewrite elem_of_union, elem_of_list_to_set, elem_of_seqZ, (Hd x). cbn. split.
      * intros [Hx|(_&Hx&Hxn)]; (split_and!; try done; try lia).
        -- destruct Hfirst as [y Hy]; [done|]. pose proof (Hkeys _ y Hy) as (_&?&_). lia.
        -- destruct (msgs ms !! x) as [y|] eqn:Ex; [|done]. apply Hkeys in Ex as (_&?&_). lia.
      * intros (_&Hx&Hxn). destruct (decide (x <= LastSeq (state ms))); [right; by split_and!; [|lia..|]|left; lia].
    + intros k sm Hk. destruct (Hkeys k sm Hk) as (?&?&?&?). split_and!; cbn; (done || lia).
    + destruct Hfirst as [y Hy]; [done|]. pose proof (Hkeys _ y Hy) as (_&?&?&_). lia.
Qed.

Lemma SkipMsg_SkipMsgs ms seq ats : ms_ok ms -> LastSeq (state ms) + 2 < seq_max ->
  SkipMsg ms seq ats = match SkipMsgs ms seq 1 ats with (ms', None) => (ms', inr (LastSeq (state ms) + 1)) | (ms', Some e) => (ms', inl e) end.
Proof.
  intros Hok Hmax. pose proof ss_bound. pose proof (ok_range _ _ _ _ Hok) as Hr. unfold SkipMsg, SkipMsgs.
  rewrite (u64_small (LastSeq (state ms) + 1)) by (unfold is_u64; lia). destruct (_ && _) eqn:E.
  { apply andb_true_iff in E as [_ E]. done. }
  replace (LastSeq (state ms) + 1 + 1 - 1) with (LastSeq (state ms) + 1) by lia. rewrite (u64_small (LastSeq (state ms) + 1)) by (unfold is_u64; lia).
  destruct (sMsgs _ =? 0); [done|]. replace (LastSeq (state ms) + 1 + 1 - (LastSeq (state ms) + 1)) with 1 by lia. done.
Qed.

Lemma Stop_ok ms : ms_ok ms -> LastSeq (state ms) + 1 < seq_max -> closed ms = false ->
  ms_ok (Stop ms) /\ closed (Stop ms) = true /\ msgs (Stop ms) = ∅ /\ LastSeq (state (Stop ms)) = LastSeq (state ms).
Proof.
  intros Hok Hl Hcl. pose proof ss_bound. pose proof (ok_range _ _ _ _ Hok) as Hr. unfold Stop. rewrite Hcl.
  set (ms0 := match ageChk ms with Some _ => _ | None => _ end). assert (same_core ms ms0) as Hs by (unfold ms0; by destruct (ageChk ms)).
  set (ms1 := with_closed (with_msgs ms0 ∅) true). unfold Purge, purge. cbn [andb Z.ltb Z.compare]. rewrite Z.eqb_refl.
  change (state ms1) with (state ms0). pose proof Hs as (E1&E2&E3&E4&_). rewrite E1. rewrite (u64_small (LastSeq (state ms) + 1)) by (unfold is_u64; lia).
  replace (LastSeq (state ms) + 1 - 1) with (LastSeq (state ms)) by lia. rewrite (u64_small (LastSeq (state ms))) by (unfold is_u64; lia). cbn [fst].
  match goal with |- context [notify ?m ?a ?b ?c ?d] => pose proof (notify_same m a b c d) as Hnot; set (ms2 := notify m a b c d) in * end.
  pose proof Hnot as (F1&F2&_&_&_&_&F7&_). split_and!; [|by rewrite F7|by rewrite F2|by rewrite F1].
  eapply same_core_ok; [done|]. destruct Hok as [_ (X&HX&_) _ _ _ _ _ _]. split; cbn; try done.
  - exists ∅. split; [apply sm_New_law|by split].
  - exists ∅. split; [rewrite E4; by eapply ss_Empty_law|]. intros k. set_solver.
  - lia.
Qed.
End ops.
