(* ===== verification/MemStoreQueryProofs.v ===== *)
(** * Memory store: searches

    The next and previous message of a filter and the sequence for a time. *)

From S2P Require Import Prelude Subject Scheduler MemStore MemStoreQuery MemStoreProofs MemStoreOps.
Import Sched Mem MemQuery.

Section query.
Context {F D W : Type} `{HF : SubjectMap F SimpleState} `{HFL : !SubjectMapLaws F SimpleState} `{HD : SeqSetI D} `{HDL : !SeqSetLaws D}
  `{HW : TimerWheel W} `{HH : Headers}.
Notation MS := (memStore F D W).
Implicit Types (ms : MS).

(** [k] is the first sequence from [start] on with a message whose subject has [p]. *)
Definition next_match ms (p : string -> bool) (start : Z) (r : found) : Prop :=
  match r with
  | inl (sm, k) => msgs ms !! k = Some sm /\ p (m_subj sm) = true /\ start <= k /\
      forall j sm', msgs ms !! j = Some sm' -> p (m_subj sm') = true -> start <= j -> k <= j
  | inr skip => skip = LastSeq (state ms) /\ forall j sm', msgs ms !! j = Some sm' -> p (m_subj sm') = true -> j < start
  end.

Lemma msg_matches_true ms p k : msg_matches ms p k = true <-> exists sm, msgs ms !! k = Some sm /\ p (m_subj sm) = true.
Proof.
  unfold msg_matches. destruct (msgs ms !! k) as [sm|]; [split; [intros; by exists sm|by intros (?&[= <-]&?)]|]. split; [done|]. by intros (?&?&_).
Qed.

(** A scan of a range that holds every match from [start] on. *)
Lemma scan_next ms p start from last :
  (forall j sm, msgs ms !! j = Some sm -> p (m_subj sm) = true -> start <= j -> (exists i sm', msgs ms !! i = Some sm' /\ p (m_subj sm') = true /\ from <= i <= last /\ i <= j) /\ from <= j) ->
  start <= from -> next_match ms p start (result_at ms (first_up (msg_matches ms p) from last) (LastSeq (state ms))).
Proof.
  intros Hin Hs. pose proof (first_up_spec (msg_matches ms p) from last) as H. destruct (first_up _ _ _) as [k|]; cbn [result_at].
  - destruct H as (Hk&(sm&Hsm&Hp)%msg_matches_true&Hleast). rewrite Hsm. split_and!; [done|done|lia|]. intros j sm' Hj Hpj Hsj.
    destruct (Hin j sm' Hj Hpj Hsj) as [_ Hfj]. destruct (decide (k <= j)); [done|].
    assert (msg_matches ms p j = false) as Hf by (apply Hleast; lia). assert (msg_matches ms p j = true) as Ht by (apply msg_matches_true; by exists sm'). congruence.
  - split; [done|]. intros j sm' Hj Hpj. destruct (decide (j < start)); [done|]. destruct (Hin j sm' Hj Hpj ltac:(lia)) as [(i&smi&Hi&Hpi&Hri&_) _].
    assert (msg_matches ms p i = false) as Hf by (by apply H). assert (msg_matches ms p i = true) as Ht by (apply msg_matches_true; by exists smi). congruence.
Qed.

(** ** The walk for a wildcard *)

Definition exact ms (s : string) (ss : SimpleState) : SimpleState := recalculateForSubj ms s ss.

Lemma wildcard_walk ms start l : forall fnd first last w,
  let '((fnd', first', last', w'), cont) := until (wildcard_cb ms start) l (fnd, first, last, w) in
  (exists done_, done_ `prefix_of` l /\ w' = w ++ ((fun sv => (sv.1, exact ms sv.1 sv.2)) <$> done_)) /\
  first' <= first /\ last <= last' /\ (fnd = true -> fnd' = true) /\
  (if cont : bool
   then forall s ss, (s, ss) ∈ l -> Last (exact ms s ss) < start \/ (fnd' = true /\ first' <= First (exact ms s ss) /\ Last (exact ms s ss) <= last')
   else fnd' = true /\ first' <= start /\ exists s ss, (s, ss) ∈ l /\ start <= Last (exact ms s ss) <= last').
Proof.
  induction l as [|[s ss] l IH]; intros fnd first last w; cbn [until].
  { split_and!; try done; [|intros s ss ?%elem_of_nil; done]. exists []. split; [done|]. by rewrite app_nil_r. }
  unfold wildcard_cb at 1. fold (exact ms s ss). set (e := exact ms s ss).
  assert (forall done_, done_ `prefix_of` l -> (w ++ [(s, e)]) ++ ((fun sv => (sv.1, exact ms sv.1 sv.2)) <$> done_) = w ++ ((fun sv => (sv.1, exact ms sv.1 sv.2)) <$> ((s, ss) :: done_)) /\ (s, ss) :: done_ `prefix_of` (s, ss) :: l) as Hw.
  { intros done_ Hd. split; [by rewrite <- (assoc_L (++))|by apply prefix_cons]. }
  destruct (Z.ltb_spec (Last e) start) as [Hlt|Hge].
  - specialize (IH fnd first last (w ++ [(s, e)])). destruct (until _ l _) as [[[[fnd' first'] last'] w'] cont].
    destruct IH as ((done_&Hd&->)&H1&H2&H3&H4). destruct (Hw done_ Hd) as [E Hp]. split_and!; try done; [by exists ((s, ss) :: done_)|].
    destruct cont.
    + intros s' ss' [[= -> ->]|Hin]%elem_of_cons; [by left|by apply H4].
    + destruct H4 as (?&?&s'&ss'&Hin&?). split_and!; try done. exists s', ss'. split; [by apply elem_of_cons; right|done].
  - set (f1 := if First e <? first then First e else first). set (l1 := if last <? Last e then Last e else last).
    assert (f1 <= first /\ f1 <= First e) as [Hf1 Hf2] by (unfold f1; destruct (Z.ltb_spec (First e) first); lia).
    assert (last <= l1 /\ Last e <= l1) as [Hl1 Hl2] by (unfold l1; destruct (Z.ltb_spec last (Last e)); lia).
    destruct (Z.ltb_spec start f1) as [Hgo|Hstop].
    + specialize (IH true f1 l1 (w ++ [(s, e)])). destruct (until _ l _) as [[[[fnd' first'] last'] w'] cont].
      destruct IH as ((done_&Hd&->)&H1&H2&H3&H4). destruct (Hw done_ Hd) as [E Hp]. specialize (H3 eq_refl).
      split_and!; try done; try lia; [by exists ((s, ss) :: done_)|]. destruct cont.
      * intros s' ss' [[= -> ->]|Hin]%elem_of_cons; [|by apply H4]. right. fold e. split_and!; [done|lia|lia].
      * destruct H4 as (?&?&s'&ss'&Hin&?). split_and!; try done. exists s', ss'. split; [by apply elem_of_cons; right|done].
    + split_and!; try done; try lia.
      * exists [(s, ss)]. split; [apply prefix_cons, prefix_nil|done].
      * exists s, ss. split; [apply list_elem_of_here|]. fold e. lia.
Qed.

(** Writing exact states of subjects keeps the invariant. *)
Lemma write_exact ms l : ms_ok ms -> forall f M, sm_rep f M -> fss_ok (msgs ms) M ->
  (forall s ss, (s, ss) ∈ l -> ss_ok (msgs ms) s ss /\ trackable s = true) ->
  exists f' M', write_all f l = Some f' /\ sm_rep f' M' /\ fss_ok (msgs ms) M'.
Proof.
  intros Hok. unfold write_all. induction l as [|[s ss] l IH]; intros f M HM Hf Hl; [by exists f, M|]. cbn [fold_left mbind option_bind fst snd].
  destruct (Hl s ss) as [Hss Ht]; [apply list_elem_of_here|]. destruct (sm_Insert_law f M s ss HM Ht) as (f1&->&HM1).
  apply (IH f1 (<[s := ss]> M) HM1); [by apply fss_ok_update|]. intros s' ss' Hin. apply Hl. by apply elem_of_cons; right.
Qed.

Lemma exact_ok ms M s ss : ms_ok ms -> fss_ok (msgs ms) M -> M !! s = Some ss ->
  ss_ok (msgs ms) s (exact ms s ss) /\ trackable s = true /\ at_subj (msgs ms) s (First (exact ms s ss)) /\ at_subj (msgs ms) s (Last (exact ms s ss)) /\
  forall k, at_subj (msgs ms) s k -> First (exact ms s ss) <= k <= Last (exact ms s ss).
Proof.
  intros Hok Hf Hs. pose proof (proj1 Hf s ss Hs) as Hss. destruct (recalculate_ok ms s ss Hss (ms_in_range ms Hok)) as (H1&H2&H3). fold (exact ms s ss) in *.
  destruct (ss_some ms s ss Hss) as [k Hk]. split_and!; [done|by eapply subj_trackable|by apply H1|by apply H1|]. intros j Hj. split; by apply H1.
Qed.

(** A search leaves everything but the flags in the subject tree as it is. *)
Definition searched ms ms' : Prop := ms_ok ms' /\ msgs ms' = msgs ms /\ state ms' = state ms /\ frame0 ms ms'.

Lemma searched_fss ms f M : ms_ok ms -> sm_rep f M -> fss_ok (msgs ms) M -> searched ms (with_fss ms f).
Proof. intros. split_and!; try done. by eapply ms_ok_fss. Qed.

Definition subjects_literal ms : Prop := forall k sm, msgs ms !! k = Some sm -> Subj.IsValidLiteralSubject (m_subj sm) = true.

Lemma fss_literal ms M : ms_ok ms -> fss_ok (msgs ms) M -> subjects_literal ms -> map_Forall (fun s _ => Subj.IsValidLiteralSubject s = true) M.
Proof. intros Hok Hf Hl s ss Hs. destruct (ss_some ms s ss (proj1 Hf s ss Hs)) as (k&sm&Hk&<-). by eapply Hl. Qed.

(** The bounds hold all matches from [start] on, and one of them if there is any. *)
Definition bounds_ok ms (p : string -> bool) (start : Z) (b : option (Z * Z)) : Prop :=
  match b with
  | Some (from, last) => start <= from /\ forall j sm, msgs ms !! j = Some sm -> p (m_subj sm) = true -> start <= j ->
      (exists i sm', msgs ms !! i = Some sm' /\ p (m_subj sm') = true /\ from <= i <= last /\ i <= j) /\ from <= j
  | None => forall j sm, msgs ms !! j = Some sm -> p (m_subj sm) = true -> j < start
  end.

Lemma wildcard_bounds ms filter start : ms_ok ms -> subjects_literal ms -> sm_filter (F := F) filter ->
  exists ms' b, nextWildcardMatchLocked ms filter start = Some (ms', b) /\ searched ms ms' /\ bounds_ok ms (fun s => Subj.matchLiteral s filter) start b.
Proof.
  intros Hok Hlit Hflt. pose proof (ok_fss _ _ _ _ Hok) as (M&HM&Hf).
  destruct (sm_Match_law _ M filter HM Hflt (fss_literal ms M Hok Hf Hlit)) as (calls&_&Hcalls&Hwalk).
  unfold nextWildcardMatchLocked. rewrite Hwalk. pose proof (wildcard_walk ms start calls false (LastSeq (state ms)) 0 []) as H.
  destruct (until _ calls _) as [[[[fnd first] last] w] cont]. destruct H as ((done_&Hd&->)&_&_&_&Hres).
  destruct (write_exact ms ((fun sv => (sv.1, exact ms sv.1 sv.2)) <$> done_) Hok (fss ms) M HM Hf) as (f&M'&E&HM'&Hf').
  { intros s ss ([s' ss']&[= -> ->]&Hin)%list_elem_of_fmap. assert ((s', ss') ∈ calls) as [Hc _]%Hcalls by (destruct Hd as [? ->]; set_solver).
    by destruct (exact_ok ms M s' ss' Hok Hf Hc) as (?&?&_). }
  cbn [app]. rewrite E. cbn [mbind option_bind]. eexists _, _. split; [done|]. split; [by eapply searched_fss|].
  assert (forall j sm, msgs ms !! j = Some sm -> Subj.matchLiteral (m_subj sm) filter = true -> exists ss, (m_subj sm, ss) ∈ calls /\ M !! m_subj sm = Some ss) as Hall.
  { intros j sm Hj Hp. destruct (proj2 Hf j sm Hj) as [ss Hss]. exists ss. split; [by apply Hcalls|done]. }
  destruct cont.
  - assert (forall j sm, msgs ms !! j = Some sm -> Subj.matchLiteral (m_subj sm) filter = true -> start <= j -> fnd = true /\ first <= j <= last) as Hin.
    { intros j sm Hj Hp Hsj. destruct (Hall j sm Hj Hp) as (ss&Hc&HMs). destruct (exact_ok ms M _ ss Hok Hf HMs) as (_&_&_&_&Hr).
      specialize (Hr j ltac:(by exists sm)). destruct (Hres _ _ Hc) as [?|(?&?&?)]; [lia|]. split; [done|lia]. }
    destruct fnd; cbn [bounds_ok].
    + split; [lia|]. intros j sm Hj Hp Hsj. destruct (Hin j sm Hj Hp Hsj) as [_ ?]. split; [|lia]. exists j, sm. split_and!; (done || lia).
    + intros j sm Hj Hp. destruct (decide (j < start)); [done|]. by destruct (Hin j sm Hj Hp ltac:(lia)).
  - destruct Hres as (->&Hfs&s&ss&Hc&Hl). cbn [bounds_ok]. split; [lia|]. intros j sm Hj Hp Hsj. split; [|lia].
    destruct (decide (j <= last)) as [Hjl|Hjl]; [exists j, sm; split_and!; (done || lia)|]. apply Hcalls in Hc as [HMs Hps].
    destruct (exact_ok ms M s ss Hok Hf HMs) as (_&_&_&(sm'&Hk&Hs')&_). exists (Last (exact ms s ss)), sm'. rewrite Hs'. split_and!; (done || lia).
Qed.

Lemma literal_bounds ms filter start : ms_ok ms ->
  exists ms' b, nextLiteralMatchLocked ms filter start = Some (ms', b) /\ searched ms ms' /\ bounds_ok ms (fun s => String.eqb s filter) start b.
Proof.
  intros Hok. pose proof (ok_fss _ _ _ _ Hok) as (M&HM&Hf). unfold nextLiteralMatchLocked. rewrite (sm_Find_law _ _ _ HM). destruct (M !! filter) as [ss|] eqn:E.
  - destruct (exact_ok ms M filter ss Hok Hf E) as (Hss&Ht&_&Hl&Hr). fold (exact ms filter ss). destruct (sm_Insert_law _ _ _ (exact ms filter ss) HM Ht) as (f&->&HM').
    cbn [mbind option_bind]. eexists _, _. split; [done|]. split; [eapply searched_fss; [done|done|by apply fss_ok_update]|].
    assert (forall j sm, msgs ms !! j = Some sm -> (m_subj sm =? filter)%string = true -> First (exact ms filter ss) <= j <= Last (exact ms filter ss)) as Hin.
    { intros j sm Hj Hp%String.eqb_eq. apply Hr. by exists sm. }
    destruct (Z.ltb_spec (Last (exact ms filter ss)) start); cbn [bounds_ok].
    + intros j sm Hj Hp. pose proof (Hin j sm Hj Hp). lia.
    + split; [lia|]. intros j sm Hj Hp Hsj. pose proof (Hin j sm Hj Hp). split; [|lia]. exists j, sm. split_and!; (done || lia).
  - exists ms, None. split_and!; try done. intros j sm Hj Hp%String.eqb_eq. destruct (proj2 Hf j sm Hj) as [? ?]. congruence.
Qed.

(** The filter as the store compares subjects with it; with [wc] it is a filter of the tree. *)
Definition wants (filter : string) (wc : bool) : string -> bool :=
  let filter := if String.eqb filter "" then Subj.fwcs else filter in
  subj_matches (String.eqb filter Subj.fwcs) wc filter.

Lemma loadNext_ok ms filter wc start : ms_ok ms -> subjects_literal ms -> (wc = true -> filter <> ""%string -> sm_filter (F := F) filter) ->
  exists ms' r, loadNextMsgLocked ms filter wc start = Some (ms', r) /\ searched ms ms' /\ next_match ms (wants filter wc) start r.
Proof.
  intros Hok Hlit Hflt. unfold loadNextMsgLocked. set (start' := if start <? FirstSeq (state ms) then FirstSeq (state ms) else start).
  assert (start <= start' /\ forall r, next_match ms (wants filter wc) start' r -> next_match ms (wants filter wc) start r) as [Hs Hclamp].
  { split; [unfold start'; destruct (Z.ltb_spec start (FirstSeq (state ms))); lia|]. intros [[sm k]|skip]; cbn [next_match].
    - intros (H1&H2&H3&H4). split_and!; try done; [unfold start' in *; destruct (Z.ltb_spec start (FirstSeq (state ms))); lia|].
      intros j sm' Hj Hp Hsj. apply (H4 j sm' Hj Hp). pose proof (ms_in_range ms Hok j ltac:(by eexists)). unfold start'. destruct (_ <? _); lia.
    - intros [-> H]. split; [done|]. intros j sm' Hj Hp. specialize (H j sm' Hj Hp). pose proof (ms_in_range ms Hok j ltac:(by eexists)).
      unfold start' in H. destruct (Z.ltb_spec start (FirstSeq (state ms))); lia. }
  clearbody start'. destruct (_ || _) eqn:E.
  { exists ms, (inr (LastSeq (state ms))). split; [done|]. split; [by split_and!|]. apply Hclamp. split; [done|]. intros j sm Hj _.
    pose proof (ms_in_range ms Hok j ltac:(by eexists)). apply orb_true_iff in E as [?%Z.ltb_lt|E%Z.eqb_eq]; [lia|].
    destruct Hok. assert (size (msgs ms) = 0%nat) as Hz by lia. apply map_size_empty_inv in Hz. by rewrite Hz, lookup_empty in Hj. }
  apply orb_false_iff in E as [E1%Z.ltb_ge _]. unfold wants in *. set (filter' := if String.eqb filter "" then Subj.fwcs else filter) in *.
  set (p := subj_matches (String.eqb filter' Subj.fwcs) wc filter') in *.
  assert (exists ms' b, (if shouldLinearScan ms filter' wc start' then Some (ms, Some (start', LastSeq (state ms))) else if wc then nextWildcardMatchLocked ms filter' start'
      else nextLiteralMatchLocked ms filter' start') = Some (ms', b) /\ searched ms ms' /\ bounds_ok ms p start' b) as (ms'&b&->&Hsr&Hb).
  { destruct (shouldLinearScan ms filter' wc start') eqn:El.
    - eexists _, _. split; [done|]. split; [by split_and!|]. split; [lia|]. intros j sm Hj Hp Hsj. pose proof (ms_in_range ms Hok j ltac:(by eexists)). split; [|done].
      exists j, sm. split_and!; (done || lia).
    - unfold shouldLinearScan in El. apply orb_false_iff in El as [[El _]%orb_false_iff _]. unfold p. rewrite El. destruct wc.
      + apply (wildcard_bounds ms filter' start' Hok Hlit). unfold filter'. destruct (String.eqb_spec filter "") as [->|Hne]; [done|by apply Hflt].
      + by apply literal_bounds. }
  cbn [mbind option_bind]. destruct Hsr as (Hok'&Hm&Hst&Hfr). destruct b as [[from last]|].
  - eexists _, _. split; [done|]. split; [by split_and!|]. apply Hclamp. destruct Hb as [Hb1 Hb2]. pose proof (scan_next ms p start' from last Hb2 Hb1) as Hn.
    unfold result_at, msg_matches in *. by rewrite Hm.
  - eexists _, _. split; [done|]. split; [by split_and!|]. apply Hclamp. by split.
Qed.

(** The linear searches. *)
Lemma loadNextMulti_ok ms p start : ms_ok ms -> next_match ms p start (LoadNextMsgMulti ms p start).
Proof.
  intros Hok. unfold LoadNextMsgMulti. set (start' := if start <? FirstSeq (state ms) then FirstSeq (state ms) else start).
  destruct (_ || _) eqn:E.
  - split; [done|]. intros j sm Hj _. pose proof (ms_in_range ms Hok j ltac:(by eexists)). apply orb_true_iff in E as [E%Z.ltb_lt|E%Z.eqb_eq].
    + unfold start' in E. destruct (Z.ltb_spec start (FirstSeq (state ms))); lia.
    + destruct Hok. assert (size (msgs ms) = 0%nat) as Hz by lia. apply map_size_empty_inv in Hz. by rewrite Hz, lookup_empty in Hj.
  - assert (forall j, is_Some (msgs ms !! j) -> start <= j -> start' <= j) as Hcl.
    { intros j Hj Hsj. pose proof (ms_in_range ms Hok j Hj). unfold start'. destruct (_ <? _); lia. }
    pose proof (first_up_spec (msg_matches ms p) start' (LastSeq (state ms))) as H. destruct (first_up _ _ _) as [k|]; cbn [result_at].
    + destruct H as (Hk&(sm&Hsm&Hp)%msg_matches_true&Hleast). rewrite Hsm. split_and!; [done|done|unfold start' in Hk; destruct (Z.ltb_spec start (FirstSeq (state ms))); lia|].
      intros j sm' Hj Hpj Hsj. destruct (decide (k <= j)); [done|]. specialize (Hcl j ltac:(by eexists) Hsj).
      assert (msg_matches ms p j = false) as Hf by (apply Hleast; lia). assert (msg_matches ms p j = true) as Ht by (apply msg_matches_true; by exists sm'). congruence.
    + split; [done|]. intros j sm' Hj Hpj. destruct (decide (j < start)); [done|]. specialize (Hcl j ltac:(by eexists) ltac:(lia)). pose proof (ms_in_range ms Hok j ltac:(by eexists)).
      assert (msg_matches ms p j = false) as Hf by (apply H; lia). assert (msg_matches ms p j = true) as Ht by (apply msg_matches_true; by exists sm'). congruence.
Qed.

(** [k] is the last sequence up to [start] with a message whose subject has [p]. *)
Definition prev_match ms (p : string -> bool) (start : Z) (r : found) : Prop :=
  match r with
  | inl (sm, k) => msgs ms !! k = Some sm /\ p (m_subj sm) = true /\ k <= start /\
      forall j sm', msgs ms !! j = Some sm' -> p (m_subj sm') = true -> j <= start -> j <= k
  | inr skip => skip = FirstSeq (state ms) /\ forall j sm', msgs ms !! j = Some sm' -> p (m_subj sm') = true -> start < j
  end.

Lemma scan_prev ms p start : ms_ok ms ->
  let start' := if LastSeq (state ms) <? start then LastSeq (state ms) else start in
  prev_match ms p start (result_at ms (first_down (msg_matches ms p) start' (FirstSeq (state ms))) (FirstSeq (state ms))).
Proof.
  intros Hok start'. assert (forall j, is_Some (msgs ms !! j) -> j <= start -> FirstSeq (state ms) <= j <= start') as Hcl.
  { intros j Hj Hsj. pose proof (ms_in_range ms Hok j Hj). unfold start'. destruct (_ <? _); lia. }
  assert (start' <= start) as Hle by (unfold start'; destruct (Z.ltb_spec (LastSeq (state ms)) start); lia). clearbody start'.
  pose proof (first_down_spec (msg_matches ms p) start' (FirstSeq (state ms))) as H. destruct (first_down _ _ _) as [k|]; cbn [result_at].
  - destruct H as (Hk&(sm&Hsm&Hp)%msg_matches_true&Hleast). rewrite Hsm. split_and!; [done|done|lia|].
    intros j sm' Hj Hpj Hsj. destruct (decide (j <= k)); [done|]. specialize (Hcl j ltac:(by eexists) Hsj).
    assert (msg_matches ms p j = false) as Hf by (apply Hleast; lia). assert (msg_matches ms p j = true) as Ht by (apply msg_matches_true; by exists sm'). congruence.
  - split; [done|]. intros j sm' Hj Hpj. destruct (decide (start < j)); [done|]. specialize (Hcl j ltac:(by eexists) ltac:(lia)).
    assert (msg_matches ms p j = false) as Hf by (by apply H). assert (msg_matches ms p j = true) as Ht by (apply msg_matches_true; by exists sm'). congruence.
Qed.

Lemma prev_none ms p start : ms_ok ms -> sMsgs (state ms) = 0 \/ start < FirstSeq (state ms) -> prev_match ms p start (inr (FirstSeq (state ms))).
Proof.
  intros Hok Hn. split; [done|]. intros j sm Hj _. pose proof (ms_in_range ms Hok j ltac:(by eexists)). destruct Hn as [Hz|?]; [|lia].
  rewrite (ok_msgs _ _ _ _ Hok) in Hz. assert (size (msgs ms) = 0%nat) as Hs by lia. apply map_size_empty_inv in Hs. by rewrite Hs, lookup_empty in Hj.
Qed.

Lemma loadPrev_ok ms filter wc start : ms_ok ms -> closed ms = false -> exists r, LoadPrevMsg ms filter wc start = inr r /\ prev_match ms (wants filter wc) start r.
Proof.
  intros Hok Hc. unfold LoadPrevMsg. rewrite Hc. destruct (_ || _) eqn:E.
  - eexists. split; [done|]. apply prev_none; [done|]. apply orb_true_iff in E as [?%Z.eqb_eq|?%Z.ltb_lt]; [by left|by right].
  - unfold wants. destruct (String.eqb filter ""); eexists; (split; [done|]); by apply scan_prev.
Qed.

Lemma loadPrevMulti_ok ms p start : ms_ok ms -> prev_match ms p start (LoadPrevMsgMulti ms p start).
Proof.
  intros Hok. unfold LoadPrevMsgMulti. destruct (_ || _) eqn:E; [|by apply scan_prev]. apply prev_none; [done|]. pose proof (ok_range _ _ _ _ Hok).
  apply orb_true_iff in E as [Hlt%Z.ltb_lt|?%Z.eqb_eq]; [|by left]. destruct (Z.ltb_spec (LastSeq (state ms)) start); [|by right]. left. rewrite (ok_msgs _ _ _ _ Hok).
  destruct (size (msgs ms)) eqn:En; [done|]. destruct (map_choose (msgs ms)) as (k&sm&Hk); [intros Hm; by rewrite Hm, map_size_empty in En|].
  pose proof (ms_in_range ms Hok k ltac:(by eexists)). lia.
Qed.

(** ** Sequence for a time *)

(** [r] is the first sequence with a message of time [t] or later, or the sequence after the last. *)
Definition time_result ms (t r : Z) : Prop :=
  (exists sm, msgs ms !! r = Some sm /\ t <= m_ts sm /\ forall j sm', msgs ms !! j = Some sm' -> j < r -> m_ts sm' < t) \/
  (r = LastSeq (state ms) + 1 /\ forall j sm', msgs ms !! j = Some sm' -> m_ts sm' < t).

Definition times_ordered ms : Prop :=
  forall j k sj sk, msgs ms !! j = Some sj -> msgs ms !! k = Some sk -> j <= k -> m_ts sj <= m_ts sk.

(** [seq] is the first message after [lseq], or the sequence after the last. *)
Definition candidate ms (lseq seq : Z) : Prop :=
  (is_Some (msgs ms !! seq) /\ lseq < seq /\ forall j, is_Some (msgs ms !! j) -> lseq < j -> seq <= j) \/
  (seq = LastSeq (state ms) + 1 /\ forall j, is_Some (msgs ms !! j) -> j <= lseq).

Lemma candidate_lower ms lseq mid seq : candidate ms lseq seq -> mid <= lseq -> (forall j, mid <= j <= lseq -> msgs ms !! j = None) -> candidate ms (mid - 1) seq.
Proof.
  intros Hc Hm Hno. assert (forall j, is_Some (msgs ms !! j) -> mid - 1 < j -> lseq < j) as H.
  { intros j [x Hj] Hlt. destruct (decide (lseq < j)); [done|]. rewrite Hno in Hj by lia. done. }
  destruct Hc as [(H1&H2&H3)|[H1 H2]]; [left|right].
  - split_and!; [done|lia|]. intros j Hj Hlt. apply H3; [done|]. by apply H.
  - split; [done|]. intros j Hj. destruct (decide (j <= mid - 1)); [done|]. pose proof (H2 j Hj). pose proof (H j Hj ltac:(lia)). lia.
Qed.

Lemma time_search_ok ms t fuel : forall fseq lseq seq, times_ordered ms -> map_Forall (msg_ok (state ms)) (msgs ms) -> (Z.to_nat (lseq + 1 - fseq) < fuel)%nat ->
  candidate ms lseq seq -> (forall j sm, msgs ms !! j = Some sm -> j < fseq -> m_ts sm < t) -> (forall j sm, msgs ms !! j = Some sm -> lseq < j -> t <= m_ts sm) ->
  exists r, time_search ms fuel t fseq lseq seq = Some r /\ time_result ms t r.
Proof.
  induction fuel as [|fuel IH]; intros fseq lseq seq Hto Hkeys Hfuel Hc Hlo Hhi; [lia|]. cbn [time_search].
  destruct (Z.leb_spec fseq lseq) as [Hle|Hgt].
  2: { exists seq. split; [done|]. destruct Hc as [([sm Hsm]&H2&H3)|[H1 H2]]; [left|right].
    - exists sm. split_and!; [done|by eapply Hhi|]. intros j sm' Hj Hlt. apply (Hlo j sm' Hj). destruct (decide (lseq < j)) as [Hj2|]; [|lia].
      pose proof (H3 j ltac:(by eexists) Hj2). lia.
    - split; [done|]. intros j sm' Hj. apply (Hlo j sm' Hj). pose proof (H2 j ltac:(by eexists)). lia. }
  set (mid := fseq + (lseq - fseq) / 2). assert (fseq <= mid <= lseq) as Hmid.
  { unfold mid. pose proof (Z.div_pos (lseq - fseq) 2). pose proof (Z.div_le_upper_bound (lseq - fseq) 2 (lseq - fseq)). lia. }
  clearbody mid. pose proof (first_up_spec (has_msg ms) mid lseq) as Hs. destruct (first_up _ _ _) as [k|]; cbn [mbind option_bind].
  - destruct Hs as (Hk&[sm Hsm]%has_msg_true&Hgap). rewrite Hsm. cbn [mbind option_bind]. pose proof (Hkeys k sm Hsm) as (Hseq&_). rewrite Hseq.
    assert (forall j, mid <= j < k -> msgs ms !! j = None) as Hnone by (intros j Hj; by apply has_msg_false, Hgap).
    assert (candidate ms (mid - 1) k) as Hck.
    { left. split_and!; [by eexists|lia|]. intros j [x Hj] Hlt. destruct (decide (k <= j)); [done|]. rewrite Hnone in Hj by lia. done. }
    destruct (Z.leb_spec t (m_ts sm)) as [Hts|Hts].
    + assert (forall j smj, msgs ms !! j = Some smj -> mid - 1 < j -> t <= m_ts smj) as Hhi'.
      { intros j smj Hj Hlt. destruct (decide (k <= j)); [|rewrite Hnone in Hj by lia; done]. pose proof (Hto k j sm smj Hsm Hj). lia. }
      destruct (Z.eqb_spec mid fseq) as [->|Hne].
      * exists k. split; [done|]. left. exists sm. split_and!; [done|done|]. intros j smj Hj Hlt. apply (Hlo j smj Hj).
        destruct (decide (j < fseq)); [done|]. rewrite Hnone in Hj by lia. done.
      * apply IH; try done. lia.
    + apply IH; try done; [lia|]. intros j smj Hj Hlt. pose proof (Hto j k smj sm Hj Hsm). lia.
  - apply IH; try done; [lia| |].
    + eapply candidate_lower; [done|lia|]. intros j Hj. by apply has_msg_false, Hs.
    + intros j smj Hj Hlt. apply (Hhi j smj Hj). destruct (decide (lseq < j)); [done|]. assert (has_msg ms j = false) as Hf by (apply Hs; lia).
      apply has_msg_false in Hf. congruence.
Qed.

(** [l] is the last message, its time is [t], and there are earlier times. *)
Definition ends_at ms (t l : Z) : Prop :=
  (exists sm, msgs ms !! l = Some sm /\ m_ts sm = t) /\ (forall j, is_Some (msgs ms !! j) -> j <= l) /\ exists j sm, msgs ms !! j = Some sm /\ m_ts sm < t.

Lemma seq_from_time_ok ms t : ms_ok ms -> times_ordered ms ->
  exists r, GetSeqFromTime ms t = Some r /\ (ends_at ms t r \/ ((forall l, ~ ends_at ms t l) /\ time_result ms t r)).
Proof.
  intros Hok Hto. pose proof ss_bound as Hsb. pose proof Hok as [_ _ Hn _ Hkeys Hfirst Hrange _]. unfold GetSeqFromTime.
  rewrite u64_small by (unfold is_u64; lia). destruct (Nat.eqb_spec (size (msgs ms)) 0) as [E|E].
  { apply map_size_empty_inv in E. eexists. split; [done|]. right. split; [intros l ((x&Hx&_)&_); by rewrite E, lookup_empty in Hx|].
    right. split; [done|]. intros j sm Hj. by rewrite E, lookup_empty in Hj. }
  destruct (Hfirst ltac:(intros Hem; by rewrite Hem in E)) as [fm Hfm]. rewrite Hfm. cbn [mbind option_bind].
  assert (forall j sm, msgs ms !! j = Some sm -> FirstSeq (state ms) <= j <= LastSeq (state ms)) as Hr by (intros j sm Hj; by apply Hkeys in Hj as (_&?&_)).
  destruct (Z.leb_spec t (m_ts fm)) as [Hft|Hft].
  { eexists. split; [done|]. right. split.
    - intros l (_&_&j&sm&Hj&Hlt). pose proof (Hto _ _ _ _ Hfm Hj ltac:(by apply (Hr j sm))). lia.
    - left. exists fm. split_and!; [done|done|]. intros j sm Hj Hlt. pose proof (Hr j sm Hj). lia. }
  pose proof (first_down_spec (has_msg ms) (LastSeq (state ms)) (FirstSeq (state ms) + 1)) as Hd. destruct (first_down _ _ _) as [k|]; cbn [mbind option_bind].
  2: { eexists. split; [done|]. right. assert (forall j sm, msgs ms !! j = Some sm -> m_ts sm < t) as Hall.
    { intros j sm Hj. pose proof (Hr j sm Hj). destruct (decide (j = FirstSeq (state ms))) as [->|Hne]; [congruence|].
      assert (has_msg ms j = false) as Hf by (apply Hd; lia). apply has_msg_false in Hf. congruence. }
    split; [intros l ((x&Hx&?)&_); pose proof (Hall l x Hx); lia|]. by right. }
  destruct Hd as (Hk&[lm Hlm]%has_msg_true&Hlast). rewrite Hlm.
  assert (forall j sm, msgs ms !! j = Some sm -> j <= k) as Hmax.
  { intros j sm Hj. destruct (decide (j <= k)); [done|]. pose proof (Hr j sm Hj). assert (has_msg ms j = false) as Hf by (apply Hlast; lia). apply has_msg_false in Hf. congruence. }
  pose proof (Hkeys k lm Hlm) as (Hseq&_). destruct (Z.eqb_spec t (m_ts lm)) as [Et|Et].
  { eexists. split; [done|]. rewrite Hseq. left. split_and!; [by exists lm|by intros j [x Hx]; apply (Hmax j x)|by eexists _, fm]. }
  assert (forall l, ~ ends_at ms t l) as Hne.
  { intros l ((x&Hx&Hxt)&Hle&_). pose proof (Hmax l x Hx). pose proof (Hle k ltac:(by eexists)). assert (l = k) as -> by lia. congruence. }
  destruct (Z.ltb_spec (m_ts lm) t) as [Hlt|Hge].
  { eexists. split; [done|]. right. split; [done|]. right. split; [done|]. intros j sm Hj. pose proof (Hto j k sm lm Hj Hlm (Hmax j sm Hj)). lia. }
  edestruct time_search_ok as (r&E1&Hres); [done|done| | | | |exists r; split; [exact E1|by right]]; [lia| | |].
  - right. split; [done|]. intros j [sm Hj]. by apply (Hr j sm).
  - intros j sm Hj Hlt. pose proof (Hr j sm Hj). lia.
  - intros j sm Hj Hlt. pose proof (Hr j sm Hj). lia.
Qed.
End query.
