(* ===== verification/MemStoreFilter.v ===== *)
(** * Memory store: totals of a filter

    [filteredStateLocked] counts the messages of a filter from a sequence on: the walk over the
    per-subject states, and the scans that correct it for subjects with older messages. *)

From S2P Require Import Prelude Subject Scheduler MemStore MemStoreQuery MemStoreProofs MemStoreOps MemStoreQueryProofs.
Import Sched Mem MemQuery.

(** ** Counting *)

Lemma size_filter_split (P Q : Z * StoreMsg -> Prop) `{!forall x, Decision (P x)} `{!forall x, Decision (Q x)} (m : gmap Z StoreMsg) :
  size (filter P m) = (size (filter (fun x => P x /\ Q x) m) + size (filter (fun x => P x /\ ~ Q x) m))%nat.
Proof.
  induction m as [|k sm m Hk IH] using map_ind; [by rewrite !map_filter_empty|].
  assert (forall (R : Z * StoreMsg -> Prop) `{!forall x, Decision (R x)}, filter R m !! k = None) as Hn by (intros; apply map_lookup_filter_None; by left).
  destruct (decide (P (k, sm))) as [HP|HP], (decide (Q (k, sm))) as [HQ|HQ];
    rewrite ?(map_filter_insert_True P), ?(map_filter_insert_False P) by done;
    repeat first [rewrite (map_filter_insert_True (fun x => P x /\ Q x)) by done|rewrite (map_filter_insert_False (fun x => P x /\ Q x)) by tauto];
    repeat first [rewrite (map_filter_insert_True (fun x => P x /\ ~ Q x)) by done|rewrite (map_filter_insert_False (fun x => P x /\ ~ Q x)) by tauto];
    rewrite ?(delete_id m k Hk), ?map_size_insert_None by apply Hn; lia.
Qed.

Lemma size_filter_ext (P Q : Z * StoreMsg -> Prop) `{!forall x, Decision (P x)} `{!forall x, Decision (Q x)} (m : gmap Z StoreMsg) :
  (forall k sm, m !! k = Some sm -> P (k, sm) <-> Q (k, sm)) -> size (filter P m) = size (filter Q m).
Proof. intros Hx. f_equal. by apply map_filter_ext. Qed.

(** The messages whose subject has [p], from [lo] on. *)
Definition pending_msgs (p : string -> bool) (lo : Z) (m : gmap Z StoreMsg) : gmap Z StoreMsg :=
  filter (fun kv => p (m_subj kv.2) = true /\ lo <= kv.1) m.
Definition num_pending (p : string -> bool) (lo : Z) (m : gmap Z StoreMsg) : Z := Z.of_nat (size (pending_msgs p lo m)).

(** Messages of a list of subjects. *)
Definition of_subjs (l : list string) (m : gmap Z StoreMsg) : gmap Z StoreMsg := filter (fun kv => m_subj kv.2 ∈ l) m.

Lemma of_subjs_nil m : of_subjs [] m = ∅.
Proof. apply map_empty. intros k. apply map_lookup_filter_None. right. intros sm _. apply not_elem_of_nil. Qed.
Lemma of_subjs_snoc l s m : s ∉ l -> size (of_subjs (l ++ [s]) m) = (size (of_subjs l m) + size (of_subj s m))%nat.
Proof.
  intros Hs. unfold of_subjs, of_subj. rewrite (size_filter_split _ (fun kv => m_subj kv.2 ∈ l)). f_equal; apply size_filter_ext; intros k sm _; cbn; set_solver.
Qed.

Section filter.
Context {F D W : Type} `{HF : SubjectMap F SimpleState} `{HFL : !SubjectMapLaws F SimpleState} `{HD : SeqSetI D} `{HDL : !SeqSetLaws D}
  `{HW : TimerWheel W} `{HH : Headers}.
Notation MS := (memStore F D W).
Implicit Types (ms : MS).

(** ** The walk *)

Lemma exact_flags ms s f : firstNeedsUpdate f || lastNeedsUpdate f = false -> exact ms s f = f.
Proof. intros [E1 E2]%orb_false_iff. unfold exact, recalculateForSubj, recalculate_last. by rewrite E1, E2. Qed.

(** The callback in terms of the exact state of the subject. *)
Definition walk_step ms (sseq : Z) (lastPer : bool) (c : walk) (sf : string * SimpleState) : walk :=
  let e := exact ms sf.1 sf.2 in
  let w := w_writes c ++ (if firstNeedsUpdate sf.2 || lastNeedsUpdate sf.2 then [(sf.1, e)] else []) in
  if sseq <=? Last e then mkWalk (ss_add lastPer (w_ss c) e) (w_partial c || (First e <? sseq)) (w_skipped c) w
  else mkWalk (w_ss c) (w_partial c) (u64 (w_skipped c + Msgs e)) w.

Lemma walk_until ms sseq lastPer l : (forall s f, (s, f) ∈ l -> First (exact ms s f) <= Last (exact ms s f)) ->
  forall c, until (filtered_cb ms sseq lastPer) l c = (fold_left (walk_step ms sseq lastPer) l c, true).
Proof.
  induction l as [|[s f] l IH]; intros Hl c; [done|]. cbn [until fold_left]. pose proof (Hl s f ltac:(left)) as Hfl.
  assert (filtered_cb ms sseq lastPer c s f = (walk_step ms sseq lastPer c (s, f), true)) as ->.
  { unfold filtered_cb, walk_step. cbn [fst snd]. destruct (firstNeedsUpdate f || lastNeedsUpdate f) eqn:E; [|rewrite (exact_flags ms s f E) in *; rewrite app_nil_r].
    all: try fold (exact ms s f).
    1: set (e := exact ms s f) in *. 2: set (e := f) in *.
    all: destruct (Z.leb_spec sseq (First e)), (Z.leb_spec sseq (Last e)), (Z.ltb_spec (First e) sseq); try lia; rewrite ?orb_false_r, ?orb_true_r; done. }
  apply IH. intros s' f' Hin. apply Hl. by right.
Qed.

(** The subjects of [l] with messages from [sseq] on. *)
Definition included ms (sseq : Z) (l : list (string * SimpleState)) : list (string * SimpleState) :=
  List.filter (fun sf => sseq <=? Last (exact ms sf.1 sf.2)) l.
Definition excluded ms (sseq : Z) (l : list (string * SimpleState)) : list (string * SimpleState) :=
  List.filter (fun sf => negb (sseq <=? Last (exact ms sf.1 sf.2))) l.

(** What the walk has computed after [l]. *)
Record walked ms (sseq : Z) (lastPer : bool) (l : list (string * SimpleState)) (w : walk) : Prop := {
  wk_msgs : Msgs (w_ss w) = if lastPer then Z.of_nat (length (included ms sseq l)) else Z.of_nat (size (of_subjs (included ms sseq l).*1 (msgs ms)));
  wk_skipped : w_skipped w = Z.of_nat (size (of_subjs (excluded ms sseq l).*1 (msgs ms)));
  wk_partial : w_partial w = true <-> exists s f, (s, f) ∈ l /\ First (exact ms s f) < sseq <= Last (exact ms s f);
  wk_none : included ms sseq l = [] -> w_ss w = zero_ss;
  wk_first : included ms sseq l <> [] -> lastPer = false -> (exists s f, (s, f) ∈ included ms sseq l /\ First (w_ss w) = First (exact ms s f)) /\
    forall s f, (s, f) ∈ included ms sseq l -> First (w_ss w) <= First (exact ms s f);
  wk_last : included ms sseq l <> [] -> (exists s f, (s, f) ∈ included ms sseq l /\ Last (w_ss w) = Last (exact ms s f)) /\
    forall s f, (s, f) ∈ included ms sseq l -> Last (exact ms s f) <= Last (w_ss w);
  wk_writes : forall s e, (s, e) ∈ w_writes w -> exists f, (s, f) ∈ l /\ e = exact ms s f;
  wk_flags : firstNeedsUpdate (w_ss w) = false /\ lastNeedsUpdate (w_ss w) = false;
}.

(** Entries of the tree for [ms]. *)
Definition entry_ok ms (sf : string * SimpleState) : Prop :=
  let e := exact ms sf.1 sf.2 in
  Msgs e = subj_count (msgs ms) sf.1 /\ trackable sf.1 = true /\ ss_ok (msgs ms) sf.1 e /\ 0 < First e /\ First e <= Last e /\
  at_subj (msgs ms) sf.1 (First e) /\ at_subj (msgs ms) sf.1 (Last e) /\ forall k, at_subj (msgs ms) sf.1 k -> First e <= k <= Last e.

Lemma included_snoc ms sseq l x : included ms sseq (l ++ [x]) = included ms sseq l ++ (if sseq <=? Last (exact ms x.1 x.2) then [x] else []).
Proof. unfold included. rewrite List.filter_app. cbn. by destruct (sseq <=? _). Qed.
Lemma excluded_snoc ms sseq l x : excluded ms sseq (l ++ [x]) = excluded ms sseq l ++ (if sseq <=? Last (exact ms x.1 x.2) then [] else [x]).
Proof. unfold excluded. rewrite List.filter_app. cbn. by destruct (sseq <=? _). Qed.
Lemma elem_of_included ms sseq l sf : sf ∈ included ms sseq l <-> sf ∈ l /\ sseq <= Last (exact ms sf.1 sf.2).
Proof. unfold included. rewrite !list_elem_of_In, filter_In, Z.leb_le. done. Qed.
Lemma elem_of_excluded ms sseq l sf : sf ∈ excluded ms sseq l <-> sf ∈ l /\ Last (exact ms sf.1 sf.2) < sseq.
Proof. unfold excluded. rewrite !list_elem_of_In, filter_In, negb_true_iff, Z.leb_gt. done. Qed.

Lemma of_subjs_size ms l : ms_ok ms -> Z.of_nat (size (of_subjs l (msgs ms))) < 2 ^ 64.
Proof.
  intros Hok. pose proof (ms_size ms Hok). pose proof ss_bound. destruct Hok as [_ _ _ _ _ _ Hr _].
  assert (size (of_subjs l (msgs ms)) <= size (msgs ms))%nat by (apply map_subseteq_size, map_filter_subseteq). lia.
Qed.

Lemma length_of_subjs ms l : NoDup l.*1 -> Forall (entry_ok ms) l -> (length l <= size (of_subjs l.*1 (msgs ms)))%nat.
Proof.
  induction l as [|x l IH] using rev_ind; [cbn; lia|]. rewrite fmap_app, NoDup_app, Forall_app, Forall_singleton, length_app. intros (Hnd&Hx&_) [Hl He].
  cbn [fmap list_fmap length] in *. rewrite of_subjs_snoc by (intros Hin; by apply (Hx x.1 Hin), list_elem_of_singleton).
  pose proof (IH Hnd Hl). destruct He as (_&_&Hs&_). destruct Hs as [Hc Hp]. lia.
Qed.

Lemma included_NoDup ms sseq l : NoDup l.*1 -> NoDup (included ms sseq l).*1.
Proof.
  induction l as [|x l IH]; [done|]. cbn [included List.filter fmap list_fmap]. intros [Hx Hl]%NoDup_cons. destruct (sseq <=? _); [|by apply IH].
  cbn. apply NoDup_cons. split; [|by apply IH]. intros (y&Ey&[Hy _]%elem_of_included)%list_elem_of_fmap. apply Hx, list_elem_of_fmap. by exists y; rewrite Ey.
Qed.

Lemma ss_add_included ms sseq (lastPer : bool) l ss x : ms_ok ms -> NoDup (l ++ [x]).*1 -> Forall (entry_ok ms) (l ++ [x]) -> sseq <= Last (exact ms x.1 x.2) ->
  Msgs ss = (if lastPer then Z.of_nat (length (included ms sseq l)) else Z.of_nat (size (of_subjs (included ms sseq l).*1 (msgs ms)))) ->
  Msgs (ss_add lastPer ss (exact ms x.1 x.2)) =
    if lastPer then Z.of_nat (length (included ms sseq (l ++ [x]))) else Z.of_nat (size (of_subjs (included ms sseq (l ++ [x])).*1 (msgs ms))).
Proof.
  intros Hok Hnd Hall Hle Hss. pose proof (included_NoDup ms sseq _ Hnd) as Hni. pose proof (of_subjs_size ms (included ms sseq (l ++ [x])).*1 Hok) as Hsz.
  assert (Forall (entry_ok ms) (included ms sseq (l ++ [x]))) as Hai.
  { apply Forall_forall. intros y [Hy _]%elem_of_included. rewrite Forall_forall in Hall. by apply Hall. }
  pose proof (length_of_subjs ms _ Hni Hai) as Hlen. apply Forall_app in Hall as [_ Hc]. rewrite Forall_singleton in Hc. apply proj1 in Hc.
  rewrite included_snoc in *. destruct (Z.leb_spec sseq (Last (exact ms x.1 x.2))); [|lia]. rewrite fmap_app, length_app in *. cbn [fmap list_fmap length] in *.
  apply NoDup_app in Hni as (_&Hx&_). unfold ss_add. destruct lastPer; cbn [Msgs]; rewrite Hss; [rewrite u64_small; unfold is_u64; lia|].
  rewrite of_subjs_snoc in * by (intros Hin; by apply (Hx x.1 Hin), list_elem_of_singleton). rewrite Hc. unfold subj_count. rewrite u64_small; unfold is_u64; lia.
Qed.

Lemma walked_step ms sseq (lastPer : bool) l w x : ms_ok ms -> NoDup (l ++ [x]).*1 -> Forall (entry_ok ms) (l ++ [x]) ->
  walked ms sseq lastPer l w -> walked ms sseq lastPer (l ++ [x]) (walk_step ms sseq lastPer w x).
Proof.
  intros Hok Hnd Hall [Hm Hs Hp Hno Hf Hl Hw Hfl]. pose proof (proj1 (Forall_singleton _ _) (proj2 (proj1 (Forall_app _ _ _) Hall))) as Hx. destruct x as [s f]. cbn [fst snd] in *.
  destruct Hx as (Hc&_&_&Hpos&Hfle&_). cbn [fst snd] in *. set (e := exact ms s f) in *.
  assert (forall ws, ws = w_writes w ++ (if firstNeedsUpdate f || lastNeedsUpdate f then [(s, e)] else []) ->
    forall s' e', (s', e') ∈ ws -> exists f', (s', f') ∈ l ++ [(s, f)] /\ e' = exact ms s' f') as Hwr.
  { intros ws -> s' e' [Hin|Hin]%elem_of_app.
    - destruct (Hw _ _ Hin) as (f'&?&?). exists f'. split; [|done]. apply elem_of_app. by left.
    - destruct (_ || _); [|by apply elem_of_nil in Hin]. apply list_elem_of_singleton in Hin as [= -> ->]. exists f. split; [|done]. apply elem_of_app. right. by apply list_elem_of_singleton. }
  assert (forall b, b = w_partial w || (sseq <=? Last e) && (First e <? sseq) ->
    b = true <-> exists s' f', (s', f') ∈ l ++ [(s, f)] /\ First (exact ms s' f') < sseq <= Last (exact ms s' f')) as Hpart.
  { intros b ->. rewrite orb_true_iff, Hp, andb_true_iff, Z.leb_le, Z.ltb_lt. setoid_rewrite elem_of_app. setoid_rewrite list_elem_of_singleton. unfold e. naive_solver. }
  unfold walk_step. cbn [fst snd]. fold e. destruct (Z.leb_spec sseq (Last e)) as [Hle|Hgt]; cbn [andb] in Hpart.
  - assert (included ms sseq (l ++ [(s, f)]) = included ms sseq l ++ [(s, f)]) as Hi by (rewrite included_snoc; cbn [fst snd]; fold e; by rewrite (proj2 (Z.leb_le _ _) Hle)).
    split; cbn [w_ss w_partial w_skipped w_writes]; try done.
    + by apply (ss_add_included ms sseq lastPer l (w_ss w) (s, f)).
    + rewrite excluded_snoc. cbn [fst snd]. fold e. rewrite (proj2 (Z.leb_le _ _) Hle). by rewrite app_nil_r.
    + by apply Hpart.
    + rewrite Hi. intros [_ ?]%app_eq_nil. done.
    + rewrite Hi. intros _ ->. destruct (decide (included ms sseq l = [])) as [E|E].
      * rewrite (Hno E), E. cbn. split; [exists s, f; split; [by left|done]|]. by intros s' f' [= -> ->]%list_elem_of_singleton.
      * destruct (Hf E ltac:(done)) as [(s0&f0&H0&E0) Hmin]. unfold ss_add. cbn [First]. setoid_rewrite elem_of_app. setoid_rewrite list_elem_of_singleton.
        assert (0 < First (w_ss w)). { rewrite E0. apply elem_of_included in H0 as [H0 _]. rewrite Forall_app, !Forall_forall in Hall. by destruct (proj1 Hall (s0, f0) H0) as (_&_&_&?&_). }
        destruct (Z.eqb_spec (First (w_ss w)) 0); [lia|]. cbn [orb]. destruct (Z.ltb_spec (First e) (First (w_ss w))); (split; [naive_solver|]).
        all: intros s' f' [Hin|[= -> ->]]; try (pose proof (Hmin _ _ Hin)); fold e; lia.
    + rewrite Hi. intros _. destruct (decide (included ms sseq l = [])) as [E|E].
      * rewrite (Hno E), E. unfold ss_add. destruct lastPer; cbn [Last zero_ss]; (destruct (Z.ltb_spec 0 (Last e)); [|lia]);
          (split; [exists s, f; split; [by left|done]|]; by intros s' f' [= -> ->]%list_elem_of_singleton).
      * destruct (Hl E) as [(s0&f0&H0&E0) Hmax]. setoid_rewrite elem_of_app. setoid_rewrite list_elem_of_singleton.
        unfold ss_add. destruct lastPer; cbn [Last]; (destruct (Z.ltb_spec (Last (w_ss w)) (Last e)); (split; [naive_solver|]);
          intros s' f' [Hin|[= -> ->]]; try (pose proof (Hmax _ _ Hin)); fold e; lia).
    + by apply (Hwr _ eq_refl).
    + unfold ss_add. by destruct lastPer.
  - assert (included ms sseq (l ++ [(s, f)]) = included ms sseq l) as Hi by (rewrite included_snoc; cbn [fst snd]; fold e; by rewrite (proj2 (Z.leb_gt _ _) Hgt), app_nil_r).
    rewrite orb_false_r in Hpart. split; cbn [w_ss w_partial w_skipped w_writes]; rewrite ?Hi; try done.
    + rewrite excluded_snoc. cbn [fst snd]. fold e. rewrite (proj2 (Z.leb_gt _ _) Hgt), fmap_app. cbn [fmap list_fmap].
      pose proof (of_subjs_size ms (excluded ms sseq (l ++ [(s, f)])).*1 Hok) as Hsz. rewrite excluded_snoc in Hsz. cbn [fst snd] in Hsz. fold e in Hsz.
      rewrite (proj2 (Z.leb_gt _ _) Hgt), fmap_app in Hsz. cbn [fmap list_fmap] in Hsz. rewrite fmap_app, NoDup_app in Hnd. destruct Hnd as (_&Hx&_).
      rewrite of_subjs_snoc in *. 2,3: intros (y&Ey&[Hin _]%elem_of_excluded)%list_elem_of_fmap; apply (Hx s); [apply list_elem_of_fmap; exists y; split; [exact Ey|exact Hin]|by left].
      cbn [fst] in *. rewrite Hs, Hc. unfold subj_count. rewrite u64_small; unfold is_u64; cbn [fst]; lia.
    + by apply Hpart.
    + by apply (Hwr _ eq_refl).
Qed.

Lemma walk_ok ms sseq (lastPer : bool) l : ms_ok ms -> NoDup l.*1 -> Forall (entry_ok ms) l ->
  walked ms sseq lastPer l (fold_left (walk_step ms sseq lastPer) l (mkWalk zero_ss false 0 [])).
Proof.
  intros Hok. induction l as [|x l IH] using rev_ind; intros Hnd Hall.
  - split; cbn; try done.
    + destruct lastPer; [done|]. by rewrite of_subjs_nil, map_size_empty.
    + by rewrite of_subjs_nil, map_size_empty.
    + split; [done|]. by intros (?&?&?%elem_of_nil&_).
    + by intros ?? ?%elem_of_nil.
  - rewrite fold_left_app. cbn [fold_left]. apply walked_step; [done..|]. apply IH.
    + rewrite fmap_app in Hnd. by apply NoDup_app in Hnd as [? _].
    + by apply Forall_app in Hall as [? _].
Qed.

(** ** The scans *)

(** [l] enumerates the messages with [R]. *)
Definition lists ms (R : StoreMsg -> bool) (l : list StoreMsg) : Prop :=
  NoDup l /\ forall sm, sm ∈ l <-> msgs ms !! m_seq sm = Some sm /\ R sm = true.

Lemma lists_size ms R l : ms_ok ms -> lists ms R l -> length l = size (filter (fun kv => R kv.2 = true) (msgs ms)).
Proof.
  intros Hok [Hnd Hl]. rewrite <- length_map_to_list, <- (length_fmap snd). apply Permutation_length, NoDup_Permutation; [done| |].
  - apply NoDup_fmap_2_strong; [|apply NoDup_map_to_list]. intros [k1 s1] [k2 s2] H1 H2 E. cbn in E. subst s2.
    apply elem_of_map_to_list, map_lookup_filter_Some in H1 as [H1 _], H2 as [H2 _].
    apply (ok_keys _ _ _ _ Hok) in H1 as (<-&_), H2 as (<-&_). done.
  - intros sm. rewrite Hl, list_elem_of_fmap. split.
    + intros [Hsm HR]. exists (m_seq sm, sm). split; [done|]. by apply elem_of_map_to_list, map_lookup_filter_Some.
    + intros ([k x]&->&[Hk HR]%elem_of_map_to_list%map_lookup_filter_Some). cbn in *. apply (ok_keys _ _ _ _ Hok) in Hk as Hs. destruct Hs as (->&_). done.
Qed.

Lemma lists_filter ms R Q l : lists ms R l -> lists ms (fun sm => R sm && Q sm) (List.filter Q l).
Proof.
  intros [Hnd Hl]. split; [by apply NoDup_ListNoDup, List.NoDup_filter, NoDup_ListNoDup|].
  intros sm. rewrite list_elem_of_In, filter_In, <- list_elem_of_In, Hl, andb_true_iff. tauto.
Qed.

Lemma lists_between ms a b : ms_ok ms -> lists ms (fun sm => (a <=? m_seq sm) && (m_seq sm <=? b)) (msgs_between ms a b).
Proof.
  intros Hok. unfold msgs_between. split.
  - generalize (b + 1 - a). intros n. assert (NoDup (seqZ a n)) as Hs by apply NoDup_seqZ. induction Hs as [|k l Hk _ IH]; [by constructor|].
    rewrite list_omap_cons. destruct (msgs ms !! k) as [sm|] eqn:E; [|done]. apply NoDup_cons. split; [|done].
    intros (j&Hj&Ej)%list_elem_of_omap. apply (ok_keys _ _ _ _ Hok) in E as (<-&_), Ej as (<-&_). done.
  - intros sm. rewrite list_elem_of_omap, andb_true_iff, !Z.leb_le. setoid_rewrite elem_of_seqZ. split.
    + intros (k&Hk&E). apply (ok_keys _ _ _ _ Hok) in E as Hs. destruct Hs as (<-&_). split; [done|lia].
    + intros [Hsm Hr]. exists (m_seq sm). split; [lia|done].
Qed.

Lemma include_count ok l : forall n f seen, 0 <= n -> n + Z.of_nat (length l) < 2 ^ 64 ->
  (fold_left (include_step ok false) l (n, f, seen)).1.1 = n + Z.of_nat (length (List.filter (fun sm => ok (m_subj sm)) l)).
Proof.
  induction l as [|sm l IH]; intros n f seen Hn Hl; [cbn; lia|]. cbn [fold_left length] in *. unfold include_step at 2, blocked. cbn [andb orb List.filter].
  destruct (ok (m_subj sm)); cbn [negb]; [|apply IH; lia]. rewrite IH by (rewrite u64_small; unfold is_u64; lia). rewrite u64_small by (unfold is_u64; lia). cbn [length]. lia.
Qed.

Lemma exclude_count ms ok first l : forall n seen, 0 <= n -> n + Z.of_nat (length l) < 2 ^ 64 ->
  (fold_left (exclude_step ok false ms first) l (n, seen)).1 = n + Z.of_nat (length (List.filter (fun sm => ok (m_subj sm)) l)).
Proof.
  induction l as [|sm l IH]; intros n seen Hn Hl; [cbn; lia|]. cbn [fold_left length] in *. unfold exclude_step at 2, blocked. cbn [andb orb List.filter].
  destruct (ok (m_subj sm)); cbn [negb]; [|apply IH; lia]. rewrite IH by (rewrite u64_small; unfold is_u64; lia). rewrite u64_small by (unfold is_u64; lia). cbn [length]. lia.
Qed.

(** No message of the list counts. *)
Lemma tail_none ok lastPer l : (forall sm, sm ∈ l -> ok (m_subj sm) = false) -> forall c, fold_left (tail_step ok lastPer) l c = c.
Proof.
  induction l as [|sm l IH]; intros Hl [n seen]; [done|]. cbn [fold_left]. unfold tail_step at 2, blocked. rewrite (Hl sm) by left. rewrite orb_true_r.
  apply IH. intros x Hx. apply Hl. by right.
Qed.

(** ** The total *)

Definition filter_of (filter : string) : string := if String.eqb filter "" then Subj.fwcs else filter.

(** The filter is one that the tree handles, and [isMatch] agrees with it on the subjects. *)
Definition filter_ok ms (filter : string) : Prop :=
  sm_filter (F := F) filter /\ forall k sm, msgs ms !! k = Some sm -> isMatch filter (m_subj sm) = Subj.matchLiteral (m_subj sm) filter.

(** The entries that the walk visits. *)
Definition matched_entries ms (filter : string) (l : list (string * SimpleState)) : Prop :=
  NoDup l.*1 /\ Forall (entry_ok ms) l /\
  forall k sm, msgs ms !! k = Some sm -> isMatch filter (m_subj sm) = true <-> exists f, (m_subj sm, f) ∈ l.

Lemma match_entries ms filter : ms_ok ms -> subjects_literal ms -> filter_ok ms filter ->
  exists l, matched_entries ms filter l /\
    forall (C : Type) (cb : C -> string -> SimpleState -> C * bool) c, sm_MatchUntil cb (fss ms) filter c = until cb l c.
Proof.
  intros Hok Hlit [Hflt Hag]. pose proof (ok_fss _ _ _ _ Hok) as (M&HM&Hf).
  destruct (sm_Match_law _ M filter HM Hflt (fss_literal ms M Hok Hf Hlit)) as (l&Hnd&Hl&Hw). exists l. split; [|done].
  assert (forall s f, (s, f) ∈ l -> M !! s = Some f) as HlM by (intros s f Hin; by apply Hl in Hin as [? _]). split_and!.
  - apply NoDup_fmap_2_strong; [|done]. intros [s1 f1] [s2 f2] H1%HlM H2%HlM. cbn. intros ->. congruence.
  - apply Forall_forall. intros [s f] Hin%HlM. destruct (exact_ok ms M s f Hok Hf Hin) as (Hss&Ht&H1&H2&H3). unfold entry_ok. cbn [fst snd].
    pose proof (so_count _ _ _ Hss). pose proof (so_range _ _ _ Hss). split_and!; try done; [lia|]. by apply H3.
  - intros k sm Hk. rewrite (Hag k sm Hk). split.
    + intros Hm. destruct (proj2 Hf k sm Hk) as [f HMf]. exists f. by apply Hl.
    + intros [f [_ ?]%Hl]. done.
Qed.

Section total.
Context (ms : MS) (flt : string) (l : list (string * SimpleState)) (sseq : Z) (Hok : ms_ok ms) (Hl : matched_entries ms flt l).
Notation p := (isMatch flt).

Lemma entry_of s f : (s, f) ∈ l -> entry_ok ms (s, f).
Proof. intros Hin. destruct Hl as (_&Hall&_). rewrite Forall_forall in Hall. by apply Hall. Qed.

Lemma subj_in (Q : string * SimpleState -> Prop) k sm lq : (forall sf, sf ∈ lq <-> sf ∈ l /\ Q sf) -> msgs ms !! k = Some sm ->
  m_subj sm ∈ lq.*1 <-> exists f, (m_subj sm, f) ∈ l /\ Q (m_subj sm, f).
Proof.
  intros Hq Hk. rewrite list_elem_of_fmap. split.
  - intros ([s f]&E&[? ?]%Hq). cbn in E. rewrite E. by exists f.
  - intros (f&?&?). exists (m_subj sm, f). split; [done|]. by apply Hq.
Qed.

(** Without a subject that is partly older, the included subjects are the pending messages. *)
Lemma included_pending : (forall s f, (s, f) ∈ l -> First (exact ms s f) < sseq <= Last (exact ms s f) -> False) ->
  Z.of_nat (size (of_subjs (included ms sseq l).*1 (msgs ms))) = num_pending p sseq (msgs ms).
Proof.
  intros Hno. unfold num_pending, pending_msgs, of_subjs. f_equal. apply size_filter_ext. intros k sm Hk. cbn [fst snd].
  rewrite (subj_in (fun sf => sseq <= Last (exact ms sf.1 sf.2))) by (done || apply elem_of_included). cbn [fst snd]. destruct Hl as (_&_&Hm). rewrite (Hm k sm Hk).
  assert (at_subj (msgs ms) (m_subj sm) k) as Hat by (by exists sm). split.
  - intros (f&Hin&Hle). split; [by exists f|]. destruct (entry_of _ _ Hin) as (_&_&_&_&_&_&_&Hr). cbn [fst snd] in Hr. pose proof (Hr k Hat).
    destruct (decide (sseq <= k)); [done|]. destruct (Hno _ _ Hin). lia.
  - intros [[f Hin] Hle]. exists f. split; [done|]. destruct (entry_of _ _ Hin) as (_&_&_&_&_&_&_&Hr). cbn [fst snd] in Hr. pose proof (Hr k Hat). lia.
Qed.

(** The included and the excluded subjects are all. *)
Lemma included_excluded :
  size (filter (fun kv => p (m_subj kv.2) = true) (msgs ms)) =
  (size (of_subjs (included ms sseq l).*1 (msgs ms)) + size (of_subjs (excluded ms sseq l).*1 (msgs ms)))%nat.
Proof.
  rewrite (size_filter_split _ (fun kv => m_subj kv.2 ∈ (included ms sseq l).*1)). pose proof Hl as (Hnd&_&Hm).
  f_equal; apply size_filter_ext; intros k sm Hk; cbn [fst snd]; rewrite (Hm k sm Hk).
  all: rewrite (subj_in (fun sf => sseq <= Last (exact ms sf.1 sf.2)) k sm (included ms sseq l)) by (done || apply elem_of_included); cbn [fst snd].
  - naive_solver.
  - rewrite (subj_in (fun sf => Last (exact ms sf.1 sf.2) < sseq) k sm (excluded ms sseq l)) by (done || apply elem_of_excluded). cbn [fst snd]. split.
    + intros [[f Hin] Hn]. exists f. split; [done|]. destruct (decide (sseq <= Last (exact ms (m_subj sm) f))); [|lia]. destruct Hn. by exists f.
    + intros (f&Hin&Hlt). split; [by exists f|]. intros (f'&Hin'&Hle). assert (f' = f) as ->; [|lia].
      apply list_elem_of_lookup in Hin as [i Hi], Hin' as [j Hj]. assert (i = j) as ->; [|congruence].
      eapply (NoDup_lookup l.*1); [done|by rewrite list_lookup_fmap, Hi|by rewrite list_lookup_fmap, Hj].
Qed.

Lemma split_pending : size (filter (fun kv => p (m_subj kv.2) = true) (msgs ms)) =
  (size (pending_msgs p sseq (msgs ms)) + size (filter (fun kv => p (m_subj kv.2) = true /\ (kv.1 < sseq)%Z) (msgs ms)))%nat.
Proof.
  rewrite (size_filter_split _ (fun kv => sseq <= kv.1)). unfold pending_msgs. f_equal. apply size_filter_ext. intros k sm _. cbn. intuition lia.
Qed.
End total.

Context (msg_range : gmap Z StoreMsg -> list StoreMsg) (Hrange : forall m, msg_range m ≡ₚ (map_to_list m).*2).

Lemma lists_range ms : ms_ok ms -> lists ms (fun _ => true) (msg_range (msgs ms)).
Proof.
  intros Hok. split.
  - rewrite Hrange. apply NoDup_fmap_2_strong; [|apply NoDup_map_to_list]. intros [k1 s1] [k2 s2] H1%elem_of_map_to_list H2%elem_of_map_to_list E.
    cbn in E. subst s2. apply (ok_keys _ _ _ _ Hok) in H1 as (<-&_), H2 as (<-&_). done.
  - intros sm. rewrite Hrange, list_elem_of_fmap. split.
    + intros ([k x]&->&Hk%elem_of_map_to_list). cbn. apply (ok_keys _ _ _ _ Hok) in Hk as Hs. destruct Hs as (->&_). done.
    + intros [Hsm _]. exists (m_seq sm, sm). split; [done|]. by apply elem_of_map_to_list.
Qed.

Lemma lists_bound ms R l : ms_ok ms -> lists ms R l -> Z.of_nat (length l) < 2 ^ 64.
Proof.
  intros Hok Hl. rewrite (lists_size ms R l Hok Hl). pose proof (ms_size ms Hok). pose proof ss_bound. destruct Hok as [_ _ _ _ _ _ Hr _].
  assert (size (filter (fun kv : Z * StoreMsg => R kv.2 = true) (msgs ms)) <= size (msgs ms))%nat by (apply map_subseteq_size, map_filter_subseteq). lia.
Qed.

Lemma scan_include_ok ms ok first last : ms_ok ms -> (forall k sm, msgs ms !! k = Some sm -> ok (m_subj sm) = true -> k <= last) ->
  (scan_include msg_range ms ok false first last).1 = num_pending ok first (msgs ms).
Proof.
  intros Hok Hlast. unfold scan_include. set (l := if _ : bool then _ else _).
  assert (exists R, lists ms R l /\ forall k sm, msgs ms !! k = Some sm -> ok (m_subj sm) = true -> R sm = true <-> first <= k) as (R&Hl&HR).
  { unfold l. destruct (_ <? _).
    - exists (fun sm => true && ((first <=? m_seq sm) && (m_seq sm <=? last))). split; [apply lists_filter, lists_range, Hok|]. intros k sm Hk Ho.
      pose proof (Hlast k sm Hk Ho). apply (ok_keys _ _ _ _ Hok) in Hk as (->&_). rewrite !andb_true_iff, !Z.leb_le. naive_solver lia.
    - eexists. split; [by apply lists_between|]. intros k sm Hk Ho. pose proof (Hlast k sm Hk Ho). apply (ok_keys _ _ _ _ Hok) in Hk as (->&_).
      cbn beta. rewrite !andb_true_iff, !Z.leb_le. naive_solver lia. }
  clearbody l. rewrite include_count by (pose proof (lists_bound _ _ _ Hok Hl); lia). rewrite (lists_size ms _ _ Hok (lists_filter _ _ _ _ Hl)).
  unfold num_pending, pending_msgs. rewrite Z.add_0_l. f_equal. apply size_filter_ext. intros k sm Hk. cbn [fst snd]. rewrite andb_true_iff. pose proof (HR k sm Hk). naive_solver.
Qed.

Lemma scan_exclude_ok ms ok first last : ms_ok ms -> (forall k sm, msgs ms !! k = Some sm -> ok (m_subj sm) = true -> k <= last) ->
  scan_exclude msg_range ms ok false first last = Z.of_nat (size (filter (fun kv => ok (m_subj kv.2) = true /\ kv.1 < first) (msgs ms))).
Proof.
  intros Hok Hlast. unfold scan_exclude. set (l := if _ : bool then _ else _).
  assert (exists R, lists ms R l /\ forall k sm, msgs ms !! k = Some sm -> R sm = true <-> k < first) as (R&Hl&HR).
  { unfold l. destruct (_ <? _).
    - exists (fun sm => true && (m_seq sm <? first)). split; [apply lists_filter, lists_range, Hok|]. intros k sm Hk.
      apply (ok_keys _ _ _ _ Hok) in Hk as (->&_). rewrite !andb_true_iff, !Z.ltb_lt. naive_solver lia.
    - eexists. split; [by apply lists_between|]. intros k sm Hk. apply (ok_keys _ _ _ _ Hok) in Hk as (->&Hr&_).
      cbn beta. rewrite !andb_true_iff, !Z.leb_le. naive_solver lia. }
  clearbody l. rewrite tail_none.
  - rewrite exclude_count by (pose proof (lists_bound _ _ _ Hok Hl); lia). rewrite (lists_size ms _ _ Hok (lists_filter _ _ _ _ Hl)), Z.add_0_l.
    f_equal. apply size_filter_ext. intros k sm Hk. cbn [fst snd]. rewrite andb_true_iff. pose proof (HR k sm Hk). naive_solver.
  - intros sm [Hk Hr]%(proj2 (lists_between ms (last + 1) (LastSeq (state ms) - 1) Hok)). destruct (ok (m_subj sm)) eqn:E; [|done].
    pose proof (Hlast _ _ Hk E). apply andb_true_iff in Hr as [?%Z.leb_le ?]. lia.
Qed.

Lemma num_pending_clamp ms p sseq : ms_ok ms ->
  num_pending p (if sseq <? FirstSeq (state ms) then FirstSeq (state ms) else sseq) (msgs ms) = num_pending p sseq (msgs ms).
Proof.
  intros Hok. unfold num_pending, pending_msgs. f_equal. apply size_filter_ext. intros k sm Hk. apply (ok_keys _ _ _ _ Hok) in Hk as (_&Hr&_). cbn.
  destruct (Z.ltb_spec sseq (FirstSeq (state ms))); naive_solver lia.
Qed.

(** The last sequence of the walk is after every matching message, once a subject is included. *)
Lemma walked_last ms flt l sseq lastPer w : matched_entries ms flt l -> walked ms sseq lastPer l w -> included ms sseq l <> [] ->
  forall k sm, msgs ms !! k = Some sm -> isMatch flt (m_subj sm) = true -> k <= Last (w_ss w).
Proof.
  intros Hl Hw Hne k sm Hk Hm. destruct (wk_last _ _ _ _ _ Hw Hne) as [(s0&f0&Hin0&E0) Hmax]. pose proof Hl as (_&_&Hlm). apply (Hlm k sm Hk) in Hm as [f Hin].
  destruct (entry_of ms flt l Hl _ _ Hin) as (_&_&_&_&_&_&_&Hr). cbn [fst snd] in Hr. pose proof (Hr k ltac:(by exists sm)).
  apply elem_of_included in Hin0 as [_ Hs0]. cbn [fst snd] in Hs0. destruct (decide (sseq <= Last (exact ms (m_subj sm) f))) as [Hle|]; [|lia].
  pose proof (Hmax (m_subj sm) f ltac:(by apply elem_of_included)). lia.
Qed.

Lemma write_walk ms flt l sseq lastPer w : ms_ok ms -> matched_entries ms flt l -> walked ms sseq lastPer l w ->
  exists f, write_all (fss ms) (w_writes w) = Some f /\ searched ms (with_fss ms f).
Proof.
  intros Hok Hl Hw. pose proof (ok_fss _ _ _ _ Hok) as (M&HM&Hf). destruct (write_exact ms (w_writes w) Hok (fss ms) M HM Hf) as (f&M'&E&HM'&Hf').
  - intros s e (f&Hin&->)%(wk_writes _ _ _ _ _ Hw). destruct (entry_of ms flt l Hl _ _ Hin) as (_&?&?&_). done.
  - exists f. split; [done|]. by eapply searched_fss.
Qed.

(** With a subject that is partly older the scans correct the total. *)
Lemma partial_ok ms flt l sseq w : ms_ok ms -> matched_entries ms flt l -> walked ms sseq false l w -> w_partial w = true ->
  Msgs (scan_partial msg_range ms (isMatch flt) false sseq w) = num_pending (isMatch flt) sseq (msgs ms).
Proof.
  intros Hok Hl Hw Hpt. pose proof (wk_msgs _ _ _ _ _ Hw) as Hm. pose proof (wk_skipped _ _ _ _ _ Hw) as Hs. cbn iota in Hm.
  apply (wk_partial _ _ _ _ _ Hw) in Hpt as (s&f&Hin&Hlt). assert ((s, f) ∈ included ms sseq l) as Hi by (apply elem_of_included; split; [done|cbn; lia]).
  assert (included ms sseq l <> []) as Hne by (intros E; rewrite E in Hi; by apply elem_of_nil in Hi).
  pose proof (proj2 (wk_first _ _ _ _ _ Hw Hne eq_refl) s f Hi) as Hf. pose proof (walked_last ms flt l sseq false w Hl Hw Hne) as Hlast.
  unfold scan_partial. destruct (Z.ltb_spec (First (w_ss w)) sseq); [|lia]. destruct (_ <? _).
  - rewrite <- (scan_include_ok ms _ sseq (Last (w_ss w)) Hok Hlast). by destruct (scan_include _ _ _ _ _ _).
  - cbn [Msgs]. rewrite (scan_exclude_ok ms _ sseq _ Hok Hlast), Hm, Hs. pose proof (included_excluded ms flt l sseq Hl) as E1. pose proof (split_pending ms flt sseq) as E2.
    pose proof (of_subjs_size ms (included ms sseq l).*1 Hok) as Hb. unfold num_pending.
    assert (size (pending_msgs (isMatch flt) sseq (msgs ms)) <= size (msgs ms))%nat by (apply map_subseteq_size, map_filter_subseteq).
    pose proof (ms_size ms Hok). pose proof ss_bound. destruct Hok as [_ _ _ _ _ _ Hr _]. rewrite u64_small; unfold is_u64; lia.
Qed.

Lemma filtered_ok ms sseq flt : ms_ok ms -> subjects_literal ms -> filter_ok ms (filter_of flt) ->
  exists ms' ss, filteredStateLocked msg_range ms sseq flt false = Some (ms', ss) /\ searched ms ms' /\
    Msgs ss = num_pending (isMatch (filter_of flt)) sseq (msgs ms).
Proof.
  intros Hok Hlit Hfl. unfold filteredStateLocked. fold (filter_of flt). set (q := filter_of flt) in *. rewrite <- num_pending_clamp by done.
  set (sq := if sseq <? FirstSeq (state ms) then FirstSeq (state ms) else sseq). clearbody sq q. clear sseq flt. rename sq into sseq.
  destruct (Z.ltb_spec (LastSeq (state ms)) sseq) as [Hpast|Hin].
  { exists ms, zero_ss. split_and!; try done. symmetry. unfold num_pending, pending_msgs. rewrite (proj2 (map_size_empty_iff _)); [done|].
    apply map_empty. intros k. apply map_lookup_filter_None. right. cbn. intros sm Hk [_ Hle]. apply (ok_keys _ _ _ _ Hok) in Hk as (_&Hr&_). lia. }
  destruct (String.eqb_spec q Subj.fwcs) as [Eq|Hq]; [destruct (Z.leb_spec sseq (FirstSeq (state ms))) as [Hle|Hgt]|]; cbn [andb].
  { eexists _, _. split; [done|]. split; [done|]. cbn [Msgs]. rewrite (ok_msgs _ _ _ _ Hok). unfold num_pending, pending_msgs. f_equal. f_equal. symmetry.
    apply map_filter_id. intros k sm Hk. apply (ok_keys _ _ _ _ Hok) in Hk as (_&Hr&_). cbn. split; [unfold isMatch; by rewrite Eq|lia]. }
  all: destruct (match_entries ms q Hok Hlit Hfl) as (l&Hl&->); pose proof Hl as (Hnd&Hall&Hlm).
  all: rewrite walk_until by (intros s f Hsf; by destruct (entry_of ms q l Hl _ _ Hsf) as (_&_&_&_&?&_)).
  all: pose proof (walk_ok ms sseq false l Hok Hnd Hall) as Hw; set (w := fold_left _ l _) in *; clearbody w.
  all: destruct (write_walk ms q l sseq false w Hok Hl Hw) as (f&->&Hs); cbn [mbind option_bind].
  all: pose proof (wk_msgs _ _ _ _ _ Hw) as Hmsgs; pose proof (wk_skipped _ _ _ _ _ Hw) as Hskip; pose proof (wk_partial _ _ _ _ _ Hw) as Hp; cbn iota in Hmsgs.
  all: eexists _, _; split; [done|]; split; [done|]; destruct (w_partial w) eqn:Ep; [exact (partial_ok ms q l sseq w Hok Hl Hw Ep)|].
  all: rewrite Hmsgs; apply included_pending with (1 := Hl); intros s f' H1 H2; assert (false = true); [|done]; apply Hp; eauto.
Qed.
End filter.
