(* ===== verification/MemStoreLast.v ===== *)
(** * Memory store: last messages and purges of a filter

    The totals of a filter over the whole store, the last message of a subject or of a filter, and
    [PurgeEx]. *)

From S2P Require Import Prelude Subject Scheduler MemStore MemStoreQuery MemStoreProofs MemStoreOps MemStoreQueryProofs MemStoreFilter.
Import Sched Mem MemQuery.

Section last.
Context {F D W : Type} `{HF : SubjectMap F SimpleState} `{HFL : !SubjectMapLaws F SimpleState} `{HD : SeqSetI D} `{HDL : !SeqSetLaws D}
  `{HW : TimerWheel W} `{HH : Headers}.
Notation MS := (memStore F D W).
Implicit Types (ms : MS).
Context (msg_range : gmap Z StoreMsg -> list StoreMsg) (Hrange : forall m, msg_range m ≡ₚ (map_to_list m).*2).

Definition is_match ms (p : string -> bool) (k : Z) : Prop := exists sm, msgs ms !! k = Some sm /\ p (m_subj sm) = true.

(** The totals of a filter from 1 on. *)
Lemma filtered_full ms flt lastPer : ms_ok ms -> subjects_literal ms -> filter_ok ms (filter_of flt) -> filter_of flt <> Subj.fwcs ->
  exists ms' ss, filteredStateLocked msg_range ms 1 flt lastPer = Some (ms', ss) /\ searched ms ms' /\
    (0 < Msgs ss <-> exists k, is_match ms (isMatch (filter_of flt)) k) /\
    (0 < Msgs ss -> is_match ms (isMatch (filter_of flt)) (Last ss)) /\
    (forall k, is_match ms (isMatch (filter_of flt)) k -> k <= Last ss /\ (lastPer = false -> First ss <= k)).
Proof.
  intros Hok Hlit Hfl Hall. unfold filteredStateLocked. fold (filter_of flt). set (q := filter_of flt) in *. clearbody q.
  set (sseq := if 1 <? FirstSeq (state ms) then FirstSeq (state ms) else 1).
  assert (sseq = FirstSeq (state ms) \/ (sseq = 1 /\ LastSeq (state ms) = 0)) as Hsq.
  { unfold sseq. destruct (ok_range _ _ _ _ Hok) as (_&?&?). destruct (Z.ltb_spec 1 (FirstSeq (state ms))); lia. }
  clearbody sseq. rewrite (proj2 (String.eqb_neq q Subj.fwcs) Hall). cbn [andb]. destruct (Z.ltb_spec (LastSeq (state ms)) sseq) as [Hlt|Hnlt].
  { assert (forall k, ~ is_match ms (isMatch q) k) as Hno by (intros k (sm&Hk&_); apply (ok_keys _ _ _ _ Hok) in Hk as (_&Hr&?&_); lia).
    exists ms, zero_ss. cbn. split_and!; try done; [split; [lia|intros [k []%Hno]]|intros k []%Hno]. }
  assert (sseq = FirstSeq (state ms)) as -> by lia.
  destruct (match_entries ms q Hok Hlit Hfl) as (l&Hl&->). pose proof Hl as (Hnd&Hent&Hlm).
  rewrite walk_until by (intros s f Hsf; by destruct (entry_of ms q l Hl _ _ Hsf) as (_&_&_&_&?&_)).
  pose proof (walk_ok ms (FirstSeq (state ms)) lastPer l Hok Hnd Hent) as Hw. set (w := fold_left _ l _) in *. clearbody w.
  destruct (write_walk ms q l _ lastPer w Hok Hl Hw) as (f&->&Hs). cbn [mbind option_bind].
  assert (forall s f, (s, f) ∈ l -> FirstSeq (state ms) <= First (exact ms s f)) as Hfirst.
  { intros s f' Hsf. destruct (entry_of ms q l Hl _ _ Hsf) as (_&_&_&_&_&(sm&Hk&_)&_). cbn [fst snd] in Hk. by apply (ok_keys _ _ _ _ Hok) in Hk as (_&[? _]&_). }
  assert (w_partial w = false) as ->.
  { destruct (w_partial w) eqn:Ep; [|done]. apply (wk_partial _ _ _ _ _ Hw) in Ep as (s&f'&Hsf&Hlt). pose proof (Hfirst _ _ Hsf). lia. }
  assert (forall sf, sf ∈ included ms (FirstSeq (state ms)) l <-> sf ∈ l) as Hinc.
  { intros [s f']. rewrite elem_of_included. cbn [fst snd]. split; [by intros []|]. intros Hsf. split; [done|]. destruct (entry_of ms q l Hl _ _ Hsf) as (_&_&_&_&Hfl'&_).
    cbn [fst snd] in Hfl'. pose proof (Hfirst _ _ Hsf). lia. }
  assert (forall k, is_match ms (isMatch q) k -> exists s f', (s, f') ∈ l /\ First (exact ms s f') <= k <= Last (exact ms s f')) as Hmatch.
  { intros k (sm&Hk&Hm). apply (Hlm k sm Hk) in Hm as [f' Hsf]. exists (m_subj sm), f'. split; [done|]. destruct (entry_of ms q l Hl _ _ Hsf) as (_&_&_&_&_&_&_&Hr). apply Hr. by exists sm. }
  assert (forall s f', (s, f') ∈ l -> is_match ms (isMatch q) (Last (exact ms s f'))) as Hlast.
  { intros s f' Hsf. destruct (entry_of ms q l Hl _ _ Hsf) as (_&_&_&_&_&_&(sm&Hk&Es)&_). cbn [fst snd] in *. exists sm. split; [done|]. apply (Hlm _ sm Hk). exists f'. by rewrite Es. }
  eexists _, (w_ss w). split; [done|]. split; [done|]. destruct (decide (l = [])) as [->|Hne].
  { assert (forall k, ~ is_match ms (isMatch q) k) as Hno by (intros k (s&f'&Hsf&_)%Hmatch; by apply elem_of_nil in Hsf).
    rewrite (wk_none _ _ _ _ _ Hw eq_refl). cbn. split_and!; try done; [split; [lia|intros [k []%Hno]]|intros k []%Hno]. }
  assert (included ms (FirstSeq (state ms)) l <> []) as Hni.
  { intros E. destruct l as [|x l]; [done|]. apply (not_elem_of_nil x). rewrite <- E. apply Hinc. left. }
  destruct (wk_last _ _ _ _ _ Hw Hni) as [(s0&f0&Hin0%Hinc&E0) Hmax].
  assert (is_match ms (isMatch q) (Last (w_ss w))) as HmL by (rewrite E0; by apply Hlast).
  assert (0 < Msgs (w_ss w)) as Hpos.
  { rewrite (wk_msgs _ _ _ _ _ Hw). assert (0 < length (included ms (FirstSeq (state ms)) l))%nat as Hlen by (destruct (included _ _ _); [done|cbn; lia]).
    assert (Forall (entry_ok ms) (included ms (FirstSeq (state ms)) l)) as Hei by (apply Forall_forall; intros x Hx%Hinc; rewrite Forall_forall in Hent; by apply Hent).
    pose proof (length_of_subjs ms _ (included_NoDup ms (FirstSeq (state ms)) l Hnd) Hei). destruct lastPer; lia. }
  split_and!; [split; eauto|done|]. intros k (s&f'&Hsf&Hk)%Hmatch. split.
  - pose proof (Hmax s f' ltac:(by apply Hinc)). lia.
  - intros ->. pose proof (proj2 (wk_first _ _ _ _ _ Hw Hni eq_refl) s f' ltac:(by apply Hinc)). lia.
Qed.

(** ** The last message *)

Definition is_all (subject : string) : bool := String.eqb subject "" || String.eqb subject Subj.fwcs.

(** The result for a subject or filter: its last message, or none.  There is none exactly when no
    message matches, except that for all subjects only the last sequence is looked at: there is
    none when it has no message, also if there are earlier ones. *)
Definition last_result ms (subject : string) (r : store_error + StoreMsg) : Prop :=
  match r with
  | inr sm => exists k, msgs ms !! k = Some sm /\ isMatch (filter_of subject) (m_subj sm) = true /\ forall j, is_match ms (isMatch (filter_of subject)) j -> j <= k
  | inl e => e = ErrStoreMsgNotFound /\ if is_all subject then msgs ms !! LastSeq (state ms) = None else forall k, ~ is_match ms (isMatch subject) k
  end.

Lemma is_all_filter subject : is_all subject = false -> filter_of subject = subject /\ subject <> Subj.fwcs.
Proof. unfold is_all, filter_of. intros [-> E]%orb_false_iff. split; [done|]. by apply String.eqb_neq. Qed.

Lemma filter_literal_match subject s : is_all subject = false -> Subj.subjectIsLiteral subject = true -> isMatch subject s = String.eqb s subject.
Proof.
  intros [_ Hf]%is_all_filter Hl. unfold isMatch. rewrite (proj2 (String.eqb_neq _ _) Hf). unfold Subj.subjectIsLiteral in Hl. unfold Subj.subjectHasWildcard. by rewrite Hl.
Qed.

Lemma literal_is_match ms subject k : is_all subject = false -> Subj.subjectIsLiteral subject = true ->
  is_match ms (isMatch subject) k <-> at_subj (msgs ms) subject k.
Proof. intros Ha Hl. unfold is_match, at_subj. by setoid_rewrite (filter_literal_match subject _ Ha Hl); setoid_rewrite String.eqb_eq. Qed.

Lemma last_result_at ms subject k sm : is_all subject = false -> msgs ms !! k = Some sm -> is_match ms (isMatch subject) k ->
  (forall j, is_match ms (isMatch subject) j -> j <= k) -> last_result ms subject (inr sm).
Proof. intros Ha Hk (x&Hx&Hm) Hmax. unfold last_result. rewrite (proj1 (is_all_filter subject Ha)). exists k. split; [done|]. split; [congruence|done]. Qed.

Lemma last_result_all ms subject : ms_ok ms -> is_all subject = true ->
  last_result ms subject (match msgs ms !! LastSeq (state ms) with Some sm => inr sm | None => inl ErrStoreMsgNotFound end).
Proof.
  intros Hok Ha. unfold last_result. destruct (msgs ms !! LastSeq (state ms)) as [sm|] eqn:E; [|by rewrite Ha].
  exists (LastSeq (state ms)). split; [done|]. split; [unfold is_all, filter_of in *; by destruct (String.eqb subject ""); [|cbn in Ha; apply String.eqb_eq in Ha as ->]|].
  intros j (x&Hx&_). apply (ok_keys _ _ _ _ Hok) in Hx as (_&?&_). lia.
Qed.

Lemma loadLast_ok ms subject : ms_ok ms -> subjects_literal ms -> (is_all subject = false -> Subj.subjectIsLiteral subject = false -> filter_ok ms subject) ->
  exists ms' r, loadLastLocked msg_range ms subject = Some (ms', r) /\ searched ms ms' /\ last_result ms subject r.
Proof.
  intros Hok Hlit Hfl. unfold loadLastLocked. fold (is_all subject). destruct (is_all subject) eqn:Ha.
  { eexists _, _. split; [done|]. split; [done|]. by apply last_result_all. }
  destruct (Subj.subjectIsLiteral subject) eqn:El.
  - pose proof (ok_fss _ _ _ _ Hok) as (M&HM&Hf). rewrite (sm_Find_law _ _ _ HM). destruct (M !! subject) as [ss|] eqn:E.
    2: { eexists _, _. split; [done|]. split; [done|]. unfold last_result. rewrite Ha. split; [done|]. intros k. rewrite literal_is_match by done. intros (sm&Hk&<-).
         destruct (proj2 Hf k sm Hk). congruence. }
    pose proof (proj1 Hf _ _ E) as Hss. rewrite (proj2 (Z.ltb_lt _ _) (so_pos _ _ _ Hss)). destruct (lastNeedsUpdate ss) eqn:Eu.
    + destruct (exact_ok ms M subject ss Hok Hf E) as (Hx&Ht&_&Hl&Hr). fold (exact ms subject ss). destruct (sm_Insert_law _ _ _ (exact ms subject ss) HM Ht) as (f&->&HM').
      cbn [mbind option_bind]. eexists _, _. split; [done|]. split; [eapply searched_fss; [done|done|by apply fss_ok_update]|]. pose proof Hl as (sm&Hk&_). cbn [msgs with_fss]. rewrite Hk.
      apply (last_result_at ms subject _ sm Ha Hk); [by apply literal_is_match|]. intros j Hj%literal_is_match; [|done..]. by apply Hr.
    + eexists _, _. split; [done|]. split; [done|]. pose proof (so_last _ _ _ Hss Eu) as Hl. pose proof Hl as (sm&Hk&_). rewrite Hk.
      apply (last_result_at ms subject _ sm Ha Hk); [by apply literal_is_match|]. intros j Hj%literal_is_match; [|done..]. by apply (so_hi _ _ _ Hss).
  - destruct (is_all_filter subject Ha) as [Eq Hne]. pose proof (filtered_full ms subject true Hok Hlit) as Hff. rewrite Eq in Hff.
    destruct Hff as (ms'&ss&->&Hs&Hn&Hla&Hmax); [by apply Hfl|done|]. cbn [mbind option_bind]. eexists _, _. split; [done|]. split; [done|]. destruct Hs as (_&Em&_).
    destruct (Z.ltb_spec 0 (Msgs ss)) as [Hp|Hp].
    + pose proof (Hla Hp) as HL. pose proof HL as (sm&Hk&_). rewrite Em, Hk. apply (last_result_at ms subject _ sm Ha Hk HL). intros j Hj. by apply Hmax.
    + unfold last_result. rewrite Ha. split; [done|]. intros k Hk. assert (0 < Msgs ss); [|lia]. apply Hn. by exists k.
Qed.

(** ** Purge of a filter *)

(** Without the messages before [b] whose subject has [p]. *)
Definition drop_below (p : string -> bool) (b : Z) (m : gmap Z StoreMsg) : gmap Z StoreMsg :=
  filter (fun kv => ~ (p (m_subj kv.2) = true /\ kv.1 < b)) m.

Lemma drop_below_lookup p b m k sm : drop_below p b m !! k = Some sm <-> m !! k = Some sm /\ ~ (p (m_subj sm) = true /\ k < b).
Proof. unfold drop_below. by rewrite map_lookup_filter_Some. Qed.

Lemma compareFn_match subject s : is_all subject = false -> compareFn subject s = isMatch subject s.
Proof.
  intros Ha. pose proof (is_all_filter subject Ha) as [_ Hf]. unfold compareFn, isMatch. fold (is_all subject). rewrite Ha, (proj2 (String.eqb_neq _ _) Hf).
  by destruct (Subj.subjectHasWildcard subject).
Qed.

(** The loop from [a] over [n] sequences removes the matching messages before some [b]: all of the
    range, or [max] of them with the [purged] ones before. *)
Definition purges (p : string -> bool) (a n purged max : Z) ms (r : option (MS * Z)) : Prop :=
  exists ms' b, let total := purged + (Z.of_nat (size (msgs ms)) - Z.of_nat (size (msgs ms'))) in
    r = Some (ms', total) /\ ms_ok ms' /\ frame ms ms' /\ msgs ms' = drop_below p b (msgs ms) /\ a <= b <= a + n /\ total <= max /\ (b = a + n \/ total = max).

Lemma purge_loop_ok subject max : is_all subject = false -> forall l a ms purged, ms_ok ms -> 0 <= purged < max -> l = seqZ a (Z.of_nat (length l)) ->
  (forall k, is_match ms (isMatch subject) k -> a <= k) ->
  purges (isMatch subject) a (Z.of_nat (length l)) purged max ms (purge_loop ms l subject purged max).
Proof.
  intros Ha. induction l as [|k l IH]; intros a ms purged Hok Hpu El Hmin.
  { exists ms, a. cbn [purge_loop length]. split_and!; try done; try lia; [do 2 f_equal; lia|]. apply map_eq. intros j. apply option_eq. intros sm. rewrite drop_below_lookup.
    split; [|by intros []]. intros Hj. split; [done|]. intros [Hm Hlt]. pose proof (Hmin j ltac:(by exists sm)). lia. }
  cbn [length] in *. rewrite seqZ_cons in El by lia. injection El as -> El. replace (Z.pred (Z.of_nat (S (length l)))) with (Z.of_nat (length l)) in El by lia.
  assert ((~ is_match ms (isMatch subject) a) -> purges (isMatch subject) a (Z.of_nat (S (length l))) purged max ms (purge_loop ms l subject purged max)) as Hskip.
  { intros Hn. destruct (IH (Z.succ a) ms purged Hok Hpu El) as (ms'&b&E&Hok'&Hfr&Hm&Hb&Hle&Hend).
    - intros j Hj. pose proof (Hmin j Hj). assert (j <> a) by congruence. lia.
    - exists ms', b. split_and!; try done; lia. }
  cbn [purge_loop]. destruct (msgs ms !! a) as [sm|] eqn:Hk; [|apply Hskip; intros (?&?&_); congruence].
  rewrite compareFn_match by done. destruct (isMatch subject (m_subj sm)) eqn:Em; [|apply Hskip; intros (?&?&?); congruence].
  pose proof (ok_keys _ _ _ _ Hok a sm Hk) as (->&_). destruct (removeMsg_ok ms a sm Hok Hk) as (ms1&->&Hok1&Hm1&Hfr1). cbn [mbind option_bind].
  assert (Z.of_nat (size (msgs ms)) = Z.of_nat (size (msgs ms1)) + 1) as Hsz.
  { rewrite Hm1, map_size_delete_Some by (by eexists). assert (size (msgs ms) <> 0%nat); [|lia]. intros Hz%map_size_empty_inv. by rewrite Hz, lookup_empty in Hk. }
  assert (forall b, a < b -> drop_below (isMatch subject) b (msgs ms1) = drop_below (isMatch subject) b (msgs ms)) as Hdrop.
  { intros b Hab. rewrite Hm1. apply map_eq. intros j. apply option_eq. intros x. rewrite !drop_below_lookup, lookup_delete_Some. split; [naive_solver|].
    intros [Hj Hn]. split_and!; [|done|done]. intros <-. rewrite Hk in Hj. injection Hj as <-. by apply Hn. }
  destruct (Z.leb_spec max (purged + 1)) as [Hge|Hlt].
  - exists ms1, (a + 1). split_and!; try done; try lia; [do 2 f_equal; lia|]. rewrite <- Hdrop by lia. apply map_eq. intros j. apply option_eq. intros x.
    rewrite drop_below_lookup. split; [|by intros []]. intros Hj. split; [done|]. intros [Hmx Hlt]. rewrite Hm1, lookup_delete_Some in Hj. destruct Hj as [Hne Hj].
    pose proof (Hmin j ltac:(by exists x)). lia.
  - destruct (IH (Z.succ a) ms1 (purged + 1) Hok1 ltac:(lia) El) as (ms'&b&E&Hok'&Hfr&Hm&Hb&Hle&Hend).
    { intros j (x&Hj&Hmx). rewrite Hm1, lookup_delete_Some in Hj. destruct Hj as [Hne Hj]. pose proof (Hmin j ltac:(by exists x)). lia. }
    exists ms', b. rewrite E. split_and!; try done; try lia; [do 2 f_equal; lia|by rewrite Hfr1|by rewrite Hm, Hdrop by lia].
Qed.

Lemma drop_below_all ms p b : ms_ok ms -> (forall k, is_match ms p k -> k < b) ->
  Z.of_nat (size (msgs ms)) - Z.of_nat (size (drop_below p b (msgs ms))) = num_pending p 0 (msgs ms).
Proof.
  intros Hok Hall. pose proof (size_filter_split (fun _ => True) (fun kv => p (m_subj kv.2) = true) (msgs ms)) as E. rewrite map_filter_id in E by done.
  unfold num_pending, pending_msgs, drop_below. rewrite E. rewrite (size_filter_ext (fun kv => p (m_subj kv.2) = true /\ 0 <= kv.1) (fun kv => True /\ p (m_subj kv.2) = true)).
  - rewrite (size_filter_ext (fun kv => ~ (p (m_subj kv.2) = true /\ kv.1 < b)) (fun kv => True /\ ~ p (m_subj kv.2) = true)); [lia|].
    intros k sm Hk. cbn. pose proof (Hall k). split; [|naive_solver]. intros Hn. split; [done|]. intros Hp. apply Hn. split; [done|]. apply Hall. by exists sm.
  - intros k sm Hk. apply (ok_keys _ _ _ _ Hok) in Hk as (_&_&?&_). cbn. naive_solver lia.
Qed.

Lemma drop_below_none ms p b : (forall k, is_match ms p k -> b <= k) -> drop_below p b (msgs ms) = msgs ms.
Proof.
  intros Hall. apply map_eq. intros j. apply option_eq. intros sm. rewrite drop_below_lookup. split; [by intros []|]. intros Hj. split; [done|].
  intros [Hm Hlt]. pose proof (Hall j ltac:(by exists sm)). lia.
Qed.

(** The sequence [b] before which matching messages go: [purged] of them, at most what is over
    [keep], and none from [sequence] on. *)
Definition purged_ex ms (p : string -> bool) (sequence keep : Z) (r : option (MS * (store_error + Z))) : Prop :=
  let max := Z.max 0 (num_pending p 0 (msgs ms) - keep) in
  exists ms' b, let purged := Z.of_nat (size (msgs ms)) - Z.of_nat (size (msgs ms')) in
    r = Some (ms', inr purged) /\ ms_ok ms' /\ frame ms ms' /\ msgs ms' = drop_below p b (msgs ms) /\
    purged <= max /\ (1 < sequence -> b <= sequence) /\ (purged = max \/ (1 < sequence /\ b = sequence)).

Lemma purged_none ms ms' p sequence keep : searched ms ms' -> num_pending p 0 (msgs ms) <= keep -> purged_ex ms p sequence keep (Some (ms', inr 0)).
Proof.
  intros (Hok&Em&Est&Hfr) Hle. exists ms', (Z.min 0 sequence). rewrite Em. split_and!; try done; [do 3 f_equal; lia| | |lia|lia|left; lia].
  - unfold frame. destruct Hfr as (?&?&?&?). by rewrite Est.
  - symmetry. apply drop_below_none. intros k (sm&Hk&_). rewrite <- Em in Hk. apply (ok_keys _ _ _ _ Hok) in Hk as (_&_&?&_). lia.
Qed.

Lemma PurgeEx_subject_ok ms subject sequence keep : ms_ok ms -> subjects_literal ms -> is_all subject = false -> filter_ok ms subject -> 0 <= keep ->
  purged_ex ms (isMatch subject) sequence keep (PurgeEx msg_range ms subject sequence keep).
Proof.
  intros Hok Hlit Ha Hfl Hkeep. destruct (is_all_filter subject Ha) as [Eq Hne]. unfold PurgeEx, FilteredState. fold (is_all subject). rewrite Ha.
  pose proof (filtered_full ms subject false Hok Hlit) as Hff. pose proof (filtered_ok msg_range Hrange ms 1 subject Hok Hlit) as Hfo. rewrite Eq in Hff, Hfo.
  destruct (Hff Hfl Hne) as (ms1&ss&E1&Hs&Hn&Hla&Hb), (Hfo Hfl) as (ms2&ss2&E2&_&Hc). rewrite E1 in E2. injection E2 as <- <-. clear Hff Hfo. rewrite E1. cbn [mbind option_bind].
  assert (num_pending (isMatch subject) 1 (msgs ms) = num_pending (isMatch subject) 0 (msgs ms)) as Hnp.
  { unfold num_pending, pending_msgs. f_equal. apply size_filter_ext. intros k sm Hk. apply (ok_keys _ _ _ _ Hok) in Hk as (_&_&?&_). cbn. naive_solver lia. }
  rewrite Hnp in Hc. destruct (Z.ltb_spec 0 (Msgs ss)) as [Hp|Hp]; [|apply purged_none; [done|lia]].
  destruct ((0 <? keep) && (Msgs ss <=? keep)) eqn:Ek.
  { apply andb_true_iff in Ek as [_ Ek%Z.leb_le]. apply purged_none; [done|lia]. }
  set (max := if 0 <? keep then Msgs ss - keep else Msgs ss). set (last := if 1 <? sequence then sequence - 1 else Last ss).
  assert (max = num_pending (isMatch subject) 0 (msgs ms) - keep /\ 0 < max) as [Emax Hmax].
  { unfold max. destruct (Z.ltb_spec 0 keep); cbn [andb] in Ek; [apply Z.leb_gt in Ek|]; lia. }
  pose proof Hs as (Hok1&Em1&Est1&Hfr1). assert (forall k, is_match ms1 (isMatch subject) k <-> is_match ms (isMatch subject) k) as Him by (intros k; unfold is_match; by rewrite Em1).
  destruct (purge_loop_ok subject max Ha (seqZ (First ss) (last + 1 - First ss)) (First ss) ms1 0 Hok1) as (ms3&b&E3&Hok3&Hfr3&Hm3&Hb3&Hle&Hend); [lia| | |].
  { rewrite length_seqZ. destruct (decide (0 <= last + 1 - First ss)); [by rewrite Z2Nat.id by lia|]. rewrite !seqZ_nil by lia. done. }
  { intros k Hk%Him. by apply Hb. }
  rewrite E3. cbn [mbind option_bind]. rewrite length_seqZ in *. rewrite Em1 in *.
  assert (frame ms ms3) as Hfr by (etrans; [|done]; destruct Hfr1 as (?&?&?&?); unfold frame; by rewrite Est1).
  unfold purged_ex. rewrite <- Emax, Z.max_r by lia. rewrite Z.add_0_l in *. destruct (decide (last + 1 < First ss)) as [Hshort|Hlong].
  - exists ms3, sequence. assert (1 < sequence /\ last = sequence - 1) as [H1 H2].
    { unfold last in *. destruct (Z.ltb_spec 1 sequence); [done|]. pose proof (Hla Hp) as HL%Hb. lia. }
    split_and!; try done; [|by right]. assert (forall b', b' <= First ss -> drop_below (isMatch subject) b' (msgs ms) = msgs ms) as Hd.
    { intros b' Hb'. apply drop_below_none. intros k Hk%Hb. lia. }
    rewrite Hm3, !Hd by lia. done.
  - exists ms3, b. rewrite Z2Nat.id in * by lia. unfold last in *. destruct (Z.ltb_spec 1 sequence).
    + split_and!; try done; [lia|]. destruct Hend as [Hend|Hend]; [right|by left]. lia.
    + split_and!; try done; [lia|]. left. destruct Hend as [Hend|Hend]; [|done]. rewrite Hm3, drop_below_all in * by (try done; intros k Hk%Hb; lia). lia.
Qed.
End last.
