(* ===== verification/MemStoreAdminProofs.v ===== *)
(** * Memory store: expiry, configuration and synchronisation, proofs

    Creation, expiry by age and by TTL, the change of the configuration and [SyncDeleted] keep the
    invariant of the store; what they remove. *)

From S2P Require Import Prelude Subject HashWheelProofs Scheduler SchedulerProofs MemStore MemStoreQuery MemStoreAdmin MemStoreProofs MemStoreOps MemStoreQueryProofs.
Import Sched Mem MemQuery MemAdmin.

Section admin.
Context {F D W : Type} `{HF : SubjectMap F SimpleState} `{HFL : !SubjectMapLaws F SimpleState} `{HD : SeqSetI D} `{HDL : !SeqSetLaws D}
  `{HW : TimerWheel W} `{HWL : !TimerWheelLaws W} `{HH : Headers}.
Notation MS := (memStore F D W).
Implicit Types (ms : MS).

(** ** Creation *)

Lemma empty_store_ok c : ms_ok (empty_store c).
Proof.
  pose proof ss_bound. split; cbn; try done.
  - exists ∅. split; [apply sm_New_law|]. by split.
  - exists ∅. split; [apply ss_New_law|]. intros k. split; [by intros ?%elem_of_empty|]. by intros [[] _].
  - lia.
Qed.

Lemma newMemStore_ok c : 0 <= cfgFirstSeq c < seq_max -> 1 < seq_max ->
  exists ms, newMemStore c = inr ms /\ ms_ok ms /\ msgs ms = ∅ /\ closed ms = false /\ cfg ms = c /\ maxp ms = MaxMsgsPer c /\ LastSeq (state ms) = Z.max 0 (cfgFirstSeq c - 1).
Proof.
  intros Hc H1. pose proof (empty_store_ok c) as Hok. unfold newMemStore. destruct (Z.ltb_spec 0 (cfgFirstSeq c)) as [Hp|Hp].
  2: { exists (empty_store c). split_and!; try done. cbn. lia. }
  pose proof (purge_ok (empty_store c) (cfgFirstSeq c) Hok) as Hpu. destruct (purge _ _) as [ms r]. destruct Hpu as (Hok'&(E1&E2&E3&_)&Hr); [cbn; lia|lia|].
  destruct r as [e|n]; [cbn in Hr; lia|]. destruct Hr as (Em&_&El&_). exists ms. split_and!; try done. rewrite El. destruct (Z.eqb_spec (cfgFirstSeq c) 0); lia.
Qed.

(** ** Walking all messages *)

Lemma load_all ms start : loadNextMsgLocked ms Subj.fwcs true start = Some (ms, LoadNextMsgMulti ms (fun _ => true) start).
Proof.
  unfold loadNextMsgLocked, LoadNextMsgMulti. destruct (_ || _); [done|]. cbn [String.eqb]. unfold shouldLinearScan.
  replace (String.eqb Subj.fwcs "") with false by done. replace (String.eqb Subj.fwcs Subj.fwcs) with true by done. done.
Qed.

Lemma next_all ms start : ms_ok ms -> exists r, loadNextMsgLocked ms Subj.fwcs true start = Some (ms, r) /\ next_match ms (fun _ => true) start r.
Proof. intros Hok. exists (LoadNextMsgMulti ms (fun _ => true) start). split; [apply load_all|by apply loadNextMulti_ok]. Qed.

Lemma next_seq ms k sm : ms_ok ms -> msgs ms !! k = Some sm -> u64 (k + 1) = k + 1.
Proof.
  intros Hok Hk. apply (ok_keys _ _ _ _ Hok) in Hk as (_&Hr&?&_). pose proof ss_bound. destruct (ok_range _ _ _ _ Hok). apply u64_small. unfold is_u64. lia.
Qed.

(** The messages from [k + 1] on are fewer than those from [start] on. *)
Lemma from_seq_less m start k : is_Some (m !! k) -> start <= k -> (size (from_seq (k + 1) m) < size (from_seq start m))%nat.
Proof.
  intros [sm Hk] Hle. assert (from_seq start m !! k = Some sm) as Hf by (by apply from_seq_lookup).
  rewrite <- (insert_delete_id _ _ _ Hf), map_size_insert_None by apply lookup_delete_eq. apply Nat.lt_succ_r, map_subseteq_size, map_subseteq_spec.
  intros j x [Hj Hlt]%from_seq_lookup. apply lookup_delete_Some. split; [lia|]. apply from_seq_lookup. split; [done|lia].
Qed.

Lemma each_msg_ok {C : Type} (P : Z -> C -> Prop) (f : C -> StoreMsg -> Z -> C) ms fuel : ms_ok ms ->
  (forall start k sm c, msgs ms !! k = Some sm -> start <= k -> P start c -> P (k + 1) (f c sm k)) ->
  forall start c, P start c -> (size (from_seq start (msgs ms)) < fuel)%nat -> exists start' c', each_msg fuel ms start f c = Some (ms, c') /\ P start' c'.
Proof.
  intros Hok Hstep. induction fuel as [|fuel IH]; intros start c HP Hfuel; [lia|]. cbn [each_msg]. destruct (next_all ms start Hok) as (r&->&Hr). cbn [mbind option_bind].
  destruct r as [[sm k]|skip]; [|by exists start, c]. destruct Hr as (Hk&_&Hle&_). rewrite (next_seq ms k sm Hok Hk). apply IH; [by apply (Hstep start)|].
  pose proof (from_seq_less (msgs ms) start k ltac:(by eexists) Hle). lia.
Qed.

(** ** Removal of a list *)

Lemma remove_all_ok l : forall ms, ms_ok ms -> exists ms', remove_all ms l = Some ms' /\ ms_ok ms' /\ frame ms ms' /\ msgs ms' = without l.*1 (msgs ms).
Proof.
  induction l as [|[k e] l IH]; intros ms Hok; [exists ms; split_and!; try done; by rewrite without_nil|]. cbn [remove_all fmap list_fmap fst].
  destruct (msgs ms !! k) as [sm|] eqn:Hk.
  - destruct (removeMsg_ok ms k sm Hok Hk) as (ms1&->&Hok1&Hm1&Hfr1). cbn [mbind option_bind]. destruct (IH ms1 Hok1) as (ms'&->&Hok'&Hfr'&Hm').
    exists ms'. split_and!; [done|done|by rewrite Hfr1|]. by rewrite Hm', Hm1, without_cons.
  - rewrite (removeMsg_none ms k Hk). cbn [mbind option_bind]. destruct (IH ms Hok) as (ms'&->&Hok'&Hfr'&Hm'). exists ms'. split_and!; try done.
    by rewrite Hm', without_cons, delete_id.
Qed.

(** ** The wheel *)

Definition wheel_ok ms : Prop := match Mem.ttls ms with Some w => tw_ok w | None => True end.
Definition wheel_tasks ms : gset (Z * Z) := match Mem.ttls ms with Some w => tw_tasks w | None => ∅ end.

(** The wheel of [ms'] is that of [ms] without tasks of messages that are gone. *)
Definition wheel_less ms ms' : Prop :=
  wheel_ok ms -> wheel_ok ms' /\ wheel_tasks ms' ⊆ wheel_tasks ms /\
    (forall k e, is_Some (msgs ms' !! k) -> (k, e) ∈ wheel_tasks ms -> (k, e) ∈ wheel_tasks ms').

#[global] Instance wheel_less_refl : Reflexive wheel_less.
Proof. intros ms Hw. by split_and!. Qed.

Lemma wheel_less_trans a b c : msgs c ⊆ msgs b -> wheel_less a b -> wheel_less b c -> wheel_less a c.
Proof.
  intros Hs H1 H2 Ha. destruct (H1 Ha) as (Hb&Hb1&Hb2), (H2 Hb) as (Hc&Hc1&Hc2). split_and!; [done|by etrans|].
  intros k e Hk Hin. apply Hc2; [done|]. apply Hb2; [|done]. destruct Hk as [sm Hk]. exists sm. by eapply lookup_weaken.
Qed.

Lemma wheel_same ms ms' : Mem.ttls ms' = Mem.ttls ms -> wheel_less ms ms'.
Proof. intros E Hw. unfold wheel_ok, wheel_tasks in *. by rewrite E. Qed.

Lemma updateFirstSeq_ttls ms k : Mem.ttls (updateFirstSeq ms k) = Mem.ttls ms.
Proof.
  unfold updateFirstSeq. destruct (negb _); [done|]. destruct (k0 ← _; _) as [nsm|]; by destruct (_ =? _).
Qed.

Lemma removeSeqPerSubject_ttls ms s k ms' : removeSeqPerSubject ms s k = Some ms' -> Mem.ttls ms' = Mem.ttls ms.
Proof.
  unfold removeSeqPerSubject. destruct (sm_Find (fss ms) s) as [ss|]; [|by intros [= <-]]. destruct (Msgs ss =? 1).
  - destruct (sm_Delete _ _); cbn; [by intros [= <-]|done].
  - destruct (sm_Insert _ _ _); cbn; [by intros [= <-]|done].
Qed.

Lemma removeMsg_wheel ms k ms' b : removeMsg ms k = Some (ms', b) -> msgs ms' !! k = None -> wheel_less ms ms'.
Proof.
  unfold removeMsg. destruct (msgs ms !! k) as [sm|] eqn:Hk; [|intros [= <- <-] _; done].
  set (ms1 := updateFirstSeq _ k). assert (Mem.ttls ms1 = Mem.ttls ms) as E1 by (unfold ms1; rewrite updateFirstSeq_ttls; cbn; by destruct (0 <? _)). clearbody ms1.
  destruct (removeSeqPerSubject ms1 (m_subj sm) k) as [ms2|] eqn:E2; [|done]. apply removeSeqPerSubject_ttls in E2. rewrite E1 in E2. cbn [mbind option_bind].
  intros [= <- _] Hgone Hw. set (ms3 := ttl_remove ms2 sm k) in *.
  match goal with |- context [notify ?x ?a ?b ?c ?d] => assert (Mem.ttls (notify x a b c d) = Mem.ttls ms3) as E4 by (unfold notify; destruct (scb x); done); set (ms4 := notify x a b c d) in * end.
  clearbody ms4. unfold wheel_ok, wheel_tasks in *. rewrite E4. unfold ms3, ttl_remove. rewrite E2. destruct (Mem.ttls ms) as [w|] eqn:Ew; [|by rewrite E2].
  destruct (getMessageTTL (m_hdr sm)) as [ttl|]; [|rewrite E2; by split_and!]. cbn [Mem.ttls Mem.with_ttls].
  destruct (tw_Remove w k (expires (m_ts sm) ttl)) as [w'|] eqn:Er; cbn [default]; [|by split_and!].
  destruct (tw_remove_other_law w k _ w' Hw Er) as (Hok'&e'&Et). cbn. rewrite Et. split_and!; [done|set_solver|].
  intros j e [x Hj] Hin. apply elem_of_difference. split; [done|]. intros [= -> ->]%elem_of_singleton. congruence.
Qed.

(** ** Delete markers *)

Lemma propose_same ms k sm now1 now2 : same_core ms (propose ms k sm now1 now2) /\ Mem.ttls (propose ms k sm now1 now2) = Mem.ttls ms.
Proof.
  unfold propose, shouldProcessSdmLocked. destruct (pending _ !! k) as [p|].
  - by destruct (_ <? _).
  - destruct (_ =? _); [done|]. destruct (trackPending _ _ _ _ _) as [s last]. done.
Qed.

Lemma propose_all_same clock l : forall ms sm i, wheel_ok ms -> let '(ms', _, _) := propose_all clock ms sm i l in same_core ms ms' /\ wheel_ok ms'.
Proof.
  induction l as [|[k e] l IH]; intros ms sm i Hw; [done|]. cbn [propose_all]. destruct (msgs ms !! k) as [x|].
  - destruct (propose_same ms k x (clock i) (clock (S i))) as [Hs Et]. set (ms1 := propose _ _ _ _ _) in *. clearbody ms1.
    specialize (IH ms1 (Some x) (S (S i)) ltac:(unfold wheel_ok in *; by rewrite Et)). destruct (propose_all _ _ _ _ _) as [[ms' ?] ?]. destruct IH as [IH1 IH2].
    split; [by etrans|done].
  - set (ms1 := Mem.with_ttls ms _). assert (same_core ms ms1) as Hs by done. assert (wheel_ok ms1) as Hw1.
    { unfold wheel_ok in *. cbn. destruct (Mem.ttls ms) as [w|]; [|done]. cbn. destruct (tw_Remove w k e) as [w'|] eqn:Er; [|done]. by destruct (tw_remove_other_law w k e w' Hw Er). }
    clearbody ms1. specialize (IH ms1 None i Hw1). destruct (propose_all _ _ _ _ _) as [[ms' ?] ?]. destruct IH as [IH1 IH2]. split; [by etrans|done].
Qed.

(** ** The loop for the maximum age *)

Section age.
Context (clock : nat -> Z) (age : Z).
(** The clock does not go back, and the times are in range. *)
Hypothesis clock_mono : forall i j, (i <= j)%nat -> clock i <= clock j.
Hypothesis clock_range : forall i, is_i64 (clock i - age).

(** What the loop from [start] with threshold [minAge] does: the messages that are gone were old
    enough at the last reading of the clock, and the old ones that stay never expire. *)
Record aged (minAge : Z) (start : Z) ms ms' (i' : nat) : Prop := {
  ag_ok : ms_ok ms';
  ag_frame : frame ms ms';
  ag_sub : msgs ms' ⊆ msgs ms;
  ag_gone : forall k sm, msgs ms !! k = Some sm -> msgs ms' !! k = None -> never_expires sm = false /\ m_ts sm <= clock i' - age;
  ag_left : sdmTTL (cfg ms) <= 0 -> times_ordered ms -> forall k sm, msgs ms' !! k = Some sm -> start <= k -> never_expires sm = true \/ minAge < m_ts sm;
  ag_wheel : wheel_less ms ms';
  ag_sdm : 0 < sdmTTL (cfg ms) -> msgs ms' = msgs ms;
}.

Lemma times_ordered_sub ms ms' : msgs ms' ⊆ msgs ms -> times_ordered ms -> times_ordered ms'.
Proof. intros Hs Ht j k sj sk Hj Hk. apply (Ht j k); by eapply lookup_weaken. Qed.

Lemma age_stop ms start minAge i r : ms_ok ms -> next_match ms (fun _ => true) start r ->
  match r with inl (sm, _) => minAge < m_ts sm | inr _ => True end -> aged minAge start ms ms i.
Proof.
  intros Hok Hr Hm. split; try done; [by intros k sm ->|]. intros _ Hto k sm Hk Hle. right. destruct r as [[sm0 k0]|skip].
  - destruct Hr as (Hk0&_&_&Hleast). pose proof (Hleast k sm Hk eq_refl Hle). pose proof (Hto k0 k sm0 sm Hk0 Hk). lia.
  - destruct Hr as [_ Hr]. pose proof (Hr k sm Hk eq_refl). lia.
Qed.

(** One message more, that stays. *)
Lemma age_keep ms ms1 ms' start minAge minAge1 i k sm : msgs ms !! k = Some sm -> start <= k -> (forall j sm', msgs ms !! j = Some sm' -> start <= j -> k <= j) ->
  same_core ms ms1 -> Mem.ttls ms1 = Mem.ttls ms -> minAge <= minAge1 -> (sdmTTL (cfg ms) <= 0 -> never_expires sm = true) ->
  aged minAge1 (k + 1) ms1 ms' i -> aged minAge start ms ms' i.
Proof.
  intros Hk Hle Hleast (E1&E2&E3&E4&E5&E6&E7&E8) Et Hmin Hn [Hok Hfr Hsub Hgone Hleft Hwh Hsd]. rewrite E2, E5 in *. split; try done.
  - destruct Hfr as (?&?&?&?&?). unfold frame. rewrite <- E1. by split_and!; congruence.
  - intros Hno Hto j x Hj Hsj. pose proof (Hleast j x ltac:(by eapply lookup_weaken) Hsj). destruct (decide (j = k)) as [->|Hne].
    + left. pose proof (lookup_weaken _ _ _ _ Hj Hsub). replace x with sm by congruence. by apply Hn.
    + destruct (Hleft Hno) with (k := j) (sm := x) as [?|?]; [|done|lia|by left|right; lia]. intros a b sa sb. rewrite E2. apply Hto.
  - eapply wheel_less_trans; [|by apply wheel_same|done]. by rewrite E2.
Qed.

(** One message more, that goes. *)
Lemma age_drop ms ms1 ms' start minAge minAge1 i0 i k sm : msgs ms !! k = Some sm -> (forall j sm', msgs ms !! j = Some sm' -> start <= j -> k <= j) ->
  msgs ms1 = delete k (msgs ms) -> frame ms ms1 -> wheel_less ms ms1 -> minAge <= minAge1 -> sdmTTL (cfg ms) <= 0 ->
  never_expires sm = false -> m_ts sm <= clock i0 - age -> (i0 <= i)%nat ->
  aged minAge1 (k + 1) ms1 ms' i -> aged minAge start ms ms' i.
Proof.
  intros Hk Hleast E2 Hfr1 Hwh1 Hmin Hno Hn Hts Hi [Hok Hfr Hsub Hgone Hleft Hwh Hsd]. pose proof Hfr1 as (Ecfg&_). rewrite E2, Ecfg in *.
  assert (msgs ms' ⊆ msgs ms) as Hs by (etrans; [exact Hsub|apply delete_subseteq]). split; try done.
  - by rewrite Hfr1.
  - intros j x Hj Hj'. destruct (decide (j = k)) as [->|Hne].
    + replace x with sm by congruence. split; [done|]. pose proof (clock_mono i0 i Hi). lia.
    + apply (Hgone j x); [|done]. by rewrite lookup_delete_ne.
  - intros _ Hto j x Hj Hsj. pose proof (Hleast j x ltac:(by eapply lookup_weaken) Hsj). assert (j <> k).
    { intros ->. pose proof (lookup_weaken _ _ _ _ Hj Hsub) as Hx. by rewrite lookup_delete_eq in Hx. }
    destruct (Hleft Hno) with (k := j) (sm := x) as [?|?]; [|done|lia|by left|right; lia]. eapply times_ordered_sub; [|exact Hto]. rewrite E2. apply delete_subseteq.
  - eapply wheel_less_trans; [|done|done]. by rewrite E2.
  - lia.
Qed.

Lemma age_loop_ok fuel : forall ms start i0 i, ms_ok ms -> MaxAge (cfg ms) = age -> (i0 <= i)%nat -> (size (from_seq start (msgs ms)) < fuel)%nat ->
  exists ms' o minAge' i', age_loop clock fuel ms start (clock i0 - age) i = Some (ms', o, minAge', i') /\ aged (clock i0 - age) start ms ms' i' /\ (i <= i')%nat.
Proof.
  induction fuel as [|fuel IH]; intros ms start i0 i Hok Hage Hi Hfuel; [lia|]. cbn [age_loop]. unfold LoadNextMsg. destruct (next_all ms start Hok) as (r&->&Hr). cbn [mbind option_bind].
  destruct r as [[sm k]|skip]; [|eexists _, _, _, _; split; [done|]; split; [by eapply age_stop|done]].
  destruct (Z.leb_spec (m_ts sm) (clock i0 - age)) as [Hold|Hnew]; cbn [negb]; [|eexists _, _, _, _; split; [done|]; split; [by eapply age_stop|done]].
  pose proof Hr as (Hk&_&Hle&Hleast). rewrite (next_seq ms k sm Hok Hk), Hage. pose proof (from_seq_less (msgs ms) start k ltac:(by eexists) Hle) as Hless.
  assert (forall j, i64 (clock j - age) = clock j - age) as Hi64 by (intros j; apply i64_small, clock_range). rewrite !Hi64.
  assert (forall j sm', msgs ms !! j = Some sm' -> start <= j -> k <= j) as Hl by (intros j sm' Hj; by apply (Hleast j sm' Hj)).
  destruct (never_expires sm) eqn:En; [|destruct (Z.ltb_spec 0 (sdmTTL (cfg ms))) as [Hsdm|Hsdm]].
  - destruct (IH ms (k + 1) i (S i) Hok Hage) as (ms'&o&ma&i'&->&Ha&Hi'); [lia|lia|]. eexists _, _, _, _. split; [done|]. split; [|lia].
    eapply (age_keep ms ms ms' start _ (clock i - age)); try done. pose proof (clock_mono i0 i Hi). lia.
  - destruct (propose_same ms k sm (clock i) (clock (S i))) as [Hs Et]. set (ms1 := propose _ _ _ _ _) in *. clearbody ms1. pose proof Hs as (_&Em&_&_&Ec&_).
    destruct (IH ms1 (k + 1) (S (S i)) (S (S (S i))) (same_core_ok _ _ Hs Hok)) as (ms'&o&ma&i'&->&Ha&Hi'); [congruence|lia|rewrite Em; lia|].
    eexists _, _, _, _. split; [done|]. split; [|lia]. eapply (age_keep ms ms1 ms' start _ (clock (S (S i)) - age)); try done; [|lia]. pose proof (clock_mono i0 (S (S i))). lia.
  - destruct (removeMsg_ok ms k sm Hok Hk) as (ms1&Er&Hok1&Hm1&Hfr1). rewrite Er. cbn [mbind option_bind].
    assert (wheel_less ms ms1) as Hwh by (eapply removeMsg_wheel; [done|]; rewrite Hm1; apply lookup_delete_eq). pose proof Hfr1 as (Ec&_).
    destruct (IH ms1 (k + 1) i (S i) Hok1) as (ms'&o&ma&i'&E&Ha&Hi'); [congruence|lia| |].
    { rewrite Hm1. eapply Nat.le_lt_trans; [apply map_subseteq_size|]; [|apply Nat.lt_succ_r, Nat.lt_succ_r in Hfuel; eapply Nat.lt_le_trans; [exact Hless|lia]].
      apply map_subseteq_spec. intros j x [Hj ?]%from_seq_lookup. apply lookup_delete_Some in Hj as [_ Hj]. by apply from_seq_lookup. }
    rewrite Ec, Hage, Hi64, E. eexists _, _, _, _. split; [done|]. split; [|lia]. eapply (age_drop ms ms1 ms' start _ (clock i - age) i0); try done; [|lia]. pose proof (clock_mono i0 i Hi). lia.
Qed.
End age.

(** ** A run of the timer *)

Lemma collect_run l : forall c, run_cb (fun (l : list (Z * Z)) seq ts => (l ++ [(seq, ts)], false, false)) l c = (c ++ l, []).
Proof.
  induction l as [|[k e] l IH]; intros c; cbn; [by rewrite app_nil_r|]. rewrite IH. by rewrite <- app_assoc.
Qed.

Lemma due_ok w now : tw_ok w -> let '(w', rm) := due_tasks w now in
  tw_ok w' /\ tw_tasks w' = tw_tasks w /\ forall p, p ∈ rm <-> p ∈ tw_tasks w /\ p.2 <= now.
Proof.
  intros Hw. unfold due_tasks. destruct (tw_expire_law (fun (l : list (Z * Z)) seq ts => (l ++ [(seq, ts)], false, false)) now w [] Hw) as (order&_&Ho&Hx).
  destruct (tw_ExpireTasks _ _ _ _) as [w' rm]. destruct Hx as (gone&E&Hok&Et). rewrite collect_run in E. injection E as <- <-. split_and!; [done| |done].
  rewrite Et. set_solver.
Qed.

(** The end of the run re-arms or cancels the timer. *)
Definition rearm ms (nextTTL : Z) (delta now ats : Z) : MS :=
  let ms := with_age ms (ageChk ms) false 0 in
  if (sMsgs (state ms) =? 0) && (nextTTL =? max_int64) then cancelAgeChk ms else resetAgeChk ms delta now ats.

Lemma resetAgeChk_ttls ms delta now ats : Mem.ttls (resetAgeChk ms delta now ats) = Mem.ttls ms.
Proof. unfold resetAgeChk. by repeat (case_match; try done). Qed.

Lemma rearm_same ms next delta now ats : same_core ms (rearm ms next delta now ats) /\ Mem.ttls (rearm ms next delta now ats) = Mem.ttls ms.
Proof.
  unfold rearm. set (ms1 := with_age _ _ _ _). assert (same_core ms ms1) as Hs by done. destruct (_ && _).
  - unfold cancelAgeChk. by destruct (ageChk ms1).
  - split; [etrans; [exact Hs|apply resetAgeChk_same]|by rewrite resetAgeChk_ttls].
Qed.

Lemma remove_all_wheel l : forall ms ms', ms_ok ms -> wheel_ok ms -> remove_all ms l = Some ms' -> wheel_ok ms'.
Proof.
  induction l as [|[k e] l IH]; intros ms ms' Hok Hw; [by intros [= <-]|]. cbn [remove_all]. destruct (msgs ms !! k) as [sm|] eqn:Hk.
  - destruct (removeMsg_ok ms k sm Hok Hk) as (ms1&Er&Hok1&Hm1&_). rewrite Er. cbn [mbind option_bind]. apply IH; [done|].
    eapply (removeMsg_wheel ms k ms1 true Er); [|done]. rewrite Hm1. apply lookup_delete_eq.
  - rewrite (removeMsg_none ms k Hk). by apply IH.
Qed.

(** What a run removes: when delete markers are off, the messages that are too old or whose TTL is
    over, and none of these stays. *)
Record expired (clock : nat -> Z) (n : nat) ms ms' : Prop := {
  ex_ok : ms_ok ms';
  ex_wheel : wheel_ok ms';
  ex_frame : frame ms ms';
  ex_sdm : 0 < sdmTTL (cfg ms) -> msgs ms' = msgs ms;
  ex_gone : forall k sm, msgs ms !! k = Some sm -> msgs ms' !! k = None ->
    (0 < MaxAge (cfg ms) /\ never_expires sm = false /\ m_ts sm <= clock n - MaxAge (cfg ms)) \/ (exists e, (k, e) ∈ wheel_tasks ms /\ e <= clock n);
  ex_left : forall k sm, msgs ms' !! k = Some sm -> msgs ms !! k = Some sm /\
    (sdmTTL (cfg ms) <= 0 -> (0 < MaxAge (cfg ms) -> times_ordered ms -> never_expires sm = true \/ clock 0%nat - MaxAge (cfg ms) < m_ts sm) /\
      forall e, (k, e) ∈ wheel_tasks ms -> clock 0%nat < e);
}.

(** The loop for the maximum age, when there is one. *)
Lemma age_phase ms clock : ms_ok ms -> (forall i j, (i <= j)%nat -> clock i <= clock j) -> (forall i, is_i64 (clock i - MaxAge (cfg ms))) ->
  let age := MaxAge (cfg ms) in
  exists ms1 o minAge i,
    (if 0 <? age then age_loop clock (S (size (msgs ms))) ms 0 (clock 0%nat - age) 1 else Some (ms, None, clock 0%nat - age, 1%nat)) = Some (ms1, o, minAge, i) /\
    (1 <= i)%nat /\ ms_ok ms1 /\ frame ms ms1 /\ wheel_less ms ms1 /\ (0 < sdmTTL (cfg ms) -> msgs ms1 = msgs ms) /\ msgs ms1 ⊆ msgs ms /\
    (forall k sm, msgs ms !! k = Some sm -> msgs ms1 !! k = None -> 0 < age /\ never_expires sm = false /\ m_ts sm <= clock i - age) /\
    (sdmTTL (cfg ms) <= 0 -> 0 < age -> times_ordered ms -> forall k sm, msgs ms1 !! k = Some sm -> never_expires sm = true \/ clock 0%nat - age < m_ts sm).
Proof.
  intros Hok Hmono Hrng age. destruct (Z.ltb_spec 0 age) as [Hp|Hp].
  - destruct (age_loop_ok clock age Hmono Hrng (S (size (msgs ms))) ms 0 0 1 Hok eq_refl) as (ms1&o&ma&i&E&[Ha1 Ha2 Ha3 Ha4 Ha5 Ha6 Ha7]&Hi); [lia|apply Nat.lt_succ_r, map_subseteq_size, from_seq_sub|].
    exists ms1, o, ma, i. split_and!; try done.
    + intros k sm Hk Hg. split; [done|]. by apply Ha4 with (k := k).
    + intros Hs _ Hto k sm Hk. apply (Ha5 Hs Hto k sm Hk). apply (ok_keys _ _ _ _ Ha1) in Hk as (_&_&?&_). lia.
  - exists ms, None, (clock 0%nat - age), 1%nat. split_and!; try done; [by intros k sm ->|lia].
Qed.

(** Reading the due tasks leaves the wheel as it is. *)
Definition wheel_due ms (age : Z) (clock : nat -> Z) (i : nat) : MS * Z * list (Z * Z) * nat :=
  match Mem.ttls ms with
  | None => (ms, max_int64, [], i)
  | Some w =>
      let '(w, rm) := due_tasks w (clock i) in
      (Mem.with_ttls ms (Some w),
       if 0 <? age then tw_GetNextExpiration w (i64 (clock (S i) + age)) else tw_GetNextExpiration w max_int64, rm, S (S i))
  end.

Lemma wheel_due_ok ms age clock i : wheel_ok ms -> let '(ms', _, rm, i') := wheel_due ms age clock i in
  same_core ms ms' /\ wheel_ok ms' /\ (i <= i')%nat /\ forall p, p ∈ rm <-> p ∈ wheel_tasks ms /\ p.2 <= clock i.
Proof.
  unfold wheel_due, wheel_ok, wheel_tasks. destruct (Mem.ttls ms) as [w|] eqn:E; intros Hw.
  - pose proof (due_ok w (clock i) Hw) as Hd. destruct (due_tasks w (clock i)) as [w' rm]. destruct Hd as (?&_&?). split_and!; try done. lia.
  - rewrite E. split_and!; try done. intros p. rewrite elem_of_nil. set_solver.
Qed.

Lemma expire_ok ms clock ats : ms_ok ms -> wheel_ok ms -> (forall i j, (i <= j)%nat -> clock i <= clock j) -> (forall i, is_i64 (clock i - MaxAge (cfg ms))) ->
  exists ms' n, expireMsgs ms clock ats = Some ms' /\ expired clock n ms ms'.
Proof.
  intros Hok Hw Hmono Hrng. unfold expireMsgs. rewrite (i64_small _ (Hrng 0%nat)). destruct (_ && _) eqn:Eh.
  { exists (resetAgeChk ms 0 (clock 1%nat) ats), 0%nat. split; [done|]. apply andb_true_iff in Eh as [Es%Z.ltb_lt _]. pose proof (resetAgeChk_same ms 0 (clock 1%nat) ats) as Hs.
    pose proof Hs as (_&Em&_). split; [by eapply same_core_ok|unfold wheel_ok; by rewrite resetAgeChk_ttls|by apply same_core_frame|by rewrite Em| |].
    - intros k sm Hk. rewrite Em. congruence.
    - intros k sm. rewrite Em. intros Hk. split; [done|lia]. }
  clear Eh. set (ms0 := with_age ms (ageChk ms) true (ageChkTime ms)).
  destruct (age_phase ms0 clock Hok Hmono Hrng) as (ms1&o&minAge&i&E&Hi&Hok1&Hfr1&Hwl1&Hsdm1&Hsub1&Hgone1&Hleft1). cbn [cfg ms0 with_age] in *. rewrite E. cbn [mbind option_bind]. clear E.
  destruct (Hwl1 Hw) as (Hw1&Hwsub&Hwleft). fold (wheel_due ms1 (MaxAge (cfg ms)) clock i). pose proof (wheel_due_ok ms1 (MaxAge (cfg ms)) clock i Hw1) as Hd.
  destruct (wheel_due ms1 _ clock i) as [[[ms2 next] rm] i2]. destruct Hd as (Hs2&Hw2&Hi2&Hrm). pose proof Hs2 as (_&Em2&_&_&Ec2&_). pose proof Hfr1 as (Ec1&_).
  assert (exists ms3 o3 i3, (if negb (0 <? sdmTTL (cfg ms2)) then ms ← remove_all ms2 rm; Some (ms, o, i2) else Some (propose_all clock ms2 o i2 (merge_sort entry_le rm))) = Some (ms3, o3, i3) /\
    ms_ok ms3 /\ wheel_ok ms3 /\ frame ms ms3 /\ msgs ms3 = if 0 <? sdmTTL (cfg ms) then msgs ms else without rm.*1 (msgs ms1)) as (ms3&o3&i3&->&Hok3&Hw3&Hfr3&Em3).
  { rewrite Ec2, Ec1. pose proof (same_core_ok _ _ Hs2 Hok1) as Hok2. cbn [cfg ms0 with_age]. assert (frame ms ms2) as Hfr2 by (transitivity ms1; [done|by apply same_core_frame]).
    destruct (Z.ltb_spec 0 (sdmTTL (cfg ms))) as [Hp|Hp]; cbn [negb].
    - pose proof (propose_all_same clock (merge_sort entry_le rm) ms2 o i2 Hw2) as Hpa. destruct (propose_all _ _ _ _ _) as [[ms3 o3] i3]. destruct Hpa as [Hs3 Hw3].
      exists ms3, o3, i3. pose proof Hs3 as (_&Em3&_). split_and!; [done|by eapply same_core_ok|done|by transitivity ms2; [|apply same_core_frame]|]. rewrite Em3, Em2. by apply Hsdm1.
    - destruct (remove_all_ok rm ms2 Hok2) as (ms3&Er&Hok3&Hfr3&Hm3). rewrite Er. exists ms3, o, i2. split_and!; [done|done|by eapply (remove_all_wheel rm ms2)|by transitivity ms2|]. by rewrite Hm3, Em2. }
  cbn [mbind option_bind]. fold (rearm ms3 next (match o3 with Some sm => i64 (m_ts sm - minAge) | None => 0 end) (clock i3) ats).
  destruct (rearm_same ms3 next (match o3 with Some sm => i64 (m_ts sm - minAge) | None => 0 end) (clock i3) ats) as [Hs4 Et4]. set (ms4 := rearm _ _ _ _ _) in *. clearbody ms4.
  pose proof Hs4 as (_&Em4&_). exists ms4, i. split; [done|].
  assert (forall k sm, msgs ms3 !! k = Some sm -> msgs ms1 !! k = Some sm /\ (sdmTTL (cfg ms) <= 0 -> k ∉ rm.*1)) as H31.
  { intros k sm. rewrite Em3. destruct (Z.ltb_spec 0 (sdmTTL (cfg ms))); [rewrite (Hsdm1 ltac:(done)); intros ?; split; [done|lia]|]. rewrite without_lookup. naive_solver. }
  split; [by eapply same_core_ok|unfold wheel_ok; by rewrite Et4|transitivity ms3; [done|by apply same_core_frame]| | |].
  - intros Hp. rewrite Em4, Em3. by destruct (Z.ltb_spec 0 (sdmTTL (cfg ms))); [|lia].
  - intros k sm Hk. rewrite Em4. intros Hg. destruct (msgs ms1 !! k) as [x|] eqn:Hk1; [|left; by apply (Hgone1 k sm)]. right. rewrite Em3 in Hg.
    destruct (0 <? sdmTTL (cfg ms)); [congruence|]. unfold without in Hg. apply map_lookup_filter_None in Hg as [Hg|Hg]; [congruence|]. specialize (Hg x Hk1). cbn in Hg.
    apply dec_stable in Hg. apply list_elem_of_fmap in Hg as ([k' e]&->&[Hin Hle]%Hrm). exists e. split; [by apply Hwsub|done].
  - intros k sm. rewrite Em4. intros Hk. destruct (H31 k sm Hk) as [Hk1 Hrm3]. split; [by eapply (lookup_weaken _ _ _ _ Hk1)|]. intros Hs. split; [intros Hp Hto; by apply (Hleft1 Hs Hp Hto k sm)|].
    intros e Hin. destruct (decide (clock 0%nat < e)); [done|]. destruct (Hrm3 Hs). apply list_elem_of_fmap. exists (k, e). split; [done|]. apply Hrm. split.
    + apply Hwleft; [by eexists|done].
    + cbn. pose proof (Hmono 0%nat i ltac:(lia)). lia.
Qed.

(** ** Configuration *)

Lemma recoverTTL_ok ms now ats : ms_ok ms -> exists ms', recoverTTLState ms now ats = Some ms' /\ same_core ms ms' /\ wheel_ok ms'.
Proof.
  intros Hok. unfold recoverTTLState. destruct (_ =? 0).
  { eexists. split; [done|]. split; [done|]. unfold wheel_ok. cbn. apply tw_new_law. }
  destruct (each_msg_ok (fun start w => tw_ok w /\ forall p, p ∈ tw_tasks w -> p.1 < start) ttl_entry ms (S (size (msgs ms))) Hok) with (start := 0) (c := tw_New (W := W)) as (s'&w&->&Hw&_).
  - intros start k sm w Hk Hle [Hw Hlt]. assert (tw_ok w /\ forall p, p ∈ tw_tasks w -> p.1 < k + 1) as Hkeep by (split; [done|]; intros p Hp%Hlt; lia).
    unfold ttl_entry. destruct (String.eqb _ _); [done|]. destruct (getMessageTTL _) as [ttl|]; [|done]. destruct (0 <? ttl); [|done].
    destruct (tw_add_law w k (expires (m_ts sm) ttl) Hw) as [Hw' Et].
    + apply (ok_keys _ _ _ _ Hok) in Hk as (_&Hr&?&_). pose proof ss_bound. destruct (ok_range _ _ _ _ Hok). unfold is_u64. lia.
    + apply i64_range.
    + intros ts Hin%Hlt. cbn in Hin. lia.
    + split; [done|]. rewrite Et. intros p [->%elem_of_singleton|Hp%Hlt]%elem_of_union; cbn; lia.
  - destruct (tw_new_law (W := W)) as [? ->]. split; [done|]. set_solver.
  - apply Nat.lt_succ_r, map_subseteq_size, from_seq_sub.
  - cbn [mbind option_bind]. eexists. split; [done|]. split; [etrans; [|apply resetAgeChk_same]; done|]. unfold wheel_ok. by rewrite resetAgeChk_ttls.
Qed.

Lemma recoverSched_ok ms now1 now2 : ms_ok ms -> exists ms', recoverMsgSchedulingState ms now1 now2 = Some ms' /\ same_core ms ms' /\ Mem.ttls ms' = Mem.ttls ms.
Proof.
  intros Hok. unfold recoverMsgSchedulingState. destruct (_ =? 0); [by eexists|].
  destruct (each_msg_ok (fun _ _ => True) schedule_entry ms (S (size (msgs ms))) Hok) with (start := 0) (c := newMsgScheduling (W := W)) as (s'&sc&->&_); [done|done| |].
  - apply Nat.lt_succ_r, map_subseteq_size, from_seq_sub.
  - cbn [mbind option_bind]. by eexists.
Qed.

Lemma toggle_ok ms now ats now1 now2 : ms_ok ms -> wheel_ok ms ->
  exists ms1 ms2, toggle_ttls ms now ats = Some ms1 /\ toggle_scheduling ms1 now1 now2 = Some ms2 /\ same_core ms ms2 /\ wheel_ok ms2.
Proof.
  intros Hok Hw. assert (exists ms1, toggle_ttls ms now ats = Some ms1 /\ same_core ms ms1 /\ wheel_ok ms1) as (ms1&E1&Hs1&Hw1).
  { unfold toggle_ttls. destruct (AllowMsgTTL (cfg ms)), (Mem.ttls ms) eqn:E; [by eexists|by apply recoverTTL_ok|by eexists|by eexists]. }
  assert (exists ms2, toggle_scheduling ms1 now1 now2 = Some ms2 /\ same_core ms1 ms2 /\ Mem.ttls ms2 = Mem.ttls ms1) as (ms2&E2&Hs2&Et2).
  { unfold toggle_scheduling. pose proof (same_core_ok _ _ Hs1 Hok). destruct (AllowMsgSchedules (cfg ms1)), (scheduling ms1); [by eexists|by apply recoverSched_ok|by eexists|by eexists]. }
  exists ms1, ms2. split_and!; [done|done|by etrans|]. unfold wheel_ok in *. by rewrite Et2.
Qed.

Lemma update_age_same ms : same_core ms (update_age ms) /\ Mem.ttls (update_age ms) = Mem.ttls ms.
Proof.
  unfold update_age. set (ms1 := match ageChk ms with Some _ => ms | None => _ end). assert (same_core ms ms1 /\ Mem.ttls ms1 = Mem.ttls ms) as [Hs1 Et1].
  { unfold ms1. destruct (ageChk ms); [done|]. destruct (_ =? 0); [done|]. split; [apply startAgeChk_same|]. unfold startAgeChk. destruct (ageChk ms); [done|]. by destruct (_ || _). }
  clearbody ms1. destruct (ageChk ms1); [|done]. by destruct (_ =? 0).
Qed.

Lemma removeMsg_wheel_ok ms k ms' b : ms_ok ms -> wheel_ok ms -> removeMsg ms k = Some (ms', b) -> wheel_ok ms' /\ ms_ok ms'.
Proof.
  intros Hok Hw E. destruct (msgs ms !! k) as [sm|] eqn:Hk.
  - destruct (removeMsg_ok ms k sm Hok Hk) as (ms1&E1&Hok1&Hm1&_). rewrite E in E1. injection E1 as <- ->. split; [|done].
    eapply (removeMsg_wheel ms k ms' true E); [|done]. rewrite Hm1. apply lookup_delete_eq.
  - rewrite (removeMsg_none ms k Hk) in E. by injection E as <- <-.
Qed.

Lemma enforce_loop_wheel over fuel : forall ms ms', ms_ok ms -> wheel_ok ms -> enforce_loop over fuel ms = Some ms' -> wheel_ok ms'.
Proof.
  induction fuel as [|fuel IH]; intros ms ms' Hok Hw; cbn [enforce_loop]; (destruct (over (state ms)); [|by intros [= <-]]); [done|].
  unfold deleteFirstMsgOrPanic, deleteFirstMsg. destruct (removeMsg ms (FirstSeq (state ms))) as [[ms1 []]|] eqn:E; cbn; [|done|done].
  destruct (removeMsg_wheel_ok ms _ ms1 true Hok Hw E). by apply IH.
Qed.

Lemma limits_wheel ms ms1 ms2 : ms_ok ms -> wheel_ok ms -> enforceMsgLimit ms = Some ms1 -> ms_ok ms1 -> enforceBytesLimit ms1 = Some ms2 -> wheel_ok ms2.
Proof.
  intros Hok Hw E1 Hok1 E2. assert (wheel_ok ms1) as Hw1.
  { unfold enforceMsgLimit in E1. destruct (negb _); [by injection E1 as <-|]. destruct (_ || _); [by injection E1 as <-|]. exact (enforce_loop_wheel _ _ ms ms1 Hok Hw E1). }
  unfold enforceBytesLimit in E2. destruct (negb _); [by injection E2 as <-|]. destruct (_ || _); [by injection E2 as <-|]. exact (enforce_loop_wheel _ _ ms1 ms2 Hok1 Hw1 E2).
Qed.

Lemma enforce_subject_wheel s fuel : forall ms ms', ms_ok ms -> wheel_ok ms -> enforce_subject fuel ms s = Some ms' -> wheel_ok ms'.
Proof.
  induction fuel as [|fuel IH]; intros ms ms' Hok Hw; cbn [enforce_subject]; [done|]. pose proof (ok_fss _ _ _ _ Hok) as (M&HM&Hf). rewrite (sm_Find_law _ _ _ HM).
  destruct (M !! s) as [ss|] eqn:Es; [|by intros [= <-]]. destruct (_ <? _); [|by intros [= <-]].
  destruct (refresh_ok ms M s ss Hok HM Hf Es) as (ms1&ss1&M1&Er&Hok1&_). assert (Mem.ttls ms1 = Mem.ttls ms) as Et.
  { unfold refresh in Er. destruct (_ || _); [|by injection Er as <- <-]. destruct (sm_Insert _ _ _); [|done]. by injection Er as <- <-. }
  rewrite Er. cbn [mbind option_bind]. assert (wheel_ok ms1) as Hw1 by (unfold wheel_ok in *; by rewrite Et).
  destruct (removeMsg ms1 (First ss1)) as [[ms2 []]|] eqn:E2; cbn; [| |done].
  - destruct (removeMsg_wheel_ok ms1 _ ms2 true Hok1 Hw1 E2). by apply IH.
  - intros [= <-]. by destruct (removeMsg_wheel_ok ms1 _ ms2 false Hok1 Hw1 E2).
Qed.

Lemma enforce_all_ok l : forall ms, ms_ok ms -> wheel_ok ms -> 0 < maxp ms -> Forall (fun sv => subj_count (msgs ms) sv.1 <= Msgs sv.2) l ->
  exists ms', enforce_all ms l = Some ms' /\ ms_ok ms' /\ wheel_ok ms' /\ frame ms ms' /\ msgs ms' ⊆ msgs ms /\
    forall s, s ∈ l.*1 -> subj_count (msgs ms') s <= maxp ms.
Proof.
  induction l as [|[s ss] l IH]; intros ms Hok Hw Hp Hl; [exists ms; split_and!; try done; by intros s ?%elem_of_nil|].
  apply Forall_cons in Hl as [Hs Hl]. cbn [fst snd] in Hs. cbn [enforce_all]. unfold enforcePerSubjectLimit. destruct (Z.leb_spec (maxp ms) 0); [lia|].
  destruct (enforce_subject_ok s (S (Z.to_nat (Msgs ss))) ms Hok Hp) as (ms1&c&E&Hok1&Hfr1&Hm1&Hc1&_); [unfold subj_count in *; lia|].
  rewrite E. cbn [mbind option_bind]. pose proof Hfr1 as (_&Emp&_). assert (msgs ms1 ⊆ msgs ms) as Hsub by (rewrite Hm1; apply map_filter_subseteq).
  destruct (IH ms1 Hok1 (enforce_subject_wheel s _ ms ms1 Hok Hw E)) as (ms'&->&Hok'&Hw'&Hfr'&Hsub'&Hc'); [lia| |].
  { eapply Forall_impl; [exact Hl|]. intros [s' ss']. cbn. intros Hs'. etrans; [by apply subj_count_mono|done]. }
  exists ms'. split_and!; [done|done|done|by rewrite Hfr1|by etrans|]. cbn [fmap list_fmap fst]. intros s' [->|Hin]%elem_of_cons.
  - etrans; [by apply subj_count_mono|done].
  - rewrite <- Emp. by apply Hc'.
Qed.

Lemma subjects_over_ok ms n : ms_ok ms -> 0 <= n ->
  Forall (fun sv => subj_count (msgs ms) sv.1 <= Msgs sv.2) (subjects_over ms n) /\ forall s, n < subj_count (msgs ms) s -> s ∈ (subjects_over ms n).*1.
Proof.
  intros Hok Hn. pose proof (ok_fss _ _ _ _ Hok) as (M&HM&Hf). destruct (sm_Iter_law _ _ HM) as (calls&Hc&Hi). unfold subjects_over. rewrite Hi.
  assert (forall l c, (until (fun l s ss => (if n <? Msgs ss then l ++ [(s, ss)] else l, true)) l c).1 = c ++ List.filter (fun sv => n <? Msgs sv.2) l) as Hu.
  { clear. induction l as [|[s ss] l IH]; intros c; cbn; [by rewrite app_nil_r|]. rewrite IH. destruct (n <? Msgs ss); [by rewrite <- app_assoc|done]. }
  rewrite Hu, app_nil_l. split.
  - apply Forall_forall. intros [s ss] [Hin%list_elem_of_In _]%list_elem_of_In%filter_In. rewrite Hc, elem_of_map_to_list in Hin. cbn. by rewrite (so_count _ _ _ (proj1 Hf _ _ Hin)).
  - intros s Hs. destruct (proj2 (at_subj_count (msgs ms) s)) as (k&sm&Hk&<-); [unfold subj_count in Hs; lia|]. destruct (proj2 Hf k sm Hk) as [ss HMs].
    apply list_elem_of_fmap. exists (m_subj sm, ss). split; [done|]. apply list_elem_of_In, filter_In. split; [by apply list_elem_of_In; rewrite Hc; apply elem_of_map_to_list|].
    apply Z.ltb_lt. cbn. by rewrite (so_count _ _ _ (proj1 Hf _ _ HMs)).
Qed.

Lemma runMsgScheduling_same prepare ms now now1 now2 :
  same_core ms (MemAdmin.runMsgScheduling prepare ms now now1 now2) /\ Mem.ttls (MemAdmin.runMsgScheduling prepare ms now now1 now2) = Mem.ttls ms.
Proof.
  unfold MemAdmin.runMsgScheduling. destruct (scheduling ms) as [sc|]; [|done]. destruct (Sched.runMsgScheduling _ _ _ _ _ _ _ _) as [sc' out].
  set (ms1 := Mem.with_scheduling ms (Some sc')). assert (same_core ms ms1 /\ Mem.ttls ms1 = Mem.ttls ms) as Hs by done. clearbody ms1. revert ms1 Hs.
  induction out as [|o out IH]; intros ms1 [Hs Et]; [done|]. cbn [fold_left]. apply IH. split; [|done]. by etrans; [exact Hs|].
Qed.

(** What [UpdateConfig] leaves: messages of the store before, within the new limits. *)
Record configured (c : StreamConfig) ms ms' : Prop := {
  cf_ok : ms_ok ms';
  cf_wheel : wheel_ok ms';
  cf_cfg : cfg ms' = c /\ maxp ms' = Z.max (-1) (MaxMsgsPer c) /\ closed ms' = closed ms /\ LastSeq (state ms') = LastSeq (state ms);
  cf_sub : msgs ms' ⊆ msgs ms;
  cf_limits : is_old ms' = true -> over_msgs (MaxMsgs c) (msgs ms') = false /\ over_bytes (MaxBytes c) (msgs ms') = false;
  cf_subj : 0 < MaxMsgsPer c -> maxp ms = 0 \/ MaxMsgsPer c < maxp ms -> forall s, subj_count (msgs ms') s <= MaxMsgsPer c;
}.

Lemma newest_fits over m : (forall a b, a ⊆ b -> over b = false -> over a = false) -> over ∅ = false -> over (newest over m) = false.
Proof.
  intros Hmono H0. destruct (oldest (newest over m)) as [[k sm]|] eqn:E; pose proof (oldest_spec (newest over m)) as Ho; rewrite E in Ho.
  - destruct Ho as [Hk Hmin]. pose proof Hk as Hk'. unfold newest in Hk'. apply map_lookup_filter_Some in Hk' as [_ Hov]. cbn in Hov. eapply Hmono; [|exact Hov].
    apply map_subseteq_spec. intros j x Hj. apply from_seq_lookup. split; [|by apply Hmin; eexists]. unfold newest in Hj. by apply map_lookup_filter_Some in Hj as [? _].
  - by rewrite Ho.
Qed.

Lemma limits_phase ms : ms_ok ms -> wheel_ok ms -> exists ms1 ms2, enforceMsgLimit ms = Some ms1 /\ enforceBytesLimit ms1 = Some ms2 /\
  ms_ok ms2 /\ wheel_ok ms2 /\ frame ms ms2 /\ msgs ms2 ⊆ msgs ms /\
  (is_old ms = true -> over_msgs (MaxMsgs (cfg ms)) (msgs ms2) = false /\ over_bytes (MaxBytes (cfg ms)) (msgs ms2) = false).
Proof.
  intros Hok Hw. destruct (enforceMsgLimit_ok ms Hok) as (ms1&E1&Hok1&Hfr1&Hm1), (enforceBytesLimit_ok ms1 Hok1) as (ms2&E2&Hok2&Hfr2&Hm2).
  exists ms1, ms2. pose proof Hfr1 as (Ec1&_). assert (is_old ms1 = is_old ms) as Eo by (by apply frame0_old, frame_frame0). rewrite Eo, Ec1 in Hm2.
  assert (forall over m, newest over m ⊆ m) as Hns by (intros; apply map_filter_subseteq).
  assert (over_msgs (MaxMsgs (cfg ms)) ∅ = false /\ over_bytes (MaxBytes (cfg ms)) ∅ = false) as [Hm0 Hb0].
  { unfold over_msgs, over_bytes. rewrite map_size_empty. change (total ∅) with 0. split; apply andb_false_iff; rewrite !Z.ltb_ge; lia. }
  split_and!; [done|done|done|by eapply (limits_wheel ms ms1)|by rewrite Hfr1| |].
  - rewrite Hm2, Hm1. destruct (is_old ms); [|done]. etrans; apply Hns.
  - intros Ho. rewrite Hm2, Hm1, Ho. split.
    + eapply over_msgs_mono; [apply Hns|]. apply newest_fits; [apply over_msgs_mono|done].
    + apply newest_fits; [apply over_bytes_mono|done].
Qed.

(** The per-subject limit, when it is new or smaller. *)
Lemma subject_phase ms old : ms_ok ms -> wheel_ok ms ->
  exists ms', (if (0 <? maxp ms) && ((old =? 0) || (maxp ms <? old)) then enforce_all ms (subjects_over ms (maxp ms)) else Some ms) = Some ms' /\
    ms_ok ms' /\ wheel_ok ms' /\ frame ms ms' /\ msgs ms' ⊆ msgs ms /\ (0 < maxp ms -> old = 0 \/ maxp ms < old -> forall s, subj_count (msgs ms') s <= maxp ms).
Proof.
  intros Hok Hw. destruct (_ && _) eqn:E.
  - apply andb_true_iff in E as [Hp%Z.ltb_lt _]. destruct (subjects_over_ok ms (maxp ms) Hok ltac:(lia)) as [Hl Hs].
    destruct (enforce_all_ok _ ms Hok Hw Hp Hl) as (ms'&->&Hok'&Hw'&Hfr&Hsub&Hc). exists ms'. split_and!; try done. intros _ _ s.
    destruct (decide (maxp ms < subj_count (msgs ms) s)) as [Hlt|Hge]; [by apply Hc, Hs|]. etrans; [by apply subj_count_mono|lia].
  - exists ms. split_and!; try done. intros Hp Ho. apply andb_false_iff in E as [?%Z.ltb_ge|[?%Z.eqb_neq ?%Z.ltb_ge]%orb_false_iff]; lia.
Qed.

Lemma UpdateConfig_ok prepare ms c clock late ats : ms_ok ms -> wheel_ok ms -> (forall i j, (i <= j)%nat -> clock i <= clock j) -> (forall i, is_i64 (clock i - MaxAge c)) ->
  exists ms', UpdateConfig prepare ms c clock late ats = Some ms' /\ configured c ms ms'.
Proof.
  intros Hok Hw Hmono Hrng. unfold UpdateConfig. destruct (toggle_ok (with_cfg ms c) (clock 0%nat) ats (clock 1%nat) (clock 2%nat) Hok Hw) as (ms0&ms1&->&E1&Hs1&Hw1).
  cbn [mbind option_bind]. rewrite E1. cbn [mbind option_bind]. pose proof Hs1 as (Est1&Em1&_&_&Ec1&Ep1&Ecl1&_). cbn in Est1, Em1, Ec1, Ep1, Ecl1.
  destruct (limits_phase ms1 (same_core_ok (with_cfg ms c) ms1 Hs1 Hok) Hw1) as (msa&ms2&->&E2&Hok2&Hw2&Hfr2&Hsub2&Hlim2). cbn [mbind option_bind]. rewrite E2. cbn [mbind option_bind].
  destruct (update_age_same ms2) as [Hs3 Et3]. set (ms3 := update_age ms2) in *. clearbody ms3. pose proof Hs3 as (Est3&Em3&_&_&Ec3&Ep3&Ecl3&_). pose proof Hfr2 as (Ec2&Ep2&Ecl2&_&El2).
  set (ms4 := with_maxp ms3 _). assert (ms_ok ms4) as Hok4 by exact (same_core_ok _ _ Hs3 Hok2). assert (wheel_ok ms4) as Hw4 by (unfold wheel_ok in *; cbn; by rewrite Et3).
  destruct (subject_phase ms4 (maxp ms3) Hok4 Hw4) as (ms5&->&Hok5&Hw5&Hfr5&Hsub5&Hsubj5). cbn [mbind option_bind]. pose proof Hfr5 as (Ec5&Ep5&Ecl5&_&El5). cbn in Ec5, Ep5, Ecl5, El5, Hsub5.
  assert (cfg ms5 = c) as Ecfg5 by congruence.
  assert (exists ms6, (if negb (MaxAge c =? 0) || AllowMsgTTL c then expireMsgs ms5 (fun i => clock (3 + i)%nat) ats else Some ms5) = Some ms6 /\ ms_ok ms6 /\ wheel_ok ms6 /\ frame ms5 ms6 /\ msgs ms6 ⊆ msgs ms5)
    as (ms6&->&Hok6&Hw6&Hfr6&Hsub6).
  { destruct (_ || _); [|by exists ms5]. destruct (expire_ok ms5 (fun i => clock (3 + i)%nat) ats Hok5 Hw5) as (ms6&n&->&[]); [intros; apply Hmono; lia|by rewrite Ecfg5|].
    exists ms6. split_and!; try done. apply map_subseteq_spec. intros k sm Hk. by apply ex_left0 in Hk as [? _]. }
  cbn [mbind option_bind]. assert (exists ms7, (if AllowMsgSchedules c then MemAdmin.runMsgScheduling prepare ms6 (late 0%nat) (late 1%nat) (late 2%nat) else ms6) = ms7 /\ same_core ms6 ms7 /\ Mem.ttls ms7 = Mem.ttls ms6)
    as (ms7&->&Hs7&Et7) by (destruct (AllowMsgSchedules c); [eexists; split; [done|]; apply runMsgScheduling_same|by eexists]).
  exists ms7. split; [done|]. pose proof Hs7 as (Est7&Em7&_&_&Ec7&Ep7&Ecl7&_). pose proof Hfr6 as (Ec6&Ep6&Ecl6&_&El6).
  assert (msgs ms7 ⊆ msgs ms2) as Hsub72 by (rewrite Em7, <- Em3; by etrans).
  split; [by eapply same_core_ok|unfold wheel_ok in *; by rewrite Et7|split_and!; [congruence|rewrite Ep7, Ep6, Ep5; done|congruence|rewrite Est7, El6, El5; cbn; by rewrite Est3, El2, Est1]| | |].
  - etrans; [exact Hsub72|]. rewrite <- Em1. done.
  - intros Ho. destruct Hlim2 as [H1 H2]; [unfold is_old in *; by replace (cfg ms1) with (cfg ms7) by congruence|]. rewrite Ec1 in H1, H2.
    split; [by eapply over_msgs_mono|by eapply over_bytes_mono].
  - intros Hp Hold s. etrans; [apply subj_count_mono; rewrite Em7; exact Hsub6|]. cbn in Hsubj5. rewrite Z.max_r in Hsubj5 by lia. apply Hsubj5; [done|]. rewrite Ep3, Ep2, Ep1. done.
Qed.

(** ** Synchronisation *)

Lemma sync_blocks_ok lseq dbs : forall ms, ms_ok ms -> LastSeq (state ms) = lseq ->
  exists ms', sync_blocks ms lseq dbs = Some ms' /\ ms_ok ms' /\ frame ms ms' /\
    msgs ms' = without (concat ((fun b => if lseq <? (block_state b).1.1 then [] else block_seqs b) <$> dbs)) (msgs ms).
Proof.
  induction dbs as [|b dbs IH]; intros ms Hok Hl; [exists ms; split_and!; try done; by rewrite without_nil|]. cbn [sync_blocks fmap list_fmap concat].
  destruct (lseq <? _); [by apply IH|]. unfold remove_seqs. destruct (remove_all_ok ((fun k => (k, 0)) <$> block_seqs b) ms Hok) as (ms1&->&Hok1&Hfr1&Hm1). cbn [mbind option_bind].
  pose proof Hfr1 as (_&_&_&_&El). destruct (IH ms1 Hok1 ltac:(congruence)) as (ms'&->&Hok'&Hfr'&Hm'). exists ms'. split_and!; [done|done|by rewrite Hfr1|].
  rewrite Hm', Hm1. apply map_eq. intros j. apply option_eq. intros sm. rewrite !without_lookup, not_elem_of_app. rewrite <- list_fmap_compose.
  replace (fst ∘ (fun k : Z => (k, 0)) <$> block_seqs b) with (block_seqs b); [tauto|]. symmetry. apply list_fmap_id.
Qed.
End admin.
