(* ===== verification/MemStoreWheel.v ===== *)
(** * Memory store: the TTL wheel

    Every operation of the store keeps the invariant of its timer wheel. *)

From S2P Require Import Prelude Subject HashWheelProofs Scheduler SchedulerProofs MemStore MemStoreQuery MemStoreAdmin MemStoreProofs MemStoreOps MemStoreQueryProofs MemStoreFilter MemStoreLast MemStoreAdminProofs.
Import Sched Mem MemQuery MemAdmin.

Section wheel.
Context {F D W : Type} `{HF : SubjectMap F SimpleState} `{HFL : !SubjectMapLaws F SimpleState} `{HD : SeqSetI D} `{HDL : !SeqSetLaws D}
  `{HW : TimerWheel W} `{HWL : !TimerWheelLaws W} `{HH : Headers}.
Notation MS := (memStore F D W).
Implicit Types (ms : MS).

Definition same_ttls ms ms' : Prop := Mem.ttls ms' = Mem.ttls ms.

Lemma same_wheel ms ms' : same_ttls ms ms' -> wheel_ok ms -> wheel_ok ms'.
Proof. unfold same_ttls, wheel_ok. by intros ->. Qed.

Lemma notify_ttls ms a b k s : same_ttls ms (notify ms a b k s).
Proof. unfold same_ttls, notify. by destruct (scb ms). Qed.

(** ** Storing *)

Lemma put_msg_ttls ms s h m k t : same_ttls ms (put_msg ms s h m k t).
Proof. unfold same_ttls, put_msg. by destruct (sMsgs (state ms) =? 0). Qed.

Lemma discard_new_ttls ms s h m ss a ms' r : discard_new ms s h m ss a = Some (ms', r) -> same_ttls ms ms'.
Proof.
  unfold discard_new, same_ttls. destruct (_ && _ && _); [by intros [= <- <-]|]. destruct (_ && _ && _); [by intros [= <- <-]|]. destruct (_ && _); [|by intros [= <- <-]].
  destruct ss as [ss|]; [|by intros [= <- <-]]. destruct (negb a); [by intros [= <- <-]|]. unfold refresh. destruct (_ || _); cbn [mbind option_bind].
  - destruct (sm_Insert _ _ _) as [f|]; cbn [mbind option_bind]; [|done]. destruct (_ !! _) as [sm|]; [|by intros [= <- <-]]. by destruct (_ <? _); intros [= <- <-].
  - destruct (_ !! _) as [sm|]; [|by intros [= <- <-]]. by destruct (_ <? _); intros [= <- <-].
Qed.

Lemma track_subject_wheel ms s h m t ms' : ms_ok ms -> trackable s = true -> fits ms s h m -> wheel_ok ms ->
  track_subject (put_msg ms s h m (LastSeq (state ms) + 1) t) s (LastSeq (state ms) + 1) = Some ms' -> wheel_ok ms'.
Proof.
  intros Hok Ht Hfit Hw. destruct (put_track_ok ms s h m t Hok Ht Hfit) as (ss&f&->&Hok1&_). set (ms1 := with_fss _ f) in *.
  assert (wheel_ok ms1) as Hw1 by (eapply same_wheel; [|exact Hw]; exact (put_msg_ttls ms s h m _ t)). clearbody ms1.
  destruct (_ && _); [|by intros [= <-]]. unfold enforcePerSubjectLimit. destruct (_ <=? 0); [by intros [= <-]|]. by apply enforce_subject_wheel.
Qed.

Lemma track_ttl_wheel ms k t ttl now ats : is_u64 k -> wheel_ok ms -> wheel_ok (track_ttl ms k t ttl now ats).
Proof.
  intros Hk Hw. assert (forall ms, same_ttls ms (startAgeChk ms)) as Hst by (intros x; unfold same_ttls, startAgeChk; destruct (ageChk x); [done|]; by destruct (_ || _)).
  unfold track_ttl. destruct (Mem.ttls ms) as [w|] eqn:E.
  - destruct (0 <? ttl); [|by apply (same_wheel ms)]. unfold wheel_ok in *. rewrite resetAgeChk_ttls. cbn. rewrite E in Hw. apply tw_add_ok_law; [done|done|apply i64_range].
  - destruct (0 <? _); [by apply (same_wheel ms)|done].
Qed.

Lemma storeRawMsg_wheel ms s h m k t ttl dn now ats ms' r : ms_ok ms -> wheel_ok ms -> trackable s = true -> fits ms s h m ->
  storeRawMsg ms s h m k t ttl dn now ats = Some (ms', r) -> wheel_ok ms'.
Proof.
  intros Hok Hw Ht Hfit. pose proof ss_bound as Hsb. unfold storeRawMsg. destruct (closed ms); [by intros [= <- <-]|].
  pose proof (ok_fss _ _ _ _ Hok) as (M&HM&Hf). assert (String.eqb s "" = false) as -> by (by destruct s). rewrite (sm_Find_law _ _ _ HM), (at_limit_ok ms M s Hf).
  assert (exists ms1 e, (if dn && negb (is_old ms) then discard_new ms s h m (M !! s) (at_limit ms s) else Some (ms, None)) = Some (ms1, e) /\
    ms_ok ms1 /\ msgs ms1 = msgs ms /\ state ms1 = state ms /\ wheel_ok ms1) as (ms1&e&->&Hok1&Hm1&Hst1&Hw1).
  { destruct (dn && _); [|by eexists _, _]. destruct (discard_new_ok ms s h m M Hok Hfit HM Hf) as (ms1&E&?&?&?&_). exists ms1, (over_new ms s h m). split_and!; try done.
    eapply same_wheel; [by eapply discard_new_ttls|done]. }
  cbn [mbind option_bind]. destruct e as [e|]; [by intros [= <- <-]|]. assert (fits ms1 s h m) as Hfit1 by (unfold fits; rewrite Hst1, Hm1; done).
  rewrite u64_small by (destruct Hfit1, Hok1; unfold is_u64; lia). destruct (negb _ && _); [by intros [= <- <-]|].
  destruct (track_subject_ok ms1 s h m t Hok1 Ht Hfit1) as (ms2&E2&Hok2&_). pose proof (track_subject_wheel ms1 s h m t ms2 Hok1 Ht Hfit1 Hw1 E2) as Hw2. rewrite E2. cbn [mbind option_bind].
  destruct (enforceMsgLimit_ok ms2 Hok2) as (ms3&E3&Hok3&_). rewrite E3. cbn [mbind option_bind]. destruct (enforceBytesLimit_ok ms3 Hok3) as (ms4&E4&Hok4&_). rewrite E4. cbn [mbind option_bind].
  pose proof (limits_wheel ms2 ms3 ms4 Hok2 Hw2 E3 Hok3 E4) as Hw4. intros [= <- _]. eapply (same_wheel (track_ttl ms4 _ t ttl now ats)); [unfold same_ttls, track_schedule; by destruct (scheduling _)|].
  apply track_ttl_wheel; [|done]. destruct Hfit1, Hok1. unfold is_u64. lia.
Qed.

(** ** Purging *)

Lemma drop_fold_ttls l : forall ms p b r, fold_left drop_seq l (Some (ms, p, b)) = Some r -> same_ttls ms r.1.1.
Proof.
  induction l as [|k l IH]; intros ms p b r; cbn [fold_left]; [by intros [= <-]|]. unfold drop_seq at 2. cbn [mbind option_bind]. destruct (msgs ms !! k) as [sm|].
  - destruct (removeSeqPerSubject ms (m_subj sm) k) as [ms1|] eqn:E; cbn [mbind option_bind].
    + intros Hr%IH. unfold same_ttls in *. rewrite Hr. cbn. by eapply removeSeqPerSubject_ttls.
    + assert (forall l, fold_left (drop_seq (F := F) (D := D) (W := W)) l None = None) as -> by (clear; by induction l). done.
  - intros Hr%IH. unfold same_ttls in *. rewrite Hr. by destruct (ss_IsEmpty _).
Qed.

Lemma purge_ttls ms fseq : same_ttls ms (purge ms fseq).1.
Proof. unfold purge. destruct (_ && _); [done|]. cbn [fst]. unfold same_ttls. by rewrite notify_ttls. Qed.

Lemma compact_ttls ms k ms' r : compact ms k = Some (ms', r) -> same_ttls ms ms'.
Proof.
  unfold compact. destruct (_ =? 0); [pose proof (purge_ttls ms 0) as Hp; unfold Purge; destruct (purge ms 0); by intros [= <- <-]|]. destruct (_ <? _); [by intros [= <- <-]|]. destruct (_ <=? _).
  - destruct (_ =? 0); [done|]. destruct (fold_left _ _ _) as [[[ms1 p] b]|] eqn:E; cbn [mbind option_bind]; [|done]. apply drop_fold_ttls in E. cbn [fst] in E.
    unfold subtract. intros [= <- _]. unfold same_ttls in *. rewrite notify_ttls. cbn. rewrite E. by destruct (k0 ← _; _).
  - intros [= <- _]. unfold same_ttls. by rewrite notify_ttls.
Qed.

Lemma Truncate_ttls ms k now ms' : Truncate ms k now = Some ms' -> same_ttls ms ms'.
Proof.
  unfold Truncate. destruct (_ =? 0); [intros [= <-]; unfold reset, same_ttls; by rewrite notify_ttls|].
  destruct (fold_left _ _ _) as [[[ms1 p] b]|] eqn:E; cbn [mbind option_bind]; [|done]. apply drop_fold_ttls in E. cbn [fst] in E.
  unfold subtract. intros [= <-]. unfold same_ttls in *. rewrite notify_ttls. cbn. by rewrite E.
Qed.

Lemma Stop_ttls ms : same_ttls ms (Stop ms).
Proof.
  unfold Stop. destruct (closed ms); [done|]. unfold Purge, same_ttls. rewrite purge_ttls. by destruct (ageChk ms).
Qed.

Lemma SkipMsgs_ttls ms seq num ats : same_ttls ms (SkipMsgs ms seq num ats).1.
Proof. unfold SkipMsgs. destruct (_ && _); [done|]. by destruct (_ =? 0). Qed.

Lemma purge_loop_wheel subject max l : forall ms purged ms' n, ms_ok ms -> wheel_ok ms -> purge_loop ms l subject purged max = Some (ms', n) -> wheel_ok ms'.
Proof.
  induction l as [|k l IH]; intros ms purged ms' n Hok Hw; cbn [purge_loop]; [by intros [= <- <-]|]. destruct (msgs ms !! k) as [sm|] eqn:Hk; [|by apply IH].
  destruct (compareFn _ _); [|by apply IH]. destruct (removeMsg ms (m_seq sm)) as [[ms1 ok]|] eqn:E; cbn [mbind option_bind]; [|done].
  destruct (removeMsg_wheel_ok ms _ ms1 ok Hok Hw E). destruct ok; [|by apply IH]. destruct (_ <=? _); [by intros [= <- <-]|by apply IH].
Qed.

Lemma filtered_ttls msg_range ms sseq flt lastPer ms' ss : filteredStateLocked msg_range ms sseq flt lastPer = Some (ms', ss) -> same_ttls ms ms'.
Proof.
  unfold filteredStateLocked. destruct (_ <? _); [by intros [= <- <-]|]. destruct (_ && _); [by intros [= <- <-]|]. destruct (sm_MatchUntil _ _ _ _) as [w ?].
  destruct (write_all _ _); cbn [mbind option_bind]; [by intros [= <- <-]|done].
Qed.

Lemma loadNext_ttls ms filter wc start ms' r : LoadNextMsg ms filter wc start = Some (ms', r) -> same_ttls ms ms'.
Proof.
  unfold LoadNextMsg, loadNextMsgLocked. destruct (_ || _); [by intros [= <- <-]|]. destruct (shouldLinearScan _ _ _ _); cbn [mbind option_bind]; [by intros [= <- <-]|].
  destruct wc.
  - unfold nextWildcardMatchLocked. destruct (sm_MatchUntil _ _ _ _) as [[[[fnd first] last] w] ?]. destruct (write_all _ _); cbn [mbind option_bind]; [|done].
    destruct fnd; by intros [= <- <-].
  - unfold nextLiteralMatchLocked. destruct (sm_Find _ _); cbn [mbind option_bind]; [|by intros [= <- <-]]. destruct (sm_Insert _ _ _); cbn [mbind option_bind]; [|done].
    destruct (_ <? _); by intros [= <- <-].
Qed.

Lemma loadLast_ttls msg_range ms subject ms' r : LoadLastMsg msg_range ms subject = Some (ms', r) -> same_ttls ms ms'.
Proof.
  unfold LoadLastMsg, loadLastLocked. destruct (_ || _); [by intros [= <- <-]|]. destruct (Subj.subjectIsLiteral subject).
  - destruct (sm_Find _ _) as [ss|]; [|by intros [= <- <-]]. destruct (0 <? _); [|by intros [= <- <-]]. destruct (lastNeedsUpdate ss); [|by intros [= <- <-]].
    destruct (sm_Insert _ _ _); cbn [mbind option_bind]; [by intros [= <- <-]|done].
  - destruct (filteredStateLocked _ _ _ _ _) as [[ms1 ss]|] eqn:E; cbn [mbind option_bind]; [|done]. apply filtered_ttls in E. by intros [= <- <-].
Qed.

Lemma PurgeEx_subject_wheel msg_range ms subject sequence keep ms' r : (forall m, msg_range m ≡ₚ (map_to_list m).*2) ->
  ms_ok ms -> wheel_ok ms -> subjects_literal ms -> is_all subject = false -> filter_ok ms subject -> PurgeEx msg_range ms subject sequence keep = Some (ms', r) -> wheel_ok ms'.
Proof.
  intros Hrange Hok Hw Hlit Ha Hfl. unfold PurgeEx, FilteredState. fold (is_all subject). rewrite Ha. destruct (is_all_filter subject Ha) as [Eq _].
  destruct (filtered_ok msg_range Hrange ms 1 subject Hok Hlit) as (ms1&ss&E&(Hok1&_)&_); [by rewrite Eq|]. rewrite E. cbn [mbind option_bind].
  pose proof (same_wheel _ _ (filtered_ttls _ _ _ _ _ _ _ E) Hw) as Hw1. destruct (0 <? Msgs ss); [|by intros [= <- <-]]. destruct (_ && _); [by intros [= <- <-]|].
  destruct (purge_loop _ _ _ _ _) as [[ms2 n]|] eqn:Ep; cbn [mbind option_bind]; [|done]. intros [= <- <-]. by eapply (purge_loop_wheel subject).
Qed.
End wheel.
