(* ===== verification/MemStoreInst.v ===== *)
(** * Memory store: the components it is made of

    The subject tree (src/server/stree), the sequence set (src/server/avl) and the timer wheel
    (src/server/thw) as instances of the interfaces of the store, with their laws. *)

From Stdlib Require Import Ascii.
From S2P Require Import Prelude SeqSet SeqSetProofs SeqSetSpec HashWheel Scheduler SchedulerProofs SchedulerSpec Subject SubjectTree SubjectTreeStore SubjectTreeProofs SubjectTreeSpec SubjectTreeMatch SubjectTreeMatchProofs SubjectTreeMatchSpec MemStore MemStoreProofs.

(** ** Subject tree *)

#[export] Instance stree_map {V : Type} : SubjectMap (Stree.SubjectTree V) V := {
  sm_New := Stree.NewSubjectTree;
  sm_Find t s := Stree.Find t (bytes_of s);
  sm_Insert t s v := fst <$> Stree.Insert t (bytes_of s) v;
  sm_Delete t s := fst <$> Stree.Delete t (bytes_of s);
  sm_Size := Stree.Size;
  sm_MatchUntil C cb t filter c := StreeMatch.MatchUntil (fun c s v => cb c (StreeMatch.bytesToString s) v) t (bytes_of filter) c;
  sm_IterFast C cb t c := Stree.IterFast (fun c s v => cb c (StreeMatch.bytesToString s) v) t c;
}.

#[local] Instance bytes_inj : Inj (=) (=) bytes_of.
Proof. intros a b H. rewrite <- (bytes_to_of a), <- (bytes_to_of b). by rewrite H. Qed.

Section stree.
Context {V : Type}.
Implicit Types (t : Stree.SubjectTree V) (M : gmap string V).

(** The map by strings as a map by bytes. *)
Definition by_bytes M : gmap (list ascii) V := fin_maps.kmap bytes_of M.
Definition tree_rep t M : Prop := tree_ok t (by_bytes M).

Lemma by_bytes_lookup M s : by_bytes M !! bytes_of s = M !! s.
Proof. apply lookup_kmap, _. Qed.
Lemma by_bytes_lookup_bytes M b : by_bytes M !! b = M !! StreeMatch.bytesToString b.
Proof. rewrite <- (bytes_of_to b) at 1. apply by_bytes_lookup. Qed.

Lemma trackable_ok s : trackable s = true -> s <> ""%string /\ no_del (bytes_of s).
Proof.
  unfold trackable. intros [H1%negb_true_iff%String.eqb_neq H2%negb_true_iff]%andb_true_iff. split; [done|].
  change "127"%char with Stree.noPivot in H2. rewrite no_del_bool in H2. apply negb_false_iff, bool_decide_eq_true in H2. done.
Qed.

(** A walk of the tree is one over strings. *)
Lemma visit_until {C} (cb : C -> string -> V -> C * bool) l : forall c,
  visit (fun c s v => cb c (StreeMatch.bytesToString s) v) l c = until cb (prod_map StreeMatch.bytesToString id <$> l) c.
Proof. induction l as [|[s v] l IH]; intros c; [done|]. cbn. destruct (cb c _ v) as [c' []]; [apply IH|done]. Qed.

Lemma elem_of_strings (l : list (list ascii * V)) s v : (s, v) ∈ prod_map StreeMatch.bytesToString id <$> l <-> (bytes_of s, v) ∈ l.
Proof.
  rewrite list_elem_of_fmap. split.
  - intros ([b w]&[= -> ->]&Hin). by rewrite bytes_of_to.
  - intros Hin. exists (bytes_of s, v). split; [|done]. cbn. by rewrite bytes_to_of.
Qed.

Lemma strings_NoDup (l : list (list ascii * V)) : NoDup l -> NoDup (prod_map StreeMatch.bytesToString id <$> l).
Proof.
  apply NoDup_fmap_2. intros [b1 v1] [b2 v2] [= E ->]. f_equal. rewrite <- (bytes_of_to b1), <- (bytes_of_to b2). by rewrite E.
Qed.

Lemma stree_match_law t M filter : tree_rep t M -> good_filter filter = true -> map_Forall (fun s _ => Subj.IsValidLiteralSubject s = true) M ->
  exists calls, NoDup calls /\ (forall s v, (s, v) ∈ calls <-> M !! s = Some v /\ Subj.matchLiteral s filter = true) /\
    forall (C : Type) (cb : C -> string -> V -> C * bool) c, sm_MatchUntil cb t filter c = until cb calls c.
Proof.
  intros Ht Hf Hlit. cbn [sm_MatchUntil stree_map]. unfold StreeMatch.MatchUntil. destruct (Stree.root t) as [n|] eqn:E.
  - assert (node_ok n) as Hn by (destruct Ht as [Hr _]; rewrite E in Hr; apply Hr).
    destruct (sel_entries t _ n (fun s => Subj.matchLiteral (StreeMatch.bytesToString s) filter) Ht E) as [Hnd Hin]. set (l := sel _ (entries n)) in *.
    exists (prod_map StreeMatch.bytesToString id <$> l). split_and!; [by apply strings_NoDup| |].
    + intros s v. rewrite elem_of_strings, Hin, by_bytes_lookup, bytes_to_of. done.
    + intros C cb c. destruct filter as [|a filter]; [done|]. cbn [length Nat.eqb bytes_of]. rewrite <- visit_until.
      change (a :: bytes_of filter) with (bytes_of (String a filter)). rewrite (match_node _ n (String a filter) [] c Hn Hf); [apply visit_prod_nil|].
      intros s v Hs%elem_of_entries; [|done]. destruct Ht as [Hr _]. rewrite E in Hr. destruct Hr as [_ Hr]. rewrite Hr, by_bytes_lookup_bytes in Hs.
      apply literal_no_empty. exact (Hlit _ _ Hs).
  - assert (by_bytes M = ∅) as Em by (destruct Ht as [Hr _]; by rewrite E in Hr). exists []. split_and!; [by apply NoDup_nil| |done].
    intros s v. rewrite elem_of_nil, <- by_bytes_lookup, Em, lookup_empty. naive_solver.
Qed.

Lemma by_bytes_list M : map_to_list (by_bytes M) ≡ₚ prod_map bytes_of id <$> map_to_list M.
Proof. apply map_to_list_kmap, _. Qed.

Lemma stree_iter_law t M : tree_rep t M -> exists calls, calls ≡ₚ map_to_list M /\
  forall (C : Type) (cb : C -> string -> V -> C * bool) c, sm_IterFast cb t c = (until cb calls c).1.
Proof.
  intros Ht. cbn [sm_IterFast stree_map]. unfold Stree.IterFast. destruct (Stree.root t) as [n|] eqn:E.
  - assert (node_ok n) as Hn by (destruct Ht as [Hr _]; rewrite E in Hr; apply Hr). exists (prod_map StreeMatch.bytesToString id <$> entries n). split.
    + rewrite (tree_entries t _ n Ht E), by_bytes_list, <- list_fmap_compose. rewrite <- (list_fmap_id (map_to_list M)) at 2. apply Permutation_refl', list_fmap_ext.
      intros _ [s v] _. cbn. by rewrite bytes_to_of.
    + intros C cb c. by rewrite iter_fast, visit_prod_nil, visit_until.
  - assert (by_bytes M = ∅) as Em by (destruct Ht as [Hr _]; by rewrite E in Hr). apply (kmap_empty_iff bytes_of) in Em as ->. exists []. split; [by rewrite map_to_list_empty|done].
Qed.
End stree.

#[export] Program Instance stree_map_laws {V : Type} : SubjectMapLaws (Stree.SubjectTree V) V := {
  sm_rep := tree_rep;
  sm_filter filter := good_filter filter = true;
}.
Next Obligation. intros V. unfold tree_rep, by_bytes. rewrite kmap_empty. apply new_tree_ok. Qed.
Next Obligation.
  intros V t M s Ht. cbn. destruct (tree_op_ok t _ (SFind (bytes_of s)) Ht) as (t'&[= <- E]&_). cbn in E. by rewrite by_bytes_lookup in E.
Qed.
Next Obligation.
  intros V t M s v Ht [_ Hd]%trackable_ok. cbn. destruct (insert_tree_ok t _ (bytes_of s) v Ht) as (t'&->&Ht'). cbn [map_op] in Ht'. rewrite decide_True in Ht' by done.
  exists t'. split; [done|]. unfold tree_rep, by_bytes in *. rewrite (kmap_insert bytes_of). exact Ht'.
Qed.
Next Obligation.
  intros V t M s Ht [Hne _]%trackable_ok. cbn. destruct (delete_tree_ok t _ (bytes_of s) Ht) as (t'&->&Ht'). cbn [map_op] in Ht'. rewrite decide_False in Ht' by (by destruct s).
  exists t'. split; [done|]. unfold tree_rep, by_bytes in *. rewrite (kmap_delete bytes_of). exact Ht'.
Qed.
Next Obligation. intros V t M [_ Hs]. cbn. rewrite Hs. f_equal. by rewrite <- !length_map_to_list, by_bytes_list, length_fmap. Qed.
Next Obligation. intros V t M filter. apply stree_match_law. Qed.
Next Obligation. intros V t M. apply stree_iter_law. Qed.

(** ** Sequence set *)

Import Avl.

#[export] Instance seq_set : SeqSetI SequenceSet := {
  ss_New := new_set;
  ss_Insert := Insert;
  ss_Delete d k := (Delete d k).1;
  ss_Exists := Exists_;
  ss_IsEmpty := IsEmpty;
  ss_Empty := Empty;
  ss_Range C := Range;
  ss_State := State;
}.

Definition set_rep (d : SequenceSet) (X : gset Z) : Prop := wf_set d /\ dense (root d) /\ model d = X.

(** The tree has no empty nodes, so it is empty when the set is. *)
Lemma set_empty d : dense (root d) -> IsEmpty d = bool_decide (model d = ∅).
Proof.
  intros Hd. unfold IsEmpty, model. destruct (root d) as [|base bits l r h]; [done|]. symmetry. apply bool_decide_eq_false.
  apply dense_Node in Hd as (_&Hn&_). destruct (node_elems base bits) as [|x xs] eqn:E; [done|]. intros Hm.
  assert (x ∈ (∅ : gset Z)) as []%elem_of_empty. rewrite <- Hm, elem_of_list_to_set, elems_Node, E. set_solver.
Qed.

#[export] Program Instance seq_set_laws : SeqSetLaws SequenceSet := {
  ss_rep := set_rep;
  seq_max := seq_limit;
}.
Next Obligation. done. Qed.
Next Obligation. split_and!; [apply new_set_wf|by apply Forall_nil|done]. Qed.
Next Obligation. intros d X k (Hw&Hd&<-) Hk. destruct (Insert_ok d k Hw Hk) as (?&?&?). split_and!; auto. Qed.
Next Obligation. intros d X k (Hw&Hd&<-). cbn. pose proof (Delete_ok d k Hw) as Hx. destruct (Delete d k) as [d' f]. destruct Hx as (?&?&_&?). split_and!; auto. Qed.
Next Obligation. intros d X (Hw&Hd&<-). by apply set_empty. Qed.
Next Obligation. intros d X (Hw&_&_). split_and!; [|by apply Forall_nil|done]. destruct Hw. by split. Qed.
