(* ===== verification/MemStoreSpec.v ===== *)
(** * Memory store: properties

    The store made of the subject tree, the sequence set and the timer wheel behaves like a log of
    messages: every operation on a reachable store returns, changes the log as stated and keeps
    the totals, the per-subject state and the deleted sequences in agreement with the messages;
    the loads and totals are those of the log. *)

From Stdlib Require Import Ascii.
From S2P Require Import Prelude SeqSet SeqSetProofs SeqSetSpec HashWheel HashWheelProofs Subject SubjectSpec SubjectTree SubjectTreeMatch SubjectTreeMatchSpec Scheduler SchedulerProofs SchedulerSpec MemStore MemStoreQuery MemStoreAdmin MemStoreProofs MemStoreOps MemStoreQueryProofs MemStoreFilter MemStoreLast MemStoreAdminProofs MemStoreWheel MemStoreInst.
Import Sched Mem MemQuery MemAdmin.

(** ** Subjects and filters *)

(** A subject that the tree keeps and whose tokens do not begin like a wildcard. *)
Definition plain_subject (s : string) : bool :=
  trackable s && forallb (fun t => match t with String c _ => negb (Subj.is_wc c) | EmptyString => false end) (Subj.split s).

Lemma plain_tokens s : plain_subject s = true -> trackable s = true /\ literal (Subj.split s) /\ Forall clean_tok (Subj.split s).
Proof.
  intros [Ht Hs]%andb_true_iff. split; [done|]. rewrite forallb_forall in Hs. split; apply Forall_forall; intros t Hin%list_elem_of_In%Hs; (destruct t as [|c r]; [done|]); apply negb_true_iff in Hin.
  - split_and!; [done| |]; intros [= -> ->]; done.
  - by right; right.
Qed.

Lemma plain_literal s : plain_subject s = true -> Subj.IsValidLiteralSubject s = true.
Proof.
  intros (_&Hl&_)%plain_tokens. unfold Subj.IsValidLiteralSubject. induction Hl as [|t l (Hne&Hp&Hf) _ IH]; [done|]. destruct t as [|c [|d t]]; [done| |done].
  cbn. destruct (Subj.is_wc c) eqn:E; [|done]. unfold Subj.is_wc in E. apply orb_true_iff in E as [->%Ascii.eqb_eq| ->%Ascii.eqb_eq]; done.
Qed.

Lemma tok_match_self l : literal l -> forall p, existsb wild_tok p = false -> Subj.tok_match p l = true <-> p = l.
Proof.
  induction 1 as [|t l Ht _ IH]; intros [|u p]; try done. cbn [existsb]. intros [[Hu1 Hu2]%orb_false_iff Hp]%orb_false_iff. cbn [Subj.tok_match].
  rewrite Hu1 || rewrite Hu2. rewrite ?Hu1, ?Hu2. cbn [orb]. rewrite andb_true_iff, (IH p Hp), String.eqb_eq. naive_solver.
Qed.

Lemma literal_match_eq l : literal l -> forall x, Subj.tok_match l x = true -> x = l.
Proof.
  induction 1 as [|t l (_&Hp&Hf) _ IH]; intros [|u x]; try done. cbn [Subj.tok_match]. rewrite (proj2 (String.eqb_neq _ _) Hp), (proj2 (String.eqb_neq _ _) Hf). cbn [orb].
  intros [->%String.eqb_eq Hm]%andb_true_iff. by rewrite (IH x Hm).
Qed.

Lemma literal_match_refl l : literal l -> Subj.tok_match l l = true.
Proof.
  induction 1 as [|t l (_&Hp&Hf) _ IH]; [done|]. cbn [Subj.tok_match]. rewrite (proj2 (String.eqb_neq _ _) Hp), (proj2 (String.eqb_neq _ _) Hf), String.eqb_refl. done.
Qed.

Lemma good_filter_pat q : good_filter q = true -> good_pat (Subj.split q).
Proof.
  unfold good_filter. intros Hq. split.
  - induction (Subj.split q) as [|t ts IH]; [by constructor|]. cbn in Hq. apply andb_true_iff in Hq as [[Ht _]%andb_true_iff Hts]. constructor; [|by apply IH].
    unfold good_token in Ht. apply andb_true_iff in Ht as [Hne [[->%String.eqb_eq| ->%String.eqb_eq]%orb_true_iff|Hw]%orb_true_iff]; [by left|by right; left|].
    right. right. destruct t as [|c r]; [done|]. cbn in Hw. by apply andb_true_iff in Hw as [?%negb_true_iff _].
  - by apply (good_tokens_ok _ Hq (split_no_sep q)).
Qed.

(** The matching of the totals and that of the tree agree. *)
Lemma plain_match s q : plain_subject s = true -> good_filter q = true -> isMatch q s = Subj.matchLiteral s q.
Proof.
  intros (_&Hl&Hc)%plain_tokens Hq. pose proof (good_filter_pat q Hq) as Hg. pose proof Hg as [_ Hlast].
  rewrite matchLiteral_ok; [|by eapply Forall_impl; [exact Hl|]; intros t (?&_)|done]. unfold isMatch. destruct (String.eqb_spec q Subj.fwcs) as [->|_].
  { pose proof (split_not_nil s). by destruct (Subj.split s). }
  rewrite subjectHasWildcard_ok. destruct (existsb wild_tok (Subj.split q)) eqn:E; cbn [negb].
  - destruct (Subj.isSubsetMatchTokenized (Subj.split s) (Subj.split q)) eqn:Es; symmetry.
    + eapply subset_sound; [by apply literal_good|done|done|by apply literal_match_refl].
    + destruct (fresh_tok (Subj.split q)) as (f&Hf&Hn). destruct (subset_complete _ (Subj.split q) f (literal_good _ Hl Hc) Hg Hf Hn Es) as (lit&_&H1&H2).
      apply literal_match_eq in H1 as ->; done.
  - apply eq_true_iff_eq. rewrite (tok_match_self _ Hl _ E), String.eqb_eq. split; [by intros ->|]. intros ?%split_inj. done.
Qed.

(** ** The store *)

(** The order in which Go ranges over [ms.msgs], and the messages of the schedules. *)
Class StoreEnv (F D W : Type) : Type := {
  msg_range : gmap Z StoreMsg -> list StoreMsg;
  msg_range_perm : forall m, msg_range m ≡ₚ (map_to_list m).*2;
  prepare : memStore F D W -> StoreMsg -> Z -> option Z;
}.

Notation Store := (memStore (Stree.SubjectTree SimpleState) Avl.SequenceSet Thw.HashWheel).

Inductive mem_op : Type :=
| OStore (s h m : string) (ttl now ats : Z)
| OStoreRaw (s h m : string) (seq ts ttl : Z) (discardNewCheck : bool) (now ats : Z)
| ORemove (k : Z)
| OErase (k : Z)
| OSkip (seq ats : Z)
| OSkips (seq num ats : Z)
| OPurge
| OCompact (k : Z)
| OTruncate (k now : Z)
| OPurgeEx (subject : string) (sequence keep : Z)
| OStop
| OExpire (clock : nat -> Z) (ats : Z)
| OConfig (c : StreamConfig) (clock late : nat -> Z) (ats : Z)
| OSync (dbs : list (DeleteBlock (D := Avl.SequenceSet)))
| OLoadNext (filter : string) (wc : bool) (start : Z)
| OLoadLast (subject : string)
| OPending (sseq : Z) (filter : string).

Inductive mem_res : Type := RNone | RErr (e : store_error) | RNum (n : Z) | RStored (seq ts : Z) | RBool (b : bool).

Definition res_num (r : store_error + Z) : mem_res := match r with inl e => RErr e | inr n => RNum n end.
Definition res_err (r : option store_error) : mem_res := match r with Some e => RErr e | None => RNone end.

Section spec.
Context `{HR : MapRange} `{HH : Headers} `{HE : !StoreEnv (Stree.SubjectTree SimpleState) Avl.SequenceSet Thw.HashWheel}.
Implicit Types (ms : Store).

Definition mem_run ms (o : mem_op) : option (Store * mem_res) :=
  match o with
  | OStore s h m ttl now ats => '(ms, r) ← StoreMsg_ ms s h m ttl now ats; Some (ms, match r with inl e => RErr e | inr (k, t) => RStored k t end)
  | OStoreRaw s h m seq ts ttl dn now ats => '(ms, r) ← StoreRawMsg ms s h m seq ts ttl dn now ats; Some (ms, res_err r)
  | ORemove k => '(ms, b) ← RemoveMsg ms k; Some (ms, RBool b)
  | OErase k => '(ms, b) ← EraseMsg ms k; Some (ms, RBool b)
  | OSkip seq ats => let '(ms, r) := SkipMsg ms seq ats in Some (ms, res_num r)
  | OSkips seq num ats => let '(ms, r) := SkipMsgs ms seq num ats in Some (ms, res_err r)
  | OPurge => let '(ms, r) := Purge ms in Some (ms, res_num r)
  | OCompact k => '(ms, r) ← Compact ms k; Some (ms, res_num r)
  | OTruncate k now => ms ← Truncate ms k now; Some (ms, RNone)
  | OPurgeEx subject sequence keep => '(ms, r) ← PurgeEx msg_range ms subject sequence keep; Some (ms, res_num r)
  | OStop => Some (Stop ms, RNone)
  | OExpire clock ats => ms ← expireMsgs ms clock ats; Some (ms, RNone)
  | OConfig c clock late ats => ms ← UpdateConfig prepare ms c clock late ats; Some (ms, RNone)
  | OSync dbs => ms ← SyncDeleted ms dbs; Some (ms, RNone)
  | OLoadNext filter wc start => '(ms, _) ← LoadNextMsg ms filter wc start; Some (ms, RNone)
  | OLoadLast subject => '(ms, _) ← LoadLastMsg msg_range ms subject; Some (ms, RNone)
  | OPending sseq filter => '(ms, _) ← NumPending msg_range ms sseq filter false; Some (ms, RNone)
  end.

(** A clock that does not go back, with times in range for the age [age]. *)
Definition clock_ok (clock : nat -> Z) (age : Z) : Prop :=
  (forall i j, (i <= j)%nat -> clock i <= clock j) /\ (forall i, is_i64 (clock i - age)).

(** Sequences stay below the largest that the sequence set can hold, and the sum of the sizes
    below 2^64. *)
Definition mem_ok ms (o : mem_op) : Prop :=
  let room n := LastSeq (state ms) + n < seq_limit in
  match o with
  | OStore s h m _ _ _ => plain_subject s = true /\ fits ms s h m
  | OStoreRaw s h m seq _ _ _ _ _ => plain_subject s = true /\ fits ms s h m
  | ORemove _ | OErase _ | OSync _ => True
  | OSkip _ _ => room 2
  | OSkips _ num _ => 0 <= num /\ room (num + 1)
  | OPurge => room 1
  | OCompact k => closed ms = false /\ 0 <= k < seq_limit /\ room 1
  | OTruncate k _ => (k = 0 /\ closed ms = false) \/ 0 < k <= LastSeq (state ms)
  | OPurgeEx subject sequence keep =>
      if is_all subject then closed ms = false /\ 0 <= sequence < seq_limit /\ 0 <= keep /\ room 1 else good_filter subject = true /\ 0 <= keep
  | OStop => room 1
  | OExpire clock _ => clock_ok clock (MaxAge (cfg ms))
  | OConfig c clock _ _ => clock_ok clock (MaxAge c)
  | OLoadNext filter wc _ => wc = true -> filter <> ""%string -> good_filter filter = true
  | OLoadLast subject => is_all subject = false -> good_filter subject = true
  | OPending _ filter => filter <> ""%string -> good_filter filter = true
  end.

(** What the operations of the log are. *)
Definition log ms : gmap Z StoreMsg * Z * bool := (msgs ms, LastSeq (state ms), closed ms).
Definition unchanged ms ms' : Prop := log ms' = log ms.

Definition log_store ms (s h m : string) (seq ts : Z) (dn : bool) (done_ : mem_res) ms' (r : mem_res) : Prop :=
  let k := LastSeq (state ms) + 1 in
  match refused ms s h m seq dn with
  | Some e => unchanged ms ms' /\ r = RErr e
  | None => log ms' = (kept ms s (<[k := mkMsg s h m k ts]> (msgs ms)), k, closed ms) /\ r = done_
  end.

Definition log_remove ms (k : Z) ms' (r : mem_res) : Prop :=
  log ms' = (delete k (msgs ms), LastSeq (state ms), closed ms) /\ r = RBool (bool_decide (is_Some (msgs ms !! k))).

Definition log_skip ms (seq num : Z) (done_ : mem_res) ms' (r : mem_res) : Prop :=
  if negb (seq =? LastSeq (state ms) + 1) && (0 <? seq) then unchanged ms ms' /\ r = RErr ErrSequenceMismatch
  else log ms' = (msgs ms, LastSeq (state ms) + num, closed ms) /\ r = done_.

Definition log_purge ms ms' (r : mem_res) : Prop := log ms' = (∅, LastSeq (state ms), closed ms) /\ r = RNum (num_msgs ms).

Definition log_compact ms (k : Z) ms' (r : mem_res) : Prop :=
  if k =? 0 then log_purge ms ms' r
  else log ms' = (from_seq k (msgs ms), if k <? FirstSeq (state ms) then LastSeq (state ms) else Z.max (LastSeq (state ms)) (k - 1), closed ms) /\
    r = RNum (num_msgs ms - num_msgs ms').

(** With a filter the oldest matching messages go, as many as are over [keep], and none from
    [sequence] on. *)
Definition log_purge_ex ms (subject : string) (sequence keep : Z) ms' (r : mem_res) : Prop :=
  if is_all subject then
    if (keep =? 0) && (sequence =? 0) then log_purge ms ms' r
    else if 1 <? sequence then log_compact ms sequence ms' r
    else if (0 <? keep) && (keep <? num_msgs ms) then log_compact ms (LastSeq (state ms) - keep + 1) ms' r
    else unchanged ms ms' /\ r = RNum 0
  else
    let p s := Subj.matchLiteral s subject in
    let purged := num_msgs ms - num_msgs ms' in
    let max := Z.max 0 (num_pending p 0 (msgs ms) - keep) in
    exists b, log ms' = (drop_below p b (msgs ms), LastSeq (state ms), closed ms) /\ r = RNum purged /\
      purged <= max /\ (1 < sequence -> b <= sequence) /\ (purged = max \/ (1 < sequence /\ b = sequence)).

Definition log_sync ms (dbs : list DeleteBlock) ms' : Prop :=
  (exists b, dbs = [b] /\ block_state b = Avl.State (dmap ms) /\ ms' = ms) \/
  log ms' = (without (concat ((fun b => if LastSeq (state ms) <? (block_state b).1.1 then [] else block_seqs b) <$> dbs)) (msgs ms), LastSeq (state ms), closed ms).

Definition log_step ms (o : mem_op) ms' (r : mem_res) : Prop :=
  match o with
  | OStore s h m ttl now ats => let k := LastSeq (state ms) + 1 in log_store ms s h m k now true (RStored k now) ms' r
  | OStoreRaw s h m seq ts ttl dn now ats => log_store ms s h m seq ts dn RNone ms' r
  | ORemove k | OErase k => log_remove ms k ms' r
  | OSkip seq ats => log_skip ms seq 1 (RNum (LastSeq (state ms) + 1)) ms' r
  | OSkips seq num ats => log_skip ms seq num RNone ms' r
  | OPurge => log_purge ms ms' r
  | OCompact k => log_compact ms k ms' r
  | OTruncate k now => log ms' = (if k =? 0 then ∅ else to_seq k (msgs ms), k, closed ms) /\ r = RNone
  | OPurgeEx subject sequence keep => log_purge_ex ms subject sequence keep ms' r
  | OStop => log ms' = (if closed ms then msgs ms else ∅, LastSeq (state ms), true) /\ r = RNone
  | OExpire clock ats => (exists n, expired clock n ms ms') /\ r = RNone
  | OConfig c _ _ _ => configured c ms ms' /\ r = RNone
  | OSync dbs => log_sync ms dbs ms' /\ r = RNone
  | OLoadNext _ _ _ | OLoadLast _ | OPending _ _ => unchanged ms ms' /\ r = RNone
  end.

(** The invariant. *)
Definition mem_inv ms : Prop := ms_ok ms /\ wheel_ok ms /\ (forall k sm, msgs ms !! k = Some sm -> plain_subject (m_subj sm) = true).

Inductive mem_reach : Store -> Prop :=
| reach_new c ms : 0 <= cfgFirstSeq c < seq_limit -> newMemStore c = inr ms -> mem_reach ms
| reach_op ms o ms' r : mem_reach ms -> mem_ok ms o -> mem_run ms o = Some (ms', r) -> mem_reach ms'.

(** ** One step *)

(** An operation returns, keeps the invariant, and does what the log says. *)
Definition steps ms (o : mem_op) : Prop := exists ms' r, mem_run ms o = Some (ms', r) /\ mem_inv ms' /\ log_step ms o ms' r.

Lemma inv_sub ms ms' : mem_inv ms -> ms_ok ms' -> wheel_ok ms' -> msgs ms' ⊆ msgs ms -> mem_inv ms'.
Proof. intros (_&_&Hp) Hok Hw Hs. split_and!; [done|done|]. intros k sm Hk. apply (Hp k). by eapply lookup_weaken. Qed.

Lemma inv_literal ms : mem_inv ms -> subjects_literal ms.
Proof. intros (_&_&Hp) k sm Hk. by apply plain_literal, (Hp k). Qed.

Lemma inv_filter ms q : mem_inv ms -> good_filter q = true -> filter_ok ms q.
Proof. intros (_&_&Hp) Hq. split; [done|]. intros k sm Hk. apply plain_match; [by apply (Hp k)|done]. Qed.

Lemma log_frame0 ms ms' : frame0 ms ms' -> closed ms' = closed ms.
Proof. by intros (_&_&?&_). Qed.

Lemma kept_sub ms s m : kept ms s m ⊆ m.
Proof.
  unfold kept, kept_subj. assert (forall over m, newest over m ⊆ m) as Hn by (intros; apply map_filter_subseteq).
  assert ((if 0 <? maxp ms then newest_subj s (maxp ms) m else m) ⊆ m) as H0 by (destruct (0 <? maxp ms); [apply map_filter_subseteq|done]).
  destruct (is_old ms); [|done]. etrans; [apply Hn|]. etrans; [apply Hn|done].
Qed.

(** Both ways to store. *)
Lemma store_step ms s h m seq ts ttl dn now ats : mem_inv ms -> plain_subject s = true -> fits ms s h m ->
  exists ms' r, storeRawMsg ms s h m seq ts ttl dn now ats = Some (ms', r) /\ r = refused ms s h m seq dn /\ mem_inv ms' /\
    forall done_, log_store ms s h m seq ts dn done_ ms' (match r with Some e => RErr e | None => done_ end).
Proof.
  intros Hinv Hs Hfit. pose proof Hinv as (Hok&Hw&Hp). pose proof (plain_tokens s Hs) as (Ht&_).
  destruct (storeRawMsg_ok ms s h m seq ts ttl dn now ats Hok Ht Hfit) as (ms'&E&Hok'&Hfr&Hr). exists ms', (refused ms s h m seq dn). split; [done|]. split; [done|].
  pose proof (storeRawMsg_wheel ms s h m seq ts ttl dn now ats ms' _ Hok Hw Ht Hfit E) as Hw'. unfold log_store, unchanged, log. rewrite (log_frame0 _ _ Hfr).
  destruct (refused ms s h m seq dn) as [e|].
  - destruct Hr as [Em Est]. rewrite Em, Est. split; [|done]. by apply (inv_sub ms); [| | |rewrite Em].
  - destruct Hr as [Em El]. rewrite Em, El. split; [|done]. split_and!; [done|done|]. intros k x Hx. rewrite Em in Hx.
    pose proof (lookup_weaken _ _ _ _ Hx (kept_sub _ _ _)) as [[<- <-]|[_ Hx']]%lookup_insert_Some; [done|by apply (Hp k)].
Qed.

Lemma inv_same ms ms' : same_core ms ms' -> Mem.ttls ms' = Mem.ttls ms -> mem_inv ms -> mem_inv ms' /\ log ms' = log ms.
Proof.
  intros Hs Et Hinv. pose proof Hs as (E1&E2&_&_&_&_&E7&_). split; [|unfold log; congruence]. pose proof Hinv as (Hok&Hw&_).
  apply (inv_sub ms); [done|by eapply same_core_ok|unfold wheel_ok in *; by rewrite Et|by rewrite E2].
Qed.

Lemma log_store_log ms s h m seq ts dn d ms' ms'' r : log ms'' = log ms' -> log_store ms s h m seq ts dn d ms' r -> log_store ms s h m seq ts dn d ms'' r.
Proof. unfold log_store, unchanged. by intros ->. Qed.

Lemma next_u64 ms : ms_ok ms -> LastSeq (state ms) + 1 < seq_limit -> u64 (LastSeq (state ms) + 1) = LastSeq (state ms) + 1.
Proof. intros Hok Hl. pose proof (ss_bound (D := Avl.SequenceSet)) as Hb. cbn in Hb. destruct (ok_range _ _ _ _ Hok). apply u64_small. unfold is_u64. lia. Qed.

Lemma step_store ms s h m ttl now ats : mem_inv ms -> mem_ok ms (OStore s h m ttl now ats) -> steps ms (OStore s h m ttl now ats).
Proof.
  intros Hinv [Hs Hfit]. unfold steps. cbn [mem_run log_step]. unfold StoreMsg_. pose proof Hinv as (Hok&_).
  assert (u64 (LastSeq (state ms) + 1) = LastSeq (state ms) + 1) as -> by (apply next_u64; [done|apply Hfit]).
  destruct (store_step ms s h m (LastSeq (state ms) + 1) now ttl true now ats Hinv Hs Hfit) as (ms1&r&->&Hr&Hinv1&Hlog). cbn [mbind option_bind].
  destruct r as [e|]; cbn [mbind option_bind].
  - eexists _, _. split; [done|]. split; [done|]. exact (Hlog _).
  - destruct (inv_same ms1 (notify ms1 1 (memStoreMsgSize s h m) (LastSeq (state ms) + 1) s)) as [Hi El]; [apply notify_same|apply notify_ttls|done|].
    eexists _, _. split; [done|]. split; [done|]. eapply log_store_log; [exact El|]. exact (Hlog _).
Qed.

Lemma step_store_raw ms s h m seq ts ttl dn now ats : mem_inv ms -> mem_ok ms (OStoreRaw s h m seq ts ttl dn now ats) -> steps ms (OStoreRaw s h m seq ts ttl dn now ats).
Proof.
  intros Hinv [Hs Hfit]. unfold steps. cbn [mem_run log_step]. unfold StoreRawMsg.
  destruct (store_step ms s h m seq ts ttl dn now ats Hinv Hs Hfit) as (ms1&r&->&Hr&Hinv1&Hlog). cbn [mbind option_bind].
  set (ms2 := if negb (receivedAny ms1) && _ && _ then _ else ms1). assert (mem_inv ms2 /\ log ms2 = log ms1) as [Hinv2 El2].
  { unfold ms2. destruct (_ && _ && _); [|done]. apply inv_same; [etrans; [|apply resetAgeChk_same]; done|by rewrite resetAgeChk_ttls|done]. }
  clearbody ms2. destruct r as [e|]; cbn [mbind option_bind].
  - eexists _, _. split; [done|]. split; [done|]. eapply log_store_log; [exact El2|]. exact (Hlog RNone).
  - destruct (inv_same ms2 (notify ms2 1 (memStoreMsgSize s h m) seq s)) as [Hi El]; [apply notify_same|apply notify_ttls|done|].
    eexists _, _. split; [done|]. split; [done|]. eapply log_store_log; [by rewrite El|]. exact (Hlog RNone).
Qed.

Lemma step_remove ms k : mem_inv ms -> steps ms (ORemove k).
Proof.
  intros Hinv. pose proof Hinv as (Hok&Hw&_). unfold steps. cbn [mem_run log_step]. unfold RemoveMsg, log_remove, log. destruct (msgs ms !! k) as [sm|] eqn:Hk.
  - destruct (removeMsg_ok ms k sm Hok Hk) as (ms'&E&Hok'&Hm&Hfr). destruct (removeMsg_wheel_ok ms k ms' true Hok Hw E) as [Hw' _]. rewrite E. cbn [mbind option_bind].
    eexists _, _. split; [done|]. split; [apply (inv_sub ms); try done; rewrite Hm; apply delete_subseteq|]. destruct Hfr as (_&_&->&_&->). by rewrite Hm.
  - rewrite (removeMsg_none ms k Hk). cbn [mbind option_bind]. eexists _, _. split; [done|]. split; [done|]. by rewrite delete_id.
Qed.

Lemma step_skips ms seq num ats : mem_inv ms -> mem_ok ms (OSkips seq num ats) -> steps ms (OSkips seq num ats).
Proof.
  intros Hinv [Hn Hroom]. pose proof Hinv as (Hok&Hw&_). unfold steps. cbn [mem_run log_step]. unfold log_skip, unchanged, log.
  pose proof (SkipMsgs_ok ms seq num ats Hok Hn) as Hs. pose proof (SkipMsgs_ttls ms seq num ats) as Ht.
  assert ((SkipMsgs ms seq num ats).2 = if negb (seq =? LastSeq (state ms) + 1) && (0 <? seq) then Some ErrSequenceMismatch else None) as Er.
  { unfold SkipMsgs. rewrite next_u64 by (done || lia). destruct (negb _ && _); [done|]. by destruct (_ =? 0). }
  destruct (SkipMsgs ms seq num ats) as [ms' r]. cbn [fst snd] in *. destruct Hs as (Hok'&Hfr&Em&Hr); [cbn; lia|]. eexists _, _. split; [done|].
  split; [apply (inv_sub ms); try done; [by eapply same_wheel|by rewrite Em]|]. rewrite Em, (log_frame0 _ _ Hfr), Er. subst r. destruct (negb _ && _); [by rewrite Hr|by rewrite Hr].
Qed.

Lemma step_skip ms seq ats : mem_inv ms -> mem_ok ms (OSkip seq ats) -> steps ms (OSkip seq ats).
Proof.
  intros Hinv Hroom. pose proof Hinv as (Hok&_). destruct (step_skips ms seq 1 ats Hinv) as (ms'&r&E&Hinv'&Hl); [cbn in *; lia|]. unfold steps. cbn [mem_run log_step] in *.
  rewrite SkipMsg_SkipMsgs by (done || cbn in *; lia). destruct (SkipMsgs ms seq 1 ats) as [ms1 [e|]]; injection E as <- <-; eexists _, _; (split; [done|]); (split; [done|]);
    unfold log_skip in *; (destruct (negb _ && _); [|]); naive_solver.
Qed.

Lemma step_purge ms : mem_inv ms -> mem_ok ms OPurge -> steps ms OPurge.
Proof.
  intros Hinv Hroom. pose proof Hinv as (Hok&Hw&_). unfold steps. cbn [mem_run log_step] in *. unfold Purge, log_purge, log.
  pose proof (purge_ok ms 0 Hok) as Hp. pose proof (purge_ttls ms 0) as Ht. destruct (purge ms 0) as [ms' r] eqn:E. destruct Hp as (Hok'&Hfr&Hr); [done|done|].
  destruct r as [e|n]; [lia|]. destruct Hr as (Em&->&El&_). eexists _, _. split; [done|].
  split; [apply (inv_sub ms); try done; [by eapply same_wheel|rewrite Em; apply map_empty_subseteq]|]. by rewrite Em, El, (log_frame0 _ _ Hfr).
Qed.

(** [compact] as a step of its own, which [PurgeEx] shares. *)
Lemma compact_step ms k : mem_inv ms -> mem_ok ms (OCompact k) ->
  exists ms' r, compact ms k = Some (ms', r) /\ mem_inv ms' /\ log_compact ms k ms' (res_num r).
Proof.
  intros Hinv (Hc&Hk&Hroom). pose proof Hinv as (Hok&Hw&_). unfold log_compact. destruct (Z.eqb_spec k 0) as [->|Hne].
  - destruct (step_purge ms Hinv Hroom) as (ms'&r&E&Hinv'&Hl). cbn [mem_run log_step] in *. unfold compact. cbn [Z.eqb]. destruct (Purge ms) as [ms1 r1]. injection E as <- <-. by eexists _, _.
  - destruct (compact_ok ms k Hok Hc) as (ms'&E&Hok'&Hfr&Em&El); [cbn; lia|]. rewrite E. eexists _, _. split; [done|].
    split; [apply (inv_sub ms); try done; [by eapply same_wheel; [eapply compact_ttls|]|rewrite Em; apply from_seq_sub]|]. unfold log. rewrite Em, El, (log_frame0 _ _ Hfr). split; [done|]. unfold num_msgs. by rewrite Em.
Qed.

Lemma step_compact ms k : mem_inv ms -> mem_ok ms (OCompact k) -> steps ms (OCompact k).
Proof.
  intros Hinv Hm. destruct (compact_step ms k Hinv Hm) as (ms'&r&E&?&?). unfold steps. cbn [mem_run log_step]. unfold Compact. rewrite E. by eexists _, _.
Qed.

Lemma step_truncate ms k now : mem_inv ms -> mem_ok ms (OTruncate k now) -> steps ms (OTruncate k now).
Proof.
  intros Hinv Hm. pose proof Hinv as (Hok&Hw&_). unfold steps. cbn [mem_run log_step] in *. unfold log. destruct Hm as [[-> Hc]|Hk].
  - cbn [Z.eqb]. pose proof (Truncate_ttls ms 0 now (reset ms now) eq_refl) as Ht. destruct (reset_ok ms now Hok Hc) as (Hok'&Hfr&Em&El). unfold Truncate. cbn [Z.eqb mbind option_bind].
    eexists _, _. split; [done|]. split; [apply (inv_sub ms); try done; [by eapply same_wheel|rewrite Em; apply map_empty_subseteq]|]. by rewrite Em, El, (log_frame0 _ _ Hfr).
  - destruct (Truncate_ok ms k now Hok Hk) as (ms'&E&Hok'&Hfr&Em&El). rewrite E. cbn [mbind option_bind]. eexists _, _. split; [done|].
    split; [apply (inv_sub ms); try done; [by eapply same_wheel; [eapply Truncate_ttls|]|rewrite Em; apply map_filter_subseteq]|]. rewrite Em, El, (log_frame0 _ _ Hfr).
    by destruct (Z.eqb_spec k 0); [lia|].
Qed.

Lemma step_stop ms : mem_inv ms -> mem_ok ms OStop -> steps ms OStop.
Proof.
  intros Hinv Hroom. pose proof Hinv as (Hok&Hw&_). unfold steps. cbn [mem_run log_step] in *. unfold log. eexists _, _. split; [done|]. destruct (closed ms) eqn:Hc.
  - assert (Stop ms = ms) as -> by (unfold Stop; by rewrite Hc). by rewrite Hc.
  - destruct (Stop_ok ms Hok Hroom Hc) as (Hok'&Ec&Em&El). split; [apply (inv_sub ms); try done; [by eapply same_wheel; [apply Stop_ttls|]|rewrite Em; apply map_empty_subseteq]|].
    by rewrite Em, El, Ec.
Qed.

Lemma step_expire ms clock ats : mem_inv ms -> mem_ok ms (OExpire clock ats) -> steps ms (OExpire clock ats).
Proof.
  intros Hinv [Hmono Hrng]. pose proof Hinv as (Hok&Hw&_). unfold steps. cbn [mem_run log_step]. destruct (expire_ok ms clock ats Hok Hw Hmono Hrng) as (ms'&n&->&He).
  cbn [mbind option_bind]. eexists _, _. split; [done|]. split; [|split; [by exists n|done]]. pose proof He as [? ? _ _ _ Hl]. apply (inv_sub ms); try done.
  apply map_subseteq_spec. intros k sm Hk. by apply Hl in Hk as [? _].
Qed.

Lemma step_config ms c clock late ats : mem_inv ms -> mem_ok ms (OConfig c clock late ats) -> steps ms (OConfig c clock late ats).
Proof.
  intros Hinv [Hmono Hrng]. pose proof Hinv as (Hok&Hw&_). unfold steps. cbn [mem_run log_step].
  destruct (UpdateConfig_ok prepare ms c clock late ats Hok Hw Hmono Hrng) as (ms'&->&Hc). cbn [mbind option_bind]. eexists _, _. split; [done|]. split; [|done].
  pose proof Hc as [? ? _ ? _ _]. by apply (inv_sub ms).
Qed.

Lemma remove_seqs_inv ms l ms' : mem_inv ms -> remove_seqs ms l = Some ms' -> mem_inv ms'.
Proof.
  intros Hinv E. pose proof Hinv as (Hok&Hw&_). unfold remove_seqs in E. destruct (remove_all_ok ((fun k => (k, 0)) <$> l) ms Hok) as (ms1&E1&Hok1&_&Em).
  rewrite E in E1. injection E1 as <-. apply (inv_sub ms); try done; [exact (remove_all_wheel _ ms ms' Hok Hw E)|]. rewrite Em. apply map_filter_subseteq.
Qed.

Lemma sync_blocks_inv lseq dbs : forall ms ms', mem_inv ms -> sync_blocks ms lseq dbs = Some ms' -> mem_inv ms'.
Proof.
  induction dbs as [|b dbs IH]; intros ms ms' Hinv; cbn [sync_blocks]; [by intros [= <-]|]. destruct (_ <? _); [by apply IH|].
  destruct (remove_seqs ms (block_seqs b)) as [ms1|] eqn:E; cbn; [|done]. apply IH. by eapply remove_seqs_inv.
Qed.

Lemma step_sync ms dbs : mem_inv ms -> steps ms (OSync dbs).
Proof.
  intros Hinv. pose proof Hinv as (Hok&Hw&_). unfold steps. cbn [mem_run log_step]. unfold log_sync, log.
  destruct (sync_blocks_ok (LastSeq (state ms)) dbs ms Hok eq_refl) as (ms'&E&Hok'&(_&_&Ec&_&El)&Em). pose proof (sync_blocks_inv _ _ _ _ Hinv E) as Hinv'.
  assert (SyncDeleted ms dbs = Some ms' \/ exists b, dbs = [b] /\ block_state b = Avl.State (dmap ms) /\ SyncDeleted ms dbs = Some ms) as [->|(b&->&Hb&->)].
  { unfold SyncDeleted. destruct dbs as [|b [|b2 dbs]]; [by left|case_bool_decide|by left]; [right; by exists b|by left]. }
  - cbn [mbind option_bind]. eexists _, _. split; [done|]. split; [done|]. split; [|done]. right. by rewrite Em, El, Ec.
  - cbn [mbind option_bind]. eexists _, _. split; [done|]. split; [done|]. split; [|done]. left. by exists b.
Qed.

Lemma num_pending_ext p q lo (m : gmap Z StoreMsg) : (forall k sm, m !! k = Some sm -> p (m_subj sm) = q (m_subj sm)) -> num_pending p lo m = num_pending q lo m.
Proof. intros Hx. unfold num_pending, pending_msgs. f_equal. apply size_filter_ext. intros k sm Hk. cbn. by rewrite (Hx k sm Hk). Qed.
Lemma drop_below_ext p q b (m : gmap Z StoreMsg) : (forall k sm, m !! k = Some sm -> p (m_subj sm) = q (m_subj sm)) -> drop_below p b m = drop_below q b m.
Proof. intros Hx. apply map_filter_ext. intros k sm Hk. cbn. by rewrite (Hx k sm Hk). Qed.

Lemma step_purge_ex ms subject sequence keep : mem_inv ms -> mem_ok ms (OPurgeEx subject sequence keep) -> steps ms (OPurgeEx subject sequence keep).
Proof.
  intros Hinv Hm. pose proof Hinv as (Hok&Hw&_). unfold steps. cbn [mem_run log_step mem_ok] in *. unfold log_purge_ex. destruct (is_all subject) eqn:Ha.
  - destruct Hm as (Hc&Hs&Hk&Hroom). unfold PurgeEx. fold (is_all subject). rewrite Ha. destruct ((keep =? 0) && (sequence =? 0)).
    { destruct (step_purge ms Hinv Hroom) as (ms'&r&E&Hinv'&Hl). cbn [mem_run log_step] in *. unfold Purge in E. destruct (purge ms 0) as [ms1 r1]. injection E as <- <-. by eexists _, _. }
    destruct (Z.ltb_spec 1 sequence).
    { destruct (compact_step ms sequence Hinv) as (ms'&r&->&Hinv'&Hl); [done|]. by eexists _, _. }
    pose proof (ok_msgs _ _ _ _ Hok) as En. fold (num_msgs ms) in En. rewrite En. pose proof (ms_size ms Hok) as Hsz. fold (num_msgs ms) in Hsz.
    destruct (Z.ltb_spec 0 keep) as [Hp|Hp]; cbn [andb]; [|by eexists _, _]. destruct (Z.leb_spec (num_msgs ms) keep) as [Hle|Hlt].
    { destruct (Z.ltb_spec keep (num_msgs ms)); [lia|]. by eexists _, _. }
    destruct (Z.ltb_spec keep (num_msgs ms)); [|lia]. pose proof (ss_bound (D := Avl.SequenceSet)) as Hb. cbn in Hb. rewrite u64_small by (unfold is_u64; lia).
    destruct (compact_step ms (LastSeq (state ms) - keep + 1) Hinv) as (ms'&r&->&Hinv'&Hl); [split_and!; [done|lia|lia|done]|]. by eexists _, _.
  - destruct Hm as [Hg Hk]. pose proof (inv_filter ms subject Hinv Hg) as Hfl. pose proof (inv_literal ms Hinv) as Hlit.
    destruct (PurgeEx_subject_ok msg_range msg_range_perm ms subject sequence keep Hok Hlit Ha Hfl Hk) as (ms'&b&E&Hok'&(_&_&Ec&_&El)&Em&H1&H2&H3).
    pose proof (PurgeEx_subject_wheel msg_range ms subject sequence keep ms' _ msg_range_perm Hok Hw Hlit Ha Hfl E) as Hw'. rewrite E. cbn [mbind option_bind].
    eexists _, _. split; [done|]. split; [apply (inv_sub ms); try done; rewrite Em; apply map_filter_subseteq|]. exists b. unfold log. rewrite El, Ec.
    rewrite (num_pending_ext (fun s => Subj.matchLiteral s subject) (isMatch subject)) by (intros k sm Hx; symmetry; by apply (proj2 Hfl k)).
    rewrite (drop_below_ext (fun s => Subj.matchLiteral s subject) (isMatch subject)) by (intros k sm Hx; symmetry; by apply (proj2 Hfl k)).
    by split_and!; [rewrite Em| | | |].
Qed.

Lemma searched_inv ms ms' : mem_inv ms -> searched ms ms' -> same_ttls ms ms' -> mem_inv ms' /\ unchanged ms ms'.
Proof.
  intros Hinv (Hok'&Em&Est&Hfr) Ht. pose proof Hinv as (_&Hw&_). split; [apply (inv_sub ms); [done|done|by eapply same_wheel|by rewrite Em]|].
  unfold unchanged, log. by rewrite Em, Est, (log_frame0 _ _ Hfr).
Qed.

Lemma step_load_next ms filter wc start : mem_inv ms -> mem_ok ms (OLoadNext filter wc start) -> steps ms (OLoadNext filter wc start).
Proof.
  intros Hinv Hm. pose proof Hinv as (Hok&_). destruct (loadNext_ok ms filter wc start Hok (inv_literal ms Hinv) Hm) as (ms'&r&E&Hs&_).
  destruct (searched_inv ms ms' Hinv Hs (loadNext_ttls _ _ _ _ _ _ E)). unfold steps. cbn [mem_run log_step]. unfold LoadNextMsg. rewrite E. by eexists _, _.
Qed.

Lemma step_load_last ms subject : mem_inv ms -> mem_ok ms (OLoadLast subject) -> steps ms (OLoadLast subject).
Proof.
  intros Hinv Hm. pose proof Hinv as (Hok&_). destruct (loadLast_ok msg_range ms subject Hok (inv_literal ms Hinv)) as (ms'&r&E&Hs&_).
  { intros Ha _. by apply inv_filter, Hm. }
  destruct (searched_inv ms ms' Hinv Hs (loadLast_ttls _ _ _ _ _ E)). unfold steps. cbn [mem_run log_step]. unfold LoadLastMsg. rewrite E. by eexists _, _.
Qed.

Lemma pending_filter filter : (filter <> ""%string -> good_filter filter = true) -> good_filter (filter_of filter) = true.
Proof. intros Hg. unfold filter_of. destruct (String.eqb_spec filter ""); [done|by apply Hg]. Qed.

Lemma step_pending ms sseq filter : mem_inv ms -> mem_ok ms (OPending sseq filter) -> steps ms (OPending sseq filter).
Proof.
  intros Hinv Hm. pose proof Hinv as (Hok&_).
  destruct (filtered_ok msg_range msg_range_perm ms sseq filter Hok (inv_literal ms Hinv)) as (ms'&ss&E&Hs&_); [by apply inv_filter, pending_filter|].
  destruct (searched_inv ms ms' Hinv Hs (filtered_ttls _ _ _ _ _ _ _ E)). unfold steps. cbn [mem_run log_step]. unfold NumPending. rewrite E. by eexists _, _.
Qed.

Lemma mem_steps ms o : mem_inv ms -> mem_ok ms o -> steps ms o.
Proof.
  intros Hinv Hm. destruct o; [by apply step_store|by apply step_store_raw|by apply step_remove|exact (step_remove ms k Hinv)|by apply step_skip|by apply step_skips|by apply step_purge
    |by apply step_compact|by apply step_truncate|by apply step_purge_ex|by apply step_stop|by apply step_expire|by apply step_config|by apply step_sync
    |by apply step_load_next|by apply step_load_last|by apply step_pending].
Qed.

Lemma mem_reach_inv ms : mem_reach ms -> mem_inv ms.
Proof.
  induction 1 as [c ms Hc E|ms o ms' r _ IH Hm E].
  - destruct (newMemStore_ok (F := Stree.SubjectTree SimpleState) (D := Avl.SequenceSet) (W := Thw.HashWheel) c) as (ms1&E1&Hok&Em&_); [exact Hc|done|]. rewrite E in E1. injection E1 as <-. split_and!; [done| |intros k sm; by rewrite Em].
    unfold newMemStore in E. assert (wheel_ok (empty_store (F := Stree.SubjectTree SimpleState) (D := Avl.SequenceSet) (W := Thw.HashWheel) c)) as Hw.
    { unfold wheel_ok. cbn. destruct (AllowMsgTTL c); [apply hw_new_inv|done]. }
    destruct (0 <? _); [|by injection E as <-]. pose proof (purge_ttls (empty_store (F := Stree.SubjectTree SimpleState) (D := Avl.SequenceSet) (W := Thw.HashWheel) c) (cfgFirstSeq c)) as Ht.
    destruct (purge _ _) as [ms2 [e|n]]; [done|]. injection E as <-. by eapply same_wheel.
  - destruct (mem_steps ms o IH Hm) as (ms1&r1&E1&Hi&_). rewrite E in E1. by injection E1 as <- <-.
Qed.

(** ** Properties *)

(** C1. A store refines a log of messages.  From a new store, after any operations within the
    bounds, every operation returns (no loop runs out and no panic is reached) and acts on the
    log as [log_step] says: a store is refused or adds the message with the next sequence and
    then drops exactly the oldest messages that the limits of the subject, the messages and the
    bytes demand; removals, skips, purges with and without filter, compaction, truncation and
    synchronisation drop exactly the messages they name; expiry and a new configuration drop what
    is too old or over the limits. *)
Theorem mem_refines_log ms (o : mem_op) (Hr : mem_reach ms) (Ho : mem_ok ms o) :
  exists ms' r, mem_run ms o = Some (ms', r) /\ mem_reach ms' /\ log_step ms o ms' r.
Proof.
  destruct (mem_steps ms o (mem_reach_inv ms Hr) Ho) as (ms'&r&E&_&Hl). exists ms', r. split; [done|]. split; [by eapply reach_op|done].
Qed.

(** The per-subject state of [s] agrees with the messages. *)
Definition subject_sound ms (s : string) : Prop :=
  match Stree.Find (fss ms) (bytes_of s) with
  | None => forall k, ~ at_subj (msgs ms) s k
  | Some ss =>
      Msgs ss = subj_count (msgs ms) s /\
      let e := recalculateForSubj ms s ss in
      at_subj (msgs ms) s (First e) /\ at_subj (msgs ms) s (Last e) /\ forall k, at_subj (msgs ms) s k -> First e <= k <= Last e
  end.

(** C22. The state of a store agrees with its messages: [Msgs] and [Bytes] are their number and
    size, every message is kept at its sequence between the first and the last one, the first
    sequence is that of the oldest message, the deleted sequences are the ones missing in
    between, and the per-subject state has the number of messages of the subject and, after its
    lazy update, the first and the last of them. *)
Theorem mem_state_sound ms (Hr : mem_reach ms) :
  let st := state ms in
  sMsgs st = num_msgs ms /\ sBytes st = total (msgs ms) /\
  (forall k sm, msgs ms !! k = Some sm -> m_seq sm = k /\ FirstSeq st <= k <= LastSeq st) /\
  (msgs ms <> ∅ -> is_Some (msgs ms !! FirstSeq st) /\ forall k, k ∈ model (dmap ms) <-> FirstSeq st <= k <= LastSeq st /\ msgs ms !! k = None) /\
  forall s, subject_sound ms s.
Proof.
  destruct (mem_reach_inv ms Hr) as (Hok&_&_). pose proof Hok as [(M&HM&Hf) (X&(_&_&HX)&Hd) Hn Hb Hk Hfirst _ _]. cbv zeta. split_and!; [done|done| | |].
  - intros k sm Hsm. by destruct (Hk k sm Hsm) as (?&?&_).
  - intros Hne. split; [by apply Hfirst|]. intros k. rewrite HX, (Hd k). naive_solver.
  - intros s. unfold subject_sound. pose proof (sm_Find_law _ _ s HM) as Es. cbn in Es. rewrite Es. destruct (M !! s) as [ss|] eqn:E.
    + destruct (exact_ok ms M s ss Hok Hf E) as (_&_&?&?&?). split; [exact (so_count _ _ _ (proj1 Hf s ss E))|done].
    + intros k (sm&Hsm&<-). destruct (proj2 Hf k sm Hsm). congruence.
Qed.

(** C25. The loads of an open store find what the log has: [LoadNextMsg] (with its choice between a
    linear scan and the per-subject state) and [LoadNextMsgMulti] the first matching message from
    [start] on, [LoadPrevMsg] and [LoadPrevMsgMulti] the last one up to it, [LoadLastMsg] the last
    message of a subject or filter, and none of them changes the log.  A filter has only whole
    tokens for wildcards.  For all subjects ([>] or none), [LoadLastMsg] looks only at the last
    sequence: what it finds is the last message, but it finds none when the message with the last
    sequence was deleted. *)
Theorem mem_loads ms (filter : string) (wc : bool) (interest : string -> bool) (start : Z) (Hr : mem_reach ms) (Hc : closed ms = false)
    (Hf : wc = true -> filter <> ""%string -> good_filter filter = true) (Hl : is_all filter = false -> good_filter filter = true) :
  (exists ms' r, LoadNextMsg ms filter wc start = Some (ms', r) /\ unchanged ms ms' /\ next_match ms (wants filter wc) start r) /\
  next_match ms interest start (LoadNextMsgMulti ms interest start) /\
  (exists r, LoadPrevMsg ms filter wc start = inr r /\ prev_match ms (wants filter wc) start r) /\
  prev_match ms interest start (LoadPrevMsgMulti ms interest start) /\
  (exists ms' r, LoadLastMsg msg_range ms filter = Some (ms', r) /\ unchanged ms ms' /\ last_result ms filter r).
Proof.
  pose proof (mem_reach_inv ms Hr) as Hinv. pose proof Hinv as (Hok&_). pose proof (inv_literal ms Hinv) as Hlit.
  destruct (loadNext_ok ms filter wc start Hok Hlit Hf) as (ms1&r1&E1&Hs1&Hn1). destruct (searched_inv ms ms1 Hinv Hs1 (loadNext_ttls _ _ _ _ _ _ E1)) as [_ Hu1].
  destruct (loadLast_ok msg_range ms filter Hok Hlit) as (ms2&r2&E2&Hs2&Hn2); [intros; by apply inv_filter, Hl|].
  destruct (searched_inv ms ms2 Hinv Hs2 (loadLast_ttls _ _ _ _ _ E2)) as [_ Hu2].
  split_and!; [by exists ms1, r1|by apply loadNextMulti_ok|by apply loadPrev_ok|by apply loadPrevMulti_ok|by exists ms2, r2].
Qed.

(** C26. [NumPending] without [lastPerSubject] and [FilteredState] count exactly the messages from
    [sseq] on that match the filter, whether the totals of the subjects suffice or a scan of the
    messages to include or to exclude is needed, and in whatever order the map of the messages is
    ranged over.  A filter has only whole tokens for wildcards. *)
Theorem mem_num_pending ms (sseq : Z) (filter : string) (Hr : mem_reach ms) (Hf : filter <> ""%string -> good_filter filter = true) :
  let p s := Subj.matchLiteral s (filter_of filter) in
  (exists ms' last, NumPending msg_range ms sseq filter false = Some (ms', (num_pending p sseq (msgs ms), last)) /\ unchanged ms ms' /\ last = LastSeq (state ms)) /\
  (exists ms' ss, FilteredState msg_range ms sseq filter = Some (ms', ss) /\ unchanged ms ms' /\ Msgs ss = num_pending p sseq (msgs ms)).
Proof.
  pose proof (mem_reach_inv ms Hr) as Hinv. pose proof Hinv as (Hok&_). pose proof (inv_filter ms _ Hinv (pending_filter filter Hf)) as Hfl. cbv zeta.
  destruct (filtered_ok msg_range msg_range_perm ms sseq filter Hok (inv_literal ms Hinv) Hfl) as (ms'&ss&E&Hs&Hn).
  destruct (searched_inv ms ms' Hinv Hs (filtered_ttls _ _ _ _ _ _ _ E)) as [_ Hu].
  rewrite <- (num_pending_ext (isMatch (filter_of filter))) by (intros k sm Hk; by apply (proj2 Hfl k)). unfold NumPending, FilteredState. rewrite E. cbn [mbind option_bind]. rewrite <- Hn.
  split; [exists ms', (LastSeq (state ms'))|by exists ms', ss]. split_and!; [done|done|]. by destruct Hs as (_&_&->&_).
Qed.

(** C34. When the time stamps do not decrease, [GetSeqFromTime] returns the first message of time
    [t] or later, or the sequence after the last one; only when the last message has exactly the
    time [t], and there are earlier ones, it returns that last message, also if it is not the
    first of its time.  Its search ends for every sequence of deleted messages. *)
Theorem mem_seq_from_time ms (t : Z) (Hr : mem_reach ms) (Ht : times_ordered ms) :
  exists r, GetSeqFromTime ms t = Some r /\ (ends_at ms t r \/ ((forall l, ~ ends_at ms t l) /\ time_result ms t r)).
Proof. destruct (mem_reach_inv ms Hr) as (Hok&_&_). by apply seq_from_time_ok. Qed.
End spec.

(** ** Witnesses *)

(** Headers of the form "ttl" followed by one digit. *)
#[local] Instance sample_headers : Headers := {
  getMessageTTL h := match h with String "t" (String "t" (String "l" (String d EmptyString))) => Some (Z.of_nat (nat_of_ascii d) - 48) | _ => Some 0 end;
  nextMessageSchedule _ _ := None;
  getMessageScheduler _ := ""%string;
  scheduleNext _ := None;
  isRollup _ := false;
  isSubjectDeleteMarker _ := false;
}.

#[local] Instance sample_env : StoreEnv (Stree.SubjectTree SimpleState) Avl.SequenceSet Thw.HashWheel := {|
  msg_range m := (map_to_list m).*2; msg_range_perm m := Permutation_refl _; prepare _ _ _ := None |}.

(** At most 3 messages, and 2 per subject. *)
Definition sample_cfg : StreamConfig := mkConfig 3 0 2 0 DiscardOld false false false 0 0 [].

Definition sample_ops : list mem_op :=
  [OStore "a.x" "" "m1" 0 10 10; OStore "a.y" "" "m2" 0 20 20; OStore "b" "" "m3" 0 30 30; OStore "a.x" "" "m4" 0 40 40; ORemove 3].

(** Operations whose bounds are decided by evaluation. *)
Definition mem_okb (ms : Store) (o : mem_op) : bool :=
  match o with
  | OStore s h m _ _ _ => plain_subject s && (LastSeq (state ms) + 1 <? seq_limit) && (total (msgs ms) + memStoreMsgSize s h m <? 2 ^ 64)
  | ORemove _ => true
  | OTruncate k _ => (0 <? k) && (k <=? LastSeq (state ms))
  | _ => false
  end.

Lemma mem_okb_ok ms o : mem_okb ms o = true -> mem_ok ms o.
Proof.
  destruct o; cbn; try done.
  - intros [[H1 H2%Z.ltb_lt]%andb_true_iff H3%Z.ltb_lt]%andb_true_iff. by split_and!.
  - intros [?%Z.ltb_lt ?%Z.leb_le]%andb_true_iff. right. lia.
Qed.

Fixpoint mem_runs (ms : Store) (ops : list mem_op) : option Store :=
  match ops with
  | [] => Some ms
  | o :: ops => if mem_okb ms o then '(ms, _) ← mem_run ms o; mem_runs ms ops else None
  end.

Lemma mem_runs_reach ops : forall ms ms', mem_reach ms -> mem_runs ms ops = Some ms' -> mem_reach ms'.
Proof.
  induction ops as [|o ops IH]; intros ms ms' Hr; cbn [mem_runs]; [by intros [= <-]|]. destruct (mem_okb ms o) eqn:Ho; [|done]. apply mem_okb_ok in Ho.
  destruct (mem_run ms o) as [[ms1 r]|] eqn:E; cbn; [|done]. apply IH. by eapply reach_op.
Qed.

Definition run_from (c : StreamConfig) (ops : list mem_op) : Store :=
  default (empty_store c) (match newMemStore c with inr ms => mem_runs ms ops | inl _ => None end).

Lemma run_from_reach c ops : 0 <= cfgFirstSeq c < seq_limit -> is_Some (match newMemStore c with inr ms => mem_runs ms ops | inl _ => None end) -> mem_reach (run_from c ops).
Proof.
  intros Hc [ms E]. unfold run_from. rewrite E. cbn. destruct (newMemStore c) as [e|ms0] eqn:E0; [done|]. eapply mem_runs_reach; [by eapply reach_new|done].
Qed.

Definition sample_store : Store := run_from sample_cfg sample_ops.

Lemma sample_store_reach : mem_reach sample_store.
Proof. apply run_from_reach; [done|]. eexists. vm_compute. reflexivity. Qed.

Definition sample_op : mem_op := OStore "b.z" "" "m5" 0 50 50.

Lemma mem_refines_log_witness :
  (exists ms r, mem_run sample_store (OPurgeEx "a.*" 4 0) = Some (ms, r) /\ (map_to_list (msgs ms)).*1 = [4] /\ r = RNum 1) /\
  exists ms' r, mem_run sample_store sample_op = Some (ms', r) /\ mem_reach ms' /\ log_step sample_store sample_op ms' r.
Proof.
  split; [eexists _, _; split; [vm_compute; reflexivity|]; split; [vm_compute; reflexivity|reflexivity]|].
  apply (mem_refines_log sample_store sample_op sample_store_reach). apply mem_okb_ok. vm_compute. reflexivity.
Defined.

Lemma mem_state_sound_witness :
  sMsgs (state sample_store) = 2 /\ (forall s, subject_sound sample_store s).
Proof. split; [vm_compute; reflexivity|]. apply (mem_state_sound sample_store sample_store_reach). Defined.

Lemma mem_loads_witness :
  (exists ms' sm, LoadNextMsg sample_store "a.*" true 3 = Some (ms', inl (sm, 4))) /\
  (exists ms' r, LoadNextMsg sample_store "a.*" true 3 = Some (ms', r) /\ unchanged sample_store ms' /\ next_match sample_store (wants "a.*" true) 3 r).
Proof.
  split; [eexists _, _; vm_compute; reflexivity|].
  exact (proj1 (mem_loads sample_store "a.*" true (fun _ => true) 3 sample_store_reach eq_refl (fun _ _ => eq_refl) (fun _ => eq_refl))).
Defined.

Lemma mem_num_pending_witness :
  num_pending (fun s => Subj.matchLiteral s "a.*") 3 (msgs sample_store) = 1 /\
  exists ms' last, NumPending msg_range sample_store 3 "a.*" false = Some (ms', (num_pending (fun s => Subj.matchLiteral s (filter_of "a.*")) 3 (msgs sample_store), last)) /\
    unchanged sample_store ms' /\ last = LastSeq (state sample_store).
Proof.
  split; [vm_compute; reflexivity|]. exact (proj1 (mem_num_pending sample_store 3 "a.*" sample_store_reach (fun _ => eq_refl))).
Defined.

(** The messages of a store as a list, for facts about all of them. *)
Lemma all_msgs (P : Z -> StoreMsg -> Prop) (m : gmap Z StoreMsg) : Forall (fun kv => P kv.1 kv.2) (map_to_list m) -> forall k sm, m !! k = Some sm -> P k sm.
Proof. intros Hl k sm Hk%elem_of_map_to_list. rewrite Forall_forall in Hl. exact (Hl _ Hk). Qed.

Lemma sample_times k sm : msgs sample_store !! k = Some sm -> m_ts sm = 10 * k.
Proof. apply (all_msgs (fun k sm => m_ts sm = 10 * k)). vm_compute. by repeat constructor. Qed.

Lemma mem_seq_from_time_witness :
  GetSeqFromTime sample_store 21 = Some 4 /\
  exists r, GetSeqFromTime sample_store 21 = Some r /\ (ends_at sample_store 21 r \/ ((forall l, ~ ends_at sample_store 21 l) /\ time_result sample_store 21 r)).
Proof.
  split; [vm_compute; reflexivity|]. apply (mem_seq_from_time sample_store 21 sample_store_reach).
  intros j k sj sk Hj%sample_times Hk%sample_times. lia.
Defined.

(** ** Divergences *)

Definition keys_of (ms : Store) : list Z := merge_sort Z.le (map_to_list (msgs ms)).*1.

(** [PurgeEx] for all subjects with [keep] counts sequences, not messages: with deleted messages
    in between it keeps fewer than [keep]. *)
Example purge_ex_keeps_fewer :
  let ms := run_from (mkConfig 0 0 0 0 DiscardOld false false false 0 0 []) ((fun k => OStore "a" "" "" 0 k k) <$> [1; 2; 3; 4; 5; 6]) in
  let ms := default ms (mem_runs ms [ORemove 3; ORemove 4; ORemove 5]) in
  keys_of ms = [1; 2; 6] /\ (keys_of ∘ fst) <$> mem_run ms (OPurgeEx ">" 0 2) = Some [6].
Proof. by vm_compute. Qed.

(** [Truncate] leaves the TTL of the messages it drops in the wheel: a message without TTL that
    is stored later at the same sequence expires with it. *)
Example truncate_leaves_ttl :
  let ms := run_from (mkConfig 0 0 0 0 DiscardOld false true false 0 0 [])
    [OStore "a" "" "" 0 1 1; OStore "a" "ttl5" "" 5 2 2; OTruncate 1 3; OStore "a" "" "" 0 4 4] in
  keys_of ms = [1; 2] /\ (m_hdr <$> msgs ms !! 2) = Some ""%string /\
  (keys_of ∘ fst) <$> mem_run ms (OExpire (fun _ => 10000000000) 0) = Some [1].
Proof. by vm_compute. Qed.

(** With the last message per subject the scan of excluded messages adds the messages of skipped
    subjects and takes off one per subject: subject A is counted although all its messages are
    before the sequence. *)
Example pending_last_per_subject :
  let ms := run_from (mkConfig 0 0 0 0 DiscardOld false false false 0 0 [])
    ((fun s => OStore s "" "" 0 1 1) <$> ["A"; "A"; "B"; "C"; "B"; "C"; "C"; "C"; "C"]%string) in
  (snd <$> NumPending msg_range ms 4 ">" true) = Some (3, 9) /\
  size (list_to_set (m_subj <$> (filter (fun sm => 4 <= m_seq sm) (map_to_list (msgs ms)).*2)) : gset string) = 2%nat.
Proof. by vm_compute. Qed.

(** The last of several messages with the last time stamp is returned, not the first. *)
Example seq_from_time_last :
  let ms := run_from (mkConfig 0 0 0 0 DiscardOld false false false 0 0 []) ((fun t => OStore "a" "" "" 0 t t) <$> [1; 2; 2]) in
  GetSeqFromTime ms 2 = Some 3.
Proof. by vm_compute. Qed.

(** The last message of all subjects is looked up at the last sequence, also when it is deleted. *)
Example load_last_deleted :
  let ms := run_from (mkConfig 0 0 0 0 DiscardOld false false false 0 0 []) [OStore "a" "" "" 0 1 1; OStore "a" "" "" 0 2 2; ORemove 2] in
  (snd <$> LoadLastMsg msg_range ms ">") = Some (inl ErrStoreMsgNotFound) /\
  (snd <$> LoadLastMsg msg_range ms "a") = Some (inr (mkMsg "a" "" "" 1 1)).
Proof. by vm_compute. Qed.
