(* ===== verification/ConsumerStore.v ===== *)
(** * Memory store: consumers (src/server/memstore.go, src/server/store.go)

    The state of a consumer: the last delivered and the last acknowledged message, each with its
    consumer and stream sequence, the messages pending an acknowledgement and the redelivery
    counts, and its snapshot ([encodeConsumerState] and, in src/server/filestore.go,
    [decodeConsumerState]).  A nil map is the empty map: the code only reads its length, looks up
    and deletes.  [State] copies the maps; [BorrowState], which shares them with its caller, is
    the same value here. *)

From S2P Require Import Prelude Binary Scheduler MemStore MemStoreAdmin.

Module Consumers.

Inductive AckPolicy : Type := AckNone | AckAll | AckExplicit | AckFlowControl.
#[export] Instance AckPolicy_eq_dec : EqDecision AckPolicy.
Proof. solve_decision. Defined.

Record ConsumerConfig : Type := mkConsumerConfig { Policy : AckPolicy; MaxDeliver : Z }.

Record SequencePair : Type := mkPair { Consumer : Z; Stream : Z }.
Record Pending : Type := mkPending { Sequence : Z; Timestamp : Z }.

Record ConsumerState : Type := mkConsumerState {
  Delivered : SequencePair;
  AckFloor : SequencePair;
  pending : gmap Z Pending;
  Redelivered : gmap Z Z }.

Record consumerMemStore : Type := mkConsumer { ccfg : ConsumerConfig; cstate : ConsumerState; cclosed : bool }.

Inductive consumer_error : Type :=
| ErrBadFloorConsumer | ErrBadFloorStream | ErrBadPending | ErrStoreOldUpdate | ErrNoAckPolicy | ErrMsgNotFound
| ErrClosed | ErrBadConsumerConfig | ErrCorruptState | ErrUnsupportedVersion.

Definition zero_state : ConsumerState := mkConsumerState (mkPair 0 0) (mkPair 0 0) ∅ ∅.

Implicit Types (o : consumerMemStore) (st : ConsumerState).

Definition with_cstate o st : consumerMemStore := mkConsumer (ccfg o) st (cclosed o).

(** ** Replacing the state *)

(** The checks that [Update] and [ForceUpdate] make on the new state. *)
Definition check_state st : option consumer_error :=
  if Consumer (Delivered st) <? Consumer (AckFloor st) then Some ErrBadFloorConsumer
  else if Stream (Delivered st) <? Stream (AckFloor st) then Some ErrBadFloorStream
  else if existsb (fun k => (k <=? Stream (AckFloor st)) || (Stream (Delivered st) <? k)) (map_to_list (pending st)).*1 then Some ErrBadPending
  else None.

Definition Update o st : consumerMemStore * option consumer_error :=
  match check_state st with
  | Some e => (o, Some e)
  | None =>
      if (Consumer (Delivered st) <? Consumer (Delivered (cstate o))) || (Stream (AckFloor st) <? Stream (AckFloor (cstate o)))
      then (o, Some ErrStoreOldUpdate) else (with_cstate o st, None)
  end.

Definition ForceUpdate o st : consumerMemStore * option consumer_error :=
  match check_state st with
  | Some e => (o, Some e)
  | None => (with_cstate o st, None)
  end.

Definition SetStarting o (sseq : Z) : consumerMemStore :=
  let st := cstate o in
  with_cstate o (mkConsumerState (mkPair (Consumer (Delivered st)) sseq) (mkPair (Consumer (AckFloor st)) sseq) (pending st) (Redelivered st)).

Definition UpdateStarting o (sseq : Z) : consumerMemStore :=
  let st := cstate o in
  if Stream (Delivered st) <? sseq then
    let floor := match Policy (ccfg o) with AckNone => mkPair (Consumer (AckFloor st)) sseq | _ => AckFloor st end in
    with_cstate o (mkConsumerState (mkPair (Consumer (Delivered st)) sseq) floor (pending st) (Redelivered st))
  else o.

Definition Reset o (sseq : Z) : consumerMemStore := SetStarting (with_cstate o zero_state) sseq.

Definition HasState o : bool := negb (Consumer (Delivered (cstate o)) =? 0) || negb (Stream (Delivered (cstate o)) =? 0).

(** ** Deliveries *)

(** [UpdateDelivered] when an acknowledgement is expected. *)
Definition deliver_pending (cfg : ConsumerConfig) st (dseq sseq dc ts : Z) : ConsumerState :=
  let pend :=
    if sseq <=? Stream (Delivered st) then
      match pending st !! sseq with
      | Some p => <[sseq := mkPending (Sequence p) ts]> (pending st)
      | None => pending st
      end
    else <[sseq := mkPending dseq ts]> (pending st) in
  let delivered := mkPair (Z.max (Consumer (Delivered st)) dseq) (Z.max (Stream (Delivered st)) sseq) in
  if 1 <? dc then
    let maxdc := u64 (MaxDeliver cfg) in
    let pend := if (0 <? maxdc) && (maxdc <? dc) then delete sseq pend else pend in
    let red := if default 0 (Redelivered st !! sseq) <? dc - 1 then <[sseq := dc - 1]> (Redelivered st) else Redelivered st in
    mkConsumerState delivered (AckFloor st) pend red
  else mkConsumerState delivered (AckFloor st) pend (Redelivered st).

(** [UpdateDelivered] when none is. *)
Definition deliver_none st (dseq sseq : Z) : ConsumerState :=
  let '(dc, fc) := if Consumer (Delivered st) <? dseq then (dseq, dseq) else (Consumer (Delivered st), Consumer (AckFloor st)) in
  let '(ds, fs) := if Stream (Delivered st) <? sseq then (sseq, sseq) else (Stream (Delivered st), Stream (AckFloor st)) in
  mkConsumerState (mkPair dc ds) (mkPair fc fs) (pending st) (Redelivered st).

Definition is_none (cfg : ConsumerConfig) : bool := match Policy cfg with AckNone => true | _ => false end.

Definition UpdateDelivered o (dseq sseq dc ts : Z) : consumerMemStore * option consumer_error :=
  if negb (dc =? 1) && is_none (ccfg o) then (o, Some ErrNoAckPolicy)
  else if dseq <=? Consumer (AckFloor (cstate o)) then (o, None)
  else if is_none (ccfg o) then (with_cstate o (deliver_none (cstate o) dseq sseq), None)
  else (with_cstate o (deliver_pending (ccfg o) (cstate o) dseq sseq dc ts), None).

(** ** Acknowledgements *)

(** The loop down from [seq] to above [low], at most [fuel] sequences. *)
Fixpoint ack_down (fuel : nat) (seq low : Z) (pend : gmap Z Pending) (red : gmap Z Z) : gmap Z Pending * gmap Z Z :=
  match fuel with
  | O => (pend, red)
  | S fuel =>
      if (low <? seq) && negb (Nat.eqb (size pend) 0) then ack_down fuel (seq - 1) low (delete seq pend) (delete seq red)
      else (pend, red)
  end.

(** The loop over the pending messages; both maps lose the pending sequences up to [seq]. *)
Definition ack_scan (seq : Z) (pend : gmap Z Pending) (red : gmap Z Z) : gmap Z Pending * gmap Z Z :=
  (filter (fun kp => ~ kp.1 <= seq) pend, filter (fun kn => ~ (kn.1 <= seq /\ is_Some (pend !! kn.1))) red).

Definition ack_all st (dseq sseq : Z) : ConsumerState :=
  let sgap := u64 (sseq - Stream (AckFloor st)) in
  let '(pend, red) :=
    if Z.of_nat (size (pending st)) <? sgap then ack_scan sseq (pending st) (Redelivered st)
    else ack_down (Z.to_nat sgap) sseq (u64 (sseq - sgap)) (pending st) (Redelivered st) in
  mkConsumerState (Delivered st) (mkPair dseq sseq) pend red.

(** The floor after an explicit acknowledgement: below the next pending message. *)
Definition next_floor (delivered : SequencePair) (pend : gmap Z Pending) (dseq sseq : Z) : SequencePair :=
  if dseq <? Consumer delivered then
    match k ← Mem.first_up (fun k => bool_decide (is_Some (pend !! k))) (u64 (sseq + 1)) (Stream delivered); p ← pend !! k; Some (k, p) with
    | Some (k, p) => if 0 <? Sequence p then mkPair (Sequence p - 1) (k - 1) else mkPair dseq sseq
    | None => mkPair dseq sseq
    end
  else mkPair dseq sseq.

Definition ack_explicit st (dseq sseq : Z) : ConsumerState :=
  let dseq := match pending st !! sseq with Some p => if (Sequence p <? dseq) && (0 <? Sequence p) then Sequence p else dseq | None => dseq end in
  let pend := delete sseq (pending st) in
  let floor :=
    if Nat.eqb (size pend) 0 then Delivered st
    else if dseq =? u64 (Consumer (AckFloor st) + 1) then next_floor (Delivered st) pend dseq sseq
    else AckFloor st in
  mkConsumerState (Delivered st) floor pend (Redelivered st).

Definition UpdateAcks o (dseq sseq : Z) : consumerMemStore * option consumer_error :=
  if is_none (ccfg o) then (o, Some ErrNoAckPolicy) else
  let st := cstate o in
  let st := mkConsumerState (Delivered st) (AckFloor st) (pending st) (delete sseq (Redelivered st)) in
  if dseq <=? Consumer (AckFloor st) then (with_cstate o st, None) else
  match pending st !! sseq with
  | None => (with_cstate o st, Some ErrMsgNotFound)
  | Some _ =>
      match Policy (ccfg o) with
      | AckAll | AckFlowControl => (with_cstate o (ack_all st dseq sseq), None)
      | _ => (with_cstate o (ack_explicit st dseq sseq), None)
      end
  end.

Definition RemoveRedeliveredBelow o (seq : Z) : consumerMemStore :=
  if seq =? 0 then o else
  let st := cstate o in
  with_cstate o (mkConsumerState (Delivered st) (AckFloor st) (pending st) (filter (fun kn => ~ kn.1 < seq) (Redelivered st))).

Definition UpdateConfig o (cfg : ConsumerConfig) : consumerMemStore := mkConsumer cfg (cstate o) (cclosed o).

(** ** Creation, state and end *)

Section store.
Context {F D W : Type}.

Definition ConsumerStore (ms : Mem.memStore F D W) (name : string) (cfg : option ConsumerConfig) : consumer_error + Mem.memStore F D W * consumerMemStore :=
  if Mem.isClosed ms then inl ErrClosed else
  match cfg with
  | None => inl ErrBadConsumerConfig
  | Some cfg => if String.eqb name "" then inl ErrBadConsumerConfig else inr (MemAdmin.AddConsumer ms, mkConsumer cfg zero_state false)
  end.

Definition Stop (ms : Mem.memStore F D W) o : Mem.memStore F D W * consumerMemStore :=
  (MemAdmin.RemoveConsumer ms, mkConsumer (ccfg o) (cstate o) true).
Definition Delete (ms : Mem.memStore F D W) o : Mem.memStore F D W * consumerMemStore := Stop ms o.
Definition StreamDelete (ms : Mem.memStore F D W) o : Mem.memStore F D W * consumerMemStore := Stop ms o.
End store.

Definition stateWithCopy o : consumer_error + ConsumerState := if cclosed o then inl ErrClosed else inr (cstate o).
Definition State o : consumer_error + ConsumerState := stateWithCopy o.
Definition BorrowState o : consumer_error + ConsumerState := stateWithCopy o.

(** ** The snapshot *)

Definition magic : Z := 22.
Definition second : Z := 1000000000.

(** [mints] is the current time, rounded to seconds. *)
Definition encode_pending (mints : Z) st (kp : Z * Pending) : list Z :=
  put_uvarint (u64 (kp.1 - Stream (AckFloor st))) ++ put_uvarint (u64 (Sequence kp.2 - Consumer (AckFloor st))) ++
  put_varint (i64 (mints - Z.quot (Timestamp kp.2) second)).

Definition encode_redelivered st (kn : Z * Z) : list Z := put_uvarint (u64 (kn.1 - Stream (AckFloor st))) ++ put_uvarint kn.2.

Section encode.
(** The orders in which Go ranges over the two maps. *)
Context (range_pending : gmap Z Pending -> list (Z * Pending)) (range_redelivered : gmap Z Z -> list (Z * Z)).

Definition encode_pendings (mints : Z) st : list Z :=
  put_uvarint (Z.of_nat (size (pending st))) ++
  (if Nat.eqb (size (pending st)) 0 then [] else put_varint mints ++ (range_pending (pending st) ≫= encode_pending mints st)).

Definition encode_redelivereds st : list Z :=
  put_uvarint (Z.of_nat (size (Redelivered st))) ++ (range_redelivered (Redelivered st) ≫= encode_redelivered st).

Definition encodeConsumerState (mints : Z) st : list Z :=
  [magic; 2] ++ put_uvarint (Consumer (AckFloor st)) ++ put_uvarint (Stream (AckFloor st)) ++
  put_uvarint (Consumer (Delivered st)) ++ put_uvarint (Stream (Delivered st)) ++ encode_pendings mints st ++ encode_redelivereds st.

Definition EncodedState o (mints : Z) : consumer_error + list Z :=
  if cclosed o then inl ErrClosed else inr (encodeConsumerState mints (cstate o)).
End encode.

Definition checkConsumerHeader (hdr : list Z) : consumer_error + Z :=
  match hdr with
  | m :: version :: _ =>
      if negb (m =? magic) then inl ErrCorruptState
      else if (version =? 1) || (version =? 2) then inr version else inl ErrUnsupportedVersion
  | _ => inl ErrCorruptState
  end.

(** What is left of the buffer; [None] is the index -1 after a failed read. *)
Definition cursor : Type := option (list Z).

Definition readSeq (b : cursor) : Z * cursor :=
  match b with
  | None => (0, None)
  | Some b => let '(x, n) := uvarint b in if n <=? 0 then (0, None) else (x, Some (drop (Z.to_nat n) b))
  end.

Definition readTimeStamp (b : cursor) : Z * cursor :=
  match b with
  | None => (0, None)
  | Some b => let '(x, n) := varint b in if n <=? 0 then (-1, None) else (x, Some (drop (Z.to_nat n) b))
  end.

Fixpoint decode_pending (n : nat) (version mints : Z) (floor : SequencePair) (b : cursor) (m : gmap Z Pending) : option (gmap Z Pending * cursor) :=
  match n with
  | O => Some (m, b)
  | S n =>
      let '(sseq, b) := readSeq b in
      let '(dseq, b) := if version =? 2 then readSeq b else (0, b) in
      let '(ts, b) := readTimeStamp b in
      match b with
      | None => None
      | Some _ =>
          let sseq := u64 (sseq + Stream floor) in
          if sseq =? 0 then None else
          let dseq := if version =? 2 then u64 (dseq + Consumer floor) else dseq in
          let ts := if version =? 1 then i64 (i64 (ts + mints) * second) else i64 (i64 (mints - ts) * second) in
          decode_pending n version mints floor b (<[sseq := mkPending dseq ts]> m)
      end
  end.

Fixpoint decode_redelivered (n : nat) (floor : SequencePair) (b : cursor) (m : gmap Z Z) : gmap Z Z :=
  match n with
  | O => m
  | S n =>
      let '(seq, b) := readSeq b in
      let '(c, b) := readSeq b in
      decode_redelivered n floor b (if (0 <? seq) && (0 <? c) then <[u64 (seq + Stream floor) := c]> m else m)
  end.

Definition decode_pendings (version : Z) (floor : SequencePair) (b : cursor) : option (gmap Z Pending * cursor) :=
  let '(n, b) := readSeq b in
  if 0 <? n then let '(mints, b) := readTimeStamp b in decode_pending (Z.to_nat (i64 n)) version mints floor b ∅ else Some (∅, b).

Definition decode_redelivereds (floor : SequencePair) (b : cursor) : gmap Z Z :=
  let '(n, b) := readSeq b in decode_redelivered (Z.to_nat (i64 n)) floor b ∅.

Definition high_bit (x : Z) : bool := Z.testbit x 63.

Definition decodeConsumerState (buf : list Z) : consumer_error + ConsumerState :=
  match checkConsumerHeader buf with
  | inl e => inl e
  | inr version =>
      let b := Some (drop 2 buf) in
      let '(fc, b) := readSeq b in
      let '(fs, b) := readSeq b in
      let '(dc, b) := readSeq b in
      let '(ds, b) := readSeq b in
      match b with
      | None => inl ErrCorruptState
      | Some _ =>
          let dc := if (version =? 1) && (1 <? fc) then u64 (dc + (fc - 1)) else dc in
          let ds := if (version =? 1) && (1 <? fs) then u64 (ds + (fs - 1)) else ds in
          if high_bit fs || high_bit ds then inl ErrCorruptState else
          let floor := mkPair fc fs in
          match decode_pendings version floor b with
          | None => inl ErrCorruptState
          | Some (pend, b) => inr (mkConsumerState (mkPair dc ds) floor pend (decode_redelivereds floor b))
          end
      end
  end.

End Consumers.
