(* ===== verification/ConsumerStoreSpec.v ===== *)
(** * Consumers: properties

    The pending messages of a consumer are the delivered ones that are neither acknowledged nor
    given up, the acknowledgement floor is a boundary below which there is none of them, and a
    snapshot gives the state back. *)

From S2P Require Import Prelude Binary Scheduler MemStore MemStoreAdmin MemStoreProofs ConsumerStore.
Import Consumers.

(** ** Operations, and what has been delivered and acknowledged *)

Inductive con_op : Type :=
| CDeliver (dseq sseq dc ts : Z)
| CAck (dseq sseq : Z)
| CStarting (sseq : Z)
| CReset (sseq : Z)
| CBelow (seq : Z)
| CMaxDeliver (n : Z).

(** What happened to a consumer: the consumer sequence of the first delivery of each message, the
    acknowledged messages, those given up after [MaxDeliver] deliveries, whether a message was
    given up or delivered again after its acknowledgement ([exact] is false then), and whether
    an acknowledgement of all messages named a later delivery than the first ([in_order] is false
    then). *)
Record ghost : Type := mkGhost { first : gmap Z Z; acked : gset Z; given_up : gset Z; exact : bool; in_order : bool }.

Definition gone (g : ghost) : gset Z := acked g ∪ given_up g.
Definition new_ghost : ghost := mkGhost ∅ ∅ ∅ true true.

Implicit Types (o : consumerMemStore) (g : ghost).

Definition con_run o (c : con_op) : consumerMemStore :=
  match c with
  | CDeliver dseq sseq dc ts => (UpdateDelivered o dseq sseq dc ts).1
  | CAck dseq sseq => (UpdateAcks o dseq sseq).1
  | CStarting sseq => UpdateStarting o sseq
  | CReset sseq => Reset o sseq
  | CBelow seq => RemoveRedeliveredBelow o seq
  | CMaxDeliver n => UpdateConfig o (mkConsumerConfig (Policy (ccfg o)) n)
  end.

Definition delivered_seq o : Z := Consumer (Delivered (cstate o)).
Definition delivered_stream o : Z := Stream (Delivered (cstate o)).
Definition floor_seq o : Z := Consumer (AckFloor (cstate o)).
Definition floor_stream o : Z := Stream (AckFloor (cstate o)).
Definition is_explicit o : bool := match Policy (ccfg o) with AckExplicit => true | _ => false end.

(** A delivery after which the message is no longer pending. *)
Definition over_max (cfg : ConsumerConfig) (dc : Z) : bool := (1 <? dc) && ((0 <? u64 (MaxDeliver cfg)) && (u64 (MaxDeliver cfg) <? dc)).

Definition top : Z := 2 ^ 64 - 1.

(** A delivery is of a new message with the next consumer sequence, or a replay, a redelivery or
    an update of one that was delivered before, with a consumer sequence that was used or the
    next one.  An acknowledgement is a replay, or names a delivery of its message. *)
Definition con_ok o (c : con_op) : Prop :=
  match c with
  | CDeliver dseq sseq dc ts =>
      dseq <= floor_seq o \/ (dseq = delivered_seq o + 1 /\ dseq < top /\ delivered_stream o < sseq < top) \/
      (dseq <= delivered_seq o + 1 /\ dseq < top /\ sseq <= delivered_stream o)
  | CAck dseq sseq => forall p, pending (cstate o) !! sseq = Some p -> dseq <= floor_seq o \/ Sequence p <= dseq <= delivered_seq o
  | CStarting sseq | CReset sseq => 0 <= sseq < top
  | CBelow _ | CMaxDeliver _ => True
  end.

(** A delivery that is expected to be acknowledged. *)
Definition ghost_deliver o (dseq sseq dc : Z) g : ghost :=
  let new := delivered_stream o <? sseq in
  let known := bool_decide (is_Some (pending (cstate o) !! sseq)) in
  let drop := over_max (ccfg o) dc && (new || known) in
  mkGhost (if new then <[sseq := dseq]> (first g) else first g) (acked g) (if drop then given_up g ∪ {[sseq]} else given_up g)
    (exact g && negb drop && (new || known || (dseq <=? delivered_seq o))) (in_order g).

Definition con_ghost o (c : con_op) g : ghost :=
  match c with
  | CDeliver dseq sseq dc _ =>
      if dseq <=? floor_seq o then g
      else if is_none (ccfg o) then
        if (dc =? 1) && (delivered_stream o <? sseq) then mkGhost (<[sseq := dseq]> (first g)) (acked g ∪ {[sseq]}) (given_up g) (exact g) (in_order g) else g
      else ghost_deliver o dseq sseq dc g
  | CAck dseq sseq =>
      match pending (cstate o) !! sseq with
      | Some p =>
          if dseq <=? floor_seq o then g
          else if is_explicit o then mkGhost (first g) (acked g ∪ {[sseq]}) (given_up g) (exact g) (in_order g)
          else mkGhost (first g) (acked g ∪ filter (fun s => s <= sseq) (dom (first g))) (given_up g) (exact g) (in_order g && (dseq =? Sequence p))
      | None => g
      end
  | CReset _ => new_ghost
  | CStarting _ | CBelow _ | CMaxDeliver _ => g
  end.

Inductive con_reach : ghost -> consumerMemStore -> Prop :=
| creach_new cfg : con_reach new_ghost (mkConsumer cfg zero_state false)
| creach_op g o c : con_reach g o -> con_ok o c -> con_reach (con_ghost o c g) (con_run o c).

(** ** The invariant *)

Record con_inv g o : Prop := {
  ci_floor : 0 <= floor_seq o <= delivered_seq o;
  ci_stream : 0 <= floor_stream o <= delivered_stream o;
  ci_top : delivered_seq o < top /\ delivered_stream o < top;
  ci_pending : forall s p, pending (cstate o) !! s = Some p -> first g !! s = Some (Sequence p) /\ s ∉ gone g /\ floor_stream o < s;
  ci_above : in_order g = true -> forall s p, pending (cstate o) !! s = Some p -> floor_seq o < Sequence p;
  ci_unacked : forall s d, first g !! s = Some d -> s ∉ gone g -> is_Some (pending (cstate o) !! s);
  ci_gone : forall s, s ∈ gone g -> is_Some (first g !! s);
  ci_range : forall s d, first g !! s = Some d -> 0 < d <= delivered_seq o /\ s <= delivered_stream o;
  ci_mono : forall s s' d d', first g !! s = Some d -> first g !! s' = Some d' -> s < s' -> d < d';
  ci_none : is_none (ccfg o) = true -> pending (cstate o) = ∅ /\ floor_seq o = delivered_seq o;
  ci_order : is_explicit o = true -> in_order g = true;
  ci_exact : is_explicit o = true -> exact g = true ->
    (pending (cstate o) = ∅ /\ floor_seq o = delivered_seq o) \/ exists s p, pending (cstate o) !! s = Some p /\ Sequence p = floor_seq o + 1 }.

Lemma con_inv_new cfg : con_inv new_ghost (mkConsumer cfg zero_state false).
Proof. split; cbn; try done; unfold top; try lia. by left. Qed.

(** The parts the invariant is about. *)
Definition same_view o o' : Prop :=
  Policy (ccfg o') = Policy (ccfg o) /\ Delivered (cstate o') = Delivered (cstate o) /\ AckFloor (cstate o') = AckFloor (cstate o) /\ pending (cstate o') = pending (cstate o).

Lemma con_inv_view g o o' : same_view o o' -> con_inv g o -> con_inv g o'.
Proof.
  intros (Ep&Ed&Ef&Eq) [? ? ? ? ? ? ? ? ? Hn Ho He]. unfold is_none, is_explicit in *.
  split; unfold delivered_seq, delivered_stream, floor_seq, floor_stream, is_none, is_explicit in *; rewrite ?Ep, ?Ed, ?Ef, ?Eq; done.
Qed.

(** ** Deliveries *)

(** The pending messages of [deliver_pending] before the one over the limit is removed. *)
Definition deliver_base st (dseq sseq ts : Z) : gmap Z Pending :=
  if sseq <=? Stream (Delivered st) then alter (fun p => mkPending (Sequence p) ts) sseq (pending st) else <[sseq := mkPending dseq ts]> (pending st).

Definition deliver_keep st (dseq sseq ts : Z) : ConsumerState :=
  mkConsumerState (mkPair (Z.max (Consumer (Delivered st)) dseq) (Z.max (Stream (Delivered st)) sseq)) (AckFloor st) (deliver_base st dseq sseq ts) (Redelivered st).

Lemma deliver_pending_view cfg st dseq sseq dc ts :
  let st' := deliver_pending cfg st dseq sseq dc ts in
  let st1 := deliver_keep st dseq sseq ts in
  Delivered st' = Delivered st1 /\ AckFloor st' = AckFloor st1 /\ pending st' = if over_max cfg dc then delete sseq (pending st1) else pending st1.
Proof.
  unfold deliver_pending, deliver_keep, deliver_base, over_max. cbv zeta.
  assert ((match pending st !! sseq with Some p => <[sseq := mkPending (Sequence p) ts]> (pending st) | None => pending st end) = alter (fun p => mkPending (Sequence p) ts) sseq (pending st)) as ->.
  { destruct (pending st !! sseq) as [p|] eqn:E; [|by rewrite alter_id; [|intros; simplify_eq]]. apply map_eq. intros k. destruct (decide (k = sseq)) as [->|Hne].
    - by rewrite lookup_insert_eq, lookup_alter_eq, E.
    - by rewrite lookup_insert_ne, lookup_alter_ne. }
  destruct (1 <? dc); cbn [andb]; [|done]. by destruct (_ && _).
Qed.

Lemma deliver_none_view st dseq sseq : Consumer (AckFloor st) < dseq -> Consumer (AckFloor st) = Consumer (Delivered st) ->
  deliver_none st dseq sseq = mkConsumerState (mkPair dseq (Z.max (Stream (Delivered st)) sseq))
    (mkPair dseq (if Stream (Delivered st) <? sseq then sseq else Stream (AckFloor st))) (pending st) (Redelivered st).
Proof.
  intros H1 H2. unfold deliver_none. rewrite (proj2 (Z.ltb_lt (Consumer (Delivered st)) dseq)) by lia.
  destruct (Z.ltb_spec (Stream (Delivered st)) sseq); [by rewrite Z.max_r by lia|by rewrite Z.max_l by lia].
Qed.

Lemma pending_bound g o s p : con_inv g o -> pending (cstate o) !! s = Some p -> s <= delivered_stream o /\ 0 < Sequence p <= delivered_seq o.
Proof. intros Hi Hp. apply (ci_pending _ _ Hi) in Hp as (Hg&_). apply (ci_range _ _ Hi) in Hg. lia. Qed.

(** The projections of a state after an operation. *)
Ltac con_unfold := unfold delivered_seq, delivered_stream, floor_seq, floor_stream, is_explicit in *.

(** A new delivery comes after all others. *)
Lemma mono_insert g o dseq sseq : con_inv g o -> delivered_seq o < dseq -> delivered_stream o < sseq ->
  forall s s' d d', <[sseq := dseq]> (first g) !! s = Some d -> <[sseq := dseq]> (first g) !! s' = Some d' -> s < s' -> d < d'.
Proof.
  intros Hi Hd Hs s s' d d' [[<- <-]|[Hne Hg]]%lookup_insert_Some [[<- <-]|[Hne' Hg']]%lookup_insert_Some; [lia| | |by apply (ci_mono _ _ Hi)]; intros Hlt.
  - apply (ci_range _ _ Hi) in Hg'. lia.
  - apply (ci_range _ _ Hi) in Hg. lia.
Qed.

Lemma deliver_new_inv g o dseq sseq ts : con_inv g o -> dseq = delivered_seq o + 1 -> dseq < top -> delivered_stream o < sseq < top -> is_none (ccfg o) = false ->
  con_inv (mkGhost (<[sseq := dseq]> (first g)) (acked g) (given_up g) (exact g) (in_order g)) (with_cstate o (deliver_keep (cstate o) dseq sseq ts)).
Proof.
  intros Hi Hd Ht Hs Hn. pose proof Hi as [? ? ? Hp Hab Hu Ha Hr Hm _ Ho He]. con_unfold. unfold gone in *. unfold deliver_keep, deliver_base.
  rewrite (proj2 (Z.leb_gt sseq (Stream (Delivered (cstate o))))) by lia.
  assert (first g !! sseq = None) as HG. { apply eq_None_not_Some. intros [d Hd']. apply Hr in Hd'. lia. }
  split; con_unfold; unfold gone; cbn [with_cstate cstate ccfg Delivered AckFloor pending Consumer Stream first acked given_up in_order exact]; try lia; try done.
  - intros s p [[<- <-]|[Hne Hp']]%lookup_insert_Some; [|destruct (Hp s p Hp') as (?&?&?); by rewrite lookup_insert_ne].
    rewrite lookup_insert_eq. split_and!; [done| |cbn; lia]. intros [? HA]%Ha. congruence.
  - intros Hin s p [[<- <-]|[Hne Hp']]%lookup_insert_Some; [cbn; lia|by eapply Hab].
  - intros s d [[<- <-]|[Hne Hg]]%lookup_insert_Some HA; [by rewrite lookup_insert_eq|]. rewrite lookup_insert_ne by done. by eapply Hu.
  - intros s HA. destruct (decide (s = sseq)) as [->|]; [by rewrite lookup_insert_eq|]. rewrite lookup_insert_ne by done. by apply Ha.
  - intros s d [[<- <-]|[Hne Hg]]%lookup_insert_Some; [lia|]. apply Hr in Hg. lia.
  - apply (mono_insert g o); [done|con_unfold; lia|con_unfold; lia].
  - rewrite Hn. done.
  - intros Hx Hex. right. destruct (He Hx Hex) as [[Ee Ef]|(s&p&Hs'&Hp')]; [exists sseq, (mkPending dseq ts); rewrite lookup_insert_eq; cbn; split; [done|lia]|].
    exists s, p. split; [|done]. rewrite lookup_insert_ne; [done|]. intros ->. apply Hp in Hs' as (Hg&_). congruence.
Qed.

(** A delivery of a message that was delivered before; the floor can be behind when it is of one
    that is not pending. *)
Lemma redeliver_inv g o dseq sseq ts e : con_inv g o -> dseq <= delivered_seq o + 1 -> dseq < top -> sseq <= delivered_stream o -> is_none (ccfg o) = false ->
  e = exact g && (bool_decide (is_Some (pending (cstate o) !! sseq)) || (dseq <=? delivered_seq o)) ->
  con_inv (mkGhost (first g) (acked g) (given_up g) e (in_order g)) (with_cstate o (deliver_keep (cstate o) dseq sseq ts)).
Proof.
  intros Hi Hd Ht Hs Hnn ->. pose proof Hi as [? ? ? Hp Hab Hu Ha Hr Hm Hn Ho He]. con_unfold. unfold gone in *. unfold deliver_keep, deliver_base.
  rewrite (proj2 (Z.leb_le sseq (Stream (Delivered (cstate o))))) by lia.
  split; con_unfold; unfold gone; cbn [with_cstate cstate ccfg Delivered AckFloor pending Consumer Stream first acked given_up in_order exact]; try lia; try done.
  - intros s q. rewrite lookup_alter_Some. intros [(<-&q'&Hq&->)|[_ Hq]]; by apply Hp in Hq.
  - intros Hin s q. rewrite lookup_alter_Some. intros [(<-&q'&Hq&->)|[_ Hq]]; by eapply Hab in Hq.
  - intros s d Hg HA. rewrite lookup_alter_is_Some. by eapply Hu.
  - intros s d Hg. apply Hr in Hg. lia.
  - rewrite Hnn. done.
  - intros Hx [Hex Hk]%andb_true_iff. destruct (He Hx Hex) as [[Ee Ef]|(s&q&Hq&Hs')].
    + left. rewrite Ee. split; [apply alter_id; by intros ? ?|]. apply orb_true_iff in Hk as [[p Hk]%bool_decide_eq_true|Hk%Z.leb_le]; [by rewrite Ee in Hk|lia].
    + right. destruct (decide (s = sseq)) as [->|Hne]; [exists sseq; eexists; rewrite lookup_alter_eq, Hq; cbn; done|]. exists s, q. by rewrite lookup_alter_ne.
Qed.

(** A message that is given up. *)
Lemma give_up_inv g o sseq : con_inv g o -> is_Some (pending (cstate o) !! sseq) ->
  con_inv (mkGhost (first g) (acked g) (given_up g ∪ {[sseq]}) false (in_order g))
    (with_cstate o (mkConsumerState (Delivered (cstate o)) (AckFloor (cstate o)) (delete sseq (pending (cstate o))) (Redelivered (cstate o)))).
Proof.
  intros Hi [p0 Hp0]. pose proof Hi as [? ? ? Hp Hab Hu Ha Hr Hm Hn Ho He]. con_unfold. unfold gone in *.
  split; con_unfold; unfold gone; cbn [with_cstate cstate ccfg Delivered AckFloor pending Consumer Stream first acked given_up in_order exact]; try lia; try done.
  - intros s p [Hne Hs]%lookup_delete_Some. destruct (Hp s p Hs) as (?&?&?). split_and!; [done|set_solver|done].
  - intros Hin s p [Hne Hs]%lookup_delete_Some. by eapply Hab.
  - intros s d Hg HA. rewrite lookup_delete_ne by set_solver. eapply Hu; [done|set_solver].
  - intros s HA. destruct (decide (s = sseq)) as [->|]; [destruct (Hp _ _ Hp0) as (->&_); done|]. apply Ha. set_solver.
  - intros Hx. destruct (Hn Hx) as [Ee ?]. by rewrite Ee, delete_empty.
Qed.

Lemma deliver_inv g o dseq sseq dc ts : con_inv g o -> is_none (ccfg o) = false ->
  (dseq = delivered_seq o + 1 /\ dseq < top /\ delivered_stream o < sseq < top) \/ (dseq <= delivered_seq o + 1 /\ dseq < top /\ sseq <= delivered_stream o) ->
  con_inv (ghost_deliver o dseq sseq dc g) (with_cstate o (deliver_pending (ccfg o) (cstate o) dseq sseq dc ts)).
Proof.
  intros Hi Hn Hok. set (new := delivered_stream o <? sseq). set (known := bool_decide (is_Some (pending (cstate o) !! sseq))).
  set (o1 := with_cstate o (deliver_keep (cstate o) dseq sseq ts)).
  set (g1 := mkGhost (if new then <[sseq := dseq]> (first g) else first g) (acked g) (given_up g) (exact g && (new || known || (dseq <=? delivered_seq o))) (in_order g)).
  assert (con_inv g1 o1 /\ (new || known = true <-> is_Some (pending (cstate o1) !! sseq))) as [H1 Hk].
  { unfold g1, o1, new, known. destruct Hok as [(?&?&?)|(?&?&Hle)].
    - rewrite (proj2 (Z.ltb_lt (delivered_stream o) sseq)) by lia. cbn [orb]. rewrite andb_true_r. split; [by apply deliver_new_inv|]. cbn. unfold deliver_base. fold (delivered_stream o).
      rewrite (proj2 (Z.leb_gt sseq (delivered_stream o))) by lia. by rewrite lookup_insert_eq.
    - rewrite (proj2 (Z.ltb_ge (delivered_stream o) sseq)) by lia. cbn [orb]. split; [by apply redeliver_inv|]. cbn. unfold deliver_base. fold (delivered_stream o).
      rewrite (proj2 (Z.leb_le sseq (delivered_stream o))) by lia. by rewrite lookup_alter_is_Some, bool_decide_eq_true. }
  destruct (deliver_pending_view (ccfg o) (cstate o) dseq sseq dc ts) as (E1&E2&E3). unfold ghost_deliver. fold new known. destruct (over_max (ccfg o) dc) eqn:Em; cbn [andb negb].
  - destruct (new || known) eqn:Enk; cbn [negb].
    + pose proof (give_up_inv g1 o1 sseq H1 (proj1 Hk eq_refl)) as Hg. rewrite andb_false_r. cbn [andb]. by eapply con_inv_view; [|exact Hg].
    + rewrite andb_true_r. assert (delete sseq (pending (cstate o1)) = pending (cstate o1)) as Ed.
      { apply delete_id, eq_None_not_Some. intros Hs%Hk. done. }
      eapply con_inv_view; [|exact H1]. split_and!; [done|done|done|]. cbn. rewrite E3. exact Ed.
  - rewrite andb_true_r. by eapply con_inv_view; [|exact H1].
Qed.

Lemma deliver_none_inv g o dseq sseq : con_inv g o -> floor_seq o < dseq < top -> sseq <= delivered_stream o -> is_none (ccfg o) = true ->
  con_inv g (with_cstate o (deliver_none (cstate o) dseq sseq)).
Proof.
  intros Hi Hd Hs Hnone. pose proof Hi as [? ? ? Hp Hab Hu Ha Hr Hm Hn Ho He]. destruct (Hn Hnone) as [Ee Ef]. con_unfold.
  rewrite deliver_none_view by lia. rewrite Z.max_l by lia. rewrite (proj2 (Z.ltb_ge _ _)) by lia.
  split; con_unfold; cbn [with_cstate cstate ccfg Delivered AckFloor pending Consumer Stream]; rewrite ?Ee; try lia; try done.
  - rewrite <- Ee. done.
  - intros s d Hg. apply Hr in Hg. lia.
  - by left.
Qed.

Lemma deliver_none_new_inv g o dseq sseq : con_inv g o -> dseq = delivered_seq o + 1 -> dseq < top -> delivered_stream o < sseq < top -> is_none (ccfg o) = true ->
  con_inv (mkGhost (<[sseq := dseq]> (first g)) (acked g ∪ {[sseq]}) (given_up g) (exact g) (in_order g)) (with_cstate o (deliver_none (cstate o) dseq sseq)).
Proof.
  intros Hi Hd Ht Hs Hnone. pose proof Hi as [? ? ? Hp Hab Hu Ha Hr Hm Hn Ho He]. destruct (Hn Hnone) as [Ee Ef]. con_unfold. unfold gone in *.
  rewrite deliver_none_view by lia. rewrite Z.max_r by lia. rewrite (proj2 (Z.ltb_lt _ _)) by lia.
  split; con_unfold; unfold gone; cbn [with_cstate cstate ccfg Delivered AckFloor pending Consumer Stream first acked given_up in_order exact]; rewrite ?Ee; try lia; try done.
  - intros s d [[<- <-]|[Hne Hg]]%lookup_insert_Some HA; [set_solver|]. destruct (Hu s d Hg) as [p Hq]; [set_solver|]. by rewrite Ee in Hq.
  - intros s HA. destruct (decide (s = sseq)) as [->|]; [by rewrite lookup_insert_eq|]. rewrite lookup_insert_ne by done. apply Ha. set_solver.
  - intros s d [[<- <-]|[Hne Hg]]%lookup_insert_Some; [lia|]. apply Hr in Hg. lia.
  - apply (mono_insert g o); [done|con_unfold; lia|con_unfold; lia].
  - by left.
Qed.

(** ** Acknowledgements *)

(** Both loops of [AckAll] drop the pending messages up to [seq]. *)
Lemma ack_down_pending fuel : forall seq low pend red, (forall s p, pend !! s = Some p -> low < s) -> Z.of_nat fuel = seq - low ->
  (ack_down fuel seq low pend red).1 = filter (fun kp => ~ kp.1 <= seq) pend.
Proof.
  induction fuel as [|fuel IH]; intros seq low pend red Hlow Hf; cbn [ack_down].
  - symmetry. apply map_filter_id. intros s p Hs. cbn. apply Hlow in Hs. lia.
  - assert (low <? seq = true) as -> by (apply Z.ltb_lt; lia). cbn [andb]. destruct (Nat.eqb_spec (size pend) 0) as [E|_]; cbn [negb].
    { apply map_size_empty_inv in E as ->. cbn. by rewrite map_filter_empty. }
    rewrite IH; [|intros s p [_ Hs]%lookup_delete_Some; by eapply Hlow|lia]. apply map_eq. intros k. apply option_eq. intros p.
    rewrite !map_lookup_filter_Some, lookup_delete_Some. cbn. split; [intros ((?&?)&?); split; [done|lia]|intros (?&?); split; [split; [lia|done]|lia]].
Qed.

Lemma ack_all_pending st dseq sseq : 0 <= Stream (AckFloor st) -> Stream (AckFloor st) < sseq < top -> (forall s p, pending st !! s = Some p -> Stream (AckFloor st) < s) ->
  let st' := ack_all st dseq sseq in
  Delivered st' = Delivered st /\ AckFloor st' = mkPair dseq sseq /\ pending st' = filter (fun kp => ~ kp.1 <= sseq) (pending st).
Proof.
  intros H0 Hs Hlow. unfold ack_all, top in *. rewrite u64_small by (unfold is_u64; lia). replace (sseq - (sseq - _)) with (Stream (AckFloor st)) by lia.
  rewrite u64_small by (unfold is_u64; lia). cbv zeta. destruct (_ <? _) eqn:E; [done|].
  pose proof (ack_down_pending (Z.to_nat (sseq - Stream (AckFloor st))) sseq (Stream (AckFloor st)) (pending st) (Redelivered st) Hlow) as Hd.
  destruct (ack_down _ _ _ _ _) as [pend red]. cbn in *. rewrite Hd by lia. done.
Qed.

(** The next floor is below the first pending message. *)
Lemma next_floor_spec delivered pend dseq sseq k p : 0 <= sseq < top -> pend !! k = Some p -> sseq < k <= Stream delivered -> 0 < Sequence p -> dseq < Consumer delivered ->
  (forall s, sseq < s < k -> pend !! s = None) -> next_floor delivered pend dseq sseq = mkPair (Sequence p - 1) (k - 1).
Proof.
  intros Hs Hp Hk Hp0 Hd Hnone. unfold next_floor, top in *. rewrite (proj2 (Z.ltb_lt _ _) Hd), u64_small by (unfold is_u64; lia).
  pose proof (first_up_spec (fun k => bool_decide (is_Some (pend !! k))) (sseq + 1) (Stream delivered)) as Hf. destruct (Mem.first_up _ _ _) as [j|].
  - destruct Hf as (Hj&Ht&Hlt). apply bool_decide_eq_true in Ht as [q Hq]. assert (j = k) as ->.
    { destruct (Z.lt_trichotomy j k) as [H|[H|H]]; [|done|].
      - rewrite Hnone in Hq by lia. done.
      - specialize (Hlt k). rewrite bool_decide_eq_false in Hlt. exfalso. apply Hlt; [lia|by rewrite Hp]. }
    cbn [mbind option_bind]. rewrite Hp. cbn [mbind option_bind]. by rewrite (proj2 (Z.ltb_lt _ _) Hp0).
  - specialize (Hf k). rewrite bool_decide_eq_false in Hf. exfalso. apply Hf; [lia|by rewrite Hp].
Qed.

Lemma first_key {V} (m : gmap Z V) : m <> ∅ -> exists k v, m !! k = Some v /\ forall j, is_Some (m !! j) -> k <= j.
Proof.
  induction m as [|i x m Hi IH] using map_ind; [done|]. intros _. destruct (decide (m = ∅)) as [->|Hne].
  - exists i, x. rewrite lookup_insert_eq. split; [done|]. intros j [? [[<- _]|[_ ?]]%lookup_insert_Some]; [lia|done].
  - destruct (IH Hne) as (k&v&Hk&Hmin). destruct (Z.le_gt_cases i k).
    + exists i, x. rewrite lookup_insert_eq. split; [done|]. intros j [? [[<- _]|[_ ?]]%lookup_insert_Some]; [lia|]. specialize (Hmin j). rewrite H0 in Hmin. specialize (Hmin ltac:(done)). lia.
    + exists k, v. rewrite lookup_insert_ne by lia. split; [done|]. intros j [? [[<- _]|[_ ?]]%lookup_insert_Some]; [lia|]. apply Hmin. by eexists.
Qed.

(** What an explicit acknowledgement does to the floor: nothing is left below it, and the first
    pending message is right after it. *)
Lemma ack_explicit_floor g o dseq sseq p : con_inv g o -> is_explicit o = true -> pending (cstate o) !! sseq = Some p -> Sequence p <= dseq ->
  let st' := ack_explicit (cstate o) dseq sseq in
  Delivered st' = Delivered (cstate o) /\ pending st' = delete sseq (pending (cstate o)) /\
  ((pending st' = ∅ /\ AckFloor st' = Delivered (cstate o)) \/
   (AckFloor st' = AckFloor (cstate o) /\ Sequence p <> floor_seq o + 1) \/
   exists k q, pending st' !! k = Some q /\ (forall j, is_Some (pending st' !! j) -> k <= j) /\ AckFloor st' = mkPair (Sequence q - 1) (k - 1)).
Proof.
  intros Hi Hx Hp Hd. destruct (pending_bound _ _ _ _ Hi Hp) as [Hs Hseq]. unfold ack_explicit. cbn [Delivered pending AckFloor]. split; [done|]. split; [done|].
  rewrite Hp. assert ((if (Sequence p <? dseq) && (0 <? Sequence p) then Sequence p else dseq) = Sequence p) as ->.
  { destruct (Z.ltb_spec (Sequence p) dseq); [|cbn; lia]. by rewrite (proj2 (Z.ltb_lt 0 (Sequence p))) by lia. }
  destruct (Nat.eqb_spec (size (delete sseq (pending (cstate o)))) 0) as [E|E]; [left; split; [by apply map_size_empty_inv|done]|right].
  rewrite u64_small by (destruct Hi; unfold is_u64, top, floor_seq in *; lia). destruct (Z.eqb_spec (Sequence p) (Consumer (AckFloor (cstate o)) + 1)) as [Eq|Hne]; [right|by left].
  destruct (first_key (delete sseq (pending (cstate o)))) as (k&q&Hk&Hmin); [by intros E0; rewrite E0, map_size_empty in E|]. exists k, q. split; [done|]. split; [done|].
  pose proof Hk as [Hne Hk']%lookup_delete_Some. destruct (pending_bound _ _ _ _ Hi Hk') as [Hks Hkq].
  destruct (ci_pending _ _ Hi _ _ Hp) as (Hg&_&Hfs), (ci_pending _ _ Hi _ _ Hk') as (Hg'&_&_). pose proof (ci_above _ _ Hi (ci_order _ _ Hi Hx) _ _ Hk') as Hf'. con_unfold.
  assert (sseq < k) as Hlt. { destruct (Z.lt_trichotomy sseq k) as [|[|Hgt]]; [done|done|]. pose proof (ci_mono _ _ Hi _ _ _ _ Hg' Hg Hgt). lia. }
  pose proof (ci_mono _ _ Hi _ _ _ _ Hg Hg' Hlt). destruct (ci_top _ _ Hi), (ci_stream _ _ Hi). con_unfold.
  apply next_floor_spec; try done; try lia. intros s Hs'. apply eq_None_not_Some. intros Hsome%Hmin. lia.
Qed.

Lemma ack_explicit_inv g o dseq sseq p : con_inv g o -> is_explicit o = true -> pending (cstate o) !! sseq = Some p -> Sequence p <= dseq ->
  con_inv (mkGhost (first g) (acked g ∪ {[sseq]}) (given_up g) (exact g) (in_order g)) (with_cstate o (ack_explicit (cstate o) dseq sseq)).
Proof.
  intros Hi Hx Hp Hd. destruct (ack_explicit_floor g o dseq sseq p Hi Hx Hp Hd) as (E1&E2&Hf). pose proof Hi as [Hf1 Hf2 Ht Hpd Hab Hu Ha Hr Hm Hn Ho He]. con_unfold. unfold gone in *.
  assert (is_none (ccfg o) = false) as Hnn by (unfold is_none; by destruct (Policy (ccfg o))). specialize (Hab (Ho Hx)).
  set (st' := ack_explicit (cstate o) dseq sseq) in *.
  assert (Hq : forall s q, pending st' !! s = Some q -> first g !! s = Some (Sequence q) /\ s ∉ acked g ∪ {[sseq]} ∪ given_up g /\ Consumer (AckFloor st') < Sequence q /\ Stream (AckFloor st') < s).
  { intros s q Hsq. pose proof Hsq as Hsq'. rewrite E2 in Hsq'. apply lookup_delete_Some in Hsq' as [Hne Hs']. destruct (Hpd s q Hs') as (Hg&HA&?). pose proof (Hab s q Hs'). split; [done|]. split; [set_solver|].
    destruct Hf as [[Ee _]|[[-> _]|(k&q'&Hk&Hmin&->)]]; [by rewrite Ee in Hsq|done|]. cbn [Consumer Stream]. pose proof (Hmin s ltac:(by rewrite Hsq)) as Hle.
    rewrite E2 in Hk. apply lookup_delete_Some in Hk as [_ Hk]. destruct (Hpd k q' Hk) as (Hgk&_). destruct (decide (s = k)) as [->|]; [rewrite Hk in Hs'; simplify_eq; lia|].
    pose proof (Hm k s _ _ Hgk Hg ltac:(lia)). lia. }
  assert (Hb : 0 <= Consumer (AckFloor st') <= Consumer (Delivered (cstate o)) /\ 0 <= Stream (AckFloor st') <= Stream (Delivered (cstate o))).
  { destruct Hf as [[_ ->]|[[-> _]|(k&q'&Hk&_&->)]]; [lia|lia|]. rewrite E2 in Hk. apply lookup_delete_Some in Hk as [_ Hk].
    destruct (pending_bound _ _ _ _ Hi Hk), (Hpd k q' Hk) as (_&_&?). pose proof (Hab k q' Hk). con_unfold. cbn. lia. }
  split; con_unfold; unfold gone; cbn [with_cstate cstate ccfg first acked given_up in_order exact]; rewrite ?E1; try done; try apply Hb.
  - intros s q Hs. by destruct (Hq s q Hs) as (?&?&_&?).
  - intros _ s q Hs. by destruct (Hq s q Hs) as (_&_&?&_).
  - intros s d Hg HA. destruct (Hu s d Hg) as [q Hs]; [set_solver|]. rewrite E2, lookup_delete_ne by set_solver. by rewrite Hs.
  - intros s HA. destruct (decide (s = sseq)) as [->|]; [destruct (Hpd _ _ Hp) as (Hg&_); by rewrite Hg|]. apply Ha. set_solver.
  - by rewrite Hnn.
  - intros _ Hex. destruct Hf as [[Ee ->]|[[Ef Hne]|(k&q&Hk&_&->)]]; [by left| |right; exists k, q; split; [done|cbn; lia]]. right. rewrite Ef.
    destruct (He Hx Hex) as [[Ee _]|(s&q&Hs&Hq')]; [by rewrite Ee in Hp|]. exists s, q. rewrite E2, lookup_delete_ne; [done|]. intros <-. rewrite Hp in Hs. by simplify_eq.
Qed.

Lemma ack_all_inv g o dseq sseq p : con_inv g o -> is_explicit o = false -> is_none (ccfg o) = false -> pending (cstate o) !! sseq = Some p -> Sequence p <= dseq <= delivered_seq o ->
  con_inv (mkGhost (first g) (acked g ∪ filter (fun s => s <= sseq) (dom (first g))) (given_up g) (exact g) (in_order g && (dseq =? Sequence p)))
    (with_cstate o (ack_all (cstate o) dseq sseq)).
Proof.
  intros Hi Hx Hnn Hp Hd. pose proof Hi as [Hf1 Hf2 Ht Hpd Hab Hu Ha Hr Hm Hn Ho He]. destruct (pending_bound _ _ _ _ Hi Hp) as [Hs Hseq]. destruct (Hpd _ _ Hp) as (Hg0&_&Hfs). con_unfold. unfold gone in *.
  destruct (ack_all_pending (cstate o) dseq sseq) as (E1&E2&E3); [lia|lia|intros s q Hq; by apply Hpd in Hq as (_&_&?)|].
  split; con_unfold; unfold gone; cbn [with_cstate cstate ccfg first acked given_up in_order exact]; rewrite ?E1, ?E2, ?E3; cbn [Consumer Stream]; try done; try lia.
  - intros s q [Hs' Hgt]%map_lookup_filter_Some. cbn in Hgt. destruct (Hpd s q Hs') as (Hg&HA&_).
    split_and!; [done| |lia]. rewrite !elem_of_union, elem_of_filter in *. naive_solver lia.
  - intros [Hin Heq%Z.eqb_eq]%andb_true_iff s q [Hs' Hgt]%map_lookup_filter_Some. cbn in Hgt. destruct (Hpd s q Hs') as (Hg&_&_). pose proof (Hm _ _ _ _ Hg0 Hg ltac:(lia)). lia.
  - intros s d Hg HA. rewrite !elem_of_union, elem_of_filter, elem_of_dom, Hg in HA. destruct (Hu s d Hg) as [q Hq]; [set_solver|]. exists q. apply map_lookup_filter_Some. split; [done|]. cbn.
    intros Hle. apply HA. left. right. split; [lia|done].
  - intros s [[HA|[_ HA]%elem_of_filter]%elem_of_union|HA]%elem_of_union; [apply Ha; set_solver|by apply elem_of_dom|apply Ha; set_solver].
  - rewrite Hnn. done.
  - rewrite Hx. done.
  - rewrite Hx. done.
Qed.

Lemma with_cstate_view o st : Delivered st = Delivered (cstate o) -> AckFloor st = AckFloor (cstate o) -> pending st = pending (cstate o) -> same_view o (with_cstate o st).
Proof. by intros. Qed.

Lemma deliver_step_inv g o dseq sseq dc ts : con_inv g o -> con_ok o (CDeliver dseq sseq dc ts) -> con_inv (con_ghost o (CDeliver dseq sseq dc ts) g) (UpdateDelivered o dseq sseq dc ts).1.
Proof.
  intros Hi Hok. cbn [con_ghost con_ok] in *. unfold UpdateDelivered. fold (floor_seq o). destruct (Z.leb_spec dseq (floor_seq o)) as [Hle|Hgt]; [by destruct (negb _ && _)|].
  destruct Hok as [?|Hok]; [lia|]. destruct (is_none (ccfg o)) eqn:Hx; cbn [andb].
  - rewrite andb_true_r. destruct (dc =? 1); cbn [negb andb fst]; [|done]. destruct Hok as [(?&?&?)|(?&?&?)].
    + rewrite (proj2 (Z.ltb_lt _ _)) by lia. by apply deliver_none_new_inv.
    + rewrite (proj2 (Z.ltb_ge _ _)) by lia. by apply deliver_none_inv.
  - rewrite andb_false_r. cbn [fst]. by apply deliver_inv.
Qed.

Lemma ack_step_inv g o dseq sseq : con_inv g o -> con_ok o (CAck dseq sseq) -> con_inv (con_ghost o (CAck dseq sseq) g) (UpdateAcks o dseq sseq).1.
Proof.
  intros Hi Hok. cbn [con_ghost con_ok] in *. unfold UpdateAcks. destruct (is_none (ccfg o)) eqn:Hx; cbn [fst snd].
  { destruct (ci_none _ _ Hi Hx) as [-> _]. done. }
  set (o1 := with_cstate o (mkConsumerState _ _ _ (delete sseq _))). assert (con_inv g o1) as Hi1 by by eapply con_inv_view; [apply with_cstate_view|].
  cbn [AckFloor pending]. fold (floor_seq o). destruct (pending (cstate o) !! sseq) as [p|] eqn:Hp; [|by destruct (_ <=? _)].
  destruct (Z.leb_spec dseq (floor_seq o)) as [Hle|Hgt]; [done|]. destruct (Hok p eq_refl) as [?|Hd]; [lia|].
  destruct (is_explicit o) eqn:Hex; cbn [fst snd].
  - pose proof (ack_explicit_inv g o1 dseq sseq p Hi1 Hex Hp ltac:(lia)). unfold is_explicit in Hex. destruct (Policy (ccfg o)); done.
  - pose proof (ack_all_inv g o1 dseq sseq p Hi1 Hex Hx Hp Hd). unfold is_explicit, is_none in *. destruct (Policy (ccfg o)); done.
Qed.

Lemma con_step_inv g o c : con_inv g o -> con_ok o c -> con_inv (con_ghost o c g) (con_run o c).
Proof.
  intros Hi Hok. destruct c as [dseq sseq dc ts|dseq sseq|sseq|sseq|seq|n]; [by apply deliver_step_inv|by apply ack_step_inv|..]; cbn [con_ghost con_run con_ok] in *.
  - pose proof Hi as [Hf1 Hf2 Ht Hpd Hab Hu Ha Hr Hm Hn Ho He]. unfold UpdateStarting. destruct (Z.ltb_spec (Stream (Delivered (cstate o))) sseq) as [Hlt|]; [|done].
    assert (Hsp : forall s d, first g !! s = Some d -> 0 < d <= delivered_seq o /\ s <= sseq) by (intros s d Hg; apply Hr in Hg; con_unfold; lia).
    unfold is_none in *. con_unfold. destruct (Policy (ccfg o)) eqn:Ep;
      (split; con_unfold; unfold is_none in *; cbn [with_cstate cstate ccfg Delivered AckFloor pending Consumer Stream]; rewrite ?Ep; try done; try lia).
    destruct (Hn eq_refl) as [Ee ?]. intros s p. by rewrite Ee.
  - unfold Reset, SetStarting. split; con_unfold; cbn; try done; unfold top in *; try lia. by left.
  - unfold RemoveRedeliveredBelow. destruct (seq =? 0); [done|]. by eapply con_inv_view; [apply with_cstate_view|].
  - by eapply con_inv_view; [|exact Hi].
Qed.

Lemma con_reach_inv g o : con_reach g o -> con_inv g o.
Proof. induction 1; [apply con_inv_new|by apply con_step_inv]. Qed.

(** C24. After any deliveries, redeliveries, replays, acknowledgements, resets and changes of
    [MaxDeliver] of a consumer, whatever its policy, the pending messages are exactly the ones
    delivered and neither acknowledged nor given up at [MaxDeliver], each with its first consumer
    sequence; everything up to the stream sequence of the acknowledgement floor is acknowledged
    or given up.  The same holds for the consumer sequence of the floor unless, with [AckAll], a
    redelivery was acknowledged, which is never so with explicit acknowledgements.  With these
    the floor is exact, until a message is given up or delivered again after its acknowledgement:
    the next consumer sequence is of a pending message, or nothing is pending. *)
Theorem consumer_sound g o (Hr : con_reach g o) :
  floor_seq o <= delivered_seq o /\ floor_stream o <= delivered_stream o /\
  (forall s d, (exists p, pending (cstate o) !! s = Some p /\ Sequence p = d) <-> first g !! s = Some d /\ s ∉ acked g /\ s ∉ given_up g) /\
  (forall s d, first g !! s = Some d -> s <= floor_stream o \/ (in_order g = true /\ d <= floor_seq o) -> s ∈ acked g \/ s ∈ given_up g) /\
  (is_explicit o = true -> in_order g = true) /\
  (is_explicit o = true -> exact g = true ->
    (exists s, first g !! s = Some (floor_seq o + 1) /\ s ∉ acked g /\ s ∉ given_up g) \/
    (floor_seq o = delivered_seq o /\ forall s d, first g !! s = Some d -> s ∈ acked g \/ s ∈ given_up g)).
Proof.
  apply con_reach_inv in Hr as Hi. destruct Hi as [Hf1 Hf2 Ht Hpd Hab Hu Ha Hr' Hm Hn Ho He]. unfold gone in *.
  assert (Hgone : forall s d, first g !! s = Some d -> pending (cstate o) !! s = None -> s ∈ acked g \/ s ∈ given_up g).
  { intros s d Hg Hp. destruct (decide (s ∈ acked g ∪ given_up g)) as [|HA]; [set_solver|]. destruct (Hu s d Hg HA) as [p Hp']. congruence. }
  split; [lia|]. split; [lia|]. split_and!; [| |done|].
  - intros s d. split; [intros (p&Hp&<-); destruct (Hpd s p Hp) as (?&?&_); set_solver|]. intros (Hg&HA&HB). destruct (Hu s d Hg) as [p Hp]; [set_solver|]. exists p. split; [done|].
    destruct (Hpd s p Hp) as (Hg'&_). congruence.
  - intros s d Hg Hle. apply (Hgone s d Hg). apply eq_None_not_Some. intros [p Hp]. destruct (Hpd s p Hp) as (Hg'&_&?). simplify_eq.
    destruct Hle as [|[Hin ?]]; [lia|]. pose proof (Hab Hin s p Hp). lia.
  - intros Hx Hex. destruct (He Hx Hex) as [[Ee Ef]|(s&p&Hp&Hs)].
    + right. split; [done|]. intros s d Hg. apply (Hgone s d Hg). by rewrite Ee.
    + left. exists s. destruct (Hpd s p Hp) as (Hg&HA&_). rewrite <- Hs. set_solver.
Qed.

Definition explicit_cfg : ConsumerConfig := mkConsumerConfig AckExplicit 2.

(** Three deliveries, an acknowledgement, a redelivery and its acknowledgement, a progress update,
    and two more redeliveries, of which the last is over the limit. *)
Definition sample_ops : list con_op :=
  [CDeliver 1 5 1 10; CDeliver 2 7 1 11; CDeliver 3 9 1 12; CAck 2 7; CDeliver 4 5 2 20; CAck 4 5; CDeliver 3 9 1 25; CDeliver 5 9 2 30; CDeliver 3 9 3 40].

Definition con_run_all (l : list con_op) : ghost * consumerMemStore :=
  fold_left (fun s c => (con_ghost s.2 c s.1, con_run s.2 c)) l (new_ghost, mkConsumer explicit_cfg zero_state false).

Ltac con_step c :=
  match goal with
  | H : con_reach _ _ |- _ =>
      apply (fun g o H1 H2 => creach_op g o c H1 H2) in H;
      [|vm_compute; first [intros ? [= <-]; right; split; done | right; left; split_and!; done | right; right; split_and!; done]]
  end.

Lemma consumer_sample_reach : con_reach (con_run_all sample_ops).1 (con_run_all sample_ops).2.
Proof.
  unfold con_run_all, sample_ops. pose proof (creach_new explicit_cfg) as H.
  con_step (CDeliver 1 5 1 10). con_step (CDeliver 2 7 1 11). con_step (CDeliver 3 9 1 12). con_step (CAck 2 7). con_step (CDeliver 4 5 2 20). con_step (CAck 4 5).
  con_step (CDeliver 3 9 1 25). con_step (CDeliver 5 9 2 30). con_step (CDeliver 3 9 3 40). exact H.
Qed.

Lemma consumer_sound_witness :
  let o := (con_run_all (take 6 sample_ops)).2 in let '(g, o') := con_run_all sample_ops in
  (floor_seq o, floor_stream o, (map_to_list (pending (cstate o))).*1) = (2, 8, [9]) /\
  (elements (acked g), elements (given_up g), floor_seq o', delivered_seq o') = ([7; 5], [9], 2, 5) /\ floor_seq o' <= delivered_seq o'.
Proof.
  pose proof (proj1 (consumer_sound _ _ consumer_sample_reach)) as H. destruct (con_run_all sample_ops) as [g o'] eqn:E. split; [by vm_compute|]. split; [|exact H].
  vm_compute in E. injection E as <- <-. by vm_compute.
Defined.

(** ** The snapshot *)

(** Inserting the entries of a map one by one, in any order. *)
Lemma fold_insert_map {X Y} (g : Z -> X -> option Y) (l : list (Z * X)) : forall (m0 : gmap Z Y), NoDup l.*1 ->
  fold_left (fun m kx => match g kx.1 kx.2 with Some y => <[kx.1 := y]> m | None => m end) l m0 = map_imap g (list_to_map l) ∪ m0.
Proof.
  induction l as [|[k x] l IH]; intros m0 Hn; cbn [fold_left fst snd list_to_map foldr]; [by rewrite map_imap_empty, map_empty_union|].
  apply NoDup_cons in Hn as [Hk Hn]. rewrite IH by done. apply not_elem_of_list_to_map in Hk. cbn [fst] in Hk. apply map_eq. intros j.
  rewrite !lookup_union, !map_lookup_imap. destruct (decide (j = k)) as [->|Hne].
  - rewrite Hk, lookup_insert_eq. cbn [mbind option_bind]. destruct (g k x) as [y|]; [rewrite lookup_insert_eq; by destruct (m0 !! k)|done].
  - rewrite (lookup_insert_ne _ k j) by done. destruct (g k x) as [y|]; [by rewrite lookup_insert_ne|done].
Qed.

Lemma readSeq_put v b : is_u64 v -> readSeq (Some (put_uvarint v ++ b)) = (v, Some b).
Proof.
  intros Hv. unfold readSeq. rewrite uvarint_put by done. pose proof (put_uvarint_length v). rewrite (proj2 (Z.leb_gt _ _)) by lia. by rewrite Nat2Z.id, drop_app_length.
Qed.

Lemma readTimeStamp_put x b : is_i64 x -> readTimeStamp (Some (put_varint x ++ b)) = (x, Some b).
Proof.
  intros Hx. unfold readTimeStamp. rewrite varint_put by done. assert (0 < Z.of_nat (length (put_varint x))) by (pose proof (put_uvarint_length (if x <? 0 then u64 (Z.lnot (u64 (Z.shiftl x 1))) else u64 (Z.shiftl x 1))); unfold put_varint; lia).
  rewrite (proj2 (Z.leb_gt _ _)) by lia. by rewrite Nat2Z.id, drop_app_length.
Qed.

(** What a snapshot keeps of a pending message: its time in whole seconds. *)
Definition in_seconds (p : Pending) : Pending := mkPending (Sequence p) (Z.quot (Timestamp p) second * second).

Definition seq_ok (x : Z) : Prop := 0 <= x < 2 ^ 63.

Record state_ok (st : ConsumerState) : Prop := {
  so_floor : is_u64 (Consumer (AckFloor st)) /\ seq_ok (Stream (AckFloor st));
  so_delivered : is_u64 (Consumer (Delivered st)) /\ seq_ok (Stream (Delivered st));
  so_pending : forall k p, pending st !! k = Some p -> 0 < k < 2 ^ 64 /\ is_u64 (Sequence p) /\ is_i64 (Timestamp p);
  so_redelivered : forall k n, Redelivered st !! k = Some n -> is_u64 k /\ is_u64 n;
  so_sizes : Z.of_nat (size (pending st)) < 2 ^ 63 /\ Z.of_nat (size (Redelivered st)) < 2 ^ 63 }.

Lemma u64_add_sub x y : is_u64 x -> u64 (u64 (x - y) + y) = x.
Proof. intros Hx. unfold u64. rewrite Z.add_mod_idemp_l by lia. rewrite Z.sub_add. by apply Z.mod_small. Qed.

Lemma quot_second x : is_i64 x -> -9223372037 < Z.quot x second < 9223372037 /\ is_i64 (Z.quot x second * second).
Proof.
  unfold is_i64, second. intros Hx. assert (Hp : forall y, 0 <= y -> 0 <= Z.quot y 1000000000 * 1000000000 <= y).
  { intros y Hy. rewrite Z.quot_div_nonneg by lia. pose proof (Z.mul_div_le y 1000000000). pose proof (Z.div_pos y 1000000000). lia. }
  destruct (Z.le_gt_cases 0 x); [specialize (Hp x); lia|]. specialize (Hp (- x)). rewrite Z.quot_opp_l in Hp by lia. lia.
Qed.

Lemma decode_pending_put st mints l b : forall m, is_i64 mints -> 0 <= mints < 2 ^ 62 ->
  Forall (fun kp => 0 < kp.1 < 2 ^ 64 /\ is_u64 (Sequence kp.2) /\ is_i64 (Timestamp kp.2)) l ->
  decode_pending (length l) 2 mints (AckFloor st) (Some ((l ≫= encode_pending mints st) ++ b)) m =
  Some (fold_left (fun m kp => match Some (in_seconds kp.2) with Some y => <[kp.1 := y]> m | None => m end) l m, Some b).
Proof.
  induction l as [|[k p] l IH]; intros m Hm Hm' Hl; [done|]. apply Forall_cons in Hl as [(Hk&Hs&Ht) Hl]. cbn [fst snd] in *. cbn [length decode_pending fold_left].
  rewrite bind_cons, <- app_assoc. unfold encode_pending at 1. cbn [fst snd]. rewrite <- !app_assoc. destruct (quot_second (Timestamp p) Ht) as [Hq Hq'].
  rewrite readSeq_put by apply u64_range. cbn [Z.eqb Pos.eqb]. rewrite readSeq_put by apply u64_range. rewrite readTimeStamp_put by apply i64_range.
  rewrite !u64_add_sub by (done || unfold is_u64; lia). rewrite (proj2 (Z.eqb_neq k 0)) by lia.
  rewrite (i64_small (mints - Z.quot (Timestamp p) second)) by (unfold is_i64; lia). replace (mints - (mints - Z.quot (Timestamp p) second)) with (Z.quot (Timestamp p) second) by lia.
  rewrite (i64_small (Z.quot _ _)) by (unfold is_i64; lia). rewrite (i64_small (_ * _)) by done. by apply IH.
Qed.

(** The redelivery counts that a snapshot keeps. *)
Definition kept_count (floor k n : Z) : option Z := if decide (k <> floor /\ 0 < n) then Some n else None.

Lemma decode_redelivered_put st l b : forall m, Forall (fun kn => is_u64 kn.1 /\ is_u64 kn.2) l -> seq_ok (Stream (AckFloor st)) ->
  decode_redelivered (length l) (AckFloor st) (Some ((l ≫= encode_redelivered st) ++ b)) m =
  fold_left (fun m kn => match kept_count (Stream (AckFloor st)) kn.1 kn.2 with Some y => <[kn.1 := y]> m | None => m end) l m.
Proof.
  induction l as [|[k n] l IH]; intros m Hl Hf; [done|]. apply Forall_cons in Hl as [(Hk&Hn) Hl]. cbn [fst snd] in *. cbn [length decode_redelivered fold_left fst snd].
  rewrite bind_cons, <- app_assoc. unfold encode_redelivered at 1. cbn [fst snd]. rewrite <- !app_assoc.
  rewrite readSeq_put by apply u64_range. rewrite readSeq_put by done. rewrite IH by done. f_equal. rewrite u64_add_sub by done.
  assert (0 <? u64 (k - Stream (AckFloor st)) = bool_decide (k <> Stream (AckFloor st))) as ->.
  { unfold seq_ok, is_u64, u64 in *. destruct (decide (k = Stream (AckFloor st))) as [->|Hne]; [rewrite Z.sub_diag, bool_decide_eq_false_2 by tauto; done|].
    rewrite bool_decide_eq_true_2 by done. apply Z.ltb_lt. pose proof (Z.mod_pos_bound (k - Stream (AckFloor st)) (2 ^ 64) ltac:(lia)).
    assert ((k - Stream (AckFloor st)) mod 2 ^ 64 <> 0); [|lia]. rewrite Z.mod_divide by lia. intros [q Hq]. nia. }
  unfold kept_count. destruct (decide (k <> _ /\ 0 < n)) as [[H1 H2]|H].
  - by rewrite bool_decide_eq_true_2, (proj2 (Z.ltb_lt _ _) H2).
  - case_bool_decide; [|done]. rewrite (proj2 (Z.ltb_ge 0 n)); [done|]. destruct (Z.le_gt_cases n 0); [done|]. tauto.
Qed.

Lemma map_imap_fmap {X Y} (f : X -> Y) (m : gmap Z X) : map_imap (fun _ x => Some (f x)) m = f <$> m.
Proof. apply map_eq. intros k. rewrite map_lookup_imap, lookup_fmap. by destruct (m !! k). Qed.

Lemma kept_count_filter floor (m : gmap Z Z) : map_imap (kept_count floor) m = filter (fun kn => kn.1 <> floor /\ 0 < kn.2) m.
Proof.
  apply map_eq. intros k. apply option_eq. intros x. rewrite map_lookup_imap, map_lookup_filter_Some. unfold kept_count. cbn. destruct (m !! k) as [y|] eqn:E; cbn; [|naive_solver].
  destruct (decide _); naive_solver.
Qed.

(** The entries of a map in some order. *)
Lemma range_facts {X} (l : list (Z * X)) (m : gmap Z X) : l ≡ₚ map_to_list m -> NoDup l.*1 /\ list_to_map l = m /\ length l = size m /\ forall P : Z * X -> Prop, (forall k x, m !! k = Some x -> P (k, x)) -> Forall P l.
Proof.
  intros Hp. assert (NoDup l.*1) as Hn by (rewrite Hp; apply NoDup_fst_map_to_list). split; [done|]. split; [|split].
  - rewrite <- (list_to_map_to_list m). by apply list_to_map_proper.
  - by rewrite Hp, length_map_to_list.
  - intros P HP. rewrite Hp. apply Forall_forall. intros [k x] Hk%elem_of_map_to_list. by apply HP.
Qed.

Section codec.
Context (range_pending : gmap Z Pending -> list (Z * Pending)) (range_redelivered : gmap Z Z -> list (Z * Z)).
Context (Hp : forall m, range_pending m ≡ₚ map_to_list m) (Hr : forall m, range_redelivered m ≡ₚ map_to_list m).

Lemma pendings_put mints st b : 0 <= mints < 2 ^ 62 -> state_ok st ->
  decode_pendings 2 (AckFloor st) (Some (encode_pendings range_pending mints st ++ b)) = Some (in_seconds <$> pending st, Some b).
Proof.
  intros Hm [_ _ Hpend _ [Hs _]]. destruct (range_facts _ _ (Hp (pending st))) as (Hn&Hl&Hlen&Hall).
  unfold decode_pendings, encode_pendings. rewrite <- app_assoc, readSeq_put by (unfold is_u64; lia). destruct (Nat.eqb_spec (size (pending st)) 0) as [E|E].
  - rewrite E. cbn. apply map_size_empty_inv in E as ->. by rewrite fmap_empty.
  - rewrite (proj2 (Z.ltb_lt _ _)) by lia. rewrite <- app_assoc, readTimeStamp_put by (unfold is_i64; lia). rewrite i64_small, Nat2Z.id, <- Hlen by (unfold is_i64; lia).
    rewrite decode_pending_put; [|unfold is_i64; lia|done|by apply Hall]. rewrite (fold_insert_map (fun _ p => Some (in_seconds p))) by done. by rewrite Hl, map_imap_fmap, map_union_empty.
Qed.

Lemma redelivereds_put st b : state_ok st ->
  decode_redelivereds (AckFloor st) (Some (encode_redelivereds range_redelivered st ++ b)) = filter (fun kn => kn.1 <> Stream (AckFloor st) /\ 0 < kn.2) (Redelivered st).
Proof.
  intros [[_ Hf] _ _ Hred [_ Hs]]. destruct (range_facts _ _ (Hr (Redelivered st))) as (Hn&Hl&Hlen&Hall).
  unfold decode_redelivereds, encode_redelivereds. rewrite <- app_assoc, readSeq_put by (unfold is_u64; lia). rewrite i64_small, Nat2Z.id, <- Hlen by (unfold is_i64; lia).
  rewrite decode_redelivered_put; [|by apply Hall|done]. rewrite (fold_insert_map (kept_count (Stream (AckFloor st)))) by done.
  by rewrite Hl, map_union_empty, kept_count_filter.
Qed.
End codec.

Lemma high_bit_small x : seq_ok x -> high_bit x = false.
Proof. intros [? ?]. unfold high_bit. destruct (decide (x = 0)) as [->|]; [done|]. apply Z.bits_above_log2; [lia|]. apply Z.log2_lt_pow2; lia. Qed.

(** C35. A snapshot of a consumer is decoded to the same state, whatever the time and the order in
    which the maps are written, except that times are cut to whole seconds, and a redelivery
    count is lost when it is zero or of the message at the floor. *)
Theorem consumer_snapshot (range_pending : gmap Z Pending -> list (Z * Pending)) (range_redelivered : gmap Z Z -> list (Z * Z)) (mints : Z) (st : ConsumerState)
    (Hp : forall m, range_pending m ≡ₚ map_to_list m) (Hr : forall m, range_redelivered m ≡ₚ map_to_list m) (Hm : 0 <= mints < 2 ^ 62) (Hok : state_ok st) :
  decodeConsumerState (encodeConsumerState range_pending range_redelivered mints st) =
  inr (mkConsumerState (Delivered st) (AckFloor st) (in_seconds <$> pending st) (filter (fun kn => kn.1 <> Stream (AckFloor st) /\ 0 < kn.2) (Redelivered st))).
Proof.
  assert (Hu : forall x, seq_ok x -> is_u64 x) by (unfold seq_ok, is_u64; lia). pose proof Hok as [[Hf1 Hf2] [Hd1 Hd2] _ _ _].
  unfold encodeConsumerState, decodeConsumerState. cbn [app checkConsumerHeader magic negb Z.eqb Pos.eqb orb drop].
  rewrite drop_0. do 4 (rewrite readSeq_put by auto). cbn [andb]. rewrite !high_bit_small by done. cbn [orb].
  replace (mkPair (Consumer (AckFloor st)) (Stream (AckFloor st))) with (AckFloor st) by by destruct (AckFloor st).
  rewrite pendings_put by done. rewrite <- (app_nil_r (encode_redelivereds _ _)), redelivereds_put by done. by destruct (Delivered st).
Qed.

Definition snapshot_state : ConsumerState :=
  mkConsumerState (mkPair 9 20) (mkPair 5 10) (list_to_map [(12, mkPending 6 1500000000); (15, mkPending 8 3200000000)]) (list_to_map [(10, 1); (12, 2)]).

Lemma consumer_snapshot_witness :
  decodeConsumerState (encodeConsumerState map_to_list map_to_list 1700000000 snapshot_state) =
  inr (mkConsumerState (mkPair 9 20) (mkPair 5 10) (list_to_map [(12, mkPending 6 1000000000); (15, mkPending 8 3000000000)]) (list_to_map [(12, 2)])).
Proof.
  etrans; [apply (consumer_snapshot map_to_list map_to_list 1700000000 snapshot_state); [done|done|lia|]|by vm_compute].
  split; [vm_compute; done|vm_compute; done| | |vm_compute; done].
  - intros k p Hk%elem_of_list_to_map_2. repeat (apply elem_of_cons in Hk as [[= -> ->]|Hk]; [by vm_compute|]). by apply elem_of_nil in Hk.
  - intros k n Hk%elem_of_list_to_map_2. repeat (apply elem_of_cons in Hk as [[= -> ->]|Hk]; [by vm_compute|]). by apply elem_of_nil in Hk.
Defined.

(** ** Divergences *)

Definition all_cfg : ConsumerConfig := mkConsumerConfig AckAll (-1).

(** With [AckAll], acknowledging the redelivery of a message moves the consumer floor past
    messages that are still pending, and their own acknowledgements are then ignored as replays. *)
Example ack_all_redelivered :
  let o := fold_left con_run [CDeliver 1 1 1 0; CDeliver 2 2 1 0; CDeliver 3 1 2 0; CAck 3 1] (mkConsumer all_cfg zero_state false) in
  (UpdateAcks o 2 2).2 = None /\ pending (cstate (UpdateAcks o 2 2).1) !! 2 = Some (mkPending 2 0).
Proof. by vm_compute. Qed.

(** Once the first pending message is given up at [MaxDeliver], explicit acknowledgements of the
    messages after it do not move the floor until nothing is pending. *)
Example max_deliver_floor_stays :
  let o := fold_left con_run [CDeliver 1 1 1 0; CDeliver 2 2 1 0; CDeliver 3 3 1 0; CDeliver 4 1 3 0; CAck 2 2] (mkConsumer (mkConsumerConfig AckExplicit 2) zero_state false) in
  (floor_seq o, (map_to_list (pending (cstate o))).*1) = (0, [3]).
Proof. by vm_compute. Qed.

(** A snapshot cut off before the number of pending messages is accepted, without them. *)
Example truncated_snapshot : decodeConsumerState (take 6 (encodeConsumerState map_to_list map_to_list 1700000000 snapshot_state)) =
  inr (mkConsumerState (mkPair 9 20) (mkPair 5 10) ∅ ∅).
Proof. by vm_compute. Qed.
