(* ===== verification/StreamCodec.v ===== *)
(** * Stream state snapshots (src/server/store.go, src/server/memstore.go)

    The binary state of a stream that replicas exchange: [EncodedStreamState] of the memory store
    and [DecodeStreamState].  The deleted sequences are written as a sequence set; a run of them
    may also come as a range. *)

From S2P Require Import Prelude Binary Subject SeqSet SeqSetProofs SeqSetSpec SeqSetCodec HashWheel Scheduler SchedulerSpec SubjectTree MemStore MemStoreQuery MemStoreAdmin MemStoreProofs MemStoreInst MemStoreSpec.
Import Mem MemAdmin.

Module StreamCodec.

Definition streamStateMagic : Z := 42.
Definition streamStateVersion : Z := 1.
Definition runLengthMagic : Z := 33.
Definition seqSetMagic : Z := 22.

Notation Block := (DeleteBlock (D := Avl.SequenceSet)).

Record StreamReplicatedState : Type := mkReplicated {
  rMsgs : Z; rBytes : Z; rFirstSeq : Z; rLastSeq : Z; rFailed : Z; rDeleted : list Block }.

Inductive codec_error : Type := ErrBadStreamStateEncoding | ErrCorruptStreamState.

Section encode.
Context {F W : Type}.
Implicit Types (ms : memStore F Avl.SequenceSet W).

(** [int] is 64 bits wide. *)
Definition num_deleted ms : Z :=
  let st := state ms in
  let n := i64 (u64 (u64 (LastSeq st - FirstSeq st + 1) - sMsgs st)) in
  if n <? 0 then 0 else n.

Definition EncodedStreamState ms (failed : Z) : list Z :=
  let st := state ms in
  [streamStateMagic; streamStateVersion] ++ put_uvarint (sMsgs st) ++ put_uvarint (sBytes st) ++ put_uvarint (FirstSeq st) ++ put_uvarint (LastSeq st) ++
  put_uvarint failed ++ put_uvarint (num_deleted ms) ++ (if 0 <? num_deleted ms then Encode (dmap ms) else []).
End encode.

Definition IsEncodedStreamState (buf : list Z) : bool :=
  match buf with
  | m :: v :: _ => (m =? streamStateMagic) && (v =? streamStateVersion)
  | _ => false
  end.

(** What is left of the buffer; [None] is the index -1 after a failed read. *)
Definition readU64 (b : option (list Z)) : Z * option (list Z) :=
  match b with
  | None | Some [] => (0, None)
  | Some b => let '(x, n) := uvarint b in if n <=? 0 then (0, None) else (x, Some (drop (Z.to_nat n) b))
  end.

Fixpoint decode_blocks (fuel : nat) (b : list Z) (acc : list Block) : option (list Block) :=
  match fuel, b with
  | _, [] => Some acc
  | O, _ => None
  | S fuel, m :: rest =>
      if m =? seqSetMagic then
        match Decode b with
        | inl _ => None
        | inr (d, n) => decode_blocks fuel (drop (Z.to_nat n) b) (acc ++ [DBSet d])
        end
      else if m =? runLengthMagic then
        let '(first, b) := readU64 (Some rest) in
        let '(num, b) := readU64 b in
        match b with
        | None => None
        | Some b => decode_blocks fuel b (acc ++ [DeleteRange first num])
        end
      else None
  end.

(** Every block takes at least one byte. *)
Definition DecodeStreamState (buf : list Z) : codec_error + StreamReplicatedState :=
  if negb (IsEncodedStreamState buf) then inl ErrBadStreamStateEncoding else
  let '(msgs, b) := readU64 (Some (drop 2 buf)) in
  let '(bytes, b) := readU64 b in
  let '(first, b) := readU64 b in
  let '(last, b) := readU64 b in
  let '(failed, b) := readU64 b in
  match b with
  | None => inl ErrCorruptStreamState
  | Some _ =>
      let '(n, b) := readU64 b in
      match (if 0 <? n then decode_blocks (length buf) (default [] b) [] else Some []) with
      | None => inl ErrCorruptStreamState
      | Some dbs => inr (mkReplicated msgs bytes first last failed dbs)
      end
  end.

(** The deleted sequences that a state names. *)
Definition deleted_of (r : StreamReplicatedState) : list Z := concat (block_seqs <$> rDeleted r).

End StreamCodec.
Import StreamCodec.

(** ** The round trip *)

Lemma readU64_put v b : is_u64 v -> readU64 (Some (put_uvarint v ++ b)) = (v, Some b).
Proof.
  intros Hv. unfold readU64. pose proof (put_uvarint_length v). destruct (put_uvarint v ++ b) as [|x l] eqn:E; [apply app_nil in E as [E _]; rewrite E in *; cbn in *; lia|].
  rewrite <- E, uvarint_put by done. rewrite (proj2 (Z.leb_gt _ _)) by lia. by rewrite Nat2Z.id, drop_app_length.
Qed.

(** The blocks of an encoded set. *)
Lemma decode_blocks_set fuel d acc : wf_set d -> Avl.Size d < 2 ^ 32 -> Avl.Nodes d < 2 ^ 32 -> Avl.height (Avl.root d) < 2 ^ 16 -> (1 < fuel)%nat ->
  decode_blocks fuel (Encode d) acc = Some (acc ++ [DBSet d]).
Proof.
  intros Hw H1 H2 H3 Hf. destruct fuel as [|[|fuel]]; [lia|lia|]. destruct (encode_decode d [] Hw H1 H2 H3) as [Hd Hl]. rewrite app_nil_r in Hd.
  assert (exists l, Encode d = seqSetMagic :: l) as [l El] by (eexists; reflexivity). rewrite El in *. cbn [decode_blocks]. cbn [Z.eqb Pos.eqb seqSetMagic]. fold seqSetMagic. rewrite Hd, <- Hl, Nat2Z.id, drop_all. done.
Qed.

Lemma block_seqs_set d k : wf_set d -> k ∈ block_seqs (DBSet d) <-> k ∈ model d.
Proof.
  intros Hd. cbn [block_seqs ss_Range seq_set]. unfold Avl.Range. rewrite (iter_visit 0 seq_limit), elem_of_model by (done || apply Hd).
  assert (Hv : forall l acc, (visit l (fun k (l : list Z) => (l ++ [k], true)) acc).1 = acc ++ l).
  { induction l as [|x l IH]; intros acc; cbn; [by rewrite app_nil_r|]. rewrite IH. by rewrite <- app_assoc. }
  by rewrite Hv.
Qed.

Section roundtrip.
Context `{HR : MapRange} `{HH : Headers} `{HE : !StoreEnv (Stree.SubjectTree SimpleState) Avl.SequenceSet Thw.HashWheel}.
Implicit Types (ms : Store).

Lemma msgs_range_size ms : ms_ok ms -> (size (msgs ms) <= Z.to_nat (LastSeq (state ms) - FirstSeq (state ms) + 1))%nat.
Proof.
  intros [_ _ _ _ Hk _ _ _]. set (n := _ - _ + 1).
  rewrite <- (length_seqZ (FirstSeq (state ms)) n), <- (size_list_to_set (C := gset Z)), <- (size_dom (D := gset Z)) by apply NoDup_seqZ. apply subseteq_size.
  intros k [x Hx]%elem_of_dom. apply elem_of_list_to_set, elem_of_seqZ. destruct (Hk _ _ Hx) as (_&?&_). unfold n. lia.
Qed.

(** The quick count of the deleted sequences is their number. *)
Lemma num_deleted_ok ms (X : gset Z) : ms_ok ms -> dmap_ok (state ms) (msgs ms) X -> msgs ms <> ∅ -> Z.of_nat (size X) < 2 ^ 32 -> num_deleted ms = Z.of_nat (size X).
Proof.
  intros Hok Hd Hne Hsmall. pose proof Hok as [_ _ Hn _ Hk Hfirst (Hl&Hf&_) _]. pose proof (ss_bound (D := Avl.SequenceSet)) as Hb.
  destruct (Hfirst Hne) as [sm Hsm]. destruct (Hk _ _ Hsm) as (_&Hle&_). set (n := LastSeq (state ms) - FirstSeq (state ms) + 1).
  assert (X = list_to_set (seqZ (FirstSeq (state ms)) n) ∖ dom (msgs ms)) as HX.
  { apply set_eq. intros k. rewrite (Hd k), elem_of_difference, elem_of_list_to_set, elem_of_seqZ, not_elem_of_dom. unfold n. naive_solver lia. }
  assert (Hsz : size X = (Z.to_nat n - size (msgs ms))%nat).
  { rewrite HX, size_difference, size_list_to_set, length_seqZ, size_dom; [done|apply NoDup_seqZ|]. intros k [x Hx]%elem_of_dom. apply elem_of_list_to_set, elem_of_seqZ. destruct (Hk _ _ Hx) as (_&?&_). unfold n. lia. }
  pose proof (msgs_range_size ms Hok) as Hle2. fold n in Hle2.
  cbn in Hb, Hl, Hf. unfold num_deleted. fold n. rewrite Hn, (u64_small n) by (unfold is_u64, seq_limit in *; rewrite numEntries_eq in *; lia).
  replace (n - Z.of_nat (size (msgs ms))) with (Z.of_nat (size X)) by lia. rewrite u64_small, i64_small by (unfold is_u64, is_i64; lia). by rewrite (proj2 (Z.ltb_ge _ _)) by lia.
Qed.

(** A stream state snapshot of a store is decoded to the totals and the first and last
    sequence of the store, and names as deleted exactly the sequences between them that have no
    message.  The set of deleted sequences has a size, nodes and height that its encoding can
    hold. *)
Theorem stream_state_snapshot ms (failed : Z) (Hr : mem_reach ms) (Hf : is_u64 failed) (H1 : Avl.Size (dmap ms) < 2 ^ 32)
    (H2 : Avl.Nodes (dmap ms) < 2 ^ 32) (H3 : Avl.height (Avl.root (dmap ms)) < 2 ^ 16) :
  exists r, DecodeStreamState (EncodedStreamState ms failed) = inr r /\
    rMsgs r = num_msgs ms /\ rBytes r = total (msgs ms) /\ rFirstSeq r = FirstSeq (state ms) /\ rLastSeq r = LastSeq (state ms) /\ rFailed r = failed /\
    forall k, k ∈ deleted_of r <-> msgs ms <> ∅ /\ FirstSeq (state ms) <= k <= LastSeq (state ms) /\ msgs ms !! k = None.
Proof.
  destruct (mem_reach_inv ms Hr) as (Hok&_&_). pose proof Hok as [_ (X&(Hw&_&HX)&Hd) Hn Hb Hk _ (Hl&Hfr&_) Ht]. cbn in Hl, Hfr.
  assert (Hu : is_u64 (sMsgs (state ms)) /\ is_u64 (sBytes (state ms)) /\ is_u64 (FirstSeq (state ms)) /\ is_u64 (LastSeq (state ms)) /\ is_u64 (num_deleted ms)).
  { pose proof (msgs_range_size ms Hok). pose proof (total_nonneg (msgs ms)). pose proof (i64_range (u64 (u64 (LastSeq (state ms) - FirstSeq (state ms) + 1) - sMsgs (state ms)))).
    unfold is_u64, is_i64, seq_limit, num_deleted in *. rewrite numEntries_eq in *. rewrite Hn, Hb in *. split_and!; try lia; destruct (Z.ltb_spec (i64 (u64 (u64 (LastSeq (state ms) - FirstSeq (state ms) + 1) - Z.of_nat (size (msgs ms))))) 0); lia. }
  destruct Hu as (U1&U2&U3&U4&U5). unfold EncodedStreamState, DecodeStreamState. cbn [app IsEncodedStreamState streamStateMagic streamStateVersion Z.eqb Pos.eqb andb negb drop].
  rewrite drop_0. do 6 (rewrite readU64_put by done).
  eexists (mkReplicated _ _ _ _ _ (if 0 <? num_deleted ms then [DBSet (dmap ms)] else [])). split; [|cbn [rMsgs rBytes rFirstSeq rLastSeq rFailed]; split_and!; try done].
  - destruct (0 <? num_deleted ms); [|done]. cbn [from_option id]. unfold id. rewrite decode_blocks_set; [done|done|done|done|done|]. cbn [length]. lia.
  - intros k. rewrite <- (Hd k), <- HX. unfold deleted_of. cbn [rDeleted]. destruct (Z.ltb_spec 0 (num_deleted ms)) as [|Hz]; [by rewrite fmap_cons, fmap_nil, concat_cons, concat_nil, app_nil_r, block_seqs_set by done|].
    rewrite fmap_nil, concat_nil, elem_of_nil. split; [done|]. rewrite HX. intros Hx. pose proof Hx as (Hne&_)%Hd.
    rewrite (num_deleted_ok ms X Hok Hd Hne) in Hz. { assert (size X = 0%nat) as E%size_empty_inv by lia. set_solver. }
    destruct Hw as [_ Hs _ _]. unfold Avl.Size in H1. rewrite <- HX. lia.
Qed.
End roundtrip.

#[local] Existing Instances sample_headers sample_env.

Definition snapshot_of (ms : Store) : option (StreamReplicatedState * list Z) :=
  match DecodeStreamState (EncodedStreamState ms 7) with inr r => Some (mkReplicated (rMsgs r) (rBytes r) (rFirstSeq r) (rLastSeq r) (rFailed r) [], deleted_of r) | inl _ => None end.

Lemma stream_state_snapshot_witness :
  snapshot_of sample_store = Some (mkReplicated 2 42 2 4 7 [], [3]) /\
  exists r, DecodeStreamState (EncodedStreamState sample_store 7) = inr r /\ rMsgs r = num_msgs sample_store.
Proof.
  split; [vm_compute; reflexivity|].
  destruct (stream_state_snapshot sample_store 7 sample_store_reach) as (r&E&Em&_); [done|vm_compute; reflexivity|vm_compute; reflexivity|vm_compute; reflexivity|]. exact (ex_intro _ r (conj E Em)).
Defined.

(** ** Divergences *)

(** A snapshot that ends before the number of deleted messages is accepted, with none. *)
Example stream_state_truncated : DecodeStreamState (take 7 (EncodedStreamState sample_store 7)) = inr (mkReplicated 2 42 2 4 7 []).
Proof. vm_compute. reflexivity. Qed.
