(* ===== verification/GoStrings.v ===== *)
(** * Functions of Go's [strings], [strconv], [regexp] and [hash/fnv]

    The functions that the modelled files call, on ASCII text. *)

From Stdlib Require Import Ascii.
From S2P Require Import Prelude.

Module GoStr.
Open Scope string_scope.
Open Scope Z_scope.

Notation chars := String.list_ascii_of_string.
Notation str := String.string_of_list_ascii.

(** ** Spaces *)

Definition is_space (c : ascii) : bool := existsb (Ascii.eqb c) [" "; "009"; "010"; "011"; "012"; "013"]%char.

Fixpoint trim_left (p : ascii -> bool) (s : string) : string :=
  match s with
  | EmptyString => EmptyString
  | String c rest => if p c then trim_left p rest else s
  end.

Definition trim (p : ascii -> bool) (s : string) : string := String.rev (trim_left p (String.rev (trim_left p s))).

(** [strings.TrimSpace] and [strings.Trim(s, " ")]. *)
Definition TrimSpace : string -> string := trim is_space.
Definition TrimBlanks : string -> string := trim (Ascii.eqb " ").

(** ** Numbers *)

Definition digit (c : ascii) : option Z :=
  let n := Z.of_nat (nat_of_ascii c) - 48 in if (0 <=? n) && (n <=? 9) then Some n else None.

Fixpoint digits (s : string) (acc : Z) : option Z :=
  match s with
  | EmptyString => Some acc
  | String c rest => d ← digit c; digits rest (10 * acc + d)
  end.

(** [strconv.ParseInt(s, 10, bits)]; [strconv.Atoi] is the one of 64 bits. *)
Definition ParseIntBits (bits : Z) (s : string) : option Z :=
  let '(neg, s) := match s with String "-" r => (true, r) | String "+" r => (false, r) | _ => (false, s) end in
  match s with
  | EmptyString => None
  | _ => n ← digits s 0; let n := if (neg : bool) then - n else n in if (- 2 ^ (bits - 1) <=? n) && (n <? 2 ^ (bits - 1)) then Some n else None
  end.

Definition ParseInt : string -> option Z := ParseIntBits 64.
Definition Atoi : string -> option Z := ParseIntBits 64.

(** ** Splitting *)

Definition has_prefix (p s : list ascii) : bool := bool_decide (take (length p) s = p).

(** [strings.Split] at a separator that is not empty. *)
Fixpoint split_at (fuel : nat) (sep cur s : list ascii) : list (list ascii) :=
  match fuel with
  | O => [cur]
  | S fuel =>
      match s with
      | [] => [cur]
      | c :: r => if has_prefix sep s then cur :: split_at fuel sep [] (drop (length sep) s) else split_at fuel sep (cur ++ [c]) r
      end
  end.

(** With an empty separator the text is taken apart into its characters. *)
Definition Split (s sep : string) : list string :=
  match sep with
  | EmptyString => (fun c => String c "") <$> chars s
  | _ => (fun l => str l) <$> split_at (S (String.length s)) (chars sep) [] (chars s)
  end.

Definition Contains (s : string) (c : ascii) : bool := existsb (Ascii.eqb c) (chars s).

(** ** The regular expressions of mapping functions *)

(** [\s] *)
Definition re_space (c : ascii) : bool := existsb (Ascii.eqb c) [" "; "009"; "010"; "012"; "013"]%char.

Fixpoint skip_spaces (s : list ascii) : list ascii :=
  match s with
  | c :: r => if re_space c then skip_spaces r else s
  | [] => []
  end.

Definition is_upper (c : ascii) : bool := let n := Z.of_nat (nat_of_ascii c) in (65 <=? n) && (n <=? 90).
Definition to_lower (c : ascii) : ascii := if is_upper c then ascii_of_nat (nat_of_ascii c + 32) else c.

(** A capital letter of the name stands for the letter in either case: [[wW]ildcard] is
    ["Wildcard"]. *)
Fixpoint match_name (name s : list ascii) : option (list ascii) :=
  match name, s with
  | [], _ => Some s
  | p :: name, c :: s => if Ascii.eqb c p || Ascii.eqb c (to_lower p) then match_name name s else None
  | _, [] => None
  end.

(** The end of a call: the longest text without a line break, then a closing parenthesis, spaces
    and two braces. *)
Fixpoint match_args (s : list ascii) : option (list ascii) :=
  match s with
  | [] => None
  | c :: r =>
      match (if Ascii.eqb c "010" then None else match_args r) with
      | Some g => Some (c :: g)
      | None => if Ascii.eqb c ")" && has_prefix ["}"; "}"]%char (skip_spaces r) then Some [] else None
      end
  end.

(** Two braces, the name, an opening parenthesis and the end, with spaces in between: at the start
    of the text, and anywhere in it. *)
Definition match_call (name s : list ascii) : option (list ascii) :=
  if has_prefix ["{"; "{"]%char s then
    r ← match_name name (skip_spaces (drop 2 s));
    match skip_spaces r with "("%char :: r => match_args r | _ => None end
  else None.

Fixpoint find_call (name s : list ascii) : option (list ascii) :=
  match match_call name s with
  | Some g => Some g
  | None => match s with [] => None | _ :: s => find_call name s end
  end.

(** The pieces between commas with the spaces after them. *)
Fixpoint split_commas (cur s : list ascii) (skipping : bool) : list (list ascii) :=
  match s with
  | [] => [cur]
  | c :: s =>
      if skipping && re_space c then split_commas cur s true
      else if Ascii.eqb c "," then cur :: split_commas [] s true
      else split_commas (cur ++ [c]) s false
  end.

(** ** Hashing *)

(** [fnv.New32a]. *)
Definition fnv32a (s : string) : Z :=
  fold_left (fun h c => u32 (Z.lxor h (Z.of_nat (nat_of_ascii c)) * 16777619)) (chars s) 2166136261.

End GoStr.
