(* ===== verification/SubjectTransform.v ===== *)
(** * Subject transforms (src/server/subject_transform.go)

    A transform maps the subjects that match a source pattern to a destination: tokens of the
    destination stand for themselves or are made by a mapping function from the tokens that the
    wildcards of the source matched.

    Random numbers are an argument, one for each destination token; [None] is a panic. *)

From stdpp Require Import pretty.
From Stdlib Require Import Ascii.
From S2P Require Import Prelude Subject GoStrings.
Import Subj GoStr.

Module Xform.
Open Scope string_scope.
Open Scope Z_scope.

Inductive transformType : Type :=
  | NoTransform | BadTransform | Partition | Wildcard | SplitFromLeft | SplitFromRight | SliceFromLeft | SliceFromRight | SplitFn | Left | Right | Random.
#[export] Instance transformType_eq_dec : EqDecision transformType := ltac:(solve_decision).

Inductive xerror : Type :=
  | ErrBadSubject | ErrNoTransforms | NotSupportedForImport | IndexOutOfRange | NotUsingAllWildcards | NotEnoughArgs | TooManyArgs | InvalidArg | UnknownFunction.

(** The function of a destination token, its token indexes, number and text. *)
Record holder : Type := mkHolder { mftype : transformType; mfindexes : list Z; mfint : Z; mfstring : string }.

(** The four slices of mapping functions, their indexes, numbers and texts are one here. *)
Record subjectTransform : Type := mkTransform { src : string; dest : string; dtoks : list string; stoks : list string; dtokmf : list holder }.

(** ** Reading a destination *)

Definition subjectInfo_step (acc : option (Z * bool)) (t : string) : option (Z * bool) :=
  '(npwcs, sfwc) ← acc;
  if (String.eqb t "" || sfwc)%bool then None else
  if String.eqb t fwcs then Some (npwcs, true) else if String.eqb t pwcs then Some (npwcs + 1, sfwc) else Some (npwcs, sfwc).

Definition subjectInfo_loop (toks : list string) : option (Z * bool) := fold_left subjectInfo_step toks (Some (0, false)).

(** [None] is an invalid subject. *)
Definition subjectInfo (subject : string) : option (list string * Z * bool) :=
  if String.eqb subject "" then None else
  '(npwcs, sfwc) ← subjectInfo_loop (split subject); Some (split subject, npwcs, sfwc).

Definition getMappingFunctionArgs (name token : string) : option (list string) :=
  g ← find_call (chars name) (chars token); Some ((fun l => str l) <$> split_commas [] g false).

Definition transformIndexIntArgsHelper (args : list string) (t : transformType) : xerror + holder :=
  match args with
  | [] | [_] => inl NotEnoughArgs
  | [a; b] =>
      match Atoi (TrimBlanks a), ParseIntBits 32 (TrimBlanks b) with
      | Some i, Some n => inr (mkHolder t [i] n "")
      | _, _ => inl InvalidArg
      end
  | _ => inl TooManyArgs
  end.

(** [strconv.Atoi] of an argument that is stored in 32 bits. *)
Definition int_arg (a : string) : option Z := n ← Atoi (TrimBlanks a); if 2147483647 <? n then None else Some ((n + 2 ^ 31) mod 2 ^ 32 - 2 ^ 31).

Definition wildcard_args (args : list string) : xerror + holder :=
  match args with
  | [a] => if String.eqb a "" then inl NotEnoughArgs else match Atoi (TrimBlanks a) with Some i => inr (mkHolder Wildcard [i] (-1) "") | None => inl InvalidArg end
  | _ => inl TooManyArgs
  end.

Definition partition_args (args : list string) : xerror + holder :=
  match args with
  | [] => inl NotEnoughArgs
  | a :: args =>
      match int_arg a with
      | None => inl InvalidArg
      | Some n => match mapM (fun t => Atoi (TrimBlanks t)) args with Some is_ => inr (mkHolder Partition is_ n "") | None => inl InvalidArg end
      end
  end.

Definition split_args (args : list string) : xerror + holder :=
  match args with
  | [] | [_] => inl NotEnoughArgs
  | [a; b] =>
      match Atoi (TrimBlanks a) with
      | None => inl InvalidArg
      | Some i => if Contains b " " || Contains b btsep then inl InvalidArg else inr (mkHolder SplitFn [i] (-1) b)
      end
  | _ => inl TooManyArgs
  end.

Definition random_args (args : list string) : xerror + holder :=
  match args with
  | [a] => match int_arg a with Some n => inr (mkHolder Random [] n "") | None => inl InvalidArg end
  | _ => inl NotEnoughArgs
  end.

Definition no_holder : holder := mkHolder NoTransform [-1] (-1) "".

(** The functions in the order in which they are tried. *)
Definition mustache (token : string) : xerror + holder :=
  match getMappingFunctionArgs "Wildcard" token with Some a => wildcard_args a | None =>
  match getMappingFunctionArgs "Partition" token with Some a => partition_args a | None =>
  match getMappingFunctionArgs "SplitFromLeft" token with Some a => transformIndexIntArgsHelper a SplitFromLeft | None =>
  match getMappingFunctionArgs "SplitFromRight" token with Some a => transformIndexIntArgsHelper a SplitFromRight | None =>
  match getMappingFunctionArgs "SliceFromLeft" token with Some a => transformIndexIntArgsHelper a SliceFromLeft | None =>
  match getMappingFunctionArgs "SliceFromRight" token with Some a => transformIndexIntArgsHelper a SliceFromRight | None =>
  match getMappingFunctionArgs "Right" token with Some a => transformIndexIntArgsHelper a Right | None =>
  match getMappingFunctionArgs "Left" token with Some a => transformIndexIntArgsHelper a Left | None =>
  match getMappingFunctionArgs "Split" token with Some a => split_args a | None =>
  match getMappingFunctionArgs "Random" token with Some a => random_args a | None =>
  inl UnknownFunction end end end end end end end end end end.

Definition is_mustache (token : string) : bool :=
  (Nat.ltb 4 (String.length token) && GoStr.has_prefix ["{"; "{"]%char (chars token) && GoStr.has_prefix ["}"; "}"]%char (chars (String.rev token)))%nat.

Definition indexPlaceHolders (token : string) : xerror + holder :=
  match token with
  | String "$" (String _ _ as rest) => match Atoi rest with Some tp => inr (mkHolder Wildcard [tp] (-1) "") | None => inr no_holder end
  | _ => if is_mustache token then mustache token else inr no_holder
  end.

(** ** Making a transform *)

(** The indexes of the partial wildcards, from 1 on; a missing one is 0, as in a Go map. *)
Fixpoint star_indexes (i : Z) (stokens : list string) : list Z :=
  match stokens with
  | [] => []
  | t :: stokens => if String.eqb t pwcs then i :: star_indexes (i + 1) stokens else star_indexes (i + 1) stokens
  end.

Definition sti (stars : list Z) (k : Z) : Z := if k <? 1 then 0 else default 0 (stars !! Z.to_nat (k - 1)).

(** The loops over the destination tokens, with and without wildcards in the source. *)
Fixpoint holders_wild (strict : bool) (npwcs : Z) (stars : list Z) (dtokens : list string) : xerror + list holder * Z :=
  match dtokens with
  | [] => inr ([], 0)
  | token :: rest =>
      match indexPlaceHolders token with
      | inl e => inl e
      | inr h =>
          if strict && negb (bool_decide (mftype h = NoTransform)) && negb (bool_decide (mftype h = Wildcard)) then inl NotSupportedForImport else
          match mftype h with
          | NoTransform => match holders_wild strict npwcs stars rest with inl e => inl e | inr (hs, n) => inr (no_holder :: hs, n) end
          | Random => match holders_wild strict npwcs stars rest with inl e => inl e | inr (hs, n) => inr (mkHolder Random [] (mfint h) "" :: hs, n) end
          | t =>
              if existsb (fun k => npwcs <? k) (mfindexes h) then inl IndexOutOfRange else
              match holders_wild strict npwcs stars rest with
              | inl e => inl e
              | inr (hs, n) => inr (mkHolder t (sti stars <$> mfindexes h) (mfint h) (mfstring h) :: hs, Z.of_nat (length (mfindexes h)) + n)
              end
          end
      end
  end.

Fixpoint holders_plain (dtokens : list string) : xerror + list holder :=
  match dtokens with
  | [] => inr []
  | token :: rest =>
      match indexPlaceHolders token with
      | inl e => inl e
      | inr h =>
          match (match mftype h with NoTransform => Some no_holder | Random | Partition => Some (mkHolder (mftype h) [] (mfint h) "") | _ => None end) with
          | None => inl IndexOutOfRange
          | Some h => match holders_plain rest with inl e => inl e | inr hs => inr (h :: hs) end
          end
      end
  end.

(** [inr None] is the nil transform. *)
Definition NewSubjectTransformWithStrict (src dest : string) (strict : bool) : xerror + option subjectTransform :=
  if String.eqb dest "" then inr None else
  let src := if String.eqb src "" then fwcs else src in
  match subjectInfo src, subjectInfo dest with
  | Some (stokens, npwcs, hasFwc), Some (dtokens, dnpwcs, dHasFwc) =>
      if (0 <? dnpwcs) || negb (Bool.eqb hasFwc dHasFwc) then inl ErrBadSubject else
      if (0 <? npwcs) || hasFwc then
        match holders_wild strict npwcs (star_indexes 0 stokens) dtokens with
        | inl e => inl e
        | inr (hs, nphs) => if strict && (nphs <? npwcs) then inl NotUsingAllWildcards else inr (Some (mkTransform src dest dtokens stokens hs))
        end
      else
        match holders_plain dtokens with
        | inl e => inl e
        | inr hs => inr (Some (mkTransform src dest dtokens stokens hs))
        end
  | _, _ => inl ErrBadSubject
  end.

Definition NewSubjectTransform (src dest : string) : xerror + option subjectTransform := NewSubjectTransformWithStrict src dest false.
Definition NewSubjectTransformStrict (src dest : string) : xerror + option subjectTransform := NewSubjectTransformWithStrict src dest true.

(** ** Transforming *)

Definition getRandomPartition (rnd : Z) (ceiling : Z) : string := if ceiling =? 0 then "0" else pretty (Z.rem rnd ceiling).

Definition getHashPartition (key : string) (numBuckets : Z) : string := if numBuckets =? 0 then "0" else pretty (fnv32a key mod u32 numBuckets).

Definition token_at (tokens : list string) (k : Z) : option string := if k <? 0 then None else tokens !! Z.to_nat k.

Definition split_left (t : string) (position : Z) : string :=
  if (0 <? position) && (position <? Z.of_nat (String.length t)) then
    let n := Z.to_nat position in str (take n (chars t)) +:+ "." +:+ str (drop n (chars t))
  else t.

Definition split_right (t : string) (position : Z) : string :=
  if (0 <? position) && (position <? Z.of_nat (String.length t)) then
    let n := (String.length t - Z.to_nat position)%nat in str (take n (chars t)) +:+ "." +:+ str (drop n (chars t))
  else t.

(** The loop of SliceFromLeft from [i] on; [i] grows by the size of a slice. *)
Fixpoint slice_left_loop (fuel n i : nat) (t : list ascii) : list ascii :=
  match fuel with
  | O => []
  | S fuel =>
      if Nat.ltb (length t) (i + n) then [] else
      (if Nat.eqb i 0 then [] else ["."%char]) ++ take n (drop i t) ++
      (if (negb (Nat.eqb (i + n) (length t)) && Nat.ltb (length t) (i + n + n))%nat then "."%char :: drop (i + n) t
       else slice_left_loop fuel n (i + n) t)
  end.

Definition slice_left (t : string) (size : Z) : string :=
  if (0 <? size) && (size <? Z.of_nat (String.length t)) then str (slice_left_loop (S (String.length t)) (Z.to_nat size) 0 (chars t)) else t.

Fixpoint slice_right_loop (fuel n i : nat) (t : list ascii) : list ascii :=
  match fuel with
  | O => []
  | S fuel =>
      if Nat.ltb (length t) (i + n) then [] else
      take n (drop i t) ++ (if Nat.ltb (i + n) (length t) then ["."%char] else []) ++ slice_right_loop fuel n (i + n) t
  end.

Definition slice_right (t : string) (size : Z) : string :=
  if (0 <? size) && (size <? Z.of_nat (String.length t)) then
    let n := Z.to_nat size in
    let remainder := Nat.modulo (String.length t) n in
    str ((if Nat.ltb 0 remainder then take remainder (chars t) ++ ["."%char] else []) ++ slice_right_loop (S (String.length t)) n remainder (chars t))
  else t.

(** The loop over the pieces, the first of which has [j] = 0. *)
Fixpoint split_fn_loop (j : nat) (splits : list string) : string :=
  match splits with
  | [] => ""
  | s :: rest =>
      s +:+ (match rest with
             | next :: _ => if negb (String.eqb next "") && negb (Nat.eqb j 0 && String.eqb s "") then "." else ""
             | [] => ""
             end) +:+ split_fn_loop (S j) rest
  end.

Definition left_of (t : string) (size : Z) : string :=
  if (0 <? size) && (size <? Z.of_nat (String.length t)) then str (take (Z.to_nat size) (chars t)) else t.

Definition right_of (t : string) (size : Z) : string :=
  if (0 <? size) && (size <? Z.of_nat (String.length t)) then str (drop (String.length t - Z.to_nat size) (chars t)) else t.

(** What a mapping function writes. *)
Definition map_token (tokens : list string) (rnd : Z) (h : holder) : option string :=
  let arg (f : string -> string) := k ← mfindexes h !! 0%nat; t ← token_at tokens k; Some (f t) in
  match mftype h with
  | NoTransform | BadTransform => Some ""
  | Partition =>
      key ← match mfindexes h with [] => Some (String.concat "." tokens) | ks => ts ← mapM (token_at tokens) ks; Some (String.concat "" ts) end;
      Some (getHashPartition key (mfint h))
  | Wildcard => match mfindexes h with [] => Some "" | k :: _ => if Z.of_nat (length tokens) <=? k then Some "" else token_at tokens k end
  | SplitFromLeft => arg (fun t => split_left t (mfint h))
  | SplitFromRight => arg (fun t => split_right t (mfint h))
  | SliceFromLeft => arg (fun t => slice_left t (mfint h))
  | SliceFromRight => arg (fun t => slice_right t (mfint h))
  | SplitFn => arg (fun t => split_fn_loop 0 (Split t (mfstring h)))
  | Left => arg (fun t => left_of t (mfint h))
  | Right => arg (fun t => right_of t (mfint h))
  | Random => Some (getRandomPartition rnd (mfint h))
  end.

(** The loop over the destination: the tokens from the current one on, with a separator after
    each but the last; a full wildcard ends it. *)
Fixpoint write_dest (tokens : list string) (rnd : nat -> Z) (i : nat) (dtoks : list string) (mfs : list holder) : option string :=
  match mfs with
  | [] => Some ""
  | h :: mfs =>
      let sep := match mfs with [] => "" | _ => "." end in
      if bool_decide (mftype h = NoTransform) then
        match dtoks with
        | [] => None
        | d :: dtoks =>
            if String.eqb d fwcs then Some "" else
            r ← write_dest tokens rnd (S i) dtoks mfs; Some (d +:+ sep +:+ r)
        end
      else
        t ← map_token tokens (rnd i) h;
        r ← write_dest tokens rnd (S i) (drop 1 dtoks) mfs; Some (t +:+ sep +:+ r)
  end.

Definition TransformTokenizedSubject (tr : subjectTransform) (rnd : nat -> Z) (tokens : list string) : option string :=
  match dtokmf tr with
  | [] => Some (dest tr)
  | mfs =>
      b ← write_dest tokens rnd 0 (dtoks tr) mfs;
      d ← last (dtoks tr);
      Some (b +:+ (if String.eqb d fwcs then String.concat "." (drop (length (stoks tr) - 1) tokens) else ""))
  end.

Definition TransformSubject (tr : subjectTransform) (rnd : nat -> Z) (subject : string) : option string := TransformTokenizedSubject tr rnd (split subject).

Definition Match (tr : subjectTransform) (rnd : nat -> Z) (subject : string) : option (xerror + string) :=
  let any s := String.eqb s fwcs || String.eqb s "" in
  if any (src tr) && any (dest tr) then Some (inr subject) else
  let tts := split subject in
  if negb (isValidLiteralSubject tts) then Some (inl ErrBadSubject) else
  if any (src tr) || isSubsetMatch tts (src tr) then r ← TransformTokenizedSubject tr rnd tts; Some (inr r)
  else Some (inl ErrNoTransforms).

(** ** Placeholders, and the reverse *)

Fixpoint tokenize_stars (i : nat) (toks : list string) : list string :=
  match toks with
  | [] => []
  | t :: toks => if String.eqb t pwcs then ("$" +:+ pretty i) :: tokenize_stars (S i) toks else t :: tokenize_stars i toks
  end.

Definition transformTokenize (subject : string) : string := String.concat "." (tokenize_stars 1 (split subject)).

Definition is_placeholder (token : string) : bool :=
  match token with
  | String "$" (String d _) => let n := Z.of_nat (nat_of_ascii d) in (49 <=? n) && (n <=? 57)
  | _ => false
  end || match getMappingFunctionArgs "Wildcard" token with Some [a] => negb (String.eqb a "") | _ => false end.

Definition transformUntokenize (subject : string) : string * list string :=
  (String.concat "." ((fun t => if is_placeholder t then pwcs else t) <$> split subject), base.filter (fun t => is_placeholder t = true) (split subject)).

(** The source with its wildcards replaced by the placeholders, in their order; [None] when there
    are too few. *)
Fixpoint place (phs stoks : list string) : option (list string) :=
  match stoks with
  | [] => Some []
  | t :: stoks =>
      if String.eqb t pwcs then match phs with [] => None | p :: phs => r ← place phs stoks; Some (p :: r) end
      else r ← place phs stoks; Some (t :: r)
  end.

(** [None] is nil, also for an error of the constructor. *)
Definition reverse (tr : subjectTransform) : option subjectTransform :=
  let make s d := match NewSubjectTransformStrict s d with inr r => r | inl _ => None end in
  match dtokmf tr with
  | [] => make (dest tr) (src tr)
  | _ =>
      let '(nsrc, phs) := transformUntokenize (dest tr) in
      nda ← place phs (stoks tr);
      make nsrc (String.concat "." nda)
  end.

End Xform.
