(* ===== verification/SubjectTransformSpec.v ===== *)
(** * Subject transforms: properties

    A transform is what its destination says, read directly on the tokens that the wildcards of
    the source capture; the reverse of a transform undoes it when its placeholders are an
    involution. *)

From stdpp Require Import pretty.
From Stdlib Require Import Ascii.
From S2P Require Import Prelude Subject SubjectSpec GoStrings SubjectTransform.
Import Subj GoStr Xform.
Open Scope string_scope.
Open Scope Z_scope.

(** ** Tokens and their join *)

Notation join := (String.concat ".").

Definition dotless (t : string) : Prop := Contains t btsep = false.

Lemma concat_cons a b l : join (a :: b :: l) = a +:+ "." +:+ join (b :: l).
Proof. done. Qed.

Lemma dotless_cons c t : dotless (String c t) -> Ascii.eqb c btsep = false /\ dotless t.
Proof. unfold dotless, Contains. cbn [existsb chars]. intros [H1 H2]%orb_false_iff. split; [|done]. by rewrite Ascii.eqb_sym. Qed.

Lemma split_dotless s : Forall dotless (split s).
Proof.
  induction s as [|c s IH]; [by repeat constructor|]. rewrite split_cons. destruct (Ascii.eqb_spec c btsep) as [|Hc]; [constructor; [reflexivity|done]|].
  destruct IH as [|t ts Ht Hts]; [constructor|]. constructor; [|done]. change (Ascii.eqb btsep c || Contains t btsep = false)%bool. rewrite Ht. by destruct (Ascii.eqb_spec btsep c) as [<-|].
Qed.

Lemma split_token_end t : dotless t -> split t = [t].
Proof.
  induction t as [|c t IH]; intros Ht; [done|]. apply dotless_cons in Ht as [Hc Ht]. rewrite split_cons, Hc, IH by done. done.
Qed.

Lemma split_token_sep t s : dotless t -> split (t +:+ "." +:+ s) = t :: split s.
Proof.
  induction t as [|c t IH]; intros Ht; [by rewrite app_string_nil_l, app_string_cons, app_string_nil_l, split_cons|].
  apply dotless_cons in Ht as [Hc Ht]. rewrite app_string_cons, split_cons, Hc, IH by done. done.
Qed.

Lemma split_concat l : l <> [] -> Forall dotless l -> split (join l) = l.
Proof.
  intros Hne Hl. induction Hl as [|a l Ha Hl IH]; [done|]. destruct l as [|b l]; [by apply split_token_end|]. rewrite concat_cons, split_token_sep, IH by done. done.
Qed.

Lemma concat_split s : join (split s) = s.
Proof. apply split_inj. apply split_concat; [apply split_not_nil|apply split_dotless]. Qed.

Lemma join_app a b : a <> [] -> b <> [] -> join (a ++ b) = join a +:+ "." +:+ join b.
Proof.
  intros Ha Hb. induction a as [|x a IH]; [done|]. destruct a as [|y a]; [destruct b; [done|]; apply concat_cons|]. rewrite <- !app_comm_cons, !concat_cons, app_comm_cons, IH by done. by rewrite !app_string_assoc.
Qed.

(** ** Captures *)

(** The tokens at the partial wildcards of a pattern, and those at its full wildcard. A longer
    token that begins with a star stands for any token too, but captures nothing. *)
Fixpoint capture (pat toks : list string) : option (list string * list string) :=
  match pat with
  | [] => match toks with [] => Some ([], []) | _ => None end
  | p :: pat =>
      match toks with
      | [] => None
      | t :: toks' =>
          if String.eqb p fwcs then match pat with [] => Some ([], toks) | _ => None end
          else if String.eqb p pwcs then '(caps, tail) ← capture pat toks'; Some (t :: caps, tail)
          else if (String.eqb p t || starred p)%bool then capture pat toks' else None
      end
  end.

Lemma valid_literal toks : isValidLiteralSubject toks = true <-> literal toks.
Proof.
  induction toks as [|t toks IH]; [split; [constructor|done]|]. unfold literal in *. rewrite Forall_cons, <- IH. unfold lit_tok, pwcs, fwcs. destruct t as [|c [|d t]]; cbn [isValidLiteralSubject].
  - naive_solver.
  - unfold is_wc, pwc, fwc. destruct (Ascii.eqb_spec c "*"), (Ascii.eqb_spec c ">"); cbn [orb]; subst; naive_solver.
  - naive_solver.
Qed.

Lemma capture_matches pat toks : legal_pat pat -> literal toks -> isSubsetMatchTokenized toks pat = bool_decide (is_Some (capture pat toks)).
Proof.
  revert toks. induction pat as [|p pat IH]; intros [|t toks] Hp Hl.
  - by rewrite bool_decide_eq_true_2.
  - by rewrite bool_decide_eq_false_2 by (by intros [? ?]).
  - by rewrite bool_decide_eq_false_2 by (by intros [? ?]).
  - apply legal_pat_cons in Hp as (Hne&Hlast&Hp). apply Forall_cons in Hl as [(Hn&Hns&Hnf) Hl]. rewrite subset_round by done. cbn [capture].
    destruct (String.eqb_spec p fwcs) as [->|Hpf]; [by rewrite (Hlast eq_refl)|]. rewrite (proj2 (String.eqb_neq _ _) Hnf), (proj2 (String.eqb_neq _ _) Hns).
    cbn [andb negb]. rewrite !andb_true_r. unfold as_read. destruct (String.eqb_spec p pwcs) as [->|Hps].
    + change (starred pwcs) with false. cbv iota. change (String.eqb pwcs pwcs) with true. cbn [orb]. rewrite IH by done. by destruct (capture pat toks) as [[caps tail]|].
    + rewrite (String.eqb_sym p t). destruct (starred p); [rewrite orb_true_r; by apply IH|]. rewrite (proj2 (String.eqb_neq _ _) Hps), orb_false_r. cbn [orb]. destruct (String.eqb t p); [by apply IH|]. by rewrite bool_decide_eq_false_2 by (by intros [? ?]).
Qed.

(** The token at the n-th wildcard is the n-th capture. *)
Lemma capture_star pat toks caps tail j : capture pat toks = Some (caps, tail) -> length (star_indexes j pat) = length caps /\
  forall n i, star_indexes j pat !! n = Some i -> j <= i /\ toks !! Z.to_nat (i - j) = caps !! n.
Proof.
  revert toks caps j. induction pat as [|p pat IH]; intros [|t toks] caps j Hc; cbn [capture] in Hc; try discriminate.
  - injection Hc as <- <-. done.
  - cbn [star_indexes]. destruct (String.eqb_spec p fwcs) as [->|Hpf].
    + destruct pat; [|discriminate]. injection Hc as <- <-. done.
    + destruct (String.eqb_spec p pwcs) as [->|Hps].
      * destruct (capture pat toks) as [[caps' tail']|] eqn:E; [|discriminate]. injection Hc as <- <-. destruct (IH _ _ (j + 1) E) as [H1 H2]. split; [cbn; by rewrite H1|]. intros [|n] i.
        -- intros [= <-]. by rewrite Z.sub_diag.
        -- change (star_indexes (j + 1) pat !! n = Some i -> j <= i /\ (t :: toks) !! Z.to_nat (i - j) = caps' !! n). intros Hi. destruct (H2 n i Hi) as [Hj <-]. split; [lia|]. by replace (Z.to_nat (i - j)) with (S (Z.to_nat (i - (j + 1)))) by lia.
      * destruct (String.eqb p t || starred p)%bool; [|discriminate]. destruct (IH _ _ (j + 1) Hc) as [H1 H2]. split; [done|]. intros n i Hi. destruct (H2 n i Hi) as [Hj <-]. split; [lia|]. by replace (Z.to_nat (i - j)) with (S (Z.to_nat (i - (j + 1)))) by lia.
Qed.

Lemma capture_tail pat toks caps tail : capture pat toks = Some (caps, tail) ->
  (length pat - 1 <= length toks)%nat /\ if bool_decide (last pat = Some fwcs) then tail <> [] /\ drop (length pat - 1) toks = tail else tail = [].
Proof.
  revert toks caps. induction pat as [|p pat IH]; intros [|t toks] caps Hc; cbn [capture] in Hc; try discriminate.
  - injection Hc as <- <-. done.
  - destruct (String.eqb_spec p fwcs) as [->|Hf].
    + destruct pat; [|discriminate]. injection Hc as <- <-. cbn. split; [lia|done].
    + assert (exists caps', capture pat toks = Some (caps', tail)) as [caps' E].
      { destruct (String.eqb p pwcs); [destruct (capture pat toks) as [[x y]|]; [|discriminate]; injection Hc as <- <-; by eexists|]. destruct (String.eqb p t || starred p)%bool; [by eexists|discriminate]. }
      destruct (IH _ _ E) as [Hl Ht]. destruct pat as [|q pat].
      * cbn [last length] in *. split; [lia|]. rewrite bool_decide_eq_false_2 in * by (intros [= ?]; done || discriminate). done.
      * change (last (p :: q :: pat)) with (last (q :: pat)). cbn [length] in *. split; [lia|]. destruct (bool_decide _); [|done]. destruct Ht as [? Ht]. split; [done|]. replace (S (length pat) - 1)%nat with (length pat) in Ht by lia. by replace (S (S (length pat)) - 1)%nat with (S (length pat)) by lia.
Qed.

(** ** What a destination says *)

(** The k-th capture; an index below 1 is the first token. *)
Definition cap_at (toks caps : list string) (k : Z) : option string := if k <? 1 then head toks else caps !! Z.to_nat (k - 1).

(** A destination token, read on the tokens and the captures: [wild] says that the source has
    wildcards, without which a partition is over the whole subject. *)
Definition eval_token (wild : bool) (toks caps : list string) (rnd : Z) (d : string) : option string :=
  match indexPlaceHolders d with
  | inl _ => None
  | inr h =>
      let arg (f : string -> string) := k ← mfindexes h !! 0%nat; t ← cap_at toks caps k; Some (f t) in
      match mftype h with
      | NoTransform => Some d
      | BadTransform => None
      | Partition =>
          key ← (if (wild && negb (bool_decide (mfindexes h = [])))%bool then ts ← mapM (cap_at toks caps) (mfindexes h); Some (String.concat "" ts) else Some (join toks));
          Some (getHashPartition key (mfint h))
      | Wildcard => arg id
      | SplitFromLeft => arg (fun t => split_left t (mfint h))
      | SplitFromRight => arg (fun t => split_right t (mfint h))
      | SliceFromLeft => arg (fun t => slice_left t (mfint h))
      | SliceFromRight => arg (fun t => slice_right t (mfint h))
      | SplitFn => arg (fun t => split_fn_loop 0 (Split t (mfstring h)))
      | Left => arg (fun t => left_of t (mfint h))
      | Right => arg (fun t => right_of t (mfint h))
      | Random => Some (getRandomPartition rnd (mfint h))
      end
  end.

(** The tokens of the destination, a full wildcard standing for the rest of the subject. *)
Fixpoint eval_dest (wild : bool) (toks caps tail : list string) (rnd : nat -> Z) (i : nat) (dtoks : list string) : option (list string) :=
  match dtoks with
  | [] => Some []
  | d :: dtoks =>
      if String.eqb d fwcs then Some tail else
      t ← eval_token wild toks caps (rnd i) d; r ← eval_dest wild toks caps tail rnd (S i) dtoks; Some (t :: r)
  end.

(** ** What the constructor establishes *)

Lemma subjectInfo_loop_none toks : fold_left subjectInfo_step toks None = None.
Proof. by induction toks. Qed.

(** After a full wildcard there is no token. *)
Lemma subjectInfo_loop_full toks n0 n b : fold_left subjectInfo_step toks (Some (n0, true)) = Some (n, b) -> toks = [] /\ n = n0 /\ b = true.
Proof.
  destruct toks as [|t toks]; cbn [fold_left]; [by intros [= <- <-]|]. unfold subjectInfo_step at 2. cbn [mbind option_bind]. by rewrite orb_true_r, subjectInfo_loop_none.
Qed.

Lemma last_cons_ne p pat : p <> fwcs -> bool_decide (last (p :: pat) = Some fwcs) = bool_decide (last pat = Some fwcs).
Proof. intros Hp. destruct pat; [|done]. cbn. rewrite !bool_decide_eq_false_2; [done|done|]. by intros [= ?]. Qed.

Lemma subjectInfo_loop_ok toks n0 n b j : fold_left subjectInfo_step toks (Some (n0, false)) = Some (n, b) <->
  no_empty toks /\ fwc_last toks /\ n = n0 + Z.of_nat (length (star_indexes j toks)) /\ b = bool_decide (last toks = Some fwcs).
Proof.
  revert n0 j. induction toks as [|t toks IH]; intros n0 j; cbn [fold_left star_indexes].
  - cbn. rewrite Z.add_0_r. split; [intros [= <- <-]|intros (_&_&->&->)]; [|done]. split_and!; [constructor|done..].
  - unfold subjectInfo_step at 2. unfold no_empty in *. cbn [mbind option_bind fwc_last]. rewrite orb_false_r, Forall_cons. destruct (String.eqb_spec t "") as [->|Ht]; [rewrite subjectInfo_loop_none; naive_solver|]. destruct (String.eqb_spec t fwcs) as [->|Hf].
    + split; [intros (->&->&->)%subjectInfo_loop_full|intros (_&[Hl _]&->&->)]; [cbn; rewrite Z.add_0_r; split_and!; try done; constructor|]. rewrite (Hl eq_refl). cbn. by rewrite Z.add_0_r.
    + rewrite last_cons_ne by done. destruct (String.eqb t pwcs); rewrite (IH _ (j + 1)); cbn [length]; split; intros (H1&H2&H3&H4); split_and!; try done; naive_solver lia.
Qed.

Lemma subjectInfo_ok s toks n b : subjectInfo s = Some (toks, n, b) <->
  toks = split s /\ no_empty toks /\ fwc_last toks /\ n = Z.of_nat (length (star_indexes 0 toks)) /\ b = bool_decide (last toks = Some fwcs).
Proof.
  unfold subjectInfo, subjectInfo_loop. destruct (String.eqb_spec s "") as [->|]; [split; [done|]; intros (->&He&_); by inversion He|]. split.
  - destruct (fold_left _ _ _) as [[n' b']|] eqn:E; [|done]. intros [= <- <- <-]. by apply (subjectInfo_loop_ok _ _ _ _ 0) in E as (?&?&?&?).
  - intros (->&He&Hl&->&->). by rewrite (proj2 (subjectInfo_loop_ok (split s) 0 _ _ 0) (conj He (conj Hl (conj eq_refl eq_refl)))).
Qed.

(** The indexes that a mapping function takes. *)
Definition shape (h : holder) : Prop :=
  match mftype h with
  | NoTransform => h = no_holder
  | BadTransform => False
  | Random => mfindexes h = []
  | Partition => True
  | _ => exists k, mfindexes h = [k]
  end.

Definition shaped (r : xerror + holder) : Prop := match r with inr h => shape h | inl _ => True end.

Lemma index_int_shape a t : (forall i n, shape (mkHolder t [i] n "")) -> shaped (transformIndexIntArgsHelper a t).
Proof. intros Ht. unfold transformIndexIntArgsHelper. repeat case_match; first [exact I|apply Ht]. Qed.

Ltac shape_args := repeat case_match; try done; hnf; cbn; by eauto.

Lemma mustache_shape d : shaped (mustache d).
Proof.
  unfold mustache, wildcard_args, partition_args, split_args, random_args.
  repeat match goal with |- context [getMappingFunctionArgs ?f d] => destruct (getMappingFunctionArgs f d) end;
    first [by apply index_int_shape; intros; hnf; cbn; eauto|shape_args].
Qed.

Lemma holder_shape d h : indexPlaceHolders d = inr h -> shape h.
Proof.
  intros H. assert (shaped (indexPlaceHolders d)) as Hs; [|by rewrite H in Hs]. clear H h. pose proof (mustache_shape d).
  unfold indexPlaceHolders. shape_args.
Qed.

(** ** The destination is written as it reads *)

Section write.
Context (wild : bool) (toks caps tail : list string).

(** The holder of a token writes what the token says. *)
Definition tok_ok (d : string) (h : holder) : Prop :=
  (d = fwcs -> mftype h = NoTransform) /\
  forall rnd, exists t, eval_token wild toks caps rnd d = Some t /\ if bool_decide (mftype h = NoTransform) then t = d else map_token toks rnd h = Some t.

Lemma write_eval dtoks hs rnd i : Forall2 tok_ok dtoks hs -> dtoks <> [] -> fwc_last dtoks -> (last dtoks = Some fwcs -> tail <> []) ->
  exists ts b d, ts <> [] /\ eval_dest wild toks caps tail rnd i dtoks = Some ts /\ write_dest toks rnd i dtoks hs = Some b /\
    last dtoks = Some d /\ b +:+ (if String.eqb d fwcs then join tail else "") = join ts.
Proof.
  intros Hok. revert i. induction Hok as [|d h dtoks hs [Hf Hd] Hok IH]; [done|]. intros i _ [Hl1 Hl2] Htail. cbn [eval_dest write_dest]. destruct (String.eqb_spec d fwcs) as [->|Hdf].
  - rewrite (Hl1 eq_refl) in *. rewrite (Hf eq_refl). exists tail, "", fwcs. split_and!; [by apply Htail|done..].
  - destruct (Hd (rnd i)) as (t&Ht&Hm). rewrite Ht. cbn [mbind option_bind]. destruct Hok as [|d' h' dtoks hs Hok0 Hok].
    + exists [t], t, d. rewrite (proj2 (String.eqb_neq _ _) Hdf). destruct (bool_decide (mftype h = NoTransform)); [subst t|rewrite Hm]; cbn; by rewrite !app_string_nil.
    + destruct (IH (S i)) as (ts&b&e&Hts&He&Hw&Hlast&Hj); [done..|]. exists (t :: ts), (t +:+ "." +:+ b), e. rewrite He. cbn [mbind option_bind]. change (last (d :: d' :: dtoks)) with (last (d' :: dtoks)).
      split_and!; [done|done| |done|].
      * destruct (bool_decide (mftype h = NoTransform)); [subst t|rewrite Hm; cbn [mbind option_bind drop]]; by rewrite Hw.
      * destruct ts as [|u ts]; [done|]. rewrite concat_cons, <- Hj. by rewrite <- !app_string_assoc.
Qed.

End write.

Section holders.
Context (pat toks caps tail : list string) (Hcap : capture pat toks = Some (caps, tail)) (Hne : toks <> []).

Lemma cap_ok k : k <= Z.of_nat (length (star_indexes 0 pat)) -> exists t, token_at toks (sti (star_indexes 0 pat) k) = Some t /\ cap_at toks caps k = Some t.
Proof.
  intros Hk. destruct (capture_star _ _ _ _ 0 Hcap) as [Hlen Hst]. unfold sti, cap_at, token_at. destruct (Z.ltb_spec k 1) as [|H1].
  - destruct toks as [|t ?]; [done|]. by exists t.
  - destruct (star_indexes 0 pat !! Z.to_nat (k - 1)) as [i|] eqn:Ei; [|apply lookup_ge_None in Ei; lia]. destruct (Hst _ _ Ei) as [Hi0 Hi]. change (default 0 (Some i)) with i. rewrite (proj2 (Z.ltb_ge i 0)) by lia. rewrite Z.sub_0_r in Hi. rewrite Hi.
    destruct (caps !! Z.to_nat (k - 1)) as [t|] eqn:Et; [by exists t|]. apply lookup_ge_None in Et. lia.
Qed.

Lemma caps_ok ks : existsb (fun k => Z.of_nat (length (star_indexes 0 pat)) <? k) ks = false ->
  exists ts, mapM (token_at toks) (sti (star_indexes 0 pat) <$> ks) = Some ts /\ mapM (cap_at toks caps) ks = Some ts.
Proof.
  induction ks as [|k ks IH]; cbn [existsb]; [by exists []|]. intros [Hk Hks]%orb_false_iff. destruct (IH Hks) as (ts&H1&H2). destruct (cap_ok k) as (t&T1&T2); [lia|].
  exists (t :: ts). rewrite fmap_cons. cbn [mapM]. rewrite H1, H2, T1, T2. done.
Qed.

Lemma token_at_some k t : token_at toks k = Some t -> (Z.of_nat (length toks) <=? k) = false.
Proof. unfold token_at. destruct (Z.ltb_spec k 0); [done|]. intros Ht%lookup_lt_Some. lia. Qed.

Lemma wild_token d h : indexPlaceHolders d = inr h -> mftype h <> NoTransform -> mftype h <> Random ->
  existsb (fun k => Z.of_nat (length (star_indexes 0 pat)) <? k) (mfindexes h) = false ->
  tok_ok true toks caps d (mkHolder (mftype h) (sti (star_indexes 0 pat) <$> mfindexes h) (mfint h) (mfstring h)).
Proof.
  intros Hd Hn Hr Hk. split; [by intros ->; injection Hd as <-|]. intros rnd. rewrite bool_decide_eq_false_2 by done. unfold eval_token. rewrite Hd. pose proof (holder_shape d h Hd) as Hs. unfold shape in Hs. destruct (caps_ok _ Hk) as (ts&T1&T2).
  unfold map_token. cbn [mftype mfindexes mfint mfstring]. destruct (mftype h) eqn:Et; try done;
    try (destruct Hs as [k Hs]; rewrite Hs in *; destruct (cap_ok k) as (t&C1&C2); [cbn [existsb] in Hk; rewrite orb_false_r in Hk; lia|]; cbn; rewrite C1, C2; eexists; by split; [|rewrite ?(token_at_some _ _ C1)]).
  rewrite T2. destruct (mfindexes h) as [|k ks]; [by eexists|]. rewrite bool_decide_eq_false_2 by done. cbn [negb andb]. rewrite fmap_cons in *. rewrite T1. cbn. by eexists.
Qed.

Lemma wild_holders strict dtoks hs n : holders_wild strict (Z.of_nat (length (star_indexes 0 pat))) (star_indexes 0 pat) dtoks = inr (hs, n) -> Forall2 (tok_ok true toks caps) dtoks hs.
Proof.
  revert hs n. induction dtoks as [|d dtoks IH]; intros hs n; cbn [holders_wild]; [by intros [= <- <-]|]. destruct (indexPlaceHolders d) as [|h] eqn:Ed; [done|]. destruct (strict && _ && _); [done|].
  destruct (decide (mftype h = NoTransform)) as [En|En]; [|destruct (decide (mftype h = Random)) as [Er|Er]].
  - rewrite En. destruct (holders_wild _ _ _ _) as [|[hs' n']] eqn:E; [done|]. intros [= <- <-]. constructor; [|by eapply IH]. split; [done|]. intros rnd. exists d. unfold eval_token. by rewrite Ed, En.
  - rewrite Er. destruct (holders_wild _ _ _ _) as [|[hs' n']] eqn:E; [done|]. intros [= <- <-]. constructor; [|by eapply IH]. split; [by intros ->; injection Ed as <-|]. intros rnd. unfold eval_token. rewrite Ed, Er. by eexists.
  - intros H. assert (existsb (fun k => Z.of_nat (length (star_indexes 0 pat)) <? k) (mfindexes h) = false /\ exists hs' n', holders_wild strict (Z.of_nat (length (star_indexes 0 pat))) (star_indexes 0 pat) dtoks = inr (hs', n') /\ hs = mkHolder (mftype h) (sti (star_indexes 0 pat) <$> mfindexes h) (mfint h) (mfstring h) :: hs') as (Hk&hs'&n'&E&->).
    { destruct (mftype h) eqn:Et; try done; destruct (existsb _ _); try done; destruct (holders_wild _ _ _ _) as [|[hs' n']]; try done; injection H as <- <-; by eauto. }
    constructor; [by apply wild_token|by eapply IH].
Qed.

Lemma plain_holders dtoks hs : holders_plain dtoks = inr hs -> Forall2 (tok_ok false toks caps) dtoks hs.
Proof.
  revert hs. induction dtoks as [|d dtoks IH]; intros hs; cbn [holders_plain]; [by intros [= <-]|]. destruct (indexPlaceHolders d) as [|h] eqn:Ed; [done|].
  destruct (match mftype h with NoTransform => _ | _ => _ end) as [h'|] eqn:Eh; [|done]. destruct (holders_plain dtoks) as [|hs'] eqn:E; [done|]. intros [= <-]. constructor; [|by apply IH].
  split; [by intros ->; injection Ed as <-; injection Eh as <-|]. intros rnd. unfold eval_token. rewrite Ed. destruct (mftype h) eqn:Et; try done; injection Eh as <-; by eexists.
Qed.

End holders.

(** ** Match *)

Definition source (src : string) : string := if String.eqb src "" then fwcs else src.

Definition has_wildcards (pat : list string) : bool := existsb (fun t => String.eqb t pwcs || String.eqb t fwcs)%bool pat.

(** What a subject becomes, from the texts of the source and of the destination. *)
Definition match_spec (src dest : string) (rnd : nat -> Z) (s : string) : option (xerror + string) :=
  if String.eqb (source src) fwcs && String.eqb dest fwcs then Some (inr s) else
  if negb (isValidLiteralSubject (split s)) then Some (inl ErrBadSubject) else
  match capture (split (source src)) (split s) with
  | None => Some (inl ErrNoTransforms)
  | Some (caps, tail) => ts ← eval_dest (has_wildcards (split (source src))) (split s) caps tail rnd 0 (split dest); Some (inr (join ts))
  end.

Lemma has_wildcards_counts j pat : fwc_last pat ->
  has_wildcards pat = ((0 <? Z.of_nat (length (star_indexes j pat))) || bool_decide (last pat = Some fwcs))%bool.
Proof.
  revert j. induction pat as [|p pat IH]; intros j; [done|]. intros [H1 H2]. unfold has_wildcards in *. cbn [existsb star_indexes]. rewrite (IH (j + 1) H2). destruct (String.eqb_spec p pwcs) as [->|Hp]; [done|].
  destruct (String.eqb_spec p fwcs) as [->|Hf]; [by rewrite (H1 eq_refl)|]. by rewrite last_cons_ne.
Qed.

(** What the constructor leaves in a transform. *)
Lemma new_transform_ok src dest strict tr : NewSubjectTransformWithStrict src dest strict = inr (Some tr) ->
  Xform.src tr = source src /\ Xform.dest tr = dest /\ dest <> "" /\ stoks tr = split (source src) /\ dtoks tr = split dest /\ fwc_last (split dest) /\ legal_pat (split (source src)) /\
  (last (split dest) = Some fwcs <-> last (split (source src)) = Some fwcs) /\
  forall toks caps tail, capture (split (source src)) toks = Some (caps, tail) -> toks <> [] -> Forall2 (tok_ok (has_wildcards (split (source src))) toks caps) (split dest) (dtokmf tr).
Proof.
  unfold NewSubjectTransformWithStrict. fold (source src). destruct (String.eqb_spec dest "") as [|Hd]; [done|].
  destruct (subjectInfo (source src)) as [[[st np] hf]|] eqn:Es; [|done]. destruct (subjectInfo dest) as [[[dt dn] df]|] eqn:Ed; [|done].
  apply subjectInfo_ok in Es as (->&Hse&Hsl&->&->), Ed as (->&_&Hdl&->&->).
  destruct (_ || _)%bool eqn:Ebad; [done|]. apply orb_false_iff in Ebad as [_ Hf%negb_false_iff%eqb_prop]. rewrite <- (has_wildcards_counts 0) by done.
  assert (last (split dest) = Some fwcs <-> last (split (source src)) = Some fwcs) as Hiff.
  { clear -Hf. destruct (bool_decide_reflect (last (split dest) = Some fwcs)), (bool_decide_reflect (last (split (source src)) = Some fwcs)); naive_solver. }
  destruct (has_wildcards _) eqn:Ew.
  - destruct (holders_wild _ _ _ _) as [|[hs n]] eqn:Eh; [done|]. destruct (strict && _)%bool; [done|]. intros [= <-]. cbn. split_and!; try done; [apply Hiff..|]. intros toks caps tail Hc Hne. by eapply wild_holders.
  - destruct (holders_plain _) as [|hs] eqn:Eh; [done|]. intros [= <-]. cbn. split_and!; try done; [apply Hiff..|]. intros toks caps tail Hc Hne. by apply plain_holders.
Qed.

(** A subject that the source captures is written as the destination reads. *)
Lemma transform_captured src dest strict tr rnd toks caps tail : NewSubjectTransformWithStrict src dest strict = inr (Some tr) ->
  capture (split (source src)) toks = Some (caps, tail) -> toks <> [] ->
  exists ts, ts <> [] /\ eval_dest (has_wildcards (split (source src))) toks caps tail rnd 0 (split dest) = Some ts /\ TransformTokenizedSubject tr rnd toks = Some (join ts).
Proof.
  intros Hnew Hc Hne. destruct (new_transform_ok _ _ _ _ Hnew) as (_&_&_&Hst&Hdt&Hdl&_&Hiff&Hok). specialize (Hok _ _ _ Hc Hne). pose proof (capture_tail _ _ _ _ Hc) as [_ Htail].
  destruct (write_eval _ _ _ tail _ _ rnd 0 Hok) as (ts&b&d&Hts&He&Hw&Hl&Hj); [apply split_not_nil|done| |].
  { intros Hl%Hiff. rewrite bool_decide_eq_true_2 in Htail by done. by destruct Htail. }
  exists ts. split_and!; [done..|]. unfold TransformTokenizedSubject. pose proof (split_not_nil dest). destruct (dtokmf tr) as [|h hs] eqn:Eh; [by inversion Hok; congruence|]. rewrite Hdt, Hw, Hst. cbn [mbind option_bind]. rewrite Hl. cbn [mbind option_bind]. rewrite <- Hj.
  destruct (String.eqb_spec d fwcs) as [->|]; [|done]. rewrite bool_decide_eq_true_2 in Htail by (by apply Hiff). by destruct Htail as [_ ->].
Qed.

(** C21. A transform does to every subject what the texts of its source and destination say: a
    subject that is not a literal is refused, one the source does not match is left alone, and any
    other becomes the destination with each of its functions applied to the tokens that the
    wildcards captured and a full wildcard replaced by the rest; no index is ever out of range.
    Two readings are the code's own: a source token such as [*foo] matches any token and captures
    none, and a function index below 1 names the first token of the subject. *)
Theorem transform_match_exact src dest strict tr rnd s : NewSubjectTransformWithStrict src dest strict = inr (Some tr) ->
  Match tr rnd s = match_spec src dest rnd s /\ is_Some (match_spec src dest rnd s).
Proof.
  intros Hnew. destruct (new_transform_ok _ _ _ _ Hnew) as (Hs&Hd&Hdne&Hst&Hdt&Hdl&Hsl&Hiff&_). unfold Match, match_spec. rewrite Hs, Hd.
  assert (String.eqb (source src) "" = false) as Hsne by (unfold source; destruct (String.eqb_spec src ""); [done|by apply String.eqb_neq]).
  rewrite Hsne, (proj2 (String.eqb_neq _ _) Hdne), !orb_false_r. destruct (_ && _)%bool; [by eauto|]. destruct (isValidLiteralSubject (split s)) eqn:Ev; cbn [negb]; [|by eauto]. apply valid_literal in Ev.
  assert ((String.eqb (source src) fwcs || isSubsetMatch (split s) (source src))%bool = bool_decide (is_Some (capture (split (source src)) (split s)))) as ->.
  { unfold isSubsetMatch. rewrite (capture_matches (split (source src))) by done. destruct (String.eqb_spec (source src) fwcs) as [->|]; [|done]. pose proof (split_not_nil s). by destruct (split s). }
  destruct (capture _ _) as [[caps tail]|] eqn:Ec; [|by eauto]. destruct (transform_captured _ _ _ _ rnd _ _ _ Hnew Ec (split_not_nil s)) as (ts&_&He&Ht). rewrite bool_decide_eq_true_2 by done. rewrite He, Ht. cbn. by eauto.
Qed.

Lemma transform_match_exact_witness :
  match NewSubjectTransform "a.*.*.>" "b.$2.{{SliceFromLeft(1,2)}}.>", NewSubjectTransform "*foo.bar" "baz" with
  | inr (Some tr), inr (Some tr') => Match tr (fun _ => 0) "a.12345.x.t.u" = Some (inr "b.x.12.34.5.t.u") /\ Match tr' (fun _ => 0) "x.bar" = Some (inr "baz")
  | _, _ => False
  end.
Proof.
  destruct (NewSubjectTransform "a.*.*.>" _) as [|[tr|]] eqn:E; [by vm_compute in E| |by vm_compute in E].
  destruct (NewSubjectTransform "*foo.bar" _) as [|[tr'|]] eqn:E'; [by vm_compute in E'| |by vm_compute in E'].
  split; [refine (eq_trans (proj1 (transform_match_exact _ _ false tr _ _ E)) _)|refine (eq_trans (proj1 (transform_match_exact _ _ false tr' _ _ E')) _)]; by vm_compute.
Defined.

(** ** The reverse *)

Definition ph_of (p : string) (k : Z) : Prop := indexPlaceHolders p = inr (mkHolder Wildcard [k] (-1) "") /\ 1 <= k.

Notation is_plain t := (indexPlaceHolders t = inr no_holder).
Notation placeholders := (base.filter (fun t => is_placeholder t = true)).

Definition untok (t : string) : string := if is_placeholder t then pwcs else t.

Lemma untok_fwc d : untok d = fwcs <-> d = fwcs.
Proof. unfold untok. split; [|by intros ->]. by destruct (is_placeholder d). Qed.

Lemma ph_not_wc d : is_placeholder d = true -> d <> "" /\ d <> pwcs /\ d <> fwcs.
Proof. intros Hd. split_and!; intros ->; discriminate. Qed.

(** Tokens with the same full wildcards. *)
Lemma fwc_agree l l' : Forall2 (fun t u => t = fwcs <-> u = fwcs) l l' -> (last l = Some fwcs <-> last l' = Some fwcs) /\ (fwc_last l -> fwc_last l').
Proof.
  induction 1 as [|t u l l' Ht Hl [IH1 IH2]]; [done|]. split.
  - destruct Hl as [|t' u' l l' Ht' Hl]; [|exact IH1]. cbn. split; intros [= ?]; f_equal; by apply Ht.
  - intros [H1 H2]. split; [|by apply IH2]. intros Hu%Ht. rewrite (H1 Hu) in Hl. by inversion Hl.
Qed.

Lemma untok_agree dtoks : Forall2 (fun t u => t = fwcs <-> u = fwcs) dtoks (untok <$> dtoks).
Proof. apply Forall2_fmap_r, Forall_Forall2_diag, Forall_true. intros d. split; apply untok_fwc. Qed.

Lemma untok_no_empty dtoks : no_empty dtoks -> no_empty (untok <$> dtoks).
Proof. intros H. apply Forall_fmap. eapply Forall_impl; [exact H|]. intros d Hd. unfold compose, untok. by destruct (is_placeholder d). Qed.

Lemma untok_dotless dtoks : Forall dotless dtoks -> Forall dotless (untok <$> dtoks).
Proof. intros H. apply Forall_fmap. eapply Forall_impl; [exact H|]. intros d Hd. unfold compose, untok. by destruct (is_placeholder d). Qed.

Lemma untok_stars dtoks j : Forall (fun d => d <> pwcs) dtoks -> length (star_indexes j (untok <$> dtoks)) = length (placeholders dtoks).
Proof.
  intros H. revert j. induction H as [|d dtoks Hd _ IH]; intros j; [done|]. rewrite fmap_cons. cbn [star_indexes]. unfold untok at 1. rewrite filter_cons. destruct (is_placeholder d) eqn:E.
  - change (String.eqb pwcs pwcs) with true. rewrite decide_True by done. cbn [length]. by rewrite IH.
  - rewrite (proj2 (String.eqb_neq _ _) Hd), decide_False by done. apply IH.
Qed.

Lemma no_stars toks j : length (star_indexes j toks) = 0%nat <-> Forall (fun d => d <> pwcs) toks.
Proof.
  revert j. induction toks as [|t toks IH]; intros j; [done|]. cbn [star_indexes]. rewrite Forall_cons. destruct (String.eqb_spec t pwcs) as [->|Ht]; [naive_solver|]. rewrite IH. naive_solver.
Qed.

Lemma Forall2_filter_cons (P : string -> Z -> Prop) d dtoks ks : Forall2 P (placeholders (d :: dtoks)) ks ->
  if is_placeholder d then exists k ks', ks = k :: ks' /\ P d k /\ Forall2 P (placeholders dtoks) ks' else Forall2 P (placeholders dtoks) ks.
Proof.
  rewrite filter_cons. destruct (is_placeholder d); [rewrite decide_True by done|by rewrite decide_False by done]. intros H. inversion H; subst. by eauto 10.
Qed.

(** What a destination makes is captured by the destination with its placeholders as wildcards. *)
Lemma dest_captured wild toks caps tail rnd i dtoks ks ts :
  Forall (fun d => d <> pwcs) dtoks -> fwc_last dtoks -> Forall (fun d => is_placeholder d = false -> is_plain d) dtoks ->
  Forall2 ph_of (placeholders dtoks) ks -> (last dtoks = Some fwcs -> tail <> []) ->
  eval_dest wild toks caps tail rnd i dtoks = Some ts ->
  exists outs, capture (untok <$> dtoks) ts = Some (outs, if bool_decide (last dtoks = Some fwcs) then tail else []) /\ mapM (cap_at toks caps) ks = Some outs.
Proof.
  revert i ks ts. induction dtoks as [|d dtoks IH]; intros i ks ts.
  - intros _ _ _ Hks _ [= <-]. inversion Hks; subst. by exists [].
  - intros [Hs1 Hs]%Forall_cons [Hl1 Hl] [Hp1 Hp]%Forall_cons Hks%Forall2_filter_cons Ht. cbn [eval_dest]. rewrite fmap_cons. cbn [capture]. destruct (String.eqb_spec d fwcs) as [->|Hdf].
    + rewrite (Hl1 eq_refl) in *. specialize (Ht eq_refl). intros [= <-]. change (is_placeholder fwcs) with false in Hks. inversion Hks; subst. destruct tail; [done|]. by exists [].
    + destruct (eval_token _ _ _ _ _) as [t|] eqn:Et; [|done]. cbn [mbind option_bind]. destruct (eval_dest _ _ _ _ _ _ _) as [r|] eqn:Er; [|done]. intros [= <-].
      assert (last dtoks = Some fwcs -> tail <> []) as Ht' by (by destruct dtoks).
      assert (String.eqb (untok d) fwcs = false) as -> by (apply String.eqb_neq; intros Hu; by apply Hdf, (proj1 (untok_fwc d))). rewrite last_cons_ne by done. unfold eval_token in Et. assert (untok d = if is_placeholder d then pwcs else d) as Hu by done. destruct (is_placeholder d) eqn:Ed; rewrite Hu.
      * destruct Hks as (k&ks'&->&[Hk Hk1]&Hks). destruct (IH _ _ _ Hs Hl Hp Hks Ht' Er) as (outs&Ho&Hm). rewrite Ho. change (String.eqb pwcs pwcs) with true. cbv iota. rewrite Hk in Et. cbn [mftype mfindexes] in Et. change ([k] !! 0%nat) with (Some k) in Et. cbn [mbind option_bind] in Et.
        destruct (cap_at toks caps k) as [t'|] eqn:Ec; [|done]. injection Et as <-. exists (t' :: outs). split; [done|]. cbn [mapM]. by rewrite Ec, Hm.
      * destruct (IH _ _ _ Hs Hl Hp Hks Ht' Er) as (outs&Ho&Hm). rewrite (Hp1 eq_refl) in Et. injection Et as <-. rewrite (proj2 (String.eqb_neq _ _) Hs1), String.eqb_refl. cbn [orb]. by exists outs.
Qed.

(** The source with placeholders for its wildcards makes the tokens the wildcards captured, if
    each placeholder stands for its capture. *)
Lemma place_restores wild pat toks caps tail ts outs rnd i phs nda : Forall (fun t => is_plain t /\ starred t = false) pat ->
  capture pat toks = Some (caps, tail) -> place phs pat = Some nda ->
  (forall j p, phs !! j = Some p -> (j < length caps)%nat -> exists k, ph_of p k /\ cap_at ts outs k = caps !! j) ->
  eval_dest wild ts outs tail rnd i nda = Some toks.
Proof.
  intros Hp. revert toks caps i phs nda. induction Hp as [|t pat Ht Hp IH]; intros [|u toks] caps i phs nda Hc; cbn [capture] in Hc; try done.
  - injection Hc as <- <-. intros [= <-]. done.
  - cbn [place]. destruct (String.eqb_spec t fwcs) as [->|Hf].
    + destruct pat; [|done]. injection Hc as <- <-. intros [= <-]. done.
    + destruct (String.eqb_spec t pwcs) as [->|Hs].
      * destruct (capture pat toks) as [[caps' tail']|] eqn:E; [|done]. injection Hc as <- <-. destruct phs as [|p phs]; [done|]. destruct (place phs pat) as [r|] eqn:Er; [|done]. intros [= <-] Hj.
        destruct (Hj 0%nat p eq_refl ltac:(cbn; lia)) as (k&[Hk _]&Hc). cbn [eval_dest]. assert (String.eqb p fwcs = false) as -> by (apply String.eqb_neq; intros ->; discriminate).
        unfold eval_token. rewrite Hk. cbn [mftype mfindexes]. change ([k] !! 0%nat) with (Some k). cbn [mbind option_bind]. rewrite Hc. cbn [mbind option_bind lookup list_lookup]. rewrite (IH _ _ (S i) _ _ E Er); [done|]. intros j q Hq Hl. apply (Hj (S j) q Hq). cbn. lia.
      * destruct Ht as [Ht Hstar]. rewrite Hstar, orb_false_r in Hc. destruct (String.eqb_spec t u) as [->|]; [|done]. destruct (place phs pat) as [r|] eqn:Er; [|done]. intros [= <-] Hj. cbn [eval_dest]. rewrite (proj2 (String.eqb_neq _ _) Hf). unfold eval_token. rewrite Ht. cbn [mftype no_holder mbind option_bind]. by rewrite (IH _ _ (S i) _ _ Hc Er).
Qed.

(** *** The reverse exists *)

(** The source with placeholders: every token is its own or, at a wildcard, a placeholder. *)
Lemma place_shape phs pat j : length phs = length (star_indexes j pat) ->
  exists nda, place phs pat = Some nda /\ Forall2 (fun t u => if String.eqb t pwcs then u ∈ phs else u = t) pat nda.
Proof.
  revert phs j. induction pat as [|t pat IH]; intros phs j; cbn [star_indexes place]; [by exists []|]. destruct (String.eqb t pwcs) eqn:Et.
  - destruct phs as [|p phs]; [done|]. intros [= H]. destruct (IH _ _ H) as (nda&->&Hn). exists (p :: nda). split; [done|]. constructor; [rewrite Et; by left|]. eapply Forall2_impl; [exact Hn|]. cbn. intros t' u. destruct (String.eqb t' pwcs); [by right|done].
  - intros H. destruct (IH _ _ H) as (nda&->&Hn). exists (t :: nda). split; [done|]. constructor; [by rewrite Et|done].
Qed.

Lemma place_agree phs pat nda : Forall (fun p => is_placeholder p = true) phs -> Forall2 (fun t u => if String.eqb t pwcs then u ∈ phs else u = t) pat nda ->
  Forall2 (fun t u => t = fwcs <-> u = fwcs) pat nda /\ Forall (fun d => d <> pwcs) nda /\ (no_empty pat -> no_empty nda) /\ (Forall dotless pat -> Forall dotless phs -> Forall dotless nda).
Proof.
  intros Hphs. unfold no_empty. induction 1 as [|t u pat nda Ht _ (I1&I2&I3&I4)]; [by split_and!|]. destruct (String.eqb_spec t pwcs) as [->|Hs].
  - rewrite Forall_forall in Hphs. destruct (ph_not_wc u (Hphs _ Ht)) as (N1&N2&N3). split_and!; [by constructor|by constructor| |].
    + intros [_ He]%Forall_cons. constructor; by auto.
    + intros [_ He]%Forall_cons Hd. constructor; [|by auto]. rewrite Forall_forall in Hd. by apply Hd.
  - subst u. split_and!; [by constructor|by constructor| |]; intros [H1 H2]%Forall_cons; try intros Hd; constructor; by auto.
Qed.

(** The placeholders of the reverse are in range and there are enough of them. *)
Lemma place_holders phs pat nda n stars j : place phs pat = Some nda -> length phs = length (star_indexes j pat) -> Forall (fun t => is_plain t) pat ->
  Forall (fun p => exists k, ph_of p k /\ k <= n) phs -> exists hs, holders_wild true n stars nda = inr (hs, Z.of_nat (length phs)).
Proof.
  intros Hpl Hlen Hp. revert phs nda j Hpl Hlen. induction Hp as [|t pat Ht Hp IH]; intros phs nda j; cbn [place star_indexes].
  - intros [= <-]. destruct phs; [|done]. by eexists.
  - destruct (String.eqb t pwcs).
    + destruct phs as [|p phs]; [done|]. destruct (place phs pat) as [r|] eqn:Er; [|done]. intros [= <-] [= Hlen] [(k&[Hk _]&Hn) Hph]%Forall_cons. destruct (IH _ _ _ Er Hlen Hph) as [hs Hh]. cbn [holders_wild]. rewrite Hk. cbn [mftype mfindexes existsb]. rewrite bool_decide_eq_false_2, bool_decide_eq_true_2 by done. cbn [negb andb]. rewrite (proj2 (Z.ltb_ge n k) Hn). cbn [orb]. rewrite Hh. eexists. do 3 f_equal. cbn [length]. lia.
    + destruct (place phs pat) as [r|] eqn:Er; [|done]. intros [= <-] Hlen Hph. destruct (IH _ _ _ Er Hlen Hph) as [hs Hh]. cbn [holders_wild]. rewrite Ht. cbn. rewrite Hh. by eexists.
Qed.

Lemma plain_makes toks : Forall (fun t => is_plain t) toks -> exists hs, holders_plain toks = inr hs.
Proof. induction 1 as [|t toks Ht _ [hs IH]]; [by eexists|]. cbn [holders_plain]. rewrite Ht. cbn. rewrite IH. by eexists. Qed.

(** What a strict transform says of the placeholders of its destination. *)
Lemma strict_indexes n stars dtoks hs m ks : holders_wild true n stars dtoks = inr (hs, m) -> Forall (fun d => is_placeholder d = false -> is_plain d) dtoks ->
  Forall2 ph_of (placeholders dtoks) ks -> Forall (fun k => k <= n) ks /\ m = Z.of_nat (length ks) /\ (dtoks <> [] -> hs <> []).
Proof.
  revert hs m ks. induction dtoks as [|d dtoks IH]; intros hs m ks; cbn [holders_wild].
  - intros [= <- <-] _ Hks. by inversion Hks.
  - intros H [Hd Hp]%Forall_cons Hks%Forall2_filter_cons. destruct (is_placeholder d).
    + destruct Hks as (k&ks'&->&[Hk _]&Hks). rewrite Hk in H. cbn [mftype mfindexes existsb] in H. rewrite bool_decide_eq_false_2, bool_decide_eq_true_2 in H by done. cbn [negb andb] in H. rewrite orb_false_r in H. destruct (Z.ltb_spec n k); [done|].
      destruct (holders_wild _ _ _ _) as [|[hs' m']]; [done|]. injection H as <- <-. destruct (IH _ _ _ eq_refl Hp Hks) as (I1&->&_). split_and!; [by constructor|cbn [length]; lia|done].
    + rewrite (Hd eq_refl) in H. cbn in H. destruct (holders_wild _ _ _ _) as [|[hs' m']]; [done|]. injection H as <- <-. by destruct (IH _ _ _ eq_refl Hp Hks) as (I1&->&_).
Qed.

Lemma plain_indexes dtoks hs ks : holders_plain dtoks = inr hs -> Forall2 ph_of (placeholders dtoks) ks -> ks = [] /\ (dtoks <> [] -> hs <> []).
Proof.
  revert hs. induction dtoks as [|d dtoks IH]; intros hs; cbn [holders_plain].
  - intros [= <-] Hks. by inversion Hks.
  - intros H Hks%Forall2_filter_cons. destruct (is_placeholder d); [destruct Hks as (k&ks'&->&[Hk _]&_); by rewrite Hk in H|]. destruct (indexPlaceHolders d) as [|h]; [done|].
    destruct (match mftype h with NoTransform => _ | _ => _ end); [|done]. destruct (holders_plain dtoks) as [|hs']; [done|]. injection H as <-. by destruct (IH _ eq_refl Hks).
Qed.

Definition involution (ks : list Z) : Prop := forall i k, ks !! i = Some k -> ks !! Z.to_nat (k - 1) = Some (Z.of_nat i + 1).

(** A strict transform uses each wildcard of its source once when its placeholders are an
    involution. *)
Lemma strict_new src dest tr ks : NewSubjectTransformStrict src dest = inr (Some tr) -> Forall (fun d => is_placeholder d = false -> is_plain d) (split dest) ->
  Forall2 ph_of (placeholders (split dest)) ks -> involution ks ->
  no_empty (split dest) /\ no_empty (split (source src)) /\ Forall (fun d => d <> pwcs) (split dest) /\ Forall (fun k => k <= Z.of_nat (length ks)) ks /\
  length ks = length (star_indexes 0 (split (source src))) /\ dtokmf tr <> [].
Proof.
  unfold NewSubjectTransformStrict, NewSubjectTransformWithStrict. fold (source src). destruct (String.eqb_spec dest "") as [|Hd]; [done|].
  destruct (subjectInfo (source src)) as [[[st np] hf]|] eqn:Es; [|done]. destruct (subjectInfo dest) as [[[dt dn] df]|] eqn:Ed; [|done].
  apply subjectInfo_ok in Es as (->&Hse&_&->&->), Ed as (->&Hde&_&->&->). destruct (_ || _)%bool eqn:Ebad; [done|]. apply orb_false_iff in Ebad as [Hdn%Z.ltb_ge _]. intros H Hp Hks Hinv.
  assert (Forall (fun d => d <> pwcs) (split dest)) as Hst by (apply (no_stars _ 0); lia).
  destruct (_ || _)%bool eqn:Ew.
  - destruct (holders_wild _ _ _ _) as [|[hs m]] eqn:Eh; [done|]. destruct (strict_indexes _ _ _ _ _ _ Eh Hp Hks) as (Hb&->&Hne). cbn [andb] in H. destruct (Z.ltb_spec (Z.of_nat (length ks)) (Z.of_nat (length (star_indexes 0 (split (source src)))))) as [|Hge]; [done|].
    assert (length ks = length (star_indexes 0 (split (source src)))) as Hlen.
    { apply Nat.le_antisymm; [|lia]. apply Nat.nlt_ge. intros [k Hk]%lookup_lt_is_Some. pose proof (Hinv _ _ Hk) as Hk'. rewrite Forall_lookup in Hb. specialize (Hb _ _ Hk'). lia. }
    rewrite Hlen. injection H as <-. split_and!; try done. apply Hne, split_not_nil.
  - destruct (holders_plain _) as [|hs] eqn:Eh; [done|]. destruct (plain_indexes _ _ _ Eh Hks) as [-> Hne]. apply orb_false_iff in Ew as [Ew%Z.ltb_ge _]. injection H as <-. split_and!; try done; [cbn; lia|]. apply Hne, split_not_nil.
Qed.

Lemma phs_in_range phs ks n : Forall2 ph_of phs ks -> Forall (fun k => k <= n) ks -> Forall (fun p => exists k, ph_of p k /\ k <= n) phs.
Proof. induction 1 as [|p k phs ks Hp _ IH]; [constructor|]. intros [Hk Hks]%Forall_cons. constructor; [by eauto|by apply IH]. Qed.

Lemma join_not_empty l : l <> [] -> Forall dotless l -> no_empty l -> join l <> "".
Proof. intros Hn Hd He Hj. apply (f_equal split) in Hj. rewrite split_concat in Hj by done. rewrite Hj in He. by inversion He. Qed.

Lemma placeholders_ok dtoks : Forall (fun p => is_placeholder p = true) (placeholders dtoks).
Proof. apply Forall_forall. by intros p [Hp _]%list_elem_of_filter. Qed.

Lemma reverse_exists src dest tr ks : NewSubjectTransformStrict src dest = inr (Some tr) -> Forall (fun d => is_placeholder d = false -> is_plain d) (split dest) ->
  Forall2 ph_of (placeholders (split dest)) ks -> involution ks -> Forall (fun t => is_plain t) (split (source src)) ->
  exists nda rtr, place (placeholders (split dest)) (split (source src)) = Some nda /\ reverse tr = Some rtr /\
    NewSubjectTransformStrict (join (untok <$> split dest)) (join nda) = inr (Some rtr) /\ split (join nda) = nda /\
    split (source (join (untok <$> split dest))) = untok <$> split dest.
Proof.
  intros Hnew Hp Hks Hinv Hsp. destruct (new_transform_ok _ _ _ _ Hnew) as (_&Hd&_&Hst&_&Hdl&[_ Hsl]&Hiff&_). destruct (strict_new _ _ _ _ Hnew Hp Hks Hinv) as (Hde&Hse&Hds&Hb&Hlen&Hne).
  pose proof (Forall2_length _ _ _ Hks) as Hlk. destruct (place_shape (placeholders (split dest)) (split (source src)) 0) as (nda&Hpl&Hsh); [congruence|].
  destruct (place_agree _ _ _ (placeholders_ok _) Hsh) as (Hag&Hns&Hnne&Hnd). destruct (fwc_agree _ _ Hag) as [Hnlast Hnfl]. destruct (fwc_agree _ _ (untok_agree (split dest))) as [Hulast Hufl].
  assert (Forall dotless nda) as Hdot by (apply Hnd; [apply split_dotless|]; apply Forall_forall; intros p [_ Hin]%list_elem_of_filter; revert p Hin; apply Forall_forall, split_dotless).
  pose proof (untok_dotless _ (split_dotless dest)) as Hud. pose proof (untok_no_empty _ Hde) as Hun. assert (untok <$> split dest <> []) as Hu0 by (pose proof (split_not_nil dest); by destruct (split dest)).
  assert (nda <> []) as Hn0 by (pose proof (split_not_nil (source src)) as Hz; intros ->; by inversion Hsh; congruence).
  pose proof (split_concat _ Hn0 Hdot) as Hsn. pose proof (split_concat _ Hu0 Hud) as Hsu. pose proof (join_not_empty _ Hu0 Hud Hun) as Hje.
  assert (source (join (untok <$> split dest)) = join (untok <$> split dest)) as Hsrc by (unfold source; by rewrite (proj2 (String.eqb_neq _ _) Hje)).
  assert (exists rtr, NewSubjectTransformStrict (join (untok <$> split dest)) (join nda) = inr (Some rtr)) as [rtr Hr].
  { unfold NewSubjectTransformStrict, NewSubjectTransformWithStrict. fold (source (join (untok <$> split dest))). rewrite Hsrc, (proj2 (String.eqb_neq _ _) (join_not_empty _ Hn0 Hdot (Hnne Hse))).
    rewrite (proj2 (subjectInfo_ok (join (untok <$> split dest)) (untok <$> split dest) _ _)) by (split_and!; [by rewrite Hsu|done|by apply Hufl|reflexivity|reflexivity]).
    rewrite (proj2 (subjectInfo_ok (join nda) nda _ _)) by (split_and!; [by rewrite Hsn|by apply Hnne|by apply Hnfl|reflexivity|reflexivity]).
    rewrite (proj2 (no_stars nda 0) Hns), untok_stars by done. rewrite (bool_decide_ext (last nda = Some fwcs) (last (untok <$> split dest) = Some fwcs)) by (rewrite <- Hnlast, <- Hulast; by rewrite Hiff). rewrite eqb_reflx. cbn [orb negb Z.ltb].
    change (0 <? Z.of_nat 0) with false. cbn [orb]. destruct (_ || _)%bool eqn:Ew.
    - destruct (place_holders _ _ _ (Z.of_nat (length (placeholders (split dest)))) (star_indexes 0 (untok <$> split dest)) 0 Hpl ltac:(congruence) Hsp) as [hs ->]; [|rewrite Z.ltb_irrefl; by eexists].
      apply (phs_in_range _ ks); [done|]. by rewrite Hlk.
    - apply orb_false_iff in Ew as [Ew%Z.ltb_ge _]. destruct (plain_makes nda) as [hs ->]; [|by eexists]. assert (placeholders (split dest) = []) as Hz by (destruct (placeholders (split dest)); [done|cbn in Ew; lia]). rewrite Hz in Hsh.
      clear -Hsh Hsp. revert Hsp. induction Hsh as [|t u l l' Ht _ IH]; [done|]. intros [H1 H2]%Forall_cons. constructor; [|by apply IH]. destruct (String.eqb t pwcs); [by inversion Ht|by subst]. }
  exists nda, rtr. split_and!; try done; [|by rewrite Hsrc]. unfold reverse. destruct (dtokmf tr); [done|]. unfold transformUntokenize. rewrite Hd, Hst. fold untok. rewrite Hpl. cbn [mbind option_bind]. change (fun t : string => if is_placeholder t then pwcs else t) with untok. by rewrite Hr.
Qed.

(** *** The reverse undoes *)

Lemma capture_sub (P : string -> Prop) pat toks caps tail : capture pat toks = Some (caps, tail) -> Forall P toks -> Forall P caps /\ Forall P tail.
Proof.
  revert toks caps. induction pat as [|p pat IH]; intros [|t toks] caps Hc; cbn [capture] in Hc; try done; [by injection Hc as <- <-|]. intros Ha. pose proof Ha as [Ht Hts]%Forall_cons. destruct (String.eqb p fwcs); [destruct pat; [|done]; by injection Hc as <- <-|].
  destruct (String.eqb p pwcs); [|destruct (String.eqb p t || starred p)%bool; [by eapply IH|done]]. destruct (capture pat toks) as [[caps' tail']|] eqn:E; [|done]. injection Hc as <- <-. destruct (IH _ _ E Hts). split; [by constructor|done].
Qed.

Lemma eval_dest_dotless wild toks caps tail rnd i dtoks ks ts :
  Forall dotless toks -> Forall dotless caps -> Forall dotless tail -> Forall dotless dtoks ->
  Forall (fun d => is_placeholder d = false -> is_plain d) dtoks -> Forall2 ph_of (placeholders dtoks) ks ->
  eval_dest wild toks caps tail rnd i dtoks = Some ts -> Forall dotless ts.
Proof.
  intros Ht Hc Htl. revert i ks ts. induction dtoks as [|d dtoks IH]; intros i ks ts; cbn [eval_dest]; [by intros _ _ _ [= <-]|]. intros [Hd Hds]%Forall_cons [Hp1 Hp]%Forall_cons Hks%Forall2_filter_cons.
  destruct (String.eqb d fwcs); [by intros [= <-]|]. destruct (eval_token _ _ _ _ _) as [t|] eqn:Et; [|done]. cbn [mbind option_bind]. destruct (eval_dest _ _ _ _ _ _ _) as [r|] eqn:Er; [|done]. intros [= <-]. unfold eval_token in Et. destruct (is_placeholder d).
  - destruct Hks as (k&ks'&->&[Hk _]&Hks). constructor; [|by eapply IH]. rewrite Hk in Et. cbn [mftype mfindexes] in Et. change ([k] !! 0%nat) with (Some k) in Et. cbn [mbind option_bind] in Et. destruct (cap_at toks caps k) as [t'|] eqn:Ec; [|done]. injection Et as <-. unfold cap_at in Ec. destruct (k <? 1).
    + destruct toks; [done|]. injection Ec as <-. by apply Forall_cons in Ht as [? _].
    + exact (Forall_lookup_1 _ _ _ _ Hc Ec).
  - rewrite (Hp1 eq_refl) in Et. injection Et as <-. constructor; [done|by eapply IH].
Qed.

(** With an involution the captures come back in their places. *)
Lemma involution_back toks caps ts outs phs ks : Forall2 ph_of phs ks -> involution ks -> mapM (cap_at toks caps) ks = Some outs ->
  forall j p, phs !! j = Some p -> (j < length caps)%nat -> exists k, ph_of p k /\ cap_at ts outs k = caps !! j.
Proof.
  intros Hks Hinv Hm j p Hj Hl. destruct (Forall2_lookup_l _ _ _ _ _ Hks Hj) as (k&Hk&Hph). exists k. split; [done|]. destruct Hph as [_ H1]. apply mapM_Some in Hm. destruct (Forall2_lookup_l _ _ _ _ _ Hm (Hinv _ _ Hk)) as (x&Hx&Hcx).
  unfold cap_at in *. rewrite (proj2 (Z.ltb_ge k 1)) by lia. rewrite (proj2 (Z.ltb_ge (Z.of_nat j + 1) 1)) in Hcx by lia. rewrite Hx, <- Hcx. f_equal. lia.
Qed.

(** The reverse of a strict transform exists and undoes it on every subject that the source
    captures, if its placeholders are an involution: the k-th names j exactly when the j-th names
    k. The placeholders are written as [transformUntokenize] expects them, and no token of the
    source reads as a mapping function or is a longer token that begins with a star. *)
Theorem transform_reverse src dest tr ks : NewSubjectTransformStrict src dest = inr (Some tr) ->
  Forall (fun d => is_placeholder d = false -> is_plain d) (split dest) -> Forall2 ph_of (placeholders (split dest)) ks -> involution ks -> Forall (fun t => is_plain t /\ starred t = false) (split (source src)) ->
  exists rtr, reverse tr = Some rtr /\ forall rnd rnd' s, is_Some (capture (split (source src)) (split s)) ->
    exists s', TransformSubject tr rnd s = Some s' /\ TransformSubject rtr rnd' s' = Some s.
Proof.
  intros Hnew Hp Hks Hinv Hsp. destruct (reverse_exists _ _ _ _ Hnew Hp Hks Hinv ltac:(eapply Forall_impl; [exact Hsp|]; by intros t [? _])) as (nda&rtr&Hpl&Hr&Hrn&Hsn&Hsu). exists rtr. split; [done|]. intros rnd rnd' s [[caps tail] Hc].
  destruct (new_transform_ok _ _ _ _ Hnew) as (_&_&_&_&_&Hdl&_&Hiff&_). destruct (strict_new _ _ _ _ Hnew Hp Hks Hinv) as (_&_&Hds&_).
  destruct (transform_captured _ _ _ _ rnd _ _ _ Hnew Hc (split_not_nil s)) as (ts&Hts&He&Ht). exists (join ts). split; [exact Ht|]. pose proof (capture_tail _ _ _ _ Hc) as [_ Htail].
  destruct (dest_captured _ _ _ _ _ _ _ _ _ Hds Hdl Hp Hks ltac:(intros Hl%Hiff; rewrite bool_decide_eq_true_2 in Htail by done; by destruct Htail) He) as (outs&Ho&Hm).
  assert ((if bool_decide (last (split dest) = Some fwcs) then tail else []) = tail) as Htl.
  { rewrite (bool_decide_ext _ _ Hiff). destruct (bool_decide _); [done|by symmetry]. }
  rewrite Htl in Ho. destruct (capture_sub dotless _ _ _ _ Hc (split_dotless s)) as [Hcd Htd]. pose proof (eval_dest_dotless _ _ _ _ _ _ _ _ _ (split_dotless s) Hcd Htd (split_dotless dest) Hp Hks He) as Hdot.
  unfold TransformSubject. rewrite split_concat by done. rewrite <- Hsu in Ho. destruct (transform_captured _ _ _ _ rnd' _ _ _ Hrn Ho Hts) as (ts'&_&He'&->). rewrite Hsn in He'.
  rewrite (place_restores _ _ _ _ _ ts outs _ _ _ _ Hsp Hc Hpl) in He'; [injection He' as <-; by rewrite concat_split|]. by eapply involution_back.
Qed.

Lemma transform_reverse_witness :
  match NewSubjectTransformStrict "a.*.*.>" "b.$2.x.{{wildcard(1)}}.>" with
  | inr (Some tr) => exists rtr, reverse tr = Some rtr /\ exists s', TransformSubject tr (fun _ => 0) "a.1.2.t.u" = Some s' /\ TransformSubject rtr (fun _ => 0) s' = Some "a.1.2.t.u"
  | _ => False
  end.
Proof.
  destruct (NewSubjectTransformStrict _ _) as [|[tr|]] eqn:E; [by vm_compute in E| |by vm_compute in E].
  destruct (transform_reverse "a.*.*.>" "b.$2.x.{{wildcard(1)}}.>" tr [2; 1] E) as (rtr&Hr&H).
  - change (split _) with ["b"; "$2"; "x"; "{{wildcard(1)}}"; ">"]. repeat apply Forall_cons_2; [..|done]; vm_compute; done.
  - assert (placeholders (split "b.$2.x.{{wildcard(1)}}.>") = ["$2"; "{{wildcard(1)}}"]) as -> by (by vm_compute). repeat apply Forall2_cons_2; [..|done]; split; [by vm_compute|lia|by vm_compute|lia].
  - intros [|[|i]] k; cbn; by intros [= <-].
  - change (split _) with ["a"; "*"; "*"; ">"]. repeat apply Forall_cons_2; [..|done]; by vm_compute.
  - exists rtr. split; [done|]. apply H. eexists. vm_compute. reflexivity.
Defined.

(** ** Strict transforms are total *)

Definition total_holder (h : holder) : Prop :=
  match mftype h with
  | NoTransform | Random => True
  | Wildcard => Forall (fun k => 0 <= k) (mfindexes h)
  | Partition => mfindexes h = []
  | _ => False
  end.

Lemma star_indexes_ge j pat : Forall (fun i => j <= i) (star_indexes j pat).
Proof.
  revert j. induction pat as [|p pat IH]; intros j; cbn [star_indexes]; [constructor|]. specialize (IH (j + 1)). assert (Forall (fun i => j <= i) (star_indexes (j + 1) pat)) by (eapply Forall_impl; [exact IH|]; cbn; lia).
  destruct (String.eqb p pwcs); [constructor; [lia|done]|done].
Qed.

Lemma sti_nonneg pat k : 0 <= sti (star_indexes 0 pat) k.
Proof.
  unfold sti. destruct (k <? 1); [lia|]. destruct (_ !! _) as [i|] eqn:E; cbn; [|lia]. exact (Forall_lookup_1 _ _ _ _ (star_indexes_ge 0 pat) E).
Qed.

Lemma strict_holders n pat dtoks hs m : holders_wild true n (star_indexes 0 pat) dtoks = inr (hs, m) -> length hs = length dtoks /\ Forall total_holder hs.
Proof.
  revert hs m. induction dtoks as [|d dtoks IH]; intros hs m; cbn [holders_wild]; [by intros [= <- <-]|]. destruct (indexPlaceHolders d) as [|h]; [done|]. destruct (true && _ && _)%bool eqn:Es; [done|]. cbn [andb] in Es.
  assert (mftype h = NoTransform \/ mftype h = Wildcard) as Ht by (destruct (mftype h); auto; done). destruct Ht as [Ht|Ht]; rewrite Ht.
  - destruct (holders_wild _ _ _ _) as [|[hs' m']]; [done|]. intros [= <- <-]. destruct (IH _ _ eq_refl) as [Hl H]. split; [cbn; by rewrite Hl|]. by constructor.
  - destruct (existsb _ _); [done|]. destruct (holders_wild _ _ _ _) as [|[hs' m']]; [done|]. intros [= <- <-]. destruct (IH _ _ eq_refl) as [Hl H]. split; [cbn; by rewrite Hl|]. constructor; [|done]. apply Forall_fmap, Forall_true. intros k. apply sti_nonneg.
Qed.

Lemma plain_total dtoks hs : holders_plain dtoks = inr hs -> length hs = length dtoks /\ Forall total_holder hs.
Proof.
  revert hs. induction dtoks as [|d dtoks IH]; intros hs; cbn [holders_plain]; [by intros [= <-]|]. destruct (indexPlaceHolders d) as [|h]; [done|]. destruct (match mftype h with NoTransform => _ | _ => _ end) as [h'|] eqn:Eh; [|done].
  destruct (holders_plain dtoks) as [|hs']; [done|]. intros [= <-]. destruct (IH _ eq_refl) as [Hl H]. split; [cbn; by rewrite Hl|]. constructor; [|done]. destruct (mftype h) eqn:Et; try done; by injection Eh as <-.
Qed.

Lemma map_token_total toks rnd h : total_holder h -> mftype h <> NoTransform -> is_Some (map_token toks rnd h).
Proof.
  unfold total_holder, map_token. destruct (mftype h); try done; intros H _.
  - rewrite H. by eexists.
  - destruct (mfindexes h) as [|k ks]; [by eexists|]. apply Forall_cons in H as [Hk _]. destruct (Z.leb_spec (Z.of_nat (length toks)) k); [by eexists|]. unfold token_at. rewrite (proj2 (Z.ltb_ge k 0) Hk). apply lookup_lt_is_Some. lia.
Qed.

Lemma write_total toks rnd i dtoks hs : length hs = length dtoks -> Forall total_holder hs -> is_Some (write_dest toks rnd i dtoks hs).
Proof.
  intros Hl Hh. revert i dtoks Hl. induction Hh as [|h hs Hh _ IH]; intros i [|d dtoks]; try done. intros [= Hl]. cbn [write_dest]. destruct (IH (S i) dtoks Hl) as [r Hr]. destruct (bool_decide_reflect (mftype h = NoTransform)) as [|Hn].
  - destruct (String.eqb d fwcs); [by eexists|]. rewrite Hr. by eexists.
  - destruct (map_token_total toks (rnd i) h Hh Hn) as [t ->]. cbn [mbind option_bind]. change (drop 1 (d :: dtoks)) with dtoks. rewrite Hr. by eexists.
Qed.

(** A strict transform makes a subject of any subject. *)
Lemma strict_transform_total src dest tr rnd s : NewSubjectTransformStrict src dest = inr (Some tr) -> is_Some (TransformSubject tr rnd s).
Proof.
  intros Hnew. assert (length (dtokmf tr) = length (dtoks tr) /\ Forall total_holder (dtokmf tr) /\ dtoks tr <> []) as (Hl&Hh&Hne).
  { revert Hnew. unfold NewSubjectTransformStrict, NewSubjectTransformWithStrict. destruct (String.eqb dest ""); [done|]. destruct (subjectInfo _) as [[[st np] hf]|]; [|done]. destruct (subjectInfo dest) as [[[dt dn] df]|] eqn:Ed; [|done]. apply subjectInfo_ok in Ed as (->&_).
    destruct (_ || negb _)%bool; [done|]. destruct (_ || _)%bool.
    - destruct (holders_wild _ _ _ _) as [|[hs n]] eqn:Eh; [done|]. destruct (true && _)%bool; [done|]. intros [= <-]. cbn. destruct (strict_holders _ _ _ _ _ Eh). split_and!; [done..|apply split_not_nil].
    - destruct (holders_plain _) as [|hs] eqn:Eh; [done|]. intros [= <-]. cbn. destruct (plain_total _ _ Eh). split_and!; [done..|apply split_not_nil]. }
  unfold TransformSubject, TransformTokenizedSubject. destruct (dtokmf tr) as [|h hs] eqn:Em; [by eexists|]. destruct (write_total (split s) rnd 0 (dtoks tr) (h :: hs) Hl Hh) as [b ->]. cbn [mbind option_bind]. destruct (last (dtoks tr)) as [d|] eqn:El; [by eexists|]. by apply last_None in El.
Qed.

(** ** Limits *)

Definition new_transform (src dest : string) : option subjectTransform := match NewSubjectTransform src dest with inr r => r | inl _ => None end.

(** The reverse of a rotation of three wildcards is the rotation again, not its inverse. *)
Example reverse_rotation_wrong :
  option_bind _ _ (fun tr => TransformSubject tr (fun _ => 0) "foo.a.b.c") (new_transform "foo.*.*.*" "bar.$2.$3.$1") = Some "bar.b.c.a" /\
  option_bind _ _ (fun tr => rtr ← reverse tr; TransformSubject rtr (fun _ => 0) "bar.b.c.a") (new_transform "foo.*.*.*" "bar.$2.$3.$1") = Some "foo.c.a.b".
Proof. by vm_compute. Qed.

(** An index below one is taken for the first token of the subject. *)
Example index_zero_first_token :
  option_bind _ _ (fun tr => Match tr (fun _ => 0) "foo.a") (new_transform "foo.*" "bar.{{wildcard(0)}}.$-7") = Some (inr "bar.foo.foo").
Proof. by vm_compute. Qed.

(** Splitting a token that is only the separator leaves an empty token. *)
Example split_empty_token :
  option_bind _ _ (fun tr => Match tr (fun _ => 0) "foo.-") (new_transform "foo.*" "bar.{{split(1,-)}}") = Some (inr "bar.").
Proof. by vm_compute. Qed.
