(* ===== verification/LinearClient.v ===== *)
(** * Linear event client (src/clients/go/linear.go)

    A linear message can be read once: [Access] hands out a copy and wipes the payload.  The
    outbox keeps events until a publisher accepts them and moves them to a dead-letter subject
    after too many attempts.

    The NATS library's messages ([NatsMsg]) and publisher, the cryptography of the security
    headers and [time.ParseDuration] are parameters.  The outbox keeps pointers to its entries in
    a slice that [Flush] compacts in place while it ranges over it: [heap] has the entries and
    [entries] is the slice, written at an index. *)

From stdpp Require Import pretty.
From Stdlib Require Import Ascii.
From S2P Require Import Prelude GoStrings.
Import GoStr.

(** ** Messages of the NATS library *)

Class NatsMsg (M : Type) : Type := {
  NewMsg : string -> M;
  HeaderSet : M -> string -> string -> M;
  HeaderGet : M -> string -> string;
  MsgSubject : M -> string;
  MsgData : M -> list Z;
  SetData : M -> list Z -> M;
}.

(** Documented: a header is read back as it was last set, keys are case-sensitive. *)
Class NatsMsgLaws (M : Type) `{NatsMsg M} : Prop := {
  get_set m k k' v : HeaderGet (HeaderSet m k v) k' = if String.eqb k k' then v else HeaderGet m k';
  get_data m d k : HeaderGet (SetData m d) k = HeaderGet m k;
  data_set m k v : MsgData (HeaderSet m k v) = MsgData m;
  data_data m d : MsgData (SetData m d) = d;
  subject_set m k v : MsgSubject (HeaderSet m k v) = MsgSubject m;
  subject_data m d : MsgSubject (SetData m d) = MsgSubject m;
  subject_new s : MsgSubject (NewMsg s) = s;
}.

Module Linear.
Open Scope string_scope.
Open Scope Z_scope.

Definition LinearEventHeader : string := "Nats-Event-Type".
Definition LinearEventType : string := "Linear".
Definition LinearTTLHeader : string := "Nats-Linear-TTL".
Definition LinearOutboxIDHeader : string := "Nats-Linear-Outbox-Id".
Definition LinearDLQReasonHeader : string := "Nats-Linear-DLQ-Reason".
Definition LinearDLQOriginalSubjectHeader : string := "Nats-Linear-Original-Subject".
Definition LinearPQCAlgorithmHeader : string := "Nats-Linear-PQC-Alg".
Definition LinearPQCPublicKeyHeader : string := "Nats-Linear-PQC-Public-Key".
Definition DPoPHeader : string := "DPoP".
Definition linearPQCAlgorithm : string := "ML-KEM-768".

(** ** Linear messages *)

(** [buffer] is the memory of the payload, [payload] whether the message still refers to it. *)
Record Message : Type := mkMessage {
  buffer : list Z; payload : bool; destroyed : bool; timer : option bool; (* running *) linear : bool }.

Definition destroyLocked (m : Message) : Message :=
  if destroyed m then m else
  mkMessage (if payload m then replicate (length (buffer m)) 0 else buffer m) false true (match timer m with Some _ => Some false | None => None end) (linear m).

Definition Destroy (m : Message) : Message := destroyLocked m.

Definition Access (m : Message) : Message * option (list Z) :=
  if destroyed m then (m, None) else
  let data := if payload m then buffer m else [] in
  (if linear m then destroyLocked m else m, Some data).

(** ** Time to live *)

Section ttl.
Context (ParseDuration : string -> option Z).

Definition parseTTL (value : string) : Z :=
  let value := TrimSpace value in
  if String.eqb value "" then 0 else
  match ParseDuration value with
  | Some ttl => ttl
  | None => match ParseInt value with Some ms => if ms <=? 0 then 0 else i64 (ms * 1000000) | None => 0 end
  end.

(** The message that the callbacks of [Subscribe] and [StartLinearQueue] are given. *)
Definition receive {M} `{NatsMsg M} (msg : M) : Message :=
  let isLinear := String.eqb (HeaderGet msg LinearEventHeader) LinearEventType in
  let ttl := parseTTL (HeaderGet msg LinearTTLHeader) in
  mkMessage (MsgData msg) true false (if isLinear && (0 <? ttl) then Some true else None) isLinear.
End ttl.

(** ** Publishing *)

Record SecurityOptions : Type := mkSecurity { EnablePQC : bool; DPoPKey : option Z; DPoPIssuer : string }.

Record OutboxEntry : Type := mkEntry { ID : string; Subject : string; Payload : list Z; TTL : Z; Attempts : Z }.

Record Outbox : Type := mkOutbox {
  has_pub : bool; dlq : string; max : Z; security : option SecurityOptions;
  entries : list nat; heap : list OutboxEntry; nextID : Z }.

Section outbox.
Context {M : Type} `{NatsMsg M}.
(** The state of the world: the connection of the publisher and the source of randomness. *)
Context {P : Type}.
Context (publish : P -> M -> P * option string).
Context (ephemeralPQCLinearKey : P -> P * (string + string)).
Context (dpopProof : P -> Z -> string -> string -> string -> P * (string + string)).

(** The calls made so far are recorded with their errors. *)
Record world : Type := mkWorld { conn : P; calls : list (M * option string) }.
Implicit Types (w : world) (o : Outbox) (e : OutboxEntry).

Definition PublishMsg w (m : M) : world * option string :=
  let '(p, err) := publish (conn w) m in (mkWorld p (calls w ++ [(m, err)]), err).

Definition applySecurityHeaders w (msg : M) (security : option SecurityOptions) : world * (string + M) :=
  match security with
  | None => (w, inr msg)
  | Some s =>
      let '(w, r) :=
        if EnablePQC s then
          let '(p, r) := ephemeralPQCLinearKey (conn w) in
          (mkWorld p (calls w), match r with inl err => inl err | inr pub => inr (HeaderSet (HeaderSet msg LinearPQCAlgorithmHeader linearPQCAlgorithm) LinearPQCPublicKeyHeader pub) end)
        else (w, inr msg) in
      match r, DPoPKey s with
      | inl err, _ => (w, inl err)
      | inr msg, None => (w, inr msg)
      | inr msg, Some key =>
          let '(p, r) := dpopProof (conn w) key "NATS" (MsgSubject msg) (DPoPIssuer s) in
          (mkWorld p (calls w), match r with inl err => inl err | inr token => inr (HeaderSet msg DPoPHeader token) end)
      end
  end.

(** [strconv.FormatInt(ttl.Milliseconds(), 10)]. *)
Definition ttl_header (msg : M) (ttl : Z) : M :=
  if 0 <? ttl then HeaderSet msg LinearTTLHeader (pretty (Z.quot ttl 1000000)) else msg.

Definition PublishWithSecurity w (subject : string) (data : list Z) (ttl : Z) (security : option SecurityOptions) : world * option string :=
  let msg := SetData (ttl_header (HeaderSet (NewMsg subject) LinearEventHeader LinearEventType) ttl) data in
  match applySecurityHeaders w msg security with
  | (w, inl err) => (w, Some err)
  | (w, inr msg) => PublishMsg w msg
  end.

Definition Publish w (subject : string) (data : list Z) (ttl : Z) : world * option string := PublishWithSecurity w subject data ttl None.

(** ** The outbox *)

Definition NewOutbox (has_pub : bool) (MaxAttempts : Z) (DLQSubject : string) (security : option SecurityOptions) : Outbox :=
  mkOutbox has_pub DLQSubject (if MaxAttempts <=? 0 then 3 else MaxAttempts) security [] [] 0.

Definition with_entries o (l : list nat) (h : list OutboxEntry) : Outbox := mkOutbox (has_pub o) (dlq o) (max o) (security o) l h (nextID o).

Definition EnqueueLinear o (subject : string) (data : list Z) (ttl : Z) : Outbox * string :=
  let n := i64 (nextID o + 1) in
  let id := pretty n in
  (mkOutbox (has_pub o) (dlq o) (max o) (security o) (entries o ++ [length (heap o)]) (heap o ++ [mkEntry id subject data ttl 0]) n, id).

Definition Len o : Z := Z.of_nat (length (entries o)).

Definition message w e (security : option SecurityOptions) : world * (string + M) :=
  let msg := HeaderSet (HeaderSet (NewMsg (Subject e)) LinearEventHeader LinearEventType) LinearOutboxIDHeader (ID e) in
  applySecurityHeaders w (SetData (ttl_header msg (TTL e)) (Payload e)) security.

Definition dlqMessage e (subject reason : string) : M :=
  SetData (HeaderSet (HeaderSet (HeaderSet (NewMsg subject) LinearDLQReasonHeader reason) LinearDLQOriginalSubjectHeader (Subject e)) LinearOutboxIDHeader (ID e)) (Payload e).

(** A failed attempt: the entry with one more attempt, and whether it stays in the outbox. *)
Definition failed_attempt w e (dlq : string) (max : Z) (err : string) : world * OutboxEntry * bool :=
  let e := mkEntry (ID e) (Subject e) (Payload e) (TTL e) (i64 (Attempts e + 1)) in
  if (max <=? Attempts e) && negb (String.eqb dlq "") then
    let '(w, r) := PublishMsg w (dlqMessage e dlq err) in (w, e, match r with None => false | Some _ => true end)
  else (w, e, true).

(** The loop of [Flush] from index [i], with [n] entries to go: the slice and the heap, the
    length of [remaining] (which shares the slice's memory), the first error, and whether a
    message could not be built. *)
Fixpoint flush_loop (dlq : string) (max : Z) (security : option SecurityOptions) (n i : nat) w (arr : list nat) (h : list OutboxEntry) (j : nat) (firstErr : option string)
  : option (world * list nat * list OutboxEntry * nat * option string * option string) :=
  match n with
  | O => Some (w, arr, h, j, firstErr, None)
  | S n =>
      l ← arr !! i;
      e ← h !! l;
      match message w e security with
      | (w, inl err) => Some (w, arr, h, j, firstErr, Some err)
      | (w, inr msg) =>
          match PublishMsg w msg with
          | (w, None) => flush_loop dlq max security n (S i) w arr h j firstErr
          | (w, Some err) =>
              let '(w, e, stays) := failed_attempt w e dlq max err in
              let h := <[l := e]> h in
              let firstErr := match firstErr with None => Some err | Some _ => firstErr end in
              if stays then flush_loop dlq max security n (S i) w (<[j := l]> arr) h (S j) firstErr
              else flush_loop dlq max security n (S i) w arr h j firstErr
          end
      end
  end.

Definition Flush w o : option (world * Outbox * option string) :=
  if negb (has_pub o) then Some (w, o, None) else
  '(w, arr, h, j, firstErr, buildErr) ← flush_loop (dlq o) (max o) (security o) (length (entries o)) 0 w (entries o) (heap o) 0 None;
  match buildErr with
  | Some err => Some (w, with_entries o arr h, Some err)
  | None => Some (w, with_entries o (take j arr) h, firstErr)
  end.
End outbox.
End Linear.
