(* ===== verification/LinearClientSpec.v ===== *)
(** * Linear event client: properties

    A linear message is read at most once and leaves no payload behind; the outbox loses no event
    and, when messages can be built, hands each one over exactly once and in order. *)

From stdpp Require Import pretty.
From S2P Require Import Prelude LinearClient.
Import Linear.
#[local] Open Scope list_scope.

(** ** Linear messages *)

(** The timer calls [Destroy]. *)
Inductive msg_op : Type := MAccess | MDestroy | MTimer.

Definition msg_run (m : Message) (o : msg_op) : Message * option (list Z) :=
  match o with
  | MAccess => Access m
  | MDestroy | MTimer => (Destroy m, None)
  end.

Fixpoint msg_runs (m : Message) (l : list msg_op) : Message * list (option (list Z)) :=
  match l with
  | [] => (m, [])
  | o :: l => let '(m, r) := msg_run m o in let '(m, rs) := msg_runs m l in (m, r :: rs)
  end.

Lemma destroyed_stays m l : destroyed m = true -> msg_runs m l = (m, replicate (length l) None).
Proof.
  intros Hd. induction l as [|o l IH]; [done|]. cbn [msg_runs length replicate].
  assert (msg_run m o = (m, None)) as -> by (destruct o; cbn; unfold Access, Destroy, destroyLocked; by rewrite Hd). by rewrite IH.
Qed.

(** C36. A linear message gives out its payload at the first [Access], unless it was destroyed or
    its time ran out before, and never again: from the first operation on it refers to no payload,
    the buffer has only zeros, and its timer does not run. *)
Theorem linear_access_once (m : Message) (o : msg_op) (l : list msg_op) (Hl : linear m = true) (Hd : destroyed m = false) (Hp : payload m = true) :
  let '(m', rs) := msg_runs m (o :: l) in
  rs = (match o with MAccess => Some (buffer m) | _ => None end) :: replicate (length l) None /\
  destroyed m' = true /\ payload m' = false /\ Forall (fun b => b = 0) (buffer m') /\ length (buffer m') = length (buffer m) /\ timer m' <> Some true.
Proof.
  cbn [msg_runs]. assert (msg_run m o = (destroyLocked m, match o with MAccess => Some (buffer m) | _ => None end)) as ->.
  { destruct o; cbn; unfold Access, Destroy; [by rewrite Hd, Hp, Hl|done|done]. }
  unfold destroyLocked. rewrite Hd, Hp, destroyed_stays by done. cbn. split_and!; [done|done|done| |by rewrite length_replicate|by destruct (timer m)].
  apply Forall_replicate. done.
Qed.

Lemma linear_access_once_witness :
  (msg_runs (mkMessage [1; 2] true false (Some true) true) [MAccess; MAccess; MTimer]).2 = [Some [1; 2]; None; None] /\
  (let '(m', rs) := msg_runs (mkMessage [1; 2] true false (Some true) true) [MAccess; MAccess; MTimer] in
   rs = Some [1; 2] :: replicate 2 None /\ destroyed m' = true /\ payload m' = false /\ Forall (fun b => b = 0) (buffer m') /\ length (buffer m') = 2%nat /\ timer m' <> Some true).
Proof. split; [by vm_compute|]. exact (linear_access_once (mkMessage [1; 2] true false (Some true) true) MAccess [MAccess; MTimer] eq_refl eq_refl eq_refl). Defined.

(** ** The outbox *)

Section outbox.
Context {M : Type} `{HM : NatsMsg M} `{HML : !NatsMsgLaws M}.
Context {P : Type}.
Context (publish : P -> M -> P * option string).
Context (pqc : P -> P * (string + string)).
Context (dpop : P -> Z -> string -> string -> string -> P * (string + string)).
Notation World := (world (M := M) (P := P)).
Implicit Types (w : World) (o : Outbox) (e : OutboxEntry).

(** The messages that the publisher accepted. *)
Definition accepted (l : list (M * option string)) : list M :=
  omap (fun c => match c.2 with None => Some c.1 | Some _ => None end) l.

Lemma accepted_app l l' : accepted (l ++ l') = accepted l ++ accepted l'.
Proof. apply omap_app. Qed.

(** The id of the [n]-th event. *)
Definition id_of (n : nat) : string := pretty (Z.of_nat n + 1).

#[local] Instance id_of_inj : Inj (=) (=) id_of.
Proof. unfold id_of. intros x y E. apply (inj (R := (=)) (S := (=)) (pretty (A := Z))) in E. lia. Qed.

Lemma apply_calls w msg s : calls (applySecurityHeaders pqc dpop w msg s).1 = calls w.
Proof.
  unfold applySecurityHeaders. destruct s as [s|]; [|done]. destruct (EnablePQC s); [destruct (pqc (conn w)) as [p [err|pub]]|]; cbn [fst calls];
    (destruct (DPoPKey s) as [key|]; [|done]); try done; destruct (dpop _ _ _ _ _) as [p' [err'|tok]]; done.
Qed.

(** The headers that the security options set. *)
Definition security_header (k : string) : bool := String.eqb k LinearPQCAlgorithmHeader || String.eqb k LinearPQCPublicKeyHeader || String.eqb k DPoPHeader.

Lemma get_security msg k k' v : security_header k = true -> security_header k' = false -> HeaderGet (HeaderSet msg k v) k' = HeaderGet msg k'.
Proof. intros Hk Hk'. rewrite get_set. destruct (String.eqb_spec k k') as [<-|]; [congruence|done]. Qed.

Lemma apply_same w msg s w' msg' : applySecurityHeaders pqc dpop w msg s = (w', inr msg') ->
  MsgSubject msg' = MsgSubject msg /\ MsgData msg' = MsgData msg /\ forall k, security_header k = false -> HeaderGet msg' k = HeaderGet msg k.
Proof.
  unfold applySecurityHeaders. destruct s as [s|]; [|by intros [= _ <-]].
  destruct (EnablePQC s); [destruct (pqc (conn w)) as [p [err|pub]]|]; (destruct (DPoPKey s) as [key|]; [|try by intros [= _ <-]]); try done;
    try (destruct (dpop _ _ _ _ _) as [p' [err'|tok]]; try done); intros [= _ <-]; rewrite ?subject_set, ?data_set; (split_and!; [done|done|]); intros k Hk; by rewrite !get_security.
Qed.

(** [m] has the event [ev], on its subject or as a dead letter. *)
Definition carries (d : string) (ev : string * string * list Z * Z) (m : M) : Prop :=
  let '(id, subject, data, ttl) := ev in
  HeaderGet m LinearOutboxIDHeader = id /\ MsgData m = data /\
  ((MsgSubject m = subject /\ HeaderGet m LinearEventHeader = LinearEventType /\ (0 < ttl -> HeaderGet m LinearTTLHeader = pretty (Z.quot ttl 1000000))) \/
   (d <> ""%string /\ MsgSubject m = d /\ HeaderGet m LinearDLQOriginalSubjectHeader = subject)).

(** An entry but for its attempts. *)
Definition event_of e : string * string * list Z * Z := (ID e, Subject e, Payload e, TTL e).

Lemma message_carries d w e s w' msg : message pqc dpop w e s = (w', inr msg) -> carries d (event_of e) msg.
Proof.
  intros (Es & Ed & Eh)%apply_same. unfold carries, event_of, ttl_header in *. rewrite !Eh, Es, Ed by done. rewrite data_data, subject_data, !get_data.
  split_and!; [destruct (0 <? TTL e); by rewrite !get_set|done|]. left. split_and!.
  - destruct (0 <? TTL e); by rewrite !subject_set, subject_new.
  - destruct (0 <? TTL e); by rewrite !get_set.
  - intros Ht%Z.ltb_lt. by rewrite Ht, !get_set.
Qed.

Lemma message_calls w e s w' r : message pqc dpop w e s = (w', r) -> calls w' = calls w.
Proof. intros E. apply (f_equal (fun x => calls x.1)) in E. unfold message in E. by rewrite apply_calls in E. Qed.

Lemma dlq_carries e d reason : d <> ""%string -> carries d (event_of e) (dlqMessage (M := M) e d reason).
Proof. intros Hd. unfold carries, event_of, dlqMessage. rewrite data_data, subject_data, !get_data, !subject_set, subject_new, !get_set. split_and!; [done|done|by right]. Qed.

(** A failed attempt leaves the entry in the outbox or had it accepted as a dead letter. *)
Lemma failed_attempt_ok w e d mx err : let '(w', e', stays) := failed_attempt publish w e d mx err in
  event_of e' = event_of e /\ exists new, calls w' = calls w ++ new /\ if stays then accepted new = [] else exists m, accepted new = [m] /\ carries d (event_of e) m.
Proof.
  unfold failed_attempt. cbn [Attempts ID Subject Payload TTL]. destruct (_ && _) eqn:Eb; [|split; [done|exists []; by rewrite app_nil_r]].
  apply andb_true_iff in Eb as [_ Hd%negb_true_iff%String.eqb_neq].
  unfold PublishMsg. destruct (publish _ _) as [p [err'|]]; (split; [done|]); eexists [_]; (split; [done|]); cbn; [done|]. eexists. split; [done|]. by apply (dlq_carries (mkEntry (ID e) (Subject e) (Payload e) (TTL e) _)).
Qed.

(** The ids of the heap: the [n]-th event has the id [id_of n]. *)
Definition heap_ids (h : list OutboxEntry) : Prop := forall l e, h !! l = Some e -> ID e = id_of l.

Lemma heap_ids_insert h l e e' : heap_ids h -> h !! l = Some e -> event_of e' = event_of e -> heap_ids (<[l := e']> h) /\ event_of <$> <[l := e']> h = event_of <$> h.
Proof.
  intros Hh Hl He. split.
  - intros k x [(->&<-&_)|[_ Hx]]%list_lookup_insert_Some; [|by apply Hh]. injection He as -> _ _ _. by apply Hh.
  - rewrite list_fmap_insert, He. apply list_insert_id. by rewrite list_lookup_fmap, Hl.
Qed.

(** Every message can be built: there are no security headers, or they never fail. *)
Definition builds (s : option SecurityOptions) : Prop := forall w msg, exists w' msg', applySecurityHeaders pqc dpop w msg s = (w', inr msg').

(** The messages [ms] are of the events at [ls] of the heap, in this order. *)
Definition of_events (d : string) (h : list OutboxEntry) (ms : list M) (ls : list nat) : Prop :=
  Forall2 (fun m l => exists ev, (event_of <$> h) !! l = Some ev /\ carries d ev m) ms ls.

(** The result of the loop over the entries [rest] that are left after [pre], with [kept] kept so
    far: it went through [m] of them, all when every message could be built; it kept [kept'] and
    had the others accepted. *)
Definition loop_ok d w (h : list OutboxEntry) (kept : list nat) (s : option SecurityOptions) (pre rest : list nat)
    (r : option (World * list nat * list OutboxEntry * nat * option string * option string)) : Prop :=
  exists w' h' kept' done' m err bad new,
    r = Some (w', kept ++ kept' ++ drop (length kept + length kept') (pre ++ rest), h', (length kept + length kept')%nat, err, bad) /\
    heap_ids h' /\ event_of <$> h' = event_of <$> h /\
    take m rest ≡ₚ done' ++ kept' /\ kept' `sublist_of` rest /\ (m <= length rest)%nat /\
    (bad = None -> m = length rest) /\ (builds s -> bad = None) /\
    calls w' = calls w ++ new /\ of_events d h (accepted new) done'.

Lemma loop_accept d w w2 h h2 kept s pre l rest r new : loop_ok d w2 h2 kept s (pre ++ [l]) rest r ->
  calls w2 = calls w ++ new -> of_events d h (accepted new) [l] -> event_of <$> h2 = event_of <$> h -> loop_ok d w h kept s pre (l :: rest) r.
Proof.
  intros (w'&h'&kept'&done'&m&err&bad&new'&->&?&?&Hp&Hs&Hm&Hb&?&Hc&Ha) Hc2 Ha2 He.
  exists w', h', kept', (l :: done'), (S m), err, bad, (new ++ new'). rewrite <- app_assoc. cbn [app length take]. split_and!; try done; try lia; [congruence|by rewrite Hp|by apply sublist_cons|intros; f_equal; auto| |].
  - by rewrite Hc, Hc2, <- app_assoc.
  - rewrite accepted_app. change (l :: done') with ([l] ++ done'). apply Forall2_app; [exact Ha2|]. unfold of_events in Ha. by rewrite He in Ha.
Qed.

Lemma loop_keep d w w2 h h2 kept s pre l rest r new : loop_ok d w2 h2 (kept ++ [l]) s (pre ++ [l]) rest r ->
  calls w2 = calls w ++ new -> accepted new = [] -> event_of <$> h2 = event_of <$> h -> loop_ok d w h kept s pre (l :: rest) r.
Proof.
  intros (w'&h'&kept'&done'&m&err&bad&new'&->&?&?&Hp&Hs&Hm&Hb&?&Hc&Ha) Hc2 Ha2 He.
  exists w', h', (l :: kept'), done', (S m), err, bad, (new ++ new'). rewrite length_app, <- !app_assoc. cbn [app length take]. split_and!; try done; try lia.
  - by replace (length kept + 1 + length kept')%nat with (length kept + S (length kept'))%nat by lia.
  - congruence.
  - by rewrite Hp, Permutation_middle.
  - by apply sublist_skip.
  - intros. f_equal. auto.
  - by rewrite Hc, Hc2, <- app_assoc.
  - rewrite accepted_app, Ha2. unfold of_events in Ha. by rewrite He in Ha.
Qed.

Lemma flush_loop_ok d mx s rest : forall pre w h kept err,
  (length kept <= length pre)%nat -> heap_ids h -> Forall (fun l => l < length h)%nat rest ->
  loop_ok d w h kept s pre rest (flush_loop publish pqc dpop d mx s (length rest) (length pre) w (kept ++ drop (length kept) (pre ++ rest)) h (length kept) err).
Proof.
  induction rest as [|l rest IH]; intros pre w h kept err Hk Hh Hr.
  { exists w, h, [], [], 0%nat, err, None, []. cbn. rewrite Nat.add_0_r, !app_nil_r. split_and!; try done. constructor. }
  apply Forall_cons in Hr as [Hl Hr]. destruct (lookup_lt_is_Some_2 h l Hl) as [e He]. cbn [length flush_loop].
  assert ((kept ++ drop (length kept) (pre ++ l :: rest)) !! length pre = Some l) as ->.
  { rewrite lookup_app_r, lookup_drop by done. replace (length kept + (length pre - length kept))%nat with (length pre) by lia. by apply list_lookup_middle. }
  cbn [mbind option_bind]. rewrite He. cbn [mbind option_bind].
  assert (forall m, carries d (event_of e) m -> of_events d h [m] [l]) as Hof by (intros m Hm; constructor; [|constructor]; exists (event_of e); by rewrite list_lookup_fmap, He).
  destruct (message pqc dpop w e s) as [w1 [bad|msg]] eqn:Em.
  { exists w1, h, [], [], 0%nat, err, (Some bad), []. cbn. rewrite Nat.add_0_r, app_nil_r, (message_calls _ _ _ _ _ Em). split_and!; try done; try lia; [apply sublist_nil_l| |constructor].
    intros Hb. unfold message in Em. match type of Em with applySecurityHeaders _ _ w ?x s = _ => destruct (Hb w x) as (?&?&Hb'); congruence end. }
  pose proof (message_calls _ _ _ _ _ Em) as Hc1. pose proof (message_carries d _ _ _ _ _ Em) as Hmc. unfold PublishMsg. destruct (publish (conn w1) msg) as [p [err1|]].
  - pose proof (failed_attempt_ok (mkWorld p (calls w1 ++ [(msg, Some err1)])) e d mx err1) as Hf. destruct (failed_attempt _ _ _ _ _ _) as [[w2 e2] stays]. destruct Hf as (Hev&new2&Hc2&Ha2). cbn [calls] in Hc2.
    destruct (heap_ids_insert h l e e2 Hh He Hev) as [Hh2 Hev2]. rewrite Hc1, <- app_assoc in Hc2. specialize (IH (pre ++ [l]) w2 (<[l := e2]> h)).
    rewrite length_app, Nat.add_1_r, length_insert, <- app_assoc in IH. cbn [app] in IH. destruct stays.
    + eapply (loop_keep d w w2 h _ kept s pre l rest _ ([(msg, Some err1)] ++ new2)); [|done|by rewrite accepted_app, Ha2|done].
      replace (<[length kept := l]> (kept ++ drop (length kept) (pre ++ l :: rest))) with ((kept ++ [l]) ++ drop (length (kept ++ [l])) (pre ++ l :: rest)).
      * replace (S (length kept)) with (length (kept ++ [l])) by (rewrite length_app; cbn; lia). apply IH; [rewrite length_app; cbn; lia|done|done].
      * rewrite length_app, Nat.add_1_r, <- app_assoc. rewrite insert_app_r_alt, Nat.sub_diag by done. f_equal. cbn [app].
        destruct (drop (length kept) (pre ++ l :: rest)) as [|x t] eqn:E; [apply (f_equal length) in E; rewrite length_drop, length_app in E; cbn in E; lia|].
        cbn. f_equal. change (drop (S (length kept)) (pre ++ l :: rest) = drop 1 (x :: t)). rewrite <- E, drop_drop. f_equal. lia.
    + destruct Ha2 as (m2&Ha2&Hm2). eapply (loop_accept d w w2 h _ kept s pre l rest _ ([(msg, Some err1)] ++ new2)); [by apply IH; [lia| |]|done|rewrite accepted_app, Ha2; by apply Hof|done].
  - eapply (loop_accept d w (mkWorld p (calls w1 ++ [(msg, None)])) h h kept s pre l rest _ [(msg, None)]); [|cbn [calls]; by rewrite Hc1|by apply Hof|done].
    specialize (IH (pre ++ [l]) (mkWorld p (calls w1 ++ [(msg, None)])) h kept err). rewrite length_app, Nat.add_1_r, <- app_assoc in IH. apply IH; [lia|done|done].
Qed.

(** ** Runs *)

Inductive box_op : Type := BEnqueue (subject : string) (data : list Z) (ttl : Z) | BFlush.

Definition box_run (wo : World * Outbox) (b : box_op) : option (World * Outbox) :=
  let '(w, o) := wo in
  match b with
  | BEnqueue subject data ttl => Some (w, (EnqueueLinear o subject data ttl).1)
  | BFlush => '(w, o, _) ← Flush publish pqc dpop w o; Some (w, o)
  end.

(** The state after some operations on a new outbox, and the events put into it. *)
Inductive box_reach (has_pub : bool) (mx : Z) (d : string) (s : option SecurityOptions) (p : P) : World -> Outbox -> list (string * list Z * Z) -> Prop :=
| box_new : box_reach has_pub mx d s p (mkWorld p []) (NewOutbox has_pub mx d s) []
| box_step w o evs b w' o' : box_reach has_pub mx d s p w o evs -> nextID o < max_int64 -> box_run (w, o) b = Some (w', o') ->
    box_reach has_pub mx d s p w' o' (match b with BEnqueue subject data ttl => evs ++ [(subject, data, ttl)] | BFlush => evs end).

Record box_inv (d : string) (s : option SecurityOptions) w o (evs : list (string * list Z * Z)) (D : list nat) : Prop := {
  bi_security : security o = s;
  bi_dlq : dlq o = d;
  bi_next : nextID o = Z.of_nat (length (heap o));
  bi_heap : event_of <$> heap o = imap (fun n ev => (id_of n, ev.1.1, ev.1.2, ev.2)) evs;
  bi_entries : Forall (fun l => l < length (heap o))%nat (entries o);
  bi_calls : of_events d (heap o) (accepted (calls w)) D;
  bi_lost : forall l, (l < length (heap o))%nat -> l ∈ D \/ l ∈ entries o;
  bi_once : builds s -> D ++ entries o ≡ₚ seq 0 (length (heap o)) /\ StronglySorted lt (entries o) }.

Lemma heap_length o evs : event_of <$> heap o = imap (fun n (ev : string * list Z * Z) => (id_of n, ev.1.1, ev.1.2, ev.2)) evs -> length (heap o) = length evs.
Proof. intros E%(f_equal length). by rewrite length_fmap, length_imap in E. Qed.

Lemma heap_ids_of h evs : event_of <$> h = imap (fun n (ev : string * list Z * Z) => (id_of n, ev.1.1, ev.1.2, ev.2)) evs -> heap_ids h.
Proof.
  intros E l e He. apply (f_equal (.!! l)) in E. rewrite list_lookup_fmap, He, list_lookup_imap in E. cbn in E. destruct (evs !! l); [|done]. cbn in E. by injection E.
Qed.

Lemma Forall_sub (Q : nat -> Prop) l l' : l `sublist_of` l' -> Forall Q l' -> Forall Q l.
Proof. intros Hs Hf. rewrite Forall_forall in *. intros x Hx. apply Hf. by eapply sublist_subseteq. Qed.

Lemma sorted_sublist (l l' : list nat) : l `sublist_of` l' -> StronglySorted lt l' -> StronglySorted lt l.
Proof.
  induction 1 as [|x l l' Hs IH|x l l' Hs IH]; intros Ho; [done| |]; apply StronglySorted_inv in Ho as [Ho Hf]; [|by apply IH].
  constructor; [by apply IH|]. by eapply Forall_sub.
Qed.

Lemma enqueue_inv d s w o evs D subject data ttl : box_inv d s w o evs D -> nextID o < max_int64 -> box_inv d s w (EnqueueLinear o subject data ttl).1 (evs ++ [(subject, data, ttl)]) D.
Proof.
  intros [? Hd Hn Hh He Hc Hl Ho] Hmax. pose proof (heap_length _ _ Hh) as Hlen. unfold EnqueueLinear. rewrite i64_small by (unfold is_i64, max_int64 in *; lia). split; cbn [security dlq nextID heap entries fst]; try done.
  - rewrite length_app. cbn. lia.
  - rewrite fmap_app, Hh, imap_app. f_equal. cbn. unfold event_of. cbn. rewrite Nat.add_0_r, Hn, Hlen. done.
  - apply Forall_app. rewrite length_app. cbn. split; [eapply Forall_impl; [done|]; cbn; lia|]. constructor; [lia|done].
  - eapply Forall2_impl; [exact Hc|]. intros m l (ev&Hev&?). exists ev. split; [|done]. rewrite fmap_app. by apply lookup_app_l_Some.
  - intros l. rewrite length_app, elem_of_app, list_elem_of_singleton. cbn. intros Hlt. destruct (decide (l = length (heap o))) as [->|]; [tauto|]. destruct (Hl l); [lia|tauto|tauto].
  - intros Es. destruct (Ho Es) as [Hp Hs]. rewrite length_app, seq_app, app_assoc, Hp. split; [done|]. clear -He Hs. induction (entries o) as [|x l IH]; cbn; [repeat constructor|].
    apply StronglySorted_inv in Hs as [Hs Hf]. apply Forall_cons in He as [Hx He]. constructor; [by apply IH|]. apply Forall_app. split; [done|]. constructor; [done|constructor].
Qed.

Lemma flush_inv d s w o evs D : box_inv d s w o evs D -> exists w' o' err D', Flush publish pqc dpop w o = Some (w', o', err) /\ box_inv d s w' o' evs D'.
Proof.
  intros Hi. pose proof Hi as [Es Ed Hn Hh He Hc Hl Ho]. unfold Flush. destruct (has_pub o); [|by exists w, o, None, D]. cbn [negb].
  pose proof (flush_loop_ok (dlq o) (max o) (security o) (entries o) [] w (heap o) [] None (le_n 0) (heap_ids_of _ _ Hh) He) as (w'&h'&kept&done'&m&err&bad&new&E&Hh'&Hev&Hp&Hsub&Hm&Hb&Hnb&Hc'&Ha).
  cbn in E. rewrite drop_0 in E. rewrite E. cbn [mbind option_bind]. assert (length h' = length (heap o)) as Hlen by (apply (f_equal length) in Hev; by rewrite !length_fmap in Hev).
  rewrite Es in Hnb. rewrite Ed in Ha. assert (Hacc : of_events d h' (accepted (calls w')) (D ++ done')) by (unfold of_events in *; rewrite Hc', accepted_app, Hev; by apply Forall2_app).
  destruct bad as [bad|].
  - eexists _, _, _, (D ++ done'). split; [done|]. split; cbn [with_entries security dlq nextID heap entries]; try done; rewrite ?Hlen; try congruence.
    + apply Forall_app. split; [by eapply Forall_sub|by apply Forall_drop].
    + intros l Hlt. destruct (Hl l Hlt) as [?|Hin]; [set_solver|]. rewrite <- (take_drop m (entries o)), elem_of_app, Hp, elem_of_app in Hin. rewrite !elem_of_app. destruct Hin as [[?|?]|Hin]; [tauto|tauto|]. right. right.
      assert (length kept <= m)%nat as Hkm. { apply Permutation_length in Hp. rewrite length_app, length_take in Hp. lia. }
      replace m with (length kept + (m - length kept))%nat in Hin by lia. rewrite <- drop_drop in Hin. by eapply sublist_subseteq; [apply sublist_drop|].
    + intros Es'. by apply Hnb in Es'.
  - rewrite (Hb eq_refl), firstn_all in Hp. rewrite take_app_length. eexists _, _, _, (D ++ done'). split; [done|]. split; cbn [with_entries security dlq nextID heap entries]; try done; rewrite ?Hlen; try congruence.
    + by eapply Forall_sub.
    + intros l Hlt. destruct (Hl l Hlt) as [?|Hin]; [set_solver|]. rewrite Hp in Hin. set_solver.
    + intros Es'. destruct (Ho Es') as [Ho1 Ho2]. split; [by rewrite <- app_assoc, <- Hp|by eapply sorted_sublist].
Qed.

Lemma box_reach_inv hp mx d s p w o evs : box_reach hp mx d s p w o evs -> exists D, box_inv d s w o evs D.
Proof.
  induction 1 as [|w o evs b w' o' _ [D Hi] Hmax Hb]; [exists []; split; cbn; try done; [constructor|intros; lia|intros _; split; [done|constructor]]|].
  destruct b as [subject data ttl|]; cbn in Hb; [injection Hb as <- <-; exists D; by apply enqueue_inv|].
  destruct (flush_inv d s w o evs D Hi) as (w1&o1&err&D'&E&Hi'). rewrite E in Hb. injection Hb as <- <-. by exists D'.
Qed.

(** C20. After any enqueues and flushes, with any publisher, any number of attempts and any
    failures, [Flush] does not panic and the outbox has the events as they were enqueued.  Every
    message that the publisher accepted is one of the events, with its payload and id, on its
    subject and with its time to live, or as a dead letter that names its subject; every event was
    accepted or is still in the outbox.  When messages can always be built, which without
    security headers is so, every event is accepted at most once, is in the outbox exactly when it
    was not accepted, and the outbox keeps its order; after a message that could not be built an
    event can be accepted again and the order is lost. *)
Theorem outbox_exactly_once hp mx d s p w o evs (Hr : box_reach hp mx d s p w o evs) :
  event_of <$> heap o = imap (fun n ev => (id_of n, ev.1.1, ev.1.2, ev.2)) evs /\
  is_Some (Flush publish pqc dpop w o) /\
  exists D, Forall2 (fun m n => exists ev, evs !! n = Some ev /\ carries d (id_of n, ev.1.1, ev.1.2, ev.2) m) (accepted (calls w)) D /\
    (forall n, (n < length evs)%nat -> n ∈ D \/ n ∈ entries o) /\
    (builds s -> D ++ entries o ≡ₚ seq 0 (length evs) /\ StronglySorted lt (entries o)) /\ builds None.
Proof.
  destruct (box_reach_inv _ _ _ _ _ _ _ _ Hr) as [D Hi]. pose proof Hi as [_ _ _ Hh _ Hc Hl Ho]. rewrite (heap_length _ _ Hh) in Hl, Ho. split; [done|]. split.
  - destruct (flush_inv _ _ _ _ _ _ Hi) as (w'&o'&err&D'&->&_). done.
  - exists D. split_and!; [|done|done|by intros w0 msg; exists w0, msg]. eapply Forall2_impl; [exact Hc|]. intros m n (ev&Hev&Hm). rewrite Hh, list_lookup_imap in Hev.
    apply fmap_Some in Hev as (ev'&Hev&->). by exists ev'.
Qed.
End outbox.

(** ** Witnesses *)

(** Messages with an association list of headers. *)
Record sample_msg : Type := mkSampleMsg { sm_subject : string; sm_header : list (string * string); sm_data : list Z }.

#[local] Instance sample_nats : NatsMsg sample_msg := {
  NewMsg s := mkSampleMsg s [] [];
  HeaderSet m k v := mkSampleMsg (sm_subject m) ((k, v) :: sm_header m) (sm_data m);
  HeaderGet m k := (fix go l := match l with [] => ""%string | (k', v) :: l => if String.eqb k' k then v else go l end) (sm_header m);
  MsgSubject := sm_subject;
  MsgData := sm_data;
  SetData m d := mkSampleMsg (sm_subject m) (sm_header m) d;
}.

#[local] Instance sample_nats_laws : NatsMsgLaws sample_msg.
Proof. by split. Qed.

(** A publisher that refuses everything on one subject; the state counts the calls. *)
Definition sample_publish (n : Z) (m : sample_msg) : Z * option string := (n + 1, if String.eqb (sm_subject m) "down" then Some "no"%string else None).
Definition sample_pqc (n : Z) : Z * (string + string) := (n, if n =? 2 then inl "entropy"%string else inr "key"%string).
Definition sample_dpop (n : Z) (key : Z) (method uri issuer : string) : Z * (string + string) := (n, inr "token"%string).

Definition sample_box (s : option SecurityOptions) (l : list box_op) : world (M := sample_msg) (P := Z) * Outbox :=
  fold_left (fun wo b => default wo (box_run sample_publish sample_pqc sample_dpop wo b)) l (mkWorld 0 [], NewOutbox true 2 "dead" s).

Definition sample_events : list box_op := [BEnqueue "up" [1] 0; BEnqueue "down" [2] 0; BEnqueue "up" [3] 0; BFlush].

Definition box_view (wo : world (M := sample_msg) (P := Z) * Outbox) : list string * list nat := ((fun m => HeaderGet m LinearOutboxIDHeader) <$> accepted (calls wo.1), entries wo.2).

Lemma box_sample_reach : box_reach sample_publish sample_pqc sample_dpop true 2 "dead" None 0
  (sample_box None sample_events).1 (sample_box None sample_events).2 [("up"%string, [1], 0); ("down"%string, [2], 0); ("up"%string, [3], 0)].
Proof.
  pose proof (box_new sample_publish sample_pqc sample_dpop true 2 "dead" None 0) as H.
  eapply (box_step _ _ _ _ _ _ _ _ _ _ _ (BEnqueue "up" [1] 0)) in H; [|done|reflexivity].
  eapply (box_step _ _ _ _ _ _ _ _ _ _ _ (BEnqueue "down" [2] 0)) in H; [|done|reflexivity].
  eapply (box_step _ _ _ _ _ _ _ _ _ _ _ (BEnqueue "up" [3] 0)) in H; [|done|reflexivity].
  eapply (box_step _ _ _ _ _ _ _ _ _ _ _ BFlush) in H; [|done|vm_compute; reflexivity]. exact H.
Qed.

Lemma outbox_exactly_once_witness :
  box_view (sample_box None sample_events) = (["1"; "3"]%string, [1%nat]) /\ (sm_data <$> accepted (calls (sample_box None sample_events).1)) = [[1]; [3]] /\
  exists D, D ++ entries (sample_box None sample_events).2 ≡ₚ seq 0 3.
Proof.
  split; [by vm_compute|]. split; [by vm_compute|]. destruct (outbox_exactly_once _ _ _ true 2 "dead" None 0 _ _ _ box_sample_reach) as (_&_&D&_&_&Ho&Hn).
  exists D. exact (proj1 (Ho Hn)).
Defined.

(** ** Divergences *)

(** When the message of a later entry cannot be built, [Flush] returns with the slice half
    compacted: an entry that failed before is there twice, and an accepted one is still there and
    is sent again. *)
Example flush_build_error_duplicates :
  box_view (sample_box (Some (mkSecurity true None "")) [BEnqueue "up" [1] 0; BEnqueue "down" [2] 0; BEnqueue "up" [3] 0; BFlush]) = (["1"]%string, [1; 1; 2]%nat) /\
  box_view (sample_box (Some (mkSecurity true None "")) [BEnqueue "up" [1] 0; BEnqueue "up" [2] 0; BEnqueue "up" [3] 0; BFlush; BFlush]) = (["1"; "2"]%string, [0; 1; 2]%nat).
Proof. by vm_compute. Qed.
