(* ===== verification/MsgHeader.v ===== *)
(** * Message headers (src/server/client.go, src/server/stream.go)

    Headers are a block of bytes: a line with the version and an optional status, one line per
    key and value, and an empty line, each ended by CR LF.  The server looks up, sets and removes
    keys by searching the bytes.  Slices are values here; that [setHeader] and the removals may
    overwrite the slice they are given is not modelled. *)

From stdpp Require Import pretty.
From Stdlib Require Import Ascii.
From S2P Require Import Prelude.

Module Hdr.
Open Scope char_scope.

Notation bytes := (list ascii).
Definition lit (s : string) : bytes := String.list_ascii_of_string s.

Definition CR : ascii := "013".
Definition LF : ascii := "010".
Definition CRLF : bytes := [CR; LF].
Definition hdrLine : bytes := lit "NATS/1.0" ++ CRLF.
Definition emptyHdrLine : bytes := hdrLine ++ CRLF.

(** [bytes.Index]. *)
Definition has_prefix (s pat : bytes) : bool := bool_decide (take (length pat) s = pat).

Fixpoint Index (s pat : bytes) : option nat :=
  if has_prefix s pat then Some O else
  match s with
  | [] => None
  | _ :: s => S <$> Index s pat
  end.

Definition at_byte (s : bytes) (i : nat) (c : ascii) : bool := bool_decide (s !! i = Some c).

(** The offset grows by the length of the key, which is not empty when the loop continues. *)
Fixpoint key_loop (fuel : nat) (key hdr : bytes) (offset : nat) : option nat :=
  match fuel with
  | O => None
  | S fuel =>
      match Index (drop offset hdr) key with
      | None => None
      | Some index =>
          if Nat.ltb index 2 then None else
          let index := (index + offset)%nat in
          if Nat.leb (length hdr - 1) index || negb (at_byte hdr (index - 1) LF) || negb (at_byte hdr (index - 2) CR)
          then key_loop fuel key hdr (index + length key)
          else if Nat.leb (length hdr) (index + length key) then None
          else if negb (at_byte hdr (index + length key) ":") then key_loop fuel key hdr (index + length key)
          else Some index
      end
  end.

Definition getHeaderKeyIndex (key hdr : bytes) : option nat := key_loop (S (length hdr)) key hdr 0.

Fixpoint skip_spaces (s : bytes) : bytes :=
  match s with
  | " " :: s => skip_spaces s
  | _ => s
  end.

Fixpoint until_crlf (s : bytes) : bytes :=
  match s with
  | [] => []
  | c :: s' => if Ascii.eqb c CR && at_byte s' 0 LF then [] else c :: until_crlf s'
  end.

(** [None] is the nil slice. *)
Definition sliceHeader (key hdr : bytes) : option bytes :=
  index ← getHeaderKeyIndex key hdr; Some (until_crlf (skip_spaces (drop (index + length key + 1) hdr))).

Definition getHeader (key hdr : bytes) : option bytes := sliceHeader key hdr.

(** ** Setting *)

Definition has_suffix (s pat : bytes) : bool := bool_decide (drop (length s - length pat) s = pat) && Nat.leb (length pat) (length s).

Definition setHeader (key val hdr : bytes) : bytes :=
  match getHeaderKeyIndex key hdr with
  | Some start =>
      let valStart := (start + length key + 1)%nat in
      let valStart := if at_byte hdr valStart " " then S valStart else valStart in
      match Index (drop valStart hdr) [CR] with
      | None => hdr
      | Some valEnd =>
          let valEnd := (valEnd + valStart)%nat in
          let extra := (Z.of_nat (length val) - (Z.of_nat valEnd - Z.of_nat valStart))%Z in
          if ((0 <? extra) && (max_int64 - Z.of_nat (length hdr) <? extra))%Z then hdr
          else take valStart hdr ++ val ++ drop valEnd hdr
      end
  | None =>
      let '(hdr, val) := if negb (Nat.eqb (length hdr) 0) && has_suffix hdr CRLF then (take (length hdr - 2) hdr, val ++ CRLF) else (hdr, val) in
      let newSize := u64 (Z.of_nat (length hdr) + Z.of_nat (length key) + 1 + 1 + Z.of_nat (length val) + 2) in
      if (max_int64 <? newSize)%Z then hdr else hdr ++ key ++ [":"; " "] ++ val ++ CRLF
  end.

(** ** Removing *)

(** Every round removes at least the two bytes of a line end. *)
Fixpoint remove_loop (fuel : nat) (key hdr : bytes) : bytes :=
  match fuel with
  | O => hdr
  | S fuel =>
      match getHeaderKeyIndex key hdr with
      | None => hdr
      | Some start =>
          if Nat.ltb start 1 || negb (at_byte hdr (start - 1) LF) then hdr else
          if negb (at_byte hdr (start + length key) ":") then hdr else
          match Index (drop start hdr) CRLF with
          | None => hdr
          | Some stop =>
              let hdr := take start hdr ++ drop (start + stop + 2) hdr in
              if Nat.leb (length hdr) (length emptyHdrLine) then [] else remove_loop fuel key hdr
          end
      end
  end.

Definition removeHeaderIfPresent (hdr key : bytes) : bytes := remove_loop (S (length hdr)) key hdr.

Fixpoint remove_prefix_loop (fuel : nat) (prefix hdr : bytes) (index : nat) : bytes :=
  match fuel with
  | O => hdr
  | S fuel =>
      if Nat.leb (length hdr) index then hdr else
      match Index (drop index hdr) prefix with
      | None => hdr
      | Some start =>
          let index := (index + start)%nat in
          if Nat.ltb index 1 || negb (at_byte hdr (index - 1) LF) then hdr else
          match Index (drop (index + length prefix) hdr) CRLF with
          | None => hdr
          | Some stop =>
              let hdr := take index hdr ++ drop (index + stop + length prefix + 2) hdr in
              if Nat.leb (length hdr) (length emptyHdrLine) then [] else remove_prefix_loop fuel prefix hdr index
          end
      end
  end.

Definition removeHeaderIfPrefixPresent (hdr prefix : bytes) : bytes := remove_prefix_loop (S (length hdr)) prefix hdr 0.

Definition removeHeaderStatusIfPresent (hdr : bytes) : bytes :=
  let k := lit "NATS/1.0" in
  match Index hdr [CR] with
  | None => hdr
  | Some i =>
      if negb (has_prefix hdr k) || Nat.leb i (length k) then hdr else
      let hdr := take (length k) hdr ++ drop i hdr in
      if Nat.eqb (length hdr) (length emptyHdrLine) then [] else hdr
  end.

(** ** Generating *)

(** What [http.Header.Write] does with one key and value: nothing for a key that is not a token,
    and line breaks and outer blanks of the value go. *)
Definition token_char (c : ascii) : bool :=
  let n := nat_of_ascii c in
  (Nat.leb 48 n && Nat.leb n 57) || (Nat.leb 65 n && Nat.leb n 90) || (Nat.leb 97 n && Nat.leb n 122) || existsb (Ascii.eqb c) (lit "!#$%&'*+-.^_`|~").

Definition valid_key (key : bytes) : bool := negb (Nat.eqb (length key) 0) && forallb token_char key.

Fixpoint trim_front (s : bytes) : bytes :=
  match s with
  | c :: s' => if existsb (Ascii.eqb c) [" "; "009"; CR; LF] then trim_front s' else s
  | [] => []
  end.

Definition trim_value (v : bytes) : bytes :=
  reverse (trim_front (reverse (trim_front ((fun c => if Ascii.eqb c CR || Ascii.eqb c LF then " " else c) <$> v)))).

Definition write_header (key value : bytes) : bytes :=
  if valid_key key then key ++ [":"; " "] ++ trim_value value ++ CRLF else [].

Definition genHeader (hdr key value : bytes) : bytes :=
  (if Nat.ltb 2 (length hdr) then take (length hdr - 2) hdr else hdrLine) ++ write_header key value ++ CRLF.

(** [client.setHeader]: the new message, and the sizes that go to the publish arguments. *)
Definition client_setHeader (mqtt : bool) (pa_hdr : Z) (key value msg : bytes) : bytes * Z * Z :=
  let '(front, omi) :=
    if (2 <? pa_hdr)%Z then
      let hdr := removeHeaderIfPresent (take (Z.to_nat pa_hdr - 2) msg) key in
      (if Nat.eqb (length hdr) 0 then hdrLine else hdr, Z.to_nat pa_hdr)
    else (hdrLine, O) in
  let hdr := front ++ write_header key value ++ CRLF in
  let res := hdr ++ drop omi msg in
  (res, Z.of_nat (length hdr), (Z.of_nat (length res) - (if mqtt then 0 else 2))%Z).

(** ** What is read from headers *)

Definition LinearEventHeader : bytes := lit "Nats-Event-Type".
Definition lower (c : ascii) : ascii := let n := nat_of_ascii c in if Nat.leb 65 n && Nat.leb n 90 then ascii_of_nat (n + 32) else c.

(** [strings.EqualFold] and [strings.TrimSpace] on ASCII. *)
Definition equal_fold (a b : bytes) : bool := bool_decide (lower <$> a = lower <$> b).
Definition trim_space (s : bytes) : bytes :=
  let t := (fix go (s : bytes) := match s with c :: s' => if existsb (Ascii.eqb c) [" "; "009"; "010"; "011"; "012"; "013"] then go s' else s | [] => [] end) in
  reverse (t (reverse (t s))).

Definition isLinearEvent (pa_hdr : Z) (msg : bytes) : bool :=
  if (pa_hdr <=? 0)%Z || (Z.of_nat (length msg) <? pa_hdr)%Z then false else
  equal_fold (trim_space (default [] (sliceHeader LinearEventHeader (take (Z.to_nat pa_hdr) msg)))) (lit "Linear").

Fixpoint parse_digits (d : bytes) (n : Z) : Z :=
  match d with
  | [] => n
  | c :: d =>
      let v := Z.of_nat (nat_of_ascii c) in
      if ((v <? 48) || (57 <? v))%Z then -1 else parse_digits d (i64 (i64 (n * 10) + (v - 48)))
  end.

(** The overflow of [n*10] is not checked. *)
Definition parseInt64 (d : bytes) : Z := match d with [] => -1 | _ => parse_digits d 0 end.

Section ttl.
(** [time.ParseDuration], in nanoseconds; the float64 quotient of [Seconds] is taken as exact. *)
Context (ParseDuration : bytes -> option Z).

(** [None] is the error. *)
Definition parseMessageTTL (ttl : bytes) : option Z :=
  if bool_decide (lower <$> ttl = lit "never") then Some (-1)%Z else
  match ParseDuration ttl with
  | Some dur => if (dur <? 1000000000)%Z then None else Some (Z.quot dur 1000000000)
  | None => let t := parseInt64 ttl in if (t <? 0)%Z then None else Some t
  end.

Definition getMessageTTL (hdr : bytes) : option Z :=
  match getHeader (lit "Nats-TTL") hdr with
  | None | Some [] => Some 0%Z
  | Some ttl => parseMessageTTL ttl
  end.
End ttl.

Definition isSubjectDeleteMarker (hdr : bytes) : bool :=
  negb (Nat.eqb (length (default [] (sliceHeader (lit "Nats-Marker-Reason") hdr))) 0) || bool_decide (sliceHeader (lit "KV-Operation") hdr = Some (lit "PURGE")).

Definition getMessageScheduler (hdr : bytes) : bytes := default [] (getHeader (lit "Nats-Scheduler") hdr).
Definition getMsgId (hdr : bytes) : bytes := default [] (getHeader (lit "Nats-Msg-Id") hdr).
Definition getExpectedStream (hdr : bytes) : bytes := default [] (getHeader (lit "Nats-Expected-Stream") hdr).
Definition getExpectedLastMsgId (hdr : bytes) : bytes := default [] (getHeader (lit "Nats-Expected-Last-Msg-Id") hdr).

Definition expected_seq (key hdr : bytes) : option Z :=
  match sliceHeader key hdr with
  | None | Some [] => None
  | Some b => Some (u64 (parseInt64 b))
  end.

Definition getExpectedLastSeq (hdr : bytes) : option Z := expected_seq (lit "Nats-Expected-Last-Sequence") hdr.
Definition getExpectedLastSeqPerSubject (hdr : bytes) : option Z := expected_seq (lit "Nats-Expected-Last-Subject-Sequence") hdr.
Definition getRollup (hdr : bytes) : bytes := lower <$> default [] (getHeader (lit "Nats-Rollup") hdr).

End Hdr.
