(* ===== verification/MsgHeaderSpec.v ===== *)
(** * Message headers: properties

    On well-formed headers, the byte searches are operations on the list of header lines: a
    lookup finds the first line of the key (or, when occurrences of the key are too close to each
    other, nothing), setting replaces its value or adds a line, and
    removing drops all lines of the key. *)

From Stdlib Require Import Ascii.
From S2P Require Import Prelude MsgHeader.
Import Hdr.

(** ** Well-formed headers *)

(** A line has a key, blanks after the colon and a value. *)
Record line : Type := mkLine { l_key : bytes; l_blanks : nat; l_value : bytes }.
Implicit Types (l : line) (ls : list line) (key hdr : bytes).

Definition render_line l : bytes := l_key l ++ ":"%char :: replicate (l_blanks l) " "%char ++ l_value l.
Fixpoint render_lines ls : bytes :=
  match ls with
  | [] => []
  | l :: ls => render_line l ++ CRLF ++ render_lines ls
  end.

(** [status] is what follows the version on the first line. *)
Definition render (status : bytes) ls : bytes := (lit "NATS/1.0" ++ status) ++ CRLF ++ render_lines ls ++ CRLF.

Definition no_break (s : bytes) : Prop := CR ∉ s /\ LF ∉ s.
Definition key_ok key : Prop := key <> [] /\ no_break key /\ ":"%char ∉ key.
Definition value_ok (v : bytes) : Prop := no_break v /\ head v <> Some " "%char.
Definition line_ok l : Prop := key_ok (l_key l) /\ value_ok (l_value l).

(** ** Occurrences *)

Definition occurs key hdr (i : nat) : Prop := take (length key) (drop i hdr) = key.

(** A key at the start of a line, followed by a colon. *)
Definition key_at key hdr (i : nat) : Prop :=
  occurs key hdr i /\ (2 <= i)%nat /\ hdr !! (i - 1)%nat = Some LF /\ hdr !! (i - 2)%nat = Some CR /\ hdr !! (i + length key)%nat = Some ":"%char.

(** No other occurrence of the key is followed, at once or after one byte, by another one, and
    none is at the very start. *)
Definition apart key hdr : Prop :=
  (forall i, (i < 2)%nat -> ~ occurs key hdr i) /\
  forall i j, occurs key hdr i -> ~ key_at key hdr i -> (i + length key <= j <= i + length key + 1)%nat -> ~ occurs key hdr j.

Lemma Index_spec s pat : match Index s pat with
  | Some i => take (length pat) (drop i s) = pat /\ forall j, (j < i)%nat -> take (length pat) (drop j s) <> pat
  | None => forall j, take (length pat) (drop j s) <> pat
  end.
Proof.
  induction s as [|c s IH]; cbn [Index]; unfold has_prefix.
  - case_bool_decide as E; [split; [done|lia]|]. intros j. by rewrite drop_nil.
  - case_bool_decide as E; [split; [done|lia]|]. destruct (Index s pat) as [i|]; cbn.
    + destruct IH as [H1 H2]. split; [done|]. intros [|j] Hj; [done|]. apply H2. lia.
    + intros [|j]; [done|]. apply IH.
Qed.

Lemma occurs_lookup key hdr i k c : occurs key hdr i -> key !! k = Some c -> hdr !! (i + k)%nat = Some c.
Proof.
  intros Ho Hk. assert (k < length key)%nat by (by eapply lookup_lt_Some). assert (take (length key) (drop i hdr) !! k = Some c) as E by (by rewrite Ho). by rewrite lookup_take_lt, lookup_drop in E.
Qed.

Lemma occurs_length key hdr i : occurs key hdr i -> key <> [] -> (i + length key <= length hdr)%nat.
Proof. intros Ho Hne. pose proof (f_equal length Ho) as E. rewrite length_take, length_drop in E. destruct key; [done|]. cbn [length] in *. lia. Qed.

Lemma at_byte_true s i c : at_byte s i c = true <-> s !! i = Some c.
Proof. apply bool_decide_eq_true. Qed.

(** Within an occurrence no line starts. *)
Lemma key_at_apart key hdr i j : key_ok key -> occurs key hdr i -> (i < j < i + length key)%nat -> ~ key_at key hdr j.
Proof.
  intros (_&[_ Hlf]&_) Hi Hj (_&_&Hl&_). destruct (lookup_lt_is_Some_2 key (j - 1 - i)) as [c Hc]; [lia|]. pose proof (occurs_lookup _ _ _ _ _ Hi Hc) as E.
  replace (i + (j - 1 - i))%nat with (j - 1)%nat in E by lia. rewrite E in Hl. injection Hl as ->. apply Hlf. by eapply list_elem_of_lookup_2.
Qed.

(** The search finds the first line of the key. *)
Lemma key_loop_spec key hdr : key_ok key -> apart key hdr -> forall fuel offset, (length hdr < fuel + offset)%nat ->
  (offset = 0%nat \/ exists i, occurs key hdr i /\ ~ key_at key hdr i /\ offset = (i + length key)%nat) ->
  (forall i, (i < offset)%nat -> ~ key_at key hdr i) ->
  match key_loop fuel key hdr offset with
  | Some i => key_at key hdr i /\ forall j, (j < i)%nat -> ~ key_at key hdr j
  | None => forall j, ~ key_at key hdr j
  end.
Proof.
  intros Hk [Ha1 Ha2]. pose proof Hk as (Hne&_). assert (0 < length key)%nat as Hpos by (by destruct key; [|cbn; lia]).
  assert (Hend : forall i, key_at key hdr i -> (i + length key < length hdr)%nat) by (intros i (_&_&_&_&?); by eapply lookup_lt_Some).
  induction fuel as [|fuel IH]; intros offset Hf Hoff Hbef; cbn [key_loop].
  { intros j Hj. destruct (Nat.lt_ge_cases j offset); [by eapply Hbef|]. apply Hend in Hj. lia. }
  pose proof (Index_spec (drop offset hdr) key) as Hi. destruct (Index (drop offset hdr) key) as [index|].
  2:{ intros j Hj. destruct (Nat.lt_ge_cases j offset); [by eapply Hbef|]. apply (Hi (j - offset)%nat). rewrite drop_drop. replace (offset + (j - offset))%nat with j by lia. apply Hj. }
  destruct Hi as [Ho Hmin]. rewrite drop_drop in Ho. fold (occurs key hdr (offset + index)) in Ho.
  assert (Hmin' : forall j, (j < offset + index)%nat -> ~ key_at key hdr j).
  { intros j Hj Hat. destruct (Nat.lt_ge_cases j offset); [by eapply Hbef|]. apply (Hmin (j - offset)%nat); [lia|]. rewrite drop_drop. replace (offset + (j - offset))%nat with j by lia. apply Hat. }
  destruct (Nat.ltb_spec index 2) as [Hlt|Hge].
  { exfalso. destruct Hoff as [->|(i&Hio&Hin&->)]; [apply (Ha1 index); [lia|done]|]. by apply (Ha2 i (i + length key + index)%nat); [..|lia|]. }
  replace (index + offset)%nat with (offset + index)%nat by lia. set (i := (offset + index)%nat) in *. pose proof (occurs_length _ _ _ Ho Hne) as Hlen.
  assert (Hstep : ~ key_at key hdr i -> match key_loop fuel key hdr (i + length key) with
    | Some i => key_at key hdr i /\ forall j, (j < i)%nat -> ~ key_at key hdr j | None => forall j, ~ key_at key hdr j end).
  { intros Hn. apply IH; [lia|right; by exists i|]. intros j Hj. destruct (Nat.lt_trichotomy j i) as [|[->|]]; [by apply Hmin'|done|]. eapply key_at_apart; [done|done|lia]. }
  destruct (Nat.leb_spec (length hdr - 1) i) as [|Hi1]; cbn [orb]; [apply Hstep; intros Hat; apply Hend in Hat; lia|].
  destruct (at_byte hdr (i - 1) LF) eqn:E1; cbn [orb negb].
  2:{ apply Hstep. intros (_&_&H&_). apply at_byte_true in H. congruence. }
  destruct (at_byte hdr (i - 2) CR) eqn:E2; cbn [negb].
  2:{ apply Hstep. intros (_&_&_&H&_). apply at_byte_true in H. congruence. }
  destruct (Nat.leb_spec (length hdr) (i + length key)) as [Hle|Hlt'].
  { intros j Hj. destruct (Nat.lt_ge_cases j i); [by eapply Hmin'|]. apply Hend in Hj. lia. }
  destruct (at_byte hdr (i + length key) ":") eqn:E3; cbn [negb].
  2:{ apply Hstep. intros (_&_&_&_&H). apply at_byte_true in H. congruence. }
  apply at_byte_true in E1, E2, E3. split; [|done]. split_and!; try done. lia.
Qed.

(** What the search finds is the first line of the key in every header. *)
Lemma key_loop_found key hdr : key_ok key -> forall fuel offset i, (forall i, (i < offset)%nat -> ~ key_at key hdr i) ->
  key_loop fuel key hdr offset = Some i -> key_at key hdr i /\ forall j, (j < i)%nat -> ~ key_at key hdr j.
Proof.
  intros Hk. assert (0 < length key)%nat as Hpos by (destruct Hk as [? _]; by destruct key; [|cbn; lia]).
  assert (Hend : forall i, key_at key hdr i -> (i + length key < length hdr)%nat) by (intros i (_&_&_&_&?); by eapply lookup_lt_Some).
  induction fuel as [|fuel IH]; intros offset r Hbef; cbn [key_loop]; [done|].
  pose proof (Index_spec (drop offset hdr) key) as Hi. destruct (Index (drop offset hdr) key) as [index|]; [|done].
  destruct Hi as [Ho Hmin]. rewrite drop_drop in Ho. fold (occurs key hdr (offset + index)) in Ho.
  assert (Hmin' : forall j, (j < offset + index)%nat -> ~ key_at key hdr j).
  { intros j Hj Hat. destruct (Nat.lt_ge_cases j offset); [by eapply Hbef|]. apply (Hmin (j - offset)%nat); [lia|]. rewrite drop_drop. replace (offset + (j - offset))%nat with j by lia. apply Hat. }
  destruct (Nat.ltb_spec index 2) as [Hlt|Hge]; [done|].
  replace (index + offset)%nat with (offset + index)%nat by lia. set (i := (offset + index)%nat) in *.
  assert (Hstep : ~ key_at key hdr i -> key_loop fuel key hdr (i + length key) = Some r -> key_at key hdr r /\ forall j, (j < r)%nat -> ~ key_at key hdr j).
  { intros Hn. apply IH. intros j Hj. destruct (Nat.lt_trichotomy j i) as [|[->|]]; [by apply Hmin'|done|]. eapply key_at_apart; [done|done|lia]. }
  destruct (Nat.leb_spec (length hdr - 1) i) as [|Hi1]; cbn [orb]; [apply Hstep; intros Hat; apply Hend in Hat; lia|].
  destruct (at_byte hdr (i - 1) LF) eqn:E1; cbn [orb negb].
  2:{ apply Hstep. intros (_&_&H&_). apply at_byte_true in H. congruence. }
  destruct (at_byte hdr (i - 2) CR) eqn:E2; cbn [negb].
  2:{ apply Hstep. intros (_&_&_&H&_). apply at_byte_true in H. congruence. }
  destruct (Nat.leb_spec (length hdr) (i + length key)) as [Hle|Hlt']; [done|].
  destruct (at_byte hdr (i + length key) ":") eqn:E3; cbn [negb].
  2:{ apply Hstep. intros (_&_&_&_&H). apply at_byte_true in H. congruence. }
  intros [= <-]. apply at_byte_true in E1, E2, E3. split; [|done]. split_and!; try done. lia.
Qed.

(** ** Lines *)

Lemma no_break_app a b : no_break a -> no_break b -> no_break (a ++ b).
Proof. unfold no_break. set_solver. Qed.

Lemma render_line_no_break l : line_ok l -> no_break (render_line l).
Proof.
  intros ((_&Hk&_)&(Hv&_)). unfold render_line. apply no_break_app; [done|]. assert (no_break (replicate (l_blanks l) " "%char)) as Hb.
  { split; intros [E _]%elem_of_replicate; discriminate. }
  pose proof (no_break_app _ _ Hb Hv) as [H1 H2]. split; apply not_elem_of_cons; (split; [discriminate|done]).
Qed.

(** A key and a colon at the start of a line are the key of the line. *)
Lemma key_prefix key k r : ":"%char ∉ key -> ":"%char ∉ k -> take (length key) (k ++ ":"%char :: r) = key -> (k ++ ":"%char :: r) !! length key = Some ":"%char -> key = k.
Proof.
  intros Hkey Hk Ht Hc. destruct (Nat.lt_trichotomy (length key) (length k)) as [Hlt|[E|Hgt]].
  - rewrite lookup_app_l in Hc by done. exfalso. apply Hk. by eapply list_elem_of_lookup_2.
  - by rewrite E, take_app_length in Ht.
  - exfalso. apply Hkey. apply (list_elem_of_lookup_2 _ (length k)). assert (take (length key) (k ++ ":"%char :: r) !! length k = Some ":"%char) as E by (rewrite lookup_take_lt by lia; by apply list_lookup_middle). by rewrite Ht in E.
Qed.

Lemma line_starts key p ls : key_ok key -> Forall line_ok ls -> forall i, (length (p ++ CRLF) <= i)%nat -> key_at key ((p ++ CRLF) ++ render_lines ls ++ CRLF) i ->
  exists pre l suf, ls = pre ++ l :: suf /\ l_key l = key /\ i = (length (p ++ CRLF) + length (render_lines pre))%nat.
Proof.
  intros Hk. revert p. induction ls as [|l ls IH]; intros p Hls i Hi Hat.
  - exfalso. destruct Hat as (Ho&_). destruct Hk as (Hne&[Hcr Hlf]&_). pose proof (occurs_length _ _ _ Ho Hne) as Hlen. destruct key as [|c key]; [done|]. pose proof (occurs_lookup _ _ _ 0 c Ho eq_refl) as Hc.
    cbn [render_lines app] in *. rewrite Nat.add_0_r, lookup_app_r in Hc by done. rewrite !length_app in *. cbn [length CRLF] in *.
    assert (i - (length p + 2) = 0 \/ i - (length p + 2) = 1)%nat as [E|E] by lia; rewrite E in Hc; cbn in Hc; injection Hc as <-; set_solver.
  - apply Forall_cons in Hls as [Hl Hls]. cbn [render_lines] in *. destruct (decide (i = length (p ++ CRLF))) as [->|Hne].
    { exists [], l, ls. split; [done|]. split; [|cbn; lia]. destruct Hat as (Ho&_&_&_&Hc). unfold occurs in Ho. rewrite drop_app_length in Ho. rewrite lookup_app_r in Hc by lia.
      replace (length (p ++ CRLF) + length key - length (p ++ CRLF))%nat with (length key) in Hc by lia. unfold render_line in *. rewrite <- !app_assoc in *. cbn [app] in *. symmetry.
      eapply key_prefix; [apply Hk|apply Hl|exact Ho|exact Hc]. }
    destruct (Nat.lt_ge_cases i (length (p ++ CRLF) + length (render_line l) + 2)) as [Hlt|Hge].
    { exfalso. destruct Hat as (_&_&Hlf&_). rewrite lookup_app_r in Hlf by lia. set (m := (i - 1 - length (p ++ CRLF))%nat) in *. pose proof (render_line_no_break l Hl) as [_ Hb].
      destruct (Nat.lt_ge_cases m (length (render_line l))) as [Hm|Hm].
      - rewrite <- !app_assoc, lookup_app_l in Hlf by done. apply Hb. by eapply list_elem_of_lookup_2.
      - rewrite <- !app_assoc, lookup_app_r in Hlf by done. replace (m - length (render_line l))%nat with 0%nat in Hlf by lia. done. }
    destruct (IH ((p ++ CRLF) ++ render_line l) Hls i) as (pre&l'&suf&->&Hkey&->).
    + rewrite !length_app in *. cbn [length CRLF] in *. lia.
    + rewrite <- !app_assoc in *. exact Hat.
    + exists (l :: pre), l', suf. split; [done|]. split; [done|]. cbn [render_lines]. rewrite !length_app. lia.
Qed.

Lemma line_start_at key p pre l suf : l_key l = key ->
  key_at key ((p ++ CRLF) ++ render_lines (pre ++ l :: suf) ++ CRLF) (length (p ++ CRLF) + length (render_lines pre)) /\
  exists q, (p ++ CRLF) ++ render_lines (pre ++ l :: suf) ++ CRLF = (q ++ CRLF) ++ render_line l ++ CRLF ++ render_lines suf ++ CRLF /\ length (q ++ CRLF) = (length (p ++ CRLF) + length (render_lines pre))%nat.
Proof.
  intros Hk. revert p. induction pre as [|l0 pre IH]; intros p.
  - split; [|exists p; cbn [app render_lines length]; rewrite <- !app_assoc; split; [done|lia]]. cbn [app render_lines length]. rewrite Nat.add_0_r. unfold key_at, occurs. rewrite drop_app_length.
    unfold render_line. rewrite Hk, <- !app_assoc. cbn [app]. rewrite take_app_length. rewrite !app_assoc. split_and!; [done|rewrite length_app; cbn; lia| | |].
    + rewrite <- !app_assoc, length_app, lookup_app_r by (cbn; lia). cbn [length CRLF]. replace (length p + 2 - 1 - length p)%nat with 1%nat by lia. done.
    + rewrite <- !app_assoc, length_app, lookup_app_r by (cbn; lia). cbn [length CRLF]. replace (length p + 2 - 2 - length p)%nat with 0%nat by lia. done.
    + etrans; [|apply (list_lookup_middle ((p ++ CRLF) ++ key) (replicate (l_blanks l) " "%char ++ l_value l ++ CRLF ++ render_lines suf ++ CRLF)); by rewrite !length_app]. by rewrite <- !app_assoc, !length_app.
  - destruct (IH ((p ++ CRLF) ++ render_line l0)) as [Hat (q&Hq&Hlen)]. cbn [app render_lines]. rewrite <- !app_assoc in *. split.
    + replace (length (p ++ CRLF) + length (render_line l0 ++ CRLF ++ render_lines pre))%nat with (length (p ++ CRLF ++ render_line l0 ++ CRLF) + length (render_lines pre))%nat by (rewrite !length_app; lia). exact Hat.
    + exists q. rewrite Hlen, <- (app_assoc q). split; [exact Hq|]. rewrite !length_app. lia.
Qed.

(** ** Looking up *)

Definition first_line key ls : option line := List.find (fun l => bool_decide (l_key l = key)) ls.

Lemma first_line_split key ls : match first_line key ls with
  | Some l => exists pre suf, ls = pre ++ l :: suf /\ l_key l = key /\ Forall (fun l => l_key l <> key) pre
  | None => Forall (fun l => l_key l <> key) ls
  end.
Proof.
  induction ls as [|l ls IH]; cbn; [constructor|]. case_bool_decide as E; [by exists [], ls|]. fold (first_line key ls). destruct (first_line key ls) as [l'|].
  - destruct IH as (pre&suf&->&?&?). exists (l :: pre), suf. split; [done|]. split; [done|]. by constructor.
  - by constructor.
Qed.

Definition version_line (status : bytes) : bytes := lit "NATS/1.0" ++ status.

Lemma render_eq status ls : render status ls = (version_line status ++ CRLF) ++ render_lines ls ++ CRLF.
Proof. unfold render, version_line. by rewrite <- !app_assoc. Qed.

Lemma version_no_break status : no_break status -> no_break (version_line status).
Proof. intros Hs. apply no_break_app; [|done]. split; vm_compute; set_solver. Qed.

Definition line_pos status (pre : list line) : nat := (length (version_line status ++ CRLF) + length (render_lines pre))%nat.

Lemma key_at_pos key status ls i : key_ok key -> no_break status -> Forall line_ok ls -> key_at key (render status ls) i ->
  exists pre l suf, ls = pre ++ l :: suf /\ l_key l = key /\ i = line_pos status pre.
Proof.
  intros Hk Hs Hls Hat. rewrite render_eq in Hat. apply (line_starts key (version_line status) ls Hk Hls); [|done]. destruct (Nat.lt_ge_cases i (length (version_line status ++ CRLF))) as [Hlt|]; [|done].
  exfalso. destruct Hat as (_&H2&Hlf&_). rewrite lookup_app_l in Hlf by lia. pose proof (version_no_break status Hs) as [_ Hb]. rewrite length_app in Hlt. cbn [length CRLF] in Hlt.
  destruct (Nat.lt_ge_cases (i - 1) (length (version_line status))).
  - rewrite lookup_app_l in Hlf by done. apply Hb. by eapply list_elem_of_lookup_2.
  - rewrite lookup_app_r in Hlf by done. replace (i - 1 - length (version_line status))%nat with 0%nat in Hlf by lia. done.
Qed.

Lemma render_lines_app ls ls' : render_lines (ls ++ ls') = render_lines ls ++ render_lines ls'.
Proof. induction ls as [|l ls IH]; cbn; [done|]. by rewrite IH, <- !app_assoc. Qed.

(** The index that is found is that of the first line with the key. *)
Lemma key_index_line key status ls i : key_ok key -> no_break status -> Forall line_ok ls -> getHeaderKeyIndex key (render status ls) = Some i ->
  exists pre l suf, ls = pre ++ l :: suf /\ l_key l = key /\ Forall (fun l => l_key l <> key) pre /\ first_line key ls = Some l /\ i = line_pos status pre.
Proof.
  intros Hk Hs Hls Ei. destruct (key_loop_found key (render status ls) Hk _ 0 i ltac:(lia) Ei) as [Hi Hmin].
  pose proof (first_line_split key ls) as Hf. destruct (first_line key ls) as [l|].
  - destruct Hf as (pre&suf&->&Hl&Hpre). exists pre, l, suf. split_and!; [done|done|done|done|].
    assert (key_at key (render status (pre ++ l :: suf)) (line_pos status pre)) as Hat by (rewrite render_eq; by apply line_start_at).
    destruct (Nat.lt_trichotomy i (line_pos status pre)) as [Hlt|[|Hgt]]; [|done|by destruct (Hmin _ Hgt)]. exfalso.
    destruct (key_at_pos _ _ _ _ Hk Hs Hls Hi) as (pre'&l'&suf'&E&Hl'&->). apply app_eq_inv in E as [(k&->&E)|(k&->&E)].
    + destruct k as [|x k]; [rewrite app_nil_r in Hlt; lia|]. cbn in E. injection E as -> ->. apply Forall_app in Hpre as [_ Hpre]. by apply Forall_cons in Hpre as [? _].
    + unfold line_pos in Hlt. rewrite render_lines_app, !length_app in Hlt. lia.
  - destruct (key_at_pos _ _ _ _ Hk Hs Hls Hi) as (pre&l&suf&->&Hl&_). rewrite Forall_app, Forall_cons in Hf. naive_solver.
Qed.

(** The index of the first line with the key, if there is one. *)
Lemma key_index_render key status ls : key_ok key -> no_break status -> Forall line_ok ls -> apart key (render status ls) ->
  match first_line key ls with
  | Some l => exists pre suf, ls = pre ++ l :: suf /\ l_key l = key /\ Forall (fun l => l_key l <> key) pre /\ getHeaderKeyIndex key (render status ls) = Some (line_pos status pre)
  | None => getHeaderKeyIndex key (render status ls) = None
  end.
Proof.
  intros Hk Hs Hls Ha. destruct (getHeaderKeyIndex key (render status ls)) as [i|] eqn:Ei.
  { destruct (key_index_line key status ls i Hk Hs Hls Ei) as (pre&l&suf&?&?&?&->&->). by exists pre, suf. }
  pose proof (first_line_split key ls) as Hf. destruct (first_line key ls) as [l|]; [|done]. exfalso. destruct Hf as (pre&suf&->&Hl&Hpre).
  pose proof (key_loop_spec key _ Hk Ha (S (length (render status (pre ++ l :: suf)))) 0 ltac:(lia) (or_introl eq_refl) ltac:(lia)) as Hloop.
  unfold getHeaderKeyIndex in Ei. rewrite Ei in Hloop. apply (Hloop (line_pos status pre)). rewrite render_eq. by apply line_start_at.
Qed.

Lemma skip_blanks n v : head v <> Some " "%char -> skip_spaces (replicate n " "%char ++ v) = v.
Proof. intros Hv. induction n as [|n IH]; cbn; [|done]. destruct v as [|c v]; [done|]. cbn in *. destruct c as [[] [] [] [] [] [] [] []]; done. Qed.

Lemma until_crlf_value v rest : CR ∉ v -> until_crlf (v ++ CRLF ++ rest) = v.
Proof.
  induction v as [|c v IH]; intros Hv; [done|]. apply not_elem_of_cons in Hv as [Hc Hv]. rewrite <- app_comm_cons. cbn [until_crlf]. rewrite IH by done. destruct (Ascii.eqb_spec c CR) as [->|]; done.
Qed.

Lemma slice_at key status pre l suf : l_key l = key -> line_ok l ->
  until_crlf (skip_spaces (drop (line_pos status pre + length key + 1) (render status (pre ++ l :: suf)))) = l_value l.
Proof.
  intros Hl [_ [[Hcr _] Hv]]. rewrite render_eq. destruct (line_start_at key (version_line status) pre l suf Hl) as [_ (q&->&Hq)]. fold (line_pos status pre) in Hq.
  rewrite <- Hq, <- Nat.add_assoc, <- drop_drop, drop_app_length. unfold render_line. rewrite Hl, <- app_assoc, <- drop_drop, drop_app_length. cbn [drop app]. rewrite drop_0.
  rewrite <- !app_assoc, skip_blanks, until_crlf_value; [done|done|]. destruct (l_value l); [done|exact Hv].
Qed.

(** C37. On a well-formed header (version and status, lines of key and value, CR LF at the end of
    each) [sliceHeader] returns the value of the first line with the key, without the blanks
    before it, and nil when there is no such line: occurrences of the key in values or in longer
    keys are passed over.  The one exception is nil for a key that has a line; it needs two
    occurrences of the key with at most one byte in between, of which the first is no line of the
    key, or one in the first two bytes. *)
Theorem header_lookup key status ls (Hk : key_ok key) (Hs : no_break status) (Hls : Forall line_ok ls) :
  sliceHeader key (render status ls) = l_value <$> first_line key ls \/
  (sliceHeader key (render status ls) = None /\ is_Some (first_line key ls) /\ ~ apart key (render status ls)).
Proof.
  unfold sliceHeader. destruct (getHeaderKeyIndex key (render status ls)) as [i|] eqn:Ei; cbn [mbind option_bind].
  - left. destruct (key_index_line key status ls i Hk Hs Hls Ei) as (pre&l&suf&->&Hl&_&->&->). cbn. f_equal. apply slice_at; [done|].
    apply Forall_app in Hls as [_ Hls]. by apply Forall_cons in Hls as [? _].
  - pose proof (key_index_render key status ls Hk Hs Hls) as Hr. destruct (first_line key ls) as [l|]; [|by left]. right. split_and!; [done|done|].
    intros Ha. destruct (Hr Ha) as (pre&suf&_&_&_&?). congruence.
Qed.

(** ** Setting *)

Fixpoint set_lines key (val : bytes) ls : list line :=
  match ls with
  | [] => [mkLine key 1 val]
  | l :: ls => if bool_decide (l_key l = key) then mkLine key (Nat.min (l_blanks l) 1) val :: ls else l :: set_lines key val ls
  end.

Lemma set_lines_absent key val ls : Forall (fun l => l_key l <> key) ls -> set_lines key val ls = ls ++ [mkLine key 1 val].
Proof. induction 1 as [|l ls Hl _ IH]; cbn; [done|]. by rewrite bool_decide_eq_false_2, IH. Qed.

Lemma set_lines_present key val pre l suf : Forall (fun l => l_key l <> key) pre -> l_key l = key ->
  set_lines key val (pre ++ l :: suf) = pre ++ mkLine key (Nat.min (l_blanks l) 1) val :: suf.
Proof. intros Hp Hl. induction Hp as [|x pre Hx _ IH]; cbn; [by rewrite bool_decide_eq_true_2|]. by rewrite bool_decide_eq_false_2, IH. Qed.

Lemma Index_CR a b : CR ∉ a -> Index (a ++ CR :: b) [CR] = Some (length a).
Proof.
  induction a as [|c a IH]; intros Ha; [done|]. apply not_elem_of_cons in Ha as [Hc Ha]. rewrite <- app_comm_cons. cbn [Index]. unfold has_prefix. cbn [length take].
  rewrite bool_decide_eq_false_2 by (rewrite take_0; congruence). by rewrite IH.
Qed.

(** The header around a line. *)
Lemma render_split status pre l suf : render status (pre ++ l :: suf) = ((version_line status ++ CRLF) ++ render_lines pre) ++ render_line l ++ CRLF ++ render_lines suf ++ CRLF.
Proof. rewrite render_eq, render_lines_app. cbn [render_lines]. by rewrite <- !app_assoc. Qed.

Definition fits_int (hdr : bytes) : Prop := Z.of_nat (length hdr) < max_int64.

Lemma set_present key val status pre l suf : l_key l = key -> line_ok l -> getHeaderKeyIndex key (render status (pre ++ l :: suf)) = Some (line_pos status pre) ->
  fits_int (render status (pre ++ mkLine key (Nat.min (l_blanks l) 1) val :: suf)) ->
  setHeader key val (render status (pre ++ l :: suf)) = render status (pre ++ mkLine key (Nat.min (l_blanks l) 1) val :: suf).
Proof.
  intros Hl [_ [[Hcr _] Hv]] Hi Hfit. unfold setHeader. rewrite Hi, !render_split in *. set (P := (version_line status ++ CRLF) ++ render_lines pre) in *. set (R := render_lines suf ++ CRLF) in *.
  assert (line_pos status pre = length P) as -> by (unfold P, line_pos; by rewrite !length_app). unfold render_line in *. rewrite Hl in *. cbn [l_key l_blanks l_value] in *.
  (* the header with the first blank, if any, apart from the rest of the value *)
  set (b := Nat.min (l_blanks l) 1) in *. set (old := replicate (l_blanks l - b) " "%char ++ l_value l).
  assert (P ++ (key ++ ":"%char :: replicate (l_blanks l) " "%char ++ l_value l) ++ CRLF ++ R = (P ++ key ++ ":"%char :: replicate b " "%char) ++ old ++ CRLF ++ R) as E.
  { assert (replicate (l_blanks l) " "%char = replicate b " "%char ++ replicate (l_blanks l - b) " "%char) as -> by (rewrite <- replicate_add; f_equal; lia). unfold old. rewrite <- !app_assoc. cbn [app]. by rewrite <- !app_assoc. }
  rewrite E. assert (Hb : at_byte ((P ++ key ++ ":"%char :: replicate b " "%char) ++ old ++ CRLF ++ R) (length P + length key + 1) " " = Nat.eqb b 1).
  { rewrite <- E. unfold at_byte. rewrite lookup_app_r by lia. replace (length P + length key + 1 - length P)%nat with (length key + 1)%nat by lia. rewrite <- app_assoc, lookup_app_r by lia.
    replace (length key + 1 - length key)%nat with 1%nat by lia. cbn [app]. rewrite lookup_cons. destruct (Nat.eqb_spec b 1) as [Eb|Eb]; (destruct (l_blanks l) as [|n] eqn:El; [|try lia]); try (exfalso; lia); cbn; [by rewrite bool_decide_eq_true_2|].
    destruct (l_value l) as [|c v]; cbn; [done|]. apply bool_decide_eq_false_2. intros [= ->]. by apply Hv. }
  rewrite Hb. replace (if Nat.eqb b 1 then S (length P + length key + 1) else (length P + length key + 1)%nat) with (length (P ++ key ++ ":"%char :: replicate b " "%char)).
  2:{ rewrite !length_app. cbn [length]. rewrite length_replicate. destruct (Nat.eqb_spec b 1); lia. }
  set (Q := P ++ key ++ ":"%char :: replicate b " "%char) in *. rewrite drop_app_length. assert (CR ∉ old) as Hold by (unfold old; rewrite elem_of_app, elem_of_replicate; intros [[? _]|?]; done).
  rewrite (Index_CR old (LF :: R) Hold : Index (old ++ CRLF ++ R) [CR] = _).
  match goal with |- context [if ?c then _ else _] => assert (c = false) as -> end.
  { apply andb_false_iff. right. apply Z.ltb_ge. unfold fits_int, Q in *. rewrite !length_app in *. cbn [length] in *. rewrite !length_app, !length_replicate in *. lia. }
  rewrite take_app_length. rewrite (Nat.add_comm (length old)), <- drop_drop, drop_app_length, drop_app_length. unfold Q. rewrite <- !app_assoc. cbn [app]. by rewrite <- !app_assoc.
Qed.

Lemma set_absent key val status ls : getHeaderKeyIndex key (render status ls) = None -> fits_int (render status (ls ++ [mkLine key 1 val])) ->
  setHeader key val (render status ls) = render status (ls ++ [mkLine key 1 val]).
Proof.
  intros Hi Hfit. unfold setHeader. rewrite Hi, !render_eq, render_lines_app in *. cbn [render_lines] in *. unfold render_line in *. cbn [l_key l_blanks l_value] in *. set (P := version_line status ++ CRLF) in *.
  assert (Hlen : (length (P ++ render_lines ls ++ CRLF) - 2)%nat = length (P ++ render_lines ls)) by (rewrite !length_app; cbn [length CRLF]; lia).
  assert (has_suffix (P ++ render_lines ls ++ CRLF) CRLF = true) as Hsuf.
  { unfold has_suffix. cbn [length CRLF]. fold CRLF. rewrite Hlen, (app_assoc P), drop_app_length. rewrite bool_decide_eq_true_2 by done. apply Nat.leb_le. rewrite !length_app. cbn [length CRLF]. lia. }
  rewrite Hsuf, Hlen, (app_assoc P (render_lines ls) CRLF), take_app_length.
  assert (negb (Nat.eqb (length ((P ++ render_lines ls) ++ CRLF)) 0) = true) as -> by (rewrite length_app; cbn [length CRLF]; apply negb_true_iff, Nat.eqb_neq; lia). cbn [andb].
  unfold fits_int in *. rewrite !length_app in Hfit. cbn [length CRLF replicate] in Hfit. rewrite ?length_app in Hfit. cbn [length] in Hfit.
  rewrite u64_small by (rewrite !length_app; unfold is_u64, max_int64 in *; cbn [length CRLF]; lia). rewrite (proj2 (Z.ltb_ge _ _)) by (rewrite !length_app; cbn [length CRLF]; lia).
  cbn [replicate app]. rewrite <- ?app_assoc. cbn [app]. by rewrite <- ?app_assoc.
Qed.

(** ** Removing *)

Lemma Index_CRLF a b : no_break a -> Index (a ++ CRLF ++ b) CRLF = Some (length a).
Proof.
  induction a as [|c a IH]; intros [Ha Hb]; [by vm_compute|]. apply not_elem_of_cons in Ha as [Hc Ha]. apply not_elem_of_cons in Hb as [_ Hb]. rewrite <- app_comm_cons. cbn [Index]. unfold has_prefix. cbn [length CRLF take].
  rewrite bool_decide_eq_false_2 by (intros [= E _]; by destruct Hc). by rewrite IH.
Qed.

Definition without key ls : list line := base.filter (fun l => l_key l <> key) ls.

Lemma without_absent key ls : Forall (fun l => l_key l <> key) ls -> without key ls = ls.
Proof. induction 1 as [|l ls Hl _ IH]; [done|]. unfold without in *. by rewrite filter_cons_True, IH. Qed.

(** The key can be searched for in every header that the removals leave. *)
Definition apart_all key status ls : Prop := forall ls', ls' `sublist_of` ls -> apart key (render status ls').

Lemma render_short status ls : (length (render status ls) <= length emptyHdrLine)%nat <-> status = [] /\ ls = [].
Proof.
  rewrite render_eq. unfold version_line. rewrite !length_app. change (length emptyHdrLine) with 12%nat. change (length (lit "NATS/1.0")) with 8%nat. cbn [length CRLF]. split.
  - intros Hle. destruct status, ls as [|l ls]; cbn [length] in *; try lia; [done|]. cbn [render_lines] in Hle. unfold render_line in Hle. rewrite !length_app in Hle. cbn [length CRLF] in Hle. lia.
  - intros [-> ->]. cbn. lia.
Qed.

Lemma remove_line status pre l suf : line_ok l ->
  let hdr := render status (pre ++ l :: suf) in
  Index (drop (line_pos status pre) hdr) CRLF = Some (length (render_line l)) /\
  take (line_pos status pre) hdr ++ drop (line_pos status pre + length (render_line l) + 2) hdr = render status (pre ++ suf).
Proof.
  intros Hl. cbv zeta. rewrite render_split, render_eq, render_lines_app. set (P := (version_line status ++ CRLF) ++ render_lines pre).
  assert (line_pos status pre = length P) as -> by (unfold P, line_pos; by rewrite !length_app). rewrite drop_app_length, take_app_length. split; [by apply Index_CRLF, render_line_no_break|].
  rewrite <- Nat.add_assoc, <- drop_drop, drop_app_length, <- drop_drop, drop_app_length. change (drop 2 (CRLF ++ render_lines suf ++ CRLF)) with (drop (length CRLF) (CRLF ++ render_lines suf ++ CRLF)). rewrite drop_app_length. unfold P. by rewrite <- !app_assoc.
Qed.

Lemma remove_loop_render key status : key_ok key -> no_break status -> forall fuel ls, Forall line_ok ls -> apart_all key status ls -> (length ls < fuel)%nat ->
  remove_loop fuel key (render status ls) =
  if bool_decide (status = [] /\ without key ls = [] /\ ls <> []) then [] else render status (without key ls).
Proof.
  intros Hk Hs. induction fuel as [|fuel IH]; intros ls Hls Ha Hf; [lia|]. cbn [remove_loop]. pose proof (key_index_render key status ls Hk Hs Hls (Ha ls ltac:(done))) as Hi.
  destruct (first_line key ls) as [l|] eqn:Efl.
  - destruct Hi as (pre&suf&->&Hl&Hpre&->). pose proof Hls as [Hls1 [Hlok Hls2]%Forall_cons]%Forall_app.
    assert (key_at key (render status (pre ++ l :: suf)) (line_pos status pre)) as (_&H2&Hlf&_&Hcol) by (rewrite render_eq; by apply line_start_at).
    destruct (Nat.ltb_spec (line_pos status pre) 1); [lia|]. cbn [orb]. rewrite (proj2 (at_byte_true _ _ _) Hlf), (proj2 (at_byte_true _ _ _) Hcol). cbn [negb].
    destruct (remove_line status pre l suf Hlok) as [-> ->].
    assert (without key (pre ++ l :: suf) = without key (pre ++ suf)) as Ew by (unfold without; rewrite !filter_app, filter_cons; by destruct (decide (l_key l <> key))).
    rewrite Ew. destruct (Nat.leb_spec (length (render status (pre ++ suf))) (length emptyHdrLine)) as [Hle|Hgt].
    + apply render_short in Hle as [-> E]. rewrite E. rewrite bool_decide_eq_true_2; [done|]. split_and!; try done. by destruct pre.
    + rewrite IH; [|by apply Forall_app|intros ls' Hsub; apply Ha; etrans; [done|]; apply sublist_app; [done|by apply sublist_cons]|rewrite length_app in *; cbn in *; lia].
      destruct (decide (pre ++ suf = [])) as [E|Hne].
      * rewrite E in *. assert (status <> []) as Hst by (intros ->; assert (length (render [] []) <= length emptyHdrLine)%nat by (apply render_short; done); lia).
        rewrite !bool_decide_eq_false_2 by tauto. done.
      * erewrite (bool_decide_ext (status = [] /\ _)); [reflexivity|]. split; intros (?&?&?); split_and!; try done. by destruct pre.
  - rewrite Hi. pose proof (first_line_split key ls) as Hn. rewrite Efl in Hn. assert (without key ls = ls) as -> by by apply without_absent. rewrite bool_decide_eq_false_2; [done|]. naive_solver.
Qed.

Lemma render_lines_length ls : (length ls <= length (render_lines ls))%nat.
Proof. induction ls as [|l ls IH]; cbn [render_lines length]; [done|]. rewrite !length_app. cbn [length CRLF]. lia. Qed.

(** Editing a well-formed header gives a well-formed header: [setHeader] replaces the value
    of the first line with the key (and keeps at most one blank before it), or adds a line at the
    end when no line has it, and leaves the other lines alone; [removeHeaderIfPresent] removes
    every line with the key and only these, and gives nil when nothing but the version is left. *)
Theorem header_edit key val status ls (Hk : key_ok key) (Hs : no_break status) (Hls : Forall line_ok ls)
    (Ha : apart_all key status ls) (Hfit : fits_int (render status (set_lines key val ls))) :
  setHeader key val (render status ls) = render status (set_lines key val ls) /\
  removeHeaderIfPresent (render status ls) key =
    (if bool_decide (status = [] /\ without key ls = [] /\ ls <> []) then [] else render status (without key ls)).
Proof.
  split.
  - pose proof (key_index_render key status ls Hk Hs Hls (Ha ls ltac:(done))) as Hi. destruct (first_line key ls) as [l|] eqn:Efl.
    + destruct Hi as (pre&suf&->&Hl&Hpre&Hi). rewrite set_lines_present in * by done. apply set_present; try done. apply Forall_app in Hls as [_ Hls]. by apply Forall_cons in Hls as [? _].
    + pose proof (first_line_split key ls) as Hn. rewrite Efl in Hn. rewrite set_lines_absent in * by done. by apply set_absent.
  - apply remove_loop_render; try done. pose proof (render_lines_length ls). rewrite render_eq, !length_app. lia.
Qed.

(** ** Deciding the hypotheses *)

#[export] Instance occurs_dec key hdr i : Decision (occurs key hdr i).
Proof. unfold occurs. apply _. Defined.
#[export] Instance key_at_dec key hdr i : Decision (key_at key hdr i).
Proof. unfold key_at. apply _. Defined.

Definition apartb key hdr : bool := bool_decide (Forall (fun i => occurs key hdr i -> (2 <= i)%nat /\
  (~ key_at key hdr i -> ~ occurs key hdr (i + length key) /\ ~ occurs key hdr (i + length key + 1))) (seq 0 (length hdr))).

Lemma apartb_sound key hdr : key <> [] -> apartb key hdr = true -> apart key hdr.
Proof.
  intros Hk Hb. apply bool_decide_eq_true in Hb. rewrite Forall_forall in Hb.
  assert (forall i, occurs key hdr i -> i ∈ seq 0 (length hdr)) as Hin.
  { intros i Ho. apply elem_of_seq. pose proof (occurs_length _ _ _ Ho Hk). destruct key; [done|]. cbn [length] in *. lia. }
  split.
  - intros i Hi Ho. destruct (Hb i (Hin i Ho) Ho). lia.
  - intros i j Ho Hn Hj. destruct (Hb i (Hin i Ho) Ho) as [_ H]. destruct (H Hn) as [H0 H1]. assert (j = i + length key \/ j = i + length key + 1)%nat as [->| ->] by lia; done.
Qed.

Fixpoint sublists {A} (l : list A) : list (list A) :=
  match l with
  | [] => [[]]
  | x :: l => sublists l ++ (cons x <$> sublists l)
  end.

Lemma sublists_complete {A} (l l' : list A) : l' `sublist_of` l -> l' ∈ sublists l.
Proof. induction 1; cbn; set_solver. Qed.

Lemma apart_all_sound key status ls : key <> [] -> forallb (fun ls' => apartb key (render status ls')) (sublists ls) = true -> apart_all key status ls.
Proof. intros Hk Hb ls' Hsub. apply apartb_sound; [done|]. rewrite forallb_forall in Hb. apply Hb, list_elem_of_In. by apply sublists_complete. Qed.

#[export] Instance no_break_dec s : Decision (no_break s).
Proof. unfold no_break. apply _. Defined.
#[export] Instance key_ok_dec key : Decision (key_ok key).
Proof. unfold key_ok. apply _. Defined.
#[export] Instance line_ok_dec l : Decision (line_ok l).
Proof. unfold line_ok, value_ok. apply _. Defined.

(** ** Samples *)

(** The key is also the start of another key and a part of a value. *)
Definition sample_key : bytes := lit "Nats-TTL".
Definition sample_lines : list line :=
  [mkLine (lit "Nats-TTL-Old") 1 (lit "9"); mkLine (lit "Note") 2 (lit "the Nats-TTL is new"); mkLine sample_key 3 (lit "60")].

Lemma header_lookup_witness : sliceHeader sample_key (render [] sample_lines) = Some (lit "60").
Proof.
  destruct (header_lookup sample_key [] sample_lines) as [E|(_&_&Hn)].
  - apply (bool_decide_unpack _); vm_compute; exact I.
  - apply (bool_decide_unpack _); vm_compute; exact I.
  - apply (bool_decide_unpack _); vm_compute; exact I.
  - exact E.
  - destruct Hn. apply apartb_sound; [discriminate|vm_compute; reflexivity].
Defined.

Lemma header_edit_witness :
  setHeader sample_key (lit "5") (render [] sample_lines) = render [] (take 2 sample_lines ++ [mkLine sample_key 1 (lit "5")]) /\
  removeHeaderIfPresent (render [] sample_lines) sample_key = render [] (take 2 sample_lines).
Proof.
  refine (header_edit sample_key (lit "5") [] sample_lines _ _ _ _ _).
  - apply (bool_decide_unpack _); vm_compute; exact I.
  - apply (bool_decide_unpack _); vm_compute; exact I.
  - apply (bool_decide_unpack _); vm_compute; exact I.
  - apply apart_all_sound; [discriminate|vm_compute; reflexivity].
  - vm_compute; reflexivity.
Defined.

(** The index after an occurrence that is not a key is compared with 2 before the offset is
    added: a second occurrence next to it ends the search, and the header is not found. *)
Example adjacent_occurrences_hide :
  let hdr := render [] [mkLine (lit "X") 1 (lit "TTLTTL"); mkLine (lit "TTL") 1 (lit "60")] in
  sliceHeader (lit "TTL") hdr = None /\ setHeader (lit "TTL") (lit "5") hdr <> hdr /\
  removeHeaderIfPresent hdr (lit "TTL") = hdr.
Proof. vm_compute. split_and!; [reflexivity|discriminate|reflexivity]. Qed.

(** The removal by prefix stops at the first occurrence that is not at the start of a line. *)
Example prefix_in_value_stops :
  let hdr := render [] [mkLine (lit "X") 1 (lit "a Nats-B"); mkLine (lit "Nats-B") 1 (lit "1")] in
  removeHeaderIfPrefixPresent hdr (lit "Nats-") = hdr.
Proof. vm_compute. reflexivity. Qed.
