(* ===== verification/MsgArgs.v ===== *)
(** * Arguments of message lines (src/server/client.go, route.go, leafnode.go, util.go)

    A line that announces a message has its subject, an optional reply, queue names and sizes,
    separated by blanks.  Here are the functions that take such lines apart for clients, routes
    and leaf nodes, and the ones that write them.

    The fields of [pubArg] are slices of the line, here values; [None] is nil.  The fields [psi]
    and [trace], and tracing altogether, are left out.  What the connection does besides is the
    class [Conn]: its state [H] has the limits that the functions read. *)

From stdpp Require Import pretty.
From Stdlib Require Import Ascii.
From S2P Require Import Prelude Subject Sublist MsgHeader.
Import Hdr.

Module Proto.
Open Scope Z_scope.

Record pubArg : Type := mkPubArg {
  pa_arg : option bytes; pacache : option bytes; origin : option bytes; account : option bytes; pa_subject : option bytes;
  deliver : option bytes; mapped : option bytes; reply : option bytes; szb : option bytes; hdb : option bytes;
  queues : option (list bytes); size : Z; hdr : Z; delivered : bool }.
Implicit Type pa : pubArg.

Definition with_arg pa (a : bytes) : pubArg :=
  mkPubArg (Some a) (pacache pa) (origin pa) (account pa) (pa_subject pa) (deliver pa) (mapped pa) (reply pa) (szb pa) (hdb pa) (queues pa) (size pa) (hdr pa) (delivered pa).
Definition with_routing pa (pc : bytes) (o : option bytes) (a s : bytes) : pubArg :=
  mkPubArg (pa_arg pa) (Some pc) o (Some a) (Some s) (deliver pa) (mapped pa) (reply pa) (szb pa) (hdb pa) (queues pa) (size pa) (hdr pa) (delivered pa).
Definition with_subject pa (s : bytes) : pubArg :=
  mkPubArg (pa_arg pa) (pacache pa) (origin pa) (account pa) (Some s) (deliver pa) (mapped pa) (reply pa) (szb pa) (hdb pa) (queues pa) (size pa) (hdr pa) (delivered pa).
Definition with_reply pa (r : option bytes) : pubArg :=
  mkPubArg (pa_arg pa) (pacache pa) (origin pa) (account pa) (pa_subject pa) (deliver pa) (mapped pa) r (szb pa) (hdb pa) (queues pa) (size pa) (hdr pa) (delivered pa).
Definition with_queues pa (q : option (list bytes)) : pubArg :=
  mkPubArg (pa_arg pa) (pacache pa) (origin pa) (account pa) (pa_subject pa) (deliver pa) (mapped pa) (reply pa) (szb pa) (hdb pa) q (size pa) (hdr pa) (delivered pa).
Definition with_size pa (b : bytes) (n : Z) : pubArg :=
  mkPubArg (pa_arg pa) (pacache pa) (origin pa) (account pa) (pa_subject pa) (deliver pa) (mapped pa) (reply pa) (Some b) (hdb pa) (queues pa) n (hdr pa) (delivered pa).
Definition with_hdr_size pa (b : bytes) (n : Z) : pubArg :=
  mkPubArg (pa_arg pa) (pacache pa) (origin pa) (account pa) (pa_subject pa) (deliver pa) (mapped pa) (reply pa) (szb pa) (Some b) (queues pa) (size pa) n (delivered pa).
Definition with_hdr pa (n : Z) : pubArg :=
  mkPubArg (pa_arg pa) (pacache pa) (origin pa) (account pa) (pa_subject pa) (deliver pa) (mapped pa) (reply pa) (szb pa) (hdb pa) (queues pa) (size pa) n (delivered pa).

Inductive perror : Type :=
  | ErrMsgHeadersNotSupported | ArgsParseError | BadReplyIndicator | BadHeaderSize | BadSize | HeaderTooLarge
  | ErrMaxPayload | ErrMaxControlLine | ErrAuthentication | ParserError | HandlerError (e : string).

(** ** Splitting *)

Definition blank (b : ascii) : bool := Ascii.eqb b " " || Ascii.eqb b "009".
Definition arg_sep (b : ascii) : bool := blank b || Ascii.eqb b CR || Ascii.eqb b LF.

(** [cur] is the argument that began at [start], if [start] is not negative. *)
Fixpoint split_loop (sep : ascii -> bool) (arg : bytes) (cur : option bytes) : list bytes :=
  match arg with
  | [] => match cur with Some t => [t] | None => [] end
  | b :: arg =>
      if sep b then match cur with Some t => t :: split_loop sep arg None | None => split_loop sep arg None end
      else split_loop sep arg (Some (default [] cur ++ [b]))
  end.

Definition splitArg (arg : bytes) : list bytes := split_loop arg_sep arg None.
(** The loop unrolled in [processPub] and [processHeaderPub], where line ends do not separate. *)
Definition splitPub (arg : bytes) : list bytes := split_loop blank arg None.

Fixpoint size_loop (d : bytes) (n : Z) : Z :=
  match d with
  | [] => n
  | c :: d =>
      let v := Z.of_nat (nat_of_ascii c) in
      if (v <? 48) || (57 <? v) then -1 else size_loop d (n * 10 + (v - 48))
  end.

Definition parseSize (d : bytes) : Z :=
  if (Nat.eqb (length d) 0 || Nat.ltb 9 (length d))%nat then -1 else size_loop d 0.

(** [args[k]] and [args[a:b]], used within the bounds that the length gives. *)
Definition at_ (args : list bytes) (k : nat) : bytes := default [] (args !! k).
Definition slice {A} (l : list A) (a b : nat) : list A := take (b - a) (drop a l).

(** ** Connections *)

Class Conn (H : Type) : Type := {
  headers : H -> bool;
  mpay : H -> Z;
  Pedantic : H -> bool;
  accName : H -> bytes;  (* c.route.accName *)
  sendErr : H -> string -> H;
  closeConnection : H -> string -> H;
}.

Section args.
Context {H : Type} `{Conn H}.
Implicit Type h : H.

Definition maxPayloadViolation h (sz max : Z) : H := closeConnection (sendErr h "Maximum Payload Violation") "MaxPayloadExceeded".

Definition over_max_payload h pa : bool := negb (mpay h =? -1) && (mpay h <? size pa).

(** The end of [processPub] and [processHeaderPub]. *)
Definition check_pub h pa : H * pubArg * option perror :=
  if over_max_payload h pa then (maxPayloadViolation h (size pa) (mpay h), pa, Some ErrMaxPayload) else
  if Pedantic h && negb (Subj.IsValidLiteralSubject (String.string_of_list_ascii (default [] (pa_subject pa)))) then (sendErr h "Invalid Publish Subject", pa, None)
  else (h, pa, None).

Definition processHeaderPub h pa (arg : bytes) : H * pubArg * option perror :=
  if negb (headers h) then (h, pa, Some ErrMsgHeadersNotSupported) else
  let args := splitPub arg in
  let pa := with_arg pa arg in
  let sizes pa a b := with_size (with_hdr_size pa a (parseSize a)) b (parseSize b) in
  match (match length args with
         | 3%nat => Some (sizes (with_reply (with_subject pa (at_ args 0)) None) (at_ args 1) (at_ args 2))
         | 4%nat => Some (sizes (with_reply (with_subject pa (at_ args 0)) (Some (at_ args 1))) (at_ args 2) (at_ args 3))
         | _ => None
         end) with
  | None => (h, pa, Some ArgsParseError)
  | Some pa =>
      if hdr pa <? 0 then (h, pa, Some BadHeaderSize) else
      if size pa <? 0 then (h, pa, Some BadSize) else
      if size pa <? hdr pa then (h, pa, Some HeaderTooLarge) else check_pub h pa
  end.

Definition processPub h pa (arg : bytes) : H * pubArg * option perror :=
  let args := splitPub arg in
  let pa := with_arg pa arg in
  match (match length args with
         | 2%nat => Some (with_size (with_reply (with_subject pa (at_ args 0)) None) (at_ args 1) (parseSize (at_ args 1)))
         | 3%nat => Some (with_size (with_reply (with_subject pa (at_ args 0)) (Some (at_ args 1))) (at_ args 2) (parseSize (at_ args 2)))
         | _ => None
         end) with
  | None => (h, pa, Some ArgsParseError)
  | Some pa => if size pa <? 0 then (h, pa, Some BadSize) else check_pub h pa
  end.

(** ** Routes and leaf nodes *)

(** The arguments from [args[k]] on, where [k] is after the subject: a reply; or an indicator,
    which says whether a reply follows, and queue names; then [n] sizes, the last of which is the
    size of the message and the one before it that of the header.  The lengths [k+n] and [k+n+1]
    are those without queues. *)
Definition reply_queues_sizes pa (args : list bytes) (k n : nat) : pubArg + pubArg * perror :=
  let l := length args in
  let sizes pa :=
    let pa := if Nat.eqb n 2 then with_hdr_size pa (at_ args (l - 2)) (parseSize (at_ args (l - 2))) else pa in
    with_size pa (at_ args (l - 1)) (parseSize (at_ args (l - 1))) in
  if Nat.ltb l (k + n) then inr (pa, ArgsParseError) else
  if Nat.eqb l (k + n) then inl (sizes (with_queues (with_reply pa None) None)) else
  if Nat.eqb l (k + n + 1) then inl (sizes (with_queues (with_reply pa (Some (at_ args k))) None)) else
  match at_ args k with
  | ["+"%char] => inl (with_queues (sizes (with_reply pa (Some (at_ args (k + 1))))) (Some (slice args (k + 2) (l - n))))
  | ["|"%char] => inl (with_queues (sizes (with_reply pa None)) (Some (slice args (k + 1) (l - n))))
  | _ => inr (pa, BadReplyIndicator)
  end.

Definition check_sizes pa (n : nat) : option perror :=
  if Nat.eqb n 2 && (hdr pa <? 0) then Some BadHeaderSize else
  if size pa <? 0 then Some BadSize else
  if Nat.eqb n 2 && (size pa <? hdr pa) then Some HeaderTooLarge else None.

(** The account of a route that has one of its own is not in the line. *)
Definition route_account (kind : client_kind) h : bytes := if bool_decide (kind = ROUTER) then accName h else [].

Definition processRoutedOriginClusterMsgArgs (kind : client_kind) h pa (arg : bytes) : pubArg * option perror :=
  let args := splitArg arg in
  let an := route_account kind h in
  let args := if (negb (Nat.eqb (length an) 0) && Nat.ltb 2 (length args))%nat then at_ args 0 :: an :: drop 1 args else args in
  match reply_queues_sizes (with_arg pa arg) args 3 2 with
  | inr (pa, e) => (pa, Some e)
  | inl pa =>
      match check_sizes pa 2 with
      | Some e => (pa, Some e)
      | None =>
          let pc := if negb (Nat.eqb (length an) 0) then at_ args 2
                    else slice arg (length (at_ args 0) + 1) (length (at_ args 0) + length (at_ args 1) + length (at_ args 2) + 2) in
          (with_routing pa pc (Some (at_ args 0)) (at_ args 1) (at_ args 2), None)
      end
  end.

(** [processRoutedHeaderMsgArgs] ([n] = 2) and [processRoutedMsgArgs] ([n] = 1). *)
Definition routed_args (n : nat) (kind : client_kind) h pa (arg : bytes) : pubArg * option perror :=
  let an := route_account kind h in
  let args := (if negb (Nat.eqb (length an) 0) then [an] else []) ++ splitArg arg in
  match reply_queues_sizes (with_arg pa arg) args 2 n with
  | inr (pa, e) => (pa, Some e)
  | inl pa =>
      match check_sizes pa n with
      | Some e => (pa, Some e)
      | None =>
          let pc := if negb (Nat.eqb (length an) 0) then at_ args 1 else take (length (at_ args 0) + length (at_ args 1) + 1) arg in
          (with_routing pa pc (origin pa) (at_ args 0) (at_ args 1), None)
      end
  end.

Definition processRoutedHeaderMsgArgs := routed_args 2.
Definition processRoutedMsgArgs := routed_args 1.

(** [processLeafHeaderMsgArgs] ([n] = 2) and [processLeafMsgArgs] ([n] = 1). *)
Definition leaf_args (n : nat) h pa (arg : bytes) : H * pubArg * option perror :=
  let args := splitArg arg in
  match reply_queues_sizes (with_arg pa arg) args 1 n with
  | inr (pa, e) => (h, pa, Some e)
  | inl pa =>
      match check_sizes pa n with
      | Some e => (h, pa, Some e)
      | None =>
          if over_max_payload h pa then (maxPayloadViolation h (size pa) (mpay h), pa, Some ErrMaxPayload)
          else (h, with_subject pa (at_ args 0), None)
      end
  end.

Definition processLeafHeaderMsgArgs := leaf_args 2.
Definition processLeafMsgArgs := leaf_args 1.
End args.

(** ** Writing *)

(** What the writer reads of a route target: the connection of its subscription, the remapping
    of a shadow subscription, and the queue names with a blank after each. *)
Record routeTarget : Type := mkTarget { rt_kind : client_kind; rt_headers : bool; rt_lnoc : bool; rt_accName : bytes; rt_remap : bytes -> bytes; rt_qs : bytes }.

Definition nonempty {A} (l : list A) : bool := negb (Nat.eqb (length l) 0).

(** [src_cluster] is [c.remoteCluster()]. *)
Definition msgHeaderForRouteOrLeaf (src_kind : client_kind) (src_cluster : bytes) pa (subj rply : bytes) (rt : routeTarget) (acc : bytes) : bytes :=
  let hasHeader := 0 <? hdr pa in
  let lnoc := bool_decide (rt_kind rt = ROUTER) && bool_decide (src_kind = LEAF) && nonempty src_cluster && rt_lnoc rt in
  let '(op, mh, subj) :=
    if bool_decide (rt_kind rt = ROUTER) then
      let '(op, mh) := if lnoc then ("L"%char, src_cluster ++ [" "%char]) else ("R"%char, []) in
      (op, mh ++ (if nonempty (rt_accName rt) then [] else acc ++ [" "%char]), subj)
    else ("L"%char, [], rt_remap rt subj) in
  let mh := mh ++ subj ++ [" "%char] in
  let mh := mh ++
    (if nonempty (rt_qs rt) then (if nonempty rply then lit "+ " ++ rply ++ [" "%char] else lit "| ") ++ rt_qs rt
     else if nonempty rply then rply ++ [" "%char] else []) in
  let hdb := default [] (hdb pa) in
  let szb := default [] (szb pa) in
  let '(op, mh) :=
    if lnoc then (op, mh ++ (if hdr pa <=? 0 then ["0"%char] else hdb) ++ [" "%char] ++ szb)
    else if hasHeader then
      if rt_headers rt then ("H"%char, mh ++ hdb ++ [" "%char] ++ szb)
      else (op, mh ++ lit (pretty (size pa - hdr pa)))
    else (op, mh ++ szb) in
  op :: lit "MSG " ++ mh ++ CRLF.

(** The queue names of a target, as [addSubToRouteTargets] appends them. *)
Definition write_queues (qs : list bytes) : bytes := concat ((fun q => q ++ [" "%char]) <$> qs).

End Proto.
