(* ===== verification/MsgArgsSpec.v ===== *)
(** * Arguments of message lines: properties

    What one server writes on a route or to a leaf node, the other one reads back. *)

From stdpp Require Import pretty.
From Stdlib Require Import Ascii.
From S2P Require Import Prelude Subject Sublist MsgHeader MsgArgs.
Import Hdr Proto.

(** ** Splitting *)

Definition tok_ok (t : bytes) : Prop := t <> [] /\ Forall (fun b => arg_sep b = false) t.
Definition opt_tok (t : bytes) : Prop := t = [] \/ tok_ok t.

Lemma split_token sep t rest cur : Forall (fun b => sep b = false) t -> t <> [] \/ cur <> None ->
  split_loop sep (t ++ rest) cur = split_loop sep rest (Some (default [] cur ++ t)).
Proof.
  revert cur. induction t as [|b t IH]; intros cur Ht Hne; cbn.
  - destruct cur as [c|]; [|naive_solver]. by rewrite app_nil_r.
  - apply Forall_cons in Ht as [-> Ht]. rewrite IH; [|done|by right]. cbn. by rewrite <- app_assoc.
Qed.

Lemma splitArg_token t rest : tok_ok t -> splitArg (t ++ " "%char :: rest) = t :: splitArg rest.
Proof. intros [Hne Ht]. unfold splitArg. rewrite split_token by tauto. done. Qed.

Lemma splitArg_last t : tok_ok t -> splitArg t = [t].
Proof. intros [Hne Ht]. unfold splitArg. rewrite <- (app_nil_r t) at 1. rewrite split_token by tauto. done. Qed.

Lemma splitArg_queues qs rest : Forall tok_ok qs -> splitArg (write_queues qs ++ rest) = qs ++ splitArg rest.
Proof.
  unfold write_queues. induction 1 as [|q qs Hq _ IH]; [done|]. rewrite fmap_cons. cbn [concat]. rewrite <- !app_assoc. cbn [app]. by rewrite splitArg_token, IH.
Qed.

Lemma tok_check t : nonempty t && forallb (fun b => negb (arg_sep b)) t = true -> tok_ok t.
Proof.
  intros [H1 H2]%andb_true_iff. split; [by intros ->|]. rewrite forallb_forall in H2. apply Forall_forall. intros b Hb. apply negb_true_iff, H2. by apply list_elem_of_In.
Qed.

(** ** Sizes *)

Lemma size_loop_token d n : 0 <= n -> 0 <= size_loop d n -> Forall (fun b => arg_sep b = false) d.
Proof.
  revert n. induction d as [|c d IH]; intros n Hn Hd; [constructor|]. cbn in Hd. destruct (_ || _) eqn:E; [lia|]. constructor; [|eapply IH; [|done]; go_bool; lia].
  unfold arg_sep, blank. destruct (Ascii.eqb_spec c " ") as [EE0|], (Ascii.eqb_spec c "009") as [EE1|], (Ascii.eqb_spec c CR) as [EE2|], (Ascii.eqb_spec c LF) as [EE3|]; try done; subst c; vm_compute in E; discriminate.
Qed.

Lemma size_token d : 0 <= parseSize d -> tok_ok d.
Proof.
  unfold parseSize. destruct (_ || _) eqn:E; [lia|]. intros Hd. split; [by intros ->|]. by apply (size_loop_token d 0).
Qed.

Lemma size_loop_app a b n : 0 <= size_loop a n -> 0 <= n -> size_loop (a ++ b) n = size_loop b (size_loop a n).
Proof.
  revert n. induction a as [|c a IH]; intros n Ha Hn; [done|]. cbn in *. destruct (_ || _) eqn:E; [lia|]. go_bool. apply IH; [done|]. lia.
Qed.

Lemma size_loop_bound d n : 0 <= n -> size_loop d n < (n + 1) * 10 ^ Z.of_nat (length d).
Proof.
  revert n. induction d as [|c d IH]; intros n Hn; cbn [size_loop length]; [lia|]. rewrite Nat2Z.inj_succ, Z.pow_succ_r by lia. pose proof (Z.pow_pos_nonneg 10 (Z.of_nat (length d))).
  destruct (_ || _) eqn:E; [nia|]. go_bool. pose proof (IH (n * 10 + (Z.of_nat (nat_of_ascii c) - 48))). nia.
Qed.

Lemma digit_size (n : N) m : (n < 10)%N -> size_loop [pretty_N_char n] m = m * 10 + Z.of_N n.
Proof.
  intros Hn. assert (Z.of_nat (nat_of_ascii (pretty_N_char n)) = 48 + Z.of_N n) as Hv.
  { destruct n as [|p]; [done|]. do 4 (try destruct p as [p|p|]); done || lia. }
  cbn [size_loop]. rewrite Hv. destruct (_ || _) eqn:E; [|lia]. apply orb_true_iff in E as [E|E]; go_bool; lia.
Qed.

Lemma pretty_digits (x : N) s : exists d, lit (pretty_N_go x s) = d ++ lit s /\ size_loop d 0 = Z.of_N x /\ forall k, (x < 10 ^ N.of_nat k)%N -> (length d <= k)%nat.
Proof.
  revert s. induction (N.lt_wf_0 x) as [x _ IH]; intros s. destruct (decide (x = 0)%N) as [->|Hx]; [exists []; rewrite pretty_N_go_0; cbn; split_and!; [done|done|lia]|].
  rewrite pretty_N_go_step by lia. destruct (IH (x `div` 10)%N (N.div_lt x 10 ltac:(lia) ltac:(lia)) (String (pretty_N_char (x `mod` 10)) s)) as (d&Hd&Hn&Hl).
  exists (d ++ [pretty_N_char (x `mod` 10)]). pose proof (N.div_mod x 10 ltac:(lia)). pose proof (N.mod_lt x 10 ltac:(lia)). split_and!.
  - rewrite Hd. cbn. by rewrite <- app_assoc.
  - rewrite size_loop_app, Hn, digit_size by lia. lia.
  - intros [|k] Hk; [cbn in Hk; lia|]. rewrite length_app. cbn. rewrite Nat2N.inj_succ, N.pow_succ_r in Hk by lia. assert (length d <= k)%nat; [|lia]. apply Hl, N.div_lt_upper_bound; lia.
Qed.

Lemma parseSize_pretty n : 0 <= n < 10 ^ 9 -> parseSize (lit (pretty n)) = n.
Proof.
  intros Hn. destruct (decide (n = 0)) as [->|H0]; [done|]. destruct n as [|p|p]; try lia. change (pretty (Z.pos p)) with (pretty (N.pos p)). unfold pretty, pretty_N. destruct (decide _) as [|_]; [done|].
  destruct (pretty_digits (N.pos p) "") as (d&->&Hd&Hl). change (lit "") with (@nil ascii). rewrite app_nil_r. unfold parseSize. rewrite Hd. assert (length d <= 9)%nat by (apply Hl; cbn; lia).
  destruct (Nat.eqb_spec (length d) 0) as [E|]; [destruct d; [discriminate|done]|]. destruct (Nat.ltb_spec 9 (length d)); [lia|]. done.
Qed.

Lemma parseSize_bound d : parseSize d < 10 ^ 9.
Proof.
  unfold parseSize. destruct (_ || _) eqn:E; [lia|]. apply orb_false_iff in E as [_ E]. apply Nat.ltb_ge in E. pose proof (size_loop_bound d 0). assert (10 ^ Z.of_nat (length d) <= 10 ^ 9) by (apply Z.pow_le_mono_r; lia). lia.
Qed.

(** ** Reading *)

(** The arguments between the subject and the sizes. *)
Definition reply_words (rply : bytes) (qs : list bytes) : list bytes :=
  match qs with
  | [] => if nonempty rply then [rply] else []
  | _ => (if nonempty rply then [["+"%char]; rply] else [["|"%char]]) ++ qs
  end.

Definition set_sizes (pa : pubArg) (hb : option bytes) (sb : bytes) : pubArg :=
  with_size (match hb with Some b => with_hdr_size pa b (parseSize b) | None => pa end) sb (parseSize sb).

Definition opt_words (b : option bytes) : list bytes := match b with Some b => [b] | None => [] end.
Definition nil_none {A} (l : list A) : option (list A) := match l with [] => None | _ => Some l end.

Lemma at_app_r l l' k : at_ (l ++ l') (length l + k) = at_ l' k.
Proof. unfold at_. by rewrite lookup_app_r, Nat.add_sub' by lia. Qed.

Lemma nonempty_nil {A} (l : list A) : nonempty l = match l with [] => false | _ => true end.
Proof. by destruct l. Qed.

Lemma read_words pa front rply qs hb sb n : n = S (length (opt_words hb)) ->
  reply_queues_sizes pa (front ++ reply_words rply qs ++ opt_words hb ++ [sb]) (length front) n =
  inl (set_sizes (with_queues (with_reply pa (nil_none rply)) (nil_none qs)) hb sb).
Proof.
  intros ->. unfold reply_queues_sizes. set (w := reply_words rply qs). set (args := front ++ w ++ opt_words hb ++ [sb]).
  assert (Hlen : length args = (length front + length w + S (length (opt_words hb)))%nat) by (unfold args; rewrite !length_app; cbn; lia).
  assert (Hsb : at_ args (length args - 1) = sb).
  { unfold args. rewrite (app_assoc front), (app_assoc (front ++ w)), length_app. cbn [length]. rewrite Nat.add_sub, <- (Nat.add_0_r (length _)). apply at_app_r. }
  assert (Hhb : forall b, hb = Some b -> at_ args (length args - 2) = b).
  { intros b ->. unfold args. rewrite (app_assoc front), length_app. cbn [length app opt_words]. replace (length (front ++ w) + 2 - 2)%nat with (length (front ++ w) + 0)%nat by lia. apply at_app_r. }
  assert (Hk : forall k, at_ args (length front + k) = at_ (w ++ opt_words hb ++ [sb]) k) by (intros k; apply at_app_r).
  assert (Hsl : forall k q, w = take k w ++ q -> (k <= length w)%nat -> slice args (length front + k) (length args - S (length (opt_words hb))) = q).
  { intros k q Hq Hkl. unfold slice. rewrite Hlen. unfold args. rewrite <- drop_drop, drop_app_length, drop_app_le by done. replace (length front + length w + S (length (opt_words hb)) - S (length (opt_words hb)) - (length front + k))%nat with (length w - k)%nat by lia.
    rewrite <- length_drop, take_app_length. apply (app_inv_head (take k w)). by rewrite take_drop. }
  assert (Hsz : forall pa', (let pa0 := if Nat.eqb (S (length (opt_words hb))) 2 then with_hdr_size pa' (at_ args (length args - 2)) (parseSize (at_ args (length args - 2))) else pa' in
    with_size pa0 (at_ args (length args - 1)) (parseSize (at_ args (length args - 1)))) = set_sizes pa' hb sb).
  { intros pa'. rewrite Hsb. destruct hb as [b|]; cbn [opt_words length Nat.eqb]; [by rewrite (Hhb b)|done]. }
  cbv zeta. destruct (Nat.ltb_spec (length args) (length front + S (length (opt_words hb)))); [lia|].
  unfold w, reply_words in Hlen, Hk, Hsl. rewrite nonempty_nil in Hlen, Hk, Hsl. destruct qs as [|q qs].
  - destruct rply as [|c r]; cbn [length] in Hlen.
    + destruct (Nat.eqb_spec (length args) (length front + S (length (opt_words hb)))); [|lia]. by rewrite Hsz.
    + destruct (Nat.eqb_spec (length args) (length front + S (length (opt_words hb)))); [lia|]. destruct (Nat.eqb_spec (length args) (length front + S (length (opt_words hb)) + 1)); [|lia].
      rewrite Hsz. specialize (Hk 0%nat). rewrite Nat.add_0_r in Hk. by rewrite Hk.
  - pose proof (Hk 0%nat) as Hk0. pose proof (Hk 1%nat) as Hk1. rewrite Nat.add_0_r in Hk0. rewrite length_app in Hlen. assert (length args >= length front + length (opt_words hb) + 3)%nat by (destruct rply; cbn [length] in Hlen; lia).
    destruct (Nat.eqb_spec (length args) (length front + S (length (opt_words hb)))); [lia|]. destruct (Nat.eqb_spec (length args) (length front + S (length (opt_words hb)) + 1)); [lia|].
    rewrite Hk0. destruct rply as [|c r]; cbn [app at_ lookup list_lookup default].
    + rewrite !Hsz, (Hsl 1%nat (q :: qs)); [by destruct hb|done|cbn; lia].
    + rewrite !Hsz, Hk1, (Hsl 2%nat (q :: qs)); [by destruct hb|done|cbn; lia].
Qed.

(** ** Round trip *)

Lemma write_queues_app a b : write_queues (a ++ b) = write_queues a ++ write_queues b.
Proof. unfold write_queues. by rewrite fmap_app, concat_app. Qed.

Lemma write_queues_nonempty qs : Forall tok_ok qs -> nonempty (write_queues qs) = match qs with [] => false | _ => true end.
Proof. intros Hq. rewrite nonempty_nil. destruct Hq as [|q qs [Hq _] _]; [done|]. by destruct q. Qed.

Lemma reply_words_write rply qs : Forall tok_ok qs ->
  (if nonempty (write_queues qs) then (if nonempty rply then lit "+ " ++ rply ++ [" "%char] else lit "| ") ++ write_queues qs
   else if nonempty rply then rply ++ [" "%char] else []) = write_queues (reply_words rply qs).
Proof.
  intros Hq. rewrite write_queues_nonempty by done. unfold reply_words. destruct qs as [|q qs]; [by destruct (nonempty rply); unfold write_queues; cbn; rewrite ?app_nil_r|].
  rewrite write_queues_app. destruct (nonempty rply); [|done]. unfold write_queues at 2. cbn. by rewrite app_nil_r.
Qed.

Lemma reply_words_ok rply qs : opt_tok rply -> Forall tok_ok qs -> Forall tok_ok (reply_words rply qs).
Proof.
  intros Hr Hq. assert (tok_ok ["+"%char] /\ tok_ok ["|"%char]) as [H1 H2] by (split; (split; [done|by repeat constructor])).
  unfold reply_words. rewrite nonempty_nil. destruct Hr as [->|Hr].
  - destruct qs; [constructor|]. by apply Forall_app; rewrite Forall_singleton.
  - destruct rply as [|c r]; [by destruct Hr|]. destruct qs; [by rewrite Forall_singleton|]. apply Forall_app. split; [|done]. by rewrite Forall_cons, Forall_singleton.
Qed.

Lemma split_words ts last : Forall tok_ok ts -> tok_ok last -> splitArg (write_queues ts ++ last) = ts ++ [last].
Proof. intros Ht Hl. by rewrite splitArg_queues, splitArg_last. Qed.

Section roundtrip.
Context {H : Type} {HC : Conn H}.

(** What the parser does with the line of a message from a route ([R], [H], [L]) or from a leaf
    node; the size of the header is -1 before when the line has none. *)
Definition read_line (kind : client_kind) (h : H) (pa : pubArg) (op : ascii) (arg : bytes) : pubArg * option perror :=
  if bool_decide (kind = LEAF) then
    let '(_, pa, e) := if Ascii.eqb op "H" then processLeafHeaderMsgArgs h pa arg else processLeafMsgArgs h (with_hdr pa (-1)) arg in (pa, e)
  else if Ascii.eqb op "H" then processRoutedHeaderMsgArgs kind h pa arg
  else if Ascii.eqb op "L" then processRoutedOriginClusterMsgArgs kind h pa arg
  else processRoutedMsgArgs kind h (with_hdr pa (-1)) arg.

(** The sizes of a message are those of its line. *)
Definition sizes_ok (pa : pubArg) : Prop :=
  (exists b, szb pa = Some b /\ parseSize b = size pa) /\ 0 <= size pa /\ hdr pa <= size pa /\ (0 < hdr pa -> exists b, hdb pa = Some b /\ parseSize b = hdr pa).

(** The sizes on the line: with the header, or without it. *)
Definition sent_sizes (pa : pubArg) (keep always : bool) : option bytes * bytes :=
  if always then (Some (if hdr pa <=? 0 then ["0"%char] else default [] (hdb pa)), default [] (szb pa))
  else if 0 <? hdr pa then if keep then (hdb pa, default [] (szb pa)) else (None, lit (pretty (size pa - hdr pa)))
  else (None, default [] (szb pa)).

Definition sent_size (pa : pubArg) (keep always : bool) : Z := if (0 <? hdr pa) && negb (keep || always) then size pa - hdr pa else size pa.
Definition sent_hdr (pa : pubArg) (keep always : bool) : Z := if always then Z.max 0 (hdr pa) else if (0 <? hdr pa) && keep then hdr pa else -1.

Lemma sent_sizes_ok pa keep always hb sb : sizes_ok pa -> sent_sizes pa keep always = (hb, sb) ->
  tok_ok sb /\ Forall tok_ok (opt_words hb) /\ parseSize sb = sent_size pa keep always /\ 0 <= sent_size pa keep always /\
  match hb with Some b => parseSize b = sent_hdr pa keep always /\ 0 <= sent_hdr pa keep always <= sent_size pa keep always | None => sent_hdr pa keep always = -1 end.
Proof.
  intros ((b&Hb&Hs)&Hpos&Hle&Hh). unfold sent_sizes, sent_size, sent_hdr. rewrite Hb. cbn [default]. pose proof (parseSize_bound b). assert (tok_ok b) by (apply size_token; lia).
  destruct (Z.ltb_spec 0 (hdr pa)) as [Hp|Hp]; cbn [andb].
  - destruct (Hh Hp) as (c&Hc&Hsc). assert (tok_ok c) by (apply size_token; lia). rewrite Hc, (proj2 (Z.leb_gt _ _)) by lia.
    destruct always, keep; cbn [negb orb]; intros [= <- <-]; cbn [opt_words default]; rewrite ?Forall_singleton, ?Z.max_r by lia; unfold id in *; split_and!; try done; try lia; try apply Forall_nil_2.
    + apply size_token. rewrite parseSize_pretty; lia.
    + rewrite parseSize_pretty; lia.
  - rewrite (proj2 (Z.leb_le _ _)) by lia. destruct always; intros [= <- <-]; cbn [opt_words default]; rewrite ?Forall_singleton, ?Z.max_l by lia; unfold id in *; split_and!; try done; try lia; try apply Forall_nil_2.
    by split; [|repeat constructor].
Qed.

(** Whether the line has the cluster of the leaf node that the message came from. *)
Definition with_origin (sk : client_kind) (cl : bytes) (rt : routeTarget) : bool :=
  bool_decide (rt_kind rt = ROUTER) && bool_decide (sk = LEAF) && nonempty cl && rt_lnoc rt.

Definition line_subject (rt : routeTarget) (subj : bytes) : bytes := if bool_decide (rt_kind rt = ROUTER) then subj else rt_remap rt subj.

Definition line_front (sk : client_kind) (cl subj acc : bytes) (rt : routeTarget) : list bytes :=
  (if with_origin sk cl rt then [cl] else []) ++ (if bool_decide (rt_kind rt = ROUTER) && negb (nonempty (rt_accName rt)) then [acc] else []) ++ [line_subject rt subj].

Definition line_op (sk : client_kind) (cl : bytes) (pa : pubArg) (rt : routeTarget) : ascii :=
  if with_origin sk cl rt then "L" else if (0 <? hdr pa) && rt_headers rt then "H" else if bool_decide (rt_kind rt = ROUTER) then "R" else "L".

Lemma write_queues_words ts b : write_queues (ts ++ [b]) = write_queues ts ++ b ++ [" "%char].
Proof. rewrite write_queues_app. unfold write_queues at 2. cbn. by rewrite app_nil_r. Qed.

Lemma line_words sk cl pa subj rply rt acc qs hb sb : sizes_ok pa -> Forall tok_ok qs -> rt_qs rt = write_queues qs -> sent_sizes pa (rt_headers rt) (with_origin sk cl rt) = (hb, sb) ->
  msgHeaderForRouteOrLeaf sk cl pa subj rply rt acc =
  line_op sk cl pa rt :: lit "MSG " ++ (write_queues (line_front sk cl subj acc rt ++ reply_words rply qs ++ opt_words hb) ++ sb) ++ CRLF.
Proof.
  intros Hsz Hq Hrt Hs. unfold msgHeaderForRouteOrLeaf. rewrite Hrt, reply_words_write by done. fold (with_origin sk cl rt). rewrite !write_queues_app, <- reply_words_write by done.
  set (rw := if nonempty (write_queues qs) then _ else _). unfold line_front, line_op, line_subject. unfold sent_sizes in Hs. destruct Hsz as (_&_&_&Hh).
  assert (Hw : forall b, write_queues [b] = b ++ [" "%char]) by (intros b; unfold write_queues; cbn; by rewrite app_nil_r).
  assert (write_queues [] = []) as Hw0 by done.
  destruct (with_origin sk cl rt) eqn:Eo.
  - assert (bool_decide (rt_kind rt = ROUTER) = true) as -> by (unfold with_origin in Eo; by repeat (apply andb_true_iff in Eo as [Eo _])). injection Hs as <- <-. cbn [opt_words andb].
    rewrite !write_queues_app, !Hw. destruct (nonempty (rt_accName rt)); cbn [negb]; rewrite ?Hw, ?Hw0; do 2 f_equal; rewrite <- !app_assoc; done.
  - destruct (Z.ltb_spec 0 (hdr pa)) as [Hp|Hp]; cbn [andb]; [destruct (rt_headers rt); [destruct (Hh Hp) as (c&Hc&_); rewrite Hc in *|]|]; injection Hs as <- <-; cbn [opt_words default];
      destruct (bool_decide (rt_kind rt = ROUTER)); cbn [andb]; rewrite !write_queues_app, ?Hw, ?Hw0; try (destruct (nonempty (rt_accName rt)); cbn [negb]; rewrite ?Hw, ?Hw0);
      do 2 f_equal; rewrite <- ?app_assoc, ?app_nil_l; done.
Qed.

(** The sizes on the line are in order. *)
Definition read_sizes_ok (hb : option bytes) (sb : bytes) : Prop :=
  0 <= parseSize sb /\ match hb with Some b => 0 <= parseSize b <= parseSize sb | None => True end.

Lemma check_sizes_ok pa hb sb : read_sizes_ok hb sb -> check_sizes (set_sizes pa hb sb) (S (length (opt_words hb))) = None.
Proof.
  intros [Hs Hh]. unfold check_sizes, set_sizes. destruct hb as [b|]; cbn [length opt_words Nat.eqb andb hdr size with_size with_hdr_size].
  - by rewrite !(proj2 (Z.ltb_ge _ _)) by lia.
  - by rewrite (proj2 (Z.ltb_ge _ _)) by lia.
Qed.

Definition acc_words (an acc : bytes) : list bytes := if nonempty an then [] else [acc].
Definition acc_of (an acc : bytes) : bytes := if nonempty an then an else acc.
Definition pacache_of (an acc subj : bytes) : bytes := if nonempty an then subj else acc ++ " "%char :: subj.

Lemma write_two (a b : bytes) ts sb : take (length a + length b + 1) (write_queues ([a; b] ++ ts) ++ sb) = a ++ " "%char :: b.
Proof.
  rewrite write_queues_app. unfold write_queues at 1. cbn [fmap list_fmap concat]. rewrite app_nil_r, <- !app_assoc. rewrite (app_assoc a [" "%char]), (app_assoc _ b).
  replace (length a + length b + 1)%nat with (length ((a ++ [" "%char]) ++ b)) by (rewrite !length_app; cbn; lia). rewrite take_app_length. by rewrite <- app_assoc.
Qed.

Lemma routed_read kind (h : H) pa acc subj rply qs hb sb : read_sizes_ok hb sb -> Forall tok_ok qs -> tok_ok subj -> tok_ok acc -> opt_tok rply -> Forall tok_ok (opt_words hb) -> tok_ok sb ->
  let an := route_account kind h in
  let arg := write_queues (acc_words an acc ++ [subj] ++ reply_words rply qs ++ opt_words hb) ++ sb in
  routed_args (S (length (opt_words hb))) kind h pa arg =
  (with_routing (set_sizes (with_queues (with_reply (with_arg pa arg) (nil_none rply)) (nil_none qs)) hb sb) (pacache_of an acc subj) (origin pa) (acc_of an acc) subj, None).
Proof.
  intros Hsz Hq Hs Ha Hr Hh Hb an arg. pose proof (reply_words_ok rply qs Hr Hq) as Hw. unfold routed_args. fold an. fold (nonempty an).
  assert (splitArg arg = acc_words an acc ++ [subj] ++ reply_words rply qs ++ opt_words hb ++ [sb]) as ->.
  { unfold arg. rewrite split_words; [by rewrite <- !app_assoc| |done]. rewrite !Forall_app, Forall_singleton. split_and!; try done. unfold acc_words. destruct (nonempty an); [constructor|by apply Forall_singleton]. }
  assert ((if nonempty an then [an] else []) ++ acc_words an acc ++ [subj] ++ reply_words rply qs ++ opt_words hb ++ [sb] = [acc_of an acc; subj] ++ reply_words rply qs ++ opt_words hb ++ [sb]) as -> by (unfold acc_words, acc_of; by destruct (nonempty an)).
  rewrite (read_words _ [acc_of an acc; subj]) by done. rewrite check_sizes_ok by done. cbn [at_ app lookup list_lookup default]. unfold id. f_equal.
  assert ((if nonempty an then subj else take (length (acc_of an acc) + length subj + 1) arg) = pacache_of an acc subj) as ->.
  { unfold pacache_of, acc_of, arg, acc_words. destruct (nonempty an); [done|]. apply (write_two acc subj). }
  unfold set_sizes. by destruct hb.
Qed.

Lemma origin_read kind (h : H) pa cl acc subj rply qs hb sb : read_sizes_ok (Some hb) sb -> Forall tok_ok qs -> tok_ok subj -> tok_ok acc -> tok_ok cl -> opt_tok rply -> tok_ok hb -> tok_ok sb ->
  let an := route_account kind h in
  let arg := write_queues ([cl] ++ acc_words an acc ++ [subj] ++ reply_words rply qs ++ [hb]) ++ sb in
  processRoutedOriginClusterMsgArgs kind h pa arg =
  (with_routing (set_sizes (with_queues (with_reply (with_arg pa arg) (nil_none rply)) (nil_none qs)) (Some hb) sb) (pacache_of an acc subj) (Some cl) (acc_of an acc) subj, None).
Proof.
  intros Hsz Hq Hs Ha Hc Hr Hh Hb an arg. pose proof (reply_words_ok rply qs Hr Hq) as Hw. unfold processRoutedOriginClusterMsgArgs. fold an. fold (nonempty an).
  assert (splitArg arg = cl :: acc_words an acc ++ [subj] ++ reply_words rply qs ++ opt_words (Some hb) ++ [sb]) as ->.
  { unfold arg. rewrite split_words; [by rewrite <- !app_assoc| |done]. rewrite !Forall_app, !Forall_singleton. split_and!; try done. unfold acc_words. destruct (nonempty an); [constructor|by apply Forall_singleton]. }
  match goal with |- context [if ?c then ?a else ?b] => assert ((if c then a else b) = [cl; acc_of an acc; subj] ++ reply_words rply qs ++ opt_words (Some hb) ++ [sb]) as -> end.
  { unfold acc_words, acc_of. destruct (nonempty an); [|done]. rewrite (proj2 (Nat.ltb_lt _ _)); [done|]. rewrite !length_cons, !length_app. cbn. lia. }
  rewrite (read_words _ [cl; acc_of an acc; subj] _ _ (Some hb)) by done. rewrite (check_sizes_ok _ (Some hb)) by done. cbn [at_ app lookup list_lookup default]. unfold id. f_equal.
  match goal with |- with_routing _ ?x _ _ _ = _ => assert (x = pacache_of an acc subj) as -> end; [|done].
  unfold pacache_of, acc_of, arg, acc_words. destruct (nonempty an); [done|]. unfold slice. rewrite (write_queues_app [cl]). unfold write_queues at 1. cbn [fmap list_fmap concat]. rewrite app_nil_r, <- app_assoc.
  replace (length cl + 1)%nat with (length (cl ++ [" "%char])) by (rewrite length_app; done). rewrite drop_app_length.
  replace (length cl + length acc + length subj + 2 - length (cl ++ [" "%char]))%nat with (length acc + length subj + 1)%nat by (rewrite length_app; cbn; lia). apply (write_two acc subj).
Qed.

Lemma leaf_read (h : H) pa subj rply qs hb sb : read_sizes_ok hb sb -> Forall tok_ok qs -> tok_ok subj -> opt_tok rply -> Forall tok_ok (opt_words hb) -> tok_ok sb -> mpay h = -1 \/ parseSize sb <= mpay h ->
  let arg := write_queues ([subj] ++ reply_words rply qs ++ opt_words hb) ++ sb in
  leaf_args (S (length (opt_words hb))) h pa arg =
  (h, with_subject (set_sizes (with_queues (with_reply (with_arg pa arg) (nil_none rply)) (nil_none qs)) hb sb) subj, None).
Proof.
  intros Hsz Hq Hs Hr Hh Hb Hm arg. pose proof (reply_words_ok rply qs Hr Hq) as Hw. unfold leaf_args.
  assert (splitArg arg = [subj] ++ reply_words rply qs ++ opt_words hb ++ [sb]) as -> by (unfold arg; rewrite split_words; [by rewrite <- !app_assoc|by rewrite !Forall_app, Forall_singleton|done]).
  rewrite (read_words _ [subj]) by done. rewrite check_sizes_ok by done. cbn [at_ app lookup list_lookup default]. unfold id.
  match goal with |- context [if ?c then _ else _] => assert (c = false) as -> end; [|done]. unfold over_max_payload, set_sizes. cbn [size with_size]. destruct (Z.eqb_spec (mpay h) (-1)); [done|]. cbn. apply Z.ltb_ge. lia.
Qed.

(** The bytes of a line are those of its words and blanks. *)
Lemma write_no_break ts last : Forall tok_ok ts -> tok_ok last -> Forall (fun b => b <> CR /\ b <> LF) (write_queues ts ++ last).
Proof.
  assert (forall t, tok_ok t -> Forall (fun b => b <> CR /\ b <> LF) t) as Ht.
  { intros t [_ Ht]. eapply Forall_impl; [exact Ht|]. intros b Hb. split; intros ->; discriminate Hb. }
  intros Hts Hl. apply Forall_app. split; [|by apply Ht]. unfold write_queues. induction Hts as [|t ts Hk _ IH]; [by apply Forall_nil_2|]. rewrite fmap_cons. cbn [concat]. rewrite !Forall_app, Forall_singleton. split_and!; [by apply Ht|done|done|done].
Qed.

Lemma write_first ts last : Forall tok_ok ts -> ts <> [] -> exists b arg', write_queues ts ++ last = b :: arg' /\ blank b = false.
Proof.
  intros Hts Hne. destruct Hts as [|t ts [Ht Hf] _]; [done|]. destruct t as [|b t]; [done|]. apply Forall_cons in Hf as [Hb _]. eexists b, _. split; [reflexivity|]. unfold arg_sep in Hb. by destruct (blank b).
Qed.

Lemma words_ok sk cl subj rply rt acc qs hb : tok_ok (line_subject rt subj) -> tok_ok acc -> opt_tok cl -> opt_tok rply -> Forall tok_ok qs -> Forall tok_ok (opt_words hb) ->
  Forall tok_ok (line_front sk cl subj acc rt ++ reply_words rply qs ++ opt_words hb).
Proof.
  intros Hs Ha Hc Hr Hq Hh. unfold line_front. rewrite !Forall_app, Forall_singleton. split_and!; try done; [| |by apply reply_words_ok].
  - destruct (with_origin sk cl rt) eqn:E; [|by apply Forall_nil_2]. rewrite Forall_singleton. destruct Hc as [->|]; [|done]. unfold with_origin in E. by rewrite !andb_false_r in E.
  - destruct (_ && _); [by rewrite Forall_singleton|by apply Forall_nil_2].
Qed.

Lemma line_roundtrip sk cl pa subj rply rt acc qs (h : H) pa0
    (Hsz : sizes_ok pa) (Hk : rt_kind rt = ROUTER \/ rt_kind rt = LEAF) (Hs : tok_ok (line_subject rt subj)) (Ha : tok_ok acc) (Hc : opt_tok cl) (Hr : opt_tok rply)
    (Hq : Forall tok_ok qs) (Hrt : rt_qs rt = write_queues qs) (Han : accName h = rt_accName rt) (Hm : mpay h = -1 \/ size pa <= mpay h) :
  exists arg, msgHeaderForRouteOrLeaf sk cl pa subj rply rt acc = line_op sk cl pa rt :: lit "MSG " ++ arg ++ CRLF /\ Forall (fun b => b <> CR /\ b <> LF) arg /\ (exists b arg', arg = b :: arg' /\ blank b = false) /\ exists pa',
    read_line (rt_kind rt) h pa0 (line_op sk cl pa rt) arg = (pa', None) /\
    pa_subject pa' = Some (line_subject rt subj) /\ reply pa' = nil_none rply /\ queues pa' = nil_none qs /\
    size pa' = sent_size pa (rt_headers rt) (with_origin sk cl rt) /\ hdr pa' = sent_hdr pa (rt_headers rt) (with_origin sk cl rt) /\
    (rt_kind rt = ROUTER -> account pa' = Some (acc_of (accName h) acc) /\ pacache pa' = Some (pacache_of (accName h) acc subj) /\
      origin pa' = if with_origin sk cl rt then Some cl else origin pa0).
Proof.
  destruct (sent_sizes pa (rt_headers rt) (with_origin sk cl rt)) as [hb sb] eqn:Es. pose proof (sent_sizes_ok _ _ _ _ _ Hsz Es) as (Hb&Hhb&Hsb&Hpos&Hh).
  assert (read_sizes_ok hb sb) as Hok by (split; [lia|destruct hb; [lia|done]]). eexists. split; [exact (line_words sk cl pa subj rply rt acc qs hb sb Hsz Hq Hrt Es)|].
  assert (Forall tok_ok (line_front sk cl subj acc rt ++ reply_words rply qs ++ opt_words hb)) as Hws by (apply words_ok; done). split; [by apply write_no_break|]. split; [apply write_first; [done|]; unfold line_front; intros E; apply (f_equal length) in E; rewrite !length_app in E; cbn in E; lia|]. clear Hws.
  assert (Hle : sent_size pa (rt_headers rt) (with_origin sk cl rt) <= size pa).
  { destruct Hsz as (_&?&?&_). unfold sent_size. destruct (Z.ltb_spec 0 (hdr pa)); cbn; [|lia]. destruct (negb _); lia. }
  assert (Hop : forall b, hb = Some b -> with_origin sk cl rt = false -> line_op sk cl pa rt = "H"%char).
  { intros b -> Ho. unfold line_op, sent_sizes in *. rewrite Ho in *. destruct (0 <? hdr pa); [|discriminate]. by destruct (rt_headers rt). }
  assert (Hno : hb = None -> line_op sk cl pa rt = if bool_decide (rt_kind rt = ROUTER) then "R"%char else "L"%char).
  { intros ->. unfold line_op, sent_sizes in *. destruct (with_origin sk cl rt); [discriminate|]. destruct Hsz as (_&_&_&Hd). destruct (Z.ltb_spec 0 (hdr pa)) as [Hp|]; [|done]. destruct (rt_headers rt); [|done]. destruct (Hd Hp) as (?&E&_). congruence. }
  destruct Hk as [Hk|Hk].
  - unfold read_line, line_front, line_subject in *. rewrite Hk, (bool_decide_eq_true_2 (ROUTER = ROUTER)) in * by done. rewrite <- Han. cbn [id] in Hs. assert (Er : route_account ROUTER h = accName h) by done. cbn [bool_decide andb]. fold (acc_words (accName h) acc).
    replace (if negb (nonempty (accName h)) then [acc] else []) with (acc_words (route_account ROUTER h) acc) by (rewrite Er; unfold acc_words; by destruct (nonempty _)).
    rewrite (bool_decide_eq_false_2 (ROUTER = LEAF)) by done. destruct (with_origin sk cl rt) eqn:Eo.
    + assert (line_op sk cl pa rt = "L"%char) as -> by (unfold line_op; by rewrite Eo). assert (exists b, hb = Some b) as [b ->] by (unfold sent_sizes in Es; injection Es as <- _; by eexists). cbn [opt_words] in Hhb. rewrite Forall_singleton in Hhb.
      assert (tok_ok cl) as Hcl by (destruct Hc as [->|]; [by unfold with_origin in Eo; rewrite !andb_false_r in Eo|done]). cbn [Ascii.eqb Bool.eqb opt_words]. rewrite <- !app_assoc.
      rewrite (origin_read ROUTER h pa0 cl acc subj rply qs b sb) by done. rewrite Er. eexists; split; [reflexivity|]. cbn. split_and!; try done; by destruct Hh.
    + rewrite app_nil_l, <- app_assoc. destruct hb as [b|].
      * rewrite (Hop b) by done. cbn [Ascii.eqb Bool.eqb]. unfold processRoutedHeaderMsgArgs. rewrite (routed_read ROUTER h pa0 acc subj rply qs (Some b) sb Hok Hq Hs Ha Hr Hhb Hb : routed_args 2 _ _ _ _ = _). rewrite Er. eexists; split; [reflexivity|]. cbn. split_and!; try done; by destruct Hh.
      * rewrite Hno by done. cbn [Ascii.eqb Bool.eqb]. unfold processRoutedMsgArgs. rewrite (routed_read ROUTER h (with_hdr pa0 (-1)) acc subj rply qs None sb Hok Hq Hs Ha Hr Hhb Hb : routed_args 1 _ _ _ _ = _). rewrite Er. eexists; split; [reflexivity|]. cbn. split_and!; try done.
  - assert (with_origin sk cl rt = false) as Eo by (unfold with_origin; by rewrite Hk). rewrite Eo in *. unfold read_line, line_front in *. rewrite Eo, Hk, (bool_decide_eq_true_2 (LEAF = LEAF)), (bool_decide_eq_false_2 (LEAF = ROUTER)) in * by done. cbn [andb]. rewrite !app_nil_l.
    destruct hb as [b|].
    + rewrite (Hop b) by done. cbn [Ascii.eqb Bool.eqb]. unfold processLeafHeaderMsgArgs. rewrite (leaf_read h pa0 (line_subject rt subj) rply qs (Some b) sb Hok Hq Hs Hr Hhb Hb ltac:(lia) : leaf_args 2 _ _ _ = _). eexists; split; [reflexivity|]. cbn. split_and!; try done; by destruct Hh.
    + rewrite Hno by done. cbn [Ascii.eqb Bool.eqb]. unfold processLeafMsgArgs. rewrite (leaf_read h (with_hdr pa0 (-1)) (line_subject rt subj) rply qs None sb Hok Hq Hs Hr Hhb Hb ltac:(lia) : leaf_args 1 _ _ _ = _). eexists; split; [reflexivity|]. cbn. split_and!; done.
Qed.
(** The line that a server writes for a message on a route or to a leaf node
    ([msgHeaderForRouteOrLeaf]) is read back by the function that the other server's parser calls
    for it: without an error, with the subject (remapped for a shadow subscription), the reply,
    the queue names and the sizes that were sent (without the header's when the receiver takes
    none), and on routes with the account, the cluster of the leaf node, if it is sent, and the
    cache key of account and subject. *)
Theorem message_line_roundtrip sk cl pa subj rply rt acc qs (h : H) pa0
    (Hsz : sizes_ok pa) (Hk : rt_kind rt = ROUTER \/ rt_kind rt = LEAF) (Hs : tok_ok (line_subject rt subj)) (Ha : tok_ok acc) (Hc : opt_tok cl) (Hr : opt_tok rply)
    (Hq : Forall tok_ok qs) (Hrt : rt_qs rt = write_queues qs) (Han : accName h = rt_accName rt) (Hm : mpay h = -1 \/ size pa <= mpay h) :
  exists op arg, msgHeaderForRouteOrLeaf sk cl pa subj rply rt acc = op :: lit "MSG " ++ arg ++ CRLF /\ exists pa',
    read_line (rt_kind rt) h pa0 op arg = (pa', None) /\
    pa_subject pa' = Some (line_subject rt subj) /\ reply pa' = nil_none rply /\ queues pa' = nil_none qs /\
    size pa' = sent_size pa (rt_headers rt) (with_origin sk cl rt) /\ hdr pa' = sent_hdr pa (rt_headers rt) (with_origin sk cl rt) /\
    (rt_kind rt = ROUTER -> account pa' = Some (acc_of (accName h) acc) /\ pacache pa' = Some (pacache_of (accName h) acc subj) /\
      origin pa' = if with_origin sk cl rt then Some cl else origin pa0).
Proof.
  destruct (line_roundtrip sk cl pa subj rply rt acc qs h pa0 Hsz Hk Hs Ha Hc Hr Hq Hrt Han Hm) as (arg&Hl&_&_&Hp). by exists (line_op sk cl pa rt), arg.
Qed.
End roundtrip.

(** ** Samples *)

#[local] Instance sample_conn : Conn unit := {
  headers _ := true; mpay _ := 1000; Pedantic _ := false; accName _ := []; sendErr h _ := h; closeConnection h _ := h }.

Definition empty_args : pubArg := mkPubArg None None None None None None None None None None None 0 (-1) false.

(** A message with a header from a leaf node of the cluster [hub], to two queue groups behind a
    route. *)
Definition sample_pa : pubArg := with_size (with_hdr_size empty_args (lit "12") 12) (lit "17") 17.
Definition sample_target : routeTarget := mkTarget ROUTER true true [] id (write_queues [lit "q1"; lit "q2"]).

Lemma message_line_roundtrip_witness :
  exists op arg, msgHeaderForRouteOrLeaf LEAF (lit "hub") sample_pa (lit "foo.bar") (lit "_INBOX.1") sample_target (lit "ACC") = op :: lit "MSG " ++ arg ++ CRLF /\ exists pa',
    read_line ROUTER tt empty_args op arg = (pa', None) /\ pa_subject pa' = Some (lit "foo.bar") /\ reply pa' = Some (lit "_INBOX.1") /\ queues pa' = Some [lit "q1"; lit "q2"] /\ size pa' = 17 /\ hdr pa' = 12 /\
    (ROUTER = ROUTER -> account pa' = Some (lit "ACC") /\ pacache pa' = Some (lit "ACC foo.bar") /\ origin pa' = Some (lit "hub")).
Proof.
  refine (message_line_roundtrip LEAF (lit "hub") sample_pa (lit "foo.bar") (lit "_INBOX.1") sample_target (lit "ACC") [lit "q1"; lit "q2"] tt empty_args _ _ _ _ _ _ _ _ _ _).
  - split_and!; [by exists (lit "17")|done|done|]. intros _. by exists (lit "12").
  - by left.
  - by apply tok_check.
  - by apply tok_check.
  - right. by apply tok_check.
  - right. by apply tok_check.
  - repeat (apply Forall_cons; split); [by apply tok_check|by apply tok_check|by apply Forall_nil_2].
  - done.
  - done.
  - right. done.
Defined.

(** The cache key is cut out of the line as if one blank separated account and subject: with two
    blanks, different subjects have the same key. *)
Example pacache_two_blanks :
  pacache (processRoutedMsgArgs GATEWAY tt empty_args (lit "A  foo 5")).1 = pacache (processRoutedMsgArgs GATEWAY tt empty_args (lit "A  fob 5")).1.
Proof. vm_compute. reflexivity. Qed.
