(* ===== verification/Parser.v ===== *)
(** * Protocol parser (src/server/parser.go)

    [parse] is called with what was read from the connection, in pieces of any size: a protocol
    line or a message may begin in one call and end in a later one, with the parser's state, the
    part of the line ([argBuf]) or of the message ([msgBuf]) kept in the client in between.

    The operations that a complete line starts are methods of the client on the whole server;
    they are the class [Handlers], on a state [H] of which the parser reads only what
    [Conn] and [Handlers] name.  Slices are values ([argBuf] and [msgBuf] share a scratch area
    in the code, in parts that do not overlap); tracing and the MQTT parser are left out.  The
    jumps of the index are kept: [None] is a panic or the end of the fuel. *)

From Stdlib Require Import Ascii.
From S2P Require Import Prelude Subject Sublist MsgHeader MsgArgs.
Import Hdr Proto.

Module Parse.
Open Scope Z_scope.
Open Scope char_scope.

Inductive parserState : Type :=
  | OP_START | OP_PLUS | OP_PLUS_O | OP_PLUS_OK | OP_MINUS | OP_MINUS_E | OP_MINUS_ER | OP_MINUS_ERR | OP_MINUS_ERR_SPC | MINUS_ERR_ARG
  | OP_C | OP_CO | OP_CON | OP_CONN | OP_CONNE | OP_CONNEC | OP_CONNECT | CONNECT_ARG
  | OP_H | OP_HP | OP_HPU | OP_HPUB | OP_HPUB_SPC | HPUB_ARG | OP_HM | OP_HMS | OP_HMSG | OP_HMSG_SPC | HMSG_ARG
  | OP_P | OP_PU | OP_PUB | OP_PUB_SPC | PUB_ARG | OP_PI | OP_PIN | OP_PING | OP_PO | OP_PON | OP_PONG
  | MSG_PAYLOAD | MSG_END_R | MSG_END_N
  | OP_S | OP_SU | OP_SUB | OP_SUB_SPC | SUB_ARG | OP_A | OP_ASUB | OP_ASUB_SPC | ASUB_ARG | OP_AUSUB | OP_AUSUB_SPC | AUSUB_ARG
  | OP_L | OP_LS | OP_R | OP_RS | OP_U | OP_UN | OP_UNS | OP_UNSU | OP_UNSUB | OP_UNSUB_SPC | UNSUB_ARG
  | OP_M | OP_MS | OP_MSG | OP_MSG_SPC | MSG_ARG | OP_I | OP_IN | OP_INF | OP_INFO | INFO_ARG.
#[export] Instance parserState_eq_dec : EqDecision parserState := ltac:(solve_decision).

(** ** Operations of the client *)

Class Handlers (H : Type) : Type := {
  mcl : H -> Z;
  awaitingAuth : H -> bool;
  has_srv : H -> bool;
  noAuthUser : H -> option H;       (* a user that needs no CONNECT, registered *)
  needsCompression : H -> bool;     (* of the leaf node configuration *)
  authViolation : H -> H;
  hasMappings : H -> bool;
  selectMappedSubject : H -> pubArg -> H * pubArg;
  processInboundMsg : H -> pubArg -> bytes -> H * pubArg;
  processSub : H -> bytes -> option bytes -> bytes -> H;  (* subject, queue, sid *)
  processUnsub : H -> bytes -> H * option string;
  processRemoteSub : H -> bytes -> bool -> H * option string;
  processRemoteUnsub : H -> bytes -> bool -> H * option string;
  processGatewayRSub : H -> bytes -> H * option string;
  processGatewayRUnsub : H -> bytes -> H * option string;
  processLeafSub : H -> bytes -> H * option string;
  processLeafUnsub : H -> bytes -> H * option string;
  processAccountSub : H -> bytes -> H * option string;
  processAccountUnsub : H -> bytes -> H;
  processConnect : H -> bytes -> H * option string;
  processInfo : H -> bytes -> H * option string;
  processErr : H -> bytes -> H;
  processPing : H -> H;
  processPong : H -> H;
}.

(** A letter in either case. *)
Definition letter (b c : ascii) : bool := Ascii.eqb b c || Ascii.eqb b (lower c).

(** ** Keywords

    What a byte does in a state before the arguments: the next state, the first byte of the
    arguments (with the size of the header that is set then), nothing, or PING or PONG. *)
Inductive keyword : Type := Goto (s : parserState) | Arg (s : parserState) (h : option Z) | Stay | Ping | Pong | Bad.

Definition kw_letter (b c : ascii) (s : parserState) : keyword := if letter b c then Goto s else Bad.
Definition kw_blank (b : ascii) (s : parserState) : keyword := if blank b then Goto s else Bad.
Definition kw_arg (b : ascii) (s : parserState) (h : option Z) : keyword := if blank b then Stay else Arg s h.

Definition start_op (kind : client_kind) (b : ascii) : keyword :=
  if letter b "P" then Goto OP_P else
  if letter b "H" then Goto OP_H else
  if letter b "S" then Goto OP_S else
  if letter b "U" then Goto OP_U else
  if letter b "R" then if bool_decide (kind = CLIENT) then Bad else Goto OP_R else
  if letter b "L" then if negb (bool_decide (kind = LEAF)) && negb (bool_decide (kind = ROUTER)) then Bad else Goto OP_L else
  if letter b "A" then if bool_decide (kind = CLIENT) then Bad else Goto OP_A else
  if letter b "C" then Goto OP_C else
  if letter b "I" then Goto OP_I else
  if Ascii.eqb b "+" then Goto OP_PLUS else
  if Ascii.eqb b "-" then Goto OP_MINUS else Bad.

Definition kw_hpub (s : parserState) (b : ascii) : keyword :=
  match s with
  | OP_H => if letter b "P" then Goto OP_HP else if letter b "M" then Goto OP_HM else Bad
  | OP_HP => kw_letter b "U" OP_HPU
  | OP_HPU => kw_letter b "B" OP_HPUB
  | OP_HPUB => kw_blank b OP_HPUB_SPC
  | OP_HPUB_SPC => kw_arg b HPUB_ARG (Some 0)
  | _ => Bad
  end%Z.

Definition kw_hmsg (s : parserState) (b : ascii) : keyword :=
  match s with
  | OP_HM => kw_letter b "S" OP_HMS
  | OP_HMS => kw_letter b "G" OP_HMSG
  | OP_HMSG => kw_blank b OP_HMSG_SPC
  | OP_HMSG_SPC => kw_arg b HMSG_ARG (Some 0)
  | _ => Bad
  end%Z.

Definition kw_pub (s : parserState) (b : ascii) : keyword :=
  match s with
  | OP_P => if letter b "U" then Goto OP_PU else if letter b "I" then Goto OP_PI else if letter b "O" then Goto OP_PO else Bad
  | OP_PU => kw_letter b "B" OP_PUB
  | OP_PUB => kw_blank b OP_PUB_SPC
  | OP_PUB_SPC => kw_arg b PUB_ARG (Some (-1))
  | _ => Bad
  end%Z.

Definition kw_account (s : parserState) (b : ascii) : keyword :=
  match s with
  | OP_A => if Ascii.eqb b "+" then Goto OP_ASUB else if Ascii.eqb b "-" || Ascii.eqb b "u" then Goto OP_AUSUB else Bad
  | OP_ASUB => kw_blank b OP_ASUB_SPC
  | OP_ASUB_SPC => kw_arg b ASUB_ARG None
  | OP_AUSUB => kw_blank b OP_AUSUB_SPC
  | OP_AUSUB_SPC => kw_arg b AUSUB_ARG None
  | _ => Bad
  end.

Definition kw_sub (s : parserState) (b : ascii) : keyword :=
  match s with
  | OP_S => kw_letter b "U" OP_SU
  | OP_SU => kw_letter b "B" OP_SUB
  | OP_SUB => kw_blank b OP_SUB_SPC
  | OP_SUB_SPC => kw_arg b SUB_ARG None
  | _ => Bad
  end.

Definition kw_remote (s : parserState) (b : ascii) : keyword :=
  match s with
  | OP_L => if letter b "S" then Goto OP_LS else if letter b "M" then Goto OP_M else Bad
  | OP_LS => if Ascii.eqb b "+" then Goto OP_SUB else if Ascii.eqb b "-" then Goto OP_UNSUB else Bad
  | OP_R => if letter b "S" then Goto OP_RS else if letter b "M" then Goto OP_M else Bad
  | OP_RS => if Ascii.eqb b "+" then Goto OP_SUB else if Ascii.eqb b "-" then Goto OP_UNSUB else Bad
  | _ => Bad
  end.

Definition kw_unsub (s : parserState) (b : ascii) : keyword :=
  match s with
  | OP_U => kw_letter b "N" OP_UN
  | OP_UN => kw_letter b "S" OP_UNS
  | OP_UNS => kw_letter b "U" OP_UNSU
  | OP_UNSU => kw_letter b "B" OP_UNSUB
  | OP_UNSUB => kw_blank b OP_UNSUB_SPC
  | OP_UNSUB_SPC => kw_arg b UNSUB_ARG None
  | _ => Bad
  end.

Definition kw_ping (s : parserState) (b : ascii) : keyword :=
  match s with
  | OP_PI => kw_letter b "N" OP_PIN
  | OP_PIN => kw_letter b "G" OP_PING
  | OP_PING => if Ascii.eqb b LF then Ping else Stay
  | OP_PO => kw_letter b "N" OP_PON
  | OP_PON => kw_letter b "G" OP_PONG
  | OP_PONG => if Ascii.eqb b LF then Pong else Stay
  | _ => Bad
  end.

Definition kw_connect (s : parserState) (b : ascii) : keyword :=
  match s with
  | OP_C => kw_letter b "O" OP_CO
  | OP_CO => kw_letter b "N" OP_CON
  | OP_CON => kw_letter b "N" OP_CONN
  | OP_CONN => kw_letter b "E" OP_CONNE
  | OP_CONNE => kw_letter b "C" OP_CONNEC
  | OP_CONNEC => kw_letter b "T" OP_CONNECT
  | OP_CONNECT => kw_arg b CONNECT_ARG None
  | _ => Bad
  end.

Definition kw_msg (s : parserState) (b : ascii) : keyword :=
  match s with
  | OP_M => kw_letter b "S" OP_MS
  | OP_MS => kw_letter b "G" OP_MSG
  | OP_MSG => kw_blank b OP_MSG_SPC
  | OP_MSG_SPC => kw_arg b MSG_ARG (Some (-1))
  | _ => Bad
  end%Z.

Definition kw_info (s : parserState) (b : ascii) : keyword :=
  match s with
  | OP_I => kw_letter b "N" OP_IN
  | OP_IN => kw_letter b "F" OP_INF
  | OP_INF => kw_letter b "O" OP_INFO
  | OP_INFO => kw_arg b INFO_ARG None
  | _ => Bad
  end.

Definition kw_ok_err (s : parserState) (b : ascii) : keyword :=
  match s with
  | OP_PLUS => kw_letter b "O" OP_PLUS_O
  | OP_PLUS_O => kw_letter b "K" OP_PLUS_OK
  | OP_PLUS_OK => if Ascii.eqb b LF then Goto OP_START else Stay
  | OP_MINUS => kw_letter b "E" OP_MINUS_E
  | OP_MINUS_E => kw_letter b "R" OP_MINUS_ER
  | OP_MINUS_ER => kw_letter b "R" OP_MINUS_ERR
  | OP_MINUS_ERR => kw_blank b OP_MINUS_ERR_SPC
  | OP_MINUS_ERR_SPC => kw_arg b MINUS_ERR_ARG None
  | _ => Bad
  end.

Definition keyword_of (s : parserState) (b : ascii) : keyword :=
  match s with
  | OP_H | OP_HP | OP_HPU | OP_HPUB | OP_HPUB_SPC => kw_hpub s b
  | OP_HM | OP_HMS | OP_HMSG | OP_HMSG_SPC => kw_hmsg s b
  | OP_P | OP_PU | OP_PUB | OP_PUB_SPC => kw_pub s b
  | OP_A | OP_ASUB | OP_ASUB_SPC | OP_AUSUB | OP_AUSUB_SPC => kw_account s b
  | OP_S | OP_SU | OP_SUB | OP_SUB_SPC => kw_sub s b
  | OP_L | OP_LS | OP_R | OP_RS => kw_remote s b
  | OP_U | OP_UN | OP_UNS | OP_UNSU | OP_UNSUB | OP_UNSUB_SPC => kw_unsub s b
  | OP_PI | OP_PIN | OP_PING | OP_PO | OP_PON | OP_PONG => kw_ping s b
  | OP_C | OP_CO | OP_CON | OP_CONN | OP_CONNE | OP_CONNEC | OP_CONNECT => kw_connect s b
  | OP_M | OP_MS | OP_MSG | OP_MSG_SPC => kw_msg s b
  | OP_I | OP_IN | OP_INF | OP_INFO => kw_info s b
  | _ => kw_ok_err s b
  end.

Definition is_arg (s : parserState) : bool :=
  match s with
  | SUB_ARG | UNSUB_ARG | PUB_ARG | HPUB_ARG | ASUB_ARG | AUSUB_ARG | MSG_ARG | HMSG_ARG | MINUS_ERR_ARG | CONNECT_ARG | INFO_ARG => true
  | _ => false
  end.

(** The lines that a message follows. *)
Definition announces (s : parserState) : bool := match s with PUB_ARG | HPUB_ARG | MSG_ARG | HMSG_ARG => true | _ => false end.

Section parser.
Context {H : Type} `{Conn H, Handlers H}.
Context (kind : client_kind).
Implicit Types (h : H) (pa : pubArg).

(** ** Complete lines *)

Definition result (r : H * option string) (pa : pubArg) : H * pubArg * option perror :=
  let '(h, e) := r in (h, pa, HandlerError <$> e).

Definition parseSub h (argo : bytes) : H * option perror :=
  let args := splitArg argo in
  match length args with
  | 2%nat => (processSub h (at_ args 0) None (at_ args 1), None)
  | 3%nat => (processSub h (at_ args 0) (Some (at_ args 1)) (at_ args 2), None)
  | _ => (h, Some ArgsParseError)
  end.

Definition sub_line (op : ascii) h pa (arg : bytes) : H * pubArg * option perror :=
  match kind with
  | CLIENT => let '(h, e) := parseSub h arg in (h, pa, e)
  | ROUTER =>
      if letter op "R" then result (processRemoteSub h arg false) pa
      else if letter op "L" then result (processRemoteSub h arg true) pa else (h, pa, None)
  | GATEWAY => result (processGatewayRSub h arg) pa
  | LEAF => result (processLeafSub h arg) pa
  | _ => (h, pa, None)
  end.

Definition unsub_line (op : ascii) h pa (arg : bytes) : H * pubArg * option perror :=
  match kind with
  | CLIENT => result (processUnsub h arg) pa
  | ROUTER => result (processRemoteUnsub h arg (letter op "L")) pa
  | GATEWAY => result (processGatewayRUnsub h arg) pa
  | LEAF => result (processLeafUnsub h arg) pa
  | _ => (h, pa, None)
  end.

Definition hmsg_line h pa (arg : bytes) : H * pubArg * option perror :=
  match kind with
  | ROUTER | GATEWAY => let '(pa, e) := processRoutedHeaderMsgArgs kind h pa arg in (h, pa, e)
  | LEAF => processLeafHeaderMsgArgs h pa arg
  | _ => (h, pa, None)
  end.

Definition msg_line (op : ascii) h pa (arg : bytes) : H * pubArg * option perror :=
  match kind with
  | ROUTER | GATEWAY =>
      if letter op "R" then let '(pa, e) := processRoutedMsgArgs kind h pa arg in (h, pa, e)
      else if letter op "L" then let '(pa, e) := processRoutedOriginClusterMsgArgs kind h pa arg in (h, pa, e)
      else (h, pa, None)
  | LEAF => processLeafMsgArgs h pa arg
  | _ => (h, pa, None)
  end.

Definition asub_line h pa (arg : bytes) : H * pubArg * option perror := result (processAccountSub h arg) pa.
Definition ausub_line h pa (arg : bytes) : H * pubArg * option perror := (processAccountUnsub h arg, pa, None).
Definition connect_line h pa (arg : bytes) : H * pubArg * option perror := result (processConnect h arg) pa.
Definition info_line h pa (arg : bytes) : H * pubArg * option perror := result (processInfo h arg) pa.
Definition err_line h pa (arg : bytes) : H * pubArg * option perror := (processErr h arg, pa, None).

Definition line (s : parserState) (op : ascii) h pa (arg : bytes) : H * pubArg * option perror :=
  match s with
  | HPUB_ARG => processHeaderPub h pa arg
  | HMSG_ARG => hmsg_line h pa arg
  | PUB_ARG => processPub h pa arg
  | ASUB_ARG => asub_line h pa arg
  | AUSUB_ARG => ausub_line h pa arg
  | SUB_ARG => sub_line op h pa arg
  | UNSUB_ARG => unsub_line op h pa arg
  | CONNECT_ARG => connect_line h pa arg
  | MSG_ARG => msg_line op h pa arg
  | INFO_ARG => info_line h pa arg
  | MINUS_ERR_ARG => err_line h pa arg
  | _ => (h, pa, None)
  end.

(** [overMaxControlLineLimit]: the state after the violation, if there is one. *)
Definition overMaxControlLineLimit h (mcl : Z) (arg : bytes) : option H :=
  let effective := (if bool_decide (kind = CLIENT) then mcl else mcl * 16)%Z in
  if (effective <? Z.of_nat (length arg))%Z then Some (closeConnection (sendErr h "maximum control line exceeded") "MaxControlLineExceeded") else None.

(** A complete message: mapping of its subject, and processing. *)
Definition inbound h pa (msg : bytes) : H * pubArg :=
  let '(h, pa) := if (bool_decide (kind = CLIENT) || bool_decide (kind = LEAF)) && hasMappings h then selectMappedSubject h pa else (h, pa) in
  processInboundMsg h pa msg.

(** What is left of the arguments after a message. *)
Definition drop_args pa : pubArg := mkPubArg None None None None None (deliver pa) None None None None None 0 (-1) false.

(** The check at the first byte of an operation: [None] is the violation, otherwise the state
    and whether CONNECT is still awaited. *)
Definition start_auth (authSet : bool) h (b : ascii) : option (H * bool) :=
  if letter b "C" || negb authSet then Some (h, authSet) else
  if negb (has_srv h) then None else
  match kind with
  | CLIENT => match noAuthUser h with Some h => Some (h, false) | None => None end
  | LEAF => if letter b "I" && needsCompression h then Some (h, authSet) else None
  | _ => None
  end.

(** ** The parser *)

Record client : Type := mkClient {
  state : parserState; op : ascii; as_ : nat; c_drop : nat; pa_ : pubArg; argBuf : option bytes; msgBuf : option bytes; hs : H }.

(** Inside a call: the local variables, and the index of the next byte. *)
Record frame : Type := mkFrame { f_c : client; authSet : bool; lmsg : bool; f_i : nat }.

Inductive outcome : Type := Next (f : frame) | Fail (c : client) (e : perror).
Implicit Types (c : client) (f : frame).

Definition with_hs c h : client := mkClient (state c) (op c) (as_ c) (c_drop c) (pa_ c) (argBuf c) (msgBuf c) h.
Definition with_state c (s : parserState) : client := mkClient s (op c) (as_ c) (c_drop c) (pa_ c) (argBuf c) (msgBuf c) (hs c).
Definition with_drop c (d : nat) : client := mkClient (state c) (op c) (as_ c) d (pa_ c) (argBuf c) (msgBuf c) (hs c).
Definition with_argBuf c (a : option bytes) : client := mkClient (state c) (op c) (as_ c) (c_drop c) (pa_ c) a (msgBuf c) (hs c).
Definition with_msgBuf c (m : option bytes) : client := mkClient (state c) (op c) (as_ c) (c_drop c) (pa_ c) (argBuf c) m (hs c).

(** The next byte, with another client. *)
Definition step_to f c : option outcome := Some (Next (mkFrame c (authSet f) (lmsg f) (S (f_i f)))).

Definition parseErr c : option outcome := Some (Fail (with_hs c (sendErr (hs c) "Unknown Protocol Operation")) ParserError).

(** [buf[a:b]], which panics out of range. *)
Definition sub_slice (buf : bytes) (a b : nat) : option bytes :=
  if (Nat.leb a b && Nat.leb b (length buf))%nat then Some (slice buf a b) else None.

Section step.
Context (buf : bytes) (mcl0 : Z).

Definition keyword_step f (k : keyword) : option outcome :=
  let c := f_c f in
  match k with
  | Goto s => step_to f (with_state (if bool_decide (state c = OP_PLUS_OK) then with_drop c 0 else c) s)
  | Arg s hd => step_to f (mkClient s (op c) (f_i f) (c_drop c) (match hd with Some n => with_hdr (pa_ c) n | None => pa_ c end) (argBuf c) (msgBuf c) (hs c))
  | Stay => step_to f c
  | Ping => step_to f (with_hs (with_state (with_drop c 0) OP_START) (processPing (hs c)))
  | Pong => step_to f (with_hs (with_state (with_drop c 0) OP_START) (processPong (hs c)))
  | Bad => parseErr c
  end.

Definition op_start f (b : ascii) : option outcome :=
  let c := f_c f in
  let c := mkClient (state c) b (as_ c) (c_drop c) (pa_ c) (argBuf c) (msgBuf c) (hs c) in
  match start_auth (authSet f) (hs c) b with
  | None => Some (Fail (with_hs c (authViolation (hs c))) ErrAuthentication)
  | Some (h, a) => keyword_step (mkFrame (with_hs c h) a (lmsg f) (f_i f)) (start_op kind b)
  end.

(** A line is complete: it is checked and processed, and its message or the next line follows. *)
Definition end_of_line f : option outcome :=
  let c := f_c f in
  arg ← match argBuf c with Some a => Some a | None => sub_slice buf (as_ c) (f_i f - c_drop c) end;
  let c := with_argBuf c None in
  match overMaxControlLineLimit (hs c) mcl0 arg with
  | Some h => Some (Fail (with_hs c h) ErrMaxControlLine)
  | None =>
      let '(h, pa, e) := line (state c) (op c) (hs c) (pa_ c) arg in
      let c' s a := mkClient s (op c) a 0 pa (argBuf c) (msgBuf c) h in
      match e with
      | Some e => Some (Fail (mkClient (state c) (op c) (as_ c) (c_drop c) pa (argBuf c) (msgBuf c) h) e)
      | None =>
          let i := f_i f in
          if announces (state c) then
            let l := bool_decide (state c = MSG_ARG) && (bool_decide (kind = ROUTER) || bool_decide (kind = GATEWAY)) && letter (op c) "L" || lmsg f in
            (* as is i+1; the index jumps to as+size-2, and the loop adds one *)
            let jump := (Z.of_nat (S i) + size pa - 1)%Z in
            let always := bool_decide (state c = MSG_ARG) || bool_decide (state c = HMSG_ARG) in
            match always || bool_decide (msgBuf c = None) with
            | true => if (jump <? 0)%Z then None else Some (Next (mkFrame (c' MSG_PAYLOAD (S i)) (authSet f) l (Z.to_nat jump)))
            | false => Some (Next (mkFrame (c' MSG_PAYLOAD (S i)) (authSet f) l (S i)))
            end
          else if bool_decide (state c = CONNECT_ARG) then Some (Next (mkFrame (c' OP_START (as_ c)) (awaitingAuth h) (lmsg f) (S i)))
          else step_to f (c' OP_START (S i))
      end
  end.

Definition arg_step f (b : ascii) : option outcome :=
  let c := f_c f in
  if Ascii.eqb b CR then step_to f (with_drop c 1) else
  if Ascii.eqb b LF then end_of_line f else
  step_to f (match argBuf c with Some a => with_argBuf c (Some (a ++ [b])) | None => c end).

Definition msg_payload f (b : ascii) : option outcome :=
  let c := f_c f in
  match msgBuf c with
  | Some m =>
      let toCopy := (size (pa_ c) - Z.of_nat (length m))%Z in
      let avail := (Z.of_nat (length buf) - Z.of_nat (f_i f))%Z in
      let toCopy := (if avail <? toCopy then avail else toCopy)%Z in
      let '(m, i) := if (0 <? toCopy)%Z then (m ++ slice buf (f_i f) (f_i f + Z.to_nat toCopy), (f_i f + Z.to_nat toCopy)%nat) else (m ++ [b], S (f_i f)) in
      let c := with_msgBuf c (Some m) in
      Some (Next (mkFrame (if (size (pa_ c) <=? Z.of_nat (length m))%Z then with_state c MSG_END_R else c) (authSet f) (lmsg f) i))
  | None => step_to f (if (size (pa_ c) <=? Z.of_nat (f_i f) - Z.of_nat (as_ c) + 1)%Z then with_state c MSG_END_R else c)
  end.

Definition msg_end_r f (b : ascii) : option outcome :=
  let c := f_c f in
  if negb (Ascii.eqb b CR) then parseErr c else
  step_to f (with_state (match msgBuf c with Some m => with_msgBuf c (Some (m ++ [b])) | None => c end) MSG_END_N).

Definition msg_end_n f (b : ascii) : option outcome :=
  let c := f_c f in
  if negb (Ascii.eqb b LF) then parseErr c else
  m ← match msgBuf c with Some m => Some (m ++ [b]) | None => sub_slice buf (as_ c) (S (f_i f)) end;
  let '(h, pa) := inbound (hs c) (pa_ c) m in
  Some (Next (mkFrame (mkClient OP_START (op c) (S (f_i f)) 0 (drop_args pa) None None h) (authSet f) false (S (f_i f)))).

Definition step f (b : ascii) : option outcome :=
  match state (f_c f) with
  | OP_START => op_start f b
  | MSG_PAYLOAD => msg_payload f b
  | MSG_END_R => msg_end_r f b
  | MSG_END_N => msg_end_n f b
  | s => if is_arg s then arg_step f b else keyword_step f (keyword_of s b)
  end.

(** Every step but one, from the end of the line of an empty message, advances the index. *)
Fixpoint loop (fuel : nat) f : option outcome :=
  match fuel with
  | O => None
  | S fuel =>
      match buf !! f_i f with
      | None => Some (Next f)
      | Some b => o ← step f b; match o with Next f => loop fuel f | Fail c e => Some (Fail c e) end
      end
  end.
End step.

(** ** The end of what was read *)

Definition clonePubArg (lmsg : bool) c : client * option perror :=
  let arg := default [] (pa_arg (pa_ c)) in
  let '(h, pa, e) :=
    match kind with
    | ROUTER | GATEWAY =>
        let '(pa, e) :=
          if lmsg then processRoutedOriginClusterMsgArgs kind (hs c) (pa_ c) arg
          else if (hdr (pa_ c) <? 0)%Z then processRoutedMsgArgs kind (hs c) (pa_ c) arg
          else processRoutedHeaderMsgArgs kind (hs c) (pa_ c) arg in (hs c, pa, e)
    | LEAF => if (hdr (pa_ c) <? 0)%Z then processLeafMsgArgs (hs c) (pa_ c) arg else processLeafHeaderMsgArgs (hs c) (pa_ c) arg
    | _ => if (hdr (pa_ c) <? 0)%Z then processPub (hs c) (pa_ c) arg else processHeaderPub (hs c) (pa_ c) arg
    end in
  (mkClient (state c) (op c) (as_ c) (c_drop c) pa (Some arg) (msgBuf c) h, e).

Definition is_msg (s : parserState) : bool := match s with MSG_PAYLOAD | MSG_END_R | MSG_END_N => true | _ => false end.

(** [parse] returns the client and the error. *)
Definition split_arg (buf : bytes) (mcl0 : Z) f : option (client * option perror) :=
  let c := f_c f in
  if negb (is_arg (state c)) then Some (c, None) else
  a ← match argBuf c with Some a => Some a | None => sub_slice buf (as_ c) (f_i f - c_drop c) end;
  let c := with_argBuf c (Some a) in
  match overMaxControlLineLimit (hs c) mcl0 a with
  | Some h => Some (with_hs c h, Some ErrMaxControlLine)
  | None => Some (c, None)
  end.

Definition parser_error c : option (client * option perror) := Some (with_hs c (sendErr (hs c) "Unknown Protocol Operation"), Some ParserError).

Definition split_msg (buf : bytes) (lmsg : bool) c : option (client * option perror) :=
  if negb (is_msg (state c) && bool_decide (msgBuf c = None)) then Some (c, None) else
  let '(c, e) := match argBuf c with None => clonePubArg lmsg c | Some _ => (c, None) end in
  match e with
  | Some _ => parser_error c
  | None =>
      rest ← sub_slice buf (as_ c) (length buf);
      if (4096 - Z.of_nat (length (default [] (argBuf c))) <? size (pa_ c))%Z && (size (pa_ c) + 2 <? Z.of_nat (length rest))%Z
      then parser_error c
      else Some (with_msgBuf c (Some rest), None)
  end.

Definition parse c (buf : bytes) : option (client * option perror) :=
  o ← loop buf (mcl (hs c)) (2 * length buf + 2) (mkFrame c (awaitingAuth (hs c)) false 0);
  match o with
  | Fail c e => Some (c, Some e)
  | Next f =>
      '(c, e) ← split_arg buf (mcl (hs c)) f;
      match e with Some e => Some (c, Some e) | None => split_msg buf (lmsg f) c end
  end.
End parser.
End Parse.
