(* ===== verification/ParserSpec.v ===== *)
(** * Protocol parser: properties

    The parser is the same function of the bytes whatever pieces they are read in: [parse] on
    successive pieces does what a machine does that takes one byte at a time and keeps the line
    and the message so far.  The machine says where this does not hold: it stops with [RUnspec]. *)

From Stdlib Require Import Ascii.
From S2P Require Import Prelude Subject Sublist MsgHeader MsgArgs Parser.
Import Hdr Proto Parse.
Open Scope Z_scope.

Section spec.
Context {H : Type} {HC : Conn H} {HH : Handlers H}.
Context (kind : client_kind).
Implicit Types (h : H) (pa : pubArg) (c : client (H := H)) (f : frame (H := H)).

(** ** One byte at a time *)

Record rstate : Type := mkR { r_state : parserState; r_op : ascii; r_pa : pubArg; r_arg : bytes; r_cr : bool; r_msg : bytes; r_hs : H }.
Inductive rres : Type := ROk (r : rstate) | RErr (h : H) (e : perror) | RUnspec.
Implicit Type r : rstate.

Definition plain (s : parserState) (o : ascii) pa h : rstate := mkR s o pa [] false [] h.

Definition r_keyword r (k : keyword) (b : ascii) : rres :=
  match k with
  | Goto s => ROk (plain s (r_op r) (r_pa r) (r_hs r))
  | Arg s hd => ROk (mkR s (r_op r) (match hd with Some n => with_hdr (r_pa r) n | None => r_pa r end) [b] false [] (r_hs r))
  | Stay => ROk r
  | Ping => ROk (plain OP_START (r_op r) (r_pa r) (processPing (r_hs r)))
  | Pong => ROk (plain OP_START (r_op r) (r_pa r) (processPong (r_hs r)))
  | Bad => RErr (sendErr (r_hs r) "Unknown Protocol Operation") ParserError
  end.

Definition r_start r (b : ascii) : rres :=
  match start_auth kind (awaitingAuth (r_hs r)) (r_hs r) b with
  | None => RErr (authViolation (r_hs r)) ErrAuthentication
  | Some (h, _) => r_keyword (plain OP_START b (r_pa r) h) (start_op kind b) b
  end.

(** Lines that announce a message and are not processed again in the same way when the message
    is read in pieces: a publication from a server, a message from a client, and a publication
    that is answered with an error in pedantic mode. *)
Definition misused (s : parserState) (o : ascii) h pa : bool :=
  match s, kind with
  | (PUB_ARG | HPUB_ARG), (ROUTER | GATEWAY | LEAF) => true
  | (PUB_ARG | HPUB_ARG), _ => Pedantic h && negb (Subj.IsValidLiteralSubject (String.string_of_list_ascii (default [] (pa_subject pa))))
  | HMSG_ARG, (ROUTER | GATEWAY | LEAF) => false
  | MSG_ARG, (ROUTER | GATEWAY) => negb (letter o "R" || letter o "L")
  | MSG_ARG, LEAF => false
  | _, _ => true
  end.

Definition r_line r : rres :=
  match overMaxControlLineLimit kind (r_hs r) (mcl (r_hs r)) (r_arg r) with
  | Some h => RErr h ErrMaxControlLine
  | None =>
      let '(h, pa, e) := line kind (r_state r) (r_op r) (r_hs r) (r_pa r) (r_arg r) in
      match e with
      | Some e => RErr h e
      | None =>
          if announces (r_state r) then
            if misused (r_state r) (r_op r) (r_hs r) pa then RUnspec
            else ROk (plain (if size pa =? 0 then MSG_END_R else MSG_PAYLOAD) (r_op r) pa h)
          else ROk (plain OP_START (r_op r) pa h)
      end
  end.

(** A CR is the first byte of the arguments or ends the line together with the LF that follows. *)
Definition r_argbyte r (b : ascii) : rres :=
  if Ascii.eqb b LF then r_line r else
  if r_cr r then RUnspec else
  if Ascii.eqb b CR then ROk (mkR (r_state r) (r_op r) (r_pa r) (r_arg r) true [] (r_hs r))
  else ROk (mkR (r_state r) (r_op r) (r_pa r) (r_arg r ++ [b]) false [] (r_hs r)).

Definition r_msgbyte r (s : parserState) (b : ascii) : rstate := mkR s (r_op r) (r_pa r) [] false (r_msg r ++ [b]) (r_hs r).

Definition r_step r (b : ascii) : rres :=
  match r_state r with
  | OP_START => r_start r b
  | MSG_PAYLOAD => ROk (r_msgbyte r (if size (r_pa r) <=? Z.of_nat (length (r_msg r ++ [b])) then MSG_END_R else MSG_PAYLOAD) b)
  | MSG_END_R => if Ascii.eqb b CR then ROk (r_msgbyte r MSG_END_N b) else RErr (sendErr (r_hs r) "Unknown Protocol Operation") ParserError
  | MSG_END_N =>
      if Ascii.eqb b LF then let '(h, pa) := inbound kind (r_hs r) (r_pa r) (r_msg r ++ [b]) in ROk (plain OP_START (r_op r) (drop_args pa) h)
      else RErr (sendErr (r_hs r) "Unknown Protocol Operation") ParserError
  | s => if is_arg s then r_argbyte r b else r_keyword r (keyword_of s b) b
  end.

(** The length of an unfinished line is checked at the end. *)
Definition r_end r : rres :=
  if is_arg (r_state r) then
    match overMaxControlLineLimit kind (r_hs r) (mcl (r_hs r)) (r_arg r) with Some h => RErr h ErrMaxControlLine | None => ROk r end
  else ROk r.

Fixpoint r_run r (data : bytes) : rres :=
  match data with
  | [] => r_end r
  | b :: data => match r_step r b with ROk r => r_run r data | x => x end
  end.

(** ** The parser on pieces *)

(** The state that the read loop keeps between calls; it stops at an error. *)
Fixpoint parse_all c (chunks : list bytes) : option (client (H := H) * option perror) :=
  match chunks with
  | [] => Some (c, None)
  | buf :: chunks => '(c, e) ← parse kind c buf; match e with Some e => Some (c, Some e) | None => parse_all c chunks end
  end.

Definition new_client (o : ascii) h : client := mkClient OP_START o 0 0 (mkPubArg None None None None None None None None None None None 0 (-1) false) None None h.

(** The state of the byte machine that the parser's state stands for, between calls. *)
Definition view c : rstate :=
  mkR (state c) (op c) (pa_ c) (if is_arg (state c) then default [] (argBuf c) else []) (is_arg (state c) && Nat.eqb (c_drop c) 1)
    (if is_msg (state c) then default [] (msgBuf c) else []) (hs c).

Definition agrees (x : rres) (y : option (client (H := H) * option perror)) : Prop :=
  match x, y with
  | RUnspec, _ => True
  | ROk r, Some (c, None) => view c = r
  | RErr h e, Some (c, Some e') => hs c = h /\ e' = e
  | _, _ => False
  end.

(** ** Laws of the handlers

    Only CONNECT, and the registration of a user at the first operation, change whether CONNECT
    is awaited, and nothing changes the limit of control lines. *)
Definition keeps (h h' : H) : Prop := awaitingAuth h' = awaitingAuth h /\ mcl h' = mcl h.

Class HandlersLaws : Prop := {
  k_sendErr h s : keeps h (sendErr h s);
  k_user h h' : noAuthUser h = Some h' -> awaitingAuth h' = false /\ mcl h' = mcl h;
  k_mapped h pa : keeps h (selectMappedSubject h pa).1;
  k_inbound h pa m : keeps h (processInboundMsg h pa m).1;
  k_sub h s q i : keeps h (processSub h s q i);
  k_unsub h a : keeps h (processUnsub h a).1;
  k_rsub h a l : keeps h (processRemoteSub h a l).1;
  k_runsub h a l : keeps h (processRemoteUnsub h a l).1;
  k_gsub h a : keeps h (processGatewayRSub h a).1;
  k_gunsub h a : keeps h (processGatewayRUnsub h a).1;
  k_lsub h a : keeps h (processLeafSub h a).1;
  k_lunsub h a : keeps h (processLeafUnsub h a).1;
  k_asub h a : keeps h (processAccountSub h a).1;
  k_aunsub h a : keeps h (processAccountUnsub h a);
  k_connect h a : mcl (processConnect h a).1 = mcl h;
  k_info h a : keeps h (processInfo h a).1;
  k_err h a : keeps h (processErr h a);
  k_ping h : keeps h (processPing h);
  k_pong h : keeps h (processPong h);
}.
Context {HL : HandlersLaws}.

(** ** States *)

Definition plain_state (s : parserState) : bool := negb (is_arg s) && negb (is_msg s).
Definition hdr_before (s : parserState) (n : Z) : Prop := s = PUB_ARG \/ s = MSG_ARG -> n = -1.

Lemma keyword_shape s b : match keyword_of s b with
  | Goto s' => plain_state s' = true
  | Arg s' hd => is_arg s' = true /\ is_msg s' = false /\ forall n, hdr_before s' (match hd with Some m => m | None => n end)
  | _ => True
  end.
Proof.
  unfold hdr_before. destruct s; cbn; unfold kw_letter, kw_blank, kw_arg; repeat case_match; simplify_eq; try done; split_and!; try done; intros ? [?|?]; done.
Qed.

Lemma start_op_shape b : match start_op kind b with Goto s' => plain_state s' = true | Bad => True | _ => False end.
Proof. unfold start_op. repeat case_match; simplify_eq; done. Qed.

(** ** Announcements, and their second reading *)

Lemma check_pub_ok h pa h' pa' : check_pub h pa = (h', pa', None) -> pa' = pa /\ (Pedantic h && negb (Subj.IsValidLiteralSubject (String.string_of_list_ascii (default [] (pa_subject pa)))) = false -> h' = h).
Proof. unfold check_pub. intros E. repeat case_match; simplify_eq; done. Qed.

Lemma processPub_again h pa arg h' pa' : processPub h pa arg = (h', pa', None) ->
  processPub h pa' arg = (h', pa', None) /\ pa_arg pa' = Some arg /\ 0 <= size pa' /\ hdr pa' = hdr pa /\
  (Pedantic h && negb (Subj.IsValidLiteralSubject (String.string_of_list_ascii (default [] (pa_subject pa')))) = false -> h' = h).
Proof.
  unfold processPub. set (x := match length (splitPub arg) with 2%nat => _ | _ => _ end). set (y := match length (splitPub arg) with 2%nat => Some (with_size (with_reply (with_subject (with_arg pa' arg) _) _) _ _) | _ => _ end).
  intros E. assert (x = Some pa' /\ 0 <= size pa' /\ check_pub h pa' = (h', pa', None)) as (Ex&Hs&Hc).
  { destruct x as [p|]; [|discriminate]. destruct (Z.ltb_spec (size p) 0); [discriminate|]. by destruct (check_pub_ok _ _ _ _ E) as [-> _]. }
  assert (y = Some pa' /\ pa_arg pa' = Some arg /\ hdr pa' = hdr pa) as (->&Ha&Hh).
  { unfold x, y in *. destruct (length (splitPub arg)) as [|[|[|[|n]]]]; simplify_eq; destruct pa; done. }
  rewrite (proj2 (Z.ltb_ge _ _)) by done. split_and!; try done. by apply (check_pub_ok _ _ _ _ Hc).
Qed.

Lemma processHeaderPub_again h pa arg h' pa' : processHeaderPub h pa arg = (h', pa', None) ->
  processHeaderPub h pa' arg = (h', pa', None) /\ pa_arg pa' = Some arg /\ 0 <= size pa' /\ 0 <= hdr pa' /\
  (Pedantic h && negb (Subj.IsValidLiteralSubject (String.string_of_list_ascii (default [] (pa_subject pa')))) = false -> h' = h).
Proof.
  unfold processHeaderPub. destruct (headers h); [|discriminate]. cbn [negb].
  set (x := match length (splitPub arg) with 3%nat => _ | _ => _ end).
  match goal with |- _ -> (match ?m with _ => _ end) = _ /\ _ => set (y := m) end.
  intros E. assert (x = Some pa' /\ 0 <= hdr pa' /\ 0 <= size pa' /\ hdr pa' <= size pa' /\ check_pub h pa' = (h', pa', None)) as (Ex&Hp&Hs&Hle&Hc).
  { destruct x as [p|]; [|discriminate]. destruct (Z.ltb_spec (hdr p) 0); [discriminate|]. destruct (Z.ltb_spec (size p) 0); [discriminate|]. destruct (Z.ltb_spec (size p) (hdr p)); [discriminate|]. by destruct (check_pub_ok _ _ _ _ E) as [-> _]. }
  assert (y = Some pa' /\ pa_arg pa' = Some arg) as (->&Ha).
  { unfold x, y in *. destruct (length (splitPub arg)) as [|[|[|[|[|n]]]]]; simplify_eq; destruct pa; done. }
  rewrite !(proj2 (Z.ltb_ge _ _)) by done. split_and!; try done. by apply (check_pub_ok _ _ _ _ Hc).
Qed.

Definition apply_sizes (n : nat) (args : list bytes) pa : pubArg :=
  let l := length args in
  let pa := if Nat.eqb n 2 then with_hdr_size pa (at_ args (l - 2)) (parseSize (at_ args (l - 2))) else pa in
  with_size pa (at_ args (l - 1)) (parseSize (at_ args (l - 1))).

(** What [reply_queues_sizes] sets does not depend on the other fields. *)
Lemma reply_queues_sizes_form pa args k n pa' : reply_queues_sizes pa args k n = inl pa' ->
  exists rp qs, pa' = apply_sizes n args (with_queues (with_reply pa rp) qs) /\
    forall pa2, reply_queues_sizes pa2 args k n = inl (apply_sizes n args (with_queues (with_reply pa2 rp) qs)).
Proof.
  unfold reply_queues_sizes. cbv zeta. destruct (Nat.ltb _ _); [discriminate|]. destruct (Nat.eqb _ (k + n)); [intros [= <-]; by eexists _, _|]. destruct (Nat.eqb _ (k + n + 1)); [intros [= <-]; by eexists _, _|].
  intros E. repeat (case_match; try discriminate E); injection E as <-; eexists _, _; unfold apply_sizes; destruct (Nat.eqb n 2); done.
Qed.

Lemma check_sizes_again n pa : check_sizes pa n = None -> 0 <= size pa /\ (n = 2%nat -> 0 <= hdr pa).
Proof.
  unfold check_sizes. destruct (Nat.eqb_spec n 2) as [->|]; cbn [andb].
  - destruct (Z.ltb_spec (hdr pa) 0); [discriminate|]. destruct (Z.ltb_spec (size pa) 0); [discriminate|]. done.
  - destruct (Z.ltb_spec (size pa) 0); [discriminate|]. done.
Qed.

Lemma check_sizes_same n pa pa' : size pa' = size pa -> hdr pa' = hdr pa -> check_sizes pa' n = check_sizes pa n.
Proof. unfold check_sizes. by intros -> ->. Qed.

Lemma routed_again n h pa arg pa' : routed_args n kind h pa arg = (pa', None) ->
  routed_args n kind h pa' arg = (pa', None) /\ pa_arg pa' = Some arg /\ 0 <= size pa' /\ (n = 2%nat -> 0 <= hdr pa') /\ (n = 1%nat -> hdr pa' = hdr pa).
Proof.
  unfold routed_args. cbv zeta. destruct (reply_queues_sizes (with_arg pa arg) _ 2 n) as [p|[? ?]] eqn:E; [|discriminate]. apply reply_queues_sizes_form in E as (rp&qs&Hp&->).
  destruct (check_sizes p n) eqn:Ec; [discriminate|]. destruct (check_sizes_again _ _ Ec). intros [= <-]. rewrite (check_sizes_same n p), Ec.
  - subst p. unfold apply_sizes. split_and!; try done; [by destruct pa, (Nat.eqb n 2)|by destruct (Nat.eqb n 2)|by intros ->].
  - subst p. unfold apply_sizes. by destruct (Nat.eqb n 2).
  - subst p. unfold apply_sizes. by destruct (Nat.eqb n 2).
Qed.

Lemma origin_again h pa arg pa' : processRoutedOriginClusterMsgArgs kind h pa arg = (pa', None) ->
  processRoutedOriginClusterMsgArgs kind h pa' arg = (pa', None) /\ pa_arg pa' = Some arg /\ 0 <= size pa'.
Proof.
  unfold processRoutedOriginClusterMsgArgs. cbv zeta. destruct (reply_queues_sizes (with_arg pa arg) _ 3 2) as [p|[? ?]] eqn:E; [|discriminate]. apply reply_queues_sizes_form in E as (rp&qs&Hp&->).
  destruct (check_sizes p 2) eqn:Ec; [discriminate|]. destruct (check_sizes_again _ _ Ec). intros [= <-]. rewrite (check_sizes_same 2 p), Ec by (by subst p). by subst p.
Qed.

Lemma leaf_again n h pa arg h' pa' : leaf_args n h pa arg = (h', pa', None) ->
  leaf_args n h pa' arg = (h', pa', None) /\ h' = h /\ pa_arg pa' = Some arg /\ 0 <= size pa' /\ (n = 2%nat -> 0 <= hdr pa') /\ (n = 1%nat -> hdr pa' = hdr pa).
Proof.
  unfold leaf_args. cbv zeta. destruct (reply_queues_sizes (with_arg pa arg) _ 1 n) as [p|[? ?]] eqn:E; [|discriminate]. apply reply_queues_sizes_form in E as (rp&qs&Hp&->).
  destruct (check_sizes p n) eqn:Ec; [discriminate|]. destruct (check_sizes_again _ _ Ec). destruct (over_max_payload h p) eqn:Eo; [discriminate|]. intros [= <- <-].
  set (p2 := apply_sizes n _ _). assert (size p2 = size p /\ (n = 2%nat -> hdr p2 = hdr p)) as [Es Eh] by (subst p p2; unfold apply_sizes; destruct (Nat.eqb_spec n 2); [done|split; [done|lia]]).
  assert (check_sizes p2 n = None) as ->. { rewrite <- Ec. unfold check_sizes. rewrite Es. destruct (Nat.eqb_spec n 2); [by rewrite Eh|done]. }
  assert (over_max_payload h p2 = false) as -> by (rewrite <- Eo; unfold over_max_payload; by rewrite Es).
  subst p p2. unfold apply_sizes. split_and!; try done; [by destruct pa, (Nat.eqb n 2)|by destruct (Nat.eqb n 2)|by intros ->].
Qed.

(** The line that announces a message can be read again: nothing changes. *)
Definition again (lm : bool) h pa (arg : bytes) : Prop :=
  forall c, hs c = h -> pa_ c = pa -> clonePubArg kind lm c = (with_argBuf c (Some arg), None).

Definition server_kind : bool := match kind with ROUTER | GATEWAY | LEAF => true | _ => false end.

Lemma again_pub h pa arg : server_kind = false -> pa_arg pa = Some arg ->
  (if hdr pa <? 0 then processPub h pa arg else processHeaderPub h pa arg) = (h, pa, None) -> again false h pa arg.
Proof. intros Hk Ha E c <- <-. unfold clonePubArg, server_kind in *. rewrite Ha. cbn [default]. unfold id. destruct kind; try discriminate Hk; by rewrite E. Qed.

Lemma again_leaf h pa arg lm : kind = LEAF -> pa_arg pa = Some arg ->
  (if hdr pa <? 0 then processLeafMsgArgs h pa arg else processLeafHeaderMsgArgs h pa arg) = (h, pa, None) -> again lm h pa arg.
Proof. intros Hk Ha E c <- <-. unfold clonePubArg. rewrite Ha, Hk. cbn [default]. unfold id. cbv iota. by rewrite E. Qed.

Lemma again_routed h pa arg (lm : bool) : kind = ROUTER \/ kind = GATEWAY -> pa_arg pa = Some arg ->
  (if lm then processRoutedOriginClusterMsgArgs kind h pa arg else if hdr pa <? 0 then processRoutedMsgArgs kind h pa arg else processRoutedHeaderMsgArgs kind h pa arg) = (pa, None) -> again lm h pa arg.
Proof. intros Hk Ha E c <- <-. unfold clonePubArg. rewrite Ha. cbn [default]. unfold id. destruct Hk as [Hk|Hk]; rewrite Hk in *; by rewrite E. Qed.

Definition lmsg_of (s : parserState) (o : ascii) : bool := bool_decide (s = MSG_ARG) && (bool_decide (kind = ROUTER) || bool_decide (kind = GATEWAY)) && letter o "L".

Lemma announced_pub s o h pa arg h' pa' : s = PUB_ARG \/ s = HPUB_ARG -> hdr_before s (hdr pa) -> line kind s o h pa arg = (h', pa', None) -> misused s o h pa' = false ->
  h' = h /\ 0 <= size pa' /\ again false h pa' arg.
Proof.
  intros Hs Hh Hl Hm. assert (server_kind = false /\ Pedantic h && negb (Subj.IsValidLiteralSubject (String.string_of_list_ascii (default [] (pa_subject pa')))) = false) as [Hk Hp].
  { unfold server_kind, misused in *. destruct Hs as [-> | ->], kind; done. }
  destruct Hs as [-> | ->]; cbn [line] in Hl.
  - destruct (processPub_again _ _ _ _ _ Hl) as (Hag&Ha&Hsz&Hhd&Hh'). rewrite (Hh' Hp) in *. split_and!; try done. apply again_pub; try done. rewrite Hhd, Hh by (by left). done.
  - destruct (processHeaderPub_again _ _ _ _ _ Hl) as (Hag&Ha&Hsz&Hhd&Hh'). rewrite (Hh' Hp) in *. split_and!; try done. apply again_pub; try done. by rewrite (proj2 (Z.ltb_ge _ _)).
Qed.

Lemma announced_msg s o h pa arg h' pa' : s = MSG_ARG \/ s = HMSG_ARG -> hdr_before s (hdr pa) -> line kind s o h pa arg = (h', pa', None) -> misused s o h pa' = false ->
  h' = h /\ 0 <= size pa' /\ again (lmsg_of s o) h pa' arg.
Proof.
  intros Hs Hh Hl Hm. assert (kind = LEAF \/ (kind = ROUTER \/ kind = GATEWAY)) as [Hk|Hk] by (unfold misused in Hm; destruct Hs as [-> | ->], kind; tauto || discriminate).
  - destruct Hs as [-> | ->]; unfold line, msg_line, hmsg_line in Hl; rewrite Hk in Hl; destruct (leaf_again _ _ _ _ _ _ Hl) as (Hag&->&Ha&Hsz&H2&H1); split_and!; try done; apply again_leaf; try done.
    + rewrite H1, Hh by (done || by right). done.
    + rewrite (proj2 (Z.ltb_ge _ _)) by (by apply H2). done.
  - destruct Hs as [-> | ->]; unfold line, msg_line, hmsg_line, misused, lmsg_of in *.
    + assert ((bool_decide (kind = ROUTER) || bool_decide (kind = GATEWAY)) = true) as -> by (destruct Hk as [Hk|Hk]; rewrite Hk; done). rewrite bool_decide_eq_true_2 by done. cbn [andb].
      assert ((if letter o "R" then let '(p, e) := processRoutedMsgArgs kind h pa arg in (h, p, e) else let '(p, e) := processRoutedOriginClusterMsgArgs kind h pa arg in (h, p, e)) = (h', pa', None) /\ letter o "L" = negb (letter o "R")) as [Hl' HLR].
      { destruct Hk as [Hk|Hk]; rewrite Hk in *; (destruct (letter o "R") eqn:ER; [split; [done|]|destruct (letter o "L"); done]); unfold letter in *; cbn; apply orb_true_iff in ER as [E%Ascii.eqb_eq|E%Ascii.eqb_eq]; subst o; done. }
      rewrite HLR. destruct (letter o "R"); cbn [negb].
      * destruct (processRoutedMsgArgs kind h pa arg) as [p e] eqn:E. injection Hl' as <- <- ->. destruct (routed_again _ _ _ _ _ E) as (Hag&Ha&Hsz&_&H1). split_and!; try done. apply again_routed; try done. rewrite H1, Hh by (done || by right). done.
      * destruct (processRoutedOriginClusterMsgArgs kind h pa arg) as [p e] eqn:E. injection Hl' as <- <- ->. destruct (origin_again _ _ _ _ E) as (Hag&Ha&Hsz). split_and!; try done. by apply again_routed.
    + assert ((let '(p, e) := processRoutedHeaderMsgArgs kind h pa arg in (h, p, e)) = (h', pa', None)) as Hl' by (destruct Hk as [Hk|Hk]; rewrite Hk in *; done).
      destruct (processRoutedHeaderMsgArgs kind h pa arg) as [p e] eqn:E. injection Hl' as <- <- ->. destruct (routed_again _ _ _ _ _ E) as (Hag&Ha&Hsz&H2&_). split_and!; try done. apply again_routed; try done.
      rewrite (proj2 (Z.ltb_ge _ _)) by (by apply H2). done.
Qed.

(** ** The handlers keep what the parser has taken a copy of *)

Lemma keeps_refl h : keeps h h.
Proof. done. Qed.

Lemma keeps_trans h1 h2 h3 : keeps h1 h2 -> keeps h2 h3 -> keeps h1 h3.
Proof. intros [? ?] [? ?]. split; congruence. Qed.

Lemma keeps_result (x : H * option string) pa h h' pa' e : keeps h x.1 -> result x pa = (h', pa', e) -> keeps h h'.
Proof. destruct x. unfold result. intros ? [= <- <- <-]. done. Qed.

Lemma check_pub_keeps h pa h' pa' : check_pub h pa = (h', pa', None) -> keeps h h'.
Proof. unfold check_pub. intros E. repeat case_match; simplify_eq; [apply k_sendErr|apply keeps_refl]. Qed.

Lemma parseSub_keeps h arg h' e : parseSub h arg = (h', e) -> keeps h h'.
Proof. unfold parseSub. intros E. repeat case_match; simplify_eq; apply keeps_refl || apply k_sub. Qed.

Create HintDb keepdb.
#[local] Hint Resolve keeps_refl k_unsub k_rsub k_runsub k_gsub k_gunsub k_lsub k_lunsub k_asub k_aunsub k_info k_err k_ping k_pong k_inbound k_mapped k_sendErr : keepdb.

Lemma pub_keeps h pa arg h' pa' : processPub h pa arg = (h', pa', None) -> keeps h h'.
Proof. unfold processPub. intros E. repeat (case_match; simplify_eq); by eapply check_pub_keeps. Qed.

Lemma hpub_keeps h pa arg h' pa' : processHeaderPub h pa arg = (h', pa', None) -> keeps h h'.
Proof. unfold processHeaderPub. intros E. repeat (case_match; simplify_eq); by eapply check_pub_keeps. Qed.

Lemma sub_keeps o h pa arg h' pa' e : sub_line kind o h pa arg = (h', pa', e) -> keeps h h'.
Proof.
  unfold sub_line. destruct kind; try (intros [= <- <- <-]; apply keeps_refl); try (apply keeps_result; auto with keepdb).
  - destruct (parseSub h arg) as [h1 e1] eqn:E. intros [= <- <- <-]. by eapply parseSub_keeps.
  - destruct (letter o "R"); [apply keeps_result; auto with keepdb|]. destruct (letter o "L"); [apply keeps_result; auto with keepdb|]. intros [= <- <- <-]. apply keeps_refl.
Qed.

Lemma unsub_keeps o h pa arg h' pa' e : unsub_line kind o h pa arg = (h', pa', e) -> keeps h h'.
Proof. unfold unsub_line. destruct kind; try (intros [= <- <- <-]; apply keeps_refl); apply keeps_result; auto with keepdb. Qed.

Lemma msg_keeps o h pa arg h' pa' : msg_line kind o h pa arg = (h', pa', None) \/ hmsg_line kind h pa arg = (h', pa', None) -> keeps h h'.
Proof.
  unfold msg_line, hmsg_line. intros [E|E]; repeat (case_match; simplify_eq); try apply keeps_refl; destruct (leaf_again _ _ _ _ _ _ E) as (_&->&_); apply keeps_refl.
Qed.

Lemma line_keeps s o h pa arg h' pa' : line kind s o h pa arg = (h', pa', None) -> mcl h' = mcl h /\ (s <> CONNECT_ARG -> awaitingAuth h' = awaitingAuth h).
Proof.
  intros E. destruct (decide (s = CONNECT_ARG)) as [->|Hs].
  - unfold line, connect_line in E. destruct (processConnect h arg) as [h1 e1] eqn:E1. unfold result in E. injection E as <- <- _. split; [|done]. pose proof (k_connect h arg) as Hc. by rewrite E1 in Hc.
  - enough (keeps h h') as [? ?] by done.
    destruct s; try done; unfold line, asub_line, ausub_line, info_line, err_line in E; try (injection E as <- <-; auto with keepdb; fail); try (eapply keeps_result; [|exact E]; auto with keepdb; fail).
    + by eapply hpub_keeps.
    + apply (msg_keeps o h pa arg h' pa'). by right.
    + by eapply pub_keeps.
    + by eapply sub_keeps.
    + by eapply unsub_keeps.
    + apply (msg_keeps o h pa arg h' pa'). by left.
Qed.

Lemma inbound_keeps h pa m h' pa' : inbound kind h pa m = (h', pa') -> keeps h h'.
Proof.
  unfold inbound. intros E. destruct (_ && _).
  - pose proof (k_mapped h pa) as Hm. destruct (selectMappedSubject h pa) as [h1 p1]. pose proof (k_inbound h1 p1 m) as Hi. rewrite E in Hi. by eapply keeps_trans.
  - pose proof (k_inbound h pa m) as Hi. by rewrite E in Hi.
Qed.

Lemma start_auth_keeps h b h' a : start_auth kind (awaitingAuth h) h b = Some (h', a) -> a = awaitingAuth h' /\ mcl h' = mcl h.
Proof.
  unfold start_auth. intros E. repeat (case_match; simplify_eq); try done. match goal with U : noAuthUser _ = Some _ |- _ => by destruct (k_user _ _ U) as [-> ->] end.
Qed.

(** ** Simulation *)

Section sim.
Context (buf : bytes) (mcl0 : Z).

Record Inv f r : Prop := {
  i_state : state (f_c f) = r_state r;
  i_op : op (f_c f) = r_op r;
  i_pa : pa_ (f_c f) = r_pa r;
  i_hs : hs (f_c f) = r_hs r;
  i_auth : authSet f = awaitingAuth (r_hs r);
  i_mcl : mcl (r_hs r) = mcl0;
  i_arg : is_arg (r_state r) = true ->
    r_msg r = [] /\ msgBuf (f_c f) = None /\ lmsg f = false /\ hdr_before (r_state r) (hdr (r_pa r)) /\ c_drop (f_c f) = (if r_cr r then 1 else 0)%nat /\
    match argBuf (f_c f) with
    | Some a => r_arg r = a
    | None => (as_ (f_c f) + c_drop (f_c f) <= f_i f)%nat /\ (f_i f <= length buf)%nat /\ r_arg r = slice buf (as_ (f_c f)) (f_i f - c_drop (f_c f))
    end;
  i_msg : is_msg (r_state r) = true ->
    r_arg r = [] /\ r_cr r = false /\ c_drop (f_c f) = 0%nat /\ 0 <= size (r_pa r) /\
    match msgBuf (f_c f) with
    | Some m => r_msg r = m /\ (r_state r = MSG_PAYLOAD -> Z.of_nat (length m) < size (r_pa r))
    | None => (as_ (f_c f) <= f_i f)%nat /\ (as_ (f_c f) <= length buf)%nat /\ r_msg r = slice buf (as_ (f_c f)) (f_i f) /\ argBuf (f_c f) = None /\
        (exists arg, again (lmsg f) (r_hs r) (r_pa r) arg) /\ (r_state r <> MSG_PAYLOAD -> (f_i f <= length buf)%nat) /\
        Z.of_nat (f_i f) = Z.of_nat (as_ (f_c f)) + size (r_pa r) + (match r_state r with MSG_PAYLOAD => -1 | MSG_END_R => 0 | _ => 1 end)
    end;
  i_plain : plain_state (r_state r) = true ->
    r = plain (r_state r) (r_op r) (r_pa r) (r_hs r) /\ argBuf (f_c f) = None /\ msgBuf (f_c f) = None /\ c_drop (f_c f) = 0%nat /\ lmsg f = false;
}.

(** A step of the parser at the byte [b], the next one in [buf]. *)
Inductive sim1 f (b : ascii) r : Prop :=
  | sim_next f' r' : step kind buf mcl0 f b = Some (Next f') -> Inv f' r' -> (f_i f < f_i f')%nat ->
      (forall rest, r_run r (b :: drop (S (f_i f)) buf ++ rest) = r_run r' (drop (f_i f') buf ++ rest)) -> sim1 f b r
  | sim_twice f1 f2 r' : step kind buf mcl0 f b = Some (Next f1) -> f_i f1 = f_i f -> step kind buf mcl0 f1 b = Some (Next f2) -> f_i f2 = S (f_i f) -> Inv f2 r' -> r_step r b = ROk r' -> sim1 f b r
  | sim_fail c e : step kind buf mcl0 f b = Some (Fail c e) -> r_step r b = RErr (hs c) e -> sim1 f b r
  | sim_unspec : r_step r b = RUnspec -> sim1 f b r.

Lemma sim_one f b r f' r' : step kind buf mcl0 f b = Some (Next f') -> f_i f' = S (f_i f) -> r_step r b = ROk r' -> Inv f' r' -> sim1 f b r.
Proof. intros Hs Hi Hr HI. apply (sim_next f b r f' r'); [done|done|lia|]. intros rest. cbn [r_run]. by rewrite Hr, Hi. Qed.

Lemma slice_snoc (i j : nat) b : (i <= j)%nat -> buf !! j = Some b -> slice buf i (S j) = slice buf i j ++ [b].
Proof.
  intros Hij Hb. unfold slice. replace (S j - i)%nat with (S (j - i)) by lia. apply take_S_r. rewrite lookup_drop. by replace (i + (j - i))%nat with j by lia.
Qed.

Lemma sub_slice_ok (i j : nat) : (i <= j <= length buf)%nat -> sub_slice buf i j = Some (slice buf i j).
Proof. intros [? ?]. unfold sub_slice. by rewrite (proj2 (Nat.leb_le _ _)), (proj2 (Nat.leb_le _ _)). Qed.

(** *** Keywords *)

Lemma plain_not s : plain_state s = true -> is_arg s = false /\ is_msg s = false.
Proof. unfold plain_state. destruct (is_arg s), (is_msg s); done. Qed.

Lemma Inv_plain c a i s o pa h : state c = s -> op c = o -> pa_ c = pa -> hs c = h -> plain_state s = true -> argBuf c = None -> msgBuf c = None -> c_drop c = 0%nat -> a = awaitingAuth h -> mcl h = mcl0 ->
  Inv (mkFrame c a false i) (plain s o pa h).
Proof. intros ? ? ? ? Hp ? ? ? ? ?. destruct (plain_not s Hp) as [E1 E2]. split; cbn; try done; congruence. Qed.

Lemma keyword_sim f b r k : Inv f r -> plain_state (r_state r) = true -> buf !! f_i f = Some b ->
  match k with
  | Goto s' => plain_state s' = true
  | Arg s' hd => is_arg s' = true /\ is_msg s' = false /\ forall n, hdr_before s' (match hd with Some m => m | None => n end)
  | _ => True
  end ->
  match r_keyword r k b with
  | ROk r' => exists f', keyword_step f k = Some (Next f') /\ f_i f' = S (f_i f) /\ Inv f' r'
  | RErr h e => exists c, keyword_step f k = Some (Fail c e) /\ hs c = h
  | RUnspec => False
  end.
Proof.
  intros HI Hp Hb Hk. pose proof HI as [H1 H2 H3 H4 H5 H6 _ _ H7]. destruct (H7 Hp) as (Hr&Ha&Hm&Hd&Hl). destruct f as [c a l i]. cbn in *. subst l.
  assert (i < length buf)%nat as Hi by (by eapply lookup_lt_Some).
  destruct k as [s|s hd| | | |]; cbn.
  - eexists. split; [reflexivity|]. split; [done|]. apply Inv_plain; try (destruct (bool_decide _); done); cbn; try (by destruct (bool_decide _)); congruence.
  - destruct Hk as (E1&E2&Hh). eexists. split; [reflexivity|]. split; [done|]. split; cbn; try congruence; try (by rewrite ?H3).
    + intros _. split_and!; try done.
      * rewrite <- H3. destruct hd as [n|]; [exact (Hh 0)|exact (Hh (hdr (pa_ c)))].
      * rewrite Ha, Hd, Nat.sub_0_r. split_and!; [lia|lia|]. fold (slice buf i (S i)). rewrite (slice_snoc i i b) by done. unfold slice. by rewrite Nat.sub_diag.
    + unfold plain_state. rewrite E1. done.
  - eexists. split; [reflexivity|]. split; [done|]. rewrite Hr. by apply Inv_plain.
  - pose proof (k_ping (r_hs r)) as [K1 K2]. eexists. split; [reflexivity|]. split; [done|]. apply Inv_plain; cbn; congruence.
  - pose proof (k_pong (r_hs r)) as [K1 K2]. eexists. split; [reflexivity|]. split; [done|]. apply Inv_plain; cbn; congruence.
  - eexists. split; [reflexivity|]. cbn. congruence.
Qed.

Lemma step_plain f b : plain_state (state (f_c f)) = true -> state (f_c f) <> OP_START -> step kind buf mcl0 f b = keyword_step f (keyword_of (state (f_c f)) b).
Proof. unfold step. destruct (state (f_c f)); done. Qed.

Lemma r_step_plain r b : plain_state (r_state r) = true -> r_state r <> OP_START -> r_step r b = r_keyword r (keyword_of (r_state r) b) b.
Proof. unfold r_step. destruct (r_state r); done. Qed.

Lemma start_sim f b r : Inv f r -> r_state r = OP_START -> buf !! f_i f = Some b -> sim1 f b r.
Proof.
  intros HI Hs Hb. pose proof HI as [H1 H2 H3 H4 H5 H6 _ _ H7]. destruct (H7 ltac:(by rewrite Hs)) as (Hr&Ha&Hm&Hd&Hl).
  assert (step kind buf mcl0 f b = op_start kind f b) as Hst by (unfold step; by rewrite H1, Hs). assert (r_step r b = r_start r b) as Hrs by (unfold r_step; by rewrite Hs).
  unfold op_start, r_start in *. cbn [hs] in Hst. rewrite H5, H4 in Hst. destruct (start_auth kind (awaitingAuth (r_hs r)) (r_hs r) b) as [[h a]|] eqn:Eau.
  2:{ eapply sim_fail; [exact Hst|]. rewrite Hrs. cbn. done. }
  destruct (start_auth_keeps _ _ _ _ Eau) as [-> Hmc]. destruct f as [c au l i]. cbn in *. subst l.
  match type of Hst with _ = keyword_step ?F _ => assert (Inv F (plain OP_START b (r_pa r) h)) as HI2 by (apply Inv_plain; cbn; congruence); pose proof (keyword_sim F b (plain OP_START b (r_pa r) h) (start_op kind b) HI2 eq_refl Hb) as Hk end.
  pose proof (start_op_shape b) as Hsh. assert (Hk' := Hk ltac:(destruct (start_op kind b); done)). clear Hk. rewrite <- Hrs in Hk'. destruct (r_step r b) as [r'|h' e|] eqn:Er; [| |done].
  - destruct Hk' as (f'&E&Hi&HI'). eapply sim_one; [by rewrite Hst| |exact Er|done]. done.
  - destruct Hk' as (c'&E&Hh). eapply sim_fail; [by rewrite Hst|]. by rewrite Hh.
Qed.

Lemma plain_sim f b r : Inv f r -> plain_state (r_state r) = true -> buf !! f_i f = Some b -> sim1 f b r.
Proof.
  intros HI Hp Hb. destruct (decide (r_state r = OP_START)) as [Hs|Hs]; [by apply start_sim|]. pose proof (i_state _ _ HI) as H1.
  pose proof (keyword_sim f b r (keyword_of (r_state r) b) HI Hp Hb (keyword_shape _ _)) as Hk. rewrite <- (r_step_plain r b) in Hk by done. pose proof (step_plain f b) as Hst. rewrite H1 in Hst.
  destruct (r_step r b) as [r'|h e|] eqn:Er; [| |done].
  - destruct Hk as (f'&E&Hi&HI'). eapply sim_one; [by rewrite Hst|done|exact Er|done].
  - destruct Hk as (c'&E&Hh). eapply sim_fail; [by rewrite Hst|]. by rewrite Hh.
Qed.

(** *** Arguments *)

Lemma step_arg f b : is_arg (state (f_c f)) = true -> step kind buf mcl0 f b = arg_step kind buf mcl0 f b.
Proof. unfold step. destruct (state (f_c f)); done. Qed.

Lemma r_step_arg r b : is_arg (r_state r) = true -> r_step r b = r_argbyte r b.
Proof. unfold r_step. destruct (r_state r); done. Qed.

Lemma arg_not s : is_arg s = true -> is_msg s = false /\ plain_state s = false.
Proof. destruct s; done. Qed.

Lemma arg_byte_sim f b r : Inv f r -> is_arg (r_state r) = true -> buf !! f_i f = Some b -> b <> LF -> sim1 f b r.
Proof.
  intros HI Hs Hb Hlf. pose proof HI as [H1 H2 H3 H4 H5 H6 H7 _ _]. destruct (H7 Hs) as (Hm&Hmb&Hl&Hh&Hd&Ha). destruct (arg_not _ Hs) as [E1 E2].
  assert (f_i f < length buf)%nat as Hi by (by eapply lookup_lt_Some).
  pose proof (step_arg f b ltac:(by rewrite H1)) as Hst. pose proof (r_step_arg r b Hs) as Hrs. unfold arg_step, r_argbyte in *. destruct (Ascii.eqb_spec b LF) as [|_]; [done|].
  destruct (r_cr r) eqn:Ecr; [by apply sim_unspec|]. destruct (Ascii.eqb_spec b CR) as [->|Hcr].
  - eapply sim_one; [exact Hst|done|exact Hrs|]. split; cbn; try congruence. intros _. split_and!; try done. destruct (argBuf (f_c f)) as [a|]; [done|]. destruct Ha as (Ha1&Ha2&Ha3). rewrite Hd in *.
    rewrite Nat.sub_0_r in *. split_and!; try lia. done.
  - eapply sim_one; [exact Hst|done|exact Hrs|]. split; cbn; try (destruct (argBuf (f_c f)); cbn; congruence); try congruence. intros _. split_and!; try done; try (by destruct (argBuf (f_c f))).
    destruct (argBuf (f_c f)) as [a|] eqn:Eab; cbn; [by rewrite Ha|]. rewrite Eab. destruct Ha as (Ha1&Ha2&Ha3). rewrite Hd, Nat.sub_0_r in *. split_and!; try lia. rewrite Ha3. fold (slice buf (as_ (f_c f)) (S (f_i f))). by rewrite (slice_snoc _ _ b) by (done || lia).
Qed.

(** *** Payload *)

Definition in_msg (s : parserState) (o : ascii) pa h (m : bytes) : rstate := mkR s o pa [] false m h.

Lemma r_run_payload o pa h m p data : Z.of_nat (length m) + Z.of_nat (length p) < size pa ->
  r_run (in_msg MSG_PAYLOAD o pa h m) (p ++ data) = r_run (in_msg MSG_PAYLOAD o pa h (m ++ p)) data.
Proof.
  revert m. induction p as [|b p IH]; intros m Hlt; [by rewrite app_nil_r|]. cbn [length] in Hlt. rewrite <- app_comm_cons. cbn [r_run]. unfold r_step at 1. cbn [r_state in_msg r_pa r_msg].
  rewrite length_app. cbn [length]. rewrite (proj2 (Z.leb_gt _ _)) by lia. unfold r_msgbyte. cbn [r_op r_pa r_msg r_hs in_msg]. fold (in_msg MSG_PAYLOAD o pa h (m ++ [b])). rewrite IH by (rewrite length_app; cbn [length]; lia). by rewrite <- app_assoc.
Qed.

Lemma r_run_full o pa h m p data : p <> [] -> Z.of_nat (length m) + Z.of_nat (length p) = size pa ->
  r_run (in_msg MSG_PAYLOAD o pa h m) (p ++ data) = r_run (in_msg MSG_END_R o pa h (m ++ p)) data.
Proof.
  intros Hp Hs. destruct (exists_last Hp) as (q&b&->). rewrite length_app in Hs. cbn [length] in Hs. rewrite <- app_assoc, r_run_payload by lia. cbn [app r_run]. unfold r_step at 1. cbn [r_state in_msg r_pa r_msg].
  rewrite !length_app. cbn [length]. rewrite (proj2 (Z.leb_le _ _)) by lia. unfold r_msgbyte. cbn [r_op r_pa r_msg r_hs in_msg]. by rewrite <- app_assoc.
Qed.

Lemma cut_slice (i j : nat) : (i <= j)%nat -> drop i buf = slice buf i j ++ drop j buf.
Proof. intros Hij. unfold slice. rewrite <- (take_drop (j - i) (drop i buf)) at 1. rewrite drop_drop. by replace (i + (j - i))%nat with j by lia. Qed.

(** After the announcement, the index jumps to the last byte of the message. *)
Lemma announced_sim f b r pa h arg : Inv f r -> is_arg (r_state r) = true -> announces (r_state r) = true -> buf !! f_i f = Some b ->
  0 <= size pa -> mcl h = mcl0 -> awaitingAuth h = awaitingAuth (r_hs r) -> again (lmsg_of (r_state r) (r_op r)) h pa arg ->
  step kind buf mcl0 f b = Some (Next (mkFrame (mkClient MSG_PAYLOAD (r_op r) (S (f_i f)) 0 pa None None h) (authSet f) (lmsg_of (r_state r) (r_op r)) (Z.to_nat (Z.of_nat (S (f_i f)) + size pa - 1)))) ->
  r_step r b = ROk (plain (if size pa =? 0 then MSG_END_R else MSG_PAYLOAD) (r_op r) pa h) -> sim1 f b r.
Proof.
  intros HI Ha Han Hb Hsz Hmc Hau Hag Hst Hrs. pose proof (i_auth _ _ HI) as H5. assert (f_i f < length buf)%nat as Hi by (by eapply lookup_lt_Some). destruct (Z.eqb_spec (size pa) 0) as [E0|Hne].
  - eapply sim_twice; [exact Hst|cbn; lia|..|exact Hrs].
    + unfold step. cbn [state f_c]. unfold msg_payload. cbn [msgBuf f_c f_i as_ pa_]. rewrite (proj2 (Z.leb_le _ _)) by lia. unfold step_to. cbn [f_i authSet lmsg with_state op as_ c_drop pa_ argBuf msgBuf hs].
      replace (Z.to_nat (Z.of_nat (S (f_i f)) + size pa - 1)) with (f_i f) by lia. reflexivity.
    + reflexivity.
    + split; cbn; try done; [congruence|]. intros _. split_and!; try done; try lia; [|by exists arg]. unfold slice. by rewrite Nat.sub_diag.
  - eapply (sim_next f b r _ (in_msg MSG_PAYLOAD (r_op r) pa h (slice buf (S (f_i f)) (Z.to_nat (Z.of_nat (S (f_i f)) + size pa - 1))))); [exact Hst| |cbn; lia|].
    + split; cbn; try done; [congruence|]. intros _. split_and!; try done; try lia. by exists arg.
    + intros rest. cbn [r_run f_i]. rewrite Hrs. set (j := Z.to_nat (Z.of_nat (S (f_i f)) + size pa - 1)). rewrite (cut_slice (S (f_i f)) j) by lia. rewrite <- app_assoc. apply (r_run_payload (r_op r) pa h []).
      cbn [length]. assert (length (slice buf (S (f_i f)) j) <= j - S (f_i f))%nat by (unfold slice; rewrite length_take; lia). lia.
Qed.

Lemma end_of_line_sim f r : Inv f r -> is_arg (r_state r) = true -> buf !! f_i f = Some LF -> sim1 f LF r.
Proof.
  intros HI Hs Hb. pose proof HI as [H1 H2 H3 H4 H5 H6 H7 _ _]. destruct (H7 Hs) as (Hm&Hmb&Hl&Hh&Hd&Ha). assert (f_i f < length buf)%nat as Hi by (by eapply lookup_lt_Some).
  pose proof (step_arg f LF ltac:(by rewrite H1)) as Hst. pose proof (r_step_arg r LF Hs) as Hrs. unfold arg_step, r_argbyte in *. change (Ascii.eqb LF LF) with true in *. change (Ascii.eqb LF CR) with false in *. cbv iota in Hst, Hrs.
  unfold end_of_line in Hst. assert ((match argBuf (f_c f) with Some a => Some a | None => sub_slice buf (as_ (f_c f)) (f_i f - c_drop (f_c f)) end) = Some (r_arg r)) as Earg.
  { destruct (argBuf (f_c f)) as [a|]; [by rewrite Ha|]. destruct Ha as (?&?&->). apply sub_slice_ok. lia. }
  rewrite Earg in Hst. cbn [mbind option_bind with_argBuf state op as_ c_drop pa_ argBuf msgBuf hs] in Hst. unfold r_line in Hrs. rewrite H6 in Hrs. rewrite H4 in Hst.
  destruct (overMaxControlLineLimit kind (r_hs r) mcl0 (r_arg r)) as [hv|]; [by eapply sim_fail; [exact Hst|rewrite Hrs]|]. rewrite H1, H2, H3 in Hst.
  destruct (line kind (r_state r) (r_op r) (r_hs r) (r_pa r) (r_arg r)) as [[h pa] e] eqn:El. destruct e as [e|]; [by eapply sim_fail; [exact Hst|rewrite Hrs]|]. destruct (line_keeps _ _ _ _ _ _ _ El) as [K1 K2]. rewrite Hmb, Hl in Hst.
  destruct (announces (r_state r)) eqn:Ean.
  - destruct (misused (r_state r) (r_op r) (r_hs r) pa) eqn:Em; [by apply sim_unspec|].
    assert (h = r_hs r /\ 0 <= size pa /\ again (lmsg_of (r_state r) (r_op r)) (r_hs r) pa (r_arg r)) as (->&Hsz&Hag).
    { assert (r_state r = PUB_ARG \/ r_state r = HPUB_ARG \/ r_state r = MSG_ARG \/ r_state r = HMSG_ARG) as [E|[E|E]] by (destruct (r_state r); tauto || discriminate);
        [destruct (announced_pub _ _ _ _ _ _ _ (or_introl E) Hh El Em) as (?&?&?); split_and!; try done; unfold lmsg_of; by rewrite E|destruct (announced_pub _ _ _ _ _ _ _ (or_intror E) Hh El Em) as (?&?&?); split_and!; try done; unfold lmsg_of; by rewrite E|by eapply announced_msg]. }
    eapply (announced_sim f LF r pa (r_hs r) (r_arg r)); try done. rewrite Hst, orb_false_r. rewrite (bool_decide_eq_true_2 (None = None)), orb_true_r by done. rewrite (proj2 (Z.ltb_ge _ _)) by lia. reflexivity.
  - destruct (bool_decide_reflect (r_state r = CONNECT_ARG)) as [E|E].
    + eapply sim_one; [exact Hst|done|exact Hrs|]. apply Inv_plain; try done. congruence.
    + eapply sim_one; [exact Hst|done|exact Hrs|]. rewrite Hl. apply Inv_plain; try done; [|congruence]. rewrite H5. symmetry. by apply K2.
Qed.

(** *** Messages *)

Lemma in_msg_eq r : r_arg r = [] -> r_cr r = false -> r = in_msg (r_state r) (r_op r) (r_pa r) (r_hs r) (r_msg r).
Proof. destruct r. cbn. by intros -> ->. Qed.

Lemma payload_sim f b r : Inv f r -> r_state r = MSG_PAYLOAD -> buf !! f_i f = Some b -> sim1 f b r.
Proof.
  intros HI Hs Hb. pose proof HI as [H1 H2 H3 H4 H5 H6 _ H7 _]. destruct (H7 ltac:(by rewrite Hs)) as (Har&Hcr&Hd&Hsz&Hm). assert (f_i f < length buf)%nat as Hi by (by eapply lookup_lt_Some).
  assert (step kind buf mcl0 f b = msg_payload buf f b) as Hst by (unfold step; by rewrite H1, Hs). pose proof (in_msg_eq r Har Hcr) as Hr. rewrite Hs in Hr. unfold msg_payload in Hst.
  destruct (msgBuf (f_c f)) as [m|] eqn:Em.
  - destruct Hm as [Hm Hlt]. specialize (Hlt Hs). rewrite Hm in Hr. rewrite H3 in Hst. set (k := if Z.of_nat (length buf) - Z.of_nat (f_i f) <? _ then _ else _) in Hst.
    assert (0 < k /\ k <= size (r_pa r) - Z.of_nat (length m) /\ k <= Z.of_nat (length buf) - Z.of_nat (f_i f)) as (Hk0&Hk1&Hk2) by (unfold k; destruct (Z.ltb_spec (Z.of_nat (length buf) - Z.of_nat (f_i f)) (size (r_pa r) - Z.of_nat (length m))); lia).
    rewrite (proj2 (Z.ltb_lt _ _)) in Hst by done. set (j := (f_i f + Z.to_nat k)%nat) in Hst. assert (length (slice buf (f_i f) j) = Z.to_nat k) as Hlen by (unfold slice, j; rewrite length_take, length_drop; lia).
    cbn [pa_ with_msgBuf] in Hst. rewrite H3, length_app, Hlen in Hst.
    assert (Hrun : forall rest, r_run r (b :: drop (S (f_i f)) buf ++ rest) = r_run (in_msg MSG_PAYLOAD (r_op r) (r_pa r) (r_hs r) m) (slice buf (f_i f) j ++ drop j buf ++ rest)).
    { intros rest. rewrite app_comm_cons, <- (drop_S buf b (f_i f)) by done. rewrite (cut_slice (f_i f) j), <- app_assoc by (unfold j; lia). by rewrite Hr at 1. }
    destruct (Z.leb_spec (size (r_pa r)) (Z.of_nat (length m + Z.to_nat k))).
    + eapply (sim_next f b r _ (in_msg MSG_END_R (r_op r) (r_pa r) (r_hs r) (m ++ slice buf (f_i f) j))); [exact Hst| |cbn; unfold j; lia|].
      * by split; cbn.
      * intros rest. rewrite Hrun. cbn [f_i]. apply r_run_full; [intros E; rewrite E in Hlen; cbn in Hlen; lia|lia].
    + eapply (sim_next f b r _ (in_msg MSG_PAYLOAD (r_op r) (r_pa r) (r_hs r) (m ++ slice buf (f_i f) j))); [exact Hst| |cbn; unfold j; lia|].
      * split; cbn; try done; try congruence. intros _. split_and!; try done. intros _. rewrite length_app. unfold j in *. lia.
      * intros rest. rewrite Hrun. cbn [f_i]. apply r_run_payload. lia.
  - destruct Hm as (Ha1&Ha2&Hm&Hab&Hag&_&Hpos). rewrite Hs in Hpos. rewrite H3, (proj2 (Z.leb_le _ _)) in Hst by lia.
    eapply (sim_one f b r _ (in_msg MSG_END_R (r_op r) (r_pa r) (r_hs r) (r_msg r ++ [b]))); [exact Hst|done| |].
    + unfold r_step. rewrite Hs. unfold r_msgbyte. rewrite length_app, Hm. unfold slice. rewrite length_take, length_drop. cbn [length]. rewrite (proj2 (Z.leb_le _ _)) by lia. done.
    + split; cbn; try done. intros _. rewrite Em. split_and!; try done; try lia. rewrite Hm. fold (slice buf (as_ (f_c f)) (S (f_i f))). symmetry. by apply slice_snoc.
Qed.

Lemma end_r_sim f b r : Inv f r -> r_state r = MSG_END_R -> buf !! f_i f = Some b -> sim1 f b r.
Proof.
  intros HI Hs Hb. pose proof HI as [H1 H2 H3 H4 H5 H6 _ H7 _]. destruct (H7 ltac:(by rewrite Hs)) as (Har&Hcr&Hd&Hsz&Hm). assert (f_i f < length buf)%nat as Hi by (by eapply lookup_lt_Some).
  assert (step kind buf mcl0 f b = msg_end_r f b) as Hst by (unfold step; by rewrite H1, Hs). unfold msg_end_r, parseErr in Hst. pose proof (eq_refl (r_step r b)) as Hrs. unfold r_step in Hrs at 2. rewrite Hs in Hrs.
  destruct (Ascii.eqb b CR); cbn [negb] in Hst; [|eapply sim_fail; [exact Hst|]; rewrite Hrs; cbn; by rewrite H4].
  eapply (sim_one f b r _ (in_msg MSG_END_N (r_op r) (r_pa r) (r_hs r) (r_msg r ++ [b]))); [exact Hst|done|exact Hrs|].
  destruct (msgBuf (f_c f)) as [m|] eqn:Em; cbn in *.
  - destruct Hm as [-> _]. split; cbn; try done.
  - destruct Hm as (Ha1&Ha2&Hm&Hab&Hag&_&Hpos). rewrite Hs in Hpos. split; cbn; try done. intros _. rewrite Em. split_and!; try done; try lia. rewrite Hm. fold (slice buf (as_ (f_c f)) (S (f_i f))). symmetry. by apply slice_snoc.
Qed.

Lemma end_n_sim f b r : Inv f r -> r_state r = MSG_END_N -> buf !! f_i f = Some b -> sim1 f b r.
Proof.
  intros HI Hs Hb. pose proof HI as [H1 H2 H3 H4 H5 H6 _ H7 _]. destruct (H7 ltac:(by rewrite Hs)) as (Har&Hcr&Hd&Hsz&Hm). assert (f_i f < length buf)%nat as Hi by (by eapply lookup_lt_Some).
  assert (step kind buf mcl0 f b = msg_end_n kind buf f b) as Hst by (unfold step; by rewrite H1, Hs). unfold msg_end_n, parseErr in Hst. pose proof (eq_refl (r_step r b)) as Hrs. unfold r_step in Hrs at 2. rewrite Hs in Hrs.
  destruct (Ascii.eqb b LF); cbn [negb] in Hst; [|eapply sim_fail; [exact Hst|]; rewrite Hrs; cbn; by rewrite H4].
  assert ((match msgBuf (f_c f) with Some m => Some (m ++ [b]) | None => sub_slice buf (as_ (f_c f)) (S (f_i f)) end) = Some (r_msg r ++ [b])) as Emsg.
  { destruct (msgBuf (f_c f)) as [m|]; [by destruct Hm as [-> _]|]. destruct Hm as (Ha1&Ha2&Hm&_). rewrite sub_slice_ok by lia. f_equal. rewrite Hm. by apply slice_snoc. }
  rewrite Emsg in Hst. cbn [mbind option_bind] in Hst. rewrite H4, H3, H2 in Hst. destruct (inbound kind (r_hs r) (r_pa r) (r_msg r ++ [b])) as [h pa] eqn:Ei. destruct (inbound_keeps _ _ _ _ _ Ei) as [K1 K2].
  eapply sim_one; [exact Hst|done|exact Hrs|]. apply Inv_plain; try done; congruence.
Qed.

Lemma all_sim f b r : Inv f r -> buf !! f_i f = Some b -> sim1 f b r.
Proof.
  intros HI Hb. destruct (plain_state (r_state r)) eqn:Ep; [by apply plain_sim|]. destruct (is_arg (r_state r)) eqn:Ea.
  - destruct (decide (b = LF)) as [->|]; [by apply end_of_line_sim|by apply arg_byte_sim].
  - destruct (r_state r) eqn:Es; try discriminate; [by apply payload_sim|by apply end_r_sim|by apply end_n_sim].
Qed.

(** *** The loop *)

Inductive sim_end (o : option (outcome (H := H))) r (data : bytes) : Prop :=
  | end_next f' r' : o = Some (Next f') -> Inv f' r' -> (length buf <= f_i f')%nat -> (forall rest, r_run r (data ++ rest) = r_run r' rest) -> sim_end o r data
  | end_fail c e : o = Some (Fail c e) -> (forall rest, r_run r (data ++ rest) = RErr (hs c) e) -> sim_end o r data
  | end_unspec : (forall rest, r_run r (data ++ rest) = RUnspec) -> sim_end o r data.

Lemma sim_end_run o r data r' data' : (forall rest, r_run r (data ++ rest) = r_run r' (data' ++ rest)) -> sim_end o r' data' -> sim_end o r data.
Proof.
  intros Hr [f'' r'' H1 H2 H3 H4|c e H1 H2|H1].
  - apply (end_next o r data f'' r''); try done. intros rest. by rewrite Hr.
  - apply (end_fail o r data c e); [done|]. intros rest. by rewrite Hr.
  - apply end_unspec. intros rest. by rewrite Hr.
Qed.

Lemma loop_sim fuel f r : Inv f r -> (2 * (length buf - f_i f) + 2 <= fuel)%nat -> sim_end (loop kind buf mcl0 fuel f) r (drop (f_i f) buf).
Proof.
  revert f r. induction fuel as [fuel IH] using lt_wf_ind. intros f r HI Hf. destruct fuel as [|fuel]; [lia|]. cbn [loop]. destruct (buf !! f_i f) as [b|] eqn:Eb.
  2:{ apply lookup_ge_None in Eb. apply (end_next _ _ _ f r); try done. intros rest. by rewrite drop_ge. }
  assert (f_i f < length buf)%nat as Hi by (by eapply lookup_lt_Some). rewrite (drop_S buf b (f_i f)) by done. destruct (all_sim f b r HI Eb) as [f' r' Hst HI' Hlt Hr|f1 f2 r' Hst Hi1 Hst2 Hi2 HI' Hr|c e Hst Hr|Hr].
  - rewrite Hst. cbn [mbind option_bind]. eapply sim_end_run; [exact Hr|]. apply IH; [lia|done|lia].
  - rewrite Hst. cbn [mbind option_bind]. destruct fuel as [|fuel]; [lia|]. cbn [loop]. rewrite Hi1, Eb, Hst2. cbn [mbind option_bind].
    eapply (sim_end_run _ _ _ r' (drop (f_i f2) buf)); [intros rest; cbn [app r_run]; by rewrite Hr, Hi2|]. apply IH; [lia|done|lia].
  - rewrite Hst. cbn [mbind option_bind]. apply (end_fail _ _ _ c e); [done|]. intros rest. cbn [app r_run]. by rewrite Hr.
  - apply end_unspec. intros rest. cbn [app r_run]. by rewrite Hr.
Qed.
End sim.

(** ** Between the calls *)

(** The state that [parse] leaves: the line or the message so far is in a buffer of its own. *)
Record rested c : Prop := {
  b_arg : is_arg (state c) = true -> exists a, argBuf c = Some a /\ msgBuf c = None /\ hdr_before (state c) (hdr (pa_ c)) /\ (c_drop c <= 1)%nat /\ overMaxControlLineLimit kind (hs c) (mcl (hs c)) a = None;
  b_msg : is_msg (state c) = true -> exists m, msgBuf c = Some m /\ c_drop c = 0%nat /\ 0 <= size (pa_ c) /\ (state c = MSG_PAYLOAD -> Z.of_nat (length m) < size (pa_ c));
  b_plain : plain_state (state c) = true -> argBuf c = None /\ msgBuf c = None /\ c_drop c = 0%nat;
}.

Lemma state_cases s : (is_arg s = true /\ is_msg s = false /\ plain_state s = false) \/ (is_arg s = false /\ is_msg s = true /\ plain_state s = false) \/ (is_arg s = false /\ is_msg s = false /\ plain_state s = true).
Proof. destruct s; cbn; tauto. Qed.

Lemma rested_Inv buf c : rested c -> Inv buf (mcl (hs c)) (mkFrame c (awaitingAuth (hs c)) false 0) (view c).
Proof.
  intros [B1 B2 B3]. unfold view. split; cbn; try done.
  - intros Hs. destruct (B1 Hs) as (a&Ha&Hm&Hh&Hd&_). rewrite Hs, Ha, Hm. destruct (arg_not _ Hs) as [-> _]. split_and!; try done. cbn [andb]. destruct (c_drop c) as [|[|]]; [done|done|lia].
  - intros Hs. destruct (B2 Hs) as (m&Hm&Hd&Hsz&Hlt). rewrite Hs, Hm, Hd, andb_false_r. destruct (state_cases (state c)) as [(?&?&_)|[(->&_&_)|(?&?&_)]]; [congruence| |congruence]. done.
  - intros Hs. destruct (B3 Hs) as (Ha&Hm&Hd). destruct (plain_not _ Hs) as [-> ->]. done.
Qed.

Lemma rested_end c : rested c -> r_run (view c) [] = ROk (view c).
Proof.
  intros [B1 _ _]. cbn [r_run]. unfold r_end. cbn [r_state view r_hs r_arg]. destruct (is_arg (state c)) eqn:Ea; [|done]. destruct (B1 eq_refl) as (a&->&_&_&_&Ho). cbn [default]. unfold id. by rewrite Ho.
Qed.

(** A line that is too long stays so. *)
Lemma too_long r rest hv : is_arg (r_state r) = true -> overMaxControlLineLimit kind (r_hs r) (mcl (r_hs r)) (r_arg r) = Some hv -> r_run r rest = RErr hv ErrMaxControlLine \/ r_run r rest = RUnspec.
Proof.
  revert r. induction rest as [|b rest IH]; intros r Ha Ho; cbn [r_run]; [unfold r_end; rewrite Ha, Ho; by left|].
  rewrite r_step_arg by done. unfold r_argbyte, r_line. destruct (Ascii.eqb b LF); [rewrite Ho; by left|]. destruct (r_cr r); [by right|]. destruct (Ascii.eqb b CR); apply IH; cbn; try done.
  unfold overMaxControlLineLimit in *. destruct (Z.ltb_spec (if bool_decide (kind = CLIENT) then mcl (r_hs r) else mcl (r_hs r) * 16) (Z.of_nat (length (r_arg r)))); [|discriminate]. rewrite (proj2 (Z.ltb_lt _ _)); [done|]. rewrite length_app. lia.
Qed.

(** ** The end of a piece *)

Definition finish (buf : bytes) (mcl0 : Z) f : option (client (H := H) * option perror) :=
  '(c, e) ← split_arg kind buf mcl0 f; match e with Some e => Some (c, Some e) | None => split_msg kind buf (lmsg f) c end.

Lemma finish_arg buf mcl0 f r : Inv buf mcl0 f r -> (length buf <= f_i f)%nat -> is_arg (r_state r) = true ->
  match overMaxControlLineLimit kind (r_hs r) mcl0 (r_arg r) with
  | Some h => exists c, finish buf mcl0 f = Some (c, Some ErrMaxControlLine) /\ hs c = h
  | None => exists c, finish buf mcl0 f = Some (c, None) /\ rested c /\ view c = r
  end.
Proof.
  intros HI Hi Hs. pose proof HI as [H1 H2 H3 H4 H5 H6 H7 _ _]. destruct (H7 Hs) as (Hm&Hmb&Hl&Hh&Hd&Ha). destruct (arg_not _ Hs) as [E1 E2].
  assert ((match argBuf (f_c f) with Some a => Some a | None => sub_slice buf (as_ (f_c f)) (f_i f - c_drop (f_c f)) end) = Some (r_arg r)) as Earg.
  { destruct (argBuf (f_c f)) as [a|]; [by rewrite Ha|]. destruct Ha as (?&?&->). apply sub_slice_ok. lia. }
  unfold finish, split_arg. rewrite H1, Hs. cbn [negb]. rewrite Earg. cbn [mbind option_bind with_argBuf hs]. rewrite H4. destruct (overMaxControlLineLimit kind (r_hs r) mcl0 (r_arg r)) as [h|] eqn:Eo; [by eexists|].
  eexists. split; [unfold split_msg; cbn [mbind option_bind state with_argBuf]; rewrite H1, E1; reflexivity|]. split.
  - split; cbn; rewrite H1; [|congruence|congruence]. intros _. exists (r_arg r). rewrite H3, H4, H6. split_and!; try done. rewrite Hd. destruct (r_cr r); lia.
  - unfold view. cbn. rewrite H1, Hs, E1, Hd, H2, H3, H4. cbn. destruct r as [s o p a cr m h]. cbn in *. subst m. by destruct cr.
Qed.

Lemma finish_msg buf mcl0 f r : Inv buf mcl0 f r -> (length buf <= f_i f)%nat -> is_msg (r_state r) = true ->
  exists c, finish buf mcl0 f = Some (c, None) /\ rested c /\ view c = r.
Proof.
  intros HI Hi Hs. pose proof HI as [H1 H2 H3 H4 H5 H6 _ H7 _]. destruct (H7 Hs) as (Har&Hcr&Hd&Hsz&Hm). assert (is_arg (r_state r) = false /\ plain_state (r_state r) = false) as [E1 E2] by (destruct (state_cases (r_state r)) as [(?&?&?)|[(?&?&?)|(?&?&?)]]; [congruence|done|congruence]).
  assert (Hrest : forall c m, state c = r_state r -> op c = r_op r -> pa_ c = r_pa r -> hs c = r_hs r -> c_drop c = 0%nat -> msgBuf c = Some m -> r_msg r = m -> (r_state r = MSG_PAYLOAD -> Z.of_nat (length m) < size (r_pa r)) -> rested c /\ view c = r).
  { intros c m C1 C2 C3 C4 C5 C6 C7 C8. split.
    - split; rewrite C1; [congruence| |congruence]. intros _. exists m. by rewrite C3.
    - unfold view. rewrite C1, C2, C3, C4, C6, E1, Hs. cbn. destruct r. cbn in *. by subst. }
  unfold finish, split_arg. rewrite H1, E1. cbn [negb mbind option_bind]. unfold split_msg. rewrite H1, Hs. destruct (msgBuf (f_c f)) as [m|] eqn:Em.
  - rewrite bool_decide_eq_false_2 by done. cbn. eexists. split; [reflexivity|]. destruct Hm as [Hm Hlt]. by eapply Hrest.
  - rewrite bool_decide_eq_true_2 by done. cbn [negb andb]. destruct Hm as (Ha1&Ha2&Hm&Hab&(arg&Hag)&Hin&Hpos). rewrite Hab, (Hag (f_c f)) by done. cbn [with_argBuf as_ argBuf pa_]. rewrite sub_slice_ok by lia. cbn [mbind option_bind].
    assert (Hlen : length (slice buf (as_ (f_c f)) (length buf)) = (length buf - as_ (f_c f))%nat) by (unfold slice; rewrite length_take, length_drop; lia).
    rewrite H3, Hlen, (proj2 (Z.ltb_ge (size (r_pa r) + 2) _)) by (destruct (r_state r); lia). rewrite andb_false_r. eexists. split; [reflexivity|]. eapply Hrest; try done; cbn.
    + rewrite Hm. unfold slice. rewrite !take_ge; [done|rewrite length_drop; lia|rewrite length_drop; lia].
    + intros E. rewrite E in Hpos. fold (slice buf (as_ (f_c f)) (length buf)). lia.
Qed.

Lemma finish_plain buf mcl0 f r : Inv buf mcl0 f r -> plain_state (r_state r) = true -> exists c, finish buf mcl0 f = Some (c, None) /\ rested c /\ view c = r.
Proof.
  intros HI Hs. pose proof HI as [H1 H2 H3 H4 H5 H6 _ _ H7]. destruct (H7 Hs) as (Hr&Ha&Hm&Hd&Hl). destruct (plain_not _ Hs) as [E1 E2]. exists (f_c f). split_and!.
  - unfold finish, split_arg, split_msg. rewrite H1, E1. cbn [negb mbind option_bind]. by rewrite ?H1, E2.
  - split; rewrite H1; [congruence|congruence|done].
  - rewrite Hr. unfold view, plain. rewrite H1, H2, H3, H4, E1, E2. done.
Qed.

Lemma parse_sim c buf : rested c ->
  (exists c' r', parse kind c buf = Some (c', None) /\ rested c' /\ view c' = r' /\ forall rest, r_run (view c) (buf ++ rest) = r_run r' rest) \/
  (exists c' e, parse kind c buf = Some (c', Some e) /\ forall rest, r_run (view c) (buf ++ rest) = RErr (hs c') e \/ r_run (view c) (buf ++ rest) = RUnspec) \/
  (forall rest, r_run (view c) (buf ++ rest) = RUnspec).
Proof.
  intros Hb. pose proof (loop_sim buf (mcl (hs c)) (2 * length buf + 2) _ _ (rested_Inv buf c Hb) ltac:(cbn; lia)) as Hl. cbn [f_i] in Hl. rewrite drop_0 in Hl. unfold parse. destruct Hl as [f r Hl HI Hlen Hr|c' e Hl Hr|Hr].
  - rewrite Hl. cbn [mbind option_bind]. fold (finish buf (mcl (hs c)) f). destruct (state_cases (r_state r)) as [(Hs&_&_)|[(_&Hs&_)|(_&_&Hs)]].
    + pose proof (finish_arg _ _ _ _ HI Hlen Hs) as Hf. destruct (overMaxControlLineLimit kind (r_hs r) (mcl (hs c)) (r_arg r)) as [h|] eqn:Eo.
      * destruct Hf as (c'&Hf&Hh). right; left. exists c', ErrMaxControlLine. split; [exact Hf|]. intros rest. rewrite Hr, Hh. apply too_long; [done|]. by rewrite (i_mcl _ _ _ _ HI).
      * destruct Hf as (c'&Hf&Hb'&Hv). left. exists c', r. done.
    + destruct (finish_msg _ _ _ _ HI Hlen Hs) as (c'&Hf&Hb'&Hv). left. exists c', r. done.
    + destruct (finish_plain _ _ _ _ HI Hs) as (c'&Hf&Hb'&Hv). left. exists c', r. done.
  - right; left. rewrite Hl. cbn [mbind option_bind]. exists c', e. split; [done|]. intros rest. left. apply Hr.
  - right; right. exact Hr.
Qed.

Lemma rested_new (o : ascii) h : rested (new_client o h).
Proof. by split. Qed.

Lemma pieces_sim c (chunks : list bytes) : rested c -> agrees (r_run (view c) (concat chunks)) (parse_all c chunks).
Proof.
  revert c. induction chunks as [|buf chunks IH]; intros c Hb; cbn [concat parse_all].
  - rewrite rested_end by done. done.
  - destruct (parse_sim c buf Hb) as [(c'&r'&Hp&Hb'&Hv&Hr)|[(c'&e&Hp&Hr)|Hr]].
    + rewrite Hp, Hr, <- Hv. by apply IH.
    + rewrite Hp. cbn. by destruct (Hr (concat chunks)) as [-> | ->].
    + by rewrite Hr.
Qed.

(** C3. Reading a connection's bytes in pieces, of whatever sizes, is reading them one at a time:
    after any sequence of pieces the parser has called the same handlers with the same lines and
    messages, is in the same state with the same partial line or message, or has failed with the
    same error, as the byte machine on their concatenation, and it has not panicked.  This is for
    bytes on which the machine has an answer: it has none after a CR inside a control line, nor
    after an announcement that a split message would process in another way, of a kind that the
    connection should not send or refused in pedantic mode ([misused]); there the code does
    depend on the pieces ([stray_cr_pieces], [misused_pieces]). *)
Theorem parse_pieces (o : ascii) h (chunks : list bytes) : agrees (r_run (view (new_client o h)) (concat chunks)) (parse_all (new_client o h) chunks).
Proof. apply pieces_sim, rested_new. Qed.
End spec.

(** ** Samples *)

(** A connection that records the calls it gets; CONNECT is awaited first. *)
Record rec_conn : Type := mkConn { awaiting : bool; calls : list (string * list bytes) }.

Definition call (h : rec_conn) (what : string) (args : list bytes) : rec_conn := mkConn (awaiting h) (calls h ++ [(what, args)]).

#[local] Instance rec_is_conn : Conn rec_conn := {
  headers _ := true; mpay _ := 1024; Pedantic _ := false; accName _ := []; sendErr h e := call h "sendErr" [lit e]; closeConnection h e := call h "close" [lit e] }.

#[local] Instance rec_handlers : Handlers rec_conn := {
  mcl _ := 64; awaitingAuth := awaiting; has_srv _ := true; noAuthUser _ := None; needsCompression _ := false; authViolation h := call h "authViolation" [];
  hasMappings _ := false; selectMappedSubject h pa := (h, pa);
  processInboundMsg h pa m := (call h "msg" [default [] (pa_subject pa); default [] (reply pa); m], pa);
  processSub h s q i := call h "sub" [s; default [] q; i];
  processUnsub h a := (call h "unsub" [a], None); processRemoteSub h a l := (call h "rsub" [a], None); processRemoteUnsub h a l := (call h "runsub" [a], None);
  processGatewayRSub h a := (call h "gsub" [a], None); processGatewayRUnsub h a := (call h "gunsub" [a], None); processLeafSub h a := (call h "lsub" [a], None); processLeafUnsub h a := (call h "lunsub" [a], None);
  processAccountSub h a := (call h "asub" [a], None); processAccountUnsub h a := call h "aunsub" [a];
  processConnect h a := (call (mkConn false (calls h)) "connect" [a], None); processInfo h a := (call h "info" [a], None); processErr h a := call h "err" [a];
  processPing h := call h "ping" []; processPong h := call h "pong" [] }.

#[local] Instance rec_laws : HandlersLaws (H := rec_conn).
Proof. split; done. Qed.

Definition sample_pieces : list bytes :=
  [lit "CONN"; lit "ECT {}" ++ CRLF ++ lit "SUB foo"; lit ".* 1" ++ [CR]; [LF] ++ lit "PUB foo.bar re"; lit "ply 5" ++ CRLF ++ lit "he"; lit "llo" ++ [CR]; [LF] ++ lit "PUB x 0" ++ CRLF; CRLF ++ lit "pi"; lit "ng" ++ CRLF ++ lit "SUB a"].

(** The calls made, and the error. *)
Definition outcome_of (x : option (client (H := rec_conn) * option perror)) : option (list (string * list bytes) * option perror) :=
  '(c, e) ← x; Some (calls (hs c), e).

Lemma parse_pieces_witness :
  outcome_of (parse_all CLIENT (new_client " " (mkConn true [])) sample_pieces) =
    Some ([("connect"%string, [lit "{}"]); ("sub"%string, [lit "foo.*"; []; lit "1"]); ("msg"%string, [lit "foo.bar"; lit "reply"; lit "hello" ++ CRLF]); ("msg"%string, [lit "x"; []; CRLF]); ("ping"%string, [])], None) /\
  agrees (r_run CLIENT (view (new_client " " (mkConn true []))) (concat sample_pieces)) (parse_all CLIENT (new_client " " (mkConn true [])) sample_pieces) /\
  match r_run CLIENT (view (new_client " " (mkConn true []))) (concat sample_pieces) with ROk r => r_state r = SUB_ARG /\ r_arg r = lit "a" | _ => False end.
Proof.
  split; [vm_compute; reflexivity|]. split; [exact (parse_pieces CLIENT " " (mkConn true []) sample_pieces)|]. vm_compute. split; reflexivity.
Defined.

(** A CR inside a line: read at once, the last byte of the line is lost; read in two pieces, the
    CR is. *)
Example stray_cr_pieces :
  let data := lit "UNSUB a" ++ [CR] ++ lit "bc" ++ [LF] in
  outcome_of (parse_all CLIENT (new_client " " (mkConn false [])) [data]) = Some ([("unsub"%string, [lit "a" ++ [CR] ++ lit "b"])], None) /\
  outcome_of (parse_all CLIENT (new_client " " (mkConn false [])) [take 7 data; drop 7 data]) = Some ([("unsub"%string, [lit "abc"])], None).
Proof. vm_compute. split; reflexivity. Qed.

(** A publication from a route is accepted when it is read at once, and refused when its message
    comes in another piece; likewise a message with headers from a client. *)
Example misused_pieces :
  let pub := lit "PUB foo 2" ++ CRLF ++ lit "hi" ++ CRLF in
  let hmsg := lit "HMSG foo" ++ CRLF ++ CRLF in
  outcome_of (parse_all ROUTER (new_client " " (mkConn false [])) [pub]) = Some ([("msg"%string, [lit "foo"; []; lit "hi" ++ CRLF])], None) /\
  snd <$> outcome_of (parse_all ROUTER (new_client " " (mkConn false [])) [take 12 pub; drop 12 pub]) = Some (Some ParserError) /\
  outcome_of (parse_all CLIENT (new_client " " (mkConn false [])) [hmsg]) = Some ([("msg"%string, [[]; []; CRLF])], None) /\
  snd <$> outcome_of (parse_all CLIENT (new_client " " (mkConn false [])) [take 10 hmsg; drop 10 hmsg]) = Some (Some ParserError).
Proof. vm_compute. split_and!; reflexivity. Qed.
