(* ===== verification/ProtocolSpec.v ===== *)
(** * Messages between servers

    The writer of protocol lines, the parser and the readers of the arguments together: a message
    that one server writes to a route or a leaf node reaches the other one's handler. *)

From Stdlib Require Import Ascii.
From S2P Require Import Prelude Subject Sublist MsgHeader MsgArgs MsgArgsSpec Parser ParserSpec.
Import Hdr Proto Parse.
Open Scope Z_scope.

Section delivery.
Context {H : Type} {HC : Conn H} {HH : Handlers H} {HL : HandlersLaws (H := H)}.
Implicit Types (h : H) (pa : pubArg).

(** ** The byte machine on the parts of a message *)

Lemma r_run_arg kind s o pa arg h p data : is_arg s = true -> Forall (fun b => b <> CR /\ b <> LF) p ->
  r_run kind (mkR s o pa arg false [] h) (p ++ data) = r_run kind (mkR s o pa (arg ++ p) false [] h) data.
Proof.
  intros Hs. revert arg. induction p as [|b p IH]; intros arg Hp; [by rewrite app_nil_r|]. apply Forall_cons in Hp as [[Hcr Hlf] Hp]. rewrite <- app_comm_cons. cbn [r_run]. rewrite r_step_arg by done. unfold r_argbyte. cbn [r_cr r_state r_op r_pa r_arg r_hs].
  destruct (Ascii.eqb_spec b LF); [done|]. destruct (Ascii.eqb_spec b CR); [done|]. rewrite IH by done. by rewrite <- app_assoc.
Qed.

(** A line without CR, its end, and a message of the announced size. *)
Lemma r_run_message kind s o pa h arg h' pa' m data :
  is_arg s = true -> announces s = true -> arg <> [] -> Forall (fun b => b <> CR /\ b <> LF) arg -> overMaxControlLineLimit kind h (mcl h) arg = None ->
  line kind s o h pa arg = (h', pa', None) -> misused kind s o h pa' = false -> Z.of_nat (length m) = size pa' ->
  r_run kind (mkR s o pa (take 1 arg) false [] h) (drop 1 arg ++ CRLF ++ m ++ CRLF ++ data) =
  (let '(h2, pa2) := inbound kind h' pa' (m ++ CRLF) in r_run kind (plain OP_START o (drop_args pa2) h2) data).
Proof.
  intros Hs Han Hne Hp Ho Hl Hm Hsz. rewrite r_run_arg by (done || by apply Forall_drop). rewrite take_drop. cbn [app CRLF r_run]. rewrite (r_step_arg kind _ CR) by done. unfold r_argbyte. cbn [r_cr r_state r_op r_pa r_arg r_hs].
  change (Ascii.eqb CR LF) with false. change (Ascii.eqb CR CR) with true. cbv iota. rewrite (r_step_arg kind _ LF) by done. unfold r_argbyte. change (Ascii.eqb LF LF) with true. cbv iota. unfold r_line. cbn [r_cr r_state r_op r_pa r_arg r_hs].
  rewrite Ho, Hl, Han, Hm.
  assert (r_run kind (plain (if size pa' =? 0 then MSG_END_R else MSG_PAYLOAD) o pa' h') (m ++ CR :: LF :: data) = r_run kind (in_msg MSG_END_R o pa' h' m) (CR :: LF :: data)) as ->.
  { destruct (Z.eqb_spec (size pa') 0) as [E|E]; [by destruct m; [|cbn [length] in Hsz; lia]|]. apply (r_run_full kind o pa' h' [] m); [by intros ->|done]. }
  cbn [r_run]. unfold r_step at 1. cbn [r_state in_msg]. change (Ascii.eqb CR CR) with true. cbv iota. unfold r_msgbyte. cbn [r_op r_pa r_hs r_msg in_msg]. unfold r_step. cbn [r_state r_hs r_pa r_msg r_op].
  change (Ascii.eqb LF LF) with true. cbv iota. rewrite <- app_assoc. cbn [app]. fold CRLF. by destruct (inbound kind h' pa' (m ++ CRLF)) as [h2 pa2].
Qed.

(** The first word of a line from a server, and the first byte of the arguments. *)
Lemma r_run_keyword kind s o pa h b s' data : plain_state s = true -> s <> OP_START -> keyword_of s b = Goto s' -> r_run kind (plain s o pa h) (b :: data) = r_run kind (plain s' o pa h) data.
Proof. intros Hp Hs Hk. cbn [r_run]. rewrite r_step_plain by done. cbn [r_state plain]. by rewrite Hk. Qed.

Lemma r_run_first kind s o pa h b s' n data : plain_state s = true -> s <> OP_START -> keyword_of s b = Arg s' (Some n) -> r_run kind (plain s o pa h) (b :: data) = r_run kind (mkR s' o (with_hdr pa n) [b] false [] h) data.
Proof. intros Hp Hs Hk. cbn [r_run]. rewrite r_step_plain by done. cbn [r_state plain]. by rewrite Hk. Qed.

Lemma r_run_start kind o0 pa h op s' data : awaitingAuth h = false -> start_op kind op = Goto s' -> r_run kind (plain OP_START o0 pa h) (op :: data) = r_run kind (plain s' op pa h) data.
Proof. intros Ha Hk. cbn [r_run]. unfold r_step. cbn [r_state plain]. unfold r_start, start_auth. cbn [r_hs plain]. rewrite Ha, orb_true_r, Hk. done. Qed.

Lemma r_run_op kind o0 pa h op b data : kind = ROUTER \/ kind = LEAF -> op = "L"%char \/ op = "H"%char \/ (op = "R"%char /\ kind = ROUTER) -> awaitingAuth h = false -> blank b = false ->
  r_run kind (plain OP_START o0 pa h) (op :: lit "MSG " ++ b :: data) =
  (if Ascii.eqb op "H" then r_run kind (mkR HMSG_ARG op (with_hdr pa 0) [b] false [] h) data else r_run kind (mkR MSG_ARG op (with_hdr pa (-1)) [b] false [] h) data).
Proof.
  intros Hk Hop Ha Hb. change (lit "MSG " ++ b :: data) with ("M" :: "S" :: "G" :: " " :: b :: data)%char.
  assert (exists s, start_op kind op = Goto s /\ plain_state s = true /\ s <> OP_START /\ keyword_of s "M" = Goto (if Ascii.eqb op "H" then OP_HM else OP_M)) as (s&E1&E2&E3&E4).
  { destruct Hop as [->|[->|[-> ->]]]; [exists OP_L|exists OP_H|exists OP_R]; split_and!; try done; destruct Hk as [-> | ->]; reflexivity. }
  rewrite (r_run_start kind o0 pa h op s), (r_run_keyword kind s op pa h "M" _) by done. destruct (Ascii.eqb op "H").
  - rewrite (r_run_keyword kind OP_HM op pa h "S" OP_HMS), (r_run_keyword kind OP_HMS op pa h "G" OP_HMSG), (r_run_keyword kind OP_HMSG op pa h " " OP_HMSG_SPC) by done.
    apply (r_run_first kind OP_HMSG_SPC); [done|done|]. unfold keyword_of, kw_hmsg, kw_arg. by rewrite Hb.
  - rewrite (r_run_keyword kind OP_M op pa h "S" OP_MS), (r_run_keyword kind OP_MS op pa h "G" OP_MSG), (r_run_keyword kind OP_MSG op pa h " " OP_MSG_SPC) by done.
    apply (r_run_first kind OP_MSG_SPC); [done|done|]. unfold keyword_of, kw_msg, kw_arg. by rewrite Hb.
Qed.

Definition new_args : pubArg := mkPubArg None None None None None None None None None None None 0 (-1) false.

(** The parser's line is what [read_line] reads. *)
Lemma read_line_line kind h op arg pa' : let hd := if Ascii.eqb op "H" then 0 else -1 in let s := if Ascii.eqb op "H" then HMSG_ARG else MSG_ARG in
  kind = ROUTER \/ kind = LEAF -> op = "L"%char \/ op = "H"%char \/ (op = "R"%char /\ kind = ROUTER) ->
  read_line kind h (with_hdr new_args hd) op arg = (pa', None) -> line kind s op h (with_hdr new_args hd) arg = (h, pa', None) /\ misused kind s op h pa' = false.
Proof.
  intros hd s Hk Hop. assert (Hleaf : forall x : H * pubArg * option perror, (forall h' p, x = (h', p, None) -> h' = h) -> (let '(_, p, e) := x in (p, e)) = (pa', None) -> x = (h, pa', None)).
  { intros [[h' p] e] Hx [= -> ->]. by rewrite (Hx h' pa'). }
  assert (Hl : forall n p0 h' p, leaf_args n h p0 arg = (h', p, None) -> h' = h) by (intros n p0 h' p El; by destruct (leaf_again _ _ _ _ _ _ El) as (_&->&_)).
  destruct Hk as [-> | ->], Hop as [->|[->|[-> E]]]; try discriminate E; intros Hr; (split; [|reflexivity]).
  - change ((let '(p, e) := processRoutedOriginClusterMsgArgs ROUTER h (with_hdr new_args (-1)) arg in (h, p, e)) = (h, pa', None)). change (processRoutedOriginClusterMsgArgs ROUTER h (with_hdr new_args (-1)) arg = (pa', None)) in Hr. by rewrite Hr.
  - change ((let '(p, e) := processRoutedHeaderMsgArgs ROUTER h (with_hdr new_args 0) arg in (h, p, e)) = (h, pa', None)). change (processRoutedHeaderMsgArgs ROUTER h (with_hdr new_args 0) arg = (pa', None)) in Hr. by rewrite Hr.
  - change ((let '(p, e) := processRoutedMsgArgs ROUTER h (with_hdr new_args (-1)) arg in (h, p, e)) = (h, pa', None)). change (processRoutedMsgArgs ROUTER h (with_hdr new_args (-1)) arg = (pa', None)) in Hr. by rewrite Hr.
  - change (leaf_args 1 h (with_hdr new_args (-1)) arg = (h, pa', None)). apply Hleaf; [by apply Hl|exact Hr].
  - change (leaf_args 2 h (with_hdr new_args 0) arg = (h, pa', None)). apply Hleaf; [by apply Hl|exact Hr].
Qed.

(** C6. A message that a server writes on a route or to a leaf node, its line and its payload,
    in whatever pieces the other server reads it: the parser there calls the handler of messages
    once, with the payload and with the subject, reply, queues and sizes (and on a route the
    account) that were sent, and is ready for the next line. *)
Theorem message_delivered sk cl pa subj rply rt acc qs h o m chunks
    (Hsz : sizes_ok pa) (Hk : rt_kind rt = ROUTER \/ rt_kind rt = LEAF) (Hs : tok_ok (line_subject rt subj)) (Ha : tok_ok acc) (Hc : opt_tok cl) (Hr : opt_tok rply)
    (Hq : Forall tok_ok qs) (Hrt : rt_qs rt = write_queues qs) (Han : accName h = rt_accName rt) (Hm : mpay h = -1 \/ size pa <= mpay h) (Hau : awaitingAuth h = false)
    (Hlen : Z.of_nat (length (msgHeaderForRouteOrLeaf sk cl pa subj rply rt acc)) <= mcl h * 16)
    (Hpay : Z.of_nat (length m) = sent_size pa (rt_headers rt) (with_origin sk cl rt))
    (Hch : concat chunks = msgHeaderForRouteOrLeaf sk cl pa subj rply rt acc ++ m ++ CRLF) :
  exists c pa', parse_all (rt_kind rt) (new_client o h) chunks = Some (c, None) /\ state c = OP_START /\ hs c = (inbound (rt_kind rt) h pa' (m ++ CRLF)).1 /\
    pa_subject pa' = Some (line_subject rt subj) /\ reply pa' = nil_none rply /\ queues pa' = nil_none qs /\
    size pa' = Z.of_nat (length m) /\ hdr pa' = sent_hdr pa (rt_headers rt) (with_origin sk cl rt) /\
    (rt_kind rt = ROUTER -> account pa' = Some (acc_of (accName h) acc)).
Proof.
  set (op := line_op sk cl pa rt). set (kind := rt_kind rt) in *.
  destruct (line_roundtrip sk cl pa subj rply rt acc qs h (with_hdr new_args (if Ascii.eqb op "H" then 0 else -1)) Hsz Hk Hs Ha Hc Hr Hq Hrt Han Hm) as (arg&Hl&Hnb&(b&arg'&Earg&Hb)&pa'&Hread&F1&F2&F3&F4&F5&F6). fold op in Hl, Hread. fold kind in Hread, F6.
  assert (Hop : op = "L"%char \/ op = "H"%char \/ (op = "R"%char /\ kind = ROUTER)).
  { unfold op, line_op, kind. destruct (with_origin sk cl rt); [by left|]. destruct (_ && _); [by right; left|]. destruct (bool_decide_reflect (rt_kind rt = ROUTER)); tauto. }
  set (s := if Ascii.eqb op "H" then HMSG_ARG else MSG_ARG). set (p0 := with_hdr new_args (if Ascii.eqb op "H" then 0 else -1)) in *.
  assert (Hline : line kind s op h p0 arg = (h, pa', None) /\ misused kind s op h pa' = false).
  { by apply read_line_line. }
  destruct Hline as [Hline Hmis]. assert (Ho : overMaxControlLineLimit kind h (mcl h) arg = None).
  { unfold overMaxControlLineLimit. rewrite (bool_decide_eq_false_2 (kind = CLIENT)) by (destruct Hk as [-> | ->]; done). rewrite (proj2 (Z.ltb_ge _ _)); [done|]. rewrite Hl in Hlen. cbn [length] in Hlen. rewrite !length_app in Hlen. lia. }
  pose proof (pieces_sim kind (new_client o h) chunks (rested_new kind o h)) as Hag. rewrite Hch, Hl in Hag.
  assert (r_run kind (view (new_client o h)) ((op :: lit "MSG " ++ arg ++ CRLF) ++ m ++ CRLF) = (let '(h2, pa2) := inbound kind h pa' (m ++ CRLF) in ROk (plain OP_START op (drop_args pa2) h2))) as Hrun.
  { rewrite <- app_comm_cons, <- !app_assoc, Earg. rewrite <- app_comm_cons. change (view (new_client o h)) with (plain OP_START o new_args h). rewrite r_run_op by done.
    pose proof (r_run_message kind s op p0 h arg h pa' m [] ltac:(unfold s; by destruct (Ascii.eqb op "H")) ltac:(unfold s; by destruct (Ascii.eqb op "H")) ltac:(by rewrite Earg) Hnb Ho Hline Hmis ltac:(by rewrite F4)) as Hmsg.
    rewrite Earg in Hmsg. cbn [take drop] in Hmsg. rewrite app_nil_r in Hmsg. unfold s, p0 in Hmsg. destruct (Ascii.eqb op "H"); exact Hmsg. }
  rewrite Hrun in Hag. destruct (inbound kind h pa' (m ++ CRLF)) as [h2 pa2] eqn:Ei. unfold agrees in Hag. destruct (parse_all kind (new_client o h) chunks) as [[c [e|]]|]; try done.
  exists c, pa'. rewrite Ei. split_and!; try done; [by apply (f_equal r_state) in Hag|by apply (f_equal r_hs) in Hag|by rewrite F4|]. intros E. by destruct (F6 E).
Qed.
End delivery.

(** ** Witness *)

#[local] Existing Instance rec_is_conn.
#[local] Existing Instance rec_handlers.
#[local] Existing Instance rec_laws.

Definition routed_payload : bytes := lit "NATS/1.0" ++ CRLF ++ CRLF ++ lit "hello".
Definition routed_wire : bytes := msgHeaderForRouteOrLeaf LEAF (lit "hub") sample_pa (lit "foo.bar") (lit "_INBOX.1") sample_target (lit "ACC") ++ routed_payload ++ CRLF.

Lemma message_delivered_witness :
  exists c pa', parse_all ROUTER (new_client " " (mkConn false [])) [take 9 routed_wire; take 41 (drop 9 routed_wire); drop 50 routed_wire] = Some (c, None) /\ state c = OP_START /\
    hs c = (inbound ROUTER (mkConn false []) pa' (routed_payload ++ CRLF)).1 /\
    pa_subject pa' = Some (lit "foo.bar") /\ reply pa' = Some (lit "_INBOX.1") /\ queues pa' = Some [lit "q1"; lit "q2"] /\ size pa' = 17 /\ hdr pa' = 12 /\ (ROUTER = ROUTER -> account pa' = Some (lit "ACC")).
Proof.
  refine (message_delivered LEAF (lit "hub") sample_pa (lit "foo.bar") (lit "_INBOX.1") sample_target (lit "ACC") [lit "q1"; lit "q2"] (mkConn false []) " " routed_payload
    [take 9 routed_wire; take 41 (drop 9 routed_wire); drop 50 routed_wire] _ _ _ _ _ _ _ _ _ _ _ _ _ _).
  - split_and!; [by exists (lit "17")|done|done|]. intros _. by exists (lit "12").
  - by left.
  - by apply tok_check.
  - by apply tok_check.
  - right. by apply tok_check.
  - right. by apply tok_check.
  - repeat (apply Forall_cons; split); [by apply tok_check|by apply tok_check|by apply Forall_nil_2].
  - done.
  - done.
  - right. done.
  - done.
  - vm_compute. discriminate.
  - vm_compute. reflexivity.
  - vm_compute. reflexivity.
Defined.
