(* ===== verification/Delivery.v ===== *)
(** * Delivery of a message to the matching subscriptions (src/server/client.go)

    [processMsgResults] takes the result of a match and hands the message to local plain
    subscriptions, to one member of each queue group, and to routes and leaf nodes.

    What a delivery does is the class [Sender].  The random numbers and the rewriting of the
    client information of a request (JSON) are arguments.  Message tracing is off, and
    the subscriptions of a result have connections.  [dsubj] is built in a scratch array that
    [subj] may come to share, so that a slice here is a value or a length of that array. *)

From stdpp Require Import pretty.
From Stdlib Require Import Ascii.
From S2P Require Import Prelude Subject Sublist MsgHeader MsgArgs SubjectTransform.
Import Hdr Proto.

Module Deliver.
Open Scope Z_scope.

(** ** Connections and subscriptions *)

(** [leaf] has [isSpoke] and [remoteCluster]. *)
Record conn : Type := mkConn { cid : Z; ckind : client_kind; leaf : option (bool * bytes); cheaders : bool; clnoc : bool; caccName : bytes }.

Definition isSpokeLeafNode (c : conn) : bool := bool_decide (ckind c = LEAF) && match leaf c with Some (spoke, _) => spoke | None => false end.
Definition isHubLeafNode (c : conn) : bool := bool_decide (ckind c = LEAF) && match leaf c with Some (spoke, _) => negb spoke | None => false end.
Definition remoteCluster (c : conn) : bytes := match leaf c with Some (_, cluster) => cluster | None => [] end.
Definition isInternalClient (k : client_kind) : bool := match k with SYSTEM | JETSTREAM | ACCOUNT => true | _ => false end.

Record streamImport : Type := mkImport { im_tr : option Xform.subjectTransform; usePub : bool; im_to : bytes }.

Record dsub : Type := mkDsub { sub_conn : conn; im : option streamImport; icb : bool; rsi : bool; queue : option bytes; sid : bytes; sub_origin : bytes }.

(** ** Subjects of replies *)

Definition isServiceReply (reply : bytes) : bool := Nat.ltb 3 (length reply) && bool_decide (take 4 reply = lit "_R_.").
Definition isJSAckSubject (subject : bytes) : bool := Nat.ltb 8 (length subject) && bool_decide (take 8 subject = lit "$JS.ACK.").

(** [_GR_.], two hashes of six characters with their dots. *)
Definition gwSubjectOffset : nat := 19.
Definition isGWRoutedReply (subj : bytes) : bool := Nat.ltb gwSubjectOffset (length subj) && bool_decide (take 5 subj = lit "_GR_.").

Fixpoint ack_loop (i dots : nat) (reply : bytes) : option nat :=
  match reply with
  | [] => None
  | b :: reply =>
      if Ascii.eqb b "." then ack_loop (S i) (S dots) reply
      else if Ascii.eqb b "@" && Nat.leb 8 dots then Some i else ack_loop (S i) dots reply
  end.

(** [None] is -1. *)
Definition jsAckDeliverIdx (reply : bytes) : option nat := if isJSAckSubject reply then ack_loop 0 0 reply else None.
Definition replyHasJSAckSuffix (reply : bytes) : bool := bool_decide (is_Some (jsAckDeliverIdx reply)).

(** ** Headers for clients *)

Definition msgHeader (pa : pubArg) (subj : bytes) (reply : option bytes) (sub : dsub) : bytes :=
  let hasHeader := 0 <? hdr pa in
  let canReceiveHeader := cheaders (sub_conn sub) in
  (if hasHeader && canReceiveHeader then lit "HMSG " else lit "MSG ") ++ subj ++ [" "%char] ++
  (if nonempty (sid sub) then sid sub ++ [" "%char] else []) ++
  match reply with Some r => r ++ [" "%char] | None => [] end ++
  (if hasHeader then
     if canReceiveHeader then default [] (hdb pa) ++ [" "%char] ++ default [] (szb pa) else lit (pretty (size pa - hdr pa))
   else default [] (szb pa)) ++ CRLF.

(** ** Flags *)

Definition pmrCollectQueueNames : Z := 1.
Definition pmrIgnoreEmptyQueueFilter : Z := 2.
Definition pmrAllowSendFromRouteToRoute : Z := 4.
Definition pmrMsgImportedFromService : Z := 8.
Definition pmrLinearDelivery : Z := 16.
Definition flag (flags f : Z) : bool := negb (Z.land flags f =? 0).

(** ** Senders *)

(** The arguments of a call of [deliverMsg], with the publish arguments it reads. *)
Record attempt : Type := mkAttempt { at_pa : pubArg; at_sub : dsub; at_subject : bytes; at_reply : option bytes; at_mh : bytes; at_msg : bytes; at_gwrply : bool }.

Class Sender (W : Type) : Type := deliverMsg : W -> attempt -> W * bool.

(** ** Route targets *)

(** [c.in.rts]: a subscription of the connection, and the queue names. *)
Definition queue_arg (sub : dsub) : bytes := match queue sub with Some q => q ++ [" "%char] | None => [] end.

Fixpoint addSubToRouteTargets (rts : list (dsub * bytes)) (sub : dsub) : list (dsub * bytes) :=
  match rts with
  | [] => [(sub, queue_arg sub)]
  | (s, qs) :: rts => if cid (sub_conn s) =? cid (sub_conn sub) then (s, qs ++ queue_arg sub) :: rts else (s, qs) :: addSubToRouteTargets rts sub
  end.

(** The subject of a leaf node's shadow subscription; [None] is a panic. *)
Definition shadow_subject (sub : dsub) (subj : bytes) : option bytes :=
  match im sub with
  | None => Some subj
  | Some i =>
      match im_tr i with
      | Some tr => to ← Xform.TransformSubject tr (fun _ => 0) (String.string_of_list_ascii subj); Some (lit to)
      | None => Some (if usePub i then subj else im_to i)
      end
  end.

Definition target_of (sub : dsub) (qs subj : bytes) : option routeTarget :=
  let c := sub_conn sub in
  s ← (if bool_decide (ckind c = ROUTER) then Some subj else shadow_subject sub subj);
  Some (mkTarget (ckind c) (cheaders c) (clnoc c) (caccName c) (fun _ => s) qs).

(** ** Slices that may share the scratch array *)

Inductive slice : Type := Own (b : bytes) | Scratch (n : nat).

Definition slice_len (s : slice) : nat := match s with Own b => length b | Scratch n => n end.
Definition read (scratch : bytes) (s : slice) : bytes := match s with Own b => b | Scratch n => take n scratch end.

(** [append(_dsubj[:0], to...)]: a longer text than the array gets an array of its own. *)
Definition append_scratch (scratch to : bytes) : bytes * slice :=
  if Nat.leb (length to) 128 then (to ++ drop (length to) scratch, Scratch (length to)) else (scratch, Own to).

(** ** The loops *)

(** The variables of [processMsgResults]. *)
Record vars (W : Type) : Type := mkVars {
  world : W; rts : list (dsub * bytes); didDeliver : bool; subj : slice; scratch : bytes; dlvr : slice; queues_ : list (option bytes);
  dlvMsgs : Z; dlvRouteMsgs : Z; dlvLeafMsgs : Z; dlvExtraSize : Z; rnd_at : nat }.
Arguments mkVars {W}.
Arguments world {W}.
Arguments rts {W}.
Arguments didDeliver {W}.
Arguments subj {W}.
Arguments scratch {W}.
Arguments dlvr {W}.
Arguments queues_ {W}.
Arguments dlvMsgs {W}.
Arguments dlvRouteMsgs {W}.
Arguments dlvLeafMsgs {W}.
Arguments dlvExtraSize {W}.
Arguments rnd_at {W}.

Section deliver.
Context {W : Type} {HS : Sender W}.
Implicit Type v : vars W.

(** The publishing connection with its publish arguments, and the arguments of the call. *)
Context (c : conn) (pa : pubArg) (mqtt : bool) (rnd : nat -> Z) (clientInfo : bytes -> option bytes).
Context (accName_ msg subject : bytes) (rply : option bytes) (flags : Z).

Definition with_target v (sub : dsub) : vars W :=
  mkVars (world v) (addSubToRouteTargets (rts v) sub) (didDeliver v) (subj v) (scratch v) (dlvr v) (queues_ v) (dlvMsgs v) (dlvRouteMsgs v) (dlvLeafMsgs v) (dlvExtraSize v) (rnd_at v).
Definition with_subj v (s d : slice) (sc : bytes) : vars W :=
  mkVars (world v) (rts v) (didDeliver v) s sc d (queues_ v) (dlvMsgs v) (dlvRouteMsgs v) (dlvLeafMsgs v) (dlvExtraSize v) (rnd_at v).
Definition with_queue v (q : option bytes) : vars W :=
  mkVars (world v) (rts v) (didDeliver v) (subj v) (scratch v) (dlvr v) (queues_ v ++ (if flag flags pmrCollectQueueNames then [q] else [])) (dlvMsgs v) (dlvRouteMsgs v) (dlvLeafMsgs v) (dlvExtraSize v) (rnd_at v).
Definition with_rnd v (n : nat) : vars W :=
  mkVars (world v) (rts v) (didDeliver v) (subj v) (scratch v) (dlvr v) (queues_ v) (dlvMsgs v) (dlvRouteMsgs v) (dlvLeafMsgs v) (dlvExtraSize v) n.
Definition with_rts v (l : list (dsub * bytes)) : vars W :=
  mkVars (world v) l (didDeliver v) (subj v) (scratch v) (dlvr v) (queues_ v) (dlvMsgs v) (dlvRouteMsgs v) (dlvLeafMsgs v) (dlvExtraSize v) (rnd_at v).

(** A call of [deliverMsg], with the accounting of its success. *)
Definition send v (a : attempt) (extra : Z) : vars W * bool :=
  let '(w, ok) := deliverMsg (world v) a in
  let counted (b : bool) : Z := if ok && negb (icb (at_sub a)) && b then 1 else 0 in
  let k := ckind (sub_conn (at_sub a)) in
  (mkVars w (rts v) (ok || didDeliver v) (subj v) (scratch v) (dlvr v) (queues_ v) (dlvMsgs v + counted true)
     (dlvRouteMsgs v + counted (bool_decide (k = ROUTER))) (dlvLeafMsgs v + counted (bool_decide (k = LEAF))) (dlvExtraSize v + counted true * extra) (rnd_at v), ok).

(** The subject of the header for a subscription with an import; [remapped] is set when the
    reply carries the delivery subject. *)
Definition import_subject (remapped : bool) v (i : streamImport) : option (vars W * slice) :=
  to ← match im_tr i with
       | Some tr => to ← Xform.TransformSubject tr (fun _ => 0) (String.string_of_list_ascii subject); Some (lit to)
       | None => Some (if usePub i then read (scratch v) (subj v) else im_to i)
       end;
  let '(sc, dsubj) := append_scratch (scratch v) to in
  let d := if remapped && (bool_decide (ckind c = GATEWAY) || bool_decide (ckind c = ROUTER) || bool_decide (ckind c = LEAF)) then subj v else dlvr v in
  Some (if Nat.ltb 0 (slice_len d) then (with_subj v dsubj d sc, subj v) else (with_subj v (subj v) d sc, dsubj)).

(** [creply] and whether the reply is a gateway reply. *)
Definition gw_reply : bool := isGWRoutedReply (default [] rply).
Definition creply0 : option bytes := if gw_reply then drop gwSubjectOffset <$> rply else rply.

(** The subject and reply of a JetStream acknowledgement with a delivery subject. *)
Definition ack_remap : option (bytes * bytes) :=
  r ← creply0;
  if nonempty r && negb (bool_decide (ckind c = CLIENT)) && negb (isInternalClient (ckind c)) then
    li ← jsAckDeliverIdx r; if Z.of_nat li <? Z.of_nat (length r) - 1 then Some (drop (li + 1) r, take li r) else None
  else None.

Definition remapped : bool := bool_decide (is_Some ack_remap).
Definition creply : option bytes := match ack_remap with Some (_, r) => Some r | None => creply0 end.

(** A delivery to a local subscription: [None] for the import of a service message, which is
    skipped.  [plain] says in which loop it is. *)
Definition deliver_local (plain : bool) v (sub : dsub) : option (option (vars W * bool)) :=
  let go v dsubj :=
    let d := read (scratch v) (if plain && icb sub && rsi sub then Own subject else dsubj) in
    send v (mkAttempt pa sub (if plain then d else subject) creply (msgHeader pa d creply sub) msg gw_reply) 0 in
  match im sub with
  | None => Some (Some (go v (subj v)))
  | Some i =>
      if flag flags pmrMsgImportedFromService then Some None else
      '(v, dsubj) ← import_subject remapped v i; Some (Some (go v dsubj))
  end.

Definition linear : bool := flag flags pmrLinearDelivery.

(** The loop over the plain subscriptions; [true] is the return of a linear delivery. *)
Fixpoint plain_loop (psubs : list dsub) v : option (vars W * bool) :=
  match psubs with
  | [] => Some (v, false)
  | sub :: psubs =>
      match ckind (sub_conn sub) with
      | ROUTER => plain_loop psubs (if (negb (bool_decide (ckind c = ROUTER)) && negb (isSpokeLeafNode c)) || flag flags pmrAllowSendFromRouteToRoute then with_target v sub else v)
      | GATEWAY => plain_loop psubs v
      | LEAF =>
          plain_loop psubs (if negb (cid c =? cid (sub_conn sub)) && (negb (bool_decide (ckind c = ROUTER)) || isHubLeafNode (sub_conn sub) || isServiceReply (default [] (pa_subject pa))) then with_target v sub else v)
      | _ =>
          match deliver_local true v sub with
          | None => None
          | Some None => plain_loop psubs v
          | Some (Some (v, _)) => if linear && didDeliver v then Some (v, true) else plain_loop psubs v
          end
      end
  end.

Definition leafOrigin : bytes :=
  match ckind c with ROUTER => default [] (origin pa) | LEAF => remoteCluster c | _ => [] end.

Definition from_origin (cluster : bytes) : bool := nonempty leafOrigin && bool_decide (leafOrigin = cluster).

(** From a route: the local members, and the remote one to fall back to. *)
Fixpoint prefer_local (qsubs : list dsub) (rsub : option dsub) (n : nat) : list dsub * option dsub * nat :=
  match qsubs with
  | [] => ([], rsub, n)
  | sub :: qsubs =>
      match ckind (sub_conn sub) with
      | LEAF =>
          if from_origin (remoteCluster (sub_conn sub)) then prefer_local qsubs rsub n else
          match rsub with
          | None => prefer_local qsubs (Some sub) n
          | Some r => if bool_decide (ckind (sub_conn r) = ROUTER) then prefer_local qsubs (Some sub) n
                      else prefer_local qsubs (if rnd n mod 2 =? 1 then Some sub else rsub) (S n)
          end
      | ROUTER => prefer_local qsubs (match rsub with None => Some sub | Some _ => rsub end) n
      | _ => let '(ql, rsub, n) := prefer_local qsubs rsub n in (sub :: ql, rsub, n)
      end
  end.

(** The members from a random one on, until one takes the message. *)
Fixpoint queue_loop (order : list dsub) (rsub : option dsub) v : option (vars W * option dsub) :=
  match order with
  | [] => Some (v, rsub)
  | sub :: order =>
      let dst := ckind (sub_conn sub) in
      if isSpokeLeafNode c && bool_decide (dst = ROUTER) then queue_loop order rsub v else
      if bool_decide (dst = ROUTER) || bool_decide (dst = LEAF) then
        if (bool_decide (ckind c = LEAF) || bool_decide (ckind c = CLIENT)) && bool_decide (dst = LEAF) then
          if bool_decide (ckind c = LEAF) && from_origin (remoteCluster (sub_conn sub)) then queue_loop order rsub v
          else queue_loop order (match rsub with None => Some sub | Some _ => rsub end) v
        else if nonempty (sub_origin sub) then
          queue_loop order (match rsub with None => if from_origin (sub_origin sub) then None else Some sub | Some _ => rsub end) v
        else Some (v, Some sub)
      else
        match deliver_local false v sub with
        | None => None
        | Some None => queue_loop order rsub v
        | Some (Some (v, true)) => Some (with_queue v (queue sub), None)
        | Some (Some (v, false)) => queue_loop order rsub v
        end
  end.

Definition rotate (n : nat) (l : list dsub) : list dsub := drop n l ++ take n l.

Definition queue_group (qsubs : list dsub) v : option (vars W) :=
  let '(ql, rsub, n) := if bool_decide (ckind c = ROUTER) then prefer_local qsubs None (rnd_at v) else (qsubs, None, rnd_at v) in
  let '(sindex, n) := if Nat.ltb 1 (length ql) then (Z.to_nat (rnd n mod Z.of_nat (length ql)), S n) else (O, n) in
  '(v, rsub) ← queue_loop (rotate sindex ql) rsub (with_rnd v n);
  Some (match rsub with Some s => with_queue (with_target v s) (queue s) | None => v end).

(** The filter of queue names that a route sends along. *)
Definition queue_wanted (qsubs : list dsub) : bool :=
  match queues pa, qsubs with
  | Some qf, s :: _ => existsb (fun qn => bool_decide (qn = default [] (queue s))) qf
  | _, _ => true
  end.

Fixpoint queue_groups (qs : list (list dsub)) v : option (vars W) :=
  match qs with
  | [] => Some v
  | qsubs :: qs => if queue_wanted qsubs then v ← queue_group qsubs v; queue_groups qs v else queue_groups qs v
  end.

(** ** Routes and leaf nodes *)

Definition ClientInfoHdr : bytes := lit "Nats-Request-Info".

Definition with_sizes (nhdr nsize : Z) : pubArg := with_size (with_hdr_size pa (lit (pretty nhdr)) nhdr) (lit (pretty nsize)) nsize.

(** The message, the publish arguments it has then, [pa] if it is not changed. *)
Definition checkLeafClientInfoHeader : bytes * pubArg :=
  if (hdr pa <? 0) || (Z.of_nat (length msg) <? hdr pa) then (msg, pa) else
  match sliceHeader ClientInfoHdr (take (Z.to_nat (hdr pa)) msg) with
  | Some (b :: cir) =>
      match clientInfo (b :: cir) with
      | Some v => let '(m, nhdr, nsize) := client_setHeader mqtt (hdr pa) ClientInfoHdr v msg in (m, with_sizes nhdr nsize)
      | None => (msg, pa)
      end
  | _ => (msg, pa)
  end.

Definition route_reply v : option bytes :=
  match rply with
  | Some r => Some (if Nat.ltb 0 (slice_len (dlvr v)) && nonempty r && negb remapped && negb (replyHasJSAckSuffix r) then r ++ ["@"%char] ++ read (scratch v) (dlvr v) else r)
  | None => None
  end.

Definition send_target (reply : option bytes) v (t : dsub * bytes) : option (vars W) :=
  let '(sub, qs) := t in
  let isleaf := bool_decide (ckind (sub_conn sub) = LEAF) in
  if isleaf && from_origin (remoteCluster (sub_conn sub)) then Some v else
  let '(dmsg, dpa) := if isleaf && nonempty (default [] (Proto.reply pa)) && (0 <=? hdr pa) then checkLeafClientInfoHeader else (msg, pa) in
  rt ← target_of sub qs subject;
  let mh := msgHeaderForRouteOrLeaf (ckind c) (remoteCluster c) dpa subject (default [] reply) rt accName_ in
  Some (send v (mkAttempt dpa sub subject reply mh dmsg false) (Z.of_nat (length dmsg) - Z.of_nat (length msg))).1.

Fixpoint send_targets (reply : option bytes) (l : list (dsub * bytes)) v : option (vars W) :=
  match l with
  | [] => Some v
  | t :: l => v ← send_target reply v t; send_targets reply l v
  end.

(** ** Statistics *)

Record dstats : Type := mkDstats { outMsgs : Z; outBytes : Z; rtMsgs : Z; rtBytes : Z; lnMsgs : Z; lnBytes : Z }.

(** What is added to the statistics of the account; the first two go to the server as well. *)
Definition updateStats v : dstats :=
  if dlvMsgs v =? 0 then mkDstats 0 0 0 0 0 0 else
  let total n := n * Z.of_nat (length msg) + dlvExtraSize v - (if mqtt then 0 else n * 2) in
  mkDstats (dlvMsgs v) (total (dlvMsgs v))
    (dlvRouteMsgs v) (if 0 <? dlvRouteMsgs v then total (dlvRouteMsgs v) else 0)
    (dlvLeafMsgs v) (if 0 <? dlvLeafMsgs v then total (dlvLeafMsgs v) else 0).

(** ** The whole *)

Definition vars0 (w : W) (deliver : bytes) (n : nat) : vars W :=
  let s := match ack_remap with Some (s, _) => Own s | None => if nonempty deliver then Own deliver else Own subject end in
  mkVars w [] false s (replicate 128 "000"%char) (Own deliver) [] 0 0 0 0 n.

(** The world, whether the message was delivered, the queue names and the statistics. *)
Definition result v : W * bool * list (option bytes) * dstats := (world v, didDeliver v, queues_ v, updateStats v).

Definition skip_queues : bool :=
  (bool_decide (ckind c = LEAF) || bool_decide (ckind c = ROUTER) || bool_decide (ckind c = GATEWAY)) && negb (nonempty (default [] (queues pa))) && negb (flag flags pmrIgnoreEmptyQueueFilter).

Definition processMsgResults (w : W) (n : nat) (psubs : list dsub) (qsubs : list (list dsub)) (deliver : bytes) : option (W * bool * list (option bytes) * dstats) :=
  '(v, done) ← plain_loop psubs (vars0 w deliver n);
  if (done : bool) then Some (result v) else
  v ← (if skip_queues then Some v else queue_groups qsubs v);
  if negb skip_queues && linear && didDeliver v then Some (result v) else
  v ← send_targets (route_reply v) (rts v) v;
  Some (result v).

End deliver.
End Deliver.
