(* ===== verification/DeliverySpec.v ===== *)
(** * Delivery of a message: properties

    The deliveries of [processMsgResults] are a trace of attempts with their outcomes, in three
    parts: plain subscriptions, queue groups, and routes and leaf nodes. *)

From stdpp Require Import pretty.
From Stdlib Require Import Ascii.
From S2P Require Import Prelude Subject Sublist MsgHeader MsgArgs GoStrings SubjectTransform SubjectTransformSpec Delivery.
Import Hdr Proto Deliver.
Open Scope list_scope.
Open Scope Z_scope.

Notation trace := (list (attempt * bool)).
Notation tried tr := (at_sub <$> (fst <$> (tr : trace))).
Notation accepted tr := (existsb snd (tr : trace)).

Section delivery.
Context {W : Type} {HS : Sender W}.

(** The attempts of a trace are made one after the other. *)
Inductive sends : W -> trace -> W -> Prop :=
  | sends_nil w : sends w [] w
  | sends_cons w a w1 ok tr w2 : deliverMsg w a = (w1, ok) -> sends w1 tr w2 -> sends w ((a, ok) :: tr) w2.

Lemma sends_app w tr1 w1 tr2 w2 : sends w tr1 w1 -> sends w1 tr2 w2 -> sends w (tr1 ++ tr2) w2.
Proof. induction 1; [done|]. intros. econstructor; [done|by auto]. Qed.

Lemma sends_one w a w1 ok : deliverMsg w a = (w1, ok) -> sends w [(a, ok)] w1.
Proof. intros H. econstructor; [exact H|constructor]. Qed.

Context (c : conn) (pa : pubArg) (mqtt : bool) (rnd : nat -> Z) (clientInfo : bytes -> option bytes).
Context (accName_ msg subject : bytes) (rply : option bytes) (flags : Z).
Implicit Type v : vars W.

(** ** What the code may ask of a subscription *)

(** The transform of an import is a strict one. *)
Definition import_ok (sub : dsub) : Prop :=
  match im sub with
  | Some i => match im_tr i with Some tr => exists src dest, Xform.NewSubjectTransformStrict src dest = inr (Some tr) | None => True end
  | None => True
  end.

Definition skipped (sub : dsub) : bool := bool_decide (is_Some (im sub)) && flag flags pmrMsgImportedFromService.

Definition plain_local (sub : dsub) : bool := match ckind (sub_conn sub) with ROUTER | GATEWAY | LEAF => false | _ => negb (skipped sub) end.

Definition plain_remote (sub : dsub) : bool :=
  match ckind (sub_conn sub) with
  | ROUTER => (negb (bool_decide (ckind c = ROUTER)) && negb (isSpokeLeafNode c)) || flag flags pmrAllowSendFromRouteToRoute
  | LEAF => negb (cid c =? cid (sub_conn sub)) && (negb (bool_decide (ckind c = ROUTER)) || isHubLeafNode (sub_conn sub) || isServiceReply (default [] (pa_subject pa)))
  | _ => false
  end.

Definition is_remote (sub : dsub) : bool := bool_decide (ckind (sub_conn sub) = ROUTER) || bool_decide (ckind (sub_conn sub) = LEAF).

Definition queue_local (sub : dsub) : bool := negb (is_remote sub) && negb (skipped sub).

(** A remote member of a queue group that may be asked: not the leaf cluster that the message
    comes from, and no route for a spoke. *)
Definition eligible_routed (sub : dsub) : bool :=
  is_remote sub && negb (bool_decide (ckind (sub_conn sub) = LEAF) && from_origin c pa (remoteCluster (sub_conn sub))).

Definition eligible_other (sub : dsub) : bool :=
  is_remote sub &&
  if isSpokeLeafNode c && bool_decide (ckind (sub_conn sub) = ROUTER) then false
  else if (bool_decide (ckind c = LEAF) || bool_decide (ckind c = CLIENT)) && bool_decide (ckind (sub_conn sub) = LEAF)
       then negb (bool_decide (ckind c = LEAF) && from_origin c pa (remoteCluster (sub_conn sub)))
       else negb (nonempty (sub_origin sub) && from_origin c pa (sub_origin sub)).

Definition eligible (sub : dsub) : bool := if bool_decide (ckind c = ROUTER) then eligible_routed sub else eligible_other sub.

(** ** One delivery *)

(** [v'] is [v] after an attempt. *)
Definition advance v (a : attempt) (ok : bool) v' : Prop :=
  deliverMsg (world v) a = (world v', ok) /\ rts v' = rts v /\ didDeliver v' = ok || didDeliver v /\ queues_ v' = queues_ v.

Lemma send_advance v a e : advance v a (send v a e).2 (send v a e).1.
Proof. unfold advance, send. destruct (deliverMsg (world v) a) as [w ok]. done. Qed.

Lemma import_subject_ok v i sub : im sub = Some i -> import_ok sub -> exists v' d, import_subject c subject (remapped c rply) v i = Some (v', d) /\
  world v' = world v /\ rts v' = rts v /\ didDeliver v' = didDeliver v /\ queues_ v' = queues_ v.
Proof.
  unfold import_ok. intros -> Hok. unfold import_subject. destruct (im_tr i) as [tr|].
  - destruct Hok as (src&dest&Hn). destruct (strict_transform_total _ _ _ (fun _ => 0) (String.string_of_list_ascii subject) Hn) as [t ->]. cbn [mbind option_bind]. destruct (append_scratch _ _) as [sc d]. destruct (Nat.ltb _ _); do 2 eexists; by split_and!.
  - cbn [mbind option_bind]. destruct (append_scratch _ _) as [sc d]. destruct (Nat.ltb _ _); do 2 eexists; by split_and!.
Qed.

Lemma deliver_local_ok plain v sub : import_ok sub ->
  if skipped sub then deliver_local c pa msg subject rply flags plain v sub = Some None
  else exists a v' ok, deliver_local c pa msg subject rply flags plain v sub = Some (Some (v', ok)) /\ at_sub a = sub /\ at_msg a = msg /\ advance v a ok v'.
Proof.
  intros Hok. unfold skipped, deliver_local. destruct (im sub) as [i|] eqn:Ei.
  - rewrite bool_decide_eq_true_2 by done. cbn [andb]. destruct (flag _ _); [done|]. destruct (import_subject_ok v i sub Ei Hok) as (v1&d&->&Hw&Hr&Hd&Hq). cbn [mbind option_bind].
    match goal with |- context [send v1 ?x 0] => set (a := x) end. exists a, (send v1 a 0).1, (send v1 a 0).2. rewrite <- surjective_pairing. pose proof (send_advance v1 a 0) as Ha. unfold advance in *. rewrite Hw, Hr, Hd, Hq in Ha. do 3 (split; [done|]). exact Ha.
  - rewrite bool_decide_eq_false_2 by (by intros [? ?]). cbn [andb]. match goal with |- context [send v ?x 0] => set (a := x) end. exists a, (send v a 0).1, (send v a 0).2. rewrite <- surjective_pairing. pose proof (send_advance v a 0) as Ha. do 3 (split; [done|]). exact Ha.
Qed.

(** ** Plain subscriptions *)

Notation targets l := (foldl addSubToRouteTargets l).
Notation plain_loop := (plain_loop c pa msg subject rply flags).

Lemma plain_step_other s psubs v : import_ok s -> plain_local s = false -> plain_loop (s :: psubs) v = plain_loop psubs (if plain_remote s then with_target v s else v).
Proof.
  intros Hok. pose proof (deliver_local_ok true v s Hok) as Hd. unfold plain_local, plain_remote. cbn [Deliver.plain_loop]. destruct (ckind (sub_conn s)); try done; intros Hs%negb_false_iff; rewrite Hs in Hd; by rewrite Hd.
Qed.

Lemma plain_step_local s psubs v : import_ok s -> plain_local s = true -> plain_remote s = false /\
  exists a ok v1, plain_loop (s :: psubs) v = (if linear flags && didDeliver v1 then Some (v1, true) else plain_loop psubs v1) /\ at_sub a = s /\ advance v a ok v1.
Proof.
  intros Hok. pose proof (deliver_local_ok true v s Hok) as Hd. unfold plain_local, plain_remote. cbn [Deliver.plain_loop].
  destruct (ckind (sub_conn s)); try done; intros Hs%negb_true_iff; rewrite Hs in Hd; destruct Hd as (a&v1&ok&->&Ha&_&Hadv); split; try done; exists a, ok, v1; by split_and!.
Qed.

(** The plain part: every local subscription is tried in turn, up to the first that takes a
    linear message. *)
Definition plain_part (psubs : list dsub) (tr : trace) (done : bool) : Prop :=
  if done then linear flags = true /\ exists tr0 a rest, tr = tr0 ++ [(a, true)] /\ accepted tr0 = false /\ base.filter (fun s => plain_local s = true) psubs = tried tr ++ rest
  else tried tr = base.filter (fun s => plain_local s = true) psubs /\ (linear flags = true -> accepted tr = false).

Lemma plain_loop_ok psubs v : Forall import_ok psubs -> (linear flags = true -> didDeliver v = false) ->
  exists tr v' done, plain_loop psubs v = Some (v', done) /\ sends (world v) tr (world v') /\ didDeliver v' = didDeliver v || accepted tr /\ queues_ v' = queues_ v /\
    plain_part psubs tr done /\ (done = false -> rts v' = targets (rts v) (base.filter (fun s => plain_remote s = true) psubs)).
Proof.
  intros Hok. revert v. induction Hok as [|s psubs Hs Hok IH]; intros v Hv.
  { exists [], v, false. split_and!; [done|constructor|by rewrite orb_false_r|done|done|done]. }
  unfold plain_part. rewrite !filter_cons. destruct (plain_local s) eqn:El.
  - destruct (plain_step_local s psubs v Hs El) as (->&a&ok&v1&->&<-&Hd&Hr&Hdid&Hq). rewrite (decide_False (P := false = true)) by done. rewrite (decide_True (P := true = true)) by done. destruct (linear flags && didDeliver v1) eqn:Elin.
    + apply andb_true_iff in Elin as [Hlin Hdv]. rewrite (Hv Hlin), orb_false_r in Hdid. assert (ok = true) as -> by congruence. exists [(a, true)], v1, true. split_and!; [done|by apply sends_one|by rewrite Hdid, orb_true_r|done|done| |done]. by exists [], a, (base.filter (fun s => plain_local s = true) psubs).
    + destruct (IH v1) as (tr&v'&d&He&Hse&Hdd&Hqq&Hp&Hrts); [intros Hl; by rewrite Hl in Elin|]. exists ((a, ok) :: tr), v', d. split_and!; [done|by econstructor| |congruence| |by rewrite <- Hr].
      * rewrite Hdd, Hdid. cbn. by destruct ok, (didDeliver v).
      * assert (linear flags = true -> ok = false) as Hokf by (intros Hl; rewrite Hl, Hdid in Elin; by destruct ok). destruct d.
        -- destruct Hp as (Hl&tr0&b&rest&->&Hf&Hfil). split; [done|]. exists ((a, ok) :: tr0), b, rest. rewrite (Hokf Hl). split_and!; [done|done|]. by rewrite Hfil.
        -- destruct Hp as [Ht Hf]. split; [cbn; by rewrite <- Ht|]. intros Hl. cbn. by rewrite (Hokf Hl), (Hf Hl).
  - rewrite (plain_step_other s psubs v Hs El), (decide_False (P := false = true)) by done. destruct (IH (if plain_remote s then with_target v s else v)) as (tr&v'&d&He&Hse&Hdd&Hqq&Hp&Hrts); [by destruct (plain_remote s)|]. exists tr, v', d. split_and!; [done|by destruct (plain_remote s)|by destruct (plain_remote s)|by destruct (plain_remote s)|done|]. intros Hd. rewrite (Hrts Hd). by destruct (plain_remote s); [rewrite decide_True by done|rewrite decide_False by done].
Qed.

(** ** Queue groups *)

Notation queue_loop := (queue_loop c pa msg subject rply flags).

(** The member that took the message, and the names that are collected. *)
Definition taker (tr : trace) : option dsub := match last tr with Some (a, true) => Some (at_sub a) | _ => None end.

Definition names (s : option dsub) : list (option bytes) := match s with Some s => if flag flags pmrCollectQueueNames then [queue s] else [] | None => [] end.

(** Attempts of which only the last may succeed. *)
Definition one_taker (tr : trace) : Prop := exists fails rest, tr = fails ++ rest /\ accepted fails = false /\ (rest = [] \/ exists a, rest = [(a, true)]).

Lemma one_taker_cons a tr : one_taker tr -> one_taker ((a, false) :: tr).
Proof. intros (f&r&->&Hf&Hr). by exists ((a, false) :: f), r. Qed.

Lemma taker_cons x tr : tr <> [] -> taker (x :: tr) = taker tr.
Proof. by destruct tr. Qed.

Lemma taker_fail a tr : taker ((a, false) :: tr) = taker tr.
Proof. by destruct tr. Qed.

Lemma queue_step_remote s order rsub v : is_remote s = true ->
  (eligible_other s = false /\ queue_loop (s :: order) rsub v = queue_loop order rsub v) \/
  (eligible_other s = true /\ exists r, queue_loop (s :: order) rsub v = queue_loop order (Some r) v /\ (rsub = Some r \/ r = s)) \/
  (eligible_other s = true /\ queue_loop (s :: order) rsub v = Some (v, Some s)).
Proof.
  intros Hr. unfold eligible_other. rewrite Hr. unfold is_remote in Hr. cbn [Deliver.queue_loop andb]. rewrite Hr. destruct (isSpokeLeafNode c && _); [by left|].
  destruct ((bool_decide (ckind c = LEAF) || bool_decide (ckind c = CLIENT)) && _).
  - destruct (bool_decide (ckind c = LEAF) && from_origin c pa _); [by left|]. right. left. split; [done|]. destruct rsub as [r|]; [by exists r; auto|by exists s; auto].
  - destruct (nonempty (sub_origin s)); [|by auto]. cbn [andb]. destruct rsub as [r|]; [|destruct (from_origin c pa (sub_origin s)); [by left|right; left; split; [done|]; by exists s; auto]].
    destruct (from_origin c pa (sub_origin s)); [by left|right; left]. split; [done|]. by exists r; auto.
Qed.

Lemma queue_step_local s order rsub v : import_ok s -> is_remote s = false ->
  if skipped s then queue_loop (s :: order) rsub v = queue_loop order rsub v
  else exists a ok v1, at_sub a = s /\ advance v a ok v1 /\ queue_loop (s :: order) rsub v = if ok then Some (with_queue flags v1 (queue s), None) else queue_loop order rsub v1.
Proof.
  intros Hok Hr. pose proof (deliver_local_ok false v s Hok) as Hd. unfold is_remote in Hr. cbn [Deliver.queue_loop]. rewrite Hr. apply orb_false_iff in Hr as [-> _]. rewrite andb_false_r. destruct (skipped s).
  - by rewrite Hd.
  - destruct Hd as (a&v1&ok&->&Ha&_&Hadv). exists a, ok, v1. split_and!; [done|done|by destruct ok].
Qed.

(** A run over members of a queue group, with [r] the remote member to fall back to. *)
Definition queue_run (order : list dsub) (rsub : option dsub) v (tr : trace) v' (r : option dsub) : Prop :=
  sends (world v) tr (world v') /\ didDeliver v' = didDeliver v || accepted tr /\ rts v' = rts v /\
  queues_ v' = queues_ v ++ names (taker tr) /\ tried tr `sublist_of` base.filter (fun s => queue_local s = true) order /\ one_taker tr /\
  (accepted tr = true -> r = None) /\
  (forall s, r = Some s -> rsub = Some s \/ (s ∈ order /\ eligible_other s = true)) /\
  (accepted tr = false -> r = None -> rsub = None /\ tried tr = base.filter (fun s => queue_local s = true) order /\ Forall (fun s => eligible_other s = false) order).

Lemma filter_queue_skip s order : queue_local s = false -> base.filter (fun s => queue_local s = true) (s :: order) = base.filter (fun s => queue_local s = true) order.
Proof. intros H. rewrite filter_cons, decide_False; [done|]. by rewrite H. Qed.

(** A member that is passed over changes nothing but the fall-back. *)
Lemma queue_run_skip s order rsub rsub' v tr v' r : queue_local s = false -> queue_run order rsub' v tr v' r ->
  (forall r, rsub' = Some r -> rsub = Some r \/ (r = s /\ eligible_other s = true)) -> (rsub' = None -> rsub = None /\ eligible_other s = false) ->
  queue_run (s :: order) rsub v tr v' r.
Proof.
  intros Hl (H1&H2&H3&H4&H5&H6&H7&H8&H9) Hs Hn. unfold queue_run. rewrite filter_queue_skip by done. split_and!; try done.
  - intros x Hx. destruct (H8 x Hx) as [Hx'|[Hin He]]; [|right; split; [by right|done]]. destruct (Hs x Hx') as [?|[-> ?]]; [by left|right; split; [by left|done]].
  - intros Ha Hr. destruct (H9 Ha Hr) as (Hrs&Ht&Hf). destruct (Hn Hrs) as [-> He]. split_and!; [done|done|by constructor].
Qed.

Lemma queue_loop_ok order rsub v : Forall import_ok order -> exists tr v' r, queue_loop order rsub v = Some (v', r) /\ queue_run order rsub v tr v' r.
Proof.
  intros Hok. revert rsub v. induction Hok as [|s order Hs Hok IH]; intros rsub v.
  { exists [], v, rsub. split; [done|]. split_and!; try done; [constructor|by rewrite orb_false_r|by rewrite app_nil_r|by exists [], []; auto|by auto]. }
  destruct (is_remote s) eqn:Er.
  - assert (queue_local s = false) as Hl by (unfold queue_local; by rewrite Er). destruct (queue_step_remote s order rsub v Er) as [[He ->]|[(He&x&->&Hx)|[He ->]]].
    + destruct (IH rsub v) as (tr&v'&r&->&Hr). exists tr, v', r. split; [done|]. eapply queue_run_skip; by eauto.
    + destruct (IH (Some x) v) as (tr&v'&r&->&Hr). exists tr, v', r. split; [done|]. eapply queue_run_skip; [done|exact Hr| |done]. intros y [= <-]. destruct Hx as [->| ->]; by auto.
    + exists [], v, (Some s). split; [done|]. split_and!; try done; [constructor|by rewrite orb_false_r|by rewrite app_nil_r|apply sublist_nil_l|by exists [], []; auto|]. intros y [= <-]. right. split; [by left|done].
  - pose proof (queue_step_local s order rsub v Hs Er) as Hst. assert (eligible_other s = false) as Hne by (unfold eligible_other; by rewrite Er). destruct (skipped s) eqn:Esk.
    + rewrite Hst. destruct (IH rsub v) as (tr&v'&r&->&Hr). exists tr, v', r. split; [done|]. eapply queue_run_skip; [unfold queue_local; by rewrite Er, Esk|exact Hr|by auto|by auto].
    + assert (queue_local s = true) as Hl by (unfold queue_local; by rewrite Er, Esk). destruct Hst as (a&ok&v1&<-&(Hd&Hr&Hdid&Hq)&->). destruct ok.
      * exists [(a, true)], (with_queue flags v1 (queue (at_sub a))), None. split; [done|]. unfold queue_run. rewrite filter_cons, decide_True by done.
        split_and!; try done; [by apply sends_one|cbn; by rewrite Hdid, orb_true_r|cbn; by rewrite Hq| |by exists [], [(a, true)]; eauto]. cbn. apply sublist_skip, sublist_nil_l.
      * destruct (IH rsub v1) as (tr&v'&r&->&H1&H2&H3&H4&H5&H6&H7&H8&H9). exists ((a, false) :: tr), v', r. split; [done|]. unfold queue_run. rewrite filter_cons, decide_True, taker_fail by done.
        split_and!; [by econstructor|by rewrite H2, Hdid|congruence|congruence|by apply sublist_skip|by apply one_taker_cons|done| |].
        -- intros x Hx. destruct (H8 x Hx) as [?|[? ?]]; [by left|right; split; [by right|done]].
        -- intros Ha Hn. destruct (H9 Ha Hn) as (->&Ht&Hf). split_and!; [done|cbn; by rewrite <- Ht|by constructor].
Qed.

(** From a route: the local members, and a fall-back among the remote ones. *)
Lemma prefer_step s qsubs rsub n : is_remote s = true -> exists rsub' n', prefer_local c pa rnd (s :: qsubs) rsub n = prefer_local c pa rnd qsubs rsub' n' /\
  (forall r, rsub' = Some r -> rsub = Some r \/ (r = s /\ eligible_routed s = true)) /\ (rsub' = None -> rsub = None /\ eligible_routed s = false).
Proof.
  intros Hr. unfold eligible_routed. rewrite Hr. unfold is_remote in Hr. cbn [prefer_local andb]. destruct (ckind (sub_conn s)); try done; cbn [bool_decide andb negb].
  - exists (match rsub with None => Some s | Some _ => rsub end), n. split; [done|]. destruct rsub as [x|]; (split; [intros r [= <-]; by auto|done]).
  - change (bool_decide (LEAF = LEAF)) with true. cbn [andb]. destruct (from_origin c pa _); [by exists rsub, n; auto|]. destruct rsub as [x|]; [|exists (Some s), n; split_and!; [done|intros r [= <-]; by auto|done]].
    destruct (bool_decide (ckind (sub_conn x) = ROUTER)); [exists (Some s), n; split_and!; [done|intros r [= <-]; by auto|done]|].
    exists (if rnd n mod 2 =? 1 then Some s else Some x), (S n). split; [done|]. destruct (_ =? _); (split; [intros r [= <-]; by auto|done]).
Qed.

Lemma prefer_local_ok qsubs rsub n : exists r n', prefer_local c pa rnd qsubs rsub n = (base.filter (fun s => is_remote s = false) qsubs, r, n') /\
  (forall s, r = Some s -> rsub = Some s \/ (s ∈ qsubs /\ eligible_routed s = true)) /\
  (r = None -> rsub = None /\ Forall (fun s => eligible_routed s = false) qsubs).
Proof.
  revert rsub n. induction qsubs as [|s qsubs IH]; intros rsub n; [exists rsub, n; split_and!; [done|by auto|by auto]|].
  rewrite filter_cons. destruct (is_remote s) eqn:Er.
  - destruct (prefer_step s qsubs rsub n Er) as (rsub'&n1&->&Hs&Hn). destruct (IH rsub' n1) as (r&n'&->&H1&H2). exists r, n'. rewrite decide_False by done. split_and!; [done| |].
    + intros x Hx. destruct (H1 x Hx) as [Hx'|[Hin He]]; [|right; split; [by right|done]]. destruct (Hs x Hx') as [?|[-> ?]]; [by left|right; split; [by left|done]].
    + intros Hx. destruct (H2 Hx) as [Hx' Hf]. destruct (Hn Hx') as [-> He]. split; [done|by constructor].
  - destruct (IH rsub n) as (r&n'&He&H1&H2). exists r, n'. rewrite decide_True by done. split_and!.
    + unfold is_remote in Er. cbn [prefer_local]. destruct (ckind (sub_conn s)); try done; by rewrite He.
    + intros x Hx. destruct (H1 x Hx) as [?|[? ?]]; [by left|right; split; [by right|done]].
    + intros Hx. destruct (H2 Hx) as [-> Hf]. split; [done|]. constructor; [|done]. unfold eligible_routed. by rewrite Er.
Qed.

Lemma rotate_perm n l : rotate n l ≡ₚ l.
Proof. unfold rotate. by rewrite Permutation_app_comm, take_drop. Qed.

(** What happens to a queue group: its local members are tried at most once, until one takes the
    message; else one remote member that is eligible is to get it; it is lost only if all the local
    members refused and no remote member is eligible. *)
Definition group_part (qsubs : list dsub) (g : trace * option dsub) : Prop :=
  let '(tr, r) := g in
  tried tr ⊆+ base.filter (fun s => queue_local s = true) qsubs /\ one_taker tr /\ (accepted tr = true -> r = None) /\
  (forall s, r = Some s -> s ∈ qsubs /\ eligible s = true) /\
  (accepted tr = false -> r = None -> tried tr ≡ₚ base.filter (fun s => queue_local s = true) qsubs /\ Forall (fun s => eligible s = false) qsubs).

Definition chosen (g : trace * option dsub) : option dsub := match g.2 with Some s => Some s | None => taker g.1 end.

Lemma filter_local (l : list dsub) : base.filter (fun s => queue_local s = true) (base.filter (fun s => is_remote s = false) l) = base.filter (fun s => queue_local s = true) l.
Proof.
  rewrite list_filter_filter. apply list_filter_iff. intros s. unfold queue_local. destruct (is_remote s); naive_solver.
Qed.

Lemma queue_group_ok qsubs v : Forall import_ok qsubs -> exists tr r v', queue_group c pa rnd msg subject rply flags qsubs v = Some v' /\
  sends (world v) tr (world v') /\ didDeliver v' = didDeliver v || accepted tr /\ rts v' = targets (rts v) (option_list r) /\
  queues_ v' = queues_ v ++ names (chosen (tr, r)) /\ group_part qsubs (tr, r).
Proof.
  intros Hok. unfold queue_group.
  assert (exists ql rsub n, (if bool_decide (ckind c = ROUTER) then prefer_local c pa rnd qsubs None (rnd_at v) else (qsubs, None, rnd_at v)) = (ql, rsub, n) /\
    Forall import_ok ql /\ base.filter (fun s => queue_local s = true) ql = base.filter (fun s => queue_local s = true) qsubs /\
    (forall s, rsub = Some s \/ (s ∈ ql /\ eligible_other s = true) -> s ∈ qsubs /\ eligible s = true) /\
    (rsub = None -> Forall (fun s => eligible_other s = false) ql -> Forall (fun s => eligible s = false) qsubs)) as (ql&rsub&n&->&Hql&Hfil&Hel&Hnel).
  { unfold eligible. destruct (bool_decide (ckind c = ROUTER)).
    - destruct (prefer_local_ok qsubs None (rnd_at v)) as (r&n'&->&H1&H2). exists (base.filter (fun s => is_remote s = false) qsubs), r, n'. split_and!; [done| |apply filter_local| |].
      + apply Forall_forall. intros s [_ Hin]%list_elem_of_filter. by eapply Forall_forall in Hok.
      + intros s [Hs|[[Hr Hin]%list_elem_of_filter He]]; [by destruct (H1 s Hs)|]. unfold eligible_other in He. by rewrite Hr in He.
      + intros Hr _. by destruct (H2 Hr).
    - exists qsubs, None, (rnd_at v). split_and!; [done..| |done]. intros s [?|?]; done. }
  destruct (if Nat.ltb 1 (length ql) then _ else _) as [k n2]. destruct (queue_loop_ok (rotate k ql) rsub (with_rnd v n2)) as (tr&v'&r&->&H1&H2&H3&H4&H5&H6&H7&H8&H9); [by rewrite rotate_perm|]. cbn [mbind option_bind].
  exists tr, r. eexists. split; [done|]. unfold chosen. cbn [fst snd].
  assert (base.filter (fun s => queue_local s = true) (rotate k ql) ≡ₚ base.filter (fun s => queue_local s = true) qsubs) as Hperm by (by rewrite rotate_perm, Hfil).
  assert (group_part qsubs (tr, r)) as Hg.
  { split_and!; [rewrite <- Hperm; by apply sublist_submseteq|done|done| |].
    - intros s Hs. apply Hel. destruct (H8 s Hs) as [?|[Hin ?]]; [by left|right]. by rewrite rotate_perm in Hin.
    - intros Ha Hr. destruct (H9 Ha Hr) as (Hrs&Ht&Hf). split; [by rewrite Ht|]. apply Hnel; [done|]. by rewrite rotate_perm in Hf. }
  destruct r as [s|]; cbn [option_list foldl]; [|do 4 (split; [done|]); exact Hg]. assert (taker tr = None) as Htk.
  { destruct H6 as (f&rest&->&Hf&[->|[a ->]]); [|by rewrite existsb_app, Hf in H7; specialize (H7 eq_refl)]. rewrite app_nil_r. unfold taker. destruct (last f) as [[a [|]]|] eqn:El; [|done|done]. apply last_Some in El as [l' ->]. by rewrite existsb_app, orb_true_r in Hf. }
  rewrite Htk, app_nil_r in H4. cbn. rewrite H3, H4. do 4 (split; [done|]). exact Hg.
Qed.

Lemma queue_groups_ok qs v : Forall (Forall import_ok) qs -> exists gs v', queue_groups c pa rnd msg subject rply flags qs v = Some v' /\
  sends (world v) (concat (fst <$> gs)) (world v') /\ didDeliver v' = didDeliver v || accepted (concat (fst <$> gs)) /\ rts v' = targets (rts v) (omap snd gs) /\
  queues_ v' = queues_ v ++ concat ((fun g => names (chosen g)) <$> gs) /\ Forall2 group_part (base.filter (fun q => queue_wanted pa q = true) qs) gs.
Proof.
  intros Hok. revert v. induction Hok as [|q qs Hq Hok IH]; intros v; cbn [queue_groups].
  { exists [], v. split_and!; [done|constructor|by rewrite orb_false_r|done|by rewrite app_nil_r|constructor]. }
  rewrite filter_cons. destruct (queue_wanted pa q); [rewrite decide_True by done|rewrite decide_False by done; apply IH].
  destruct (queue_group_ok q v Hq) as (tr&r&v1&->&H1&H2&H3&H4&H5). cbn [mbind option_bind]. destruct (IH v1) as (gs&v'&->&I1&I2&I3&I4&I5). exists ((tr, r) :: gs), v'.
  split; [done|]. split; [by eapply sends_app|]. split; [cbn; by rewrite existsb_app, I2, H2, orb_assoc|]. split; [rewrite I3, H3; by destruct r|]. split; [cbn; by rewrite I4, H4, <- app_assoc|]. by constructor.
Qed.

(** ** Route targets *)

(** The first subscription of each connection that is not in [seen]. *)
Fixpoint firsts (seen : list Z) (l : list dsub) : list dsub :=
  match l with
  | [] => []
  | s :: l => if bool_decide (cid (sub_conn s) ∈ seen) then firsts seen l else s :: firsts (cid (sub_conn s) :: seen) l
  end.

(** The queue names for a connection. *)
Definition conn_queues (k : Z) (l : list dsub) : bytes := write_queues (omap queue (base.filter (fun s => cid (sub_conn s) = k) l)).

Lemma conn_queues_cons k s l : conn_queues k (s :: l) = (if bool_decide (cid (sub_conn s) = k) then queue_arg s else []) ++ conn_queues k l.
Proof.
  unfold conn_queues. rewrite filter_cons. destruct (bool_decide_reflect (cid (sub_conn s) = k)); [rewrite decide_True by done|by rewrite decide_False by done]. cbn [omap list_omap]. unfold queue_arg. by destruct (queue s).
Qed.

Lemma firsts_ext seen seen' l : (forall k, k ∈ seen <-> k ∈ seen') -> firsts seen l = firsts seen' l.
Proof.
  revert seen seen'. induction l as [|s l IH]; intros seen seen' H; cbn [firsts]; [done|]. rewrite (bool_decide_ext _ _ (H (cid (sub_conn s)))). destruct (bool_decide _); [by apply IH|]. f_equal. apply IH. intros k. rewrite !elem_of_cons. naive_solver.
Qed.

Notation cids l := ((fun t => cid (sub_conn t.1)) <$> l).

Lemma add_found l s : NoDup (cids l) -> cid (sub_conn s) ∈ cids l ->
  addSubToRouteTargets l s = (fun t => (t.1, t.2 ++ if bool_decide (cid (sub_conn s) = cid (sub_conn t.1)) then queue_arg s else [])) <$> l.
Proof.
  induction l as [|[t qs] l IH]; [intros _ Hin; by apply elem_of_nil in Hin|]. rewrite fmap_cons, NoDup_cons. cbn [fst]. intros [Hn Hd] Hin. cbn [addSubToRouteTargets]. rewrite fmap_cons. cbn [fst snd]. destruct (Z.eqb_spec (cid (sub_conn t)) (cid (sub_conn s))) as [He|He].
  - rewrite bool_decide_eq_true_2 by done. f_equal. rewrite <- (list_fmap_id l) at 1. apply list_fmap_ext. intros j [u qu] Hj. cbn. rewrite bool_decide_eq_false_2, app_nil_r; [done|]. intros Hu. apply Hn. rewrite He, Hu. apply (list_elem_of_fmap_2 (fun t => cid (sub_conn t.1)) l (u, qu)). by eapply list_elem_of_lookup_2.
  - rewrite bool_decide_eq_false_2 by done. rewrite app_nil_r, IH; [done..|]. apply elem_of_cons in Hin as [Hin|Hin]; [by rewrite Hin in He|done].
Qed.

Lemma add_new l s : cid (sub_conn s) ∉ cids l -> addSubToRouteTargets l s = l ++ [(s, queue_arg s)].
Proof.
  induction l as [|[t qs] l IH]; [done|]. rewrite fmap_cons, not_elem_of_cons. cbn [fst addSubToRouteTargets]. intros [Hn Hin]. destruct (Z.eqb_spec (cid (sub_conn t)) (cid (sub_conn s))); [done|]. by rewrite IH.
Qed.

Lemma firsts_unseen seen l s : s ∈ firsts seen l -> cid (sub_conn s) ∉ seen.
Proof.
  revert seen. induction l as [|t l IH]; intros seen; cbn [firsts]; [by intros ?%elem_of_nil|]. case_bool_decide as Ht; [by apply IH|]. intros [->|Hs]%elem_of_cons; [done|]. apply IH in Hs. set_solver.
Qed.

(** A queue name more for a connection that has a target does not touch the others. *)
Lemma firsts_queues seen l s : cid (sub_conn s) ∈ seen ->
  (fun t => (t, conn_queues (cid (sub_conn t)) (s :: l))) <$> firsts seen l = (fun t => (t, conn_queues (cid (sub_conn t)) l)) <$> firsts seen l.
Proof.
  intros Hs. apply list_fmap_ext. intros i t Ht%list_elem_of_lookup_2%firsts_unseen. rewrite conn_queues_cons, bool_decide_eq_false_2; [done|]. intros He. by rewrite He in Hs.
Qed.

Lemma targets_exact l r : NoDup (cids r) ->
  targets r l = ((fun t => (t.1, t.2 ++ conn_queues (cid (sub_conn t.1)) l)) <$> r) ++ ((fun s => (s, conn_queues (cid (sub_conn s)) l)) <$> firsts (cids r) l).
Proof.
  revert r. induction l as [|s l IH]; intros r Hd; cbn [foldl firsts].
  - rewrite app_nil_r. rewrite <- (list_fmap_id r) at 1. apply list_fmap_ext. intros i [t qs] _. cbn. by rewrite app_nil_r.
  - case_bool_decide as Hs.
    + rewrite add_found by done. rewrite IH by (by rewrite <- list_fmap_compose). rewrite <- !list_fmap_compose. unfold compose. cbn [fst snd]. rewrite firsts_queues by done. f_equal. apply list_fmap_ext. intros i t _. cbn [fst snd]. by rewrite conn_queues_cons, app_assoc.
    + rewrite add_new by done. assert (forall k, k ∈ cids (r ++ [(s, queue_arg s)]) <-> k ∈ cid (sub_conn s) :: cids r) as Hse by (intros k; rewrite fmap_app; cbn; set_solver).
      rewrite IH by (rewrite fmap_app, NoDup_app; cbn; split_and!; [done|set_solver|apply NoDup_singleton]). rewrite (firsts_ext _ _ l Hse), fmap_app, !fmap_cons, (firsts_queues _ l s), <- app_assoc by set_solver. f_equal.
      * apply list_fmap_ext. intros i t Ht. cbn [fst snd]. rewrite conn_queues_cons, bool_decide_eq_false_2; [done|]. intros He. apply Hs. rewrite He. apply (list_elem_of_fmap_2 (fun t => cid (sub_conn t.1)) r t). by eapply list_elem_of_lookup_2.
      * cbn [fst snd]. by rewrite conn_queues_cons, bool_decide_eq_true_2.
Qed.

(** A leaf node of the cluster that the message comes from. *)
Definition blocked (s : dsub) : bool := bool_decide (ckind (sub_conn s) = LEAF) && from_origin c pa (remoteCluster (sub_conn s)).

(** The attempt for a route target: the header names the queues, and the message is the one that
    was published, or for a leaf node the one with the client information of its account. *)
Definition target_attempt (reply : option bytes) (l : list dsub) (s : dsub) (a : attempt) : Prop :=
  at_sub a = s /\ at_subject a = subject /\ at_reply a = reply /\
  (exists rt, target_of s (conn_queues (cid (sub_conn s)) l) subject = Some rt /\ at_mh a = msgHeaderForRouteOrLeaf (ckind c) (remoteCluster c) (at_pa a) subject (default [] reply) rt accName_) /\
  ((at_msg a, at_pa a) = (msg, pa) \/ (ckind (sub_conn s) = LEAF /\ (at_msg a, at_pa a) = checkLeafClientInfoHeader pa mqtt clientInfo msg)).

Lemma target_of_total s qs : import_ok s -> is_Some (target_of s qs subject).
Proof.
  intros Hok. unfold target_of. destruct (bool_decide _); [by eexists|]. unfold shadow_subject, import_ok in *. destruct (im s) as [i|]; [|by eexists]. destruct (im_tr i) as [tr|]; [|by eexists].
  destruct Hok as (src&dest&Hn). destruct (strict_transform_total _ _ _ (fun _ => 0) (String.string_of_list_ascii subject) Hn) as [t ->]. by eexists.
Qed.

Lemma send_targets_ok reply l ss v : Forall import_ok ss ->
  exists tr v', send_targets c pa mqtt clientInfo accName_ msg subject reply ((fun s => (s, conn_queues (cid (sub_conn s)) l)) <$> ss) v = Some v' /\
    sends (world v) tr (world v') /\ didDeliver v' = didDeliver v || accepted tr /\ queues_ v' = queues_ v /\
    Forall2 (target_attempt reply l) (base.filter (fun s => blocked s = false) ss) (fst <$> tr).
Proof.
  intros Hok. revert v. induction Hok as [|s ss Hs Hok IH]; intros v.
  { exists [], v. split_and!; [done|constructor|by rewrite orb_false_r|done|constructor]. }
  rewrite fmap_cons, filter_cons. cbn [send_targets]. unfold send_target at 1. fold (blocked s). destruct (blocked s); [rewrite decide_False by done; cbn [mbind option_bind]; apply IH|]. rewrite decide_True by done.
  destruct (if _ && _ && _ then checkLeafClientInfoHeader _ _ _ _ else _) as [dmsg dpa] eqn:Em. destruct (target_of_total s (conn_queues (cid (sub_conn s)) l) Hs) as [rt Hrt]. rewrite Hrt. cbn [mbind option_bind].
  match goal with |- context [send v ?x ?e] => set (a := x); set (ex := e) end. destruct (send_advance v a ex) as (A1&A2&A3&A4). destruct (IH (send v a ex).1) as (tr&v'&->&I1&I2&I3&I4).
  exists ((a, (send v a ex).2) :: tr), v'. split; [done|]. split; [by econstructor|]. split; [rewrite I2, A3; cbn; by destruct (send v a ex).2, (didDeliver v)|]. split; [congruence|]. rewrite fmap_cons. constructor; [|done].
  split_and!; [done..|by exists rt|]. cbn. destruct (bool_decide_reflect (ckind (sub_conn s) = LEAF)) as [Hl|]; [|left; cbn in Em; congruence]. cbn [andb] in Em. destruct (_ && _); [right|left]; [by split|congruence].
Qed.

(** *** The reply for routes *)

Section reply.
Hypothesis Hmap : remapped c rply = false.

Lemma send_dlvr v a e : dlvr (send v a e).1 = dlvr v.
Proof. unfold send. by destruct (deliverMsg _ _). Qed.

Lemma deliver_local_dlvr plain v s v' ok : deliver_local c pa msg subject rply flags plain v s = Some (Some (v', ok)) -> dlvr v' = dlvr v.
Proof.
  unfold deliver_local. destruct (im s) as [i|].
  - destruct (flag _ _); [done|]. unfold import_subject. rewrite Hmap. destruct (match im_tr i with Some _ => _ | None => _ end) as [t|]; [|done]. cbn [mbind option_bind andb]. destruct (append_scratch _ _) as [sc d].
    destruct (Nat.ltb _ _); cbn [mbind option_bind]; intros [= H]; apply (f_equal fst) in H; cbn [fst] in H; rewrite <- H; exact (send_dlvr (with_subj v _ _ _) _ _).
  - intros [= H]. apply (f_equal fst) in H. cbn [fst] in H. rewrite <- H. apply send_dlvr.
Qed.

Lemma plain_loop_dlvr psubs v v' d : plain_loop psubs v = Some (v', d) -> dlvr v' = dlvr v.
Proof.
  revert v. induction psubs as [|s psubs IH]; intros v; cbn [Deliver.plain_loop]; [by intros [= <- <-]|].
  assert (forall b, plain_loop psubs (if (b : bool) then with_target v s else v) = Some (v', d) -> dlvr v' = dlvr v) as Hr by (intros [|] H; by apply IH in H).
  destruct (deliver_local c pa msg subject rply flags true v s) as [[[v1 ok]|]|] eqn:Ed; [|destruct (ckind (sub_conn s)); first [done|by apply IH|by apply Hr]..].
  apply deliver_local_dlvr in Ed. assert ((if linear flags && didDeliver v1 then Some (v1, true) else plain_loop psubs v1) = Some (v', d) -> dlvr v' = dlvr v) as Hl by (rewrite <- Ed; destruct (_ && _); [by intros [= <- <-]|apply IH]).
  destruct (ckind (sub_conn s)); first [done|by apply IH|by apply Hr].
Qed.

Lemma queue_loop_dlvr order rsub v v' r : queue_loop order rsub v = Some (v', r) -> dlvr v' = dlvr v.
Proof.
  revert rsub v. induction order as [|s order IH]; intros rsub v; cbn [Deliver.queue_loop]; [by intros [= <- <-]|]. destruct (isSpokeLeafNode c && _); [by apply IH|]. destruct (_ || _).
  - destruct (_ && _); [destruct (_ && _); by apply IH|]. destruct (nonempty _); [by apply IH|by intros [= <- <-]].
  - destruct (deliver_local _ _ _ _ _ _ _ _ _) as [[[v1 [|]]|]|] eqn:Ed; [| |by apply IH|done]; apply deliver_local_dlvr in Ed; rewrite <- Ed; [by intros [= <- <-]|by apply IH].
Qed.

Lemma queue_groups_dlvr qs v v' : queue_groups c pa rnd msg subject rply flags qs v = Some v' -> dlvr v' = dlvr v.
Proof.
  revert v. induction qs as [|q qs IH]; intros v; cbn [queue_groups]; [by intros [= <-]|]. destruct (queue_wanted pa q); [|by apply IH]. destruct (queue_group _ _ _ _ _ _ _ _ _) as [v1|] eqn:Eg; [|done]. cbn [mbind option_bind]. intros ->%IH. unfold queue_group in Eg.
  destruct (if bool_decide (ckind c = ROUTER) then _ else _) as [[ql rsub] n]. destruct (if Nat.ltb 1 (length ql) then _ else _) as [k n2]. destruct (queue_loop _ _ _) as [[v2 r]|] eqn:El; [|done]. cbn [mbind option_bind] in Eg. injection Eg as <-. apply queue_loop_dlvr in El. by destruct r.
Qed.
End reply.

(** What routes get as the reply: with the delivery subject at its end, unless it has one. *)
Definition routed_reply (deliver : bytes) : option bytes :=
  match rply with
  | Some r => Some (if nonempty deliver && nonempty r && negb (remapped c rply) && negb (replyHasJSAckSuffix r) then r ++ ["@"%char] ++ deliver else r)
  | None => None
  end.

Lemma route_reply_eq deliver v : (remapped c rply = false -> dlvr v = Own deliver) -> route_reply c rply v = routed_reply deliver.
Proof.
  intros H. unfold route_reply, routed_reply. destruct rply as [r|]; [|done]. destruct (remapped c (Some r)); [by rewrite !andb_false_r|]. rewrite (H eq_refl). unfold nonempty. cbn [slice_len read]. by destruct deliver.
Qed.

(** ** The whole *)

Definition remote_subs (psubs : list dsub) (gs : list (trace * option dsub)) : list dsub := base.filter (fun s => plain_remote s = true) psubs ++ omap snd gs.

(** The queue groups that are looked at. *)
Definition wanted (qsubs : list (list dsub)) : list (list dsub) := if skip_queues c pa flags then [] else base.filter (fun q => queue_wanted pa q = true) qsubs.

(** The routes and leaf nodes that get the message, once each. *)
Definition routes_part (deliver : bytes) (l : list dsub) (tr : trace) : Prop :=
  Forall2 (target_attempt (routed_reply deliver) l) (base.filter (fun s => blocked s = false) (firsts [] l)) (fst <$> tr).

Notation queue_names gs := (concat ((fun g => names (chosen g)) <$> gs)).
Notation processMsgResults := (processMsgResults c pa mqtt rnd clientInfo accName_ msg subject rply flags).

Lemma firsts_subset seen l s : s ∈ firsts seen l -> s ∈ l.
Proof. revert seen. induction l as [|t l IH]; intros seen; cbn [firsts]; [done|]. case_bool_decide; [intros ?%IH; by right|]. intros [->|?%IH]%elem_of_cons; [by left|by right]. Qed.

Lemma wanted_imports qsubs gs : Forall (Forall import_ok) qsubs -> Forall2 group_part (wanted qsubs) gs -> Forall import_ok (omap snd gs).
Proof.
  intros Hok Hg. assert (Forall (Forall import_ok) (wanted qsubs)) as Hw.
  { unfold wanted. destruct (skip_queues _ _ _); [constructor|]. apply Forall_forall. intros q [_ Hq]%list_elem_of_filter. by eapply Forall_forall in Hok. }
  induction Hg as [|q [tr r] qs gs (_&_&_&Hr&_) _ IH]; [constructor|]. apply Forall_cons in Hw as [Hq Hw]. cbn [omap list_omap snd]. destruct r as [s|]; [|by apply IH]. constructor; [|by apply IH]. destruct (Hr s eq_refl) as [Hin _]. by eapply Forall_forall in Hq.
Qed.

Lemma process_ok w n psubs qsubs deliver : Forall import_ok psubs -> Forall (Forall import_ok) qsubs ->
  exists tr1 done gs tr3 w' st, processMsgResults w n psubs qsubs deliver = Some (w', accepted (tr1 ++ concat (fst <$> gs) ++ tr3), queue_names gs, st) /\
    sends w (tr1 ++ concat (fst <$> gs) ++ tr3) w' /\ plain_part psubs tr1 done /\
    if (done : bool) then gs = [] /\ tr3 = []
    else Forall2 group_part (wanted qsubs) gs /\ if linear flags && accepted (concat (fst <$> gs)) then tr3 = [] else routes_part deliver (remote_subs psubs gs) tr3.
Proof.
  intros Hp Hq. unfold Deliver.processMsgResults. destruct (plain_loop_ok psubs (vars0 c subject rply w deliver n) Hp ltac:(done)) as (tr1&v1&done&Hpl&H1&H2&H3&H4&H5). rewrite Hpl. cbn [mbind option_bind]. cbn in H1, H2, H3.
  destruct done; [exists tr1, true, [], [], (world v1), (updateStats mqtt msg v1); cbn; rewrite app_nil_r; unfold result; by rewrite H2, H3|]. specialize (H5 eq_refl).
  assert (exists gs v2, (if skip_queues c pa flags then Some v1 else queue_groups c pa rnd msg subject rply flags qsubs v1) = Some v2 /\ sends (world v1) (concat (fst <$> gs)) (world v2) /\ didDeliver v2 = accepted (tr1 ++ concat (fst <$> gs)) /\
    rts v2 = targets [] (remote_subs psubs gs) /\ queues_ v2 = queue_names gs /\ Forall2 group_part (wanted qsubs) gs /\ (remapped c rply = false -> dlvr v2 = Own deliver) /\ (skip_queues c pa flags = true -> gs = [])) as (gs&v2&->&I1&I2&I3&I4&I5&I6&I7).
  { unfold wanted, remote_subs. destruct (skip_queues c pa flags).
    - exists [], v1. cbn. rewrite !app_nil_r. split; [done|]. split; [apply sends_nil|]. split_and!; try done. intros Hm. by rewrite (plain_loop_dlvr Hm _ _ _ _ Hpl).
    - destruct (queue_groups_ok qsubs v1 Hq) as (gs&v2&He&J1&J2&J3&J4&J5). exists gs, v2. split_and!; try done; [by rewrite J2, H2, existsb_app|by rewrite J3, H5, foldl_app|by rewrite J4, H3|]. intros Hm. by rewrite (queue_groups_dlvr Hm _ _ _ He), (plain_loop_dlvr Hm _ _ _ _ Hpl). }
  cbn [mbind option_bind]. exists tr1, false, gs. rewrite existsb_app in I2.
  assert (linear flags = true -> accepted tr1 = false) as Hlin by apply H4.
  assert (negb (skip_queues c pa flags) && linear flags && didDeliver v2 = linear flags && accepted (concat (fst <$> gs))) as ->.
  { rewrite I2. destruct (linear flags); [|by rewrite !andb_false_r]. rewrite (Hlin eq_refl). destruct (skip_queues c pa flags); [by rewrite (I7 eq_refl)|done]. }
  destruct (linear flags && _) eqn:Elin.
  - exists [], (world v2), (updateStats mqtt msg v2). rewrite app_nil_r, existsb_app. unfold result. rewrite I2, I4. split_and!; [done|by eapply sends_app|apply H4..|done|done].
  - rewrite I3, (route_reply_eq deliver) by done. rewrite (targets_exact _ []) by constructor. cbn [fmap list_fmap app].
    destruct (send_targets_ok (routed_reply deliver) (remote_subs psubs gs) (firsts [] (remote_subs psubs gs)) v2) as (tr3&v3&->&K1&K2&K3&K4).
    { apply Forall_forall. intros s Hs%firsts_subset. revert s Hs. apply Forall_forall. apply Forall_app. split; [|by eapply wanted_imports]. apply Forall_forall. intros s [_ Hin]%list_elem_of_filter. by eapply Forall_forall in Hp. }
    cbn [mbind option_bind]. exists tr3, (world v3), (updateStats mqtt msg v3). unfold result. rewrite K2, I2, K3, I4, !existsb_app, orb_assoc. split_and!; [done|eapply sends_app; [done|by eapply sends_app]|apply H4..|done|done].
Qed.

(** C17. An ordinary message is tried once with every local plain subscription, in their order; goes
    to at most one member of each queue group that is wanted, a local one that takes it or one
    remote connection; and is sent once to each route and leaf node that has a plain subscription
    or was chosen for a queue group, except the leaf cluster it comes from, with the names of
    those groups in the header. The result says whether any of these succeeded. *)
Theorem fanout_exact w n psubs qsubs deliver : Forall import_ok psubs -> Forall (Forall import_ok) qsubs -> linear flags = false ->
  exists tr1 gs tr3 w' st, processMsgResults w n psubs qsubs deliver = Some (w', accepted (tr1 ++ concat (fst <$> gs) ++ tr3), queue_names gs, st) /\
    sends w (tr1 ++ concat (fst <$> gs) ++ tr3) w' /\ tried tr1 = base.filter (fun s => plain_local s = true) psubs /\
    Forall2 group_part (wanted qsubs) gs /\ routes_part deliver (remote_subs psubs gs) tr3.
Proof.
  intros Hp Hq Hl. destruct (process_ok w n psubs qsubs deliver Hp Hq) as (tr1&done&gs&tr3&w'&st&He&Hs&Hpl&Hrest). exists tr1, gs, tr3, w', st. rewrite Hl in Hrest. cbn [andb] in Hrest. unfold plain_part in Hpl. rewrite Hl in Hpl. destruct done; [by destruct Hpl|]. destruct Hpl as [Ht _], Hrest as [Hg Hr]. by split_and!.
Qed.

Definition accepts (tr : trace) : nat := length (base.filter (fun x => x.2 = true) tr).

Lemma accepts_app tr1 tr2 : accepts (tr1 ++ tr2) = (accepts tr1 + accepts tr2)%nat.
Proof. unfold accepts. by rewrite filter_app, length_app. Qed.

Lemma accepts_none tr : accepted tr = false -> accepts tr = 0%nat.
Proof.
  induction tr as [|[a ok] tr IH]; [done|]. cbn [existsb snd]. intros [-> H]%orb_false_iff. unfold accepts in *. rewrite filter_cons, decide_False by done. by apply IH.
Qed.

Lemma groups_accept qs gs : Forall2 group_part qs gs -> (accepts (concat (fst <$> gs)) <= length qs)%nat.
Proof.
  induction 1 as [|q [tr r] qs gs (_&(f&rest&->&Hf&Hr)&_) _ IH]; [done|]. rewrite fmap_cons. cbn [concat fst length]. rewrite !accepts_app, (accepts_none f Hf). assert (accepts rest <= 1)%nat by (destruct Hr as [->|[a ->]]; [apply Nat.le_0_l|apply le_n]). lia.
Qed.

(** C18. A linear message that a local plain subscription takes goes to no one else. Otherwise at most
    one member of each queue group takes it, and it goes to routes and leaf nodes only if no local
    subscription took it: one delivery in all with at most one queue group and none remote, but as
    many as there are queue groups in general. *)
Theorem linear_delivery w n psubs qsubs deliver : Forall import_ok psubs -> Forall (Forall import_ok) qsubs -> linear flags = true ->
  exists tr1 gs tr3 w' st, processMsgResults w n psubs qsubs deliver = Some (w', accepted (tr1 ++ concat (fst <$> gs) ++ tr3), queue_names gs, st) /\
    sends w (tr1 ++ concat (fst <$> gs) ++ tr3) w' /\ (accepts (tr1 ++ concat (fst <$> gs)) <= Nat.max 1 (length (wanted qsubs)))%nat /\
    (accepted (tr1 ++ concat (fst <$> gs)) = true -> tr3 = []) /\
    (accepted tr1 = true -> gs = [] /\ accepts tr1 = 1%nat) /\
    (accepted tr1 = false -> tried tr1 = base.filter (fun s => plain_local s = true) psubs /\ Forall2 group_part (wanted qsubs) gs) /\
    (accepted (tr1 ++ concat (fst <$> gs)) = false -> routes_part deliver (remote_subs psubs gs) tr3).
Proof.
  intros Hp Hq Hl. destruct (process_ok w n psubs qsubs deliver Hp Hq) as (tr1&done&gs&tr3&w'&st&He&Hs&Hpl&Hrest). exists tr1, gs, tr3, w', st. split; [done|]. split; [done|]. rewrite Hl in Hrest. cbn [andb] in Hrest. destruct done.
  - destruct Hrest as [-> ->], Hpl as (_&tr0&a&rest&->&Hf&_). cbn. rewrite app_nil_r, existsb_app, Hf. assert (accepts (tr0 ++ [(a, true)]) = 1%nat) as -> by (by rewrite accepts_app, (accepts_none _ Hf)). cbn. by split_and!; [lia|..].
  - destruct Hpl as [Ht Hn], Hrest as [Hg Hr]. specialize (Hn Hl). rewrite existsb_app, accepts_app, Hn, (accepts_none _ Hn). cbn [orb]. pose proof (groups_accept _ _ Hg).
    split_and!; [lia|intros Ha; by rewrite Ha in Hr|done|done|intros Ha; by rewrite Ha in Hr].
Qed.

End delivery.

(** ** Closed instances *)

Module Examples.

(** A sender that takes everything and records the attempts. *)
#[export] Instance log_sender : Sender (list attempt) := fun w a => (w ++ [a], true).

Definition a_conn (id : Z) (k : client_kind) : conn := mkConn id k None true false [].
Definition a_sub (c : conn) (q : option string) (i : option streamImport) : dsub := mkDsub c i false false (lit <$> q) (lit "1") [].
Definition a_pa : pubArg := mkPubArg None None None None (Some (lit "foo")) None None None (Some (lit "2")) None None 2 (-1) false.

Definition publish (k : client_kind) (flags : Z) (psubs : list dsub) (qsubs : list (list dsub)) (deliver : string) :=
  processMsgResults (a_conn 1 k) a_pa false (fun _ => 7) (fun _ => None) (lit "ACC") (lit "ok" ++ CRLF) (lit "foo") None flags [] 0 psubs qsubs (lit deliver).

Definition log_of (r : option (list attempt * bool * list (option bytes) * dstats)) : list (Z * string) :=
  match r with Some (w, _, _, _) => (fun a => (cid (sub_conn (at_sub a)), String.string_of_list_ascii (take (length (at_mh a) - 2) (at_mh a)))) <$> w | None => [] end.

Definition p2 := [a_sub (a_conn 2 CLIENT) None None; a_sub (a_conn 3 CLIENT) None None].
Definition q2 := [[a_sub (a_conn 4 CLIENT) (Some "q1") None; a_sub (a_conn 5 CLIENT) (Some "q1") None]; [a_sub (a_conn 6 CLIENT) (Some "q2") None; a_sub (a_conn 7 CLIENT) (Some "q2") None]]%string.

End Examples.
Import Examples.

Lemma fanout_exact_witness : exists tr1 gs tr3 w' st, publish CLIENT 0 p2 q2 "" = Some (w', accepted (tr1 ++ concat (fst <$> gs) ++ tr3), concat ((fun g => names 0 (chosen g)) <$> gs), st) /\
  sends [] (tr1 ++ concat (fst <$> gs) ++ tr3) w' /\ tried tr1 = p2.
Proof.
  destruct (fanout_exact (a_conn 1 CLIENT) a_pa false (fun _ => 7) (fun _ => None) (lit "ACC") (lit "ok" ++ CRLF) (lit "foo") None 0 [] 0 p2 q2 [] ltac:(repeat constructor) ltac:(repeat constructor) eq_refl) as (tr1&gs&tr3&w'&st&H1&H2&H3&_).
  exists tr1, gs, tr3, w', st. by split_and!.
Defined.

Lemma linear_delivery_witness : exists tr1 gs tr3 w' st, publish CLIENT 16 p2 q2 "" = Some (w', accepted (tr1 ++ concat (fst <$> gs) ++ tr3), concat ((fun g => names 16 (chosen g)) <$> gs), st) /\
  sends [] (tr1 ++ concat (fst <$> gs) ++ tr3) w' /\ (accepts (tr1 ++ concat (fst <$> gs)) <= 2)%nat.
Proof.
  destruct (linear_delivery (a_conn 1 CLIENT) a_pa false (fun _ => 7) (fun _ => None) (lit "ACC") (lit "ok" ++ CRLF) (lit "foo") None 16 [] 0 p2 q2 [] ltac:(repeat constructor) ltac:(repeat constructor) eq_refl) as (tr1&gs&tr3&w'&st&H1&H2&H3&_).
  exists tr1, gs, tr3, w', st. by split_and!.
Defined.

(** ** Limits *)

(** A linear message goes to the first plain subscription only, but to a member of every queue
    group, and to every route when no local subscription matches. *)
Example linear_one_plain : log_of (publish CLIENT 16 p2 q2 "") = [(2, "MSG foo 1 2")]%string.
Proof. by vm_compute. Qed.

Example linear_each_group : log_of (publish CLIENT 16 [] q2 "") = [(5, "MSG foo 1 2"); (7, "MSG foo 1 2")]%string.
Proof. by vm_compute. Qed.

Example linear_each_route : log_of (publish CLIENT 16 [a_sub (a_conn 8 ROUTER) None None; a_sub (a_conn 9 ROUTER) None None] [] "") = [(8, "RMSG ACC foo 2"); (9, "RMSG ACC foo 2")]%string.
Proof. by vm_compute. Qed.

(** With a delivery subject the second import does not get it: [subj] is the scratch array that
    the subject of the import is written to. *)
Example second_import_subject :
  log_of (publish JETSTREAM 0 [a_sub (a_conn 2 CLIENT) None (Some (mkImport None false (lit "to.first"))); a_sub (a_conn 3 CLIENT) None (Some (mkImport None false (lit "x")))] [] "deliver.me")
  = [(2, "MSG deliver.me 1 2"); (3, "MSG xo.first 1 2")]%string.
Proof. by vm_compute. Qed.
