(* ===== verification/RecordUpdate.v ===== *)
(** * Updates of one field of a record

    Structs with dozens of fields that the code assigns one at a time: [r <| f := v |>] is [r] with
    the field [f] replaced.  A record has an instance of [Rebuild], its constructor applied to its
    own fields; the setter of a field is derived from it. *)

From S2P Require Import Prelude.

(** [rebuild r] is [r], written field by field. *)
Class Rebuild (R : Type) : Type := rebuild : R -> R.

Class Setter {R E : Type} (field : R -> E) : Type := update : (E -> E) -> R -> R.

(** The setter of [field] is [rebuild] with [field] abstracted and applied to the new value. *)
Ltac derive_setter :=
  lazymatch goal with
  | |- @Setter ?R ?E ?field =>
      let whole := eval hnf in (@rebuild R _) in
      let abstracted := eval pattern field in whole in
      lazymatch abstracted with
      | ?build _ => exact (fun (change : E -> E) => build (fun r => change (field r)))
      end
  end.

#[export] Hint Extern 0 (Setter _) => derive_setter : typeclass_instances.

Notation "r <| field := v |>" := (update (field := field) (fun _ => v) r)
  (at level 12, left associativity, field at level 11, v at level 200, format "r  <| field  :=  v |>").
