(* ===== verification/RaftCodec.v ===== *)
(** * Messages and files of the Raft nodes (src/server/raft.go)

    The bytes of append entries, votes and their responses, of the peer state, the term and vote
    and the snapshots, with their readers.  A slice that is read may have capacity past its
    length, of which the contents are an argument where the code can reach them; a panic is
    [None]. *)

From S2P Require Import Prelude Binary.

Module RaftCodec.

(** A node is named by the first [idLen] bytes of the hash of its server's name. *)
Notation peer := (list Z) (only parsing).

Definition idLen : nat := 8.
Definition noLeader : peer := [].
Definition noVote : peer := [].

(** The subjects of a group: votes, append entries, forwarded proposals, and the inboxes that a
    node makes for replies and for catching up. *)
Inductive subject : Type :=
  | NoSubj | VoteSubj | AppendSubj | PropSubj | RemovePeerSubj
  | VoteReply (p : peer) | AppendReply (p : peer) | CatchupReply (p : peer) (k : Z) | ClientReply (k : Z).

#[export] Instance subject_eq : EqDecision subject.
Proof. solve_decision. Defined.

Inductive codec_err : Type := errLeaderLen | errTooManyEntries | errBadAppendEntry | errCorruptPeers.

#[export] Instance codec_err_eq : EqDecision codec_err.
Proof. solve_decision. Defined.

(** ** Slices *)

Definition zlen {A} (l : list A) : Z := Z.of_nat (length l).

(** [b[lo:hi]], where [spare] is what the array of [b] holds behind it. *)
Definition reslice (b spare : list Z) (lo hi : Z) : option (list Z) :=
  if (0 <=? lo) && (lo <=? hi) && (hi <=? zlen b + zlen spare)
  then Some (take (Z.to_nat (hi - lo)) (drop (Z.to_nat lo) (b ++ spare))) else None.

(** [copy(dst, src)]. *)
Definition copy (dst src : list Z) : list Z := take (length dst) src ++ drop (length src) dst.

Definition zeros (n : nat) : list Z := replicate n 0.

(** [le.Uint64(b[i:])] and the like: a read past the end panics. *)
Definition read_le (w : nat) (b : list Z) (i : nat) : option Z :=
  if (i + w <=? length b)%nat then Some (le_get w (drop i b)) else None.

(** ** Append entries *)

Definition EntryNormal : Z := 0.
Definition EntryOldSnapshot : Z := 1.
Definition EntryPeerState : Z := 2.
Definition EntryAddPeer : Z := 3.
Definition EntryRemovePeer : Z := 4.
Definition EntryLeaderTransfer : Z := 5.
Definition EntrySnapshot : Z := 6.
Definition EntryCatchup : Z := 7.

Record Entry : Type := mkEntry { Type_ : Z; Data : list Z }.

Definition ChangesMembership (e : Entry) : bool := (Type_ e =? EntryAddPeer) || (Type_ e =? EntryRemovePeer).

Record appendEntry : Type := mkAppendEntry {
  ae_leader : peer; ae_term : Z; ae_commit : Z; ae_pterm : Z; ae_pindex : Z; ae_entries : list Entry;
  ae_lterm : Z; ae_reply : subject; ae_sub : option subject; ae_buf : list Z }.

Definition newAppendEntry (leader : peer) (term commit pterm pindex : Z) (entries : list Entry) : appendEntry :=
  mkAppendEntry leader term commit pterm pindex entries 0 NoSubj None [].

Definition appendEntryBaseLen : nat := 42.

Definition encode_entry (e : Entry) : list Z := le_put 4 (u32 (1 + zlen (Data e))) ++ Type_ e :: Data e.

(** [b] is the whole array of the buffer that the caller lends. *)
Definition encode (ae : appendEntry) (b : list Z) : codec_err + list Z :=
  if negb (Nat.eqb (length (ae_leader ae)) idLen) && negb (Nat.eqb (length (ae_leader ae)) 0) then inl errLeaderLen else
  if 65535 <? zlen (ae_entries ae) then inl errTooManyEntries else
  if existsb (fun e => 2 ^ 31 - 1 <? zlen (Data e)) (ae_entries ae) then inl errBadAppendEntry else
  let elen := foldr (fun e a => u64 (a + (zlen (Data e) + 1 + 4))) 0 (ae_entries ae) in
  let lterm := put_uvarint (ae_lterm ae) in
  let tlen := u64 (Z.of_nat appendEntryBaseLen + elen + zlen lterm) in
  let buf := if tlen <=? zlen b then take idLen b else zeros idLen in
  inr (copy buf (ae_leader ae) ++ le_put 8 (ae_term ae) ++ le_put 8 (ae_commit ae) ++ le_put 8 (ae_pterm ae) ++ le_put 8 (ae_pindex ae) ++
       le_put 2 (u16 (zlen (ae_entries ae))) ++ concat (map encode_entry (ae_entries ae)) ++ lterm).

Fixpoint decode_entries (ne : nat) (msg : list Z) (ri : nat) : option (codec_err + (list Entry * nat)) :=
  match ne with
  | O => Some (inr ([], ri))
  | S ne =>
      if u64 (zlen msg - Z.of_nat ri) <? 4 then Some (inl errBadAppendEntry) else
      ml ← read_le 4 msg ri;
      let ri := (ri + 4)%nat in
      if (ml <=? 0) || (zlen msg <? Z.of_nat ri + ml) then Some (inl errBadAppendEntry) else
      t ← msg !! ri;
      data ← reslice msg [] (Z.of_nat ri + 1) (Z.of_nat ri + ml);
      r ← decode_entries ne msg (ri + Z.to_nat ml);
      Some (match r with inl e => inl e | inr (es, ri) => inr (mkEntry t data :: es, ri) end)
  end.

Definition decodeAppendEntry (msg : list Z) (sub : option subject) (reply : subject) : option (codec_err + appendEntry) :=
  if (length msg <? appendEntryBaseLen)%nat then Some (inl errBadAppendEntry) else
  leader ← reslice msg [] 0 8;
  term ← read_le 8 msg 8; commit ← read_le 8 msg 16; pterm ← read_le 8 msg 24; pindex ← read_le 8 msg 32;
  ne ← read_le 2 msg 40;
  r ← decode_entries (Z.to_nat ne) msg appendEntryBaseLen;
  match r with
  | inl e => Some (inl e)
  | inr (es, ri) =>
      rest ← reslice msg [] (Z.of_nat ri) (zlen msg);
      let lterm := match rest with [] => 0 | _ => let '(lterm, n) := uvarint rest in if 0 <? n then lterm else 0 end in
      Some (inr (mkAppendEntry leader term commit pterm pindex es lterm reply sub msg))
  end.

Definition shouldStore (ae : appendEntry) : bool := 0 <? zlen (ae_entries ae).

(** ** Responses *)

Definition appendEntryResponseLen : nat := 25.

Record appendEntryResponse : Type := mkAppendEntryResponse {
  ar_term : Z; ar_index : Z; ar_peer : peer; ar_reply : subject; ar_success : bool }.

Definition newAppendEntryResponse (term index : Z) (p : peer) (success : bool) : appendEntryResponse :=
  mkAppendEntryResponse term index p NoSubj success.

(** The scratch buffers of the callers are large enough and zeroed. *)
Definition encode_ar (ar : appendEntryResponse) : list Z :=
  le_put 8 (ar_term ar) ++ le_put 8 (ar_index ar) ++ copy (zeros idLen) (ar_peer ar) ++ [if ar_success ar then 1 else 0].

(** [None] is the result nil. *)
Definition decodeAppendEntryResponse (msg : list Z) : option appendEntryResponse :=
  if negb (Nat.eqb (length msg) appendEntryResponseLen) then None else
  Some (mkAppendEntryResponse (le_get 8 msg) (le_get 8 (drop 8 msg)) (take idLen (drop 16 msg)) NoSubj (bool_decide (msg !! 24%nat = Some 1))).

(** ** Votes *)

Definition voteRequestLen : nat := 32.

Record voteRequest : Type := mkVoteRequest {
  vr_term : Z; vr_lastTerm : Z; vr_lastIndex : Z; vr_candidate : peer; vr_reply : subject }.

Definition encode_vr (vr : voteRequest) : list Z :=
  le_put 8 (vr_term vr) ++ le_put 8 (vr_lastTerm vr) ++ le_put 8 (vr_lastIndex vr) ++ copy (zeros idLen) (vr_candidate vr).

Definition decodeVoteRequest (msg : list Z) (reply : subject) : option voteRequest :=
  if negb (Nat.eqb (length msg) voteRequestLen) then None else
  Some (mkVoteRequest (le_get 8 msg) (le_get 8 (drop 8 msg)) (le_get 8 (drop 16 msg)) (take idLen (drop 24 msg)) reply).

Definition voteResponseLen : nat := 17.

Record voteResponse : Type := mkVoteResponse { vs_term : Z; vs_peer : peer; vs_granted : bool; vs_empty : bool }.

(** [copy(buf[8:], vr.peer)] may also fill the last byte, in which the flags are then set. *)
Definition encode_vs (vr : voteResponse) : list Z :=
  let buf := copy (zeros 9) (vs_peer vr) in
  let flags := nth 8 buf 0 in
  let flags := if vs_granted vr then Z.lor flags 1 else flags in
  let flags := if vs_empty vr then Z.lor flags 2 else flags in
  le_put 8 (vs_term vr) ++ take 8 buf ++ [flags].

Definition decodeVoteResponse (msg : list Z) : option voteResponse :=
  if negb (Nat.eqb (length msg) voteResponseLen) then None else
  let flags := nth 16 msg 0 in
  Some (mkVoteResponse (le_get 8 msg) (take idLen (drop 8 msg)) (negb (Z.land flags 1 =? 0)) (negb (Z.land flags 2 =? 0))).

(** ** Peer state *)

Definition extUndetermined : Z := 0.

Record peerState : Type := mkPeerState { knownPeers : list peer; clusterSize : Z; domainExt : Z }.

(** The peers are copied one after the other into a zeroed buffer: a longer name is cut by the
    next one, or by the two bytes of [domainExt]. *)
Fixpoint put_peers (ps : list peer) (buf : list Z) : list Z :=
  match ps with
  | [] => buf
  | p :: ps => let buf := copy buf p in take idLen buf ++ put_peers ps (drop idLen buf)
  end.

Definition encodePeerState (ps : peerState) : list Z :=
  let n := length (knownPeers ps) in
  let names := put_peers (knownPeers ps) (zeros (idLen * n + 2)) in
  le_put 4 (u32 (clusterSize ps)) ++ le_put 4 (u32 (zlen (knownPeers ps))) ++ take (idLen * n) names ++ le_put 2 (domainExt ps).

Fixpoint decode_peers (fuel : nat) (buf spare : list Z) (expected i ri : Z) : option (list peer * Z) :=
  match fuel with
  | O => Some ([], ri)
  | S fuel =>
      if (i <? expected) && (ri <? zlen buf) then
        p ← reslice buf spare ri (ri + 8);
        '(ps, ri) ← decode_peers fuel buf spare expected (i + 1) (ri + 8);
        Some (p :: ps, ri)
      else Some ([], ri)
  end.

(** A round reads eight bytes of the buffer: there are at most as many as it has bytes. *)
Definition decodePeerState (buf spare : list Z) : option (codec_err + peerState) :=
  if (length buf <? 8)%nat then Some (inl errCorruptPeers) else
  let csz := le_get 4 buf in
  let expected := le_get 4 (drop 4 buf) in
  let buf := drop 8 buf in
  '(ps, ri) ← decode_peers (length buf) buf spare expected 0 0;
  if negb (zlen ps =? expected) then Some (inl errCorruptPeers) else
  rest ← reslice buf [] ri (zlen buf);
  Some (inr (mkPeerState ps csz (if (2 <=? length rest)%nat then le_get 2 rest else extUndetermined))).

(** ** Term and vote *)

Definition termLen : nat := 8.
Definition termVoteLen : nat := 16.

(** The bytes that [writeTermVote] builds; a vote of more than eight bytes would panic. *)
Definition term_vote (term : Z) (vote : peer) : option (list Z) :=
  if (idLen <? length vote)%nat then None else Some (le_put 8 term ++ vote).

Definition read_term_vote (buf : list Z) : Z * peer :=
  if (length buf <? termLen)%nat then (0, noVote) else
  let term := le_get 8 buf in
  if (length buf <? termVoteLen)%nat then (term, noVote) else (term, drop 8 buf).

(** ** Snapshots *)

Definition minSnapshotLen : nat := 28.

Record snapshot : Type := mkSnapshot { lastTerm : Z; lastIndex : Z; peerstate : list Z; snapdata : list Z }.

Section snapshots.
(** The 64-bit hash of the group. *)
Variable hash64 : list Z -> list Z.

Definition encodeSnapshot (snap : snapshot) : list Z :=
  let buf := le_put 8 (lastTerm snap) ++ le_put 8 (lastIndex snap) ++ le_put 4 (u32 (zlen (peerstate snap))) ++ peerstate snap ++ snapdata snap in
  buf ++ hash64 buf.

(** The contents of a snapshot file; [inl] is [errSnapshotCorrupt]. *)
Definition decode_snapshot (buf spare : list Z) : option (unit + snapshot) :=
  if (length buf <? minSnapshotLen)%nat then Some (inl tt) else
  let hoff := (length buf - 8)%nat in
  if negb (bool_decide (drop hoff buf = hash64 (take hoff buf))) then Some (inl tt) else
  let lps := le_get 4 (drop 16 buf) in
  ps ← reslice buf spare 20 (u32 (20 + lps));
  data ← reslice buf spare (u32 (20 + lps)) (Z.of_nat hoff);
  Some (inr (mkSnapshot (le_get 8 buf) (le_get 8 (drop 8 buf)) ps data)).
End snapshots.
End RaftCodec.
