(* ===== verification/RaftCodecSpec.v ===== *)
(** * The messages and files of Raft nodes are read as they were written

    Round trips of every format, and which bytes make a reader panic. *)

From S2P Require Import Prelude Binary RaftCodec.
Import RaftCodec.

Open Scope list_scope.

(** ** Reading behind a prefix *)

Lemma zlen_app {A} (l1 l2 : list A) : zlen (l1 ++ l2) = zlen l1 + zlen l2.
Proof. unfold zlen. rewrite length_app. lia. Qed.

Lemma read_le_skip w (p q : list Z) i k : length p = k -> (k <= i)%nat -> read_le w (p ++ q) i = read_le w q (i - k).
Proof.
  intros <- Hi. unfold read_le. rewrite length_app, drop_app_ge by lia.
  destruct (Nat.leb_spec (i + w) (length p + length q)), (Nat.leb_spec (i - length p + w) (length q)); lia || done.
Qed.

Lemma read_le_here w (v : Z) (q : list Z) : 0 <= v < 256 ^ Z.of_nat w -> read_le w (le_put w v ++ q) 0 = Some v.
Proof.
  intros Hv. unfold read_le. rewrite length_app, length_le_put, drop_0, le_get_put by done.
  by rewrite (proj2 (Nat.leb_le _ _)) by lia.
Qed.

Lemma reslice_part (p q r spare : list Z) lo hi :
  lo = zlen p -> hi = zlen p + zlen q -> reslice (p ++ q ++ r) spare lo hi = Some q.
Proof.
  intros -> ->. unfold reslice. rewrite !zlen_app.
  assert (0 <= zlen p /\ 0 <= zlen q /\ 0 <= zlen r /\ 0 <= zlen spare) as (? & ? & ? & ?) by (unfold zlen; lia).
  rewrite (proj2 (Z.leb_le 0 (zlen p))), (proj2 (Z.leb_le (zlen p) _)), (proj2 (Z.leb_le (zlen p + zlen q) _)) by lia.
  cbn [andb]. f_equal. replace (Z.to_nat (zlen p)) with (length p) by (unfold zlen; lia).
  rewrite <- !app_assoc, drop_app_length. replace (zlen p + zlen q - zlen p) with (zlen q) by lia.
  unfold zlen. by rewrite Nat2Z.id, take_app_length.
Qed.

Lemma reslice_total b lo hi : 0 <= lo <= hi /\ hi <= zlen b -> is_Some (reslice b [] lo hi).
Proof.
  intros H. unfold reslice. change (zlen []) with 0.
  destruct (Z.leb_spec 0 lo), (Z.leb_spec lo hi), (Z.leb_spec hi (zlen b + 0)); lia || done.
Qed.

Lemma copy_same (dst src : list Z) : length dst = length src -> copy dst src = src.
Proof. intros H. unfold copy. by rewrite H, firstn_all, <- H, drop_all, app_nil_r. Qed.

Lemma length_copy (dst src : list Z) : length (copy dst src) = length dst.
Proof. unfold copy. rewrite length_app, length_take, length_drop. lia. Qed.

(** ** Append entries *)

Definition entry_ok (e : Entry) : Prop := zlen (Data e) < 2 ^ 31.

Lemma entry_size_small e : entry_ok e -> u32 (1 + zlen (Data e)) = 1 + zlen (Data e).
Proof. unfold entry_ok, u32. intros He. apply Z.mod_small. unfold zlen in *. lia. Qed.

Lemma zlen_encode_entry e : zlen (encode_entry e) = 4 + (1 + zlen (Data e)).
Proof. unfold encode_entry. rewrite zlen_app. unfold zlen. rewrite length_le_put. cbn [length]. lia. Qed.

Lemma read_entry_size e rest : entry_ok e -> read_le 4 (encode_entry e ++ rest) 0 = Some (1 + zlen (Data e)).
Proof.
  intros He. unfold encode_entry. rewrite entry_size_small, <- app_assoc by done. apply read_le_here.
  unfold entry_ok, zlen in *. cbn. lia.
Qed.

Lemma entry_split pre e rest :
  entry_ok e -> pre ++ encode_entry e ++ rest = (pre ++ le_put 4 (1 + zlen (Data e))) ++ Type_ e :: Data e ++ rest.
Proof. intros He. unfold encode_entry. by rewrite entry_size_small, <- !app_assoc by done. Qed.

Lemma read_entry_type pre e rest : entry_ok e -> (pre ++ encode_entry e ++ rest) !! (length pre + 4)%nat = Some (Type_ e).
Proof.
  intros He. rewrite entry_split by done. apply list_lookup_middle. by rewrite length_app, length_le_put.
Qed.

Lemma read_entry_data pre e rest :
  entry_ok e -> reslice (pre ++ encode_entry e ++ rest) [] (zlen pre + 4 + 1) (zlen pre + 4 + (1 + zlen (Data e))) = Some (Data e).
Proof.
  intros He. rewrite entry_split by done. set (p2 := pre ++ _).
  change (Type_ e :: Data e ++ rest) with ([Type_ e] ++ Data e ++ rest). rewrite (app_assoc p2).
  assert (zlen p2 = zlen pre + 4) as Hp by (unfold p2; rewrite zlen_app; unfold zlen; rewrite length_le_put; lia).
  apply reslice_part; rewrite zlen_app; change (zlen [Type_ e]) with 1; lia.
Qed.

Lemma decode_entries_encode es : forall pre rest,
  Forall entry_ok es -> zlen (pre ++ concat (map encode_entry es) ++ rest) < 2 ^ 64 ->
  decode_entries (length es) (pre ++ concat (map encode_entry es) ++ rest) (length pre) =
    Some (inr (es, (length pre + length (concat (map encode_entry es)))%nat)).
Proof.
  induction es as [|e es IH]; intros pre rest Hok Hlen; [cbn; by rewrite Nat.add_0_r|].
  inversion Hok as [|? ? He Hes]; subst. pose proof (zlen_encode_entry e) as Hze.
  cbn [map concat length decode_entries] in *. rewrite <- !app_assoc in *.
  set (tail := concat (map encode_entry es) ++ rest) in *.
  assert (0 <= zlen tail) by (unfold zlen; lia). assert (0 <= zlen pre) by (unfold zlen; lia).
  assert (0 <= zlen (Data e)) by (unfold zlen; lia). rewrite !zlen_app in *.
  change (Z.of_nat (length pre)) with (zlen pre).
  rewrite u64_small, (proj2 (Z.ltb_ge _ _)) by (unfold is_u64; lia).
  rewrite (read_le_skip 4 pre _ _ (length pre)), Nat.sub_diag by lia.
  rewrite read_entry_size by done.
  cbn [mbind option_bind]. replace (Z.of_nat (length pre + 4)) with (zlen pre + 4) by (unfold zlen; lia).
  rewrite (proj2 (Z.leb_gt _ _)), (proj2 (Z.ltb_ge _ _)) by lia. cbn [orb].
  rewrite read_entry_type, read_entry_data by done. cbn [mbind option_bind].
  replace (length pre + 4 + Z.to_nat (1 + zlen (Data e)))%nat with (length (pre ++ encode_entry e))
    by (rewrite length_app; unfold zlen in *; lia).
  rewrite (app_assoc pre (encode_entry e)). unfold tail.
  rewrite IH; [|done|rewrite !zlen_app in *; unfold tail in *; rewrite zlen_app in *; lia].
  cbn [mbind option_bind]. do 3 f_equal; [by destruct e|]. rewrite !length_app. lia.
Qed.

Record ae_ok (ae : appendEntry) : Prop := {
  aeok_leader : length (ae_leader ae) = idLen;
  aeok_term : is_u64 (ae_term ae); aeok_commit : is_u64 (ae_commit ae);
  aeok_pterm : is_u64 (ae_pterm ae); aeok_pindex : is_u64 (ae_pindex ae); aeok_lterm : is_u64 (ae_lterm ae);
  aeok_count : zlen (ae_entries ae) <= 65535;
  aeok_entries : Forall entry_ok (ae_entries ae) }.

Definition encoded (ae : appendEntry) : list Z :=
  ae_leader ae ++ le_put 8 (ae_term ae) ++ le_put 8 (ae_commit ae) ++ le_put 8 (ae_pterm ae) ++ le_put 8 (ae_pindex ae) ++
  le_put 2 (zlen (ae_entries ae)) ++ concat (map encode_entry (ae_entries ae)) ++ put_uvarint (ae_lterm ae).

Lemma put_uvarint_loop_max fuel v : (length (put_uvarint_loop fuel v) <= fuel)%nat.
Proof. revert v. induction fuel as [|fuel IH]; intros v; cbn; [lia|]. destruct (v <? 128); cbn; [lia|]. specialize (IH (Z.shiftr v 7)). lia. Qed.

Lemma put_uvarint_max v : (length (put_uvarint v) <= 10)%nat.
Proof. apply put_uvarint_loop_max. Qed.

Lemma entries_size_bound es :
  Forall entry_ok es -> zlen es <= 65535 ->
  0 <= foldr (fun e a => u64 (a + (zlen (Data e) + 1 + 4))) 0 es <= zlen es * 2147483653.
Proof.
  induction es as [|e es IH]; intros Hok Hn; [unfold zlen; cbn; lia|].
  inversion Hok as [|? ? He Hes]; subst. unfold entry_ok in He.
  replace (zlen (e :: es)) with (zlen es + 1) in * by (unfold zlen; cbn [length]; lia).
  assert (0 <= zlen es /\ 0 <= zlen (Data e)) as [? ?] by (unfold zlen; lia).
  specialize (IH Hes ltac:(lia)). cbn [foldr]. change (2 ^ 31) with 2147483648 in He. rewrite u64_small by (unfold is_u64; lia). lia.
Qed.

Lemma encode_ok ae b : ae_ok ae -> encode ae b = inr (encoded ae).
Proof.
  intros [Hl Ht Hc Hpt Hpi Hlt Hn He]. pose proof (entries_size_bound _ He Hn) as Hsz.
  unfold encode. rewrite Hl. cbn [Nat.eqb idLen negb andb]. rewrite (proj2 (Z.ltb_ge _ _)) by done.
  replace (existsb _ (ae_entries ae)) with false.
  2: { symmetry. apply not_true_iff_false. rewrite existsb_exists. intros (e & Hin & Hbig).
       rewrite Forall_forall in He. apply list_elem_of_In, He in Hin. unfold entry_ok in Hin. go_bool. lia. }
  f_equal. unfold encoded. rewrite copy_same.
  - replace (u16 (zlen (ae_entries ae))) with (zlen (ae_entries ae)); [done|].
    symmetry. apply Z.mod_small. unfold zlen in *. lia.
  - rewrite Hl. pose proof (put_uvarint_max (ae_lterm ae)).
    set (sz := foldr _ _ _) in *. clearbody sz. change (Z.of_nat appendEntryBaseLen) with 42.
    rewrite u64_small by (unfold is_u64, zlen in *; lia).
    destruct (Z.leb_spec (42 + sz + zlen (put_uvarint (ae_lterm ae))) (zlen b)) as [Hb|]; [|done].
    rewrite length_take. unfold zlen in Hb. unfold idLen. lia.
Qed.

(** Whatever is encoded has a whole header. *)
Lemma encode_length ae b buf : encode ae b = inr buf -> (appendEntryBaseLen <= length buf)%nat.
Proof.
  unfold encode. case_match; [done|]. destruct (Z.ltb_spec 65535 (zlen (ae_entries ae))) as [|Hn]; [done|].
  destruct (existsb _ _) eqn:He; [done|]. intros Hb%(inj inr). subst buf.
  assert (Forall entry_ok (ae_entries ae)) as Hok.
  { rewrite Forall_forall. intros e Hin. apply list_elem_of_In in Hin. unfold entry_ok.
    assert (existsb (fun e => 2 ^ 31 - 1 <? zlen (Data e)) (ae_entries ae) <> true) as Hne by congruence.
    rewrite existsb_exists in Hne. destruct (decide (zlen (Data e) < 2 ^ 31)); [done|]. exfalso. apply Hne. exists e. split; [done|].
    apply Z.ltb_lt. lia. }
  pose proof (entries_size_bound _ Hok Hn) as Hsz. set (sz := foldr _ _ _) in *. clearbody sz.
  pose proof (put_uvarint_max (ae_lterm ae)). change (Z.of_nat appendEntryBaseLen) with 42.
  rewrite u64_small by (unfold is_u64, zlen in *; lia).
  rewrite !length_app, !length_le_put, length_copy.
  destruct (Z.leb_spec (42 + sz + zlen (put_uvarint (ae_lterm ae))) (zlen b)) as [Hb|].
  - rewrite length_take. unfold zlen, appendEntryBaseLen, idLen in *. lia.
  - unfold zeros. rewrite length_replicate. unfold appendEntryBaseLen, idLen. lia.
Qed.

Lemma decode_length msg sub reply ae :
  decodeAppendEntry msg sub reply = Some (inr ae) -> ae_buf ae = msg /\ (appendEntryBaseLen <= length msg)%nat.
Proof.
  unfold decodeAppendEntry. destruct (Nat.ltb_spec (length msg) appendEntryBaseLen) as [|Hlen]; [done|].
  intros (leader & _ & Hd)%bind_Some. do 5 apply bind_Some in Hd as (? & _ & Hd). apply bind_Some in Hd as (r & _ & Hd).
  destruct r as [|[es ri]]; [done|]. by apply bind_Some in Hd as (rest & _ & [= <-]).
Qed.

(** What a reader makes of the bytes: the entry as it was sent, with where it came in. *)
Definition received (ae : appendEntry) (sub : option subject) (reply : subject) : appendEntry :=
  mkAppendEntry (ae_leader ae) (ae_term ae) (ae_commit ae) (ae_pterm ae) (ae_pindex ae) (ae_entries ae) (ae_lterm ae) reply sub (encoded ae).

Ltac read_fields :=
  repeat (rewrite (read_le_skip _ (le_put 8 _) _ _ 8) by (apply length_le_put || (cbn; lia)); cbn [Nat.sub]);
  apply read_le_here.

Lemma encoded_header ae : ae_ok ae ->
  read_le 8 (encoded ae) 8 = Some (ae_term ae) /\ read_le 8 (encoded ae) 16 = Some (ae_commit ae) /\
  read_le 8 (encoded ae) 24 = Some (ae_pterm ae) /\ read_le 8 (encoded ae) 32 = Some (ae_pindex ae) /\
  read_le 2 (encoded ae) 40 = Some (zlen (ae_entries ae)).
Proof.
  intros [Hl Ht Hc Hpt Hpi Hlt Hn He]. unfold encoded. rewrite !(read_le_skip _ (ae_leader ae) _ _ 8) by (done || lia).
  cbn [Nat.sub]. split_and!; read_fields; unfold is_u64, zlen in *; cbn; lia.
Qed.

Lemma decode_encoded ae sub reply :
  ae_ok ae -> zlen (encoded ae) < 2 ^ 64 -> decodeAppendEntry (encoded ae) sub reply = Some (inr (received ae sub reply)).
Proof.
  intros [Hl Ht Hc Hpt Hpi Hlt Hn He] Hlen. unfold decodeAppendEntry. unfold is_u64 in *.
  pose proof (put_uvarint_length (ae_lterm ae)) as Hlp.
  set (w := encoded ae) in *. set (ents := concat (map encode_entry (ae_entries ae))).
  set (h := ae_leader ae ++ le_put 8 (ae_term ae) ++ le_put 8 (ae_commit ae) ++ le_put 8 (ae_pterm ae) ++ le_put 8 (ae_pindex ae) ++ le_put 2 (zlen (ae_entries ae))).
  assert (length h = appendEntryBaseLen) as Hh by (unfold h; rewrite !length_app, !length_le_put, Hl; done).
  assert (w = h ++ ents ++ put_uvarint (ae_lterm ae)) as Hw by (unfold w, encoded, h; by rewrite <- !app_assoc).
  rewrite (proj2 (Nat.ltb_ge _ _)) by (rewrite Hw, length_app, Hh; lia).
  assert (0 <= zlen (ae_entries ae)) by (unfold zlen; lia).
  replace (reslice w [] 0 8) with (Some (ae_leader ae))
    by (symmetry; unfold w, encoded; apply (reslice_part []); unfold zlen; rewrite ?Hl; done).
  destruct (encoded_header ae) as (Ht' & Hc' & Hp' & Hi' & Hn'); [done|]. fold w in Ht', Hc', Hp', Hi', Hn'. rewrite Ht', Hc', Hp', Hi', Hn'. cbn [mbind option_bind].
  replace (Z.to_nat (zlen (ae_entries ae))) with (length (ae_entries ae)) by (unfold zlen; lia).
  rewrite Hw, <- Hh. unfold ents. rewrite decode_entries_encode by (done || by rewrite Hw in Hlen). fold ents. cbn [mbind option_bind].
  replace (reslice _ [] _ _) with (Some (put_uvarint (ae_lterm ae))).
  2: { symmetry. rewrite (app_assoc h), <- (app_nil_r (put_uvarint _)) at 1.
       apply reslice_part; rewrite ?zlen_app; unfold zlen; rewrite ?length_app; lia. }
  cbn [mbind option_bind]. destruct (put_uvarint (ae_lterm ae)) as [|x l] eqn:E; [cbn in Hlp; lia|].
  rewrite <- E, <- (app_nil_r (put_uvarint _)), uvarint_put by done. rewrite (proj2 (Z.ltb_lt _ _)) by (rewrite E; cbn; lia).
  do 2 f_equal. unfold received. rewrite app_nil_r in *. f_equal. fold w. rewrite Hw. by rewrite E.
Qed.

Lemma encoded_size ae : ae_ok ae -> zlen (encoded ae) < 2 ^ 64.
Proof.
  intros [Hl _ _ _ _ _ Hn He]. assert (zlen (concat (map encode_entry (ae_entries ae))) <= zlen (ae_entries ae) * 2147483653) as Hs.
  { clear -He. induction He as [|e es He _ IH]; [done|]. cbn [map concat]. rewrite zlen_app, zlen_encode_entry. unfold entry_ok in He.
    replace (zlen (e :: es)) with (zlen es + 1) by (unfold zlen; cbn [length]; lia). lia. }
  pose proof (put_uvarint_max (ae_lterm ae)). unfold encoded. rewrite !zlen_app. unfold zlen in *. rewrite !length_le_put, Hl. unfold idLen. lia.
Qed.

(** The fields have the widths of their Go types. *)
Definition fields_ok (ae : appendEntry) : Prop :=
  is_u64 (ae_term ae) /\ is_u64 (ae_commit ae) /\ is_u64 (ae_pterm ae) /\ is_u64 (ae_pindex ae) /\ is_u64 (ae_lterm ae).

(** The first eight bytes of the buffer before the leader is written there: what is in the one
    that the caller lends, if it is large enough, and zeros otherwise. *)
Definition lent (ae : appendEntry) (b : list Z) : list Z :=
  if 42 + foldr (fun e a => 5 + zlen (Data e) + a) 0 (ae_entries ae) + zlen (put_uvarint (ae_lterm ae)) <=? zlen b then take idLen b else zeros idLen.

(** The leader that is read: a name, or for no leader what the buffer had. *)
Definition leader_read (ae : appendEntry) (b : list Z) : peer := match ae_leader ae with [] => lent ae b | _ => ae_leader ae end.

Definition with_leader (ae : appendEntry) (p : peer) : appendEntry :=
  mkAppendEntry p (ae_term ae) (ae_commit ae) (ae_pterm ae) (ae_pindex ae) (ae_entries ae) (ae_lterm ae) (ae_reply ae) (ae_sub ae) (ae_buf ae).

Lemma entries_size_exact es :
  Forall entry_ok es -> zlen es <= 65535 ->
  foldr (fun e a => u64 (a + (zlen (Data e) + 1 + 4))) 0 es = foldr (fun e a => 5 + zlen (Data e) + a) 0 es.
Proof.
  induction es as [|e es IH]; intros Hok Hn; [done|]. pose proof (entries_size_bound (e :: es) Hok Hn) as Hb. inversion Hok as [|? ? He Hes]; subst.
  replace (zlen (e :: es)) with (zlen es + 1) in * by (unfold zlen; cbn [length]; lia). assert (0 <= zlen es /\ 0 <= zlen (Data e)) as [? ?] by (unfold zlen; lia).
  pose proof (entries_size_bound es Hes ltac:(lia)). cbn [foldr]. rewrite <- IH by (done || lia). unfold entry_ok in He. change (2 ^ 31) with 2147483648 in He.
  rewrite u64_small by (unfold is_u64; lia). lia.
Qed.

(** Without a leader the bytes are those of an entry whose leader is what the buffer had. *)
Lemma encode_leader_read ae b :
  Forall entry_ok (ae_entries ae) -> zlen (ae_entries ae) <= 65535 -> length (ae_leader ae) = 0%nat \/ length (ae_leader ae) = idLen ->
  encode ae b = encode (with_leader ae (leader_read ae b)) b /\ length (leader_read ae b) = idLen.
Proof.
  intros He Hn Hl. unfold leader_read. destruct (ae_leader ae) as [|x l] eqn:El; [|destruct Hl as [Hl|Hl]; [done|]; split; [by destruct ae; cbn in *; subst|done]].
  assert (length (lent ae b) = idLen) as Hlen.
  { unfold lent. case_match; [|done]. rewrite length_take. go_bool. pose proof (entries_size_bound _ He Hn). rewrite entries_size_exact in * by done. unfold zlen, idLen in *. lia. }
  split; [|done]. unfold encode, with_leader. cbn [ae_leader ae_entries ae_lterm ae_term ae_commit ae_pterm ae_pindex].
  rewrite El, Hlen, !entries_size_exact by done. cbn [length Nat.eqb negb andb idLen].
  pose proof (entries_size_bound _ He Hn). rewrite entries_size_exact in * by done. pose proof (put_uvarint_max (ae_lterm ae)).
  change (Z.of_nat appendEntryBaseLen) with 42. rewrite !u64_small by (unfold is_u64, zlen in *; lia). fold (lent ae b). rewrite (copy_same _ (lent ae b)) by done.
  by unfold copy; rewrite take_nil.
Qed.

(** What [encode] refuses. *)
Lemma encode_refuses ae b :
  match encode ae b with
  | inl _ => (length (ae_leader ae) <> 0%nat /\ length (ae_leader ae) <> idLen) \/ 65535 < zlen (ae_entries ae) \/ Exists (fun e => 2 ^ 31 <= zlen (Data e)) (ae_entries ae)
  | inr _ => (length (ae_leader ae) = 0%nat \/ length (ae_leader ae) = idLen) /\ zlen (ae_entries ae) <= 65535 /\ Forall entry_ok (ae_entries ae)
  end.
Proof.
  unfold encode. destruct (Nat.eqb_spec (length (ae_leader ae)) idLen), (Nat.eqb_spec (length (ae_leader ae)) 0); cbn [negb andb]; [unfold idLen in *; lia| | |by left]; (destruct (Z.ltb_spec 65535 (zlen (ae_entries ae))); [by right; left|]).
  all: destruct (existsb _ _) eqn:Ex; [right; right|split; [by auto|split; [done|]]].
  1,3: apply existsb_exists in Ex as (x & Hin & Hbig%Z.ltb_lt); apply Exists_exists; exists x; split; [by apply list_elem_of_In|lia].
  all: apply Forall_forall; intros x Hin; unfold entry_ok; apply list_elem_of_In in Hin; apply Z.nle_gt; intros Hbig.
  all: rewrite (proj2 (existsb_exists _ _)) in Ex; [done|]; exists x; split; [done|apply Z.ltb_lt; lia].
Qed.

(** C38. An append entry is read as it was sent.  [encode] refuses a leader that is neither empty nor
    eight bytes, more than 65535 entries, and an entry of 2^31 bytes or more; otherwise the bytes
    that it makes, in whatever buffer the sender lends, give the receiver the same terms, indices
    and entries, the term of the sender of a catchup, and the same leader.  Only an empty leader
    is not read as empty: the receiver gets the eight bytes that the buffer had there, which are
    zeros when it is a new one. *)
Theorem append_entry_roundtrip ae b sub reply :
  fields_ok ae ->
  match encode ae b with
  | inl _ => (length (ae_leader ae) <> 0%nat /\ length (ae_leader ae) <> idLen) \/ 65535 < zlen (ae_entries ae) \/ Exists (fun e => 2 ^ 31 <= zlen (Data e)) (ae_entries ae)
  | inr buf => decodeAppendEntry buf sub reply = Some (inr (mkAppendEntry (leader_read ae b)
      (ae_term ae) (ae_commit ae) (ae_pterm ae) (ae_pindex ae) (ae_entries ae) (ae_lterm ae) reply sub buf))
  end.
Proof.
  intros (Ht & Hc & Hpt & Hpi & Hlt). pose proof (encode_refuses ae b) as Hr. destruct (encode ae b) as [|buf] eqn:E; [done|].
  destruct Hr as (Hl & Hn & He). destruct (encode_leader_read ae b He Hn Hl) as [Heq Hlen]. rewrite Heq in E.
  assert (ae_ok (with_leader ae (leader_read ae b))) as Hok by (by split).
  rewrite encode_ok in E by done. inversion E. apply decode_encoded; [done|by apply encoded_size].
Qed.

Definition sample_entry : appendEntry :=
  mkAppendEntry [83; 49; 83; 49; 83; 49; 83; 49] 3 7 2 8 [mkEntry EntryNormal [104; 105]; mkEntry EntrySnapshot []] 300 NoSubj None [].

(** The entry of a leader, and the same without a leader in a buffer that was used before. *)
Lemma append_entry_roundtrip_witness :
  (exists buf, encode sample_entry [] = inr buf /\ decodeAppendEntry buf (Some AppendSubj) (AppendReply [1]) =
    Some (inr (mkAppendEntry [83; 49; 83; 49; 83; 49; 83; 49] 3 7 2 8 (ae_entries sample_entry) 300 (AppendReply [1]) (Some AppendSubj) buf))) /\
  (exists buf, encode (with_leader sample_entry []) (replicate 60 9) = inr buf /\ decodeAppendEntry buf None NoSubj =
    Some (inr (mkAppendEntry (replicate 8 9) 3 7 2 8 (ae_entries sample_entry) 300 NoSubj None buf))).
Proof.
  split.
  - pose proof (append_entry_roundtrip sample_entry [] (Some AppendSubj) (AppendReply [1])) as H. destruct (encode sample_entry []) as [|buf] eqn:E; [vm_compute in E; discriminate|].
    exists buf. split; [done|]. apply H. repeat split; done.
  - pose proof (append_entry_roundtrip (with_leader sample_entry []) (replicate 60 9) None NoSubj) as H. destruct (encode (with_leader sample_entry []) (replicate 60 9)) as [|buf] eqn:E; [vm_compute in E; discriminate|].
    exists buf. split; [done|]. apply H. repeat split; done.
Defined.

(** Bytes from the network never make the reader of append entries panic. *)
Lemma decode_entries_total ne : forall msg ri, (ri <= length msg)%nat ->
  exists r, decode_entries ne msg ri = Some r /\ forall es ri', r = inr (es, ri') -> (ri' <= length msg)%nat.
Proof.
  induction ne as [|ne IH]; intros msg ri Hri; cbn [decode_entries].
  { exists (inr ([], ri)). split; [done|]. intros ? ? [= <- <-]. done. }
  destruct (Z.ltb_spec (u64 (zlen msg - Z.of_nat ri)) 4) as [_|H4]; [by exists (inl errBadAppendEntry)|].
  assert (4 <= zlen msg - Z.of_nat ri).
  { destruct (decide (zlen msg - Z.of_nat ri < 4)); [|lia]. unfold u64 in H4. rewrite Z.mod_small in H4; unfold zlen in *; lia. }
  unfold read_le. rewrite (proj2 (Nat.leb_le _ _)) by (unfold zlen in *; lia). cbn [mbind option_bind].
  set (ml := le_get 4 (drop ri msg)). clearbody ml.
  destruct ((ml <=? 0) || (zlen msg <? Z.of_nat (ri + 4) + ml)) eqn:Hg; [by exists (inl errBadAppendEntry)|].
  apply orb_false_elim in Hg as [Hm0 Hm1]. go_bool.
  destruct (msg !! (ri + 4)%nat) as [t|] eqn:Et; [|apply lookup_ge_None in Et; unfold zlen in *; lia].
  cbn [mbind option_bind].
  destruct (reslice_total msg (Z.of_nat (ri + 4) + 1) (Z.of_nat (ri + 4) + ml)) as [data ->]; [lia|].
  cbn [mbind option_bind]. destruct (IH msg (ri + 4 + Z.to_nat ml)%nat) as (r & -> & Hr); [unfold zlen in *; lia|].
  cbn [mbind option_bind]. eexists. split; [done|]. intros es ri' Heq. destruct r as [|[es' ri2]]; [done|].
  injection Heq as <- <-. by eapply Hr.
Qed.

Lemma decode_append_entry_total msg sub reply : is_Some (decodeAppendEntry msg sub reply).
Proof.
  unfold decodeAppendEntry. destruct (Nat.ltb_spec (length msg) appendEntryBaseLen) as [|Hlen]; [done|].
  unfold appendEntryBaseLen in *. destruct (reslice_total msg 0 8) as [leader ->]; [unfold zlen; lia|]. unfold read_le.
  rewrite !(proj2 (Nat.leb_le _ _)) by lia. cbn [mbind option_bind].
  destruct (decode_entries_total (Z.to_nat (le_get 2 (drop 40 msg))) msg 42 Hlen) as (r & -> & Hr). cbn [mbind option_bind].
  destruct r as [e|[es ri]]; [done|]. specialize (Hr es ri eq_refl).
  destruct (reslice_total msg (Z.of_nat ri) (zlen msg)) as [rest ->]; [unfold zlen; lia|done].
Qed.

(** ** Votes, responses and the term *)

Lemma take_pre {A} (p q : list A) k : length p = k -> take k (p ++ q) = p.
Proof. intros <-. apply take_app_length. Qed.

Lemma drop_pre {A} (p q : list A) k j : length p = k -> (k <= j)%nat -> drop j (p ++ q) = drop (j - k) q.
Proof. intros <- H. by rewrite drop_app_ge. Qed.

Ltac read_bytes :=
  repeat first [rewrite (drop_pre (le_put 8 _) _ 8) by (apply length_le_put || lia); cbn [Nat.sub] | rewrite drop_0];
  rewrite ?le_get_put by (cbn; lia).

Lemma vote_request_roundtrip vr reply :
  is_u64 (vr_term vr) -> is_u64 (vr_lastTerm vr) -> is_u64 (vr_lastIndex vr) -> length (vr_candidate vr) = idLen ->
  decodeVoteRequest (encode_vr vr) reply = Some (mkVoteRequest (vr_term vr) (vr_lastTerm vr) (vr_lastIndex vr) (vr_candidate vr) reply).
Proof.
  unfold is_u64. intros Ht Hlt Hli Hc. unfold decodeVoteRequest, encode_vr. rewrite copy_same by (by rewrite Hc).
  rewrite !length_app, !length_le_put, Hc. cbn [Nat.eqb negb Nat.add idLen voteRequestLen]. read_bytes.
  by rewrite <- Hc, firstn_all.
Qed.

Lemma vote_response_roundtrip vr :
  is_u64 (vs_term vr) -> length (vs_peer vr) = idLen -> decodeVoteResponse (encode_vs vr) = Some vr.
Proof.
  unfold is_u64. intros Ht Hp. unfold decodeVoteResponse, encode_vs.
  assert (copy (zeros 9) (vs_peer vr) = vs_peer vr ++ [0]) as ->.
  { unfold copy. rewrite take_ge by (rewrite Hp; vm_compute; lia). by rewrite Hp. }
  rewrite app_nth2, take_app_length' by (rewrite ?Hp; vm_compute; lia). rewrite Hp. cbn [nth Nat.sub idLen].
  rewrite !length_app, length_le_put, Hp. cbn [Nat.eqb negb Nat.add idLen voteResponseLen length].
  rewrite app_nth2, app_nth2 by (rewrite ?length_le_put, ?Hp; vm_compute; lia). rewrite length_le_put, Hp. read_bytes.
  rewrite take_app_length' by done. cbn [nth Nat.sub idLen]. destruct vr as [t p [] []]; done.
Qed.

Lemma append_response_roundtrip ar :
  is_u64 (ar_term ar) -> is_u64 (ar_index ar) -> length (ar_peer ar) = idLen ->
  decodeAppendEntryResponse (encode_ar ar) = Some (mkAppendEntryResponse (ar_term ar) (ar_index ar) (ar_peer ar) NoSubj (ar_success ar)).
Proof.
  unfold is_u64. intros Ht Hi Hp. unfold decodeAppendEntryResponse, encode_ar. rewrite copy_same by (by rewrite Hp).
  rewrite !length_app, !length_le_put, Hp. cbn [Nat.eqb negb Nat.add idLen appendEntryResponseLen length]. read_bytes.
  rewrite take_app_length' by done. do 2 f_equal.
  rewrite !app_assoc, list_lookup_middle by (rewrite !length_app, !length_le_put, Hp; done). by destruct (ar_success ar).
Qed.

Lemma term_vote_roundtrip term vote b :
  is_u64 term -> length vote = idLen \/ vote = noVote -> term_vote term vote = Some b -> read_term_vote b = (term, vote).
Proof.
  unfold is_u64, term_vote. intros Ht Hv. destruct (idLen <? length vote)%nat; [done|]. intros Hb%(inj Some). subst b.
  unfold read_term_vote. rewrite length_app, length_le_put, (proj2 (Nat.ltb_ge _ _)) by (unfold termLen; lia).
  rewrite le_get_put by (cbn; lia). destruct Hv as [Hv| ->]; [|done].
  rewrite Hv, (proj2 (Nat.ltb_ge _ _)) by (unfold termVoteLen, idLen; lia). by rewrite drop_app_length'.
Qed.

(** ** Peer state *)

Lemma put_peers_names ps rest : Forall (fun p => length p = idLen) ps -> (length rest = idLen * length ps + 2)%nat ->
  exists rest', put_peers ps rest = concat ps ++ rest' /\ length rest' = 2%nat.
Proof.
  revert rest. induction ps as [|p ps IH]; intros rest Hok Hlen; [exists rest; cbn in *; split; [done|lia]|].
  inversion Hok as [|? ? Hp Hps]; subst. cbn [put_peers concat length] in *. unfold copy.
  rewrite (take_ge p) by (unfold idLen in *; lia).
  destruct (IH (drop idLen (p ++ drop (length p) rest)) Hps) as (r & Hr & Hl).
  { rewrite drop_app_length' by done. rewrite length_drop. unfold idLen in *. lia. }
  exists r. split; [|done]. by rewrite Hr, take_app_length', <- app_assoc by done.
Qed.

Lemma length_concat_names ps : Forall (fun p : peer => length p = idLen) ps -> length (concat ps) = (idLen * length ps)%nat.
Proof. induction 1 as [|p ps Hp _ IH]; [done|]. cbn [concat length]. rewrite length_app, Hp, IH. unfold idLen. lia. Qed.

Lemma decode_peers_names ps : forall pre tail spare fuel i,
  Forall (fun p : peer => length p = idLen) ps -> (length ps <= fuel)%nat ->
  decode_peers fuel (pre ++ concat ps ++ tail) spare (i + zlen ps) i (zlen pre) = Some (ps, zlen pre + zlen (concat ps)).
Proof.
  induction ps as [|p ps IH]; intros pre tail spare fuel i Hok Hf.
  { change (zlen (concat [])) with 0. change (zlen []) with 0. rewrite !Z.add_0_r. destruct fuel; cbn [decode_peers]; [done|].
    rewrite Z.ltb_irrefl. done. }
  inversion Hok as [|? ? Hp Hps]; subst. destruct fuel as [|fuel]; [cbn in Hf; lia|]. cbn [decode_peers].
  assert (zlen (p :: ps) = 1 + zlen ps) as -> by (unfold zlen; cbn [length]; lia).
  assert (0 <= zlen ps /\ 0 <= zlen (concat ps) /\ 0 <= zlen tail /\ 0 <= zlen pre) as (? & ? & ? & ?) by (unfold zlen; lia).
  assert (zlen p = 8) as Hz by (unfold zlen; rewrite Hp; done).
  cbn [concat]. rewrite <- app_assoc, !zlen_app, Hz, !(proj2 (Z.ltb_lt _ _)) by lia. cbn [andb].
  replace (reslice _ spare _ _) with (Some p).
  2: { symmetry. apply reslice_part; [done|lia]. }
  cbn [mbind option_bind]. rewrite (app_assoc pre p). replace (zlen pre + 8) with (zlen (pre ++ p)) by (rewrite zlen_app; lia).
  replace (i + (1 + zlen ps)) with (i + 1 + zlen ps) by lia. rewrite IH by (done || (cbn [length] in Hf; lia)).
  cbn [mbind option_bind]. rewrite zlen_app. do 2 f_equal. lia.
Qed.

Lemma peer_state_roundtrip ps spare :
  Forall (fun p => length p = idLen) (knownPeers ps) -> zlen (knownPeers ps) < 2 ^ 32 ->
  0 <= clusterSize ps < 2 ^ 32 -> 0 <= domainExt ps < 2 ^ 16 ->
  decodePeerState (encodePeerState ps) spare = Some (inr ps).
Proof.
  destruct ps as [ps csz ext]. cbn [knownPeers clusterSize domainExt]. intros Hok Hn Hc He.
  assert (0 <= zlen ps) by (unfold zlen; lia). pose proof (length_concat_names ps Hok) as Hlc.
  unfold encodePeerState. cbn [knownPeers clusterSize domainExt].
  destruct (put_peers_names ps (zeros (idLen * length ps + 2)) Hok) as (r & -> & _); [apply length_replicate|].
  rewrite (take_app_length' (concat ps)) by done. unfold u32. rewrite !Z.mod_small by lia.
  unfold decodePeerState. rewrite (proj2 (Nat.ltb_ge _ _)) by (rewrite !length_app, !length_le_put; lia).
  rewrite le_get_put by (cbn; lia). rewrite (drop_pre (le_put 4 csz) _ 4 4), drop_0, le_get_put by (apply length_le_put || (cbn; lia)).
  rewrite (drop_pre (le_put 4 csz) _ 4 8), (drop_pre (le_put 4 (zlen ps)) _ 4 (8 - 4)) by (apply length_le_put || lia).
  cbn [Nat.sub]. rewrite drop_0.
  pose proof (decode_peers_names ps [] (le_put 2 ext) spare (length (concat ps ++ le_put 2 ext)) 0 Hok) as Hdec.
  rewrite app_nil_l, Z.add_0_l in Hdec. change (zlen []) with 0 in Hdec. rewrite Hdec, Z.add_0_l.
  2: { rewrite length_app, Hlc. unfold idLen. lia. }
  cbn [mbind option_bind]. rewrite Z.eqb_refl. cbn [negb].
  replace (reslice _ [] _ _) with (Some (le_put 2 ext)).
  - cbn [mbind option_bind]. rewrite length_le_put. cbn [Nat.leb]. rewrite <- (app_nil_r (le_put 2 ext)), le_get_put by (cbn; lia). done.
  - symmetry. rewrite <- (app_nil_r (le_put 2 ext)) at 1. apply reslice_part; [done|by rewrite zlen_app].
Qed.

Lemma decode_peers_outcome fuel : forall buf expected i ri,
  0 <= ri <= zlen buf -> zlen buf - ri <= 8 * Z.of_nat fuel ->
  let left := zlen buf - ri in
  if (left <? 8 * (expected - i)) && negb (left mod 8 =? 0) then decode_peers fuel buf [] expected i ri = None
  else exists ps, decode_peers fuel buf [] expected i ri = Some (ps, ri + 8 * zlen ps) /\ zlen ps = Z.min (Z.max 0 (expected - i)) (left / 8).
Proof.
  induction fuel as [|fuel IH]; intros buf expected i ri Hri Hf; cbn zeta; cbn [decode_peers].
  { replace (zlen buf - ri) with 0 by lia. cbn [Z.modulo Z.eqb negb]. rewrite andb_false_r. exists [].
    change (zlen []) with 0. change (0 / 8) with 0. split; [do 2 f_equal; lia|lia]. }
  set (left := zlen buf - ri) in *.
  destruct (Z.ltb_spec i expected) as [Hi|Hi]; cbn [andb].
  2: { rewrite (proj2 (Z.ltb_ge left _)) by lia. exists []. change (zlen []) with 0.
       split; [do 2 f_equal; lia|]. pose proof (Z.div_pos left 8). lia. }
  destruct (Z.ltb_spec ri (zlen buf)) as [Hlt|Hge].
  2: { assert (left = 0) as -> by lia. cbn [Z.modulo Z.eqb negb]. rewrite andb_false_r. exists [].
       change (zlen []) with 0. change (0 / 8) with 0. split; [do 2 f_equal; lia|lia]. }
  destruct (decide (left < 8)) as [Hs|Hs].
  - rewrite (proj2 (Z.ltb_lt left _)) by lia. rewrite Z.mod_small, (proj2 (Z.eqb_neq left 0)) by lia. cbn [negb andb].
    unfold reslice. change (zlen []) with 0. rewrite (proj2 (Z.leb_gt (ri + 8) _)) by lia. rewrite andb_false_r. done.
  - destruct (reslice_total buf ri (ri + 8)) as [p ->]; [lia|]. cbn [mbind option_bind].
    specialize (IH buf expected (i + 1) (ri + 8) ltac:(lia) ltac:(lia)). cbn zeta in IH.
    replace (zlen buf - (ri + 8)) with (left + -1 * 8) in IH by lia. rewrite Z.mod_add, Z.div_add in IH by lia.
    replace (left + -1 * 8 <? 8 * (expected - (i + 1))) with (left <? 8 * (expected - i)) in IH
      by (apply Bool.eq_iff_eq_true; rewrite !Z.ltb_lt; lia).
    destruct (_ && _); [by rewrite IH|]. destruct IH as (ps & -> & Hps). exists (p :: ps).
    assert (zlen (p :: ps) = 1 + zlen ps) as -> by (unfold zlen; cbn [length]; lia).
    split; [cbn [mbind option_bind]; do 2 f_equal; lia|]. pose proof (Z.div_le_lower_bound left 8 1). lia.
Qed.

(** The reader of peer states panics exactly on a state that ends inside a peer's name: the
    names that the count announces do not fit, and what is there is not a whole number of names.
    Any other bytes are read or refused.  (The slice has no capacity past its length.) *)
Theorem peer_state_panics buf :
  decodePeerState buf [] = None <->
  8 <= zlen buf /\ zlen buf - 8 < 8 * le_get 4 (drop 4 buf) /\ (zlen buf - 8) mod 8 <> 0.
Proof.
  unfold decodePeerState. destruct (Nat.ltb_spec (length buf) 8) as [Hs|Hs]; [unfold zlen; split; [done|lia]|].
  set (expected := le_get 4 (drop 4 buf)). set (body := drop 8 buf).
  assert (zlen body = zlen buf - 8) as Hb by (unfold zlen, body; rewrite length_drop; lia).
  pose proof (decode_peers_outcome (length body) body expected 0 0 ltac:(unfold zlen; lia) ltac:(unfold zlen; lia)) as H.
  cbn zeta in H. rewrite !Z.sub_0_r, Hb in H.
  destruct (Z.ltb_spec (zlen buf - 8) (8 * expected)) as [Hlt|Hge]; cbn [andb] in H.
  - destruct (Z.eqb_spec ((zlen buf - 8) mod 8) 0) as [H0|H0]; cbn [negb] in H.
    + destruct H as (ps & -> & Hps). cbn [mbind option_bind]. rewrite (proj2 (Z.eqb_neq _ _)); [split; [done|tauto]|].
      pose proof (Z.div_lt_upper_bound (zlen buf - 8) 8 expected). lia.
    + rewrite H. cbn. unfold zlen in *. split; [intros _; split_and!; [lia|done|done]|done].
  - destruct H as (ps & -> & Hps). cbn [mbind option_bind]. pose proof (Z.div_le_lower_bound (zlen buf - 8) 8 expected).
    destruct (Z.eqb_spec (zlen ps) expected) as [Heq|]; cbn [negb]; [|split; [done|lia]].
    destruct (reslice_total body (0 + 8 * zlen ps) (zlen body)) as [rest ->]; [unfold zlen in *; lia|].
    cbn [mbind option_bind]. split; [done|lia].
Qed.

(** ** Snapshots *)

Lemma snapshot_roundtrip hash64 snap spare :
  (forall b, length (hash64 b) = 8%nat) ->
  is_u64 (lastTerm snap) -> is_u64 (lastIndex snap) -> zlen (peerstate snap) < 2 ^ 32 - 20 ->
  decode_snapshot hash64 (encodeSnapshot hash64 snap) spare = Some (inr snap).
Proof.
  unfold is_u64. intros Hh Ht Hi Hp. destruct snap as [t i ps data]. cbn [lastTerm lastIndex peerstate] in *.
  assert (0 <= zlen ps) by (unfold zlen; lia).
  unfold encodeSnapshot. cbn [lastTerm lastIndex peerstate snapdata]. replace (u32 (zlen ps)) with (zlen ps) by (symmetry; apply Z.mod_small; lia).
  set (body := le_put 8 t ++ _). pose proof (Hh body) as Hlh.
  assert (length body = (20 + length ps + length data)%nat) as Hlb by (unfold body; rewrite !length_app, !length_le_put; lia).
  unfold decode_snapshot. rewrite (proj2 (Nat.ltb_ge _ _)) by (rewrite length_app, Hlh; unfold minSnapshotLen; lia).
  replace (length (body ++ hash64 body) - 8)%nat with (length body) by (rewrite length_app; lia).
  rewrite drop_app_length, take_app_length, bool_decide_true by done. cbn [negb].
  set (h20 := le_put 8 t ++ le_put 8 i ++ le_put 4 (zlen ps)).
  assert (length h20 = 20%nat) as H20 by (unfold h20; rewrite !length_app, !length_le_put; done).
  assert (body ++ hash64 body = h20 ++ ps ++ data ++ hash64 body) as Hsplit by (unfold body, h20; by rewrite <- !app_assoc).
  rewrite Hsplit.
  assert (le_get 4 (drop 16 (h20 ++ ps ++ data ++ hash64 body)) = zlen ps) as ->.
  { unfold h20. rewrite <- !app_assoc. read_bytes. done. }
  replace (u32 (20 + zlen ps)) with (20 + zlen ps) by (symmetry; apply Z.mod_small; lia).
  rewrite (reslice_part h20 ps (data ++ hash64 body) spare 20 (20 + zlen ps)) by (unfold zlen; rewrite H20; lia). cbn [mbind option_bind].
  rewrite (app_assoc h20 ps), (reslice_part (h20 ++ ps) data) by (rewrite ?Hlb, ?zlen_app; unfold zlen; rewrite ?H20; lia). cbn [mbind option_bind].
  rewrite <- app_assoc. unfold h20. rewrite <- !app_assoc. read_bytes. done.
Qed.
