(* ===== verification/Raft.v ===== *)
(** * Raft nodes: state, terms and roles (src/server/raft.go)

    The record of a node, the storage it uses, and the operations on its term, vote, role and
    membership.  A handler runs under the node's lock: it is a function of the monad [M], which
    passes the node on and stops at a panic.  The log and the store directory are the interfaces
    [WAL] and [Files].  Messages are sent into the field [out], with the subjects of [RaftCodec];
    the clock is the field [clock].  Timers only decide when events happen and are left out, as
    is the choice of the account that carries the traffic. *)

From S2P Require Import Prelude Binary RecordUpdate RaftCodec.
Import RaftCodec.

Module Raft.

(** ** Errors and storage *)

Inductive rerr : Type :=
  | ErrStoreClosed | ErrStoreEOF | ErrStoreMsgNotFound | errNoPending | errPartialCache | errNotExist | errIO
  | errCodec (e : codec_err)
  | errNotLeader | errAlreadyLeader | errNodeClosed | errNodeRemoved | errEntryLoadFailed | errEntryStoreFailed
  | errNoSnapAvailable | errSnapshotCorrupt | errCatchupsRunning | errSnapInProgress | errSnapAborted | errSnapMismatch
  | errTooManyPrefs | errAdjustBootCluster | errMembershipChange | errRemoveLastNode.

#[export] Instance rerr_eq : EqDecision rerr.
Proof. solve_decision. Defined.

Record wal_state : Type := mkWalState { Msgs : Z; Bytes : Z; FirstSeq : Z; LastSeq : Z }.

(** The log of a node, a [fileStore] or a [memStore]. *)
Class WAL (L : Type) : Type := {
  StoreMsg : L -> list Z -> L * (rerr + Z);
  LoadMsg : L -> Z -> rerr + list Z;
  Compact : L -> Z -> L * option rerr;
  Truncate : L -> Z -> L * option rerr;
  FastState : L -> wal_state;
  isMemStore : L -> bool }.

Inductive file : Type := TermVoteFile | PeerStateFile | SnapFile (term index : Z).

#[export] Instance file_eq : EqDecision file.
Proof. solve_decision. Defined.

(** The store directory: [os.Stat], [writeFileWithSync], [os.ReadFile], [os.Remove], and the names
    in the directory of snapshots, of which those that are not names of snapshots are removed when
    they are seen. *)
Class Files (D : Type) : Type := {
  statFile : D -> file -> option rerr;
  writeFile : D -> file -> list Z -> D * option rerr;
  readFile : D -> file -> rerr + list Z;
  removeFile : D -> file -> D;
  readSnapDir : D -> rerr + list (Z * Z) }.

(** ** Peers *)

Inductive RaftState : Type := Follower | Leader | Candidate | Closed.

#[export] Instance raft_state_eq : EqDecision RaftState.
Proof. solve_decision. Defined.

(** [ts] is [None] for the zero time. *)
Record lps : Type := mkLps { ts : option Z; li : Z; kp : bool }.

(** What the model leaves open: the hash of snapshots, the bytes behind a slice in its array, and
    the order in which Go ranges over the peers. *)
Class RaftEnv : Type := {
  hash64 : list Z -> list Z;
  spare : list Z -> list Z;
  range_peers : gmap peer lps -> list (peer * lps) }.

Class RaftEnvLaws `{RaftEnv} : Prop := {
  hash64_length b : length (hash64 b) = 8%nat;
  range_peers_perm m : range_peers m ≡ₚ map_to_list m }.

Record catchupState : Type := mkCatchup {
  c_sub : option subject; cterm : Z; cindex : Z; c_pterm : Z; c_pindex : Z; c_active : Z; c_signal : bool }.

#[export] Instance catchup_rebuild : Rebuild catchupState :=
  fun c => mkCatchup (c_sub c) (cterm c) (cindex c) (c_pterm c) (c_pindex c) (c_active c) (c_signal c).

Record CommittedEntry : Type := mkCommitted { Index : Z; Entries : list Entry }.

Record proposedEntry : Type := mkProposed { p_entry : Entry; p_reply : subject }.

(** A message that a node sends. *)
Record message : Type := mkMessage { m_from : peer; m_subj : subject; m_reply : subject; m_data : list Z }.

(** Where the goroutine [run] is: before its start, between two of its loops, or in one, waiting
    for an event.  A
    candidate has the maps [votes] and [emptyVotes] there. *)
Inductive location : Type :=
  | RunStart | RunTop | InFollower | InCandidate (votes emptyVotes : gset peer) | InLeader | Stopped.

#[export] Instance location_eq : EqDecision location.
Proof. solve_decision. Defined.

(** The goroutine that catches a follower up, before and after its first step. *)
Inductive catchup_run : Type :=
  | CatchupPending (ar : appendEntryResponse)
  | CatchupRunning (p : peer) (subj : subject) (term last next total : Z) (om : gmap Z Z).

(** ** The node *)

(** [snapfile] is the term and index in the name of the last snapshot.  [progress] maps a follower to the number of its queue in [queues]; [runners] are the
    goroutines that read these queues.  [inboxes] are the catchup subjects that are subscribed
    to, [loc] is where [run] is. *)
Record raft {L D : Type} : Type := mkRaft {
  nid : peer;
  wal : L; bytes : Z; werr : option rerr;
  state : RaftState; leaderState : bool; snapfile : option (Z * Z);
  csz : Z; qn : Z; peers : gmap peer lps; removed : gmap peer Z;
  acks : gmap Z (gset peer); pae : gmap Z appendEntry;
  active : option Z; llqrt : option Z; lsut : option Z;
  term : Z; pterm : Z; pindex : Z; commit : Z; processed : Z; applied : Z; papplied : Z;
  membChangeIndex : Z; aflr : Z;
  leader : peer; vote : peer;
  hasleader : bool; pleader : bool; extSt : Z;
  wtv : option (list Z); wps : option (list Z);
  catchup : option catchupState; progress : gmap peer Z; queues : gmap Z (list Z); runners : gmap Z catchup_run;
  hcommit : Z;
  prop : list proposedEntry; entry : list appendEntry; resp : list appendEntryResponse;
  applyq : list (option CommittedEntry); reqs : list voteRequest; votes : list voteResponse;
  leadc : list bool; quit : bool;
  lxfer : bool; maybeLeader : bool; paused : bool; observer : bool; initializing : bool; scaleUp : bool;
  snapshotting : bool; quorumPaused : bool; overrunCount : Z;
  disk : D; clock : Z; out : list message; inboxes : list subject; nextInbox : Z; nextQueue : Z; loc : location }.

#[global] Arguments raft : clear implicits.
#[global] Arguments mkRaft {L D}.

#[export] Instance raft_rebuild L D : Rebuild (raft L D) := fun r => mkRaft
  (nid r) (wal r) (bytes r) (werr r) (state r) (leaderState r) (snapfile r) (csz r) (qn r) (peers r) (removed r)
  (acks r) (pae r) (active r) (llqrt r) (lsut r) (term r) (pterm r) (pindex r) (commit r) (processed r) (applied
  r) (papplied r) (membChangeIndex r) (aflr r) (leader r) (vote r) (hasleader r) (pleader r) (extSt r) (wtv r)
  (wps r) (catchup r) (progress r) (queues r) (runners r) (hcommit r) (prop r) (entry r) (resp r) (applyq r)
  (reqs r) (votes r) (leadc r) (quit r) (lxfer r) (maybeLeader r) (paused r) (observer r) (initializing r)
  (scaleUp r) (snapshotting r) (quorumPaused r) (overrunCount r) (disk r) (clock r) (out r) (inboxes r)
  (nextInbox r) (nextQueue r) (loc r).

(** ** Handlers *)

Definition M {L D : Type} (A : Type) : Type := raft L D -> option (raft L D * A).
#[global] Arguments M : clear implicits.

#[export] Instance M_ret {L D} : MRet (M L D) := fun A a n => Some (n, a).
#[export] Instance M_bind {L D} : MBind (M L D) := fun A B k m n =>
  match m n with Some (n, a) => k a n | None => None end.

Definition get {L D} : M L D (raft L D) := fun n => Some (n, n).
Definition gets {L D A} (f : raft L D -> A) : M L D A := fun n => Some (n, f n).
Definition modify {L D} (f : raft L D -> raft L D) : M L D unit := fun n => Some (f n, tt).
Definition panic {L D A} : M L D A := fun _ => None.
Definition when {L D} (b : bool) (m : M L D unit) : M L D unit := if b then m else mret tt.

(** A panic of a pure function. *)
Definition lift {L D A} (o : option A) : M L D A := match o with Some a => mret a | None => panic end.

(** [for _, x := range l]. *)
Fixpoint each {L D A} (f : A -> M L D unit) (l : list A) : M L D unit :=
  match l with
  | [] => mret tt
  | x :: l => f x;; each f l
  end.

Notation "field <~ v" := (modify (fun r => r <| field := v |>)) (at level 70, v at level 69).

Section node.
Context {L D : Type} `{WAL L} `{Files D} `{RaftEnv}.
Notation M := (M L D).

Definition isLeader (n : raft L D) : bool := bool_decide (state n = Leader).
Definition isFollower (n : raft L D) : bool := bool_decide (state n = Follower).
Definition isCandidate (n : raft L D) : bool := bool_decide (state n = Candidate).
Definition isClosed (n : raft L D) : bool := bool_decide (state n = Closed).

(** [time.Since]; the zero time is long ago. *)
Definition since (now : Z) (t : option Z) : Z := match t with Some t => now - t | None => max_int64 end.

Definition hbInterval : Z := 1000000000.
Definition lostQuorumInterval : Z := 10 * hbInterval.
Definition peerRemoveTimeout : Z := 300 * 1000000000.

Definition sendRPC (subj reply : subject) (data : list Z) : M unit :=
  modify (fun n => n <| out := out n ++ [mkMessage (nid n) subj reply data] |>).

Definition sendReply (subj : subject) (data : list Z) : M unit := sendRPC subj NoSubj data.

(** ** Write errors and files *)

Definition shutdown : M unit :=
  n ← get;
  if isClosed n then mret tt else
  state <~ Closed;; leaderState <~ false;; quit <~ true.

Definition ignored_err (e : rerr) : bool :=
  match e with ErrStoreClosed | ErrStoreEOF | ErrStoreMsgNotFound | errNoPending | errPartialCache => true | _ => false end.

Definition setWriteErrLocked (err : rerr) : M unit :=
  n ← get;
  if isClosed n then mret tt else
  if bool_decide (werr n = Some err) then mret tt else
  if ignored_err err then mret tt else
  if bool_decide (err = errNotExist) then mret tt else
  werr <~ Some err;; shutdown.

Definition write_file (f : file) (b : list Z) : M (option rerr) := fun n =>
  let '(d, e) := writeFile (disk n) f b in Some (n <| disk := d |>, e).

(** [writeTermVote] and [writePeerState] outside of a node. *)
Definition stat_write_file (f : file) (b : list Z) : M (option rerr) :=
  n ← get;
  match statFile (disk n) f with
  | Some errNotExist | None => write_file f b
  | Some e => mret (Some e)
  end.

Definition remove_file (f : file) : M unit := modify (fun n => n <| disk := removeFile (disk n) f |>).

Definition snap_file (name : Z * Z) : file := SnapFile name.1 name.2.

Definition writeTermVote : M unit :=
  n ← get;
  b ← lift (term_vote (term n) (vote n));
  if bool_decide (wtv n = Some b) then mret tt else
  wtv <~ Some b;;
  e ← stat_write_file TermVoteFile b;
  match e with
  | None => mret tt
  | Some err => n ← get; if isClosed n then mret tt else wtv <~ None;; setWriteErrLocked err
  end.

Definition writePeerState (ps : peerState) : M unit :=
  n ← get;
  let pse := encodePeerState ps in
  if bool_decide (wps n = Some pse) then mret tt else
  wps <~ Some pse;;
  e ← stat_write_file PeerStateFile pse;
  match e with
  | None => mret tt
  | Some err => n ← get; if isClosed n then mret tt else setWriteErrLocked err
  end.

(** ** Roles *)

(** The channel holds 32 values; when it is full the oldest is dropped. *)
Definition updateLeadChange (isLeader : bool) : M unit :=
  modify (fun n => n <| leadc := (if (length (leadc n) <? 32)%nat then leadc n else tail (leadc n)) ++ [isLeader] |>).

(** A leader that leaves drains its queues; [true]: the leadership changed. *)
Definition lead_change (pstate st : RaftState) : M bool :=
  if bool_decide (pstate = Leader) && negb (bool_decide (st = Leader)) then
    updateLeadChange false;; resp <~ [];; prop <~ [];; mret true
  else if bool_decide (st = Leader) && negb (bool_decide (pstate = Leader)) then pae <~ ∅;; mret true
  else mret false.

Definition switchState (st : RaftState) : M bool :=
  pstate ← gets state;
  if bool_decide (pstate = Closed) then mret false else
  state <~ st;;
  leadChange ← lead_change pstate st;
  writeTermVote;; mret leadChange.

Definition reset_peer (newLeader p : peer) (ps : lps) : lps :=
  mkLps (if bool_decide (p = newLeader) then ts ps else None) 0 (kp ps).

Definition updateLeader (newLeader : peer) : M unit :=
  n ← get;
  let wasLeader := bool_decide (leader n = nid n) in
  leader <~ newLeader;; hasleader <~ negb (bool_decide (newLeader = noLeader));;
  when (negb (pleader n) && negb (bool_decide (newLeader = noLeader))) (
    pleader <~ true;;
    when (maybeLeader n) (
      maybeLeader <~ false;; when (negb (bool_decide (nid n = newLeader))) (updateLeadChange false)));;
  when (negb (bool_decide (newLeader = nid n)) && negb wasLeader) (
    modify (fun n => n <| peers := map_imap (fun p ps => Some (reset_peer newLeader p ps)) (peers n) |>)).

Definition switchToFollowerLocked (newLeader : peer) : M unit :=
  n ← get;
  if isClosed n then mret tt else
  aflr <~ 0;; leaderState <~ false;; lxfer <~ false;; acks <~ ∅;;
  updateLeader newLeader;; switchState Follower;; mret tt.

Definition stepdownLocked (newLeader : peer) : M unit := switchToFollowerLocked newLeader.

(** The loop over the peers stops at the [qn]-th one that was heard of; it is at least one. *)
Definition heard (n : raft L D) : Z :=
  zlen (List.filter (fun '(p, ps) => bool_decide (p = nid n) || (since (clock n) (ts ps) <? lostQuorumInterval)) (map_to_list (peers n))).

Definition Quorum (n : raft L D) : bool := (1 <=? heard n) && (qn n <=? heard n).

Definition lostQuorumLocked (n : raft L D) : bool :=
  if negb (zlen (resp n) =? 0) || (negb (bool_decide (lsut n = None)) && (since (clock n) (lsut n) <? lostQuorumInterval)) then false
  else negb ((1 <=? heard n) && (qn n <=? heard n)).

(** A vote that a higher term makes void. *)
Definition new_term (t : Z) : M unit := term <~ t;; vote <~ noVote.

Definition switchToCandidate : M unit :=
  n ← get;
  if isClosed n then mret tt else
  if observer n || paused n || (processed n <? commit n) then mret tt else
  when (isCandidate n && (lostQuorumLocked n && (20000000000 <? since (clock n) (llqrt n)))) (
    updateLeadChange false;; llqrt <~ Some (clock n));;
  new_term (u64 (term n + 1));; quorumPaused <~ false;;
  updateLeader noLeader;; switchState Candidate;; mret tt.

(** ** Votes *)

Definition cancelCatchupSignal : M unit :=
  n ← get;
  match catchup n with
  | Some c => when (c_signal c) (applyq <~ (applyq n ++ [None]))
  | None => mret tt
  end.

Definition unsubscribe (sub : option subject) : M unit :=
  match sub with
  | Some s => modify (fun n => n <| inboxes := List.filter (fun x => negb (bool_decide (x = s))) (inboxes n) |>)
  | None => mret tt
  end.

Definition cancelCatchup : M unit :=
  n ← get;
  match catchup n with Some c => unsubscribe (c_sub c) | None => mret tt end;;
  cancelCatchupSignal;; catchup <~ None.

Definition processVoteRequest (vr : voteRequest) : M unit :=
  n ← get;
  let empty := pindex n =? 0 in
  if vr_term vr <? term n then sendReply (vr_reply vr) (encode_vs (mkVoteResponse (term n) (nid n) false empty)) else
  when (term n <? vr_term vr) (
    when (negb (isFollower n)) (stepdownLocked noLeader);;
    cancelCatchup;; new_term (vr_term vr);; writeTermVote);;
  n ← get;
  let voteOk := bool_decide (vote n = noVote) || bool_decide (vote n = vr_candidate vr) in
  let empty := if voteOk && empty && initializing n then false else empty in
  if voteOk && ((pterm n <? vr_lastTerm vr) || ((vr_lastTerm vr =? pterm n) && (pindex n <=? vr_lastIndex vr))) then
    term <~ vr_term vr;; vote <~ vr_candidate vr;; writeTermVote;;
    n ← get; sendReply (vr_reply vr) (encode_vs (mkVoteResponse (term n) (nid n) true empty))
  else sendReply (vr_reply vr) (encode_vs (mkVoteResponse (term n) (nid n) false empty)).

Definition requestVote : M unit :=
  n ← get;
  if negb (isCandidate n) then mret tt else
  vote <~ nid n;; writeTermVote;;
  n ← get;
  sendRPC VoteSubj (VoteReply (nid n)) (encode_vr (mkVoteRequest (term n) (pterm n) (pindex n) (nid n) NoSubj)).

Definition wonElection (n : raft L D) (votes : Z) : bool := qn n <=? votes.

(** ** Membership *)

Definition peerNames (n : raft L D) : list peer := map fst (List.filter (fun x => kp (snd x)) (range_peers (peers n))).

Definition currentPeerState (n : raft L D) : peerState := mkPeerState (peerNames n) (csz n) (extSt n).

(** When the cluster shrinks a leader sends a heartbeat from another goroutine. *)
Definition adjustClusterSizeAndQuorum : M unit :=
  n ← get;
  let ncsz := zlen (List.filter (fun x => kp (snd x)) (map_to_list (peers n))) in
  csz <~ ncsz;; qn <~ (Z.quot ncsz 2 + 1);;
  when (csz n <? ncsz) (lsut <~ Some (clock n)).

Definition addPeer (p : peer) : M unit :=
  modify (fun n => n <| removed := delete p (removed n) |> <| peers :=
    <[p := match peers n !! p with Some lp => mkLps (ts lp) (li lp) true | None => mkLps None 0 true end]> (peers n) |>);;
  adjustClusterSizeAndQuorum;;
  n ← get; writePeerState (currentPeerState n).

Definition removePeer (p : peer) : M unit :=
  modify (fun n => n <| removed := <[p := clock n]> (removed n) |>);;
  n ← get;
  match peers n !! p with
  | Some _ =>
      peers <~ delete p (peers n);; adjustClusterSizeAndQuorum;;
      n ← get; writePeerState (currentPeerState n)
  | None => mret tt
  end.

Definition processPeerState (ps : peerState) : M unit :=
  n ← get;
  csz <~ clusterSize ps;; qn <~ (Z.quot (clusterSize ps) 2 + 1);;
  peers <~ foldl (fun m p => <[p := match peers n !! p with Some lp => mkLps (ts lp) (li lp) true | None => mkLps None 0 true end]> m) ∅ (knownPeers ps);;
  writePeerState ps.

Definition UpdateKnownPeers (known : list peer) : M unit :=
  n ← get; processPeerState (mkPeerState known (zlen known) (extSt n)).

Definition setObserverLocked (isObserver : bool) (ext : Z) : M unit := observer <~ isObserver;; extSt <~ ext.

Definition resetInitializing : M unit :=
  initializing <~ false;;
  n ← get;
  when (scaleUp n) (scaleUp <~ false;; setObserverLocked false extUndetermined).

Definition AdjustBootClusterSize (size : Z) : M (option rerr) :=
  n ← get;
  if negb (bool_decide (leader n = noLeader)) || pleader n then mret (Some errAdjustBootCluster) else
  let size := if size <? 2 then 2 else size in
  csz <~ size;; qn <~ (Z.quot size 2 + 1);; mret None.

(** The first peer with the highest index that it acknowledged. *)
Definition selectNextLeader (n : raft L D) : peer :=
  fst (foldl (fun '(next, hli) '(p, ps) => if bool_decide (p = nid n) || (li ps <=? hli) then (next, hli) else (p, li ps))
    (noLeader, 0) (range_peers (peers n))).
End node.
End Raft.
