(* ===== verification/RaftFrame.v ===== *)
(** * What handlers leave alone

    A handler keeps a relation [R] when the node after it is related to the node before.  For a
    preorder this follows from its parts; the tactic [keeps] goes through a handler and leaves
    what is particular to it. *)

From S2P Require Import Prelude RecordUpdate RaftCodec Raft.
Import RaftCodec Raft.

Create HintDb keeps.

Section keeps.
Context {L D : Type} (R : relation (raft L D)) `{!PreOrder R}.
Notation M := (M L D).

(** From the node [n], and from any node. *)
Definition keeps_at {A} (m : M A) (n : raft L D) : Prop := forall n' a, m n = Some (n', a) -> R n n'.
Definition Keeps {A} (m : M A) : Prop := forall n, keeps_at m n.

Lemma keeps_at_bind {A B} (m : M A) (k : A -> M B) n :
  keeps_at m n -> (forall n' a, m n = Some (n', a) -> keeps_at (k a) n') -> keeps_at (m ≫= k) n.
Proof.
  intros Hm Hk n' b. cbv [mbind M_bind]. destruct (m n) as [[n1 a]|] eqn:E; [|done]. intros Hb.
  transitivity n1; [by apply (Hm n1 a)|by eapply Hk].
Qed.

Lemma Keeps_bind {A B} (m : M A) (k : A -> M B) : Keeps m -> (forall a, Keeps (k a)) -> Keeps (m ≫= k).
Proof. intros Hm Hk n. apply keeps_at_bind; [apply Hm|]. intros n' a _. apply Hk. Qed.

Lemma Keeps_get_bind {B} (k : raft L D -> M B) : (forall n, keeps_at (k n) n) -> Keeps (get ≫= k).
Proof. intros Hk n n' b Hb. apply (Hk n _ b Hb). Qed.

Lemma keeps_at_of {A} (m : M A) n : Keeps m -> keeps_at m n.
Proof. intros Hm. apply Hm. Qed.

Lemma Keeps_ret {A} (a : A) : Keeps (mret a : M A).
Proof. intros n n' b [= <- <-]. reflexivity. Qed.

Lemma Keeps_get : Keeps get.
Proof. intros n n' b [= <- <-]. reflexivity. Qed.

Lemma Keeps_gets {A} (f : raft L D -> A) : Keeps (gets f).
Proof. intros n n' b [= <- <-]. reflexivity. Qed.

Lemma Keeps_panic {A} : Keeps (panic : M A).
Proof. intros n n' b Hb. discriminate. Qed.

Lemma Keeps_lift {A} (o : option A) : Keeps (lift o : M A).
Proof. destruct o; [apply Keeps_ret|apply Keeps_panic]. Qed.

Lemma Keeps_lift_bind {A B} (o : option A) (k : A -> M B) : (forall a, o = Some a -> Keeps (k a)) -> Keeps (lift o ≫= k).
Proof. intros Hk. destruct o as [a|]; [|intros n n' b Hb; discriminate]. intros n n' b Hb. by apply (Hk a eq_refl n n' b). Qed.

Lemma Keeps_when b (m : M unit) : Keeps m -> Keeps (when b m).
Proof. intros Hm. destruct b; [exact Hm|apply Keeps_ret]. Qed.

Lemma Keeps_each {A} (f : A -> M unit) l : (forall x, x ∈ l -> Keeps (f x)) -> Keeps (each f l).
Proof.
  induction l as [|x l IH]; intros Hf; [apply Keeps_ret|]. cbn [each]. apply Keeps_bind.
  - apply Hf, list_elem_of_here.
  - intros _. apply IH. intros y Hy. apply Hf. by right.
Qed.

Lemma Keeps_modify f : (forall n, R n (f n)) -> Keeps (modify f).
Proof. intros Hf n n' b [= <- <-]. apply Hf. Qed.
End keeps.

(** ** Handlers that return

    From a node with [P] the handler does not panic and [P] holds afterwards. *)

Section returns.
Context {L D : Type} (P : raft L D -> Prop).
Notation M := (M L D).

Definition Returns {A} (m : M A) : Prop := forall n, P n -> exists n' a, m n = Some (n', a) /\ P n'.

Lemma Returns_bind {A B} (m : M A) (k : A -> M B) : Returns m -> (forall a, Returns (k a)) -> Returns (m ≫= k).
Proof. intros Hm Hk n Hn. destruct (Hm n Hn) as (n1 & a & E & H1). destruct (Hk a n1 H1) as (n' & b & E' & H2). exists n', b. cbv [mbind M_bind]. by rewrite E. Qed.

Lemma Returns_get_bind {B} (k : raft L D -> M B) : (forall n, P n -> exists n' b, k n n = Some (n', b) /\ P n') -> Returns (get ≫= k).
Proof. intros Hk n Hn. exact (Hk n Hn). Qed.

Lemma Returns_ret {A} (a : A) : Returns (mret a : M A).
Proof. intros n Hn. by exists n, a. Qed.

Lemma Returns_gets {A} (f : raft L D -> A) : Returns (gets f).
Proof. intros n Hn. by exists n, (f n). Qed.

Lemma Returns_modify f : (forall n, P n -> P (f n)) -> Returns (modify f).
Proof. intros Hf n Hn. exists (f n), tt. auto. Qed.
End returns.

(** The parts of a handler; [P] does not see the fields that it updates. *)
Ltac returns :=
  repeat lazymatch goal with
    | |- Returns _ (mret _) => apply Returns_ret
    | |- Returns _ get => apply Returns_gets
    | |- Returns _ (gets _) => apply Returns_gets
    | |- Returns _ (mbind _ _) => first [solve [eauto 1 with keeps nocore] | apply Returns_bind; [|intros]]
    | |- Returns _ (modify _) => apply Returns_modify; intros; assumption
    | |- Returns _ (when ?b _) => destruct b; cbn [when]
    | |- Returns _ (match ?x with _ => _ end) => destruct x
    | |- Returns _ _ => solve [eauto 1 with keeps nocore]
    end.

Lemma bind_assoc {L D A B C} (m : M L D A) (k : A -> M L D B) (k' : B -> M L D C) n :
  ((m ≫= k) ≫= k') n = (m ≫= (fun a => k a ≫= k')) n.
Proof. cbv [mbind M_bind]. by destruct (m n) as [[n1 a]|]. Qed.

Lemma bind_inv {L D A B} (m : M L D A) (k : A -> M L D B) n n' b :
  (m ≫= k) n = Some (n', b) -> exists n1 a, m n = Some (n1, a) /\ k a n1 = Some (n', b).
Proof. cbv [mbind M_bind]. destruct (m n) as [[n1 a]|]; [|done]. eauto. Qed.

#[global] Hint Extern 1 (Keeps _ _) => solve [apply Keeps_ret; apply _ | apply Keeps_get; apply _ | apply Keeps_gets; apply _ | apply Keeps_panic; apply _ | apply Keeps_lift; apply _] : keeps.

(** Through a handler, down to its parts: the lemmas of the database [keeps] are used, and
    [field] proves that the relation does not see the update of a field. *)
Ltac keeps_with field :=
  repeat first
    [ progress eauto 1 with keeps nocore
    | lazymatch goal with
      | |- Keeps _ (let _ := _ in _) => cbv zeta
      | |- Keeps _ (mbind _ (lift _)) => apply Keeps_lift_bind; intros
      | |- Keeps _ (mbind _ _) => apply Keeps_bind; [apply _| |intros]
      | |- Keeps _ (when _ _) => apply Keeps_when; [apply _|]
      | |- Keeps _ (each _ _) => apply Keeps_each; [apply _|intros]
      | |- Keeps _ (modify _) => apply Keeps_modify; intros; field
      | |- Keeps _ (match ?x with _ => _ end) => destruct x eqn:?
      end ].
