(* ===== verification/RaftLog.v ===== *)
(** * Raft nodes: the log (src/server/raft.go)

    Storing, committing and truncating entries, snapshots, the append entries of a leader and
    their responses, and the catchup of a follower. *)

From S2P Require Import Prelude Binary RecordUpdate RaftCodec Raft.
Import RaftCodec Raft.

Module RaftLog.
Section log.
Context {L D : Type} `{WAL L} `{Files D} `{RaftEnv}.
Notation M := (M L D).
Notation raft := (raft L D).

Definition pauseQuorumThreshold : Z := 100000.
Definition paeDropThreshold : Z := 20000.
Definition paeWarnThreshold : Z := 10000.

(** ** Snapshots *)

Definition loadLastSnapshot : M (rerr + snapshot) :=
  n ← get;
  match snapfile n with
  | None => mret (inl errNoSnapAvailable)
  | Some sfile =>
      match readFile (disk n) (snap_file sfile) with
      | inl e => mret (inl e)
      | inr buf =>
          r ← lift (decode_snapshot hash64 buf (spare buf));
          match r with
          | inl _ => mret (inl errSnapshotCorrupt)
          | inr snap =>
              if lastIndex snap =? 0 then remove_file (snap_file sfile);; snapfile <~ None;; mret (inl errNoSnapAvailable)
              else mret (inr snap)
          end
      end
  end.

Definition installSnapshot (snap : snapshot) : M (option rerr) :=
  let sfile := (lastTerm snap, lastIndex snap) in
  e ← write_file (snap_file sfile) (encodeSnapshot hash64 snap);
  match e with
  | Some err => snapshotting <~ false;; mret (Some err)
  | None =>
      n ← get;
      match snapfile n with
      | Some old => when (negb (bool_decide (old = sfile))) (remove_file (snap_file old))
      | None => mret tt
      end;;
      snapfile <~ Some sfile;;
      n ← get;
      let '(l, e) := Compact (wal n) (u64 (lastIndex snap + 1)) in
      wal <~ l;;
      match e with
      | Some err => setWriteErrLocked err;; snapshotting <~ false;; mret (Some err)
      | None => papplied <~ lastIndex snap;; bytes <~ Bytes (FastState l);; snapshotting <~ false;; mret None
      end
  end.

(** The term and index that a snapshot will stand for, the index of the one before, and the
    peers. *)
Record checkpoint : Type := mkCheckpoint { k_term : Z; k_applied : Z; k_papplied : Z; k_peerstate : list Z }.

Definition loadEntry (n : raft) (index : Z) : option (rerr + appendEntry) :=
  match LoadMsg (wal n) index with
  | inl e => Some (inl e)
  | inr msg =>
      r ← decodeAppendEntry msg None NoSubj;
      Some (match r with inl e => inl (errCodec e) | inr ae => inr ae end)
  end.

Definition createSnapshotCheckpointLocked (force : bool) : M (rerr + checkpoint) :=
  n ← get;
  if isClosed n then mret (inl errNodeClosed) else
  if snapshotting n then mret (inl errSnapInProgress) else
  match werr n with
  | Some e => mret (inl e)
  | None =>
      if negb force && (0 <? zlen (map_to_list (progress n))) then mret (inl errCatchupsRunning) else
      if applied n =? 0 then mret (inl errNoSnapAvailable) else
      r ← lift (loadEntry n (applied n));
      match r with
      | inl _ => mret (inl errNoSnapAvailable)
      | inr ae =>
          snapshotting <~ true;;
          mret (inr (mkCheckpoint (ae_term ae) (applied n) (papplied n) (encodePeerState (currentPeerState n))))
      end
  end.

Definition InstallSnapshot (data : list Z) (force : bool) : M (option rerr) :=
  r ← createSnapshotCheckpointLocked force;
  match r with
  | inl e => mret (Some e)
  | inr c => installSnapshot (mkSnapshot (k_term c) (k_applied c) (k_peerstate c) data)
  end.

Definition LoadLastSnapshot (c : checkpoint) : M (rerr + list Z) :=
  n ← get;
  if negb (snapshotting n) then mret (inl errSnapAborted) else
  r ← loadLastSnapshot;
  mret (match r with
        | inl e => inl e
        | inr snap => if negb (lastIndex snap =? k_papplied c) then inl errSnapMismatch else inr (snapdata snap)
        end).

(** The three parts of a checkpoint's [InstallSnapshot] that run under the lock: before the file
    is written, before the log is compacted, and after. *)
Definition checkpoint_write (c : checkpoint) (data : list Z) : M (option rerr) :=
  n ← get;
  if negb (snapshotting n) then mret (Some errSnapAborted) else
  e ← write_file (SnapFile (k_term c) (k_applied c)) (encodeSnapshot hash64 (mkSnapshot (k_term c) (k_applied c) (k_peerstate c) data));
  match e with Some err => snapshotting <~ false;; mret (Some err) | None => mret None end.

Definition checkpoint_compact (c : checkpoint) : M (option rerr) :=
  n ← get;
  if negb (snapshotting n) then mret (Some errSnapAborted) else
  let sfile := (k_term c, k_applied c) in
  match snapfile n with
  | Some old => when (negb (bool_decide (old = sfile))) (remove_file (snap_file old))
  | None => mret tt
  end;;
  snapfile <~ Some sfile;;
  n ← get;
  let '(l, e) := Compact (wal n) (u64 (k_applied c + 1)) in
  wal <~ l;;
  match e with Some err => setWriteErrLocked err;; snapshotting <~ false;; mret (Some err) | None => mret None end.

Definition checkpoint_done (c : checkpoint) : M (rerr + Z) :=
  n ← get;
  if negb (snapshotting n) then mret (inl errSnapAborted) else
  let now := Bytes (FastState (wal n)) in
  papplied <~ k_applied c;; bytes <~ now;; snapshotting <~ false;;
  mret (inr (if bytes n <? now then 0 else u64 (bytes n - now))).

Definition checkpoint_abort : M unit := snapshotting <~ false.

(** ** The log *)

(** Deferred: what a shorter log makes of the snapshot and the indices. *)
Definition truncated (index : Z) : M unit :=
  r ← loadLastSnapshot;
  match r with
  | inr snap =>
      n ← get;
      when (index <? lastIndex snap) (match snapfile n with Some f => remove_file (snap_file f) | None => mret tt end;; snapfile <~ None)
  | inl _ => mret tt
  end;;
  n ← get; when (pindex n <? commit n) (commit <~ pindex n);;
  n ← get; when (commit n <? processed n) (processed <~ commit n);;
  n ← get; when (processed n <? applied n) (applied <~ processed n);;
  n ← get; bytes <~ Bytes (FastState (wal n)).

Definition truncateWAL (t index : Z) : M unit :=
  n ← get;
  let '(l, e) := Truncate (wal n) index in
  wal <~ l;;
  match e with
  | Some err => setWriteErrLocked err
  | None =>
      pterm <~ t;; pindex <~ index;;
      when ((0 <? membChangeIndex n) && (index <? membChangeIndex n)) (membChangeIndex <~ 0)
  end;;
  truncated index.

Definition resetWAL : M unit := truncateWAL 0 0.

Definition stored_size (n : raft) (buf : list Z) : Z := u64 (if isMemStore (wal n) then zlen buf + 16 else 22 + zlen buf + 8).

Definition storeToWAL (ae : appendEntry) : M (option rerr) :=
  n ← get;
  match werr n with
  | Some e => mret (Some e)
  | None =>
      let '(l, r) := StoreMsg (wal n) (ae_buf ae) in
      wal <~ l;;
      match r with
      | inl err => setWriteErrLocked err;; mret (Some err)
      | inr seq =>
          if negb (u64 (ae_pindex ae + 1) =? seq) then
            when (isLeader n) (stepdownLocked (selectNextLeader n));;
            resetWAL;; cancelCatchup;; mret (Some errEntryStoreFailed)
          else
            bytes <~ u64 (bytes n + stored_size n (ae_buf ae));; pterm <~ ae_term ae;; pindex <~ seq;; mret None
      end
  end.

Definition cachePendingEntry (ae : appendEntry) : M unit :=
  n ← get;
  if zlen (map_to_list (pae n)) <? paeDropThreshold then pae <~ <[pindex n := ae]> (pae n) else pae <~ delete (pindex n) (pae n).

(** ** Commits *)

(** The entries of a commit: what goes to the upper layer, and whether the node itself was
    removed, which ends the loop. *)
Fixpoint apply_entries (ae : appendEntry) (es : list Entry) (committed : list Entry) : M (list Entry * option rerr) :=
  match es with
  | [] => mret (committed, None)
  | e :: es =>
      if Type_ e =? EntryNormal then apply_entries ae es (committed ++ [e])
      else if Type_ e =? EntryOldSnapshot then apply_entries ae es (committed ++ [mkEntry EntrySnapshot (Data e)])
      else if Type_ e =? EntrySnapshot then
        n ← get;
        when ((zlen (ae_entries ae) =? 1) && bool_decide (snapfile n = None) && (0 <? ae_commit ae)) (
          installSnapshot (mkSnapshot (ae_pterm ae) (ae_commit ae) (encodePeerState (currentPeerState n)) (Data e));; mret tt);;
        apply_entries ae es (committed ++ [e])
      else if Type_ e =? EntryPeerState then
        n ← get;
        when (negb (isLeader n)) (
          r ← lift (decodePeerState (Data e) (spare (Data e)));
          match r with inr ps => processPeerState ps | inl _ => mret tt end);;
        apply_entries ae es committed
      else if Type_ e =? EntryAddPeer then
        addPeer (Data e);; membChangeIndex <~ 0;; apply_entries ae es (committed ++ [e])
      else if Type_ e =? EntryRemovePeer then
        removePeer (Data e);; membChangeIndex <~ 0;;
        n ← get;
        if bool_decide (Data e = nid n) && isLeader n then mret (committed ++ [e], Some errNodeRemoved)
        else apply_entries ae es (committed ++ [e])
      else apply_entries ae es committed
  end.

Definition commit_entry (index : Z) (ae : appendEntry) : M (option rerr) :=
  commit <~ index;;
  '(committed, err) ← apply_entries ae (ae_entries ae) [];
  modify (fun n => n <| applyq := applyq n ++ [Some (mkCommitted index committed)] |>);;
  mret err.

Definition applyCommit (index : Z) : M (option rerr) :=
  n ← get;
  if isClosed n then mret (Some errNodeClosed) else
  if index <=? commit n then mret None else
  when (isLeader n) (acks <~ delete index (acks n));;
  match pae n !! index with
  | Some ae =>
      err ← commit_entry index ae;
      modify (fun n => n <| pae := delete index (pae n) |>);; mret err
  | None =>
      if index <? papplied n then mret None else
      r ← lift (loadEntry n index);
      match r with
      | inr ae => commit_entry index ae
      | inl e =>
          when (negb (bool_decide (e = ErrStoreClosed)) && negb (bool_decide (e = ErrStoreEOF))) (
            when (isLeader n) (stepdownLocked (selectNextLeader n));;
            resetWAL;; cancelCatchup);;
          mret (Some errEntryLoadFailed)
      end
  end.

(** [for i := from; i <= to; i++], until an error. *)
Fixpoint apply_commits (count : nat) (index : Z) : M (option rerr) :=
  match count with
  | O => mret None
  | S count =>
      e ← applyCommit index;
      match e with Some err => mret (Some err) | None => apply_commits count (index + 1) end
  end.

Definition apply_range (from to : Z) : M (option rerr) := apply_commits (Z.to_nat (to - from + 1)) from.

Definition ack_count (n : raft) (index : Z) : Z :=
  Z.of_nat (size (default ∅ (acks n !! index))) + (if bool_decide (peers n !! nid n = None) then 0 else 1).

Definition tryCommit (index : Z) : M (bool * option rerr) :=
  n ← get;
  if ack_count n index <? qn n then mret (false, None) else
  e ← apply_range (commit n + 1) index;
  mret (match e with None => (true, None) | Some err => (false, Some err) end).

Definition push_queue (q index : Z) (qs : gmap Z (list Z)) : gmap Z (list Z) := <[q := default [] (qs !! q) ++ [index]]> qs.

Definition trackResponse (ar : appendEntryResponse) : M bool :=
  n ← get;
  if negb (isLeader n) then mret false else
  let ps := peers n !! ar_peer ar in
  match ps with
  | Some ps => when (li ps <? ar_index ar) (peers <~ <[ar_peer ar := mkLps (ts ps) (ar_index ar) (kp ps)]> (peers n))
  | None => mret tt
  end;;
  match progress n !! ar_peer ar with
  | Some q => queues <~ push_queue q (ar_index ar) (queues n)
  | None => mret tt
  end;;
  if (ar_index ar <=? commit n) || negb (ar_term ar =? term n) then mret false else
  if bool_decide (ps = None) then mret false else
  acks <~ <[ar_index ar := {[ar_peer ar]} ∪ default ∅ (acks n !! ar_index ar)]> (acks n);;
  mret true.

(** ** Append entries of the leader *)

Definition buildAppendEntry (n : raft) (entries : list Entry) : appendEntry :=
  newAppendEntry (nid n) (term n) (commit n) (pterm n) (pindex n) entries.

Definition with_buf (ae : appendEntry) (buf : list Z) : appendEntry :=
  mkAppendEntry (ae_leader ae) (ae_term ae) (ae_commit ae) (ae_pterm ae) (ae_pindex ae) (ae_entries ae) (ae_lterm ae) (ae_reply ae) (ae_sub ae) buf.

Definition sendAppendEntryLocked (entries : list Entry) (checkLeader : bool) : M (option rerr) :=
  n ← get;
  if checkLeader && negb (isLeader n) then mret (Some errNotLeader) else
  let ae := buildAppendEntry n entries in
  match encode ae (zeros 1024) with
  | inl e => mret (Some (errCodec e))
  | inr buf =>
      let ae := with_buf ae buf in
      e ← (if shouldStore ae then
             e ← storeToWAL ae;
             match e with
             | Some err => mret (Some err)
             | None => active <~ Some (clock n);; cachePendingEntry ae;; mret None
             end
           else mret None);
      match e with
      | Some err => mret (Some err)
      | None =>
          sendRPC AppendSubj (AppendReply (nid n)) buf;;
          n ← get;
          when (csz n =? 1) (tryCommit (pindex n);; mret tt);;
          mret None
      end
  end.

Definition sendAppendEntry (entries : list Entry) : M unit := sendAppendEntryLocked entries true;; mret tt.

Definition sendHeartbeat : M unit := sendAppendEntry [].

Definition sendPeerState : M unit :=
  n ← get;
  sendAppendEntryLocked [mkEntry EntryPeerState (encodePeerState (currentPeerState n))] true;; mret tt.

Definition SendSnapshot (data : list Z) : M unit := sendAppendEntryLocked [mkEntry EntrySnapshot data] false;; mret tt.

Definition switchToLeader : M unit :=
  n ← get;
  if isClosed n then mret tt else
  lxfer <~ false;; updateLeader (nid n);; switchState Leader;; sendPeerState;;
  n ← get; aflr <~ pindex n.

Definition AdjustClusterSize (size : Z) : M (option rerr) :=
  n ← get;
  if negb (isLeader n) then mret (Some errNotLeader) else
  let size := if size <? 2 then 2 else size in
  csz <~ size;; qn <~ (Z.quot size 2 + 1);; sendPeerState;; mret None.

Definition ProposeKnownPeers (known : list peer) : M unit :=
  n ← get; when (isLeader n) (UpdateKnownPeers known;; sendPeerState).

Definition sendMembershipChange (e : Entry) : M bool :=
  n ← get;
  if negb (ChangesMembership e) || (0 <? membChangeIndex n) then mret false else
  membChangeIndex <~ u64 (pindex n + 1);;
  err ← sendAppendEntryLocked [e] true;
  match err with
  | Some _ => membChangeIndex <~ 0;; mret false
  | None =>
      when (Type_ e =? EntryAddPeer) (addPeer (Data e));;
      when (Type_ e =? EntryRemovePeer) (
        removePeer (Data e);;
        n ← get; when (csz n =? 1) (tryCommit (pindex n);; mret tt));;
      mret true
  end.
End log.
End RaftLog.
