(* ===== verification/RaftAppend.v ===== *)
(** * Raft nodes: append entries of a follower and their responses (src/server/raft.go)

    [processAppendEntry] in the parts that the code has between its early returns, the catchup of
    a follower on both sides, and the responses that a leader gets. *)

From S2P Require Import Prelude Binary RecordUpdate RaftCodec Raft RaftLog.
Import RaftCodec Raft RaftLog.

Module RaftAppend.
Section append.
Context {L D : Type} `{WAL L} `{Files D} `{RaftEnv}.
Notation M := (M L D).
Notation raft := (raft L D).

(** ** Catching up, the follower *)

Definition catchupStalled : M bool :=
  n ← get;
  match catchup n with
  | None => mret false
  | Some c =>
      if c_pindex c =? pindex n then mret (2000000000 <? clock n - c_active c)
      else catchup <~ Some (c <| c_pindex := pindex n |> <| c_active := clock n |>);; mret false
  end.

Definition createCatchup (ae : appendEntry) : M subject :=
  n ← get;
  match catchup n with Some c => unsubscribe (c_sub c) | None => mret tt end;;
  n ← get;
  let inbox := CatchupReply (nid n) (nextInbox n) in
  catchup <~ Some (mkCatchup (Some inbox) (ae_pterm ae) (ae_pindex ae) (pterm n) (pindex n) (clock n) false);;
  inboxes <~ (inboxes n ++ [inbox]);; nextInbox <~ (nextInbox n + 1);;
  mret inbox.

Definition sendCatchupSignal : M unit :=
  n ← get;
  match catchup n with
  | Some c =>
      if c_signal c then mret tt else
      catchup <~ Some (c <| c_signal := true |>);;
      applyq <~ (applyq n ++ [Some (mkCommitted 0 [mkEntry EntryCatchup []])])
  | None => mret tt
  end.

Definition respond (subj reply : subject) (t index : Z) (success : bool) : M unit :=
  n ← get; sendRPC subj reply (encode_ar (newAppendEntryResponse t index (nid n) success)).

(** ** Append entries *)

Definition lterm_of (ae : appendEntry) : Z := if ae_lterm ae =? 0 then ae_term ae else ae_lterm ae.

(** A leader or a candidate that hears of a leader with at least its own term. *)
Definition yield_to (lterm : Z) (newLeader : peer) : M unit :=
  n ← get;
  when (term n <? lterm) (new_term lterm;; writeTermVote);;
  stepdownLocked newLeader.

(** [true]: the code returns. *)
Definition pae_roles (ae : appendEntry) : M bool :=
  n ← get;
  let lterm := lterm_of ae in
  returned ← (if isLeader n then
                if term n <=? lterm then yield_to lterm (ae_leader ae);; mret false
                else respond (ae_reply ae) NoSubj (term n) (pindex n) false;; mret true
              else mret false);
  if (returned : bool) then mret true else
  n ← get;
  when (isCandidate n && (term n <=? lterm)) (yield_to lterm (ae_leader ae));;
  mret false.

(** A term that is higher than ours, and one that is lower. *)
Definition pae_term (ae : appendEntry) (sub : option subject) (isNew : bool) : M bool :=
  n ← get;
  let lterm := lterm_of ae in
  if term n <? lterm then
    new_term lterm;;
    when isNew writeTermVote;;
    n ← get; when (negb (isFollower n)) (stepdownLocked (ae_leader ae));;
    mret false
  else if (lterm <? term n) && negb (bool_decide (sub = None)) && (isNew || negb (ae_lterm ae =? 0)) then
    when isNew (respond (ae_reply ae) NoSubj (term n) (pindex n) false);; mret true
  else mret false.

(** The first result says that the code returns, the second whether it is still catching up. *)
Definition pae_catchup (ae : appendEntry) (isNew catchingUp : bool) : M (bool * bool) :=
  n ← get;
  if negb catchingUp then mret (false, catchingUp) else
  if match catchup n with Some cs => (cterm cs <=? pterm n) && (cindex cs <=? pindex n) | None => false end
  then cancelCatchup;; mret (false, false)
  else if isNew then
    stalled ← catchupStalled;
    when stalled (
      inbox ← createCatchup ae;
      n ← get; respond (ae_reply ae) inbox (pterm n) (pindex n) false);;
    mret (true, catchingUp)
  else mret (false, catchingUp).

Definition pae_leader (ae : appendEntry) (isNew : bool) : M unit :=
  n ← get;
  when (isNew && negb (bool_decide (leader n = ae_leader ae)) && isFollower n) (
    updateLeader (ae_leader ae);; writeTermVote;; updateLeadChange false);;
  n ← get;
  when (isNew && negb (bool_decide (ae_leader ae = noLeader)) && bool_decide (ae_leader ae = leader n)) (
    match peers n !! ae_leader ae with
    | Some ps => peers <~ <[ae_leader ae := mkLps (Some (clock n)) (li ps) (kp ps)]> (peers n)
    | None => mret tt
    end).

Definition pae_paused (sub : option subject) (catchingUp : bool) : M bool :=
  n ← get;
  let app := Z.max (applied n) (papplied n) in
  let com := Z.max (commit n) (papplied n) in
  if bool_decide (sub = None) || negb ((app <? com) || quorumPaused n) then mret false else
  let diff := u64 (com - app) in
  if quorumPaused n then
    if paeWarnThreshold <? diff then when catchingUp cancelCatchup;; mret true
    else quorumPaused <~ false;; mret false
  else if pauseQuorumThreshold <? diff then
    quorumPaused <~ true;; overrunCount <~ u64 (overrunCount n + 1);;
    when catchingUp cancelCatchup;; mret true
  else mret false.

(** The log has an entry where the leader's previous entry should be, or had one.  [true] is the
    jump to CONTINUE. *)
Definition pae_conflict (ae : appendEntry) (isNew : bool) : M bool :=
  n ← get;
  if ae_pindex ae <? commit n then mret false else
  eae ← lift (loadEntry n (ae_pindex ae));
  match eae with
  | inl _ =>
      if (ae_pterm ae =? pterm n) && isNew then mret false
      else if ae_pindex ae =? pindex n then truncateWAL (ae_pterm ae) (ae_pindex ae);; cancelCatchup;; mret false
      else
        r ← loadLastSnapshot;
        match r with
        | inr snap =>
            if (lastIndex snap =? ae_pindex ae) && (lastTerm snap =? ae_pterm ae) then
              truncateWAL (lastTerm snap) (lastIndex snap);;
              n ← get;
              if (ae_pterm ae =? pterm n) && (ae_pindex ae =? pindex n) then mret true else cancelCatchup;; mret false
            else resetWAL;; cancelCatchup;; mret false
        | inl _ => resetWAL;; cancelCatchup;; mret false
        end
  | inr eae =>
      if ae_term eae =? ae_pterm ae then
        truncateWAL (ae_pterm ae) (ae_pindex ae);;
        n ← get;
        if (ae_pterm ae =? pterm n) && (ae_pindex ae =? pindex n) then mret true else cancelCatchup;; mret false
      else if ae_pindex eae <? commit n then mret false
      else truncateWAL (ae_pterm eae) (ae_pindex eae);; cancelCatchup;; mret false
  end.

(** The snapshot of the leader, the first message of a catchup. *)
Definition pae_snapshot (ae : appendEntry) : M unit :=
  match ae_entries ae with
  | [e0; e1] =>
      if negb (Type_ e0 =? EntrySnapshot) || negb (Type_ e1 =? EntryPeerState) then cancelCatchup else
      r ← lift (decodePeerState (Data e1) (spare (Data e1)));
      match r with
      | inl _ => cancelCatchup
      | inr ps =>
          processPeerState ps;;
          n ← get;
          let hadPreviousSnapshot := negb (bool_decide (snapfile n = None)) in
          pindex <~ ae_pindex ae;; pterm <~ ae_pterm ae;; commit <~ ae_pindex ae;;
          n ← get;
          err ← installSnapshot (mkSnapshot (pterm n) (pindex n) (encodePeerState (currentPeerState n)) (Data e0));
          match err with
          | Some e => setWriteErrLocked e
          | None =>
              resetInitializing;;
              when (negb hadPreviousSnapshot) sendCatchupSignal;;
              modify (fun n => n <| applyq := applyq n ++ [Some (mkCommitted (commit n) [e0])] |>);;
              when hadPreviousSnapshot sendCatchupSignal
          end
      end
  | _ => cancelCatchup
  end.

(** [true]: go on at CONTINUE. *)
Definition pae_consistency (ae : appendEntry) (isNew catchingUp : bool) : M bool :=
  n ← get;
  if (ae_pterm ae =? pterm n) && (ae_pindex ae =? pindex n) then mret true else
  if ae_pindex ae <=? pindex n then pae_conflict ae isNew else
  if catchingUp then pae_snapshot ae;; mret false else
  inbox ← createCatchup ae;
  n ← get; respond (ae_reply ae) inbox (pterm n) (pindex n) false;; mret false.

(** [campaign] and [xferCampaign] set the election timer. *)
Definition xferCampaign : M (option rerr) :=
  n ← get; if isLeader n then lxfer <~ false;; mret (Some errAlreadyLeader) else mret None.

Definition pae_entry (isNew : bool) (e : Entry) : M unit :=
  n ← get;
  if Type_ e =? EntryLeaderTransfer then
    when (isNew && bool_decide (Data e = nid n)) (
      if negb (observer n) && negb (paused n) then lxfer <~ true;; xferCampaign;; mret tt
      else when (paused n) (lxfer <~ true))
  else if Type_ e =? EntryAddPeer then
    membChangeIndex <~ pindex n;;
    when (Nat.eqb (length (Data e)) idLen && bool_decide (peers n !! Data e = None)) (peers <~ <[Data e := mkLps None 0 false]> (peers n))
  else if Type_ e =? EntryRemovePeer then membChangeIndex <~ pindex n
  else mret tt.

(** [true]: the code returns. *)
Definition pae_store (ae : appendEntry) (sub : option subject) : M bool :=
  if negb (shouldStore ae) then mret false else
  match sub with
  | Some _ =>
      e ← storeToWAL ae;
      match e with
      | Some _ => mret true
      | None => cachePendingEntry ae;; resetInitializing;; mret false
      end
  | None => pterm <~ ae_term ae;; pindex <~ u64 (ae_pindex ae + 1);; mret false
  end.

Definition pae_commit (ae : appendEntry) (catchingUp : bool) : M unit :=
  n ← get;
  when (commit n <? ae_commit ae) (
    when catchingUp sendCatchupSignal;;
    if paused n then hcommit <~ ae_commit ae else apply_range (commit n + 1) (ae_commit ae);; mret tt).

Definition pae_continue (ae : appendEntry) (sub : option subject) (isNew catchingUp : bool) : M unit :=
  returned ← pae_store ae sub;
  if (returned : bool) then mret tt else
  each (pae_entry isNew) (ae_entries ae);;
  pae_commit ae catchingUp;;
  n ← get;
  when (negb (bool_decide (sub = None)) && isNew) (respond (ae_reply ae) NoSubj (pterm n) (pindex n) true).

(** The node has one subscription [n.aesub] at a time, to [AppendSubj]: that [sub] is this one is a
    comparison of subjects here, of pointers in the code. *)
Definition processAppendEntry (ae : appendEntry) (sub : option subject) : M unit :=
  n ← get;
  if isClosed n || negb (bool_decide (werr n = None)) then mret tt else
  returned ← pae_roles ae;
  if (returned : bool) then mret tt else
  n ← get;
  let catchingUp := negb (bool_decide (catchup n = None)) in
  let isNew := bool_decide (sub = Some AppendSubj) in
  if negb isNew && negb (bool_decide (sub = None)) && ((ae_lterm ae =? 0) || (ae_pindex ae <? pindex n)) &&
     match catchup n with None => true | Some c => negb (bool_decide (sub = c_sub c)) end
  then mret tt else
  returned ← pae_term ae sub isNew;
  if (returned : bool) then mret tt else
  '(returned, catchingUp) ← pae_catchup ae isNew catchingUp;
  if (returned : bool) then mret tt else
  pae_leader ae isNew;;
  returned ← pae_paused sub catchingUp;
  if (returned : bool) then mret tt else
  go_on ← pae_consistency ae isNew catchingUp;
  when go_on (pae_continue ae sub isNew catchingUp).

(** ** Catching up, the leader *)

Definition sendSnapshotToFollower (subj : subject) : M (rerr + Z) :=
  r ← loadLastSnapshot;
  match r with
  | inl e => stepdownLocked noLeader;; mret (inl e)
  | inr snap =>
      n ← get;
      let ae := buildAppendEntry n [mkEntry EntrySnapshot (snapdata snap); mkEntry EntryPeerState (peerstate snap)] in
      let st := FastState (wal n) in
      let fpIndex := u64 (FirstSeq st - 1) in
      let last := if (lastIndex snap <? fpIndex) && negb (FirstSeq st =? 0) then fpIndex else lastIndex snap in
      let ae := mkAppendEntry (ae_leader ae) (ae_term ae) (ae_commit ae) (lastTerm snap) last (ae_entries ae) 0 NoSubj None [] in
      match encode ae [] with
      | inl e => mret (inl (errCodec e))
      | inr buf => sendRPC subj (AppendReply (nid n)) buf;; mret (inr last)
      end
  end.

(** Whether the follower needs an entry that the log does not have any more. *)
Definition needs_snapshot (st : wal_state) (start : Z) : bool :=
  (start <? FirstSeq st) || ((Msgs st =? 0) && (start <=? LastSeq st)).

(** The entry the catchup starts with, after what the snapshot covers; [None]: the code returns. *)
Definition catchup_first (start : Z) : M (option appendEntry) :=
  n ← get;
  r ← lift (loadEntry n start);
  match r with
  | inr ae => mret (Some ae)
  | inl ErrStoreEOF => stepdownLocked noLeader;; mret None
  | inl _ =>
      r ← lift (loadEntry n (FirstSeq (FastState (wal n))));
      match r with
      | inr ae => mret (Some ae)
      | inl _ => stepdownLocked noLeader;; mret None
      end
  end.

Definition catchupFollower (ar : appendEntryResponse) : M unit :=
  n ← get;
  match progress n !! ar_peer ar with
  | Some q => progress <~ delete (ar_peer ar) (progress n);; queues <~ push_queue q (pindex n) (queues n)
  | None => mret tt
  end;;
  let start := u64 (ar_index ar + 1) in
  let st := FastState (wal n) in
  from ← (if needs_snapshot st start then
            r ← sendSnapshotToFollower (ar_reply ar);
            mret (match r with
                  | inl _ => None
                  | inr last => let start := u64 (last + 1) in if (Msgs st =? 0) || (LastSeq st <? start) then None else Some start
                  end)
          else mret (Some start));
  match from with
  | None => mret tt
  | Some start =>
      first ← catchup_first start;
      match first with
      | None => mret tt
      | Some ae =>
          n ← get;
          let q := nextQueue n in
          queues <~ <[q := [ae_pindex ae]]> (queues n);; progress <~ <[ar_peer ar := q]> (progress n);;
          runners <~ <[q := CatchupPending ar]> (runners n);; nextQueue <~ (q + 1)
      end
  end.

Definition ProposeAddPeer (p : peer) : M (option rerr) :=
  n ← get;
  if negb (isLeader n) then mret (Some errNotLeader) else
  match werr n with
  | Some e => mret (Some e)
  | None =>
      if 0 <? membChangeIndex n then mret (Some errMembershipChange) else
      prop <~ (prop n ++ [mkProposed (mkEntry EntryAddPeer p) NoSubj]);; mret None
  end.

(** The deferred end of [runCatchup]. *)
Definition catchup_exit (q : Z) (p : peer) : M unit :=
  modify (fun n => n <| progress := delete p (progress n) |> <| runners := delete q (runners n) |> <| queues := delete q (queues n) |>);;
  n ← get;
  when (bool_decide (peers n !! p = None)) (ProposeAddPeer p;; mret tt).

Definition maxOutstanding : Z := 2 * 1024 * 1024.

(** [sendNext]: entries are sent while less than [maxOutstanding] bytes wait for an answer.  A
    round sends one entry, of which there are [last - next]. *)
Fixpoint sendNext (fuel : nat) (subj : subject) (t last next total : Z) (om : gmap Z Z) : M (bool * (Z * Z * gmap Z Z)) :=
  if maxOutstanding <? total then mret (false, (next, total, om)) else
  match fuel with
  | O => mret (true, (next, total, om))
  | S fuel =>
      let next := u64 (next + 1) in
      if last <? next then mret (true, (next, total, om)) else
      n ← get;
      r ← lift (loadEntry n next);
      match r with
      | inl _ => mret (true, (next, total, om))
      | inr ae =>
          let enc := if ae_lterm ae =? t then inr (ae_buf ae) else
            encode (mkAppendEntry (ae_leader ae) (ae_term ae) (ae_commit ae) (ae_pterm ae) (ae_pindex ae) (ae_entries ae) t (ae_reply ae) (ae_sub ae) []) (ae_buf ae) in
          match enc with
          | inl _ => mret (true, (next, total, om))
          | inr buf =>
              sendRPC subj (AppendReply (nid n)) buf;;
              sendNext fuel subj t last next (total + zlen buf) (<[next := zlen buf]> om)
          end
      end
  end.

(** A step of the goroutine of queue [q]: its start, or an index that the follower reached. *)
Definition catchup_step (q : Z) : M unit :=
  n ← get;
  match runners n !! q with
  | None => mret tt
  | Some (CatchupPending ar) =>
      if negb (isLeader n) then catchup_exit q (ar_peer ar)
      else runners <~ <[q := CatchupRunning (ar_peer ar) (ar_reply ar) (term n) (pindex n) 0 0 ∅]> (runners n)
  | Some (CatchupRunning p subj t last next total om) =>
      match queues n !! q with
      | Some (index :: rest) =>
          queues <~ <[q := rest]> (queues n);;
          let total := total - default 0 (om !! index) in
          let om := delete index om in
          let next := if next =? 0 then index else next in
          if last <? index then catchup_exit q p else
          '(finished, (next, total, om)) ← sendNext (S (Z.to_nat (last - next))) subj t last next total om;
          n ← get;
          if (finished : bool) || negb (isLeader n) then catchup_exit q p
          else runners <~ <[q := CatchupRunning p subj t last next total om]> (runners n)
      | _ => mret tt
      end
  end.

(** A timeout, or the check that the node still leads. *)
Definition catchup_stop (q : Z) : M unit :=
  n ← get;
  match runners n !! q with
  | Some (CatchupRunning p _ _ _ _ _ _) => catchup_exit q p
  | _ => mret tt
  end.

(** ** Responses *)

Definition trackPeer (p : peer) : M unit :=
  n ← get;
  let isRemoved := match removed n !! p with Some t => clock n - t <? peerRemoveTimeout | None => false end in
  let needPeerAdd := isLeader n && negb (match peers n !! p with Some lp => kp lp | None => false end) && negb isRemoved in
  match peers n !! p with
  | Some ps => peers <~ <[p := mkLps (Some (clock n)) (li ps) (kp ps)]> (peers n)
  | None => mret tt
  end;;
  when needPeerAdd (ProposeAddPeer p;; mret tt).

(** The servers that are known to be up. *)
Definition healthy (online : peer -> bool) (n : raft) (x : peer * lps) : bool :=
  online (fst x) && (since (clock n) (ts (snd x)) <? hbInterval * 3).

Definition StepDown (online : peer -> bool) (preferred : list peer) : M (option rerr) :=
  n ← get;
  if negb (isLeader n) then mret (Some errNotLeader) else
  match preferred with
  | _ :: _ :: _ => mret (Some errTooManyPrefs)
  | _ =>
      let first := default noLeader (head preferred) in
      let maybe := if bool_decide (first = nid n) then noLeader else first in
      let maybe := match peers n !! maybe with
                   | Some ps => if negb (bool_decide (maybe = noLeader)) && healthy online n (maybe, ps) then maybe else noLeader
                   | None => noLeader
                   end in
      let maybe := if bool_decide (maybe = noLeader) then
                     default noLeader (fst <$> List.find (fun x => negb (bool_decide (fst x = nid n)) && healthy online n x) (range_peers (peers n)))
                   else maybe in
      when (negb (bool_decide (maybe = noLeader))) (sendAppendEntry [mkEntry EntryLeaderTransfer maybe]);;
      stepdownLocked noLeader;; mret None
  end.

Definition processAppendEntryResponse (online : peer -> bool) (ar : appendEntryResponse) : M unit :=
  trackPeer (ar_peer ar);;
  if ar_success ar then
    tracked ← trackResponse ar;
    '(committed, err) ← (if (tracked : bool) then tryCommit (ar_index ar) else mret (false, None));
    when (bool_decide (err = Some errNodeRemoved)) (StepDown online [];; shutdown);;
    n ← get;
    when (committed && (zlen (prop n) =? 0)) sendHeartbeat
  else if negb (bool_decide (ar_reply ar = NoSubj)) then catchupFollower ar
  else
    n ← get;
    when (term n <? ar_term ar) (new_term (ar_term ar);; writeTermVote;; stepdownLocked noLeader).
End append.
End RaftAppend.
