(* ===== verification/RaftRun.v ===== *)
(** * Raft nodes: messages, loops and the interface (src/server/raft.go)

    What a node does with a message that reaches one of its subscriptions, the rounds of the loops
    [runAsFollower], [runAsCandidate] and [runAsLeader], the calls of the upper layer, and the
    start from what is on the disk. *)

From S2P Require Import Prelude Binary RecordUpdate RaftCodec Raft RaftLog RaftAppend.
Import RaftCodec Raft RaftLog RaftAppend.

Module RaftRun.
Section run.
Context {L D : Type} `{WAL L} `{Files D} `{RaftEnv}.
Notation M := (M L D).
Notation raft := (raft L D).

(** ** Calls of the upper layer *)

Definition isLeaderOverrun (n : raft) : bool :=
  let app := Z.max (applied n) (papplied n) in
  let com := Z.max (commit n) (papplied n) in
  ((com <? pindex n) && (pauseQuorumThreshold <? pindex n - com)) || ((app <? com) && (pauseQuorumThreshold <? com - app)).

Definition overrun : M unit :=
  stepdownLocked noLeader;; modify (fun n => n <| overrunCount := u64 (overrunCount n + 1) |>).

Definition ProposeMulti (entries : list Entry) : M (option rerr) :=
  n ← get;
  if negb (isLeader n) then mret (Some errNotLeader) else
  match werr n with
  | Some e => mret (Some e)
  | None =>
      if isLeaderOverrun n then overrun;; mret (Some errNotLeader)
      else prop <~ (prop n ++ map (fun e => mkProposed e NoSubj) entries);; mret None
  end.

Definition Propose (data : list Z) : M (option rerr) := ProposeMulti [mkEntry EntryNormal data].

Definition ForwardProposal (data : list Z) : M (option rerr) :=
  n ← get;
  if isLeader n then Propose data else sendRPC PropSubj NoSubj data;; mret None.

Definition ProposeRemovePeer (p : peer) : M (option rerr) :=
  n ← get;
  match werr n with
  | Some e => mret (Some e)
  | None =>
      if negb (isLeader n) then sendRPC RemovePeerSubj NoSubj p;; mret None else
      if 0 <? membChangeIndex n then mret (Some errMembershipChange) else
      if zlen (map_to_list (peers n)) <=? 1 then mret (Some errRemoveLastNode) else
      prop <~ (prop n ++ [mkProposed (mkEntry EntryRemovePeer p) NoSubj]);; mret None
  end.

Definition pauseApplyLocked : M unit :=
  n ← get;
  when (negb (isFollower n)) (stepdownLocked noLeader);;
  paused <~ true;;
  n ← get; when (hcommit n <? commit n) (hcommit <~ commit n).

Definition PauseApply : M (option rerr) :=
  n ← get; if isLeader n then mret (Some errAlreadyLeader) else pauseApplyLocked;; mret None.

(** [true]: the node was closed. *)
Fixpoint resume_commits (count : nat) (index : Z) : M bool :=
  match count with
  | O => mret false
  | S count =>
      e ← applyCommit index;
      match e with
      | Some _ => mret false
      | None => n ← get; if isClosed n then mret true else resume_commits count (index + 1)
      end
  end.

Definition ResumeApply : M unit :=
  n ← get;
  if negb (paused n) then mret tt else
  closed ← resume_commits (Z.to_nat (hcommit n - commit n)) (commit n + 1);
  if (closed : bool) then mret tt else
  paused <~ false;; hcommit <~ 0;;
  n ← get;
  when (lxfer n) (xferCampaign;; mret tt).

Definition DrainAndReplaySnapshot : M bool :=
  r ← loadLastSnapshot;
  match r with
  | inl _ => mret false
  | inr snap =>
      pauseApplyLocked;; applyq <~ [];; cancelCatchup;; commit <~ lastIndex snap;;
      modify (fun n => n <| applyq := applyq n ++ [Some (mkCommitted (commit n) [mkEntry EntrySnapshot (snapdata snap)])] |>);;
      mret true
  end.

Definition Processed (index app : Z) : M (Z * Z) :=
  n ← get;
  if commit n <? index then mret (0, 0) else
  when (processed n <? index) (processed <~ index);;
  let app := if index <? app then index else app in
  when (applied n <? app) (applied <~ app);;
  n ← get;
  when ((0 <? aflr n) && (aflr n <=? processed n)) (
    aflr <~ 0;;
    when (isLeader n) (leaderState <~ true;; updateLeadChange true));;
  let entries := if papplied n <? applied n then applied n - papplied n else 0 in
  let msgs := u64 (pindex n - papplied n) in
  mret (entries, if 0 <? msgs then u64 (entries * bytes n) / msgs else 0).

Definition Applied (index : Z) : M (Z * Z) := Processed index index.

Definition Campaign : M (option rerr) := n ← get; mret (if isLeader n then Some errAlreadyLeader else None).

Definition CampaignImmediately : M (option rerr) := maybeLeader <~ true;; resetInitializing;; Campaign.

Definition SetObserver (isObserver : bool) : M unit := setObserverLocked isObserver extUndetermined.

Definition NeedSnapshot (n : raft) : bool := bool_decide (snapfile n = None) && (1 <? applied n).

(** The calls, and the heartbeat that another goroutine sends; their results are dropped. *)
Inductive call : Type :=
  | CPropose (data : list Z) | CProposeMulti (es : list Entry) | CForwardProposal (data : list Z)
  | CProposeAddPeer (p : peer) | CProposeRemovePeer (p : peer) | CProposeKnownPeers (ps : list peer) | CUpdateKnownPeers (ps : list peer)
  | CAdjustClusterSize (size : Z) | CAdjustBootClusterSize (size : Z)
  | CPauseApply | CResumeApply | CDrainAndReplaySnapshot | CProcessed (index app : Z)
  | CSendSnapshot (data : list Z) | CInstallSnapshot (data : list Z) (force : bool) | CCheckpoint (force : bool)
  | CLoadLastSnapshot (c : checkpoint) | CCheckpointWrite (c : checkpoint) (data : list Z) | CCheckpointCompact (c : checkpoint)
  | CCheckpointDone (c : checkpoint) | CCheckpointAbort
  | CStepDown (online : peer -> bool) (preferred : list peer) | CCampaign | CCampaignImmediately | CSetObserver (b : bool) | CStop
  | CHeartbeat.

Definition api_call (c : call) : M unit :=
  match c with
  | CPropose data => Propose data;; mret tt
  | CProposeMulti es => ProposeMulti es;; mret tt
  | CForwardProposal data => ForwardProposal data;; mret tt
  | CProposeAddPeer p => ProposeAddPeer p;; mret tt
  | CProposeRemovePeer p => ProposeRemovePeer p;; mret tt
  | CProposeKnownPeers ps => ProposeKnownPeers ps
  | CUpdateKnownPeers ps => UpdateKnownPeers ps
  | CAdjustClusterSize size => AdjustClusterSize size;; mret tt
  | CAdjustBootClusterSize size => AdjustBootClusterSize size;; mret tt
  | CPauseApply => PauseApply;; mret tt
  | CResumeApply => ResumeApply
  | CDrainAndReplaySnapshot => DrainAndReplaySnapshot;; mret tt
  | CProcessed index app => Processed index app;; mret tt
  | CSendSnapshot data => SendSnapshot data
  | CInstallSnapshot data force => InstallSnapshot data force;; mret tt
  | CCheckpoint force => createSnapshotCheckpointLocked force;; mret tt
  | CLoadLastSnapshot c => LoadLastSnapshot c;; mret tt
  | CCheckpointWrite c data => checkpoint_write c data;; mret tt
  | CCheckpointCompact c => checkpoint_compact c;; mret tt
  | CCheckpointDone c => checkpoint_done c;; mret tt
  | CCheckpointAbort => checkpoint_abort
  | CStepDown online preferred => StepDown online preferred;; mret tt
  | CCampaign => Campaign;; mret tt
  | CCampaignImmediately => CampaignImmediately;; mret tt
  | CSetObserver b => SetObserver b
  | CStop => shutdown
  | CHeartbeat => sendHeartbeat
  end.

(** ** Messages *)

Definition handleVoteRequest (reply : subject) (msg : list Z) : M unit :=
  match decodeVoteRequest msg reply with
  | None => mret tt
  | Some vr => modify (fun n => n <| reqs := reqs n ++ [vr] |>)
  end.

Definition handleVoteResponse (msg : list Z) : M unit :=
  match decodeVoteResponse msg with
  | None => mret tt
  | Some vr => n ← get; when (isCandidate n || isLeader n) (votes <~ (votes n ++ [vr]))
  end.

Definition handleAppendEntry (sub : subject) (reply : subject) (msg : list Z) : M unit :=
  r ← lift (decodeAppendEntry msg (Some sub) reply);
  match r with
  | inl _ => mret tt
  | inr ae => modify (fun n => n <| entry := entry n ++ [ae] |>)
  end.

(** The response is used without a check that it could be read. *)
Definition handleAppendEntryResponse (reply : subject) (msg : list Z) : M unit :=
  ar ← lift (decodeAppendEntryResponse msg);
  modify (fun n => n <| resp := resp n ++ [mkAppendEntryResponse (ar_term ar) (ar_index ar) (ar_peer ar) reply (ar_success ar)] |>).

Definition handleForwardedRemovePeerProposal (reply : subject) (msg : list Z) : M unit :=
  n ← get;
  if negb (Nat.eqb (length msg) idLen) || negb (isLeader n) || negb (leaderState n) || negb (bool_decide (werr n = None)) || (0 <? membChangeIndex n)
  then mret tt
  else prop <~ (prop n ++ [mkProposed (mkEntry EntryRemovePeer msg) reply]).

Definition handleForwardedProposal (reply : subject) (msg : list Z) : M unit :=
  n ← get;
  if negb (isLeader n) || negb (leaderState n) || negb (bool_decide (werr n = None)) then mret tt
  else if isLeaderOverrun n then overrun
  else prop <~ (prop n ++ [mkProposed (mkEntry EntryNormal msg) reply]).

(** A message reaches the subscriptions of the other servers: the send queue does not call the
    callbacks of its own server.  Proposals are subscribed to in [runAsLeader] only. *)
Definition deliver (m : message) : M unit :=
  n ← get;
  if bool_decide (m_from m = nid n) || bool_decide (loc n = Stopped) then mret tt else
  match m_subj m with
  | VoteSubj => handleVoteRequest (m_reply m) (m_data m)
  | AppendSubj => handleAppendEntry AppendSubj (m_reply m) (m_data m)
  | VoteReply p => when (bool_decide (p = nid n)) (handleVoteResponse (m_data m))
  | AppendReply p => when (bool_decide (p = nid n)) (handleAppendEntryResponse (m_reply m) (m_data m))
  | CatchupReply p k => when (bool_decide (CatchupReply p k ∈ inboxes n)) (handleAppendEntry (CatchupReply p k) (m_reply m) (m_data m))
  | PropSubj => when (bool_decide (loc n = InLeader)) (handleForwardedProposal (m_reply m) (m_data m))
  | RemovePeerSubj => when (bool_decide (loc n = InLeader)) (handleForwardedRemovePeerProposal (m_reply m) (m_data m))
  | _ => mret tt
  end.

(** ** Loops *)

(** The event that a loop waits for: a queue with something in it, a timer, or the end.  [oor]:
    the server is out of resources. *)
Inductive run_event : Type :=
  | EvEntry (oor : bool) | EvResp | EvProp | EvVotes | EvReqs | EvElect (oor : bool) | EvHeartbeat | EvLostQuorum | EvQuit.

Definition processAppendEntries (oor : bool) : M unit :=
  n ← get;
  entry <~ [];;
  when (negb (isClosed n) && negb oor) (each (fun ae => processAppendEntry ae (ae_sub ae)) (entry n)).

Definition pop_request : M unit :=
  n ← get;
  match reqs n with
  | [] => mret tt
  | vr :: rest => reqs <~ rest;; processVoteRequest vr
  end.

(** The condition of the loop: [st] is the role that it runs in. *)
Definition again (st : RaftState) : M unit :=
  n ← get; when (negb (bool_decide (state n = st))) (loc <~ RunTop).

Definition follower_step (ev : run_event) : M unit :=
  match ev with
  | EvEntry oor => processAppendEntries oor;; again Follower
  | EvElect oor =>
      n ← get;
      if oor || observer n then again Follower else
      match catchup n with
      | Some _ => stalled ← catchupStalled; when stalled cancelCatchup;; again Follower
      | None => switchToCandidate;; loc <~ RunTop
      end
  | EvVotes => modify (fun n => n <| votes := tail (votes n) |>);; again Follower
  | EvResp => resp <~ [];; again Follower
  | EvProp => prop <~ [];; again Follower
  | EvReqs => pop_request;; again Follower
  | EvHeartbeat | EvLostQuorum => mret tt
  | EvQuit => loc <~ RunTop
  end.

(** Start of [runAsCandidate]: the votes are requested, and the own one is given. *)
Definition candidate_start : M unit :=
  votes <~ [];;
  requestVote;;
  modify (fun n => n <| votes := votes n ++ [mkVoteResponse (term n) (nid n) true false] |>);;
  loc <~ InCandidate ∅ ∅;; again Candidate.

(** A vote; [true]: the node leads. *)
Definition count_vote (vs es : gset peer) (vresp : voteResponse) : M (gset peer * gset peer * bool) :=
  n ← get;
  if vs_granted vresp && (term n =? vs_term vresp) then
    trackPeer (vs_peer vresp);;
    let vs := if vs_empty vresp then vs else {[vs_peer vresp]} ∪ vs in
    let es := if vs_empty vresp then {[vs_peer vresp]} ∪ es else es in
    m ← get;
    if wonElection m (Z.of_nat (size vs)) then switchToLeader;; mret (vs, es, true)
    else if Z.of_nat (size vs) + Z.of_nat (size es) =? csz n then switchToLeader;; mret (vs, es, true)
    else mret (vs, es, false)
  else
    when (term n <? vs_term vresp) (
      new_term (vs_term vresp);; writeTermVote;; lxfer <~ false;; stepdownLocked noLeader);;
    mret (vs, es, false).

Definition candidate_step (vs es : gset peer) (ev : run_event) : M unit :=
  match ev with
  | EvEntry oor => processAppendEntries oor;; again Candidate
  | EvResp => resp <~ [];; again Candidate
  | EvProp => prop <~ [];; again Candidate
  | EvElect _ => switchToCandidate;; loc <~ RunTop
  | EvVotes =>
      n ← get;
      match votes n with
      | [] => again Candidate
      | vresp :: rest =>
          votes <~ rest;;
          '(vs, es, leads) ← count_vote vs es vresp;
          if (leads : bool) then loc <~ RunTop else loc <~ InCandidate vs es;; again Candidate
      end
  | EvReqs => pop_request;; again Candidate
  | EvHeartbeat | EvLostQuorum => mret tt
  | EvQuit => loc <~ RunTop
  end.

Definition maxBatch : Z := 256 * 1024.
Definition maxEntries : Z := 512.

(** The proposals in batches of entries; a change of the membership goes on its own. *)
Fixpoint send_proposals (es : list proposedEntry) (entries : list Entry) (sz : Z) : M unit :=
  match es with
  | [] => when (0 <? zlen entries) (sendAppendEntry entries)
  | b :: es =>
      let e := p_entry b in
      if ChangesMembership e then sendMembershipChange e;; send_proposals es entries sz
      else
        let entries := entries ++ [e] in
        let sz := sz + (zlen (Data e) + 1) in
        if (sz <? maxBatch) && (zlen entries <? maxEntries) then send_proposals es entries sz
        else sendAppendEntry entries;; send_proposals es [] 0
  end.

(** [ok]: the subscriptions for proposals could be made. *)
Definition leader_start (ok : bool) : M unit :=
  if ok then loc <~ InLeader;; again Leader else stepdownLocked noLeader;; loc <~ RunTop.

Definition leader_step (online : peer -> bool) (ev : run_event) : M unit :=
  match ev with
  | EvResp =>
      n ← get;
      resp <~ [];; each (processAppendEntryResponse online) (resp n);; again Leader
  | EvProp =>
      n ← get;
      prop <~ [];; send_proposals (prop n) [] 0;;
      each (fun pe => when (negb (bool_decide (p_reply pe = NoSubj))) (sendReply (p_reply pe) [])) (prop n);;
      again Leader
  | EvHeartbeat => n ← get; when (hbInterval <? since (clock n) (active n)) sendHeartbeat;; again Leader
  | EvLostQuorum => n ← get; if lostQuorumLocked n then stepdownLocked noLeader;; loc <~ RunTop else again Leader
  | EvVotes =>
      n ← get;
      match votes n with
      | [] => again Leader
      | vresp :: rest =>
          votes <~ rest;;
          if term n <? vs_term vresp then stepdownLocked noLeader;; loc <~ RunTop else again Leader
      end
  | EvReqs => pop_request;; again Leader
  | EvEntry oor => processAppendEntries oor;; again Leader
  | EvElect _ => mret tt
  | EvQuit => loc <~ RunTop
  end.

(** The loop of [run] between two roles, and its end. *)
Definition run_top (subs_ok : bool) : M unit :=
  n ← get;
  match state n with
  | Follower => loc <~ InFollower
  | Candidate => candidate_start
  | Leader => leader_start subs_ok
  | Closed =>
      reqs <~ [];; votes <~ [];; prop <~ [];; entry <~ [];; resp <~ [];; applyq <~ [];; inboxes <~ [];; loc <~ Stopped
  end.

Definition run_step (online : peer -> bool) (subs_ok : bool) (ev : run_event) : M unit :=
  n ← get;
  match loc n with
  | RunStart => ResumeApply;; modify (fun n => n <| applyq := applyq n ++ [None] |> <| loc := RunTop |>)
  | RunTop => run_top subs_ok
  | InFollower => follower_step ev
  | InCandidate vs es => candidate_step vs es ev
  | InLeader => leader_step online ev
  | Stopped => mret tt
  end.

(** ** The start *)

Record RaftConfig : Type := mkConfig { Observer : bool; Recovering : bool; ScaleUp : bool; lameDuck : bool }.

Definition fresh (p : peer) (l : L) (d : D) (now inbox : Z) (cfg : RaftConfig) : raft := {|
  nid := p; wal := l; bytes := 0; werr := None; state := Follower; leaderState := false; snapfile := None;
  csz := 0; qn := 0; peers := ∅; removed := ∅; acks := ∅; pae := ∅; active := None; llqrt := None; lsut := None;
  term := 0; pterm := 0; pindex := 0; commit := 0; processed := 0; applied := 0; papplied := 0;
  membChangeIndex := 0; aflr := 0; leader := noLeader; vote := noVote; hasleader := false; pleader := false;
  extSt := extUndetermined; wtv := None; wps := None; catchup := None; progress := ∅; queues := ∅; runners := ∅;
  hcommit := 0; prop := []; entry := []; resp := []; applyq := []; reqs := []; votes := []; leadc := []; quit := false;
  lxfer := false; maybeLeader := false; paused := false; observer := Observer cfg; initializing := false; scaleUp := false;
  snapshotting := false; quorumPaused := false; overrunCount := 0;
  disk := d; clock := now; out := []; inboxes := []; nextInbox := inbox; nextQueue := 0; loc := RunStart |}.

Definition readTermVote : M unit :=
  n ← get;
  match readFile (disk n) TermVoteFile with
  | inl _ => mret tt
  | inr buf => let '(t, v) := read_term_vote buf in when (0 <? t) (term <~ t;; vote <~ v)
  end.

(** The newest of the snapshot files. *)
Definition latest_snapshot (names : list (Z * Z)) : option (Z * Z) :=
  snd (foldl (fun '((lt, lx), latest) '(t, x) =>
    if lt <? t then ((t, x), Some (t, x)) else if (t =? lt) && (lx <? x) then ((lt, x), Some (t, x)) else ((lt, lx), latest))
    ((0, 0), None) names).

Definition setupLastSnapshot : M (option rerr) :=
  n ← get;
  match readSnapDir (disk n) with
  | inl errNotExist => mret (Some errNoSnapAvailable)
  | inl e => mret (Some e)
  | inr names =>
      match latest_snapshot names with
      | None => mret None
      | Some (t, x) =>
          snapfile <~ Some (t, x);;
          r ← loadLastSnapshot;
          match r with
          | inl e => mret (Some e)
          | inr snap =>
              pindex <~ lastIndex snap;; pterm <~ lastTerm snap;; commit <~ lastIndex snap;; papplied <~ lastIndex snap;;
              r ← lift (decodePeerState (peerstate snap) (spare (peerstate snap)));
              match r with
              | inl e => mret (Some (errCodec e))
              | inr ps =>
                  processPeerState ps;; extSt <~ domainExt ps;;
                  modify (fun n => n <| applyq := applyq n ++ [Some (mkCommitted (commit n) [mkEntry EntrySnapshot (snapdata snap)])] |>);;
                  n ← get;
                  let '(l, e) := Compact (wal n) (u64 (lastIndex snap + 1)) in
                  wal <~ l;;
                  match e with
                  | Some err => setWriteErrLocked err;; mret (Some err)
                  | None =>
                      each (fun '(t', x') => when (negb ((t' =? t) && (x' =? x))) (remove_file (SnapFile t' x'))) names;;
                      mret None
                  end
              end
          end
      end
  end.

Definition remove_snapshots : M unit :=
  n ← get;
  match readSnapDir (disk n) with
  | inl _ => mret tt
  | inr names => each (fun '(t, x) => remove_file (SnapFile t x)) names
  end.

Definition restorePeerState : M (option rerr) :=
  n ← get;
  match readFile (disk n) PeerStateFile with
  | inl e => mret (Some e)
  | inr buf =>
      r ← lift (decodePeerState buf (spare buf));
      match r with
      | inl e => mret (Some (errCodec e))
      | inr ps => processPeerState ps;; extSt <~ domainExt ps;; mret None
      end
  end.

Definition truncateAndErr (index : Z) : M unit :=
  n ← get;
  let '(l, e) := Truncate (wal n) index in
  wal <~ l;;
  match e with Some err => setWriteErrLocked err | None => mret tt end.

Definition maxQsz : Z := 32 * 1024 * 1024.

(** The pause of the apply queue when too much is in it. *)
Fixpoint queue_size (es : list Entry) (qsz : Z) : M Z :=
  match es with
  | [] => mret qsz
  | e :: es =>
      let qsz := qsz + zlen (Data e) in
      n ← get;
      when ((maxQsz <? qsz) && negb (paused n)) (PauseApply;; mret tt);;
      queue_size es qsz
  end.

Definition replay_entry (ae : appendEntry) (qsz : Z) : M Z := processAppendEntry ae None;; queue_size (ae_entries ae) qsz.

(** The entries of the log from [index] on; [first] is the first of them. *)
Fixpoint replay (count : nat) (index first qsz : Z) : M unit :=
  match count with
  | O => mret tt
  | S count =>
      n ← get;
      r ← lift (loadEntry n index);
      match r with
      | inl _ => truncateAndErr (if index =? first then pindex n else index - 1)
      | inr ae =>
          if (index =? first) && (negb (ae_pindex ae =? index - 1) || negb (pindex n =? ae_pindex ae)) then truncateAndErr (pindex n) else
          if negb (ae_pindex ae =? index - 1) then truncateAndErr (index - 1) else
          when (index =? first) (
            pterm <~ ae_pterm ae;; pindex <~ ae_pindex ae;;
            when ((0 <? ae_commit ae) && (commit n <? ae_commit ae)) (commit <~ ae_commit ae));;
          qsz ← replay_entry ae qsz;
          replay count (index + 1) first qsz
      end
  end.

Definition start_observer (cfg : RaftConfig) : M unit :=
  when (lameDuck cfg) (SetObserver true);;
  modify (fun n => n <| llqrt := Some (clock n) |>);;
  n ← get;
  when (negb (Recovering cfg) && (pindex n =? 0)) (
    initializing <~ true;;
    when (negb (Observer cfg) && ScaleUp cfg) (scaleUp <~ true;; setObserverLocked true extUndetermined)).

Definition init_node (cfg : RaftConfig) : M (option rerr) :=
  readTermVote;;
  n ← get;
  e ← (if isMemStore (wal n) then remove_snapshots;; mret None else setupLastSnapshot);
  if negb (bool_decide (e = None)) && negb (bool_decide (e = Some errNoSnapAvailable)) then shutdown;; mret e else
  n ← get;
  e ← (if bool_decide (peers n = ∅) then restorePeerState else mret None);
  match e with
  | Some err => mret (Some err)
  | None =>
      n ← get;
      let st := FastState (wal n) in
      bytes <~ Bytes st;;
      when (0 <? Msgs st) (replay (Z.to_nat (LastSeq st - FirstSeq st + 1)) (FirstSeq st) (FirstSeq st) 0);;
      start_observer cfg;; mret None
  end.

(** The node that a server starts with what its log and its directory hold. *)
Definition initRaftNode (p : peer) (l : L) (d : D) (now inbox : Z) (cfg : RaftConfig) : option (rerr + raft) :=
  '(n, e) ← init_node cfg (fresh p l d now inbox cfg);
  Some (match e with Some err => inl err | None => inr n end).
End run.
End RaftRun.
