(* ===== verification/RaftElection.v ===== *)
(** * Terms and votes of a Raft node

    What each handler may do to the term, the vote, the role and the files that hold them.  A
    handler is [calm] when it keeps the term and the vote and can only leave a role; it is [quiet]
    when it may also move to a higher term, as a follower. *)

From S2P Require Import Prelude Binary RecordUpdate RaftCodec RaftCodecSpec Raft RaftFrame RaftLog RaftAppend RaftRun.
Import RaftCodec Raft RaftLog RaftAppend RaftRun.

(** What a store directory does with the file of the term and vote when nothing fails: a write
    succeeds, it is read back, and other files are other files. *)
Class DurableVotes (D : Type) `{Files D} : Prop := {
  vote_stat d : statFile d TermVoteFile = None \/ statFile d TermVoteFile = Some errNotExist;
  vote_write d b : (writeFile d TermVoteFile b).2 = None;
  vote_read d b : readFile (writeFile d TermVoteFile b).1 TermVoteFile = inr b;
  vote_other_write d f b : f <> TermVoteFile -> readFile (writeFile d f b).1 TermVoteFile = readFile d TermVoteFile;
  vote_other_remove d f : f <> TermVoteFile -> readFile (removeFile d f) TermVoteFile = readFile d TermVoteFile }.

Section election.
Context {L D : Type} `{WAL L} `{Files D} `{RaftEnv} `{!DurableVotes D}.
Notation M := (M L D).
Notation raft := (raft L D).
Implicit Types n : raft.

(** The term and vote a server would start with. *)
Definition stored (d : D) : Z * peer :=
  match readFile d TermVoteFile with
  | inr buf => let '(t, v) := read_term_vote buf in if 0 <? t then (t, v) else (0, noVote)
  | inl _ => (0, noVote)
  end.

(** A later term, or the same one with a vote that was open before. *)
Definition tav_le (a b : Z * peer) : Prop := a.1 < b.1 \/ (a.1 = b.1 /\ (a.2 = noVote \/ a.2 = b.2)).

#[local] Instance tav_preorder : PreOrder tav_le.
Proof.
  split; [intros [t v]; right; cbn; auto|]. intros [t1 v1] [t2 v2] [t3 v3]. unfold tav_le. cbn.
  intros [?|[-> [->| ->]]] [?|[-> [->| ->]]]; (left; lia) || (right; split; [lia|auto]).
Qed.

Lemma stored_nonneg d : 0 <= (stored d).1 /\ ((stored d).1 = 0 -> (stored d).2 = noVote).
Proof.
  unfold stored. destruct (readFile d TermVoteFile) as [|buf]; [done|]. destruct (read_term_vote buf) as [t v].
  destruct (Z.ltb_spec 0 t); cbn; [split; lia|done].
Qed.

Definition tav (n : raft) : Z * peer := (term n, vote n).

(** The file is not ahead of the node, and [wtv] is what is in it. *)
Record synced (n : raft) : Prop := {
  sy_le : tav_le (stored (disk n)) (tav n);
  sy_wtv : forall b, wtv n = Some b -> readFile (disk n) TermVoteFile = inr b;
  sy_vote : vote n = noVote \/ (8 <= length (vote n))%nat }.

(** Not a vote, nor a request for one. *)
Definition harmless (m : message) : Prop :=
  match m_subj m with
  | PropSubj | RemovePeerSubj => True
  | _ => length (m_data m) <> voteRequestLen /\ length (m_data m) <> voteResponseLen
  end.

Definition sends_harmless (n n' : raft) : Prop := exists new, out n' = out n ++ new /\ Forall harmless new.

#[local] Instance sends_harmless_preorder : PreOrder sends_harmless.
Proof.
  split; [intros n; exists []; by rewrite app_nil_r|].
  intros n1 n2 n3 (a & Ha & Fa) (b & Hb & Fb). exists (a ++ b). rewrite Hb, Ha, app_assoc. split; [done|by apply Forall_app].
Qed.

Definition leaves (s s' : RaftState) : Prop := s' = s \/ s' = Follower \/ s' = Closed.

#[local] Instance leaves_preorder : PreOrder leaves.
Proof. split; [by left|]. intros a b c [->|[-> | ->]] [->|[-> | ->]]; unfold leaves; auto. Qed.

Record calm (n n' : raft) : Prop := {
  ca_nid : nid n' = nid n; ca_tav : tav n' = tav n; ca_loc : loc n' = loc n;
  ca_reqs : reqs n' ⊆ reqs n; ca_votes : votes n' ⊆ votes n;
  ca_out : sends_harmless n n'; ca_role : leaves (state n) (state n');
  ca_sync : is_u64 (term n) -> synced n -> synced n' /\ tav_le (stored (disk n)) (stored (disk n')) }.

Lemma tav_eq n n' : tav n' = tav n -> term n' = term n /\ vote n' = vote n.
Proof. unfold tav. intros [= -> ->]. done. Qed.

#[local] Instance calm_preorder : PreOrder calm.
Proof.
  split.
  - intros n. split; solve [done | reflexivity | intros _ Hs; split; [done|reflexivity]].
  - intros n1 n2 n3 [] []. destruct (tav_eq n1 n2) as [Ht _]; [done|].
    split; try congruence; try (by etransitivity).
    intros Hu Hs. destruct ca_sync0 as [H2 Hle]; [done|done|]. destruct ca_sync1 as [H3 Hle']; [by rewrite Ht|done|].
    split; [done|by transitivity (stored (disk n2))].
Qed.

(** The fields that matter here. *)
Definition same_view (n n' : raft) : Prop :=
  nid n' = nid n /\ tav n' = tav n /\ loc n' = loc n /\ reqs n' = reqs n /\ votes n' = votes n /\ out n' = out n /\
  state n' = state n /\ disk n' = disk n /\ wtv n' = wtv n.

Lemma calm_view n n' : same_view n n' -> calm n n'.
Proof.
  intros (Hi & Ht & Hl & Hr & Hv & Ho & Hs & Hd & Hw). split; try done; rewrite ?Hr, ?Hv, ?Hs, ?Hd; try reflexivity.
  - exists []. by rewrite Ho, app_nil_r.
  - intros _ [Hle Hwt Hvo]. split; [|done]. destruct (tav_eq n n' Ht) as [_ Hv'].
    split; rewrite ?Hd, ?Hw, ?Ht, ?Hv'; done.
Qed.

Ltac calm_field := apply calm_view; unfold same_view; split_and!; reflexivity.
Ltac calm_parts := keeps_with calm_field.
Notation Calm := (Keeps calm).

(** A change of the disk that leaves the file of the vote alone. *)
Lemma calm_disk n d : readFile d TermVoteFile = readFile (disk n) TermVoteFile -> calm n (n <| disk := d |>).
Proof.
  intros Hd. split; try done.
  - exists []. cbn. by rewrite app_nil_r.
  - intros _ [Hle Hw Hv]. assert (stored d = stored (disk n)) as Hst by (unfold stored; by rewrite Hd).
    split; [split|]; cbn; rewrite ?Hst, ?Hd; try done; reflexivity.
Qed.

Lemma calm_send subj reply data :
  harmless (mkMessage [] subj reply data) -> Calm (sendRPC subj reply data).
Proof.
  intros Hh. apply Keeps_modify. intros n. split; try done.
  - eexists. split; [done|]. repeat constructor. exact Hh.
  - intros _ [Hle Hw Hv]. split; [|reflexivity]. split; done.
Qed.

(** ** Storage *)

Lemma calm_shutdown : Calm shutdown.
Proof.
  intros n n' a. unfold shutdown. cbv [mbind M_bind get]. destruct (isClosed n); [intros [= <- <-]; reflexivity|].
  intros [= <- <-]. split; try done.
  - exists []. cbn. by rewrite app_nil_r.
  - by right; right.
  - intros _ [Hle Hw Hv]. split; [split; done|reflexivity].
Qed.
#[local] Hint Resolve calm_shutdown : keeps.

Lemma calm_setWriteErrLocked e : Calm (setWriteErrLocked e).
Proof. unfold setWriteErrLocked. calm_parts. Qed.
#[local] Hint Resolve calm_setWriteErrLocked : keeps.

Lemma calm_write_file f b : f <> TermVoteFile -> Calm (write_file f b).
Proof.
  intros Hf n n' a. unfold write_file. pose proof (vote_other_write (disk n) f b Hf) as Hr.
  destruct (writeFile (disk n) f b) as [d e]. intros [= <- <-]. by apply calm_disk.
Qed.

Lemma calm_stat_write_file f b : f <> TermVoteFile -> Calm (stat_write_file f b).
Proof.
  intros Hf. pose proof (calm_write_file f b Hf). unfold stat_write_file. calm_parts.
Qed.

Lemma calm_remove_snap name : Calm (remove_file (snap_file name)).
Proof. apply Keeps_modify. intros n. apply calm_disk. by apply vote_other_remove. Qed.
#[local] Hint Resolve calm_remove_snap : keeps.

Lemma calm_write_snap name b : Calm (write_file (snap_file name) b).
Proof. by apply calm_write_file. Qed.

Lemma calm_write_snap_file t i b : Calm (write_file (SnapFile t i) b).
Proof. by apply calm_write_file. Qed.

Lemma calm_write_peers b : Calm (stat_write_file PeerStateFile b).
Proof. by apply calm_stat_write_file. Qed.
#[local] Hint Resolve calm_write_snap calm_write_snap_file calm_write_peers : keeps.

(** ** The term and vote on the disk *)

(** After [writeTermVote] the file has the term and vote of the node. *)
Record wrote (n n' : raft) : Prop := {
  wr_same : same_view (n <| disk := disk n' |> <| wtv := wtv n' |>) n';
  wr_sync : is_u64 (term n) -> synced n -> synced n' /\ (0 < term n -> stored (disk n') = tav n) }.

Lemma read_stored d t v : 0 < t -> readFile d TermVoteFile = inr (le_put 8 t ++ v) -> is_u64 t -> v = noVote \/ length v = idLen -> stored d = (t, v).
Proof.
  intros Ht Hr Hu Hv. unfold stored. rewrite Hr.
  rewrite (term_vote_roundtrip t v (le_put 8 t ++ v)); [|done|by destruct Hv; auto|].
  - by rewrite (proj2 (Z.ltb_lt _ _)).
  - unfold term_vote. rewrite (proj2 (Nat.ltb_ge _ _)); [done|]. destruct Hv as [->| ->]; cbn; lia.
Qed.

(** The vote fits: the bytes are there, and the file holds them. *)
Lemma wrote_synced n n' b :
  same_view (n <| disk := disk n' |> <| wtv := wtv n' |>) n' -> term_vote (term n) (vote n) = Some b ->
  (synced n -> readFile (disk n') TermVoteFile = inr b) -> (forall b', wtv n' = Some b' -> b' = b) -> wrote n n'.
Proof.
  intros Hsame Hb Hr Hw. split; [done|]. intros Hu Hs. specialize (Hr Hs). destruct Hs as [Hle Hwt Hv].
  destruct Hsame as (_ & Ht & _). unfold term_vote in Hb. destruct (Nat.ltb_spec idLen (length (vote n))) as [|Hlen]; [done|].
  apply (inj Some) in Hb. subst b.
  assert (vote n = noVote \/ length (vote n) = idLen) as Hv' by (destruct Hv as [|]; [by left|right; unfold idLen in *; lia]).
  assert (0 < term n -> stored (disk n') = tav n) as Hst by (intros Ht0; by apply read_stored).
  split; [|done]. split.
  - rewrite Ht. change (tav (n <| disk := disk n' |> <| wtv := wtv n' |>)) with (tav n).
    destruct (decide (0 < term n)) as [Hpos|Hpos]; [rewrite Hst by done; reflexivity|].
    assert (term n = 0) as Hz by (unfold is_u64 in Hu; lia). unfold stored. rewrite Hr.
    rewrite (term_vote_roundtrip (term n) (vote n) (le_put 8 (term n) ++ vote n)); [|done|by destruct Hv'; auto|].
    + rewrite Hz. right. cbn. auto.
    + unfold term_vote. by rewrite (proj2 (Nat.ltb_ge _ _)) by lia.
  - intros b' Hb'. by rewrite (Hw b' Hb').
  - destruct (tav_eq _ _ Ht) as [_ ->]. exact Hv.
Qed.

Lemma writeTermVote_wrote n n' a : writeTermVote n = Some (n', a) -> wrote n n'.
Proof.
  unfold writeTermVote. cbv [mbind M_bind get lift]. destruct (term_vote (term n) (vote n)) as [b|] eqn:Eb; [|done].
  cbn [mret M_ret]. destruct (bool_decide_reflect (wtv n = Some b)) as [Hw|Hw].
  - intros [= <- <-]. apply (wrote_synced n n b); [unfold same_view; split_and!; reflexivity|done|intros Hs; by apply (sy_wtv n Hs)|congruence].
  - unfold stat_write_file, write_file. cbv [mbind M_bind get modify].
    pose proof (vote_write (disk n) b) as Hok. pose proof (vote_read (disk n) b) as Hrd.
    destruct (writeFile (disk n) TermVoteFile b) as [d e] eqn:Ew. cbn in Hok, Hrd. subst e.
    repeat match goal with |- context [statFile ?d _] => progress change d with (disk n) end.
    destruct (vote_stat (disk n)) as [-> | ->]; cbv beta iota;
      repeat match goal with |- context [writeFile ?d _ _] => progress change d with (disk n) end; rewrite Ew; intros [= <- <-];
      (apply (wrote_synced n _ b); [unfold same_view; split_and!; reflexivity|done|intros _; exact Hrd|cbn; congruence]).
Qed.

Lemma wrote_calm n n' : wrote n n' -> calm n n'.
Proof.
  intros [(Hi & Ht & Hl & Hr & Hv & Ho & Hs & _ & _) Hsy].
  assert (tav n' = tav n) as Ht' by exact Ht. split; try done.
  - by rewrite Hr.
  - by rewrite Hv.
  - exists []. rewrite Ho. by rewrite app_nil_r.
  - rewrite Hs. by left.
  - intros Hu Hsn. destruct (Hsy Hu Hsn) as [Hsn' Hst]. split; [done|].
    destruct (decide (0 < term n)) as [Hpos|Hpos]; [rewrite Hst by done; apply Hsn|].
    pose proof (sy_le n Hsn) as Hle. pose proof (stored_nonneg (disk n)) as [Hge Hz].
    pose proof (stored_nonneg (disk n')) as [Hge' _]. unfold tav_le, tav in *. cbn in Hle. unfold is_u64 in Hu.
    destruct (decide ((stored (disk n')).1 = 0)) as [Heq|]; [right|left; lia]. split; [lia|left; apply Hz; lia].
Qed.

Lemma calm_writeTermVote : Calm writeTermVote.
Proof. intros n n' a Hw. by eapply wrote_calm, writeTermVote_wrote. Qed.
#[local] Hint Resolve calm_writeTermVote : keeps.

Lemma calm_writePeerState ps : Calm (writePeerState ps).
Proof. unfold writePeerState. calm_parts. Qed.
#[local] Hint Resolve calm_writePeerState : keeps.

(** ** Roles *)

Lemma calm_updateLeadChange b : Calm (updateLeadChange b).
Proof. unfold updateLeadChange. calm_parts. Qed.
#[local] Hint Resolve calm_updateLeadChange : keeps.

Lemma calm_updateLeader p : Calm (updateLeader p).
Proof. unfold updateLeader. calm_parts. Qed.
#[local] Hint Resolve calm_updateLeader : keeps.

Lemma calm_lead_change pst st : Calm (lead_change pst st).
Proof. unfold lead_change. calm_parts. Qed.
#[local] Hint Resolve calm_lead_change : keeps.

Lemma calm_become st : st = Follower \/ st = Closed -> Calm (state <~ st).
Proof.
  intros Hst. apply Keeps_modify. intros n. split; try done.
  - exists []. cbn. by rewrite app_nil_r.
  - by right.
  - intros _ [Hle Hw Hv]. split; [split; done|reflexivity].
Qed.
#[local] Hint Extern 1 (Keeps calm (modify (update _))) => apply calm_become; auto : keeps.

Lemma calm_switch_follower : Calm (switchState Follower).
Proof. pose proof (calm_become Follower ltac:(auto)). unfold switchState. calm_parts. Qed.
#[local] Hint Resolve calm_switch_follower : keeps.

Lemma calm_stepdown p : Calm (stepdownLocked p).
Proof. unfold stepdownLocked, switchToFollowerLocked. calm_parts. Qed.
#[local] Hint Resolve calm_stepdown : keeps.

Definition demoted (n : raft) : Prop := state n = Follower \/ state n = Closed.

Lemma leaves_demoted s s' : s = Follower \/ s = Closed -> leaves s s' -> s' = Follower \/ s' = Closed.
Proof. intros [-> | ->] [->|[-> | ->]]; auto. Qed.

Lemma switch_follower_demoted n n' a : switchState Follower n = Some (n', a) -> demoted n'.
Proof.
  unfold switchState. cbv [gets]. unfold mbind, M_bind at 1.
  destruct (bool_decide_reflect (state n = Closed)) as [Hc|Hc]; [intros [= <- <-]; by right|].
  unfold M_bind at 1. cbv [modify]. intros Hrest.
  assert (Calm (lead_change (state n) Follower ≫= (fun leadChange => writeTermVote;; mret leadChange))) as Hcalm by calm_parts.
  eapply leaves_demoted; [|apply (ca_role _ _ (Hcalm _ _ _ Hrest))]. by left.
Qed.

Lemma stepdown_demoted p n n' a : stepdownLocked p n = Some (n', a) -> demoted n'.
Proof.
  unfold stepdownLocked, switchToFollowerLocked. intros (n0 & m & [= <- <-] & Hm)%bind_inv.
  destruct (isClosed n) eqn:Hc; [injection Hm as <- <-; right; by apply bool_decide_eq_true in Hc|].
  do 5 apply bind_inv in Hm as (? & ? & _ & Hm). apply bind_inv in Hm as (n1 & b & Hsw & [= <- <-]).
  by eapply switch_follower_demoted.
Qed.

(** ** Catchup, membership, snapshots and the log *)

Lemma calm_unsubscribe s : Calm (unsubscribe s).
Proof. unfold unsubscribe. calm_parts. Qed.
#[local] Hint Resolve calm_unsubscribe : keeps.

Lemma calm_cancelCatchup : Calm cancelCatchup.
Proof. unfold cancelCatchup, cancelCatchupSignal. calm_parts. Qed.
#[local] Hint Resolve calm_cancelCatchup : keeps.

Lemma calm_addPeer p : Calm (addPeer p).
Proof. unfold addPeer, adjustClusterSizeAndQuorum. calm_parts. Qed.

Lemma calm_removePeer p : Calm (removePeer p).
Proof. unfold removePeer, adjustClusterSizeAndQuorum. calm_parts. Qed.

Lemma calm_processPeerState ps : Calm (processPeerState ps).
Proof. unfold processPeerState. calm_parts. Qed.

Lemma calm_resetInitializing : Calm resetInitializing.
Proof. unfold resetInitializing, setObserverLocked. calm_parts. Qed.
#[local] Hint Resolve calm_addPeer calm_removePeer calm_processPeerState calm_resetInitializing : keeps.

Lemma calm_loadLastSnapshot : Calm loadLastSnapshot.
Proof. unfold loadLastSnapshot. calm_parts. Qed.
#[local] Hint Resolve calm_loadLastSnapshot : keeps.

Lemma calm_installSnapshot snap : Calm (installSnapshot snap).
Proof. unfold installSnapshot. calm_parts. Qed.
#[local] Hint Resolve calm_installSnapshot : keeps.

Lemma calm_truncateWAL t i : Calm (truncateWAL t i).
Proof. unfold truncateWAL, truncated. calm_parts. Qed.
#[local] Hint Resolve calm_truncateWAL : keeps.

Lemma calm_resetWAL : Calm resetWAL.
Proof. apply calm_truncateWAL. Qed.
#[local] Hint Resolve calm_resetWAL : keeps.

Lemma calm_storeToWAL ae : Calm (storeToWAL ae).
Proof. unfold storeToWAL. calm_parts. Qed.

Lemma calm_cachePendingEntry ae : Calm (cachePendingEntry ae).
Proof. unfold cachePendingEntry. calm_parts. Qed.
#[local] Hint Resolve calm_storeToWAL calm_cachePendingEntry : keeps.

Lemma calm_apply_entries ae es : forall committed, Calm (apply_entries ae es committed).
Proof.
  induction es as [|e es IH]; intros committed; cbn [apply_entries]; [calm_parts|].
  calm_parts.
Qed.
#[local] Hint Resolve calm_apply_entries : keeps.

Lemma calm_commit_entry i ae : Calm (commit_entry i ae).
Proof. unfold commit_entry. calm_parts. Qed.
#[local] Hint Resolve calm_commit_entry : keeps.

Lemma calm_applyCommit i : Calm (applyCommit i).
Proof. unfold applyCommit. calm_parts. Qed.
#[local] Hint Resolve calm_applyCommit : keeps.

Lemma calm_apply_commits count : forall i, Calm (apply_commits count i).
Proof. induction count as [|count IH]; intros i; cbn [apply_commits]; calm_parts. Qed.
#[local] Hint Resolve calm_apply_commits : keeps.

Lemma calm_apply_range i j : Calm (apply_range i j).
Proof. apply calm_apply_commits. Qed.
#[local] Hint Resolve calm_apply_range : keeps.

Lemma calm_tryCommit i : Calm (tryCommit i).
Proof. unfold tryCommit. calm_parts. Qed.
#[local] Hint Resolve calm_tryCommit : keeps.

(** ** Messages *)

Lemma calm_send_long subj reply data : (appendEntryBaseLen <= length data)%nat -> Calm (sendRPC subj reply data).
Proof.
  intros Hlen. apply calm_send. unfold harmless, appendEntryBaseLen, voteRequestLen, voteResponseLen in *. cbn.
  destruct subj; lia || done.
Qed.

Lemma length_encode_ar ar : length (encode_ar ar) = 25%nat.
Proof. unfold encode_ar. rewrite !length_app, !length_le_put, length_copy. done. Qed.

Lemma calm_send_ar subj reply ar : Calm (sendRPC subj reply (encode_ar ar)).
Proof.
  apply calm_send. unfold harmless. cbn [m_data m_subj]. rewrite length_encode_ar. unfold voteRequestLen, voteResponseLen.
  destruct subj; lia || done.
Qed.

Lemma calm_send_nothing subj : Calm (sendReply subj []).
Proof. apply calm_send. unfold harmless, voteRequestLen, voteResponseLen. cbn. destruct subj; lia || done. Qed.

Lemma calm_forward subj reply data : subj = PropSubj \/ subj = RemovePeerSubj -> Calm (sendRPC subj reply data).
Proof. intros Hs. apply calm_send. by destruct Hs as [-> | ->]. Qed.
#[local] Hint Resolve calm_send_ar calm_send_nothing : keeps.
#[local] Hint Extern 2 (Keeps calm (sendRPC _ _ _)) => solve [apply calm_send_long; eapply encode_length; eassumption | apply calm_forward; auto] : keeps.

Lemma calm_respond subj reply t i b : Calm (respond subj reply t i b).
Proof. unfold respond. calm_parts. Qed.

Lemma calm_sendAppendEntryLocked es b : Calm (sendAppendEntryLocked es b).
Proof. unfold sendAppendEntryLocked. calm_parts. Qed.
#[local] Hint Resolve calm_respond calm_sendAppendEntryLocked : keeps.

Lemma calm_sendAppendEntry es : Calm (sendAppendEntry es).
Proof. unfold sendAppendEntry. calm_parts. Qed.

Lemma calm_sendPeerState : Calm sendPeerState.
Proof. unfold sendPeerState. calm_parts. Qed.
#[local] Hint Resolve calm_sendAppendEntry calm_sendPeerState : keeps.

Lemma calm_sendHeartbeat : Calm sendHeartbeat.
Proof. apply calm_sendAppendEntry. Qed.

Lemma calm_sendMembershipChange e : Calm (sendMembershipChange e).
Proof. unfold sendMembershipChange. calm_parts. Qed.

Lemma calm_trackResponse ar : Calm (trackResponse ar).
Proof. unfold trackResponse. calm_parts. Qed.

Lemma calm_ProposeAddPeer p : Calm (ProposeAddPeer p).
Proof. unfold ProposeAddPeer. calm_parts. Qed.
#[local] Hint Resolve calm_sendHeartbeat calm_sendMembershipChange calm_trackResponse calm_ProposeAddPeer : keeps.

Lemma calm_trackPeer p : Calm (trackPeer p).
Proof. unfold trackPeer. calm_parts. Qed.

Lemma calm_StepDown online ps : Calm (StepDown online ps).
Proof. unfold StepDown. calm_parts. Qed.
#[local] Hint Resolve calm_trackPeer calm_StepDown : keeps.

(** ** Catching up *)

Lemma calm_catchupStalled : Calm catchupStalled.
Proof. unfold catchupStalled. calm_parts. Qed.

Lemma calm_createCatchup ae : Calm (createCatchup ae).
Proof. unfold createCatchup. calm_parts. Qed.

Lemma calm_sendCatchupSignal : Calm sendCatchupSignal.
Proof. unfold sendCatchupSignal. calm_parts. Qed.
#[local] Hint Resolve calm_catchupStalled calm_createCatchup calm_sendCatchupSignal : keeps.

Lemma calm_sendSnapshotToFollower s : Calm (sendSnapshotToFollower s).
Proof. unfold sendSnapshotToFollower. calm_parts. Qed.

Lemma calm_catchup_first i : Calm (catchup_first i).
Proof. unfold catchup_first. calm_parts. Qed.
#[local] Hint Resolve calm_sendSnapshotToFollower calm_catchup_first : keeps.

Lemma calm_catchupFollower ar : Calm (catchupFollower ar).
Proof. unfold catchupFollower. calm_parts. Qed.

Lemma calm_catchup_exit q p : Calm (catchup_exit q p).
Proof. unfold catchup_exit. calm_parts. Qed.
#[local] Hint Resolve calm_catchupFollower calm_catchup_exit : keeps.

Lemma loadEntry_length n i ae : loadEntry n i = Some (inr ae) -> (appendEntryBaseLen <= length (ae_buf ae))%nat.
Proof.
  unfold loadEntry. destruct (LoadMsg (wal n) i) as [|msg]; [done|]. destruct (decodeAppendEntry msg None NoSubj) as [[e|ae']|] eqn:E; [done| |done].
  cbn. intros [= <-]. by apply decode_length in E as [-> Hl].
Qed.

Lemma calm_sendNext fuel subj t last : forall next total om, Calm (sendNext fuel subj t last next total om).
Proof.
  induction fuel as [|fuel IH]; intros next total om; cbn [sendNext]; [calm_parts|].
  calm_parts. match goal with Hl : loadEntry _ _ = Some (inr ?ae), He : _ = inr _ |- _ =>
    apply loadEntry_length in Hl; revert He; case_match; [intros He%(inj inr); subst|intros He%encode_length] end;
    by apply calm_send_long.
Qed.
#[local] Hint Resolve calm_sendNext : keeps.

Lemma calm_catchup_step q : Calm (catchup_step q).
Proof. unfold catchup_step. calm_parts. Qed.

Lemma calm_catchup_stop q : Calm (catchup_stop q).
Proof. unfold catchup_stop. calm_parts. Qed.

(** ** The parts of [processAppendEntry] *)

Lemma calm_pae_catchup ae b c : Calm (pae_catchup ae b c).
Proof. unfold pae_catchup. calm_parts. Qed.

Lemma calm_pae_leader ae b : Calm (pae_leader ae b).
Proof. unfold pae_leader. calm_parts. Qed.

Lemma calm_pae_paused s b : Calm (pae_paused s b).
Proof. unfold pae_paused. calm_parts. Qed.

Lemma calm_pae_conflict ae b : Calm (pae_conflict ae b).
Proof. unfold pae_conflict. calm_parts. Qed.

Lemma calm_pae_snapshot ae : Calm (pae_snapshot ae).
Proof. unfold pae_snapshot. calm_parts. Qed.
#[local] Hint Resolve calm_pae_catchup calm_pae_leader calm_pae_paused calm_pae_conflict calm_pae_snapshot : keeps.

Lemma calm_pae_consistency ae b c : Calm (pae_consistency ae b c).
Proof. unfold pae_consistency. calm_parts. Qed.

Lemma calm_pae_entry b e : Calm (pae_entry b e).
Proof. unfold pae_entry, xferCampaign. calm_parts. Qed.

Lemma calm_pae_store ae s : Calm (pae_store ae s).
Proof. unfold pae_store. calm_parts. Qed.

Lemma calm_pae_commit ae b : Calm (pae_commit ae b).
Proof. unfold pae_commit. calm_parts. Qed.
#[local] Hint Resolve calm_pae_consistency calm_pae_entry calm_pae_store calm_pae_commit : keeps.

Lemma calm_pae_continue ae s b c : Calm (pae_continue ae s b c).
Proof. unfold pae_continue. calm_parts. Qed.
#[local] Hint Resolve calm_pae_continue : keeps.

(** ** Higher terms *)

Record mild (n n' : raft) : Prop := {
  mi_nid : nid n' = nid n; mi_term : term n <= term n'; mi_loc : loc n' = loc n;
  mi_reqs : reqs n' ⊆ reqs n; mi_votes : votes n' ⊆ votes n;
  mi_out : sends_harmless n n'; mi_role : leaves (state n) (state n');
  mi_sync : 0 <= term n -> term n' < 2 ^ 64 -> synced n ->
    synced n' /\ tav_le (tav n) (tav n') /\ tav_le (stored (disk n)) (stored (disk n')) }.

#[local] Instance mild_preorder : PreOrder mild.
Proof.
  split.
  - intros n. split; solve [done | reflexivity | intros _ _ Hs; split_and!; [done|reflexivity|reflexivity]].
  - intros n1 n2 n3 [] []. split; try congruence; try lia; try (by etransitivity).
    intros Hp Hb Hs. destruct mi_sync0 as (H2 & Hle & Hd); [lia|lia|done|]. destruct mi_sync1 as (H3 & Hle' & Hd'); [lia|lia|done|].
    split_and!; [done|by transitivity (tav n2)|by transitivity (stored (disk n2))].
Qed.

(** A node that moves to a higher term is a follower after it. *)
Definition quiet (n n' : raft) : Prop := mild n n' /\ (demoted n' \/ (state n' = state n /\ tav n' = tav n)).

#[local] Instance quiet_preorder : PreOrder quiet.
Proof.
  split; [intros n; split; [reflexivity|by right]|].
  intros n1 n2 n3 [Hm1 H12] [Hm2 H23]. split; [by transitivity n2|].
  destruct H23 as [Hd|[Hs Ht]]; [by left|]. unfold demoted in *. rewrite Hs, Ht. done.
Qed.

Lemma calm_mild n n' : calm n n' -> mild n n'.
Proof.
  intros []. destruct (tav_eq n n' ca_tav0) as [Ht _]. split; try done; [lia|].
  intros Hp Hb Hs. destruct ca_sync0 as [Hs' Hd]; [unfold is_u64; lia|done|]. rewrite ca_tav0. split_and!; [done|reflexivity|done].
Qed.

Lemma calm_quiet n n' : calm n n' -> quiet n n'.
Proof.
  intros Hc. split; [by apply calm_mild|]. destruct (ca_role n n' Hc) as [Hs|Hs]; [right|by left].
  split; [done|apply (ca_tav n n' Hc)].
Qed.

Lemma Keeps_quiet_of_calm {A} (m : M A) : Keeps calm m -> Keeps quiet m.
Proof. intros Hm n n' a Ha. by apply calm_quiet, (Hm _ _ a). Qed.
#[local] Hint Extern 3 (Keeps quiet _) => apply Keeps_quiet_of_calm; solve [eauto 1 with keeps nocore | calm_parts] : keeps.

Ltac quiet_parts := keeps_with ltac:(apply calm_quiet; calm_field).
Notation Quiet := (Keeps quiet).

Lemma new_term_mild t n : term n < t -> keeps_at mild (new_term t) n.
Proof.
  intros Ht n' a [= <- <-]. split; try done; cbn; try lia.
  - exists []. cbn. by rewrite app_nil_r.
  - intros Hp Hb [Hle Hw Hv].
    assert (tav_le (tav n) (t, noVote)) as Hlt by (left; cbn; lia).
    split_and!; [|done|reflexivity]. split; [|done|by left]. cbn. by transitivity (tav n).
Qed.

(** A higher term, and then something calm that ends as a follower. *)
Lemma new_term_quiet {A} t (rest : M A) n :
  term n < t -> Keeps calm rest -> (forall n1 n' a, rest n1 = Some (n', a) -> demoted n') ->
  keeps_at quiet (new_term t;; rest) n.
Proof.
  intros Ht Hc Hd n' a (n1 & [] & Hn & Hr)%bind_inv. split; [|left; by eapply Hd].
  transitivity n1; [by apply (new_term_mild t n Ht n1 tt)|]. by apply calm_mild, (Hc _ _ a).
Qed.

Lemma stepdown_after {A} (m : M A) p n n' a : (m ≫= (fun _ => stepdownLocked p)) n = Some (n', a) -> demoted n'.
Proof. intros (n1 & b & _ & Hs)%bind_inv. by eapply stepdown_demoted. Qed.

Lemma quiet_yield_to lterm p n : term n <= lterm -> keeps_at quiet (yield_to lterm p) n.
Proof.
  intros Hle n' a (n0 & m & [= <- <-] & Hm)%bind_inv. destruct (Z.ltb_spec (term n) lterm) as [Hlt|Hge]; cbn [when] in Hm.
  - assert (mild n n') as Hmild.
    { apply bind_inv in Hm as (n1 & [] & Hw & Hs). apply bind_inv in Hw as (n2 & [] & Hn & Hw).
      transitivity n2; [by apply (new_term_mild lterm n Hlt n2 tt)|]. transitivity n1; apply calm_mild.
      - by apply (calm_writeTermVote _ _ tt). - by apply (calm_stepdown p _ _ a). }
    split; [done|left]. by apply stepdown_after in Hm.
  - assert (Keeps quiet (mret () ;; stepdownLocked p)) as Hq by (apply Keeps_quiet_of_calm; calm_parts). by apply (Hq n n' a).
Qed.

Lemma quiet_pae_roles ae : Quiet (pae_roles ae).
Proof.
  apply Keeps_get_bind. intros n. apply keeps_at_bind; [apply _| |].
  - destruct (isLeader n); [|apply keeps_at_of; quiet_parts]. destruct (Z.leb_spec (term n) (lterm_of ae)) as [Hle|Hgt].
    + apply keeps_at_bind; [apply _|by apply quiet_yield_to|]. intros. apply keeps_at_of. quiet_parts.
    + apply keeps_at_of. quiet_parts.
  - intros n1 returned _. apply keeps_at_of. case_match; [quiet_parts|]. apply Keeps_get_bind. intros n2.
    destruct (isCandidate n2 && (term n2 <=? lterm_of ae)) eqn:Hc; cbn [when]; [|apply keeps_at_of; quiet_parts].
    apply andb_true_iff in Hc as [_ Hc]. go_bool.
    apply keeps_at_bind; [apply _|by apply quiet_yield_to|]. intros. apply keeps_at_of. quiet_parts.
Qed.

Lemma quiet_pae_term ae s b : Quiet (pae_term ae s b).
Proof.
  apply Keeps_get_bind. intros n. cbv zeta. destruct (Z.ltb_spec (term n) (lterm_of ae)) as [Hlt|Hge]; [|apply keeps_at_of; quiet_parts].
  apply new_term_quiet; [done|calm_parts|]. intros n1 n' a (n2 & [] & _ & Hr)%bind_inv.
  apply bind_inv in Hr as (n3 & m & [= <- <-] & Hr). apply bind_inv in Hr as (n4 & [] & Hw & [= <- <-]).
  unfold isFollower in Hw. destruct (bool_decide_reflect (state n2 = Follower)) as [Hf|Hf]; cbn [negb when] in Hw.
  - injection Hw as <-. by left.
  - by eapply stepdown_demoted.
Qed.
#[local] Hint Resolve quiet_pae_roles quiet_pae_term : keeps.

Lemma quiet_processAppendEntry ae s : Quiet (processAppendEntry ae s).
Proof. unfold processAppendEntry. quiet_parts. Qed.
#[local] Hint Resolve quiet_processAppendEntry : keeps.

Lemma quiet_processAppendEntries oor : Quiet (processAppendEntries oor).
Proof. unfold processAppendEntries. quiet_parts. Qed.

Lemma quiet_processAppendEntryResponse online ar : Quiet (processAppendEntryResponse online ar).
Proof.
  unfold processAppendEntryResponse. apply Keeps_bind; [apply _|quiet_parts|]. intros _.
  do 2 (case_match; [quiet_parts|]). apply Keeps_get_bind. intros n.
  destruct (Z.ltb_spec (term n) (ar_term ar)) as [Hlt|Hge]; cbn [when]; [|apply keeps_at_of; quiet_parts].
  apply new_term_quiet; [done|calm_parts|]. intros n1 n' a. apply stepdown_after.
Qed.
#[local] Hint Resolve quiet_processAppendEntries quiet_processAppendEntryResponse : keeps.

(** ** Calls of the upper layer, and messages *)

Lemma calm_overrun : Calm overrun.
Proof. unfold overrun. calm_parts. Qed.
#[local] Hint Resolve calm_overrun : keeps.

Lemma calm_ProposeMulti es : Calm (ProposeMulti es).
Proof. unfold ProposeMulti. calm_parts. Qed.
#[local] Hint Resolve calm_ProposeMulti : keeps.

Lemma calm_pauseApplyLocked : Calm pauseApplyLocked.
Proof. unfold pauseApplyLocked. calm_parts. Qed.
#[local] Hint Resolve calm_pauseApplyLocked : keeps.

Lemma calm_PauseApply : Calm PauseApply.
Proof. unfold PauseApply. calm_parts. Qed.

Lemma calm_resume_commits count : forall i, Calm (resume_commits count i).
Proof. induction count as [|count IH]; intros i; cbn [resume_commits]; calm_parts. Qed.
#[local] Hint Resolve calm_PauseApply calm_resume_commits : keeps.

Lemma calm_ResumeApply : Calm ResumeApply.
Proof. unfold ResumeApply, xferCampaign. calm_parts. Qed.
#[local] Hint Resolve calm_ResumeApply : keeps.

Lemma calm_createSnapshotCheckpointLocked b : Calm (createSnapshotCheckpointLocked b).
Proof. unfold createSnapshotCheckpointLocked. calm_parts. Qed.
#[local] Hint Resolve calm_createSnapshotCheckpointLocked : keeps.

Lemma calm_api_call c : Calm (api_call c).
Proof.
  destruct c; cbn [api_call]; unfold Propose, ForwardProposal, Propose, ProposeRemovePeer, ProposeKnownPeers, UpdateKnownPeers, AdjustClusterSize,
    AdjustBootClusterSize, DrainAndReplaySnapshot, Processed, SendSnapshot, InstallSnapshot, LoadLastSnapshot, checkpoint_write, checkpoint_compact,
    checkpoint_done, checkpoint_abort, CampaignImmediately, Campaign, SetObserver, setObserverLocked; calm_parts.
Qed.

Lemma calm_handleAppendEntry sub reply msg : Calm (handleAppendEntry sub reply msg).
Proof. unfold handleAppendEntry. calm_parts. Qed.

Lemma calm_handleAppendEntryResponse reply msg : Calm (handleAppendEntryResponse reply msg).
Proof. unfold handleAppendEntryResponse. calm_parts. Qed.

Lemma calm_handleForwardedProposal reply msg : Calm (handleForwardedProposal reply msg).
Proof. unfold handleForwardedProposal. calm_parts. Qed.

Lemma calm_handleForwardedRemovePeerProposal reply msg : Calm (handleForwardedRemovePeerProposal reply msg).
Proof. unfold handleForwardedRemovePeerProposal. calm_parts. Qed.

Lemma calm_send_proposals es : forall entries sz, Calm (send_proposals es entries sz).
Proof. induction es as [|b es IH]; intros entries sz; cbn [send_proposals]; calm_parts. Qed.

Lemma calm_fewer_votes n vs : vs ⊆ votes n -> calm n (n <| votes := vs |>).
Proof.
  intros Hv. split; try done.
  - exists []. cbn. by rewrite app_nil_r.
  - intros _ [Hle Hw Hvo]. split; [split; done|reflexivity].
Qed.

(** ** The start *)

Lemma calm_remove_snap_file t i : Calm (remove_file (SnapFile t i)).
Proof. apply (calm_remove_snap (t, i)). Qed.
#[local] Hint Resolve calm_remove_snap_file : keeps.

Lemma calm_setupLastSnapshot : Calm setupLastSnapshot.
Proof. unfold setupLastSnapshot. calm_parts. Qed.

Lemma calm_remove_snapshots : Calm remove_snapshots.
Proof. unfold remove_snapshots. calm_parts. Qed.

Lemma calm_restorePeerState : Calm restorePeerState.
Proof. unfold restorePeerState. calm_parts. Qed.

Lemma calm_truncateAndErr i : Calm (truncateAndErr i).
Proof. unfold truncateAndErr. calm_parts. Qed.
#[local] Hint Resolve calm_setupLastSnapshot calm_remove_snapshots calm_restorePeerState calm_truncateAndErr : keeps.

Lemma calm_queue_size es : forall qsz, Calm (queue_size es qsz).
Proof. induction es as [|e es IH]; intros qsz; cbn [queue_size]; calm_parts. Qed.
#[local] Hint Resolve calm_queue_size : keeps.

Lemma quiet_replay_entry ae qsz : Quiet (replay_entry ae qsz).
Proof. unfold replay_entry. quiet_parts. Qed.
#[local] Hint Resolve quiet_replay_entry : keeps.

Lemma quiet_replay count : forall index first qsz, Quiet (replay count index first qsz).
Proof. induction count as [|count IH]; intros index first qsz; cbn [replay]; quiet_parts. Qed.
#[local] Hint Resolve quiet_replay : keeps.

Lemma calm_start_observer cfg : Calm (start_observer cfg).
Proof. unfold start_observer, SetObserver, setObserverLocked. calm_parts. Qed.
#[local] Hint Resolve calm_start_observer : keeps.

Lemma init_node_quiet cfg n n' e :
  init_node cfg n = Some (n', e) -> exists n1, readTermVote n = Some (n1, tt) /\ quiet n1 n'.
Proof.
  intros (n1 & [] & Hr & Hm)%bind_inv. exists n1. split; [done|]. revert n' e Hm. apply keeps_at_of. quiet_parts.
Qed.

(** ** Becoming a candidate or a leader *)

(** As [calm], but the role may be any. *)
Record same_vote (n n' : raft) : Prop := {
  sv_nid : nid n' = nid n; sv_tav : tav n' = tav n; sv_loc : loc n' = loc n;
  sv_reqs : reqs n' ⊆ reqs n; sv_votes : votes n' ⊆ votes n; sv_out : sends_harmless n n';
  sv_sync : is_u64 (term n) -> synced n -> synced n' /\ tav_le (stored (disk n)) (stored (disk n')) }.

#[local] Instance same_vote_preorder : PreOrder same_vote.
Proof.
  split.
  - intros n. split; solve [done | reflexivity | intros _ Hs; split; [done|reflexivity]].
  - intros n1 n2 n3 [] []. destruct (tav_eq n1 n2) as [Ht _]; [done|].
    split; try congruence; try (by etransitivity).
    intros Hu Hs. destruct sv_sync0 as [H2 Hle]; [done|done|]. destruct sv_sync1 as [H3 Hle']; [by rewrite Ht|done|].
    split; [done|by transitivity (stored (disk n2))].
Qed.

Lemma calm_same_vote n n' : calm n n' -> same_vote n n'.
Proof. by intros []. Qed.

Lemma Keeps_same_vote_of_calm {A} (m : M A) : Keeps calm m -> Keeps same_vote m.
Proof. intros Hm n n' a Ha. by apply calm_same_vote, (Hm _ _ a). Qed.
#[local] Hint Extern 3 (Keeps same_vote _) => apply Keeps_same_vote_of_calm; solve [eauto 1 with keeps nocore | calm_parts] : keeps.

Lemma same_vote_state st : Keeps same_vote (state <~ st).
Proof.
  apply Keeps_modify. intros n. split; try done.
  - exists []. cbn. by rewrite app_nil_r.
  - intros _ [Hle Hw Hv]. split; [split; done|reflexivity].
Qed.

Lemma same_vote_switchState st : Keeps same_vote (switchState st).
Proof. pose proof (same_vote_state st). unfold switchState. keeps_with ltac:(apply calm_same_vote; calm_field). Qed.
#[local] Hint Resolve same_vote_switchState : keeps.

Lemma same_vote_switchToLeader : Keeps same_vote switchToLeader.
Proof. unfold switchToLeader. keeps_with ltac:(apply calm_same_vote; calm_field). Qed.

Lemma same_vote_mild n n' : same_vote n n' -> leaves (state n) (state n') -> mild n n'.
Proof. intros [] Hl. apply calm_mild. by split. Qed.

(** The election timer: nothing, or a candidate of the next term that has not voted. *)
Record candidacy (n n' : raft) : Prop := {
  cd_nid : nid n' = nid n; cd_tav : tav n' = (term n + 1, noVote); cd_loc : loc n' = loc n;
  cd_reqs : reqs n' ⊆ reqs n; cd_votes : votes n' ⊆ votes n; cd_out : sends_harmless n n';
  cd_role : leaves Candidate (state n');
  cd_sync : synced n -> synced n' /\ tav_le (stored (disk n)) (stored (disk n')) }.

Lemma switch_state_role st n n' a : switchState st n = Some (n', a) -> leaves st (state n') \/ state n' = Closed.
Proof.
  unfold switchState. intros (n0 & pst & [= <- <-] & Hm)%bind_inv.
  destruct (bool_decide_reflect (state n = Closed)) as [Hc|Hc]; [injection Hm as <- <-; by right|].
  apply bind_inv in Hm as (n1 & [] & [= <-] & Hrest). left.
  assert (Calm (lead_change (state n) st ≫= (fun leadChange => writeTermVote;; mret leadChange))) as Hcalm by calm_parts.
  apply (ca_role _ _ (Hcalm _ _ _ Hrest)).
Qed.

Lemma switchToCandidate_spec n n' a :
  0 <= term n -> term n < 2 ^ 64 - 1 -> switchToCandidate n = Some (n', a) -> calm n n' \/ candidacy n n'.
Proof.
  intros Hp Hb (n0 & m & [= <- <-] & Hm)%bind_inv. do 2 (case_match; [injection Hm as <- <-; left; reflexivity|]). right.
  apply bind_inv in Hm as (n1 & [] & Hw & Hm). apply bind_inv in Hm as (n2 & [] & Hnt & Hm). apply bind_inv in Hm as (n3 & [] & Hq & Hm).
  apply bind_inv in Hm as (n4 & [] & Hul & Hm). apply bind_inv in Hm as (n5 & b & Hsw & [= <- <-]).
  assert (calm n n1) as Hc1 by (assert (Calm (when (isCandidate n && (lostQuorumLocked n && (20000000000 <? since (clock n) (llqrt n)))) (updateLeadChange false;; llqrt <~ Some (clock n)))) as Hc by calm_parts; by apply (Hc n n1 tt)).
  assert (u64 (term n + 1) = term n + 1) as Hu by (apply u64_small; unfold is_u64; lia). rewrite Hu in Hnt.
  destruct (tav_eq n n1 (ca_tav n n1 Hc1)) as [Ht1 _].
  pose proof (new_term_mild (term n + 1) n1 ltac:(lia) n2 tt Hnt) as Hc2.
  assert (same_vote n2 n5) as Hc5.
  { transitivity n3; [injection Hq as <-; apply calm_same_vote; calm_field|]. transitivity n4.
    - by apply calm_same_vote, (calm_updateLeader noLeader _ _ tt). - by apply (same_vote_switchState Candidate _ _ b). }
  assert (tav n2 = (term n + 1, noVote)) as Ht2 by (injection Hnt as <-; done).
  apply calm_mild in Hc1. destruct Hc1, Hc2, Hc5. split; try congruence; try (etransitivity; [|etransitivity]; eassumption).
  - apply switch_state_role in Hsw as [Hl| ->]; [done|by right; right].
  - intros Hs. destruct mi_sync0 as (Hs1 & _ & Hd1); [lia|lia|done|].
    assert (term n2 = term n + 1) as Htt by (by injection Ht2). destruct mi_sync1 as (Hs2 & _ & Hd2); [lia|lia|done|].
    destruct sv_sync0 as (Hs5 & Hd5); [unfold is_u64; lia|done|]. split; [done|].
    transitivity (stored (disk n1)); [done|]. by transitivity (stored (disk n2)).
Qed.
End election.
