(* ===== verification/RaftVoting.v ===== *)
(** * Votes of a Raft node

    What a node does with a request for its vote, as a candidate, with the votes it gets and with
    any other event, as the preservation of one invariant: its term and vote are on the disk
    before they are told to anyone, and the votes it counts were given to it. *)

From S2P Require Import Prelude Binary RecordUpdate RaftCodec RaftCodecSpec Raft RaftFrame RaftLog RaftAppend RaftRun RaftElection.
Import RaftCodec Raft RaftLog RaftAppend RaftRun.

#[local] Existing Instances tav_preorder sends_harmless_preorder leaves_preorder calm_preorder mild_preorder quiet_preorder same_vote_preorder.

#[local] Arguments encode_vs : simpl never.
#[local] Arguments encode_vr : simpl never.

Section voting.
Context {L D : Type} `{WAL L} `{Files D} `{RaftEnv} `{!DurableVotes D}.
Notation M := (M L D).
Notation raft := (raft L D).
Implicit Types n : raft.

(** ** A request for a vote *)

(** One answer; a vote that is given is on the disk. *)
Record answered (vr : voteRequest) (n n' : raft) : Prop := {
  an_nid : nid n' = nid n; an_term : term n <= term n'; an_loc : loc n' = loc n;
  an_reqs : reqs n' ⊆ reqs n; an_votes : votes n' ⊆ votes n; an_role : leaves (state n) (state n');
  an_keep : demoted n' \/ (state n' = state n /\ term n' = term n);
  an_sync : 0 <= term n -> term n' < 2 ^ 64 -> synced n -> (8 <= length (vr_candidate vr))%nat ->
    synced n' /\ tav_le (tav n) (tav n') /\ tav_le (stored (disk n)) (stored (disk n'));
  an_out : exists new v,
    out n' = out n ++ new ++ [mkMessage (nid n) (vr_reply vr) NoSubj (encode_vs v)] /\ Forall harmless new /\
    vs_peer v = nid n /\ vs_term v = term n' /\
    (vs_granted v = true -> tav n' = (vr_term vr, vr_candidate vr) /\
      (0 <= term n -> term n' < 2 ^ 64 -> synced n -> (8 <= length (vr_candidate vr))%nat -> 0 < vr_term vr -> stored (disk n') = tav n')) }.

Lemma demoted_leaves n n' : demoted n -> leaves (state n) (state n') -> demoted n'.
Proof. intros [Hd|Hd] [Hs|Hs]; unfold demoted; rewrite ?Hs, ?Hd; auto. Qed.

(** A term above ours: step down, and take it on. *)
Lemma raise_term_spec t n n' :
  term n <= t ->
  when (term n <? t) (when (negb (isFollower n)) (stepdownLocked noLeader);; cancelCatchup;; new_term t;; writeTermVote) n = Some (n', tt) ->
  quiet n n' /\ term n' = t.
Proof.
  intros Hle. destruct (Z.ltb_spec (term n) t) as [Hlt|Hge]; cbn [when].
  2: { intros [= <-]. split; [reflexivity|lia]. }
  intros (na & [] & Ha & Hb)%bind_inv. apply bind_inv in Hb as (nb & [] & Hb & Hc).
  assert (calm n na /\ demoted na) as [Hcalm Hd].
  { unfold isFollower in Ha. destruct (bool_decide_reflect (state n = Follower)) as [Hf|Hf]; cbn [negb when] in Ha.
    - injection Ha as <-. split; [reflexivity|by left].
    - split; [by apply (calm_stepdown noLeader n na tt)|by eapply stepdown_demoted]. }
  pose proof (calm_cancelCatchup na nb tt Hb) as Hcb.
  destruct (tav_eq n nb) as [Ht _]; [by rewrite (ca_tav _ _ Hcb), (ca_tav _ _ Hcalm)|].
  apply bind_inv in Hc as (nc & [] & Hc & Hw).
  pose proof (new_term_mild t nb ltac:(lia) nc tt Hc) as Hmc. pose proof (calm_writeTermVote nc n' tt Hw) as Hcw.
  split; [split|].
  - transitivity na; [by apply calm_mild|]. transitivity nb; [by apply calm_mild|]. transitivity nc; [done|by apply calm_mild].
  - left. eapply demoted_leaves; [exact Hd|]. etransitivity; [apply Hcb|]. etransitivity; [apply Hmc|apply Hcw].
  - destruct (tav_eq nc n' (ca_tav _ _ Hcw)) as [-> _]. by injection Hc as <-.
Qed.

Lemma sendReply_answered vr n n1 v :
  quiet n n1 -> vs_peer v = nid n -> vs_term v = term n1 -> vs_granted v = false ->
  answered vr n (n1 <| out := out n1 ++ [mkMessage (nid n1) (vr_reply vr) NoSubj (encode_vs v)] |>).
Proof.
  intros [[] Hk] Hp Ht Hg. split; try done.
  - destruct Hk as [Hd|[Hs Htav]]; [by left|right]. split; [done|]. by destruct (tav_eq _ _ Htav).
  - intros Hp0 Hb Hs _. destruct mi_sync as ([] & Hle & Hd); [done|done|done|]. split_and!; [by split|done|done].
  - destruct mi_out as (new & Ho & Hh). exists new, v. cbn. rewrite Ho, mi_nid, app_assoc. split_and!; [done|done|done|done|].
    by rewrite Hg.
Qed.

(** A vote for the candidate, in the node and on the disk. *)
Lemma grant_spec t c n n' :
  term n = t -> vote n = noVote \/ vote n = c ->
  (term <~ t;; vote <~ c;; writeTermVote) n = Some (n', tt) ->
  let n1 := n <| term := t |> <| vote := c |> in
  same_view (n1 <| disk := disk n' |> <| wtv := wtv n' |>) n' /\
  (0 <= term n -> term n < 2 ^ 64 -> synced n -> (8 <= length c)%nat ->
    synced n' /\ tav_le (tav n) (tav n') /\ tav_le (stored (disk n)) (stored (disk n')) /\ (0 < t -> stored (disk n') = tav n')).
Proof.
  intros Ht Hv (na & [] & [= <-] & Hm)%bind_inv. apply bind_inv in Hm as (nb & [] & [= <-] & Hw). intros n1.
  pose proof (writeTermVote_wrote _ _ _ Hw) as Hwr. split; [apply Hwr|]. intros Hp Hb Hs Hl.
  assert (tav_le (tav n) (tav n1)) as Hle by (right; cbn; auto).
  assert (synced n1) as Hs1.
  { destruct Hs as [Hsl Hsw Hsv]. split; [|done|by right]. change (disk n1) with (disk n). by transitivity (tav n). }
  assert (is_u64 (term n1)) as Hu by (cbn; unfold is_u64; lia).
  assert (tav n' = tav n1) as Ht' by apply Hwr.
  destruct (wr_sync _ _ Hwr Hu Hs1) as [Hs' Hst]. destruct (ca_sync _ _ (wrote_calm _ _ Hwr) Hu Hs1) as [_ Hdd].
  split_and!; [done|by rewrite Ht'|done|]. intros Ht0. rewrite Ht'. by apply Hst.
Qed.

Lemma processVoteRequest_answered vr n n' a : processVoteRequest vr n = Some (n', a) -> answered vr n n'.
Proof.
  intros (n0 & m & [= <- <-] & Hm)%bind_inv. cbv zeta in Hm. destruct (Z.ltb_spec (vr_term vr) (term n)) as [Hlt|Hge].
  { injection Hm as <- <-. apply sendReply_answered; [reflexivity|done..]. }
  apply bind_inv in Hm as (n1 & [] & Hr & Hm). apply raise_term_spec in Hr as [Hq Ht1]; [|lia].
  apply bind_inv in Hm as (n0 & m & [= <- <-] & Hm). pose proof (mi_nid _ _ (proj1 Hq)) as Hid.
  match type of Hm with (if ?b then _ else _) _ = _ => destruct b eqn:Hok end.
  2: { injection Hm as <- <-. by apply sendReply_answered. }
  apply andb_true_iff in Hok as [Hv%orb_true_iff _].
  assert (vote n1 = noVote \/ vote n1 = vr_candidate vr) as Hvote by (destruct Hv as [Hv%bool_decide_eq_true|Hv%bool_decide_eq_true]; auto).
  apply bind_inv in Hm as (na & [] & Ha & Hm). apply bind_inv in Hm as (nb & [] & Hb & Hm). apply bind_inv in Hm as (n2 & [] & Hc & Hm).
  assert ((term <~ vr_term vr;; vote <~ vr_candidate vr;; writeTermVote) n1 = Some (n2, tt)) as Hg
    by (cbv [mbind M_bind]; rewrite Ha; cbv [modify] in *; injection Ha as <-; injection Hb as <-; exact Hc).
  apply bind_inv in Hm as (n3 & m & [= <- <-] & [= <- <-]).
  apply grant_spec in Hg as [(Hi & Htav & Hl & Hrq & Hvo & Ho & Hst & _ & _) Hsync]; [|done|done].
  assert (tav n2 = (vr_term vr, vr_candidate vr)) as Htav' by exact Htav. assert (term n2 = vr_term vr) as Ht2 by (by injection Htav').
  destruct Hq as [[] Hk]. cbn in Hi, Hl, Hrq, Hvo, Ho, Hst. split; cbn.
  - congruence.
  - lia.
  - congruence.
  - by rewrite Hrq.
  - by rewrite Hvo.
  - by rewrite Hst.
  - unfold demoted. cbn. rewrite Hst, Ht2, <- Ht1. destruct Hk as [Hd|[Hs Hkt]]; [by left|right]. split; [done|]. by destruct (tav_eq _ _ Hkt).
  - intros Hp Hbd Hs Hlen. destruct mi_sync as (Hs1 & Hle & Hd); [lia|lia|done|]. destruct Hsync as (Hs2 & Hle2 & Hd2 & _); [lia|lia|done|done|].
    split_and!; [|by transitivity (tav n1)|by transitivity (stored (disk n1))]. by destruct Hs2; split.
  - destruct mi_out as (new & Hon & Hh). eexists new, _. split_and!.
    + rewrite Ho, Hon, app_assoc, Hi, Hid. reflexivity. + done. + cbn. congruence. + done.
    + intros _. split; [done|]. intros Hp Hbd Hs Hlen Hpos. destruct mi_sync as (Hs1 & Hle & Hd); [lia|lia|done|].
      destruct Hsync as (Hs2 & _ & _ & Hst2); [lia|lia|done|done|]. by apply Hst2.
Qed.

(** ** The invariant of a node *)

(** [V q t c]: node [q] gave its vote of term [t] to [c].  [E t p]: [p] was elected in term [t]. *)
Implicit Types (V : peer -> Z -> peer -> Prop) (E : Z -> peer -> Prop).

Record node_ok V E (p : peer) (n : raft) : Prop := {
  ok_nid : nid n = p;
  ok_len : length p = idLen;
  ok_term : 0 <= term n;
  ok_sync : synced n;
  ok_reqs : forall vr, vr ∈ reqs n -> vr_reply vr = VoteReply (vr_candidate vr) /\ 1 <= vr_term vr /\ length (vr_candidate vr) = idLen;
  ok_votes : forall v, v ∈ votes n -> vs_granted v = true -> V (vs_peer v) (vs_term v) p /\ (vs_empty v = true -> vs_peer v <> p);
  ok_cand : forall vs es, loc n = InCandidate vs es ->
    vote n = p /\ 1 <= term n /\ V p (term n) p /\ (forall q, q ∈ vs ∪ es -> V q (term n) p) /\ p ∉ es;
  ok_role : state n = Candidate ->
    (exists vs es, loc n = InCandidate vs es) \/ (loc n = RunTop /\ (vote n = noVote \/ vote n = p) /\ 1 <= term n);
  ok_lead : state n = Leader -> E (term n) p }.

Lemma node_ok_mono V E V' E' p n :
  (forall q t c, V q t c -> V' q t c) -> (forall t q, E t q -> E' t q) -> node_ok V E p n -> node_ok V' E' p n.
Proof.
  intros HV HE []. split; try done; eauto.
  - intros v Hv Hg. destruct (ok_votes0 v Hv Hg). eauto.
  - intros vs es Hl. destruct (ok_cand0 vs es Hl) as (? & ? & ? & ? & ?). split_and!; eauto.
Qed.

(** A request for a vote, a vote, or neither. *)
Definition msg_ok V (m : message) : Prop :=
  harmless m \/
  (exists vr, m_subj m = VoteSubj /\ m_reply m = VoteReply (vr_candidate vr) /\ m_data m = encode_vr vr /\
    is_u64 (vr_term vr) /\ 1 <= vr_term vr /\ length (vr_candidate vr) = idLen) \/
  (exists v c, m_subj m = VoteReply c /\ m_data m = encode_vs v /\ is_u64 (vs_term v) /\
    vs_peer v = m_from m /\ length (vs_peer v) = idLen /\ (vs_granted v = true -> V (vs_peer v) (vs_term v) c)).

Lemma msg_ok_mono V V' m : (forall q t c, V q t c -> V' q t c) -> msg_ok V m -> msg_ok V' m.
Proof.
  intros HV [Hh|[Hr|(v & c & ? & ? & ? & ? & ? & ?)]]; [by left|by right; left|right; right]. exists v, c. split_and!; eauto.
Qed.

(** What a handler does to the part of the node that elections depend on. *)
Record moved (n n' : raft) : Prop := {
  mv_nid : nid n' = nid n; mv_term : term n <= term n'; mv_loc : loc n' = loc n;
  mv_reqs : reqs n' ⊆ reqs n; mv_votes : votes n' ⊆ votes n; mv_role : leaves (state n) (state n');
  mv_keep : demoted n' \/ (state n' = state n /\ term n' = term n);
  mv_sync : synced n'; mv_le : tav_le (tav n) (tav n'); mv_disk : tav_le (stored (disk n)) (stored (disk n')) }.

Lemma quiet_moved n n' : quiet n n' -> 0 <= term n -> term n' < 2 ^ 64 -> synced n -> moved n n'.
Proof.
  intros [[] Hk] Hp Hb Hs. destruct mi_sync as (? & ? & ?); [done..|]. split; try done.
  destruct Hk as [Hd|[Hst Ht]]; [by left|right]. split; [done|]. by destruct (tav_eq _ _ Ht).
Qed.

Lemma answered_moved vr n n' :
  answered vr n n' -> 0 <= term n -> term n' < 2 ^ 64 -> synced n -> length (vr_candidate vr) = idLen -> moved n n'.
Proof.
  intros [] Hp Hb Hs Hl. destruct an_sync0 as (? & ? & ?); [done..|rewrite Hl; unfold idLen; lia|]. by split.
Qed.

Lemma tav_le_vote n n' : tav_le (tav n) (tav n') -> term n' = term n -> vote n <> noVote -> vote n' = vote n.
Proof. unfold tav_le, tav. cbn. intros [?|[? [?|?]]] ? ?; [lia|done|done]. Qed.

Lemma not_demoted n st : state n = st -> st = Candidate \/ st = Leader -> ~ demoted n.
Proof. intros Hs Hst [Hd|Hd]; destruct Hst; congruence. Qed.

Lemma calm_ok V E p n n' : node_ok V E p n -> term n < 2 ^ 64 -> calm n n' -> node_ok V E p n'.
Proof.
  intros [] Hb []. destruct (tav_eq n n' ca_tav) as [Ht Hv].
  destruct ca_sync as [Hs _]; [unfold is_u64; lia|done|]. split; try done; rewrite ?Ht, ?Hv, ?ca_loc; eauto.
  - congruence.
  - intros Hc. apply ok_role0. destruct ca_role as [<-|[Hx|Hx]]; congruence.
  - intros Hc. apply ok_lead0. destruct ca_role as [<-|[Hx|Hx]]; congruence.
Qed.

(** A round of a loop: the handler, and the condition of the loop. *)
Lemma moved_again_ok V E p st n n1 n' a :
  node_ok V E p n -> moved n n1 -> again st n1 = Some (n', a) ->
  loc n <> RunTop -> (forall vs es, loc n = InCandidate vs es -> st = Candidate) -> length p = idLen ->
  node_ok V E p n' /\ moved n (n' <| loc := loc n |>).
Proof.
  intros [] [] (n0 & m & [= <- <-] & Hm)%bind_inv Hnt Hst Hl.
  assert (n' = n1 <| loc := if bool_decide (state n1 = st) then loc n1 else RunTop |>) as ->.
  { destruct (bool_decide_reflect (state n1 = st)) as [Hs|Hs]; cbn [negb when] in Hm; injection Hm as <- _; [by destruct n1|done]. }
  split; [|split; try done; by destruct mv_sync0].
  split; try done; cbn; eauto; [congruence|lia|by destruct mv_sync0| | |].
  - intros vs es Hloc. destruct (bool_decide_reflect (state n1 = st)) as [Hs|Hs]; [|done]. rewrite mv_loc0 in Hloc.
    destruct (ok_cand0 vs es Hloc) as (Hvo & H1t & HV & Hvs & Hes). specialize (Hst vs es Hloc). subst st.
    destruct mv_keep0 as [Hd|[Hst Ht]]; [by eapply not_demoted in Hd; auto|].
    rewrite (tav_le_vote n n1) by (done || (rewrite Hvo; intros ->; done)). rewrite Ht. done.
  - intros Hc. destruct mv_keep0 as [Hd|[Hs Ht]]; [by eapply not_demoted in Hd; auto|].
    destruct ok_role0 as [(vs & es & Hloc)|[Hloc _]]; [congruence| |done]. left. exists vs, es.
    rewrite bool_decide_true; [congruence|]. by rewrite Hc, (Hst vs es).
  - intros Hc. destruct mv_keep0 as [Hd|[Hs Ht]]; [by eapply not_demoted in Hd; auto|]. rewrite Ht. apply ok_lead0. congruence.
Qed.

(** ** A step of a node *)

(** The votes and elections so far, and what the step to [n'] adds to them. *)
Definition votes_after V (p : peer) (n' : raft) (q : peer) (t : Z) (c : peer) : Prop :=
  V q t c \/ (q = p /\ stored (disk n') = (t, c) /\ c <> noVote).

Definition elected_after E (p : peer) (n' : raft) (t : Z) (q : peer) : Prop :=
  E t q \/ (q = p /\ t = term n' /\ state n' = Leader).

(** The node itself and more than half of the members gave their vote. *)
Definition elected_by V (members : gset peer) (t : Z) (p : peer) : Prop :=
  V p t p /\ exists Q : gset peer, (size members < 2 * size Q)%nat /\ forall q, q ∈ Q -> q ∈ members /\ V q t p.

Record step_ok V E (members : gset peer) (p : peer) (n n' : raft) : Prop := {
  so_node : node_ok (votes_after V p n') (elected_after E p n') p n';
  so_disk : tav_le (stored (disk n)) (stored (disk n'));
  so_out : Forall (msg_ok (votes_after V p n')) (out n');
  so_lead : state n' = Leader -> E (term n') p \/ elected_by (votes_after V p n') members (term n') p }.

Lemma step_intro V E members p n n' :
  node_ok V E p n' -> tav_le (stored (disk n)) (stored (disk n')) -> Forall (msg_ok (votes_after V p n')) (out n') ->
  step_ok V E members p n n'.
Proof.
  intros Hok Hd Ho. split; [|done|done|].
  - eapply node_ok_mono; [| |done]; by left.
  - intros Hl. left. by apply (ok_lead _ _ _ _ Hok).
Qed.

Lemma harmless_out V n n' : out n = [] -> sends_harmless n n' -> Forall (msg_ok V) (out n').
Proof. intros Ho (new & Hn & Hh). rewrite Hn, Ho. eapply Forall_impl; [exact Hh|]. by left. Qed.

Lemma calm_step V E members p n n' :
  node_ok V E p n -> term n < 2 ^ 64 -> out n = [] -> calm n n' -> step_ok V E members p n n'.
Proof.
  intros Hok Hb Ho Hc. apply step_intro.
  - by eapply calm_ok. - apply Hc; [|apply Hok]. pose proof (ok_term _ _ _ _ Hok). unfold is_u64. lia.
  - by eapply harmless_out; [|apply Hc].
Qed.

(** ** Messages *)

Lemma request_read vr reply :
  is_u64 (vr_term vr) -> length (vr_candidate vr) = idLen ->
  exists vr', decodeVoteRequest (encode_vr vr) reply = Some vr' /\ vr_term vr' = vr_term vr /\ vr_candidate vr' = vr_candidate vr /\ vr_reply vr' = reply.
Proof.
  unfold is_u64. intros Ht Hc. unfold decodeVoteRequest, encode_vr. rewrite copy_same by (by rewrite Hc).
  rewrite !length_app, !length_le_put, Hc. cbn [Nat.eqb negb Nat.add idLen voteRequestLen]. eexists. split; [done|]. cbn [vr_term vr_candidate vr_reply].
  rewrite le_get_put by (cbn; lia). split_and!; [done| |done].
  rewrite !(drop_pre (le_put 8 _) _ 8) by (apply length_le_put || lia). cbn [Nat.sub]. rewrite drop_0, <- Hc. apply firstn_all.
Qed.

Lemma length_encode_vr vr : length (encode_vr vr) = voteRequestLen.
Proof. unfold encode_vr. rewrite !length_app, !length_le_put, length_copy. done. Qed.

Lemma length_encode_vs v : length (encode_vs v) = voteResponseLen.
Proof.
  unfold encode_vs. rewrite !length_app, length_le_put, length_take, length_copy. done.
Qed.

Lemma not_request msg reply : length msg <> voteRequestLen -> decodeVoteRequest msg reply = None.
Proof. intros Hl. unfold decodeVoteRequest. by rewrite (proj2 (Nat.eqb_neq _ _)). Qed.

Lemma not_response msg : length msg <> voteResponseLen -> decodeVoteResponse msg = None.
Proof. intros Hl. unfold decodeVoteResponse. by rewrite (proj2 (Nat.eqb_neq _ _)). Qed.

Lemma add_request V E p n vr :
  node_ok V E p n -> vr_reply vr = VoteReply (vr_candidate vr) -> 1 <= vr_term vr -> length (vr_candidate vr) = idLen ->
  node_ok V E p (n <| reqs := reqs n ++ [vr] |>).
Proof.
  intros [] Hr Ht Hl. split; try done; [by destruct ok_sync0|].
  intros vr' [Hin|Hin%list_elem_of_singleton]%elem_of_app; [by apply ok_reqs0|by subst].
Qed.

Lemma add_vote V E p n v :
  node_ok V E p n -> (vs_granted v = true -> V (vs_peer v) (vs_term v) p /\ (vs_empty v = true -> vs_peer v <> p)) ->
  node_ok V E p (n <| votes := votes n ++ [v] |>).
Proof.
  intros [] Hv. split; try done; [by destruct ok_sync0|].
  intros v' [Hin|Hin%list_elem_of_singleton]%elem_of_app; [by apply ok_votes0|by subst].
Qed.

Lemma silent_step V E members p n n' :
  node_ok V E p n' -> out n' = [] -> disk n' = disk n -> step_ok V E members p n n'.
Proof. intros Hok Ho Hd. apply step_intro; [done|by rewrite Hd|by rewrite Ho]. Qed.

Lemma deliver_vote_request V E members p m n n' a :
  node_ok V E p n -> out n = [] -> msg_ok V m -> m_subj m = VoteSubj -> handleVoteRequest (m_reply m) (m_data m) n = Some (n', a) ->
  step_ok V E members p n n'.
Proof.
  intros Hok Ho Hm Hs. unfold handleVoteRequest. destruct Hm as [Hh|[(vr & _ & Hr & Hd & Hu & H1t & Hl)|(v & c & Hs' & _)]]; [| |congruence].
  - unfold harmless in Hh. rewrite Hs in Hh. rewrite not_request by apply Hh. intros [= <- <-]. by apply silent_step.
  - rewrite Hd. destruct (request_read vr (m_reply m) Hu Hl) as (vr' & -> & Ht' & Hc' & Hr'). intros [= <- <-].
    apply silent_step; [|done|done]. apply add_request; [done|congruence|lia|congruence].
Qed.

Lemma deliver_vote V E members p m n n' a :
  node_ok V E p n -> out n = [] -> msg_ok V m -> m_subj m = VoteReply p -> m_from m <> p -> handleVoteResponse (m_data m) n = Some (n', a) ->
  step_ok V E members p n n'.
Proof.
  intros Hok Ho Hm Hs Hf. unfold handleVoteResponse. destruct Hm as [Hh|[(vr & Hs' & _)|(v & c & Hs' & Hd & Hu & Hp & Hl & HV)]]; [|congruence|].
  - unfold harmless in Hh. rewrite Hs in Hh. rewrite not_response by apply Hh. intros [= <- <-]. by apply silent_step.
  - rewrite Hd, vote_response_roundtrip by done. intros (n0 & m1 & [= <- <-] & Hw)%bind_inv.
    destruct (isCandidate n || isLeader n); cbn [when] in Hw; injection Hw as <- <-; [|by apply silent_step].
    apply silent_step; [|done|done]. apply add_vote; [done|]. intros Hg.
    assert (c = p) as -> by congruence. split; [by apply HV|congruence].
Qed.

Lemma deliver_step V E members p m n n' a :
  node_ok V E p n -> term n < 2 ^ 64 -> out n = [] -> msg_ok V m -> deliver m n = Some (n', a) -> step_ok V E members p n n'.
Proof.
  intros Hok Hb Ho Hm (n0 & m1 & [= <- <-] & Hd)%bind_inv. pose proof (ok_nid _ _ _ _ Hok) as Hid.
  destruct (bool_decide_reflect (m_from m = nid n)) as [Hf|Hf]; cbn [orb] in Hd.
  { injection Hd as <- <-. by apply silent_step. }
  destruct (bool_decide (loc n = Stopped)); [injection Hd as <- <-; by apply silent_step|].
  assert (forall m' : M unit, Keeps calm m' -> m' n = Some (n', a) -> step_ok V E members p n n') as Hcalm
    by (intros m' Hc Hm'; apply calm_step; [done|done|done|by apply (Hc n n' a)]).
  destruct (m_subj m) eqn:Hs; try (injection Hd as <- <-; by apply silent_step).
  - by eapply deliver_vote_request.
  - eapply Hcalm; [|exact Hd]. apply calm_handleAppendEntry.
  - eapply Hcalm; [|exact Hd]. apply Keeps_when; [apply _|apply calm_handleForwardedProposal].
  - eapply Hcalm; [|exact Hd]. apply Keeps_when; [apply _|apply calm_handleForwardedRemovePeerProposal].
  - destruct (bool_decide_reflect (p0 = nid n)) as [->|]; cbn [when] in Hd; [|injection Hd as <- <-; by apply silent_step].
    eapply deliver_vote; [done|done|done|by rewrite Hs, Hid|by rewrite <- Hid|exact Hd].
  - eapply Hcalm; [|exact Hd]. apply Keeps_when; [apply _|apply calm_handleAppendEntryResponse].
  - eapply Hcalm; [|exact Hd]. apply Keeps_when; [apply _|apply calm_handleAppendEntry].
Qed.

(** ** Rounds of the loops *)

Lemma again_same st n n' a : again st n = Some (n', a) -> term n' = term n /\ disk n' = disk n /\ out n' = out n.
Proof.
  intros (n0 & m & [= <- <-] & Hm)%bind_inv. destruct (negb _); cbn [when] in Hm; injection Hm as <- _; done.
Qed.

Section round.
Context (V : peer -> Z -> peer -> Prop) (E : Z -> peer -> Prop) (members : gset peer) (p : peer) (n : raft).
Hypothesis Hok : node_ok V E p n.
Hypothesis Hbound : term n < 2 ^ 64 - 1.
Hypothesis Hout : out n = [].

(** A handler that is quiet, and the condition of the loop. *)
Lemma quiet_round st n1 n' a :
  quiet n n1 -> again st n1 = Some (n', a) -> term n' < 2 ^ 64 ->
  loc n <> RunTop -> (forall vs es, loc n = InCandidate vs es -> st = Candidate) ->
  step_ok V E members p n n'.
Proof.
  intros Hqn Hag Hb Hnt Hst. destruct (again_same st n1 n' a Hag) as (Ht' & Hd' & Ho').
  pose proof (quiet_moved n n1 Hqn (ok_term _ _ _ _ Hok) ltac:(lia) (ok_sync _ _ _ _ Hok)) as Hmv.
  destruct (moved_again_ok V E p st n n1 n' a Hok Hmv Hag Hnt Hst (ok_len _ _ _ _ Hok)) as [Hok' _].
  apply step_intro; [done|rewrite Hd'; apply Hmv|rewrite Ho'; eapply harmless_out; [done|apply Hqn]].
Qed.

(** A request for a vote, and the condition of the loop. *)
Lemma request_round st n' a :
  (pop_request;; again st) n = Some (n', a) -> term n' < 2 ^ 64 ->
  loc n <> RunTop -> (forall vs es, loc n = InCandidate vs es -> st = Candidate) ->
  step_ok V E members p n n'.
Proof.
  intros Hm Hb Hnt Hst. apply bind_inv in Hm as (n1 & [] & Hp & Hag). unfold pop_request in Hp. apply bind_inv in Hp as (n0 & m1 & [= <- <-] & Hp).
  destruct (reqs n) as [|vr rest] eqn:Hr; [injection Hp as <-; eapply quiet_round; [reflexivity|done..]|].
  apply bind_inv in Hp as (n0 & [] & Hn0 & Hp). injection Hn0 as <-.
  set (n0 := n <| reqs := rest |>) in *.
  destruct (ok_reqs _ _ _ _ Hok vr) as (Hrep & H1t & Hlen); [rewrite Hr; apply list_elem_of_here|].
  assert (node_ok V E p n0) as Hok0.
  { destruct Hok. split; try done; [by destruct ok_sync0|]. intros vr' Hin. apply ok_reqs0. rewrite Hr. by right. }
  destruct (again_same st n1 n' a Hag) as (Ht' & Hd' & Ho').
  pose proof (processVoteRequest_answered vr n0 n1 tt Hp) as Han.
  pose proof (answered_moved vr n0 n1 Han (ok_term _ _ _ _ Hok0) ltac:(lia) (ok_sync _ _ _ _ Hok0) Hlen) as Hmv.
  destruct (moved_again_ok V E p st n0 n1 n' a Hok0 Hmv Hag Hnt Hst (ok_len _ _ _ _ Hok)) as [Hok' _].
  apply step_intro; [done|rewrite Hd'; apply Hmv|]. rewrite Ho'.
  destruct (an_out _ _ _ Han) as (new & v & Hon & Hh & Hvp & Hvt & Hg). rewrite Hon. change (out n0) with (out n). rewrite Hout. cbn [app].
  apply Forall_app. split; [eapply Forall_impl; [exact Hh|by left]|]. apply Forall_singleton. right. right.
  pose proof (ok_nid _ _ _ _ Hok0) as Hid. exists v, (vr_candidate vr). cbn. split_and!; try done.
  - rewrite Hvt. pose proof (ok_term _ _ _ _ Hok'). unfold is_u64. lia.
  - rewrite Hvp, Hid. apply (ok_len _ _ _ _ Hok).
  - intros Hgr. destruct (Hg Hgr) as [Htav Hst']. right. rewrite Hvp, Hid, Hd'. split_and!; [done| |].
    + rewrite Hst', Htav; [|apply Hok0|lia|apply Hok0|rewrite Hlen; unfold idLen; lia|lia]. rewrite Hvt. f_equal. by injection Htav.
    + intros Hnv. rewrite Hnv in Hlen. done.
Qed.

(** The handler is calm, and the loop is left. *)
Lemma calm_leave n1 : calm n n1 -> loc n <> RunTop -> step_ok V E members p n (n1 <| loc := RunTop |>).
Proof.
  intros Hcn Hnt. pose proof (calm_ok V E p n n1 Hok ltac:(lia) Hcn) as Hok1.
  apply step_intro; [|apply Hcn; [pose proof (ok_term _ _ _ _ Hok); unfold is_u64; lia|apply Hok]|by eapply harmless_out; [|apply Hcn]].
  destruct Hok1. split; try done; [by destruct ok_sync0|].
  intros Hcand. right. split; [done|]. destruct ok_role0 as [(vs & es & Hl)|[Hl _]]; [done| |].
  - destruct (ok_cand0 vs es Hl) as (Hv & Ht & _). auto.
  - destruct Hnt. by rewrite <- (ca_loc _ _ Hcn).
Qed.

(** The election timer. *)
Lemma elect_round n' a : (switchToCandidate;; loc <~ RunTop) n = Some (n', a) -> loc n <> RunTop -> step_ok V E members p n n'.
Proof.
  intros (n1 & [] & Hm & [= <- <-])%bind_inv Hnt.
  destruct (switchToCandidate_spec n n1 tt (ok_term _ _ _ _ Hok) Hbound Hm) as [Hc|[]]; [by apply calm_leave|].
  destruct cd_sync as [Hs Hd]; [apply Hok|]. assert (term n1 = term n + 1 /\ vote n1 = noVote) as [Ht Hv] by (by injection cd_tav).
  pose proof (ok_term _ _ _ _ Hok).
  apply step_intro; [|done|by eapply harmless_out]. destruct Hok. split; cbn; try done.
  - congruence.
  - lia.
  - by destruct Hs.
  - eauto.
  - eauto.
  - intros _. right. split_and!; [done|by left|lia].
  - intros Hl. destruct cd_role as [Hx|[Hx|Hx]]; congruence.
Qed.

(** ** Votes for a candidate *)

(** The start of a candidacy: the own vote is on the disk before it is counted or asked for. *)
Lemma requestVote_spec n1 a :
  requestVote n = Some (n1, a) -> state n = Candidate -> vote n = noVote \/ vote n = p -> 1 <= term n ->
  exists new, out n1 = [mkMessage p VoteSubj (VoteReply p) new] /\ (exists vr, new = encode_vr vr /\ vr_term vr = term n /\ vr_candidate vr = p) /\
  nid n1 = p /\ tav n1 = (term n, p) /\ state n1 = Candidate /\ reqs n1 = reqs n /\ votes n1 = votes n /\
  synced n1 /\ tav_le (stored (disk n)) (stored (disk n1)) /\ stored (disk n1) = (term n, p).
Proof.
  intros Hm Hc Hv Ht. pose proof (ok_nid _ _ _ _ Hok) as Hid.
  apply bind_inv in Hm as (n0 & m1 & [= <- <-] & Hm). unfold isCandidate in Hm. rewrite bool_decide_true in Hm by done. cbn [negb] in Hm.
  rewrite Hid in Hm. apply bind_inv in Hm as (na & [] & Ha & Hm). apply bind_inv in Hm as (n2 & [] & Hw & Hm).
  assert ((term <~ term n;; vote <~ p;; writeTermVote) n = Some (n2, tt)) as Hg.
  { injection Ha as <-. cbv [mbind M_bind modify]. rewrite <- Hw. by destruct n. }
  apply grant_spec in Hg as [(Hi & Htav & Hl & Hrq & Hvo & Ho & Hst & _ & _) Hsync]; [|done|done].
  destruct Hsync as (Hs & _ & Hd & Hst'); [apply Hok|lia|apply Hok|rewrite (ok_len _ _ _ _ Hok); unfold idLen; lia|].
  assert (tav n2 = (term n, p)) as Htav' by exact Htav. assert (term n2 = term n) as Ht2 by (by injection Htav').
  cbn in Hi, Hrq, Hvo, Ho, Hst. rewrite Hid in Hi.
  apply bind_inv in Hm as (n0 & m1 & [= <- <-] & [= <- <-]). rewrite Hi. eexists. cbn. rewrite Ho, Hout. split_and!; try done.
  - eexists. split; [done|]. by rewrite Ht2.
  - by rewrite Hst.
  - by destruct Hs.
  - rewrite Hst' by lia. done.
Qed.

End round.

Lemma candidate_start_step V E members p n n' a :
  node_ok V E p n -> term n < 2 ^ 64 - 1 -> out n = [] ->
  candidate_start n = Some (n', a) -> state n = Candidate -> loc n = RunTop -> step_ok V E members p n n'.
Proof.
  intros Hok Hb Hout Hm Hc Hl. destruct (ok_role _ _ _ _ Hok Hc) as [(vs & es & Hx)|(_ & Hv & Ht)]; [congruence|].
  apply bind_inv in Hm as (n0 & [] & [= <-] & Hm). apply bind_inv in Hm as (n1 & [] & Hrv & Hm).
  assert (node_ok V E p (n <| votes := [] |>)) as Hok0.
  { destruct Hok. split; try done; [by destruct ok_sync0|]. intros v Hin. by apply not_elem_of_nil in Hin. }
  destruct (requestVote_spec V E p _ Hok0 Hb Hout n1 tt Hrv Hc Hv Ht) as (new & Hon & (vr & Hnew & Hvt & Hvc) & Hid & Htav & Hst & Hrq & Hvo & Hsy & Hdd & Hsd).
  apply bind_inv in Hm as (n2 & [] & Hn2 & Hm). apply bind_inv in Hm as (n3 & [] & Hn3 & Hm). injection Hn2 as <-. injection Hn3 as <-.
  apply bind_inv in Hm as (n0 & m1 & [= <- <-] & Hm). cbn in Hm. rewrite Hst in Hm. cbn in Hm. injection Hm as <- _.
  assert (term n1 = term n /\ vote n1 = p) as [Ht1 Hv1] by (by injection Htav). pose proof (ok_len _ _ _ _ Hok) as Hlp.
  assert (p <> noVote) as Hne by (intros ->; done). cbn in Hvo, Hrq, Hdd. destruct Hok.
  match goal with |- step_ok _ _ _ _ _ ?x => set (n4 := x) end.
  assert (votes_after V p n4 p (term n) p) as HV by (right; done).
  split; [|done| |cbn; congruence].
  - split; cbn; rewrite ?Ht1; try done.
    + by destruct Hsy.
    + rewrite Hrq. apply ok_reqs0.
    + rewrite Hvo, Hid. intros v Hin _. apply list_elem_of_singleton in Hin. subst v. done.
    + intros vs es [= <- <-]. split_and!; [done|lia|done|set_solver|set_solver].
    + intros _. left. by eexists _, _.
    + congruence.
  - cbn. rewrite Hon. apply Forall_singleton. right. left. exists vr. cbn in Hvt |- *. rewrite Hvc, Hvt. unfold is_u64. split_and!; done || lia.
Qed.

(** The members that a candidate heard of, and itself, are more than half: the votes of peers
    with an empty log count only when everyone voted, and the own vote is not one of them. *)
Lemma counted_majority (members vs es : gset peer) (p : peer) csz qn :
  csz = Z.of_nat (size members) -> qn = csz ÷ 2 + 1 -> p ∉ es ->
  qn <= Z.of_nat (size vs) \/ Z.of_nat (size vs) + Z.of_nat (size es) = csz ->
  (size members < 2 * size (vs ∪ es ∪ {[p]}))%nat.
Proof.
  intros Hc Hq Hp Hwon. assert (size vs <= size (vs ∪ es ∪ {[p]}))%nat by (apply subseteq_size; set_solver).
  assert (size es + 1 <= size (vs ∪ es ∪ {[p]}))%nat.
  { rewrite <- (size_singleton (C := gset peer) p), <- size_union by set_solver. apply subseteq_size. set_solver. }
  destruct Hwon as [Hw|Hw]; [|lia]. rewrite Z.quot_div_nonneg in Hq by lia. pose proof (Z.div_mod csz 2 ltac:(lia)).
  pose proof (Z.mod_pos_bound csz 2 ltac:(lia)). lia.
Qed.

Definition same_size (n n' : raft) : Prop := csz n' = csz n /\ qn n' = qn n.

#[local] Instance same_size_preorder : PreOrder same_size.
Proof. split; [done|]. intros ? ? ? [] []. split; congruence. Qed.

Lemma same_size_trackPeer q : Keeps same_size (trackPeer q).
Proof. unfold trackPeer, ProposeAddPeer. keeps_with ltac:(done). Qed.

(** The vote that makes the node a leader. *)
Lemma won_step V E (members : gset peer) (p : peer) n n1 n2 (vs es : gset peer) (t : Z) :
  node_ok V E p n -> term n < 2 ^ 64 - 1 -> out n = [] ->
  csz n = Z.of_nat (size members) -> qn n = csz n ÷ 2 + 1 -> (forall q t c, V q t c -> q ∈ members) ->
  calm n n1 -> same_size n n1 -> switchToLeader n1 = Some (n2, tt) -> t = term n ->
  vote n = p -> 1 <= t -> V p t p -> (forall q, q ∈ vs ∪ es -> V q t p) -> p ∉ es ->
  qn n1 <= Z.of_nat (size vs) \/ Z.of_nat (size vs) + Z.of_nat (size es) = csz n ->
  step_ok V E members p n (n2 <| loc := RunTop |>).
Proof.
  intros Hok Hb Hout Hcsz Hqn HVm Hc [Hcs Hqs] Hsw -> Hv H1t HV Hvs Hes Hwon.
  assert (same_vote n n2) as [].
  { transitivity n1; [by apply calm_same_vote|by apply (same_vote_switchToLeader _ _ tt)]. }
  destruct (tav_eq _ _ sv_tav) as [Ht2 Hv2]. pose proof (ok_term _ _ _ _ Hok).
  destruct sv_sync as [Hs Hd]; [unfold is_u64; lia|apply Hok|].
  set (n' := n2 <| loc := RunTop |>). split; [|done|by eapply harmless_out|].
  - eapply (node_ok_mono V (elected_after E p n')); [by left|done|]. destruct Hok. split; cbn; rewrite ?Ht2, ?Hv2; try done.
    + congruence. + by destruct Hs. + eauto. + eauto. + intros _. right. auto.
    + intros Hl. right. split_and!; [done|by cbn|done].
  - intros Hl. right. split; [left; cbn; by rewrite Ht2|]. exists (vs ∪ es ∪ {[p]}). split; [eapply counted_majority; [exact Hcsz|exact Hqn|done|by rewrite <- Hqs]|].
    intros q Hq. assert (V q (term n) p) as HVq by (apply elem_of_union in Hq as [Hq|Hq%elem_of_singleton]; [auto|by subst]).
    split; [by eapply HVm|]. left. cbn. by rewrite Ht2.
Qed.

Lemma calm_step_down : Keeps calm (writeTermVote;; lxfer <~ false;; stepdownLocked noLeader : M unit).
Proof.
  apply Keeps_bind; [apply _|apply calm_writeTermVote|]. intros _. apply Keeps_bind; [apply _| |intros _; apply calm_stepdown].
  apply Keeps_modify. intros n. apply calm_view. unfold same_view. split_and!; reflexivity.
Qed.

(** A vote that does not decide. *)
Lemma tally_step V E (members : gset peer) (p : peer) n n1 (vs es : gset peer) n' a :
  node_ok V E p n -> term n < 2 ^ 64 - 1 -> out n = [] -> calm n n1 ->
  (loc <~ InCandidate vs es;; again Candidate) n1 = Some (n', a) ->
  vote n = p -> 1 <= term n -> V p (term n) p -> (forall q, q ∈ vs ∪ es -> V q (term n) p) -> p ∉ es ->
  step_ok V E members p n n'.
Proof.
  intros Hok Hb Hout Hc Hm Hv H1t HV Hvs Hes. pose proof (calm_ok V E p n n1 Hok ltac:(lia) Hc) as Hok1.
  destruct (tav_eq _ _ (ca_tav _ _ Hc)) as [Ht1 Hv1]. pose proof (ok_term _ _ _ _ Hok).
  apply bind_inv in Hm as (n2 & [] & Hn2 & Hag). injection Hn2 as <-.
  assert (n' = n1 <| loc := if bool_decide (state n1 = Candidate) then InCandidate vs es else RunTop |>) as ->.
  { apply bind_inv in Hag as (n0 & m & [= <- <-] & Hag). cbn in Hag. destruct (bool_decide_reflect (state n1 = Candidate)); cbn in Hag; by injection Hag as <- _. }
  apply step_intro; [|apply Hc; [unfold is_u64; lia|apply Hok]|by eapply harmless_out; [|apply Hc]].
  destruct Hok1. split; cbn; rewrite ?Ht1, ?Hv1; try done.
  - by destruct ok_sync0.
  - intros vs' es' Hl. destruct (bool_decide_reflect (state n1 = Candidate)); [|done]. by injection Hl as <- <-.
  - intros Hcand. rewrite bool_decide_true by done. left. by eexists _, _.
  - rewrite <- Ht1. done.
Qed.

(** The votes of a candidate. *)
Lemma vote_round V E (members : gset peer) (p : peer) n (vs es : gset peer) n' a :
  node_ok V E p n -> term n < 2 ^ 64 - 1 -> out n = [] ->
  csz n = Z.of_nat (size members) -> qn n = csz n ÷ 2 + 1 -> (forall q t c, V q t c -> q ∈ members) ->
  loc n = InCandidate vs es -> candidate_step vs es EvVotes n = Some (n', a) -> term n' < 2 ^ 64 ->
  step_ok V E members p n n'.
Proof.
  intros Hok Hb Hout Hcsz Hqn HVm Hloc Hm Hb'. destruct (ok_cand _ _ _ _ Hok vs es Hloc) as (Hv & H1t & HV & Hvs & Hes).
  apply bind_inv in Hm as (n0 & m1 & [= <- <-] & Hm). destruct (votes n) as [|v rest] eqn:Hvo.
  { eapply (quiet_round V E members p n Hok Hout Candidate n n' a); [reflexivity|done|done|congruence|done]. }
  apply bind_inv in Hm as (n0 & [] & Hn0 & Hm). injection Hn0 as <-. set (n0 := n <| votes := rest |>) in *.
  assert (node_ok V E p n0) as Hok0.
  { destruct Hok. split; try done; [by destruct ok_sync0|]. intros v' Hin. apply ok_votes0. rewrite Hvo. by right. }
  assert (step_ok V E members p n0 n' -> step_ok V E members p n n') as Hwrap by (intros []; by split).
  apply Hwrap. clear Hwrap. apply bind_inv in Hm as (n1 & [[vs' es'] leads] & Hcv & Hm).
  apply bind_inv in Hcv as (nx & m1 & [= <- <-] & Hcv). destruct (vs_granted v && (term n0 =? vs_term v)) eqn:Hg.
  - apply andb_true_iff in Hg as [Hg Ht%Z.eqb_eq]. change (term n0) with (term n) in Ht.
    destruct (ok_votes _ _ _ _ Hok v) as [HVv Hev]; [rewrite Hvo; apply list_elem_of_here|done|]. rewrite <- Ht in HVv.
    apply bind_inv in Hcv as (n2 & [] & Htr & Hcv). apply bind_inv in Hcv as (nx & m1 & [= <- <-] & Hcv). cbv zeta in Hcv.
    pose proof (calm_trackPeer _ _ _ _ Htr) as Hc2. pose proof (same_size_trackPeer _ _ _ _ Htr) as Hsz.
    set (vs2 := if vs_empty v then vs else {[vs_peer v]} ∪ vs) in *. set (es2 := if vs_empty v then {[vs_peer v]} ∪ es else es) in *.
    assert (forall q, q ∈ vs2 ∪ es2 -> V q (term n) p) as Hvs2.
    { intros q Hq. unfold vs2, es2 in Hq. destruct (decide (q = vs_peer v)) as [->|]; [done|]. apply Hvs. destruct (vs_empty v); set_solver. }
    assert (p ∉ es2) as Hes2 by (unfold es2; destruct (vs_empty v); [specialize (Hev eq_refl); set_solver|done]).
    assert (forall nl, switchToLeader n2 = Some (nl, tt) -> qn n2 <= Z.of_nat (size vs2) \/ Z.of_nat (size vs2) + Z.of_nat (size es2) = csz n0 ->
      step_ok V E members p n0 (nl <| loc := RunTop |>)) as Hwon by (intros nl Hnl Hw; by eapply (won_step V E members p n0 n2 nl vs2 es2 (term n))).
    unfold wonElection in Hcv. destruct (Z.leb_spec (qn n2) (Z.of_nat (size vs2))) as [Hw|_].
    { apply bind_inv in Hcv as (nl & [] & Hnl & [= <- <- <- <-]). injection Hm as <- _. auto. }
    destruct (Z.eqb_spec (Z.of_nat (size vs2) + Z.of_nat (size es2)) (csz n0)) as [Hw|_].
    { apply bind_inv in Hcv as (nl & [] & Hnl & [= <- <- <- <-]). injection Hm as <- _. auto. }
    injection Hcv as <- <- <- <-. by eapply (tally_step V E members p n0 n2 vs2 es2).
  - assert (quiet n0 n1 /\ vs' = vs /\ es' = es /\ leads = false) as (Hq & -> & -> & ->).
    { apply bind_inv in Hcv as (n2 & [] & Hw & [= <- <- <- <-]). split_and!; [|done..].
      destruct (Z.ltb_spec (term n0) (vs_term v)) as [Hlt|_]; cbn [when] in Hw; [|injection Hw as <-; reflexivity].
      revert Hw. apply (new_term_quiet (vs_term v) (writeTermVote;; lxfer <~ false;; stepdownLocked noLeader)); [done|apply calm_step_down|].
      intros na nb b (nc & [] & _ & Hx)%bind_inv. by apply stepdown_after in Hx. }
    apply bind_inv in Hm as (n2 & [] & Hn2 & Hag). injection Hn2 as <-.
    assert (n1 <| loc := InCandidate vs es |> = n1) as Hn1.
    { assert (loc n1 = InCandidate vs es) as <- by (by rewrite (mi_loc _ _ (proj1 Hq))). by destruct n1. }
    rewrite Hn1 in Hag. eapply (quiet_round V E members p n0 Hok0 Hout Candidate n1 n' a); [done|done|done| |done]. cbn. congruence.
Qed.

(** ** Every round of [run] *)

Section runs.
Context (V : peer -> Z -> peer -> Prop) (E : Z -> peer -> Prop) (members : gset peer) (p : peer) (n : raft).
Hypothesis Hok : node_ok V E p n.
Hypothesis Hbound : term n < 2 ^ 64 - 1.
Hypothesis Hout : out n = [].
Hypothesis Hcsz : csz n = Z.of_nat (size members).
Hypothesis Hqn : qn n = csz n ÷ 2 + 1.
Hypothesis HVm : forall q t c, V q t c -> q ∈ members.

(** The handler [m] is quiet and then the loop is tried again. *)
Lemma round_of (m : M unit) st n' a :
  Keeps quiet m -> (m;; again st) n = Some (n', a) -> term n' < 2 ^ 64 -> loc n <> RunTop ->
  (forall vs es, loc n = InCandidate vs es -> st = Candidate) -> step_ok V E members p n n'.
Proof.
  intros Hq (n1 & [] & Hm & Hag)%bind_inv Hb Hnt Hst. by eapply (quiet_round V E members p n Hok Hout st n1 n' a); [apply (Hq n n1 tt)|..].
Qed.

Lemma top_step subs_ok n' a : run_top subs_ok n = Some (n', a) -> loc n = RunTop -> step_ok V E members p n n'.
Proof.
  intros (n0 & m & [= <- <-] & Hm)%bind_inv Hl. destruct (state n) eqn:Hst.
  - injection Hm as <- _. apply silent_step; [|done|done]. destruct Hok. split; cbn; solve [done | congruence | by destruct ok_sync0].
  - unfold leader_start in Hm. destruct subs_ok.
    + apply bind_inv in Hm as (n1 & [] & Hn1 & Hag). injection Hn1 as <-. apply bind_inv in Hag as (n0 & m & [= <- <-] & Hag).
      cbn in Hag. rewrite Hst in Hag. cbn in Hag. injection Hag as <- _. apply silent_step; [|done|done].
      destruct Hok. split; cbn; solve [done | congruence | by destruct ok_sync0].
    + apply bind_inv in Hm as (n1 & [] & Hs & Hn1). injection Hn1 as <- _. pose proof (calm_stepdown noLeader n n1 tt Hs) as Hc.
      apply calm_step; [done|lia|done|]. assert (n1 <| loc := RunTop |> = n1) as ->; [|done].
      assert (loc n1 = RunTop) as <- by (rewrite (ca_loc _ _ Hc); done). by destruct n1.
  - by eapply candidate_start_step.
  - do 7 apply bind_inv in Hm as (? & [] & [= <-] & Hm). injection Hm as <- _. apply silent_step; [|done|done].
    destruct Hok. split; cbn; solve [done | congruence | by destruct ok_sync0 | intros ? Hin; by apply not_elem_of_nil in Hin].
Qed.

Lemma quiet_modify (f : raft -> raft) : (forall m, calm m (f m)) -> Keeps quiet (modify f).
Proof. intros Hf. by apply Keeps_quiet_of_calm, Keeps_modify. Qed.

Lemma tail_subset {A} (l : list A) : tail l ⊆ l.
Proof. destruct l; set_solver. Qed.

Ltac field := intros; apply calm_view; unfold same_view; split_and!; reflexivity.

(** Rounds that the loops have in common. *)
Lemma common_round st ev n' a :
  term n' < 2 ^ 64 -> loc n <> RunTop -> (forall vs es, loc n = InCandidate vs es -> st = Candidate) ->
  match ev with
  | EvEntry oor => (processAppendEntries oor;; again st) n = Some (n', a)
  | EvReqs => (pop_request;; again st) n = Some (n', a)
  | EvQuit => (loc <~ RunTop) n = Some (n', a)
  | _ => False
  end -> step_ok V E members p n n'.
Proof.
  intros Hb Hnt Hst Hm. destruct ev; try done.
  - eapply round_of; [|exact Hm|done..]. apply quiet_processAppendEntries.
  - by eapply (request_round V E members p n Hok Hout).
  - injection Hm as <- _. apply (calm_leave V E members p n Hok Hbound Hout); [reflexivity|done].
Qed.

Lemma follower_round ev n' a : follower_step ev n = Some (n', a) -> term n' < 2 ^ 64 -> loc n = InFollower -> step_ok V E members p n n'.
Proof.
  intros Hm Hb Hl. assert (loc n <> RunTop) as Hnt by congruence.
  assert (forall vs es, loc n = InCandidate vs es -> Follower = Candidate) as Hnc by congruence.
  destruct ev as [oor| | | | |oor| | |]; cbn [follower_step] in Hm.
  - by apply (common_round Follower (EvEntry oor) n' a).
  - eapply round_of; [|exact Hm|done..]. apply quiet_modify; field.
  - eapply round_of; [|exact Hm|done..]. apply quiet_modify; field.
  - eapply round_of; [|exact Hm|done..]. apply quiet_modify; intros m; apply calm_fewer_votes, tail_subset.
  - by apply (common_round Follower EvReqs n' a).
  - apply bind_inv in Hm as (n0 & m & [= <- <-] & Hm). destruct (oor || observer n).
    { eapply (quiet_round V E members p n Hok Hout Follower n n' a); [reflexivity|done..]. }
    destruct (catchup n); [|by eapply (elect_round V E members p n Hok Hbound Hout)].
    apply bind_inv in Hm as (n1 & b & Hs & Hm). apply bind_inv in Hm as (n2 & [] & Hw & Hag).
    eapply (quiet_round V E members p n Hok Hout Follower n2 n' a); [|done..]. apply calm_quiet.
    transitivity n1; [by apply (calm_catchupStalled n n1 b)|].
    assert (Keeps calm (when b cancelCatchup : M unit)) as Hc by (apply Keeps_when; [apply _|apply calm_cancelCatchup]). by apply (Hc n1 n2 tt).
  - injection Hm as <- _. apply calm_step; [done|lia|done|reflexivity].
  - injection Hm as <- _. apply calm_step; [done|lia|done|reflexivity].
  - by apply (common_round Follower EvQuit n' a).
Qed.

Lemma candidate_round vs es ev n' a :
  candidate_step vs es ev n = Some (n', a) -> term n' < 2 ^ 64 -> loc n = InCandidate vs es -> step_ok V E members p n n'.
Proof.
  intros Hm Hb Hl. assert (loc n <> RunTop) as Hnt by congruence.
  assert (forall vs es, loc n = InCandidate vs es -> Candidate = Candidate) as Hnc by done.
  destruct ev as [oor| | | | |oor| | |]; [| | |by eapply (vote_round V E members p n vs es)| | | | |]; cbn [candidate_step] in Hm.
  - by apply (common_round Candidate (EvEntry oor) n' a).
  - eapply round_of; [|exact Hm|done..]. apply quiet_modify; field.
  - eapply round_of; [|exact Hm|done..]. apply quiet_modify; field.
  - by apply (common_round Candidate EvReqs n' a).
  - by eapply (elect_round V E members p n Hok Hbound Hout).
  - injection Hm as <- _. apply calm_step; [done|lia|done|reflexivity].
  - injection Hm as <- _. apply calm_step; [done|lia|done|reflexivity].
  - by apply (common_round Candidate EvQuit n' a).
Qed.

Lemma leader_round online ev n' a :
  leader_step online ev n = Some (n', a) -> term n' < 2 ^ 64 -> loc n = InLeader -> step_ok V E members p n n'.
Proof.
  intros Hm Hb Hl. assert (loc n <> RunTop) as Hnt by congruence.
  assert (forall vs es, loc n = InCandidate vs es -> Leader = Candidate) as Hnc by congruence.
  destruct ev as [oor| | | | |oor| | |]; cbn [leader_step] in Hm.
  - by apply (common_round Leader (EvEntry oor) n' a).
  - apply bind_inv in Hm as (n0 & m & [= <- <-] & Hm).
    apply (round_of (resp <~ [];; each (processAppendEntryResponse online) (resp n)) Leader n' a); [|by rewrite bind_assoc|done..].
    apply Keeps_bind; [apply _|apply quiet_modify; field|]. intros _. apply Keeps_each; [apply _|]. intros. apply quiet_processAppendEntryResponse.
  - apply bind_inv in Hm as (n0 & m & [= <- <-] & Hm).
    apply bind_inv in Hm as (n1 & [] & Hn1 & Hm). apply bind_inv in Hm as (n2 & [] & Hn2 & Hm). apply bind_inv in Hm as (n3 & [] & Hn3 & Hag).
    eapply (quiet_round V E members p n Hok Hout Leader n3 n' a); [|done..]. apply calm_quiet.
    transitivity n1; [injection Hn1 as <-; field|]. transitivity n2; [by apply (calm_send_proposals _ _ _ n1 n2 tt Hn2)|].
    revert Hn3. apply Keeps_each; [apply _|]. intros. apply Keeps_when; [apply _|apply calm_send_nothing].
  - apply bind_inv in Hm as (n0 & m & [= <- <-] & Hm). destruct (votes n) as [|v rest] eqn:Hv.
    { eapply (quiet_round V E members p n Hok Hout Leader n n' a); [reflexivity|done..]. }
    apply bind_inv in Hm as (n1 & [] & Hn1 & Hm). assert (calm n n1) as Hc by (injection Hn1 as <-; apply calm_fewer_votes; rewrite Hv; set_solver).
    destruct (term n <? vs_term v).
    + apply bind_inv in Hm as (n2 & [] & Hs & Hm). injection Hm as <- _. apply (calm_leave V E members p n Hok Hbound Hout); [|done].
      transitivity n1; [done|by apply (calm_stepdown noLeader n1 n2 tt)].
    + eapply (quiet_round V E members p n Hok Hout Leader n1 n' a); [by apply calm_quiet|done..].
  - by apply (common_round Leader EvReqs n' a).
  - injection Hm as <- _. apply calm_step; [done|lia|done|reflexivity].
  - apply bind_inv in Hm as (n0 & m & [= <- <-] & Hm). eapply round_of; [|exact Hm|done..].
    apply Keeps_quiet_of_calm, Keeps_when; [apply _|apply calm_sendHeartbeat].
  - apply bind_inv in Hm as (n0 & m & [= <- <-] & Hm). destruct (lostQuorumLocked n).
    + apply bind_inv in Hm as (n1 & [] & Hs & Hm). injection Hm as <- _. apply (calm_leave V E members p n Hok Hbound Hout); [|done].
      by apply (calm_stepdown noLeader n n1 tt).
    + eapply (quiet_round V E members p n Hok Hout Leader n n' a); [reflexivity|done..].
  - by apply (common_round Leader EvQuit n' a).
Qed.

Lemma run_step_ok online subs_ok ev n' a : run_step online subs_ok ev n = Some (n', a) -> term n' < 2 ^ 64 -> step_ok V E members p n n'.
Proof.
  intros (n0 & m & [= <- <-] & Hm)%bind_inv Hb. destruct (loc n) as [| | |vs es| |] eqn:Hl.
  - apply bind_inv in Hm as (n1 & [] & Hr & Hm). injection Hm as <- _. pose proof (calm_ResumeApply n n1 tt Hr) as Hc.
    apply (calm_leave V E members p n Hok Hbound Hout (n1 <| applyq := applyq n1 ++ [None] |>)); [|congruence].
    transitivity n1; [done|field].
  - by eapply top_step.
  - by eapply follower_round.
  - by eapply candidate_round.
  - by eapply leader_round.
  - injection Hm as <- _. apply calm_step; [done|lia|done|reflexivity].
Qed.
End runs.

(** ** The start of a node *)

Lemma read_vote_length buf t v : read_term_vote buf = (t, v) -> v = noVote \/ (8 <= length v)%nat.
Proof.
  unfold read_term_vote. destruct (Nat.ltb_spec (length buf) termLen); [intros [= _ <-]; by left|].
  destruct (Nat.ltb_spec (length buf) termVoteLen) as [|Hl]; intros [= _ <-]; [by left|right].
  rewrite length_drop. unfold termVoteLen in Hl. lia.
Qed.

(** The node starts with the term and vote of its disk. *)
Lemma readTermVote_spec p l d now inbox cfg n1 :
  readTermVote (fresh p l d now inbox cfg) = Some (n1, tt) ->
  tav n1 = stored d /\ synced n1 /\ nid n1 = p /\ disk n1 = d /\ reqs n1 = [] /\ votes n1 = [] /\ out n1 = [] /\ state n1 = Follower /\ loc n1 = RunStart.
Proof.
  intros (n0 & m & [= <- <-] & Hm)%bind_inv. cbn [disk fresh] in Hm. unfold stored.
  destruct (readFile d TermVoteFile) as [e|buf] eqn:Hr.
  { injection Hm as <-. split_and!; try done. split; [|done|by left]. cbn. unfold stored. rewrite Hr. by right; auto. }
  destruct (read_term_vote buf) as [t v] eqn:Hrd. destruct (Z.ltb_spec 0 t) as [Ht|Ht]; cbn [when] in Hm.
  - apply bind_inv in Hm as (n2 & [] & Hn2 & Hm). injection Hn2 as <-. injection Hm as <-. split_and!; try done.
    split; [|done|by eapply read_vote_length]. cbn. unfold stored. rewrite Hr, Hrd, (proj2 (Z.ltb_lt _ _)) by done. by right; auto.
  - injection Hm as <-. split_and!; try done. split; [|done|by left]. cbn. unfold stored. rewrite Hr, Hrd, (proj2 (Z.ltb_ge _ _)) by done. by right; auto.
Qed.

Lemma start_ok V E p l (d : D) now inbox cfg n' :
  length p = idLen -> initRaftNode p l d now inbox cfg = Some (inr n') -> term n' < 2 ^ 64 ->
  node_ok V E p n' /\ tav_le (stored d) (stored (disk n')) /\ Forall (msg_ok V) (out n').
Proof.
  intros Hl Hi Hb. apply bind_Some in Hi as ([n2 e] & Hn & He). destruct e as [|]; [done|]. injection He as ->.
  apply init_node_quiet in Hn as (n1 & Hr & [Hq Hk]).
  apply readTermVote_spec in Hr as (Ht & Hs & Hid & Hd & Hrq & Hv & Ho & Hst & Hloc).
  assert (0 <= term n1) as Ht0 by (destruct (stored_nonneg d) as [Hnn _]; rewrite <- Ht in Hnn; done).
  assert (demoted n') as Hdem by (destruct Hk as [|[Hst' _]]; [done|left; congruence]).
  destruct Hq. destruct mi_sync as (Hs' & _ & Hdd); [done|done|done|]. split; [|split; [by rewrite <- Hd|by eapply harmless_out]].
  split; try done; [congruence|lia| | | | |].
  - rewrite Hrq in mi_reqs. set_solver. - rewrite Hv in mi_votes. set_solver. - congruence.
  - intros Hc. by eapply not_demoted in Hdem; auto. - intros Hc. by eapply not_demoted in Hdem; auto.
Qed.

Lemma restart_step V E members p l n now inbox cfg n' :
  length p = idLen -> initRaftNode p l (disk n) now inbox cfg = Some (inr n') -> term n' < 2 ^ 64 -> step_ok V E members p n n'.
Proof.
  intros Hl Hi Hb. destruct (start_ok V E _ _ _ _ _ _ _ Hl Hi Hb) as (Hok & Hd & Ho). apply step_intro; [done|done|].
  eapply Forall_impl; [exact Ho|]. intros m. apply msg_ok_mono. by left.
Qed.
End voting.
