(* ===== verification/RaftMemory.v ===== *)
(** * A log and a directory in memory

    Instances of the interfaces that a Raft node has to its storage, with which groups of nodes are
    run. *)

From S2P Require Import Prelude Binary RaftCodec Raft.
Import RaftCodec Raft.

Module RaftMemory.

(** Records [base + 1], [base + 2], and so on. *)
Record mem_log : Type := mkLog { compacted : nat; records : list (list Z) }.

Definition base (l : mem_log) : Z := Z.of_nat (compacted l).

Definition log_last (l : mem_log) : Z := base l + zlen (records l).

#[export] Instance mem_wal : WAL mem_log := {|
  StoreMsg l b := (mkLog (compacted l) (records l ++ [b]), inr (log_last l + 1));
  LoadMsg l i :=
    if (base l <? i) && (i <=? log_last l)
    then match records l !! Z.to_nat (i - base l - 1) with Some b => inr b | None => inl ErrStoreMsgNotFound end
    else inl (if log_last l <? i then ErrStoreEOF else ErrStoreMsgNotFound);
  Compact l i := (if i <=? base l then l else mkLog (Z.to_nat (i - 1)) (drop (Z.to_nat (i - 1 - base l)) (records l)), None);
  Truncate l i := (if i =? 0 then mkLog 0 [] else mkLog (compacted l) (take (Z.to_nat (i - base l)) (records l)), None);
  FastState l := mkWalState (zlen (records l)) (foldr (fun b k => zlen b + k) 0 (records l)) (base l + 1) (log_last l);
  isMemStore _ := false |}.

Definition mem_dir : Type := list (file * list Z).

Fixpoint file_in (f : file) (d : mem_dir) : option (list Z) :=
  match d with
  | [] => None
  | (g, b) :: d => if bool_decide (g = f) then Some b else file_in f d
  end.

Lemma file_in_remove f g (d : list (file * list Z)) : f <> g -> file_in g (filter (fun x : file * list Z => fst x <> f) d) = file_in g d.
Proof.
  intros Hf. induction d as [|[h b] d IH]; [done|]. rewrite filter_cons. cbn [fst file_in].
  case_decide as Hh; cbn [file_in]; [by rewrite IH|]. subst h. by rewrite bool_decide_false.
Qed.

#[export] Instance mem_files : Files mem_dir := {|
  statFile d f := match file_in f d with Some _ => None | None => Some errNotExist end;
  writeFile d f b := ((f, b) :: d, None);
  readFile d f := match file_in f d with Some b => inr b | None => inl errNotExist end;
  removeFile d f := filter (fun x : file * list Z => fst x <> f) d;
  readSnapDir d := inr (omap (fun x : file * list Z => match fst x with SnapFile t i => Some (t, i) | _ => None end) d) |}.

(** A directory on a device of which some writes fail: those that [faults] says. *)
Record lossy_dir : Type := mkLossy { faults : list bool; kept : mem_dir }.

#[export] Instance lossy_files : Files lossy_dir := {|
  statFile d f := statFile (kept d) f;
  writeFile d f b :=
    match faults d with
    | true :: fs => (mkLossy fs (kept d), Some errIO)
    | fs => (mkLossy (tail fs) ((f, b) :: kept d), None)
    end;
  readFile d f := readFile (kept d) f;
  removeFile d f := mkLossy (faults d) (removeFile (kept d) f);
  readSnapDir d := readSnapDir (kept d) |}.

#[export] Instance plain_env : RaftEnv := {| hash64 b := take 8 (b ++ zeros 8); spare _ := []; range_peers := map_to_list |}.

#[export] Instance plain_laws : RaftEnvLaws.
Proof. split; [|done]. intros b. unfold hash64, plain_env. rewrite length_take, length_app. unfold zeros. rewrite length_replicate. lia. Qed.
End RaftMemory.
