(* ===== verification/RaftSystem.v ===== *)
(** * A cluster of Raft nodes

    The nodes of a group, the messages between them, and events: a message that arrives, a round
    of a node's loop, a call of its upper layer, a step of one of its catchups, time, and a crash
    with a restart from what is on the disk.  A message stays in the network: it may arrive late,
    twice, in any order, or never. *)

From S2P Require Import Prelude Binary RecordUpdate RaftCodec RaftCodecSpec Raft RaftFrame RaftLog RaftAppend RaftRun RaftElection RaftVoting RaftMemory.
Import RaftCodec Raft RaftLog RaftAppend RaftRun RaftMemory.

#[local] Existing Instances tav_preorder.

Section system.
Context {L D : Type} `{WAL L} `{Files D} `{RaftEnv}.
Notation M := (M L D).
Notation raft := (raft L D).
Implicit Types n : raft.

(** [elected] lists the term and name of a node whenever it leads after an event. *)
Record sys : Type := mkSys { nodes : gmap peer raft; net : list message; elected : list (Z * peer) }.

Inductive event : Type :=
  | Deliver (p : peer) (i : nat)
  | Run (p : peer) (online : peer -> bool) (subs_ok : bool) (ev : run_event)
  | Call (p : peer) (c : call)
  | Catchup (p : peer) (q : Z)
  | CatchupStop (p : peer) (q : Z)
  | Tick (p : peer) (now : Z)
  | Restart (p : peer) (l : L) (now inbox : Z) (cfg : RaftConfig).

(** The system after node [p] became [n]. *)
Definition settle (p : peer) (n : raft) (s : sys) : sys :=
  mkSys (<[p := n]> (nodes s)) (net s ++ out n) (if bool_decide (state n = Leader) then (term n, p) :: elected s else elected s).

Definition exec (p : peer) (m : M unit) (s : sys) : option sys :=
  n ← nodes s !! p;
  '(n', _) ← m (n <| out := [] |>);
  Some (settle p n' s).

(** [None]: there is no such node or message, or a handler panics.  A restart keeps the disk; the
    log may be any, as what was not synced is lost. *)
Definition step (s : sys) (ev : event) : option sys :=
  match ev with
  | Deliver p i => m ← net s !! i; exec p (deliver m) s
  | Run p online subs_ok ev => exec p (run_step online subs_ok ev) s
  | Call p c => exec p (api_call c) s
  | Catchup p q => exec p (catchup_step q) s
  | CatchupStop p q => exec p (catchup_stop q) s
  | Tick p now => exec p (clock <~ now) s
  | Restart p l now inbox cfg =>
      n ← nodes s !! p;
      r ← initRaftNode p l (disk n) now inbox cfg;
      match r with inl _ => None | inr n' => Some (settle p n' s) end
  end.

Fixpoint run (s : sys) (evs : list event) : option sys :=
  match evs with
  | [] => Some s
  | ev :: evs => s' ← step s ev; run s' evs
  end.

(** Every node starts from its log and its disk; nothing else happened. *)
Definition starts (s : sys) : Prop :=
  (forall p n, nodes s !! p = Some n ->
     length p = idLen /\ exists l d now inbox cfg, initRaftNode p l d now inbox cfg = Some (inr n)) /\
  net s = concat (map (fun x => out (snd x)) (map_to_list (nodes s))) /\ elected s = [].

(** The membership is the same for all nodes, and terms are far from their limit. *)
Definition steady (s : sys) : Prop :=
  forall p n, nodes s !! p = Some n ->
    csz n = Z.of_nat (size (dom (nodes s) : gset peer)) /\ qn n = csz n ÷ 2 + 1 /\ term n < 2 ^ 64 - 1.

(** ** Messages that a node cannot take *)

(** The vote is a name, or none. *)
Definition short_vote (n : raft) : Prop := (length (vote n) <= idLen)%nat.

Lemma returns_writeTermVote : Returns short_vote writeTermVote.
Proof.
  apply Returns_get_bind. intros n Hn. unfold term_vote. rewrite (proj2 (Nat.ltb_ge _ _)) by exact Hn.
  enough (Returns short_vote (if bool_decide (wtv n = Some (le_put 8 (term n) ++ vote n)) then mret tt else
    wtv <~ Some (le_put 8 (term n) ++ vote n);;
    e ← stat_write_file TermVoteFile (le_put 8 (term n) ++ vote n);
    match e with None => mret tt | Some err => n ← get; if isClosed n then mret tt else wtv <~ None;; setWriteErrLocked err end)) as Hk by exact (Hk n Hn).
  assert (forall f b, Returns short_vote (write_file f b)) as Hw.
  { intros f b n' Hn'. unfold write_file. destruct (writeFile (disk n') f b) as [d e]. by exists (n' <| disk := d |>), e. }
  unfold setWriteErrLocked, shutdown, stat_write_file. returns; apply Hw.
Qed.
#[local] Hint Resolve returns_writeTermVote : keeps.

Lemma returns_stepdown p : Returns short_vote (stepdownLocked p).
Proof. unfold stepdownLocked, switchToFollowerLocked, updateLeader, switchState, lead_change, updateLeadChange. returns. Qed.

(** C39. The only message that makes a node panic when it arrives is an answer to append entries
    that does not have its length, on the subject for such answers; then it always does. *)
Theorem deliver_panics m n :
  (length (vote n) <= idLen)%nat ->
  deliver m n = None <->
  m_from m <> nid n /\ loc n <> Stopped /\ m_subj m = AppendReply (nid n) /\ length (m_data m) <> appendEntryResponseLen.
Proof.
  intros Hv. unfold deliver. cbv [mbind M_bind get]. destruct (bool_decide_reflect (m_from m = nid n)); [cbn; naive_solver|].
  destruct (bool_decide_reflect (loc n = Stopped)); [cbn; naive_solver|]. cbn [orb].
  assert (forall sub, handleAppendEntry sub (m_reply m) (m_data m) n <> None) as Hae.
  { intros sub. unfold handleAppendEntry. destruct (decode_append_entry_total (m_data m) (Some sub) (m_reply m)) as [[e|ae] ->]; done. }
  destruct (m_subj m) eqn:Hs; try (split; [done|by intros (_ & _ & [= ] & _)]).
  - split; [|by intros (_ & _ & [= ] & _)]. unfold handleVoteRequest. by destruct (decodeVoteRequest _ _).
  - split; [by intros ?%Hae|by intros (_ & _ & [= ] & _)].
  - split; [|by intros (_ & _ & [= ] & _)]. destruct (bool_decide _); [|done]. cbn [when]. unfold handleForwardedProposal, overrun.
    cbv [mbind M_bind get]. destruct (_ || _ || _); [done|]. destruct (isLeaderOverrun n); [|done].
    by destruct (returns_stepdown noLeader n Hv) as (n' & a & -> & _).
  - split; [|by intros (_ & _ & [= ] & _)]. destruct (bool_decide _); [|done]. cbn [when]. unfold handleForwardedRemovePeerProposal.
    cbv [mbind M_bind get]. by repeat case_match.
  - split; [|by intros (_ & _ & [= ] & _)]. destruct (bool_decide _); [|done]. cbn [when]. unfold handleVoteResponse.
    cbv [mbind M_bind get when]. by repeat case_match.
  - destruct (bool_decide_reflect (p = nid n)) as [->|Hp]; cbn [when]; [|split; [done|by intros (_ & _ & [= ] & _)]].
    unfold handleAppendEntryResponse, decodeAppendEntryResponse.
    destruct (Nat.eqb_spec (length (m_data m)) appendEntryResponseLen); cbn [negb]; [split; [done|naive_solver]|naive_solver].
  - split; [|by intros (_ & _ & [= ] & _)]. destruct (bool_decide _); [|done]. by intros ?%Hae.
Qed.

(** ** The invariant *)

Context `{!DurableVotes D}.

Record inv (members : gset peer) (V : peer -> Z -> peer -> Prop) (s : sys) : Prop := {
  in_dom : dom (nodes s) = members;
  in_node : forall p n, nodes s !! p = Some n -> node_ok V (fun t q => (t, q) ∈ elected s) p n;
  in_disk : forall p n t c, nodes s !! p = Some n -> V p t c -> t <= (stored (disk n)).1 /\ (t = (stored (disk n)).1 -> c = (stored (disk n)).2);
  in_once : forall q t c c', V q t c -> V q t c' -> c = c';
  in_voter : forall q t c, V q t c -> q ∈ members /\ c <> noVote;
  in_net : Forall (msg_ok V) (net s);
  in_elected : forall t p, (t, p) ∈ elected s -> elected_by V members t p }.

Lemma elected_settle p n s t q : (t, q) ∈ elected (settle p n s) <-> elected_after (fun t q => (t, q) ∈ elected s) p n t q.
Proof.
  unfold settle, elected_after. cbn [elected]. case_bool_decide as Hl.
  - rewrite elem_of_cons. split; [intros [[= -> ->]|Hin]; auto|]. intros [Hin|(-> & -> & _)]; auto.
  - split; [by left|]. intros [Hin|(_ & _ & Hl')]; [done|congruence].
Qed.

Lemma settle_inv members V s p n n' :
  inv members V s -> nodes s !! p = Some n ->
  step_ok V (fun t q => (t, q) ∈ elected s) members p n n' -> inv members (votes_after V p n') (settle p n' s).
Proof.
  intros [] Hp [Hnode Hdisk Hout Hlead].
  assert (forall t c, votes_after V p n' p t c -> t <= (stored (disk n')).1 /\ (t = (stored (disk n')).1 -> c = (stored (disk n')).2)) as Hd.
  { intros t c [HV|(_ & Hst & _)]; [|rewrite Hst; cbn; split; [lia|done]].
    destruct (in_disk0 p n t c Hp HV) as [Hle Heq]. destruct (in_voter0 p t c HV) as [_ Hne].
    destruct Hdisk as [Hlt|[Ht [Hno|Hv]]]; [split; lia| |]; split; try lia; intros Htt; rewrite <- Ht in Htt; specialize (Heq Htt); congruence. }
  split.
  - cbn. rewrite dom_insert_L. apply elem_of_dom_2 in Hp. set_solver.
  - cbn [nodes settle]. intros q m Hq. destruct (decide (q = p)) as [->|Hne].
    + rewrite lookup_insert_eq in Hq. injection Hq as <-. eapply node_ok_mono; [done| |exact Hnode]. intros t q. apply elected_settle.
    + rewrite lookup_insert_ne in Hq by done. eapply node_ok_mono; [| |by apply in_node0]; [by left|].
      intros t q' Hin. apply elected_settle. by left.
  - cbn [nodes settle]. intros q m t c Hq HV. destruct (decide (q = p)) as [->|Hne].
    + rewrite lookup_insert_eq in Hq. injection Hq as <-. by apply Hd.
    + rewrite lookup_insert_ne in Hq by done. destruct HV as [HV|[-> _]]; [by eapply in_disk0|done].
  - intros q t c c' [HV|(-> & Hst & Hne)] [HV'|(Heq & Hst' & Hne')].
    + by eapply in_once0.
    + subst q. destruct (Hd t c (or_introl HV)) as [_ He]. rewrite Hst' in He. by apply He.
    + destruct (Hd t c' (or_introl HV')) as [_ He]. rewrite Hst in He. symmetry. by apply He.
    + congruence.
  - intros q t c [HV|(-> & _ & Hne)]; [by eapply in_voter0|]. split; [|done]. rewrite <- in_dom0. by apply elem_of_dom_2 in Hp.
  - cbn [net settle]. apply Forall_app. split; [|done]. eapply Forall_impl; [exact in_net0|]. intros m. apply msg_ok_mono. by left.
  - intros t q Hin. apply elected_settle in Hin.
    assert (forall t q, elected_by V members t q -> elected_by (votes_after V p n') members t q) as Hmono.
    { intros t' q' (Hself & Q & Hsz & HQ). split; [by left|]. exists Q. split; [done|]. intros x Hx. destruct (HQ x Hx). split; [done|by left]. }
    destruct Hin as [Hin|(-> & -> & Hl)]; [by apply Hmono, in_elected0|].
    destruct (Hlead Hl) as [HE|Hby]; [by apply Hmono, in_elected0|done].
Qed.

Lemma node_silent V E p n : node_ok V E p n -> node_ok V E p (n <| out := [] |>).
Proof. intros []. split; try done. by destruct ok_sync. Qed.

Lemma step_ok_silent V E members p n n' : step_ok V E members p (n <| out := [] |>) n' -> step_ok V E members p n n'.
Proof. intros []. by split. Qed.

Lemma exec_inv members V s p (m : M unit) s' :
  inv members V s -> steady s ->
  (forall n n' a, node_ok V (fun t q => (t, q) ∈ elected s) p n -> out n = [] -> term n < 2 ^ 64 - 1 ->
     csz n = Z.of_nat (size members) -> qn n = csz n ÷ 2 + 1 -> m n = Some (n', a) -> term n' < 2 ^ 64 ->
     step_ok V (fun t q => (t, q) ∈ elected s) members p n n') ->
  exec p m s = Some s' -> steady s' -> exists V', inv members V' s'.
Proof.
  intros Hinv Hst Hm (n & Hp & Hx)%bind_Some Hst'. apply bind_Some in Hx as ([n' []] & Hn' & [= <-]).
  destruct (Hst p n Hp) as (Hc & Hq & Ht). rewrite (in_dom _ _ _ Hinv) in Hc.
  destruct (Hst' p n') as (_ & _ & Ht'); [apply lookup_insert_eq|].
  eexists. eapply settle_inv; [done|done|]. apply step_ok_silent. eapply Hm; [|done|done|done|done|exact Hn'|lia].
  by apply node_silent, (in_node _ _ _ Hinv).
Qed.

Lemma step_inv members V s ev s' : inv members V s -> steady s -> step s ev = Some s' -> steady s' -> exists V', inv members V' s'.
Proof.
  intros Hinv Hst Hs Hst'. destruct ev; cbn [step] in Hs.
  - apply bind_Some in Hs as (m & Hm & Hx). eapply exec_inv; [done|done| |exact Hx|done].
    intros n n' a Hok Ho Ht _ _ Hd Ht'. eapply deliver_step; [done|lia|done| |exact Hd].
    pose proof (in_net _ _ _ Hinv) as Hnet. rewrite Forall_lookup in Hnet. by eapply Hnet.
  - eapply exec_inv; [done|done| |exact Hs|done]. intros n n' a Hok Ho Ht Hc Hq Hr Ht'.
    eapply (run_step_ok V _ members p n Hok Ht Ho Hc Hq); [|exact Hr|done]. intros q t c HV. by apply (in_voter _ _ _ Hinv q t c).
  - eapply exec_inv; [done|done| |exact Hs|done]. intros n n' a Hok Ho Ht _ _ Hr _.
    apply calm_step; [done|lia|done|by eapply calm_api_call].
  - eapply exec_inv; [done|done| |exact Hs|done]. intros n n' a Hok Ho Ht _ _ Hr _.
    apply calm_step; [done|lia|done|by eapply calm_catchup_step].
  - eapply exec_inv; [done|done| |exact Hs|done]. intros n n' a Hok Ho Ht _ _ Hr _.
    apply calm_step; [done|lia|done|by eapply calm_catchup_stop].
  - eapply exec_inv; [done|done| |exact Hs|done]. intros n n' a Hok Ho Ht _ _ Hr _.
    apply calm_step; [done|lia|done|]. injection Hr as <- _. apply calm_view. unfold same_view. split_and!; reflexivity.
  - apply bind_Some in Hs as (n & Hp & Hs). apply bind_Some in Hs as (r & Hi & Hs). destruct r as [|n']; [done|]. injection Hs as <-.
    destruct (Hst' p n') as (_ & _ & Ht'); [apply lookup_insert_eq|].
    eexists. eapply settle_inv; [done|done|]. eapply restart_step; [|exact Hi|lia]. by eapply ok_len, (in_node _ _ _ Hinv).
Qed.

Lemma starts_inv s : starts s -> steady s -> inv (dom (nodes s)) (fun _ _ _ => False) s.
Proof.
  intros (Hn & Hnet & He) Hst.
  assert (forall p n, nodes s !! p = Some n -> node_ok (fun _ _ _ => False) (fun t q => (t, q) ∈ elected s) p n /\ Forall (msg_ok (fun _ _ _ => False)) (out n)) as Hok.
  { intros p n Hp. destruct (Hn p n Hp) as (Hl & l & d & now & inbox & cfg & Hi). destruct (Hst p n Hp) as (_ & _ & Ht).
    eapply start_ok in Hi as (Hok & _ & Ho); [by split|done|lia]. }
  split; try done.
  - intros p n Hp. by apply Hok.
  - rewrite Hnet. apply Forall_concat, Forall_map, Forall_forall. intros [p n] Hp. apply elem_of_map_to_list in Hp. by apply (Hok p n).
  - intros t p Hin. rewrite He in Hin. by apply elem_of_nil in Hin.
Qed.

Lemma run_inv members evs : forall V s s',
  inv members V s -> (forall k sk, run s (take k evs) = Some sk -> steady sk) -> run s evs = Some s' -> exists V', inv members V' s'.
Proof.
  induction evs as [|ev evs IH]; intros V s s' Hinv Hst Hr; [injection Hr as <-; by eauto|].
  cbn [run] in Hr. apply bind_Some in Hr as (s1 & Hs & Hr).
  destruct (step_inv members V s ev s1) as [V1 Hinv1]; [done|by apply (Hst 0%nat)|done|apply (Hst 1%nat); cbn; by rewrite Hs|].
  eapply IH; [exact Hinv1| |exact Hr]. intros k sk Hk. apply (Hst (S k)). cbn [take run]. by rewrite Hs.
Qed.

Lemma quorums_meet (V : peer -> Z -> peer -> Prop) (members : gset peer) t p q :
  elected_by V members t p -> elected_by V members t q -> exists x, V x t p /\ V x t q.
Proof.
  intros (_ & Q1 & Hs1 & H1') (_ & Q2 & Hs2 & H2'). destruct (set_choose_or_empty (Q1 ∩ Q2)) as [[x Hx]|Hx].
  - apply elem_of_intersection in Hx as [Hx1 Hx2]. exists x. split; [by apply H1'|by apply H2'].
  - assert (size (Q1 ∪ Q2) <= size members)%nat; [|rewrite size_union in * by set_solver; lia].
    apply subseteq_size. intros x [Hx'|Hx']%elem_of_union; [by apply H1'|by apply H2'].
Qed.

Lemma elected_once members V s t p q : inv members V s -> (t, p) ∈ elected s -> (t, q) ∈ elected s -> p = q.
Proof. intros [] Hp Hq. destruct (quorums_meet V members t p q) as (x & HV & HV'); eauto. Qed.

(** What a group does can be checked for steadiness by running it. *)
Fixpoint steady_run (s : sys) (evs : list event) : bool :=
  bool_decide (map_Forall (fun _ n => csz n = Z.of_nat (size (dom (nodes s) : gset peer)) /\ qn n = csz n ÷ 2 + 1 /\ term n < 2 ^ 64 - 1) (nodes s)) &&
  match evs with
  | [] => true
  | ev :: evs => match step s ev with Some s' => steady_run s' evs | None => true end
  end.

Lemma steady_run_sound evs : forall s, steady_run s evs = true -> forall k sk, run s (take k evs) = Some sk -> steady sk.
Proof.
  induction evs as [|ev evs IH]; intros s Hs k sk Hk; cbn [steady_run] in Hs; apply andb_prop in Hs as [Hs%bool_decide_eq_true Hr].
  - rewrite take_nil in Hk. injection Hk as <-. exact Hs.
  - destruct k as [|k]; cbn [take run] in Hk; [injection Hk as <-; exact Hs|].
    apply bind_Some in Hk as (s1 & Hs1 & Hk). rewrite Hs1 in Hr. by eapply IH.
Qed.

(** C2. Election safety.  However the nodes of a group run, with messages that are late, repeated,
    reordered or lost and nodes that crash between events and start again from their disk, at most
    one node is the leader of a term: as long as the vote file is written when it should be, and
    the nodes agree on the size of the group. *)
Theorem election_safety s0 evs s :
  starts s0 -> (forall k sk, run s0 (take k evs) = Some sk -> steady sk) -> run s0 evs = Some s ->
  (forall t p q, (t, p) ∈ elected s -> (t, q) ∈ elected s -> p = q) /\
  (forall p n q m, nodes s !! p = Some n -> nodes s !! q = Some m -> state n = Leader -> state m = Leader -> term n = term m -> p = q).
Proof.
  intros H0s Hst Hr. destruct (run_inv (dom (nodes s0)) evs (fun _ _ _ => False) s0 s) as [V Hinv]; [|done|done|].
  { apply starts_inv; [done|by apply (Hst 0%nat)]. }
  pose proof (fun t p q => elected_once _ _ s t p q Hinv) as Hone. destruct Hinv.
  split; [exact Hone|]. intros p n q m Hp Hq Hln Hlm Ht. apply (Hone (term n)); [by apply (ok_lead _ _ _ _ (in_node0 p n Hp))|].
  rewrite Ht. by apply (ok_lead _ _ _ _ (in_node0 q m Hq)).
Qed.
End system.

(** ** A group of three *)

#[export] Instance mem_durable : DurableVotes mem_dir.
Proof.
  split; try done.
  - intros d. cbn. destruct (file_in _ d); auto.
  - intros d f b Hf. cbn. by rewrite bool_decide_false.
  - intros d f Hf. unfold readFile, removeFile, mem_files. by rewrite file_in_remove.
Qed.

Module Trio.
Definition A : peer := replicate 8 65.
Definition B : peer := replicate 8 66.
Definition C : peer := replicate 8 67.

(** What each of them starts with: the names of all, and a log with one entry of term 1. *)
Definition dir : mem_dir := [(PeerStateFile, encodePeerState (mkPeerState [A; B; C] 3 0))].
Definition log : mem_log :=
  mkLog 0 (match encode (newAppendEntry A 1 0 0 0 [mkEntry EntryNormal [7]]) [] with inr b => [b] | inl _ => [] end).
Definition config : RaftConfig := mkConfig false false false false.

Section group.
Context {D : Type} `{Files D}.

Definition started (p : peer) (d : D) : option (raft mem_log D) :=
  r ← initRaftNode p log d 1000 0 config; match r with inr n => Some n | inl _ => None end.

Definition group (a b c : D) : option sys :=
  na ← started A a; nb ← started B b; nc ← started C c; Some (mkSys (list_to_map [(A, na); (B, nb); (C, nc)]) [] []).
End group.

Definition round (p : peer) (ev : run_event) : event (L := mem_log) := Run p (fun _ => true) true ev.

(** [p] runs for election and asks [q], whose answer comes back; the messages are numbered from [i]. *)
Definition campaign (p q : peer) (i : nat) : list (event (L := mem_log)) :=
  [round p (EvElect false); round p EvQuit; round p EvVotes; Deliver q i; round q EvReqs; Deliver p (S i); round p EvVotes].

(** A is elected by B, which crashes and starts again; then C asks B in the same term. *)
Definition rivals : list (event (L := mem_log)) :=
  flat_map (fun p => [round p EvQuit; round p EvQuit]) [A; B; C] ++ campaign A B 0 ++
  [Restart B log 2000 0 config; round B EvQuit; round B EvQuit] ++ campaign C B 3.

(** C tries again in the next term. *)
Definition retry : list (event (L := mem_log)) := rivals ++ campaign C B 5.
End Trio.
Import Trio.

(** The messages of the start. *)
Definition first_messages {D} (s : sys (L := mem_log) (D := D)) : list message := concat (map (fun x => out (snd x)) (map_to_list (nodes s))).

Lemma group_starts {D} `{Files D} (a b c : D) s : group a b c = Some s -> first_messages s = [] -> starts s.
Proof.
  unfold group. destruct (started A a) as [na|] eqn:Ha; [|done]. destruct (started B b) as [nb|] eqn:Hb; [|done].
  destruct (started C c) as [nc|] eqn:Hc; [|done]. intros [= <-] Hout.
  assert (forall p d n, started p d = Some n -> exists l d now inbox cfg, initRaftNode p l d now inbox cfg = Some (inr n)) as Hi.
  { intros p d n Hn. exists log, d, 1000, 0, config. unfold started in Hn. apply bind_Some in Hn as ([|m] & Hm & Hn); [done|]. by injection Hn as <-. }
  split; [|split; [by symmetry|done]]. intros p n Hp. cbn [nodes] in Hp. rewrite !lookup_insert_Some, lookup_empty in Hp.
  destruct Hp as [[<- <-]|(_ & [[<- <-]|(_ & [[<- <-]|(_ & Hp)])])]; [by eauto|by eauto|by eauto|done].
Qed.

Definition ran (a b c : mem_dir) (evs : list event) : option (list message * bool * list (Z * peer)) :=
  s0 ← group a b c; s ← run s0 evs; Some (first_messages s0, steady_run s0 evs, elected s).

Lemma election_safety_witness :
  exists s0 s, group dir dir dir = Some s0 /\ run s0 retry = Some s /\ (2, A) ∈ elected s /\ (3, C) ∈ elected s /\
    forall t p q, (t, p) ∈ elected s -> (t, q) ∈ elected s -> p = q.
Proof.
  assert (ran dir dir dir retry = Some ([], true, [(3, C); (2, A)])) as Hr by (vm_compute; reflexivity).
  unfold ran in Hr. destruct (group dir dir dir) as [s0|] eqn:Hg; [|discriminate Hr]. cbn [mbind option_bind] in Hr.
  destruct (run s0 retry) as [s|] eqn:Hs; [|discriminate Hr]. apply (inj Some) in Hr. injection Hr as Hf Hst He.
  exists s0, s. split; [reflexivity|]. split; [exact Hs|]. rewrite He. split; [right; left|]. split; [left|]. rewrite <- He.
  apply (election_safety s0 retry s (group_starts _ _ _ s0 Hg Hf) (steady_run_sound retry s0 Hst) Hs).
Defined.


Lemma deliver_panics_witness :
  exists n, started A dir = Some n /\ deliver (mkMessage B (AppendReply A) NoSubj [0]) n = None.
Proof.
  assert ((n ← started A dir; Some (length (vote n), nid n, bool_decide (loc n = Stopped))) = Some (0%nat, A, false)) as Hr by (vm_compute; reflexivity).
  destruct (started A dir) as [n|]; [|discriminate Hr]. apply (inj Some) in Hr. injection Hr as Hv Hi Hl. exists n. split; [done|].
  apply (deliver_panics (mkMessage B (AppendReply A) NoSubj [0]) n); [rewrite Hv; lia|]. rewrite Hi. split_and!; try done.
  by apply bool_decide_eq_false in Hl.
Defined.

(** A node that cannot write its vote gives it all the same.  B cannot write when A asks for its
    vote, and starts again afterwards: then A and C both lead in term 2. *)
Example votes_lost :
  (s0 ← group (mkLossy [] dir) (mkLossy [false; true; true] dir) (mkLossy [] dir); s ← run s0 rivals; Some (elected s)) = Some [(2, C); (2, A)].
Proof. vm_compute. reflexivity. Qed.
