(* ===== verification/RaftBallot.v ===== *)
(** * Answers to vote requests (src/server/raft.go)

    What [processVoteRequest] answers and what it leaves in the node and in the store directory,
    for any node and any directory, one that cannot be written included. *)

From S2P Require Import Prelude Binary RecordUpdate RaftCodec Raft RaftFrame RaftRun RaftMemory RaftSystem.
Import RaftCodec Raft RaftRun RaftMemory Trio.

Section ballot.
Context {L D : Type} `{WAL L} `{Files D} `{RaftEnv}.
Notation raft := (raft L D).
Implicit Types n : raft.

(** A directory in which nothing that is written to the file of the vote stays. *)
Definition vote_file_stuck : Prop :=
  forall (d : D) b, readFile (writeFile d TermVoteFile b).1 TermVoteFile = readFile d TermVoteFile.

Definition demotes (s s' : RaftState) : Prop := s' = s \/ s' = Follower \/ s' = Closed.

(** What the steps of the handler before its answer leave alone. *)
Record ballot (n n' : raft) : Prop := {
  ba_log : nid n' = nid n /\ pindex n' = pindex n /\ pterm n' = pterm n /\ initializing n' = initializing n /\ wal n' = wal n;
  ba_vote : term n' = term n /\ vote n' = vote n;
  ba_out : out n' = out n;
  ba_role : demotes (state n) (state n');
  ba_file : vote_file_stuck -> readFile (disk n') TermVoteFile = readFile (disk n) TermVoteFile }.

#[local] Instance ballot_preorder : PreOrder ballot.
Proof.
  split; [intros n; split; try done; by left|]. intros n1 n2 n3 [(?&?&?&?&?) [? ?] Ho Hr Hf] [(?&?&?&?&?) [? ?] Ho' Hr' Hf'].
  split; [split_and!; congruence|split; congruence|congruence| |intros Hs; by rewrite Hf', Hf].
  destruct Hr' as [->|[-> | ->]]; [done|right; by left|right; by right].
Qed.

(** A step that does not panic on a vote that fits and leaves all that alone. *)
Definition Steps {A} (m : M L D A) : Prop :=
  forall n, (length (vote n) <= idLen)%nat -> exists n' a, m n = Some (n', a) /\ ballot n n'.

Lemma Steps_bind {A B} (m : M L D A) (k : A -> M L D B) : Steps m -> (forall a, Steps (k a)) -> Steps (m ≫= k).
Proof.
  intros Hm Hk n Hn. destruct (Hm n Hn) as (n1 & a & E & Hb). destruct (Hk a n1) as (n' & b & E' & Hb2); [by rewrite (proj2 (ba_vote _ _ Hb))|].
  exists n', b. split; [|by transitivity n1]. cbv [mbind M_bind]. by rewrite E.
Qed.

Lemma Steps_ret {A} (a : A) : Steps (mret a).
Proof. intros n _. exists n, a. split; [done|reflexivity]. Qed.

Lemma Steps_gets {A} (f : raft -> A) : Steps (gets f).
Proof. intros n _. exists n, (f n). split; [done|reflexivity]. Qed.

Lemma Steps_get : Steps get.
Proof. apply (Steps_gets id). Qed.

Lemma Steps_modify f : (forall n, ballot n (f n)) -> Steps (modify f).
Proof. intros Hf n _. exists (f n), tt. by split. Qed.

Ltac ballot_field := split; [by split_and!|done|done|unfold demotes; cbn; auto|done].
Ltac steps :=
  repeat first
    [ progress eauto 1 with keeps nocore
    | lazymatch goal with
      | |- Steps (let _ := _ in _) => cbv zeta
      | |- Steps (mret _) => apply Steps_ret
      | |- Steps get => apply Steps_get
      | |- Steps (gets _) => apply Steps_gets
      | |- Steps (mbind _ _) => apply Steps_bind; [|intros]
      | |- Steps (modify _) => apply Steps_modify; intros; ballot_field
      | |- Steps (when ?b _) => destruct b; cbn [when]
      | |- Steps (match ?x with _ => _ end) => destruct x
      end ].

Lemma setWriteErrLocked_steps e : Steps (setWriteErrLocked e).
Proof. unfold setWriteErrLocked, shutdown. steps. Qed.
#[local] Hint Resolve setWriteErrLocked_steps : keeps.

Lemma write_vote_steps b : Steps (stat_write_file TermVoteFile b).
Proof.
  assert (Steps (write_file TermVoteFile b)) as Hw.
  { intros n _. unfold write_file. destruct (writeFile (disk n) TermVoteFile b) as [d e] eqn:E. eexists _, e. split; [done|].
    split; [by split_and!|done|done|by left|]. intros Hs. cbn. rewrite <- (Hs (disk n) b). by rewrite E. }
  unfold stat_write_file. steps; exact Hw.
Qed.
#[local] Hint Resolve write_vote_steps : keeps.

Lemma writeTermVote_steps : Steps writeTermVote.
Proof.
  intros n Hn. unfold writeTermVote. assert (term_vote (term n) (vote n) = Some (le_put 8 (term n) ++ vote n)) as Hb by (unfold term_vote; by rewrite (proj2 (Nat.ltb_ge _ _))).
  match goal with |- exists n' a, (get ≫= ?k) n = _ /\ _ => change (exists n' a, k n n = Some (n', a) /\ ballot n n') end.
  cbv beta. rewrite Hb. cbn [lift]. match goal with |- exists n' a, ?m n = _ /\ _ => enough (Steps m) as Hs by (by apply Hs) end. steps.
Qed.
#[local] Hint Resolve writeTermVote_steps : keeps.

(** A step down ends as a follower or closed. *)
Definition down (n : raft) : Prop := state n = Follower \/ state n = Closed.

Lemma ballot_down n n' : ballot n n' -> down n -> down n'.
Proof. intros Hb Hd. unfold down. destruct (ba_role _ _ Hb) as [-> | ?]; done. Qed.

Lemma lead_change_steps pst st : Steps (lead_change pst st).
Proof. unfold lead_change, updateLeadChange. steps. Qed.
#[local] Hint Resolve lead_change_steps : keeps.

Lemma switch_follower_down n : (length (vote n) <= idLen)%nat -> exists n' b, switchState Follower n = Some (n', b) /\ ballot n n' /\ down n'.
Proof.
  intros Hn. unfold switchState. cbv [gets]. unfold mbind, M_bind at 1. destruct (bool_decide_reflect (state n = Closed)) as [Hc|Hc].
  - exists n, false. split; [done|]. split; [reflexivity|by right].
  - assert (Steps (lead_change (state n) Follower ≫= (fun leadChange => writeTermVote;; mret leadChange))) as Hs by steps.
    specialize (Hs (n <| state := Follower |>)). destruct (Hs Hn) as (n' & b & E & Hb). exists n', b. split; [exact E|]. split; [|eapply ballot_down; [exact Hb|by left]].
    transitivity (n <| state := Follower |>); [ballot_field|done].
Qed.

Lemma stepdown_down p n : (length (vote n) <= idLen)%nat -> exists n', stepdownLocked p n = Some (n', tt) /\ ballot n n' /\ down n'.
Proof.
  intros Hn. unfold stepdownLocked, switchToFollowerLocked. cbv [get]. unfold mbind, M_bind at 1. destruct (isClosed n) eqn:Hc.
  - exists n. split; [done|]. split; [reflexivity|]. right. by apply bool_decide_eq_true in Hc.
  - assert (Steps (aflr <~ 0;; leaderState <~ false;; lxfer <~ false;; acks <~ ∅;; updateLeader p)) as Hs by (unfold updateLeader, updateLeadChange; steps).
    destruct (Hs n Hn) as (n1 & [] & E & Hb). destruct (switch_follower_down n1) as (n' & b & E' & Hb' & Hd); [by rewrite (proj2 (ba_vote _ _ Hb))|].
    exists n'. split; [|split; [by transitivity n1|done]]. change ((aflr <~ 0;; leaderState <~ false;; lxfer <~ false;; acks <~ ∅;; updateLeader p) n = Some (n1, tt)) in E.
    revert E. cbv [mbind M_bind modify]. intros ->. by rewrite E'.
Qed.

Lemma cancelCatchup_steps : Steps cancelCatchup.
Proof. unfold cancelCatchup, cancelCatchupSignal, unsubscribe. steps. Qed.

(** ** The handler *)

Definition with_vote (t : Z) (v : peer) (n : raft) : raft := n <| term := t |> <| vote := v |>.

Lemma ballot_with_vote t v n n' : ballot n n' -> ballot (with_vote t v n) (with_vote t v n').
Proof. intros [Hl Hv Ho Hr Hf]. by split. Qed.

Lemma ballot_same_vote n : ballot n (with_vote (term n) (vote n) n).
Proof. ballot_field. Qed.

(** The vote of the node in the term of the request. *)
Definition vote_then (vr : voteRequest) (n : raft) : peer := if term n <? vr_term vr then noVote else vote n.

Definition free (vr : voteRequest) (n : raft) : bool :=
  bool_decide (vote_then vr n = noVote) || bool_decide (vote_then vr n = vr_candidate vr).

Definition up_to_date (vr : voteRequest) (n : raft) : bool :=
  (pterm n <? vr_lastTerm vr) || ((vr_lastTerm vr =? pterm n) && (pindex n <=? vr_lastIndex vr)).

Definition grants (vr : voteRequest) (n : raft) : bool := (term n <=? vr_term vr) && free vr n && up_to_date vr n.

Lemma advance_steps vr n : (length (vote n) <= idLen)%nat -> term n <= vr_term vr ->
  exists n1, when (term n <? vr_term vr) (when (negb (isFollower n)) (stepdownLocked noLeader);; cancelCatchup;; new_term (vr_term vr);; writeTermVote) n = Some (n1, tt) /\
    ballot (with_vote (vr_term vr) (vote_then vr n) n) n1 /\ (term n < vr_term vr -> down n1).
Proof.
  intros Hn Hle. unfold vote_then. destruct (Z.ltb_spec (term n) (vr_term vr)) as [Hlt|Hge]; cbn [when].
  - assert (exists a, when (negb (isFollower n)) (stepdownLocked noLeader) n = Some (a, tt) /\ ballot n a /\ down a) as (a & Ea & Ha & Hd).
    { unfold isFollower. destruct (bool_decide_reflect (state n = Follower)); cbn [when negb]; [|by apply stepdown_down]. exists n. split; [done|]. split; [reflexivity|by left]. }
    assert (length (vote a) <= idLen)%nat as Hla by (by rewrite (proj2 (ba_vote _ _ Ha))). destruct (cancelCatchup_steps a Hla) as (b & [] & Eb & Hb).
    destruct (writeTermVote_steps (with_vote (vr_term vr) noVote b)) as (n1 & [] & E1 & H1'); [cbn; lia|]. exists n1. split.
    + cbv [mbind M_bind]. rewrite Ea, Eb. exact E1.
    + split; [transitivity (with_vote (vr_term vr) noVote b); [apply ballot_with_vote; by transitivity a|done]|]. intros _. eapply ballot_down; [exact H1'|]. exact (ballot_down _ _ Hb Hd).
  - exists n. split; [done|]. assert (vr_term vr = term n) as -> by lia. split; [|lia]. ballot_field.
Qed.
Lemma bind_run {A B} (m : M L D A) (k : A -> M L D B) n n1 a : m n = Some (n1, a) -> (m ≫= k) n = k a n1.
Proof. intros E. cbv [mbind M_bind]. by rewrite E. Qed.

(** A write of the vote and the answer. *)
Definition answered (vr : voteRequest) (granted empty : bool) (n n' : raft) : Prop :=
  exists n1, ballot n n1 /\ n' = n1 <| out := out n1 ++ [mkMessage (nid n1) (vr_reply vr) NoSubj (encode_vs (mkVoteResponse (term n1) (nid n1) granted empty))] |>.

(** What the node has after a request: the higher term, the vote in it, one more message, and the
    log it had. *)
Definition vote_answer (vr : voteRequest) (n n' : raft) : Prop :=
  term n' = Z.max (term n) (vr_term vr) /\
  vote n' = (if grants vr n then vr_candidate vr else vote_then vr n) /\
  out n' = out n ++ [mkMessage (nid n) (vr_reply vr) NoSubj (encode_vs (mkVoteResponse (term n') (nid n) (grants vr n)
    ((pindex n =? 0) && negb ((term n <=? vr_term vr) && free vr n && initializing n))))] /\
  nid n' = nid n /\ pindex n' = pindex n /\ pterm n' = pterm n /\ wal n' = wal n /\
  demotes (state n) (state n') /\ (term n < vr_term vr -> down n').

Lemma answered_exact vr n n1 n' granted empty : ballot (with_vote (vr_term vr) (vote n1) n) n1 -> term n <= vr_term vr ->
  grants vr n = granted -> (pindex n =? 0) && negb ((term n <=? vr_term vr) && free vr n && initializing n) = empty ->
  vote n1 = (if granted then vr_candidate vr else vote_then vr n) -> (term n < vr_term vr -> down n1) -> answered vr granted empty n1 n' ->
  vote_answer vr n n' /\ (vote_file_stuck -> readFile (disk n') TermVoteFile = readFile (disk n) TermVoteFile).
Proof.
  intros Hb Hle Hg He Hv Hd (n2 & Hb2 & ->). pose proof (transitivity Hb Hb2) as [(Hi & Hp & Ht & _ & Hw) [Hterm Hvote] Ho Hr Hf]. cbn in Hi, Hp, Ht, Hw, Hterm, Hvote, Ho, Hr, Hf.
  unfold vote_answer. cbn. rewrite Hi, Hp, Ht, Hw, Ho, Hterm, Hg, He. split; [|exact Hf]. split_and!; try done; [lia|by rewrite Hvote, Hv|].
  intros Hlt. exact (ballot_down _ _ Hb2 (Hd Hlt)).
Qed.

(** C40. A request for a vote is always answered, once, and as the terms, the vote and the logs say:
    the vote is granted exactly when the request is not of an older term, the node has no vote for
    another in that term, and the candidate's log is at least as new as its own.  The node is then
    in the higher term with that vote, has its log, and is a follower or closed if the term is new.
    The answer does not depend on the store directory: if no write to the file of the vote ever
    stays, the answer is the same and the file is what it was. *)
Theorem vote_request_exact vr n : (length (vote n) <= idLen)%nat -> (length (vr_candidate vr) <= idLen)%nat ->
  exists n', processVoteRequest vr n = Some (n', tt) /\ vote_answer vr n n' /\
    (vote_file_stuck -> readFile (disk n') TermVoteFile = readFile (disk n) TermVoteFile).
Proof.
  intros Hn Hc. unfold processVoteRequest. rewrite (bind_run get _ n n n eq_refl). cbv zeta. destruct (Z.ltb_spec (vr_term vr) (term n)) as [Hlt|Hge].
  { eexists. split; [reflexivity|]. split; [|done]. unfold vote_answer, grants, vote_then. rewrite (proj2 (Z.leb_gt _ _) Hlt), (proj2 (Z.ltb_ge _ _)) by lia. cbn. rewrite andb_true_r.
    split_and!; try done; [lia|by left|lia]. }
  destruct (advance_steps vr n Hn Hge) as (n1 & E1 & Hb1 & Hd1). rewrite (bind_run _ _ _ _ _ E1), (bind_run get _ n1 n1 n1 eq_refl).
  pose proof Hb1 as [(_ & Hp & Ht & Hi & _) [Hterm Hvote] _ _ _]. cbn in Hp, Ht, Hi, Hterm, Hvote. rewrite Hvote, Hp, Ht, Hi.
  change (bool_decide (vote_then vr n = noVote) || bool_decide (vote_then vr n = vr_candidate vr)) with (free vr n).
  change ((pterm n <? vr_lastTerm vr) || ((vr_lastTerm vr =? pterm n) && (pindex n <=? vr_lastIndex vr))) with (up_to_date vr n).
  assert (grants vr n = free vr n && up_to_date vr n) as Hg by (unfold grants; by rewrite (proj2 (Z.leb_le _ _) Hge)).
  assert ((if free vr n && (pindex n =? 0) && initializing n then false else pindex n =? 0) = (pindex n =? 0) && negb ((term n <=? vr_term vr) && free vr n && initializing n)) as ->
    by (rewrite (proj2 (Z.leb_le _ _) Hge); by destruct (free vr n), (pindex n =? 0), (initializing n)).
  destruct (free vr n && up_to_date vr n) eqn:Eg.
  - destruct (writeTermVote_steps (with_vote (vr_term vr) (vr_candidate vr) n1)) as (n3 & [] & E3 & Hb3); [done|]. eexists. split; [rewrite (bind_run (term <~ _) _ n1 _ tt eq_refl), (bind_run (vote <~ _) _ _ _ tt eq_refl); unfold with_vote in E3; rewrite (bind_run _ _ _ _ _ E3); reflexivity|].
    eapply (answered_exact vr n (with_vote (vr_term vr) (vr_candidate vr) n1)); [exact (ballot_with_vote (vr_term vr) (vr_candidate vr) _ _ Hb1)|done|exact Hg|reflexivity|done|exact Hd1|].
    by exists n3.
  - eexists. split; [reflexivity|]. eapply (answered_exact vr n n1); [by rewrite Hvote|done|exact Hg|reflexivity|done|done|]. exists n1. split; [reflexivity|done].
Qed.
End ballot.

(** ** A directory that is gone *)

(** Every write fails because the directory is missing. *)
Record missing_dir : Type := mkMissing { last_seen : mem_dir }.

#[export] Instance missing_files : Files missing_dir := {|
  statFile d f := statFile (last_seen d) f;
  writeFile d f b := (d, Some errNotExist);
  readFile d f := readFile (last_seen d) f;
  removeFile d f := d;
  readSnapDir d := readSnapDir (last_seen d) |}.

(** B grants A its vote in term 2 and goes on, and starts again without that vote. *)
Lemma vote_request_exact_witness :
  exists n n', started B (mkMissing dir) = Some n /\ processVoteRequest (mkVoteRequest 2 1 1 A (VoteReply A)) n = Some (n', tt) /\
    vote n' = A /\ term n' = 2 /\ state n' = Follower /\ readFile (disk n') TermVoteFile = inl errNotExist.
Proof.
  assert ((n ← started B (mkMissing dir); Some (length (vote n), grants (mkVoteRequest 2 1 1 A (VoteReply A)) n, term n, readFile (disk n) TermVoteFile,
    (x ← processVoteRequest (mkVoteRequest 2 1 1 A (VoteReply A)) n; Some (state x.1)))) = Some (0%nat, true, 1, inl errNotExist, Some Follower)) as Hr by (vm_compute; reflexivity).
  destruct (started B (mkMissing dir)) as [n|]; [|discriminate Hr]. apply (inj Some) in Hr. injection Hr as Hv Hg Ht Hf Hs.
  destruct (vote_request_exact (mkVoteRequest 2 1 1 A (VoteReply A)) n) as (n' & E & (Hterm & Hvote & _) & Hdisk); [rewrite Hv; apply Nat.le_0_l|done|].
  exists n, n'. rewrite E in Hs. injection Hs as Hs. rewrite Hg in Hvote. rewrite Ht in Hterm. split_and!; try done. rewrite Hdisk; [done|]. by intros d b.
Defined.
