(* ===== verification/RaftCommit.v ===== *)
(** * Commits

    When a leader moves its commit index, and what a commit hands to the upper layer. *)

From S2P Require Import Prelude Binary RecordUpdate RaftCodec Raft RaftFrame RaftLog RaftAppend RaftRun RaftMemory RaftSystem.
Import RaftCodec Raft RaftLog RaftAppend RaftRun RaftMemory Trio.

(** What a log promises: to compact it to [i] does not change what is from [i] on. *)
Class LogLaws (L : Type) `{WAL L} : Prop := {
  compact_load l i j : i <= j -> LoadMsg (Compact l i).1 j = LoadMsg l j }.

Section commit.
Context {L D : Type} `{WAL L} `{Files D} `{RaftEnv}.
Notation M := (M L D).
Notation raft := (raft L D).
Implicit Types n : raft.

(** ** What leaves the log and the commits alone *)

Definition log_view (n : raft) : L * Z * Z * Z * list (option CommittedEntry) * Z * gmap Z appendEntry :=
  (wal n, pterm n, pindex n, commit n, applyq n, papplied n, pae n).

Definition still (n n' : raft) : Prop := log_view n' = log_view n.

#[local] Instance still_preorder : PreOrder still.
Proof. split; [done|]. intros n1 n2 n3 E1 E2. unfold still in *. congruence. Qed.

Ltac still_field := reflexivity.
Ltac still_parts := keeps_with still_field.
Notation Still := (Keeps still).

Lemma still_shutdown : Still shutdown.
Proof. intros n n' a. unfold shutdown. cbv [mbind M_bind get]. destruct (isClosed n); intros [= <- <-]; reflexivity. Qed.
#[local] Hint Resolve still_shutdown : keeps.

Lemma still_setWriteErrLocked e : Still (setWriteErrLocked e).
Proof. unfold setWriteErrLocked. still_parts. Qed.
#[local] Hint Resolve still_setWriteErrLocked : keeps.

Lemma still_write_file f b : Still (write_file f b).
Proof. intros n n' a. unfold write_file. destruct (writeFile (disk n) f b) as [d e]. intros [= <- <-]. reflexivity. Qed.
#[local] Hint Resolve still_write_file : keeps.

Lemma still_stat_write_file f b : Still (stat_write_file f b).
Proof. unfold stat_write_file. still_parts. Qed.
#[local] Hint Resolve still_stat_write_file : keeps.

Lemma still_writeTermVote : Still writeTermVote.
Proof. unfold writeTermVote. still_parts. Qed.

Lemma still_writePeerState ps : Still (writePeerState ps).
Proof. unfold writePeerState. still_parts. Qed.
#[local] Hint Resolve still_writeTermVote still_writePeerState : keeps.

Lemma still_lead_change pstate : Still (lead_change pstate Follower).
Proof. unfold lead_change, updateLeadChange. rewrite (bool_decide_false (Follower = Leader)) by done. cbn [negb andb]. still_parts. Qed.
#[local] Hint Resolve still_lead_change : keeps.

Lemma still_stepdown p : Still (stepdownLocked p).
Proof. unfold stepdownLocked, switchToFollowerLocked, updateLeader, switchState, updateLeadChange. still_parts. Qed.
#[local] Hint Resolve still_stepdown : keeps.

Lemma still_sendRPC subj reply data : Still (sendRPC subj reply data).
Proof. unfold sendRPC. still_parts. Qed.
#[local] Hint Resolve still_sendRPC : keeps.

Lemma still_loadLastSnapshot : Still loadLastSnapshot.
Proof. unfold loadLastSnapshot, remove_file. still_parts. Qed.
#[local] Hint Resolve still_loadLastSnapshot : keeps.

Lemma still_catchupFollower ar : Still (catchupFollower ar).
Proof. unfold catchupFollower, sendSnapshotToFollower, catchup_first. still_parts. Qed.

Lemma still_trackPeer p : Still (trackPeer p).
Proof. unfold trackPeer, ProposeAddPeer. still_parts. Qed.
#[local] Hint Resolve still_catchupFollower still_trackPeer : keeps.

Lemma still_addPeer p : Still (addPeer p).
Proof. unfold addPeer, adjustClusterSizeAndQuorum. still_parts. Qed.

Lemma still_removePeer p : Still (removePeer p).
Proof. unfold removePeer, adjustClusterSizeAndQuorum. still_parts. Qed.

Lemma still_processPeerState ps : Still (processPeerState ps).
Proof. unfold processPeerState. still_parts. Qed.
#[local] Hint Resolve still_addPeer still_removePeer still_processPeerState : keeps.

Lemma still_commit n n' : still n n' -> commit n' = commit n.
Proof. unfold still, log_view. by intros [= _ _ _ ? _ _ _]. Qed.

(** ** The quorum of a commit *)

(** What hearing of a peer does not change. *)
Lemma trackPeer_spec p n n' a :
  trackPeer p n = Some (n', a) ->
  state n' = state n /\ term n' = term n /\ commit n' = commit n /\ acks n' = acks n /\ qn n' = qn n /\ nid n' = nid n /\
  dom (peers n') = dom (peers n).
Proof.
  unfold trackPeer. intros (n0 & m & [= <- <-] & Hm)%bind_inv.
  apply bind_inv in Hm as (n1 & [] & Hp & Hm).
  assert (state n1 = state n /\ term n1 = term n /\ commit n1 = commit n /\ acks n1 = acks n /\ qn n1 = qn n /\ nid n1 = nid n /\ dom (peers n1) = dom (peers n)) as Hs.
  { destruct (peers n !! p) as [ps|] eqn:Hps; injection Hp as <-; cbn; [|done]. split_and!; try done.
    rewrite dom_insert_L. apply elem_of_dom_2 in Hps. set_solver. }
  assert (forall f, (fun n : raft => (state n, term n, commit n, acks n, qn n, nid n, peers n)) = f -> f n' = f n1) as Hf.
  { intros f <-. destruct (isLeader n && _ && _); cbn [when] in Hm; [|by injection Hm as <-].
    apply bind_inv in Hm as (n2 & e & Ha & Hm). injection Hm as <-. unfold ProposeAddPeer in Ha.
    cbv [mbind M_bind get mret M_ret modify] in Ha. destruct (negb (isLeader n1)); [by injection Ha as <-|].
    destruct (werr n1); [by injection Ha as <-|]. destruct (0 <? membChangeIndex n1); by injection Ha as <-. }
  specialize (Hf _ eq_refl). injection Hf as -> -> -> -> -> -> ->. exact Hs.
Qed.

Lemma trackResponse_spec ar n n' tracked :
  trackResponse ar n = Some (n', tracked) ->
  commit n' = commit n /\ qn n' = qn n /\ nid n' = nid n /\ dom (peers n') = dom (peers n) /\
  (tracked = true ->
     isLeader n = true /\ commit n < ar_index ar /\ ar_term ar = term n /\ ar_peer ar ∈ dom (peers n) /\
     acks n' !! ar_index ar = Some ({[ar_peer ar]} ∪ default ∅ (acks n !! ar_index ar))).
Proof.
  unfold trackResponse. intros (n0 & m & [= <- <-] & Hm)%bind_inv. destruct (isLeader n); cbn [negb] in Hm; [|by injection Hm as <- <-].
  apply bind_inv in Hm as (n1 & [] & Hp & Hm). apply bind_inv in Hm as (n2 & [] & Hq & Hm).
  assert (commit n1 = commit n /\ qn n1 = qn n /\ nid n1 = nid n /\ dom (peers n1) = dom (peers n)) as (Hc1 & Hq1 & Hi1 & Hd1).
  { destruct (peers n !! ar_peer ar) as [ps|] eqn:Hps; [|by injection Hp as <-]. destruct (li ps <? ar_index ar); injection Hp as <-; [|done].
    cbn. split_and!; try done. rewrite dom_insert_L. apply elem_of_dom_2 in Hps. set_solver. }
  assert (commit n2 = commit n1 /\ qn n2 = qn n1 /\ nid n2 = nid n1 /\ peers n2 = peers n1) as (Hc2 & Hq2 & Hi2 & Hd2)
    by (destruct (progress n !! ar_peer ar); by injection Hq as <-).
  destruct (Z.leb_spec (ar_index ar) (commit n)) as [|Hlt]; cbn [orb] in Hm; [injection Hm as <- <-; split_and!; congruence|].
  destruct (Z.eqb_spec (ar_term ar) (term n)) as [Ht|]; cbn [negb] in Hm; [|injection Hm as <- <-; split_and!; congruence].
  destruct (bool_decide_reflect (peers n !! ar_peer ar = None)) as [|Hin]; [injection Hm as <- <-; split_and!; congruence|].
  injection Hm as <- <-. cbn. rewrite lookup_insert_eq. split_and!; try congruence. intros _. split_and!; try done.
  by apply elem_of_dom, not_eq_None_Some.
Qed.

(** C13. A leader moves its commit index for a response only when the response is a success in its
    own term, for an index that is not committed yet, and from a known peer, and when the peers
    that acknowledged this index in this term, with the leader if it is a member, are a quorum. *)
Theorem leader_commits online ar n n' a :
  processAppendEntryResponse online ar n = Some (n', a) -> commit n' <> commit n ->
  isLeader n = true /\ ar_success ar = true /\ ar_term ar = term n /\ commit n < ar_index ar /\ ar_peer ar ∈ dom (peers n) /\
  qn n <= Z.of_nat (size ({[ar_peer ar]} ∪ default ∅ (acks n !! ar_index ar) : gset peer)) + (if bool_decide (nid n ∈ dom (peers n)) then 1 else 0).
Proof.
  intros (n1 & [] & Ht & Hm)%bind_inv Hc. apply trackPeer_spec in Ht as (Hs & Htm & Hc1 & Ha & Hq & Hi & Hd).
  destruct (ar_success ar) eqn:Hsucc.
  2: { assert (Still (if negb (bool_decide (ar_reply ar = NoSubj)) then catchupFollower ar else
         n ← get; when (term n <? ar_term ar) (new_term (ar_term ar);; writeTermVote;; stepdownLocked noLeader))) as Hk by (unfold new_term; still_parts).
       destruct Hc. rewrite <- Hc1. by eapply still_commit, Hk. }
  apply bind_inv in Hm as (n2 & tracked & Hr & Hm). apply trackResponse_spec in Hr as (Hc2 & Hq2 & Hi2 & Hd2 & Htr).
  destruct tracked; [|by apply bind_inv in Hm as (n3 & r & [= <- <-] & Hm); cbn in Hm; injection Hm as <- _; congruence].
  destruct (Htr eq_refl) as (Hl & Hlt & Hterm & Hp & Hacks).
  apply bind_inv in Hm as (n3 & r & Hm' & Hm). unfold tryCommit in Hm'. apply bind_inv in Hm' as (n4 & m & [= <- <-] & Hm').
  destruct (Z.ltb_spec (ack_count n2 (ar_index ar)) (qn n2)) as [|Hle].
  { injection Hm' as <- <-. cbn in Hm. injection Hm as <- _. congruence. }
  unfold isLeader in *. rewrite Hs in Hl. rewrite Hc1 in Hlt. rewrite Hd in Hp. split_and!; [exact Hl|done|congruence|exact Hlt|exact Hp|].
  unfold ack_count in Hle. rewrite Hacks in Hle. cbn [default from_option id] in Hle. rewrite Ha in Hle. rewrite Hq2, Hq in Hle.
  etransitivity; [exact Hle|]. apply Z.add_le_mono_l. rewrite Hi2, Hi.
  assert (bool_decide (peers n2 !! nid n = None) = negb (bool_decide (nid n ∈ dom (peers n)))) as ->; [|destruct (bool_decide (nid n ∈ dom (peers n))); cbn; lia].
  rewrite <- bool_decide_not. apply bool_decide_ext. rewrite <- Hd, <- Hd2. symmetry. apply not_elem_of_dom.
Qed.

(** ** What a commit hands over *)

(** What the upper layer gets of an entry. *)
Definition delivered (e : Entry) : option Entry :=
  if Type_ e =? EntryOldSnapshot then Some (mkEntry EntrySnapshot (Data e)) else
  if (Type_ e =? EntryNormal) || (Type_ e =? EntrySnapshot) || (Type_ e =? EntryAddPeer) || (Type_ e =? EntryRemovePeer) then Some e else None.

(** The entry of an index, from the cache or the log, and what is handed over for it. *)
Definition entry_at (n : raft) (i : Z) : option appendEntry :=
  match pae n !! i with
  | Some ae => Some ae
  | None => match loadEntry n i with Some (inr ae) => Some ae | _ => None end
  end.

Definition contents (n : raft) (i : Z) : list Entry := omap delivered (default [] (ae_entries <$> entry_at n i)).

Definition handed (n : raft) (js : list Z) : list (option CommittedEntry) := map (fun i => Some (mkCommitted i (contents n i))) js.

Context `{!LogLaws L}.

(** The log from above [c] on, and the cache, are as they were; there may be a snapshot up to [c]. *)
Record above (c : Z) (n n' : raft) : Prop := {
  ab_commit : commit n' = commit n;
  ab_applyq : applyq n' = applyq n;
  ab_pae : pae n' = pae n;
  ab_load : forall i, c < i -> LoadMsg (wal n') i = LoadMsg (wal n) i;
  ab_papplied : papplied n' <= Z.max (papplied n) c }.

#[local] Instance above_preorder c : PreOrder (above c).
Proof.
  split; [by split; try done; lia|]. intros n1 n2 n3 [] []. split; try congruence; [|lia].
  intros i Hi. rewrite ab_load1, ab_load0; done.
Qed.

Lemma still_above c n n' : still n n' -> above c n n'.
Proof. unfold still, log_view. intros [= Hw _ _ Hc Ha Hp Hpae]. split; try done; [by rewrite Hw|lia]. Qed.

Lemma Keeps_still_above {A} c (m : M A) : Still m -> Keeps (above c) m.
Proof. intros Hm n n' a Ha. by eapply still_above, Hm. Qed.

Lemma above_installSnapshot snap c : 0 <= lastIndex snap <= c -> c < 2 ^ 64 - 1 -> Keeps (above c) (installSnapshot snap).
Proof.
  intros Hl Hc. unfold installSnapshot. apply Keeps_bind; [apply _|apply Keeps_still_above, still_write_file|]. intros [err|].
  { apply Keeps_still_above. still_parts. }
  apply Keeps_get_bind. intros n. apply keeps_at_bind; [apply _| |].
  { apply keeps_at_of, Keeps_still_above. unfold remove_file. still_parts. }
  intros n1 _ _. apply keeps_at_of. apply Keeps_bind; [apply _|apply Keeps_still_above; still_parts|]. intros _.
  intros n2 n' a (n0 & m & [= <- <-] & Hm)%bind_inv.
  pose proof (fun j => compact_load (wal n2) (u64 (lastIndex snap + 1)) j) as Hload.
  destruct (Compact (wal n2) (u64 (lastIndex snap + 1))) as [l e]. cbn [fst] in Hload.
  apply bind_inv in Hm as (n3 & [] & [= <-] & Hm).
  assert (forall i, c < i -> LoadMsg l i = LoadMsg (wal n2) i) as Habove.
  { intros i Hi. apply Hload. unfold u64. rewrite Z.mod_small; lia. }
  transitivity (n2 <| wal := l |>); [by split; try done; cbn; lia|].
  destruct e as [err|].
  - assert (Still (setWriteErrLocked err;; snapshotting <~ false;; mret (Some err))) as Hk by still_parts. by eapply still_above, Hk.
  - apply bind_inv in Hm as (n4 & [] & [= <-] & Hm). apply bind_inv in Hm as (n5 & [] & [= <-] & Hm).
    apply bind_inv in Hm as (n6 & [] & [= <-] & Hm). injection Hm as <- <-. split; try done. cbn. lia.
Qed.

(** The entries [es] are handed over after [committed], or a part of them when the leader was removed. *)
Definition hands (committed : list Entry) (es : list Entry) (out : list Entry) (err : option rerr) : Prop :=
  (err = None /\ out = committed ++ omap delivered es) \/
  (err = Some errNodeRemoved /\ exists part, out = committed ++ part /\ part `prefix_of` omap delivered es).

Lemma hands_some e x es committed out err : delivered e = Some x -> hands (committed ++ [x]) es out err -> hands committed (e :: es) out err.
Proof.
  intros Hd. unfold hands. cbn [omap list_omap]. rewrite Hd. intros [[-> ->]|(-> & part & -> & Hp)].
  - left. by rewrite <- app_assoc.
  - right. split; [done|]. exists (x :: part). rewrite <- app_assoc. split; [done|by apply prefix_cons].
Qed.

Lemma hands_none e es committed out err : delivered e = None -> hands committed es out err -> hands committed (e :: es) out err.
Proof. intros Hd. unfold hands. cbn [omap list_omap]. by rewrite Hd. Qed.

Lemma apply_entries_spec ae es : forall committed n n' out err,
  0 <= ae_commit ae < 2 ^ 64 - 1 -> apply_entries ae es committed n = Some (n', (out, err)) ->
  above (ae_commit ae) n n' /\ hands committed es out err.
Proof.
  set (c := ae_commit ae). induction es as [|e es IH]; intros committed n n' out err Hc Hm; cbn [apply_entries] in Hm.
  { injection Hm as <- <- <-. split; [reflexivity|]. left. split; [done|]. by rewrite app_nil_r. }
  assert (forall (m : M unit) x com, Keeps (above c) m -> delivered e = x -> com = committed ++ option_list x ->
    (m;; apply_entries ae es com) n = Some (n', (out, err)) -> above c n n' /\ hands committed (e :: es) out err) as Hgo.
  { intros m x com Hk Hx -> (n1 & [] & Hm1 & Hm2)%bind_inv. apply IH in Hm2 as [Ha Hh]; [|done]. split; [by transitivity n1; [eapply Hk|]|].
    destruct x as [x|]; [by eapply hands_some|]. rewrite app_nil_r in Hh. by eapply hands_none. }
  assert (forall x, (if Type_ e =? EntryOldSnapshot then Some (mkEntry EntrySnapshot (Data e)) else
    if (Type_ e =? EntryNormal) || (Type_ e =? EntrySnapshot) || (Type_ e =? EntryAddPeer) || (Type_ e =? EntryRemovePeer) then Some e else None) = x -> delivered e = x) as Hdel by done.
  destruct (Z.eqb_spec (Type_ e) EntryNormal) as [Ht|_].
  { apply (Hgo (mret tt) (Some e) (committed ++ [e])); [apply Keeps_ret, _|apply Hdel; by rewrite Ht|done|exact Hm]. }
  destruct (Z.eqb_spec (Type_ e) EntryOldSnapshot) as [Ht|_].
  { apply (Hgo (mret tt) (Some (mkEntry EntrySnapshot (Data e))) (committed ++ [mkEntry EntrySnapshot (Data e)])); [apply Keeps_ret, _|by apply Hdel|done|exact Hm]. }
  destruct (Z.eqb_spec (Type_ e) EntrySnapshot) as [Ht|_].
  { apply bind_inv in Hm as (n0 & m & [= <- <-] & Hm). refine (Hgo _ (Some e) _ _ _ _ Hm); [|by apply Hdel|done]. apply Keeps_when; [apply _|].
    apply Keeps_bind; [apply _| |intros _; apply Keeps_ret, _]. apply above_installSnapshot; cbn; unfold c in *; lia. }
  destruct (Z.eqb_spec (Type_ e) EntryPeerState) as [Ht|_].
  { apply bind_inv in Hm as (n0 & m & [= <- <-] & Hm). refine (Hgo _ None _ _ _ _ Hm); [|apply Hdel; by rewrite Ht|by rewrite app_nil_r]. apply Keeps_still_above. still_parts. }
  destruct (Z.eqb_spec (Type_ e) EntryAddPeer) as [Ht|_].
  { apply (Hgo (addPeer (Data e);; membChangeIndex <~ 0) (Some e) (committed ++ [e])); [apply Keeps_still_above; still_parts|by apply Hdel|done|].
    rewrite bind_assoc. exact Hm. }
  destruct (Z.eqb_spec (Type_ e) EntryRemovePeer) as [Ht|_].
  2: { apply (Hgo (mret tt) None committed); [apply Keeps_ret, _|by apply Hdel|by rewrite app_nil_r|exact Hm]. }
  specialize (Hdel _ eq_refl). cbn [orb] in Hdel.
  apply bind_inv in Hm as (n1 & [] & Hm1 & Hm). apply bind_inv in Hm as (n2 & [] & [= <-] & Hm).
  apply bind_inv in Hm as (n0 & m & [= <- <-] & Hm).
  assert (above c n (n1 <| membChangeIndex := 0 |>)) as Hab.
  { transitivity n1; [|by apply still_above]. by eapply still_above, still_removePeer. }
  destruct (_ && _).
  - injection Hm as <- <- <-. split; [done|]. right. split; [done|]. exists [e]. split; [done|].
    cbn [omap list_omap]. rewrite Hdel. by exists (omap delivered es).
  - apply IH in Hm as [Ha Hh]; [|done]. split; [by etransitivity|by eapply hands_some].
Qed.

(** The entries from [i] on. *)
Definition same_entries (i : Z) (n n' : raft) : Prop := forall j, i < j -> entry_at n' j = entry_at n j.

Lemma above_entries c i n n' : c <= i -> above c n n' -> same_entries i n n'.
Proof. intros Hc [] j Hj. unfold entry_at, loadEntry. rewrite ab_pae0, ab_load0 by lia. done. Qed.

(** An index that a commit passes over: it is part of the snapshot and not cached. *)
Definition skips (n : raft) (i : Z) : Prop := pae n !! i = None /\ i < papplied n.

(** After index [i] nothing is passed over that was not before. *)
Definition fewer_skips (i : Z) (n n' : raft) : Prop := forall j, i < j -> skips n' j -> skips n j.

Lemma commit_entry_spec i ae n n' err :
  0 <= ae_commit ae < i -> i < 2 ^ 64 -> commit_entry i ae n = Some (n', err) ->
  commit n' = i /\ same_entries i n n' /\ pae n' = pae n /\ papplied n' <= Z.max (papplied n) i /\
  exists es, applyq n' = applyq n ++ [Some (mkCommitted i es)] /\ hands [] (ae_entries ae) es err.
Proof.
  intros Hc Hi (n1 & [] & [= <-] & Hm)%bind_inv. apply bind_inv in Hm as (n2 & [es err'] & Hm1 & Hm).
  apply bind_inv in Hm as (n3 & [] & [= <-] & Hm). injection Hm as <- <-.
  apply apply_entries_spec in Hm1 as [Hab Hh]; [|lia]. pose proof Hab as []. cbn. split_and!; [done| |done|cbn in ab_papplied0; lia|by rewrite ab_applyq0; eauto].
  intros j Hj. transitivity (entry_at n2 j); [reflexivity|]. by apply (above_entries (ae_commit ae) i _ _ ltac:(lia) Hab j).
Qed.

(** Giving up the log does not hand anything over, apart from the mark that ends a catchup. *)
Definition same_queue (n n' : raft) : Prop := applyq n' = applyq n.

#[local] Instance same_queue_preorder : PreOrder same_queue.
Proof. split; [done|]. intros n1 n2 n3 E1 E2. unfold same_queue in *. congruence. Qed.

Ltac queue_parts := keeps_with still_field.

Lemma queue_of_still {A} (m : M A) : Still m -> Keeps same_queue m.
Proof. intros Hm n n' a E%Hm. unfold still, log_view in E. by injection E as _ _ _ _ ? _ _. Qed.

Lemma queue_stepdown p : Keeps same_queue (stepdownLocked p).
Proof. apply queue_of_still, still_stepdown. Qed.
Lemma queue_setWriteErrLocked e : Keeps same_queue (setWriteErrLocked e).
Proof. apply queue_of_still, still_setWriteErrLocked. Qed.
Lemma queue_loadLastSnapshot : Keeps same_queue loadLastSnapshot.
Proof. apply queue_of_still, still_loadLastSnapshot. Qed.
#[local] Hint Resolve queue_stepdown queue_setWriteErrLocked queue_loadLastSnapshot : keeps.

Lemma queue_resetWAL : Keeps same_queue resetWAL.
Proof. unfold resetWAL, truncateWAL, truncated, remove_file. queue_parts. Qed.
#[local] Hint Resolve queue_resetWAL : keeps.

Lemma cancelCatchup_queue n n' a : cancelCatchup n = Some (n', a) -> exists mark, (mark = [] \/ mark = [None]) /\ applyq n' = applyq n ++ mark.
Proof.
  unfold cancelCatchup, cancelCatchupSignal, unsubscribe. cbv [mbind M_bind get mret M_ret modify]. destruct (catchup n) as [c|] eqn:E.
  - destruct (c_sub c) as [sub|]; cbn; rewrite E; destruct (c_signal c); cbn; intros [= <- <-]; cbn; first [by exists [None]; auto | by exists []; rewrite app_nil_r; auto].
  - cbn. rewrite E. intros [= <- <-]. exists []. rewrite app_nil_r. auto.
Qed.

Lemma load_failed_queue b n0 n n' err :
  (when b (when (isLeader n0) (stepdownLocked (selectNextLeader n0));; resetWAL;; cancelCatchup);; mret (Some errEntryLoadFailed)) n = Some (n', err) ->
  err = Some errEntryLoadFailed /\ exists mark, (mark = [] \/ mark = [None]) /\ applyq n' = applyq n ++ mark.
Proof.
  intros (n1 & [] & Hm & E)%bind_inv. injection E as <- <-. split; [done|]. destruct b; cbn [when] in Hm; [|injection Hm as <-; exists []; rewrite app_nil_r; auto].
  apply bind_inv in Hm as (n2 & [] & Hm1 & Hm). apply bind_inv in Hm as (n3 & [] & Hm2 & Hm).
  apply cancelCatchup_queue in Hm as (mark & Hmark & ->). exists mark. split; [done|].
  assert (applyq n3 = applyq n2) as -> by (by eapply queue_resetWAL).
  assert (Keeps same_queue (when (isLeader n0) (stepdownLocked (selectNextLeader n0)))) as Hk by queue_parts. by rewrite (Hk _ _ _ Hm1).
Qed.

(** The outcomes of one index. *)
Definition one_commit (i : Z) (n n' : raft) (err : option rerr) : Prop :=
  (err = Some errNodeClosed /\ n' = n) \/
  (err = None /\ skips n i /\ commit n' = commit n /\ applyq n' = applyq n /\ same_entries i n n' /\ fewer_skips i n n') \/
  (err = Some errEntryLoadFailed /\ entry_at n i = None /\ exists mark, (mark = [] \/ mark = [None]) /\ applyq n' = applyq n ++ mark) \/
  (commit n' = i /\ same_entries i n n' /\ fewer_skips i n n' /\ exists ae es, entry_at n i = Some ae /\
     applyq n' = applyq n ++ [Some (mkCommitted i es)] /\ hands [] (ae_entries ae) es err).

Lemma applyCommit_spec i n n' err :
  commit n < i -> (forall ae, entry_at n i = Some ae -> 0 <= ae_commit ae < i) -> i < 2 ^ 64 ->
  applyCommit i n = Some (n', err) -> one_commit i n n' err.
Proof.
  intros Hi Hc Hb (n0 & m & [= <- <-] & Hm)%bind_inv. destruct (isClosed n); [left; by injection Hm as <- <-|]. right.
  destruct (Z.leb_spec i (commit n)); [lia|]. apply bind_inv in Hm as (n1 & [] & Hw & Hm).
  assert (exists a, n1 = n <| acks := a |>) as [a ->] by (destruct (isLeader n); injection Hw as <-; [by eexists|exists (acks n); by destruct n]).
  unfold entry_at in Hc. destruct (pae n !! i) as [ae|] eqn:Hpae.
  - apply bind_inv in Hm as (n2 & err' & Hm1 & Hm). apply commit_entry_spec in Hm1 as (E1 & E2 & E3 & E4 & es & E5 & Hh); [|by apply Hc|done].
    apply bind_inv in Hm as (n3 & [] & [= <-] & Hm). injection Hm as <- <-. right; right. split_and!; [done| | |].
    + intros j Hj. transitivity (entry_at n2 j); [|by apply E2]. unfold entry_at. cbn. by rewrite lookup_delete_ne by lia.
    + intros j Hj [Hs1 Hs2]. cbn in Hs1, Hs2, E3, E4. rewrite lookup_delete_ne, E3 in Hs1 by lia. split; [done|lia].
    + exists ae, es. split_and!; [unfold entry_at; by rewrite Hpae|done|done].
  - destruct (Z.ltb_spec i (papplied n)) as [Hlt|Hge]; [left; injection Hm as <- <-; split_and!; [done|by split|done|done|by intros j _|by intros j _]|right].
    destruct (loadEntry n i) as [[e|ae]|] eqn:Hl; [|right|done].
    + apply load_failed_queue in Hm as [-> Hq]. left. split_and!; [done|unfold entry_at; by rewrite Hpae, Hl|exact Hq].
    + apply commit_entry_spec in Hm as (E1 & E2 & E3 & E4 & es & E5 & Hh); [|by apply Hc|done]. split_and!; [done|done| |].
      * intros j Hj [Hs1 Hs2]. rewrite E3 in Hs1. cbn in Hs1, E4. split; [done|lia].
      * exists ae, es. split_and!; [unfold entry_at; by rewrite Hpae, Hl|done|done].
Qed.

(** The indexes [js] of those from [i] to below [j], without some that are passed over. *)
Definition picks (n : raft) (i j : Z) (js : list Z) : Prop := js `sublist_of` seqZ i (j - i) /\ forall x, i <= x < j -> x ∈ js \/ skips n x.

Lemma picks_nil n i : picks n i i [].
Proof. split; [apply sublist_nil_l|lia]. Qed.

Lemma picks_cons n n1 i j js : i < j -> fewer_skips i n n1 -> picks n1 (i + 1) j js -> picks n i j (i :: js) /\ (skips n i -> picks n i j js).
Proof.
  intros Hij Hf [Hs Hx]. assert (seqZ i (j - i) = i :: seqZ (i + 1) (j - (i + 1))) as E by (rewrite seqZ_cons by lia; do 2 f_equal; lia).
  assert (forall x, i <= x < j -> x = i \/ x ∈ js \/ skips n x) as Hx'.
  { intros x Hx'. destruct (decide (x = i)); [by left|right]. destruct (Hx x) as [|Hsk]; [lia|by left|]. right. apply (Hf x); [lia|done]. }
  unfold picks. rewrite E. split; [|intros Hsk]; (split; [by constructor|]); intros x [->|[?|?]]%Hx'; set_solver.
Qed.

(** The outcome of committing the indexes from [i] to [to]: those up to below [j] are handed
    over in order, without those that the snapshot has.  All of them are done; or the node is
    closed at [j]; or [j] is the removal of the leader, and a part of it is handed over; or [j]
    cannot be loaded. *)
Definition committed_range (i to : Z) (n n' : raft) (err : option rerr) : Prop :=
  exists j js, i <= j <= to + 1 /\ picks n i j js /\
    ((err = None /\ j = to + 1 /\ commit n' = default (commit n) (last js) /\ applyq n' = applyq n ++ handed n js) \/
     (err = Some errNodeClosed /\ commit n' = default (commit n) (last js) /\ applyq n' = applyq n ++ handed n js) \/
     (err = Some errNodeRemoved /\ j <= to /\ commit n' = j /\ exists part, part `prefix_of` contents n j /\
        applyq n' = applyq n ++ handed n js ++ [Some (mkCommitted j part)]) \/
     (err = Some errEntryLoadFailed /\ j <= to /\ entry_at n j = None /\ exists mark, (mark = [] \/ mark = [None]) /\ applyq n' = applyq n ++ handed n js ++ mark)).

Lemma committed_range_cons i to n n1 n' err new :
  same_entries i n n1 -> fewer_skips i n n1 -> applyq n1 = applyq n ++ handed n new ->
  (new = [i] /\ commit n1 = i) \/ (new = [] /\ commit n1 = commit n /\ skips n i) ->
  committed_range (i + 1) to n1 n' err -> committed_range i to n n' err.
Proof.
  intros He Hf Ha Hnew (j & js & Hj & Hp & Hcase). destruct (picks_cons n n1 i j js ltac:(lia) Hf Hp) as [Hp1 Hp2].
  exists j, (new ++ js). split; [lia|]. split; [destruct Hnew as [[-> _]|(-> & _ & Hs)]; [exact Hp1|by apply Hp2]|].
  assert (forall x, x ∈ js -> i < x) as Hgt by (intros x Hx; destruct Hp as [Hs _]; apply (sublist_subseteq _ _ Hs) in Hx; apply elem_of_seqZ in Hx; lia).
  assert (handed n1 js = handed n js) as Eh by (apply map_ext_in; intros x Hx%list_elem_of_In%Hgt; unfold contents; by rewrite He).
  assert (forall l, applyq n1 ++ handed n1 js ++ l = applyq n ++ handed n (new ++ js) ++ l) as Eq.
  { intros l. rewrite Ha, Eh. unfold handed at 3. rewrite map_app. by rewrite <- !app_assoc. }
  assert (applyq n1 ++ handed n1 js = applyq n ++ handed n (new ++ js)) as Eq0 by (specialize (Eq []); by rewrite !app_nil_r in Eq).
  assert (default (commit n1) (last js) = default (commit n) (last (new ++ js))) as Ec.
  { destruct Hnew as [[-> ->]|(-> & -> & _)]; [|done]. cbn [app]. rewrite last_cons. by destruct (last js). }
  rewrite Eq0, Ec in Hcase. destruct Hcase as [(-> & -> & Hc & Hq)|[(-> & Hc & Hq)|[(-> & Hle & Hc & part & Hpre & Hq)|(-> & Hle & Hn & mark & Hm & Hq)]]].
  - by left.
  - by right; left.
  - right; right; left. split_and!; [done|done|done|]. exists part. split; [unfold contents in *; by rewrite <- He by lia|]. by rewrite Hq, Eq.
  - right; right; right. split_and!; [done|done|by rewrite <- He by lia|]. exists mark. split; [done|]. by rewrite Hq, Eq.
Qed.

Lemma apply_commits_spec count : forall i n n' err,
  commit n < i -> i + Z.of_nat count <= 2 ^ 64 ->
  (forall k ae, i <= k < i + Z.of_nat count -> entry_at n k = Some ae -> 0 <= ae_commit ae < k) ->
  apply_commits count i n = Some (n', err) -> committed_range i (i + Z.of_nat count - 1) n n' err.
Proof.
  induction count as [|count IH]; intros i n n' err Hi Hb He Hm.
  { injection Hm as <- <-. exists i, []. split; [lia|]. split; [apply picks_nil|]. left. split_and!; [done|lia|done|]. cbn. by rewrite app_nil_r. }
  cbn [apply_commits] in Hm. apply bind_inv in Hm as (n1 & e & Hm1 & Hm).
  apply applyCommit_spec in Hm1; [|done|intros ae; apply He; lia|lia].
  assert (forall new, same_entries i n n1 -> fewer_skips i n n1 -> applyq n1 = applyq n ++ handed n new ->
    (new = [i] /\ commit n1 = i) \/ (new = [] /\ commit n1 = commit n /\ skips n i) -> e = None -> committed_range i (i + Z.of_nat (S count) - 1) n n' err) as Hgo.
  { intros new Hs Hf Ha Hnew ->. apply (committed_range_cons i _ n n1 n' err new); [done..|]. replace (i + Z.of_nat (S count) - 1) with (i + 1 + Z.of_nat count - 1) by lia.
    apply IH; [destruct Hnew as [[_ ->]|(_ & -> & _)]; lia|lia| |done]. intros k ae Hk. rewrite Hs by lia. apply He. lia. }
  destruct Hm1 as [[-> ->]|[(-> & Hsk & Hc & Ha & Hs & Hf)|[(-> & Hn & Hq)|(Hc & Hs & Hf & ae & es & Hae & Ha & Hh)]]].
  - injection Hm as <- <-. exists i, []. split; [lia|]. split; [apply picks_nil|]. right; left. split_and!; [done|done|]. cbn. by rewrite app_nil_r.
  - apply (Hgo []); [done|done|cbn; by rewrite app_nil_r|by right|done].
  - injection Hm as <- <-. exists i, []. split; [lia|]. split; [apply picks_nil|]. right; right; right. split_and!; [done|lia|done|exact Hq].
  - assert (contents n i = omap delivered (ae_entries ae)) as Econ by (unfold contents; by rewrite Hae).
    destruct Hh as [[-> ->]|(-> & part & -> & Hpre)].
    + apply (Hgo [i]); [done|done|cbn; by rewrite Econ|by left|done].
    + injection Hm as <- <-. exists i, []. split; [lia|]. split; [apply picks_nil|]. right; right; left. split_and!; [done|lia|done|].
      exists part. split; [by rewrite Econ|exact Ha].
Qed.

(** C16. Commits hand over the log.  A node that moves its commit index up to [to] appends to the
    queue of the upper layer what the indexes hold, in order and each once, and nothing else; it
    passes over only those that its last snapshot has and that are not cached, which are none when
    the snapshot is not ahead of the commits.  It stops early, having handed over what comes
    before, only when the node is closed, when the leader commits its own removal, of which then a
    part is handed over, or when an entry cannot be loaded; then at most the mark that ends a
    catchup is queued.  In the log an entry is behind the commit index that it carries. *)
Theorem commits_in_order n to n' err :
  0 <= commit n <= to -> to < 2 ^ 64 ->
  (forall i ae, commit n < i <= to -> entry_at n i = Some ae -> 0 <= ae_commit ae < i) ->
  apply_range (commit n + 1) to n = Some (n', err) ->
  committed_range (commit n + 1) to n n' err /\ (papplied n <= commit n + 1 -> forall i, commit n < i -> ~ skips n i).
Proof.
  intros Hc Hb He Hm. split; [|intros Hp i Hi [_ ?]; lia]. unfold apply_range in Hm. replace (to - (commit n + 1) + 1) with (to - commit n) in Hm by lia.
  replace to with (commit n + 1 + Z.of_nat (Z.to_nat (to - commit n)) - 1) at 1 by lia. apply apply_commits_spec; [lia|lia| |done].
  intros k ae Hk. apply He. lia.
Qed.
End commit.

(** ** The leader of the group of three *)

#[export] Instance mem_log_laws : LogLaws mem_log.
Proof.
  split. intros [b rs] i j Hij. unfold LoadMsg, Compact, mem_wal. cbn [fst]. unfold log_last, base, zlen. cbn [compacted records]. destruct (Z.leb_spec i (Z.of_nat b)); [done|].
  cbn [compacted records]. rewrite length_drop, lookup_drop, Z2Nat.id by lia.
  repeat match goal with |- context [?x <? ?y] => destruct (Z.ltb_spec x y) | |- context [?x <=? ?y] => destruct (Z.leb_spec x y) end; try lia; try done.
  by replace (Z.to_nat (i - 1 - Z.of_nat b) + Z.to_nat (j - (i - 1) - 1))%nat with (Z.to_nat (j - Z.of_nat b - 1)) by lia.
Qed.

Definition leading : option (raft mem_log mem_dir) := s0 ← group dir dir dir; s ← run s0 (take 13 rivals); nodes s !! A.

Lemma leader_commits_witness :
  exists n n', leading = Some n /\ commit n = 0 /\ commit n' = 2 /\
    processAppendEntryResponse (fun _ => true) (newAppendEntryResponse 2 2 B true) n = Some (n', tt) /\
    qn n <= Z.of_nat (size ({[B]} ∪ default ∅ (acks n !! 2) : gset peer)) + (if bool_decide (nid n ∈ dom (peers n)) then 1 else 0).
Proof.
  assert ((n ← leading; '(n', _) ← processAppendEntryResponse (fun _ => true) (newAppendEntryResponse 2 2 B true) n; Some (commit n, commit n')) = Some (0, 2)) as Hr
    by (vm_compute; reflexivity).
  destruct leading as [n|]; [|discriminate Hr]. cbn [mbind option_bind] in Hr.
  destruct (processAppendEntryResponse (fun _ => true) (newAppendEntryResponse 2 2 B true) n) as [[n' []]|] eqn:Hm; [|discriminate Hr].
  apply (inj Some) in Hr. injection Hr as Hc Hc'. exists n, n'. split_and!; [done|done|done|exact Hm|].
  apply (leader_commits (fun _ => true) (newAppendEntryResponse 2 2 B true) n n' tt Hm). rewrite Hc, Hc'. discriminate.
Defined.

Lemma commits_in_order_witness :
  exists n n', leading = Some n /\ apply_range (commit n + 1) 2 n = Some (n', None) /\ commit n = 0 /\ committed_range (commit n + 1) 2 n n' None.
Proof.
  assert ((n ← leading; '(n', e) ← apply_range (commit n + 1) 2 n; Some (commit n, ae_commit <$> entry_at n 1, ae_commit <$> entry_at n 2, e)) =
    Some (0, Some 0, Some 0, None)) as Hr by (vm_compute; reflexivity).
  destruct leading as [n|]; [|discriminate Hr]. cbn [mbind option_bind] in Hr.
  destruct (apply_range (commit n + 1) 2 n) as [[n' e]|] eqn:Hm; [|discriminate Hr].
  apply (inj Some) in Hr. injection Hr as Hc He1 He2 He. rewrite He in Hm. exists n, n'. split_and!; [done|exact Hm|exact Hc|].
  apply fmap_Some in He1 as (a1 & He1 & Hc1). apply fmap_Some in He2 as (a2 & He2 & Hc2).
  apply (commits_in_order n 2 n' None); [lia|lia| |exact Hm].
  intros i ae Hi Hae. assert (i = 1 \/ i = 2) as [-> | ->] by lia; [rewrite He1 in Hae|rewrite He2 in Hae]; injection Hae as <-; lia.
Defined.
