(* ===== verification/RaftReport.v ===== *)
(** * What a follower reports

    A leader counts the answers of its followers towards the quorum of a commit.  Here: an answer
    of success comes from the last step of [processAppendEntry] only, for a new entry, and names
    the end of the log that the follower has then. *)

From S2P Require Import Prelude Binary RecordUpdate RaftCodec RaftCodecSpec Raft RaftFrame RaftLog RaftAppend RaftRun RaftMemory RaftSystem RaftCommit.
Import RaftCodec Raft RaftLog RaftAppend RaftRun RaftMemory Trio.

Section report.
Context {L D : Type} `{WAL L} `{Files D} `{RaftEnv}.
Notation M := (M L D).
Notation raft := (raft L D).
Implicit Types n : raft.

(** An answer that [decodeAppendEntryResponse] reads as a success. *)
Definition success (m : message) : Prop := exists ar, decodeAppendEntryResponse (m_data m) = Some ar /\ ar_success ar = true.

(** Answers may be sent, but none of success. *)
Definition mute (n n' : raft) : Prop :=
  nid n' = nid n /\ exists new, out n' = out n ++ new /\ Forall (fun m => ~ success m) new.

#[local] Instance mute_preorder : PreOrder mute.
Proof.
  split.
  - intros n. split; [done|]. exists []. by rewrite app_nil_r.
  - intros n1 n2 n3 (Hi & a & Ha & Fa) (Hi' & b & Hb & Fb). split; [congruence|]. exists (a ++ b).
    split; [by rewrite Hb, Ha, app_assoc|by apply Forall_app].
Qed.

Lemma mute_view n n' : nid n' = nid n -> out n' = out n -> mute n n'.
Proof. intros Hi Ho. split; [done|]. exists []. by rewrite Ho, app_nil_r. Qed.

Ltac mute_field := by apply mute_view.
Ltac mute_parts := keeps_with mute_field.
Notation Mute := (Keeps mute).

Lemma mute_shutdown : Mute shutdown.
Proof. unfold shutdown. mute_parts. Qed.
#[local] Hint Resolve mute_shutdown : keeps.

Lemma mute_setWriteErrLocked e : Mute (setWriteErrLocked e).
Proof. unfold setWriteErrLocked. mute_parts. Qed.
#[local] Hint Resolve mute_setWriteErrLocked : keeps.

Lemma mute_write_file f b : Mute (write_file f b).
Proof. intros n n' a. unfold write_file. destruct (writeFile (disk n) f b) as [d e]. intros [= <- <-]. mute_field. Qed.
#[local] Hint Resolve mute_write_file : keeps.

Lemma mute_stat_write_file f b : Mute (stat_write_file f b).
Proof. unfold stat_write_file. mute_parts. Qed.
#[local] Hint Resolve mute_stat_write_file : keeps.

Lemma mute_writeTermVote : Mute writeTermVote.
Proof. unfold writeTermVote. mute_parts. Qed.

Lemma mute_writePeerState ps : Mute (writePeerState ps).
Proof. unfold writePeerState. mute_parts. Qed.
#[local] Hint Resolve mute_writeTermVote mute_writePeerState : keeps.

Lemma mute_updateLeader p : Mute (updateLeader p).
Proof. unfold updateLeader, updateLeadChange. mute_parts. Qed.
#[local] Hint Resolve mute_updateLeader : keeps.

Lemma mute_stepdown p : Mute (stepdownLocked p).
Proof. unfold stepdownLocked, switchToFollowerLocked, switchState, lead_change, updateLeadChange. mute_parts. Qed.

Lemma mute_cancelCatchup : Mute cancelCatchup.
Proof. unfold cancelCatchup, cancelCatchupSignal, unsubscribe. mute_parts. Qed.

Lemma mute_processPeerState ps : Mute (processPeerState ps).
Proof. unfold processPeerState. mute_parts. Qed.

Lemma mute_addPeer p : Mute (addPeer p).
Proof. unfold addPeer, adjustClusterSizeAndQuorum. mute_parts. Qed.

Lemma mute_removePeer p : Mute (removePeer p).
Proof. unfold removePeer, adjustClusterSizeAndQuorum. mute_parts. Qed.

Lemma mute_loadLastSnapshot : Mute loadLastSnapshot.
Proof. unfold loadLastSnapshot, remove_file. mute_parts. Qed.

Lemma mute_installSnapshot snap : Mute (installSnapshot snap).
Proof. unfold installSnapshot, remove_file. mute_parts. Qed.
#[local] Hint Resolve mute_stepdown mute_cancelCatchup mute_processPeerState mute_addPeer mute_removePeer mute_loadLastSnapshot mute_installSnapshot : keeps.

Lemma mute_truncateWAL t i : Mute (truncateWAL t i).
Proof. unfold truncateWAL, truncated, remove_file. mute_parts. Qed.
#[local] Hint Resolve mute_truncateWAL : keeps.

Lemma mute_storeToWAL ae : Mute (storeToWAL ae).
Proof. unfold storeToWAL, resetWAL. mute_parts. Qed.

Lemma mute_cachePendingEntry ae : Mute (cachePendingEntry ae).
Proof. unfold cachePendingEntry. mute_parts. Qed.

Lemma mute_apply_entries ae es : forall committed, Mute (apply_entries ae es committed).
Proof. induction es as [|e es IH]; intros committed; cbn [apply_entries]; mute_parts. Qed.
#[local] Hint Resolve mute_storeToWAL mute_cachePendingEntry mute_apply_entries : keeps.

Lemma mute_applyCommit i : Mute (applyCommit i).
Proof. unfold applyCommit, commit_entry, resetWAL. mute_parts. Qed.
#[local] Hint Resolve mute_applyCommit : keeps.

Lemma mute_apply_commits count : forall i, Mute (apply_commits count i).
Proof. induction count as [|count IH]; intros i; cbn [apply_commits]; mute_parts. Qed.

Lemma mute_createCatchup ae : Mute (createCatchup ae).
Proof. unfold createCatchup, unsubscribe. mute_parts. Qed.

Lemma mute_sendCatchupSignal : Mute sendCatchupSignal.
Proof. unfold sendCatchupSignal. mute_parts. Qed.

Lemma mute_resetInitializing : Mute resetInitializing.
Proof. unfold resetInitializing, setObserverLocked. mute_parts. Qed.
#[local] Hint Resolve mute_apply_commits mute_createCatchup mute_sendCatchupSignal mute_resetInitializing : keeps.

(** ** The answers of [processAppendEntry] *)

Lemma response_read t i p ok :
  exists ar, decodeAppendEntryResponse (encode_ar (newAppendEntryResponse t i p ok)) = Some ar /\ ar_success ar = ok.
Proof.
  unfold decodeAppendEntryResponse. assert (length (encode_ar (newAppendEntryResponse t i p ok)) = appendEntryResponseLen) as Hl.
  { unfold encode_ar. rewrite !length_app, !length_le_put, length_copy. unfold zeros. by rewrite length_replicate. }
  rewrite Hl. cbn [Nat.eqb negb appendEntryResponseLen]. eexists. split; [done|]. cbn [ar_success].
  unfold encode_ar. rewrite !app_assoc, lookup_app_r; rewrite !length_app, !length_le_put, length_copy; unfold zeros; rewrite length_replicate; [|unfold idLen; lia].
  by destruct ok.
Qed.

Lemma mute_refuse subj reply t i : Mute (respond subj reply t i false).
Proof.
  apply Keeps_get_bind. intros n n' a [= <-]. split; [done|]. eexists. split; [done|]. constructor; [|done].
  intros (ar & Hr & Hs). destruct (response_read t i (nid n) false) as (ar' & Hr' & Hs'). assert (Some ar = Some ar') by (rewrite <- Hr, <- Hr'; reflexivity). congruence.
Qed.
#[local] Hint Resolve mute_refuse : keeps.

Lemma mute_pae_roles ae : Mute (pae_roles ae).
Proof. unfold pae_roles, yield_to, new_term. mute_parts. Qed.

Lemma mute_pae_term ae sub isNew : Mute (pae_term ae sub isNew).
Proof. unfold pae_term, new_term. mute_parts. Qed.

Lemma mute_pae_catchup ae isNew cu : Mute (pae_catchup ae isNew cu).
Proof. unfold pae_catchup, catchupStalled. mute_parts. Qed.

Lemma mute_pae_leader ae isNew : Mute (pae_leader ae isNew).
Proof. unfold pae_leader, updateLeadChange. mute_parts. Qed.

Lemma mute_pae_paused sub cu : Mute (pae_paused sub cu).
Proof. unfold pae_paused. mute_parts. Qed.

Lemma mute_pae_consistency ae isNew cu : Mute (pae_consistency ae isNew cu).
Proof. unfold pae_consistency, pae_conflict, pae_snapshot, resetWAL. mute_parts. Qed.

Lemma mute_pae_store ae sub : Mute (pae_store ae sub).
Proof. unfold pae_store. mute_parts. Qed.

Lemma mute_pae_entry isNew e : Mute (pae_entry isNew e).
Proof. unfold pae_entry, xferCampaign. mute_parts. Qed.

Lemma mute_pae_commit ae cu : Mute (pae_commit ae cu).
Proof. unfold pae_commit, apply_range. mute_parts. Qed.
#[local] Hint Resolve mute_pae_roles mute_pae_term mute_pae_catchup mute_pae_leader mute_pae_paused mute_pae_consistency mute_pae_store mute_pae_entry mute_pae_commit : keeps.

(** ** The end of the log *)

Definition log_end (n : raft) : Z * Z := (pterm n, pindex n).

(** It stays, or the log is reset. *)
Definition keeps_end (n n' : raft) : Prop := log_end n' = log_end n \/ log_end n' = (0, 0).

#[local] Instance keeps_end_preorder : PreOrder keeps_end.
Proof. split; [by left|]. intros n1 n2 n3 [E1|E1] [E2|E2]; unfold keeps_end; rewrite ?E2, ?E1; auto. Qed.

Lemma Keeps_still_end {A} (m : M A) : Keeps still m -> Keeps keeps_end m.
Proof. intros Hm n n' a Ha. left. apply Hm in Ha. unfold still, log_view in Ha. unfold log_end. congruence. Qed.

Ltac end_parts := keeps_with ltac:(by left).
Notation Ends := (Keeps keeps_end).
#[local] Hint Resolve still_setWriteErrLocked still_write_file still_stepdown still_loadLastSnapshot still_addPeer still_removePeer still_processPeerState : keeps.
#[local] Hint Extern 1 (Keeps keeps_end _) => apply Keeps_still_end; solve [eauto 1 with keeps nocore] : keeps.

Lemma end_installSnapshot snap : Ends (installSnapshot snap).
Proof. unfold installSnapshot, remove_file. end_parts. Qed.

Lemma end_cancelCatchup : Ends cancelCatchup.
Proof. unfold cancelCatchup, cancelCatchupSignal, unsubscribe. end_parts. Qed.

Lemma end_sendCatchupSignal : Ends sendCatchupSignal.
Proof. unfold sendCatchupSignal. end_parts. Qed.

Lemma end_truncated i : Ends (truncated i).
Proof. unfold truncated, remove_file. end_parts. Qed.
#[local] Hint Resolve end_installSnapshot end_cancelCatchup end_sendCatchupSignal end_truncated : keeps.

Lemma end_resetWAL : Ends resetWAL.
Proof.
  unfold resetWAL, truncateWAL. apply Keeps_bind; [apply _|apply Keeps_get, _|]. intros n. destruct (Truncate (wal n) 0) as [l e].
  apply Keeps_bind; [apply _|apply Keeps_modify; by left|]. intros _. apply Keeps_bind; [apply _| |intros _; apply end_truncated].
  destruct e as [err|]; [apply Keeps_still_end, still_setWriteErrLocked|].
  intros n1 n' a Ha. right. apply bind_inv in Ha as (n2 & [] & [= <-] & Ha). apply bind_inv in Ha as (n3 & [] & [= <-] & Ha).
  destruct (_ && _); by injection Ha as <- _.
Qed.
#[local] Hint Resolve end_resetWAL : keeps.

Lemma end_apply_entries ae es : forall committed, Ends (apply_entries ae es committed).
Proof. induction es as [|e es IH]; intros committed; cbn [apply_entries]; end_parts. Qed.
#[local] Hint Resolve end_apply_entries : keeps.

Lemma end_applyCommit i : Ends (applyCommit i).
Proof. unfold applyCommit, commit_entry. end_parts. Qed.
#[local] Hint Resolve end_applyCommit : keeps.

Lemma end_apply_commits count : forall i, Ends (apply_commits count i).
Proof. induction count as [|count IH]; intros i; cbn [apply_commits]; end_parts. Qed.
#[local] Hint Resolve end_apply_commits : keeps.

Lemma end_pae_commit ae cu : Ends (pae_commit ae cu).
Proof. unfold pae_commit, apply_range. end_parts. Qed.

Lemma end_pae_entry isNew e : Ends (pae_entry isNew e).
Proof. unfold pae_entry, xferCampaign. end_parts. Qed.

(** The code goes on when the log ends where the leader's entry before this one is. *)
Lemma consistency_end ae isNew cu n n' :
  pae_consistency ae isNew cu n = Some (n', true) -> log_end n' = (ae_pterm ae, ae_pindex ae).
Proof.
  assert (forall n1 n2, (n ← get; if (ae_pterm ae =? pterm n) && (ae_pindex ae =? pindex n) then mret true else cancelCatchup;; mret false) n1 = Some (n2, true) ->
    log_end n2 = (ae_pterm ae, ae_pindex ae)) as Hchk.
  { intros n1 n2 (n0 & m & [= <- <-] & Hm)%bind_inv. destruct (_ && _) eqn:Hb; [|by apply bind_inv in Hm as (? & ? & _ & [= ])].
    apply andb_prop in Hb as [->%Z.eqb_eq ->%Z.eqb_eq]. by injection Hm as <-. }
  intros (n0 & m & [= <- <-] & Hm)%bind_inv. destruct (_ && _) eqn:Hb.
  { apply andb_prop in Hb as [->%Z.eqb_eq ->%Z.eqb_eq]. by injection Hm as <-. }
  destruct (ae_pindex ae <=? pindex n).
  2: { destruct cu; [by apply bind_inv in Hm as (? & ? & _ & [= ])|]. apply bind_inv in Hm as (? & ? & _ & Hm).
       apply bind_inv in Hm as (? & ? & _ & Hm). by apply bind_inv in Hm as (? & ? & _ & [= ]). }
  unfold pae_conflict in Hm. apply bind_inv in Hm as (n0 & m & [= <- <-] & Hm). destruct (_ <? _); [done|].
  apply bind_inv in Hm as (n1 & r & _ & Hm). destruct r as [e|eae].
  - destruct ((ae_pterm ae =? pterm n) && isNew); [done|]. destruct (ae_pindex ae =? pindex n).
    { apply bind_inv in Hm as (? & ? & _ & Hm). by apply bind_inv in Hm as (? & ? & _ & [= ]). }
    apply bind_inv in Hm as (n2 & r & _ & Hm). destruct r as [e'|snap]; [apply bind_inv in Hm as (? & ? & _ & Hm); by apply bind_inv in Hm as (? & ? & _ & [= ])|].
    destruct ((lastIndex snap =? _) && _); [by apply bind_inv in Hm as (n3 & ? & _ & Hm); apply Hchk in Hm|].
    apply bind_inv in Hm as (? & ? & _ & Hm). by apply bind_inv in Hm as (? & ? & _ & [= ]).
  - destruct (ae_term eae =? _); [by apply bind_inv in Hm as (n3 & ? & _ & Hm); apply Hchk in Hm|]. destruct (_ <? _); [done|].
    apply bind_inv in Hm as (? & ? & _ & Hm). by apply bind_inv in Hm as (? & ? & _ & [= ]).
Qed.

(** Where the log ends after [ae]. *)
Definition end_after (ae : appendEntry) : Z * Z :=
  if shouldStore ae then (ae_term ae, u64 (ae_pindex ae + 1)) else (ae_pterm ae, ae_pindex ae).

Lemma store_end ae sub n n' :
  pae_store ae sub n = Some (n', false) -> log_end n = (ae_pterm ae, ae_pindex ae) -> log_end n' = end_after ae.
Proof.
  unfold pae_store, end_after. destruct (shouldStore ae); cbn [negb]; [|by intros [= <-]]. intros Hm _. destruct sub as [sub|].
  2: { apply bind_inv in Hm as (n1 & [] & [= <-] & Hm). apply bind_inv in Hm as (n2 & [] & [= <-] & Hm). by injection Hm as <-. }
  apply bind_inv in Hm as (n1 & e & Hs & Hm). destruct e as [e|]; [done|].
  assert (log_end n1 = (ae_term ae, u64 (ae_pindex ae + 1))) as <-.
  { unfold storeToWAL in Hs. apply bind_inv in Hs as (n0 & m & [= <- <-] & Hs). destruct (werr n); [done|].
    destruct (StoreMsg (wal n) (ae_buf ae)) as [l r]. apply bind_inv in Hs as (n2 & [] & [= <-] & Hs).
    destruct r as [err|i]; [by apply bind_inv in Hs as (? & ? & _ & [= ])|].
    destruct (Z.eqb_spec (u64 (ae_pindex ae + 1)) i) as [Hi|]; cbn [negb] in Hs.
    - apply bind_inv in Hs as (n3 & [] & [= <-] & Hs). apply bind_inv in Hs as (n4 & [] & [= <-] & Hs). apply bind_inv in Hs as (n5 & [] & [= <-] & Hs). injection Hs as <-. by rewrite Hi.
    - apply bind_inv in Hs as (? & ? & _ & Hs). apply bind_inv in Hs as (? & ? & _ & Hs). by apply bind_inv in Hs as (? & ? & _ & [= ]). }
  assert (Keeps (fun n n' => log_end n' = log_end n) (cachePendingEntry ae;; resetInitializing;; mret false)) as Hk.
  { assert (PreOrder (fun n n' : raft => log_end n' = log_end n)) by (split; [by intros ?|intros ? ? ? E1 E2; congruence]).
    unfold cachePendingEntry, resetInitializing, setObserverLocked. keeps_with ltac:(reflexivity). }
  by apply (Hk n1 n' false).
Qed.

(** Nothing but refusals is sent, or one answer of success at the end. *)
Lemma continue_answers ae sub isNew cu n n' a :
  pae_continue ae sub isNew cu n = Some (n', a) -> log_end n = (ae_pterm ae, ae_pindex ae) ->
  mute n n' \/
  (sub <> None /\ isNew = true /\ exists n1, mute n n1 /\ (log_end n1 = end_after ae \/ log_end n1 = (0, 0)) /\
   respond (ae_reply ae) NoSubj (pterm n1) (pindex n1) true n1 = Some (n', tt)).
Proof.
  intros (n1 & returned & Hs & Hm)%bind_inv He. pose proof (mute_pae_store ae sub n n1 returned Hs) as Hmute.
  destruct returned; [left; by injection Hm as <- _|]. apply store_end in Hs; [|done].
  apply bind_inv in Hm as (n2 & [] & H2 & Hm). apply bind_inv in Hm as (n3 & [] & H3 & Hm). apply bind_inv in Hm as (n4 & m & [= <- <-] & Hm).
  assert (mute n n3) as Hm3.
  { transitivity n1; [done|]. transitivity n2; [|by eapply mute_pae_commit]. eapply (Keeps_each mute); [|exact H2]. intros e _. apply mute_pae_entry. }
  assert (keeps_end n1 n3) as He3.
  { transitivity n2; [|by eapply end_pae_commit]. eapply (Keeps_each keeps_end); [|exact H2]. intros e _. apply end_pae_entry. }
  destruct (bool_decide_reflect (sub = None)) as [|Hsub]; cbn [negb andb when] in Hm; [left; by injection Hm as <- _|].
  destruct isNew; cbn [when] in Hm; [|left; by injection Hm as <- _]. right. split_and!; [done|done|]. exists n3. destruct a.
  split_and!; [done| |done]. destruct He3 as [E|E]; [left; congruence|by right].
Qed.

Lemma answers ae sub n n' a :
  processAppendEntry ae sub n = Some (n', a) ->
  mute n n' \/
  (sub = Some AppendSubj /\ exists n1, mute n n1 /\ (log_end n1 = end_after ae \/ log_end n1 = (0, 0)) /\
   respond (ae_reply ae) NoSubj (pterm n1) (pindex n1) true n1 = Some (n', tt)).
Proof.
  intros (n0 & m & [= <- <-] & Hm)%bind_inv. destruct (_ || _); [left; injection Hm as <- _; reflexivity|].
  apply bind_inv in Hm as (n1 & returned & H1' & Hm). pose proof (mute_pae_roles ae n n1 returned H1') as M1.
  destruct returned; [left; by injection Hm as <- _|]. apply bind_inv in Hm as (n0 & m & [= <- <-] & Hm).
  cbv zeta in Hm. destruct (_ && match catchup n1 with None => _ | _ => _ end); [left; by injection Hm as <- _|].
  apply bind_inv in Hm as (n2 & returned & H2 & Hm). assert (mute n n2) as M2 by (transitivity n1; [done|by eapply mute_pae_term]).
  destruct returned; [left; by injection Hm as <- _|].
  apply bind_inv in Hm as (n3 & [returned cu] & H3 & Hm). assert (mute n n3) as M3 by (transitivity n2; [done|by eapply mute_pae_catchup]).
  destruct returned; [left; by injection Hm as <- _|].
  apply bind_inv in Hm as (n4 & [] & H4 & Hm). assert (mute n n4) as M4 by (transitivity n3; [done|by eapply mute_pae_leader]).
  apply bind_inv in Hm as (n5 & returned & H5 & Hm). assert (mute n n5) as M5 by (transitivity n4; [done|by eapply mute_pae_paused]).
  destruct returned; [left; by injection Hm as <- _|].
  apply bind_inv in Hm as (n6 & go_on & H6 & Hm). assert (mute n n6) as M6 by (transitivity n5; [done|by eapply mute_pae_consistency]).
  destruct go_on; cbn [when] in Hm; [|left; by injection Hm as <- _]. apply consistency_end in H6.
  apply continue_answers in Hm as [Hmu|(_ & Hnew & n7 & Hmu & He & Hr)]; [left; by transitivity n6| |done].
  right. apply bool_decide_eq_true in Hnew. split; [done|]. exists n7. split_and!; [by transitivity n6|done|done].
Qed.

(** C15. A follower reports success only for a new append entry, at the end of its handling, and with
    the end of the log that it has then.  That is where the entry was put when it was stored, or
    the leader's entry before it when there was nothing to store; or the log was reset, and the
    report is of index 0, which no leader counts. *)
Theorem success_is_stored ae sub n n' a new m :
  processAppendEntry ae sub n = Some (n', a) -> out n' = out n ++ new -> m ∈ new -> success m ->
  sub = Some AppendSubj /\ m_subj m = ae_reply ae /\
  m_data m = encode_ar (newAppendEntryResponse (pterm n') (pindex n') (nid n') true) /\
  (log_end n' = end_after ae \/ log_end n' = (0, 0)).
Proof.
  intros [(_ & new' & Hn & Hf)|(Hsub & n1 & (Hi & new' & Hn & Hf) & He & Hr)]%answers Ho Hin Hs.
  - rewrite Hn in Ho. apply app_inv_head in Ho as ->. rewrite Forall_forall in Hf. by destruct (Hf m Hin).
  - apply bind_inv in Hr as (n0 & k & [= <- <-] & Hr). injection Hr as <-. cbn in Ho. rewrite Hn, <- app_assoc in Ho.
    apply app_inv_head in Ho as <-. apply elem_of_app in Hin as [Hin|Hin%list_elem_of_singleton].
    { rewrite Forall_forall in Hf. by destruct (Hf m Hin). }
    by subst m.
Qed.
End report.

(** ** A follower of the group of three *)

(** B with the first append entry of A. *)
Definition following : option (raft mem_log mem_dir * appendEntry) :=
  s0 ← group dir dir dir; s ← run s0 (take 13 rivals ++ [Deliver B 2]); n ← nodes s !! B; ae ← head (entry n); Some (n, ae).

Definition answer : message := mkMessage B (AppendReply A) NoSubj (encode_ar (newAppendEntryResponse 2 2 B true)).

Lemma success_is_stored_witness :
  exists n ae n', following = Some (n, ae) /\ processAppendEntry ae (Some AppendSubj) n = Some (n', tt) /\ out n' = out n ++ [answer] /\
    log_end n' = end_after ae /\ m_data answer = encode_ar (newAppendEntryResponse (pterm n') (pindex n') (nid n') true).
Proof.
  assert (('(n, ae) ← following; '(n', _) ← processAppendEntry ae (Some AppendSubj) n; Some (out n, out n', log_end n', end_after ae)) = Some ([], [answer], (2, 2), (2, 2))) as Hr
    by (vm_compute; reflexivity).
  destruct following as [[n ae]|]; [|discriminate Hr]. cbn [mbind option_bind] in Hr.
  destruct (processAppendEntry ae (Some AppendSubj) n) as [[n' []]|] eqn:Hm; [|discriminate Hr].
  apply (inj Some) in Hr. injection Hr as Ho Ho' Hp Hi He. exists n, ae, n'.
  assert (out n' = out n ++ [answer]) as Hout by (rewrite Ho, Ho'; reflexivity).
  split_and!; [done|exact Hm|exact Hout|unfold log_end; congruence|].
  apply (success_is_stored ae (Some AppendSubj) n n' tt [answer] answer Hm Hout); [left|].
  exists (mkAppendEntryResponse 2 2 B NoSubj true). split; vm_compute; reflexivity.
Defined.
