(* ===== verification/RaftAcks.v ===== *)
(** * The acknowledgements that a leader counts

    Whatever a leader has in its table of acknowledgements it was told by a message, in its own
    term: the table is cleared when the node stops leading, and only successful responses of the
    current term get in. *)

From S2P Require Import Prelude Binary RecordUpdate RaftCodec Raft RaftFrame RaftLog RaftAppend RaftRun RaftMemory RaftElection RaftSystem.
Import RaftCodec Raft RaftLog RaftAppend RaftRun RaftMemory Trio.

#[local] Existing Instance leaves_preorder.

Section acks.
Context {L D : Type} `{WAL L} `{Files D} `{RaftEnv}.
Notation M := (M L D).
Notation raft := (raft L D).
Notation sys := (sys (L := L) (D := D)).
Implicit Types n : raft.

Definition acked (n : raft) (i : Z) : gset peer := default ∅ (acks n !! i).

Definition no_acks (n : raft) : Prop := forall i q, q ∉ acked n i.

(** Nothing is added to the acknowledgements or to the queue of responses. *)
Record loose (n n' : raft) : Prop := {
  lo_nid : nid n' = nid n; lo_loc : loc n' = loc n;
  lo_resp : forall ar, ar ∈ resp n' -> ar ∈ resp n;
  lo_acks : forall i q, q ∈ acked n' i -> q ∈ acked n i }.

#[local] Instance loose_preorder : PreOrder loose.
Proof. split; [by split|]. intros n1 n2 n3 [] []. split; try congruence; auto. Qed.

(** Who does not lead has no acknowledgements, unless it is closed. *)
Definition idle (n : raft) : Prop := state n = Follower \/ state n = Candidate -> no_acks n.

(** And a leader was one before, in the same term. *)
Record sober (n n' : raft) : Prop := {
  so_loose : loose n n';
  so_leaves : leaves (state n) (state n');
  so_role : idle n -> idle n' /\ (state n' = Leader -> state n = Leader /\ term n' = term n) }.

#[local] Instance sober_preorder : PreOrder sober.
Proof.
  split; [intros n; split; [reflexivity|by left|done]|]. intros n1 n2 n3 [L1 S1 R1] [L2 S2 R2]. split; [by transitivity n2|by transitivity (state n2)|].
  intros Hi. destruct (R1 Hi) as [Hi2 Hl2]. destruct (R2 Hi2) as [Hi3 Hl3]. split; [done|].
  intros Hs. destruct (Hl3 Hs) as [Hs2 ->]. by apply Hl2.
Qed.

Lemma sober_same n n' : loose n n' -> state n' = state n -> term n' = term n -> sober n n'.
Proof.
  intros Hl Hs Ht. split; [done|by left|]. intros Hi. rewrite Hs. split; [|done]. intros Hst i q Hq. rewrite Hs in Hst. by eapply Hi, Hl.
Qed.

(** Closed, or a follower without acknowledgements. *)
Definition cleared (n : raft) : Prop := state n = Closed \/ (state n = Follower /\ no_acks n).

Lemma sober_cleared n n' : loose n n' -> cleared n' -> sober n n'.
Proof.
  intros Hl Hc. split; [done|right; destruct Hc as [|[? _]]; auto|]. intros _. destruct Hc as [Hc|[Hc Ha]]; (split; [|by rewrite Hc]); [intros [?|?]; congruence|by intros _].
Qed.

Lemma loose_view n n' : nid n' = nid n -> loc n' = loc n -> resp n' = resp n -> acks n' = acks n -> loose n n'.
Proof. intros Hi Hl Hr Ha. split; try done; [by rewrite Hr|by unfold acked; rewrite Ha]. Qed.

Lemma sober_view n n' :
  nid n' = nid n -> loc n' = loc n -> resp n' = resp n -> acks n' = acks n -> state n' = state n -> term n' = term n -> sober n n'.
Proof. intros. apply sober_same; [by apply loose_view|done|done]. Qed.

Ltac sober_field := by apply sober_view.
Ltac sober_parts := keeps_with sober_field.
Notation Sober := (Keeps sober).
Notation Loose := (Keeps loose).

Lemma Keeps_loose {A} (m : M A) : Sober m -> Loose m.
Proof. intros Hm n n' a Ha. by apply Hm in Ha as []. Qed.

(** ** Storage and roles *)

Lemma sober_shutdown : Sober shutdown.
Proof.
  intros n n' a. unfold shutdown. cbv [mbind M_bind get]. destruct (isClosed n); [intros [= <- <-]; reflexivity|].
  intros [= <- <-]. apply sober_cleared; [by apply loose_view|by left].
Qed.
#[local] Hint Resolve sober_shutdown : keeps.

Lemma sober_setWriteErrLocked e : Sober (setWriteErrLocked e).
Proof. unfold setWriteErrLocked. sober_parts. Qed.
#[local] Hint Resolve sober_setWriteErrLocked : keeps.

Lemma sober_write_file f b : Sober (write_file f b).
Proof. intros n n' a. unfold write_file. destruct (writeFile (disk n) f b) as [d e]. intros [= <- <-]. sober_field. Qed.
#[local] Hint Resolve sober_write_file : keeps.

Lemma sober_remove_file f : Sober (remove_file f).
Proof. unfold remove_file. sober_parts. Qed.
#[local] Hint Resolve sober_remove_file : keeps.

Lemma sober_stat_write_file f b : Sober (stat_write_file f b).
Proof. unfold stat_write_file. sober_parts. Qed.
#[local] Hint Resolve sober_stat_write_file : keeps.

Lemma sober_writeTermVote : Sober writeTermVote.
Proof. unfold writeTermVote. sober_parts. Qed.

Lemma sober_writePeerState ps : Sober (writePeerState ps).
Proof. unfold writePeerState. sober_parts. Qed.

Lemma sober_updateLeadChange b : Sober (updateLeadChange b).
Proof. unfold updateLeadChange. sober_parts. Qed.
#[local] Hint Resolve sober_updateLeadChange : keeps.

Lemma sober_updateLeader p : Sober (updateLeader p).
Proof. unfold updateLeader. sober_parts. Qed.

Lemma sober_sendRPC subj reply data : Sober (sendRPC subj reply data).
Proof. unfold sendRPC. sober_parts. Qed.
#[local] Hint Resolve sober_writeTermVote sober_writePeerState sober_updateLeader sober_sendRPC : keeps.

Lemma sober_drain : Sober (resp <~ []).
Proof. apply Keeps_modify. intros n. apply sober_same; [|done|done]. split; try done. by intros ar ?%elem_of_nil. Qed.
#[local] Hint Resolve sober_drain : keeps.

Lemma sober_lead_change pst st : Sober (lead_change pst st).
Proof. unfold lead_change. sober_parts. Qed.
#[local] Hint Resolve sober_lead_change : keeps.

(** The rest of [switchState] after the role is set. *)
Lemma switched_sober st n n' a :
  switchState st n = Some (n', a) -> (n' = n /\ state n = Closed) \/ (state n <> Closed /\ sober (n <| state := st |>) n').
Proof.
  unfold switchState. intros (n0 & pst & [= <- <-] & Hm)%bind_inv.
  destruct (bool_decide_reflect (state n = Closed)) as [Hc|Hc]; [injection Hm as <- <-; by left|].
  apply bind_inv in Hm as (n1 & [] & [= <-] & Hm). right. split; [done|].
  assert (Sober (leadChange ← lead_change (state n) st; writeTermVote;; mret leadChange)) as Hk by sober_parts. by eapply Hk.
Qed.

Lemma stepdown_cleared p n n' a : stepdownLocked p n = Some (n', a) -> loose n n' /\ cleared n'.
Proof.
  unfold stepdownLocked, switchToFollowerLocked. intros (n0 & m & [= <- <-] & Hm)%bind_inv.
  destruct (isClosed n) eqn:Hc; [injection Hm as <- <-; split; [reflexivity|left; by apply bool_decide_eq_true in Hc]|].
  apply bind_inv in Hm as (n1 & [] & [= <-] & Hm). apply bind_inv in Hm as (n2 & [] & [= <-] & Hm). apply bind_inv in Hm as (n3 & [] & [= <-] & Hm).
  apply bind_inv in Hm as (n4 & [] & [= <-] & Hm). apply bind_inv in Hm as (n5 & [] & Hu & Hm). apply bind_inv in Hm as (n6 & b & Hsw & Hm). injection Hm as <- <-.
  match type of Hu with updateLeader p ?x = _ => set (n4 := x) in * end.
  assert (loose n n4 /\ no_acks n4) as [Hl Ha].
  { split; [split; try done; intros i q Hq; by apply not_elem_of_empty in Hq|]. intros i q Hq. by apply not_elem_of_empty in Hq. }
  apply sober_updateLeader in Hu as [Hlu _ _]. assert (no_acks n5) as Ha5 by (intros i q Hq; by eapply Ha, Hlu).
  apply switched_sober in Hsw as [[-> Hcl]|[_ [Hls Hlv _]]]; [split; [by transitivity n4|by left]|].
  assert (loose n5 n6) as H56 by (destruct Hls; by split).
  split; [transitivity n4; [done|by transitivity n5]|]. assert (state n6 = Follower \/ state n6 = Closed) as [Hf|Hf] by (destruct Hlv as [->|[->| ->]]; auto); [right|by left].
  split; [done|]. intros i q Hq. by eapply Ha5, H56.
Qed.

Lemma sober_stepdown p : Sober (stepdownLocked p).
Proof. intros n n' a Hs. apply stepdown_cleared in Hs as [Hl Hc]. by apply sober_cleared. Qed.
#[local] Hint Resolve sober_stepdown : keeps.

(** ** Catchup, membership, snapshots and the log *)

Lemma sober_unsubscribe s : Sober (unsubscribe s).
Proof. unfold unsubscribe. sober_parts. Qed.
#[local] Hint Resolve sober_unsubscribe : keeps.

Lemma sober_cancelCatchup : Sober cancelCatchup.
Proof. unfold cancelCatchup, cancelCatchupSignal. sober_parts. Qed.
#[local] Hint Resolve sober_cancelCatchup : keeps.

Lemma sober_addPeer p : Sober (addPeer p).
Proof. unfold addPeer, adjustClusterSizeAndQuorum. sober_parts. Qed.

Lemma sober_removePeer p : Sober (removePeer p).
Proof. unfold removePeer, adjustClusterSizeAndQuorum. sober_parts. Qed.

Lemma sober_processPeerState ps : Sober (processPeerState ps).
Proof. unfold processPeerState. sober_parts. Qed.

Lemma sober_resetInitializing : Sober resetInitializing.
Proof. unfold resetInitializing, setObserverLocked. sober_parts. Qed.
#[local] Hint Resolve sober_addPeer sober_removePeer sober_processPeerState sober_resetInitializing : keeps.

Lemma sober_loadLastSnapshot : Sober loadLastSnapshot.
Proof. unfold loadLastSnapshot. sober_parts. Qed.
#[local] Hint Resolve sober_loadLastSnapshot : keeps.

Lemma sober_installSnapshot snap : Sober (installSnapshot snap).
Proof. unfold installSnapshot. sober_parts. Qed.
#[local] Hint Resolve sober_installSnapshot : keeps.

Lemma sober_truncateWAL t i : Sober (truncateWAL t i).
Proof. unfold truncateWAL, truncated. sober_parts. Qed.
#[local] Hint Resolve sober_truncateWAL : keeps.

Lemma sober_resetWAL : Sober resetWAL.
Proof. apply sober_truncateWAL. Qed.
#[local] Hint Resolve sober_resetWAL : keeps.

Lemma sober_storeToWAL ae : Sober (storeToWAL ae).
Proof. unfold storeToWAL. sober_parts. Qed.

Lemma sober_cachePendingEntry ae : Sober (cachePendingEntry ae).
Proof. unfold cachePendingEntry. sober_parts. Qed.
#[local] Hint Resolve sober_storeToWAL sober_cachePendingEntry : keeps.

Lemma sober_apply_entries ae es : forall committed, Sober (apply_entries ae es committed).
Proof.
  induction es as [|e es IH]; intros committed; cbn [apply_entries]; [sober_parts|].
  sober_parts.
Qed.
#[local] Hint Resolve sober_apply_entries : keeps.

Lemma sober_commit_entry i ae : Sober (commit_entry i ae).
Proof. unfold commit_entry. sober_parts. Qed.
#[local] Hint Resolve sober_commit_entry : keeps.

Lemma sober_delete_ack i n : keeps_at sober (acks <~ delete i (acks n)) n.
Proof.
  intros n' a [= <- <-]. apply sober_same; [|done|done]. split; try done. intros j q. unfold acked. cbn.
  destruct (decide (i = j)) as [->|Hne]; [rewrite lookup_delete_eq; by intros ?%not_elem_of_empty|by rewrite lookup_delete_ne].
Qed.

Lemma sober_applyCommit i : Sober (applyCommit i).
Proof.
  apply Keeps_get_bind. intros n. destruct (isClosed n); [apply keeps_at_of; sober_parts|].
  destruct (i <=? commit n); [apply keeps_at_of; sober_parts|]. apply keeps_at_bind; [apply _| |].
  - destruct (isLeader n); cbn [when]; [apply sober_delete_ack|apply keeps_at_of; sober_parts].
  - intros. apply keeps_at_of. sober_parts.
Qed.
#[local] Hint Resolve sober_applyCommit : keeps.

Lemma sober_apply_commits count : forall i, Sober (apply_commits count i).
Proof. induction count as [|count IH]; intros i; cbn [apply_commits]; sober_parts. Qed.
#[local] Hint Resolve sober_apply_commits : keeps.

Lemma sober_apply_range i j : Sober (apply_range i j).
Proof. apply sober_apply_commits. Qed.
#[local] Hint Resolve sober_apply_range : keeps.

Lemma sober_tryCommit i : Sober (tryCommit i).
Proof. unfold tryCommit. sober_parts. Qed.
#[local] Hint Resolve sober_tryCommit : keeps.

(** ** Messages, catchup and calls *)

Lemma sober_respond subj reply t i b : Sober (respond subj reply t i b).
Proof. unfold respond. sober_parts. Qed.
#[local] Hint Resolve sober_respond : keeps.

Lemma sober_sendAppendEntryLocked es b : Sober (sendAppendEntryLocked es b).
Proof. unfold sendAppendEntryLocked. sober_parts. Qed.
#[local] Hint Resolve sober_sendAppendEntryLocked : keeps.

Lemma sober_sendAppendEntry es : Sober (sendAppendEntry es).
Proof. unfold sendAppendEntry. sober_parts. Qed.
#[local] Hint Resolve sober_sendAppendEntry : keeps.

Lemma sober_sendPeerState : Sober (sendPeerState).
Proof. unfold sendPeerState. sober_parts. Qed.
#[local] Hint Resolve sober_sendPeerState : keeps.

Lemma sober_sendHeartbeat : Sober (sendHeartbeat).
Proof. unfold sendHeartbeat. sober_parts. Qed.
#[local] Hint Resolve sober_sendHeartbeat : keeps.

Lemma sober_sendMembershipChange e : Sober (sendMembershipChange e).
Proof. unfold sendMembershipChange. sober_parts. Qed.
#[local] Hint Resolve sober_sendMembershipChange : keeps.

Lemma sober_ProposeAddPeer p : Sober (ProposeAddPeer p).
Proof. unfold ProposeAddPeer. sober_parts. Qed.
#[local] Hint Resolve sober_ProposeAddPeer : keeps.

Lemma sober_trackPeer p : Sober (trackPeer p).
Proof. unfold trackPeer. sober_parts. Qed.
#[local] Hint Resolve sober_trackPeer : keeps.

Lemma sober_StepDown online ps : Sober (StepDown online ps).
Proof. unfold StepDown. sober_parts. Qed.
#[local] Hint Resolve sober_StepDown : keeps.

Lemma sober_catchupStalled : Sober (catchupStalled).
Proof. unfold catchupStalled. sober_parts. Qed.
#[local] Hint Resolve sober_catchupStalled : keeps.

Lemma sober_createCatchup ae : Sober (createCatchup ae).
Proof. unfold createCatchup. sober_parts. Qed.
#[local] Hint Resolve sober_createCatchup : keeps.

Lemma sober_sendCatchupSignal : Sober (sendCatchupSignal).
Proof. unfold sendCatchupSignal. sober_parts. Qed.
#[local] Hint Resolve sober_sendCatchupSignal : keeps.

Lemma sober_sendSnapshotToFollower s : Sober (sendSnapshotToFollower s).
Proof. unfold sendSnapshotToFollower. sober_parts. Qed.
#[local] Hint Resolve sober_sendSnapshotToFollower : keeps.

Lemma sober_catchup_first i : Sober (catchup_first i).
Proof. unfold catchup_first. sober_parts. Qed.
#[local] Hint Resolve sober_catchup_first : keeps.

Lemma sober_catchupFollower ar : Sober (catchupFollower ar).
Proof. unfold catchupFollower. sober_parts. Qed.
#[local] Hint Resolve sober_catchupFollower : keeps.

Lemma sober_catchup_exit q p : Sober (catchup_exit q p).
Proof. unfold catchup_exit. sober_parts. Qed.
#[local] Hint Resolve sober_catchup_exit : keeps.

Lemma sober_sendNext fuel subj t last : forall next total om, Sober (sendNext fuel subj t last next total om).
Proof. induction fuel as [|fuel IH]; intros next total om; cbn [sendNext]; sober_parts. Qed.
#[local] Hint Resolve sober_sendNext : keeps.

Lemma sober_catchup_step q : Sober (catchup_step q).
Proof. unfold catchup_step. sober_parts. Qed.

Lemma sober_catchup_stop q : Sober (catchup_stop q).
Proof. unfold catchup_stop. sober_parts. Qed.

(** ** The parts of [processAppendEntry] *)

Lemma sober_pae_catchup ae b c : Sober (pae_catchup ae b c).
Proof. unfold pae_catchup. sober_parts. Qed.

Lemma sober_pae_leader ae b : Sober (pae_leader ae b).
Proof. unfold pae_leader. sober_parts. Qed.

Lemma sober_pae_paused s b : Sober (pae_paused s b).
Proof. unfold pae_paused. sober_parts. Qed.

Lemma sober_pae_conflict ae b : Sober (pae_conflict ae b).
Proof. unfold pae_conflict. sober_parts. Qed.

Lemma sober_pae_snapshot ae : Sober (pae_snapshot ae).
Proof. unfold pae_snapshot. sober_parts. Qed.
#[local] Hint Resolve sober_pae_catchup sober_pae_leader sober_pae_paused sober_pae_conflict sober_pae_snapshot : keeps.

Lemma sober_pae_consistency ae b c : Sober (pae_consistency ae b c).
Proof. unfold pae_consistency. sober_parts. Qed.

Lemma sober_pae_entry b e : Sober (pae_entry b e).
Proof. unfold pae_entry, xferCampaign. sober_parts. Qed.

Lemma sober_pae_store ae s : Sober (pae_store ae s).
Proof. unfold pae_store. sober_parts. Qed.

Lemma sober_pae_commit ae b : Sober (pae_commit ae b).
Proof. unfold pae_commit. sober_parts. Qed.
#[local] Hint Resolve sober_pae_consistency sober_pae_entry sober_pae_store sober_pae_commit : keeps.

Lemma sober_pae_continue ae s b c : Sober (pae_continue ae s b c).
Proof. unfold pae_continue. sober_parts. Qed.
#[local] Hint Resolve sober_pae_continue : keeps.

(** ** Calls of the upper layer *)

Lemma sober_overrun : Sober overrun.
Proof. unfold overrun. sober_parts. Qed.
#[local] Hint Resolve sober_overrun : keeps.

Lemma sober_ProposeMulti es : Sober (ProposeMulti es).
Proof. unfold ProposeMulti. sober_parts. Qed.
#[local] Hint Resolve sober_ProposeMulti : keeps.

Lemma sober_pauseApplyLocked : Sober pauseApplyLocked.
Proof. unfold pauseApplyLocked. sober_parts. Qed.
#[local] Hint Resolve sober_pauseApplyLocked : keeps.

Lemma sober_PauseApply : Sober PauseApply.
Proof. unfold PauseApply. sober_parts. Qed.

Lemma sober_resume_commits count : forall i, Sober (resume_commits count i).
Proof. induction count as [|count IH]; intros i; cbn [resume_commits]; sober_parts. Qed.
#[local] Hint Resolve sober_PauseApply sober_resume_commits : keeps.

Lemma sober_ResumeApply : Sober ResumeApply.
Proof. unfold ResumeApply, xferCampaign. sober_parts. Qed.
#[local] Hint Resolve sober_ResumeApply : keeps.

Lemma sober_createSnapshotCheckpointLocked b : Sober (createSnapshotCheckpointLocked b).
Proof. unfold createSnapshotCheckpointLocked. sober_parts. Qed.
#[local] Hint Resolve sober_createSnapshotCheckpointLocked : keeps.

Lemma sober_api_call c : Sober (api_call c).
Proof.
  destruct c; cbn [api_call]; unfold Propose, ForwardProposal, Propose, ProposeRemovePeer, ProposeKnownPeers, UpdateKnownPeers, AdjustClusterSize,
    AdjustBootClusterSize, DrainAndReplaySnapshot, Processed, SendSnapshot, InstallSnapshot, LoadLastSnapshot, checkpoint_write, checkpoint_compact,
    checkpoint_done, checkpoint_abort, CampaignImmediately, Campaign, SetObserver, setObserverLocked; sober_parts.
Qed.

Lemma sober_handleAppendEntry sub reply msg : Sober (handleAppendEntry sub reply msg).
Proof. unfold handleAppendEntry. sober_parts. Qed.

Lemma sober_handleForwardedProposal reply msg : Sober (handleForwardedProposal reply msg).
Proof. unfold handleForwardedProposal. sober_parts. Qed.

Lemma sober_handleForwardedRemovePeerProposal reply msg : Sober (handleForwardedRemovePeerProposal reply msg).
Proof. unfold handleForwardedRemovePeerProposal. sober_parts. Qed.

Lemma sober_send_proposals es : forall entries sz, Sober (send_proposals es entries sz).
Proof. induction es as [|b es IH]; intros entries sz; cbn [send_proposals]; sober_parts. Qed.


(** ** Higher terms *)

Lemma loose_new_term t : Loose (new_term t).
Proof. intros n n' a (n1 & [] & [= <-] & Hm)%bind_inv. injection Hm as <- <-. by apply loose_view. Qed.

(** Another term, its file, and the end as a follower. *)
Lemma sober_move_on t (m : M unit) p : Sober m -> Sober (new_term t;; m;; stepdownLocked p).
Proof.
  intros Hm n n' a (n1 & [] & Hn & Hr)%bind_inv. apply bind_inv in Hr as (n2 & [] & Hw & Hs).
  apply loose_new_term in Hn. apply Hm in Hw as [Hlw _ _]. apply stepdown_cleared in Hs as [Hls Hc].
  apply sober_cleared; [|done]. transitivity n1; [done|by transitivity n2].
Qed.

Lemma sober_yield_to lterm p : Sober (yield_to lterm p).
Proof.
  apply Keeps_get_bind. intros n n' a Hm. destruct (term n <? lterm); cbn [when] in Hm; [|by apply (sober_stepdown p n n' a)].
  apply (sober_move_on lterm writeTermVote p sober_writeTermVote n n' a). rewrite <- Hm. by rewrite bind_assoc.
Qed.
#[local] Hint Resolve sober_yield_to : keeps.

Lemma sober_pae_roles ae : Sober (pae_roles ae).
Proof. unfold pae_roles. sober_parts. Qed.

Lemma sober_pae_term ae s b : Sober (pae_term ae s b).
Proof.
  apply Keeps_get_bind. intros n. cbv zeta. destruct (term n <? lterm_of ae); [|apply keeps_at_of; sober_parts].
  intros n' a (n1 & [] & Hn & Hr)%bind_inv. apply bind_inv in Hr as (n2 & [] & Hw & Hr).
  apply bind_inv in Hr as (n0 & m & [= <- <-] & Hr). apply bind_inv in Hr as (n3 & [] & Hs & Hr). injection Hr as <- <-.
  assert (Sober (when b writeTermVote)) as Hk by sober_parts. pose proof Hn as Hn'. apply loose_new_term in Hn. apply Hk in Hw as [Hlw Hlv Hrw].
  unfold isFollower in Hs. destruct (bool_decide_reflect (state n2 = Follower)) as [Hf|Hf]; cbn [negb when] in Hs.
  - injection Hs as <-. split; [by transitivity n1|by right; left|]. intros Hi. rewrite Hf. split; [|done]. apply Hrw.
    injection Hn' as <-. intros Hst i q Hq. by eapply Hi.
  - apply stepdown_cleared in Hs as [Hls Hc]. apply sober_cleared; [|done]. transitivity n1; [done|by transitivity n2].
Qed.
#[local] Hint Resolve sober_pae_roles sober_pae_term : keeps.

Lemma sober_processAppendEntry ae s : Sober (processAppendEntry ae s).
Proof. unfold processAppendEntry. sober_parts. Qed.
#[local] Hint Resolve sober_processAppendEntry : keeps.

Lemma sober_processAppendEntries oor : Sober (processAppendEntries oor).
Proof. unfold processAppendEntries. sober_parts. Qed.
#[local] Hint Resolve sober_processAppendEntries : keeps.

(** A term that a leader has already, or for one that does not lead. *)
Lemma sober_set_term t n : t = term n \/ state n <> Leader -> keeps_at sober (term <~ t) n.
Proof.
  intros Ht n' a [= <- <-]. split; [by apply loose_view|by left|]. intros Hi. split; [exact Hi|]. cbn. intros Hl. destruct Ht as [-> |Ht]; done.
Qed.

Lemma raise_sober vr n n' :
  term n <= vr_term vr ->
  when (term n <? vr_term vr) (when (negb (isFollower n)) (stepdownLocked noLeader);; cancelCatchup;; new_term (vr_term vr);; writeTermVote) n = Some (n', tt) ->
  sober n n' /\ (vr_term vr = term n' \/ state n' <> Leader).
Proof.
  intros Hle Hm. destruct (Z.ltb_spec (term n) (vr_term vr)); cbn [when] in Hm; [|injection Hm as <-; split; [reflexivity|left; lia]].
  apply bind_inv in Hm as (n1 & [] & Hs & Hm). apply bind_inv in Hm as (n2 & [] & Hc & Hm). apply bind_inv in Hm as (n3 & [] & Hn & Hw).
  assert (sober n n1 /\ (state n1 = Follower \/ state n1 = Closed)) as [S1 D1].
  { unfold isFollower in Hs. destruct (bool_decide_reflect (state n = Follower)) as [Hf|Hf]; cbn [negb when] in Hs.
    - injection Hs as <-. split; [reflexivity|by left].
    - apply stepdown_cleared in Hs as [Hl Hc']. split; [by apply sober_cleared|destruct Hc' as [|[? _]]; auto]. }
  apply sober_cancelCatchup in Hc as S2. assert (state n2 = Follower \/ state n2 = Closed) as D2 by (destruct (so_leaves _ _ S2) as [->|[->| ->]]; auto).
  assert (sober n2 n3 /\ state n3 = state n2) as [S3 E3].
  { apply bind_inv in Hn as (n4 & [] & Ht & Hv). apply sober_set_term in Ht as Ht'; [|right; destruct D2; congruence]. injection Ht as <-.
    injection Hv as <-. split; [|done]. by etransitivity; [exact Ht'|sober_field]. }
  apply sober_writeTermVote in Hw as S4. split; [transitivity n1; [done|transitivity n2; [done|by transitivity n3]]|].
  right. rewrite <- E3 in D2. destruct (so_leaves _ _ S4) as [->|[->| ->]]; [|done|done]. destruct D2 as [-> | ->]; done.
Qed.

Lemma sober_processVoteRequest vr : Sober (processVoteRequest vr).
Proof.
  apply Keeps_get_bind. intros n n' a Hm. cbv zeta in Hm. destruct (Z.ltb_spec (vr_term vr) (term n)) as [Hlt|Hle]; [by eapply sober_sendRPC|].
  apply bind_inv in Hm as (n1 & [] & Hr & Hm). apply raise_sober in Hr as [S1 Ht]; [|done]. transitivity n1; [done|].
  apply bind_inv in Hm as (n0 & m & [= <- <-] & Hm). destruct (_ && _); [|by eapply sober_sendRPC].
  apply bind_inv in Hm as (n2 & [] & Hs & Hm). apply sober_set_term in Hs; [|done]. transitivity n2; [done|].
  assert (forall e, Sober (vote <~ vr_candidate vr;; writeTermVote;; n ← get; sendReply (vr_reply vr) (encode_vs (mkVoteResponse (term n) (nid n) true e)))) as Hk
    by (intros e; unfold sendReply; sober_parts).
  by apply Hk in Hm.
Qed.
#[local] Hint Resolve sober_processVoteRequest : keeps.

Lemma sober_pop_request : Sober pop_request.
Proof. unfold pop_request. sober_parts. Qed.

Lemma sober_requestVote : Sober requestVote.
Proof. unfold requestVote. sober_parts. Qed.
#[local] Hint Resolve sober_pop_request sober_requestVote : keeps.

(** ** Acknowledgements that were reported

    [rep q t i]: a message told the node [me] that [q] has the entry of term [t] at index [i]. *)

Section reported.
Context (me : peer) (rep : peer -> Z -> Z -> Prop).

Record acks_ok (n : raft) : Prop := {
  ao_nid : nid n = me;
  ao_resp : forall ar, ar ∈ resp n -> ar_success ar = true -> rep (ar_peer ar) (ar_term ar) (ar_index ar);
  ao_acks : state n = Leader -> forall i q, q ∈ acked n i -> rep q (term n) i;
  ao_idle : idle n }.

(** A leader is in its loop, or between two. *)
Definition placed (n : raft) : Prop := state n = Leader -> loc n = RunTop \/ loc n = InLeader \/ loc n = Stopped.

Lemma sober_ok n n' : sober n n' -> acks_ok n -> acks_ok n'.
Proof.
  intros [[] _ Hr] [Hme Hre Ha Hi]. destruct (Hr Hi) as [Hi' Hl]. split; [congruence|by auto| |done].
  intros Hs i q Hq. destruct (Hl Hs) as [Hs' ->]. by apply Ha, lo_acks0.
Qed.

Lemma sober_placed n n' : sober n n' -> acks_ok n -> placed n -> placed n'.
Proof. intros [[] _ Hr] [_ _ _ Hi] Hp Hs. destruct (Hr Hi) as [_ Hl]. destruct (Hl Hs) as [Hs' _]. rewrite lo_loc0. by apply Hp. Qed.

Lemma loc_ok n l : acks_ok n -> acks_ok (n <| loc := l |>).
Proof. by intros []. Qed.

Lemma no_acks_ok n st : acks_ok n -> state n <> Leader -> state n <> Closed -> acks_ok (n <| state := st |>).
Proof.
  intros [Hme Hr _ Hi] Hl Hc. assert (no_acks n) as Hn by (apply Hi; destruct (state n); auto; done).
  split; [exact Hme|exact Hr| |]; [intros _ i q Hq; by destruct (Hn i q)|by intros _ i q ?%Hn].
Qed.

Lemma track_ok ar n n' b :
  trackResponse ar n = Some (n', b) -> acks_ok n -> rep (ar_peer ar) (ar_term ar) (ar_index ar) -> acks_ok n' /\ state n' = state n /\ loc n' = loc n.
Proof.
  unfold trackResponse. intros (n0 & m & [= <- <-] & Hm)%bind_inv Hok Hrep. unfold isLeader in Hm.
  destruct (bool_decide_reflect (state n = Leader)) as [Hl|]; cbn [negb] in Hm; [|by injection Hm as <- <-].
  apply bind_inv in Hm as (n1 & [] & Hp & Hm). apply bind_inv in Hm as (n2 & [] & Hq & Hm).
  set (view := fun n : raft => (state n, loc n, term n, acks n, resp n, nid n)).
  assert (view n1 = view n) as V1 by (destruct (peers n !! ar_peer ar) as [ps|]; [destruct (li ps <? ar_index ar)|]; by injection Hp as <-).
  assert (view n2 = view n1) as V2 by (destruct (progress n !! ar_peer ar); by injection Hq as <-).
  rewrite V1 in V2. unfold view in V2. injection V2 as Vs Vl Vt Va Vr Vn. destruct Hok as [Hme Hr Ha Hi].
  assert (acks_ok n2) as Hok2 by (split; [congruence|by rewrite Vr|unfold acked; by rewrite Vs, Vt, Va|unfold idle, no_acks, acked; by rewrite Vs, Va]).
  destruct (_ || _) eqn:Hb; [by injection Hm as <- <-|]. apply orb_false_iff in Hb as [_ Ht%negb_false_iff%Z.eqb_eq].
  destruct (bool_decide (peers n !! ar_peer ar = None)); [by injection Hm as <- <-|].
  injection Hm as <- <-. split; [|done]. split; [exact (ao_nid _ Hok2)|exact (ao_resp _ Hok2)| |unfold idle; cbn; rewrite Vs, Hl; by intros [?|?]].
  intros _ i q. unfold acked. cbn. rewrite Vt. destruct (decide (ar_index ar = i)) as [<-|Hne].
  - rewrite lookup_insert_eq. cbn. rewrite elem_of_union, elem_of_singleton, <- Ht. intros [->|Hq']; [done|]. rewrite Ht. by apply Ha.
  - rewrite lookup_insert_ne by done. by apply Ha.
Qed.

(** The invariant of a node. *)
Definition good (n : raft) : Prop := acks_ok n /\ placed n.

Lemma sober_good n n' : sober n n' -> good n -> good n'.
Proof. intros Hs [Hok Hp]. split; [by eapply sober_ok|by eapply sober_placed]. Qed.

Lemma good_leaves n n' : acks_ok n' -> loc n' = loc n -> leaves (state n) (state n') -> placed n -> good n'.
Proof. intros Hok Hl Hs Hp. split; [done|]. intros Hst. rewrite Hl. apply Hp. destruct Hs as [Hs|[Hs|Hs]]; congruence. Qed.

Lemma response_good online ar n n' a :
  processAppendEntryResponse online ar n = Some (n', a) -> good n ->
  (ar_success ar = true -> rep (ar_peer ar) (ar_term ar) (ar_index ar)) -> good n'.
Proof.
  intros (n1 & [] & Ht & Hm)%bind_inv Hg Hrep. apply sober_trackPeer in Ht. apply sober_good in Ht; [|done]. clear Hg n.
  destruct (ar_success ar).
  - apply bind_inv in Hm as (n2 & b & Hr & Hm). destruct Ht as [Hok Hp]. apply track_ok in Hr as (Hok2 & Hs2 & Hl2); [|done|by apply Hrep].
    assert (good n2) as Hg2 by (eapply good_leaves; [done|done|by left|done]).
    assert (Sober ('(committed, err) ← (if b then tryCommit (ar_index ar) else mret (false, None));
      when (bool_decide (err = Some errNodeRemoved)) (StepDown online [];; shutdown);;
      n ← get; when (committed && (zlen (prop n) =? 0)) sendHeartbeat)) as Hk by sober_parts.
    by eapply sober_good; [eapply Hk|].
  - eapply sober_good; [|exact Ht]. revert Hm. apply keeps_at_of. case_match; [sober_parts|]. apply Keeps_get_bind. intros n.
    apply keeps_at_of. apply Keeps_when; [apply _|]. apply sober_move_on, sober_writeTermVote.
Qed.

Lemma responses_good online l : forall n n' a,
  each (processAppendEntryResponse online) l n = Some (n', a) -> good n ->
  (forall ar, ar ∈ l -> ar_success ar = true -> rep (ar_peer ar) (ar_term ar) (ar_index ar)) -> good n'.
Proof.
  induction l as [|ar l IH]; intros n n' a Hm Hg Hrep; [by injection Hm as <- _|]. cbn [each] in Hm.
  apply bind_inv in Hm as (n1 & [] & H1' & Hm). eapply IH; [exact Hm| |intros ar' Har'; apply Hrep; by right].
  eapply response_good; [exact H1'|done|]. apply Hrep. by left.
Qed.

Lemma again_good st n n' a : again st n = Some (n', a) -> good n -> good n'.
Proof.
  intros (n0 & m & [= <- <-] & Hm)%bind_inv [Hok Hp]. destruct (negb _); cbn [when] in Hm; injection Hm as <- _; [|done].
  split; [by apply loc_ok|]. by left.
Qed.

Lemma sober_again (m : M unit) st n n' a : Sober m -> (m;; again st) n = Some (n', a) -> good n -> good n'.
Proof. intros Hm (n1 & [] & H1' & Ha)%bind_inv Hg. eapply again_good; [exact Ha|]. by eapply sober_good; [eapply Hm|]. Qed.

(** To the top of the loop, from wherever. *)
Lemma top_good {A} (m : M A) n n' a :
  (m ≫= (fun _ => loc <~ RunTop)) n = Some (n', a) -> (forall n1 b, m n = Some (n1, b) -> acks_ok n1) -> good n'.
Proof. intros (n1 & b & H1' & Hl)%bind_inv Hm. injection Hl as <- _. split; [apply loc_ok; by eapply Hm|by left]. Qed.

Lemma candidate_ok n n' a : switchToCandidate n = Some (n', a) -> acks_ok n -> state n <> Leader -> acks_ok n'.
Proof.
  intros (n0 & m & [= <- <-] & Hm)%bind_inv Hok Hl. do 2 (case_match; [by injection Hm as <- <-|]).
  apply bind_inv in Hm as (n1 & [] & Hw & Hm). apply bind_inv in Hm as (n2 & [] & Hnt & Hm). apply bind_inv in Hm as (n3 & [] & Hq & Hm).
  apply bind_inv in Hm as (n4 & [] & Hul & Hm). apply bind_inv in Hm as (n5 & b & Hsw & Hm). injection Hm as <- <-.
  assert (sober n n1) as S1 by (assert (Sober (when (isCandidate n && (lostQuorumLocked n && (20000000000 <? since (clock n) (llqrt n)))) (updateLeadChange false;; llqrt <~ Some (clock n)))) as Hc by sober_parts; by apply (Hc n n1 tt)).
  assert (forall x y : raft, sober x y -> state x <> Leader -> state y <> Leader) as Hnl by (intros x y S Hx; destruct (so_leaves _ _ S) as [->|[->| ->]]; done).
  assert (sober n1 n2) as S2.
  { apply bind_inv in Hnt as (n6 & [] & Ht & Hv). apply sober_set_term in Ht; [|right; by eapply Hnl]. transitivity n6; [done|]. injection Hv as <-. sober_field. }
  assert (sober n n4) as S4.
  { transitivity n1; [done|]. transitivity n2; [done|]. transitivity n3; [injection Hq as <-; sober_field|by eapply sober_updateLeader]. }
  apply switched_sober in Hsw as [[-> _]|[Hc S5]]; [by eapply sober_ok|]. eapply sober_ok; [exact S5|].
  apply no_acks_ok; [by eapply sober_ok|by eapply Hnl|done].
Qed.

Lemma leader_ok n n' a : switchToLeader n = Some (n', a) -> acks_ok n -> state n <> Leader -> acks_ok n'.
Proof.
  intros (n0 & m & [= <- <-] & Hm)%bind_inv Hok Hl. case_match; [by injection Hm as <- <-|].
  apply bind_inv in Hm as (n1 & [] & [= <-] & Hm). apply bind_inv in Hm as (n2 & [] & Hul & Hm). apply bind_inv in Hm as (n3 & b & Hsw & Hm).
  assert (sober n n2) as S2 by (etransitivity; [|by eapply sober_updateLeader]; sober_field).
  assert (acks_ok n3) as Hok3.
  { apply switched_sober in Hsw as [[-> _]|[Hc S3]]; [by eapply sober_ok|]. eapply sober_ok; [exact S3|].
    apply no_acks_ok; [by eapply sober_ok| |done]. destruct (so_leaves _ _ S2) as [->|[->| ->]]; done. }
  assert (Sober (sendPeerState;; n ← get; aflr <~ pindex n)) as Hk by sober_parts. by eapply sober_ok; [eapply Hk|].
Qed.

(** ** The loops *)

Lemma follower_good ev n n' a : follower_step ev n = Some (n', a) -> good n -> loc n = InFollower -> good n'.
Proof.
  intros Hm Hg Hl. assert (state n <> Leader) as Hs by (intros Hs; destruct Hg as [_ Hp]; destruct (Hp Hs) as [?|[?|?]]; congruence).
  destruct ev; cbn [follower_step] in Hm; try (by eapply sober_again in Hm; [|sober_parts|done]); try (by injection Hm as <- _).
  - apply bind_inv in Hm as (n0 & m & [= <- <-] & Hm). destruct (oor || observer n); [by eapply again_good|].
    destruct (catchup n); [|by eapply top_good in Hm; [|intros n1 b Hc; eapply candidate_ok; [exact Hc|apply Hg|done]]].
    assert (Sober (stalled ← catchupStalled; when stalled cancelCatchup)) as Hk by sober_parts. rewrite <- bind_assoc in Hm. by eapply (sober_again _ _ _ _ _ Hk).
  - injection Hm as <- _. split; [apply loc_ok, Hg|by left].
Qed.

Lemma count_good vs es vresp n n' r :
  count_vote vs es vresp n = Some (n', r) -> acks_ok n -> state n <> Leader -> acks_ok n' /\ (snd r = false -> state n' <> Leader).
Proof.
  intros (n0 & m & [= <- <-] & Hm)%bind_inv Hok Hs. destruct (_ && _).
  - apply bind_inv in Hm as (n1 & [] & Ht & Hm). apply sober_trackPeer in Ht as S1.
    assert (acks_ok n1) as Hok1 by (by eapply sober_ok). assert (state n1 <> Leader) as Hs1 by (destruct (so_leaves _ _ S1) as [->|[->| ->]]; done).
    cbv zeta in Hm. apply bind_inv in Hm as (n0 & m & [= <- <-] & Hm).
    destruct (wonElection n1 _); [|destruct (_ =? _); [|by injection Hm as <- <-]];
      apply bind_inv in Hm as (n2 & [] & Hl & Hm); injection Hm as <- <-; (split; [by eapply leader_ok|done]).
  - assert (Sober (when (term n <? vs_term vresp) (new_term (vs_term vresp);; writeTermVote;; lxfer <~ false;; stepdownLocked noLeader);; mret (vs, es, false))) as Hk.
    { apply Keeps_bind; [apply _| |intros _; apply Keeps_ret, _]. apply Keeps_when; [apply _|].
      intros x y b Hx. apply (sober_move_on (vs_term vresp) (writeTermVote;; lxfer <~ false) noLeader ltac:(sober_parts) x y b). rewrite <- Hx.
      cbv [mbind M_bind]. by destruct (new_term (vs_term vresp) x) as [[z []]|]; [destruct (writeTermVote z) as [[? []]|]|]. }
    apply Hk in Hm as S1. split; [by eapply sober_ok|]. intros _. destruct (so_leaves _ _ S1) as [->|[->| ->]]; done.
Qed.

Lemma candidate_good vs es ev n n' a : candidate_step vs es ev n = Some (n', a) -> good n -> loc n = InCandidate vs es -> good n'.
Proof.
  intros Hm Hg Hl. assert (state n <> Leader) as Hs by (intros Hs; destruct Hg as [_ Hp]; destruct (Hp Hs) as [?|[?|?]]; congruence).
  destruct ev; cbn [candidate_step] in Hm; try (by eapply sober_again in Hm; [|sober_parts|done]); try (by injection Hm as <- _).
  - apply bind_inv in Hm as (n0 & m & [= <- <-] & Hm). destruct (votes n) as [|vresp rest]; [by eapply again_good|].
    apply bind_inv in Hm as (n1 & [] & [= <-] & Hm). apply bind_inv in Hm as (n2 & [[vs' es'] leads] & Hc & Hm).
    apply count_good in Hc as [Hok2 Hs2]; [|eapply sober_ok; [|apply Hg]; sober_field|done]. destruct leads.
    + injection Hm as <- _. split; [by apply loc_ok|by left].
    + apply bind_inv in Hm as (n3 & [] & [= <-] & Hm). eapply again_good; [exact Hm|]. split; [by apply loc_ok|]. intros Hst. by destruct (Hs2 eq_refl).
  - eapply top_good in Hm; [done|]. intros n1 b Hc. eapply candidate_ok; [exact Hc|apply Hg|done].
  - injection Hm as <- _. split; [apply loc_ok, Hg|by left].
Qed.

(** The end of a round: a step down and out of the loop. *)
Lemma leave_good p n n' a : (stepdownLocked p;; loc <~ RunTop) n = Some (n', a) -> acks_ok n -> good n'.
Proof. intros Hm Hok. eapply top_good; [exact Hm|]. intros n1 b Hs. by eapply sober_ok; [eapply sober_stepdown|]. Qed.

Lemma leader_good online ev n n' a : leader_step online ev n = Some (n', a) -> good n -> good n'.
Proof.
  intros Hm Hg. destruct ev; cbn [leader_step] in Hm; try (by eapply sober_again in Hm; [|sober_parts|done]); try (by injection Hm as <- _).
  - apply bind_inv in Hm as (n0 & m & [= <- <-] & Hm). apply bind_inv in Hm as (n1 & [] & [= <-] & Hm). apply bind_inv in Hm as (n2 & [] & Hr & Hm).
    eapply again_good; [exact Hm|]. eapply responses_good; [exact Hr| |apply Hg]. eapply sober_good; [|exact Hg]. by apply (sober_drain n _ tt).
  - apply bind_inv in Hm as (n0 & m & [= <- <-] & Hm).
    assert (Sober (prop <~ [];; send_proposals (prop n) [] 0;; each (fun pe => when (negb (bool_decide (p_reply pe = NoSubj))) (sendReply (p_reply pe) [])) (prop n))) as Hk
      by (unfold sendReply; pose proof sober_send_proposals; sober_parts).
    apply (sober_again _ Leader n n' a Hk); [|done]. rewrite <- Hm. cbv [mbind M_bind modify]. by destruct (send_proposals (prop n) [] 0 _) as [[? []]|].
  - apply bind_inv in Hm as (n0 & m & [= <- <-] & Hm). destruct (votes n) as [|v rest]; [by eapply again_good|].
    apply bind_inv in Hm as (n1 & [] & [= <-] & Hm). assert (good (n <| votes := rest |>)) as Hg1 by (eapply sober_good; [|exact Hg]; sober_field).
    destruct (_ <? _); [eapply leave_good; [exact Hm|apply Hg1]|by eapply again_good].
  - apply bind_inv in Hm as (n0 & m & [= <- <-] & Hm). destruct (lostQuorumLocked n); [eapply leave_good; [exact Hm|apply Hg]|by eapply again_good].
  - injection Hm as <- _. split; [apply loc_ok, Hg|by left].
Qed.

Lemma run_good online subs_ok ev n n' a : run_step online subs_ok ev n = Some (n', a) -> good n -> good n'.
Proof.
  intros (n0 & m & [= <- <-] & Hm)%bind_inv Hg. destruct (loc n) as [| | |vs es| |] eqn:Hl.
  - apply bind_inv in Hm as (n1 & [] & Hr & Hm). injection Hm as <- _. apply sober_ResumeApply in Hr. apply sober_good in Hr; [|done].
    split; [|by left]. by destruct Hr as [[] _].
  - apply bind_inv in Hm as (n0 & m & [= <- <-] & Hm). destruct (state n) eqn:Hs.
    + injection Hm as <- _. split; [apply loc_ok, Hg|]. intros Hst. cbn in Hst. congruence.
    + unfold leader_start in Hm. destruct subs_ok; [|eapply leave_good; [exact Hm|apply Hg]].
      apply bind_inv in Hm as (n1 & [] & [= <-] & Hm). eapply again_good; [exact Hm|]. split; [apply loc_ok, Hg|]. by right; left.
    + unfold candidate_start in Hm. apply bind_inv in Hm as (n1 & [] & [= <-] & Hm). apply bind_inv in Hm as (n2 & [] & Hr & Hm).
      apply bind_inv in Hm as (n3 & [] & [= <-] & Hm). apply bind_inv in Hm as (n4 & [] & [= <-] & Hm). eapply again_good; [exact Hm|].
      apply sober_requestVote in Hr as S2. assert (acks_ok n2) as Hok2 by (eapply sober_ok; [exact S2|]; eapply sober_ok; [|apply Hg]; sober_field).
      split; [by destruct Hok2|]. intros Hst. cbn in Hst. destruct (so_leaves _ _ S2) as [E|[E|E]]; cbn in E; congruence.
    + repeat (apply bind_inv in Hm as (? & [] & [= <-] & Hm)). injection Hm as <- _. destruct Hg as [[Hme Hr Ha Hi] _].
      split; [|by intros _; right; right]. split; [exact Hme|by intros ar ?%elem_of_nil|exact Ha|exact Hi].
  - by eapply follower_good.
  - by eapply candidate_good.
  - by eapply leader_good.
  - by injection Hm as <- _.
Qed.

(** ** Messages and the start *)

Lemma deliver_good m n n' a :
  deliver m n = Some (n', a) -> good n ->
  (m_subj m = AppendReply me -> forall ar, decodeAppendEntryResponse (m_data m) = Some ar -> ar_success ar = true -> rep (ar_peer ar) (ar_term ar) (ar_index ar)) ->
  good n'.
Proof.
  intros (n0 & k & [= <- <-] & Hm)%bind_inv Hg Hrep. destruct (_ || _); [by injection Hm as <- _|].
  assert (forall h : M unit, Sober h -> h n = Some (n', a) -> good n') as Hs by (intros h Hh Hm'; by eapply sober_good; [eapply Hh|]).
  destruct (m_subj m) eqn:Hsub; try (by injection Hm as <- _); try solve [eapply Hs; [|exact Hm]; unfold handleVoteRequest, handleAppendEntry, handleVoteResponse;
    pose proof sober_handleForwardedProposal; pose proof sober_handleForwardedRemovePeerProposal; sober_parts].
  destruct (bool_decide_reflect (p = nid n)) as [->|]; cbn [when] in Hm; [|by injection Hm as <- _].
  destruct Hg as [[Hme Hr Ha Hi] Hp]. rewrite Hme in *. unfold handleAppendEntryResponse in Hm.
  destruct (decodeAppendEntryResponse (m_data m)) as [ar|]; [|done]. injection Hm as <- _. split; [|exact Hp]. split; [exact Hme| |exact Ha|exact Hi].
  cbn. intros ar' [Har|Har%list_elem_of_singleton]%elem_of_app; [by apply Hr|]. subst ar'. cbn. by apply Hrep.
Qed.

Lemma sober_setupLastSnapshot : Sober setupLastSnapshot.
Proof. unfold setupLastSnapshot. sober_parts. Qed.

Lemma sober_remove_snapshots : Sober remove_snapshots.
Proof. unfold remove_snapshots. sober_parts. Qed.

Lemma sober_restorePeerState : Sober restorePeerState.
Proof. unfold restorePeerState. sober_parts. Qed.
#[local] Hint Resolve sober_setupLastSnapshot sober_remove_snapshots sober_restorePeerState : keeps.

Lemma sober_queue_size es : forall qsz, Sober (queue_size es qsz).
Proof. induction es as [|e es IH]; intros qsz; cbn [queue_size]; sober_parts. Qed.
#[local] Hint Resolve sober_queue_size : keeps.

Lemma sober_replay count : forall index first qsz, Sober (replay count index first qsz).
Proof. induction count as [|count IH]; intros index first qsz; cbn [replay]; unfold truncateAndErr, replay_entry; sober_parts. Qed.

Lemma sober_start_observer cfg : Sober (start_observer cfg).
Proof. unfold start_observer, SetObserver, setObserverLocked. sober_parts. Qed.
#[local] Hint Resolve sober_replay sober_start_observer : keeps.

Lemma start_good l (d : D) now inbox cfg n : initRaftNode me l d now inbox cfg = Some (inr n) -> good n.
Proof.
  intros Hi. apply bind_Some in Hi as ([n2 e] & Hn & He). destruct e as [|]; [done|]. injection He as ->.
  apply bind_inv in Hn as (n1 & [] & Hr & Hm).
  assert (good n1) as Hg.
  { assert (exists t v, n1 = (fresh me l d now inbox cfg) <| term := t |> <| vote := v |>) as (t & v & ->).
    { apply bind_inv in Hr as (n0 & k & [= <- <-] & Hr). destruct (readFile _ _) as [|buf]; [injection Hr as <-; by exists 0, noVote|].
      destruct (read_term_vote buf) as [t v]. destruct (0 <? t); cbn [when] in Hr; [|injection Hr as <-; by exists 0, noVote].
      apply bind_inv in Hr as (n3 & [] & [= <-] & Hr). injection Hr as <-. by exists t, v. }
    split; [|done]. split; [done|by intros ar ?%elem_of_nil|done|]. intros _ i q Hq. by apply not_elem_of_empty in Hq. }
  eapply sober_good; [|exact Hg]. revert Hm. apply keeps_at_of. sober_parts.
Qed.
End reported.

Lemma good_mono me (rep rep' : peer -> Z -> Z -> Prop) n : (forall q t i, rep q t i -> rep' q t i) -> good me rep n -> good me rep' n.
Proof. intros Hr [[] Hp]. split; [|done]. split; auto. Qed.

(** ** Groups *)

(** A message to [p] that says so is in the network. *)
Definition reported (s : sys) (p q : peer) (t i : Z) : Prop :=
  exists m ar, m ∈ net s /\ m_subj m = AppendReply p /\ decodeAppendEntryResponse (m_data m) = Some ar /\
    ar_success ar = true /\ ar_peer ar = q /\ ar_term ar = t /\ ar_index ar = i.

Definition sound (s : sys) : Prop := forall p n, nodes s !! p = Some n -> good p (reported s p) n.

Lemma settle_sound s p n' : sound s -> good p (reported s p) n' -> sound (settle p n' s).
Proof.
  intros Hs Hg q n Hq. assert (forall q' t i, reported s q q' t i -> reported (settle p n' s) q q' t i) as Hmono.
  { intros q' t i (m & ar & Hm & Hr). exists m, ar. split; [|done]. cbn. apply elem_of_app. by left. }
  cbn in Hq. destruct (decide (q = p)) as [->|Hne].
  - rewrite lookup_insert_eq in Hq. injection Hq as <-. by eapply good_mono.
  - rewrite lookup_insert_ne in Hq by done. eapply good_mono; [exact Hmono|by apply Hs].
Qed.

Lemma exec_sound s s' p (m : M unit) :
  sound s -> exec p m s = Some s' -> (forall n n' a, m n = Some (n', a) -> good p (reported s p) n -> good p (reported s p) n') -> sound s'.
Proof.
  intros Hs (n & Hp & Hx)%bind_Some Hm. apply bind_Some in Hx as ([n' a] & Hn' & [= <-]). apply settle_sound; [done|].
  eapply Hm; [exact Hn'|]. destruct (Hs p n Hp) as [[] Hpl]. by split.
Qed.

Lemma step_sound s ev s' : sound s -> step s ev = Some s' -> sound s'.
Proof.
  intros Hs Hst. destruct ev; cbn [step] in Hst.
  - apply bind_Some in Hst as (m & Hm & Hx). eapply exec_sound; [done|exact Hx|]. intros n n' a Hd Hg. eapply deliver_good; [exact Hd|done|].
    intros Hsub ar Har Hok. exists m, ar. split_and!; try done. by eapply list_elem_of_lookup_2.
  - eapply exec_sound; [done|exact Hst|]. intros n n' a. apply run_good.
  - eapply exec_sound; [done|exact Hst|]. intros n n' a Hc Hg. by eapply sober_good; [eapply sober_api_call|].
  - eapply exec_sound; [done|exact Hst|]. intros n n' a Hc Hg. by eapply sober_good; [eapply sober_catchup_step|].
  - eapply exec_sound; [done|exact Hst|]. intros n n' a Hc Hg. by eapply sober_good; [eapply sober_catchup_stop|].
  - eapply exec_sound; [done|exact Hst|]. intros n n' a Hc Hg. eapply sober_good; [|exact Hg]. injection Hc as <- _. sober_field.
  - apply bind_Some in Hst as (n & Hp & Hst). apply bind_Some in Hst as (r & Hi & Hst). destruct r as [|n']; [done|]. injection Hst as <-.
    apply settle_sound; [done|]. by eapply start_good.
Qed.

Lemma run_sound evs : forall s s', sound s -> run s evs = Some s' -> sound s'.
Proof.
  induction evs as [|ev evs IH]; intros s s' Hs Hr; [by injection Hr as <-|]. cbn [run] in Hr. apply bind_Some in Hr as (s1 & Hs1 & Hr).
  eapply IH; [|exact Hr]. by eapply step_sound.
Qed.

(** C14. What a leader counts it was told.  However a group runs, with any storage, every
    acknowledgement in the table of a leader stands for a message of success to this leader, from
    that peer, for that index and in the leader's current term. *)
Theorem acks_are_reports s0 evs s p n i q :
  starts s0 -> run s0 evs = Some s -> nodes s !! p = Some n -> state n = Leader -> q ∈ default ∅ (acks n !! i) ->
  exists m ar, m ∈ net s /\ m_subj m = AppendReply p /\ decodeAppendEntryResponse (m_data m) = Some ar /\
    ar_success ar = true /\ ar_peer ar = q /\ ar_term ar = term n /\ ar_index ar = i.
Proof.
  intros (Hst & _ & _) Hr Hp Hl Hq. assert (sound s) as Hs.
  { eapply run_sound; [|exact Hr]. intros p' n' Hp'. destruct (Hst p' n' Hp') as (_ & l & d & now & inbox & cfg & Hi). by eapply start_good. }
  destruct (Hs p n Hp) as [[_ _ Ha _] _]. by apply (Ha Hl i q).
Qed.
End acks.

(** ** A leader that waits *)

(** Three of five members are up: A is elected by B and C, and B answers the first entry, which is
    not yet a quorum. *)
Definition dir5 : mem_dir := [(PeerStateFile, encodePeerState (mkPeerState [A; B; C; replicate 8 68; replicate 8 69] 5 0))].

Definition waiting : list event :=
  flat_map (fun p => [round p EvQuit; round p EvQuit]) [A; B; C] ++
  [round A (EvElect false); round A EvQuit; round A EvVotes; Deliver B 0; round B EvReqs; Deliver C 0; round C EvReqs; Deliver A 1; Deliver A 2;
   round A EvVotes; round A EvVotes; round A EvQuit; Deliver B 3; round B (EvEntry false); Deliver A 4; round A EvResp].

Lemma acks_are_reports_witness :
  exists s0 s n m ar, group dir5 dir5 dir5 = Some s0 /\ run s0 waiting = Some s /\ nodes s !! A = Some n /\ state n = Leader /\ B ∈ acked n 2 /\
    m ∈ net s /\ decodeAppendEntryResponse (m_data m) = Some ar /\ ar_peer ar = B /\ ar_term ar = term n /\ ar_index ar = 2.
Proof.
  assert ((s0 ← group dir5 dir5 dir5; s ← run s0 waiting; n ← nodes s !! A; Some (first_messages s0, state n, bool_decide (B ∈ acked n 2))) = Some ([], Leader, true)) as Hr
    by (vm_compute; reflexivity).
  destruct (group dir5 dir5 dir5) as [s0|] eqn:Hg; [|discriminate Hr]. cbn [mbind option_bind] in Hr.
  destruct (run s0 waiting) as [s|] eqn:Hs; [|discriminate Hr]. cbn [mbind option_bind] in Hr. destruct (nodes s !! A) as [n|] eqn:Hn; [|discriminate Hr].
  apply (inj Some) in Hr. injection Hr as Hf Hl Hq%bool_decide_eq_true.
  destruct (acks_are_reports s0 waiting s A n 2 B (group_starts _ _ _ s0 Hg Hf) Hs Hn Hl Hq) as (m & ar & Hm & _ & Hd & _ & Hp & Ht & Hi).
  exists s0, s, n, m, ar. split_and!; done.
Defined.
