(* ===== verification/RaftEntries.v ===== *)
(** * The entries of a leader

    A leader never sends two different entries for the same place in its log: each entry that it
    sends was stored first, and while it leads its log only grows.  With one leader in a term this
    makes the term and index of an entry its identity. *)

From S2P Require Import Prelude Binary RecordUpdate RaftCodec RaftCodecSpec Raft RaftFrame RaftLog RaftAppend RaftRun RaftElection RaftVoting RaftMemory RaftSystem.
Import RaftCodec Raft RaftLog RaftAppend RaftRun RaftMemory Trio.

#[local] Existing Instances calm_preorder quiet_preorder leaves_preorder.

(** The sequence numbers of a log start at 1. *)
Class CountedLog (L : Type) `{WAL L} : Prop := { stored_seq l b seq : (StoreMsg l b).2 = inr seq -> 0 < seq }.

(** ** What a message says about its entries *)

(** The term and the index before the entries, of append entries that are for everyone. *)
Definition append_key (m : message) : option (Z * Z) :=
  if bool_decide (m_subj m = AppendSubj) && (appendEntryBaseLen <=? length (m_data m))%nat && (0 <? le_get 2 (drop 40 (m_data m)))
  then Some (le_get 8 (drop 8 (m_data m)), le_get 8 (drop 32 (m_data m))) else None.

Lemma le_get_put_mod n : forall v b, le_get n (le_put n v ++ b) = v mod 256 ^ Z.of_nat n.
Proof.
  induction n as [|n IH]; intros v b; [cbn; by rewrite Z.mod_1_r|]. cbn [le_put le_get app]. rewrite IH.
  rewrite Nat2Z.inj_succ, Z.pow_succ_r by lia. rewrite Z.rem_mul_r by lia. lia.
Qed.

Lemma le_get_put_u64 v b : le_get 8 (le_put 8 v ++ b) = u64 v.
Proof. rewrite le_get_put_mod. reflexivity. Qed.

Lemma key_of_encode p reply ae buf :
  encode ae (zeros 1024) = inr buf ->
  append_key (mkMessage p AppendSubj reply buf) = if shouldStore ae then Some (u64 (ae_term ae), u64 (ae_pindex ae)) else None.
Proof.
  intros He. pose proof (encode_length _ _ _ He) as Hlen. unfold append_key. cbn [m_subj m_data]. rewrite bool_decide_true by done.
  rewrite (proj2 (Nat.leb_le _ _) Hlen). cbn [andb]. revert He. unfold encode. case_match; [done|].
  destruct (Z.ltb_spec 65535 (zlen (ae_entries ae))) as [|Hn]; [done|]. case_match; [done|]. intros He%(inj inr). subst buf. clear Hlen.
  match goal with |- context [copy ?b (ae_leader ae) ++ _] => set (hd := copy b (ae_leader ae)); assert (length hd = 8%nat) as Hh end.
  { unfold hd. rewrite length_copy. by case_match. }
  rewrite !(drop_pre hd _ 8) by (done || lia). cbn [Nat.sub]. read_bytes.
  rewrite !le_get_put_u64, le_get_put_mod. unfold shouldStore. assert (0 <= zlen (ae_entries ae)) by (unfold zlen; lia).
  change (256 ^ Z.of_nat 2) with (2 ^ 16). unfold u16. by rewrite Zmod_mod, (Z.mod_small (zlen _)) by lia.
Qed.

Section entries.
Context {L D : Type} `{WAL L} `{Files D} `{RaftEnv} `{!CountedLog L} `{!DurableVotes D}.
Notation M := (M L D).
Notation raft := (raft L D).
Notation sys := (sys (L := L) (D := D)).
Implicit Types n : raft.

(** ** Handlers that send no entries to everyone *)

Definition run_subj (r : catchup_run) : subject :=
  match r with CatchupPending ar => ar_reply ar | CatchupRunning _ subj _ _ _ _ _ => subj end.

(** Catchups go to inboxes. *)
Definition sane (n : raft) : Prop :=
  (forall ar, ar ∈ resp n -> ar_reply ar <> AppendSubj) /\ (forall q r, runners n !! q = Some r -> run_subj r <> AppendSubj).

Definition own (p : peer) (m : message) : Prop := m_from m = p /\ m_reply m <> AppendSubj.

Definition entries_free (p : peer) (m : message) : Prop := own p m /\ append_key m = None.

(** A leader was one before, in the same term. *)
Record meek (n n' : raft) : Prop := {
  mk_sane : sane n'; mk_nid : nid n' = nid n;
  mk_lead : state n' = Leader -> state n = Leader /\ term n' = term n;
  mk_out : exists new, out n' = out n ++ new /\ Forall (entries_free (nid n)) new }.

Definition humble (n n' : raft) : Prop := sane n -> meek n n'.

(** And while it leads its log does not get shorter. *)
Definition plain (n n' : raft) : Prop := sane n -> meek n n' /\ (state n' = Leader -> u64 (pindex n) <= u64 (pindex n')).

#[local] Instance humble_preorder : PreOrder humble.
Proof.
  split; [intros n Hs; split; [done|done|done|exists []; by rewrite app_nil_r]|]. intros n1 n2 n3 H12 H23 Hs.
  destruct (H12 Hs) as [S2 I2 L2 (a & Ha & Fa)]. destruct (H23 S2) as [S3 I3 L3 (b & Hb & Fb)]. split; [done|congruence| |].
  - intros Hl. destruct (L3 Hl) as [Hl2 ->]. by apply L2.
  - exists (a ++ b). rewrite Hb, Ha, app_assoc. rewrite I2 in Fb. split; [done|by apply Forall_app].
Qed.

#[local] Instance plain_preorder : PreOrder plain.
Proof.
  split; [intros n Hs; split; [by apply (reflexivity (R := humble) n)|lia]|]. intros n1 n2 n3 H12 H23 Hs.
  destruct (H12 Hs) as [M2 P2]. destruct (H23 (mk_sane _ _ M2)) as [M3 P3]. assert (humble n1 n3) as Hh by (transitivity n2; by intros ?). split; [by apply Hh|].
  intros Hl. specialize (P3 Hl). destruct (mk_lead _ _ M3 Hl) as [Hl2 _]. specialize (P2 Hl2). lia.
Qed.

Lemma plain_humble n n' : plain n n' -> humble n n'.
Proof. intros Hp Hs. apply Hp, Hs. Qed.

Lemma humble_plain n n' : state n <> Leader -> humble n n' -> plain n n'.
Proof. intros Hl Hh Hs. specialize (Hh Hs). split; [done|]. intros Hl'. by destruct (mk_lead _ _ Hh Hl'). Qed.

Lemma humble_view n n' :
  nid n' = nid n -> state n' = state n -> term n' = term n -> out n' = out n -> resp n' = resp n -> runners n' = runners n -> humble n n'.
Proof.
  intros Hi Hst Ht Ho Hr Hru Hs. split; [unfold sane; by rewrite Hr, Hru|done|by rewrite Hst|exists []; by rewrite Ho, app_nil_r].
Qed.

Lemma plain_view n n' :
  nid n' = nid n -> state n' = state n -> term n' = term n -> out n' = out n -> resp n' = resp n -> runners n' = runners n -> pindex n' = pindex n ->
  plain n n'.
Proof. intros Hi Hst Ht Ho Hr Hru Hp Hs. split; [by apply humble_view|rewrite Hp; lia]. Qed.

Ltac plain_field := by apply plain_view.
Ltac plain_parts := keeps_with plain_field.
Ltac humble_parts := keeps_with ltac:(by apply humble_view).
Notation Plain := (Keeps plain).
Notation Humble := (Keeps humble).

Lemma Keeps_humble {A} (m : M A) : Plain m -> Humble m.
Proof. intros Hm n n' a Ha. by apply plain_humble, (Hm n n' a). Qed.
#[local] Hint Extern 3 (Keeps humble _) => apply Keeps_humble; solve [eauto 1 with keeps nocore | plain_parts] : keeps.

(** ** Sending *)

Lemma plain_send subj reply data : reply <> AppendSubj -> subj <> AppendSubj \/ (length data < 42)%nat -> Plain (sendRPC subj reply data).
Proof.
  intros Hr Hd. apply Keeps_modify. intros n Hs. split; [|cbn; lia]. split; [done|done|done|]. eexists. split; [done|].
  apply Forall_singleton. split; [done|]. unfold append_key, appendEntryBaseLen. cbn [m_subj m_data].
  destruct Hd as [Hd|Hd]; [by rewrite bool_decide_false|]. rewrite (proj2 (Nat.leb_gt _ _) Hd). by rewrite andb_false_r.
Qed.

Lemma plain_respond subj reply t i b : reply <> AppendSubj -> Plain (respond subj reply t i b).
Proof.
  intros Hr. apply Keeps_get_bind. intros n. apply keeps_at_of, plain_send; [done|]. right. rewrite length_encode_ar. lia.
Qed.

Lemma plain_reply_vs subj v : Plain (sendReply subj (encode_vs v)).
Proof. apply plain_send; [done|]. right. rewrite length_encode_vs. unfold voteResponseLen. lia. Qed.

Lemma plain_reply_nothing subj : Plain (sendReply subj []).
Proof. apply plain_send; [done|]. right. cbn. lia. Qed.

Lemma plain_forward subj reply data : reply <> AppendSubj -> subj <> AppendSubj -> Plain (sendRPC subj reply data).
Proof. intros. apply plain_send; auto. Qed.
#[local] Hint Resolve plain_reply_vs plain_reply_nothing : keeps.
#[local] Hint Extern 2 (Keeps plain (respond _ _ _ _ _)) => apply plain_respond; done : keeps.
#[local] Hint Extern 2 (Keeps plain (sendRPC _ _ _)) => apply plain_forward; done : keeps.

(** ** Storage and roles *)

Lemma plain_leave n n' :
  nid n' = nid n -> state n' <> Leader -> out n' = out n -> resp n' = resp n -> runners n' = runners n -> plain n n'.
Proof.
  intros Hi Hl Ho Hr Hru Hs. split; [|done]. split; [unfold sane; by rewrite Hr, Hru|done|done|exists []; by rewrite Ho, app_nil_r].
Qed.

Lemma plain_shutdown : Plain shutdown.
Proof.
  intros n n' a. unfold shutdown. cbv [mbind M_bind get]. destruct (isClosed n); [intros [= <- <-]; reflexivity|].
  intros [= <- <-]. by apply plain_leave.
Qed.
#[local] Hint Resolve plain_shutdown : keeps.

Lemma plain_setWriteErrLocked e : Plain (setWriteErrLocked e).
Proof. unfold setWriteErrLocked. plain_parts. Qed.

Lemma plain_write_file f b : Plain (write_file f b).
Proof. intros n n' a. unfold write_file. destruct (writeFile (disk n) f b) as [d e]. intros [= <- <-]. plain_field. Qed.

Lemma plain_remove_file f : Plain (remove_file f).
Proof. unfold remove_file. plain_parts. Qed.
#[local] Hint Resolve plain_setWriteErrLocked plain_write_file plain_remove_file : keeps.

Lemma plain_stat_write_file f b : Plain (stat_write_file f b).
Proof. unfold stat_write_file. plain_parts. Qed.
#[local] Hint Resolve plain_stat_write_file : keeps.

Lemma plain_writeTermVote : Plain writeTermVote.
Proof. unfold writeTermVote. plain_parts. Qed.

Lemma plain_writePeerState ps : Plain (writePeerState ps).
Proof. unfold writePeerState. plain_parts. Qed.

Lemma plain_updateLeadChange b : Plain (updateLeadChange b).
Proof. unfold updateLeadChange. plain_parts. Qed.
#[local] Hint Resolve plain_writeTermVote plain_writePeerState plain_updateLeadChange : keeps.

Lemma plain_updateLeader p : Plain (updateLeader p).
Proof. unfold updateLeader. plain_parts. Qed.
#[local] Hint Resolve plain_updateLeader : keeps.

Lemma plain_drain : Plain (resp <~ []).
Proof. apply Keeps_modify. intros n Hs. split; [|cbn; lia]. split; [split; [by intros ar ?%elem_of_nil|apply Hs]|done|done|exists []; cbn; by rewrite app_nil_r]. Qed.
#[local] Hint Resolve plain_drain : keeps.

Lemma plain_lead_change pst st : Plain (lead_change pst st).
Proof. unfold lead_change. plain_parts. Qed.
#[local] Hint Resolve plain_lead_change : keeps.

Lemma plain_become st : st <> Leader -> Plain (state <~ st).
Proof. intros Hst. apply Keeps_modify. intros n. by apply plain_leave. Qed.

Lemma plain_switch st : st <> Leader -> Plain (switchState st).
Proof. intros Hst. pose proof (plain_become st Hst). unfold switchState. plain_parts. Qed.

Lemma plain_stepdown p : Plain (stepdownLocked p).
Proof. pose proof (plain_switch Follower ltac:(done)). unfold stepdownLocked, switchToFollowerLocked. plain_parts. Qed.
#[local] Hint Resolve plain_stepdown : keeps.

(** ** Catchup, membership, snapshots and the log *)

Lemma plain_unsubscribe s : Plain (unsubscribe s).
Proof. unfold unsubscribe. plain_parts. Qed.
#[local] Hint Resolve plain_unsubscribe : keeps.

Lemma plain_cancelCatchup : Plain cancelCatchup.
Proof. unfold cancelCatchup, cancelCatchupSignal. plain_parts. Qed.

Lemma plain_addPeer p : Plain (addPeer p).
Proof. unfold addPeer, adjustClusterSizeAndQuorum. plain_parts. Qed.

Lemma plain_removePeer p : Plain (removePeer p).
Proof. unfold removePeer, adjustClusterSizeAndQuorum. plain_parts. Qed.

Lemma plain_processPeerState ps : Plain (processPeerState ps).
Proof. unfold processPeerState. plain_parts. Qed.

Lemma plain_resetInitializing : Plain resetInitializing.
Proof. unfold resetInitializing, setObserverLocked. plain_parts. Qed.

Lemma plain_loadLastSnapshot : Plain loadLastSnapshot.
Proof. unfold loadLastSnapshot. plain_parts. Qed.
#[local] Hint Resolve plain_cancelCatchup plain_addPeer plain_removePeer plain_processPeerState plain_resetInitializing plain_loadLastSnapshot : keeps.

Lemma plain_installSnapshot snap : Plain (installSnapshot snap).
Proof. unfold installSnapshot. plain_parts. Qed.
#[local] Hint Resolve plain_installSnapshot : keeps.

Lemma humble_truncateWAL t i : Humble (truncateWAL t i).
Proof. unfold truncateWAL, truncated. humble_parts. Qed.
#[local] Hint Resolve humble_truncateWAL : keeps.

Lemma humble_resetWAL : Humble resetWAL.
Proof. apply humble_truncateWAL. Qed.
#[local] Hint Resolve humble_resetWAL : keeps.

(** A leader that steps down before it loses entries. *)
Lemma plain_step_aside {A} p (b : bool) (rest : M A) n :
  (b = false -> state n <> Leader) -> Humble rest -> keeps_at plain (when b (stepdownLocked p);; rest) n.
Proof.
  intros Hb Hr n' a (n1 & [] & Hs & Hm)%bind_inv. assert (plain n n1 /\ state n1 <> Leader) as [Hp Hl].
  { destruct b; cbn [when] in Hs; [|injection Hs as <-; split; [reflexivity|auto]]. split; [by apply (plain_stepdown p n n1 tt)|].
    apply stepdown_demoted in Hs as [Hs|Hs]; congruence. }
  transitivity n1; [done|]. apply humble_plain; [done|by apply (Hr n1 n' a)].
Qed.

Lemma not_leader n : isLeader n = false -> state n <> Leader.
Proof. unfold isLeader. by intros ?%bool_decide_eq_false. Qed.

Lemma humble_storeToWAL ae : Humble (storeToWAL ae).
Proof. unfold storeToWAL. humble_parts. Qed.
#[local] Hint Resolve humble_storeToWAL : keeps.

Lemma u64_next x : 0 < u64 (x + 1) -> u64 x < u64 (u64 (x + 1)).
Proof.
  unfold u64. rewrite Zmod_mod, <- (Zplus_mod_idemp_l x). pose proof (Z.mod_pos_bound x (2 ^ 64) ltac:(lia)) as Hx. set (y := x mod 2 ^ 64) in *.
  destruct (decide (y + 1 = 2 ^ 64)) as [->|Hy]; [by rewrite Z_mod_same_full|]. rewrite (Z.mod_small (y + 1)) by lia. lia.
Qed.

(** An entry for the next index: it gets it, or the node does not lead any more. *)
Lemma store_next ae n n' e :
  storeToWAL ae n = Some (n', e) -> ae_pindex ae = pindex n ->
  plain n n' /\ (e = None -> nid n' = nid n /\ out n' = out n /\ state n' = state n /\ csz n' = csz n /\ u64 (pindex n) < u64 (pindex n')).
Proof.
  intros (n0 & m & [= <- <-] & Hm)%bind_inv Hae. destruct (werr n); [injection Hm as <- <-; by split; [reflexivity|]|].
  destruct (StoreMsg (wal n) (ae_buf ae)) as [l r] eqn:Hst. apply bind_inv in Hm as (n1 & [] & [= <-] & Hm).
  assert (plain n (n <| wal := l |>)) as Hp by plain_field. destruct r as [err|seq].
  { apply bind_inv in Hm as (n2 & [] & Hw & [= <- <-]). split; [|done]. transitivity (n <| wal := l |>); [done|by eapply plain_setWriteErrLocked]. }
  rewrite Hae in Hm. destruct (Z.eqb_spec (u64 (pindex n + 1)) seq) as [Hseq|]; cbn [negb] in Hm.
  - do 3 apply bind_inv in Hm as (? & [] & [= <-] & Hm). injection Hm as <- <-.
    pose proof (stored_seq (wal n) (ae_buf ae) seq) as Hpos. rewrite Hst in Hpos. specialize (Hpos eq_refl).
    assert (u64 (pindex n) < u64 seq) as Hlt.
    { subst seq. by apply u64_next. }
    split; [|done]. intros Hs. split; [by apply humble_view|cbn; lia].
  - split; [|intros ->; repeat (apply bind_inv in Hm as (? & ? & _ & Hm)); discriminate].
    transitivity (n <| wal := l |>); [done|]. revert Hm. apply plain_step_aside; [by intros ?%not_leader|humble_parts].
Qed.

Lemma plain_cachePendingEntry ae : Plain (cachePendingEntry ae).
Proof. unfold cachePendingEntry. plain_parts. Qed.
#[local] Hint Resolve plain_cachePendingEntry : keeps.

Lemma plain_apply_entries ae es : forall committed, Plain (apply_entries ae es committed).
Proof. induction es as [|e es IH]; intros committed; cbn [apply_entries]; plain_parts. Qed.
#[local] Hint Resolve plain_apply_entries : keeps.

Lemma plain_commit_entry i ae : Plain (commit_entry i ae).
Proof. unfold commit_entry. plain_parts. Qed.
#[local] Hint Resolve plain_commit_entry : keeps.

Lemma plain_applyCommit i : Plain (applyCommit i).
Proof.
  apply Keeps_get_bind. intros n. destruct (isClosed n); [apply keeps_at_of; plain_parts|].
  destruct (i <=? commit n); [apply keeps_at_of; plain_parts|]. apply keeps_at_bind; [apply _|apply keeps_at_of; plain_parts|].
  intros n1 [] Hw. assert (state n1 = state n) as Hs by (destruct (isLeader n); by injection Hw as <-).
  destruct (pae n !! i); [apply keeps_at_of; plain_parts|]. destruct (i <? papplied n); [apply keeps_at_of; plain_parts|].
  intros n' a (n2 & r & Hr & Hm)%bind_inv. assert (n2 = n1) as -> by (unfold lift in Hr; destruct (loadEntry n i); [by injection Hr|discriminate Hr]).
  revert Hm. destruct r as [e|ae]; [|apply keeps_at_of; plain_parts]. apply keeps_at_bind; [apply _| |intros; apply keeps_at_of; plain_parts].
  destruct (_ && _); cbn [when]; [|apply keeps_at_of; plain_parts]. apply plain_step_aside; [rewrite Hs; apply not_leader|humble_parts].
Qed.
#[local] Hint Resolve plain_applyCommit : keeps.

Lemma plain_apply_commits count : forall i, Plain (apply_commits count i).
Proof. induction count as [|count IH]; intros i; cbn [apply_commits]; plain_parts. Qed.
#[local] Hint Resolve plain_apply_commits : keeps.

Lemma plain_apply_range i j : Plain (apply_range i j).
Proof. apply plain_apply_commits. Qed.
#[local] Hint Resolve plain_apply_range : keeps.

Lemma plain_tryCommit i : Plain (tryCommit i).
Proof. unfold tryCommit. plain_parts. Qed.

Lemma plain_trackResponse ar : Plain (trackResponse ar).
Proof. unfold trackResponse. plain_parts. Qed.

Lemma plain_ProposeAddPeer p : Plain (ProposeAddPeer p).
Proof. unfold ProposeAddPeer. plain_parts. Qed.
#[local] Hint Resolve plain_tryCommit plain_trackResponse plain_ProposeAddPeer : keeps.

Lemma plain_trackPeer p : Plain (trackPeer p).
Proof. unfold trackPeer. plain_parts. Qed.

Lemma plain_catchupStalled : Plain catchupStalled.
Proof. unfold catchupStalled. plain_parts. Qed.

Lemma plain_createCatchup ae : Plain (createCatchup ae).
Proof. unfold createCatchup. plain_parts. Qed.

Lemma plain_sendCatchupSignal : Plain sendCatchupSignal.
Proof. unfold sendCatchupSignal. plain_parts. Qed.
#[local] Hint Resolve plain_trackPeer plain_catchupStalled plain_createCatchup plain_sendCatchupSignal : keeps.

(** A new inbox is asked to be filled. *)
Lemma plain_ask (ae : appendEntry) subj : Plain (inbox ← createCatchup ae; n ← get; respond subj inbox (pterm n) (pindex n) false).
Proof.
  intros n n' a (n1 & inbox & Hc & Hm)%bind_inv. transitivity n1; [by apply (plain_createCatchup ae n n1 inbox)|].
  assert (inbox <> AppendSubj) as Hi by (repeat (apply bind_inv in Hc as (? & ? & _ & Hc)); by injection Hc as _ <-).
  apply bind_inv in Hm as (n0 & m & [= <- <-] & Hm). by apply plain_respond in Hm.
Qed.
#[local] Hint Resolve plain_ask : keeps.

(** ** Handlers that send entries *)

(** One message for a term and index. *)
Definition once (ms : list message) : Prop := NoDup (omap append_key ms).

Lemma once_app (a b : list message) :
  once a -> once b -> (forall x y k, x ∈ a -> y ∈ b -> append_key x = Some k -> append_key y = Some k -> False) -> once (a ++ b).
Proof.
  intros Ha Hb Hd. unfold once. rewrite omap_app. apply NoDup_app. split_and!; [done| |done].
  intros k (x & Hx & Kx)%list_elem_of_omap (y & Hy & Ky)%list_elem_of_omap. by eapply Hd.
Qed.

Lemma no_keys (ms : list message) : (forall m, m ∈ ms -> append_key m = None) -> omap append_key ms = [].
Proof. induction ms as [|m ms IH]; intros Hk; [done|]. cbn. rewrite Hk by left. apply IH. intros m' Hm'. apply Hk. by right. Qed.

(** Entries of the term in which the node leads, from the end of its log on. *)
Record sent (n n' : raft) (new : list message) : Prop := {
  se_own : Forall (own (nid n)) new;
  se_key : forall m t i, m ∈ new -> append_key m = Some (t, i) ->
    state n = Leader /\ t = u64 (term n) /\ u64 (pindex n) <= i /\ (state n' = Leader -> i < u64 (pindex n'));
  se_once : once new }.

Record led (n n' : raft) : Prop := {
  ld_sane : sane n'; ld_nid : nid n' = nid n;
  ld_lead : state n' = Leader -> state n = Leader /\ term n' = term n /\ u64 (pindex n) <= u64 (pindex n');
  ld_out : exists new, out n' = out n ++ new /\ sent n n' new }.

Definition lawful (n n' : raft) : Prop := sane n -> led n n'.

Lemma sent_free n n' new : Forall (entries_free (nid n)) new -> sent n n' new.
Proof.
  intros Hf. assert (forall m, m ∈ new -> append_key m = None) as Hk by (rewrite Forall_forall in Hf; intros m Hm; by apply Hf).
  split; [eapply Forall_impl; [exact Hf|by intros m []]|intros m t i Hm; by rewrite (Hk m Hm)|]. unfold once. rewrite no_keys by done. constructor.
Qed.

Lemma sent_app n1 n2 n3 a b :
  sent n1 n2 a -> sent n2 n3 b -> nid n2 = nid n1 ->
  (state n2 = Leader -> state n1 = Leader /\ term n2 = term n1 /\ u64 (pindex n1) <= u64 (pindex n2)) ->
  (state n3 = Leader -> state n2 = Leader /\ term n3 = term n2 /\ u64 (pindex n2) <= u64 (pindex n3)) -> sent n1 n3 (a ++ b).
Proof.
  intros [Oa Ka Na] [Ob Kb Nb] Hid L12 L23. rewrite Hid in Ob. split; [by apply Forall_app| |].
  - intros m t i [Hm|Hm]%elem_of_app Hk.
    + destruct (Ka m t i Hm Hk) as (Hl & Ht & Hi & Hlt). split_and!; [done..|]. intros Hl3. destruct (L23 Hl3) as (Hl2 & _ & Hp). specialize (Hlt Hl2). lia.
    + destruct (Kb m t i Hm Hk) as (Hl2 & Ht & Hi & Hlt). destruct (L12 Hl2) as (Hl1 & Ht1 & Hp). split_and!; [done|congruence|lia|done].
  - apply once_app; [done|done|]. intros x y [t i] Hx Hy Kx Ky.
    destruct (Kb y t i Hy Ky) as (Hl2 & _ & Hi & _). destruct (Ka x t i Hx Kx) as (_ & _ & _ & Hlt). specialize (Hlt Hl2). lia.
Qed.

#[local] Instance lawful_preorder : PreOrder lawful.
Proof.
  split; [intros n Hs; split; [done|done|done|exists []; rewrite app_nil_r; split; [done|by apply sent_free]]|].
  intros n1 n2 n3 H12 H23 Hs. destruct (H12 Hs) as [S2 I2 L2 (a & Ha & Fa)]. destruct (H23 S2) as [S3 I3 L3 (b & Hb & Fb)]. split; [done|congruence| |].
  - intros Hl. destruct (L3 Hl) as (Hl2 & -> & Hp). destruct (L2 Hl2) as (? & -> & ?). split_and!; [done|done|lia].
  - exists (a ++ b). rewrite Hb, Ha, app_assoc. split; [done|]. by eapply sent_app.
Qed.

Lemma plain_lawful n n' : plain n n' -> lawful n n'.
Proof.
  intros Hp Hs. destruct (Hp Hs) as [[S I Ll (new & Hn & Hf)] Hi]. split; [done|done| |].
  - intros Hl. destruct (Ll Hl). split_and!; auto. - exists new. split; [done|by apply sent_free].
Qed.

Ltac lawful_parts := keeps_with ltac:(apply plain_lawful; plain_field).
Notation Lawful := (Keeps lawful).

Lemma Keeps_lawful {A} (m : M A) : Plain m -> Lawful m.
Proof. intros Hm n n' a Ha. by apply plain_lawful, (Hm n n' a). Qed.
#[local] Hint Extern 3 (Keeps lawful _) => apply Keeps_lawful; solve [eauto 1 with keeps nocore | plain_parts] : keeps.

Lemma lawful_of_humble n n' : state n <> Leader -> humble n n' -> lawful n n'.
Proof. intros Hl Hh. by apply plain_lawful, humble_plain. Qed.

(** The message with an entry that was just stored. *)
Lemma lawful_send_stored n n' m t i :
  plain n n' -> out n' = out n -> state n = Leader -> u64 (pindex n) < u64 (pindex n') ->
  own (nid n) m -> append_key m = Some (t, i) -> t = u64 (term n) -> i = u64 (pindex n) -> lawful n (n' <| out := out n' ++ [m] |>).
Proof.
  intros Hp Ho Hl Hlt Hm Hk -> -> Hs. destruct (Hp Hs) as [[S I Ll _] _]. split; [exact S|exact I| |].
  - cbn. intros Hl'. destruct (Ll Hl'). split_and!; [done|done|lia].
  - exists [m]. cbn. rewrite Ho. split; [done|]. split; [by apply Forall_singleton| |].
    + intros m' t' i' ->%list_elem_of_singleton Hk'. rewrite Hk in Hk'. injection Hk' as <- <-. split_and!; [done|done|lia|done].
    + unfold once. cbn. rewrite Hk. apply NoDup_singleton.
Qed.

(** Nothing that carries entries was sent. *)
Definition no_entries (n n' : raft) : Prop := exists new, out n' = out n ++ new /\ Forall (entries_free (nid n)) new.

Lemma plain_no_entries n n' : plain n n' -> sane n -> no_entries n n'.
Proof. intros Hp Hs. by destruct (Hp Hs) as [[] _]. Qed.

(** What holds after a leader sent entries: in a group of more than one it still leads if it sent
    any. *)
Definition posted (n n' : raft) : Prop := lawful n n' /\ (sane n -> csz n <> 1 -> state n' = Leader \/ no_entries n n').

Lemma plain_posted n n' : plain n n' -> posted n n'.
Proof. intros Hp. split; [by apply plain_lawful|]. intros Hs _. right. by apply plain_no_entries. Qed.

Lemma send_message buf n n1 n2 e :
  nid n1 = nid n -> csz n1 = csz n -> state n1 = Leader -> lawful n (n1 <| out := out n1 ++ [mkMessage (nid n) AppendSubj (AppendReply (nid n)) buf] |>) ->
  (sendRPC AppendSubj (AppendReply (nid n)) buf;; k ← get; when (csz k =? 1) (tryCommit (pindex k);; mret tt);; mret None) n1 = Some (n2, e : option rerr) ->
  posted n n2.
Proof.
  intros Hi Hc Hl Hlaw (n3 & [] & Hsend & Hr)%bind_inv. injection Hsend as <-. rewrite Hi in Hr.
  apply bind_inv in Hr as (n0 & k & [= <- <-] & Hr). apply bind_inv in Hr as (n4 & [] & Hw & [= <- <-]). split.
  - etransitivity; [exact Hlaw|]. revert Hw. apply keeps_at_of. lawful_parts.
  - intros _ Hne. left. rewrite <- Hc in Hne. cbn in Hw. rewrite (proj2 (Z.eqb_neq _ _) Hne) in Hw. injection Hw as <-. exact Hl.
Qed.

Lemma send_entries es b n n' e : sendAppendEntryLocked es b n = Some (n', e) -> state n = Leader -> posted n n'.
Proof.
  intros (n0 & m & [= <- <-] & Hm)%bind_inv Hl. unfold isLeader in Hm. rewrite bool_decide_true in Hm by done. rewrite andb_false_r in Hm. cbv zeta in Hm.
  destruct (encode (buildAppendEntry n es) (zeros 1024)) as [err|buf] eqn:He; [injection Hm as <- <-; apply plain_posted; reflexivity|].
  apply bind_inv in Hm as (n1 & e1 & Hst & Hm).
  change (shouldStore (with_buf (buildAppendEntry n es) buf)) with (shouldStore (buildAppendEntry n es)) in Hst.
  set (msg := mkMessage (nid n) AppendSubj (AppendReply (nid n)) buf).
  pose proof (key_of_encode (nid n) (AppendReply (nid n)) _ buf He) as Hkey. fold msg in Hkey. assert (own (nid n) msg) as Hown by done.
  destruct (shouldStore (buildAppendEntry n es)).
  - apply bind_inv in Hst as (n2 & e2 & Hs2 & Hst). apply store_next in Hs2 as [Hp2 Hok]; [|done].
    destruct e2 as [err|]; [injection Hst as <- <-; injection Hm as <- <-; by apply plain_posted|]. destruct (Hok eq_refl) as (Hi & Ho & Hs & Hc & Hlt).
    apply bind_inv in Hst as (n3 & [] & Ha & Hst). apply bind_inv in Hst as (n4 & [] & Hca & Hst). injection Hst as <- <-.
    set (view := fun k : raft => (nid k, out k, state k, csz k, pindex k)).
    assert (view n4 = view n2) as V by (injection Ha as <-; apply bind_inv in Hca as (n0 & k & [= <- <-] & Hca); case_match; by injection Hca as <-).
    injection V as Vi Vo Vs Vc Vp. assert (plain n n4) as Hp4.
    { transitivity n2; [done|]. transitivity n3; [injection Ha as <-; plain_field|by apply plain_cachePendingEntry in Hca]. }
    eapply (send_message buf n n4); [congruence|congruence|congruence| |exact Hm].
    eapply lawful_send_stored; [done|congruence|done|congruence|done|exact Hkey|done|done].
  - injection Hst as <- <-. eapply (send_message buf n n); [done|done|done| |exact Hm]. apply plain_lawful. intros Hs. split; [|cbn; lia].
    split; [done|done|done|]. exists [msg]. split; [done|]. by apply Forall_singleton.
Qed.

Lemma lawful_send es : Lawful (sendAppendEntryLocked es true).
Proof.
  intros n n' e Hm. destruct (decide (state n = Leader)) as [Hl|Hl]; [by eapply send_entries|].
  apply bind_inv in Hm as (n0 & m & [= <- <-] & Hm). unfold isLeader in Hm. rewrite bool_decide_false in Hm by done. cbn in Hm. injection Hm as <- <-. reflexivity.
Qed.
#[local] Hint Resolve lawful_send : keeps.

Lemma lawful_sendAppendEntry es : Lawful (sendAppendEntry es).
Proof. unfold sendAppendEntry. lawful_parts. Qed.

Lemma lawful_sendPeerState : Lawful sendPeerState.
Proof. unfold sendPeerState. lawful_parts. Qed.
#[local] Hint Resolve lawful_sendAppendEntry lawful_sendPeerState : keeps.

Lemma lawful_sendHeartbeat : Lawful sendHeartbeat.
Proof. apply lawful_sendAppendEntry. Qed.

Lemma lawful_sendMembershipChange e : Lawful (sendMembershipChange e).
Proof. unfold sendMembershipChange. lawful_parts. Qed.

Lemma lawful_StepDown online ps : Lawful (StepDown online ps).
Proof. unfold StepDown. lawful_parts. Qed.
#[local] Hint Resolve lawful_sendHeartbeat lawful_sendMembershipChange lawful_StepDown : keeps.

(** ** Catching up *)

Lemma plain_sendSnapshotToFollower subj : subj <> AppendSubj -> Plain (sendSnapshotToFollower subj).
Proof.
  intros Hs. assert (forall r data, r <> AppendSubj -> Plain (sendRPC subj r data)) as Hk by (intros; by apply plain_forward).
  unfold sendSnapshotToFollower. plain_parts.
Qed.

Lemma plain_catchup_first i : Plain (catchup_first i).
Proof. unfold catchup_first. plain_parts. Qed.
#[local] Hint Resolve plain_catchup_first : keeps.

Lemma plain_add_runner q r n : run_subj r <> AppendSubj -> plain n (n <| runners := <[q := r]> (runners n) |>).
Proof.
  intros Hr Hs. split; [|cbn; lia]. split; [|done|done|exists []; cbn; by rewrite app_nil_r]. destruct Hs as [Hre Hru]. split; [exact Hre|].
  cbn. intros q' r'. rewrite lookup_insert_Some. intros [[_ <-]|[_ Hq]]; [done|by eapply Hru].
Qed.

Lemma plain_start_runner p r x :
  run_subj r <> AppendSubj ->
  Plain (n ← get; let q := nextQueue n in
    queues <~ <[q := [x]]> (queues n);; progress <~ <[p := q]> (progress n);; runners <~ <[q := r]> (runners n);; nextQueue <~ (q + 1)).
Proof.
  intros Hr n n' a Hm. do 4 apply bind_inv in Hm as (? & ? & [= <- <-] & Hm). injection Hm as <- _.
  etransitivity; [by apply (plain_add_runner (nextQueue n) r)|]. plain_field.
Qed.

Lemma plain_catchupFollower ar : ar_reply ar <> AppendSubj -> Plain (catchupFollower ar).
Proof.
  intros Ha. pose proof (plain_sendSnapshotToFollower _ Ha). pose proof (fun x => plain_start_runner (ar_peer ar) (CatchupPending ar) x Ha).
  unfold catchupFollower. plain_parts.
Qed.

Lemma plain_catchup_exit q p : Plain (catchup_exit q p).
Proof.
  assert (Plain (modify (fun n => n <| progress := delete p (progress n) |> <| runners := delete q (runners n) |> <| queues := delete q (queues n) |>))) as Hd.
  { apply Keeps_modify. intros n [Hre Hru]. split; [|cbn; lia]. split; [|done|done|exists []; cbn; by rewrite app_nil_r].
    split; [exact Hre|]. cbn. intros q' r' [_ Hq]%lookup_delete_Some. by eapply Hru. }
  unfold catchup_exit. plain_parts.
Qed.
#[local] Hint Resolve plain_catchup_exit : keeps.

Lemma plain_sendNext fuel subj t last : subj <> AppendSubj -> forall next total om, Plain (sendNext fuel subj t last next total om).
Proof. intros Hs. induction fuel as [|fuel IH]; intros next total om; cbn [sendNext]; plain_parts. Qed.

Lemma plain_catchup_go_on q p r fin : run_subj r <> AppendSubj ->
  Plain (n ← get; if fin || negb (isLeader n) then catchup_exit q p else runners <~ <[q := r]> (runners n)).
Proof.
  intros Hr. apply Keeps_get_bind. intros n. destruct (_ || _); [apply keeps_at_of; plain_parts|]. intros n' a [= <- _]. by apply plain_add_runner.
Qed.

Lemma plain_catchup_step q : Plain (catchup_step q).
Proof.
  apply Keeps_get_bind. intros n. destruct (runners n !! q) as [[ar|p subj t last next total om]|] eqn:Hq; [| |apply keeps_at_of; plain_parts].
  - destruct (negb (isLeader n)); [apply keeps_at_of; plain_parts|]. intros n' a [= <- _] Hs. apply plain_add_runner; [|done]. by apply (proj2 Hs) in Hq.
  - intros n' a Hm Hs. pose proof (proj2 Hs _ _ Hq : subj <> AppendSubj) as Hsubj. match type of Hm with ?m n = _ => enough (Plain m) as Hk by exact (Hk n n' a Hm Hs) end.
    pose proof (fun fuel => plain_sendNext fuel subj t last Hsubj). pose proof (fun t' l x y z b => plain_catchup_go_on q p (CatchupRunning p subj t' l x y z) b Hsubj).
    plain_parts.
Qed.

Lemma plain_catchup_stop q : Plain (catchup_stop q).
Proof. unfold catchup_stop. plain_parts. Qed.

(** ** The parts of [processAppendEntry] *)

Lemma plain_pae_catchup ae b c : Plain (pae_catchup ae b c).
Proof. unfold pae_catchup. plain_parts. Qed.

Lemma plain_pae_leader ae b : Plain (pae_leader ae b).
Proof. unfold pae_leader. plain_parts. Qed.

Lemma plain_pae_paused s b : Plain (pae_paused s b).
Proof. unfold pae_paused. plain_parts. Qed.

Lemma humble_pae_conflict ae b : Humble (pae_conflict ae b).
Proof. unfold pae_conflict. humble_parts. Qed.

Lemma humble_pae_snapshot ae : Humble (pae_snapshot ae).
Proof. unfold pae_snapshot. humble_parts. Qed.
#[local] Hint Resolve plain_pae_catchup plain_pae_leader plain_pae_paused humble_pae_conflict humble_pae_snapshot : keeps.

Lemma plain_ask_false (ae : appendEntry) subj : Plain (inbox ← createCatchup ae; n ← get; respond subj inbox (pterm n) (pindex n) false;; mret false).
Proof.
  intros n n' b (n1 & inbox & Hc & Hm)%bind_inv. apply bind_inv in Hm as (n0 & m & [= <- <-] & Hm). apply bind_inv in Hm as (n2 & [] & Hr & [= <- <-]).
  apply (plain_ask ae subj n n2 tt). cbv [mbind M_bind get]. by rewrite Hc.
Qed.
#[local] Hint Resolve plain_ask_false : keeps.

Lemma humble_pae_consistency ae b c : Humble (pae_consistency ae b c).
Proof. unfold pae_consistency. humble_parts. Qed.

Lemma plain_pae_entry b e : Plain (pae_entry b e).
Proof. unfold pae_entry, xferCampaign. plain_parts. Qed.

Lemma humble_pae_store ae s : Humble (pae_store ae s).
Proof. unfold pae_store. humble_parts. Qed.

Lemma plain_pae_commit ae b : Plain (pae_commit ae b).
Proof. unfold pae_commit. plain_parts. Qed.
#[local] Hint Resolve humble_pae_consistency plain_pae_entry humble_pae_store plain_pae_commit : keeps.

Lemma humble_pae_continue ae s b c : Humble (pae_continue ae s b c).
Proof. unfold pae_continue. humble_parts. Qed.
#[local] Hint Resolve humble_pae_continue : keeps.

(** ** Higher terms *)

(** Another term, and the end as one who does not lead. *)
Lemma plain_move_on {A} t (rest : M A) n n' a : Plain rest -> (new_term t;; rest) n = Some (n', a) -> state n' <> Leader -> plain n n'.
Proof.
  intros Hr (n1 & [] & Hn & Hm)%bind_inv Hl Hs. apply bind_inv in Hn as (n2 & [] & [= <-] & [= <-]). apply Hr in Hm as [[] _]; [exact Hs|].
  split; [|done]. by split.
Qed.

Lemma demoted_follower n : demoted n -> state n <> Leader.
Proof. intros [Hd|Hd]; congruence. Qed.

Lemma plain_yield_to lterm p : Plain (yield_to lterm p).
Proof.
  apply Keeps_get_bind. intros n n' a Hm. destruct (term n <? lterm); cbn [when] in Hm; [|by apply (plain_stepdown p n n' a)].
  rewrite bind_assoc in Hm. eapply plain_move_on; [|exact Hm|]; [plain_parts|]. apply bind_inv in Hm as (? & ? & _ & Hm). by apply stepdown_after, demoted_follower in Hm.
Qed.
#[local] Hint Resolve plain_yield_to : keeps.

Lemma plain_pae_roles ae : Plain (pae_roles ae).
Proof. unfold pae_roles. plain_parts. Qed.

Lemma yield_not_leader lterm p n n' a : yield_to lterm p n = Some (n', a) -> state n' <> Leader.
Proof. intros (n1 & k & _ & Hm)%bind_inv. by apply stepdown_after, demoted_follower in Hm. Qed.

(** Who goes on with the entries of another does not lead. *)
Lemma pae_roles_yields ae n n' : pae_roles ae n = Some (n', false) -> state n' <> Leader.
Proof.
  intros (n0 & m & [= <- <-] & Hm)%bind_inv. apply bind_inv in Hm as (n1 & ret & Hr & Hm). destruct ret; [done|].
  apply bind_inv in Hm as (n0 & m & [= <- <-] & Hm). apply bind_inv in Hm as (n2 & [] & Hw & [= <-]). assert (state n1 <> Leader) as Hl.
  { destruct (isLeader n) eqn:Hn; [|injection Hr as <-; by apply not_leader]. destruct (term n <=? lterm_of ae).
    - apply bind_inv in Hr as (n3 & [] & Hy & [= <-]). by eapply yield_not_leader. - by apply bind_inv in Hr as (? & ? & _ & [= ]). }
  destruct (_ && _); cbn [when] in Hw; [by eapply yield_not_leader|by injection Hw as <-].
Qed.

Lemma plain_pae_term ae s b : Plain (pae_term ae s b).
Proof.
  apply Keeps_get_bind. intros n. cbv zeta. destruct (term n <? lterm_of ae); [|apply keeps_at_of; plain_parts].
  intros n' a Hm. eapply plain_move_on; [|exact Hm|]; [plain_parts|]. apply bind_inv in Hm as (n1 & [] & _ & Hm). apply bind_inv in Hm as (n2 & [] & _ & Hm).
  apply bind_inv in Hm as (n0 & m & [= <- <-] & Hm). apply bind_inv in Hm as (n3 & [] & Hw & [= <- <-]). unfold isFollower in Hw.
  destruct (bool_decide_reflect (state n2 = Follower)); cbn [negb when] in Hw; [injection Hw as <-; congruence|by eapply demoted_follower, stepdown_demoted].
Qed.
#[local] Hint Resolve plain_pae_roles plain_pae_term : keeps.

Lemma plain_processAppendEntry ae s : Plain (processAppendEntry ae s).
Proof.
  intros n n' a (n0 & m & [= <- <-] & Hm)%bind_inv. destruct (_ || _); [injection Hm as <- _; reflexivity|].
  apply bind_inv in Hm as (n1 & ret & Hr & Hm). transitivity n1; [by eapply plain_pae_roles|]. destruct ret; [injection Hm as <- _; reflexivity|].
  apply humble_plain; [by eapply pae_roles_yields|]. revert Hm. apply keeps_at_of. humble_parts.
Qed.
#[local] Hint Resolve plain_processAppendEntry : keeps.

Lemma plain_processAppendEntries oor : Plain (processAppendEntries oor).
Proof. unfold processAppendEntries. plain_parts. Qed.
#[local] Hint Resolve plain_processAppendEntries : keeps.

Lemma lawful_response online ar : ar_reply ar <> AppendSubj -> Lawful (processAppendEntryResponse online ar).
Proof.
  intros Ha. pose proof (Keeps_lawful _ (plain_catchupFollower ar Ha)). unfold processAppendEntryResponse. apply Keeps_bind; [apply _|lawful_parts|]. intros _.
  do 2 (case_match; [lawful_parts|]). apply Keeps_get_bind. intros n. destruct (_ <? _); cbn [when]; [|apply keeps_at_of; lawful_parts].
  intros n' a Hm. apply plain_lawful. eapply plain_move_on; [|exact Hm|]; [plain_parts|]. apply bind_inv in Hm as (? & ? & _ & Hm). by apply stepdown_after, demoted_follower in Hm.
Qed.

(** A term that the node has already, or for one that does not lead. *)
Lemma plain_set_term t n : t = term n \/ state n <> Leader -> keeps_at plain (term <~ t) n.
Proof.
  intros Ht n' a [= <- <-]. destruct Ht as [->|Hl]; [plain_field|]. by apply plain_leave.
Qed.

Lemma raise_plain vr n n' :
  term n <= vr_term vr ->
  when (term n <? vr_term vr) (when (negb (isFollower n)) (stepdownLocked noLeader);; cancelCatchup;; new_term (vr_term vr);; writeTermVote) n = Some (n', tt) ->
  plain n n' /\ (vr_term vr = term n' \/ state n' <> Leader).
Proof.
  intros Hle Hm. pose proof (raise_term_spec _ _ _ Hle Hm) as [_ Ht]. split; [|by left].
  destruct (Z.ltb_spec (term n) (vr_term vr)); cbn [when] in Hm; [|injection Hm as <-; reflexivity].
  apply bind_inv in Hm as (n1 & [] & Hs & Hm). apply bind_inv in Hm as (n2 & [] & Hc & Hm). assert (plain n n1 /\ state n1 <> Leader) as [P1 D1].
  { unfold isFollower in Hs. destruct (bool_decide_reflect (state n = Follower)); cbn [negb when] in Hs; [injection Hs as <-; split; [reflexivity|congruence]|].
    split; [by eapply plain_stepdown|by eapply demoted_follower, stepdown_demoted]. }
  transitivity n1; [done|]. pose proof (ca_role _ _ (calm_cancelCatchup _ _ _ Hc)) as R2. apply plain_cancelCatchup in Hc. transitivity n2; [done|].
  eapply plain_move_on; [|exact Hm|]; [plain_parts|]. apply bind_inv in Hm as (n3 & [] & Hn & Hw). apply bind_inv in Hn as (n4 & [] & [= <-] & [= <-]).
  apply calm_writeTermVote, ca_role in Hw. cbn in Hw. destruct R2 as [R2|[R2|R2]], Hw as [Hw|[Hw|Hw]]; congruence.
Qed.

Lemma plain_processVoteRequest vr : Plain (processVoteRequest vr).
Proof.
  apply Keeps_get_bind. intros n n' a Hm. cbv zeta in Hm. destruct (Z.ltb_spec (vr_term vr) (term n)) as [Hlt|Hle]; [by eapply plain_reply_vs|].
  apply bind_inv in Hm as (n1 & [] & Hr & Hm). apply raise_plain in Hr as [P1 Ht]; [|done]. transitivity n1; [done|].
  apply bind_inv in Hm as (n0 & m & [= <- <-] & Hm). destruct (_ && _); [|by eapply plain_reply_vs].
  apply bind_inv in Hm as (n2 & [] & Hs & Hm). apply plain_set_term in Hs; [|done]. transitivity n2; [done|].
  revert Hm. apply keeps_at_of. plain_parts.
Qed.
#[local] Hint Resolve plain_processVoteRequest : keeps.

Lemma plain_pop_request : Plain pop_request.
Proof. unfold pop_request. plain_parts. Qed.

Lemma plain_requestVote : Plain requestVote.
Proof. unfold requestVote. plain_parts. Qed.
#[local] Hint Resolve plain_pop_request plain_requestVote : keeps.

Lemma plain_switchToCandidate : Plain switchToCandidate.
Proof.
  apply Keeps_get_bind. intros n. do 2 (case_match; [apply keeps_at_of; plain_parts|]). apply keeps_at_bind; [apply _|apply keeps_at_of; plain_parts|].
  intros n1 _ _ n' a Hm. pose proof (plain_switch Candidate ltac:(done)). eapply plain_move_on; [|exact Hm|]; [plain_parts|].
  do 3 apply bind_inv in Hm as (? & ? & _ & Hm). apply bind_inv in Hm as (n2 & b & Hsw & [= <- <-]).
  apply switch_state_role in Hsw as [[Hl|[Hl|Hl]]|Hl]; congruence.
Qed.
#[local] Hint Resolve plain_switchToCandidate : keeps.

(** ** Calls and messages *)

Lemma plain_overrun : Plain overrun.
Proof. unfold overrun. plain_parts. Qed.
#[local] Hint Resolve plain_overrun : keeps.

Lemma plain_ProposeMulti es : Plain (ProposeMulti es).
Proof. unfold ProposeMulti. plain_parts. Qed.

Lemma plain_pauseApplyLocked : Plain pauseApplyLocked.
Proof. unfold pauseApplyLocked. plain_parts. Qed.
#[local] Hint Resolve plain_ProposeMulti plain_pauseApplyLocked : keeps.

Lemma plain_resume_commits count : forall i, Plain (resume_commits count i).
Proof. induction count as [|count IH]; intros i; cbn [resume_commits]; plain_parts. Qed.
#[local] Hint Resolve plain_resume_commits : keeps.

Lemma plain_ResumeApply : Plain ResumeApply.
Proof. unfold ResumeApply, xferCampaign. plain_parts. Qed.

Lemma plain_createSnapshotCheckpointLocked b : Plain (createSnapshotCheckpointLocked b).
Proof. unfold createSnapshotCheckpointLocked. plain_parts. Qed.
#[local] Hint Resolve plain_ResumeApply plain_createSnapshotCheckpointLocked : keeps.

(** A snapshot is sent by a leader. *)
Definition licensed (c : call) (n : raft) : Prop := match c with CSendSnapshot _ => state n = Leader | _ => True end.

Lemma lawful_api_call c n n' a : api_call c n = Some (n', a) -> licensed c n -> lawful n n'.
Proof.
  intros Hm Hc. destruct c; cbn [api_call] in Hm.
  14: { unfold SendSnapshot in Hm. apply bind_inv in Hm as (n1 & e & Hs & [= <- <-]). by eapply send_entries. }
  all: revert Hm; apply keeps_at_of; unfold Propose, ForwardProposal, Propose, ProposeRemovePeer, ProposeKnownPeers, UpdateKnownPeers, AdjustClusterSize,
    AdjustBootClusterSize, PauseApply, DrainAndReplaySnapshot, Processed, InstallSnapshot, LoadLastSnapshot, checkpoint_write, checkpoint_compact,
    checkpoint_done, checkpoint_abort, CampaignImmediately, Campaign, SetObserver, setObserverLocked; lawful_parts.
Qed.

Lemma plain_handleForwardedProposal reply msg : Plain (handleForwardedProposal reply msg).
Proof. unfold handleForwardedProposal. plain_parts. Qed.

Lemma plain_handleForwardedRemovePeerProposal reply msg : Plain (handleForwardedRemovePeerProposal reply msg).
Proof. unfold handleForwardedRemovePeerProposal. plain_parts. Qed.

Lemma plain_handleAppendEntryResponse reply msg : reply <> AppendSubj -> Plain (handleAppendEntryResponse reply msg).
Proof.
  intros Hr. unfold handleAppendEntryResponse. apply Keeps_lift_bind. intros ar _. apply Keeps_modify. intros n [Hre Hru]. split; [|cbn; lia].
  split; [|done|done|exists []; cbn; by rewrite app_nil_r]. split; [|exact Hru]. intros ar' [Har|Har%list_elem_of_singleton]%elem_of_app; [by apply Hre|by subst].
Qed.
#[local] Hint Resolve plain_handleForwardedProposal plain_handleForwardedRemovePeerProposal : keeps.

Lemma plain_deliver m : m_reply m <> AppendSubj -> Plain (deliver m).
Proof.
  intros Hr. pose proof (plain_handleAppendEntryResponse (m_reply m) (m_data m) Hr).
  unfold deliver, handleVoteRequest, handleAppendEntry, handleVoteResponse. plain_parts.
Qed.

(** ** The start *)

Lemma humble_setupLastSnapshot : Humble setupLastSnapshot.
Proof. unfold setupLastSnapshot. humble_parts. Qed.

Lemma plain_remove_snapshots : Plain remove_snapshots.
Proof. unfold remove_snapshots. plain_parts. Qed.

Lemma plain_restorePeerState : Plain restorePeerState.
Proof. unfold restorePeerState. plain_parts. Qed.

Lemma plain_queue_size es : forall qsz, Plain (queue_size es qsz).
Proof. induction es as [|e es IH]; intros qsz; cbn [queue_size]; unfold PauseApply; plain_parts. Qed.
#[local] Hint Resolve humble_setupLastSnapshot plain_remove_snapshots plain_restorePeerState plain_queue_size : keeps.

Lemma humble_replay count : forall index first qsz, Humble (replay count index first qsz).
Proof. induction count as [|count IH]; intros index first qsz; cbn [replay]; unfold truncateAndErr, replay_entry; humble_parts. Qed.

Lemma plain_start_observer cfg : Plain (start_observer cfg).
Proof. unfold start_observer, SetObserver, setObserverLocked. plain_parts. Qed.
#[local] Hint Resolve humble_replay plain_start_observer : keeps.

Lemma start_entries p l (d : D) now inbox cfg n :
  initRaftNode p l d now inbox cfg = Some (inr n) -> sane n /\ demoted n /\ loc n = RunStart /\ Forall (entries_free p) (out n).
Proof.
  intros Hi. apply bind_Some in Hi as ([n2 e] & Hn & He). destruct e as [|]; [done|]. injection He as ->.
  pose proof (init_node_quiet _ _ _ _ Hn) as (n1 & Hr & [Hq Hk]). pose proof (readTermVote_spec _ _ _ _ _ _ _ Hr) as (_ & _ & Hid & _ & _ & _ & Ho & Hst & Hloc).
  assert (demoted n) as Hd by (destruct Hk as [|[Hk _]]; [done|left; congruence]).
  assert (resp n1 = [] /\ runners n1 = ∅) as [Hre Hru].
  { clear - Hr. apply bind_inv in Hr as (n0 & k & [= <- <-] & Hr). destruct (readFile _ _) as [|buf]; [by injection Hr as <-|].
    destruct (read_term_vote buf) as [t v]. destruct (0 <? t); cbn [when] in Hr; [|by injection Hr as <-]. apply bind_inv in Hr as (n3 & [] & [= <-] & Hr). by injection Hr as <-. }
  apply bind_inv in Hn as (n1' & [] & Hr' & Hm). rewrite Hr in Hr'. injection Hr' as <-.
  assert (humble n1 n) as Hh by (revert Hm; apply keeps_at_of; humble_parts).
  destruct Hh as [Hs _ _ (new & Hn & Hf)]; [split; [rewrite Hre; by intros ar ?%elem_of_nil|by rewrite Hru]|].
  split_and!; [done|done|by rewrite (mi_loc _ _ Hq)|]. by rewrite Hn, Ho, <- Hid.
Qed.

(** ** Rounds of the loops *)

Lemma lawful_send_proposals es : forall entries sz, Lawful (send_proposals es entries sz).
Proof. induction es as [|b es IH]; intros entries sz; cbn [send_proposals]; lawful_parts. Qed.
#[local] Hint Resolve lawful_send_proposals : keeps.

Lemma plain_follower_step ev : Plain (follower_step ev).
Proof. destruct ev; cbn [follower_step]; unfold again; plain_parts. Qed.

(** A round without an election. *)
Lemma plain_candidate_step vs es ev : ev <> EvVotes -> Plain (candidate_step vs es ev).
Proof. destruct ev; cbn [candidate_step]; unfold again; intros ?; try done; plain_parts. Qed.

Lemma lawful_responses online l : (forall ar, ar ∈ l -> ar_reply ar <> AppendSubj) -> Lawful (each (processAppendEntryResponse online) l).
Proof. intros Hl. apply Keeps_each; [apply _|]. intros ar Har. by apply lawful_response, Hl. Qed.

Lemma lawful_leader_step online ev : Lawful (leader_step online ev).
Proof.
  destruct ev; cbn [leader_step]; unfold again; try solve [lawful_parts].
  intros n n' a (n0 & m & [= <- <-] & Hm)%bind_inv Hs. pose proof (lawful_responses online (resp n) (proj1 Hs)).
  match type of Hm with ?m n = _ => enough (Lawful m) as Hk by exact (Hk n n' a Hm Hs) end. lawful_parts.
Qed.
#[local] Hint Resolve plain_follower_step lawful_leader_step : keeps.

Lemma plain_run_top ok : Plain (run_top ok).
Proof. unfold run_top, candidate_start, leader_start, again. plain_parts. Qed.
#[local] Hint Resolve plain_run_top : keeps.

Lemma run_lawful online ok ev n n' a :
  run_step online ok ev n = Some (n', a) ->
  lawful n n' \/ exists vs es, loc n = InCandidate vs es /\ ev = EvVotes /\ candidate_step vs es ev n = Some (n', a).
Proof.
  intros (n0 & m & [= <- <-] & Hm)%bind_inv. assert (forall h : M unit, Lawful h -> h n = Some (n', a) -> lawful n n') as Hk by (intros h Hh Hx; by eapply Hh).
  destruct (loc n) as [| | |vs es| |]; [| | |destruct ev| |]; try solve [left; eapply Hk; [|exact Hm]; lawful_parts].
  all: try (left; eapply Hk; [|exact Hm]; apply Keeps_lawful, plain_candidate_step; done). right. by exists vs, es.
Qed.
End entries.
