(* ===== verification/RaftUnique.v ===== *)
(** * One entry for a term and index

    Over any run of a group in which one node at most leads a term, the term and the index before
    it name an entry: no two messages with entries have both in common and differ. *)

From S2P Require Import Prelude Binary RecordUpdate RaftCodec RaftCodecSpec Raft RaftFrame RaftLog RaftAppend RaftRun RaftElection RaftVoting RaftMemory RaftSystem RaftEntries.
Import RaftCodec Raft RaftLog RaftAppend RaftRun RaftMemory Trio.

#[local] Existing Instances calm_preorder quiet_preorder same_vote_preorder leaves_preorder same_size_preorder plain_preorder lawful_preorder.

Section unique.
Context {L D : Type} `{WAL L} `{Files D} `{RaftEnv} `{!CountedLog L} `{!DurableVotes D}.
Notation M := (M L D).
Notation raft := (raft L D).
Notation sys := (sys (L := L) (D := D)).
Notation event := (event (L := L)).
Implicit Types n : raft.

(** ** The entry of a new leader *)

Lemma same_size_switch st : Keeps same_size (switchState st : M bool).
Proof.
  unfold switchState, lead_change, updateLeadChange, writeTermVote, stat_write_file, setWriteErrLocked, shutdown.
  assert (forall f b, Keeps same_size (write_file f b : M (option rerr))) as Hw by (intros f b n n' a; unfold write_file; destruct (writeFile (disk n) f b); by intros [= <- <-]).
  keeps_with ltac:(done).
Qed.

Lemma same_size_updateLeader p : Keeps same_size (updateLeader p : M unit).
Proof. unfold updateLeader, updateLeadChange. keeps_with ltac:(done). Qed.

(** Its first entry is of its term, and it leads afterwards if there is one. *)
Record crowned (n n' : raft) : Prop := {
  cr_sane : sane n'; cr_nid : nid n' = nid n;
  cr_out : exists new, out n' = out n ++ new /\ Forall (own (nid n)) new /\ once new /\
    forall m t i, m ∈ new -> append_key m = Some (t, i) -> state n' = Leader /\ t = u64 (term n') /\ i < u64 (pindex n') }.

Lemma plain_crowned n1 n2 n3 : plain n1 n2 -> sane n1 -> (sane n2 -> crowned n2 n3) -> crowned n1 n3.
Proof.
  intros Hp Hs Hc. destruct (Hp Hs) as [[S2 I2 _ (a & Ha & Fa)] _]. destruct (Hc S2) as [S3 I3 (b & Hb & Ob & Nb & Kb)].
  split; [done|congruence|]. exists (a ++ b). rewrite Hb, Ha, app_assoc. split; [done|]. rewrite I2 in Ob. rewrite Forall_forall in Fa.
  split; [|split].
  - apply Forall_app. split; [|done]. apply Forall_forall. intros m Hm. by apply Fa.
  - apply once_app; [unfold once; rewrite no_keys; [constructor|]; intros m Hm; by apply Fa|done|]. intros x y k Hx _ Kx _. destruct (Fa x Hx). congruence.
  - intros m t i [Hm|Hm]%elem_of_app Hk; [destruct (Fa _ Hm); congruence|by eapply Kb].
Qed.

Lemma crowned_refl n : sane n -> crowned n n.
Proof. intros Hs. split; [done|done|]. exists []. rewrite app_nil_r. split_and!; [done|done|constructor|]. by intros m t i ?%elem_of_nil. Qed.

Lemma send_first es n n' err : sendAppendEntryLocked es true n = Some (n', err) -> csz n <> 1 -> sane n -> crowned n n'.
Proof.
  intros Hm Hc Hs. destruct (decide (state n = Leader)) as [Hl|Hl].
  - apply send_entries in Hm as [Hlaw Hpost]; [|done]. destruct (Hlaw Hs) as [S2 I2 L2 (new & Hn & [Ho Hk Hu])]. split; [done|done|]. exists new. split_and!; [done..|].
    intros m t i Hin Hkey. destruct (Hk m t i Hin Hkey) as (_ & Ht & _ & Hi). destruct (Hpost Hs Hc) as [Hl'|(new' & Hn' & Hf)].
    + destruct (L2 Hl') as (_ & -> & _). auto.
    + rewrite Hn in Hn'. apply app_inv_head in Hn'. subst new'. rewrite Forall_forall in Hf. destruct (Hf m Hin). congruence.
  - apply bind_inv in Hm as (n0 & m & [= <- <-] & Hm). unfold isLeader in Hm. rewrite bool_decide_false in Hm by done. injection Hm as <- _. by apply crowned_refl.
Qed.

Lemma switchToLeader_crowned n n' a : switchToLeader n = Some (n', a) -> csz n <> 1 -> sane n -> crowned n n'.
Proof.
  intros (n0 & m & [= <- <-] & Hm)%bind_inv Hc Hs. destruct (isClosed n); [injection Hm as <- _; by apply crowned_refl|].
  apply bind_inv in Hm as (n1 & [] & [= <-] & Hm). apply bind_inv in Hm as (n2 & [] & Hu & Hm). apply bind_inv in Hm as (n3 & b & Hsw & Hm).
  apply bind_inv in Hm as (n4 & [] & Hsend & Hm). apply bind_inv in Hm as (n0 & m & [= <- <-] & [= <- _]).
  assert (csz n3 <> 1) as Hc3.
  { pose proof (same_size_updateLeader _ _ _ _ Hu) as [E2 _]. pose proof (same_size_switch _ _ _ _ Hsw) as [E3 _]. cbn in E2. congruence. }
  apply bind_inv in Hsend as (n0 & m & [= <- <-] & Hsend). apply bind_inv in Hsend as (n5 & e & Hsend & [= <-]).
  assert (crowned n n5) as []; [|by split].
  eapply plain_crowned; [|exact Hs|intros S2].
  { transitivity (n <| lxfer := false |>); [by apply plain_view|by eapply plain_updateLeader]. }
  unfold switchState in Hsw. apply bind_inv in Hsw as (n0 & pst & [= <- <-] & Hsw).
  destruct (bool_decide (state n2 = Closed)); [injection Hsw as <- <-; by eapply send_first|].
  apply bind_inv in Hsw as (n1 & [] & [= <-] & Hsw).
  assert (crowned (n2 <| state := Leader |>) n5) as []; [|by split]. eapply plain_crowned; [|exact S2|intros S3; by eapply send_first].
  apply bind_inv in Hsw as (n1 & lc & Hlc & Hsw). apply bind_inv in Hsw as (n6 & [] & Hw & [= <- <-]).
  transitivity n1; [by eapply plain_lead_change|by eapply plain_writeTermVote].
Qed.

Lemma plain_step_down : Keeps plain (writeTermVote;; lxfer <~ false;; stepdownLocked noLeader : M unit).
Proof.
  apply Keeps_bind; [apply _|apply plain_writeTermVote|]. intros _. apply Keeps_bind; [apply _| |intros _; apply plain_stepdown].
  apply Keeps_modify. intros n. by apply plain_view.
Qed.

Lemma plain_again st : Keeps plain (again st : M unit).
Proof. unfold again. keeps_with ltac:(by apply plain_view). Qed.

(** The vote that decides, and the others. *)
Lemma vote_entries vs es n n' a :
  candidate_step vs es EvVotes n = Some (n', a) -> csz n <> 1 -> sane n -> plain n n' \/ (crowned n n' /\ loc n' = RunTop /\ term n' = term n).
Proof.
  intros (n0 & m & [= <- <-] & Hm)%bind_inv Hc Hs.
  destruct (votes n) as [|v rest]; [left; by eapply plain_again|]. apply bind_inv in Hm as (n0 & [] & [= <-] & Hm). set (n0 := n <| votes := rest |>) in *.
  assert (plain n n0) as P0 by (by apply plain_view).
  apply bind_inv in Hm as (n1 & [[vs' es'] leads] & Hcv & Hm). apply bind_inv in Hcv as (nx & m1 & [= <- <-] & Hcv).
  assert (leads = false -> plain n0 n1 -> plain n n' \/ (crowned n n' /\ loc n' = RunTop /\ term n' = term n)) as Hno.
  { intros -> P1. left. transitivity n0; [done|]. transitivity n1; [done|]. apply bind_inv in Hm as (n2 & [] & [= <-] & Hm).
    etransitivity; [|by eapply plain_again]. by apply plain_view. }
  destruct (_ && _).
  - apply bind_inv in Hcv as (n2 & [] & Htr & Hcv). apply bind_inv in Hcv as (nx & m1 & [= <- <-] & Hcv). cbv zeta in Hcv.
    pose proof (calm_trackPeer _ _ _ _ Htr) as C2. pose proof (same_size_trackPeer _ _ _ _ Htr) as [Z2 _]. apply plain_trackPeer in Htr as P2.
    assert (forall nl, switchToLeader n2 = Some (nl, tt) -> n' = nl <| loc := RunTop |> -> crowned n n' /\ loc n' = RunTop /\ term n' = term n) as Hwon.
    { intros nl Hsw ->. destruct (tav_eq _ _ (ca_tav _ _ C2)) as [T2 _]. destruct (tav_eq _ _ (sv_tav _ _ (same_vote_switchToLeader _ _ _ Hsw))) as [T3 _].
      split_and!; [|done|cbn in *; congruence]. assert (crowned n nl) as []; [|by split].
      eapply plain_crowned; [|exact Hs|intros S2]; [by transitivity n0|]. eapply switchToLeader_crowned; [exact Hsw|rewrite Z2; done|done]. }
    destruct (wonElection _ _); [|destruct (_ =? _)]; [| |injection Hcv as <- <- <- <-; by apply Hno].
    all: apply bind_inv in Hcv as (nl & [] & Hnl & [= <- <- <- <-]); injection Hm as <- _; right; by eapply Hwon.
  - apply bind_inv in Hcv as (n2 & [] & Hw & [= <- <- <- <-]). apply Hno; [done|].
    destruct (term n0 <? vs_term v); cbn [when] in Hw; [|injection Hw as <-; reflexivity].
    eapply (plain_move_on (vs_term v) (writeTermVote;; lxfer <~ false;; stepdownLocked noLeader)); [apply plain_step_down|exact Hw|].
    do 2 apply bind_inv in Hw as (? & ? & _ & Hw). by apply stepdown_after, demoted_follower in Hw.
Qed.

(** ** Candidates *)

(** In the loop of a candidate, or about to enter it. *)
Definition seat (n : raft) : Prop := state n = Candidate \/ exists vs es, loc n = InCandidate vs es.

Definition older (n n' : raft) : Prop := term n <= term n'.

(** Nobody becomes a candidate in a term that it was in before. *)
Definition seated (n n' : raft) : Prop := term n <= term n' /\ (term n' = term n -> seat n' -> seat n).

#[local] Instance older_preorder : PreOrder older.
Proof. split; [intros n; unfold older; lia|]. intros n1 n2 n3. unfold older. lia. Qed.

#[local] Instance seated_preorder : PreOrder seated.
Proof.
  split; [intros n; split; [lia|done]|]. intros n1 n2 n3 [T2 S2] [T3 S3]. split; [lia|]. intros Ht Hs. apply S2; [lia|]. apply S3; [lia|done].
Qed.

Lemma seat_older n n' : seat n -> older n n' -> seated n n'.
Proof. by split. Qed.

Lemma seated_role n n' : older n n' -> loc n' = loc n -> leaves (state n) (state n') -> seated n n'.
Proof. intros Ho Hl Hr. split; [done|]. intros _ [Hc|Hc]; [left|right; by rewrite <- Hl]. destruct Hr as [Hr|[Hr|Hr]]; congruence. Qed.

Lemma seated_quiet {A} (m : M A) : Keeps quiet m -> Keeps seated m.
Proof. intros Hm n n' a Ha. destruct (Hm n n' a Ha) as [[] _]. by apply seated_role. Qed.

Lemma seated_calm {A} (m : M A) : Keeps calm m -> Keeps seated m.
Proof. intros Hm. by apply seated_quiet, Keeps_quiet_of_calm. Qed.

Lemma older_seated {A} (m : M A) : Keeps seated m -> Keeps older m.
Proof. intros Hm n n' a Ha. by apply (Hm n n' a). Qed.

Lemma seated_leave n l : (forall vs es, l <> InCandidate vs es) -> seated n (n <| loc := l |>).
Proof. intros Hl. split; [cbn; lia|]. intros _ [Hc|(vs & es & Hx)]; [by left|by destruct (Hl vs es)]. Qed.

Ltac seated_field := first [by split; [reflexivity|] | by apply seated_leave].
Ltac seated_parts := keeps_with seated_field.

Lemma seated_again st : Keeps seated (again st : M unit).
Proof. unfold again. seated_parts. Qed.

Lemma seated_pop_request : Keeps seated (pop_request : M unit).
Proof.
  assert (forall vr, Keeps seated (processVoteRequest vr : M unit)) as Hv.
  { intros vr n n' a Hm%processVoteRequest_answered. by apply seated_role; apply Hm. }
  unfold pop_request. seated_parts.
Qed.

Lemma seated_processAppendEntries oor : Keeps seated (processAppendEntries oor : M unit).
Proof. apply seated_quiet, quiet_processAppendEntries. Qed.

Lemma seated_stepdown p : Keeps seated (stepdownLocked p : M unit).
Proof. apply seated_calm, calm_stepdown. Qed.
#[local] Hint Resolve seated_again seated_pop_request seated_processAppendEntries seated_stepdown : keeps.

Lemma seated_candidate n : 0 <= term n -> term n < 2 ^ 64 - 1 -> keeps_at seated switchToCandidate n.
Proof.
  intros Hp Hb n' a Hm. destruct (switchToCandidate_spec n n' a Hp Hb Hm) as [Hc|[]].
  - apply calm_quiet in Hc as [[] _]. by apply seated_role. - injection cd_tav as Ht _. split; lia.
Qed.

Lemma seated_elect n : 0 <= term n -> term n < 2 ^ 64 - 1 -> keeps_at seated (switchToCandidate;; loc <~ RunTop) n.
Proof. intros Hp Hb. apply keeps_at_bind; [apply _|by apply seated_candidate|]. intros. apply keeps_at_of. seated_parts. Qed.

Lemma seated_follower ev n : 0 <= term n -> term n < 2 ^ 64 - 1 -> keeps_at seated (follower_step ev) n.
Proof.
  intros Hp Hb. pose proof (seated_calm _ calm_catchupStalled). pose proof (seated_calm _ calm_cancelCatchup).
  destruct ev; cbn [follower_step]; try solve [apply keeps_at_of; seated_parts].
  intros n' a (n0 & m & [= <- <-] & Hm)%bind_inv. destruct (oor || observer n); [by eapply seated_again|].
  destruct (catchup n); [|by eapply seated_elect]. revert Hm. apply keeps_at_of. seated_parts.
Qed.

Lemma seated_leader online ev : Keeps seated (leader_step online ev : M unit).
Proof.
  pose proof (fun ar => seated_quiet _ (quiet_processAppendEntryResponse online ar)). pose proof (fun es l sz => seated_calm _ (calm_send_proposals es l sz)).
  pose proof (fun s => seated_calm _ (calm_send_nothing s)). pose proof (seated_calm _ calm_sendHeartbeat).
  destruct ev; cbn [leader_step]; seated_parts.
Qed.

Lemma older_count_vote vs es v : Keeps older (count_vote vs es v : M _).
Proof.
  apply Keeps_get_bind. intros n. destruct (_ && _).
  - apply keeps_at_of. assert (Keeps older (switchToLeader : M unit)).
    { intros x y b Hx%same_vote_switchToLeader. destruct (tav_eq _ _ (sv_tav _ _ Hx)) as [Ht _]. unfold older. lia. }
    pose proof (fun p => older_seated _ (seated_calm _ (calm_trackPeer p))). keeps_with ltac:(unfold older; cbn; lia).
  - intros n' r (n2 & [] & Hw & [= <- <-])%bind_inv. destruct (Z.ltb_spec (term n) (vs_term v)) as [Hlt|_]; cbn [when] in Hw; [|by injection Hw as <-].
    assert (quiet n n2) as [[] _]; [|done]. revert Hw. apply (new_term_quiet (vs_term v) (writeTermVote;; lxfer <~ false;; stepdownLocked noLeader)); [done|apply calm_step_down|].
    intros na nb b (nc & [] & _ & Hx)%bind_inv. by apply stepdown_after in Hx.
Qed.

Lemma seated_in_candidate vs es ev n :
  loc n = InCandidate vs es -> 0 <= term n -> term n < 2 ^ 64 - 1 -> keeps_at seated (candidate_step vs es ev) n.
Proof.
  intros Hl Hp Hb n' a Hm. apply seat_older; [right; by eauto|]. revert n' a Hm. pose proof older_count_vote.
  destruct ev; cbn [candidate_step]; try solve [apply keeps_at_of, older_seated; seated_parts].
  - apply keeps_at_of. pose proof (older_seated _ (seated_again Candidate)). keeps_with ltac:(unfold older; cbn; lia).
  - intros n' a Hm. by eapply seated_elect.
Qed.

Lemma seated_top ok n : loc n = RunTop -> keeps_at seated (run_top ok) n.
Proof.
  intros Hl n' a (n0 & m & [= <- <-] & Hm)%bind_inv. revert n' a Hm. destruct (state n) eqn:Hs; try solve [apply keeps_at_of; unfold leader_start; seated_parts].
  intros n' a Hm. apply seat_older; [by left|]. revert n' a Hm. apply keeps_at_of. pose proof (older_seated _ (seated_again Candidate)).
  pose proof (older_seated _ (seated_calm _ calm_writeTermVote)).
  unfold candidate_start, requestVote, sendRPC. keeps_with ltac:(unfold older; cbn; lia).
Qed.

Lemma seated_run online ok ev n : 0 <= term n -> term n < 2 ^ 64 - 1 -> keeps_at seated (run_step online ok ev) n.
Proof.
  intros Hp Hb n' a (n0 & m & [= <- <-] & Hm)%bind_inv. destruct (loc n) as [| | |vs es| |] eqn:Hl.
  - pose proof (seated_calm _ calm_ResumeApply). apply bind_inv in Hm as (n1 & [] & Hr & [= <- _]). transitivity n1; [by eapply H2|].
    etransitivity; [|apply (seated_leave _ RunTop); done]. by split.
  - by eapply seated_top.
  - by eapply seated_follower.
  - by eapply seated_in_candidate.
  - by eapply seated_leader.
  - injection Hm as <- _. reflexivity.
Qed.

Lemma seated_deliver m : Keeps seated (deliver m : M unit).
Proof.
  pose proof (fun s r d => seated_calm _ (calm_handleAppendEntry s r d)). pose proof (fun r d => seated_calm _ (calm_handleAppendEntryResponse r d)).
  pose proof (fun r d => seated_calm _ (calm_handleForwardedProposal r d)). pose proof (fun r d => seated_calm _ (calm_handleForwardedRemovePeerProposal r d)).
  unfold deliver, handleVoteRequest, handleVoteResponse. seated_parts.
Qed.

(** ** Events *)

(** What an event does to the node [n] that sends nothing before it. *)
Record paced (n n' : raft) : Prop := {
  pc_sane : sane n'; pc_own : Forall (own (nid n)) (out n'); pc_once : once (out n'); pc_seated : seated n n';
  pc_lead : state n' = Leader -> term n' = term n /\ ((state n = Leader /\ u64 (pindex n) <= u64 (pindex n')) \/ (seat n /\ loc n' = RunTop));
  pc_key : forall m t i, m ∈ out n' -> append_key m = Some (t, i) ->
    t = u64 (term n) /\ (state n' = Leader -> i < u64 (pindex n')) /\ ((state n = Leader /\ u64 (pindex n) <= i) \/ (seat n /\ state n' = Leader)) }.

Lemma lawful_paced n n' : lawful n n' -> seated n n' -> sane n -> out n = [] -> paced n n'.
Proof.
  intros Hl Hse Hs Ho. destruct (Hl Hs) as [S I Ld (new & Hn & [Hw Hk Hu])]. rewrite Ho in Hn. cbn in Hn. subst new. split; try done.
  - intros Hl'. destruct (Ld Hl') as (? & ? & ?). auto.
  - intros m t i Hm Hkey. destruct (Hk m t i Hm Hkey) as (? & ? & ? & ?). auto.
Qed.

Lemma crowned_paced n n' : crowned n n' -> seated n n' -> seat n -> loc n' = RunTop -> term n' = term n -> out n = [] -> paced n n'.
Proof.
  intros [S I (new & Hn & Hw & Hu & Hk)] Hse Hs Hl Ht Ho. rewrite Ho in Hn. cbn in Hn. subst new. split; try done; [auto|].
  intros m t i Hm Hkey. destruct (Hk m t i Hm Hkey) as (? & -> & ?). rewrite Ht. auto.
Qed.

Lemma run_paced online ok ev n n' a :
  run_step online ok ev n = Some (n', a) -> 0 <= term n -> term n < 2 ^ 64 - 1 -> csz n <> 1 -> sane n -> out n = [] -> paced n n'.
Proof.
  intros Hm Hp Hb Hc Hs Ho. pose proof (seated_run online ok ev n Hp Hb n' a Hm) as Hse.
  destruct (run_lawful online ok ev n n' a Hm) as [Hl|(vs & es & Hl & -> & Hv)]; [by apply lawful_paced|].
  destruct (vote_entries vs es n n' a Hv Hc Hs) as [Hpl|(Hcr & Htop & Ht)]; [by apply lawful_paced; [apply plain_lawful|..]|].
  apply crowned_paced; try done. right. by eauto.
Qed.

(** ** Groups *)

(** Entries are of a term that their sender was elected in, and before the end of its log as long
    as it leads. *)
Record unique (s : sys) : Prop := {
  un_sane : forall p n, nodes s !! p = Some n -> sane n;
  un_reply : Forall (fun m => m_reply m <> AppendSubj) (net s);
  un_key : forall m t i, m ∈ net s -> append_key m = Some (t, i) -> (t, m_from m) ∈ elected s /\
    forall n, nodes s !! m_from m = Some n -> state n = Leader -> term n = t -> i < u64 (pindex n);
  un_once : once (net s);
  un_seat : forall t p n, (t, p) ∈ elected s -> nodes s !! p = Some n -> t = term n -> ~ seat n }.

Lemma unique_settle s p n' :
  unique s -> sane n' -> Forall (own p) (out n') -> once (out n') ->
  (forall t, (t, p) ∈ elected (settle p n' s) -> t = term n' -> ~ seat n') ->
  (forall m t i, m ∈ net s -> m_from m = p -> append_key m = Some (t, i) -> state n' = Leader -> term n' = t -> i < u64 (pindex n')) ->
  (forall m t i, m ∈ out n' -> append_key m = Some (t, i) -> (t, p) ∈ elected (settle p n' s) /\ (state n' = Leader -> i < u64 (pindex n'))) ->
  (forall x y k, x ∈ net s -> y ∈ out n' -> append_key x = Some k -> append_key y = Some k -> False) ->
  unique (settle p n' s).
Proof.
  intros [Us Ur Uk Uo Ue] Hs Hown Ho Hseat Hold Hnew Hdis.
  assert (forall t q, (t, q) ∈ elected s -> (t, q) ∈ elected (settle p n' s)) as Hmono by (intros t q Hin; apply elected_settle; by left).
  rewrite Forall_forall in Hown. split; cbn [nodes net settle].
  - intros q m [[<- <-]|[_ Hq]]%lookup_insert_Some; [done|by eapply Us].
  - apply Forall_app. split; [done|]. apply Forall_forall. intros m Hm. by apply Hown.
  - intros m t i [Hm|Hm]%elem_of_app Hk.
    + destruct (Uk m t i Hm Hk) as [He Hi]. split; [by apply Hmono|]. intros n [[Hp <-]|[_ Hn]]%lookup_insert_Some; [|by apply Hi]. by eapply Hold.
    + destruct (Hown m Hm) as [-> _]. destruct (Hnew m t i Hm Hk) as [He Hi]. split; [done|]. intros n. rewrite lookup_insert_eq. intros [= <-] Hl _. by apply Hi.
  - by apply once_app.
  - intros t q n Hin [[<- <-]|[Hne Hq]]%lookup_insert_Some Ht; [by eapply Hseat|].
    apply elected_settle in Hin as [Hin|[-> _]]; [by eapply Ue|done].
Qed.

Lemma elected_term members V s t p n : inv members V s -> (t, p) ∈ elected s -> nodes s !! p = Some n -> t <= term n.
Proof.
  intros Hinv Hin Hp. destruct (in_elected _ _ _ Hinv t p Hin) as [HV _]. destruct (in_disk _ _ _ Hinv p n t p Hp HV) as [Hle _].
  destruct (sy_le n (ok_sync _ _ _ _ (in_node _ _ _ Hinv p n Hp))) as [Hlt|[Heq _]]; cbn in *; lia.
Qed.

Lemma paced_unique members V V' s p n n' :
  inv members V s -> inv members V' (settle p n' s) -> unique s -> nodes s !! p = Some n -> term n < 2 ^ 64 ->
  paced (n <| out := [] |>) n' -> unique (settle p n' s).
Proof.
  intros Hinv Hinv' Hu Hp Hb [Hs Hown Ho [Hold Hseat] Hlead Hkey]. cbn in Hold, Hseat, Hlead, Hkey. pose proof (in_node _ _ _ Hinv p n Hp) as Hok.
  assert (u64 (term n) = term n) as Ht by (apply u64_small; pose proof (ok_term _ _ _ _ Hok); unfold is_u64; lia). rewrite Ht in Hkey.
  assert (forall t, (t, p) ∈ elected s -> t = term n -> ~ seat n) as Hns by (intros t Hin; by eapply (un_seat _ Hu)).
  change (seat (n <| out := [] |>)) with (seat n) in *. assert (Forall (own p) (out n')) as Hown' by (rewrite <- (ok_nid _ _ _ _ Hok); exact Hown).
  assert (forall m t i, m ∈ out n' -> append_key m = Some (t, i) -> (t, p) ∈ elected (settle p n' s)) as Hel.
  { intros m t i Hm Hk. apply elected_settle. destruct (Hkey m t i Hm Hk) as (-> & _ & [[Hl _]|[_ Hl]]); [left; by apply (ok_lead _ _ _ _ Hok)|].
    right. by destruct (Hlead Hl) as [-> _]. }
  apply unique_settle; try done.
  - intros t Hin Heq Hsn. apply elected_settle in Hin as [Hin|(_ & _ & Hl)].
    + pose proof (elected_term _ _ _ _ _ _ Hinv Hin Hp). apply (Hns t Hin); [lia|]. apply Hseat; [lia|done].
    + destruct (Hlead Hl) as [Htt [[Hl' _]|[_ Htop]]]; [|destruct Hsn as [?|(vs & es & ?)]; congruence].
      apply (Hns (term n)); [by apply (ok_lead _ _ _ _ Hok)|done|by apply Hseat].
  - intros m t i Hm Hf Hk Hl Heq. destruct (un_key _ Hu m t i Hm Hk) as [Hin Hi]. rewrite Hf in *. destruct (Hlead Hl) as [Htt [[Hl' Hpi]|[Hsn _]]].
    + specialize (Hi n Hp Hl' ltac:(congruence)). lia. + destruct (Hns t Hin); [congruence|done].
  - intros m t i Hm Hk. split; [by eapply Hel|]. by apply (Hkey m t i).
  - intros x y [t i] Hx Hy Kx Ky. destruct (un_key _ Hu x t i Hx Kx) as [Hin Hi].
    assert (m_from x = p) as Hf by (eapply (elected_once _ _ _ t _ _ Hinv'); [apply elected_settle; by left|by eapply Hel]). rewrite Hf in *.
    destruct (Hkey y t i Hy Ky) as (-> & _ & [[Hl Hge]|[Hsn _]]); [specialize (Hi n Hp Hl eq_refl); lia|by destruct (Hns _ Hin)].
Qed.

Lemma restart_unique s p n' :
  unique s -> sane n' -> demoted n' -> loc n' = RunStart -> Forall (entries_free p) (out n') -> unique (settle p n' s).
Proof.
  intros Hu Hs Hd Hl Hf. rewrite Forall_forall in Hf. apply demoted_follower in Hd as Hnl.
  apply unique_settle; try done.
  - apply Forall_forall. intros m Hm. by apply Hf.
  - unfold once. rewrite no_keys; [constructor|]. intros m Hm. by apply Hf.
  - intros t _ _ [Hc|(vs & es & Hc)]; [destruct Hd; congruence|congruence].
  - intros m t i Hm Hk. destruct (Hf m Hm). congruence.
  - intros x y k _ Hy _ Ky. destruct (Hf y Hy). congruence.
Qed.

Lemma exec_unique members V V' s s' p (m : M unit) :
  inv members V s -> steady s -> inv members V' s' -> size members <> 1%nat -> unique s -> exec p m s = Some s' ->
  (forall k n' a, nodes s !! p = Some k -> let n := k <| out := [] |> in
     m n = Some (n', a) -> 0 <= term n -> term n < 2 ^ 64 - 1 -> csz n <> 1 -> sane n -> paced n n') ->
  unique s'.
Proof.
  intros Hinv Hst Hinv' Hsz Hu (n & Hp & Hx)%bind_Some Hm. apply bind_Some in Hx as ([n' a] & Hn' & [= <-]).
  destruct (Hst p n Hp) as (Hc & _ & Ht). rewrite (in_dom _ _ _ Hinv) in Hc. pose proof (ok_term _ _ _ _ (in_node _ _ _ Hinv p n Hp)).
  eapply paced_unique; [done|done|done|exact Hp|lia|]. eapply Hm; [done|exact Hn'|done|done|cbn; lia|exact (un_sane _ Hu p n Hp)].
Qed.

(** Snapshots are sent by leaders. *)
Definition licensed_event (s : sys) (ev : event) : Prop :=
  match ev with Call p (CSendSnapshot _) => exists n, nodes s !! p = Some n /\ state n = Leader | _ => True end.

Lemma step_unique members V V' s ev s' :
  inv members V s -> steady s -> inv members V' s' -> size members <> 1%nat -> licensed_event s ev -> unique s -> step s ev = Some s' -> unique s'.
Proof.
  intros Hinv Hst Hinv' Hsz Hlic Hu Hs. destruct ev; cbn [step] in Hs.
  - apply bind_Some in Hs as (m & Hm & Hx). eapply exec_unique; [exact Hinv|done|exact Hinv'|done|done|exact Hx|]. intros k n' a _ n Hd _ _ _ Hsn. apply lawful_paced; [|by eapply seated_deliver|done|done].
    apply plain_lawful. eapply plain_deliver; [|exact Hd]. pose proof (un_reply _ Hu) as Hr. rewrite Forall_lookup in Hr. by eapply Hr.
  - eapply exec_unique; [exact Hinv|done|exact Hinv'|done|done|exact Hs|]. intros k n' a _ n Hr Hp Hb Hc Hsn. by eapply run_paced.
  - eapply exec_unique; [exact Hinv|done|exact Hinv'|done|done|exact Hs|]. intros k n' a Hk n Hr _ _ _ Hsn.
    apply lawful_paced; [|by eapply (seated_calm _ (calm_api_call c))|done|done]. eapply lawful_api_call; [exact Hr|].
    destruct c; try done. destruct Hlic as (n0 & Hn0 & Hl). rewrite Hk in Hn0. by injection Hn0 as <-.
  - eapply exec_unique; [exact Hinv|done|exact Hinv'|done|done|exact Hs|]. intros k n' a _ n Hr _ _ _ Hsn.
    apply lawful_paced; [by eapply plain_lawful, plain_catchup_step|by eapply (seated_calm _ (calm_catchup_step q))|done|done].
  - eapply exec_unique; [exact Hinv|done|exact Hinv'|done|done|exact Hs|]. intros k n' a _ n Hr _ _ _ Hsn.
    apply lawful_paced; [by eapply plain_lawful, plain_catchup_stop|by eapply (seated_calm _ (calm_catchup_stop q))|done|done].
  - eapply exec_unique; [exact Hinv|done|exact Hinv'|done|done|exact Hs|]. intros k n' a _ n [= <- _] _ _ _ Hsn.
    apply lawful_paced; [by apply plain_lawful, plain_view|by split|done|done].
  - apply bind_Some in Hs as (n & Hp & Hs). apply bind_Some in Hs as (r & Hi & Hs). destruct r as [|n']; [done|]. injection Hs as <-.
    apply start_entries in Hi as (? & ? & ? & ?). by apply restart_unique.
Qed.

Lemma starts_unique s : starts s -> unique s.
Proof.
  intros (Hn & Hnet & He).
  assert (forall p n, nodes s !! p = Some n -> sane n /\ Forall (entries_free p) (out n)) as Hok.
  { intros p n Hp. destruct (Hn p n Hp) as (_ & l & d & now & inbox & cfg & Hi). by apply start_entries in Hi as (? & _ & _ & ?). }
  assert (forall m, m ∈ net s -> exists p, entries_free p m) as Hf.
  { intros m Hm. rewrite Hnet in Hm. apply list_elem_of_In, in_concat in Hm as (ms & Hms & Hm). apply in_map_iff in Hms as ([p n] & <- & Hp).
    apply list_elem_of_In, elem_of_map_to_list in Hp. apply list_elem_of_In in Hm. destruct (Hok p n Hp) as [_ Hf]. rewrite Forall_forall in Hf. by exists p; apply Hf. }
  split.
  - intros p n Hp. by destruct (Hok p n Hp).
  - apply Forall_forall. intros m Hm. by destruct (Hf m Hm) as (p & [_ ?] & _).
  - intros m t i Hm Hk. destruct (Hf m Hm) as (p & _ & ?). congruence.
  - unfold once. rewrite no_keys; [constructor|]. intros m Hm. by destruct (Hf m Hm) as (p & _ & ?).
  - intros t p n Hin. rewrite He in Hin. by apply elem_of_nil in Hin.
Qed.

Lemma run_unique members evs : forall V s s',
  inv members V s -> unique s -> size members <> 1%nat -> (forall k sk, run s (take k evs) = Some sk -> steady sk) ->
  (forall k sk ev, run s (take k evs) = Some sk -> evs !! k = Some ev -> licensed_event sk ev) -> run s evs = Some s' -> unique s'.
Proof.
  induction evs as [|ev evs IH]; intros V s s' Hinv Hu Hsz Hst Hlic Hr; [by injection Hr as <-|].
  cbn [run] in Hr. apply bind_Some in Hr as (s1 & Hs & Hr).
  destruct (step_inv members V s ev s1) as [V1 Hinv1]; [done|by apply (Hst 0%nat)|done|apply (Hst 1%nat); cbn; by rewrite Hs|].
  eapply IH; [exact Hinv1| |done| | |exact Hr].
  - eapply step_unique; [exact Hinv|by apply (Hst 0%nat)|exact Hinv1|done|by apply (Hlic 0%nat)|done|done].
  - intros k sk Hk. apply (Hst (S k)). cbn [take run]. by rewrite Hs.
  - intros k sk ev' Hk Hev. apply (Hlic (S k)); [|done]. cbn [take run]. by rewrite Hs.
Qed.

(** ** Messages *)

Lemma decode_entries_length ne : forall msg ri es ri', decode_entries ne msg ri = Some (inr (es, ri')) -> length es = ne.
Proof.
  induction ne as [|ne IH]; intros msg ri es ri' Hd; cbn [decode_entries] in Hd; [by injection Hd as <- _|]. case_match; [done|].
  apply bind_Some in Hd as (ml & _ & Hd). case_match; [done|]. apply bind_Some in Hd as (t & _ & Hd). apply bind_Some in Hd as (data & _ & Hd).
  apply bind_Some in Hd as (r & Hr & Hd). destruct r as [|[es' ri2]]; [done|]. injection Hd as <- _. cbn. f_equal. by eapply IH.
Qed.

Lemma key_of_decode m sub reply ae :
  m_subj m = AppendSubj -> decodeAppendEntry (m_data m) sub reply = Some (inr ae) -> shouldStore ae = true -> append_key m = Some (ae_term ae, ae_pindex ae).
Proof.
  intros Hs Hd Hst. unfold append_key. rewrite bool_decide_true by done. destruct (decode_length _ _ _ _ Hd) as [_ Hlen]. rewrite (proj2 (Nat.leb_le _ _) Hlen).
  unfold decodeAppendEntry in Hd. rewrite (proj2 (Nat.ltb_ge _ _) Hlen) in Hd. apply bind_Some in Hd as (leader & _ & Hd).
  unfold appendEntryBaseLen in Hlen. unfold read_le in Hd. rewrite !(proj2 (Nat.leb_le _ _)) in Hd by lia. cbn [mbind option_bind] in Hd.
  apply bind_Some in Hd as (r & Hr & Hd). destruct r as [|[es ri]]; [done|]. apply bind_Some in Hd as (rest & _ & [= <-]). cbn [ae_term ae_pindex].
  apply decode_entries_length in Hr. unfold shouldStore, zlen in Hst. cbn [ae_entries] in Hst. apply Z.ltb_lt in Hst. rewrite (proj2 (Z.ltb_lt _ _)); [done|lia].
Qed.

Lemma omap_position {A B} (f : A -> option B) l : forall j1 j2 x1 x2 k,
  NoDup (omap f l) -> l !! j1 = Some x1 -> l !! j2 = Some x2 -> f x1 = Some k -> f x2 = Some k -> j1 = j2.
Proof.
  induction l as [|x l IH]; intros j1 j2 x1 x2 k Hd H1' H2' K1 K2; [done|].
  assert (forall j y, l !! j = Some y -> f y = Some k -> f x <> Some k) as Hne.
  { intros j y Hy Ky Kx. cbn in Hd. rewrite Kx in Hd. apply NoDup_cons in Hd as [Hn _]. apply Hn, list_elem_of_omap. exists y. split; [by eapply list_elem_of_lookup_2|done]. }
  assert (NoDup (omap f l)) as Hd' by (cbn in Hd; destruct (f x); [by apply NoDup_cons in Hd as []|done]).
  destruct j1, j2; cbn in H1', H2'; [done|injection H1' as ->; by destruct (Hne j2 x2)|injection H2' as ->; by destruct (Hne j1 x1)|]. f_equal. by eapply IH.
Qed.

(** C12. Entries are sent once.  In a group of more than one node, of which only leaders send
    snapshots, however it runs, no two messages with entries for everyone have the same term and
    the same index before them: the term and index of an entry name it, whoever sent it.  As for
    election safety the vote file is written when it should be and the nodes agree on the size of
    the group. *)
Theorem entries_once s0 evs s j1 j2 m1 m2 ae1 ae2 :
  starts s0 -> size (dom (nodes s0) : gset peer) <> 1%nat -> (forall k sk, run s0 (take k evs) = Some sk -> steady sk) ->
  (forall k sk ev, run s0 (take k evs) = Some sk -> evs !! k = Some ev -> licensed_event sk ev) -> run s0 evs = Some s ->
  net s !! j1 = Some m1 -> m_subj m1 = AppendSubj -> decodeAppendEntry (m_data m1) None NoSubj = Some (inr ae1) -> shouldStore ae1 = true ->
  net s !! j2 = Some m2 -> m_subj m2 = AppendSubj -> decodeAppendEntry (m_data m2) None NoSubj = Some (inr ae2) -> shouldStore ae2 = true ->
  ae_term ae1 = ae_term ae2 -> ae_pindex ae1 = ae_pindex ae2 -> j1 = j2.
Proof.
  intros H0s Hsz Hst Hlic Hr H1' S1 D1 E1 H2' S2 D2 E2 Ht Hi.
  assert (unique s) as Hu.
  { eapply (run_unique (dom (nodes s0))); [apply starts_inv; [done|by apply (Hst 0%nat)]|by apply starts_unique|done..]. }
  eapply (omap_position append_key); [apply (un_once _ Hu)|exact H1'|exact H2'|by eapply key_of_decode|]. rewrite Ht, Hi. by eapply key_of_decode.
Qed.
End unique.

#[export] Instance mem_counted : CountedLog mem_log.
Proof. split. intros l b seq [= <-]. unfold log_last, base, zlen. lia. Qed.

(** In the group of three A leads and then C; each sends an entry. *)
Lemma entries_once_witness :
  exists s0 s m ae, group dir dir dir = Some s0 /\ run s0 retry = Some s /\ net s !! 2%nat = Some m /\
    decodeAppendEntry (m_data m) None NoSubj = Some (inr ae) /\ ae_term ae = 2 /\ ae_pindex ae = 1 /\
    forall j m' ae', net s !! j = Some m' -> m_subj m' = AppendSubj -> decodeAppendEntry (m_data m') None NoSubj = Some (inr ae') -> shouldStore ae' = true ->
      ae_term ae' = 2 -> ae_pindex ae' = 1 -> j = 2%nat.
Proof.
  assert ((s0 ← group dir dir dir; s ← run s0 retry; m ← net s !! 2%nat; r ← decodeAppendEntry (m_data m) None NoSubj;
    Some (first_messages s0, steady_run s0 retry, size (dom (nodes s0) : gset peer), m_subj m,
      match r with inr ae => (shouldStore ae, ae_term ae, ae_pindex ae) | inl _ => (false, 0, 0) end)) =
    Some ([], true, 3%nat, AppendSubj, (true, 2, 1))) as Hr by (vm_compute; reflexivity).
  destruct (group dir dir dir) as [s0|] eqn:Hg; [|discriminate Hr]. cbn [mbind option_bind] in Hr.
  destruct (run s0 retry) as [s|] eqn:Hs; [|discriminate Hr]. cbn [mbind option_bind] in Hr. destruct (net s !! 2%nat) as [m|] eqn:Hm; [|discriminate Hr].
  cbn [mbind option_bind] in Hr. destruct (decodeAppendEntry (m_data m) None NoSubj) as [[|ae]|] eqn:Hd; [discriminate Hr| |discriminate Hr].
  apply (inj Some) in Hr. injection Hr as Hf Hst Hsz Hsub Hsh Ht Hi.
  exists s0, s, m, ae. split_and!; [done|done|done|done|done|done|]. intros j m' ae' Hj Hsj Hdj Hshj Htj Hij.
  assert (Forall (fun ev : event (L := mem_log) => match ev with Call _ _ => False | _ => True end) retry) as Hno by (repeat constructor).
  apply (entries_once s0 retry s j 2%nat m' m ae' ae (group_starts _ _ _ s0 Hg Hf) ltac:(lia) (steady_run_sound retry s0 Hst)); try done; [|congruence|congruence].
  intros k sk ev _ Hev. rewrite Forall_lookup in Hno. specialize (Hno k ev Hev). by destruct ev.
Defined.
